(* ===== verification/_CoqProject ===== *)
-Q . S2P
Prelude.v
Clock.v
Part.v
Types.v
Record.v
Expiry.v
Sketch.v
Wire.v
Merge.v
Arena.v
Engine.v
Apply.v
Removal.v
Housekeeping.v
Compaction.v
Evict.v
Read.v
Serve.v
Inflight.v
LoadProtocol.v
Receipts.v
Counter.v
ObservedSet.v
Prefold.v
Batch.v
Ownership.v
Residency.v
Rebalance.v
RebalanceTask.v
Absence.v
SkewHold.v
FanOut.v
Mesh.v
PeerServe.v
Inbound.v
Dispatch.v
AntiEntropy.v
Convergence.v
Retirement.v
Pending.v
LocalWrite.v
Rearm.v
Load.v
