(* ===== verification/Prelude.v ===== *)
(** * A verification development for sundog

    sundog is an embedded, replicated cache: every node keeps a sharded store of versioned
    records, spreads its writes to its peers, repairs differences by comparing digests, and
    resolves concurrent writes without coordination. This library models the part of it that
    decides what a node stores, answers and sends (the crate [sundog], under [src/sundog/src])
    and proves that part correct. The build modelled is the default one, without the [spill], [tls],
    [prometheus] and [sim] features.

    ** The program and its model

    A node stamps writes with a hybrid logical clock. A key's 64-bit hash picks one of 1024
    stripes and one of 64 parts of that stripe; each stripe holds its live entries in a slab,
    its tombstones, its loads in flight and its long deadlines, under one lock; each part has a
    digest, the XOR of the fingerprints of what it stores. Operations lock one stripe at a time
    and update the digests and the running totals. In the model an operation is a function from
    the engine's state to the next one, and a locked section is one step.

    - [Prelude.v]: machine integers (saturating, checked and wrapping operations written out),
      options, XOR and sums over lists, little-endian bytes, an error monad, the tactics
      [ulia], [bcase], [ok_inv] and the hint database [sundog].
    - [Clock.v]: [node.rs] and [hlc.rs]: node ids, stamps and their order, the clock.
    - [Part.v]: [store/part.rs] and the index functions of [store/engine/keys.rs].
    - [Types.v]: [store/types.rs], [store/resolver.rs] (the resolver trait as a class) and the
      data and derived versions of [store/mod.rs].
    - [Record.v], [Expiry.v]: [store/engine/record.rs] and [expiry.rs]: the bytes of an entry,
      its 32-bit deadlines and idle stamps, tombstone retention.
    - [Sketch.v]: [sketch.rs], the invertible Bloom lookup table of anti-entropy.
    - [Wire.v]: [wire.rs], the frame codec, byte by byte for the raw record frames.
    - [Merge.v]: [store/engine/merge.rs], conflict resolution, merge versions, the frame cap.
    - [Arena.v]: [store/engine/slab.rs], the slab, as an arena and as the indexed structure.
    - [Engine.v]: [store/engine/mod.rs], the engine's state and its invariant [engine_inv]:
      every stripe well formed, every part digest exact, every total the sum over the stripes.
    - [Apply.v]: [store/engine/apply.rs], a write reaching its stripe.
    - [Removal.v]: [store/engine/removal.rs], invalidation and the release of parts.
    - [Housekeeping.v], [Compaction.v]: [store/engine/housekeeping.rs], tombstone collection,
      the sweep, and the compaction pass.
    - [Evict.v]: [store/engine/evict.rs], capacity eviction.
    - [Read.v], [Serve.v]: [store/engine/read.rs] and [serve.rs]: what a node answers to its
      callers and to its peers, snapshots and their chunks.
    - [Inflight.v], [LoadProtocol.v]: [store/engine/inflight.rs]: single-flight loads, and the
      protocol of their owners and waiters as a step relation.
    - [Load.v]: [store/load.rs] and the fill of [store/shard_read.rs]: what a read-through claims,
      asks the source for, stores and answers; the batch window's queue.
    - [Receipts.v], [Counter.v], [ObservedSet.v]: [store/crdt/]: the PN-counter and the OR-set,
      their merges, the retirement of writers and the resolvers.
    - [Prefold.v], [Batch.v]: [store/engine/prefold.rs] and the batch loop of [apply.rs].

    Above the engine a node decides which parts it owns, ships its writes to their owners,
    answers its peers, and repairs what was missed.

    - [Ownership.v]: [ownership.rs], rendezvous ranking, views and their successors.
    - [Residency.v]: the residency set of [ownership.rs] and the verdicts of [verdict.rs],
      [explain.rs] and [net/types.rs] that decide a read or a fetch.
    - [Rebalance.v], [RebalanceTask.v]: [cluster/rebalance.rs] and [state_transfer.rs]: plans,
      pulls, hand-over and release; the task's view changes as a step relation.
    - [Absence.v]: [cluster/absence.rs], who is away and what that holds back.
    - [SkewHold.v]: [store/skew_hold.rs] and [shard_skew.rs], forwards from clocks ahead of ours.
    - [FanOut.v]: [store/fan_out.rs] and [cluster/fan_out.rs], the queue and what a drain sends.
    - [Mesh.v]: [net/mesh.rs] and [net/outbox.rs], the outboxes and the peer table.
    - [PeerServe.v], [Inbound.v]: [cluster/handler.rs], [net/conn/], [store/shard_serve.rs]: the
      answer to every request, and a batch of records arriving.
    - [Dispatch.v]: [cluster/inbound.rs], the loop over what peers send unasked, the runs it
      gathers, and the lanes of the batches it sends on.
    - [AntiEntropy.v], [Convergence.v]: [cluster/anti_entropy.rs], the scheduler's turn, rounds
      and the pull loop; two nodes that run a round against each other.
    - [Retirement.v]: [cluster/crdt_compact.rs], which writers a tick retires, and the shard's
      compaction pass.
    - [Pending.v], [LocalWrite.v]: [store/shard_merge.rs] and [shard_write.rs]: pending merge
      folds and their deadlines; inserts, removes, bulk writes, merges, flushes and clear.
    - [Rearm.v]: [store/shard_rearm.rs], expire, touch and persist.

    ** What the theorems show

    - Convergence: replicas that apply the same writes in any order agree on every record and
      every digest ([lww_writes_converge]); one exchange of two records reaches the same record
      on both sides, merging resolvers included ([exchange_converges_in_one_round]); one
      anti-entropy round makes two replicas equal ([one_round_converges]), its pull loop
      ends and a slow peer is not starved.
    - Local writes: every operation returns and keeps the shard's invariant
      ([every_write_keeps_the_shard]), a write takes effect, a bulk insert is its inserts in
      turn, a coalescing window carries every call and ends on time, a re-arm changes only the
      lifetime.
    - Batches: pre-folding a batch's runs changes nothing ([prefolded_batch_is_sequential]);
      an inbound batch leaves the newest of what was held and what came; a burst of messages is
      its messages in turn ([a_burst_is_its_messages_in_turn], for last-writer-wins caches, against the interface
      [ShardOps], whose laws the inbound path discharges).
    - Ownership and rebalance: the incremental view is the computed one; no definitive miss is
      answered for a part not held throughout, provided nothing beyond the seed view's parts was
      marked serving before the first view; a part is released only when each owner has answered
      for it or, twice the grace later, is unreachable.
    - Shipping: the owners of a record, and only they, are sent it if it fits a frame, also when
      the sender had another view ([a_stale_forward_reaches_our_owners]); a lost frame leaves its
      peer marked for repair unless it met a closed outbox; held forwards are not lost; only resident entries are served.
    - Absence and retirement: a crashed member holds collection back; only dead writers retire
      ([a_retired_writer_is_dead]) and every tick reaches all of them.
    - Deletes hold: older writes do not undo a tombstone ([tombstone_outlives_older_writes]),
      replicas agree on its deadlines, and a collected delete does not come back.
    - Each operation on the engine changes exactly what it says and keeps [engine_inv]:
      invalidation, release of parts, collection, sweep, compaction, eviction. The statements
      are about [engine_record], the record stored under a key, for every key.
    - Reads and answers: every read of a key agrees with the record stored
      ([reads_agree]); digests and listings are exact; a snapshot reproduces the store.
    - Loads: a fill never replaces newer data, and each key has at most one load that has not
      ended, whatever interleaves ([one_load_per_key]); a read-through answers from the cache,
      then from the source.
    - CRDTs: the OR-set implements the observed-remove specification
      ([or_set_refines_observed_remove]) and merging is a join on its members; a counter's value
      is exact however its writes travel, and compaction does not change it, nor the merge of
      copies compacted apart for no longer than twice the bound.
    - Capacity: the eviction loop ends, under the cap, and spares the write that caused it.
    - Refinements: the slab is its arena, a part set is the finite set of its parts.
    - Round trips and bounds: frames, records, expiry encodings, mode tokens; a decoded frame
      never claims more than it holds; the clock's lead stays bounded.
    - Some statements record where the code departs from its documentation or intent: the
      sketch's peel loop on a malformed sketch ([peel_diverges_on_a_lone_cell]), weightless
      entries in eviction samples, a writer counted twice after its fold, a forward near the
      frame limit, a notification left over to the next batch window, parts vouched for before the first view, dirty marks outside a cohort,
      and a bulk remove that meets a key it cannot encode.

    ** Parameters

    Code outside the repository is a class argument with its documented laws, each with a
    concrete instance for evaluation: [Hashing] (xxh3 and postcard's stamp encoding),
    [PostcardU32], [PostcardMsg] and [Postcard] (postcard), [HashTable] (hashbrown), [ValueCodec] (serde),
    [IdleSort] (the standard library's unstable sort). What a peer answers, what an outbox
    takes, which member is live and how large the compiler lays a message out ([Layout]) are
    arguments. [AskedWriters] says which writers a
    resolver asks about while it compacts; the PN-counter is its instance. [ConflictResolver] is the program's own
    trait; its contract is [ResolverLaws].

    ** Fuel

    [peel_loop] carries fuel, because it need not end; the positive theorem on it gives the fuel
    that is enough. [evict_loop] carries [evict_fuel], twice the total weight plus 4, which
    is shown to be enough: each round lowers twice the weight, plus two while the write is
    still protected, plus one after a scan. The pull loop of anti-entropy carries twice the
    entries plus two; a compaction tick carries a pass per stripe plus one ([tick_fuel]): both are
    proved enough. The other loops are structural.

    ** Not modelled

    - Memory orderings, locks and wake-ups: a locked section is one step, and an await is a
      point between steps.
    - Metrics, logs and the capacity of tables: they do not change what is stored or sent.
    - The spill tier ([store/spill/], [promote.rs], [sink.rs], [checkpoint.rs]): file I/O behind
      an optional feature.
    - Gossip ([membership/]): chitchat, a third-party library; views of it are arguments.
    - Sockets, TLS, discovery, the spawning and shutdown of tasks: network and runtime calls.
    - The cache facade, its builder and loading layers ([cache.rs], [cache/], [layers.rs]),
      refresh-ahead ([refresh.rs]) and the read paths of [shard_read.rs].
    - The crates around the library: the terminal UI, the test node, benchmarks and demos. *)

From Stdlib Require Export ZArith Lia.
From stdpp Require Export base gmap list sorting.

Global Open Scope Z_scope.

(** Byte strings ([Bytes], [&[u8]]): every element is a byte value. *)
Abbreviation Bytes := (list Z) (only parsing).

(** ** Machine-width integers

    A [u64] is a [Z] in its range; the saturating, checked and wrapping
    operations of the Rust integer types are written out. *)

Definition u8_max : Z := 255.
Definition u16_max : Z := 65535.
Definition u32_max : Z := 4294967295.
Definition u64_max : Z := 18446744073709551615.

Definition is_u8 (x : Z) : Prop := 0 <= x <= u8_max.
Definition is_u16 (x : Z) : Prop := 0 <= x <= u16_max.
Definition is_u32 (x : Z) : Prop := 0 <= x <= u32_max.
Definition is_u64 (x : Z) : Prop := 0 <= x <= u64_max.

Definition saturating_add (x y : Z) : Z := Z.min (x + y) u64_max.
Definition saturating_sub (x y : Z) : Z := Z.max (x - y) 0.
Definition saturating_mul (x y : Z) : Z := Z.min (x * y) u64_max.

(** [Duration::MAX] in whole milliseconds, and [Duration::saturating_mul]. *)
Definition DURATION_MAX : Z := u64_max * 1000 + 999.
Definition duration_mul (d n : Z) : Z := Z.min (d * n) DURATION_MAX.

Definition checked_add (max x y : Z) : option Z :=
  if x + y <=? max then Some (x + y) else None.
Definition checked_sub (x y : Z) : option Z :=
  if y <=? x then Some (x - y) else None.

(** [as u32], and a [u32] computation in a build without overflow checks. *)
Definition wrap32 (x : Z) : Z := x mod 4294967296.
(** [i32::wrapping_add] and [wrapping_sub] in two's complement. *)
Definition wrap_i32 (x : Z) : Z := (x + 2147483648) mod 4294967296 - 2147483648.

(** [Option<u64>] comparisons: [None] sorts below every [Some]. *)
Definition option_max (a b : option Z) : option Z :=
  match a, b with
  | Some x, Some y => Some (Z.max x y)
  | Some x, None => Some x
  | None, o => o
  end.

(** [Option::is_some_and] and [Option::is_none_or] with a boolean test. *)
Definition is_some_and {A} (o : option A) (f : A -> bool) : bool :=
  match o with Some x => f x | None => false end.
Definition is_none_or {A} (o : option A) (f : A -> bool) : bool :=
  match o with Some x => f x | None => true end.
Definition is_some {A} (o : option A) : bool :=
  match o with Some _ => true | None => false end.

(** ** Automation *)

Create HintDb sundog.

(** Unfold the integer vocabulary, then linear arithmetic. *)
Ltac widths :=
  unfold saturating_add, saturating_sub, saturating_mul, is_u8, is_u16, is_u32, is_u64,
    u8_max, u16_max, u32_max, u64_max in *.
Ltac ulia := widths; lia.
(** [lia] on goals with [/] and [mod]. *)
Ltac dlia := widths; Z.to_euclidean_division_equations; lia.

(** Split every boolean test of the context and goal into its comparison. *)
Ltac bsplit :=
  repeat match goal with
  | H : (_ && _)%bool = true |- _ => apply andb_prop in H; destruct H
  | H : (_ || _)%bool = false |- _ => apply orb_false_elim in H; destruct H
  | H : (_ <=? _) = true |- _ => apply Z.leb_le in H
  | H : (_ <=? _) = false |- _ => apply Z.leb_gt in H
  | H : (_ <? _) = true |- _ => apply Z.ltb_lt in H
  | H : (_ <? _) = false |- _ => apply Z.ltb_ge in H
  | H : (_ =? _) = true |- _ => apply Z.eqb_eq in H
  | H : (_ =? _) = false |- _ => apply Z.eqb_neq in H
  | H : negb _ = true |- _ => apply negb_true_iff in H
  | H : negb _ = false |- _ => apply negb_false_iff in H
  end.

(** Case on the first boolean test of the goal, keeping its meaning. *)
Ltac bcase :=
  match goal with
  | |- context [if ?b then _ else _] => destruct b eqn:?; bsplit
  end.

(** ** Integer lemmas *)

Lemma saturating_add_u64 x y : is_u64 x -> is_u64 y -> is_u64 (saturating_add x y).
Proof. ulia. Qed.

Lemma saturating_sub_u64 x y : is_u64 x -> is_u64 y -> is_u64 (saturating_sub x y).
Proof. ulia. Qed.

Lemma option_max_comm a b : option_max a b = option_max b a.
Proof. destruct a, b; simpl; f_equal; lia. Qed.

Lemma option_max_assoc a b c : option_max a (option_max b c) = option_max (option_max a b) c.
Proof. destruct a, b, c; simpl; f_equal; lia. Qed.

Lemma option_max_idemp a : option_max a a = a.
Proof. destruct a; simpl; f_equal; lia. Qed.

#[export] Hint Resolve saturating_add_u64 saturating_sub_u64 : sundog.

(** ** XOR folds

    Digests are XORs of per-entry fingerprints; what matters of a fold is that it
    depends on the entries as a multiset. *)

Definition xor_list (l : list Z) : Z := foldr Z.lxor 0 l.

Lemma xor_list_nil : xor_list [] = 0.
Proof. reflexivity. Qed.

Lemma xor_list_cons x l : xor_list (x :: l) = Z.lxor x (xor_list l).
Proof. reflexivity. Qed.

Lemma xor_list_app l k : xor_list (l ++ k) = Z.lxor (xor_list l) (xor_list k).
Proof.
  induction l as [|x l IH]; simpl; [by rewrite Z.lxor_0_l|].
  by rewrite IH, Z.lxor_assoc.
Qed.

Lemma xor_list_perm l k : l ≡ₚ k -> xor_list l = xor_list k.
Proof.
  induction 1 as [|x l k _ IH|x y l|l k m _ IH1 _ IH2]; simpl.
  - reflexivity.
  - by rewrite IH.
  - rewrite <-!Z.lxor_assoc. f_equal. apply Z.lxor_comm.
  - congruence.
Qed.

#[export] Instance xor_list_proper : Proper ((≡ₚ) ==> (=)) xor_list.
Proof. intros l k. apply xor_list_perm. Qed.

Lemma lxor_cancel_l x y : Z.lxor x (Z.lxor x y) = y.
Proof. by rewrite <-Z.lxor_assoc, Z.lxor_nilpotent, Z.lxor_0_l. Qed.

Lemma lxor_cancel_r x y : Z.lxor (Z.lxor x y) y = x.
Proof. by rewrite Z.lxor_assoc, Z.lxor_nilpotent, Z.lxor_0_r. Qed.

Lemma lxor_inj_r x y z : Z.lxor x z = Z.lxor y z -> x = y.
Proof. intros H. by rewrite <-(lxor_cancel_r x z), H, lxor_cancel_r. Qed.

Create Rewrite HintDb xor.
#[export] Hint Rewrite xor_list_nil xor_list_cons xor_list_app Z.lxor_0_l Z.lxor_0_r
  lxor_cancel_l lxor_cancel_r Z.lxor_nilpotent : xor.

(** ** Sums *)

Definition sum_Z (l : list Z) : Z := foldr Z.add 0 l.

Lemma sum_Z_cons x l : sum_Z (x :: l) = x + sum_Z l.
Proof. reflexivity. Qed.

Lemma sum_Z_app l k : sum_Z (l ++ k) = sum_Z l + sum_Z k.
Proof. induction l as [|x l IH]; simpl; [lia|rewrite IH; lia]. Qed.

Lemma sum_Z_perm l k : l ≡ₚ k -> sum_Z l = sum_Z k.
Proof. induction 1; simpl; lia. Qed.

#[export] Instance sum_Z_proper : Proper ((≡ₚ) ==> (=)) sum_Z.
Proof. intros l k. apply sum_Z_perm. Qed.

Lemma sum_Z_nonneg l : Forall (fun x => 0 <= x) l -> 0 <= sum_Z l.
Proof. induction 1; simpl; lia. Qed.

Lemma sum_Z_elem_le l x : Forall (fun y => 0 <= y) l -> x ∈ l -> x <= sum_Z l.
Proof.
  induction 1 as [|y l Hy Hl IH]; [by intros ?%not_elem_of_nil|]. pose proof (sum_Z_nonneg l Hl). rewrite sum_Z_cons.
  intros [->|Hx%IH]%elem_of_cons; lia.
Qed.

(** ** Filters *)

#[global] Arguments sum_Z _ : simpl never.

Lemma filter_ext_in {A} (P Q : A -> Prop) `{!forall x, Decision (P x), !forall x, Decision (Q x)} (l : list A) :
  (forall x, x ∈ l -> P x <-> Q x) -> filter P l = filter Q l.
Proof.
  induction l as [|x l IH]; intros Hpq; [done|].
  rewrite !filter_cons. rewrite IH by (intros; apply Hpq; by right).
  pose proof (Hpq x ltac:(by left)). repeat case_decide; tauto.
Qed.

Lemma filter_none {A} (P : A -> Prop) `{!forall x, Decision (P x)} (l : list A) :
  (forall x, x ∈ l -> ~ P x) -> filter P l = [].
Proof.
  induction l as [|x l IH]; intros Hpq; [done|].
  rewrite filter_cons_False by (apply Hpq; by left). apply IH. intros; apply Hpq; by right.
Qed.

Lemma list_filter_all {A} (P : A -> Prop) `{!forall x, Decision (P x)} (l : list A) :
  Forall P l -> filter P l = l.
Proof. induction 1; [done|]. rewrite filter_cons_True by done. by f_equal. Qed.

(** Removing from, or adding to, a predicate one element of a duplicate-free list. *)
Lemma filter_add_one {A} (P Q : A -> Prop) `{!forall x, Decision (P x), !forall x, Decision (Q x)} (l : list A) a :
  NoDup l -> a ∈ l -> ~ P a -> (forall x, x ∈ l -> Q x <-> x = a \/ P x) ->
  filter Q l ≡ₚ a :: filter P l.
Proof.
  intros Hnd Ha Hn Hpq. apply NoDup_Permutation.
  - by apply NoDup_filter.
  - constructor; [|by apply NoDup_filter]. rewrite list_elem_of_filter. tauto.
  - intros x. rewrite elem_of_cons, !list_elem_of_filter. split.
    + intros [HQ Hx]. apply Hpq in HQ; tauto.
    + intros [->|[HP Hx]]; split; try done; apply Hpq; auto.
Qed.

Lemma filter_fmap {A B} (f : A -> B) (P : B -> Prop) `{!forall x, Decision (P x)} (l : list A) :
  filter P (f <$> l) = f <$> filter (fun x => P (f x)) l.
Proof.
  induction l as [|x l IH]; [done|]. rewrite fmap_cons, !filter_cons, IH.
  by case_decide.
Qed.

Lemma filter_partition_perm {A} (P : A -> bool) (l : list A) :
  l ≡ₚ filter (fun x => P x = true) l ++ filter (fun x => P x = false) l.
Proof.
  induction l as [|x l IH]; [done|]. destruct (P x) eqn:E.
  - rewrite filter_cons_True, filter_cons_False by congruence. cbn. by constructor.
  - rewrite filter_cons_False, filter_cons_True by congruence. rewrite <-Permutation_middle. by constructor.
Qed.

Lemma sum_Z_partition {A} (f : A -> Z) (P : A -> bool) (l : list A) :
  sum_Z (f <$> filter (fun x => P x = false) l) =
  sum_Z (f <$> l) - sum_Z (f <$> filter (fun x => P x = true) l).
Proof.
  rewrite (sum_Z_perm _ _ (fmap_Permutation f _ _ (filter_partition_perm P l))).
  rewrite fmap_app, sum_Z_app. lia.
Qed.

(** A left fold whose steps commute on the list's elements does not see their order. *)
Lemma foldl_perm {A B} (f : B -> A -> B) l l' : l ≡ₚ l' ->
  (forall a b s, a ∈ l -> b ∈ l -> f (f s a) b = f (f s b) a) ->
  forall s, foldl f s l = foldl f s l'.
Proof.
  induction 1 as [|x l l' Hp IH|x y l|l1 l2 l3 H1 IH1 H2 IH2]; intros Hc s.
  - done.
  - cbn. apply IH. intros a b t Ha Hb. apply Hc; by apply list_elem_of_further.
  - cbn. by rewrite Hc by (rewrite !elem_of_cons; auto).
  - rewrite IH1 by done. apply IH2. intros a b t Ha Hb. apply Hc; by rewrite H1.
Qed.

(** Overwriting one slot of a list: what it held leaves, the new element joins. *)
Lemma insert_perm {A} (l : list A) i x y : l !! i = Some y ->
  exists R, l ≡ₚ y :: R /\ <[i := x]> l ≡ₚ x :: R.
Proof.
  intros Hi. exists (take i l ++ drop (S i) l). split.
  - rewrite <-(take_drop_middle l i y Hi) at 1. by rewrite <-Permutation_middle.
  - rewrite insert_take_drop by (by eapply lookup_lt_Some). by rewrite <-Permutation_middle.
Qed.

(** ** Little-endian integers, [to_le_bytes] and [from_le_bytes] *)

Fixpoint le_bytes (n : nat) (x : Z) : Bytes :=
  match n with O => [] | S n => x mod 256 :: le_bytes n (x / 256) end.

Fixpoint le_value (b : Bytes) : Z :=
  match b with [] => 0 | x :: b => x + 256 * le_value b end.

Lemma le_bytes_length n x : length (le_bytes n x) = n.
Proof. revert x; induction n as [|n IH]; intros x; simpl; [done|by rewrite IH]. Qed.

Lemma le_bytes_u8 n x : Forall is_u8 (le_bytes n x).
Proof. revert x; induction n as [|n IH]; intros x; simpl; constructor; [dlia|done]. Qed.

Lemma le_value_bytes n x : 0 <= x < 256 ^ Z.of_nat n -> le_value (le_bytes n x) = x.
Proof.
  revert x; induction n as [|n IH]; intros x Hx; cbn [le_bytes le_value]; [simpl in Hx; lia|].
  rewrite IH.
  - pose proof (Z.div_mod x 256). lia.
  - rewrite Nat2Z.inj_succ, Z.pow_succ_r in Hx by lia.
    split; [apply Z.div_pos; lia|]. apply Z.div_lt_upper_bound; lia.
Qed.

Lemma le_bytes_inj n x y :
  0 <= x < 256 ^ Z.of_nat n -> 0 <= y < 256 ^ Z.of_nat n -> le_bytes n x = le_bytes n y -> x = y.
Proof. intros Hx Hy H. rewrite <-(le_value_bytes n x), <-(le_value_bytes n y) by done. by rewrite H. Qed.

Lemma le_value_range b : Forall is_u8 b -> 0 <= le_value b < 256 ^ Z.of_nat (length b).
Proof.
  induction 1 as [|x b Hx Hb IH]; cbn [le_value length]; [simpl; lia|].
  rewrite Nat2Z.inj_succ, Z.pow_succ_r by lia. ulia.
Qed.

Lemma le_bytes_value b : Forall is_u8 b -> le_bytes (length b) (le_value b) = b.
Proof.
  induction 1 as [|x b Hx Hb IH]; cbn [le_value length le_bytes]; [done|].
  rewrite (Z.mul_comm 256), Z.mod_add, Z.mod_small by ulia.
  rewrite Z.div_add, Z.div_small, Z.add_0_l, IH by ulia. done.
Qed.

Lemma u64_le x : is_u64 x -> 0 <= x < 256 ^ Z.of_nat 8.
Proof. unfold is_u64, u64_max. simpl. lia. Qed.

Lemma u32_le x : is_u32 x -> 0 <= x < 256 ^ Z.of_nat 4.
Proof. unfold is_u32, u32_max. simpl. lia. Qed.

#[export] Hint Resolve u64_le u32_le le_bytes_u8 : sundog.

(** ** Results: Rust's [Result] with the [?] operator *)

Inductive result (A E : Type) := Ok (a : A) | Err (e : E).
Arguments Ok {A E}. Arguments Err {A E}.

Definition result_bind {A B E} (r : result A E) (k : A -> result B E) : result B E :=
  match r with Ok a => k a | Err e => Err e end.

Declare Scope result_scope.
Delimit Scope result_scope with result.
Notation "'let?' x := e 'in' k" := (result_bind e (fun x => k))
  (at level 10, x pattern, e at level 100, k at level 200) : result_scope.
Global Open Scope result_scope.

(** [Option::ok_or] and [bool] guards. *)
Definition ok_or {A E} (o : option A) (e : E) : result A E :=
  match o with Some a => Ok a | None => Err e end.
Definition ensure {E} (b : bool) (e : E) : result unit E := if b then Ok tt else Err e.

Lemma result_bind_ok {A B E} (r : result A E) (k : A -> result B E) b :
  result_bind r k = Ok b -> exists a, r = Ok a /\ k a = Ok b.
Proof. destruct r as [a|e]; simpl; [eauto|done]. Qed.

Lemma Ok_inj {A E} (a b : A) : @Ok A E a = Ok b -> a = b.
Proof. congruence. Qed.

(** Peel one [let?] off a hypothesis that says a computation succeeded. *)
Ltac ok_inv H :=
  let a := fresh "a" in let E := fresh "E" in
  apply result_bind_ok in H as (a & E & H).

(** ** Sorting integers *)

(** [Vec::dedup]. *)
Fixpoint dedup (l : list Z) : list Z :=
  match l with
  | x :: ((y :: _) as rest) => if x =? y then dedup rest else x :: dedup rest
  | _ => l
  end.

(** [sort_unstable] on integers. *)
Definition sort_Z (l : list Z) : list Z := merge_sort Z.le l.

Lemma dedup_elem x l : x ∈ dedup l <-> x ∈ l.
Proof.
  induction l as [|y [|z l] IH]; [done|done|]. cbn [dedup]. destruct (Z.eqb_spec y z) as [->|Hne].
  - rewrite IH, !elem_of_cons. tauto.
  - rewrite !(elem_of_cons _ x y), IH. done.
Qed.

Lemma dedup_nodup l : StronglySorted Z.le l -> NoDup (dedup l).
Proof.
  induction 1 as [|y l Hs IH Hy]; [constructor|]. destruct l as [|z l]; [apply NoDup_singleton|].
  change (NoDup (if y =? z then dedup (z :: l) else y :: dedup (z :: l))).
  destruct (Z.eqb_spec y z) as [->|Hne]; [done|]. constructor; [|done]. rewrite dedup_elem. intros Hin.
  apply elem_of_cons in Hin as [?|Hin]; [done|].
  apply StronglySorted_inv in Hs as [_ Hz]. apply Forall_cons in Hy as [Hyz _].
  rewrite Forall_forall in Hz. specialize (Hz y Hin). lia.
Qed.

Lemma sort_Z_elem x l : x ∈ sort_Z l <-> x ∈ l.
Proof. unfold sort_Z. by rewrite merge_sort_Permutation. Qed.

Lemma sort_dedup l : NoDup (dedup (sort_Z l)) /\ forall x, x ∈ dedup (sort_Z l) <-> x ∈ l.
Proof.
  split; [apply dedup_nodup, (StronglySorted_merge_sort Z.le)|]. intros x. by rewrite dedup_elem, sort_Z_elem.
Qed.
