(* ===== verification/Clock.v ===== *)
(** * Node identities and the hybrid logical clock

    [node.rs] (the split of the id space between real nodes and minted merge
    versions) and [hlc.rs] (version stamps and the clock that issues them). *)

From S2P Require Import Prelude.

(** ** Node identities, [node.rs] *)

Module NodeId.

Definition MERGE_BIT : Z := Z.shiftl 1 63.

(** [NodeId::random], with the random draw as its argument. *)
Definition random (draw : Z) : Z := Z.land draw (Z.lnot MERGE_BIT).

Definition merge_derived (hash : Z) : Z := Z.lor hash MERGE_BIT.

Definition is_merge_derived (node : Z) : bool := negb (Z.land node MERGE_BIT =? 0).

Lemma land_merge_bit n : Z.land n MERGE_BIT = if Z.testbit n 63 then MERGE_BIT else 0.
Proof.
  apply Z.bits_inj'; intros i Hi. unfold MERGE_BIT.
  rewrite Z.land_spec, Z.shiftl_1_l, Z.pow2_bits_eqb by lia.
  destruct (Z.eqb_spec 63 i) as [<-|Hne].
  - rewrite andb_true_r. by destruct (Z.testbit n 63); vm_compute.
  - rewrite andb_false_r. destruct (Z.testbit n 63); [|by rewrite Z.bits_0].
    by rewrite Z.pow2_bits_eqb, (proj2 (Z.eqb_neq _ _)) by lia.
Qed.

Lemma is_merge_derived_testbit n : is_merge_derived n = Z.testbit n 63.
Proof. unfold is_merge_derived. rewrite land_merge_bit. by destruct (Z.testbit n 63). Qed.

Lemma merge_derived_is n : is_merge_derived (merge_derived n) = true.
Proof.
  rewrite is_merge_derived_testbit. unfold merge_derived.
  rewrite Z.lor_spec. apply orb_true_r.
Qed.

Lemma random_is_not n : is_merge_derived (random n) = false.
Proof.
  rewrite is_merge_derived_testbit. unfold random.
  rewrite Z.land_spec, Z.lnot_spec by lia. apply andb_false_r.
Qed.

Lemma merge_derived_u64 n : is_u64 n -> is_u64 (merge_derived n).
Proof.
  intros [H1 H2]. unfold merge_derived, is_u64. split; [apply Z.lor_nonneg; split; [lia|by vm_compute]|].
  enough (Z.lor n MERGE_BIT < 2 ^ 64) by (unfold u64_max; lia).
  apply Z.log2_lt_cancel. rewrite Z.log2_lor, Z.log2_pow2; [|lia|lia|by vm_compute].
  apply Z.max_lub_lt; [|by vm_compute].
  destruct (decide (n = 0)) as [->|]; [by vm_compute|].
  apply Z.log2_lt_pow2; unfold u64_max in H2; lia.
Qed.

End NodeId.

(** ** Stamps, [hlc.rs] *)

Record Hlc := { wall_ms : Z; logical : Z; node : Z }.

#[export] Instance Hlc_eq_dec : EqDecision Hlc.
Proof. solve_decision. Defined.

(** The ranges of the fields: [u64], [u32], [u64]. *)
Definition hlc_wf (h : Hlc) : Prop :=
  is_u64 (wall_ms h) /\ is_u32 (logical h) /\ is_u64 (node h).

(** The derived [Ord]: lexicographic in field order. *)
Definition hlc_ltb (a b : Hlc) : bool :=
  (wall_ms a <? wall_ms b)
  || ((wall_ms a =? wall_ms b)
      && ((logical a <? logical b)
          || ((logical a =? logical b) && (node a <? node b)))).
Definition hlc_leb (a b : Hlc) : bool := negb (hlc_ltb b a).
Definition hlc_eqb (a b : Hlc) : bool := bool_decide (a = b).
(** [Ord::max]: the second argument when they are equal. *)
Definition hlc_max (a b : Hlc) : Hlc := if hlc_leb a b then b else a.

Definition hlc_lt (a b : Hlc) : Prop := hlc_ltb a b = true.
Definition hlc_le (a b : Hlc) : Prop := hlc_leb a b = true.

(** Decide comparisons of stamps by arithmetic on their fields. *)
Ltac hlc_lia :=
  intros;
  unfold hlc_lt, hlc_le, hlc_leb, hlc_ltb in *;
  repeat match goal with h : Hlc |- _ => destruct h end; cbn [wall_ms logical node] in *;
  first [lia | f_equal; lia].

Lemma hlc_ltb_irrefl a : hlc_ltb a a = false.
Proof. hlc_lia. Qed.

Lemma hlc_lt_trans a b c : hlc_lt a b -> hlc_lt b c -> hlc_lt a c.
Proof. hlc_lia. Qed.

Lemma hlc_le_trans a b c : hlc_le a b -> hlc_le b c -> hlc_le a c.
Proof. hlc_lia. Qed.

Lemma hlc_le_lt_trans a b c : hlc_le a b -> hlc_lt b c -> hlc_lt a c.
Proof. hlc_lia. Qed.

Lemma hlc_lt_le_trans a b c : hlc_lt a b -> hlc_le b c -> hlc_lt a c.
Proof. hlc_lia. Qed.

Lemma hlc_le_refl a : hlc_le a a.
Proof. hlc_lia. Qed.

Lemma hlc_lt_le a b : hlc_lt a b -> hlc_le a b.
Proof. hlc_lia. Qed.

Lemma hlc_le_antisym a b : hlc_le a b -> hlc_le b a -> a = b.
Proof. hlc_lia. Qed.

Lemma hlc_ltb_lt a b : hlc_ltb a b = true -> hlc_lt a b.
Proof. done. Qed.

Lemma hlc_ltb_ge a b : hlc_ltb a b = false -> hlc_le b a.
Proof. hlc_lia. Qed.

Lemma hlc_leb_gt a b : hlc_leb a b = false -> hlc_lt b a.
Proof. hlc_lia. Qed.

Lemma hlc_total a b : hlc_lt a b \/ a = b \/ hlc_lt b a.
Proof.
  destruct (hlc_ltb a b) eqn:E1; [by left|].
  destruct (hlc_ltb b a) eqn:E2; [by right; right|].
  right; left. hlc_lia.
Qed.

#[export] Instance hlc_le_total : Total hlc_le.
Proof. intros a b. destruct (hlc_total a b) as [|[->|]]; hlc_lia. Qed.

Lemma hlc_max_comm a b : hlc_max a b = hlc_max b a.
Proof.
  unfold hlc_max. destruct (hlc_leb a b) eqn:E1, (hlc_leb b a) eqn:E2; try done; hlc_lia.
Qed.

Lemma hlc_max_assoc a b c : hlc_max a (hlc_max b c) = hlc_max (hlc_max a b) c.
Proof.
  unfold hlc_max.
  destruct (hlc_leb b c) eqn:E1, (hlc_leb a b) eqn:E2; rewrite ?E1; try done;
    destruct (hlc_leb a c) eqn:E3; try done; hlc_lia.
Qed.

Lemma hlc_max_l a b : hlc_le a (hlc_max a b).
Proof. unfold hlc_max. destruct (hlc_leb a b) eqn:E; [done|apply hlc_le_refl]. Qed.

Lemma hlc_max_r a b : hlc_le b (hlc_max a b).
Proof. rewrite hlc_max_comm. apply hlc_max_l. Qed.

Lemma hlc_eqb_eq a b : hlc_eqb a b = true <-> a = b.
Proof. apply bool_decide_eq_true. Qed.

Lemma hlc_eqb_refl a : hlc_eqb a a = true.
Proof. by apply hlc_eqb_eq. Qed.

Lemma hlc_lt_ne a b : hlc_lt a b -> hlc_eqb a b = false /\ hlc_eqb b a = false /\ hlc_ltb b a = false.
Proof.
  intros Hlt. assert (Hn : a <> b) by (intros ->; unfold hlc_lt in Hlt; by rewrite hlc_ltb_irrefl in Hlt).
  split; [by apply bool_decide_eq_false|]. split; [by apply bool_decide_eq_false|]. revert Hlt; hlc_lia.
Qed.

Lemma hlc_max_lt a b : hlc_lt a b -> hlc_max a b = b /\ hlc_max b a = b.
Proof.
  intros Hlt. rewrite (hlc_max_comm b a). unfold hlc_max. by rewrite (hlc_lt_le _ _ Hlt).
Qed.

#[export] Hint Resolve hlc_le_refl hlc_lt_le hlc_max_l hlc_max_r hlc_ltb_ge hlc_leb_gt : sundog.

(** ** The clock *)

Definition exceeds_skew (physical_now_ms wall_ms max_skew_ms : Z) : bool :=
  saturating_add physical_now_ms max_skew_ms <? wall_ms.

Lemma exceeds_skew_false now w skew : exceeds_skew now w skew = false -> w <= now + skew.
Proof. unfold exceeds_skew, saturating_add. intros H%Z.ltb_ge. lia. Qed.

Module HlcClock.

Record HlcClock := { node : Z; last : Hlc }.

Definition new (n : Z) : HlcClock :=
  {| node := n; last := {| wall_ms := 0; logical := 0; Clock.node := n |} |}.

(** [logical + 1] on a [u32] in a build without overflow checks. *)
Definition bump (l : Z) : Z := wrap32 (l + 1).

Definition now (c : HlcClock) (physical_now_ms : Z) : HlcClock * Hlc :=
  let wall := Z.max physical_now_ms (wall_ms (last c)) in
  let log := if wall =? wall_ms (last c) then bump (logical (last c)) else 0 in
  let stamp := {| wall_ms := wall; logical := log; Clock.node := node c |} in
  ({| node := node c; last := stamp |}, stamp).

Definition observe (c : HlcClock) (physical_now_ms : Z) (remote : Hlc) : HlcClock * Hlc :=
  let wall := Z.max (Z.max physical_now_ms (wall_ms (last c))) (wall_ms remote) in
  let log :=
    if (wall =? wall_ms (last c)) && (wall =? wall_ms remote) then
      bump (Z.max (logical (last c)) (logical remote))
    else if wall =? wall_ms (last c) then bump (logical (last c))
    else if wall =? wall_ms remote then bump (logical remote)
    else 0 in
  let stamp := {| wall_ms := wall; logical := log; Clock.node := node c |} in
  ({| node := node c; last := stamp |}, stamp).

Definition observe_bounded (c : HlcClock) (physical_now_ms : Z) (remote : Hlc)
    (max_skew_ms : Z) : HlcClock * option Hlc :=
  if exceeds_skew physical_now_ms (wall_ms remote) max_skew_ms then (c, None)
  else let (c', h) := observe c physical_now_ms remote in (c', Some h).

Definition lead_ms (c : HlcClock) (physical_now_ms : Z) : Z :=
  saturating_sub (wall_ms (last c)) physical_now_ms.

(** ** A clock's history: the calls made to it, in order *)

Inductive Event :=
  | Now (physical_now_ms : Z)
  | Observe (physical_now_ms : Z) (remote : Hlc)
  | ObserveBounded (physical_now_ms : Z) (remote : Hlc) (max_skew_ms : Z).

Definition step (c : HlcClock) (e : Event) : HlcClock * option Hlc :=
  match e with
  | Now t => let (c', h) := now c t in (c', Some h)
  | Observe t r => let (c', h) := observe c t r in (c', Some h)
  | ObserveBounded t r s => observe_bounded c t r s
  end.

(** The stamps a sequence of calls returns, oldest first. *)
Fixpoint run (c : HlcClock) (es : list Event) : HlcClock * list Hlc :=
  match es with
  | [] => (c, [])
  | e :: es =>
      let (c1, o) := step c e in
      let (c2, hs) := run c1 es in
      (c2, match o with Some h => h :: hs | None => hs end)
  end.

Definition event_logical (e : Event) : Z :=
  match e with
  | Now _ => 0
  | Observe _ r | ObserveBounded _ r _ => logical r
  end.

(** Where no logical counter is at its [u32] maximum. *)
Definition headroom (c : HlcClock) (e : Event) : Prop :=
  0 <= logical (last c) < u32_max /\ 0 <= event_logical e < u32_max.

Lemma bump_small l : 0 <= l < u32_max -> bump l = l + 1.
Proof. intros H. unfold bump, wrap32. rewrite Z.mod_small; ulia. Qed.

Ltac bumps := rewrite ?bump_small by ulia.

Lemma now_gt c t : 0 <= logical (last c) < u32_max ->
  hlc_lt (last c) (now c t).2 /\ last (now c t).1 = (now c t).2.
Proof.
  intros H. split; [|done]. unfold now, hlc_lt, hlc_ltb; cbn.
  destruct (Z.eqb_spec (Z.max t (wall_ms (last c))) (wall_ms (last c))); bumps; lia.
Qed.

Lemma observe_gt c t r : 0 <= logical (last c) < u32_max -> 0 <= logical r < u32_max ->
  let h := (observe c t r).2 in hlc_lt (last c) h /\ hlc_lt r h /\ t <= wall_ms h.
Proof.
  intros H1 H2. unfold observe, hlc_lt, hlc_ltb; cbn.
  repeat bcase; bumps; lia.
Qed.

Lemma step_gt c e : headroom c e ->
  match step c e with
  | (c', Some h) => last c' = h /\ hlc_lt (last c) h
  | (c', None) => c' = c
  end.
Proof.
  intros [H1 H2]; destruct e as [t|t r|t r s]; simpl in *.
  - split; [done|]. by apply now_gt.
  - split; [done|]. by apply observe_gt.
  - unfold observe_bounded. destruct (exceeds_skew _ _ _); [done|].
    split; [done|]. by apply observe_gt.
Qed.

Lemma step_logical c e L : headroom c e -> logical (last c) <= L -> event_logical e <= L ->
  0 <= logical (last (step c e).1) <= L + 1.
Proof.
  intros [H1 H2] HL He. destruct e as [t|t r|t r s]; simpl in *;
    [|unfold observe|unfold observe_bounded; destruct (exceeds_skew _ _ _); [simpl; lia|unfold observe]];
    simpl; repeat bcase; bumps; lia.
Qed.

Lemma run_gt L es : forall c,
  0 <= logical (last c) <= L -> Forall (fun e => 0 <= event_logical e <= L) es ->
  L + Z.of_nat (length es) <= u32_max ->
  StronglySorted hlc_lt (last c :: (run c es).2).
Proof.
  revert L; induction es as [|e es IH]; intros L c Hc Hes Hlen; simpl.
  { repeat constructor. }
  cbn [length] in Hlen. inversion_clear Hes as [|? ? He Hes'].
  assert (Hh : headroom c e) by (split; ulia).
  pose proof (step_gt c e Hh) as Hgt.
  pose proof (step_logical c e L Hh ltac:(lia) ltac:(lia)) as Hl.
  destruct (step c e) as [c1 o]; simpl in *.
  assert (Hs : StronglySorted hlc_lt (last c1 :: (run c1 es).2)).
  { apply (IH (L + 1)); [lia| |lia]. eapply Forall_impl; [exact Hes'|]. simpl; lia. }
  destruct (run c1 es) as [c2 hs]; simpl in *.
  destruct o as [h|]; [|by subst c1].
  destruct Hgt as [<- Hlt]. constructor; [done|].
  constructor; [done|]. inversion_clear Hs as [|? ? ? Hall].
  eapply Forall_impl; [exact Hall|]. intros ? ?. by eapply hlc_lt_trans.
Qed.

(** ** Theorems *)

Lemma run_app es1 es2 c :
  run c (es1 ++ es2) =
  let (c1, h1) := run c es1 in let (c2, h2) := run c1 es2 in (c2, h1 ++ h2).
Proof.
  revert c; induction es1 as [|e es1 IH]; intros c; simpl.
  - by destruct (run c es2).
  - destruct (step c e) as [c1 o]. rewrite IH.
    destruct (run c1 es1) as [c2 h1], (run c2 es2) as [c3 h2], o; done.
Qed.

Lemma run_logical L es : forall c,
  0 <= logical (last c) <= L -> Forall (fun e => 0 <= event_logical e <= L) es ->
  L + Z.of_nat (length es) <= u32_max ->
  0 <= logical (last (run c es).1) <= L + Z.of_nat (length es).
Proof.
  revert L; induction es as [|e es IH]; intros L c Hc Hes Hlen; cbn [length run] in *; [simpl; lia|].
  inversion_clear Hes as [|? ? He Hes'].
  pose proof (step_logical c e L ltac:(split; ulia) ltac:(lia) ltac:(lia)) as Hl.
  destruct (step c e) as [c1 o]; simpl in Hl.
  specialize (IH (L + 1) c1 ltac:(lia)).
  destruct (run c1 es) as [c2 hs]; simpl in *.
  ospecialize (IH _ _); [|lia|lia].
  eapply Forall_impl; [exact Hes'|]. simpl; lia.
Qed.

(** C37: however calls to [now], [observe] and [observe_bounded] interleave and whatever the
    physical clock does, the stamps one clock returns are strictly increasing, and every
    stamp returned from an [observe] on compares greater than the remote stamp it observed,
    as long as the calls made leave the [u32] logical counter room. *)
Theorem clock_history_is_causal (L : Z) (es : list Event) (c : HlcClock)
  (Hc : 0 <= logical (last c) <= L)
  (Hes : Forall (fun e => 0 <= event_logical e <= L) es)
  (Hroom : L + Z.of_nat (length es) <= u32_max) :
  StronglySorted hlc_lt (run c es).2 /\
  forall es1 t r es2, es = es1 ++ Observe t r :: es2 ->
    Forall (hlc_lt r) (run (run c es1).1 (Observe t r :: es2)).2.
Proof.
  split.
  { pose proof (run_gt L es c Hc Hes Hroom) as Hs. by inversion Hs. }
  intros es1 t r es2 ->. rewrite length_app in Hroom. cbn [length] in Hroom.
  apply Forall_app in Hes as [Hes1 Hes2]. inversion_clear Hes2 as [|? ? He Hes2'].
  pose proof (run_logical L es1 c Hc Hes1 ltac:(lia)) as Hl.
  set (c1 := (run c es1).1) in *. set (n := Z.of_nat (length es1)) in *.
  pose proof (run_gt (L + n) (Observe t r :: es2) c1 ltac:(lia)) as Hs.
  ospecialize (Hs _ _).
  { constructor; [simpl in *; lia|]. eapply Forall_impl; [exact Hes2'|]. simpl; lia. }
  { cbn [length]; lia. }
  pose proof (observe_gt c1 t r ltac:(ulia) ltac:(simpl in He; ulia)) as (_ & Hr & _).
  cbn [run step] in *. destruct (observe c1 t r) as [c2 h], (run c2 es2) as [c3 hs]. simpl in *.
  inversion_clear Hs as [|? ? Hs' _]. inversion_clear Hs' as [|? ? _ Hall].
  constructor; [done|]. eapply Forall_impl; [exact Hall|]. intros. by eapply hlc_lt_trans.
Qed.

Lemma clock_history_is_causal_witness :
  StronglySorted hlc_lt
    (run (new 7) [Now 5; Now 3; Observe 4 {| wall_ms := 90; logical := 2; Clock.node := 1 |}; Now 90]).2.
Proof.
  apply (clock_history_is_causal 2);
    [simpl; lia | repeat constructor; simpl; lia | simpl; ulia].
Defined.

(** A physical clock that never steps back, the calls that refuse a skewed stamp. *)
Fixpoint paced (skew from : Z) (es : list Event) (upto : Z) : Prop :=
  match es with
  | [] => from <= upto
  | Now t :: es => from <= t /\ paced skew t es upto
  | Observe _ _ :: _ => False
  | ObserveBounded t _ s :: es => from <= t /\ 0 <= s <= skew /\ paced skew t es upto
  end.

Lemma now_wall c t : wall_ms (last (now c t).1) = Z.max t (wall_ms (last c)).
Proof. reflexivity. Qed.

Lemma observe_wall c t r :
  wall_ms (last (observe c t r).1) = Z.max (Z.max t (wall_ms (last c))) (wall_ms r).
Proof. reflexivity. Qed.

Lemma run_cons_clock c e es : (run c (e :: es)).1 = (run (step c e).1 es).1.
Proof. simpl. destruct (step c e) as [c1 o]; simpl. by destruct (run c1 es). Qed.

Lemma step_wall c e skew t from es upto :
  paced skew from (e :: es) upto -> t = match e with Now t | Observe t _ | ObserveBounded t _ _ => t end ->
  wall_ms (last (step c e).1) <= Z.max (t + skew) (wall_ms (last c)) \/
  wall_ms (last (step c e).1) <= Z.max t (wall_ms (last c)).
Proof.
  intros H ->. destruct e as [t|t r|t r s]; simpl in H; [|done|].
  - right. simpl. pose proof (now_wall c t) as Hw. destruct (now c t). simpl in *. lia.
  - left. cbn [step]. unfold observe_bounded. destruct (exceeds_skew _ _ _) eqn:E; [cbn; lia|].
    pose proof (observe_wall c t r) as Hw. destruct (observe c t r) as [c' h]. cbn [fst] in *.
    apply exceeds_skew_false in E. lia.
Qed.

Lemma run_wall_bound skew es : forall c from upto,
  paced skew from es upto -> 0 <= skew ->
  wall_ms (last (run c es).1) <= Z.max (upto + skew) (wall_ms (last c)) /\ from <= upto.
Proof.
  induction es as [|e es IH]; intros c from upto H Hs; [simpl in *; lia|].
  rewrite run_cons_clock.
  pose proof (step_wall c e skew _ from es upto H eq_refl) as Hw.
  destruct e as [t|t r|t r s]; cbn [paced] in H; [|done|].
  - destruct H as [H1 H2]. specialize (IH (step c (Now t)).1 t upto H2 Hs). lia.
  - destruct H as (H1 & H2 & H3).
    specialize (IH (step c (ObserveBounded t r s)).1 t upto H3 Hs). lia.
Qed.

(** With a physical clock that does not step back, a clock fed remote stamps only through
    [observe_bounded] never leads the physical clock by more than the skew bound, or by what
    it led by at the start; no peer can drag it further into the future. *)
Theorem clock_lead_stays_bounded (skew from upto : Z) (es : list Event) (c : HlcClock)
  (Hskew : 0 <= skew) (Hes : paced skew from es upto) :
  lead_ms (run c es).1 upto <= Z.max skew (lead_ms c from).
Proof.
  destruct (run_wall_bound skew es c from upto Hes Hskew) as [H1 H2].
  unfold lead_ms. ulia.
Qed.

Lemma clock_lead_stays_bounded_witness :
  lead_ms (run (new 7) [Now 100; ObserveBounded 100 {| wall_ms := 5000; logical := 0; Clock.node := 1 |} 50;
    ObserveBounded 120 {| wall_ms := 160; logical := 0; Clock.node := 1 |} 50]).1 130
  <= Z.max 50 (lead_ms (new 7) 100).
Proof. apply clock_lead_stays_bounded; simpl; lia. Defined.

(** A clock whose logical counter stands at [u32::MAX] and whose millisecond has not
    passed issues, in a build without overflow checks, a stamp that compares below its last
    one, although [now] documents strict monotonicity regardless of wall-clock behaviour. *)
Theorem now_steps_back_at_u32_max (c : HlcClock) (t : Z)
  (Hmax : logical (last c) = u32_max) (Ht : t <= wall_ms (last c)) :
  hlc_lt (now c t).2 (last c).
Proof.
  unfold now, hlc_lt, hlc_ltb; cbn. rewrite Z.max_r, Z.eqb_refl, Hmax by lia.
  change (bump u32_max) with 0. ulia.
Qed.

Lemma now_steps_back_at_u32_max_witness :
  hlc_lt (now {| node := 1; last := {| wall_ms := 9; logical := u32_max; Clock.node := 1 |} |} 9).2
    {| wall_ms := 9; logical := u32_max; Clock.node := 1 |}.
Proof. apply now_steps_back_at_u32_max; simpl; lia. Defined.

End HlcClock.
