(* ===== verification/Part.v ===== *)
(** * Parts: the unit of ownership and of anti-entropy

    [store/part.rs] (part ids, the 65,536-bit part set, a bucket's part mask) and the
    hash-to-stripe and hash-to-part maps of [store/engine/keys.rs]. *)

From stdpp Require Import list_numbers.
From S2P Require Import Prelude.

(** [store/mod.rs]: the number of buckets (store stripes) and of parts in each. *)
Definition BUCKET_COUNT : Z := 1024.
Definition PART_COUNT : Z := 64.
Definition PART_SPACE : Z := BUCKET_COUNT * PART_COUNT.

(** ** Where a key hash falls, [store/engine/keys.rs] *)

Definition stripe_index_from_hash (hash : Z) : Z := Z.land hash (BUCKET_COUNT - 1).
Definition part_index_from_hash (hash : Z) : Z := Z.land (Z.shiftr hash 10) 63.
Definition digest_slot (bucket part : Z) : Z := bucket * PART_COUNT + part.

Lemma land_ones_mod h n : 0 <= n -> Z.land h (2 ^ n - 1) = h mod 2 ^ n.
Proof. intros Hn. by rewrite <-Z.land_ones, Z.ones_equiv, Z.sub_1_r. Qed.

Lemma lor_disjoint_add a b : Z.land a b = 0 -> Z.lor a b = a + b.
Proof. intros H. by rewrite <-Z.lxor_lor, Z.add_nocarry_lxor. Qed.

Lemma stripe_index_mod h : stripe_index_from_hash h = h mod 1024.
Proof. apply (land_ones_mod h 10); lia. Qed.

Lemma part_index_mod h : part_index_from_hash h = (h / 1024) mod 64.
Proof.
  unfold part_index_from_hash. rewrite (land_ones_mod _ 6) by lia.
  by rewrite Z.shiftr_div_pow2 by lia.
Qed.

Lemma stripe_index_range h : 0 <= stripe_index_from_hash h < BUCKET_COUNT.
Proof. rewrite stripe_index_mod. unfold BUCKET_COUNT. dlia. Qed.

Lemma part_index_range h : 0 <= part_index_from_hash h < PART_COUNT.
Proof. rewrite part_index_mod. unfold PART_COUNT. dlia. Qed.

Lemma digest_slot_range b p :
  0 <= b < BUCKET_COUNT -> 0 <= p < PART_COUNT -> 0 <= digest_slot b p < PART_SPACE.
Proof. unfold digest_slot, PART_SPACE, BUCKET_COUNT, PART_COUNT. lia. Qed.

Lemma digest_slot_inj b p b' p' :
  0 <= p < PART_COUNT -> 0 <= p' < PART_COUNT ->
  digest_slot b p = digest_slot b' p' -> b = b' /\ p = p'.
Proof. unfold digest_slot, PART_COUNT. lia. Qed.

#[export] Hint Resolve stripe_index_range part_index_range digest_slot_range : sundog.

(** ** Part ids *)

(** A [PartId] is its raw [u16]: [bucket | part << 10]. *)
Abbreviation PartId := Z (only parsing).

Record BucketPart := { bp_bucket : Z; bp_part : Z }.

Module Pid.

Definition from_hash (hash : Z) : PartId := Z.land hash 65535.
Definition new (bucket part : Z) : PartId :=
  Z.lor (Z.land bucket 1023) (Z.shiftl (Z.land part 63) 10).
Definition from_index (index : Z) : PartId := Z.land index 65535.
Definition bucket (p : PartId) : Z := Z.land p 1023.
Definition part (p : PartId) : Z := Z.shiftr p 10.
Definition index (p : PartId) : Z := p.
Definition bucket_part (p : PartId) : BucketPart :=
  {| bp_bucket := bucket p; bp_part := part p |}.
Definition of_bucket_part (bp : BucketPart) : PartId := new (bp_bucket bp) (bp_part bp).
Definition all : list PartId := from_index <$> seqZ 0 PART_SPACE.
Definition of_bucket (b : Z) : list PartId := new b <$> seqZ 0 PART_COUNT.

Lemma new_add b p : new b p = b mod 1024 + 1024 * (p mod 64).
Proof.
  unfold new. rewrite (land_ones_mod _ 10), (land_ones_mod _ 6) by lia.
  change (2 ^ 10) with 1024. change (2 ^ 6) with 64.
  rewrite Z.shiftl_mul_pow2 by lia. change (2 ^ 10) with 1024.
  rewrite lor_disjoint_add; [lia|].
  apply Z.bits_inj'; intros i Hi. rewrite Z.land_spec, Z.bits_0. change 1024 with (2 ^ 10).
  destruct (decide (i < 10)) as [Hlt|Hge].
  - rewrite (Z.mul_pow2_bits_low _ 10) by lia. apply andb_false_r.
  - by rewrite Z.mod_pow2_bits_high by lia.
Qed.

Lemma from_hash_mod h : from_hash h = h mod 65536.
Proof. apply (land_ones_mod h 16); lia. Qed.

Lemma bucket_mod p : bucket p = p mod 1024.
Proof. apply (land_ones_mod p 10); lia. Qed.

Lemma part_div p : part p = p / 1024.
Proof. unfold part. by rewrite Z.shiftr_div_pow2 by lia. Qed.

Lemma from_hash_u16 h : is_u16 (from_hash h).
Proof. rewrite from_hash_mod. dlia. Qed.

(** The part a hash falls in names the stripe and the part digest of that hash. *)
Lemma from_hash_slots h :
  bucket (from_hash h) = stripe_index_from_hash h /\
  part (from_hash h) = part_index_from_hash h.
Proof.
  rewrite bucket_mod, part_div, from_hash_mod, stripe_index_mod, part_index_mod. dlia.
Qed.

Lemma new_bucket_part p : is_u16 p -> new (bucket p) (part p) = p.
Proof. intros H. rewrite new_add, bucket_mod, part_div. dlia. Qed.

End Pid.

(** ** Part sets *)

Module PartSet.

Record PartSet := { bits : list Z; len : Z }.

Definition new : PartSet := {| bits := replicate (Z.to_nat (PART_SPACE / 64)) 0; len := 0 |}.

Definition slot (p : PartId) : nat * Z :=
  (Z.to_nat (Pid.index p / 64), Z.shiftl 1 (Pid.index p mod 64)).

(** [self.bits[word]]; every [u16] part id is within the 1024 words. *)
Definition word (s : PartSet) (w : nat) : Z := default 0 (bits s !! w).

Definition insert (s : PartSet) (p : PartId) : PartSet * bool :=
  let (w, bit) := slot p in
  let fresh := Z.land (word s w) bit =? 0 in
  (if fresh then {| bits := <[w := Z.lor (word s w) bit]> (bits s); len := len s + 1 |} else s,
   fresh).

Definition remove (s : PartSet) (p : PartId) : PartSet * bool :=
  let (w, bit) := slot p in
  let present := negb (Z.land (word s w) bit =? 0) in
  (if present then
     {| bits := <[w := Z.land (word s w) (Z.lnot bit)]> (bits s); len := len s - 1 |}
   else s,
   present).

Definition contains (s : PartSet) (p : PartId) : bool :=
  let (w, bit) := slot p in negb (Z.land (word s w) bit =? 0).

Definition is_empty (s : PartSet) : bool := len s =? 0.

Definition clear (s : PartSet) : PartSet :=
  {| bits := replicate (length (bits s)) 0; len := 0 |}.

(** [u64::trailing_zeros]. *)
Fixpoint trailing_zeros_from (fuel : nat) (i x : Z) : Z :=
  match fuel with
  | O => i
  | S fuel => if Z.testbit x i then i else trailing_zeros_from fuel (i + 1) x
  end.
Definition trailing_zeros (x : Z) : Z := trailing_zeros_from 64 0 x.

(** The [from_fn] closure drained: one step per set bit, so 64 steps drain a word. *)
Fixpoint word_parts (fuel : nat) (word_idx rest : Z) : list PartId :=
  match fuel with
  | O => []
  | S fuel =>
      if rest =? 0 then []
      else
        let bit := trailing_zeros rest in
        Pid.from_index (word_idx * 64 + bit)
          :: word_parts fuel word_idx (Z.land rest (rest - 1))
  end.

Definition iter (s : PartSet) : list PartId :=
  concat (imap (fun i w => word_parts 64 (Z.of_nat i) w) (bits s)).

Definition extend (s : PartSet) (ps : list PartId) : PartSet :=
  foldl (fun s p => (insert s p).1) s ps.

Definition from_iter (ps : list PartId) : PartSet := extend new ps.

(** The set a [PartSet] stands for, as a predicate and as the ordered list of its parts. *)
Definition member (s : PartSet) (p : PartId) : Prop :=
  Z.testbit (word s (Z.to_nat (p / 64))) (p mod 64) = true.

Definition wf (s : PartSet) : Prop :=
  length (bits s) = 1024%nat /\ Forall is_u64 (bits s) /\ len s = Z.of_nat (length (iter s)).

Definition word_bits (w : Z) : list Z := filter (fun b => Z.testbit w b = true) (seqZ 0 64).

Lemma land_bit w k : 0 <= k -> (Z.land w (Z.shiftl 1 k) =? 0) = negb (Z.testbit w k).
Proof.
  intros Hk. destruct (Z.testbit w k) eqn:E; simpl.
  - apply Z.eqb_neq. intros H. apply (f_equal (fun x => Z.testbit x k)) in H.
    by rewrite Z.land_spec, E, Z.shiftl_1_l, Z.pow2_bits_true, Z.bits_0 in H by lia.
  - apply Z.eqb_eq. apply Z.bits_inj'; intros i Hi.
    rewrite Z.land_spec, Z.shiftl_1_l, Z.pow2_bits_eqb, Z.bits_0 by lia.
    destruct (Z.eqb_spec k i) as [<-|]; [by rewrite E|apply andb_false_r].
Qed.

Lemma contains_member s p : contains s p = true <-> member s p.
Proof.
  unfold contains, member, slot, Pid.index. rewrite land_bit by dlia.
  by rewrite negb_involutive.
Qed.

Lemma u64_high_bit w i : is_u64 w -> 64 <= i -> Z.testbit w i = false.
Proof.
  intros [H1 H2] Hi. destruct (decide (w = 0)) as [->|]; [by rewrite Z.bits_0|].
  apply Z.bits_above_log2; [lia|]. assert (Z.log2 w < 64); [|lia].
  apply Z.log2_lt_pow2; unfold u64_max in H2; lia.
Qed.

Lemma u64_of_bits w : 0 <= w -> (forall i, 64 <= i -> Z.testbit w i = false) -> is_u64 w.
Proof.
  intros H Hb. split; [done|]. destruct (decide (w = 0)) as [->|]; [by vm_compute|].
  assert (Z.log2 w < 64).
  { apply Z.nle_gt. intros Hle. specialize (Hb _ Hle). rewrite Z.bit_log2 in Hb by lia. done. }
  assert (w < 2 ^ 64) by (apply Z.log2_lt_pow2; lia). unfold u64_max. lia.
Qed.

Lemma trailing_zeros_from_spec fuel : forall i w,
  (exists j, i <= j < i + Z.of_nat fuel /\ Z.testbit w j = true) ->
  let k := trailing_zeros_from fuel i w in
  i <= k < i + Z.of_nat fuel /\ Z.testbit w k = true /\
  forall j, i <= j < k -> Z.testbit w j = false.
Proof.
  induction fuel as [|fuel IH]; intros i w (j & Hj & Hb); [lia|]. simpl.
  destruct (Z.testbit w i) eqn:E.
  - split; [lia|]. split; [done|lia].
  - destruct (decide (i = j)) as [->|]; [congruence|].
    destruct (IH (i + 1) w) as (H1 & H2 & H3); [exists j; split; [lia|done]|].
    split; [lia|]. split; [done|].
    intros j' Hj'. destruct (decide (i = j')) as [->|]; [done|]. apply H3. lia.
Qed.

Lemma trailing_zeros_spec w : is_u64 w -> w <> 0 ->
  0 <= trailing_zeros w < 64 /\ Z.testbit w (trailing_zeros w) = true /\
  forall j, 0 <= j < trailing_zeros w -> Z.testbit w j = false.
Proof.
  intros Hw Hne. apply (trailing_zeros_from_spec 64 0).
  exists (Z.log2 w). pose proof (Z.bit_log2 w ltac:(ulia)) as Hb. split; [|done].
  split; [apply Z.log2_nonneg|]. apply Z.nle_gt. intros Hle.
  rewrite u64_high_bit in Hb; [done|done|lia].
Qed.

(** [rest & (rest - 1)] clears the lowest set bit and nothing else. *)
Lemma clear_lowest w k : 0 <= k -> 0 < w -> Z.testbit w k = true ->
  (forall j, 0 <= j < k -> Z.testbit w j = false) ->
  forall i, 0 <= i -> Z.testbit (Z.land w (w - 1)) i = Z.testbit w i && negb (i =? k).
Proof.
  intros Hk Hw Hbit Hlow i Hi. rewrite Z.land_spec.
  assert (Hmod : w mod 2 ^ k = 0).
  { apply Z.bits_inj'; intros j Hj. rewrite Z.bits_0.
    destruct (decide (j < k)); [rewrite Z.mod_pow2_bits_low by lia; auto with lia|].
    by rewrite Z.mod_pow2_bits_high by lia. }
  assert (Hpos : 0 < 2 ^ k) by (apply Z.pow_pos_nonneg; lia).
  apply Z.div_exact in Hmod; [|lia]. set (q := w / 2 ^ k) in *.
  assert (Hodd : q mod 2 = 1).
  { rewrite Z.testbit_true in Hbit by lia. done. }
  destruct (Z.ltb_spec i k) as [Hlt|Hge]; [by rewrite Hlow by lia|].
  destruct (Z.eqb_spec i k) as [->|Hne]; simpl.
  - f_equal. apply Z.testbit_false; [lia|].
    replace ((w - 1) / 2 ^ k) with (q - 1); [dlia|].
    apply (Z.div_unique _ _ _ (2 ^ k - 1)); [left; lia|]. rewrite Hmod. lia.
  - assert (Hdiv : (w - 1) / 2 ^ (k + 1) = w / 2 ^ (k + 1)).
    { rewrite Z.pow_add_r by lia. change (2 ^ 1) with 2.
      rewrite <-!Z.div_div by lia. fold q.
      replace ((w - 1) / 2 ^ k) with (q - 1); [dlia|].
      apply (Z.div_unique _ _ _ (2 ^ k - 1)); [left; lia|]. rewrite Hmod. lia. }
    rewrite <-(Z.sub_add (k + 1) i), <-!Z.shiftr_spec, !Z.shiftr_div_pow2 by lia.
    rewrite Hdiv, andb_diag. by rewrite andb_true_r.
Qed.

Lemma land_pred_u64 w : is_u64 w -> w <> 0 -> is_u64 (Z.land w (w - 1)).
Proof.
  intros Hw Hne. apply u64_of_bits.
  - apply Z.land_nonneg. ulia.
  - intros i Hi. rewrite Z.land_spec, u64_high_bit; done.
Qed.

Lemma word_bits_step w : is_u64 w -> w <> 0 ->
  word_bits w = trailing_zeros w :: word_bits (Z.land w (w - 1)).
Proof.
  intros Hw Hne. destruct (trailing_zeros_spec w Hw Hne) as (Hr & Hb & Hlow).
  set (k := trailing_zeros w) in *.
  pose proof (clear_lowest w k ltac:(lia) ltac:(ulia) Hb Hlow) as Hc.
  assert (Hsplit : seqZ 0 64 = seqZ 0 k ++ k :: seqZ (Z.succ k) (Z.pred (64 - k))).
  { rewrite <-(seqZ_cons k (64 - k)) by lia. rewrite <-seqZ_app by lia. f_equal; lia. }
  unfold word_bits. rewrite Hsplit, !filter_app.
  rewrite (filter_none _ (seqZ 0 k)), (filter_none _ (seqZ 0 k)).
  2:{ intros j Hj%elem_of_seqZ. rewrite Hc, Hlow by lia. done. }
  2:{ intros j Hj%elem_of_seqZ. rewrite Hlow by lia. done. }
  simpl. rewrite filter_cons_True, filter_cons_False by
    (rewrite ?Hc, ?Z.eqb_refl, ?andb_false_r by lia; done).
  f_equal. apply filter_ext_in. intros j Hj%elem_of_seqZ.
  rewrite Hc, (proj2 (Z.eqb_neq j k)), andb_true_r by lia. done.
Qed.

Lemma word_bits_zero : word_bits 0 = [].
Proof. reflexivity. Qed.

Lemma word_parts_bits i fuel : forall w, is_u64 w -> 0 <= i < 1024 ->
  (length (word_bits w) <= fuel)%nat ->
  word_parts fuel i w = Z.add (i * 64) <$> word_bits w.
Proof.
  induction fuel as [|fuel IH]; intros w Hw Hi Hlen; simpl.
  - by destruct (word_bits w); [|simpl in Hlen; lia].
  - destruct (Z.eqb_spec w 0) as [->|Hne]; [done|].
    rewrite word_bits_step in * by done. simpl in *.
    rewrite IH; [|by apply land_pred_u64|lia|lia]. f_equal.
    destruct (trailing_zeros_spec w Hw Hne) as (Hr & _).
    unfold Pid.from_index. rewrite (land_ones_mod _ 16), Z.mod_small by lia. done.
Qed.

Lemma word_bits_length w : (length (word_bits w) <= 64)%nat.
Proof. unfold word_bits. etrans; [apply length_filter|]. by rewrite length_seqZ. Qed.

#[local] Opaque word_parts.

(** Iteration yields exactly the members, in index order. *)
Lemma iter_spec s : length (bits s) = 1024%nat -> Forall is_u64 (bits s) ->
  iter s = filter (fun p => contains s p = true) (seqZ 0 PART_SPACE).
Proof.
  intros Hlen Hu. unfold iter.
  assert (Hgen : forall bs k, Forall is_u64 bs -> (k + length bs <= 1024)%nat ->
    (forall i w, bs !! i = Some w -> bits s !! (k + i)%nat = Some w) ->
    concat (imap (fun i w => word_parts 64 (Z.of_nat (k + i)) w) bs) =
    filter (fun p => contains s p = true) (seqZ (Z.of_nat k * 64) (Z.of_nat (length bs) * 64))).
  { induction bs as [|w bs IH]; intros k Hbs Hk Hl.
    { cbn [length]. by rewrite seqZ_nil by lia. }
    inversion_clear Hbs as [|? ? Hw Hbs']. simpl in Hk. cbn [imap length concat].
    replace (Z.of_nat (S (length bs)) * 64) with (64 + Z.of_nat (length bs) * 64) by lia.
    rewrite seqZ_app, filter_app by lia. f_equal.
    - rewrite Nat.add_0_r, word_parts_bits by (done || lia || apply word_bits_length).
      rewrite <-(Z.add_0_r (Z.of_nat k * 64)), <-fmap_add_seqZ, filter_fmap, Z.add_0_r.
      f_equal. unfold word_bits. apply filter_ext_in. intros b Hb%elem_of_seqZ. cbv beta.
      rewrite contains_member. unfold member, word.
      replace ((Z.of_nat k * 64 + b) / 64) with (Z.of_nat k) by dlia.
      replace ((Z.of_nat k * 64 + b) mod 64) with b by dlia.
      specialize (Hl 0%nat w eq_refl). rewrite Nat.add_0_r in Hl.
      by rewrite Nat2Z.id, Hl.
    - specialize (IH (S k) Hbs' ltac:(lia)).
      replace (Z.of_nat (S k) * 64) with (Z.of_nat k * 64 + 64) in IH by lia. rewrite <-IH.
      + apply (f_equal (@concat Z)), imap_ext. intros i x _. unfold compose.
        by replace (k + S i)%nat with (S k + i)%nat by lia.
      + intros i x Hi. specialize (Hl (S i) x Hi). by rewrite Nat.add_succ_r in Hl. }
  specialize (Hgen (bits s) 0%nat Hu ltac:(lia) ltac:(done)). rewrite Hlen in Hgen.
  replace PART_SPACE with (Z.of_nat 1024 * 64) by (vm_compute; done). exact Hgen.
Qed.

Lemma member_in_space s p : wf s -> is_u16 p -> (p ∈ iter s <-> member s p).
Proof.
  intros (Hl & Hu & _) Hp. rewrite iter_spec, list_elem_of_filter, elem_of_seqZ, contains_member by done.
  change PART_SPACE with 65536. split; [tauto|intros; split; [done|ulia]].
Qed.

Lemma iter_u16 s p : wf s -> p ∈ iter s -> is_u16 p.
Proof.
  intros (Hl & Hu & _). rewrite iter_spec, list_elem_of_filter, elem_of_seqZ by done.
  change PART_SPACE with 65536. intros [_ H]. ulia.
Qed.

Lemma iter_NoDup s : wf s -> NoDup (iter s).
Proof. intros (Hl & Hu & _). rewrite iter_spec by done. apply NoDup_filter, NoDup_seqZ. Qed.

Lemma slot_lt p : is_u16 p -> (Z.to_nat (p / 64) < 1024)%nat.
Proof. intros H. assert (0 <= p / 64 < 1024) by dlia. lia. Qed.

Lemma slot_inj p q : is_u16 p -> is_u16 q ->
  Z.to_nat (p / 64) = Z.to_nat (q / 64) -> p mod 64 = q mod 64 -> p = q.
Proof. intros. assert (p / 64 = q / 64); [|dlia]. apply Z2Nat.inj in H1; dlia. Qed.

(** Writing one word, one bit of which changes, changes one member. *)
Lemma member_update s p q w n : is_u16 p -> is_u16 q -> length (bits s) = 1024%nat ->
  (forall i, 0 <= i < 64 -> i <> p mod 64 ->
     Z.testbit w i = Z.testbit (word s (Z.to_nat (p / 64))) i) ->
  member {| bits := <[Z.to_nat (p / 64) := w]> (bits s); len := n |} q <->
  if decide (q = p) then Z.testbit w (p mod 64) = true else member s q.
Proof.
  intros Hp Hq Hl Hw. unfold member, word at 1; cbn [bits].
  pose proof (slot_lt p Hp).
  destruct (decide (Z.to_nat (q / 64) = Z.to_nat (p / 64))) as [Heq|Hne].
  - rewrite Heq, list_lookup_insert_eq by lia. cbn [default].
    destruct (decide (q = p)) as [->|Hqp]; [done|]. rewrite Hw; [done|dlia|].
    intros Hm. by apply Hqp, slot_inj.
  - rewrite list_lookup_insert_ne by done.
    destruct (decide (q = p)) as [->|]; done.
Qed.

Lemma bits_update_u64 s p w n : wf s -> is_u64 w ->
  length (bits {| bits := <[Z.to_nat (p / 64) := w]> (bits s); len := n |}) = 1024%nat /\
  Forall is_u64 (<[Z.to_nat (p / 64) := w]> (bits s)).
Proof.
  intros (Hl & Hu & _) Hw. cbn [bits]. rewrite length_insert. split; [done|].
  by apply Forall_insert.
Qed.

Lemma word_u64 s n : wf s -> is_u64 (word s n).
Proof.
  intros (_ & Hu & _). unfold word.
  destruct (bits s !! n) as [w|] eqn:E; [|by vm_compute].
  by eapply Forall_lookup_1 in Hu.
Qed.

Lemma setbit_u64 w k : is_u64 w -> 0 <= k < 64 -> is_u64 (Z.lor w (Z.shiftl 1 k)).
Proof.
  intros Hw Hk. apply u64_of_bits.
  - apply Z.lor_nonneg. split; [ulia|]. apply Z.shiftl_nonneg. lia.
  - intros i Hi. rewrite Z.lor_spec, u64_high_bit, Z.shiftl_1_l, Z.pow2_bits_false by (done || lia). done.
Qed.

Lemma clrbit_u64 w x : is_u64 w -> is_u64 (Z.land w (Z.lnot x)).
Proof.
  intros Hw. apply u64_of_bits; [apply Z.land_nonneg; ulia|].
  intros i Hi. by rewrite Z.land_spec, u64_high_bit.
Qed.

Lemma contains_slot s p : (Z.land (word s (Z.to_nat (p / 64))) (Z.shiftl 1 (p mod 64)) =? 0)
  = negb (contains s p).
Proof. unfold contains, slot, Pid.index. by rewrite negb_involutive. Qed.

Lemma count_add_one (P Q : Z -> Prop) `{!forall x, Decision (P x), !forall x, Decision (Q x)} p :
  is_u16 p -> ~ P p -> (forall q, is_u16 q -> Q q <-> q = p \/ P q) ->
  Z.of_nat (length (filter P (seqZ 0 PART_SPACE))) + 1 =
  Z.of_nat (length (filter Q (seqZ 0 PART_SPACE))).
Proof.
  intros Hp Hn Hq.
  assert (Hspace : forall x, x ∈ seqZ 0 PART_SPACE <-> is_u16 x).
  { intros x. rewrite elem_of_seqZ. change PART_SPACE with 65536. ulia. }
  pose proof (NoDup_seqZ 0 PART_SPACE) as Hnd.
  generalize dependent (seqZ 0 PART_SPACE). intros l Hspace Hnd.
  rewrite (Permutation_length (filter_add_one P Q l p Hnd (proj2 (Hspace p) Hp) Hn
    (fun x Hx => Hq x (proj1 (Hspace x) Hx)))). simpl. lia.
Qed.

Lemma insert_spec s p : wf s -> is_u16 p ->
  let (s', fresh) := insert s p in
  wf s' /\ fresh = negb (contains s p) /\
  forall q, is_u16 q -> member s' q <-> q = p \/ member s q.
Proof.
  intros Hwf Hp. unfold insert, slot, Pid.index. rewrite contains_slot.
  destruct (contains s p) eqn:Ec; simpl.
  { apply contains_member in Ec. split; [done|]. split; [done|]. intros q _.
    split; [tauto|]. by intros [->|]. }
  set (w' := Z.lor _ _).
  assert (Hw' : is_u64 w') by (apply setbit_u64; [by apply word_u64|dlia]).
  destruct (bits_update_u64 s p w' (len s + 1) Hwf Hw') as [Hl' Hu'].
  assert (Hm : forall q, is_u16 q ->
    member {| bits := <[Z.to_nat (p / 64) := w']> (bits s); len := len s + 1 |} q <->
    q = p \/ member s q).
  { intros q Hq. rewrite member_update; try done; [|by destruct Hwf|].
    - destruct (decide (q = p)) as [->|]; [|tauto]. split; [tauto|intros _].
      subst w'. rewrite Z.lor_spec, Z.shiftl_1_l, Z.pow2_bits_true, orb_true_r by dlia. done.
    - intros i Hi Hne. subst w'. rewrite Z.lor_spec, Z.shiftl_1_l, Z.pow2_bits_false by lia.
      apply orb_false_r. }
  split; [|done]. split; [done|]. split; [done|].
  rewrite iter_spec by done. cbn [len].
  destruct Hwf as (Hl & Hu & ->). rewrite (iter_spec s) by done.
  apply count_add_one with p; [done|by rewrite Ec|].
  intros q Hq. rewrite !contains_member. by apply Hm.
Qed.

Lemma remove_spec s p : wf s -> is_u16 p ->
  let (s', present) := remove s p in
  wf s' /\ present = contains s p /\
  forall q, is_u16 q -> member s' q <-> q <> p /\ member s q.
Proof.
  intros Hwf Hp. unfold remove, slot, Pid.index. rewrite contains_slot, negb_involutive.
  destruct (contains s p) eqn:Ec; simpl; cycle 1.
  { split; [done|]. split; [done|]. intros q _. rewrite <-!contains_member.
    split; [|tauto]. intros Hq. split; [|done]. intros ->. congruence. }
  set (w' := Z.land _ _).
  assert (Hw' : is_u64 w') by (apply clrbit_u64; by apply word_u64).
  destruct (bits_update_u64 s p w' (len s - 1) Hwf Hw') as [Hl' Hu'].
  assert (Hm : forall q, is_u16 q ->
    member {| bits := <[Z.to_nat (p / 64) := w']> (bits s); len := len s - 1 |} q <->
    q <> p /\ member s q).
  { intros q Hq. rewrite member_update; try done; [|by destruct Hwf|].
    - destruct (decide (q = p)) as [->|]; [|tauto]. split; [|tauto].
      subst w'. rewrite Z.land_spec, Z.lnot_spec, Z.shiftl_1_l, Z.pow2_bits_true, andb_false_r by dlia. done.
    - intros i Hi Hne. subst w'.
      rewrite Z.land_spec, Z.lnot_spec, Z.shiftl_1_l, Z.pow2_bits_false by lia.
      apply andb_true_r. }
  split; [|done]. split; [done|]. split; [done|].
  rewrite iter_spec by done. cbn [len].
  destruct Hwf as (Hl & Hu & ->). rewrite (iter_spec s) by done.
  enough (Z.of_nat (length (filter (fun q => contains s q = true) (seqZ 0 PART_SPACE))) =
    Z.of_nat (length (filter (fun q => contains {| bits := <[Z.to_nat (p / 64) := w']> (bits s);
      len := Z.of_nat (length (filter (fun q => contains s q = true) (seqZ 0 PART_SPACE))) - 1 |} q = true)
      (seqZ 0 PART_SPACE))) + 1) by lia.
  symmetry. apply count_add_one with p; [done| |].
  - rewrite contains_member. intros H. apply (Hm p) in H; [tauto|done].
  - intros q Hq. rewrite !contains_member.
    transitivity (q = p \/ q <> p /\ member s q).
    + apply contains_member in Ec. destruct (decide (q = p)) as [->|]; tauto.
    + apply or_iff_compat_l. symmetry. by apply Hm.
Qed.

Lemma zero_words_member n k q : ~ member {| bits := replicate n 0; len := k |} q.
Proof.
  unfold member, word. cbn [bits].
  destruct (replicate n 0 !! Z.to_nat (q / 64)) as [w|] eqn:E.
  - apply lookup_replicate_1 in E as [-> _]. cbn [default]. by rewrite Z.bits_0.
  - cbn [default]. by rewrite Z.bits_0.
Qed.

Lemma zero_words_wf n : n = 1024%nat -> wf {| bits := replicate n 0; len := 0 |}.
Proof.
  intros ->. assert (Hl : length (replicate 1024 0) = 1024%nat) by apply length_replicate.
  assert (Hu : Forall is_u64 (replicate 1024 0)) by (apply Forall_replicate; ulia).
  split; [done|]. split; [done|]. cbn [len]. rewrite iter_spec by done.
  rewrite filter_none; [done|]. intros x _. rewrite contains_member. apply zero_words_member.
Qed.

(** ** Refinement: a [PartSet] is a finite set of part ids *)

Inductive Op := Insert (p : PartId) | Remove (p : PartId) | Contains (p : PartId) | Clear.

Definition op_in_range (o : Op) : Prop :=
  match o with Insert p | Remove p | Contains p => is_u16 p | Clear => True end.

Definition exec (s : PartSet) (o : Op) : PartSet * bool :=
  match o with
  | Insert p => insert s p
  | Remove p => remove s p
  | Contains p => (s, contains s p)
  | Clear => (clear s, false)
  end.

Definition exec_spec (a : gset Z) (o : Op) : gset Z * bool :=
  match o with
  | Insert p => ({[p]} ∪ a, bool_decide (p ∉ a))
  | Remove p => (a ∖ {[p]}, bool_decide (p ∈ a))
  | Contains p => (a, bool_decide (p ∈ a))
  | Clear => (∅, false)
  end.

Fixpoint run {S} (step : S -> Op -> S * bool) (s : S) (os : list Op) : S * list bool :=
  match os with
  | [] => (s, [])
  | o :: os => let (s1, r) := step s o in let (s2, rs) := run step s1 os in (s2, r :: rs)
  end.

Definition simulates (s : PartSet) (a : gset Z) : Prop :=
  wf s /\ (forall q, q ∈ a -> is_u16 q) /\ forall q, is_u16 q -> member s q <-> q ∈ a.

Lemma simulates_contains s a p : simulates s a -> is_u16 p -> contains s p = bool_decide (p ∈ a).
Proof.
  intros (_ & _ & Hm) Hp. apply eq_true_iff_eq.
  rewrite contains_member, bool_decide_eq_true. by apply Hm.
Qed.

Lemma exec_simulates s a o : simulates s a -> op_in_range o ->
  (exec s o).2 = (exec_spec a o).2 /\ simulates (exec s o).1 (exec_spec a o).1.
Proof.
  intros Hsim Ho. pose proof Hsim as (Hwf & Ha & Hm). destruct o as [p|p|p|]; cbn [exec exec_spec op_in_range] in Ho |- *.
  - pose proof (insert_spec s p Hwf Ho) as Hi. destruct (insert s p) as [s' r].
    destruct Hi as (Hwf' & -> & Hm'). cbn [fst snd]. rewrite (simulates_contains s a p) by done.
    split; [symmetry; apply bool_decide_not|]. split; [done|]. split.
    + intros q. rewrite elem_of_union, elem_of_singleton. intros [->|]; [done|by apply Ha].
    + intros q Hq. rewrite Hm', elem_of_union, elem_of_singleton by done. by rewrite Hm.
  - pose proof (remove_spec s p Hwf Ho) as Hi. destruct (remove s p) as [s' r].
    destruct Hi as (Hwf' & -> & Hm'). split; [by apply simulates_contains|].
    cbn [fst snd]. split; [done|]. split; [intros q [Hq _]%elem_of_difference; by apply Ha|].
    intros q Hq. rewrite Hm', elem_of_difference, elem_of_singleton, Hm by done. tauto.
  - split; [by apply simulates_contains|done].
  - split; [done|]. split; [apply zero_words_wf; by destruct Hwf|]. split; [intros q []%not_elem_of_empty|].
    intros q _. split; [intros H; by apply zero_words_member in H|set_solver].
Qed.

Lemma simulates_iter s a : simulates s a ->
  iter s = filter (fun p => p ∈ a) (seqZ 0 PART_SPACE) /\ len s = Z.of_nat (size a).
Proof.
  intros (Hwf & Ha & Hm).
  assert (Hin : forall q, q ∈ iter s <-> q ∈ a).
  { intros q. split.
    - intros Hq. assert (is_u16 q) by by eapply iter_u16. apply Hm; [done|]. by apply member_in_space.
    - intros Hq. apply member_in_space; [done|by apply Ha|]. by apply Hm; [apply Ha|]. }
  split.
  - pose proof Hwf as (Hl & Hu & _). rewrite iter_spec by done. apply filter_ext_in.
    intros q Hq%elem_of_seqZ. rewrite contains_member. apply Hm. change PART_SPACE with 65536 in Hq. ulia.
  - pose proof (iter_NoDup s Hwf) as Hnd. destruct Hwf as (_ & _ & ->).
    replace a with (list_to_set (iter s) : gset Z)
      by (apply set_eq; intros q; by rewrite elem_of_list_to_set).
    by rewrite size_list_to_set.
Qed.

(** A [PartSet] driven by any sequence of [insert], [remove], [contains] and [clear] is the
    finite set of part ids: every call returns what the set says, [iter] lists the set's parts
    in index order, and [len] is their number. *)
Theorem partset_refines_finite_set (os : list Op) (Hos : Forall op_in_range os) :
  let (s, rs) := run exec new os in
  let (a, ars) := run exec_spec ∅ os in
  rs = ars /\ iter s = filter (fun p => p ∈ a) (seqZ 0 PART_SPACE) /\ len s = Z.of_nat (size a).
Proof.
  assert (Hgen : forall s a, simulates s a ->
    (run exec s os).2 = (run exec_spec a os).2 /\
    simulates (run exec s os).1 (run exec_spec a os).1).
  { induction Hos as [|o os Ho Hos IH]; intros s a Hs; [done|]. cbn [run].
    destruct (exec_simulates s a o Hs Ho) as [Hr Hs'].
    destruct (exec s o) as [s1 r], (exec_spec a o) as [a1 ar]. simpl in Hr, Hs'. subst ar.
    specialize (IH s1 a1 Hs'). destruct (run exec s1 os), (run exec_spec a1 os). simpl in *.
    destruct IH as [-> ?]. done. }
  destruct (Hgen new ∅) as [Hr Hs].
  { split; [by apply zero_words_wf|]. split; [intros q []%not_elem_of_empty|].
    intros q _. split; [intros H; by apply zero_words_member in H|set_solver]. }
  destruct (run exec new os) as [s rs], (run exec_spec ∅ os) as [a ars]. simpl in *.
  split; [done|]. by apply simulates_iter.
Qed.

Lemma partset_refines_finite_set_witness :
  (run exec new [Insert 65535; Insert 3; Remove 3; Contains 65535]).2 = [true; true; true; true] /\
  let (s, rs) := run exec new [Insert 65535; Insert 3; Remove 3; Contains 65535] in
  let (a, ars) := run exec_spec ∅ [Insert 65535; Insert 3; Remove 3; Contains 65535] in
  rs = ars /\ iter s = filter (fun p => p ∈ a) (seqZ 0 PART_SPACE) /\ len s = Z.of_nat (size a).
Proof.
  split; [vm_compute; reflexivity|].
  apply partset_refines_finite_set. repeat constructor; simpl; ulia.
Defined.

End PartSet.

(** ** A bucket's part mask *)

Module PartMask.

Definition ALL : Z := u64_max.

(** [1u64.checked_shl(part)] is [None] from 64 on. *)
Definition insert (m part : Z) : Z :=
  if part <? 64 then Z.lor m (Z.shiftl 1 part) else m.

Definition contains (m part : Z) : bool := (part <? 64) && (Z.land (Z.shiftr m part) 1 =? 1).

Definition parts (m : Z) : list Z :=
  filter (fun p => contains m p = true) (take (Z.to_nat PART_COUNT) (seqZ 0 256)).

Definition fold (m : Z) (part_digests : list Z) : Z :=
  foldl Z.lxor 0 (omap (fun p => part_digests !! Z.to_nat p) (parts m)).

Definition from_iter (ps : list Z) : Z := foldl insert 0 ps.

Lemma contains_testbit m p : 0 <= p -> contains m p = (p <? 64) && Z.testbit m p.
Proof.
  intros Hp. unfold contains. f_equal.
  rewrite (land_ones_mod _ 1), Z.shiftr_div_pow2 by lia. change (2 ^ 1) with 2.
  apply eq_true_iff_eq. rewrite Z.eqb_eq, Z.testbit_true by lia. done.
Qed.

Lemma contains_insert m p q : 0 <= p -> 0 <= q ->
  contains (insert m p) q = contains m q || ((p =? q) && (q <? 64)).
Proof.
  intros Hp Hq. rewrite !contains_testbit by done. unfold insert.
  destruct (Z.ltb_spec p 64) as [Hlt|Hge].
  - rewrite Z.lor_spec, Z.shiftl_1_l, Z.pow2_bits_eqb by lia.
    destruct (q <? 64), (Z.testbit m q), (p =? q); done.
  - destruct (Z.eqb_spec p q) as [->|]; [|by rewrite orb_false_r].
    by rewrite (proj2 (Z.ltb_ge _ _) Hge).
Qed.

Lemma contains_from_iter ps q : Forall (fun p => 0 <= p) ps -> 0 <= q ->
  contains (from_iter ps) q = true <-> q ∈ ps /\ q < 64.
Proof.
  intros Hps Hq. unfold from_iter.
  assert (Hgen : forall m, contains (foldl insert m ps) q = true <->
    contains m q = true \/ (q ∈ ps /\ q < 64)).
  { induction Hps as [|p ps Hp Hps IH]; intros m; simpl.
    - rewrite elem_of_nil. tauto.
    - rewrite IH, contains_insert, orb_true_iff, andb_true_iff, Z.eqb_eq, Z.ltb_lt, elem_of_cons by done.
      split; [intros [[?|[-> ?]]|?]|intros [?|[[->|?] ?]]]; tauto. }
  rewrite Hgen. rewrite contains_testbit, Z.bits_0, andb_false_r by done.
  split; [intros [?|?]; [done|tauto]|tauto].
Qed.

(** The mask collected from a list of part numbers folds a bucket's part digests to the XOR
    of exactly the listed parts that exist, each counted once, in any order and with any
    repetition; a part number past the last names nothing. *)
Theorem partmask_fold_narrows (ps ds : list Z) (Hps : Forall (fun p => 0 <= p) ps) :
  fold (from_iter ps) ds =
  xor_list (omap (fun p => ds !! Z.to_nat p) (filter (fun p => p ∈ ps) (seqZ 0 PART_COUNT))).
Proof.
  unfold fold, parts. change (take (Z.to_nat PART_COUNT) (seqZ 0 256)) with (seqZ 0 PART_COUNT).
  rewrite (filter_ext_in _ (fun p => p ∈ ps)).
  - generalize (omap (fun p => ds !! Z.to_nat p) (filter (fun p => p ∈ ps) (seqZ 0 PART_COUNT))).
    intros l. rewrite <-(Z.lxor_0_l (xor_list l)). generalize 0.
    induction l as [|x l IH]; intros a; simpl; [by rewrite Z.lxor_0_r|].
    by rewrite IH, Z.lxor_assoc.
  - intros q Hq%elem_of_seqZ. rewrite contains_from_iter by (done || lia).
    change PART_COUNT with 64 in Hq. intuition lia.
Qed.

Lemma partmask_fold_narrows_witness :
  fold (from_iter [2; 0; 64; 2]) [5; 6; 12] = Z.lxor 5 12 /\
  fold (from_iter [2; 0; 64; 2]) [5; 6; 12] =
  xor_list (omap (fun p => [5; 6; 12] !! Z.to_nat p)
    (filter (fun p => p ∈ [2; 0; 64; 2]) (seqZ 0 PART_COUNT))).
Proof.
  split; [vm_compute; reflexivity|].
  apply partmask_fold_narrows. repeat constructor; lia.
Defined.

End PartMask.
