(* ===== verification/Types.v ===== *)
(** * The store's shared vocabulary

    [store/types.rs] (modes, compaction bounds), [store/resolver.rs] (the conflict-resolution
    contract as a class, the last-write-wins instance), [wire.rs]'s [WireRecord] and the data
    and derived versions of [store/mod.rs]. *)

From S2P Require Import Prelude Clock.

(** ** Third-party code: the xxh3 hash and the postcard encoding of a stamp *)

Class Hashing := {
  xxh3_64 : Bytes -> Z;
  postcard_hlc : Hlc -> Bytes;
}.

(** What the code relies on: [xxh3_64] returns a [u64]. *)
Class HashingLaws `{Hashing} : Prop := { xxh3_u64 b : is_u64 (xxh3_64 b) }.

#[export] Hint Resolve xxh3_u64 : sundog.

(** A concrete instance for evaluating the model: a polynomial hash modulo [2^64] and the
    stamp's fields as three numbers. *)
#[global] Instance toy_hashing : Hashing := {|
  xxh3_64 b := foldl (fun h x => (h * 1099511628211 + x + 1) mod 18446744073709551616) 14695981039346656037 b;
  postcard_hlc h := [wall_ms h; logical h; node h];
|}.

#[global] Instance toy_hashing_laws : @HashingLaws toy_hashing.
Proof.
  constructor. intros b. simpl.
  assert (Hgen : forall h, is_u64 h ->
    is_u64 (foldl (fun h x => (h * 1099511628211 + x + 1) mod 18446744073709551616) h b)).
  { induction b as [|x b IH]; intros h Hh; simpl; [done|]. apply IH.
    pose proof (Z.mod_pos_bound (h * 1099511628211 + x + 1) 18446744073709551616). ulia. }
  apply Hgen. ulia.
Qed.

(** ** Modes *)

Inductive Mode := Local | Invalidation | Replicated | Distributed (owners : Z).

#[export] Instance Mode_eq_dec : EqDecision Mode.
Proof. solve_decision. Defined.

(** [owners] is a [NonZeroU8]. *)
Definition mode_wf (m : Mode) : Prop :=
  match m with Distributed n => 1 <= n <= u8_max | _ => True end.

Definition tombstones_expired_entries (m : Mode) : bool :=
  match m with Replicated | Distributed _ => true | _ => false end.
Definition defers_tombstone_gc (m : Mode) : bool :=
  match m with Replicated | Distributed _ => true | _ => false end.
Definition folds_retired_writers (m : Mode) : bool :=
  match m with Invalidation => false | _ => true end.

(** Tokens are ASCII strings, as their bytes. *)
Definition tok_local : Bytes := [108; 111; 99; 97; 108].
Definition tok_invalidation : Bytes :=
  [105; 110; 118; 97; 108; 105; 100; 97; 116; 105; 111; 110].
Definition tok_replicated : Bytes := [114; 101; 112; 108; 105; 99; 97; 116; 101; 100].
Definition tok_distributed : Bytes :=
  [100; 105; 115; 116; 114; 105; 98; 117; 116; 101; 100; 58].

(** [u8]'s [Display]: decimal digits without leading zeros. *)
Definition display_u8 (n : Z) : Bytes :=
  if n <? 10 then [48 + n]
  else if n <? 100 then [48 + n / 10; 48 + n mod 10]
  else [48 + n / 100; 48 + n / 10 mod 10; 48 + n mod 10].

(** [str::parse::<u8>]: an optional [+], then one or more digits, checked against [u8]. *)
Fixpoint parse_digits (acc : Z) (s : Bytes) : option Z :=
  match s with
  | [] => Some acc
  | c :: s =>
      if (48 <=? c) && (c <=? 57) then
        let acc' := acc * 10 + (c - 48) in
        if acc' <=? u8_max then parse_digits acc' s else None
      else None
  end.
Definition parse_u8 (s : Bytes) : option Z :=
  match s with
  | [] => None
  | [c] => if (c =? 43) || (c =? 45) then None else parse_digits 0 s
  | c :: s' => if c =? 43 then parse_digits 0 s' else parse_digits 0 s
  end.

Fixpoint strip_prefix (prefix s : Bytes) : option Bytes :=
  match prefix, s with
  | [], _ => Some s
  | p :: prefix, c :: s => if p =? c then strip_prefix prefix s else None
  | _ :: _, [] => None
  end.

Definition as_token (m : Mode) : Bytes :=
  match m with
  | Local => tok_local
  | Invalidation => tok_invalidation
  | Replicated => tok_replicated
  | Distributed owners => tok_distributed ++ display_u8 owners
  end.

Definition from_token (token : Bytes) : option Mode :=
  if bool_decide (token = tok_local) then Some Local
  else if bool_decide (token = tok_invalidation) then Some Invalidation
  else if bool_decide (token = tok_replicated) then Some Replicated
  else
    n ← strip_prefix tok_distributed token ≫= parse_u8;
    if n =? 0 then None else Some (Distributed n).

(** ** Compaction bounds *)

Inductive Quiescence := Settled | Churning.
Definition from_settled (settled : bool) : Quiescence := if settled then Settled else Churning.
Definition is_settled (q : Quiescence) : bool :=
  match q with Settled => true | Churning => false end.

Record CompactionBounds := { retire_after_ms : Z; receipt_ttl_ms : Z }.

(** [CompactionBounds::new], its durations already in milliseconds. *)
Definition compaction_bounds_new (retire_after_ms period_ms : Z) : CompactionBounds :=
  let three_bounds := saturating_mul retire_after_ms 3 in
  let two_bounds_two_periods :=
    saturating_add (saturating_mul retire_after_ms 2) (saturating_mul period_ms 2) in
  {| retire_after_ms := retire_after_ms;
     receipt_ttl_ms := Z.max three_bounds two_bounds_two_periods |}.

Definition three_bounds (retire_after_ms : Z) : CompactionBounds :=
  {| retire_after_ms := retire_after_ms; receipt_ttl_ms := saturating_mul retire_after_ms 3 |}.

(** ** Records *)

(** [wire.rs]: one record as it travels; [value] is [None] for a tombstone. *)
Record WireRecord := {
  wr_key : Bytes;
  wr_value : option Bytes;
  wr_ver : Hlc;
  wr_expires_at_ms : option Z;
}.

#[export] Instance WireRecord_eq_dec : EqDecision WireRecord.
Proof. solve_decision. Defined.

Record RecordView := {
  rv_value : option Bytes;
  rv_ver : Hlc;
  rv_expires_at_ms : option Z;
}.

Inductive Winner := WinA | WinB.

Record Merged := { mg_value : Bytes; mg_expires_at_ms : option Z }.

#[export] Instance Merged_eq_dec : EqDecision Merged.
Proof. solve_decision. Defined.

Definition later_deadline (a b : option Z) : option Z := option_max a b.

(** [crdt::WriterId]: a node and the incarnation it wrote under. *)
Record WriterId := { wid_node : Z; wid_incarnation : Z }.

#[export] Instance WriterId_eq_dec : EqDecision WriterId.
Proof. solve_decision. Defined.
#[export] Instance WriterId_countable : Countable WriterId.
Proof.
  refine (inj_countable' (fun w => (wid_node w, wid_incarnation w))
    (fun p => {| wid_node := p.1; wid_incarnation := p.2 |}) _).
  by intros [].
Defined.

(** The [ConflictResolver] trait: an interface a shard is configured with. *)
Class ConflictResolver := {
  winner : Bytes -> RecordView -> RecordView -> Winner;
  needs_value_bytes : bool;
  merges : bool;
  merge : Bytes -> RecordView -> RecordView -> option Merged;
  compact : Bytes -> Bytes -> Z -> (WriterId -> bool) -> Quiescence -> CompactionBounds ->
            option Bytes;
  settle : Bytes -> Bytes -> Z -> Z -> option Bytes;
}.

Definition exchanges_both_records (merges needs_value_bytes : bool) : bool :=
  merges || needs_value_bytes.

(** The default resolver: last write wins by version, every defaulted method at its default. *)
Definition lww_winner (_ : Bytes) (a b : RecordView) : Winner :=
  if hlc_leb (rv_ver b) (rv_ver a) then WinA else WinB.

Definition LwwResolver : ConflictResolver := {|
  winner := lww_winner;
  needs_value_bytes := false;
  merges := false;
  merge _ _ _ := None;
  compact _ _ _ _ _ _ := None;
  settle _ _ _ _ := None;
|}.

Record Tombstone := {
  ts_ver : Hlc;
  ts_ttl_deadline_ms : Z;
  ts_max_deadline_ms : Z;
  ts_expired_at_ms : option Z;
}.

(** What a versioned write carries; [V] is the typed value. *)
Inductive Incoming (V : Type) :=
  | Put (value : V) (expires_at_ms : option Z) (encoded : Bytes)
  | IncTombstone (expired_at_ms : option Z).
Arguments Put {V}. Arguments IncTombstone {V}.

Definition DELETE {V} : Incoming V := IncTombstone None.

(** ** Versions derived from content, [store/mod.rs] *)

Section Derived.
Context `{Hashing}.

(** Both paths of [entry_fingerprint] hash the key followed by the encoded version. *)
Definition entry_fingerprint (key_bytes : Bytes) (ver : Hlc) : Z :=
  xxh3_64 (key_bytes ++ postcard_hlc ver).

Definition derived_successor (stale : Hlc) (content_hash : Z) : Hlc :=
  let (w, l) :=
    match checked_add u32_max (logical stale) 1 with
    | Some l => (wall_ms stale, l)
    | None => (saturating_add (wall_ms stale) 1, 0)
    end in
  {| wall_ms := w; logical := l; node := NodeId.merge_derived content_hash |}.

Definition compacted_version (stale : Hlc) (compacted : Bytes) : Hlc :=
  derived_successor stale (xxh3_64 compacted).

Definition rearm_buf (base : Hlc) (expires_at_ms : option Z) : Bytes :=
  114 :: le_bytes 8 (wall_ms base) ++ le_bytes 4 (logical base) ++ le_bytes 8 (node base) ++
  match expires_at_ms with
  | Some deadline => 1 :: le_bytes 8 deadline
  | None => replicate 9 0
  end.

Definition rearmed_version (base : Hlc) (expires_at_ms : option Z) : Hlc :=
  derived_successor base (xxh3_64 (rearm_buf base expires_at_ms)).

Lemma derived_successor_gt stale h :
  0 <= logical stale <= u32_max -> logical stale < u32_max \/ wall_ms stale < u64_max ->
  hlc_lt stale (derived_successor stale h).
Proof.
  intros Hl Hroom. unfold derived_successor, checked_add, hlc_lt, hlc_ltb.
  bcase; cbn; [lia|]. unfold saturating_add, u32_max, u64_max in *. lia.
Qed.

(** The buffer a re-arm hashes determines the record's version and the new deadline. *)
Lemma rearm_buf_inj b1 e1 b2 e2 :
  hlc_wf b1 -> hlc_wf b2 -> from_option is_u64 True e1 -> from_option is_u64 True e2 ->
  rearm_buf b1 e1 = rearm_buf b2 e2 -> b1 = b2 /\ e1 = e2.
Proof.
  intros (W1 & L1 & N1) (W2 & L2 & N2) E1 E2 Heq. unfold rearm_buf in Heq.
  apply (f_equal tail) in Heq. cbn [tail] in Heq.
  apply app_inj_1 in Heq as [Hw Heq]; [|by rewrite !le_bytes_length].
  apply app_inj_1 in Heq as [Hl Heq]; [|by rewrite !le_bytes_length].
  apply app_inj_1 in Heq as [Hn Heq]; [|by rewrite !le_bytes_length].
  apply le_bytes_inj in Hw; eauto with sundog.
  apply le_bytes_inj in Hl; eauto with sundog.
  apply le_bytes_inj in Hn; eauto with sundog.
  split; [destruct b1, b2; simpl in *; congruence|].
  destruct e1 as [x|], e2 as [y|]; simpl in *; [|discriminate Heq|discriminate Heq|done].
  f_equal. apply (le_bytes_inj 8); eauto with sundog. apply (f_equal tail) in Heq. exact Heq.
Qed.

(** A re-armed record's version outranks the record it re-arms (unless both of that
    record's counters are at their maximum), and it loses to every write stamped in a later
    millisecond, as long as the record's logical counter leaves room; it carries a
    merge-derived node id, which no real node has. *)
Theorem rearmed_version_between (base later : Hlc) (deadline : option Z)
  (Hbase : hlc_wf base) (Hroom : logical base < u32_max)
  (Hlater : wall_ms base < wall_ms later) :
  hlc_lt base (rearmed_version base deadline) /\
  hlc_lt (rearmed_version base deadline) later /\
  NodeId.is_merge_derived (node (rearmed_version base deadline)) = true.
Proof.
  destruct Hbase as (_ & Hl & _). split; [apply derived_successor_gt; [done|by left]|]. split.
  - unfold rearmed_version, derived_successor, checked_add, hlc_lt, hlc_ltb.
    bcase; cbn; unfold u32_max in *; lia.
  - unfold rearmed_version, derived_successor.
    destruct (match checked_add _ _ _ with Some _ => _ | None => _ end). apply NodeId.merge_derived_is.
Qed.

End Derived.

Lemma rearmed_version_between_witness :
  let base := {| wall_ms := 100; logical := 4; node := 9 |} in
  hlc_lt base (rearmed_version base (Some 500)) /\
  hlc_lt (rearmed_version base (Some 500)) {| wall_ms := 101; logical := 0; node := 0 |} /\
  NodeId.is_merge_derived (node (rearmed_version base (Some 500))) = true.
Proof. apply rearmed_version_between; [repeat split; simpl; ulia|simpl; ulia|simpl; lia]. Defined.

(** ** Theorems on modes *)

Lemma parse_display_u8 n : 0 <= n <= u8_max -> parse_u8 (display_u8 n) = Some n.
Proof.
  intros H. assert (Hall : forallb (fun k => bool_decide (parse_u8 (display_u8 (Z.of_nat k)) = Some (Z.of_nat k)))
    (seq 0 256) = true) by (vm_compute; reflexivity).
  rewrite forallb_forall in Hall. specialize (Hall (Z.to_nat n)).
  rewrite Z2Nat.id, bool_decide_eq_true in Hall by lia. apply Hall.
  apply in_seq. unfold u8_max in H. lia.
Qed.

Lemma strip_prefix_app p s : strip_prefix p (p ++ s) = Some s.
Proof. induction p as [|c p IH]; simpl; [done|]. by rewrite Z.eqb_refl. Qed.

(** The gossip token of every mode parses back to that mode, for every owner count a
    [NonZeroU8] can hold. *)
Theorem mode_token_roundtrip (m : Mode) (Hm : mode_wf m) : from_token (as_token m) = Some m.
Proof.
  destruct m as [| | |n]; try (vm_compute; reflexivity). simpl in Hm.
  unfold from_token, as_token.
  rewrite !bool_decide_eq_false_2 by (intros Heq; vm_compute in Heq; discriminate Heq).
  rewrite strip_prefix_app. simpl. rewrite parse_display_u8 by (unfold u8_max in *; lia). simpl.
  by rewrite (proj2 (Z.eqb_neq n 0)) by lia.
Qed.

Lemma mode_token_roundtrip_witness :
  from_token (as_token (Distributed 213)) = Some (Distributed 213).
Proof. apply mode_token_roundtrip. simpl; ulia. Defined.

