(* ===== verification/Record.v ===== *)
(** * Live entries and their record buffers

    [store/engine/record.rs] (the [LEN ++ KEY ++ VALUE] buffer, inline up to 22 bytes) and the
    [Live] entry of [store/engine/mod.rs], in the build without the [spill] feature. *)

From S2P Require Import Prelude Clock Types.

(** postcard's encoding of a [u32] length prefix, and its decoder on a longer buffer. *)
Class PostcardU32 := {
  postcard_u32 : Z -> Bytes;
  take_u32 : Bytes -> option (Z * Bytes);
}.

(** [take_from_bytes] reads back what [to_stdvec] wrote and leaves the rest. *)
Class PostcardU32Laws `{PostcardU32} : Prop := {
  take_postcard_u32 n rest : is_u32 n -> take_u32 (postcard_u32 n ++ rest) = Some (n, rest);
}.

(** A concrete instance: the length as four little-endian bytes. *)
#[global] Instance toy_postcard_u32 : PostcardU32 := {|
  postcard_u32 := le_bytes 4;
  take_u32 b := if bool_decide (4 <= length b)%nat
                then Some (le_value (take 4 b), drop 4 b) else None;
|}.

#[global] Instance toy_postcard_u32_laws : @PostcardU32Laws toy_postcard_u32.
Proof.
  constructor. intros n rest Hn. cbn [take_u32 postcard_u32 toy_postcard_u32].
  rewrite bool_decide_eq_true_2 by (rewrite length_app, le_bytes_length; lia).
  rewrite take_app_length', drop_app_length' by (by rewrite le_bytes_length).
  rewrite le_value_bytes by eauto with sundog. done.
Qed.

Definition INLINE_CAP : Z := 22.

Inductive Record :=
  | Inline (len : Z) (buf : Bytes)
  | Heap (boxed : Bytes).

Definition blen (b : Bytes) : Z := Z.of_nat (length b).

Definition record_from_slice (bytes : Bytes) : Record :=
  if blen bytes <=? INLINE_CAP then
    Inline (blen bytes) (bytes ++ replicate (Z.to_nat INLINE_CAP - length bytes) 0)
  else Heap bytes.

Definition heap_len (r : Record) : Z :=
  match r with Inline _ _ => 0 | Heap boxed => blen boxed end.

Definition as_slice (r : Record) : Bytes :=
  match r with Inline len buf => take (Z.to_nat len) buf | Heap boxed => boxed end.

Lemma as_slice_from_slice b : as_slice (record_from_slice b) = b.
Proof.
  unfold record_from_slice. destruct (blen b <=? INLINE_CAP); [|done]. cbn [as_slice].
  unfold blen. by rewrite Nat2Z.id, take_app_length.
Qed.

Section Records.
Context `{PostcardU32}.

Definition build_resident_record (key_bytes value_bytes : Bytes) : Record :=
  record_from_slice (postcard_u32 (blen key_bytes) ++ key_bytes ++ value_bytes).

(** A buffer without this engine's own prefix makes [split_record] panic; every stored record
    comes from [build_resident_record]. *)
Definition split_record (record : Bytes) : Bytes * Bytes :=
  match take_u32 record with
  | Some (key_len, rest) => (take (Z.to_nat key_len) rest, drop (Z.to_nat key_len) rest)
  | None => ([], [])
  end.

Definition record_key (r : Record) : Bytes := (split_record (as_slice r)).1.
Definition record_value (r : Record) : Bytes := (split_record (as_slice r)).2.

(** Keys are shorter than [2^32] bytes, or the length conversion panics. *)
Definition key_fits (k : Bytes) : Prop := blen k <= u32_max.

Context `{!PostcardU32Laws}.

Lemma split_build k v : key_fits k ->
  split_record (as_slice (build_resident_record k v)) = (k, v).
Proof.
  intros Hk. unfold build_resident_record, split_record.
  rewrite as_slice_from_slice, take_postcard_u32.
  - unfold blen. rewrite Nat2Z.id. by rewrite take_app_length, drop_app_length.
  - unfold key_fits, blen in *. ulia.
Qed.

Lemma record_key_build k v : key_fits k -> record_key (build_resident_record k v) = k.
Proof. intros Hk. unfold record_key. by rewrite split_build. Qed.

Lemma record_value_build k v : key_fits k -> record_value (build_resident_record k v) = v.
Proof. intros Hk. unfold record_value. by rewrite split_build. Qed.

(** A stored record gives back exactly the key and the value it was built from, inline or
    boxed, and only a record over 22 bytes has heap bytes: all of its own. *)
Theorem record_roundtrip (k v : Bytes) (Hk : key_fits k) :
  record_key (build_resident_record k v) = k /\
  record_value (build_resident_record k v) = v /\
  heap_len (build_resident_record k v) =
    (let n := blen (postcard_u32 (blen k)) + blen k + blen v in
     if n <=? INLINE_CAP then 0 else n).
Proof.
  split; [by apply record_key_build|]. split; [by apply record_value_build|].
  unfold build_resident_record, record_from_slice. cbv zeta.
  assert (Hlen : blen (postcard_u32 (blen k) ++ k ++ v)
    = blen (postcard_u32 (blen k)) + blen k + blen v).
  { unfold blen. rewrite !length_app. lia. }
  rewrite <-Hlen. destruct (_ <=? _); done.
Qed.

End Records.

Lemma record_roundtrip_witness :
  record_key (build_resident_record [1; 2] (replicate 30 7)) = [1; 2] /\
  record_value (build_resident_record [1; 2] (replicate 30 7)) = replicate 30 7 /\
  heap_len (build_resident_record [1; 2] (replicate 30 7)) = 36.
Proof.
  destruct (record_roundtrip [1; 2] (replicate 30 7)) as (H1 & H2 & H3); [vm_compute; discriminate|].
  split; [exact H1|]. split; [exact H2|]. rewrite H3. vm_compute. reflexivity.
Defined.

(** ** Live entries *)

Record Live := {
  lv_record : Record;
  lv_wall_ms : Z;
  lv_node : Z;
  lv_expiry : Z;
  lv_logical : Z;
  lv_weight : Z;
  lv_last_access_ms : Z;
}.

Definition live_ver (l : Live) : Hlc :=
  {| wall_ms := lv_wall_ms l; logical := lv_logical l; node := lv_node l |}.

Definition set_ver (l : Live) (v : Hlc) : Live :=
  {| lv_record := lv_record l; lv_wall_ms := wall_ms v; lv_node := node v;
     lv_expiry := lv_expiry l; lv_logical := logical v; lv_weight := lv_weight l;
     lv_last_access_ms := lv_last_access_ms l |}.

(** [touch_stamp]: the low 32 bits of the clock. *)
Definition touch_stamp (now_ms : Z) : Z := wrap32 now_ms.

Definition live_new (record : Record) (ver : Hlc) (expiry weight last_access_ms : Z) : Live :=
  {| lv_record := record; lv_wall_ms := wall_ms ver; lv_node := node ver;
     lv_expiry := expiry; lv_logical := logical ver; lv_weight := weight;
     lv_last_access_ms := touch_stamp last_access_ms |}.

Definition set_last_access (l : Live) (stamp : Z) : Live :=
  {| lv_record := lv_record l; lv_wall_ms := lv_wall_ms l; lv_node := lv_node l;
     lv_expiry := lv_expiry l; lv_logical := lv_logical l; lv_weight := lv_weight l;
     lv_last_access_ms := stamp |}.

(** [size_of::<Live>()] (56 on a 64-bit target), a [u32] index row and a control byte. *)
Definition ENTRY_OVERHEAD_BYTES : Z := 56 + 4 + 1.

Definition entry_bytes (l : Live) : Z := ENTRY_OVERHEAD_BYTES + heap_len (lv_record l).

(** [set_record]: the swapped entry and the resident-byte total it leaves. *)
Definition set_record (l : Live) (record : Record) (resident_bytes : option Z) : Live * option Z :=
  ({| lv_record := record; lv_wall_ms := lv_wall_ms l; lv_node := lv_node l;
      lv_expiry := lv_expiry l; lv_logical := lv_logical l; lv_weight := lv_weight l;
      lv_last_access_ms := lv_last_access_ms l |},
   match resident_bytes with
   | Some total =>
       let old := heap_len (lv_record l) in
       let new := heap_len record in
       Some (if old <=? new then total + (new - old) else total - (old - new))
   | None => None
   end).

Lemma live_ver_new r v e w a : live_ver (live_new r v e w a) = v.
Proof. by destruct v. Qed.

Lemma live_ver_set l v : live_ver (set_ver l v) = v.
Proof. by destruct v. Qed.
