(* ===== verification/Expiry.v ===== *)
(** * Expiry, idleness and tombstone retention

    [store/engine/expiry.rs]: the 32-bit expiry encoding, the 32-bit idle-stamp ring, a sweep's
    verdict, and the retention arithmetic of tombstones with the pause guard. *)

From S2P Require Import Prelude Clock Types Record.

(** ** Definitions *)

Definition NEVER_EXPIRES : Z := u32_max.
Definition LONG_TTL : Z := u32_max - 1.
Definition MAX_INLINE_TTL_MS : Z := u32_max - 2.

Definition encode_expiry (wall_ms : Z) (expires_at_ms : option Z) : Z * option Z :=
  match expires_at_ms with
  | None => (NEVER_EXPIRES, None)
  | Some exp =>
      match checked_sub exp wall_ms with
      | Some delta => if delta <=? MAX_INLINE_TTL_MS then (delta, None) else (LONG_TTL, Some exp)
      | None => (LONG_TTL, Some exp)
      end
  end.

Definition decode_expiry (wall_ms expiry : Z) (key_bytes : Bytes) (long_ttl : gmap Bytes Z) :
    option Z :=
  if expiry =? NEVER_EXPIRES then None
  else if expiry =? LONG_TTL then long_ttl !! key_bytes
  else Some (wall_ms + expiry).

Definition MAX_STAMP_LEAD_MS : Z := 86400000.
Definition MAX_TTI_MS : Z := u32_max - MAX_STAMP_LEAD_MS.

Definition idle_elapsed_ms (now_ms last_access_ms : Z) : Z :=
  let gap := wrap32 (wrap32 now_ms - last_access_ms) in
  if MAX_TTI_MS <? gap then 0 else gap.

Definition clamp_tti_ms (tti_ms : Z) : Z := Z.min tti_ms MAX_TTI_MS.

Inductive Lapsed := Hidden | Shown.

Definition live_deadline (l : Live) (key_bytes : Bytes) (long_ttl : gmap Bytes Z) : option Z :=
  decode_expiry (lv_wall_ms l) (lv_expiry l) key_bytes long_ttl.

Definition idle_at (l : Live) (tti_ms : option Z) (now_ms : Z) : bool :=
  is_some_and tti_ms (fun tti => tti <=? idle_elapsed_ms now_ms (lv_last_access_ms l)).

Definition absent_under (l : Live) (key_bytes : Bytes) (long_ttl : gmap Bytes Z)
    (tti_ms : option Z) (now_ms : Z) (lapsed : Lapsed) : bool :=
  if match lapsed with Hidden => true | Shown => false end
     && is_some_and (live_deadline l key_bytes long_ttl) (fun exp => exp <=? now_ms)
  then true
  else idle_at l tti_ms now_ms.

Definition absent_at (l : Live) (key_bytes : Bytes) (long_ttl : gmap Bytes Z)
    (tti_ms : option Z) (now_ms : Z) : bool :=
  absent_under l key_bytes long_ttl tti_ms now_ms Hidden.

(** [explain.rs]'s [Lapse]. *)
Inductive Lapse := Expired | Idle.

Definition lapse_cause (expires_at_ms : option Z) (now_ms : Z) : Lapse :=
  if is_some_and expires_at_ms (fun e => e <=? now_ms) then Expired else Idle.

(** [TombstoneRetention] is its one field, [ttl_ms]. *)
Inductive SweepFate := FKeep | FDrop | FTombstone.

#[export] Instance SweepFate_eq_dec : EqDecision SweepFate.
Proof. solve_decision. Defined.

Definition sweep_fate (absent : bool) (expires_at_ms : option Z) (now_ms : Z)
    (tombstones_expired : bool) : SweepFate :=
  if negb absent then FKeep
  else if tombstones_expired && is_some_and expires_at_ms (fun exp => exp <=? now_ms)
  then FTombstone
  else FDrop.

Definition tombstone_anchor_ms (expired_at_ms : option Z) (ver_wall_ms now_ms : Z) : Z :=
  Z.min (default ver_wall_ms expired_at_ms) now_ms.

Definition deferred_retention_ms (expired : bool) (ttl_ms max_ttl_ms : Z) : Z :=
  if expired then ttl_ms else max_ttl_ms.

Definition tombstone_deadlines (anchor_ms ttl_ms max_ttl_ms : Z) : Z * Z :=
  (saturating_add anchor_ms ttl_ms, saturating_add anchor_ms max_ttl_ms).

Definition swept_tombstone_deadlines (expired_at_ms now_ms retention_ttl_ms : Z) : Z * Z :=
  let deadline :=
    Z.max (saturating_add (tombstone_anchor_ms (Some expired_at_ms) 0 now_ms) retention_ttl_ms)
      now_ms in
  (deadline, deadline).

Definition tombstone_lapsed (ttl_deadline_ms max_deadline_ms now_ms : Z) (deferring : bool) : bool :=
  (if deferring then max_deadline_ms else ttl_deadline_ms) <=? now_ms.

Definition drops_lapsed_tombstone (from_peer : bool) (deadlines : Z * Z) (now_ms : Z)
    (deferring : bool) : bool :=
  from_peer && tombstone_lapsed deadlines.1 deadlines.2 now_ms deferring.

Definition gc_period_ms (ttl_ms : Z) : Z := Z.max (ttl_ms / 4) 1000.

Definition pause_gap_ms (ttl_ms : Z) : Z :=
  let period := gc_period_ms ttl_ms in
  saturating_add period (Z.max (period / 4) 1000).

Definition paused_since (last_gc_ms now_ms ttl_ms : Z) : bool :=
  negb (last_gc_ms =? 0) && (pause_gap_ms ttl_ms <? saturating_sub now_ms last_gc_ms).

Definition pause_hold_after (hold_until_ms : Z) (paused : bool) (now_ms ttl_ms : Z) : Z :=
  if paused then Z.max hold_until_ms (saturating_add now_ms ttl_ms) else hold_until_ms.

Definition gc_defer_decision (defer paused : bool) (hold_until_ms now_ms : Z) : bool * bool :=
  let holding := now_ms <? hold_until_ms in
  (defer || paused || holding, paused && negb holding).

Definition expiry_tombstone_retention (mode : Mode) (resolver_merges : bool)
    (tombstone_ttl_ms : Z) : option Z :=
  if tombstones_expired_entries mode && negb resolver_merges then Some tombstone_ttl_ms else None.

(** ** Theorems *)

(** What [apply_put] does with the side table after encoding: record a long deadline, clear
    the row otherwise. *)
Definition record_long (key_bytes : Bytes) (long : option Z) (long_ttl : gmap Bytes Z) :
    gmap Bytes Z :=
  match long with
  | Some exp => <[key_bytes := exp]> long_ttl
  | None => delete key_bytes long_ttl
  end.

Lemma decode_encode_expiry wall exp key lt :
  let (e, long) := encode_expiry wall exp in
  decode_expiry wall e key (record_long key long lt) = exp /\
  0 <= e <= u32_max /\ (e = LONG_TTL <-> is_Some long).
Proof.
  unfold encode_expiry, checked_sub, decode_expiry.
  destruct exp as [x|]; simpl in *; cycle 1.
  { unfold NEVER_EXPIRES, LONG_TTL, u32_max. simpl. split; [done|]. split; [lia|].
    split; [lia|intros []; congruence]. }
  destruct (Z.leb_spec wall x) as [Hle|Hgt].
  - destruct (Z.leb_spec (x - wall) MAX_INLINE_TTL_MS) as [Hd|Hd].
    + rewrite (proj2 (Z.eqb_neq _ NEVER_EXPIRES)), (proj2 (Z.eqb_neq _ LONG_TTL))
        by (unfold MAX_INLINE_TTL_MS, NEVER_EXPIRES, LONG_TTL, u32_max in *; lia).
      unfold MAX_INLINE_TTL_MS, LONG_TTL, u32_max in *.
      split; [f_equal; lia|]. split; [lia|]. split; [lia|intros []; congruence].
    + simpl. rewrite lookup_insert_eq. unfold LONG_TTL, u32_max.
      split; [done|]. split; [lia|]. split; [by eexists|done].
  - simpl. rewrite lookup_insert_eq. unfold LONG_TTL, u32_max.
      split; [done|]. split; [lia|]. split; [by eexists|done].
Qed.

(** The 32-bit expiry encoding with its side table loses nothing: the deadline read back
    is the deadline written, for no deadline, one before the write's own stamp, one within
    49.7 days and one past it, whatever rows other keys hold. *)
Theorem expiry_encoding_is_exact (wall : Z) (exp : option Z) (key : Bytes) (lt : gmap Bytes Z) :
  let (e, long) := encode_expiry wall exp in
  decode_expiry wall e key (record_long key long lt) = exp /\ is_u32 e /\
  forall k, k <> key -> record_long key long lt !! k = lt !! k.
Proof.
  pose proof (decode_encode_expiry wall exp key lt) as H.
  destruct (encode_expiry wall exp) as [e long]. destruct H as (H1 & H2 & _).
  split; [done|]. split; [done|]. intros k Hk.
  destruct long; simpl; [by rewrite lookup_insert_ne|by rewrite lookup_delete_ne].
Qed.

Lemma wrap32_sub a b : wrap32 (wrap32 a - wrap32 b) = wrap32 (a - b).
Proof. unfold wrap32. by rewrite <-Zminus_mod. Qed.

(** The idle clock kept in 32 bits is exact for every gap a configured time-to-idle can
    ask about, and a stamp that leads the reader's clock by up to 24 hours reads as zero idle. *)
Theorem idle_elapsed_exact (touched now : Z) :
  (0 <= now - touched <= MAX_TTI_MS -> idle_elapsed_ms now (touch_stamp touched) = now - touched) /\
  (0 < touched - now <= MAX_STAMP_LEAD_MS -> idle_elapsed_ms now (touch_stamp touched) = 0).
Proof.
  unfold idle_elapsed_ms, touch_stamp. rewrite wrap32_sub.
  unfold wrap32, MAX_TTI_MS, MAX_STAMP_LEAD_MS, u32_max. split; intros Hgap.
  - rewrite Z.mod_small by lia. rewrite (proj2 (Z.ltb_ge _ _)) by lia. done.
  - replace ((now - touched) mod 4294967296) with (now - touched + 4294967296)
      by (apply Z.mod_unique with (-1); lia).
    rewrite (proj2 (Z.ltb_lt _ _)) by lia. done.
Qed.

Lemma idle_elapsed_exact_witness : idle_elapsed_ms (2 ^ 32 + 5) (touch_stamp (2 ^ 32 - 10)) = 15.
Proof.
  apply (proj1 (idle_elapsed_exact (2 ^ 32 - 10) (2 ^ 32 + 5))). vm_compute. split; discriminate.
Defined.

Lemma absent_at_idle l k lt tti now : absent_at l k lt tti now = true <->
  (exists e, live_deadline l k lt = Some e /\ e <= now) \/ idle_at l tti now = true.
Proof.
  unfold absent_at, absent_under. simpl.
  destruct (live_deadline l k lt) as [e|]; simpl.
  - destruct (Z.leb_spec e now); simpl.
    + split; [intros _; left; eauto|done].
    + split; [tauto|]. intros [(e' & [= <-] & ?)|]; [lia|done].
  - split; [tauto|]. intros [(e' & ? & ?)|]; done.
Qed.

(** ** Retention *)

(** The deadlines an arriving tombstone is stored under. *)
Definition arrival_deadlines (expired_at_ms : option Z) (ver_wall now ttl max_ttl : Z) : Z * Z :=
  tombstone_deadlines (tombstone_anchor_ms expired_at_ms ver_wall now) ttl
    (deferred_retention_ms (is_some expired_at_ms) ttl max_ttl).

(** Every replica that learns of a delete or of an expiry after the instant it happened
    derives the same two deadlines whenever it learns, so a tombstone is dropped on arrival by
    a late learner exactly when an early learner's next collection would remove it. *)
Theorem tombstone_deadlines_agree (expired_at_ms : option Z) (ver_wall now1 now2 ttl max_ttl : Z)
  (H1 : default ver_wall expired_at_ms <= now1) (H2 : default ver_wall expired_at_ms <= now2) :
  arrival_deadlines expired_at_ms ver_wall now1 ttl max_ttl =
  arrival_deadlines expired_at_ms ver_wall now2 ttl max_ttl /\
  forall deferring,
    drops_lapsed_tombstone true (arrival_deadlines expired_at_ms ver_wall now2 ttl max_ttl) now2 deferring =
    tombstone_lapsed (arrival_deadlines expired_at_ms ver_wall now1 ttl max_ttl).1
      (arrival_deadlines expired_at_ms ver_wall now1 ttl max_ttl).2 now2 deferring.
Proof.
  assert (Heq : arrival_deadlines expired_at_ms ver_wall now1 ttl max_ttl =
                arrival_deadlines expired_at_ms ver_wall now2 ttl max_ttl).
  { unfold arrival_deadlines, tombstone_anchor_ms. by rewrite !Z.min_l by lia. }
  split; [done|]. intros d. by rewrite Heq.
Qed.

Lemma tombstone_deadlines_agree_witness :
  arrival_deadlines None 500 600 1000 5000 = arrival_deadlines None 500 1400 1000 5000 /\
  forall d, drops_lapsed_tombstone true (arrival_deadlines None 500 1400 1000 5000) 1400 d =
    tombstone_lapsed (arrival_deadlines None 500 600 1000 5000).1
      (arrival_deadlines None 500 600 1000 5000).2 1400 d.
Proof. apply tombstone_deadlines_agree; simpl; lia. Defined.

Lemma swept_deadline_ge exp now ttl : now <= (swept_tombstone_deadlines exp now ttl).1.
Proof. unfold swept_tombstone_deadlines. simpl. lia. Qed.

(** A node that was away past the pause gap holds its tombstones for a whole retention from
    the collection that noticed, and a later pause never shortens a hold. *)
Lemma pause_hold_monotone hold paused now ttl :
  hold <= pause_hold_after hold paused now ttl /\
  (paused = true -> saturating_add now ttl <= pause_hold_after hold paused now ttl).
Proof. unfold pause_hold_after. destruct paused; split; intros; (lia || done). Qed.
