(* ===== verification/Sketch.v ===== *)
(** * The anti-entropy sketch

    [sketch.rs]: a partitioned invertible Bloom lookup table over the [(key_hash, version)]
    elements of one bucket, its subtraction, and the peeling that decodes a difference. *)

From S2P Require Import Prelude Clock Types.

Definition IBLT_PARTITIONS : nat := 3.
Definition PARTITION_SALTS : list Z :=
  [11400714819323198485; 14029467366897019727; 1609587929392839161].

Record Elem := { el_key_hash : Z; el_ver : Hlc }.

#[export] Instance Elem_eq_dec : EqDecision Elem.
Proof. solve_decision. Defined.

Record Cell := {
  count : Z;
  key_sum : Z;
  wall_sum : Z;
  logical_sum : Z;
  node_sum : Z;
  check_sum : Z;
}.

#[export] Instance Cell_eq_dec : EqDecision Cell.
Proof. solve_decision. Defined.

Definition cell_default : Cell :=
  {| count := 0; key_sum := 0; wall_sum := 0; logical_sum := 0; node_sum := 0; check_sum := 0 |}.

Definition cell_is_zero (c : Cell) : bool :=
  (count c =? 0) && (key_sum c =? 0) && (wall_sum c =? 0)
  && (logical_sum c =? 0) && (node_sum c =? 0) && (check_sum c =? 0).

Definition claimed_elem (c : Cell) : Elem :=
  {| el_key_hash := key_sum c;
     el_ver := {| wall_ms := wall_sum c; logical := logical_sum c; node := node_sum c |} |}.

Record Decoded := { only_left : list Elem; only_right : list Elem }.

(** The one error of this module. *)
Inductive Undecodable := Undecodable_.

Record Iblt := { cells : list Cell; partition_len : nat }.

Section Sketch.
Context `{Hashing}.

Definition mix (placement_hash : Z) (partition : nat) : Z :=
  xxh3_64 (le_bytes 8 (Z.lxor placement_hash (PARTITION_SALTS !!! partition))).

Definition check (key_hash wall_ms logical node : Z) : Z :=
  xxh3_64 (le_bytes 8 key_hash ++ le_bytes 8 wall_ms ++ le_bytes 4 logical ++ le_bytes 8 node).

Definition cell_index (partition : nat) (mixed : Z) (partition_len : nat) : nat :=
  partition * partition_len + Z.to_nat (mixed mod Z.of_nat partition_len).

Definition is_pure_and_valid (c : Cell) : bool :=
  ((count c =? 1) || (count c =? -1))
  && (check_sum c =? check (key_sum c) (wall_sum c) (logical_sum c) (node_sum c)).

Definition iblt_new (n : nat) : Iblt :=
  let pl := Nat.max (n / IBLT_PARTITIONS) 1 in
  {| cells := replicate (pl * IBLT_PARTITIONS) cell_default; partition_len := pl |}.

Definition from_cells (cs : list Cell) : Iblt :=
  {| cells := cs; partition_len := length cs / IBLT_PARTITIONS |}.

Definition is_well_formed (s : Iblt) : bool :=
  (0 <? partition_len s)%nat && (length (cells s) =? partition_len s * IBLT_PARTITIONS)%nat.

Definition locations (s : Iblt) (placement_hash : Z) : list nat :=
  (fun p => cell_index p (mix placement_hash p) (partition_len s)) <$> seq 0 IBLT_PARTITIONS.

(** [cell.count.wrapping_add(sign)] and the five XORs. *)
Definition cell_fold (e : Elem) (c_hash sign : Z) (c : Cell) : Cell :=
  {| count := wrap_i32 (count c + sign);
     key_sum := Z.lxor (key_sum c) (el_key_hash e);
     wall_sum := Z.lxor (wall_sum c) (wall_ms (el_ver e));
     logical_sum := Z.lxor (logical_sum c) (logical (el_ver e));
     node_sum := Z.lxor (node_sum c) (node (el_ver e));
     check_sum := Z.lxor (check_sum c) c_hash |}.

Definition elem_check (e : Elem) : Z :=
  check (el_key_hash e) (wall_ms (el_ver e)) (logical (el_ver e)) (node (el_ver e)).

Definition iblt_apply (s : Iblt) (e : Elem) (sign : Z) : Iblt :=
  if negb (is_well_formed s) then s
  else
    let c := elem_check e in
    {| cells := foldl (fun cs idx => alter (cell_fold e c sign) idx cs) (cells s) (locations s c);
       partition_len := partition_len s |}.

Definition iblt_insert (s : Iblt) (e : Elem) : Iblt := iblt_apply s e 1.

Definition cell_sub (a b : Cell) : Cell :=
  {| count := wrap_i32 (count a - count b);
     key_sum := Z.lxor (key_sum a) (key_sum b);
     wall_sum := Z.lxor (wall_sum a) (wall_sum b);
     logical_sum := Z.lxor (logical_sum a) (logical_sum b);
     node_sum := Z.lxor (node_sum a) (node_sum b);
     check_sum := Z.lxor (check_sum a) (check_sum b) |}.

Definition subtract (s other : Iblt) : Iblt + Undecodable :=
  if negb (is_well_formed s) || negb (length (cells s) =? length (cells other))%nat
  then inr Undecodable_
  else inl {| cells := zip_with cell_sub (cells s) (cells other);
              partition_len := partition_len s |}.

(** The inner loop of [peel] over the three targets of a pure cell: each target's cell is
    updated, then requeued if it became pure. *)
Definition peel_target (e : Elem) (hash sign : Z) (st : list Cell * list nat) (target : nat) :
    list Cell * list nat :=
  let (cs, queue) := st in
  let cs := alter (cell_fold e hash (- sign)) target cs in
  (cs, if is_some_and (cs !! target) is_pure_and_valid then queue ++ [target] else queue).

(** The [while] loop of [peel], one unit of fuel per queue entry popped; [None] is a loop that
    has not finished yet. *)
Fixpoint peel_loop (fuel : nat) (s : Iblt) (ls rs : list Elem) (queue : list nat) :
    option (Iblt * list Elem * list Elem) :=
  match queue with
  | [] => Some (s, ls, rs)
  | idx :: queue =>
      match fuel with
      | O => None
      | S fuel =>
          let cell := default cell_default (cells s !! idx) in
          if negb (is_pure_and_valid cell) then peel_loop fuel s ls rs queue
          else
            let e := claimed_elem cell in
            let sign := count cell in
            let (cs, queue) :=
              foldl (peel_target e (check_sum cell) sign) (cells s, queue)
                (locations s (check_sum cell)) in
            let s := {| cells := cs; partition_len := partition_len s |} in
            if sign =? 1 then peel_loop fuel s (ls ++ [e]) rs queue
            else peel_loop fuel s ls (rs ++ [e]) queue
      end
  end.

Definition pure_cells (cs : list Cell) : list nat :=
  filter (fun i => is_some_and (cs !! i) is_pure_and_valid = true) (seq 0 (length cs)).

Definition peel (fuel : nat) (s : Iblt) : option (Decoded + Undecodable) :=
  if negb (is_well_formed s) then Some (inr Undecodable_)
  else
    '(s, ls, rs) ← peel_loop fuel s [] [] (pure_cells (cells s));
    Some (if forallb cell_is_zero (cells s)
          then inl {| only_left := ls; only_right := rs |}
          else inr Undecodable_).

End Sketch.

(** ** The cells as a commutative group

    Counts wrap at 32 bits and every other field XORs, so a cell is a sum of signed element
    contributions and peeling subtracts them. *)

Lemma wrap_i32_add_l x y : wrap_i32 (wrap_i32 x + y) = wrap_i32 (x + y).
Proof.
  unfold wrap_i32.
  replace ((x + 2147483648) mod 4294967296 - 2147483648 + y + 2147483648)
    with ((x + 2147483648) mod 4294967296 + y) by lia.
  rewrite Z.add_mod_idemp_l by lia. f_equal. f_equal. lia.
Qed.

Lemma wrap_i32_add_r x y : wrap_i32 (x + wrap_i32 y) = wrap_i32 (x + y).
Proof. rewrite Z.add_comm, wrap_i32_add_l. f_equal. lia. Qed.

Definition is_i32 (x : Z) : Prop := -2147483648 <= x < 2147483648.

Lemma wrap_i32_id x : is_i32 x -> wrap_i32 x = x.
Proof. unfold is_i32, wrap_i32. intros Hx. rewrite Z.mod_small by lia. lia. Qed.

Lemma wrap_i32_range x : is_i32 (wrap_i32 x).
Proof. unfold is_i32, wrap_i32. pose proof (Z.mod_pos_bound (x + 2147483648) 4294967296). lia. Qed.

Definition cell_plus (a b : Cell) : Cell :=
  {| count := wrap_i32 (count a + count b);
     key_sum := Z.lxor (key_sum a) (key_sum b);
     wall_sum := Z.lxor (wall_sum a) (wall_sum b);
     logical_sum := Z.lxor (logical_sum a) (logical_sum b);
     node_sum := Z.lxor (node_sum a) (node_sum b);
     check_sum := Z.lxor (check_sum a) (check_sum b) |}.

Definition cell_ok (c : Cell) : Prop := is_i32 (count c).

Lemma cell_eq a b : count a = count b -> key_sum a = key_sum b -> wall_sum a = wall_sum b ->
  logical_sum a = logical_sum b -> node_sum a = node_sum b -> check_sum a = check_sum b -> a = b.
Proof. destruct a, b; simpl; congruence. Qed.

(** Cell equations field by field: wrapping sums by [lia] after normalising, XORs by the
    commutative-monoid laws of [Z.lxor]. *)
Ltac cell_ring :=
  apply cell_eq; simpl;
  rewrite ?wrap_i32_add_l, ?wrap_i32_add_r;
  try (f_equal; lia);
  rewrite ?Z.lxor_assoc; try reflexivity;
  autorewrite with xor; try reflexivity.

Lemma cell_plus_comm a b : cell_plus a b = cell_plus b a.
Proof. apply cell_eq; simpl; [f_equal; lia|apply Z.lxor_comm..]. Qed.

Lemma cell_plus_assoc a b c : cell_plus a (cell_plus b c) = cell_plus (cell_plus a b) c.
Proof. cell_ring. Qed.

Lemma cell_plus_zero_r a : cell_ok a -> cell_plus a cell_default = a.
Proof.
  intros Ha. apply cell_eq; simpl; [|apply Z.lxor_0_r..].
  rewrite Z.add_0_r. by apply wrap_i32_id.
Qed.

Lemma cell_plus_ok a b : cell_ok (cell_plus a b).
Proof. apply wrap_i32_range. Qed.

Lemma cell_plus_cancel_r a b c : cell_ok a -> cell_ok b ->
  cell_plus a c = cell_plus b c -> a = b.
Proof.
  intros Ha Hb Heq. destruct a as [a1 a2 a3 a4 a5 a6], b as [b1 b2 b3 b4 b5 b6].
  injection Heq as H1 H2 H3 H4 H5 H6. simpl in *.
  apply cell_eq; simpl; [|by eapply lxor_inj_r..].
  apply (f_equal (fun x => wrap_i32 (x - count c))) in H1.
  unfold Z.sub in H1. rewrite !wrap_i32_add_l in H1.
  replace (a1 + count c + - count c) with a1 in H1 by lia.
  replace (b1 + count c + - count c) with b1 in H1 by lia.
  by rewrite !wrap_i32_id in H1.
Qed.

Lemma cell_sub_plus a b : cell_ok a -> cell_plus b (cell_sub a b) = a.
Proof.
  intros Ha. apply cell_eq; simpl.
  - rewrite wrap_i32_add_r. replace (count b + (count a - count b)) with (count a) by lia.
    by apply wrap_i32_id.
  - rewrite (Z.lxor_comm (key_sum a)). apply lxor_cancel_l.
  - rewrite (Z.lxor_comm (wall_sum a)). apply lxor_cancel_l.
  - rewrite (Z.lxor_comm (logical_sum a)). apply lxor_cancel_l.
  - rewrite (Z.lxor_comm (node_sum a)). apply lxor_cancel_l.
  - rewrite (Z.lxor_comm (check_sum a)). apply lxor_cancel_l.
Qed.

(** ** Placement *)

#[local] Arguments locations : simpl never.

Section Placement.
Context `{Hashing}.

Definition sketch_ok (s : Iblt) : Prop := is_well_formed s = true /\ Forall cell_ok (cells s).

Lemma well_formed_spec s : is_well_formed s = true <->
  (0 < partition_len s)%nat /\ length (cells s) = (partition_len s * 3)%nat.
Proof.
  unfold is_well_formed, IBLT_PARTITIONS. rewrite andb_true_iff, Nat.ltb_lt, Nat.eqb_eq. done.
Qed.

Lemma cell_index_range p h n : (0 < n)%nat -> (p * n <= cell_index p h n < p * n + n)%nat.
Proof.
  intros Hn. unfold cell_index. pose proof (Z.mod_pos_bound h (Z.of_nat n) ltac:(lia)). lia.
Qed.

Lemma locations_spec s h : is_well_formed s = true ->
  NoDup (locations s h) /\ Forall (fun i => (i < length (cells s))%nat) (locations s h).
Proof.
  intros [Hn Hlen]%well_formed_spec. unfold locations. simpl. rewrite Hlen.
  pose proof (cell_index_range 0 (mix h 0) _ Hn) as H0.
  pose proof (cell_index_range 1 (mix h 1) _ Hn) as H1.
  pose proof (cell_index_range 2 (mix h 2) _ Hn) as H2.
  split.
  - repeat constructor; rewrite ?elem_of_cons, ?elem_of_nil; intros Hin; lia.
  - repeat constructor; lia.
Qed.

Lemma foldl_alter_lookup (f : Cell -> Cell) (idxs : list nat) (cs : list Cell) j : NoDup idxs ->
  foldl (fun cs i => alter f i cs) cs idxs !! j =
  if decide (j ∈ idxs) then f <$> cs !! j else cs !! j.
Proof.
  revert cs; induction idxs as [|i idxs IH]; intros cs Hnd; cbn [foldl].
  - by rewrite decide_False by (by intros ?%elem_of_nil).
  - apply NoDup_cons in Hnd as [Hi Hnd]. rewrite IH by done.
    destruct (decide (j ∈ idxs)) as [Hj|Hj].
    + rewrite decide_True by by right. rewrite list_lookup_alter_ne; [done|].
      intros ->. done.
    + destruct (decide (j = i)) as [->|Hne].
      * rewrite decide_True by by left. apply list_lookup_alter_eq.
      * rewrite decide_False by (rewrite elem_of_cons; tauto).
        by apply list_lookup_alter_ne.
Qed.

Lemma foldl_alter_length (f : Cell -> Cell) (idxs : list nat) (cs : list Cell) :
  length (foldl (fun cs i => alter f i cs) cs idxs) = length cs.
Proof.
  revert cs; induction idxs as [|i idxs IH]; intros cs; simpl; [done|].
  by rewrite IH, length_alter.
Qed.

(** What one signed element adds to the cell at [i]. *)
Definition elem_cell (e : Elem) (sign : Z) : Cell :=
  {| count := sign; key_sum := el_key_hash e; wall_sum := wall_ms (el_ver e);
     logical_sum := logical (el_ver e); node_sum := node (el_ver e);
     check_sum := elem_check e |}.

Definition contrib (s : Iblt) (i : nat) (es : Elem * Z) : Cell :=
  if decide (i ∈ locations s (elem_check es.1)) then elem_cell es.1 es.2 else cell_default.

Lemma apply_well_formed s e sg : is_well_formed (iblt_apply s e sg) = is_well_formed s.
Proof.
  unfold iblt_apply. destruct (is_well_formed s) eqn:E; cbn [negb]; [|done].
  unfold is_well_formed in E |- *. cbn [cells partition_len]. by rewrite foldl_alter_length.
Qed.

Lemma apply_partition_len s e sg : partition_len (iblt_apply s e sg) = partition_len s.
Proof. unfold iblt_apply. by destruct (is_well_formed s). Qed.

Lemma apply_lookup s e sg i : sketch_ok s ->
  cells (iblt_apply s e sg) !! i = (fun c => cell_plus c (contrib s i (e, sg))) <$> cells s !! i.
Proof.
  intros [Hwf Hok]. unfold iblt_apply. rewrite Hwf. cbn [negb cells].
  rewrite foldl_alter_lookup by by apply locations_spec.
  unfold contrib. simpl. destruct (decide _); [done|].
  destruct (cells s !! i) as [c|] eqn:E; simpl; [|done].
  rewrite cell_plus_zero_r; [done|]. by eapply Forall_lookup_1 in Hok.
Qed.

Lemma apply_ok s e sg : sketch_ok s -> sketch_ok (iblt_apply s e sg).
Proof.
  intros Hs. split; [rewrite apply_well_formed; apply Hs|].
  apply Forall_lookup_2. intros i c. rewrite apply_lookup by done.
  destruct (cells s !! i); simpl; [|done]. intros [= <-]. apply cell_plus_ok.
Qed.

Lemma contrib_apply s e sg i es : contrib (iblt_apply s e sg) i es = contrib s i es.
Proof. unfold contrib, locations. by rewrite apply_partition_len. Qed.

(** Folding signed elements in, and the sum each cell ends up with. *)
Definition apply_all (s : Iblt) (es : list (Elem * Z)) : Iblt :=
  foldl (fun s es => iblt_apply s es.1 es.2) s es.

Definition contribs (s : Iblt) (i : nat) (es : list (Elem * Z)) : Cell :=
  foldr (fun e acc => cell_plus (contrib s i e) acc) cell_default es.

Lemma apply_all_ok s es : sketch_ok s ->
  sketch_ok (apply_all s es) /\ partition_len (apply_all s es) = partition_len s.
Proof.
  revert s; induction es as [|e es IH]; intros s Hs; simpl; [done|].
  destruct (IH (iblt_apply s e.1 e.2) (apply_ok _ _ _ Hs)) as [H1 H2].
  split; [done|]. by rewrite H2, apply_partition_len.
Qed.

Lemma contribs_same s s' i es : partition_len s = partition_len s' ->
  contribs s i es = contribs s' i es.
Proof.
  intros Hp. induction es as [|e es IH]; simpl; [done|]. rewrite IH. f_equal.
  unfold contrib, locations. by rewrite Hp.
Qed.

Lemma apply_all_lookup s es i : sketch_ok s ->
  cells (apply_all s es) !! i = (fun c => cell_plus c (contribs s i es)) <$> cells s !! i.
Proof.
  revert s; induction es as [|e es IH]; intros s Hs; simpl.
  - destruct (cells s !! i) as [c|] eqn:E; simpl; [|done].
    rewrite cell_plus_zero_r; [done|]. destruct Hs as [_ Hok]. by eapply Forall_lookup_1 in Hok.
  - rewrite IH by by apply apply_ok. rewrite apply_lookup by done.
    rewrite (contribs_same _ s) by apply apply_partition_len.
    destruct (cells s !! i) as [c|]; simpl; [|done]. by rewrite cell_plus_assoc.
Qed.

Lemma contribs_ok s i es : cell_ok (contribs s i es).
Proof. destruct es; simpl; [unfold cell_ok, is_i32; simpl; lia|apply cell_plus_ok]. Qed.

Lemma contribs_app s i es1 es2 :
  contribs s i (es1 ++ es2) = cell_plus (contribs s i es1) (contribs s i es2).
Proof.
  induction es1 as [|e es1 IH]; simpl.
  - rewrite cell_plus_comm, cell_plus_zero_r; [done|apply contribs_ok].
  - by rewrite IH, cell_plus_assoc.
Qed.

Lemma contribs_perm s i es1 es2 : es1 ≡ₚ es2 -> contribs s i es1 = contribs s i es2.
Proof.
  induction 1 as [|x l k _ IH|x y l|l k m _ IH1 _ IH2]; simpl; [done|by rewrite IH| |congruence].
  by rewrite !cell_plus_assoc, (cell_plus_comm (contrib s i y)).
Qed.

(** Opposite signs cancel. *)
Lemma contribs_opp s i es :
  cell_plus (contribs s i es) (contribs s i ((fun e => (e.1, - e.2)) <$> es)) = cell_default.
Proof.
  induction es as [|[e sg] es IH]; [done|].
  rewrite fmap_cons. cbn [contribs foldr fst snd].
  fold (contribs s i es). fold (contribs s i ((fun e => (e.1, - e.2)) <$> es)).
  rewrite <-cell_plus_assoc, (cell_plus_comm (contrib s i (e, - sg))).
  rewrite (cell_plus_assoc (contribs s i es)), IH.
  rewrite (cell_plus_comm cell_default), cell_plus_assoc.
  assert (Hc : cell_plus (contrib s i (e, sg)) (contrib s i (e, - sg)) = cell_default).
  { unfold contrib; simpl. destruct (decide _); [|done].
    apply cell_eq; simpl; [|apply Z.lxor_nilpotent..].
    by rewrite Z.add_opp_diag_r. }
  by rewrite Hc.
Qed.

End Placement.

(** ** Peeling *)

Section Peeling.
Context `{Hashing}.

(** Peeling a pure cell is folding its element in with the opposite sign, and requeueing the
    targets that are pure afterwards. *)
Lemma peel_targets e h sg (idxs : list nat) (cs : list Cell) q : NoDup idxs ->
  let cs' := foldl (fun cs i => alter (cell_fold e h (- sg)) i cs) cs idxs in
  foldl (peel_target e h sg) (cs, q) idxs =
  (cs', q ++ filter (fun t => is_some_and (cs' !! t) is_pure_and_valid = true) idxs).
Proof.
  revert cs q; induction idxs as [|i idxs IH]; intros cs q Hnd; cbn [foldl].
  { cbv zeta. by rewrite app_nil_r. }
  apply NoDup_cons in Hnd as [Hi Hnd]. unfold peel_target at 2. rewrite IH by done. cbv zeta.
  f_equal. rewrite filter_cons.
  assert (Hsame : foldl (fun cs i => alter (cell_fold e h (- sg)) i cs)
      (alter (cell_fold e h (- sg)) i cs) idxs !! i = alter (cell_fold e h (- sg)) i cs !! i).
  { rewrite foldl_alter_lookup by done. by rewrite decide_False. }
  rewrite Hsame.
  destruct (is_some_and (alter (cell_fold e h (- sg)) i cs !! i) is_pure_and_valid).
  - rewrite decide_True by done. by rewrite <-app_assoc.
  - by rewrite decide_False.
Qed.

Lemma pure_check c : is_pure_and_valid c = true ->
  check_sum c = elem_check (claimed_elem c) /\ (count c = 1 \/ count c = -1).
Proof.
  unfold is_pure_and_valid. intros [Hc Hk]%andb_true_iff. apply Z.eqb_eq in Hk.
  split; [exact Hk|lia].
Qed.

Lemma peel_loop_step fuel s ls rs idx q c :
  is_well_formed s = true -> cells s !! idx = Some c -> is_pure_and_valid c = true ->
  let s' := iblt_apply s (claimed_elem c) (- count c) in
  let q' := q ++ filter (fun t => is_some_and (cells s' !! t) is_pure_and_valid = true)
                   (locations s (elem_check (claimed_elem c))) in
  peel_loop (S fuel) s ls rs (idx :: q) =
  if count c =? 1 then peel_loop fuel s' (ls ++ [claimed_elem c]) rs q'
  else peel_loop fuel s' ls (rs ++ [claimed_elem c]) q'.
Proof.
  intros Hwf Hc Hp. destruct (pure_check c Hp) as [Hk _]. cbn [peel_loop].
  rewrite Hc. cbn [from_option id]. cbv zeta. rewrite Hp. cbn [negb].
  rewrite peel_targets by by apply locations_spec. rewrite Hk.
  unfold iblt_apply. rewrite Hwf. cbn [negb cells]. done.
Qed.

(** The elements a run of the loop peels off, with their signs. *)
Lemma peel_loop_trace fuel : forall s ls rs q s' ls' rs',
  sketch_ok s -> peel_loop fuel s ls rs q = Some (s', ls', rs') ->
  exists l r, ls' = ls ++ l /\ rs' = rs ++ r /\ sketch_ok s' /\
    partition_len s' = partition_len s /\ length (cells s') = length (cells s) /\
    forall i, cells s' !! i =
      (fun c => cell_plus c (contribs s i (((fun e => (e, -1)) <$> l) ++ ((fun e => (e, 1)) <$> r))))
      <$> cells s !! i.
Proof.
  induction fuel as [|fuel IH]; intros s ls rs [|idx q] s' ls' rs' Hs Heq.
  1,3: injection Heq as <- <- <-; exists [], []; rewrite !app_nil_r; repeat (split; [done|]);
    intros i; cbn [fmap list_fmap app contribs foldr];
    destruct (cells s !! i) as [c|] eqn:E; simpl; [|done];
    rewrite cell_plus_zero_r; [done|]; destruct Hs as [_ Hok]; by eapply Forall_lookup_1 in Hok.
  { discriminate. }
  destruct (cells s !! idx) as [c|] eqn:Ec; cycle 1.
  { cbn [peel_loop] in Heq. rewrite Ec in Heq. cbn in Heq. by apply IH in Heq. }
  destruct (is_pure_and_valid c) eqn:Hp; cycle 1.
  { cbn [peel_loop] in Heq. rewrite Ec in Heq. cbn [from_option id] in Heq.
    rewrite Hp in Heq. cbn in Heq. by apply IH in Heq. }
  rewrite (peel_loop_step _ _ _ _ _ _ c) in Heq by (done || apply Hs).
  destruct (pure_check c Hp) as [_ Hsign]. cbv zeta in Heq.
  assert (Hs1 : sketch_ok (iblt_apply s (claimed_elem c) (- count c))) by by apply apply_ok.
  destruct Hsign as [H1|H1]; rewrite H1 in Heq; cbn in Heq.
  - rewrite H1 in Hs1. apply IH in Heq as (l & r & -> & -> & H2 & H3 & H4 & H5); [|done].
    exists (claimed_elem c :: l), r. rewrite <-app_assoc. split; [done|]. split; [done|].
    split; [done|]. split; [by rewrite H3, apply_partition_len|]. split.
    { rewrite H4. unfold iblt_apply. destruct (is_well_formed s); cbn; [by rewrite foldl_alter_length|done]. }
    intros i. rewrite H5, apply_lookup by done.
    rewrite (contribs_same _ s) by apply apply_partition_len.
    rewrite fmap_cons. cbn [app]. destruct (cells s !! i) as [x|]; simpl; [|done].
    by rewrite <-cell_plus_assoc.
  - rewrite H1 in Hs1. apply IH in Heq as (l & r & -> & -> & H2 & H3 & H4 & H5); [|done].
    exists l, (claimed_elem c :: r). rewrite <-app_assoc. split; [done|]. split; [done|].
    split; [done|]. split; [by rewrite H3, apply_partition_len|]. split.
    { rewrite H4. unfold iblt_apply. destruct (is_well_formed s); cbn; [by rewrite foldl_alter_length|done]. }
    intros i. rewrite H5, apply_lookup by done.
    rewrite (contribs_same _ s) by apply apply_partition_len.
    rewrite fmap_cons, <-(contribs_perm s i _ _ (Permutation_middle _ _ _)).
    destruct (cells s !! i) as [x|]; simpl; [|done].
    by rewrite <-cell_plus_assoc.
Qed.

End Peeling.

(** ** Theorems *)

Section Theorems.
Context `{Hashing}.

Definition of_list (n : nat) (es : list Elem) : Iblt := foldl iblt_insert (iblt_new n) es.

Definition signed (sg : Z) (es : list Elem) : list (Elem * Z) := (fun e => (e, sg)) <$> es.

Lemma of_list_apply_all n es : of_list n es = apply_all (iblt_new n) (signed 1 es).
Proof.
  unfold of_list, apply_all, signed. generalize (iblt_new n).
  induction es as [|e es IH]; intros s; simpl; [done|]. apply IH.
Qed.

Lemma iblt_new_ok n : sketch_ok (iblt_new n).
Proof.
  split.
  - apply well_formed_spec. unfold iblt_new. cbn [cells partition_len].
    rewrite length_replicate. unfold IBLT_PARTITIONS. lia.
  - apply Forall_replicate. unfold cell_ok, is_i32. simpl. lia.
Qed.

Lemma iblt_new_lookup n i c : cells (iblt_new n) !! i = Some c -> c = cell_default.
Proof. unfold iblt_new. cbn [cells]. by intros [-> _]%lookup_replicate. Qed.

Lemma of_list_lookup n es i :
  cells (of_list n es) !! i =
  (fun _ => contribs (iblt_new n) i (signed 1 es)) <$> cells (iblt_new n) !! i.
Proof.
  rewrite of_list_apply_all, apply_all_lookup by apply iblt_new_ok.
  destruct (cells (iblt_new n) !! i) as [c|] eqn:E; [|done]. apply iblt_new_lookup in E as ->.
  cbn [fmap option_fmap option_map].
  by rewrite cell_plus_comm, cell_plus_zero_r by apply contribs_ok.
Qed.

Lemma of_list_ok n es : sketch_ok (of_list n es) /\ partition_len (of_list n es) = partition_len (iblt_new n).
Proof. rewrite of_list_apply_all. apply apply_all_ok, iblt_new_ok. Qed.

Lemma iblt_eq s1 s2 : partition_len s1 = partition_len s2 ->
  (forall i, cells s1 !! i = cells s2 !! i) -> s1 = s2.
Proof.
  destruct s1, s2; cbn [cells partition_len]. intros -> Hl. f_equal. by apply list_eq.
Qed.

Lemma subtract_lookup s1 s2 s i : subtract s1 s2 = inl s ->
  partition_len s = partition_len s1 /\ is_well_formed s1 = true /\
  length (cells s) = length (cells s1) /\
  cells s !! i = (a ← cells s1 !! i; b ← cells s2 !! i; Some (cell_sub a b)).
Proof.
  unfold subtract. destruct (is_well_formed s1); [|done]. cbn [negb orb].
  destruct (Nat.eqb_spec (length (cells s1)) (length (cells s2))) as [Hlen|]; [|done].
  cbn [negb]. intros [= <-]. cbn [cells partition_len].
  split; [done|]. split; [done|]. split; [rewrite length_zip_with; lia|].
  rewrite lookup_zip_with. by destruct (cells s1 !! i), (cells s2 !! i).
Qed.

Lemma subtract_ok s1 s2 s : subtract s1 s2 = inl s -> sketch_ok s.
Proof.
  intros Hs. destruct (subtract_lookup s1 s2 s 0 Hs) as (Hp & Hwf & Hlen & _). split.
  - apply well_formed_spec. apply well_formed_spec in Hwf. rewrite Hp, Hlen. done.
  - apply Forall_lookup_2. intros i c Hi.
    destruct (subtract_lookup s1 s2 s i Hs) as (_ & _ & _ & Hl). rewrite Hi in Hl.
    destruct (cells s1 !! i), (cells s2 !! i); try done. injection Hl as ->. apply wrap_i32_range.
Qed.

Lemma all_zero_cells cs : forallb cell_is_zero cs = true -> forall i c, cs !! i = Some c -> c = cell_default.
Proof.
  intros Hz i c Hi. rewrite forallb_forall in Hz. specialize (Hz c).
  assert (Hin : In c cs) by (apply list_elem_of_In; by eapply list_elem_of_lookup_2).
  specialize (Hz Hin). unfold cell_is_zero in Hz. destruct c; simpl in Hz.
  apply cell_eq; simpl; lia.
Qed.

(** Peeling is never wrong: when the difference of two sketches decodes, the decoded
    elements account for it exactly, in every cell. Adding what only the right side had to
    the left side's elements, and what only the left side had to the right side's, gives two
    sketches that are equal field by field. *)
Theorem peel_accounts_for_the_difference (n fuel : nat) (A B : list Elem) (s : Iblt) (d : Decoded)
  (Hsub : subtract (of_list n A) (of_list n B) = inl s)
  (Hpeel : peel fuel s = Some (inl d)) :
  of_list n (A ++ only_right d) = of_list n (B ++ only_left d).
Proof.
  pose proof (subtract_ok _ _ _ Hsub) as Hok. unfold peel in Hpeel.
  rewrite (proj1 Hok) in Hpeel. cbn [negb] in Hpeel.
  destruct (peel_loop fuel s [] [] (pure_cells (cells s))) as [[[s' ls] rs]|] eqn:El; [|done].
  cbn in Hpeel. destruct (forallb cell_is_zero (cells s')) eqn:Ez; [|done].
  injection Hpeel as <-. cbn [only_left only_right].
  destruct (peel_loop_trace _ _ _ _ _ _ _ _ Hok El) as (l & r & -> & -> & _ & _ & _ & Htr).
  apply iblt_eq; [by rewrite !(proj2 (of_list_ok _ _))|]. intros i.
  rewrite !of_list_lookup. destruct (cells (iblt_new n) !! i) as [z|] eqn:Ez'; [|done].
  cbn [fmap option_fmap option_map]. f_equal. cbn [app].
  destruct (subtract_lookup _ _ _ i Hsub) as (Hp & _ & _ & Hl).
  rewrite !of_list_lookup, Ez' in Hl. cbn in Hl.
  specialize (Htr i). rewrite Hl in Htr. cbn in Htr. apply all_zero_cells with (1 := Ez) in Htr.
  rewrite (contribs_same s (iblt_new n)) in Htr by by rewrite Hp, (proj2 (of_list_ok _ _)).
  rewrite contribs_app in Htr. fold (signed (-1) l) (signed 1 r) in Htr.
  unfold signed. rewrite !fmap_app, !contribs_app. fold (signed 1 A) (signed 1 B) (signed 1 l) (signed 1 r).
  set (a := contribs _ i (signed 1 A)) in *. set (b := contribs _ i (signed 1 B)) in *.
  set (cl := contribs _ i (signed 1 l)) in *. set (cr := contribs _ i (signed 1 r)) in *.
  set (ml := contribs _ i (signed (-1) l)) in *.
  assert (Hopp : cell_plus cl ml = cell_default).
  { unfold cl, ml. rewrite <-(contribs_opp (iblt_new n) i (signed 1 l)). f_equal. f_equal.
    unfold signed. rewrite <-list_fmap_compose. done. }
  assert (Ha : cell_plus b (cell_sub a b) = a) by (apply cell_sub_plus, contribs_ok).
  transitivity (cell_plus (cell_plus b cl) (cell_plus (cell_sub a b) (cell_plus ml cr))).
  - rewrite <-Ha at 1. rewrite <-!cell_plus_assoc. f_equal.
    rewrite !(cell_plus_assoc cl), (cell_plus_comm cl (cell_sub a b)), <-!cell_plus_assoc. f_equal.
    rewrite cell_plus_assoc, Hopp, cell_plus_comm, cell_plus_zero_r; [done|apply contribs_ok].
  - rewrite Htr, cell_plus_zero_r; [done|apply cell_plus_ok].
Qed.

Lemma elem_cell_pure e sg : sg = 1 \/ sg = -1 ->
  is_pure_and_valid (elem_cell e sg) = true /\ claimed_elem (elem_cell e sg) = e.
Proof.
  intros Hsg. split; [|by destruct e as [? []]].
  unfold is_pure_and_valid, elem_cell, elem_check; cbn. rewrite Z.eqb_refl, andb_true_r. lia.
Qed.

Lemma default_not_pure : is_pure_and_valid cell_default = false.
Proof. reflexivity. Qed.

(** A queue of cells none of which is pure drains, one pop each. *)
Lemma peel_loop_drain s ls rs q : forall fuel, (length q <= fuel)%nat ->
  (forall i c, cells s !! i = Some c -> is_pure_and_valid c = false) ->
  peel_loop fuel s ls rs q = Some (s, ls, rs).
Proof.
  induction q as [|i q IH]; intros fuel Hf Hp; [by destruct fuel|].
  destruct fuel as [|fuel]; simpl in Hf; [lia|]. cbn [peel_loop].
  assert (Hn : is_pure_and_valid (default cell_default (cells s !! i)) = false).
  { destruct (cells s !! i) as [c|] eqn:E; simpl; [by eapply Hp|done]. }
  rewrite Hn. cbn [negb]. apply IH; [lia|done].
Qed.

Lemma all_default_zero cs : (forall i c, cs !! i = Some c -> c = cell_default) ->
  forallb cell_is_zero cs = true.
Proof.
  intros Hz. apply forallb_forall. intros c Hc%list_elem_of_In.
  apply list_elem_of_lookup in Hc as [i Hi]. by rewrite (Hz i c Hi).
Qed.

Lemma pure_cells_spec cs i : i ∈ pure_cells cs <->
  exists c, cs !! i = Some c /\ is_pure_and_valid c = true.
Proof.
  unfold pure_cells. rewrite list_elem_of_filter, elem_of_seq. split.
  - intros [Hp _]. destruct (cs !! i) as [c|]; [|done]. by exists c.
  - intros (c & Hi & Hp). rewrite Hi. simpl. split; [done|]. apply lookup_lt_Some in Hi. lia.
Qed.

(** A sketch that holds exactly one signed element peels to that element. *)
Lemma peel_single s e sg fuel : sketch_ok s -> (sg = 1 \/ sg = -1) ->
  (length (cells s) <= fuel)%nat ->
  (forall i, cells s !! i = (fun _ => contrib s i (e, sg)) <$> cells s !! i) ->
  peel fuel s = Some (inl (if sg =? 1 then {| only_left := [e]; only_right := [] |}
                           else {| only_left := []; only_right := [e] |})).
Proof.
  intros Hok Hsg Hfuel Hcells. unfold peel. rewrite (proj1 Hok). cbn [negb].
  pose proof (locations_spec s (elem_check e) (proj1 Hok)) as [Hnd Hin].
  assert (Hval : forall i c, cells s !! i = Some c -> c = contrib s i (e, sg)).
  { intros i c Hi. specialize (Hcells i). rewrite Hi in Hcells. by injection Hcells. }
  assert (Hpure : forall i c, cells s !! i = Some c -> is_pure_and_valid c = true -> c = elem_cell e sg).
  { intros i c Hi Hp. rewrite (Hval i c Hi) in *. unfold contrib in *.
    cbn in *. by destruct (decide _). }
  assert (Hlen : (length (pure_cells (cells s)) <= fuel)%nat).
  { unfold pure_cells. etrans; [apply length_filter|]. by rewrite length_seq. }
  destruct (pure_cells (cells s)) as [|j q] eqn:Eq.
  { exfalso. assert (Hloc : exists j, j ∈ locations s (elem_check e)).
    { unfold locations. simpl. eexists. by left. }
    destruct Hloc as [j Hj].
    pose proof (Forall_forall (fun i => (i < length (cells s))%nat) (locations s (elem_check e))) as [Hff _].
    specialize (Hff Hin j Hj).
    apply lookup_lt_is_Some_2 in Hff as [c Hc].
    assert (Hjin : j ∈ pure_cells (cells s)).
    { apply pure_cells_spec. exists c. split; [done|]. rewrite (Hval j c Hc).
      unfold contrib. cbn. rewrite decide_True by done. by apply elem_cell_pure. }
    rewrite Eq in Hjin. by apply elem_of_nil in Hjin. }
  assert (Hj : j ∈ pure_cells (cells s)) by (rewrite Eq; by left).
  apply pure_cells_spec in Hj as (c & Hc & Hp). pose proof (Hpure j c Hc Hp) as ->.
  destruct fuel as [|fuel]; [simpl in Hlen; lia|]. simpl in Hlen.
  rewrite (peel_loop_step _ _ _ _ _ _ (elem_cell e sg)) by (done || apply Hok).
  destruct (elem_cell_pure e sg Hsg) as [_ ->]. cbn [count elem_cell].
  set (s' := iblt_apply s e (- sg)).
  assert (Hz : forall i c, cells s' !! i = Some c -> c = cell_default).
  { intros i c. unfold s'. rewrite apply_lookup by done.
    destruct (cells s !! i) as [x|] eqn:E; [|done]. cbn. intros [= <-].
    rewrite (Hval i x E).
    pose proof (contribs_opp s i [(e, sg)]) as Ho. cbn in Ho.
    assert (Hco : cell_ok (contrib s i (e, sg)) /\ cell_ok (contrib s i (e, - sg))).
    { unfold contrib. cbn. destruct (decide _); split; unfold cell_ok, is_i32; simpl; lia. }
    rewrite !cell_plus_zero_r in Ho by apply Hco. done. }
  rewrite filter_none, app_nil_r.
  2:{ intros t _. destruct (cells s' !! t) as [x|] eqn:E; [|done].
      rewrite (Hz t x E). done. }
  assert (Hdrain : forall ls rs, peel_loop fuel s' ls rs q = Some (s', ls, rs)).
  { intros ls rs. apply peel_loop_drain; [lia|]. intros i x Hx. by rewrite (Hz i x Hx). }
  destruct Hsg as [-> | ->]; cbn [Z.eqb Z.opp Pos.eqb]; rewrite Hdrain; cbn;
    by rewrite (all_default_zero _ Hz).
Qed.

(** A difference of one element always decodes: whatever else two sides share, the side
    with one extra element peels exactly that element, within one pop per cell. *)
Theorem peel_finds_a_single_difference (n : nat) (A : list Elem) (e : Elem) :
  exists s, subtract (of_list n (A ++ [e])) (of_list n A) = inl s /\
  forall fuel, (length (cells s) <= fuel)%nat ->
  peel fuel s = Some (inl {| only_left := [e]; only_right := [] |}).
Proof.
  destruct (of_list_ok n (A ++ [e])) as [Hok1 Hp1].
  assert (Hlen : forall es, length (cells (of_list n es)) = length (cells (iblt_new n))).
  { intros es. destruct (of_list_ok n es) as [[H1 _] H2]. apply well_formed_spec in H1 as [_ ->].
    rewrite H2. symmetry. by apply well_formed_spec, iblt_new_ok. }
  destruct (subtract (of_list n (A ++ [e])) (of_list n A)) as [s|] eqn:Es; cycle 1.
  { unfold subtract in Es. rewrite (proj1 Hok1), !Hlen, Nat.eqb_refl in Es. done. }
  exists s. split; [done|]. intros fuel Hfuel.
  apply (peel_single s e 1); [by eapply subtract_ok|by left|done|].
  intros i. destruct (subtract_lookup _ _ _ i Es) as (Hp & _ & _ & Hl).
  rewrite Hl, !of_list_lookup. destruct (cells (iblt_new n) !! i) as [z|]; [|done].
  cbn. f_equal. unfold signed. rewrite fmap_app, contribs_app. cbn [fmap list_fmap contribs foldr].
  rewrite (cell_plus_zero_r (contrib _ _ _)).
  2:{ unfold contrib. cbn. destruct (decide _); unfold cell_ok, is_i32; simpl; lia. }
  set (a := contribs _ _ _).
  replace (contrib s i (e, 1)) with (contrib (iblt_new n) i (e, 1))
    by (unfold contrib, locations; by rewrite Hp, Hp1).
  eapply cell_plus_cancel_r with (c := a);
    [apply wrap_i32_range|unfold contrib; cbn; destruct (decide _); unfold cell_ok, is_i32; simpl; lia|].
  rewrite cell_plus_comm, cell_sub_plus by apply cell_plus_ok. apply cell_plus_comm.
Qed.

(** ** A sketch that never stops peeling

    An element present in one of its three cells and missing from the other two: no sequence
    of insertions produces it, but a peer can send it. *)

Definition zero_sketch (pl : nat) : Iblt :=
  {| cells := replicate (pl * IBLT_PARTITIONS) cell_default; partition_len := pl |}.

Definition lone_location (pl : nat) (e : Elem) : nat :=
  cell_index 0 (mix (elem_check e) 0) pl.

Definition lone_cell_sketch (pl : nat) (e : Elem) : Iblt :=
  {| cells := <[lone_location pl e := elem_cell e 1]> (cells (zero_sketch pl));
     partition_len := pl |}.

Lemma lone_ok pl e : (0 < pl)%nat -> sketch_ok (lone_cell_sketch pl e).
Proof.
  intros Hpl. split.
  - apply well_formed_spec. cbn [cells partition_len lone_cell_sketch].
    rewrite length_insert. cbn [cells zero_sketch]. by rewrite length_replicate.
  - apply Forall_insert; [|unfold cell_ok, is_i32; simpl; lia].
    apply Forall_replicate. unfold cell_ok, is_i32. simpl. lia.
Qed.

(** The three cells of the element, and what the sketch holds at each after one peel. *)
Section Lone.
Context (pl : nat) (e : Elem) (Hpl : (0 < pl)%nat).

Let s0 := lone_cell_sketch pl e.
Let s1 := iblt_apply s0 e (-1).
Let x := cell_index 0 (mix (elem_check e) 0) pl.
Let y := cell_index 1 (mix (elem_check e) 1) pl.
Let z := cell_index 2 (mix (elem_check e) 2) pl.

Lemma lone_locations : locations s0 (elem_check e) = [x; y; z].
Proof. reflexivity. Qed.

Lemma lone_bounds : (x < y < z)%nat /\ (z < pl * IBLT_PARTITIONS)%nat.
Proof.
  pose proof (cell_index_range 0 (mix (elem_check e) 0) pl Hpl).
  pose proof (cell_index_range 1 (mix (elem_check e) 1) pl Hpl).
  pose proof (cell_index_range 2 (mix (elem_check e) 2) pl Hpl).
  unfold x, y, z, IBLT_PARTITIONS. lia.
Qed.

Lemma lone_lookup i : (i < pl * IBLT_PARTITIONS)%nat ->
  cells s0 !! i = Some (if decide (i = x) then elem_cell e 1 else cell_default).
Proof.
  intros Hi. unfold s0, lone_cell_sketch. cbn [cells zero_sketch]. fold x.
  destruct (decide (i = x)) as [->|Hne].
  - apply list_lookup_insert_eq. by rewrite length_replicate.
  - rewrite list_lookup_insert_ne by done. by apply lookup_replicate_2.
Qed.

Lemma peeled_lookup i : i ∈ [x; y; z] ->
  cells s1 !! i = Some (if decide (i = x) then cell_default else elem_cell e (-1)).
Proof.
  intros Hi. pose proof lone_bounds as Hb. unfold s1.
  rewrite apply_lookup by by apply lone_ok. rewrite lone_lookup.
  2:{ rewrite !elem_of_cons, elem_of_nil in Hi. destruct Hi as [->|[->|[->|[]]]]; lia. }
  unfold contrib. cbn [fst snd]. rewrite lone_locations.
  destruct (decide (i ∈ [x; y; z])) as [_|Hn]; [|by destruct Hn].
  cbn [fmap option_fmap option_map]. f_equal. destruct (decide (i = x)); apply cell_eq; cbn; rewrite ?Z.lxor_nilpotent, ?Z.lxor_0_l; done.
Qed.

Lemma unpeel : iblt_apply s1 e 1 = s0.
Proof.
  apply iblt_eq; [unfold s1; by rewrite !apply_partition_len|]. intros i.
  assert (Hok : sketch_ok s0) by by apply lone_ok.
  rewrite apply_lookup by by apply apply_ok. unfold s1. rewrite apply_lookup, contrib_apply by done.
  destruct (cells s0 !! i) as [c|] eqn:E; [|done]. cbn. f_equal.
  rewrite <-cell_plus_assoc.
  pose proof (contribs_opp s0 i [(e, -1)]) as Ho. cbn in Ho.
  change (- (-1)) with 1 in Ho.
  assert (Hco : cell_ok (contrib s0 i (e, -1)) /\ cell_ok (contrib s0 i (e, 1))).
  { unfold contrib. cbn. destruct (decide _); split; unfold cell_ok, is_i32; simpl; lia. }
  rewrite !cell_plus_zero_r in Ho by apply Hco. rewrite Ho.
  apply cell_plus_zero_r. destruct Hok as [_ Hf]. by eapply Forall_lookup_1 in Hf.
Qed.

Lemma peel_cycle fuel ls rs :
  peel_loop (3 + fuel) s0 ls rs [x] = peel_loop fuel s0 (ls ++ [e]) (rs ++ [e]) [x].
Proof.
  pose proof lone_bounds as Hb. assert (Hok : sketch_ok s0) by by apply lone_ok.
  destruct (elem_cell_pure e 1) as [P1 C1]; [by left|].
  destruct (elem_cell_pure e (-1)) as [P2 C2]; [by right|].
  cbn [Nat.add]. rewrite (peel_loop_step _ _ _ _ _ _ (elem_cell e 1)).
  2: apply Hok. 2: by rewrite lone_lookup, decide_True by lia. 2: done.
  cbv zeta. rewrite C1, lone_locations. cbn [count elem_cell Z.eqb Pos.eqb app].
  change (- (1)) with (-1). fold s1. rewrite filter_cons_False, !filter_cons_True, filter_nil.
  2,3: rewrite peeled_lookup by (rewrite !elem_of_cons; tauto); by rewrite decide_False by lia.
  2: rewrite peeled_lookup by (rewrite !elem_of_cons; tauto); by rewrite decide_True.
  rewrite (peel_loop_step _ _ _ _ _ _ (elem_cell e (-1))).
  2: unfold s1; rewrite apply_well_formed; apply Hok.
  2: by rewrite peeled_lookup, decide_False by (lia || (rewrite !elem_of_cons; tauto)). 2: done.
  cbv zeta. rewrite C2. cbn [count elem_cell Z.eqb Pos.eqb app].
  change (- (-1)) with 1. rewrite unpeel.
  replace (locations s1 (elem_check e)) with [x; y; z]
    by (unfold s1, locations; by rewrite apply_partition_len).
  rewrite filter_cons_True, !filter_cons_False, filter_nil.
  2,3: rewrite lone_lookup by lia; by rewrite decide_False by lia.
  2: rewrite lone_lookup by lia; by rewrite decide_True.
  cbn [peel_loop]. rewrite lone_lookup, decide_False by lia. reflexivity.
Qed.

Lemma peel_loop_never fuel : forall ls rs, peel_loop fuel s0 ls rs [x] = None.
Proof.
  pose proof lone_bounds as Hb. assert (Hok : sketch_ok s0) by by apply lone_ok.
  induction fuel as [fuel IH] using lt_wf_ind. intros ls rs.
  destruct (decide (3 <= fuel)%nat) as [Hge|Hlt].
  { replace fuel with (3 + (fuel - 3))%nat by lia. rewrite peel_cycle. apply IH. lia. }
  destruct (peel_loop fuel s0 ls rs [x]) as [r|] eqn:E; [|done]. exfalso.
  assert (Hmono : forall f1 f2 s ls rs q r, (f1 <= f2)%nat ->
    peel_loop f1 s ls rs q = Some r -> peel_loop f2 s ls rs q = Some r).
  { induction f1 as [|f1 IH1]; intros f2 s ls' rs' [|i q] r' Hle Hr; try (by destruct f2).
    destruct f2 as [|f2]; [lia|]. cbn [peel_loop] in *.
    destruct (negb _); [apply IH1; [lia|done]|].
    destruct (foldl _ _ _) as [cs q']. destruct (_ =? 1); (apply IH1; [lia|done]). }
  apply Hmono with (f2 := 3%nat) in E; [|lia].
  rewrite (peel_cycle 0) in E. done.
Qed.

End Lone.

(** C39: [peel] does not terminate on a well-formed sketch that holds an element in one of its
    three cells only, which a peer can send in an [AeSketch]: the loop has not finished after
    any number of steps, and each round appends the element to both output lists. *)
Theorem peel_diverges_on_a_lone_cell (pl : nat) (e : Elem) (Hpl : (0 < pl)%nat) :
  is_well_formed (lone_cell_sketch pl e) = true /\
  forall fuel, peel fuel (lone_cell_sketch pl e) = None.
Proof.
  pose proof (lone_ok pl e Hpl) as Hok. split; [apply Hok|]. intros fuel.
  unfold peel. rewrite (proj1 Hok). cbn [negb].
  assert (Hpure : pure_cells (cells (lone_cell_sketch pl e)) = [lone_location pl e]).
  { assert (Hmem : forall i, i ∈ pure_cells (cells (lone_cell_sketch pl e)) <-> i = lone_location pl e).
    { intros i. rewrite pure_cells_spec. split.
      - intros (c & Hi & Hp). destruct (decide (i = lone_location pl e)) as [|Hne]; [done|].
        pose proof (lookup_lt_Some _ _ _ Hi) as Hlt.
        cbn [cells lone_cell_sketch zero_sketch] in Hlt. rewrite length_insert, length_replicate in Hlt.
        rewrite lone_lookup, decide_False in Hi by done. by injection Hi as <-.
      - intros ->. pose proof (lone_bounds pl e Hpl) as Hb.
        eexists. rewrite lone_lookup by (unfold lone_location; lia).
        rewrite decide_True by done. split; [done|]. apply elem_cell_pure. by left. }
    apply Permutation_singleton_r, NoDup_Permutation.
    - apply NoDup_filter, NoDup_seq.
    - apply NoDup_singleton.
    - intros i. by rewrite Hmem, list_elem_of_singleton. }
  rewrite Hpure. rewrite (peel_loop_never pl e Hpl fuel). done.
Qed.

End Theorems.

(** ** Witnesses *)

Definition demo_elem (k : Z) : Elem :=
  {| el_key_hash := k; el_ver := {| wall_ms := 10; logical := 0; node := 3 |} |}.

Lemma peel_accounts_for_the_difference_witness :
  exists s d, subtract (of_list 30 [demo_elem 1; demo_elem 2]) (of_list 30 [demo_elem 2; demo_elem 5]) = inl s /\
    peel 20 s = Some (inl d) /\
    of_list 30 ([demo_elem 1; demo_elem 2] ++ only_right d) =
    of_list 30 ([demo_elem 2; demo_elem 5] ++ only_left d).
Proof.
  destruct (subtract (of_list 30 [demo_elem 1; demo_elem 2]) (of_list 30 [demo_elem 2; demo_elem 5]))
    as [s|] eqn:Es; [|vm_compute in Es; discriminate Es].
  destruct (peel 20 s) as [[d|]|] eqn:Ep;
    [|vm_compute in Es; injection Es as <-; vm_compute in Ep; discriminate Ep
     |vm_compute in Es; injection Es as <-; vm_compute in Ep; discriminate Ep].
  exists s, d. split; [reflexivity|]. split; [exact Ep|].
  exact (peel_accounts_for_the_difference 30 20 _ _ s d Es Ep).
Defined.

Lemma peel_diverges_on_a_lone_cell_witness :
  peel 100 (lone_cell_sketch 80 (demo_elem 7)) = None.
Proof. apply (peel_diverges_on_a_lone_cell 80 (demo_elem 7)). lia. Defined.
