(* ===== verification/Wire.v ===== *)
(** * The wire format

    [wire.rs]: the messages of the data-plane mesh, the raw-record frame layout with its three
    fixed headers, its encoder and its decoder, and the frame-length arithmetic the store
    budgets with. Control messages are postcard-encoded, which is third-party code. *)

From S2P Require Import Prelude Clock Types Record Sketch.

Definition MAX_FRAME : Z := 4 * 1024 * 1024.
Definition REPLICATE_BATCH_BUDGET : Z := 256 * 1024.
Definition REPLICATE_BATCH_COUNT : Z := 4096.

Definition PROTOCOL_VERSION : Z := 9.
Definition UNNAMED_CLUSTER : Z := 0.

Definition cluster_id `{Hashing} (name : Bytes) : Z :=
  let id := xxh3_64 name in if id =? UNNAMED_CLUSTER then 1 else id.
Definition same_cluster (loc peer : Z) : bool :=
  (loc =? UNNAMED_CLUSTER) || (peer =? UNNAMED_CLUSTER) || (loc =? peer).
Definition peer_supports (peer_protocol since : Z) : bool := since <=? peer_protocol.

Definition is_tombstone (r : WireRecord) : bool :=
  match wr_value r with None => true | Some _ => false end.

(** Cache names ([SmolStr]) are their UTF-8 bytes. *)
Abbreviation SmolStr := Bytes (only parsing).

Inductive Msg :=
  | Hello (node incarnation protocol cluster : Z)
  | Invalidate (cache : SmolStr) (key : Bytes) (ver : Hlc)
  | Replicate (cache : SmolStr) (rec : WireRecord)
  | StRequest (cache : SmolStr)
  | StChunk (cache : SmolStr) (recs : list WireRecord) (done : bool)
  | AeDigest (cache : SmolStr) (buckets : list (Z * Z))
  | AeBucket (cache : SmolStr) (bucket : Z) (entries : list (Bytes * Hlc))
  | AePull (cache : SmolStr) (keys : list Bytes)
  | ReplicateBatch (cache : SmolStr) (recs : list WireRecord)
  | ReqDone
  | AeSketch (cache : SmolStr) (bucket : Z) (cells : list Cell)
  | AeEntries (cache : SmolStr) (buckets : list Z)
  | AePullHashes (cache : SmolStr) (bucket : Z) (hashes : list Z)
  | AePartDigests (cache : SmolStr) (bucket : Z) (digests : list Z)
  | AeParts (cache : SmolStr) (parts : list (Z * Z))
  | AePart (cache : SmolStr) (bucket part : Z) (entries : list (Bytes * Hlc))
  | AePartSketch (cache : SmolStr) (bucket part : Z) (cells : list Cell)
  | StUnavailable (cache : SmolStr)
  | Fetch (cache : SmolStr) (key : Bytes) (view_hash : Z)
  | FetchReply (rec : option WireRecord)
  | FetchDeclined (cache : SmolStr)
  | AeDigestScoped (cache : SmolStr) (view_hash : Z) (buckets : list (Z * Z))
  | StBuckets (cache : SmolStr) (buckets : list Z) (view_hash : Z)
  | StBucketChunk (cache : SmolStr) (recs : list WireRecord) (done : bool)
  | StaleView (cache : SmolStr) (responder_view_hash : Z)
  | ForwardBatch (cache : SmolStr) (view_hash hops : Z) (recs : list WireRecord)
  | StBucketDone (cache : SmolStr) (bucket : Z)
  | StBucketAck (cache : SmolStr) (bucket view_hash : Z)
  | AeDigestMasked (cache : SmolStr) (view_hash : Z) (buckets : list (Z * Z * Z))
  | Load (cache : SmolStr) (keys : list Bytes)
  | Loaded (found : list WireRecord) (uncached : list (Bytes * Bytes))
  | LoadFailed (cache : SmolStr) (message : Bytes)
  | LoadDeclined (cache : SmolStr)
  | RefreshHint (cache : SmolStr) (key : Bytes) (ver : Hlc).

Inductive Malformed :=
  | CacheNameTooLong | TooManyRecords | KeyTooLong | ValueTooLong
  | OffsetOverflow | FrameTruncated | HeaderTruncated | BadUtf8
  | ForwardTruncated | RecordTruncated | ReplicateEmpty | ReplicateMany
  | NoForwardHeader | UnknownRawKind | EmptyFrame | UnknownDiscriminant.

Inductive CodecError :=
  | FrameTooLarge (size limit : Z)
  | PostcardError
  | MalformedFrame (why : Malformed).

Definition FRAME_KIND_POSTCARD : Z := 0.
Definition FRAME_KIND_RAW_RECORD : Z := 1.
Definition RAW_KIND_REPLICATE : Z := 0.
Definition RAW_KIND_REPLICATE_BATCH : Z := 1.
Definition RAW_KIND_ST_CHUNK : Z := 2.
Definition RAW_KIND_ST_BUCKET_CHUNK : Z := 3.
Definition RAW_KIND_FORWARD_BATCH : Z := 4.
Definition RECORD_FLAG_TOMBSTONE : Z := 1.
Definition RECORD_FLAG_HAS_EXPIRY : Z := 2.

(** ** Fixed headers: little-endian fields without padding *)

Record RawFrameHeader := { h_kind : Z; h_done : Z; h_cache_len : Z; h_record_count : Z }.
Definition RAW_FRAME_HEADER_LEN : nat := 8.
Definition frame_header_bytes (h : RawFrameHeader) : Bytes :=
  [h_kind h; h_done h] ++ le_bytes 2 (h_cache_len h) ++ le_bytes 4 (h_record_count h).

(** The [n]-byte field at offset [off]. *)
Definition field (off n : nat) (b : Bytes) : Z := le_value (take n (drop off b)).

Definition read_frame_header (b : Bytes) : option RawFrameHeader :=
  if (RAW_FRAME_HEADER_LEN <=? length b)%nat then
    Some {| h_kind := field 0 1 b; h_done := field 1 1 b;
            h_cache_len := field 2 2 b; h_record_count := field 4 4 b |}
  else None.

Record ForwardHeader := { f_view_hash : Z; f_hops : Z }.
Definition FORWARD_HEADER_LEN : nat := 9.
Definition forward_header_bytes (h : ForwardHeader) : Bytes :=
  le_bytes 8 (f_view_hash h) ++ [f_hops h].
Definition read_forward_header (b : Bytes) : option ForwardHeader :=
  if (FORWARD_HEADER_LEN <=? length b)%nat then
    Some {| f_view_hash := field 0 8 b; f_hops := field 8 1 b |}
  else None.

Record RecordHeader := {
  r_wall_ms : Z; r_logical : Z; r_node : Z; r_expires_at_ms : Z;
  r_key_len : Z; r_value_len : Z; r_flags : Z;
}.
Definition RECORD_HEADER_LEN : nat := 37.
Definition record_header_bytes (h : RecordHeader) : Bytes :=
  le_bytes 8 (r_wall_ms h) ++ le_bytes 4 (r_logical h) ++ le_bytes 8 (r_node h)
  ++ le_bytes 8 (r_expires_at_ms h) ++ le_bytes 4 (r_key_len h)
  ++ le_bytes 4 (r_value_len h) ++ [r_flags h].
Definition read_record_header (b : Bytes) : option RecordHeader :=
  if (RECORD_HEADER_LEN <=? length b)%nat then
    Some {| r_wall_ms := field 0 8 b; r_logical := field 8 4 b; r_node := field 12 8 b;
            r_expires_at_ms := field 20 8 b; r_key_len := field 28 4 b;
            r_value_len := field 32 4 b; r_flags := field 36 1 b |}
  else None.

(** ** Frame lengths *)

Definition replicate_frame_len (cache_len key_len value_len : Z) : Z :=
  1 + Z.of_nat RAW_FRAME_HEADER_LEN + cache_len + Z.of_nat RECORD_HEADER_LEN + key_len + value_len.
Definition forward_frame_len (cache_len key_len value_len : Z) : Z :=
  replicate_frame_len cache_len key_len value_len + Z.of_nat FORWARD_HEADER_LEN.
Definition CELL_MAX_WIRE_LEN : Z := 5 + 10 + 10 + 5 + 10 + 10.
Definition AE_ENTRY_MAX_WIRE_LEN : Z := 10 + 10 + 5 + 10.
Definition ae_sketch_frame_max_len (cache_len cells : Z) : Z :=
  saturating_add (1 + 2 + 10 + cache_len + 3 + 10) (saturating_mul cells CELL_MAX_WIRE_LEN).

Definition check_frame_len (len : Z) : result unit CodecError :=
  ensure (len <=? MAX_FRAME) (FrameTooLarge len MAX_FRAME).

(** ** Encoding *)

Inductive RawExtra := XNone | XDone (done : bool) | XForward (view_hash hops : Z).

Definition encode_record (rec : WireRecord) : result Bytes CodecError :=
  let? _ := ensure (blen (wr_key rec) <=? u32_max) (MalformedFrame KeyTooLong) in
  let? (value_len, tombstone_flag) :=
    match wr_value rec with
    | Some value =>
        let? _ := ensure (blen value <=? u32_max) (MalformedFrame ValueTooLong) in
        Ok (blen value, 0)
    | None => Ok (0, RECORD_FLAG_TOMBSTONE)
    end in
  let '(expires_at_ms, expiry_flag) :=
    match wr_expires_at_ms rec with
    | Some ms => (ms, RECORD_FLAG_HAS_EXPIRY)
    | None => (0, 0)
    end in
  Ok (record_header_bytes {|
        r_wall_ms := wall_ms (wr_ver rec); r_logical := logical (wr_ver rec);
        r_node := node (wr_ver rec); r_expires_at_ms := expires_at_ms;
        r_key_len := blen (wr_key rec); r_value_len := value_len;
        r_flags := Z.lor tombstone_flag expiry_flag |}
      ++ wr_key rec ++ default [] (wr_value rec)).

Fixpoint encode_records (recs : list WireRecord) : result Bytes CodecError :=
  match recs with
  | [] => Ok []
  | rec :: recs =>
      let? b := encode_record rec in
      let? bs := encode_records recs in
      Ok (b ++ bs)
  end.

Definition encode_raw_frame (kind : Z) (cache : SmolStr) (recs : list WireRecord)
    (extra : RawExtra) : result Bytes CodecError :=
  let is_done := match extra with XDone d => d | _ => false end in
  let? _ := ensure (blen cache <=? u16_max) (MalformedFrame CacheNameTooLong) in
  let? _ := ensure (Z.of_nat (length recs) <=? u32_max) (MalformedFrame TooManyRecords) in
  let? body := encode_records recs in
  let buf :=
    [FRAME_KIND_RAW_RECORD]
    ++ frame_header_bytes {| h_kind := kind; h_done := if is_done then 1 else 0;
                             h_cache_len := blen cache;
                             h_record_count := Z.of_nat (length recs) |}
    ++ cache
    ++ match extra with
       | XForward view_hash hops =>
           forward_header_bytes {| f_view_hash := view_hash; f_hops := hops |}
       | _ => []
       end
    ++ body in
  let? _ := check_frame_len (blen buf) in
  Ok buf.

(** postcard over a [Msg] and over the two older shapes of its [Hello]. *)
Class PostcardMsg := {
  postcard_msg : Msg -> option Bytes;
  postcard_msg_decode : Bytes -> option Msg;
  unnamed_hello_decode : Bytes -> option (Z * Z * Z);
  legacy_hello_decode : Bytes -> option (Z * Z);
}.

(** [from_bytes] reads back what [to_stdvec] wrote. *)
Class PostcardMsgLaws `{PostcardMsg} : Prop := {
  postcard_msg_roundtrip m b : postcard_msg m = Some b -> postcard_msg_decode b = Some m;
}.

Section Codec.
Context `{PostcardMsg}.

Definition encode_postcard (m : Msg) : result Bytes CodecError :=
  let? body := ok_or (postcard_msg m) PostcardError in
  let buf := FRAME_KIND_POSTCARD :: body in
  let? _ := check_frame_len (blen buf) in
  Ok buf.

Definition encode (m : Msg) : result Bytes CodecError :=
  match m with
  | Replicate cache rec => encode_raw_frame RAW_KIND_REPLICATE cache [rec] XNone
  | ReplicateBatch cache recs => encode_raw_frame RAW_KIND_REPLICATE_BATCH cache recs XNone
  | StChunk cache recs d => encode_raw_frame RAW_KIND_ST_CHUNK cache recs (XDone d)
  | StBucketChunk cache recs d => encode_raw_frame RAW_KIND_ST_BUCKET_CHUNK cache recs (XDone d)
  | ForwardBatch cache view_hash hops recs =>
      encode_raw_frame RAW_KIND_FORWARD_BATCH cache recs (XForward view_hash hops)
  | _ => encode_postcard m
  end.

(** ** Decoding *)

Definition take_bytes (body : Bytes) (offset len : Z) : result Bytes CodecError :=
  let? e := ok_or (checked_add u64_max offset len) (MalformedFrame OffsetOverflow) in
  let? _ := ensure (e <=? blen body) (MalformedFrame FrameTruncated) in
  Ok (take (Z.to_nat len) (drop (Z.to_nat offset) body)).

(** [&body[offset.min(body.len())..]]. *)
Definition rest_at (body : Bytes) (offset : Z) : Bytes :=
  drop (Z.to_nat (Z.min offset (blen body))) body.

(** One pass of the record loop: the record and the offset after it. *)
Definition decode_record (body : Bytes) (offset : Z) : result (WireRecord * Z) CodecError :=
  let? rh := ok_or (read_record_header (rest_at body offset)) (MalformedFrame RecordTruncated) in
  let offset := offset + Z.of_nat RECORD_HEADER_LEN in
  let? key := take_bytes body offset (r_key_len rh) in
  let offset := offset + r_key_len rh in
  let? (value, offset) :=
    if negb (Z.land (r_flags rh) RECORD_FLAG_TOMBSTONE =? 0) then Ok (None, offset)
    else
      let? value := take_bytes body offset (r_value_len rh) in
      Ok (Some value, offset + r_value_len rh) in
  Ok ({| wr_key := key; wr_value := value;
         wr_ver := {| wall_ms := r_wall_ms rh; logical := r_logical rh; node := r_node rh |};
         wr_expires_at_ms :=
           if negb (Z.land (r_flags rh) RECORD_FLAG_HAS_EXPIRY =? 0)
           then Some (r_expires_at_ms rh) else None |},
      offset).

Fixpoint decode_records (n : nat) (body : Bytes) (offset : Z) (recs : list WireRecord) :
    result (list WireRecord) CodecError :=
  match n with
  | O => Ok recs
  | S n =>
      let? (rec, offset) := decode_record body offset in
      decode_records n body offset (recs ++ [rec])
  end.

(** [std::str::from_utf8] succeeds: the well-formed byte sequences of Unicode, without
    overlong forms, surrogates and code points past [U+10FFFF]. *)
Definition cont (x : Z) : bool := (128 <=? x) && (x <=? 191).
Fixpoint utf8_valid (b : Bytes) : bool :=
  match b with
  | [] => true
  | x :: r =>
      if x <=? 127 then utf8_valid r
      else if (194 <=? x) && (x <=? 223) then
        match r with y :: r => cont y && utf8_valid r | _ => false end
      else if (224 <=? x) && (x <=? 239) then
        match r with
        | y :: z :: r =>
            ((if x =? 224 then 160 else 128) <=? y) && (y <=? (if x =? 237 then 159 else 191))
            && cont z && utf8_valid r
        | _ => false
        end
      else if (240 <=? x) && (x <=? 244) then
        match r with
        | y :: z :: w :: r =>
            ((if x =? 240 then 144 else 128) <=? y) && (y <=? (if x =? 244 then 143 else 191))
            && cont z && cont w && utf8_valid r
        | _ => false
        end
      else false
  end.

(** The closing [match] of [decode_raw_frame] on the message kind. *)
Definition finish_raw_frame (kind : Z) (is_done : bool) (cache : SmolStr)
    (forward : option ForwardHeader) (recs : list WireRecord) : result Msg CodecError :=
  if kind =? RAW_KIND_REPLICATE then
    match recs with
    | [] => Err (MalformedFrame ReplicateEmpty)
    | [rec] => Ok (Replicate cache rec)
    | _ => Err (MalformedFrame ReplicateMany)
    end
  else if kind =? RAW_KIND_REPLICATE_BATCH then Ok (ReplicateBatch cache recs)
  else if kind =? RAW_KIND_ST_CHUNK then Ok (StChunk cache recs is_done)
  else if kind =? RAW_KIND_ST_BUCKET_CHUNK then Ok (StBucketChunk cache recs is_done)
  else if kind =? RAW_KIND_FORWARD_BATCH then
    let? fh := ok_or forward (MalformedFrame NoForwardHeader) in
    Ok (ForwardBatch cache (f_view_hash fh) (f_hops fh) recs)
  else Err (MalformedFrame UnknownRawKind).

Definition decode_raw_frame (body : Bytes) : result Msg CodecError :=
  let? header := ok_or (read_frame_header body) (MalformedFrame HeaderTruncated) in
  let offset := Z.of_nat RAW_FRAME_HEADER_LEN in
  let cache_len := h_cache_len header in
  let? cache := take_bytes body offset cache_len in
  let offset := offset + cache_len in
  let? _ := ensure (utf8_valid cache) (MalformedFrame BadUtf8) in
  let? (forward, offset) :=
    if h_kind header =? RAW_KIND_FORWARD_BATCH then
      let? fh := ok_or (read_forward_header (rest_at body offset)) (MalformedFrame ForwardTruncated) in
      Ok (Some fh, offset + Z.of_nat FORWARD_HEADER_LEN)
    else Ok (None, offset) in
  let? recs := decode_records (Z.to_nat (h_record_count header)) body offset [] in
  finish_raw_frame (h_kind header) (negb (h_done header =? 0)) cache forward recs.

Definition decode_older_hello (body : Bytes) : option Msg :=
  match unnamed_hello_decode body with
  | Some (n, incarnation, protocol) => Some (Hello n incarnation protocol UNNAMED_CLUSTER)
  | None =>
      '(n, incarnation) ← legacy_hello_decode body;
      Some (Hello n incarnation 1 UNNAMED_CLUSTER)
  end.

Definition decode (frame : Bytes) : result Msg CodecError :=
  let? _ := check_frame_len (blen frame) in
  match frame with
  | [] => Err (MalformedFrame EmptyFrame)
  | kind :: body =>
      if kind =? FRAME_KIND_POSTCARD then
        match postcard_msg_decode body with
        | Some msg => Ok msg
        | None => ok_or (decode_older_hello body) PostcardError
        end
      else if kind =? FRAME_KIND_RAW_RECORD then decode_raw_frame body
      else Err (MalformedFrame UnknownDiscriminant)
  end.

End Codec.

(** ** Reading back fixed headers *)

Lemma blen_app a b : blen (a ++ b) = blen a + blen b.
Proof. unfold blen. rewrite length_app. lia. Qed.

Lemma blen_nonneg b : 0 <= blen b.
Proof. unfold blen. lia. Qed.

Lemma field_skip m k n p q : length p = m -> field (m + k) n (p ++ q) = field k n q.
Proof.
  intros <-. unfold field. rewrite drop_app, drop_ge by lia. simpl. f_equal. f_equal. f_equal. lia.
Qed.

Lemma field_here n x rest : 0 <= x < 256 ^ Z.of_nat n -> field 0 n (le_bytes n x ++ rest) = x.
Proof.
  intros Hx. unfold field. rewrite drop_0.
  rewrite take_app_length' by (by rewrite le_bytes_length). by apply le_value_bytes.
Qed.

Lemma field_byte x rest : field 0 1 (x :: rest) = x.
Proof. unfold field. simpl. lia. Qed.

(** Skip the prefix fields by their lengths, then read the field that starts there. *)
Ltac skip n k := rewrite (field_skip n k) by (rewrite ?le_bytes_length; reflexivity).
Ltac here := apply field_here; eauto with sundog.

Lemma read_record_header_bytes h rest :
  is_u64 (r_wall_ms h) -> is_u32 (r_logical h) -> is_u64 (r_node h) ->
  is_u64 (r_expires_at_ms h) -> is_u32 (r_key_len h) -> is_u32 (r_value_len h) ->
  read_record_header (record_header_bytes h ++ rest) = Some h.
Proof.
  intros H1 H2 H3 H4 H5 H6. unfold read_record_header, record_header_bytes.
  rewrite (proj2 (Nat.leb_le _ _)).
  2:{ rewrite !length_app, !le_bytes_length. simpl. unfold RECORD_HEADER_LEN. lia. }
  rewrite <-!app_assoc. destruct h as [w l n e k v f]. cbn [r_wall_ms r_logical r_node r_expires_at_ms r_key_len r_value_len r_flags] in *.
  f_equal. f_equal.
  - here.
  - skip 8%nat 0%nat. here.
  - skip 8%nat 4%nat. skip 4%nat 0%nat. here.
  - skip 8%nat 12%nat. skip 4%nat 8%nat. skip 8%nat 0%nat. here.
  - skip 8%nat 20%nat. skip 4%nat 16%nat. skip 8%nat 8%nat. skip 8%nat 0%nat. here.
  - skip 8%nat 24%nat. skip 4%nat 20%nat. skip 8%nat 12%nat. skip 8%nat 4%nat. skip 4%nat 0%nat. here.
  - skip 8%nat 28%nat. skip 4%nat 24%nat. skip 8%nat 16%nat. skip 8%nat 8%nat. skip 4%nat 4%nat.
    skip 4%nat 0%nat. apply field_byte.
Qed.

Lemma read_frame_header_bytes h rest :
  is_u16 (h_cache_len h) -> is_u32 (h_record_count h) ->
  read_frame_header (frame_header_bytes h ++ rest) = Some h.
Proof.
  intros H1 H2. unfold read_frame_header, frame_header_bytes.
  rewrite (proj2 (Nat.leb_le _ _)).
  2:{ rewrite !length_app, !le_bytes_length. simpl. unfold RAW_FRAME_HEADER_LEN. lia. }
  rewrite <-!app_assoc. destruct h as [k d c r]. cbn [h_kind h_done h_cache_len h_record_count] in *.
  f_equal. f_equal.
  - apply field_byte.
  - apply (field_byte d).
  - rewrite (field_skip 2 0 2 [k; d]) by done. apply field_here. simpl. ulia.
  - rewrite (field_skip 2 2 4 [k; d]) by done. skip 2%nat 0%nat. here.
Qed.

Lemma read_forward_header_bytes h rest : is_u64 (f_view_hash h) ->
  read_forward_header (forward_header_bytes h ++ rest) = Some h.
Proof.
  intros H1. unfold read_forward_header, forward_header_bytes.
  rewrite (proj2 (Nat.leb_le _ _)).
  2:{ rewrite !length_app, !le_bytes_length. simpl. unfold FORWARD_HEADER_LEN. lia. }
  rewrite <-!app_assoc. destruct h as [v f]. cbn [f_view_hash f_hops] in *.
  f_equal. f_equal; [here|].
  skip 8%nat 0%nat. apply field_byte.
Qed.

Lemma record_header_len h : length (record_header_bytes h) = RECORD_HEADER_LEN.
Proof. unfold record_header_bytes. by rewrite !length_app, !le_bytes_length. Qed.

Lemma blen_record_header h : blen (record_header_bytes h) = Z.of_nat RECORD_HEADER_LEN.
Proof. unfold blen. by rewrite record_header_len. Qed.

Lemma frame_header_len h : length (frame_header_bytes h) = RAW_FRAME_HEADER_LEN.
Proof. unfold frame_header_bytes. by rewrite !length_app, !le_bytes_length. Qed.

Lemma forward_header_len h : length (forward_header_bytes h) = FORWARD_HEADER_LEN.
Proof. unfold forward_header_bytes. by rewrite !length_app, !le_bytes_length. Qed.

Lemma take_bytes_here pre x post : blen (pre ++ x ++ post) <= u64_max ->
  take_bytes (pre ++ x ++ post) (blen pre) (blen x) = Ok x.
Proof.
  intros Hlen. unfold take_bytes, checked_add, ensure.
  assert (Hle : blen pre + blen x <= blen (pre ++ x ++ post)).
  { rewrite !blen_app. pose proof (blen_nonneg post). lia. }
  rewrite (proj2 (Z.leb_le _ _)) by lia. cbn [ok_or result_bind].
  rewrite (proj2 (Z.leb_le _ _)) by lia. cbn [result_bind].
  unfold blen. rewrite !Nat2Z.id. by rewrite drop_app_length, take_app_length.
Qed.

Lemma rest_at_here pre post : rest_at (pre ++ post) (blen pre) = post.
Proof.
  unfold rest_at. rewrite Z.min_l by (rewrite blen_app; pose proof (blen_nonneg post); lia).
  unfold blen. by rewrite Nat2Z.id, drop_app_length.
Qed.

(** ** Round trip *)

(** A record whose numeric fields are in the range of their Rust types. *)
Definition record_wf (r : WireRecord) : Prop :=
  hlc_wf (wr_ver r) /\ from_option is_u64 True (wr_expires_at_ms r).

Definition record_len (r : WireRecord) : Z :=
  Z.of_nat RECORD_HEADER_LEN + blen (wr_key r) + from_option blen 0 (wr_value r).

Lemma ensure_ok {E} b (e : E) a : ensure b e = Ok a -> b = true.
Proof. unfold ensure. by destruct b. Qed.

Lemma check_frame_len_ok len a : check_frame_len len = Ok a -> len <= MAX_FRAME.
Proof. intros H%ensure_ok. by apply Z.leb_le. Qed.

(** The header [encode_record] writes, in closed form. *)
Definition record_flags (r : WireRecord) : Z :=
  Z.lor (if is_some (wr_value r) then 0 else RECORD_FLAG_TOMBSTONE)
    (if is_some (wr_expires_at_ms r) then RECORD_FLAG_HAS_EXPIRY else 0).

Definition header_of (r : WireRecord) : RecordHeader := {|
  r_wall_ms := wall_ms (wr_ver r); r_logical := logical (wr_ver r); r_node := node (wr_ver r);
  r_expires_at_ms := default 0 (wr_expires_at_ms r);
  r_key_len := blen (wr_key r); r_value_len := from_option blen 0 (wr_value r);
  r_flags := record_flags r |}.

Lemma encode_record_inv r b : encode_record r = Ok b ->
  b = record_header_bytes (header_of r) ++ wr_key r ++ default [] (wr_value r) /\
  blen (wr_key r) <= u32_max /\ from_option blen 0 (wr_value r) <= u32_max.
Proof.
  unfold encode_record, header_of, record_flags. intros Hb.
  ok_inv Hb. apply ensure_ok, Z.leb_le in E. ok_inv Hb.
  destruct (wr_value r) as [v|]; cbn in E0.
  - destruct (blen v <=? u32_max) eqn:Ev; [|done]. apply Z.leb_le in Ev.
    apply Ok_inj in E0 as <-. destruct (wr_expires_at_ms r); apply Ok_inj in Hb as <-; done.
  - apply Ok_inj in E0 as <-. destruct (wr_expires_at_ms r); apply Ok_inj in Hb as <-; done.
Qed.

Lemma encode_record_len r b : encode_record r = Ok b -> blen b = record_len r.
Proof.
  intros [-> _]%encode_record_inv. rewrite !blen_app, blen_record_header. unfold record_len.
  destruct (wr_value r); cbn [from_option id]; unfold blen; cbn [length]; lia.
Qed.

Lemma record_flags_tombstone r :
  negb (Z.land (record_flags r) RECORD_FLAG_TOMBSTONE =? 0) = negb (is_some (wr_value r)).
Proof. unfold record_flags. by destruct (wr_value r), (wr_expires_at_ms r). Qed.

Lemma record_flags_expiry r :
  negb (Z.land (record_flags r) RECORD_FLAG_HAS_EXPIRY =? 0) = is_some (wr_expires_at_ms r).
Proof. unfold record_flags. by destruct (wr_value r), (wr_expires_at_ms r). Qed.

Lemma read_header_of r rest : record_wf r -> blen (wr_key r) <= u32_max ->
  from_option blen 0 (wr_value r) <= u32_max ->
  read_record_header (record_header_bytes (header_of r) ++ rest) = Some (header_of r).
Proof.
  intros [(Hw & Hl & Hn) He] Hk Hv. apply read_record_header_bytes; try done;
    cbn [header_of r_expires_at_ms r_key_len r_value_len].
  - destruct (wr_expires_at_ms r); [done|cbn; ulia].
  - pose proof (blen_nonneg (wr_key r)). ulia.
  - destruct (wr_value r) as [v|]; cbn [from_option] in *; [pose proof (blen_nonneg v)|]; ulia.
Qed.

Lemma decode_encode_record r b pre post : record_wf r -> encode_record r = Ok b ->
  blen (pre ++ b ++ post) <= u64_max ->
  decode_record (pre ++ b ++ post) (blen pre) = Ok (r, blen pre + blen b).
Proof.
  intros Hwf Henc Hlen. pose proof (encode_record_len r b Henc) as Hblen.
  apply encode_record_inv in Henc as (-> & Hk & Hv).
  unfold decode_record. rewrite rest_at_here, <-!app_assoc, read_header_of by done.
  cbn [ok_or result_bind]. rewrite <-!app_assoc in Hlen.
  rewrite (app_assoc pre) in Hlen |- *.
  set (pre' := pre ++ record_header_bytes (header_of r)) in *.
  assert (Hoff : blen pre + Z.of_nat RECORD_HEADER_LEN = blen pre').
  { unfold pre'. by rewrite blen_app, blen_record_header. }
  rewrite Hblen. unfold record_len. rewrite !Z.add_assoc, Hoff.
  change (r_key_len (header_of r)) with (blen (wr_key r)).
  change (r_flags (header_of r)) with (record_flags r).
  change (r_value_len (header_of r)) with (from_option blen 0 (wr_value r)).
  rewrite take_bytes_here by done. cbn [result_bind].
  rewrite record_flags_tombstone, record_flags_expiry.
  destruct r as [k v [w l n] e]. cbn [wr_key wr_value wr_expires_at_ms wr_ver] in *.
  destruct v as [v|]; cbn [is_some negb from_option default] in *.
  - rewrite <-blen_app. rewrite (app_assoc pre') in Hlen |- *.
    rewrite take_bytes_here by done. cbn [result_bind]. by destruct e.
  - cbn [result_bind]. rewrite Z.add_0_r. by destruct e.
Qed.

Lemma encode_records_len recs bs : encode_records recs = Ok bs ->
  blen bs = sum_Z (record_len <$> recs).
Proof.
  revert bs; induction recs as [|r recs IH]; intros bs Hb; cbn in Hb.
  - by apply Ok_inj in Hb as <-.
  - ok_inv Hb. ok_inv Hb. apply Ok_inj in Hb as <-.
    rewrite blen_app, (encode_record_len _ _ E), (IH _ E0). done.
Qed.

Lemma decode_encode_records recs : forall bs pre post acc, Forall record_wf recs ->
  encode_records recs = Ok bs -> blen (pre ++ bs ++ post) <= u64_max ->
  decode_records (length recs) (pre ++ bs ++ post) (blen pre) acc = Ok (acc ++ recs).
Proof.
  induction recs as [|r recs IH]; intros bs pre post acc Hwf Hb Hlen; cbn in Hb.
  - by rewrite app_nil_r.
  - inversion_clear Hwf as [|? ? Hr Hrs]. ok_inv Hb. ok_inv Hb. apply Ok_inj in Hb as <-.
    rewrite <-app_assoc in Hlen |- *. cbn [length decode_records].
    rewrite (decode_encode_record r a) by done. cbn [result_bind].
    rewrite <-blen_app, (app_assoc pre). rewrite (IH a0) by (done || rewrite <-app_assoc; done).
    by rewrite <-app_assoc.
Qed.

(** What a raw frame carries, when the numeric fields are in range and the name is UTF-8. *)
Definition raw_msg_wf (m : Msg) : Prop :=
  match m with
  | Replicate cache rec => utf8_valid cache = true /\ record_wf rec
  | ReplicateBatch cache recs | StChunk cache recs _ | StBucketChunk cache recs _ =>
      utf8_valid cache = true /\ Forall record_wf recs
  | ForwardBatch cache view_hash hops recs =>
      utf8_valid cache = true /\ Forall record_wf recs /\ is_u64 view_hash
  | _ => True
  end.

Definition extra_bytes (x : RawExtra) : Bytes :=
  match x with
  | XForward view_hash hops => forward_header_bytes {| f_view_hash := view_hash; f_hops := hops |}
  | _ => []
  end.
Definition extra_header (x : RawExtra) : option ForwardHeader :=
  match x with
  | XForward view_hash hops => Some {| f_view_hash := view_hash; f_hops := hops |}
  | _ => None
  end.
Definition extra_done (x : RawExtra) : bool := match x with XDone d => d | _ => false end.

Lemma encode_raw_frame_inv kind cache recs x b : encode_raw_frame kind cache recs x = Ok b ->
  exists body, encode_records recs = Ok body /\ blen cache <= u16_max /\
    Z.of_nat (length recs) <= u32_max /\ blen b <= MAX_FRAME /\
    b = [FRAME_KIND_RAW_RECORD]
        ++ frame_header_bytes {| h_kind := kind; h_done := if extra_done x then 1 else 0;
             h_cache_len := blen cache; h_record_count := Z.of_nat (length recs) |}
        ++ cache ++ extra_bytes x ++ body.
Proof.
  unfold encode_raw_frame. intros Hb.
  ok_inv Hb. apply ensure_ok, Z.leb_le in E. ok_inv Hb. apply ensure_ok, Z.leb_le in E0.
  ok_inv Hb. ok_inv Hb. apply check_frame_len_ok in E2.
  apply Ok_inj in Hb. exists a1. rewrite Hb in E2. repeat (split; [done|]). by rewrite <-Hb.
Qed.

Lemma decode_raw_encode kind cache recs x b :
  encode_raw_frame kind cache recs x = Ok b -> utf8_valid cache = true ->
  Forall record_wf recs -> (kind =? RAW_KIND_FORWARD_BATCH) = is_some (extra_header x) ->
  from_option (fun h => is_u64 (f_view_hash h)) True (extra_header x) ->
  exists body, b = FRAME_KIND_RAW_RECORD :: body /\ blen b <= MAX_FRAME /\
    decode_raw_frame body = finish_raw_frame kind (extra_done x) cache (extra_header x) recs.
Proof.
  intros Hb Hutf Hrecs Hkind Hx. apply encode_raw_frame_inv in Hb as (body & Henc & Hc & Hn & Hlen & ->).
  cbn [app] in Hlen |- *. eexists. split; [done|]. split; [done|].
  set (hdr := Build_RawFrameHeader _ _ _ _) in *.
  assert (Hl : blen (frame_header_bytes hdr ++ cache ++ extra_bytes x ++ body) <= u64_max).
  { unfold blen in *. cbn [length] in Hlen. unfold MAX_FRAME, u64_max in *. lia. }
  unfold decode_raw_frame. rewrite read_frame_header_bytes.
  2:{ cbn [h_cache_len hdr]. pose proof (blen_nonneg cache). ulia. }
  2:{ cbn [h_record_count hdr]. ulia. }
  cbn [ok_or result_bind].
  replace (Z.of_nat RAW_FRAME_HEADER_LEN) with (blen (frame_header_bytes hdr))
    by (unfold blen; by rewrite frame_header_len).
  change (h_cache_len hdr) with (blen cache). rewrite take_bytes_here by done. cbn [result_bind].
  rewrite Hutf. cbn [ensure result_bind]. change (h_kind hdr) with kind. rewrite Hkind.
  change (h_record_count hdr) with (Z.of_nat (length recs)). rewrite Nat2Z.id.
  rewrite <-blen_app, (app_assoc (frame_header_bytes hdr)) in *.
  replace (negb (h_done hdr =? 0)) with (extra_done x) by (cbn [h_done hdr]; by destruct (extra_done x)).
  rewrite <-(app_nil_r body) in Hl |- *.
  destruct x as [|d|vh hops]; cbn [extra_header is_some extra_bytes result_bind app] in *.
  1,2: rewrite (decode_encode_records recs body) by done; done.
  rewrite rest_at_here, read_forward_header_bytes by done. cbn [ok_or result_bind].
  replace (Z.of_nat FORWARD_HEADER_LEN)
    with (blen (forward_header_bytes {| f_view_hash := vh; f_hops := hops |}))
    by (unfold blen; by rewrite forward_header_len).
  rewrite <-blen_app, (app_assoc (frame_header_bytes hdr ++ cache)) in *.
  rewrite (decode_encode_records recs body) by done. done.
Qed.

Lemma decode_frame_of body `{PostcardMsg} : blen (FRAME_KIND_RAW_RECORD :: body) <= MAX_FRAME ->
  decode (FRAME_KIND_RAW_RECORD :: body) = decode_raw_frame body.
Proof.
  intros Hl. unfold decode, check_frame_len. rewrite (proj2 (Z.leb_le _ _) Hl). done.
Qed.

(** C36: every message round-trips through the wire: whatever [encode] accepts, [decode] reads
    back as the same message, with all its records, tombstones and deadlines, for the raw
    record frames and for the postcard frames alike. *)
Theorem wire_roundtrip `{PostcardMsgLaws} (m : Msg) (b : Bytes)
  (Hm : raw_msg_wf m) (Henc : encode m = Ok b) : decode b = Ok m.
Proof.
  assert (Hraw : forall kind cache recs x, encode_raw_frame kind cache recs x = Ok b ->
    utf8_valid cache = true -> Forall record_wf recs ->
    (kind =? RAW_KIND_FORWARD_BATCH) = is_some (extra_header x) ->
    from_option (fun h => is_u64 (f_view_hash h)) True (extra_header x) ->
    decode b = finish_raw_frame kind (extra_done x) cache (extra_header x) recs).
  { intros kind cache recs x Hb H1 H2 H3 H4.
    destruct (decode_raw_encode kind cache recs x b Hb H1 H2 H3 H4) as (body & -> & Hl & Hd).
    by rewrite decode_frame_of. }
  assert (Hpc : encode_postcard m = Ok b -> decode b = Ok m).
  { unfold encode_postcard. intros Hb. ok_inv Hb. ok_inv Hb. apply Ok_inj in Hb as <-.
    destruct (postcard_msg m) as [body|] eqn:Ep; [|done]. apply Ok_inj in E as ->.
    unfold decode. rewrite E0. cbn [result_bind Z.eqb FRAME_KIND_POSTCARD].
    by rewrite (postcard_msg_roundtrip m a Ep). }
  destruct m; cbn [encode raw_msg_wf] in *; try (by apply Hpc).
  - destruct Hm. rewrite (Hraw _ _ _ _ Henc) by (done || by constructor). done.
  - destruct Hm. rewrite (Hraw _ _ _ _ Henc) by done. done.
  - destruct Hm. rewrite (Hraw _ _ _ _ Henc) by done. done.
  - destruct Hm. rewrite (Hraw _ _ _ _ Henc) by done. done.
  - destruct Hm as (? & ? & ?). rewrite (Hraw _ _ _ _ Henc) by done. done.
Qed.

(** A postcard stand-in for evaluating the model: one control message with its own tag. *)
#[global] Instance toy_postcard_msg : PostcardMsg := {|
  postcard_msg m := match m with ReqDone => Some [9] | _ => None end;
  postcard_msg_decode b := if bool_decide (b = [9]) then Some ReqDone else None;
  unnamed_hello_decode _ := None;
  legacy_hello_decode _ := None;
|}.

#[global] Instance toy_postcard_msg_laws : @PostcardMsgLaws toy_postcard_msg.
Proof. constructor. intros [] b; cbn; try done. by intros [= <-]. Qed.

Definition demo_rec (k : Z) (v : option Bytes) (e : option Z) : WireRecord :=
  {| wr_key := [k; k]; wr_value := v; wr_ver := {| wall_ms := 1000 + k; logical := 2; node := 77 |};
     wr_expires_at_ms := e |}.

Lemma wire_roundtrip_witness :
  exists b, encode (ForwardBatch [97; 98] 5 1 [demo_rec 1 (Some [4; 5; 6]) None; demo_rec 2 None (Some 0)]) = Ok b /\
    decode b = Ok (ForwardBatch [97; 98] 5 1 [demo_rec 1 (Some [4; 5; 6]) None; demo_rec 2 None (Some 0)]).
Proof.
  eexists. split; [vm_compute; reflexivity|]. apply wire_roundtrip; [|vm_compute; reflexivity].
  cbn. split; [reflexivity|]. split; [|ulia].
  repeat constructor; cbn; ulia.
Defined.

(** The frame-length arithmetic the store checks writes with is exact: a record's replicate
    frame encodes to [replicate_frame_len] bytes precisely when that fits the frame limit, and
    is refused with that size otherwise; a forward of it takes [forward_frame_len]. *)
Theorem frame_lengths_are_exact `{PostcardMsg} (cache : SmolStr) (rec : WireRecord) (vh hops : Z)
  (Hc : blen cache <= u16_max) (Hk : blen (wr_key rec) <= u32_max)
  (Hv : from_option blen 0 (wr_value rec) <= u32_max) :
  (let len := replicate_frame_len (blen cache) (blen (wr_key rec)) (from_option blen 0 (wr_value rec)) in
   match encode (Replicate cache rec) with
   | Ok b => blen b = len /\ len <= MAX_FRAME
   | Err e => e = FrameTooLarge len MAX_FRAME /\ MAX_FRAME < len
   end) /\
  (let len := forward_frame_len (blen cache) (blen (wr_key rec)) (from_option blen 0 (wr_value rec)) in
   match encode (ForwardBatch cache vh hops [rec]) with
   | Ok b => blen b = len /\ len <= MAX_FRAME
   | Err e => e = FrameTooLarge len MAX_FRAME /\ MAX_FRAME < len
   end).
Proof.
  assert (Hrec : exists body, encode_record rec = Ok body /\ blen body = record_len rec).
  { destruct (encode_record rec) as [body|e] eqn:E; [exists body; split; [done|by apply encode_record_len]|].
    exfalso. unfold encode_record in E. unfold ensure in E.
    rewrite (proj2 (Z.leb_le _ _) Hk) in E. cbn [result_bind] in E.
    destruct (wr_value rec) as [v|]; cbn [from_option] in Hv.
    - rewrite (proj2 (Z.leb_le _ _) Hv) in E. cbn in E. by destruct (wr_expires_at_ms rec).
    - cbn in E. by destruct (wr_expires_at_ms rec). }
  destruct Hrec as (body & Hbody & Hblen).
  cbn [encode]. unfold encode_raw_frame, ensure. rewrite (proj2 (Z.leb_le _ _) Hc).
  cbn [result_bind length].
  change (Z.of_nat 1 <=? u32_max) with true. cbn [result_bind encode_records]. rewrite Hbody. cbn [result_bind].
  rewrite app_nil_r. unfold check_frame_len, ensure, forward_frame_len, replicate_frame_len.
  unfold record_len in Hblen. split.
  - set (b := _ ++ _ ++ cache ++ _ ++ body).
    assert (Hb : blen b = 1 + Z.of_nat RAW_FRAME_HEADER_LEN + blen cache + Z.of_nat RECORD_HEADER_LEN
      + blen (wr_key rec) + from_option blen 0 (wr_value rec)).
    { unfold b. rewrite !blen_app. unfold blen at 2. rewrite frame_header_len.
      rewrite Hblen. unfold blen. cbn [length]. lia. }
    rewrite Hb. bcase; cbn [result_bind]; [by split|]. split; [done|lia].
  - set (b := _ ++ _ ++ cache ++ _ ++ body).
    assert (Hb : blen b = 1 + Z.of_nat RAW_FRAME_HEADER_LEN + blen cache + Z.of_nat RECORD_HEADER_LEN
      + blen (wr_key rec) + from_option blen 0 (wr_value rec) + Z.of_nat FORWARD_HEADER_LEN).
    { unfold b. rewrite !blen_app. unfold blen at 2. rewrite frame_header_len.
      unfold blen at 3. rewrite forward_header_len.
      rewrite Hblen. unfold blen. cbn [length]. lia. }
    rewrite Hb. bcase; cbn [result_bind]; [by split|]. split; [done|lia].
Qed.

Lemma frame_lengths_are_exact_witness :
  exists b, encode (Replicate [97] (demo_rec 1 (Some [4; 5]) None)) = Ok b /\
    blen b = replicate_frame_len 1 2 2 /\ replicate_frame_len 1 2 2 = 51.
Proof.
  destruct (frame_lengths_are_exact [97] (demo_rec 1 (Some [4; 5]) None) 0 0) as [H _];
    [vm_compute; discriminate..|].
  destruct (encode (Replicate [97] (demo_rec 1 (Some [4; 5]) None))) as [b|e] eqn:E;
    [|vm_compute in E; discriminate E].
  exists b. destruct H as [H _]. split; [reflexivity|]. split; [exact H|reflexivity].
Defined.

(** ** Untrusted frames *)

Lemma decode_record_bound body off r off' : 0 <= off -> Forall is_u8 body ->
  decode_record body off = Ok (r, off') ->
  off' = off + record_len r /\ off' <= blen body /\ 0 <= record_len r.
Proof.
  intros Hoff Hu8 Hd. unfold decode_record in Hd. ok_inv Hd.
  destruct (read_record_header (rest_at body off)) as [rh|] eqn:Eh; [|done].
  apply Ok_inj in E as <-. ok_inv Hd.
  assert (Htake : forall o n x, take_bytes body o n = Ok x -> 0 <= o -> 0 <= n -> blen x = n /\ o + n <= blen body).
  { intros o n x Hx Ho Hn. unfold take_bytes in Hx. ok_inv Hx. ok_inv Hx. apply Ok_inj in Hx as <-.
    apply ensure_ok, Z.leb_le in E1. unfold checked_add in E0.
    destruct (o + n <=? u64_max); [|done]. apply Ok_inj in E0 as <-.
    unfold blen in *. rewrite length_take, length_drop. lia. }
  assert (Hpos : 0 <= r_key_len rh /\ 0 <= r_value_len rh).
  { unfold read_record_header in Eh. destruct (_ <=? _)%nat; [|done]. injection Eh as <-.
    cbn [r_key_len r_value_len]. unfold field.
    split; apply le_value_range, Forall_take, Forall_drop, Forall_drop, Hu8. }
  apply Htake in E as [Hk Hkb]; [|lia|lia]. ok_inv Hd. destruct a0 as [v off1].
  apply Ok_inj in Hd. injection Hd as <- <-. unfold record_len. cbn [wr_key wr_value].
  pose proof (blen_nonneg a). destruct (negb _).
  - apply Ok_inj in E. injection E as <- <-. cbn [from_option]. lia.
  - ok_inv E. apply Ok_inj in E. injection E as <- <-. cbn [from_option].
    apply Htake in E0 as [Hvl Hvb]; [|lia|lia]. pose proof (blen_nonneg a0). lia.
Qed.

Lemma decode_records_bound n body : Forall is_u8 body -> forall off acc recs, 0 <= off -> off <= blen body ->
  decode_records n body off acc = Ok recs ->
  exists new, recs = acc ++ new /\ length new = n /\ off + sum_Z (record_len <$> new) <= blen body.
Proof.
  intros Hu8. induction n as [|n IH]; intros off acc recs Ho Hle Hd; cbn [decode_records] in Hd.
  - apply Ok_inj in Hd as <-. exists []. rewrite app_nil_r. repeat split. unfold sum_Z. cbn. lia.
  - ok_inv Hd. destruct a as [r off1].
    destruct (decode_record_bound body off r off1 Ho Hu8 E) as (-> & Hb & Hl).
    apply IH in Hd as (new & -> & <- & Hsum); [|lia|done].
    exists (r :: new). rewrite <-app_assoc. split; [done|]. split; [done|].
    rewrite fmap_cons, sum_Z_cons. lia.
Qed.

Lemma decode_raw_ok body m `{PostcardMsg} :
  decode (FRAME_KIND_RAW_RECORD :: body) = Ok m -> decode_raw_frame body = Ok m.
Proof.
  unfold decode. generalize (check_frame_len (blen (FRAME_KIND_RAW_RECORD :: body))).
  intros [u|e]; [|discriminate]. exact id.
Qed.

Definition msg_records (m : Msg) : list WireRecord :=
  match m with
  | Replicate _ rec => [rec]
  | ReplicateBatch _ recs | StChunk _ recs _ | StBucketChunk _ recs _ | ForwardBatch _ _ _ recs => recs
  | _ => []
  end.

(** A frame from a peer cannot claim more than it holds: whatever bytes arrive in a raw
    record frame, the records decoded from it, headers included, take no more bytes than the
    frame has, so neither a record count nor a length field amplifies. *)
Theorem decoded_records_fit_the_frame `{PostcardMsg} (body : Bytes) (m : Msg)
  (Hu8 : Forall is_u8 body) (Hd : decode (FRAME_KIND_RAW_RECORD :: body) = Ok m) :
  sum_Z (record_len <$> msg_records m) + Z.of_nat RAW_FRAME_HEADER_LEN <= blen body.
Proof.
  apply decode_raw_ok in Hd. unfold decode_raw_frame in Hd. ok_inv Hd.
  destruct (read_frame_header body) as [hdr|] eqn:Eh; [|done]. apply Ok_inj in E as <-.
  ok_inv Hd. ok_inv Hd. ok_inv Hd. destruct a1 as [fwd off]. ok_inv Hd.
  assert (Hoff : Z.of_nat RAW_FRAME_HEADER_LEN <= off <= blen body).
  { assert (Hcl : 0 <= h_cache_len hdr).
    { unfold read_frame_header in Eh. destruct (_ <=? _)%nat; [|done]. injection Eh as <-.
      cbn [h_cache_len]. unfold field. apply le_value_range, Forall_take, Forall_drop, Hu8. }
    unfold take_bytes in E. ok_inv E. ok_inv E. apply ensure_ok, Z.leb_le in E4.
    unfold checked_add in E3. destruct (_ <=? u64_max); [|done]. apply Ok_inj in E3 as <-.
    destruct (h_kind hdr =? RAW_KIND_FORWARD_BATCH).
    - ok_inv E1. apply Ok_inj in E1. injection E1 as <- <-.
      destruct (read_forward_header _) as [fh|] eqn:Ef; [|done].
      unfold read_forward_header in Ef. destruct (_ <=? _)%nat eqn:El; [|done].
      apply Nat.leb_le in El. unfold rest_at in El. rewrite length_drop in El.
      unfold FORWARD_HEADER_LEN, blen in *. lia.
    - apply Ok_inj in E1. injection E1 as <- <-. lia. }
  destruct (decode_records_bound _ _ Hu8 off [] a1 ltac:(lia) ltac:(lia) E2) as (new & -> & _ & Hsum).
  cbn [app] in Hd. unfold finish_raw_frame in Hd.
  destruct (_ =? RAW_KIND_REPLICATE).
  { destruct new as [|r [|r' new]]; try done. apply Ok_inj in Hd as <-. cbn [msg_records]. lia. }
  destruct (_ =? RAW_KIND_REPLICATE_BATCH); [apply Ok_inj in Hd as <-; cbn [msg_records]; lia|].
  destruct (_ =? RAW_KIND_ST_CHUNK); [apply Ok_inj in Hd as <-; cbn [msg_records]; lia|].
  destruct (_ =? RAW_KIND_ST_BUCKET_CHUNK); [apply Ok_inj in Hd as <-; cbn [msg_records]; lia|].
  destruct (_ =? RAW_KIND_FORWARD_BATCH); [|done]. ok_inv Hd.
  apply Ok_inj in Hd as <-. cbn [msg_records]. lia.
Qed.

Lemma decoded_records_fit_the_frame_witness :
  exists b m, encode (ReplicateBatch [97] [demo_rec 1 None None; demo_rec 2 (Some [3]) None])
      = Ok (FRAME_KIND_RAW_RECORD :: b) /\
    decode (FRAME_KIND_RAW_RECORD :: b) = Ok m /\
    sum_Z (record_len <$> msg_records m) + Z.of_nat RAW_FRAME_HEADER_LEN <= blen b.
Proof.
  eexists _, _. split; [vm_compute; reflexivity|]. split; [vm_compute; reflexivity|].
  apply decoded_records_fit_the_frame; [repeat constructor; ulia|vm_compute; reflexivity].
Defined.
