(* ===== verification/Merge.v ===== *)
(** * Conflict resolution

    [store/engine/merge.rs]: what a colliding write does to the stored record. The resolver is
    an interface; a tombstone on either side settles by version; a merge is stored under an
    adopted or a minted version, within the frame cap. *)

From S2P Require Import Prelude Clock Types Record Wire.

(** ** Definitions *)

Inductive Resolution :=
  | IncomingLoses
  | IncomingWins
  | ResMerged (value : Bytes) (expires_at_ms : option Z).

Definition lapsed_before (expires_at_ms : option Z) (other_ver : Hlc) : bool :=
  is_some_and expires_at_ms (fun deadline => deadline <=? wall_ms other_ver).

Definition tombstone_resolution (sv ver : Hlc) (stored_tombstone incoming_tombstone : bool) :
    option Resolution :=
  if stored_tombstone || incoming_tombstone then
    Some (if hlc_ltb sv ver then IncomingWins else IncomingLoses)
  else None.

Inductive Fold := FoldBoth | FoldStored | FoldIncoming | FoldWinner.

Definition fold_sides (stored_absent : bool) (sv : Hlc) (stored_expires_at_ms : option Z)
    (ver : Hlc) (incoming_expires_at_ms : option Z) : Fold :=
  let stored_dead := stored_absent || lapsed_before stored_expires_at_ms ver in
  let incoming_dead := lapsed_before incoming_expires_at_ms sv in
  match stored_dead, incoming_dead with
  | false, false => FoldBoth
  | true, false => FoldIncoming
  | false, true => FoldStored
  | true, true => FoldWinner
  end.

Definition is_incoming_tombstone {V} (i : Incoming V) : bool :=
  match i with IncTombstone _ => true | Put _ _ _ => false end.

Section Resolve.
Context `{R : ConflictResolver} {V : Type}.

Definition winner_resolution (key_bytes : Bytes) (a b : RecordView) : Resolution :=
  match winner key_bytes a b with WinA => IncomingLoses | WinB => IncomingWins end.

Definition resolve_conflict (key_bytes : Bytes) (sv : Hlc) (stored_encoded : option Bytes)
    (stored_expires_at_ms : option Z) (stored_absent stored_tombstone : bool)
    (ver : Hlc) (incoming : Incoming V) : Resolution :=
  if hlc_eqb sv ver then IncomingLoses
  else
    match tombstone_resolution sv ver stored_tombstone (is_incoming_tombstone incoming) with
    | Some resolution => resolution
    | None =>
        let stored_view := {|
          rv_value := if needs_value_bytes then stored_encoded else None;
          rv_ver := sv; rv_expires_at_ms := stored_expires_at_ms |} in
        let '(incoming_encoded, incoming_expires_at_ms) :=
          match incoming with
          | Put _ expires_at_ms encoded => (Some encoded, expires_at_ms)
          | IncTombstone _ => (None, None)
          end in
        let incoming_view := {|
          rv_value := if needs_value_bytes then incoming_encoded else None;
          rv_ver := ver; rv_expires_at_ms := incoming_expires_at_ms |} in
        match (if merges then incoming_encoded else None) with
        | None => winner_resolution key_bytes stored_view incoming_view
        | Some incoming_bytes =>
            match fold_sides stored_absent sv stored_expires_at_ms ver incoming_expires_at_ms with
            | FoldBoth =>
                match
                  (if is_some (rv_value stored_view) && is_some (rv_value incoming_view)
                   then merge key_bytes stored_view incoming_view else None)
                with
                | Some m => ResMerged (mg_value m) (mg_expires_at_ms m)
                | None => winner_resolution key_bytes stored_view incoming_view
                end
            | FoldIncoming => ResMerged incoming_bytes incoming_expires_at_ms
            | FoldStored =>
                match rv_value stored_view with
                | Some stored_bytes => ResMerged stored_bytes stored_expires_at_ms
                | None => winner_resolution key_bytes stored_view incoming_view
                end
            | FoldWinner => winner_resolution key_bytes stored_view incoming_view
            end
        end
    end.

End Resolve.

(** ** The version of a merge *)

Inductive MergedVersion := MvNoOp | MvStore (ver : Hlc).

#[export] Instance MergedVersion_eq_dec : EqDecision MergedVersion.
Proof. solve_decision. Defined.

(** A record's content: its bytes and its deadline. *)
Abbreviation Content := (Bytes * option Z)%type (only parsing).

Definition mint_stamp (sv ver : Hlc) (n : Z) : Hlc :=
  let base_wall := Z.max (wall_ms sv) (wall_ms ver) in
  let base_logical := Z.max (logical sv) (logical ver) in
  let (w, l) :=
    match checked_add u32_max base_logical 1, checked_add u64_max base_wall 1 with
    | Some l, _ => (base_wall, l)
    | None, Some w => (w, 0)
    | None, None => (u64_max, u32_max)
    end in
  {| wall_ms := w; logical := l; node := n |}.

Definition merge_decision (sv ver : Hlc) (is_stored is_incoming : bool) (mint_node : Z) :
    MergedVersion :=
  if is_stored && is_incoming then
    let v := hlc_max sv ver in
    if hlc_eqb v sv then MvNoOp else MvStore v
  else if is_incoming && hlc_ltb sv ver then MvStore ver
  else if is_stored && hlc_ltb ver sv then MvNoOp
  else MvStore (mint_stamp sv ver mint_node).

Section Versions.
Context `{Hashing}.

(** Hashing the bytes and then the deadline in one stream hashes their concatenation. *)
Definition content_hash (bytes : Bytes) (expires_at_ms : option Z) : Z :=
  match expires_at_ms with
  | None => xxh3_64 bytes
  | Some deadline => xxh3_64 (bytes ++ le_bytes 8 deadline)
  end.

Definition merge_version (sv ver : Hlc) (stored : option Content) (incoming merged : Content) :
    MergedVersion :=
  merge_decision sv ver (bool_decide (stored = Some merged)) (bool_decide (incoming = merged))
    (NodeId.merge_derived (content_hash merged.1 merged.2)).

End Versions.

(** ** The frame cap *)

Definition merge_fits (merged_len stored_len limit : Z) : bool :=
  (merged_len <=? limit) || (merged_len <=? stored_len).

Record MergeCap := { cap_cache_len : Z; cap_limit : Z }.

Definition admits_by (cap : MergeCap) (frame_len : Z -> Z -> Z -> Z)
    (key_len merged_len : Z) (stored_len : option Z) : bool :=
  let frame := fun value_len => frame_len (cap_cache_len cap) key_len value_len in
  merge_fits (frame merged_len) (from_option frame 0 stored_len) (cap_limit cap).

Definition admits (cap : MergeCap) : Z -> Z -> option Z -> bool := admits_by cap forward_frame_len.
Definition admits_contribution (cap : MergeCap) : Z -> Z -> option Z -> bool :=
  admits_by cap replicate_frame_len.

(** ** The whole decision *)

Inductive Rebound (V : Type) :=
  | RLost
  | RStore (ver : Hlc) (incoming : Incoming V)
  | RTooLarge (size : Z).
Arguments RLost {V}. Arguments RStore {V}. Arguments RTooLarge {V}.

(** postcard's decoder of a typed value, and its encoder. *)
Class ValueCodec (V : Type) := {
  decode_value : Bytes -> option V;
  encode_value : V -> Bytes;
}.
Class ValueCodecLaws (V : Type) `{ValueCodec V} : Prop := {
  decode_encode_value v : decode_value (encode_value v) = Some v;
}.

(** Values that are their own encoding, for evaluating the model. *)
#[global] Instance bytes_codec : ValueCodec Bytes := {| decode_value := Some; encode_value := id |}.
#[global] Instance bytes_codec_laws : ValueCodecLaws Bytes.
Proof. by constructor. Qed.

Section Rebind.
Context `{R : ConflictResolver, Hashing, ValueCodec V}.

Definition resolve_and_rebind (cap : option MergeCap) (key_bytes : Bytes) (sv : Hlc)
    (stored_encoded : option Bytes) (stored_expires_at_ms : option Z)
    (stored_absent stored_tombstone : bool) (ver : Hlc) (incoming : Incoming V) : Rebound V :=
  match resolve_conflict key_bytes sv stored_encoded stored_expires_at_ms
          stored_absent stored_tombstone ver incoming with
  | IncomingLoses => RLost
  | IncomingWins => RStore ver incoming
  | ResMerged value expires_at_ms =>
      match incoming with
      | IncTombstone _ => RLost
      | Put _ incoming_expires_at_ms incoming_encoded =>
          let result_is_incoming :=
            bool_decide (value = incoming_encoded)
            && bool_decide (expires_at_ms = incoming_expires_at_ms) in
          let stored :=
            (fun b => (b, stored_expires_at_ms)) <$> (if stored_absent then None else stored_encoded) in
          match merge_version sv ver stored (incoming_encoded, incoming_expires_at_ms)
                  (value, expires_at_ms) with
          | MvNoOp => RLost
          | MvStore new_ver =>
              if is_some_and cap (fun cap =>
                   let stored_len := (fun c => blen c.1) <$> stored in
                   negb (if result_is_incoming
                         then admits_contribution cap (blen key_bytes) (blen value) stored_len
                         else admits cap (blen key_bytes) (blen value) stored_len))
              then RTooLarge (blen value)
              else if result_is_incoming then RStore new_ver incoming
              else
                match decode_value value with
                | None => RLost
                | Some decoded => RStore new_ver (Put decoded expires_at_ms value)
                end
          end
      end
  end.

End Rebind.

(** ** Minted versions *)

Lemma mint_stamp_comm sv ver n : mint_stamp sv ver n = mint_stamp ver sv n.
Proof. unfold mint_stamp. by rewrite (Z.max_comm (wall_ms sv)), (Z.max_comm (logical sv)). Qed.

Lemma mint_stamp_gt sv ver n :
  wall_ms sv <= u64_max -> wall_ms ver <= u64_max ->
  Z.max (logical sv) (logical ver) < u32_max \/ Z.max (wall_ms sv) (wall_ms ver) < u64_max ->
  hlc_lt sv (mint_stamp sv ver n).
Proof.
  intros Hw1 Hw2 Hroom. unfold mint_stamp, checked_add, hlc_lt, hlc_ltb.
  repeat bcase; cbn; unfold u32_max, u64_max in *; lia.
Qed.

(** ** Replicas that exchange their records converge *)

(** What a merging or value-reading resolver commits to. *)
Class ResolverLaws `(R : ConflictResolver) : Prop := {
  winner_antisym k a b : rv_ver a <> rv_ver b -> winner k a b = WinA <-> winner k b a = WinB;
  merge_comm k a b : merge k a b = merge k b a;
  merges_reads : merges = true -> needs_value_bytes = true;
}.

#[export] Instance lww_laws : ResolverLaws LwwResolver.
Proof.
  constructor; [|done|done]. intros k a b Hne. cbn. unfold lww_winner.
  destruct (hlc_leb (rv_ver b) (rv_ver a)) eqn:E1, (hlc_leb (rv_ver a) (rv_ver b)) eqn:E2; try done.
  - exfalso. apply Hne. by apply hlc_le_antisym.
  - exfalso. apply hlc_leb_gt in E1, E2. revert E1 E2. hlc_lia.
Qed.

(** The version and content a replica ends up with after a merge decision. *)
Definition merged_record (sv : Hlc) (stored merged : Content) (d : MergedVersion) : Hlc * Content :=
  match d with MvNoOp => (sv, stored) | MvStore v => (v, merged) end.

Lemma merge_version_symmetric `{Hashing} sv ver (stored incoming merged : Content) :
  merged_record sv stored merged (merge_version sv ver (Some stored) incoming merged) =
  merged_record ver incoming merged (merge_version ver sv (Some incoming) stored merged).
Proof.
  unfold merge_version, merge_decision, merged_record.
  rewrite (hlc_max_comm ver sv), (mint_stamp_comm ver sv).
  destruct (hlc_total sv ver) as [Hlt|[->|Hlt]].
  - destruct (hlc_max_lt _ _ Hlt) as [-> _], (hlc_lt_ne _ _ Hlt) as (_ & -> & ->).
    rewrite Hlt, hlc_eqb_refl. do 4 case_bool_decide; simplify_eq/=; done.
  - unfold hlc_max. rewrite (hlc_le_refl ver), hlc_ltb_irrefl, hlc_eqb_refl.
    do 4 case_bool_decide; simplify_eq/=; done.
  - destruct (hlc_max_lt _ _ Hlt) as [_ ->], (hlc_lt_ne _ _ Hlt) as (_ & -> & ->).
    rewrite Hlt, hlc_eqb_refl. do 4 case_bool_decide; simplify_eq/=; done.
Qed.

Section Exchange.
Context `{R : ConflictResolver, Hashing, ValueCodec V}.

(** The write a replica applies when a peer's record arrives; a value that does not decode is
    not applied. *)
Definition incoming_of (r : WireRecord) : option (Incoming V) :=
  match wr_value r with
  | Some b => (fun v => Put v (wr_expires_at_ms r) b) <$> decode_value b
  | None => Some (IncTombstone (wr_expires_at_ms r))
  end.

Definition stored_as (key : Bytes) (ver : Hlc) (i : Incoming V) : WireRecord :=
  match i with
  | Put _ e b => {| wr_key := key; wr_value := Some b; wr_ver := ver; wr_expires_at_ms := e |}
  | IncTombstone e => {| wr_key := key; wr_value := None; wr_ver := ver; wr_expires_at_ms := e |}
  end.

(** The record a replica holding [mine] has after it applies [theirs] for the same key, with
    [mine] readable and no frame cap. *)
Definition exchange (mine theirs : WireRecord) : WireRecord :=
  match incoming_of theirs with
  | None => mine
  | Some i =>
      match resolve_and_rebind None (wr_key mine) (wr_ver mine) (wr_value mine)
              (match wr_value mine with Some _ => wr_expires_at_ms mine | None => None end)
              false (negb (is_some (wr_value mine))) (wr_ver theirs) i with
      | RStore ver i => stored_as (wr_key mine) ver i
      | _ => mine
      end
  end.

(** Every value that can come up decodes: the two records' and the resolver's fold of them. *)
Definition decodes (a b : WireRecord) : Prop :=
  (forall x, wr_value a = Some x -> is_Some (decode_value x)) /\
  (forall x, wr_value b = Some x -> is_Some (decode_value x)) /\
  forall k va vb m, merge k va vb = Some m -> is_Some (decode_value (mg_value m)).

(** The record with this key, version and content. *)
Definition live_record (key : Bytes) (vc : Hlc * Content) : WireRecord :=
  {| wr_key := key; wr_value := Some vc.2.1; wr_ver := vc.1; wr_expires_at_ms := vc.2.2 |}.

Lemma exchange_live k sv ver bs es bi ei (v : V) : decode_value bi = Some v ->
  exchange (live_record k (sv, (bs, es))) (live_record k (ver, (bi, ei))) =
  match resolve_conflict k sv (Some bs) es false false ver (Put v ei bi) with
  | IncomingLoses => live_record k (sv, (bs, es))
  | IncomingWins => live_record k (ver, (bi, ei))
  | ResMerged value e =>
      match decode_value value with
      | Some _ =>
          live_record k (merged_record sv (bs, es) (value, e)
            (merge_version sv ver (Some (bs, es)) (bi, ei) (value, e)))
      | None => exchange (live_record k (sv, (bs, es))) (live_record k (ver, (bi, ei)))
      end
  end.
Proof.
  intros Hv. unfold exchange at 1, incoming_of. cbn. rewrite Hv. cbn.
  unfold resolve_and_rebind.
  destruct (resolve_conflict _ _ _ _ _ _ _ _) as [| |value e] eqn:Er; cbn; [done|done|].
  destruct (decode_value value) as [d|] eqn:Ed; cycle 1.
  { unfold exchange, incoming_of. cbn. rewrite Hv. cbn. unfold resolve_and_rebind.
    rewrite Er. cbn. rewrite Ed. done. }
  destruct (merge_version _ _ _ _ _) as [|w]; cbn; [done|].
  do 2 case_bool_decide; subst; cbn; done.
Qed.

(** Two resolutions of one pair of records, seen from each side. *)
Definition mirrored (a b : Resolution) : Prop :=
  match a, b with
  | IncomingLoses, IncomingWins | IncomingWins, IncomingLoses => True
  | ResMerged v1 e1, ResMerged v2 e2 => v1 = v2 /\ e1 = e2
  | _, _ => False
  end.

Lemma winner_mirrored k a b `{!ResolverLaws R} : rv_ver a <> rv_ver b ->
  mirrored (winner_resolution k a b) (winner_resolution k b a).
Proof.
  intros Hne. unfold winner_resolution.
  pose proof (winner_antisym k a b Hne) as Hw.
  destruct (winner k a b), (winner k b a); try done.
  - discriminate (proj1 Hw eq_refl).
  - discriminate (proj2 Hw eq_refl).
Qed.

Lemma resolve_conflict_mirrored k sv ver bs es bi ei (v w : V) `{!ResolverLaws R} : sv <> ver ->
  mirrored (resolve_conflict k sv (Some bs) es false false ver (Put v ei bi))
           (resolve_conflict k ver (Some bi) ei false false sv (Put w es bs)).
Proof.
  intros Hne. unfold resolve_conflict, hlc_eqb.
  rewrite !bool_decide_eq_false_2 by congruence. cbn.
  destruct merges eqn:Em; [|by apply winner_mirrored].
  rewrite merges_reads by done. cbn. unfold fold_sides. cbn.
  destruct (lapsed_before es ver), (lapsed_before ei sv); cbn; try done.
  - by apply winner_mirrored.
  - rewrite merge_comm. destruct (merge k _ _); cbn; [done|]. by apply winner_mirrored.
Qed.

Lemma resolve_conflict_source k sv ver bs es bi ei (v : V) value e :
  resolve_conflict k sv (Some bs) es false false ver (Put v ei bi) = ResMerged value e ->
  value = bs \/ value = bi \/ exists m va vb, merge k va vb = Some m /\ value = mg_value m.
Proof.
  unfold resolve_conflict, winner_resolution. destruct (hlc_eqb sv ver); [done|]. cbn.
  destruct merges; [|by destruct (winner _ _ _)].
  destruct (fold_sides _ _ _ _ _).
  - destruct (is_some _ && is_some _); [|by destruct (winner _ _ _)].
    destruct (merge _ _ _) as [m|] eqn:Em; [|by destruct (winner _ _ _)].
    intros [= <- <-]. right; right. eauto.
  - destruct needs_value_bytes; cbn; [|by destruct (winner _ _ _)]. intros [= <- <-]. by left.
  - intros [= <- <-]. right; by left.
  - by destruct (winner _ _ _).
Qed.

Lemma wire_record_live r b : wr_value r = Some b ->
  r = live_record (wr_key r) (wr_ver r, (b, wr_expires_at_ms r)).
Proof. destruct r; cbn. by intros ->. Qed.

(** A tombstone on either side: the record with the higher version, on both replicas. *)
Lemma exchange_tombstone a b : wr_key a = wr_key b -> wr_ver a <> wr_ver b ->
  (forall x, wr_value b = Some x -> is_Some (decode_value x)) ->
  wr_value a = None \/ wr_value b = None ->
  exchange a b = if hlc_ltb (wr_ver a) (wr_ver b) then b else a.
Proof.
  intros Hk Hne Hdec Htomb. unfold exchange.
  assert (Hi : exists i, incoming_of b = Some i /\ stored_as (wr_key a) (wr_ver b) i = b /\
    is_incoming_tombstone i = negb (is_some (wr_value b))).
  { unfold incoming_of. destruct b as [kb vb rb eb]; cbn in *; subst kb. destruct vb as [x|].
    - destruct (Hdec x eq_refl) as [d Hd]. rewrite Hd. cbn. eauto.
    - cbn. eauto. }
  destruct Hi as (i & -> & Hst & Hti). unfold resolve_and_rebind, resolve_conflict, hlc_eqb.
  rewrite bool_decide_eq_false_2 by done. unfold tombstone_resolution. rewrite Hti.
  replace (negb (is_some (wr_value a)) || negb (is_some (wr_value b))) with true
    by (destruct Htomb as [-> | ->]; cbn; [done|by rewrite orb_true_r]).
  by destruct (hlc_ltb (wr_ver a) (wr_ver b)).
Qed.

(** Two replicas that hold different versions of a key and exchange their records, each
    applying the other's, end up with the same record in that one round: the same version,
    bytes and deadline, or the same tombstone. This holds for every resolver that keeps the
    contract (an antisymmetric [winner], a commutative [merge]), whether a side was deleted,
    had lapsed before the other was written, or merges into bytes neither had. *)
Theorem exchange_converges_in_one_round `{!ResolverLaws R} (a b : WireRecord)
  (Hkey : wr_key a = wr_key b) (Hver : wr_ver a <> wr_ver b) (Hdec : decodes a b) :
  exchange a b = exchange b a.
Proof.
  destruct Hdec as (Ha & Hb & Hm).
  assert (Hcase : (wr_value a = None \/ wr_value b = None) \/
    exists bs bi, wr_value a = Some bs /\ wr_value b = Some bi)
    by (destruct (wr_value a), (wr_value b); eauto).
  destruct Hcase as [Ht|(bs & bi & Ea & Eb)].
  { rewrite (exchange_tombstone a b), (exchange_tombstone b a) by (done || congruence || tauto).
    destruct (hlc_total (wr_ver a) (wr_ver b)) as [H1|[H1|H1]]; [|done|];
      destruct (hlc_lt_ne _ _ H1) as (_ & _ & ->); by rewrite H1. }
  destruct (Ha bs Ea) as [v Hv], (Hb bi Eb) as [w Hw].
  rewrite (wire_record_live a bs Ea), (wire_record_live b bi Eb), Hkey.
  set (k := wr_key b). rewrite (exchange_live k _ _ _ _ _ _ w Hw), (exchange_live k _ _ _ _ _ _ v Hv).
  pose proof (resolve_conflict_mirrored k (wr_ver a) (wr_ver b) bs (wr_expires_at_ms a) bi
    (wr_expires_at_ms b) w v Hver) as Hmir.
  assert (Hd : forall x, resolve_conflict k (wr_ver a) (Some bs) (wr_expires_at_ms a) false false
      (wr_ver b) (Put w (wr_expires_at_ms b) bi) = ResMerged x.1 x.2 -> is_Some (decode_value x.1)).
  { intros [value e] Hx. cbn in *. eapply resolve_conflict_source in Hx as [Hx|[Hx|(m & va & vb & Hx & ->)]];
      [subst; eauto|subst; eauto|by eapply Hm]. }
  destruct (resolve_conflict k (wr_ver a) _ _ _ _ _ _) as [| |v1 e1],
    (resolve_conflict k (wr_ver b) _ _ _ _ _ _) as [| |v2 e2]; try done.
  destruct Hmir as [<- <-]. destruct (Hd (v1, e1) eq_refl) as [d Hd']. cbn in Hd'. rewrite Hd'.
  f_equal. apply merge_version_symmetric.
Qed.

Lemma admits_by_spec cap f kl ml sl :
  (forall x y, f (cap_cache_len cap) kl x - f (cap_cache_len cap) kl y = x - y) ->
  0 < f (cap_cache_len cap) kl ml ->
  if admits_by cap f kl ml sl then
    f (cap_cache_len cap) kl ml <= cap_limit cap \/ exists s, sl = Some s /\ ml <= s
  else cap_limit cap < f (cap_cache_len cap) kl ml.
Proof.
  intros Hf Hpos. unfold admits_by, merge_fits.
  destruct (Z.leb_spec (f (cap_cache_len cap) kl ml) (cap_limit cap)) as [Hle|Hgt]; cbn; [by left|].
  destruct sl as [y|]; cbn; bcase; try lia.
  right. exists y. split; [done|]. specialize (Hf ml y). lia.
Qed.

Lemma rebind_within_cap (cap : MergeCap) (k : Bytes) (sv ver : Hlc)
  (stored : option Bytes) (es : option Z) (absent tomb : bool) (inc : Incoming V)
  (value : Bytes) (e : option Z) (Hcap : 0 <= cap_cache_len cap)
  (Hres : resolve_conflict k sv stored es absent tomb ver inc = ResMerged value e) :
  match resolve_and_rebind (Some cap) k sv stored es absent tomb ver inc with
  | RStore _ _ =>
      replicate_frame_len (cap_cache_len cap) (blen k) (blen value) <= cap_limit cap \/
      exists b, stored = Some b /\ absent = false /\ blen value <= blen b
  | RTooLarge size => size = blen value /\
      cap_limit cap < forward_frame_len (cap_cache_len cap) (blen k) (blen value)
  | RLost => True
  end.
Proof.
  unfold resolve_and_rebind. rewrite Hres. destruct inc as [v ie ib|x]; [|done].
  destruct (merge_version _ _ _ _ _) as [|w]; [done|]. cbn [is_some_and].
  set (sl := (fun c => blen c.1) <$> _).
  assert (Hsl : forall s, sl = Some s -> exists b, stored = Some b /\ absent = false /\ s = blen b).
  { unfold sl. destruct absent, stored as [b|]; try done. intros s [= <-]. eauto. }
  pose proof (blen_nonneg k) as Hk. pose proof (blen_nonneg value) as Hv.
  pose proof (admits_by_spec cap replicate_frame_len (blen k) (blen value) sl
    ltac:(unfold replicate_frame_len; lia) ltac:(unfold replicate_frame_len; lia)) as H1.
  pose proof (admits_by_spec cap forward_frame_len (blen k) (blen value) sl
    ltac:(unfold forward_frame_len, replicate_frame_len; lia)
    ltac:(unfold forward_frame_len, replicate_frame_len; lia)) as H2.
  fold (admits_contribution cap) (admits cap) in H1, H2.
  assert (Hle : replicate_frame_len (cap_cache_len cap) (blen k) (blen value) <=
    forward_frame_len (cap_cache_len cap) (blen k) (blen value)) by (unfold forward_frame_len; lia).
  destruct (bool_decide _ && bool_decide _).
  - destruct (admits_contribution _ _ _ _); cbn [negb]; [|split; [done|lia]].
    destruct H1 as [H1|(s & Hs & H1)]; [by left|]. apply Hsl in Hs as (b & ? & ? & ->). eauto.
  - destruct (admits _ _ _ _); cbn [negb]; [|split; [done|lia]].
    destruct (decode_value value); [|done].
    destruct H2 as [H2|(s & Hs & H2)]; [left; lia|]. apply Hsl in Hs as (b & ? & ? & ->). eauto.
Qed.

(** Under a frame cap a merge never grows a record past the cap: whatever the resolver
    returns, a merge that is stored fits the cap as a replicate frame, or its bytes are no
    longer than the readable value it replaces; one that does neither is refused with its
    size and stores nothing. *)
Theorem merge_never_outgrows_the_cap (cap : MergeCap) (k : Bytes) (sv ver : Hlc)
  (stored : option Bytes) (es : option Z) (absent tomb : bool) (inc : Incoming V)
  (value : Bytes) (e : option Z) (Hcap : 0 <= cap_cache_len cap)
  (Hres : resolve_conflict k sv stored es absent tomb ver inc = ResMerged value e) :
  match resolve_and_rebind (Some cap) k sv stored es absent tomb ver inc with
  | RStore _ _ =>
      replicate_frame_len (cap_cache_len cap) (blen k) (blen value) <= cap_limit cap \/
      exists b, stored = Some b /\ absent = false /\ blen value <= blen b
  | RTooLarge size => size = blen value /\
      cap_limit cap < forward_frame_len (cap_cache_len cap) (blen k) (blen value)
  | RLost => True
  end.
Proof. by apply (rebind_within_cap cap k sv ver stored es absent tomb inc value e). Qed.

End Exchange.

(** ** A merging resolver to evaluate with: one number, the larger survives *)

Definition max_merge (_ : Bytes) (a b : RecordView) : option Merged :=
  match rv_value a, rv_value b with
  | Some [x], Some [y] =>
      Some {| mg_value := [Z.max x y];
              mg_expires_at_ms := later_deadline (rv_expires_at_ms a) (rv_expires_at_ms b) |}
  | _, _ => None
  end.

Definition MaxResolver : ConflictResolver := {|
  winner := lww_winner; needs_value_bytes := true; merges := true; merge := max_merge;
  compact _ _ _ _ _ _ := None; settle _ _ _ _ := None;
|}.

#[export] Instance max_laws : ResolverLaws MaxResolver.
Proof.
  constructor; [apply (winner_antisym (R := LwwResolver))| |done].
  intros k a b. cbn. unfold max_merge, later_deadline.
  destruct (rv_value a) as [[|x [|]]|], (rv_value b) as [[|y [|]]|]; try done.
  by rewrite Z.max_comm, option_max_comm.
Qed.

Definition demo_live (v w : Z) (e : option Z) : WireRecord :=
  {| wr_key := [1]; wr_value := Some [v]; wr_ver := {| wall_ms := w; logical := 0; node := 4 |};
     wr_expires_at_ms := e |}.

Lemma exchange_converges_in_one_round_witness :
  exchange (R := MaxResolver) (V := Bytes) (demo_live 3 10 None) (demo_live 5 20 (Some 90)) =
  exchange (R := MaxResolver) (V := Bytes) (demo_live 5 20 (Some 90)) (demo_live 3 10 None) /\
  wr_value (exchange (R := MaxResolver) (V := Bytes) (demo_live 3 10 None) (demo_live 5 20 (Some 90))) = Some [5].
Proof.
  split; [|vm_compute; reflexivity].
  apply (exchange_converges_in_one_round (R := MaxResolver)); [reflexivity|discriminate|].
  repeat split; intros; cbn; eexists; reflexivity.
Defined.

Lemma merge_never_outgrows_the_cap_witness :
  resolve_and_rebind (R := MaxResolver) (V := Bytes) (Some {| cap_cache_len := 1; cap_limit := 20 |}) [1]
    {| wall_ms := 1; logical := 0; node := 1 |} (Some [7]) None true false
    {| wall_ms := 2; logical := 0; node := 2 |} (Put [9] None [9]) = RTooLarge 1 /\
  (1 = blen [9] /\ 20 < forward_frame_len 1 (blen [1]) (blen [9])).
Proof.
  split; [vm_compute; reflexivity|].
  exact (merge_never_outgrows_the_cap (R := MaxResolver) (V := Bytes)
    {| cap_cache_len := 1; cap_limit := 20 |} [1] {| wall_ms := 1; logical := 0; node := 1 |}
    {| wall_ms := 2; logical := 0; node := 2 |} (Some [7]) None true false (Put [9] None [9])
    [9] None ltac:(cbn; lia) ltac:(vm_compute; reflexivity)).
Defined.
