(* ===== verification/Arena.v ===== *)
(** * The slab: a dense arena of live entries behind a hash index

    [store/engine/slab.rs]. The arena operations (push, [swap_remove], the [retain] loop) are
    what the engine's files work on; the second half models the hash index over the arena and
    proves that the indexed operations are the arena operations. *)

From S2P Require Import Prelude Clock Types Record.

(** ** Arena operations *)

Section Arena.
Context `{PostcardU32}.

Definition live_key (l : Live) : Bytes := record_key (lv_record l).

(** The slot of the entry under [k]: [find] with the key comparison. *)
Definition find_slot (k : Bytes) (es : list Live) : option nat :=
  fst <$> list_find (fun l => live_key l = k) es.

Definition find_live (k : Bytes) (es : list Live) : option Live := find_slot k es ≫= (es !!.).

(** [Vec::swap_remove]: the last entry takes the removed one's slot. *)
Definition swap_remove (i : nat) (es : list Live) : list Live :=
  match last es with
  | Some x =>
      let front := take (length es - 1) es in
      if decide (i = length es - 1)%nat then front else <[i := x]> front
  | None => es
  end.

(** [Slab::retain]'s loop: [f] sees each entry once and threads what its closure captures;
    a kept entry stays, a dropped one is swap-removed and its slot looked at again. Each round
    advances the slot or shortens the arena, so the arena's length is enough fuel. *)
Fixpoint retain_loop {S} (f : S -> Live -> S * bool) (fuel i : nat) (es : list Live) (s : S) :
    list Live * S :=
  match fuel with
  | O => (es, s)
  | S fuel =>
      match es !! i with
      | None => (es, s)
      | Some l =>
          let (s, keep) := f s l in
          if keep : bool then retain_loop f fuel (i + 1) es s
          else retain_loop f fuel i (swap_remove i es) s
      end
  end.

Definition retain {S} (f : S -> Live -> S * bool) (es : list Live) (s : S) : list Live * S :=
  retain_loop f (length es) 0 es s.

Definition arena_growth (len : Z) : Z := Z.max (len / 4) 4.

(** ** Lemmas *)

Lemma find_live_Some k es l : find_live k es = Some l -> l ∈ es /\ live_key l = k.
Proof.
  unfold find_live, find_slot. destruct (list_find _ es) as [[i x]|] eqn:E; cbn; [|done].
  apply list_find_Some in E as (Hi & Hk & _). intros Hl. rewrite Hi in Hl. injection Hl as <-.
  split; [by eapply list_elem_of_lookup_2|done].
Qed.

Lemma find_live_None k es : find_live k es = None <-> k ∉ (live_key <$> es).
Proof.
  unfold find_live, find_slot. destruct (list_find _ es) as [[i x]|] eqn:E; cbn.
  - apply list_find_Some in E as (Hi & Hk & _). rewrite Hi. split; [done|].
    intros Hn. destruct Hn. apply list_elem_of_fmap. exists x. split; [done|].
    by eapply list_elem_of_lookup_2.
  - apply list_find_None in E. split; [|done]. intros _ (l & -> & Hl)%list_elem_of_fmap.
    rewrite Forall_forall in E. by apply (E l Hl).
Qed.

Lemma find_live_unique k es l : NoDup (live_key <$> es) -> l ∈ es -> live_key l = k ->
  find_live k es = Some l.
Proof.
  intros Hnd Hl Hk. destruct (find_live k es) as [l'|] eqn:E.
  - apply find_live_Some in E as [Hl' Hk'].
    apply list_elem_of_lookup in Hl as [i Hi], Hl' as [j Hj].
    assert (Hij : i = j).
    { apply (NoDup_lookup _ _ _ k Hnd); rewrite list_lookup_fmap;
        [rewrite Hi|rewrite Hj]; cbn; congruence. }
    congruence.
  - apply find_live_None in E. destruct E. apply list_elem_of_fmap. eauto.
Qed.

Lemma swap_remove_app i front x :
  swap_remove i (front ++ [x]) = if decide (i = length front) then front else <[i := x]> front.
Proof.
  unfold swap_remove. rewrite last_snoc, length_app. cbn.
  replace (length front + 1 - 1)%nat with (length front) by lia. by rewrite take_app_length.
Qed.

Lemma swap_remove_perm i es l : es !! i = Some l -> es ≡ₚ l :: swap_remove i es.
Proof.
  intros Hi. pose proof (lookup_lt_Some _ _ _ Hi) as Hlt.
  destruct es as [|x front _] using rev_ind; [done|].
  rewrite swap_remove_app. rewrite length_app in Hlt. cbn in Hlt.
  destruct (decide (i = length front)) as [->|Hne].
  - rewrite list_lookup_middle in Hi by done. injection Hi as ->. by rewrite Permutation_app_comm.
  - rewrite lookup_app_l in Hi by lia. rewrite Permutation_app_comm. cbn.
    destruct (insert_perm front i x l Hi) as (R & H1 & H2). rewrite H2, H1. apply perm_swap.
Qed.

Lemma swap_remove_length i es l : es !! i = Some l -> length es = S (length (swap_remove i es)).
Proof. intros Hi%swap_remove_perm. by rewrite Hi at 1. Qed.

Lemma swap_remove_prefix i es : (i < length es)%nat -> take i (swap_remove i es) = take i es.
Proof.
  intros Hlt. destruct es as [|x front _] using rev_ind; [done|].
  rewrite swap_remove_app. rewrite length_app in Hlt. cbn in Hlt.
  destruct (decide (i = length front)) as [->|Hne].
  - by rewrite take_app_length, take_ge by lia.
  - rewrite take_app_le, take_insert_ge by lia. done.
Qed.

(** The loop visits what is left of the arena: the slots before [i] are settled. *)
Lemma retain_loop_spec {S} (f : S -> Live -> S * bool) (keep : Live -> bool) fuel : forall i es s,
  (forall s l, (f s l).2 = keep l) ->
  (length es - i <= fuel)%nat -> Forall (fun l => keep l = true) (take i es) ->
  exists order, order ≡ₚ drop i es /\
    (retain_loop f fuel i es s).1 ≡ₚ filter (fun l => keep l = true) es /\
    (retain_loop f fuel i es s).2 = foldl (fun s l => (f s l).1) s order.
Proof.
  induction fuel as [|fuel IH]; intros i es s Hf Hfuel Hpre; cbn [retain_loop].
  - rewrite drop_ge by lia. exists []. split; [done|]. split; [|done]. cbn.
    rewrite take_ge in Hpre by lia. by rewrite list_filter_all.
  - destruct (es !! i) as [l|] eqn:Hi; cycle 1.
    { apply lookup_ge_None in Hi. rewrite drop_ge by lia. exists []. split; [done|]. split; [|done].
      cbn. rewrite take_ge in Hpre by lia. by rewrite list_filter_all. }
    pose proof (lookup_lt_Some _ _ _ Hi) as Hlt. pose proof (Hf s l) as Hfl.
    destruct (f s l) as [s' b] eqn:Efl. cbn in Hfl. subst b. destruct (keep l) eqn:Hk.
    + destruct (IH (i + 1)%nat es s' Hf ltac:(lia)) as (order & Ho & H1 & H2).
      { rewrite Nat.add_1_r, (take_S_r _ _ _ Hi). apply Forall_app. by repeat constructor. }
      exists (l :: order). split; [by rewrite Ho, (drop_S _ _ _ Hi), Nat.add_1_r|].
      split; [done|]. cbn [foldl]. by rewrite Efl.
    + pose proof (swap_remove_perm i es l Hi) as Hp.
      pose proof (swap_remove_length i es l Hi) as Hl.
      destruct (IH i (swap_remove i es) s' Hf ltac:(lia)) as (order & Ho & H1 & H2).
      { by rewrite swap_remove_prefix. }
      exists (l :: order). split.
      { rewrite Ho. apply (Permutation_app_inv_l (take i es)).
        rewrite take_drop. rewrite <-(swap_remove_prefix i es Hlt) at 1.
        rewrite <-Permutation_middle, take_drop. by rewrite <-Hp. }
      split; [|cbn [foldl]; by rewrite Efl].
      rewrite H1. rewrite Hp at 2. rewrite filter_cons_False; [done|]. by rewrite Hk.
Qed.

Lemma retain_spec {S} (f : S -> Live -> S * bool) (keep : Live -> bool) es s :
  (forall s l, (f s l).2 = keep l) ->
  exists order, order ≡ₚ es /\
    (retain f es s).1 ≡ₚ filter (fun l => keep l = true) es /\
    (retain f es s).2 = foldl (fun s l => (f s l).1) s order.
Proof.
  intros Hf. destruct (retain_loop_spec f keep (length es) 0 es s Hf ltac:(lia)) as (order & H1 & H2 & H3).
  - rewrite take_0. constructor.
  - exists order. rewrite drop_0 in H1. done.
Qed.

End Arena.

(** ** The hash index

    hashbrown's [HashTable] is third-party code: a table of rows, each inserted under a hash,
    searched by a hash and a predicate on the row. *)

Class HashTable (T : Type) := {
  ht_empty : T;
  ht_find : T -> Z -> (nat -> bool) -> option nat;
  ht_insert_unique : T -> Z -> nat -> T;
  ht_remove : T -> Z -> (nat -> bool) -> T;
  ht_replace : T -> Z -> (nat -> bool) -> nat -> T;
}.

(** Its documented behaviour over the multiset of rows: a search finds a row satisfying the
    predicate if one sits under the hash, [insert_unique] adds a row, and removing or
    overwriting the found row changes that row alone. *)
Class HashTableLaws (T : Type) `{HashTable T} := {
  ht_rows : T -> list (Z * nat);
  ht_rows_empty : ht_rows ht_empty = [];
  ht_find_none t h p v : ht_find t h p = None -> (h, v) ∈ ht_rows t -> p v = false;
  ht_find_some t h p v : ht_find t h p = Some v -> p v = true /\ exists h', (h', v) ∈ ht_rows t;
  ht_rows_insert t h v : ht_rows (ht_insert_unique t h v) ≡ₚ (h, v) :: ht_rows t;
  ht_rows_remove t h p v : ht_find t h p = Some v ->
    exists h', ht_rows t ≡ₚ (h', v) :: ht_rows (ht_remove t h p);
  ht_rows_replace t h p v w : ht_find t h p = Some v ->
    exists h' R, ht_rows t ≡ₚ (h', v) :: R /\ ht_rows (ht_replace t h p w) ≡ₚ (h', w) :: R;
}.

Module Slab.
Section Slab.
Context {PU : PostcardU32} {HS : Hashing} {T : Type} {HT : HashTable T}.

Record Slab := { entries : list Live; index : T }.

(** [hasher_for]: the hash of the entry's own key. *)
Definition hasher_for (l : Live) : Z := xxh3_64 (live_key l).

Definition new : Slab := {| entries := []; index := ht_empty |}.

Definition eq_at (s : Slab) (eq : Live -> bool) (i : nat) : bool :=
  match entries s !! i with Some l => eq l | None => false end.

Definition find (s : Slab) (hash : Z) (eq : Live -> bool) : option Live :=
  slot ← ht_find (index s) hash (eq_at s eq); entries s !! slot.

Definition insert_unique (s : Slab) (hash : Z) (value : Live) : Slab :=
  {| entries := entries s ++ [value];
     index := ht_insert_unique (index s) hash (length (entries s)) |}.

(** [remove_at]: drop the slot's index row, swap-remove, repoint the moved entry's row. *)
Definition remove_at (s : Slab) (hash : Z) (slot : nat) : Slab :=
  let index1 := ht_remove (index s) hash (Nat.eqb slot) in
  let last := (length (entries s) - 1)%nat in
  let entries1 := swap_remove slot (entries s) in
  {| entries := entries1;
     index :=
       match (if (slot =? last)%nat then None else entries1 !! slot) with
       | Some moved => ht_replace index1 (hasher_for moved) (Nat.eqb last) slot
       | None => index1
       end |}.

(** [entry] followed by [remove] on an occupied entry. *)
Definition remove (s : Slab) (hash : Z) (eq : Live -> bool) : Slab * option Live :=
  match ht_find (index s) hash (eq_at s eq) with
  | Some slot => (remove_at s hash slot, entries s !! slot)
  | None => (s, None)
  end.

Fixpoint retain_loop (f : Live -> bool) (fuel i : nat) (s : Slab) : Slab :=
  match fuel with
  | O => s
  | S fuel =>
      match entries s !! i with
      | None => s
      | Some l =>
          if f l then retain_loop f fuel (i + 1) s
          else retain_loop f fuel i (remove_at s (hasher_for l) i)
      end
  end.

Definition retain (f : Live -> bool) (s : Slab) : Slab :=
  retain_loop f (length (entries s)) 0 s.

Definition drain (s : Slab) : Slab * list Live :=
  ({| entries := []; index := ht_empty |}, entries s).

(** ** The index names exactly the arena's slots, each under its entry's hash *)

Context `{!HashTableLaws T}.

Definition slot_rows (es : list Live) : list (Z * nat) := imap (fun i l => (hasher_for l, i)) es.

Definition inv (s : Slab) : Prop := ht_rows (index s) ≡ₚ slot_rows (entries s).

Lemma slot_rows_lookup es h i : (h, i) ∈ slot_rows es <-> exists l, es !! i = Some l /\ h = hasher_for l.
Proof.
  unfold slot_rows. rewrite elem_of_lookup_imap. split.
  - intros (j & l & [= -> ->] & Hl). eauto.
  - intros (l & Hl & ->). eauto.
Qed.

Lemma find_slot_spec s k : inv s ->
  match ht_find (index s) (xxh3_64 k) (eq_at s (fun l => bool_decide (live_key l = k))) with
  | Some i => exists l, entries s !! i = Some l /\ live_key l = k
  | None => k ∉ (live_key <$> entries s)
  end.
Proof.
  intros Hinv. destruct (ht_find _ _ _) as [i|] eqn:E.
  - apply ht_find_some in E as [Hp _]. unfold eq_at in Hp.
    destruct (entries s !! i) as [l|]; [|done]. apply bool_decide_eq_true in Hp. eauto.
  - intros (l & -> & Hl)%list_elem_of_fmap. apply list_elem_of_lookup in Hl as [i Hi].
    assert (Hin : (xxh3_64 (live_key l), i) ∈ ht_rows (index s)).
    { unfold inv in Hinv. rewrite Hinv. apply slot_rows_lookup. eauto. }
    pose proof (ht_find_none _ _ _ _ E Hin) as Hp. unfold eq_at in Hp. rewrite Hi in Hp.
    by rewrite bool_decide_eq_true_2 in Hp.
Qed.

Lemma insert_inv s l : inv s -> inv (insert_unique s (hasher_for l) l).
Proof.
  unfold inv, insert_unique, slot_rows. cbn. intros Hs. rewrite ht_rows_insert, Hs, imap_app.
  cbn. rewrite Nat.add_0_r. by rewrite <-Permutation_cons_append.
Qed.

Lemma slot_rows_snoc front x : slot_rows (front ++ [x]) = slot_rows front ++ [(hasher_for x, length front)].
Proof. unfold slot_rows. rewrite imap_app. cbn. by rewrite Nat.add_0_r. Qed.

Lemma slot_rows_insert es i x : slot_rows (<[i := x]> es) = <[i := (hasher_for x, i)]> (slot_rows es).
Proof.
  apply list_eq. intros j. unfold slot_rows. rewrite list_lookup_imap.
  destruct (decide (i = j)) as [->|Hne].
  - destruct (decide (j < length es)%nat).
    + rewrite !list_lookup_insert_eq; [done| |done]. by rewrite length_imap.
    + rewrite !lookup_ge_None_2; [done| |]; rewrite ?length_insert, ?length_imap; lia.
  - rewrite !list_lookup_insert_ne by done. by rewrite list_lookup_imap.
Qed.

(** A search by slot number finds the slot's row, and the row carries the entry's hash. *)
Lemma find_slot_row t (es : list Live) i l R :
  ht_rows t ≡ₚ (hasher_for l, i) :: R -> (forall h, (h, i) ∈ ht_rows t -> h = hasher_for l) ->
  ht_find t (hasher_for l) (Nat.eqb i) = Some i.
Proof.
  intros Hrows Huniq. destruct (ht_find t _ _) as [v|] eqn:E.
  - apply ht_find_some in E as [->%Nat.eqb_eq _]. done.
  - assert (Hin : (hasher_for l, i) ∈ ht_rows t) by (rewrite Hrows; by left).
    pose proof (ht_find_none _ _ _ _ E Hin) as Hp. by rewrite Nat.eqb_refl in Hp.
Qed.

Lemma remove_at_inv s i l : inv s -> entries s !! i = Some l -> inv (remove_at s (hasher_for l) i).
Proof.
  destruct s as [es t]. unfold inv, remove_at. cbn [entries index]. intros Hinv Hi.
  assert (Huniq : forall h j, (h, j) ∈ ht_rows t -> exists x, es !! j = Some x /\ h = hasher_for x).
  { intros h j. rewrite Hinv. apply slot_rows_lookup. }
  destruct es as [|x front _] using rev_ind; [done|].
  rewrite swap_remove_app, length_app. cbn [length].
  replace (length front + 1 - 1)%nat with (length front) by lia.
  rewrite slot_rows_snoc, Permutation_app_comm in Hinv. cbn [app] in Hinv.
  destruct (Nat.eqb_spec i (length front)) as [->|Hne].
  - rewrite decide_True by done. rewrite list_lookup_middle in Hi by done. injection Hi as ->.
    assert (Hf : ht_find t (hasher_for l) (Nat.eqb (length front)) = Some (length front)).
    { eapply find_slot_row; [done|exact Hinv|]. intros h Hh.
      apply Huniq in Hh as (y & Hy & ->). rewrite list_lookup_middle in Hy by done. by injection Hy as ->. }
    apply ht_rows_remove in Hf as [h' Hr].
    assert (h' = hasher_for l) as ->.
    { assert (Hin : (h', length front) ∈ ht_rows t) by (rewrite Hr; by left).
      apply Huniq in Hin as (y & Hy & ->). rewrite list_lookup_middle in Hy by done. by injection Hy as ->. }
    rewrite Hr in Hinv. by apply Permutation_cons_inv in Hinv.
  - assert (Hlt : (i < length front)%nat).
    { apply lookup_lt_Some in Hi. rewrite length_app in Hi. cbn in Hi. lia. }
    rewrite decide_False by done. pose proof Hi as Hi'. rewrite lookup_app_l in Hi by lia.
    destruct (insert_perm (slot_rows front) i (hasher_for x, i) (hasher_for l, i)) as (R & HR1 & HR2).
    { unfold slot_rows. by rewrite list_lookup_imap, Hi. }
    rewrite HR1 in Hinv. rewrite list_lookup_insert_eq by done.
    assert (Hf : ht_find t (hasher_for l) (Nat.eqb i) = Some i).
    { eapply find_slot_row; [done|rewrite Hinv; apply perm_swap|]. intros h Hh.
      apply Huniq in Hh as (y & Hy & ->). congruence. }
    apply ht_rows_remove in Hf as [h' Hr].
    assert (h' = hasher_for l) as ->.
    { assert (Hin : (h', i) ∈ ht_rows t) by (rewrite Hr; by left).
      apply Huniq in Hin as (y & Hy & ->). congruence. }
    set (t1 := ht_remove t _ _) in *. rewrite Hr, perm_swap in Hinv.
    apply Permutation_cons_inv in Hinv.
    assert (Hlast : forall h, (h, length front) ∈ ht_rows t1 -> h = hasher_for x).
    { intros h Hh. assert (Hin : (h, length front) ∈ ht_rows t) by (rewrite Hr; by right).
      apply Huniq in Hin as (y & Hy & ->). rewrite list_lookup_middle in Hy by done. by injection Hy as ->. }
    assert (Hf2 : ht_find t1 (hasher_for x) (Nat.eqb (length front)) = Some (length front))
      by (eapply find_slot_row; [done|exact Hinv|exact Hlast]).
    apply (ht_rows_replace _ _ _ _ i) in Hf2 as (h' & R' & Hb & Ha).
    assert (h' = hasher_for x) as -> by (apply Hlast; rewrite Hb; by left).
    rewrite Hb in Hinv. apply Permutation_cons_inv in Hinv.
    rewrite Ha, slot_rows_insert, HR2. by rewrite Hinv.
Qed.

Lemma retain_loop_arena f fuel : forall i s, inv s ->
  inv (retain_loop f fuel i s) /\
  entries (retain_loop f fuel i s) =
    (Arena.retain_loop (fun (_ : unit) l => (tt, f l)) fuel i (entries s) tt).1.
Proof.
  induction fuel as [|fuel IH]; intros i s Hs; cbn; [done|].
  destruct (entries s !! i) as [l|] eqn:Hi; [|done].
  destruct (f l); [by apply IH|].
  destruct (IH i (remove_at s (hasher_for l) i) (remove_at_inv s i l Hs Hi)) as [Hr He].
  split; [done|]. by rewrite He.
Qed.

(** ** Refinement: the indexed slab is the arena *)

Inductive Op := Put (l : Live) | Remove (k : Bytes) | Find (k : Bytes) | Retain (f : Live -> bool) | Drain.

Definition key_is (k : Bytes) (l : Live) : bool := bool_decide (live_key l = k).

(** [Put] is a write: the key's old entry removed, the new one inserted. *)
Definition exec (s : Slab) (o : Op) : Slab * list Live :=
  match o with
  | Put l =>
      let (s1, old) := remove s (hasher_for l) (key_is (live_key l)) in
      (insert_unique s1 (hasher_for l) l, option_list old)
  | Remove k => let (s1, old) := remove s (xxh3_64 k) (key_is k) in (s1, option_list old)
  | Find k => (s, option_list (find s (xxh3_64 k) (key_is k)))
  | Retain f => (retain f s, [])
  | Drain => drain s
  end.

Definition arena_remove (k : Bytes) (es : list Live) : list Live * option Live :=
  match find_slot k es with
  | Some i => (swap_remove i es, es !! i)
  | None => (es, None)
  end.

Definition exec_arena (es : list Live) (o : Op) : list Live * list Live :=
  match o with
  | Put l => let (es1, old) := arena_remove (live_key l) es in ((es1 ++ [l]), option_list old)
  | Remove k => let (es1, old) := arena_remove k es in (es1, option_list old)
  | Find k => (es, option_list (find_live k es))
  | Retain f => ((Arena.retain (fun (_ : unit) l => (tt, f l)) es tt).1, [])
  | Drain => ([], es)
  end.

Fixpoint run {S} (step : S -> Op -> S * list Live) (s : S) (os : list Op) : S * list (list Live) :=
  match os with
  | [] => (s, [])
  | o :: os => let (s1, r) := step s o in let (s2, rs) := run step s1 os in (s2, r :: rs)
  end.

Lemma arena_remove_keys k es : NoDup (live_key <$> es) ->
  NoDup (live_key <$> (arena_remove k es).1) /\ (k ∉ (live_key <$> (arena_remove k es).1)) /\
  forall k', k' ∈ (live_key <$> (arena_remove k es).1) -> k' ∈ (live_key <$> es).
Proof.
  intros Hnd. unfold arena_remove, find_slot.
  destruct (list_find _ es) as [[i l]|] eqn:E; cbn.
  - apply list_find_Some in E as (Hi & Hk & _).
    pose proof (swap_remove_perm i es l Hi) as Hp. rewrite Hp, fmap_cons, Hk in Hnd.
    apply NoDup_cons in Hnd as [Hn Hnd]. split; [done|]. split; [done|].
    intros k' Hk'. rewrite Hp, fmap_cons. by right.
  - split; [done|]. split; [|done]. apply find_live_None.
    unfold find_live, find_slot. by rewrite E.
Qed.

Lemma remove_refines s k : inv s -> NoDup (live_key <$> entries s) ->
  let (s1, old) := remove s (xxh3_64 k) (key_is k) in
  inv s1 /\ (entries s1, old) = arena_remove k (entries s).
Proof.
  intros Hs Hnd. unfold remove, arena_remove. pose proof (find_slot_spec s k Hs) as Hf.
  unfold key_is. destruct (ht_find _ _ _) as [i|].
  - destruct Hf as (l & Hi & Hk).
    assert (Hfind : find_slot k (entries s) = Some i).
    { unfold find_slot. destruct (list_find _ (entries s)) as [[j x]|] eqn:E; cbn.
      - apply list_find_Some in E as (Hj & Hk' & _). f_equal.
        apply (NoDup_lookup _ _ _ k Hnd); rewrite list_lookup_fmap; [rewrite Hj|rewrite Hi]; cbn; congruence.
      - apply list_find_None in E. rewrite Forall_lookup in E. by destruct (E i l Hi). }
    rewrite Hfind. split; [|done].
    replace (xxh3_64 k) with (hasher_for l) by (unfold hasher_for; by rewrite Hk).
    by apply remove_at_inv.
  - split; [done|]. apply find_live_None in Hf. unfold find_live in Hf.
    destruct (find_slot k (entries s)) as [i|] eqn:E; [|done]. exfalso.
    unfold find_slot in E. destruct (list_find _ _) as [[j x]|] eqn:E2; [|done].
    apply list_find_Some in E2 as (Hj & _). cbn in *. injection E as ->. congruence.
Qed.

Lemma exec_refines s o : inv s -> NoDup (live_key <$> entries s) ->
  inv (exec s o).1 /\ (entries (exec s o).1, (exec s o).2) = exec_arena (entries s) o /\
  NoDup (live_key <$> entries (exec s o).1).
Proof.
  intros Hs Hnd. destruct o as [l|k|k|f|]; cbn [exec exec_arena].
  - pose proof (remove_refines s (live_key l) Hs Hnd) as Hr. change (hasher_for l) with (xxh3_64 (live_key l)).
    pose proof (arena_remove_keys (live_key l) (entries s) Hnd) as (H1 & H2 & _).
    destruct (remove s _ _) as [s1 old]. destruct Hr as [Hi He]. rewrite <-He in *. cbn in *.
    split; [by apply insert_inv|]. split; [done|].
    rewrite fmap_app. cbn. apply NoDup_app. split; [done|]. split; [|apply NoDup_singleton].
    intros x Hx ->%list_elem_of_singleton. done.
  - pose proof (remove_refines s k Hs Hnd) as Hr.
    pose proof (arena_remove_keys k (entries s) Hnd) as (H1 & _).
    destruct (remove s _ _) as [s1 old]. destruct Hr as [Hi He]. rewrite <-He in *. done.
  - split; [done|]. split; [|done]. f_equal. f_equal. unfold find, find_live.
    pose proof (remove_refines s k Hs Hnd) as Hr. unfold remove, arena_remove in Hr.
    unfold key_is in *. destruct (ht_find _ _ _) as [i|], (find_slot k (entries s)) as [j|];
      destruct Hr as [_ Hr]; apply (f_equal snd) in Hr; exact (f_equal option_list Hr).
  - unfold retain, Arena.retain. destruct (retain_loop_arena f (length (entries s)) 0 s Hs) as [H1 H2].
    cbn [fst snd]. split; [done|]. split; [by rewrite H2|]. rewrite H2.
    destruct (retain_spec (fun (_ : unit) l => (tt, f l)) f (entries s) tt) as (o & _ & Hp & _); [done|].
    unfold Arena.retain in Hp. rewrite Hp. eapply sublist_NoDup; [exact Hnd|].
    apply fmap_sublist, sublist_filter.
  - cbn. split; [|by split; [|constructor]]. unfold inv. cbn. by rewrite ht_rows_empty.
Qed.

(** C38: the hash-indexed slab behaves as its arena: under any sequence of writes, removals,
    lookups, [retain]s and drains the index stays exact, so every call returns what a scan of
    the arena by key returns and leaves the arena a plain push and [swap_remove] leave. *)
Theorem slab_refines_arena (os : list Op) :
  let (s, rs) := run exec new os in
  inv s /\ (entries s, rs) = run exec_arena [] os.
Proof.
  assert (Hgen : forall s, inv s -> NoDup (live_key <$> entries s) ->
    let (s', rs) := run exec s os in inv s' /\ (entries s', rs) = run exec_arena (entries s) os).
  { induction os as [|o os IH]; intros s Hs Hnd; [done|]. cbn [run].
    destruct (exec_refines s o Hs Hnd) as (H1 & H2 & H3).
    destruct (exec s o) as [s1 r]. cbn in *. rewrite <-H2. specialize (IH s1 H1 H3).
    destruct (run exec s1 os) as [s2 rs]. destruct IH as [H4 H5]. split; [done|]. by rewrite <-H5. }
  apply (Hgen new); [|constructor]. unfold inv, new. cbn. by rewrite ht_rows_empty.
Qed.

End Slab.
End Slab.

(** A table that satisfies the laws: the rows themselves, in a list. *)
#[global] Instance list_hash_table : HashTable (list (Z * nat)) := {|
  ht_empty := [];
  ht_find t h p := (fun x => x.2.2) <$> list_find (fun row => row.1 = h /\ p row.2 = true) t;
  ht_insert_unique t h v := (h, v) :: t;
  ht_remove t h p :=
    match list_find (fun row => row.1 = h /\ p row.2 = true) t with
    | Some (i, _) => delete i t
    | None => t
    end;
  ht_replace t h p w :=
    match list_find (fun row => row.1 = h /\ p row.2 = true) t with
    | Some (i, row) => <[i := (row.1, w)]> t
    | None => t
    end;
|}.

#[global] Instance list_hash_table_laws : HashTableLaws (list (Z * nat)).
Proof.
  refine {| ht_rows := id |}; cbn; [done|..].
  - intros t h p v Hn Hin. destruct (list_find _ t) as [[]|] eqn:E; [done|].
    apply list_find_None in E. rewrite Forall_forall in E. specialize (E _ Hin). cbn in E.
    destruct (p v); [|done]. by destruct E.
  - intros t h p v Hs. destruct (list_find _ t) as [[i [h' v']]|] eqn:E; [|done]. injection Hs as ->.
    apply list_find_Some in E as (Hi & [_ Hp] & _). split; [done|]. exists h'.
    by eapply list_elem_of_lookup_2.
  - done.
  - intros t h p v Hs. destruct (list_find _ t) as [[i [h' v']]|] eqn:E; [|done]. injection Hs as ->.
    apply list_find_Some in E as (Hi & _). exists h'. by apply delete_Permutation.
  - intros t h p v w Hs. destruct (list_find _ t) as [[i [h' v']]|] eqn:E; [|done]. injection Hs as ->.
    apply list_find_Some in E as (Hi & _).
    destruct (insert_perm t i (h', w) (h', v) Hi) as (R & H1 & H2). exists h', R. done.
Qed.
