(* ===== verification/Engine.v ===== *)
(** * The storage engine: its state and its invariant

    [store/engine/mod.rs], in the build without the [spill] feature. A stripe is its arena of
    live entries, its tombstones, its loads in flight, its long deadlines and its next expiry;
    the engine is 1024 stripes, 65,536 part digests and the running totals. Operations take
    the engine's state and return the new one; a [RwLock]ed section is one such step. A typed
    key is identified with its encoded bytes, and its hash is always [xxh3_64] of them. *)

From S2P Require Import Prelude Clock Part Types Record Expiry Wire Merge Arena.

(** ** Data *)

(** One load in progress. Callers share it by reference, so it lives in the engine's [loads]
    under an id, and stripes hold the id. *)
Record Inflight (V : Type) := {
  inf_done : bool;
  inf_error : option Bytes;
  inf_value : option V;
  inf_invalidated : bool;
  inf_absent : bool;
}.
Arguments inf_done {V}. Arguments inf_error {V}. Arguments inf_value {V}.
Arguments inf_invalidated {V}. Arguments inf_absent {V}.

Definition inflight_new {V} : Inflight V :=
  {| inf_done := false; inf_error := None; inf_value := None;
     inf_invalidated := false; inf_absent := false |}.

Record Stripe := {
  st_live : list Live;
  st_tombstones : gmap Bytes Tombstone;
  st_inflight : gmap Bytes nat;
  st_long_ttl : gmap Bytes Z;
  st_next_expiry_ms : Z;
}.

Definition stripe_new : Stripe :=
  {| st_live := []; st_tombstones := ∅; st_inflight := ∅; st_long_ttl := ∅;
     st_next_expiry_ms := u64_max |}.

Record Totals := { total_weight : Z; live_count : Z; resident_bytes : option Z }.

Record GcState := { gc_deferring : bool; last_gc_ms : Z; pause_hold_until_ms : Z }.

Record Config (V : Type) := {
  max_capacity : Z;
  tti_ms : option Z;
  weigher : option (Bytes -> V -> Z);
  pause_guard : bool;
  prefold_enabled : bool;
  merge_cap_limit : Z;
  merge_cap_cache_len : Z;
}.
Arguments max_capacity {V}. Arguments tti_ms {V}. Arguments weigher {V}.
Arguments pause_guard {V}. Arguments prefold_enabled {V}.
Arguments merge_cap_limit {V}. Arguments merge_cap_cache_len {V}.

Record Engine (V : Type) := {
  cfg : Config V;
  stripes : list Stripe;
  digest : list Z;
  totals : Totals;
  gc : GcState;
  evict_cursor : Z;
  compact_cursor : Z;
  loads : gmap nat (Inflight V);
  next_load : nat;
}.
Arguments cfg {V}. Arguments stripes {V}. Arguments digest {V}. Arguments totals {V}.
Arguments gc {V}. Arguments evict_cursor {V}. Arguments compact_cursor {V}.
Arguments loads {V}. Arguments next_load {V}.

Record RemovedLive := { rl_weight : Z; rl_ver : Hlc }.

Inductive ApplyOutcome (V : Type) :=
  | ORejected
  | OPut (key : Bytes) (value : V) (created : bool) (version : Hlc)
  | OTombstoned (key : Bytes) (version : Hlc)
  | OTooLarge (key_bytes : Bytes) (size : Z).
Arguments ORejected {V}. Arguments OPut {V}. Arguments OTombstoned {V}. Arguments OTooLarge {V}.

Definition outcome_version {V} (o : ApplyOutcome V) : option Hlc :=
  match o with
  | ORejected | OTooLarge _ _ => None
  | OPut _ _ _ version | OTombstoned _ version => Some version
  end.

(** ** Field updates *)

Definition set_live (st : Stripe) (es : list Live) : Stripe :=
  {| st_live := es; st_tombstones := st_tombstones st; st_inflight := st_inflight st;
     st_long_ttl := st_long_ttl st; st_next_expiry_ms := st_next_expiry_ms st |}.
Definition set_tombstones (st : Stripe) (m : gmap Bytes Tombstone) : Stripe :=
  {| st_live := st_live st; st_tombstones := m; st_inflight := st_inflight st;
     st_long_ttl := st_long_ttl st; st_next_expiry_ms := st_next_expiry_ms st |}.
Definition set_inflight (st : Stripe) (m : gmap Bytes nat) : Stripe :=
  {| st_live := st_live st; st_tombstones := st_tombstones st; st_inflight := m;
     st_long_ttl := st_long_ttl st; st_next_expiry_ms := st_next_expiry_ms st |}.
Definition set_long_ttl (st : Stripe) (m : gmap Bytes Z) : Stripe :=
  {| st_live := st_live st; st_tombstones := st_tombstones st; st_inflight := st_inflight st;
     st_long_ttl := m; st_next_expiry_ms := st_next_expiry_ms st |}.
Definition set_next_expiry (st : Stripe) (x : Z) : Stripe :=
  {| st_live := st_live st; st_tombstones := st_tombstones st; st_inflight := st_inflight st;
     st_long_ttl := st_long_ttl st; st_next_expiry_ms := x |}.

(** The totals after weight, count and bytes move by these amounts. *)
Definition move_totals (t : Totals) (w c b : Z) : Totals :=
  {| total_weight := total_weight t + w; live_count := live_count t + c;
     resident_bytes := Z.add b <$> resident_bytes t |}.

Section Fields.
Context {V : Type}.

Definition with_stripe (e : Engine V) (idx : nat) (st : Stripe) : Engine V :=
  {| cfg := cfg e; stripes := <[idx := st]> (stripes e); digest := digest e; totals := totals e;
     gc := gc e; evict_cursor := evict_cursor e; compact_cursor := compact_cursor e;
     loads := loads e; next_load := next_load e |}.
Definition with_digest (e : Engine V) (d : list Z) : Engine V :=
  {| cfg := cfg e; stripes := stripes e; digest := d; totals := totals e;
     gc := gc e; evict_cursor := evict_cursor e; compact_cursor := compact_cursor e;
     loads := loads e; next_load := next_load e |}.
Definition with_totals (e : Engine V) (t : Totals) : Engine V :=
  {| cfg := cfg e; stripes := stripes e; digest := digest e; totals := t;
     gc := gc e; evict_cursor := evict_cursor e; compact_cursor := compact_cursor e;
     loads := loads e; next_load := next_load e |}.
Definition with_loads (e : Engine V) (m : gmap nat (Inflight V)) : Engine V :=
  {| cfg := cfg e; stripes := stripes e; digest := digest e; totals := totals e;
     gc := gc e; evict_cursor := evict_cursor e; compact_cursor := compact_cursor e;
     loads := m; next_load := next_load e |}.
Definition with_gc (e : Engine V) (g : GcState) : Engine V :=
  {| cfg := cfg e; stripes := stripes e; digest := digest e; totals := totals e;
     gc := g; evict_cursor := evict_cursor e; compact_cursor := compact_cursor e;
     loads := loads e; next_load := next_load e |}.
Definition with_evict_cursor (e : Engine V) (c : Z) : Engine V :=
  {| cfg := cfg e; stripes := stripes e; digest := digest e; totals := totals e;
     gc := gc e; evict_cursor := c; compact_cursor := compact_cursor e;
     loads := loads e; next_load := next_load e |}.
Definition with_compact_cursor (e : Engine V) (c : Z) : Engine V :=
  {| cfg := cfg e; stripes := stripes e; digest := digest e; totals := totals e;
     gc := gc e; evict_cursor := evict_cursor e; compact_cursor := c;
     loads := loads e; next_load := next_load e |}.

(** A fresh load, as [Arc::new(Inflight::new())]: its id and the engine that knows it. *)
Definition new_load (e : Engine V) : Engine V * nat :=
  ({| cfg := cfg e; stripes := stripes e; digest := digest e; totals := totals e;
      gc := gc e; evict_cursor := evict_cursor e; compact_cursor := compact_cursor e;
      loads := <[next_load e := inflight_new]> (loads e); next_load := S (next_load e) |},
   next_load e).

(** [self.stripes[idx]]; every index is below [BUCKET_COUNT]. *)
Definition stripe_at (e : Engine V) (idx : nat) : Stripe := default stripe_new (stripes e !! idx).

Definition digest_at (e : Engine V) (slot : Z) : Z := default 0 (digest e !! Z.to_nat slot).

(** [self.digest[slot].fetch_xor(x)] and [.store(x)]. *)
Definition fetch_xor (e : Engine V) (slot x : Z) : Engine V :=
  with_digest e (<[Z.to_nat slot := Z.lxor (digest_at e slot) x]> (digest e)).
Definition store_digest (e : Engine V) (slot x : Z) : Engine V :=
  with_digest e (<[Z.to_nat slot := x]> (digest e)).

(** ** Construction and configuration *)

Definition engine_new (max_capacity : Z) (tti : option Z) (weigher : option (Bytes -> V -> Z)) :
    Engine V :=
  {| cfg := {| max_capacity := max_capacity; tti_ms := clamp_tti_ms <$> tti; weigher := weigher;
               pause_guard := false; prefold_enabled := true; merge_cap_limit := u64_max;
               merge_cap_cache_len := 0 |};
     stripes := replicate (Z.to_nat BUCKET_COUNT) stripe_new;
     digest := replicate (Z.to_nat PART_SPACE) 0;
     totals := {| total_weight := 0; live_count := 0; resident_bytes := None |};
     gc := {| gc_deferring := false; last_gc_ms := 0; pause_hold_until_ms := 0 |};
     evict_cursor := 11400714819323198485;
     compact_cursor := 0; loads := ∅; next_load := 0 |}.

Definition merge_cap (e : Engine V) : option MergeCap :=
  if merge_cap_limit (cfg e) =? u64_max then None
  else Some {| cap_cache_len := merge_cap_cache_len (cfg e); cap_limit := merge_cap_limit (cfg e) |}.

Definition starting_gc_deferred (e : Engine V) (deferred : bool) : Engine V :=
  with_gc e {| gc_deferring := deferred; last_gc_ms := last_gc_ms (gc e);
               pause_hold_until_ms := pause_hold_until_ms (gc e) |}.

Definition deferring_at (e : Engine V) (now_ms tombstone_ttl_ms : Z) : bool :=
  if negb (pause_guard (cfg e)) then gc_deferring (gc e)
  else
    let paused := paused_since (last_gc_ms (gc e)) now_ms tombstone_ttl_ms in
    (gc_defer_decision (gc_deferring (gc e)) paused (pause_hold_until_ms (gc e)) now_ms).1.

Definition is_absent (e : Engine V) (l : Live) (key_bytes : Bytes) (long_ttl : gmap Bytes Z)
    (now_ms : Z) : bool :=
  absent_at l key_bytes long_ttl (tti_ms (cfg e)) now_ms.

Definition tracks_last_access (e : Engine V) : bool :=
  is_some (tti_ms (cfg e)) || negb (max_capacity (cfg e) =? u64_max).

Definition live_entry_count (e : Engine V) : Z := live_count (totals e).

Definition tombstone_count (e : Engine V) : Z :=
  foldl saturating_add 0 ((fun st => Z.of_nat (size (st_tombstones st))) <$> stripes e).

(** [weigher.map_or(1, |w| w(key, value))]. *)
Definition weigh (e : Engine V) (key : Bytes) (value : V) : Z :=
  match weigher (cfg e) with Some w => w key value | None => 1 end.

End Fields.

(** ** Removing a live entry *)

Section Removal.
Context `{PostcardU32} `{Hashing}.

Definition hash_key_bytes (key_bytes : Bytes) : Z := xxh3_64 key_bytes.
Definition bucket_of_key (k : Bytes) : nat := Z.to_nat (stripe_index_from_hash (hash_key_bytes k)).
Definition part_of_key (k : Bytes) : Z := part_index_from_hash (hash_key_bytes k).
(** The digest slot of a key: its bucket's part. *)
Definition slot_of_key (k : Bytes) : Z :=
  digest_slot (stripe_index_from_hash (hash_key_bytes k)) (part_of_key k).

Definition find_in (st : Stripe) (k : Bytes) : option Live := find_live k (st_live st).

(** [remove_live]: the entry leaves the slab, with its bytes, and its long deadline with it. *)
Definition remove_live (st : Stripe) (resident : option Z) (key_bytes : Bytes) :
    Stripe * option Z * option RemovedLive :=
  match find_slot key_bytes (st_live st) ≫= (fun i => pair i <$> st_live st !! i) with
  | Some (i, l) =>
      (set_long_ttl (set_live st (swap_remove i (st_live st))) (delete key_bytes (st_long_ttl st)),
       (fun b => b - entry_bytes l) <$> resident,
       Some {| rl_weight := lv_weight l; rl_ver := live_ver l |})
  | None => (st, resident, None)
  end.

(** [Slab::insert_unique]: pushed onto the arena, its bytes counted. *)
Definition push_live (st : Stripe) (resident : option Z) (l : Live) : Stripe * option Z :=
  (set_live st (st_live st ++ [l]), (fun b => b + entry_bytes l) <$> resident).

Definition with_resident (t : Totals) (r : option Z) : Totals :=
  {| total_weight := total_weight t; live_count := live_count t; resident_bytes := r |}.

(** [account_removed]: digest, weight and count of a departed entry. *)
Definition account_removed {V} (e : Engine V) (key_bytes : Bytes) (removed : RemovedLive)
    (keep_count : bool) : Engine V :=
  let e := fetch_xor e (slot_of_key key_bytes) (entry_fingerprint key_bytes (rl_ver removed)) in
  with_totals e (move_totals (totals e) (- rl_weight removed) (if keep_count then 0 else -1) 0).

End Removal.

(** ** Installing a live entry

    The sequence a write and a completed load share: encode the expiry, record a long
    deadline, push the entry, lower the stripe's next expiry. *)
Section Install.
Context `{PostcardU32} `{Hashing}.

Definition install_live (st : Stripe) (resident : option Z) (key_bytes : Bytes) (ver : Hlc)
    (expires_at_ms : option Z) (encoded : Bytes) (weight now_ms : Z) : Stripe * option Z :=
  let (expiry, long_ttl_value) := encode_expiry (wall_ms ver) expires_at_ms in
  let st :=
    match long_ttl_value with
    | Some deadline => set_long_ttl st (<[key_bytes := deadline]> (st_long_ttl st))
    | None => st
    end in
  let (st, resident) :=
    push_live st resident
      (live_new (build_resident_record key_bytes encoded) ver expiry weight now_ms) in
  (match expires_at_ms with
   | Some exp => set_next_expiry st (Z.min (st_next_expiry_ms st) exp)
   | None => st
   end, resident).

End Install.

(** ** What a stripe stores *)

Section Versions.
Context {PU : PostcardU32} {HS : Hashing}.

Definition live_item (l : Live) : Bytes * Hlc := (live_key l, live_ver l).

(** The version a stripe stores under each key, a live entry's or a tombstone's. *)
Definition versions (st : Stripe) : gmap Bytes Hlc :=
  (ts_ver <$> st_tombstones st) ∪ list_to_map (live_item <$> st_live st).

(** The record a stripe stores under a key, visible or not. *)
Definition stored_record (st : Stripe) (k : Bytes) : option WireRecord :=
  match st_tombstones st !! k with
  | Some t => Some {| wr_key := k; wr_value := None; wr_ver := ts_ver t;
                      wr_expires_at_ms := ts_expired_at_ms t |}
  | None =>
      (fun l => {| wr_key := k; wr_value := Some (record_value (lv_record l)); wr_ver := live_ver l;
                   wr_expires_at_ms := live_deadline l k (st_long_ttl st) |}) <$> find_in st k
  end.

Lemma live_map_lookup es k :
  (list_to_map (live_item <$> es) : gmap Bytes Hlc) !! k = live_ver <$> find_live k es.
Proof.
  induction es as [|l es IH]; [done|]. rewrite fmap_cons. unfold live_item at 1.
  rewrite list_to_map_cons. unfold find_live, find_slot in *. cbn [list_find].
  destruct (decide (live_key l = k)) as [<-|Hne]; [by rewrite lookup_insert_eq|].
  rewrite lookup_insert_ne by done. rewrite IH.
  destruct (list_find _ es) as [[i x]|]; done.
Qed.

Lemma versions_lookup st k : versions st !! k =
  match st_tombstones st !! k with
  | Some t => Some (ts_ver t)
  | None => live_ver <$> find_in st k
  end.
Proof.
  unfold versions. rewrite lookup_union, lookup_fmap, live_map_lookup. unfold find_in.
  destruct (st_tombstones st !! k); cbn; destruct (find_live _ _); done.
Qed.

Lemma versions_record st k : versions st !! k = wr_ver <$> stored_record st k.
Proof.
  rewrite versions_lookup. unfold stored_record.
  destruct (st_tombstones st !! k); [done|]. by destruct (find_in st k).
Qed.

(** [k]'s version becomes [v]. *)
Definition set_version (k : Bytes) (v : option Hlc) (m : gmap Bytes Hlc) : gmap Bytes Hlc :=
  partial_alter (fun _ => v) k m.

Lemma set_version_lookup k v m k' :
  set_version k v m !! k' = if decide (k = k') then v else m !! k'.
Proof.
  unfold set_version. case_decide; subst; [by rewrite lookup_partial_alter_eq|].
  by rewrite lookup_partial_alter_ne.
Qed.

Lemma set_version_twice k v w m : set_version k v (set_version k w m) = set_version k v m.
Proof. apply map_eq. intros k'. rewrite !set_version_lookup. by case_decide. Qed.

Lemma set_version_id k m : set_version k (m !! k) m = m.
Proof. apply map_eq. intros k'. rewrite set_version_lookup. case_decide; by subst. Qed.

(** ** Digests *)

(** The XOR of the fingerprints of what a part holds. *)
Definition part_digest (p : Z) (m : gmap Bytes Hlc) : Z :=
  xor_list ((fun x => entry_fingerprint x.1 x.2) <$>
            filter (fun x => part_of_key x.1 = p) (map_to_list m)).

(** What one key contributes: the fingerprint of its version, if it has one. *)
Definition opt_fp (k : Bytes) (v : option Hlc) : Z :=
  match v with Some v => entry_fingerprint k v | None => 0 end.

Lemma part_digest_empty p : part_digest p ∅ = 0.
Proof. unfold part_digest. by rewrite map_to_list_empty. Qed.

Lemma part_digest_fresh p k v m : m !! k = None -> part_digest p (set_version k v m) =
  if decide (part_of_key k = p) then Z.lxor (opt_fp k v) (part_digest p m) else part_digest p m.
Proof.
  intros Hk. destruct v as [v|]; cbn; cycle 1.
  { replace (set_version k None m) with m by (rewrite <-Hk; symmetry; apply set_version_id).
    rewrite Z.lxor_0_l. by case_decide. }
  unfold part_digest. change (set_version k (Some v) m) with (<[k := v]> m).
  rewrite (map_to_list_insert m k v Hk), filter_cons. cbn. by case_decide.
Qed.

(** A key's version changes: its part's digest moves by the two fingerprints. *)
Lemma part_digest_set p k v m : part_digest p (set_version k v m) =
  if decide (part_of_key k = p)
  then Z.lxor (part_digest p m) (Z.lxor (opt_fp k (m !! k)) (opt_fp k v))
  else part_digest p m.
Proof.
  pose (m0 := set_version k None m).
  assert (H0 : m0 !! k = None) by (unfold m0; rewrite set_version_lookup; by case_decide).
  assert (Hm : part_digest p m = part_digest p (set_version k (m !! k) m0))
    by (unfold m0; by rewrite set_version_twice, set_version_id).
  rewrite Hm, <-(set_version_twice k v None).
  fold m0. rewrite !part_digest_fresh by done. case_decide; [|done].
  rewrite (Z.lxor_comm (opt_fp k (m !! k)) (part_digest p m0)), Z.lxor_assoc, lxor_cancel_l.
  apply Z.lxor_comm.
Qed.

End Versions.

(** ** The invariant *)

Section Invariant.
Context {PU : PostcardU32} {HS : Hashing}.

(** Each key once, live or tombstoned, in its own bucket; a long deadline for each entry that
    needs one and no other; the next expiry a lower bound of the deadlines. *)
Record stripe_wf (idx : nat) (st : Stripe) : Prop := {
  sw_fits : Forall (fun l => key_fits (live_key l)) (st_live st);
  sw_nodup : NoDup (live_key <$> st_live st);
  sw_disjoint l : l ∈ st_live st -> st_tombstones st !! live_key l = None;
  sw_bucket k : is_Some (versions st !! k) -> bucket_of_key k = idx;
  sw_long k : is_Some (st_long_ttl st !! k) <->
    exists l, find_in st k = Some l /\ lv_expiry l = LONG_TTL;
  sw_next l d : l ∈ st_live st -> live_deadline l (live_key l) (st_long_ttl st) = Some d ->
    st_next_expiry_ms st <= d;
}.

Definition stripe_weight (st : Stripe) : Z := sum_Z (lv_weight <$> st_live st).
Definition stripe_count (st : Stripe) : Z := Z.of_nat (length (st_live st)).
Definition stripe_bytes (st : Stripe) : Z := sum_Z (entry_bytes <$> st_live st).

Context {V : Type}.

Definition digest_matches (e : Engine V) (idx : nat) (st : Stripe) : Prop :=
  forall p, 0 <= p < PART_COUNT ->
    digest_at e (digest_slot (Z.of_nat idx) p) = part_digest p (versions st).

(** Every stripe well formed, every part digest the XOR of what the part holds, every total
    the sum over the stripes. *)
Record engine_inv (e : Engine V) : Prop := {
  ei_stripes : length (stripes e) = Z.to_nat BUCKET_COUNT;
  ei_digest : length (digest e) = Z.to_nat PART_SPACE;
  ei_wf idx st : stripes e !! idx = Some st -> stripe_wf idx st;
  ei_match idx st : stripes e !! idx = Some st -> digest_matches e idx st;
  ei_weight : total_weight (totals e) = sum_Z (stripe_weight <$> stripes e);
  ei_count : live_count (totals e) = sum_Z (stripe_count <$> stripes e);
  ei_bytes : from_option (fun b => b = sum_Z (stripe_bytes <$> stripes e)) True
               (resident_bytes (totals e));
}.

Lemma sum_update {A} (f : A -> Z) (l : list A) i x y : l !! i = Some y ->
  sum_Z (f <$> <[i := x]> l) = sum_Z (f <$> l) + (f x - f y).
Proof.
  intros Hi. destruct (insert_perm l i x y Hi) as (R & H1 & H2).
  rewrite (sum_Z_perm _ _ (fmap_Permutation f _ _ H2)), (sum_Z_perm _ _ (fmap_Permutation f _ _ H1)).
  rewrite !fmap_cons, !sum_Z_cons. lia.
Qed.

(** One stripe changes, its digests and the totals move with it: the invariant stays. *)
Lemma engine_inv_stripe (e e' : Engine V) idx st st' :
  engine_inv e -> stripes e !! idx = Some st -> stripe_wf idx st' ->
  stripes e' = <[idx := st']> (stripes e) -> length (digest e') = length (digest e) ->
  digest_matches e' idx st' ->
  (forall idx' p, idx' <> idx -> 0 <= p < PART_COUNT ->
     digest_at e' (digest_slot (Z.of_nat idx') p) = digest_at e (digest_slot (Z.of_nat idx') p)) ->
  totals e' = move_totals (totals e) (stripe_weight st' - stripe_weight st)
                (stripe_count st' - stripe_count st) (stripe_bytes st' - stripe_bytes st) ->
  engine_inv e'.
Proof.
  intros He Hst Hwf Hs Hl Hd Hother Ht. pose proof (lookup_lt_Some _ _ _ Hst) as Hlt. split.
  - rewrite Hs, length_insert. apply He.
  - rewrite Hl. apply He.
  - intros i x. rewrite Hs. intros [(-> & -> & _)|[Hne Hx]]%list_lookup_insert_Some; [done|].
    by apply He.
  - intros i x. rewrite Hs. intros [(-> & -> & _)|[Hne Hx]]%list_lookup_insert_Some; [done|].
    intros p Hp. rewrite Hother by done. by apply He.
  - rewrite Ht, Hs, (sum_update stripe_weight _ _ _ st) by done. cbn. by rewrite (ei_weight _ He).
  - rewrite Ht, Hs, (sum_update stripe_count _ _ _ st) by done. cbn. by rewrite (ei_count _ He).
  - rewrite Ht, Hs, (sum_update stripe_bytes _ _ _ st) by done. cbn.
    pose proof (ei_bytes _ He) as Hb. destruct (resident_bytes (totals e)); cbn in *; [lia|done].
Qed.

Lemma bucket_of_key_lt k : (bucket_of_key k < Z.to_nat BUCKET_COUNT)%nat.
Proof. unfold bucket_of_key. pose proof (stripe_index_range (hash_key_bytes k)). lia. Qed.

Lemma slot_of_key_bucket k : slot_of_key k = digest_slot (Z.of_nat (bucket_of_key k)) (part_of_key k).
Proof.
  unfold slot_of_key, bucket_of_key. pose proof (stripe_index_range (hash_key_bytes k)).
  by rewrite Z2Nat.id by lia.
Qed.

Lemma part_of_key_range k : 0 <= part_of_key k < PART_COUNT.
Proof. apply part_index_range. Qed.

Lemma slot_of_key_range k : 0 <= slot_of_key k < PART_SPACE.
Proof. apply digest_slot_range; [apply stripe_index_range|apply part_index_range]. Qed.

Lemma digest_at_insert d (e e' : Engine V) slot slot' : 0 <= slot -> 0 <= slot' ->
  (Z.to_nat slot < length (digest e))%nat -> digest e' = <[Z.to_nat slot := d]> (digest e) ->
  digest_at e' slot' = if decide (slot' = slot) then d else digest_at e slot'.
Proof.
  intros H1 H2 Hlt Hd. unfold digest_at. rewrite Hd. case_decide as Hs.
  - subst. by rewrite list_lookup_insert_eq.
  - by rewrite list_lookup_insert_ne by lia.
Qed.

Lemma digest_slot_nonneg idx p : 0 <= p -> 0 <= digest_slot (Z.of_nat idx) p.
Proof. unfold digest_slot, PART_COUNT. lia. Qed.

(** One key's version changes, with its fingerprints folded into its part's digest. *)
Lemma engine_inv_set (e e' : Engine V) k v st st' :
  engine_inv e -> stripes e !! bucket_of_key k = Some st ->
  stripe_wf (bucket_of_key k) st' -> versions st' = set_version k v (versions st) ->
  stripes e' = <[bucket_of_key k := st']> (stripes e) ->
  digest e' = <[Z.to_nat (slot_of_key k) := Z.lxor (digest_at e (slot_of_key k))
                  (Z.lxor (opt_fp k (versions st !! k)) (opt_fp k v))]> (digest e) ->
  totals e' = move_totals (totals e) (stripe_weight st' - stripe_weight st)
                (stripe_count st' - stripe_count st) (stripe_bytes st' - stripe_bytes st) ->
  engine_inv e'.
Proof.
  intros He Hst Hwf Hv Hs Hd Ht. pose proof (slot_of_key_range k) as Hr.
  pose proof (part_of_key_range k) as Hpr.
  assert (Hlt : (Z.to_nat (slot_of_key k) < length (digest e))%nat) by (rewrite (ei_digest _ He); lia).
  apply (engine_inv_stripe e e' (bucket_of_key k) st st'); try done.
  - by rewrite Hd, length_insert.
  - intros p Hp. rewrite (digest_at_insert _ e e' (slot_of_key k) _ (proj1 Hr) (digest_slot_nonneg _ _ (proj1 Hp)) Hlt Hd).
    rewrite Hv, part_digest_set, slot_of_key_bucket. pose proof (ei_match _ He _ _ Hst) as Hm.
    case_decide as Hc.
    + apply digest_slot_inj in Hc as [_ ->]; [|done|done]. rewrite decide_True by done.
      by rewrite (Hm (part_of_key k)).
    + rewrite decide_False by (intros <-; done). by apply Hm.
  - intros idx' p Hne Hp.
    rewrite (digest_at_insert _ e e' (slot_of_key k) _ (proj1 Hr) (digest_slot_nonneg _ _ (proj1 Hp)) Hlt Hd).
    rewrite slot_of_key_bucket. rewrite decide_False; [done|].
    intros Hc%digest_slot_inj; [|done|done]. destruct Hc. lia.
Qed.

End Invariant.

(** ** Stripe operations keep the invariant *)

Section StripeOps.
Context {PU : PostcardU32} {HS : Hashing}.

Lemma find_live_cons k l es :
  find_live k (l :: es) = if decide (live_key l = k) then Some l else find_live k es.
Proof.
  unfold find_live, find_slot. cbn [list_find]. case_decide; [done|].
  by destruct (list_find _ es) as [[i x]|].
Qed.

Lemma find_live_app k es es' :
  find_live k (es ++ es') = match find_live k es with Some l => Some l | None => find_live k es' end.
Proof.
  induction es as [|l es IH]; [done|]. cbn [app]. rewrite !find_live_cons. by case_decide.
Qed.

Lemma find_live_perm k es es' : NoDup (live_key <$> es) -> es ≡ₚ es' ->
  find_live k es = find_live k es'.
Proof.
  intros Hnd Hp. destruct (find_live k es) as [l|] eqn:E; symmetry.
  - apply find_live_Some in E as [Hl Hk]. apply find_live_unique; [by rewrite <-Hp|by rewrite <-Hp|done].
  - apply find_live_None in E. apply find_live_None. by rewrite <-Hp.
Qed.

Lemma find_live_filter (P : Bytes -> Prop) `{!forall k, Decision (P k)} k es :
  find_live k (filter (fun l => P (live_key l)) es) = if decide (P k) then find_live k es else None.
Proof.
  induction es as [|l es IH]; [by case_decide|]. rewrite filter_cons, find_live_cons.
  destruct (decide (P (live_key l))) as [Hp|Hp].
  - rewrite find_live_cons, IH. repeat case_decide; subst; done.
  - rewrite IH. repeat case_decide; subst; done.
Qed.

Lemma live_deadline_ext l k lt lt' : lt !! k = lt' !! k -> live_deadline l k lt = live_deadline l k lt'.
Proof. intros Hk. unfold live_deadline, decode_expiry. by rewrite Hk. Qed.

(** Only the keys satisfying [P] stay. *)
Record restricts (P : Bytes -> Prop) `{!forall k, Decision (P k)} (st st' : Stripe) : Prop := {
  rs_live : st_live st' ≡ₚ filter (fun l => P (live_key l)) (st_live st);
  rs_tombs k : st_tombstones st' !! k = if decide (P k) then st_tombstones st !! k else None;
  rs_long k : st_long_ttl st' !! k = if decide (P k) then st_long_ttl st !! k else None;
  rs_next : st_next_expiry_ms st' = st_next_expiry_ms st \/ st_live st' = [];
}.

Section Restrict.
Context (P : Bytes -> Prop) `{!forall k, Decision (P k)} (idx : nat) (st st' : Stripe).
Context (Hwf : stripe_wf idx st) (Hr : restricts P st st').

Lemma restricts_nodup : NoDup (live_key <$> st_live st').
Proof.
  rewrite (rs_live _ _ _ Hr), <-(filter_fmap live_key P). apply NoDup_filter, (sw_nodup _ _ Hwf).
Qed.

Lemma restricts_elem l : l ∈ st_live st' <-> P (live_key l) /\ l ∈ st_live st.
Proof. by rewrite (rs_live _ _ _ Hr), list_elem_of_filter. Qed.

Lemma restricts_find k : find_in st' k = if decide (P k) then find_in st k else None.
Proof.
  unfold find_in. rewrite (find_live_perm k _ _ restricts_nodup (rs_live _ _ _ Hr)).
  apply (find_live_filter P).
Qed.

Lemma restricts_record k : stored_record st' k = if decide (P k) then stored_record st k else None.
Proof.
  unfold stored_record. rewrite (rs_tombs _ _ _ Hr), restricts_find. case_decide as Hk; [|done].
  destruct (st_tombstones st !! k); [done|]. destruct (find_in st k) as [l|]; [|done]. cbn.
  do 2 f_equal. apply live_deadline_ext. rewrite (rs_long _ _ _ Hr). by rewrite decide_True.
Qed.

Lemma restricts_wf : stripe_wf idx st'.
Proof.
  split.
  - apply Forall_forall. intros l [_ Hl]%restricts_elem.
    by apply (proj1 (Forall_forall _ _) (sw_fits _ _ Hwf)).
  - apply restricts_nodup.
  - intros l [Hp Hl]%restricts_elem. rewrite (rs_tombs _ _ _ Hr), decide_True by done.
    by apply (sw_disjoint _ _ Hwf).
  - intros k. rewrite versions_record, restricts_record. case_decide; [|by intros []].
    intros Hk. apply (sw_bucket _ _ Hwf). by rewrite versions_record.
  - intros k. rewrite restricts_find, (rs_long _ _ _ Hr). case_decide.
    + apply (sw_long _ _ Hwf).
    + split; [by intros []|]. by intros (? & ? & _).
  - intros l d Hl'. pose proof Hl' as [Hp Hl]%restricts_elem.
    destruct (rs_next _ _ _ Hr) as [->|Hnil]; [|rewrite Hnil in Hl'; by apply not_elem_of_nil in Hl'].
    rewrite (live_deadline_ext _ _ _ (st_long_ttl st)); [by apply (sw_next _ _ Hwf)|].
    by rewrite (rs_long _ _ _ Hr), decide_True.
Qed.

End Restrict.

(** One key's record changes and no other's. *)
Definition sets_record (k : Bytes) (r : option WireRecord) (st st' : Stripe) : Prop :=
  forall k', stored_record st' k' = if decide (k' = k) then r else stored_record st k'.

Lemma sets_record_versions k r st st' : sets_record k r st st' ->
  versions st' = set_version k (wr_ver <$> r) (versions st).
Proof.
  intros H. apply map_eq. intros k'. rewrite set_version_lookup, !versions_record, (H k').
  repeat case_decide; subst; done.
Qed.

Lemma sets_record_trans k r r' st st1 st2 :
  sets_record k r st st1 -> sets_record k r' st1 st2 -> sets_record k r' st st2.
Proof. intros H1 H2 k'. rewrite (H2 k'), (H1 k'). by case_decide. Qed.

(** The resident bytes after the stripe went from [st] to [st']. *)
Definition bytes_after (r : option Z) (st st' : Stripe) : option Z :=
  Z.add (stripe_bytes st' - stripe_bytes st) <$> r.

Lemma bytes_after_trans r st st1 st2 : bytes_after (bytes_after r st st1) st1 st2 = bytes_after r st st2.
Proof. unfold bytes_after. destruct r; cbn; [f_equal; lia|done]. Qed.

Lemma bytes_after_same r st st' : st_live st' = st_live st -> bytes_after r st st' = r.
Proof.
  intros H. unfold bytes_after, stripe_bytes. rewrite H. destruct r; cbn; [f_equal; lia|done].
Qed.

Lemma filter_other_keys l es : NoDup (live_key <$> l :: es) ->
  filter (fun x => live_key x <> live_key l) (l :: es) = es.
Proof.
  intros [Hl _]%NoDup_cons. rewrite filter_cons_False by tauto. apply list_filter_all.
  apply Forall_forall. intros x Hx Heq. apply Hl. rewrite <-Heq. by apply list_elem_of_fmap_2.
Qed.

Lemma find_slot_live k es l : find_live k es = Some l ->
  exists i, find_slot k es = Some i /\ es !! i = Some l.
Proof. unfold find_live. destruct (find_slot k es) as [i|]; cbn; [eauto|done]. Qed.

(** [remove_live] on a key with no tombstone: the key leaves, nothing else does. *)
Lemma remove_live_spec idx st r k : stripe_wf idx st -> st_tombstones st !! k = None ->
  exists st', remove_live st r k =
      (st', bytes_after r st st',
       (fun l => {| rl_weight := lv_weight l; rl_ver := live_ver l |}) <$> find_in st k) /\
    restricts (fun k' => k' <> k) st st' /\
    st_tombstones st' = st_tombstones st /\ st_inflight st' = st_inflight st /\
    stripe_weight st' = stripe_weight st - from_option lv_weight 0 (find_in st k) /\
    stripe_count st' = stripe_count st - if is_some (find_in st k) then 1 else 0.
Proof.
  intros Hwf Ht. unfold remove_live, find_in. destruct (find_live k (st_live st)) as [l|] eqn:E.
  - apply find_live_Some in E as Hk. destruct Hk as [_ <-].
    apply find_slot_live in E as (i & -> & Hi). cbn. rewrite Hi. cbn.
    pose proof (swap_remove_perm i _ _ Hi) as Hp.
    exists (set_long_ttl (set_live st (swap_remove i (st_live st))) (delete (live_key l) (st_long_ttl st))).
    split_and!.
    + unfold bytes_after, stripe_bytes. cbn.
      rewrite (sum_Z_perm _ _ (fmap_Permutation entry_bytes _ _ Hp)), fmap_cons, sum_Z_cons.
      destruct r as [b|]; [|done]. cbn. repeat f_equal. lia.
    + split; cbn.
      * rewrite Hp at 2. rewrite filter_other_keys; [done|]. rewrite <-Hp. apply (sw_nodup _ _ Hwf).
      * intros k'. case_decide; [done|]. destruct (decide (k' = live_key l)); [by subst|done].
      * intros k'. case_decide; [by rewrite lookup_delete_ne|].
        destruct (decide (k' = live_key l)) as [->|]; [by rewrite lookup_delete_eq|done].
      * by left.
    + done.
    + done.
    + unfold stripe_weight. cbn.
      rewrite (sum_Z_perm _ _ (fmap_Permutation lv_weight _ _ Hp)), fmap_cons, sum_Z_cons. lia.
    + unfold stripe_count. cbn. rewrite (swap_remove_length _ _ _ Hi). lia.
  - assert (Hs : find_slot k (st_live st) ≫= (fun i => pair i <$> st_live st !! i) = None).
    { unfold find_live in E. destruct (find_slot k (st_live st)) as [i|]; [|done]. cbn in *. by rewrite E. }
    rewrite Hs. exists st. split_and!; try done; [by rewrite bytes_after_same| |cbn; lia..].
    split; [|intros k'|intros k'|by left].
    + rewrite list_filter_all; [done|]. apply Forall_forall. intros l Hl <-.
      apply find_live_None in E. apply E. by apply list_elem_of_fmap_2.
    + case_decide; [done|]. destruct (decide (k' = k)); [by subst|done].
    + case_decide; [done|]. destruct (decide (k' = k)) as [->|]; [|done].
      destruct (st_long_ttl st !! k) eqn:El; [|done].
      destruct (proj1 (sw_long _ _ Hwf k) ltac:(eauto)) as (l & Hl & _). unfold find_in in Hl. congruence.
Qed.

(** A tombstone leaves. *)
Lemma delete_tombstone_restricts idx st k : stripe_wf idx st -> find_in st k = None ->
  restricts (fun k' => k' <> k) st (set_tombstones st (delete k (st_tombstones st))).
Proof.
  intros Hwf Hf. split; cbn; [| intros k' ..|by left].
  - rewrite list_filter_all; [done|]. apply Forall_forall. intros l Hl <-.
    apply find_live_None in Hf. apply Hf. by apply list_elem_of_fmap_2.
  - case_decide; [by rewrite lookup_delete_ne|].
    destruct (decide (k' = k)) as [->|]; [by rewrite lookup_delete_eq|done].
  - case_decide; [done|]. destruct (decide (k' = k)) as [->|]; [|done].
    destruct (st_long_ttl st !! k) eqn:El; [|done].
    destruct (proj1 (sw_long _ _ Hwf k) ltac:(eauto)) as (l & Hl & _). congruence.
Qed.

Lemma restricts_sets idx st st' k : stripe_wf idx st -> restricts (fun k' => k' <> k) st st' ->
  sets_record k None st st'.
Proof.
  intros Hwf Hr k'. rewrite (restricts_record _ idx st st' Hwf Hr). repeat case_decide; done.
Qed.

Lemma tombstone_not_live idx st k t : stripe_wf idx st -> st_tombstones st !! k = Some t ->
  find_in st k = None.
Proof.
  intros Hwf Ht. destruct (find_in st k) as [l|] eqn:E; [|done].
  apply find_live_Some in E as [Hl <-]. by rewrite (sw_disjoint _ _ Hwf l Hl) in Ht.
Qed.

(** A tombstone arrives for a key with no live entry. *)
Lemma put_tombstone_spec idx st k t : stripe_wf idx st -> find_in st k = None ->
  bucket_of_key k = idx -> let st' := set_tombstones st (<[k := t]> (st_tombstones st)) in
  stripe_wf idx st' /\
  sets_record k (Some {| wr_key := k; wr_value := None; wr_ver := ts_ver t;
                         wr_expires_at_ms := ts_expired_at_ms t |}) st st'.
Proof.
  intros Hwf Hf Hb st'.
  assert (Hs : sets_record k (Some {| wr_key := k; wr_value := None; wr_ver := ts_ver t;
                         wr_expires_at_ms := ts_expired_at_ms t |}) st st').
  { intros k'. unfold stored_record. cbn. case_decide; subst; [by rewrite lookup_insert_eq|].
    by rewrite lookup_insert_ne. }
  split; [|done]. split; try apply Hwf.
  - intros l Hl. cbn. rewrite lookup_insert_ne; [by apply (sw_disjoint _ _ Hwf)|].
    intros ->. apply find_live_None in Hf. apply Hf. by apply list_elem_of_fmap_2.
  - intros k'. rewrite (sets_record_versions _ _ _ _ Hs), set_version_lookup.
    case_decide; subst; [done|]. apply (sw_bucket _ _ Hwf).
Qed.

Lemma long_row_needs_live idx st k : stripe_wf idx st -> find_in st k = None ->
  st_long_ttl st !! k = None.
Proof.
  intros Hwf Hf. destruct (st_long_ttl st !! k) eqn:El; [|done].
  destruct (proj1 (sw_long _ _ Hwf k) ltac:(eauto)) as (l & Hl & _). congruence.
Qed.

Lemma versions_None st k : versions st !! k = None <->
  st_tombstones st !! k = None /\ find_in st k = None.
Proof.
  rewrite versions_lookup. destruct (st_tombstones st !! k), (find_in st k); cbn.
  all: split; [intros H; split; congruence|by intros [? ?]].
Qed.

(** What installing adds. *)
Definition new_live (key_bytes : Bytes) (ver : Hlc) (exp : option Z) (encoded : Bytes)
    (weight now_ms : Z) : Live :=
  live_new (build_resident_record key_bytes encoded) ver (encode_expiry (wall_ms ver) exp).1
    weight now_ms.

Lemma install_live_fields st r k ver exp enc w now :
  let st' := (install_live st r k ver exp enc w now).1 in
  st_live st' = st_live st ++ [new_live k ver exp enc w now] /\
  st_tombstones st' = st_tombstones st /\ st_inflight st' = st_inflight st /\
  st_long_ttl st' = match (encode_expiry (wall_ms ver) exp).2 with
                    | Some d => <[k := d]> (st_long_ttl st) | None => st_long_ttl st end /\
  st_next_expiry_ms st' = match exp with
                          | Some x => Z.min (st_next_expiry_ms st) x
                          | None => st_next_expiry_ms st end /\
  (install_live st r k ver exp enc w now).2 =
    (fun b => b + entry_bytes (new_live k ver exp enc w now)) <$> r.
Proof.
  unfold install_live, new_live. destruct (encode_expiry (wall_ms ver) exp) as [e [d|]], exp; cbn; done.
Qed.

Context {PUL : PostcardU32Laws}.

Lemma install_bytes st r k ver exp enc w now : (install_live st r k ver exp enc w now).2 = bytes_after r st (install_live st r k ver exp enc w now).1.
Proof.
  destruct (install_live_fields st r k ver exp enc w now) as (H1 & _ & _ & _ & _ & ->).
  unfold bytes_after, stripe_bytes. rewrite H1, fmap_app, sum_Z_app, fmap_cons, sum_Z_cons.
  change (sum_Z (entry_bytes <$> [])) with 0. destruct r; cbn; [|done]. f_equal. lia.
Qed.

Lemma install_counts st r k ver exp enc w now : let st' := (install_live st r k ver exp enc w now).1 in
  stripe_weight st' = stripe_weight st + w /\ stripe_count st' = stripe_count st + 1.
Proof.
  destruct (install_live_fields st r k ver exp enc w now) as (H1 & _).
  unfold stripe_weight, stripe_count. rewrite H1, fmap_app, sum_Z_app, length_app, fmap_cons, sum_Z_cons.
  change (sum_Z (lv_weight <$> [])) with 0. cbn. lia.
Qed.

(** [install_live] on a key the stripe does not store. *)
Section InstallFresh.
Context (idx : nat) (st : Stripe) (r : option Z) (k : Bytes) (ver : Hlc) (exp : option Z)
  (enc : Bytes) (w now : Z).
Context (Hwf : stripe_wf idx st) (Hfree : versions st !! k = None) (Hk : key_fits k)
  (Hb : bucket_of_key k = idx).

Abbreviation st' := (install_live st r k ver exp enc w now).1.
Abbreviation l := (new_live k ver exp enc w now).

Lemma new_live_key : live_key l = k.
Proof. by apply record_key_build. Qed.

Lemma install_long : st_long_ttl st' = record_long k (encode_expiry (wall_ms ver) exp).2 (st_long_ttl st).
Proof.
  destruct (install_live_fields st r k ver exp enc w now) as (_ & _ & _ & -> & _).
  apply versions_None in Hfree as [_ Hf]. pose proof (long_row_needs_live _ _ _ Hwf Hf).
  destruct (encode_expiry _ _) as [e [d|]]; cbn; [done|]. by rewrite delete_id.
Qed.

Lemma install_long_other k' : k' <> k -> st_long_ttl st' !! k' = st_long_ttl st !! k'.
Proof.
  intros Hne. rewrite install_long.
  destruct (encode_expiry _ _).2; cbn; [by rewrite lookup_insert_ne|by rewrite lookup_delete_ne].
Qed.

Lemma install_deadline : live_deadline l k (st_long_ttl st') = exp.
Proof.
  unfold live_deadline. rewrite install_long. cbn.
  pose proof (decode_encode_expiry (wall_ms ver) exp k (st_long_ttl st)) as Hdec.
  destruct (encode_expiry (wall_ms ver) exp). apply Hdec.
Qed.

Lemma install_find k' : find_in st' k' = if decide (k' = k) then Some l else find_in st k'.
Proof.
  unfold find_in. destruct (install_live_fields st r k ver exp enc w now) as (-> & _).
  rewrite find_live_app, find_live_cons, new_live_key. apply versions_None in Hfree as [_ Hf].
  unfold find_in in Hf. repeat case_decide; subst; rewrite ?Hf; try done.
  by destruct (find_live k' (st_live st)).
Qed.

Lemma install_sets : sets_record k
  (Some {| wr_key := k; wr_value := Some enc; wr_ver := ver; wr_expires_at_ms := exp |}) st st'.
Proof.
  intros k'. unfold stored_record. rewrite install_find.
  destruct (install_live_fields st r k ver exp enc w now) as (_ & -> & _).
  case_decide as Hc; [subst k'|].
  - rewrite (proj1 (proj1 (versions_None _ _) Hfree)). cbn [fmap option_fmap option_map].
    rewrite install_deadline. cbn. rewrite record_value_build by done. by destruct ver.
  - destruct (st_tombstones st !! k'); [done|]. destruct (find_in st k'); [|done]. cbn.
    do 2 f_equal. by apply live_deadline_ext, install_long_other.
Qed.

Lemma install_long_exact k' : is_Some (st_long_ttl st' !! k') <->
  exists x, find_in st' k' = Some x /\ lv_expiry x = LONG_TTL.
Proof.
  rewrite install_find. case_decide as Hc; [subst k'|].
  - rewrite install_long.
    pose proof (decode_encode_expiry (wall_ms ver) exp k (st_long_ttl st)) as Hdec.
    assert (Hx : lv_expiry l = (encode_expiry (wall_ms ver) exp).1) by done.
    destruct (encode_expiry (wall_ms ver) exp) as [x long]. cbn [fst snd] in *.
    destruct Hdec as (_ & _ & Hl). destruct long; cbn [record_long].
    + rewrite lookup_insert_eq. split; [|done]. intros _. exists l. rewrite Hx. split; [done|].
      apply Hl. eauto.
    + rewrite lookup_delete_eq. split; [by intros []|]. intros (l' & [= <-] & Hx').
      rewrite Hx in Hx'. by apply Hl in Hx' as [].
  - rewrite install_long_other by done. apply (sw_long _ _ Hwf).
Qed.

Lemma install_wf : stripe_wf idx st'.
Proof.
  destruct (install_live_fields st r k ver exp enc w now) as (H1 & H2 & _ & _ & H5 & _).
  pose proof (proj1 (versions_None _ _) Hfree) as [Ht Hf%find_live_None]. split.
  - rewrite H1. apply Forall_app. split; [apply Hwf|]. repeat constructor. by rewrite new_live_key.
  - rewrite H1, fmap_app. apply NoDup_app. split_and!; [apply Hwf| |apply NoDup_singleton].
    intros k' Hk' Hx%list_elem_of_singleton. rewrite new_live_key in Hx. by subst.
  - intros x. rewrite H1, H2. intros [Hx|Hx%list_elem_of_singleton]%elem_of_app.
    + by apply (sw_disjoint _ _ Hwf).
    + subst. by rewrite new_live_key.
  - intros k'. rewrite (sets_record_versions _ _ _ _ install_sets), set_version_lookup.
    case_decide; subst; [done|]. apply (sw_bucket _ _ Hwf).
  - apply install_long_exact.
  - intros x d. rewrite H1, H5. intros [Hx|Hx%list_elem_of_singleton]%elem_of_app.
    + assert (Hne : live_key x <> k) by (intros <-; apply Hf; by apply list_elem_of_fmap_2).
      rewrite (live_deadline_ext _ _ _ (st_long_ttl st)) by (by apply install_long_other).
      intros Hd%(sw_next _ _ Hwf); [|done]. destruct exp; lia.
    + subst x. rewrite new_live_key, install_deadline. intros ->. lia.
Qed.

End InstallFresh.

End StripeOps.

(** ** A new engine *)

Section New.
Context {PU : PostcardU32} {HS : Hashing} {V : Type}.

Lemma stripe_new_wf idx : stripe_wf idx stripe_new.
Proof.
  split.
  - constructor.
  - constructor.
  - intros l Hl. by apply not_elem_of_nil in Hl.
  - intros k. rewrite versions_lookup. cbn. by intros [].
  - intros k. split; [by intros []|]. by intros (? & ? & _).
  - intros l d Hl. by apply not_elem_of_nil in Hl.
Qed.

Lemma sum_Z_replicate_0 {A} (f : A -> Z) n x : f x = 0 -> sum_Z (f <$> replicate n x) = 0.
Proof.
  intros Hx. induction n as [|n IH]; [done|]. cbn [replicate]. rewrite fmap_cons, sum_Z_cons. lia.
Qed.

Lemma versions_new : versions stripe_new = ∅.
Proof. apply map_eq. intros k. by rewrite versions_lookup. Qed.

Lemma engine_new_inv cap tti (w : option (Bytes -> V -> Z)) : engine_inv (engine_new cap tti w).
Proof.
  split; cbn [stripes digest totals engine_new total_weight live_count resident_bytes].
  - apply length_replicate.
  - apply length_replicate.
  - intros idx st [-> _]%lookup_replicate. apply stripe_new_wf.
  - intros idx st [-> Hlt]%lookup_replicate p Hp. rewrite versions_new, part_digest_empty.
    unfold digest_at. cbn [digest engine_new]. rewrite lookup_replicate_2; [done|].
    unfold digest_slot, PART_SPACE, BUCKET_COUNT, PART_COUNT in *. lia.
  - symmetry. by apply sum_Z_replicate_0.
  - symmetry. by apply sum_Z_replicate_0.
  - done.
Qed.

End New.
