(* ===== verification/Apply.v ===== *)
(** * The versioned write path

    [store/engine/apply.rs]: [apply_locked] with its gates, the collision, and the put and
    tombstone halves. A call works on one stripe under its write lock and on the atomics its
    context borrows: the key's part digest, the totals, the count of ignored tombstones and the
    loads in flight. *)

From S2P Require Import Prelude Clock Part Types Record Expiry Wire Merge Arena Engine.

(** ** Arrivals *)

Inductive ApplyScope := AnyScope | HeldOnly.

Inductive Arrival := ALocal | APeer.

Definition is_peer (a : Arrival) : bool := match a with APeer => true | ALocal => false end.

Record ArrivalRule := {
  ar_from_peer : bool;
  ar_deferring : bool;
  ar_ttl_ms : Z;
  ar_max_ttl_ms : Z;
  ar_now_ms : Z;
}.

Definition rule_deadlines {V} (rule : ArrivalRule) (incoming : Incoming V) (ver : Hlc) :
    option (Z * Z) :=
  match incoming with
  | Put _ _ _ => None
  | IncTombstone expired_at_ms =>
      Some (tombstone_deadlines
              (tombstone_anchor_ms expired_at_ms (wall_ms ver) (ar_now_ms rule))
              (ar_ttl_ms rule)
              (deferred_retention_ms (is_some expired_at_ms) (ar_ttl_ms rule) (ar_max_ttl_ms rule)))
  end.

Definition ignores (rule : ArrivalRule) (deadlines : option (Z * Z)) : bool :=
  is_some_and deadlines (fun d =>
    drops_lapsed_tombstone (ar_from_peer rule) d (ar_now_ms rule) (ar_deferring rule)).

(** ** The context and the state one call works on *)

Record ApplyCtx (V : Type) := {
  ac_weigher : option (Bytes -> V -> Z);
  ac_tti_ms : option Z;
  ac_merge_cap : option MergeCap;
  ac_tombstone_ttl_ms : Z;
  ac_tombstone_max_ttl_ms : Z;
  ac_deferring : bool;
  ac_now_ms : Z;
  ac_from_peer : bool;
  ac_held_only : bool;
}.
Arguments ac_weigher {V}. Arguments ac_tti_ms {V}. Arguments ac_merge_cap {V}.
Arguments ac_tombstone_ttl_ms {V}. Arguments ac_tombstone_max_ttl_ms {V}.
Arguments ac_deferring {V}. Arguments ac_now_ms {V}. Arguments ac_from_peer {V}.
Arguments ac_held_only {V}.

(** The atomics behind [digest_bucket], [total_weight], [live_count], the slab's resident
    bytes, [ignored] and the loads. *)
Record Cells (V : Type) := {
  c_digest : Z;
  c_totals : Totals;
  c_ignored : Z;
  c_loads : gmap nat (Inflight V);
}.
Arguments c_digest {V}. Arguments c_totals {V}. Arguments c_ignored {V}. Arguments c_loads {V}.

Record StoredLive := {
  sl_ver : Hlc;
  sl_encoded : option Bytes;
  sl_expires_at_ms : option Z;
  sl_visible : bool;
}.

Section Cells.
Context {V : Type}.

Definition ctx_rule (ctx : ApplyCtx V) : ArrivalRule := {|
  ar_from_peer := ac_from_peer ctx; ar_deferring := ac_deferring ctx;
  ar_ttl_ms := ac_tombstone_ttl_ms ctx; ar_max_ttl_ms := ac_tombstone_max_ttl_ms ctx;
  ar_now_ms := ac_now_ms ctx |}.

Definition xor_cell (c : Cells V) (x : Z) : Cells V := {|
  c_digest := Z.lxor (c_digest c) x; c_totals := c_totals c; c_ignored := c_ignored c;
  c_loads := c_loads c |}.
Definition with_cell_totals (c : Cells V) (t : Totals) : Cells V := {|
  c_digest := c_digest c; c_totals := t; c_ignored := c_ignored c; c_loads := c_loads c |}.
Definition count_ignored (c : Cells V) : Cells V := {|
  c_digest := c_digest c; c_totals := c_totals c; c_ignored := c_ignored c + 1;
  c_loads := c_loads c |}.
Definition with_cell_loads (c : Cells V) (m : gmap nat (Inflight V)) : Cells V := {|
  c_digest := c_digest c; c_totals := c_totals c; c_ignored := c_ignored c; c_loads := m |}.

(** [inflight.invalidated.store(true)] on the load the stripe has for the key, if any. *)
Definition set_invalidated (i : Inflight V) : Inflight V := {|
  inf_done := inf_done i; inf_error := inf_error i; inf_value := inf_value i;
  inf_invalidated := true; inf_absent := inf_absent i |}.

Definition invalidate_load (st : Stripe) (k : Bytes) (m : gmap nat (Inflight V)) :
    gmap nat (Inflight V) :=
  match st_inflight st !! k with
  | Some id => alter set_invalidated id m
  | None => m
  end.

(** The held-only gate: whether the write is refused, marking a racing load. *)
Definition reject_unheld (st : Stripe) (c : Cells V) (key_bytes : Bytes) (stored_ver : option Hlc)
    (ver : Hlc) (incoming : Incoming V) (holds : bool) : Cells V * bool :=
  if holds && negb (is_incoming_tombstone incoming) then (c, false)
  else
    (if is_none_or stored_ver (fun sv => hlc_ltb sv ver)
     then with_cell_loads c (invalidate_load st key_bytes (c_loads c)) else c,
     true).

End Cells.

(** ** The write *)

Section Apply.
Context {PU : PostcardU32} {HS : Hashing} {R : ConflictResolver} {V : Type} {VC : ValueCodec V}.

Definition read_stored_live (st : Stripe) (ctx : ApplyCtx V) (key_bytes : Bytes) :
    option StoredLive :=
  live ← find_in st key_bytes;
  Some {|
    sl_ver := live_ver live;
    sl_encoded := Some (record_value (lv_record live));
    sl_expires_at_ms := decode_expiry (lv_wall_ms live) (lv_expiry live) key_bytes (st_long_ttl st);
    sl_visible := negb (absent_at live key_bytes (st_long_ttl st) (ac_tti_ms ctx) (ac_now_ms ctx));
  |}.

Definition swap_fingerprint (st : Stripe) (c : Cells V) (key_bytes : Bytes) (ver : Hlc)
    (prior_tombstone : option Tombstone) (stored_ver : option Hlc) : Stripe * Cells V :=
  let (st, c) :=
    match prior_tombstone, stored_ver with
    | Some t, _ =>
        (set_tombstones st (delete key_bytes (st_tombstones st)),
         xor_cell c (entry_fingerprint key_bytes (ts_ver t)))
    | None, Some sv => (st, xor_cell c (entry_fingerprint key_bytes sv))
    | None, None => (st, c)
    end in
  (st, xor_cell c (entry_fingerprint key_bytes ver)).

Definition apply_put (st : Stripe) (c : Cells V) (ctx : ApplyCtx V) (key_bytes : Bytes) (ver : Hlc)
    (value : V) (expires_at_ms : option Z) (encoded : Bytes) (had_live was_visible : bool) :
    Stripe * Cells V * ApplyOutcome V :=
  let weight := match ac_weigher ctx with Some w => w key_bytes value | None => 1 end in
  let '(st, resident, removed) :=
    if had_live then remove_live st (resident_bytes (c_totals c)) key_bytes
    else (st, resident_bytes (c_totals c), None) in
  let (st, resident) :=
    install_live st resident key_bytes ver expires_at_ms encoded weight (ac_now_ms ctx) in
  let t := move_totals (with_resident (c_totals c) resident) weight 0 0 in
  let t :=
    match removed with
    | Some old => move_totals t (- rl_weight old) 0 0
    | None => move_totals t 0 1 0
    end in
  (st, with_cell_totals c t, OPut key_bytes value (negb was_visible) ver).

Definition apply_tombstone (st : Stripe) (c : Cells V) (key_bytes : Bytes) (tombstone : Tombstone)
    (had_live : bool) : Stripe * Cells V * ApplyOutcome V :=
  let '(st, resident, removed) :=
    if had_live then remove_live st (resident_bytes (c_totals c)) key_bytes
    else (st, resident_bytes (c_totals c), None) in
  let t := with_resident (c_totals c) resident in
  let t :=
    match removed with
    | Some old => move_totals t (- rl_weight old) (-1) 0
    | None => t
    end in
  (set_tombstones st (<[key_bytes := tombstone]> (st_tombstones st)),
   with_cell_totals c t, OTombstoned key_bytes (ts_ver tombstone)).

(** The stored side as the collision reads it: its version and what it meets the write with. *)
Definition collide (ctx : ApplyCtx V) (key_bytes : Bytes) (prior_tombstone : option Tombstone)
    (stored_live : option StoredLive) (stored_ver : option Hlc) (ver : Hlc)
    (incoming : Incoming V) : Rebound V :=
  match stored_ver with
  | None => RStore ver incoming
  | Some sv =>
      resolve_and_rebind (ac_merge_cap ctx) key_bytes sv
        (s ← stored_live; sl_encoded s) (s ← stored_live; sl_expires_at_ms s)
        (is_some_and stored_live (fun s => negb (sl_visible s)))
        (is_some prior_tombstone) ver incoming
  end.

Definition apply_locked (ctx : ApplyCtx V) (key_bytes : Bytes) (ver : Hlc) (incoming : Incoming V)
    (st : Stripe) (c : Cells V) : Stripe * Cells V * ApplyOutcome V :=
  let rule := ctx_rule ctx in
  let deadlines := rule_deadlines rule incoming ver in
  if ignores rule deadlines then (st, count_ignored c, ORejected)
  else
    let prior_tombstone := st_tombstones st !! key_bytes in
    let stored_live :=
      if is_some prior_tombstone then None else read_stored_live st ctx key_bytes in
    let stored_ver :=
      match prior_tombstone with
      | Some t => Some (ts_ver t)
      | None => sl_ver <$> stored_live
      end in
    let (c, refused) :=
      if ac_held_only ctx
      then reject_unheld st c key_bytes stored_ver ver incoming (is_some_and stored_live sl_visible)
      else (c, false) in
    if refused : bool then (st, c, ORejected)
    else
      match collide ctx key_bytes prior_tombstone stored_live stored_ver ver incoming with
      | RLost => (st, c, ORejected)
      | RTooLarge size => (st, c, OTooLarge key_bytes size)
      | RStore ver incoming =>
          let had_live := negb (is_some prior_tombstone) && is_some stored_ver in
          let was_visible := is_some_and stored_live sl_visible in
          let (st, c) := swap_fingerprint st c key_bytes ver prior_tombstone stored_ver in
          match incoming with
          | Put value expires_at_ms encoded =>
              apply_put st c ctx key_bytes ver value expires_at_ms encoded had_live was_visible
          | IncTombstone expired_at_ms =>
              let (ttl_deadline_ms, max_deadline_ms) := default (0, 0) deadlines in
              apply_tombstone st c key_bytes
                {| ts_ver := ver; ts_ttl_deadline_ms := ttl_deadline_ms;
                   ts_max_deadline_ms := max_deadline_ms; ts_expired_at_ms := expired_at_ms |}
                had_live
          end
      end.

(** ** What one call does *)

Context {PUL : PostcardU32Laws}.

Lemma restricts_absent idx st k : stripe_wf idx st -> versions st !! k = None ->
  restricts (fun k' => k' <> k) st st.
Proof.
  intros Hwf [Ht Hf]%versions_None. pose proof (delete_tombstone_restricts idx st k Hwf Hf) as Hr.
  rewrite delete_id in Hr by done. by destruct st.
Qed.

Lemma stored_ver_versions st ctx k :
  match st_tombstones st !! k with
  | Some t => Some (ts_ver t)
  | None => sl_ver <$> (if is_some (st_tombstones st !! k) then None else read_stored_live st ctx k)
  end = versions st !! k.
Proof.
  rewrite versions_lookup. destruct (st_tombstones st !! k); [done|]. cbn.
  unfold read_stored_live. by destruct (find_in st k).
Qed.

(** The totals after the stripe went from [st] to [st']. *)
Definition totals_after (t : Totals) (st st' : Stripe) : Totals :=
  move_totals t (stripe_weight st' - stripe_weight st) (stripe_count st' - stripe_count st)
    (stripe_bytes st' - stripe_bytes st).

Lemma totals_eq t t' : total_weight t = total_weight t' -> live_count t = live_count t' ->
  resident_bytes t = resident_bytes t' -> t = t'.
Proof. destruct t, t'; cbn; intros -> -> ->; done. Qed.

Lemma move_resident_0 (r : option Z) : Z.add 0 <$> r = r.
Proof. by destruct r. Qed.

(** A key's live entry and its long deadline are where they were. *)
Definition same_live (k : Bytes) (st st' : Stripe) : Prop :=
  find_in st' k = find_in st k /\ st_long_ttl st' !! k = st_long_ttl st !! k.

Lemma same_live_trans k st1 st2 st3 : same_live k st1 st2 -> same_live k st2 st3 -> same_live k st1 st3.
Proof. intros [? ?] [? ?]. split; congruence. Qed.

(** Both halves first clear the key: the tombstone goes with its fingerprint, a live entry
    through [remove_live]. *)
Lemma make_room idx st r k : stripe_wf idx st ->
  let prior := st_tombstones st !! k in
  let st0 := if is_some prior then set_tombstones st (delete k (st_tombstones st)) else st in
  exists st1 removed,
    (if negb (is_some prior) && is_some (versions st !! k) then remove_live st0 r k
     else (st0, r, None)) = (st1, bytes_after r st st1, removed) /\
    stripe_wf idx st1 /\ sets_record k None st st1 /\ st_inflight st1 = st_inflight st /\
    find_in st1 k = None /\ st_tombstones st1 !! k = None /\
    (forall k', k' <> k -> same_live k' st st1) /\
    stripe_weight st1 = stripe_weight st - from_option rl_weight 0 removed /\
    stripe_count st1 = stripe_count st - if is_some removed then 1 else 0.
Proof.
  intros Hwf prior st0.
  assert (Hroom : forall st1, restricts (fun k' => k' <> k) st st1 ->
    stripe_wf idx st1 /\ sets_record k None st st1 /\ find_in st1 k = None /\ st_tombstones st1 !! k = None /\
    forall k', k' <> k -> same_live k' st st1).
  { intros st1 Hr.
    assert (Hsame : forall k', k' <> k -> same_live k' st st1).
    { intros k' Hk'. unfold same_live. rewrite (restricts_find (fun k' => k' <> k) idx st st1 Hwf Hr), (rs_long _ _ _ Hr).
      by rewrite !decide_True. }
    pose proof (restricts_sets idx st st1 k Hwf Hr) as Hs.
    split; [by apply (restricts_wf (fun k' => k' <> k) idx st)|]. split; [done|].
    assert (Hn : versions st1 !! k = None) by (rewrite versions_record, (Hs k); by case_decide).
    by apply versions_None in Hn as [? ?]. }
  subst prior st0. destruct (st_tombstones st !! k) as [t|] eqn:Et; cbn [is_some negb andb].
  - pose proof (tombstone_not_live idx st k t Hwf Et) as Hf.
    destruct (Hroom _ (delete_tombstone_restricts idx st k Hwf Hf)) as (H1 & H2 & H3 & H4 & H5).
    exists (set_tombstones st (delete k (st_tombstones st))), None. rewrite (bytes_after_same r st) by done. cbn [from_option is_some].
    split_and!; try done; symmetry; apply Z.sub_0_r.
  - rewrite versions_lookup, Et. destruct (find_in st k) as [l|] eqn:Ef; cbn [is_some fmap option_fmap option_map].
    + destruct (remove_live_spec idx st r k Hwf Et) as (st1 & Heq & Hr & _ & Hi & Hw & Hc).
      destruct (Hroom _ Hr) as (H1 & H2 & H3 & H4 & H5). rewrite Ef in *. cbn in *. eauto 12.
    + destruct (Hroom st) as (H1 & H2 & H3 & H4 & H5).
      { apply (restricts_absent idx); [done|]. by apply versions_None. }
      exists st, None. rewrite bytes_after_same by done. split_and!; cbn; (done || lia).
Qed.

(** The key's record became [r], and the digest and the totals moved with it. *)
Record wrote (idx : nat) (now_ms : Z) (k : Bytes) (r : WireRecord) (st : Stripe) (c : Cells V)
    (st' : Stripe) (c' : Cells V) : Prop := {
  w_wf : stripe_wf idx st';
  w_sets : sets_record k (Some r) st st';
  w_digest : c_digest c' = Z.lxor (c_digest c) (Z.lxor (opt_fp k (versions st !! k)) (opt_fp k (Some (wr_ver r))));
  w_totals : c_totals c' = totals_after (c_totals c) st st';
  w_inflight : st_inflight st' = st_inflight st;
  w_loads : c_loads c' = c_loads c;
  w_ignored : c_ignored c' = c_ignored c;
  w_others k' : k' <> k -> same_live k' st st';
  w_touched l : find_in st' k = Some l -> lv_last_access_ms l = touch_stamp now_ms;
}.

Lemma swap_fingerprint_spec st c k ver :
  swap_fingerprint st c k ver (st_tombstones st !! k) (versions st !! k) =
  (if is_some (st_tombstones st !! k) then set_tombstones st (delete k (st_tombstones st)) else st,
   xor_cell c (Z.lxor (opt_fp k (versions st !! k)) (opt_fp k (Some ver)))).
Proof.
  unfold swap_fingerprint. rewrite versions_lookup.
  destruct (st_tombstones st !! k) as [t|]; cbn; [|destruct (find_in st k); cbn];
    unfold xor_cell; cbn; by rewrite ?Z.lxor_0_l, ?Z.lxor_assoc.
Qed.

Section Store.
Context (idx : nat) (ctx : ApplyCtx V) (st : Stripe) (c : Cells V) (k : Bytes) (ver : Hlc).
Context (Hwf : stripe_wf idx st) (Hk : key_fits k) (Hb : bucket_of_key k = idx).

Abbreviation had_live := (negb (is_some (st_tombstones st !! k)) && is_some (versions st !! k)).
Abbreviation swapped := (swap_fingerprint st c k ver (st_tombstones st !! k) (versions st !! k)).

Lemma apply_put_spec value exp enc vis :
  exists st' c', apply_put swapped.1 swapped.2 ctx k ver value exp enc had_live vis =
      (st', c', OPut k value (negb vis) ver) /\
    wrote idx (ac_now_ms ctx) k (stored_as k ver (Put value exp enc)) st c st' c'.
Proof.
  rewrite swap_fingerprint_spec. unfold apply_put. cbn [fst snd xor_cell c_totals].
  destruct (make_room idx st (resident_bytes (c_totals c)) k Hwf)
    as (st1 & removed & -> & Hwf1 & Hs1 & Hi1 & Hf1 & Ht1 & Ho1 & Hw1 & Hc1).
  assert (Hfree : versions st1 !! k = None) by (by apply versions_None).
  set (w := match ac_weigher ctx with Some w => w k value | None => 1 end).
  set (r1 := bytes_after _ st st1).
  pose proof (install_wf idx st1 r1 k ver exp enc w (ac_now_ms ctx) Hwf1 Hfree Hk Hb) as Hwf2.
  pose proof (install_sets idx st1 r1 k ver exp enc w (ac_now_ms ctx) Hwf1 Hfree Hk Hb) as Hs2.
  pose proof (install_bytes st1 r1 k ver exp enc w (ac_now_ms ctx)) as Hb2.
  pose proof (install_find idx st1 r1 k ver exp enc w (ac_now_ms ctx) Hwf1 Hfree Hk Hb) as Hfind.
  pose proof (install_long_other idx st1 r1 k ver exp enc w (ac_now_ms ctx) Hwf1 Hfree) as Hlong.
  destruct (install_counts st1 r1 k ver exp enc w (ac_now_ms ctx)) as [Hw2 Hc2].
  destruct (install_live_fields st1 r1 k ver exp enc w (ac_now_ms ctx)) as (_ & _ & Hi2 & _).
  destruct (install_live _ _ _ _ _ _ _ _) as [st2 r2]. cbn in *. subst r2 r1.
  rewrite bytes_after_trans. eexists _, _. split; [done|].
  split; cbn; try done.
  - by eapply sets_record_trans.
  - apply totals_eq; destruct removed; cbn in *; rewrite ?move_resident_0; (lia || done).
  - congruence.
  - intros k' Hk'. eapply same_live_trans; [by apply Ho1|]. split; [|by apply Hlong].
    by rewrite Hfind, decide_False.
  - intros l. rewrite Hfind, decide_True by done. by intros [= <-].
Qed.

Lemma apply_tombstone_spec now_ms t : ts_ver t = ver ->
  exists st' c', apply_tombstone swapped.1 swapped.2 k t had_live = (st', c', OTombstoned k ver) /\
    wrote idx now_ms k (stored_as k ver (IncTombstone (V:=V) (ts_expired_at_ms t))) st c st' c' /\
    st_tombstones st' !! k = Some t.
Proof.
  intros <-. rewrite swap_fingerprint_spec. unfold apply_tombstone. cbn [fst snd xor_cell c_totals].
  destruct (make_room idx st (resident_bytes (c_totals c)) k Hwf)
    as (st1 & removed & -> & Hwf1 & Hs1 & Hi1 & Hf1 & Ht1 & Ho1 & Hw1 & Hc1).
  destruct (put_tombstone_spec idx st1 k t Hwf1 Hf1 Hb) as [Hwf2 Hs2].
  eexists _, _. split; [done|]. split; [|cbn; apply lookup_insert_eq].
  split; cbn; try done.
  - by eapply sets_record_trans.
  - unfold totals_after, stripe_weight, stripe_count, stripe_bytes in *. cbn in *.
    apply totals_eq; destruct removed; cbn in *; rewrite ?move_resident_0; (lia || done).
  - intros l Hl. change (find_in st1 k = Some l) in Hl. congruence.
Qed.

End Store.

(** The verdict on a write, as a function of what the stripe stores. *)
Definition verdict (ctx : ApplyCtx V) (st : Stripe) (k : Bytes) (ver : Hlc) (i : Incoming V) :
    Rebound V :=
  let live := if is_some (st_tombstones st !! k) then None else read_stored_live st ctx k in
  if ignores (ctx_rule ctx) (rule_deadlines (ctx_rule ctx) i ver) then RLost
  else if ac_held_only ctx && negb (is_some_and live sl_visible && negb (is_incoming_tombstone i))
  then RLost
  else collide ctx k (st_tombstones st !! k) live (versions st !! k) ver i.

(** A call either refuses the write and changes nothing stored, or stores the verdict. *)
Lemma apply_locked_spec idx ctx st c k ver i :
  stripe_wf idx st -> key_fits k -> bucket_of_key k = idx ->
  exists st' c' out, apply_locked ctx k ver i st c = (st', c', out) /\
    match verdict ctx st k ver i with
    | RStore ver' i' =>
        wrote idx (ac_now_ms ctx) k (stored_as k ver' i') st c st' c' /\ outcome_version out = Some ver'
    | _ => st' = st /\ c_digest c' = c_digest c /\ c_totals c' = c_totals c /\
           outcome_version out = None
    end.
Proof.
  intros Hwf Hk Hb. unfold apply_locked, verdict. rewrite stored_ver_versions.
  destruct (ignores _ _); [by eexists _, _, _|].
  set (live := if is_some _ then None else read_stored_live st ctx k).
  assert (Hgate : exists c1, c_digest c1 = c_digest c /\ c_totals c1 = c_totals c /\
    (if ac_held_only ctx
     then reject_unheld st c k (versions st !! k) ver i (is_some_and live sl_visible)
     else (c, false)) =
    (c1, ac_held_only ctx && negb (is_some_and live sl_visible && negb (is_incoming_tombstone i))) /\
    (ac_held_only ctx && negb (is_some_and live sl_visible && negb (is_incoming_tombstone i)) = false ->
     c1 = c)).
  { destruct (ac_held_only ctx); [|by exists c]. unfold reject_unheld. cbn [andb].
    destruct (_ && _); cbn [negb]; [by exists c|]. eexists. split_and!; [| |done|done]; by bcase. }
  destruct Hgate as (c1 & Hd & Ht & -> & Hc1). destruct (_ && negb _); [by eexists _, _, _|].
  rewrite Hc1 in * by done. clear Hc1 c1 Hd Ht.
  destruct (collide _ _ _ _ _ _ _) as [|ver' i'|size]; [by eexists _, _, _| |by eexists _, _, _].
  destruct (swap_fingerprint _ _ _ _ _ _) as [st1 c1] eqn:Es. destruct i' as [value exp enc|exp].
  - destruct (apply_put_spec idx ctx st c k ver' Hwf Hk Hb value exp enc (is_some_and live sl_visible))
      as (st' & c' & Heq & Hw). rewrite Es in Heq. cbn in Heq. rewrite Heq. by eexists _, _, _.
  - destruct (default (0, 0) _) as [d1 d2].
    destruct (apply_tombstone_spec idx st c k ver' Hwf Hb (ac_now_ms ctx)
      {| ts_ver := ver'; ts_ttl_deadline_ms := d1; ts_max_deadline_ms := d2; ts_expired_at_ms := exp |} eq_refl)
      as (st' & c' & Heq & Hw & _). rewrite Es in Heq. cbn in Heq. rewrite Heq. by eexists _, _, _.
Qed.

(** ** On the engine *)

(** [apply_locked] on the engine's own stripe and atomics: the body of the batch loop. *)
Definition apply_at (e : Engine V) (bucket : nat) (ignored : Z) (ctx : ApplyCtx V)
    (k : Bytes) (ver : Hlc) (i : Incoming V) : Engine V * Z * ApplyOutcome V :=
  let slot := digest_slot (Z.of_nat bucket) (part_of_key k) in
  let '(st, c, out) :=
    apply_locked ctx k ver i (stripe_at e bucket)
      {| c_digest := digest_at e slot; c_totals := totals e; c_ignored := ignored;
         c_loads := loads e |} in
  (with_loads (with_totals (store_digest (with_stripe e bucket st) slot (c_digest c)) (c_totals c))
     (c_loads c),
   c_ignored c, out).

(** The record the engine stores under a key. *)
Definition engine_record (e : Engine V) (k : Bytes) : option WireRecord :=
  stored_record (stripe_at e (bucket_of_key k)) k.

Lemma stripe_at_lookup (e : Engine V) k : engine_inv e ->
  stripes e !! bucket_of_key k = Some (stripe_at e (bucket_of_key k)).
Proof.
  intros He. unfold stripe_at. destruct (stripes e !! bucket_of_key k) eqn:E; [done|].
  apply lookup_ge_None in E. rewrite (ei_stripes _ He) in E. pose proof (bucket_of_key_lt k). lia.
Qed.

Lemma stripe_at_insert (e e' : Engine V) idx st idx' : (idx < length (stripes e))%nat ->
  stripes e' = <[idx := st]> (stripes e) ->
  stripe_at e' idx' = if decide (idx' = idx) then st else stripe_at e idx'.
Proof.
  intros Hlt Hs. unfold stripe_at. rewrite Hs. case_decide; subst.
  - by rewrite list_lookup_insert_eq.
  - by rewrite list_lookup_insert_ne.
Qed.

(** A stripe that is its own update, with its digest and totals as they were. *)
Lemma engine_inv_ext (e e' : Engine V) : engine_inv e -> stripes e' = stripes e ->
  digest e' = digest e -> totals e' = totals e -> engine_inv e'.
Proof.
  intros [H1 H2 H3 H4 H5 H6 H7] Hs Hd Ht. split; rewrite ?Hs, ?Hd, ?Ht; try done.
  intros idx st Hst p Hp. unfold digest_at. rewrite Hd. by apply (H4 idx st).
Qed.

Lemma insert_default {A} (l : list A) i x d : default d (l !! i) = x -> <[i := x]> l = l.
Proof.
  intros <-. destruct (l !! i) eqn:E; cbn; [by apply list_insert_id|].
  apply list_insert_ge. by apply lookup_ge_None.
Qed.

Lemma engine_inv_wrote (e : Engine V) now_ms k r st' c' ign l : engine_inv e ->
  wrote (bucket_of_key k) now_ms k r (stripe_at e (bucket_of_key k))
    {| c_digest := digest_at e (slot_of_key k); c_totals := totals e; c_ignored := ign;
       c_loads := loads e |} st' c' ->
  engine_inv (with_loads (with_totals (store_digest (with_stripe e (bucket_of_key k) st')
    (slot_of_key k) (c_digest c')) (c_totals c')) l).
Proof.
  intros He [Hwf Hs Hd Ht _ _ _ _ _].
  apply (engine_inv_set e _ k (Some (wr_ver r)) (stripe_at e (bucket_of_key k)) st'); try done.
  - by apply stripe_at_lookup.
  - by rewrite (sets_record_versions _ _ _ _ Hs).
  - cbn. by rewrite Hd.
Qed.

(** One write keeps the invariant, and its effect on the stored records is the verdict's. *)
Lemma apply_at_spec (e : Engine V) ign ctx k ver i : engine_inv e -> key_fits k ->
  exists e' ign' out, apply_at e (bucket_of_key k) ign ctx k ver i = (e', ign', out) /\
    engine_inv e' /\
    let v := verdict ctx (stripe_at e (bucket_of_key k)) k ver i in
    outcome_version out = match v with RStore ver' _ => Some ver' | _ => None end /\
    forall k', engine_record e' k' =
      match v with
      | RStore ver' i' => if decide (k' = k) then Some (stored_as k ver' i') else engine_record e k'
      | _ => engine_record e k'
      end.
Proof.
  intros He Hk. unfold apply_at. rewrite <-slot_of_key_bucket.
  pose proof (stripe_at_lookup e k He) as Hst. set (st := stripe_at e (bucket_of_key k)) in *.
  set (c := {| c_digest := _ |}).
  destruct (apply_locked_spec (bucket_of_key k) ctx st c k ver i (ei_wf _ He _ _ Hst) Hk eq_refl)
    as (st' & c' & out & -> & Hv).
  eexists _, _, _. split; [done|]. cbv zeta.
  destruct (verdict ctx st k ver i) as [|ver' i'|size].
  2: { destruct Hv as [Hw Ho]. split; [by eapply engine_inv_wrote|]. split; [done|].
       intros k'. unfold engine_record.
       rewrite (stripe_at_insert e _ (bucket_of_key k) st') by (done || by eapply lookup_lt_Some).
       pose proof (w_sets _ _ _ _ _ _ _ _ Hw k') as Hs.
       destruct (decide (bucket_of_key k' = bucket_of_key k)) as [Hb|Hb].
       - by rewrite Hs, Hb.
       - rewrite decide_False by congruence. done. }
  all: destruct Hv as (-> & Hd & Ht & Ho);
    match goal with |- engine_inv ?x /\ _ => assert (Hsame : stripes x = stripes e) end;
    [cbn; by apply list_insert_id|]; split; [apply (engine_inv_ext e); try done|split; [done|]].
  all: try by (intros k'; unfold engine_record, stripe_at; rewrite Hsame).
  all: cbn; rewrite Hd; by apply insert_default with 0.
Qed.

End Apply.

(** ** Sequences of writes *)

Section Histories.
Context {PU : PostcardU32} {HS : Hashing} {V : Type} {VC : ValueCodec V}.

(** A write as it reaches its stripe: with the context it is applied under. *)
Record Write := {
  wt_ctx : ApplyCtx V;
  wt_key : Bytes;
  wt_ver : Hlc;
  wt_incoming : Incoming V;
}.

Definition wt_record (w : Write) : WireRecord := stored_as (wt_key w) (wt_ver w) (wt_incoming w).

(** Whether the write passes the arrival gate. *)
Definition wt_admitted (w : Write) : bool :=
  negb (ignores (ctx_rule (wt_ctx w)) (rule_deadlines (ctx_rule (wt_ctx w)) (wt_incoming w) (wt_ver w))).

Definition write_one (R : ConflictResolver) (e : Engine V) (w : Write) : Engine V :=
  (apply_at e (bucket_of_key (wt_key w)) 0 (wt_ctx w) (wt_key w) (wt_ver w) (wt_incoming w)).1.1.

Definition run_writes (R : ConflictResolver) (e : Engine V) (ws : list Write) : Engine V :=
  foldl (write_one R) e ws.

Context {PUL : PostcardU32Laws}.

Lemma write_one_inv R e w : engine_inv e -> key_fits (wt_key w) -> engine_inv (write_one R e w).
Proof.
  intros He Hk. unfold write_one.
  destruct (apply_at_spec (R:=R) e 0 (wt_ctx w) (wt_key w) (wt_ver w) (wt_incoming w) He Hk)
    as (e' & ign & out & -> & He' & _). done.
Qed.

Lemma run_writes_inv R ws : forall e, engine_inv e -> Forall (fun w => key_fits (wt_key w)) ws ->
  engine_inv (run_writes R e ws).
Proof.
  induction ws as [|w ws IH]; intros e He Hk; [done|]. apply Forall_cons in Hk as [Hw Hk].
  cbn. apply IH; [by apply write_one_inv|done].
Qed.

(** Versions settle a collision with a tombstone, under every resolver. *)
Lemma verdict_tombstone (R : ConflictResolver) (ctx : ApplyCtx V) st k t ver i :
  st_tombstones st !! k = Some t -> hlc_le ver (ts_ver t) -> verdict ctx st k ver i = RLost.
Proof.
  intros Ht Hle. unfold verdict. rewrite versions_lookup, Ht.
  destruct (ignores _ _); [done|]. destruct (_ && negb _); [done|].
  unfold collide, resolve_and_rebind, resolve_conflict. destruct (hlc_eqb _ _); [done|].
  cbn. unfold tombstone_resolution. cbn. destruct (hlc_ltb (ts_ver t) ver) eqn:E; [|done].
  exfalso. apply hlc_ltb_lt in E. revert Hle E. hlc_lia.
Qed.

Lemma stored_tombstone st k r : stored_record st k = Some r -> wr_value r = None ->
  exists t, st_tombstones st !! k = Some t /\ ts_ver t = wr_ver r.
Proof.
  unfold stored_record. destruct (st_tombstones st !! k) as [t|]; [intros [= <-] _; by exists t|].
  destruct (find_in st k); cbn; [|done]. by intros [= <-].
Qed.

(** A stored delete is not undone by older writes: whatever the resolver, and whatever
    other keys are written meanwhile, no sequence of writes at or below a tombstone's version
    changes the record stored under its key. *)
Theorem tombstone_outlives_older_writes (R : ConflictResolver) (e : Engine V) (k : Bytes)
  (r : WireRecord) (ws : list Write)
  (Hinv : engine_inv e) (Hr : engine_record e k = Some r) (Hdel : wr_value r = None)
  (Hfit : Forall (fun w => key_fits (wt_key w)) ws)
  (Hold : Forall (fun w => wt_key w = k -> hlc_le (wt_ver w) (wr_ver r)) ws) :
  engine_record (run_writes R e ws) k = Some r.
Proof.
  revert e Hinv Hr. induction ws as [|w ws IH]; intros e Hinv Hr; [done|].
  apply Forall_cons in Hfit as [Hf Hfit], Hold as [Ho Hold]. cbn.
  apply IH; [done|done|by apply write_one_inv|]. unfold write_one.
  destruct (apply_at_spec (R:=R) e 0 (wt_ctx w) (wt_key w) (wt_ver w) (wt_incoming w) Hinv Hf)
    as (e' & ign & out & -> & _ & _ & Hrec). cbn. rewrite Hrec.
  destruct (decide (k = wt_key w)) as [->|Hne]; [|by destruct (verdict _ _ _ _ _)].
  destruct (stored_tombstone _ _ _ Hr Hdel) as (t & Ht & Hv).
  rewrite (verdict_tombstone R _ _ _ t); [done|done|]. rewrite Hv. by apply Ho.
Qed.

(** *** Last writer wins *)

(** The register a last-writer-wins key is: the newest admitted write, the stored record
    keeping ties. *)
Definition lww_join (k : Bytes) (s : option WireRecord) (w : Write) : option WireRecord :=
  if wt_admitted w && bool_decide (wt_key w = k)
  then
    match s with
    | Some r => if hlc_ltb (wr_ver r) (wt_ver w) then Some (wt_record w) else s
    | None => Some (wt_record w)
    end
  else s.

Lemma verdict_lww (ctx : ApplyCtx V) st k ver i : ac_held_only ctx = false ->
  verdict (R:=LwwResolver) ctx st k ver i =
  if ignores (ctx_rule ctx) (rule_deadlines (ctx_rule ctx) i ver) then RLost
  else match versions st !! k with
       | Some sv => if hlc_ltb sv ver then RStore ver i else RLost
       | None => RStore ver i
       end.
Proof.
  intros Hh. unfold verdict. rewrite Hh. cbn [andb]. destruct (ignores _ _); [done|].
  destruct (versions st !! k) as [sv|]; [|done]. unfold collide, resolve_and_rebind, resolve_conflict.
  destruct (hlc_total sv ver) as [Hlt|[->|Hgt]].
  - destruct (hlc_lt_ne _ _ Hlt) as (-> & _ & _). unfold tombstone_resolution. rewrite Hlt.
    destruct (_ || _); [done|]. destruct i; cbn; unfold winner_resolution; cbn; unfold lww_winner; cbn;
      (destruct (hlc_leb ver sv) eqn:E; [exfalso; revert Hlt E; unfold hlc_lt; hlc_lia|done]).
  - by rewrite hlc_eqb_refl, hlc_ltb_irrefl.
  - destruct (hlc_lt_ne _ _ Hgt) as (_ & -> & Hn). unfold tombstone_resolution. rewrite Hn.
    destruct (_ || _); [done|]. destruct i; cbn; unfold winner_resolution; cbn; unfold lww_winner; cbn;
      (rewrite (hlc_lt_le _ _ Hgt); done).
Qed.

Lemma wt_record_ver w : wr_ver (wt_record w) = wt_ver w.
Proof. unfold wt_record. by destruct (wt_incoming w). Qed.

Lemma write_one_lww e w k : engine_inv e -> key_fits (wt_key w) -> ac_held_only (wt_ctx w) = false ->
  engine_record (write_one LwwResolver e w) k = lww_join k (engine_record e k) w.
Proof.
  intros He Hk Hh. unfold write_one.
  destruct (apply_at_spec (R:=LwwResolver) e 0 (wt_ctx w) (wt_key w) (wt_ver w) (wt_incoming w) He Hk)
    as (e' & ign & out & -> & _ & _ & Hrec). cbn. rewrite Hrec, verdict_lww by done.
  unfold lww_join, wt_admitted. destruct (ignores _ _); [done|]. cbn [negb andb].
  rewrite versions_record. fold (engine_record e (wt_key w)).
  destruct (decide (wt_key w = k)) as [<-|Hne].
  - rewrite bool_decide_eq_true_2 by done. destruct (engine_record e (wt_key w)) as [r|]; cbn.
    + destruct (hlc_ltb _ _); [by rewrite decide_True|done].
    + by rewrite decide_True.
  - rewrite bool_decide_eq_false_2 by done.
    destruct (engine_record e (wt_key w)) as [r|]; cbn; [destruct (hlc_ltb _ _)|];
      rewrite ?decide_False by congruence; done.
Qed.

Lemma run_writes_lww k ws : forall e, engine_inv e ->
  Forall (fun w => key_fits (wt_key w) /\ ac_held_only (wt_ctx w) = false) ws ->
  engine_record (run_writes LwwResolver e ws) k = foldl (lww_join k) (engine_record e k) ws.
Proof.
  induction ws as [|w ws IH]; intros e He Hws; [done|]. apply Forall_cons in Hws as [[Hk Hh] Hws].
  cbn. unfold run_writes in IH. rewrite IH by (done || by apply write_one_inv).
  by rewrite write_one_lww.
Qed.

(** Two writes are consistent when the same key at the same version carries the same record. *)
Definition consistent (a b : Write) : Prop :=
  wt_key a = wt_key b -> wt_ver a = wt_ver b -> wt_record a = wt_record b.

Lemma lww_join_comm k s a b : consistent a b ->
  lww_join k (lww_join k s a) b = lww_join k (lww_join k s b) a.
Proof.
  intros Hc. unfold lww_join. destruct (wt_admitted a), (wt_admitted b); cbn [andb]; try done.
  do 2 case_bool_decide; try done. subst k. unfold consistent in Hc. rewrite H0 in Hc.
  specialize (Hc eq_refl). destruct (hlc_total (wt_ver a) (wt_ver b)) as [Hlt|[Heq|Hgt]].
  - destruct (hlc_lt_ne _ _ Hlt) as (_ & _ & Hn). destruct s as [r|]; rewrite ?wt_record_ver, ?Hlt, ?Hn; [|done].
    destruct (hlc_ltb (wr_ver r) (wt_ver a)) eqn:E1; rewrite ?wt_record_ver, ?Hlt, ?Hn.
    + by rewrite (hlc_lt_trans _ _ _ E1 Hlt), wt_record_ver, Hn.
    + destruct (hlc_ltb (wr_ver r) (wt_ver b)); rewrite ?wt_record_ver, ?Hn, ?E1; done.
  - rewrite Heq, (Hc Heq). destruct s as [r|]; cbn; rewrite ?wt_record_ver; [|done].
    destruct (hlc_ltb (wr_ver r) (wt_ver b)) eqn:E; rewrite ?wt_record_ver, ?E; done.
  - destruct (hlc_lt_ne _ _ Hgt) as (_ & _ & Hn). destruct s as [r|]; rewrite ?wt_record_ver, ?Hgt, ?Hn; [|done].
    destruct (hlc_ltb (wr_ver r) (wt_ver b)) eqn:E1; rewrite ?wt_record_ver, ?Hgt, ?Hn.
    + by rewrite (hlc_lt_trans _ _ _ E1 Hgt), wt_record_ver, Hn.
    + destruct (hlc_ltb (wr_ver r) (wt_ver a)); rewrite ?wt_record_ver, ?Hn, ?E1; done.
Qed.

(** The digests are a function of the stored versions. *)
Lemma engine_digest_eq (e e' : Engine V) : engine_inv e -> engine_inv e' ->
  (forall k, wr_ver <$> engine_record e k = wr_ver <$> engine_record e' k) -> digest e = digest e'.
Proof.
  intros He He' Hk. apply (list_eq_same_length _ _ (Z.to_nat PART_SPACE)).
  - by apply ei_digest.
  - by rewrite (ei_digest _ He).
  - intros i x y Hi Hx Hy.
    pose (b := (i / 64)%nat). pose (p := Z.of_nat (i mod 64)).
    assert (Hslot : Z.to_nat (digest_slot (Z.of_nat b) p) = i).
    { unfold digest_slot, PART_COUNT, b, p. pose proof (Nat.div_mod_eq i 64). lia. }
    assert (Hp : 0 <= p < PART_COUNT).
    { unfold PART_COUNT, p. pose proof (Nat.mod_upper_bound i 64). lia. }
    assert (Hb : (b < Z.to_nat BUCKET_COUNT)%nat).
    { unfold b. apply Nat.Div0.div_lt_upper_bound. unfold PART_SPACE, BUCKET_COUNT, PART_COUNT in *. lia. }
    destruct (lookup_lt_is_Some_2 (stripes e) b) as [st Hst]; [by rewrite (ei_stripes _ He)|].
    destruct (lookup_lt_is_Some_2 (stripes e') b) as [st' Hst']; [by rewrite (ei_stripes _ He')|].
    pose proof (ei_match _ He _ _ Hst p Hp) as H1. pose proof (ei_match _ He' _ _ Hst' p Hp) as H2.
    unfold digest_at in H1, H2. rewrite Hslot, Hx in H1. rewrite Hslot, Hy in H2. cbn in H1, H2.
    rewrite H1, H2. f_equal.
    apply map_eq. intros k. destruct (decide (bucket_of_key k = b)) as [Hkb|Hkb].
    + specialize (Hk k). unfold engine_record, stripe_at in Hk. rewrite Hkb, Hst, Hst' in Hk.
      cbn in Hk. by rewrite !versions_record, Hk.
    + transitivity (@None Hlc); [|symmetry].
      all: apply eq_None_not_Some; intros Hs; apply Hkb.
      * by apply (sw_bucket _ _ (ei_wf _ He _ _ Hst)).
      * by apply (sw_bucket _ _ (ei_wf _ He' _ _ Hst')).
Qed.

(** C30: under last-writer-wins, replicas that start from the same records and apply the same
    writes end with the same record under every key and the same 65,536 part digests, in
    whatever order the writes arrive, provided the same key at the same version always carries
    the same record. *)
Theorem lww_writes_converge (e : Engine V) (ws ws' : list Write)
  (Hinv : engine_inv e) (Hp : ws ≡ₚ ws')
  (Hok : Forall (fun w => key_fits (wt_key w) /\ ac_held_only (wt_ctx w) = false) ws)
  (Hc : forall a b, a ∈ ws -> b ∈ ws -> consistent a b) :
  (forall k, engine_record (run_writes LwwResolver e ws) k =
             engine_record (run_writes LwwResolver e ws') k) /\
  digest (run_writes LwwResolver e ws) = digest (run_writes LwwResolver e ws').
Proof.
  assert (Hrec : forall k, engine_record (run_writes LwwResolver e ws) k =
                           engine_record (run_writes LwwResolver e ws') k).
  { intros k. rewrite !run_writes_lww by (done || by rewrite <-Hp).
    apply foldl_perm; [done|]. intros a b s Ha Hb. by apply lww_join_comm, Hc. }
  split; [done|]. apply engine_digest_eq; [..|intros k; by rewrite Hrec]; apply run_writes_inv; try done.
  - eapply Forall_impl; [apply Hok|]. by intros w [? ?].
  - rewrite <-Hp. eapply Forall_impl; [apply Hok|]. by intros w [? ?].
Qed.

End Histories.
Arguments Write : clear implicits.

(** ** Concrete runs *)

Definition local_ctx : ApplyCtx Bytes := {|
  ac_weigher := None; ac_tti_ms := None; ac_merge_cap := None; ac_tombstone_ttl_ms := 60000;
  ac_tombstone_max_ttl_ms := 600000; ac_deferring := false; ac_now_ms := 1000;
  ac_from_peer := false; ac_held_only := false |}.

Definition stamp (t n : Z) : Hlc := {| wall_ms := t; logical := 0; node := n |}.
Definition put_at (k v : Bytes) (t n : Z) : Write Bytes :=
  {| wt_ctx := local_ctx; wt_key := k; wt_ver := stamp t n; wt_incoming := Put v None v |}.
Definition delete_at (k : Bytes) (t n : Z) : Write Bytes :=
  {| wt_ctx := local_ctx; wt_key := k; wt_ver := stamp t n; wt_incoming := IncTombstone None |}.

Definition empty_engine : Engine Bytes := engine_new u64_max None None.

Lemma lww_writes_converge_witness :
  let ws := [put_at [1] [10] 500 1; delete_at [1] 600 2; put_at [2] [20] 700 1] in
  digest (run_writes LwwResolver empty_engine ws) =
  digest (run_writes LwwResolver empty_engine (reverse ws)).
Proof.
  apply (lww_writes_converge empty_engine).
  - apply engine_new_inv.
  - by rewrite reverse_Permutation.
  - repeat constructor; vm_compute; discriminate.
  - intros a b Ha Hb. repeat (apply elem_of_cons in Ha as [->|Ha]); [..|by apply not_elem_of_nil in Ha];
      repeat (apply elem_of_cons in Hb as [->|Hb]); try (by apply not_elem_of_nil in Hb);
      intros H1 H2; (reflexivity || discriminate H1 || discriminate H2).
Defined.

Lemma tombstone_outlives_older_writes_witness :
  let e := run_writes LwwResolver empty_engine [put_at [1] [10] 500 1; delete_at [1] 600 2] in
  engine_record (run_writes LwwResolver e [put_at [1] [11] 550 1; put_at [2] [20] 700 1]) [1] =
  engine_record e [1].
Proof.
  cbv zeta. set (r := {| wr_key := [1]; wr_value := None; wr_ver := stamp 600 2; wr_expires_at_ms := None |}).
  assert (Hr : engine_record (run_writes LwwResolver empty_engine
    [put_at [1] [10] 500 1; delete_at [1] 600 2]) [1] = Some r) by (vm_compute; reflexivity).
  rewrite Hr. apply (tombstone_outlives_older_writes LwwResolver _ [1] r).
  - apply run_writes_inv; [apply engine_new_inv|]. repeat constructor; vm_compute; discriminate.
  - exact Hr.
  - reflexivity.
  - repeat constructor; vm_compute; discriminate.
  - repeat constructor; cbn; intros; try congruence; reflexivity.
Defined.
