(* ===== verification/Removal.v ===== *)
(** * Removing entries

    [store/engine/removal.rs]: invalidations, a single key's local drop, and the release of
    whole buckets and of parts when ownership moves; with the slab's [retain] at the level of a
    stripe, which the sweep shares. *)

From S2P Require Import Prelude Clock Part Types Record Expiry Wire Merge Arena Engine Apply.

(** ** Definitions *)

Section Removal.
Context {PU : PostcardU32} {HS : Hashing} {V : Type}.

(** [remove_live] on the engine's own stripe. *)
Definition remove_live_at (e : Engine V) (k : Bytes) : Engine V * option RemovedLive :=
  let '(st, resident, removed) :=
    remove_live (stripe_at e (bucket_of_key k)) (resident_bytes (totals e)) k in
  (with_totals (with_stripe e (bucket_of_key k) st) (with_resident (totals e) resident), removed).

(** [inflight.invalidated.store(true)] for a load in flight under the key. *)
Definition mark_invalidated (e : Engine V) (k : Bytes) : Engine V :=
  with_loads e (invalidate_load (stripe_at e (bucket_of_key k)) k (loads e)).

Definition invalidate (e : Engine V) (key_bytes : Bytes) (ver : Hlc) : Engine V * option Hlc :=
  let st := stripe_at e (bucket_of_key key_bytes) in
  let prior_tombstone := st_tombstones st !! key_bytes in
  let stored_ver :=
    match prior_tombstone with
    | Some t => Some (ts_ver t)
    | None => live_ver <$> find_in st key_bytes
    end in
  if is_some_and stored_ver (fun sv => hlc_leb ver sv) then (e, None)
  else
    let e := mark_invalidated e key_bytes in
    let had_live := negb (is_some prior_tombstone) && is_some stored_ver in
    if negb had_live then (e, None)
    else
      match remove_live_at e key_bytes with
      | (e, Some removed) => (account_removed e key_bytes removed false, Some (rl_ver removed))
      | (e, None) => (e, None)
      end.

Definition invalidate_local (e : Engine V) (key_bytes : Bytes) : Engine V :=
  let e := mark_invalidated e key_bytes in
  match remove_live_at e key_bytes with
  | (e, Some removed) => account_removed e key_bytes removed false
  | (e, None) => e
  end.

(** [Slab::retain] on a stripe: an entry the closure drops leaves with its bytes. *)
Definition retain_live {S} (f : S -> Live -> S * bool) (st : Stripe) (resident : option Z) (s : S) :
    Stripe * option Z * S :=
  let '(es, (resident, s)) :=
    retain (fun rs l =>
      let (s, keep) := f rs.2 l in
      ((if keep : bool then rs.1 else (fun b => b - entry_bytes l) <$> rs.1, s), keep))
      (st_live st) (resident, s) in
  (set_live st es, resident, s).

(** The weight and the count of what a closure drops. *)
Definition count_removed (keep : Live -> bool) (s : Z * Z) (l : Live) : (Z * Z) * bool :=
  if keep l then (s, true) else ((s.1 + lv_weight l, s.2 + 1), false).

(** The digests of a bucket's parts chosen by [f] are stored as zero. *)
Definition zero_digests (e : Engine V) (bucket : nat) (f : Z -> bool) (parts : list Z) : Engine V :=
  foldl (fun e p => if f p then store_digest e (digest_slot (Z.of_nat bucket) p) 0 else e) e parts.

Definition release_bucket (e : Engine V) (removed_total : Z) (bucket : nat) : Engine V * Z :=
  let st := stripe_at e bucket in
  let drained := st_live st in
  let resident := (fun b => b - sum_Z (entry_bytes <$> drained)) <$> resident_bytes (totals e) in
  let '(removed_weight, removed_live) :=
    foldl (fun s l => (s.1 + lv_weight l, s.2 + 1)) (0, 0) drained in
  let removed_tombstones := Z.of_nat (size (st_tombstones st)) in
  let st := {| st_live := []; st_tombstones := ∅; st_inflight := st_inflight st;
               st_long_ttl := ∅; st_next_expiry_ms := u64_max |} in
  let e := with_totals (with_stripe e bucket st) (with_resident (totals e) resident) in
  let e := zero_digests e bucket (fun _ => true) (seqZ 0 PART_COUNT) in
  (with_totals e (move_totals (totals e) (- removed_weight) (- removed_live) 0),
   saturating_add (saturating_add removed_total removed_live) removed_tombstones).

Definition release_buckets (e : Engine V) (buckets : list Z) : Engine V * Z :=
  foldl (fun acc bucket =>
    if BUCKET_COUNT <=? bucket then acc
    else release_bucket acc.1 acc.2 (Z.to_nat bucket)) (e, 0) buckets.

(** The mask of each bucket's released parts. *)
Definition part_masks (parts : list PartId) : gmap Z Z :=
  foldl (fun m p =>
    <[Pid.bucket p := Z.lor (default 0 (m !! Pid.bucket p)) (Z.shiftl 1 (Pid.part p))]> m) ∅ parts.

Definition mask_has (mask part : Z) : bool := negb (Z.land mask (Z.shiftl 1 part) =? 0).

(** One bucket of [release_parts], with not all of its parts released. *)
Definition release_masked (e : Engine V) (removed_total : Z) (bucket : nat) (mask : Z) :
    Engine V * Z :=
  let released := fun key => mask_has mask (part_of_key key) in
  let st := stripe_at e bucket in
  let '(st, resident, (removed_weight, removed_live)) :=
    retain_live (count_removed (fun l => negb (released (live_key l)))) st
      (resident_bytes (totals e)) (0, 0) in
  let before := size (st_tombstones st) in
  let st := set_tombstones st (filter (fun kt => released kt.1 = false) (st_tombstones st)) in
  let removed_tombstones := Z.of_nat (before - size (st_tombstones st)) in
  let st := set_long_ttl st (filter (fun kt => released kt.1 = false) (st_long_ttl st)) in
  let e := with_totals (with_stripe e bucket st) (with_resident (totals e) resident) in
  let e := zero_digests e bucket (mask_has mask) (seqZ 0 PART_COUNT) in
  (with_totals e (move_totals (totals e) (- removed_weight) (- removed_live) 0),
   saturating_add (saturating_add removed_total removed_live) removed_tombstones).

Definition release_parts (e : Engine V) (parts : list PartId) : Engine V * Z :=
  foldl (fun acc bm =>
    if bm.2 =? u64_max then
      let (e, n) := release_buckets acc.1 [bm.1] in
      (e, saturating_add acc.2 n)
    else release_masked acc.1 acc.2 (Z.to_nat bm.1) bm.2) (e, 0) (map_to_list (part_masks parts)).

Definition held_parts (e : Engine V) : list PartId :=
  PartSet.iter
    (foldl (fun held st =>
       if bool_decide (length (st_live st) = 0)%nat && bool_decide (st_tombstones st = ∅) then held
       else
         let held := foldl (fun held l =>
           (PartSet.insert held (Pid.from_hash (hash_key_bytes (live_key l)))).1) held (st_live st) in
         foldl (fun held k => (PartSet.insert held (Pid.from_hash (hash_key_bytes k))).1)
           held ((map_to_list (st_tombstones st)).*1))
       PartSet.new (stripes e)).

(** ** One key *)

Lemma engine_record_insert (e e' : Engine V) idx st : engine_inv e -> (idx < Z.to_nat BUCKET_COUNT)%nat ->
  stripes e' = <[idx := st]> (stripes e) ->
  forall k, engine_record e' k = if decide (bucket_of_key k = idx) then stored_record st k
                                 else engine_record e k.
Proof.
  intros He Hlt Hs k. unfold engine_record.
  rewrite (stripe_at_insert e e' idx st) by (done || by rewrite (ei_stripes _ He)).
  by case_decide.
Qed.

(** [remove_live] and [account_removed] together: a live entry leaves without a trace. *)
Lemma depart_spec (e : Engine V) k : engine_inv e ->
  exists e1 removed, remove_live_at e k = (e1, removed) /\
    rl_ver <$> removed = live_ver <$> find_in (stripe_at e (bucket_of_key k)) k /\
    let e2 := match removed with Some r => account_removed e1 k r false | None => e1 end in
    engine_inv e2 /\
    forall k', engine_record e2 k' =
      if decide (k' = k /\ is_Some removed) then None else engine_record e k'.
Proof.
  intros He. pose proof (stripe_at_lookup e k He) as Hst.
  set (st := stripe_at e (bucket_of_key k)) in *. pose proof (ei_wf _ He _ _ Hst) as Hwf.
  unfold remove_live_at. fold st. destruct (find_in st k) as [l|] eqn:Ef; cycle 1.
  { assert (Hrm : remove_live st (resident_bytes (totals e)) k = (st, resident_bytes (totals e), None)).
    { unfold remove_live. unfold find_in, find_live in Ef.
      destruct (find_slot k (st_live st)) as [i|]; [|done]. cbn in *. by rewrite Ef. }
    rewrite Hrm. eexists _, None. split; [done|]. split; [done|]. cbv zeta.
    assert (Hs : stripes (with_stripe e (bucket_of_key k) st) = stripes e) by (cbn; by apply list_insert_id).
    split; [apply (engine_inv_ext e); try done; by destruct (totals e)|].
    intros k'. rewrite decide_False by (intros [_ []]; done).
    unfold engine_record, stripe_at. cbn in *. by rewrite Hs. }
  assert (Ht : st_tombstones st !! k = None).
  { apply find_live_Some in Ef as [Hl <-]. by apply (sw_disjoint _ _ Hwf). }
  destruct (remove_live_spec _ st (resident_bytes (totals e)) k Hwf Ht)
    as (st1 & -> & Hr & _ & _ & Hw & Hc). rewrite Ef in *. cbn in Hw, Hc |- *.
  pose proof (restricts_sets _ _ _ _ Hwf Hr) as Hs.
  eexists _, (Some _). split; [done|]. split; [done|]. cbv zeta. split.
  - apply (engine_inv_set e _ k None st st1); try done.
    + by apply (restricts_wf _ _ _ _ Hwf Hr).
    + by rewrite (sets_record_versions _ _ _ _ Hs).
    + cbn. rewrite versions_lookup, Ht, Ef. cbn. by rewrite Z.lxor_0_r.
    + apply totals_eq; cbn; rewrite ?move_resident_0; (lia || done).
  - intros k'. rewrite (engine_record_insert e _ (bucket_of_key k) st1) by (done || apply bucket_of_key_lt).
    destruct (decide (bucket_of_key k' = bucket_of_key k)) as [Hb|Hb].
    + rewrite (Hs k'). case_decide as Hk; [rewrite decide_True by (split; [done|eauto]); done|].
      rewrite decide_False by tauto. unfold engine_record. by rewrite Hb.
    + rewrite decide_False; [done|]. intros [-> _]. done.
Qed.

Lemma mark_invalidated_same (e : Engine V) k : engine_inv e ->
  engine_inv (mark_invalidated e k) /\ forall k', engine_record (mark_invalidated e k) k' = engine_record e k'.
Proof. intros He. split; [by apply (engine_inv_ext e)|done]. Qed.

Lemma versions_engine_record (e : Engine V) k :
  versions (stripe_at e (bucket_of_key k)) !! k = wr_ver <$> engine_record e k.
Proof. apply versions_record. Qed.

(** An invalidation removes exactly the live record older than it: the record under the key
    goes, and its version is returned, iff it is a live one strictly below the invalidation's
    version; every other record, the tombstones among them, stays, and digests and totals
    follow. *)
Theorem invalidate_exact (e : Engine V) (k : Bytes) (ver : Hlc) (Hinv : engine_inv e) :
  let (e', out) := invalidate e k ver in
  let goes := is_some_and (engine_record e k) (fun r => is_some (wr_value r) && hlc_ltb (wr_ver r) ver) in
  engine_inv e' /\ out = (if goes then wr_ver <$> engine_record e k else None) /\
  forall k', engine_record e' k' = if decide (k' = k /\ goes = true) then None else engine_record e k'.
Proof.
  unfold invalidate. set (st := stripe_at e (bucket_of_key k)).
  destruct (mark_invalidated_same e k Hinv) as [Hm Hmr].
  assert (Hgoes : is_some_and (engine_record e k) (fun r => is_some (wr_value r) && hlc_ltb (wr_ver r) ver) =
    match st_tombstones st !! k with
    | Some _ => false
    | None => is_some_and (live_ver <$> find_in st k) (fun v => hlc_ltb v ver)
    end).
  { unfold engine_record. fold st. unfold stored_record. destruct (st_tombstones st !! k); [done|].
    by destruct (find_in st k). }
  rewrite Hgoes. clear Hgoes.
  assert (Hstay : forall e' : Engine V, engine_inv e' -> (forall k', engine_record e' k' = engine_record e k') ->
    engine_inv e' /\ None = None (A:=Hlc) /\
    forall k', engine_record e' k' = if decide (k' = k /\ false = true) then None else engine_record e k').
  { intros e' He' Hr. split; [done|]. split; [done|]. intros k'. by rewrite decide_False by (by intros []). }
  destruct (st_tombstones st !! k) as [t|] eqn:Et; cbn [is_some negb andb].
  { destruct (is_some_and _ _); by apply Hstay. }
  destruct (find_in st k) as [l|] eqn:Ef; cbn [fmap option_fmap option_map is_some_and is_some negb];
    [|by apply Hstay].
  unfold hlc_leb. destruct (hlc_ltb (live_ver l) ver); cbn [negb]; [|by apply Hstay].
  destruct (depart_spec (mark_invalidated e k) k Hm) as (e1 & removed & -> & Hrm & He2 & Hrec).
  change (stripe_at (mark_invalidated e k) (bucket_of_key k)) with st in Hrm. rewrite Ef in Hrm.
  destruct removed as [r|]; [|done]. split; [done|]. split.
  - unfold engine_record. fold st. unfold stored_record. rewrite Et, Ef. cbn in *. congruence.
  - intros k'. rewrite Hrec, Hmr. destruct (decide (k' = k)) as [->|Hk].
    + by rewrite !decide_True by eauto.
    + by rewrite !decide_False by tauto.
Qed.

(** Whether a key has a live record. *)
Definition has_live (e : Engine V) (k : Bytes) : bool :=
  is_some_and (engine_record e k) (fun r => is_some (wr_value r)).

Lemma has_live_find (e : Engine V) k : engine_inv e ->
  has_live e k = is_some (find_in (stripe_at e (bucket_of_key k)) k).
Proof.
  intros He. unfold has_live, engine_record, stored_record.
  destruct (st_tombstones _ !! k) as [t|] eqn:Et; [|by destruct (find_in _ k)].
  by rewrite (tombstone_not_live (bucket_of_key k) _ k t) by (done || by apply (ei_wf _ He), stripe_at_lookup).
Qed.

Lemma invalidate_local_spec (e : Engine V) k : engine_inv e ->
  engine_inv (invalidate_local e k) /\
  forall k', engine_record (invalidate_local e k) k' =
    if decide (k' = k /\ has_live e k = true) then None else engine_record e k'.
Proof.
  intros He. destruct (mark_invalidated_same e k He) as [Hm Hmr]. unfold invalidate_local.
  destruct (depart_spec (mark_invalidated e k) k Hm) as (e1 & removed & -> & Hrm & He2 & Hrec).
  change (stripe_at (mark_invalidated e k) (bucket_of_key k)) with (stripe_at e (bucket_of_key k)) in Hrm.
  rewrite has_live_find by done.
  assert (Hsome : is_Some removed <-> is_some (find_in (stripe_at e (bucket_of_key k)) k) = true).
  { destruct (find_in _ k), removed; try done; cbn; split; (done || by intros [] || eauto). }
  assert (Hrec' : forall k', engine_record (match removed with Some r => account_removed e1 k r false | None => e1 end) k'
    = if decide (k' = k /\ is_some (find_in (stripe_at e (bucket_of_key k)) k) = true) then None
      else engine_record e k').
  { intros k'. rewrite Hrec, Hmr. apply decide_ext. by rewrite Hsome. }
  destruct removed as [r|]; done.
Qed.

(** ** Whole stripes *)

(** The slab's [retain] on a stripe, for a closure whose answer does not depend on what it has
    seen. *)
Lemma retain_live_spec {S} (f : S -> Live -> S * bool) (keep : Live -> bool) st r s :
  (forall s l, (f s l).2 = keep l) ->
  exists st' order, order ≡ₚ st_live st /\
    retain_live f st r s = (st', bytes_after r st st', foldl (fun s l => (f s l).1) s order) /\
    st' = set_live st (st_live st') /\ st_live st' ≡ₚ filter (fun l => keep l = true) (st_live st).
Proof.
  intros Hf. unfold retain_live. set (g := fun (rs : option Z * S) l => _).
  destruct (retain_spec g keep (st_live st) (r, s)) as (order & Ho & Hes & Hs).
  { intros [r' s'] l. unfold g. cbn. specialize (Hf s' l). destruct (f s' l); done. }
  destruct (retain g (st_live st) (r, s)) as [es [r' s']]. cbn in Hes, Hs.
  exists (set_live st es), order. split; [done|]. split; [|done].
  assert (Hfold : forall l (r : option Z) s, foldl (fun rs l => (g rs l).1) (r, s) l =
    (Z.add (- sum_Z (entry_bytes <$> filter (fun x => keep x = false) l)) <$> r,
     foldl (fun s l => (f s l).1) s l)).
  { clear -Hf. induction l as [|x l IH]; intros r s; cbn [foldl]; [by destruct r|].
    assert (Hg : (g (r, s) x).1 = (if keep x then r else (fun b => b - entry_bytes x) <$> r, (f s x).1)).
    { unfold g. cbn [fst snd]. specialize (Hf s x). destruct (f s x) as [s1 b]. cbn in *. by subst b. }
    rewrite Hg, IH, filter_cons. destruct (keep x); cbn [decide bool_eq_dec]; [done|].
    destruct (decide (false = false)); [|done]. rewrite fmap_cons, sum_Z_cons.
    destruct r; cbn; [|done]. do 2 f_equal. lia. }
  rewrite Hfold in Hs. injection Hs as -> ->. f_equal. f_equal. unfold bytes_after, stripe_bytes. cbn.
  rewrite (sum_Z_perm _ _ (fmap_Permutation entry_bytes _ _ Hes)).
  rewrite (sum_Z_perm _ _ (fmap_Permutation entry_bytes _ _ (filter_Permutation _ _ _ Ho))).
  rewrite sum_Z_partition. destruct r; cbn; [f_equal; lia|done].
Qed.

Lemma count_removed_fold keep l : forall w n,
  foldl (fun s l => (count_removed keep s l).1) (w, n) l =
  (w + sum_Z (lv_weight <$> filter (fun x => keep x = false) l),
   n + Z.of_nat (length (filter (fun x => keep x = false) l))).
Proof.
  induction l as [|x l IH]; intros w n; cbn [foldl].
  - change (filter _ []) with (@nil Live). cbn. f_equal; unfold sum_Z; cbn; lia.
  - unfold count_removed at 2. destruct (keep x) eqn:E; cbn [fst snd]; rewrite IH.
    + by rewrite filter_cons_False by congruence.
    + rewrite filter_cons_True, fmap_cons, sum_Z_cons by done. cbn [length]. f_equal; lia.
Qed.

(** [part_digest] looks at the part's keys alone. *)
Lemma part_digest_ext (p : Z) (m m' : gmap Bytes Hlc) :
  (forall k, part_of_key k = p -> m !! k = m' !! k) -> part_digest p m = part_digest p m'.
Proof.
  intros Hk. unfold part_digest. apply xor_list_perm, fmap_Permutation, NoDup_Permutation.
  - apply NoDup_filter, NoDup_map_to_list.
  - apply NoDup_filter, NoDup_map_to_list.
  - intros [k v]. rewrite !list_elem_of_filter, !elem_of_map_to_list. cbn.
    split; intros [Hp Hv]; (split; [done|]); [by rewrite <-Hk|by rewrite Hk].
Qed.

Lemma zero_digests_spec bucket f ps : forall (e : Engine V),
  (bucket < Z.to_nat BUCKET_COUNT)%nat -> length (digest e) = Z.to_nat PART_SPACE ->
  Forall (fun p => 0 <= p < PART_COUNT) ps ->
  let e' := zero_digests e bucket f ps in
  stripes e' = stripes e /\ totals e' = totals e /\ length (digest e') = length (digest e) /\
  forall idx p, 0 <= p < PART_COUNT -> digest_at e' (digest_slot (Z.of_nat idx) p) =
    if decide (idx = bucket /\ p ∈ ps /\ f p = true) then 0
    else digest_at e (digest_slot (Z.of_nat idx) p).
Proof.
  induction ps as [|q ps IH]; intros e Hb Hl Hps; cbv zeta; cbn [zero_digests foldl].
  - split_and!; try done. intros idx p Hp. rewrite decide_False; [done|].
    intros (_ & Hn & _). by apply not_elem_of_nil in Hn.
  - apply Forall_cons in Hps as [Hq Hps]. fold (zero_digests).
    set (e1 := if f q then _ else e).
    assert (H1 : stripes e1 = stripes e /\ totals e1 = totals e /\ length (digest e1) = length (digest e)).
    { unfold e1. destruct (f q); [|done]. cbn. split_and!; try done. by rewrite length_insert. }
    destruct H1 as (Hs1 & Ht1 & Hl1).
    destruct (IH e1 Hb ltac:(congruence) Hps) as (Hs & Ht & Hl' & Hd). unfold zero_digests in *.
    split_and!; [congruence..|]. intros idx p Hp. rewrite Hd by done.
    destruct (decide (idx = bucket /\ p ∈ ps /\ f p = true)) as [Hc|Hc].
    { rewrite decide_True; [done|]. destruct Hc as (? & ? & ?). split_and!; try done. by right. }
    unfold e1. destruct (f q) eqn:Hfq; cycle 1.
    { rewrite decide_False; [done|]. intros (? & [->|?]%elem_of_cons & ?); [congruence|tauto]. }
    rewrite (digest_at_insert 0 e _ (digest_slot (Z.of_nat bucket) q) _);
      [|apply digest_slot_nonneg; lia|apply digest_slot_nonneg; lia| |done].
    2: { rewrite Hl. pose proof (digest_slot_range (Z.of_nat bucket) q ltac:(lia) Hq). lia. }
    case_decide as Hsl.
    + apply digest_slot_inj in Hsl as [Hi ->]; [|done..]. rewrite decide_True; [done|].
      split_and!; [lia|by left|done].
    + rewrite decide_False; [done|]. intros (-> & [->|?]%elem_of_cons & ?); [done|tauto].
Qed.

Lemma zero_digests_totals bucket f ps : forall e : Engine V, totals (zero_digests e bucket f ps) = totals e.
Proof.
  induction ps as [|p ps IH]; intros e; [done|]. cbn [zero_digests foldl]. unfold zero_digests in IH.
  rewrite IH. by destruct (f p).
Qed.

Lemma with_totals_stripes (e : Engine V) t : stripes (with_totals e t) = stripes e.
Proof. done. Qed.

Lemma with_totals_digest (e : Engine V) t : digest (with_totals e t) = digest e.
Proof. done. Qed.

#[local] Opaque zero_digests.

(** A bucket gives up the parts [f] chooses, with their digests. *)
Lemma release_spec (e e0 e' : Engine V) bucket st st' f :
  engine_inv e -> stripes e !! bucket = Some st ->
  restricts (fun k => f (part_of_key k) = false) st st' ->
  stripes e0 = <[bucket := st']> (stripes e) -> digest e0 = digest e ->
  stripes e' = stripes (zero_digests e0 bucket f (seqZ 0 PART_COUNT)) ->
  digest e' = digest (zero_digests e0 bucket f (seqZ 0 PART_COUNT)) ->
  totals e' = totals_after (totals e) st st' ->
  engine_inv e' /\
  forall k, engine_record e' k =
    if decide (bucket_of_key k = bucket /\ f (part_of_key k) = true) then None else engine_record e k.
Proof.
  intros He Hst Hr Hs0 Hd0. set (e1 := zero_digests _ _ _ _). intros Hs Hd Ht. pose proof (ei_wf _ He _ _ Hst) as Hwf.
  pose proof (lookup_lt_Some _ _ _ Hst) as Hlt. rewrite (ei_stripes _ He) in Hlt.
  assert (Hps : Forall (fun p => 0 <= p < PART_COUNT) (seqZ 0 PART_COUNT)).
  { apply Forall_forall. intros p Hp%elem_of_seqZ. lia. }
  assert (Hl0 : length (digest e0) = Z.to_nat PART_SPACE) by (rewrite Hd0; apply He).
  destruct (zero_digests_spec bucket f (seqZ 0 PART_COUNT) e0 Hlt Hl0 Hps) as (Hs1 & _ & Hl1 & Hd1).
  fold e1 in Hs1, Hl1, Hd1. clearbody e1. rewrite Hs1, Hs0 in Hs.
  assert (Hdig : forall idx p, 0 <= p < PART_COUNT -> digest_at e' (digest_slot (Z.of_nat idx) p) =
    if decide (idx = bucket /\ f p = true) then 0 else digest_at e (digest_slot (Z.of_nat idx) p)).
  { intros idx p Hp. transitivity (digest_at e1 (digest_slot (Z.of_nat idx) p)).
    { unfold digest_at. by rewrite Hd. }
    assert (Hat : forall i, digest_at e0 i = digest_at e i) by (intros i; unfold digest_at; by rewrite Hd0).
    rewrite Hd1, Hat by done. apply decide_ext. rewrite elem_of_seqZ. intuition lia. }
  split.
  - apply (engine_inv_stripe e e' bucket st st'); try done.
    + by apply (restricts_wf _ _ _ _ Hwf Hr).
    + by rewrite Hd, Hl1, Hd0.
    + intros p Hp. rewrite Hdig by done. destruct (f p) eqn:Hf.
      * rewrite decide_True by done. rewrite (part_digest_ext p _ ∅); [by rewrite part_digest_empty|].
        intros k <-. rewrite lookup_empty, versions_record, (restricts_record _ _ _ _ Hwf Hr).
        by rewrite decide_False by congruence.
      * rewrite decide_False by (by intros []). rewrite (ei_match _ He _ _ Hst p Hp).
        apply part_digest_ext. intros k <-. rewrite !versions_record, (restricts_record _ _ _ _ Hwf Hr).
        by rewrite decide_True.
    + intros idx p Hne Hp. rewrite Hdig by done. by rewrite decide_False by (by intros []).
  - intros k. rewrite (engine_record_insert e e' bucket st') by done.
    destruct (decide (bucket_of_key k = bucket)) as [Hb|Hb]; [|by rewrite decide_False by tauto].
    rewrite (restricts_record _ _ _ _ Hwf Hr). unfold engine_record, stripe_at. rewrite Hb, Hst. cbn.
    destruct (f (part_of_key k)); [rewrite decide_False, decide_True by done; done|].
    rewrite decide_True, decide_False by (done || by intros []). done.
Qed.

Lemma release_bucket_spec (e : Engine V) n bucket : engine_inv e -> (bucket < Z.to_nat BUCKET_COUNT)%nat ->
  engine_inv (release_bucket e n bucket).1 /\
  forall k, engine_record (release_bucket e n bucket).1 k =
    if decide (bucket_of_key k = bucket) then None else engine_record e k.
Proof.
  intros He Hlt. unfold release_bucket.
  destruct (lookup_lt_is_Some_2 (stripes e) bucket) as [st Hst]; [by rewrite (ei_stripes _ He)|].
  assert (Hat : stripe_at e bucket = st) by (unfold stripe_at; by rewrite Hst). rewrite Hat.
  assert (Hfold : forall l w m, foldl (fun s x => (s.1 + lv_weight x, s.2 + 1)) (w, m) l =
    (w + sum_Z (lv_weight <$> l), m + Z.of_nat (length l))).
  { induction l as [|x l IH]; intros w m; cbn [foldl fst snd]; [unfold sum_Z; cbn; f_equal; lia|].
    rewrite IH, fmap_cons, sum_Z_cons. cbn [length]. f_equal; lia. }
  rewrite Hfold. set (st' := {| st_live := [] |}). set (e0 := with_totals (with_stripe e bucket st') _).
  pose proof (zero_digests_totals bucket (fun _ => true) (seqZ 0 PART_COUNT) e0) as Ht1.
  pose proof (release_spec e e0 (with_totals (zero_digests e0 bucket (fun _ => true) (seqZ 0 PART_COUNT))
    (totals_after (totals e) st st')) bucket st st' (fun _ => true) He Hst) as Hrel.
  assert (Hres : restricts (fun k => (fun _ : Z => true) (part_of_key k) = false) st st').
  { split; [|intros k; apply lookup_empty..|by right]. cbn [st_live st']. by rewrite filter_none. }
  destruct (Hrel Hres eq_refl eq_refl (with_totals_stripes _ _) (with_totals_digest _ _) eq_refl) as [H1 H2].
  cbn [fst]. rewrite Ht1. set (e1 := zero_digests e0 _ _ _) in *. clearbody e1.
  assert (Heq : move_totals (totals e0) (- (0 + sum_Z (lv_weight <$> st_live st)))
     (- (0 + Z.of_nat (length (st_live st)))) 0 = totals_after (totals e) st st').
  { apply totals_eq; cbn; unfold stripe_weight, stripe_count, stripe_bytes; cbn [st_live st']; cbn.
    - unfold sum_Z at 2. cbn. lia.
    - lia.
    - destruct (resident_bytes (totals e)); cbn; [|done]. f_equal. unfold sum_Z at 2. cbn. lia. }
  rewrite Heq. split; [done|]. intros k. rewrite H2. apply decide_ext. tauto.
Qed.

Lemma release_buckets_spec bs : forall (e : Engine V) n, engine_inv e -> Forall (fun b => 0 <= b) bs ->
  let e' := (foldl (fun acc b => if BUCKET_COUNT <=? b then acc
                                 else release_bucket acc.1 acc.2 (Z.to_nat b)) (e, n) bs).1 in
  engine_inv e' /\
  forall k, engine_record e' k = if decide (Z.of_nat (bucket_of_key k) ∈ bs) then None else engine_record e k.
Proof.
  induction bs as [|b bs IH]; intros e n He Hbs; cbn [foldl].
  { split; [done|]. intros k. by rewrite decide_False by apply not_elem_of_nil. }
  apply Forall_cons in Hbs as [Hb Hbs]. destruct (Z.leb_spec BUCKET_COUNT b) as [Hge|Hlt].
  - destruct (IH e n He Hbs) as [H1 H2]. split; [done|]. intros k. rewrite H2. apply decide_ext.
    rewrite elem_of_cons. pose proof (bucket_of_key_lt k). intuition lia.
  - destruct (release_bucket_spec e n (Z.to_nat b) He ltac:(lia)) as [He1 Hr1]. cbn [fst snd].
    destruct (release_bucket e n (Z.to_nat b)) as [e1 n1]. cbn [fst] in *.
    destruct (IH e1 n1 He1 Hbs) as [H1 H2]. split; [done|]. intros k. rewrite H2, Hr1.
    assert (Hkb : bucket_of_key k = Z.to_nat b <-> Z.of_nat (bucket_of_key k) = b) by lia.
    repeat case_decide; try done; exfalso; rewrite elem_of_cons in *; tauto.
Qed.

Lemma mask_has_testbit m p : 0 <= p -> mask_has m p = Z.testbit m p.
Proof. intros Hp. unfold mask_has. by rewrite PartSet.land_bit, negb_involutive. Qed.

Lemma filter_keys_lookup {A} (m : gmap Bytes A) (f : Bytes -> bool) k :
  filter (fun kt : Bytes * A => f kt.1 = false) m !! k = if decide (f k = false) then m !! k else None.
Proof.
  apply option_eq. intros x. rewrite map_lookup_filter_Some. cbn. case_decide; intuition congruence.
Qed.

Lemma release_masked_spec (e : Engine V) n bucket mask : engine_inv e -> (bucket < Z.to_nat BUCKET_COUNT)%nat ->
  engine_inv (release_masked e n bucket mask).1 /\
  forall k, engine_record (release_masked e n bucket mask).1 k =
    if decide (bucket_of_key k = bucket /\ mask_has mask (part_of_key k) = true) then None
    else engine_record e k.
Proof.
  intros He Hlt. unfold release_masked.
  destruct (lookup_lt_is_Some_2 (stripes e) bucket) as [st Hst]; [by rewrite (ei_stripes _ He)|].
  assert (Hat : stripe_at e bucket = st) by (unfold stripe_at; by rewrite Hst). rewrite Hat.
  set (keep := fun l => negb (mask_has mask (part_of_key (live_key l)))).
  destruct (retain_live_spec (count_removed keep) keep st (resident_bytes (totals e)) (0, 0))
    as (st1 & order & Ho & -> & Hst1 & Hl1).
  { intros s l. unfold count_removed. by destruct (keep l). }
  rewrite count_removed_fold. set (st' := set_long_ttl _ _).
  assert (Hres : restricts (fun k => mask_has mask (part_of_key k) = false) st st').
  { split; cbn [st' st_live st_tombstones st_long_ttl set_long_ttl set_tombstones st_next_expiry_ms].
    - rewrite Hl1. apply Permutation_refl'. apply filter_ext_in. intros l _. unfold keep.
      by destruct (mask_has _ _).
    - intros k. by rewrite (filter_keys_lookup _ (fun k => mask_has mask (part_of_key k))), Hst1.
    - intros k. by rewrite (filter_keys_lookup _ (fun k => mask_has mask (part_of_key k))), Hst1.
    - left. by rewrite Hst1. }
  set (e0 := with_totals (with_stripe e bucket st') _).
  pose proof (zero_digests_totals bucket (mask_has mask) (seqZ 0 PART_COUNT) e0) as Ht1.
  pose proof (release_spec e e0 (with_totals (zero_digests e0 bucket (mask_has mask) (seqZ 0 PART_COUNT))
    (totals_after (totals e) st st')) bucket st st' (mask_has mask) He Hst Hres) as Hrel.
  destruct (Hrel eq_refl eq_refl (with_totals_stripes _ _) (with_totals_digest _ _) eq_refl) as [H1 H2].
  cbn [fst]. rewrite Ht1. set (e1 := zero_digests e0 _ _ _) in *. clearbody e1.
  match goal with |- engine_inv (with_totals e1 ?t) /\ _ =>
    assert (Heq : t = totals_after (totals e) st st'); [|by rewrite Heq] end.
  assert (Hdrop : filter (fun x => keep x = false) order ≡ₚ filter (fun x => keep x = false) (st_live st))
    by (by rewrite Ho).
  assert (Hlive : st_live st' = st_live st1) by done.
  apply totals_eq; cbn [move_totals totals_after total_weight live_count resident_bytes totals e0
    with_totals with_resident]; unfold stripe_weight, stripe_count; rewrite ?Hlive.
  - rewrite (sum_Z_perm _ _ (fmap_Permutation lv_weight _ _ Hdrop)), sum_Z_partition.
    rewrite (sum_Z_perm _ _ (fmap_Permutation lv_weight _ _ Hl1)). lia.
  - rewrite (Permutation_length Hdrop), (Permutation_length Hl1).
    pose proof (Permutation_length (filter_partition_perm keep (st_live st))) as Hlen.
    rewrite length_app in Hlen. lia.
  - by rewrite move_resident_0.
Qed.

(** ** Parts *)

Lemma part_masks_snoc ps p : part_masks (ps ++ [p]) =
  <[Pid.bucket p := Z.lor (default 0 (part_masks ps !! Pid.bucket p)) (Z.shiftl 1 (Pid.part p))]> (part_masks ps).
Proof. unfold part_masks. by rewrite foldl_app. Qed.

Lemma u16_part_range p : is_u16 p -> 0 <= Pid.bucket p < 1024 /\ 0 <= Pid.part p < 64.
Proof. rewrite Pid.bucket_mod, Pid.part_div. intros. split; dlia. Qed.

Lemma part_masks_spec ps : Forall is_u16 ps ->
  (forall b m, part_masks ps !! b = Some m -> 0 <= b < 1024 /\ is_u64 m) /\
  forall b q, 0 <= q < 64 -> (Z.testbit (default 0 (part_masks ps !! b)) q = true <->
    exists p, p ∈ ps /\ Pid.bucket p = b /\ Pid.part p = q).
Proof.
  induction ps as [|p ps IH] using rev_ind.
  { intros _. split; [done|]. intros b q Hq.
    change (part_masks [] !! b) with (@None Z). cbn. rewrite Z.bits_0. split; [done|]. intros (p & Hp & _). by apply not_elem_of_nil in Hp. }
  intros [Hps Hp]%Forall_app. apply Forall_cons in Hp as [Hp _]. destruct (IH Hps) as [IH1 IH2].
  pose proof (u16_part_range p Hp) as [Hb Hq]. rewrite part_masks_snoc. split.
  - intros b m. rewrite lookup_insert_Some. intros [[<- <-]|[_ Hm]]; [|by apply IH1].
    split; [done|]. apply PartSet.setbit_u64; [|done].
    destruct (part_masks ps !! Pid.bucket p) eqn:E; [apply (IH1 _ _ E)|]. cbn. ulia.
  - intros b q Hq'. destruct (decide (b = Pid.bucket p)) as [->|Hne].
    + rewrite lookup_insert_eq. cbn [default from_option id]. rewrite Z.lor_spec, orb_true_iff, IH2 by done.
      rewrite Z.shiftl_spec by lia. setoid_rewrite elem_of_app. setoid_rewrite list_elem_of_singleton.
      split.
      * intros [(p' & ? & ? & ?)|Hbit]; [eauto 6|]. exists p. split; [by right|]. split; [done|].
        rewrite (Z.pow2_bits_eqb 0) in Hbit by lia. lia.
      * intros (p' & [?| ->] & ? & <-); [left; eauto|right]. by rewrite Z.sub_diag.
    + rewrite lookup_insert_ne, IH2 by done. setoid_rewrite elem_of_app. setoid_rewrite list_elem_of_singleton.
      split; [intros (p' & ? & ? & ?); eauto 6|]. intros (p' & [?| ->] & ? & ?); [eauto|congruence].
Qed.

(** Whether a list of bucket masks releases a key. *)
Definition masks_release (l : list (Z * Z)) (k : Bytes) : bool :=
  existsb (fun bm => (Z.of_nat (bucket_of_key k) =? bm.1) && mask_has bm.2 (part_of_key k)) l.

Lemma full_mask_has p : 0 <= p < PART_COUNT -> mask_has u64_max p = true.
Proof.
  intros Hp. rewrite mask_has_testbit by lia. change u64_max with (Z.ones 64).
  apply Z.ones_spec_low. unfold PART_COUNT in Hp. lia.
Qed.

Lemma release_masks_spec l : forall (e : Engine V) n, engine_inv e -> Forall (fun bm => 0 <= bm.1 < 1024) l ->
  let e' := (foldl (fun acc (bm : Z * Z) =>
    if bm.2 =? u64_max then
      let (e, n) := release_buckets acc.1 [bm.1] in (e, saturating_add acc.2 n)
    else release_masked acc.1 acc.2 (Z.to_nat bm.1) bm.2) (e, n) l).1 in
  engine_inv e' /\
  forall k, engine_record e' k = if masks_release l k then None else engine_record e k.
Proof.
  induction l as [|[b m] l IH]; intros e n He Hl; cbn [foldl]; [done|].
  apply Forall_cons in Hl as [Hb Hl]. cbn [fst snd] in *.
  assert (Hstep : exists e1 n1,
    (if m =? u64_max then let (e0, n0) := release_buckets e [b] in (e0, saturating_add n n0)
     else release_masked e n (Z.to_nat b) m) = (e1, n1) /\ engine_inv e1 /\
    forall k, engine_record e1 k = if (Z.of_nat (bucket_of_key k) =? b) && mask_has m (part_of_key k)
                                   then None else engine_record e k).
  { destruct (Z.eqb_spec m u64_max) as [->|Hm].
    - destruct (release_buckets_spec [b] e 0 He) as [H1 H2]; [by repeat constructor; lia|].
      fold (release_buckets e [b]) in H1, H2. destruct (release_buckets e [b]) as [e1 n1]. cbn [fst] in *.
      eexists _, _. split; [done|]. split; [done|]. intros k. rewrite H2, full_mask_has by apply part_of_key_range.
      rewrite andb_true_r. case_decide as Hk; rewrite list_elem_of_singleton in Hk; bcase; (done || lia).
    - destruct (release_masked_spec e n (Z.to_nat b) m He ltac:(unfold BUCKET_COUNT; lia)) as [H1 H2].
      destruct (release_masked e n (Z.to_nat b) m) as [e1 n1]. cbn [fst] in *.
      eexists _, _. split; [done|]. split; [done|]. intros k. rewrite H2.
      case_decide as Hk; destruct (Z.eqb_spec (Z.of_nat (bucket_of_key k)) b), (mask_has m (part_of_key k)); cbn;
        try done; exfalso; [destruct Hk; lia..|apply Hk; split; [lia|done]]. }
  destruct Hstep as (e1 & n1 & -> & He1 & Hr1). destruct (IH e1 n1 He1 Hl) as [H1 H2].
  split; [done|]. intros k. rewrite H2, Hr1. cbn [masks_release existsb fst snd].
  unfold masks_release. destruct (_ && _); cbn; [by destruct (existsb _ _)|done].
Qed.

Lemma key_part_id k p : is_u16 p ->
  Pid.bucket p = Z.of_nat (bucket_of_key k) -> Pid.part p = part_of_key k ->
  p = Pid.from_hash (hash_key_bytes k).
Proof.
  intros Hp Hb Hq. destruct (Pid.from_hash_slots (hash_key_bytes k)) as [H1 H2].
  rewrite <-(Pid.new_bucket_part p Hp), <-(Pid.new_bucket_part (Pid.from_hash (hash_key_bytes k))) by apply Pid.from_hash_u16.
  rewrite Hb, Hq, H1, H2. unfold bucket_of_key, part_of_key.
  pose proof (stripe_index_range (hash_key_bytes k)). by rewrite Z2Nat.id by lia.
Qed.

(** Releasing parts drops exactly the records whose key hashes into one of them, live or
    tombstone, and no other; the part digests, the weight, the count and the resident bytes
    follow, whether a bucket is released whole or in part. *)
Theorem release_parts_exact (e : Engine V) (parts : list PartId)
  (Hinv : engine_inv e) (Hparts : Forall is_u16 parts) :
  engine_inv (release_parts e parts).1 /\
  forall k, engine_record (release_parts e parts).1 k =
    if decide (Pid.from_hash (hash_key_bytes k) ∈ parts) then None else engine_record e k.
Proof.
  destruct (part_masks_spec parts Hparts) as [Hm1 Hm2].
  destruct (release_masks_spec (map_to_list (part_masks parts)) e 0 Hinv) as [H1 H2].
  { apply Forall_forall. intros [b m] Hbm%elem_of_map_to_list. apply (Hm1 _ _ Hbm). }
  split; [done|]. intros k. unfold release_parts. rewrite H2.
  assert (Hk : masks_release (map_to_list (part_masks parts)) k = true <->
               Pid.from_hash (hash_key_bytes k) ∈ parts).
  { unfold masks_release. rewrite existsb_exists. pose proof (part_of_key_range k) as Hr.
    destruct (Pid.from_hash_slots (hash_key_bytes k)) as [Hfb Hfp].
    pose proof (stripe_index_range (hash_key_bytes k)) as Hsr.
    assert (Hkb : Z.of_nat (bucket_of_key k) = Pid.bucket (Pid.from_hash (hash_key_bytes k)))
      by (rewrite Hfb; unfold bucket_of_key; lia). split.
    - intros ([b m] & Hin & Hb). cbn in Hb. bsplit. subst b.
      apply list_elem_of_In, elem_of_map_to_list in Hin.
      rewrite mask_has_testbit in * by lia.
      destruct (proj1 (Hm2 (Z.of_nat (bucket_of_key k)) (part_of_key k) Hr)) as (p & Hp & Hpb & Hpp).
      { by rewrite Hin. }
      rewrite <-(key_part_id k p); try done. by apply (proj1 (Forall_forall _ _) Hparts).
    - intros Hin. specialize (Hm2 (Z.of_nat (bucket_of_key k)) (part_of_key k) Hr).
      assert (Hbit : Z.testbit (default 0 (part_masks parts !! Z.of_nat (bucket_of_key k))) (part_of_key k) = true).
      { apply Hm2. eauto. }
      destruct (part_masks parts !! Z.of_nat (bucket_of_key k)) as [m|] eqn:Em; [|by rewrite Z.bits_0 in Hbit].
      exists (Z.of_nat (bucket_of_key k), m). split; [by apply list_elem_of_In, elem_of_map_to_list|].
      cbn in *. rewrite Z.eqb_refl, mask_has_testbit by lia. done. }
  destruct (masks_release _ k) eqn:E.
  - by rewrite decide_True by (by apply Hk).
  - rewrite decide_False; [done|]. intros Hin. apply Hk in Hin. congruence.
Qed.

(** Every key a stripe stores, live or tombstoned. *)
Definition stored_keys (st : Stripe) : list Bytes :=
  (live_key <$> st_live st) ++ (map_to_list (st_tombstones st)).*1.

Lemma stored_keys_record st k : k ∈ stored_keys st <-> is_Some (stored_record st k).
Proof.
  unfold stored_keys, stored_record, find_in. rewrite elem_of_app, list_elem_of_fmap.
  assert (Ht : k ∈ (map_to_list (st_tombstones st)).*1 <-> is_Some (st_tombstones st !! k)).
  { rewrite list_elem_of_fmap. split.
    - intros ([k' t] & -> & Hin%elem_of_map_to_list). cbn. eauto.
    - intros [t Hin]. exists (k, t). split; [done|]. by apply elem_of_map_to_list. }
  rewrite Ht. destruct (st_tombstones st !! k) as [t|]; [split; eauto|].
  destruct (find_live k (st_live st)) as [l|] eqn:E; cbn.
  - apply find_live_Some in E as [Hl <-]. split; [eauto|]. intros _. left. eauto.
  - apply find_live_None in E. rewrite list_elem_of_fmap in E.
    split; [intros [Hl|[]]; [by destruct E|done]|by intros []].
Qed.

Lemma insert_keys_spec {A} (key : A -> Bytes) l : forall held, PartSet.wf held ->
  let held' := foldl (fun held x => (PartSet.insert held (Pid.from_hash (hash_key_bytes (key x)))).1) held l in
  PartSet.wf held' /\ forall p, is_u16 p -> (PartSet.member held' p <->
    PartSet.member held p \/ exists x, x ∈ l /\ p = Pid.from_hash (hash_key_bytes (key x))).
Proof.
  induction l as [|x l IH]; intros held Hw; cbn [foldl].
  { split; [done|]. intros p Hp. split; [by left|]. intros [?|(x & Hx & _)]; [done|].
    by apply not_elem_of_nil in Hx. }
  pose proof (PartSet.insert_spec held (Pid.from_hash (hash_key_bytes (key x))) Hw (Pid.from_hash_u16 _)) as Hi.
  destruct (PartSet.insert held _) as [h1 fresh]. destruct Hi as (Hw1 & _ & Hm1). cbn [fst].
  destruct (IH h1 Hw1) as [Hw2 Hm2]. split; [done|]. intros p Hp. rewrite Hm2, Hm1 by done.
  setoid_rewrite elem_of_cons. split.
  - intros [[?|?]|(y & ? & ?)]; eauto.
  - intros [?|(y & [->|?] & ?)]; eauto.
Qed.

Lemma held_fold_spec sts : forall held, PartSet.wf held ->
  let held' := foldl (fun held st =>
       if bool_decide (length (st_live st) = 0)%nat && bool_decide (st_tombstones st = ∅) then held
       else
         let held := foldl (fun held l =>
           (PartSet.insert held (Pid.from_hash (hash_key_bytes (live_key l)))).1) held (st_live st) in
         foldl (fun held k => (PartSet.insert held (Pid.from_hash (hash_key_bytes k))).1)
           held ((map_to_list (st_tombstones st)).*1)) held sts in
  PartSet.wf held' /\ forall p, is_u16 p -> (PartSet.member held' p <->
    PartSet.member held p \/
    exists st k, st ∈ sts /\ k ∈ stored_keys st /\ p = Pid.from_hash (hash_key_bytes k)).
Proof.
  induction sts as [|st sts IH]; intros held Hw; cbn [foldl].
  { split; [done|]. intros p Hp. split; [by left|]. intros [?|(st & k & Hx & _)]; [done|].
    by apply not_elem_of_nil in Hx. }
  match goal with |- context [foldl ?f ?h1 sts] => set (held1 := h1);
    assert (H1 : PartSet.wf held1 /\ forall p, is_u16 p -> (PartSet.member held1 p <->
      PartSet.member held p \/ exists k, k ∈ stored_keys st /\ p = Pid.from_hash (hash_key_bytes k))) end.
  { unfold held1, stored_keys. destruct (bool_decide _ && bool_decide _) eqn:E.
    - apply andb_true_iff in E as [Hl%bool_decide_eq_true Ht%bool_decide_eq_true].
      apply nil_length_inv in Hl. rewrite Hl, Ht, map_to_list_empty. split; [done|]. intros p Hp.
      split; [by left|]. intros [?|(k & Hk & _)]; [done|]. by apply not_elem_of_nil in Hk.
    - cbv zeta. destruct (insert_keys_spec live_key (st_live st) held Hw) as [Hw1 Hm1].
      destruct (insert_keys_spec id ((map_to_list (st_tombstones st)).*1) _ Hw1) as [Hw2 Hm2].
      cbn [id] in *. split; [done|]. intros p Hp. rewrite Hm2, Hm1 by done.
      setoid_rewrite elem_of_app. setoid_rewrite list_elem_of_fmap. split.
      + intros [[?|(l & ? & ?)]|(k & ? & ?)]; eauto 7. 
      + intros [?|(k & [(l & -> & ?)|?] & ?)]; eauto 7. }
  destruct H1 as [Hw1 Hm1]. destruct (IH held1 Hw1) as [Hw2 Hm2]. split; [done|]. intros p Hp.
  rewrite Hm2, Hm1 by done. setoid_rewrite elem_of_cons. split.
  - intros [[?|(k & ? & ?)]|(st' & k & ? & ? & ?)]; eauto 8.
  - intros [?|(st' & k & [->|?] & ? & ?)]; eauto 8.
Qed.

(** [held_parts] lists each part the engine stores a record in, once, and no other. *)
Theorem held_parts_exact (e : Engine V) (Hinv : engine_inv e) :
  NoDup (held_parts e) /\
  forall p, p ∈ held_parts e <->
    exists k, is_Some (engine_record e k) /\ p = Pid.from_hash (hash_key_bytes k).
Proof.
  assert (Hw0 : PartSet.wf PartSet.new) by (apply PartSet.zero_words_wf; vm_compute; reflexivity).
  destruct (held_fold_spec (stripes e) PartSet.new Hw0) as [Hw Hm].
  split; [by apply PartSet.iter_NoDup|]. intros p. unfold held_parts.
  assert (Hstripe : forall k, (exists st, st ∈ stripes e /\ k ∈ stored_keys st) <-> is_Some (engine_record e k)).
  { intros k. unfold engine_record. setoid_rewrite stored_keys_record. split.
    - intros (st & [idx Hst]%list_elem_of_lookup & Hk).
      assert (Hb : bucket_of_key k = idx).
      { apply (sw_bucket _ _ (ei_wf _ Hinv _ _ Hst)). rewrite versions_record. by apply fmap_is_Some. }
      unfold stripe_at. by rewrite Hb, Hst.
    - intros Hk. exists (stripe_at e (bucket_of_key k)). split; [|done].
      eapply list_elem_of_lookup_2. by apply stripe_at_lookup. }
  assert (Hu : p ∈ PartSet.iter (foldl _ PartSet.new (stripes e)) -> is_u16 p) by (by apply PartSet.iter_u16).
  split.
  - intros Hp. specialize (Hu Hp). apply PartSet.member_in_space, Hm in Hp as [Hn|(st & k & Hst & Hk & ->)]; try done.
    + by apply PartSet.zero_words_member in Hn.
    + exists k. split; [|done]. apply Hstripe. eauto.
  - intros (k & (st & Hst & Hk)%Hstripe & ->). apply PartSet.member_in_space; [done|apply Pid.from_hash_u16|].
    apply Hm; [apply Pid.from_hash_u16|]. right. eauto.
Qed.

End Removal.

(** ** Concrete runs *)

(** Two keys written, one deleted. *)
Definition small_engine : Engine Bytes :=
  run_writes LwwResolver empty_engine
    [put_at [1] [10] 500 1; put_at [2] [20] 600 2; delete_at [3] 700 1].

Lemma small_engine_inv : engine_inv small_engine.
Proof.
  apply run_writes_inv; [apply engine_new_inv|]. repeat constructor; vm_compute; discriminate.
Qed.

Lemma invalidate_exact_witness :
  (invalidate small_engine [1] (stamp 900 3)).2 = Some (stamp 500 1) /\
  (invalidate small_engine [3] (stamp 900 3)).2 = None /\
  engine_inv (invalidate small_engine [1] (stamp 900 3)).1.
Proof.
  split; [vm_compute; reflexivity|]. split; [vm_compute; reflexivity|].
  pose proof (invalidate_exact small_engine [1] (stamp 900 3) small_engine_inv) as H.
  destruct (invalidate small_engine [1] (stamp 900 3)). exact (proj1 H).
Defined.

Lemma release_parts_exact_witness :
  let parts := [Pid.from_hash (hash_key_bytes [1])] in
  engine_record (release_parts small_engine parts).1 [1] = None /\
  engine_record (release_parts small_engine parts).1 [2] = engine_record small_engine [2].
Proof.
  assert (Hp : Forall is_u16 [Pid.from_hash (hash_key_bytes [1])])
    by (repeat constructor; vm_compute; discriminate).
  destruct (release_parts_exact small_engine _ small_engine_inv Hp) as [_ H].
  cbv zeta. split; rewrite H.
  - rewrite decide_True; [reflexivity|]. apply list_elem_of_singleton. reflexivity.
  - rewrite decide_False; [reflexivity|]. rewrite list_elem_of_singleton. vm_compute. discriminate.
Defined.

Lemma held_parts_exact_witness :
  Pid.from_hash (hash_key_bytes [3]) ∈ held_parts small_engine.
Proof.
  apply (proj2 (held_parts_exact small_engine small_engine_inv)). exists [3].
  split; [|reflexivity]. vm_compute. eexists. reflexivity.
Defined.
