(* ===== verification/Housekeeping.v ===== *)
(** * Housekeeping

    [store/engine/housekeeping.rs]: tombstone collection with the pause guard, the sweep of
    lapsed entries, the rotating compaction scan and its conditional replacement. *)

From S2P Require Import Prelude Clock Part Types Record Expiry Wire Merge Arena Engine Apply Removal.

(** ** Definitions *)

Section Housekeeping.
Context {PU : PostcardU32} {HS : Hashing} {V : Type}.

(** *** Tombstone collection *)

Definition collects (defer : bool) (now_ms : Z) (t : Tombstone) : bool :=
  let past_ttl := ts_ttl_deadline_ms t <=? now_ms in
  let past_max := ts_max_deadline_ms t <=? now_ms in
  past_ttl && (negb defer || past_max).

(** [tombstones.retain] on one stripe: a collected tombstone leaves with its fingerprint. *)
Definition gc_entry (defer : bool) (now_ms : Z) (idx : nat) (e : Engine V) (kt : Bytes * Tombstone) :
    Engine V :=
  if collects defer now_ms kt.2 then
    let e := fetch_xor e (digest_slot (Z.of_nat idx) (part_of_key kt.1))
               (entry_fingerprint kt.1 (ts_ver kt.2)) in
    with_stripe e idx
      (set_tombstones (stripe_at e idx) (delete kt.1 (st_tombstones (stripe_at e idx))))
  else e.

Definition gc_stripe (defer : bool) (now_ms : Z) (e : Engine V) (idx : nat) : Engine V :=
  foldl (gc_entry defer now_ms idx) e (map_to_list (st_tombstones (stripe_at e idx))).

Definition gc_decision (e : Engine V) (defer : bool) (now_ms tombstone_ttl_ms : Z) :
    GcState * bool * option Z :=
  let g := gc e in
  if pause_guard (cfg e) then
    let prior := last_gc_ms g in
    let paused := paused_since prior now_ms tombstone_ttl_ms in
    let hold := pause_hold_until_ms g in
    let (effective, entered) := gc_defer_decision defer paused hold now_ms in
    ({| gc_deferring := effective; last_gc_ms := Z.max now_ms 1;
        pause_hold_until_ms := pause_hold_after hold paused now_ms tombstone_ttl_ms |},
     effective, if entered then Some (saturating_sub now_ms prior) else None)
  else
    ({| gc_deferring := defer; last_gc_ms := last_gc_ms g;
        pause_hold_until_ms := pause_hold_until_ms g |}, defer, None).

Definition gc_tombstones (e : Engine V) (defer : bool) (now_ms tombstone_ttl_ms : Z) :
    Engine V * option Z :=
  let '(g, defer, entered_hold_gap) := gc_decision e defer now_ms tombstone_ttl_ms in
  (foldl (gc_stripe defer now_ms) (with_gc e g) (seq 0 (length (stripes e))), entered_hold_gap).

(** *** The sweep *)

Record SweepAcc := {
  sa_engine : Engine V;
  sa_weight : Z;
  sa_count : Z;
  sa_next : Z;
  sa_cleared : list Bytes;
  sa_expired : list (Bytes * Hlc * Z);
}.

(** The [retain] closure: it reads the stripe's long deadlines and moves the engine's digests. *)
Definition sweep_entry (self : Engine V) (idx : nat) (now_ms : Z) (retention : option Z) (long_ttl : gmap Bytes Z)
    (a : SweepAcc) (l : Live) : SweepAcc * bool :=
  let e := sa_engine a in
  let key_bytes := live_key l in
  let expires_at_ms := decode_expiry (lv_wall_ms l) (lv_expiry l) key_bytes long_ttl in
  let absent := is_absent self l key_bytes long_ttl now_ms in
  let fate := sweep_fate absent expires_at_ms now_ms (is_some retention) in
  match fate with
  | FKeep =>
      ({| sa_engine := e; sa_weight := sa_weight a; sa_count := sa_count a;
          sa_next := match expires_at_ms with
                     | Some exp => Z.min (sa_next a) exp
                     | None => sa_next a
                     end;
          sa_cleared := sa_cleared a; sa_expired := sa_expired a |}, true)
  | _ =>
      let (e, expired) :=
        match fate, expires_at_ms with
        | FTombstone, Some lapsed_at =>
            (e, sa_expired a ++ [(key_bytes, live_ver l, lapsed_at)])
        | _, _ =>
            (fetch_xor e (digest_slot (Z.of_nat idx) (part_of_key key_bytes))
               (entry_fingerprint key_bytes (live_ver l)), sa_expired a)
        end in
      ({| sa_engine := e; sa_weight := sa_weight a + lv_weight l; sa_count := sa_count a + 1;
          sa_next := sa_next a;
          sa_cleared := if lv_expiry l =? LONG_TTL then sa_cleared a ++ [key_bytes]
                        else sa_cleared a;
          sa_expired := expired |}, false)
  end.

Definition swept_tombstone (now_ms retention : Z) (ver : Hlc) (lapsed_at : Z) : Tombstone :=
  let (ttl_deadline_ms, max_deadline_ms) := swept_tombstone_deadlines lapsed_at now_ms retention in
  {| ts_ver := ver; ts_ttl_deadline_ms := ttl_deadline_ms; ts_max_deadline_ms := max_deadline_ms;
     ts_expired_at_ms := Some lapsed_at |}.

Definition sweep_stripe (now_ms : Z) (retention : option Z) (e : Engine V) (idx : nat) : Engine V :=
  let st := stripe_at e idx in
  let due := st_next_expiry_ms st <=? now_ms in
  if negb due && negb (is_some (tti_ms (cfg e))) then e
  else
    let acc0 := {| sa_engine := e; sa_weight := 0; sa_count := 0; sa_next := u64_max;
                   sa_cleared := []; sa_expired := [] |} in
    let '(st, resident, a) :=
      retain_live (sweep_entry e idx now_ms retention (st_long_ttl st)) st
        (resident_bytes (totals e)) acc0 in
    let st := foldl (fun st k => set_long_ttl st (delete k (st_long_ttl st))) st (sa_cleared a) in
    let st :=
      match retention with
      | Some retention =>
          foldl (fun st x => let '(key_bytes, ver, lapsed_at) := x in
            set_tombstones st
              (<[key_bytes := swept_tombstone now_ms retention ver lapsed_at]> (st_tombstones st)))
            st (sa_expired a)
      | None => st
      end in
    let st := set_next_expiry st (sa_next a) in
    let e := with_stripe (sa_engine a) idx st in
    with_totals e (move_totals (with_resident (totals e) resident) (- sa_weight a) (- sa_count a) 0).

Definition sweep (e : Engine V) (now_ms : Z) (expiry_tombstones : option Z) : Engine V :=
  foldl (sweep_stripe now_ms expiry_tombstones) e (seq 0 (length (stripes e))).

(** ** Collection *)

Definition tombstone_of (e : Engine V) (k : Bytes) : option Tombstone :=
  st_tombstones (stripe_at e (bucket_of_key k)) !! k.

Definition gc_drop (e : Engine V) (k : Bytes) (t : Tombstone) : Engine V :=
  let idx := bucket_of_key k in
  let e := fetch_xor e (slot_of_key k) (entry_fingerprint k (ts_ver t)) in
  with_stripe e idx (set_tombstones (stripe_at e idx) (delete k (st_tombstones (stripe_at e idx)))).

(** A tombstone leaves the engine with its fingerprint. *)
Lemma gc_drop_spec (e : Engine V) k t : engine_inv e -> tombstone_of e k = Some t ->
  engine_inv (gc_drop e k t) /\
  (forall k', engine_record (gc_drop e k t) k' = if decide (k' = k) then None else engine_record e k') /\
  forall k', tombstone_of (gc_drop e k t) k' = if decide (k' = k) then None else tombstone_of e k'.
Proof.
  intros He Ht. pose proof (stripe_at_lookup e k He) as Hst. unfold tombstone_of in Ht.
  set (st := stripe_at e (bucket_of_key k)) in *. pose proof (ei_wf _ He _ _ Hst) as Hwf.
  pose proof (tombstone_not_live _ _ _ _ Hwf Ht) as Hf.
  pose proof (delete_tombstone_restricts _ _ _ Hwf Hf) as Hr.
  set (st' := set_tombstones st (delete k (st_tombstones st))) in *.
  pose proof (restricts_sets _ _ _ _ Hwf Hr) as Hs.
  assert (Hstripes : stripes (gc_drop e k t) = <[bucket_of_key k := st']> (stripes e)) by done.
  split; [|split].
  - apply (engine_inv_set e _ k None st st'); try done.
    + by apply (restricts_wf _ _ _ _ Hwf Hr).
    + by rewrite (sets_record_versions _ _ _ _ Hs).
    + cbn. rewrite versions_lookup, Ht. cbn. by rewrite Z.lxor_0_r.
    + apply totals_eq; unfold stripe_weight, stripe_count, stripe_bytes; cbn; [lia..|].
      rewrite Z.sub_diag. by rewrite move_resident_0.
  - intros k'. rewrite (engine_record_insert e _ _ st' He (bucket_of_key_lt k) Hstripes).
    destruct (decide (bucket_of_key k' = bucket_of_key k)) as [Hb|Hb].
    + rewrite (Hs k'). unfold engine_record. by rewrite Hb.
    + rewrite decide_False by congruence. done.
  - intros k'. unfold tombstone_of.
    rewrite (stripe_at_insert e _ _ st') by (done || by eapply lookup_lt_Some).
    destruct (decide (bucket_of_key k' = bucket_of_key k)) as [Hb|Hb].
    + cbn. rewrite Hb. fold st. case_decide; subst; [by rewrite lookup_delete_eq|by rewrite lookup_delete_ne].
    + rewrite decide_False by congruence. done.
Qed.

Lemma gc_stripe_fold defer now idx l : forall e : Engine V, engine_inv e -> NoDup l.*1 ->
  (forall k t, (k, t) ∈ l -> bucket_of_key k = idx /\ tombstone_of e k = Some t) ->
  let e' := foldl (gc_entry defer now idx) e l in
  let gone k := exists t, (k, t) ∈ l /\ collects defer now t = true in
  engine_inv e' /\ length (stripes e') = length (stripes e) /\
  forall k, (gone k -> engine_record e' k = None /\ tombstone_of e' k = None) /\
            (~ gone k -> engine_record e' k = engine_record e k /\ tombstone_of e' k = tombstone_of e k).
Proof.
  induction l as [|[k t] l IH]; intros e He Hnd Hl; cbn [foldl fst snd].
  { split; [done|]. split; [done|]. intros k. split; [|done]. intros (t & Hn & _). by apply not_elem_of_nil in Hn. }
  cbn in Hnd. apply NoDup_cons in Hnd as [Hk Hnd]. destruct (Hl k t) as [Hb Ht]; [by left|].
  assert (Hother : forall k' t', (k', t') ∈ l -> k' <> k).
  { intros k' t' Hin ->. apply Hk, list_elem_of_fmap. by exists (k, t'). }
  destruct (collects defer now t) eqn:Ec.
  - destruct (gc_drop_spec e k t He Ht) as (He1 & Hr1 & Ht1).
    assert (Hstep : gc_entry defer now idx e (k, t) = gc_drop e k t).
    { unfold gc_entry, gc_drop. cbn [fst snd]. by rewrite Ec, slot_of_key_bucket, Hb. }
    assert (Hlen1 : length (stripes (gc_drop e k t)) = length (stripes e)) by apply length_insert.
    rewrite Hstep. set (e1 := gc_drop e k t) in *. clearbody e1.
    destruct (IH e1 He1 Hnd) as (He2 & Hlen & Hrec).
    { intros k' t' Hin. destruct (Hl k' t') as [? ?]; [by right|]. split; [done|].
      rewrite Ht1, decide_False by (by eapply Hother). done. }
    split; [done|]. split; [by rewrite Hlen|]. intros k'.
    destruct (Hrec k') as [Hg Hng]. destruct (decide (k' = k)) as [->|Hne].
    + assert (Hnot : ~ exists t0, (k, t0) ∈ l /\ collects defer now t0 = true).
      { intros (t0 & Hin & _). by apply (Hother _ _ Hin). }
      destruct (Hng Hnot) as [H1 H2]. rewrite Hr1, decide_True in H1 by done.
      rewrite Ht1, decide_True in H2 by done.
      split; [by intros _|]. intros Hn. exfalso. apply Hn. exists t. split; [by left|done].
    + rewrite Hr1, Ht1, !decide_False in Hng by done. split.
      * intros (t0 & [Heq|Hin]%elem_of_cons & Hc); [congruence|]. apply Hg. eauto.
      * intros Hn. apply Hng. intros (t0 & Hin & Hc). apply Hn. exists t0. split; [by right|done].
  - assert (Hstep : gc_entry defer now idx e (k, t) = e) by (unfold gc_entry; cbn [snd]; by rewrite Ec).
    rewrite Hstep. destruct (IH e He Hnd) as (He2 & Hlen & Hrec).
    { intros k' t' Hin. apply Hl. by right. }
    split; [done|]. split; [done|]. intros k'. destruct (Hrec k') as [Hg Hng]. split.
    + intros (t0 & [Heq|Hin]%elem_of_cons & Hc); [congruence|]. apply Hg. eauto.
    + intros Hn. apply Hng. intros (t0 & Hin & Hc). apply Hn. exists t0. split; [by right|done].
Qed.

(** What collection leaves of a key. *)
Definition gc_survives (defer : bool) (now : Z) (e : Engine V) (k : Bytes) : bool :=
  negb (is_some_and (tombstone_of e k) (collects defer now)).

Lemma gc_stripe_spec defer now (e : Engine V) idx : engine_inv e -> (idx < length (stripes e))%nat ->
  let e' := gc_stripe defer now e idx in
  engine_inv e' /\ length (stripes e') = length (stripes e) /\
  forall k, let stays := negb (bool_decide (bucket_of_key k = idx)) || gc_survives defer now e k in
    engine_record e' k = (if stays then engine_record e k else None) /\
    tombstone_of e' k = (if stays then tombstone_of e k else None).
Proof.
  intros He Hlt. destruct (lookup_lt_is_Some_2 _ _ Hlt) as [st Hst].
  assert (Hat : stripe_at e idx = st) by (unfold stripe_at; by rewrite Hst).
  assert (Hin : forall k t, (k, t) ∈ map_to_list (st_tombstones st) <->
    bucket_of_key k = idx /\ tombstone_of e k = Some t).
  { intros k t. rewrite elem_of_map_to_list. unfold tombstone_of. split.
    - intros Ht. assert (Hb : bucket_of_key k = idx).
      { apply (sw_bucket _ _ (ei_wf _ He _ _ Hst)). rewrite versions_lookup, Ht. eauto. }
      by rewrite Hb, Hat.
    - intros [-> Ht]. by rewrite Hat in Ht. }
  unfold gc_stripe. rewrite Hat.
  destruct (gc_stripe_fold defer now idx (map_to_list (st_tombstones st)) e He) as (H1 & H2 & H3).
  { apply NoDup_fst_map_to_list. }
  { intros k t. apply Hin. }
  split; [done|]. split; [done|]. intros k. destruct (H3 k) as [Hg Hng]. cbv zeta.
  destruct (negb _ || _) eqn:Es.
  - apply Hng. intros (t & [Hb Ht]%Hin & Hc). unfold gc_survives in Es. rewrite Ht in Es. cbn in Es.
    by rewrite Hc, bool_decide_eq_true_2 in Es.
  - apply Hg. apply orb_false_iff in Es as [Hb Hs]. apply negb_false_iff, bool_decide_eq_true in Hb.
    unfold gc_survives in Hs. destruct (tombstone_of e k) as [t|] eqn:Ht; [|done]. cbn in Hs.
    apply negb_false_iff in Hs. exists t. split; [by apply Hin|done].
Qed.

Lemma gc_stripes_spec defer now ids : forall e : Engine V, engine_inv e -> NoDup ids ->
  Forall (fun i => i < length (stripes e))%nat ids ->
  let e' := foldl (gc_stripe defer now) e ids in
  engine_inv e' /\
  forall k, engine_record e' k =
    if bool_decide (bucket_of_key k ∈ ids) && negb (gc_survives defer now e k) then None
    else engine_record e k.
Proof.
  induction ids as [|i ids IH]; intros e He Hnd Hlt; cbn [foldl].
  { split; [done|]. intros k. by rewrite bool_decide_eq_false_2 by apply not_elem_of_nil. }
  apply NoDup_cons in Hnd as [Hi Hnd]. apply Forall_cons in Hlt as [Hlt Hlts].
  destruct (gc_stripe_spec defer now e i He Hlt) as (He1 & Hlen & Hrec).
  destruct (IH (gc_stripe defer now e i) He1 Hnd) as [He2 Hrec2]; [by rewrite Hlen|].
  split; [done|]. intros k. destruct (Hrec k) as [Hr Ht]. rewrite Hrec2, Hr. unfold gc_survives at 1.
  rewrite Ht. destruct (decide (bucket_of_key k = i)) as [Hb|Hb].
  - rewrite (bool_decide_eq_true_2 (bucket_of_key k = i)), (bool_decide_eq_true_2 (_ ∈ i :: ids)) by (done || (rewrite Hb; by left)).
    rewrite bool_decide_eq_false_2 by (by rewrite Hb). cbn. by destruct (gc_survives defer now e k).
  - rewrite (bool_decide_eq_false_2 (bucket_of_key k = i)) by done. cbn.
    rewrite (bool_decide_ext _ (bucket_of_key k ∈ i :: ids)) by (rewrite elem_of_cons; tauto). done.
Qed.

Lemma gc_tombstones_spec (e : Engine V) defer now ttl : engine_inv e ->
  let e' := (gc_tombstones e defer now ttl).1 in
  let effective := (gc_decision e defer now ttl).1.2 in
  engine_inv e' /\
  forall k, engine_record e' k = if gc_survives effective now e k then engine_record e k else None.
Proof.
  intros He. unfold gc_tombstones. destruct (gc_decision e defer now ttl) as [[g d] gap]. cbn [fst snd].
  destruct (gc_stripes_spec d now (seq 0 (length (stripes e))) (with_gc e g)) as [H1 H2].
  - by apply (engine_inv_ext e).
  - apply NoDup_seq.
  - apply Forall_forall. intros i Hi%elem_of_seq. cbn. lia.
  - split; [done|]. intros k. rewrite H2, bool_decide_eq_true_2.
    + change (gc_survives d now (with_gc e g) k) with (gc_survives d now e k).
      by destruct (gc_survives d now e k).
    + apply elem_of_seq. rewrite (ei_stripes _ He). pose proof (bucket_of_key_lt k). lia.
Qed.

(** A collection removes exactly the tombstones past their retention, judged by the
    decision the pause guard makes, and leaves every other record; digests and totals follow. *)
Theorem gc_collects_exactly_the_lapsed (e : Engine V) (defer : bool) (now ttl : Z)
  (Hinv : engine_inv e) :
  let e' := (gc_tombstones e defer now ttl).1 in
  let effective := (gc_decision e defer now ttl).1.2 in
  engine_inv e' /\
  forall k, engine_record e' k =
    match tombstone_of e k with
    | Some t => if collects effective now t then None else engine_record e k
    | None => engine_record e k
    end.
Proof.
  destruct (gc_tombstones_spec e defer now ttl Hinv) as [H1 H2]. split; [done|]. intros k.
  rewrite H2. unfold gc_survives. destruct (tombstone_of e k); [|done]. cbn.
  by destruct (collects _ _ _).
Qed.

(** A delete that was collected does not come back from a peer: the tombstone a node
    stored at [now0] and collected at [now1] is ignored when any peer sends it again at
    [now2], under the same retentions and deferral, so the key is neither re-tombstoned nor
    counted. *)
Theorem collected_delete_stays_gone {R : ConflictResolver} {VC : ValueCodec V}
  (ctx : ApplyCtx V) (t : Tombstone) (now0 now1 : Z) (k : Bytes) (st : Stripe) (c : Cells V)
  (Hstored : rule_deadlines (V:=V) {| ar_from_peer := true; ar_deferring := ac_deferring ctx;
                ar_ttl_ms := ac_tombstone_ttl_ms ctx; ar_max_ttl_ms := ac_tombstone_max_ttl_ms ctx;
                ar_now_ms := now0 |} (IncTombstone (ts_expired_at_ms t)) (ts_ver t) =
             Some (ts_ttl_deadline_ms t, ts_max_deadline_ms t))
  (Hbefore : default (wall_ms (ts_ver t)) (ts_expired_at_ms t) <= now0)
  (Hlater : now0 <= now1 <= ac_now_ms ctx)
  (Hcollected : collects (ac_deferring ctx) now1 t = true)
  (Hpeer : ac_from_peer ctx = true) :
  apply_locked ctx k (ts_ver t) (IncTombstone (ts_expired_at_ms t)) st c =
  (st, count_ignored c, ORejected).
Proof.
  unfold apply_locked. assert (Hig : ignores (ctx_rule ctx)
    (rule_deadlines (ctx_rule ctx) (IncTombstone (V:=V) (ts_expired_at_ms t)) (ts_ver t)) = true); [|by rewrite Hig].
  cbn in *. unfold drops_lapsed_tombstone, tombstone_lapsed, collects, tombstone_deadlines,
    tombstone_anchor_ms in *. rewrite Hpeer. cbn in *.
  rewrite !Z.min_l in * by lia. injection Hstored as H1 H2. rewrite <-H1, <-H2 in Hcollected.
  destruct (ac_deferring ctx); cbn in *; bsplit; lia.
Qed.

(** ** The sweep *)

(** What the sweep decides about an entry; the closure reads nothing it changes. *)
Definition entry_fate (cf : Config V) (lt : gmap Bytes Z) (now : Z) (retention : option Z) (l : Live) :
    SweepFate :=
  sweep_fate (absent_at l (live_key l) lt (tti_ms cf) now) (live_deadline l (live_key l) lt) now
    (is_some retention).

Lemma entry_fate_tombstone cf lt now retention l : entry_fate cf lt now retention l = FTombstone ->
  exists d, live_deadline l (live_key l) lt = Some d /\ d <= now /\ is_some retention = true.
Proof.
  unfold entry_fate, sweep_fate. destruct (absent_at _ _ _ _ _); cbn; [|done].
  destruct (is_some retention); cbn; [|done].
  destruct (live_deadline _ _ _) as [d|]; cbn; [|done]. destruct (Z.leb_spec d now); [|done]. eauto.
Qed.

Lemma fetch_xor_at (e : Engine V) idx q x idx' p : (idx < Z.to_nat BUCKET_COUNT)%nat ->
  length (digest e) = Z.to_nat PART_SPACE -> 0 <= q < PART_COUNT -> 0 <= p < PART_COUNT ->
  digest_at (fetch_xor e (digest_slot (Z.of_nat idx) q) x) (digest_slot (Z.of_nat idx') p) =
  if decide (idx' = idx /\ p = q) then Z.lxor (digest_at e (digest_slot (Z.of_nat idx) q)) x
  else digest_at e (digest_slot (Z.of_nat idx') p).
Proof.
  intros Hlt Hlen Hq Hp.
  rewrite (digest_at_insert (Z.lxor (digest_at e (digest_slot (Z.of_nat idx) q)) x) e _
    (digest_slot (Z.of_nat idx) q));
    [|apply digest_slot_nonneg; lia|apply digest_slot_nonneg; lia| |done].
  - apply decide_ext. split; [|by intros [-> ->]].
    intros Hs%digest_slot_inj; [|done..]. destruct Hs. split; [lia|done].
  - rewrite Hlen. pose proof (digest_slot_range (Z.of_nat idx) q ltac:(lia) Hq). lia.
Qed.

Section SweepStripe.
Context (idx : nat) (now : Z) (retention : option Z) (lt : gmap Bytes Z) (self : Engine V).

Abbreviation fate := (entry_fate (cfg self) lt now retention).

(** The accumulator after a list of entries, but for the digests. *)
Record sweep_folded (a a' : SweepAcc) (l : list Live) : Prop := {
  sf_weight : sa_weight a' = sa_weight a + sum_Z (lv_weight <$> filter (fun x => fate x <> FKeep) l);
  sf_count : sa_count a' = sa_count a + Z.of_nat (length (filter (fun x => fate x <> FKeep) l));
  sf_next x d : x ∈ l -> fate x = FKeep -> live_deadline x (live_key x) lt = Some d -> sa_next a' <= d;
  sf_next_le : sa_next a' <= sa_next a;
  sf_cleared k : k ∈ sa_cleared a' <-> k ∈ sa_cleared a \/
    exists x, x ∈ l /\ live_key x = k /\ lv_expiry x = LONG_TTL /\ fate x <> FKeep;
  sf_expired k v d : (k, v, d) ∈ sa_expired a' <-> (k, v, d) ∈ sa_expired a \/
    exists x, x ∈ l /\ live_key x = k /\ live_ver x = v /\
      live_deadline x (live_key x) lt = Some d /\ fate x = FTombstone;
}.

Lemma sweep_folded_nil a : sweep_folded a a [].
Proof.
  split; try done.
  - change (filter _ []) with (@nil Live). change (sum_Z (lv_weight <$> [])) with 0. lia.
  - change (filter _ []) with (@nil Live). cbn. lia.
  - intros x d Hx. by apply not_elem_of_nil in Hx.
  - intros k. split; [by left|]. intros [?|(x & Hx & _)]; [done|]. by apply not_elem_of_nil in Hx.
  - intros k v d. split; [by left|]. intros [?|(x & Hx & _)]; [done|]. by apply not_elem_of_nil in Hx.
Qed.

(** One entry, field by field. *)
Lemma sweep_entry_fields a l :
  sweep_entry self idx now retention lt a l =
  ({| sa_engine := if decide (fate l = FDrop)
        then fetch_xor (sa_engine a) (digest_slot (Z.of_nat idx) (part_of_key (live_key l)))
               (entry_fingerprint (live_key l) (live_ver l)) else sa_engine a;
      sa_weight := sa_weight a + (if decide (fate l = FKeep) then 0 else lv_weight l);
      sa_count := sa_count a + (if decide (fate l = FKeep) then 0 else 1);
      sa_next := match live_deadline l (live_key l) lt with
                 | Some d => if decide (fate l = FKeep) then Z.min (sa_next a) d else sa_next a
                 | None => sa_next a
                 end;
      sa_cleared := sa_cleared a ++
        (if decide (fate l <> FKeep /\ lv_expiry l = LONG_TTL) then [live_key l] else []);
      sa_expired := sa_expired a ++
        match live_deadline l (live_key l) lt with
        | Some d => if decide (fate l = FTombstone) then [(live_key l, live_ver l, d)] else []
        | None => []
        end |}, bool_decide (fate l = FKeep)).
Proof.
  unfold sweep_entry, is_absent. fold (live_deadline l (live_key l) lt).
  change (sweep_fate (absent_at l (live_key l) lt (tti_ms (cfg self)) now) (live_deadline l (live_key l) lt) now
    (is_some retention)) with (fate l).
  pose proof (entry_fate_tombstone (cfg self) lt now retention l) as Htomb.
  assert (Hcl : (if decide (fate l <> FKeep /\ lv_expiry l = LONG_TTL) then [live_key l] else []) =
    if decide (fate l = FKeep) then [] else if lv_expiry l =? LONG_TTL then [live_key l] else []).
  { destruct (Z.eqb_spec (lv_expiry l) LONG_TTL); repeat case_decide; (done || tauto). }
  rewrite Hcl. clear Hcl.
  destruct (fate l) eqn:Ef, (live_deadline l (live_key l) lt) as [d|] eqn:Ed; cbn;
    rewrite ?Z.add_0_r, ?app_nil_r; try done;
    [destruct (lv_expiry l =? LONG_TTL); by rewrite ?app_nil_r..|].
  by destruct Htomb as (d & ? & _).
Qed.

Lemma sweep_folded_cons a a' x l :
  sweep_folded (sweep_entry self idx now retention lt a x).1 a' l -> sweep_folded a a' (x :: l).
Proof.
  rewrite sweep_entry_fields. intros [H1 H2 H3 H4 H5 H6].
  cbn [fst sa_weight sa_count sa_next sa_cleared sa_expired] in *. split.
  - rewrite H1. destruct (decide (fate x = FKeep)) as [Hf|Hf].
    + rewrite filter_cons_False by tauto. lia.
    + rewrite filter_cons_True by done. rewrite fmap_cons, sum_Z_cons. lia.
  - rewrite H2. destruct (decide (fate x = FKeep)) as [Hf|Hf].
    + rewrite filter_cons_False by tauto. lia.
    + rewrite filter_cons_True by done. cbn [length]. lia.
  - intros y d [->|Hy]%elem_of_cons Hk Hd; [|by apply (H3 y)]. rewrite Hd, decide_True in H4 by done. lia.
  - clear -H4. destruct (live_deadline x (live_key x) lt); [case_decide|]; lia.
  - clear -H5. intros k. rewrite H5, elem_of_app. setoid_rewrite elem_of_cons. clear H5. case_decide as Hf.
    + rewrite list_elem_of_singleton. split.
      * intros [[?| ->]|(y & ? & ?)]; [by left|right; exists x; tauto|right; eauto].
      * intros [?|(y & [->|?] & <- & ?)]; [auto|auto|right; eauto].
    + split.
      * intros [[?|?%not_elem_of_nil]|(y & ? & ?)]; [by left|done|right; eauto].
      * intros [?|(y & [->|?] & ? & ? & ?)]; [auto|tauto|right; eauto].
  - clear -H6. intros k v d. rewrite H6, elem_of_app. setoid_rewrite elem_of_cons. clear H6.
    assert (Hx : (k, v, d) ∈ (match live_deadline x (live_key x) lt with
        | Some d => if decide (fate x = FTombstone) then [(live_key x, live_ver x, d)] else []
        | None => [] end) <->
      live_key x = k /\ live_ver x = v /\ live_deadline x (live_key x) lt = Some d /\ fate x = FTombstone).
    { destruct (live_deadline x (live_key x) lt) as [d'|]; [case_decide|].
      - rewrite list_elem_of_singleton. split; [by intros [= -> -> ->]|by intros (-> & -> & [= ->] & _)].
      - split; [by intros ?%not_elem_of_nil|tauto].
      - split; [by intros ?%not_elem_of_nil|by intros (_ & _ & ? & _)]. }
    rewrite Hx. split.
    + intros [[?|?]|(y & ? & ?)]; [by left|right; exists x; tauto|right; eauto].
    + intros [?|(y & [->|?] & ?)]; [auto|auto|right; eauto].
Qed.

Abbreviation swept a l := (foldl (fun a x => (sweep_entry self idx now retention lt a x).1) a l).

Lemma sweep_fold_folded l : forall a, sweep_folded a (swept a l) l.
Proof.
  induction l as [|x l IH]; intros a; cbn [foldl]; [apply sweep_folded_nil|].
  apply sweep_folded_cons, IH.
Qed.

Lemma sweep_fold_cfg l : forall a, cfg (sa_engine (swept a l)) = cfg (sa_engine a).
Proof.
  induction l as [|x l IH]; intros a; [done|]. cbn [foldl]. rewrite IH, sweep_entry_fields.
  cbn [fst sa_engine]. by case_decide.
Qed.

(** The digests a sweep leaves: those of the versions without the dropped entries. *)
Lemma sweep_fold_digest l : forall a (m : gmap Bytes Hlc),
  (idx < Z.to_nat BUCKET_COUNT)%nat ->
  length (digest (sa_engine a)) = Z.to_nat PART_SPACE -> NoDup (live_key <$> l) ->
  (forall x, x ∈ l -> m !! live_key x = Some (live_ver x)) ->
  (forall p, 0 <= p < PART_COUNT ->
     digest_at (sa_engine a) (digest_slot (Z.of_nat idx) p) = part_digest p m) ->
  let e' := sa_engine (swept a l) in
  stripes e' = stripes (sa_engine a) /\ totals e' = totals (sa_engine a) /\
  length (digest e') = length (digest (sa_engine a)) /\
  (forall idx' p, idx' <> idx -> 0 <= p < PART_COUNT ->
     digest_at e' (digest_slot (Z.of_nat idx') p) =
     digest_at (sa_engine a) (digest_slot (Z.of_nat idx') p)) /\
  exists m', (forall p, 0 <= p < PART_COUNT -> digest_at e' (digest_slot (Z.of_nat idx) p) = part_digest p m') /\
    (forall x, x ∈ l -> fate x = FDrop -> m' !! live_key x = None) /\
    (forall k, (forall x, x ∈ l -> fate x = FDrop -> live_key x <> k) -> m' !! k = m !! k).
Proof.
  induction l as [|x l IH]; intros a m Hlt Hlen Hnd Hm Hd; cbn [foldl].
  { split_and!; try done. exists m. split_and!; try done. intros x Hx. by apply not_elem_of_nil in Hx. }
  apply NoDup_cons in Hnd as [Hx Hnd].
  assert (Hother : forall y, y ∈ l -> live_key y <> live_key x).
  { intros y Hy Heq. apply Hx. rewrite <-Heq. by apply list_elem_of_fmap_2. }
  rewrite sweep_entry_fields in *. cbn [fst] in *.
  set (a1 := {| sa_engine := _ |}) in *. set (k := live_key x) in *.
  set (m1 := if decide (fate x = FDrop) then set_version k None m else m).
  pose proof (part_of_key_range k) as Hpr.
  assert (Hmx : m !! k = Some (live_ver x)) by (apply Hm; by left).
  assert (Hat : forall idx' p, 0 <= p < PART_COUNT -> digest_at (sa_engine a1) (digest_slot (Z.of_nat idx') p) =
    if decide (fate x = FDrop /\ idx' = idx /\ p = part_of_key k)
    then Z.lxor (digest_at (sa_engine a) (digest_slot (Z.of_nat idx) p)) (entry_fingerprint k (live_ver x))
    else digest_at (sa_engine a) (digest_slot (Z.of_nat idx') p)).
  { intros idx' p Hp. unfold a1. cbn [sa_engine]. destruct (decide (fate x = FDrop)) as [Hf|Hf];
      [|by rewrite decide_False by tauto].
    rewrite fetch_xor_at by done. case_decide as Hsl.
    - destruct Hsl as [-> ->]. by rewrite decide_True.
    - rewrite decide_False by tauto. done. }
  assert (Hsame : stripes (sa_engine a1) = stripes (sa_engine a) /\ totals (sa_engine a1) = totals (sa_engine a) /\
    length (digest (sa_engine a1)) = length (digest (sa_engine a))).
  { unfold a1. cbn [sa_engine]. destruct (decide (fate x = FDrop)); [|done].
    split_and!; [done..|apply length_insert]. }
  destruct Hsame as (Hs1 & Ht1 & Hl1). clearbody a1.
  destruct (IH a1 m1 Hlt) as (H1 & H2 & H3 & H4 & m' & H5 & H6 & H7).
  - by rewrite Hl1.
  - done.
  - intros y Hy. unfold m1. destruct (decide (fate x = FDrop)); [|by apply Hm; right]. rewrite set_version_lookup, decide_False.
    + by apply Hm; right.
    + intros Heq. by apply (Hother y Hy).
  - intros p Hp. rewrite Hat by done. unfold m1. destruct (decide (fate x = FDrop)) as [Hf|Hf].
    + rewrite part_digest_set, Hd by done. rewrite Hmx. cbn. rewrite Z.lxor_0_r.
      destruct (decide (part_of_key k = p)) as [Hkp|Hkp].
      * by rewrite decide_True.
      * by rewrite decide_False by (intros (_ & _ & ?); congruence).
    + rewrite decide_False by tauto. by apply Hd.
  - split_and!.
    + by rewrite H1.
    + by rewrite H2.
    + by rewrite H3.
    + intros idx' p Hne Hp. rewrite H4, Hat, decide_False by tauto. done.
    + exists m'. split; [done|]. split.
      * intros y [->|Hy]%elem_of_cons Hf; [|by apply H6]. rewrite H7.
        -- fold k. unfold m1. destruct (decide (fate x = FDrop)); [|done].
           rewrite set_version_lookup. by rewrite decide_True.
        -- intros z Hz _. by apply Hother.
      * intros k' Hk'. rewrite H7 by (intros z Hz Hf; apply Hk'; [by right|done]). unfold m1.
        destruct (decide (fate x = FDrop)) as [Hf|Hf]; [|done].
        rewrite set_version_lookup, decide_False; [done|]. apply Hk'; [by left|done].
Qed.

End SweepStripe.
(** What a sweep leaves of a key: a lapsed entry's tombstone, nothing, or what was there. *)
Definition swept_record (cf : Config V) (st : Stripe) (now : Z) (retention : option Z) (k : Bytes) :
    option WireRecord :=
  match find_in st k with
  | Some l =>
      match entry_fate cf (st_long_ttl st) now retention l with
      | FKeep => stored_record st k
      | FDrop => None
      | FTombstone => Some {| wr_key := k; wr_value := None; wr_ver := live_ver l;
                              wr_expires_at_ms := live_deadline l k (st_long_ttl st) |}
      end
  | None => stored_record st k
  end.

Lemma clear_long_fold ks : forall st,
  let st' := foldl (fun st k => set_long_ttl st (delete k (st_long_ttl st))) st ks in
  st_live st' = st_live st /\ st_tombstones st' = st_tombstones st /\
  st_next_expiry_ms st' = st_next_expiry_ms st /\
  forall k, st_long_ttl st' !! k = if decide (k ∈ ks) then None else st_long_ttl st !! k.
Proof.
  induction ks as [|k ks IH]; intros st; cbn [foldl]; [done|].
  destruct (IH (set_long_ttl st (delete k (st_long_ttl st)))) as (H1 & H2 & H3 & H4). cbn in *.
  split_and!; try done. intros k'. rewrite H4. destruct (decide (k' ∈ ks)) as [Hin|Hin].
  - by rewrite decide_True by (by right).
  - destruct (decide (k' = k)) as [->|Hne].
    + rewrite lookup_delete_eq. rewrite decide_True; [done|by left].
    + rewrite lookup_delete_ne by done. rewrite decide_False; [done|].
      intros [->|?]%elem_of_cons; done.
Qed.

(** Tombstones arrive for keys with no live entry. *)
Lemma put_tombstones_fold idx now ret xs : forall st, stripe_wf idx st ->
  (forall k v d, (k, v, d) ∈ xs -> find_in st k = None /\ bucket_of_key k = idx) ->
  (forall k v d v' d', (k, v, d) ∈ xs -> (k, v', d') ∈ xs -> v = v' /\ d = d') ->
  let st' := foldl (fun st x => let '(key_bytes, ver, lapsed_at) := x in
    set_tombstones st (<[key_bytes := swept_tombstone now ret ver lapsed_at]> (st_tombstones st))) st xs in
  stripe_wf idx st' /\ st_live st' = st_live st /\ st_long_ttl st' = st_long_ttl st /\
  (forall k v d, (k, v, d) ∈ xs -> stored_record st' k =
     Some {| wr_key := k; wr_value := None; wr_ver := v; wr_expires_at_ms := Some d |}) /\
  (forall k, (forall v d, (k, v, d) ∉ xs) -> stored_record st' k = stored_record st k).
Proof.
  induction xs as [|[[k v] d] xs IH]; intros st Hwf Hx Hfun; cbn [foldl].
  { split_and!; try done. intros k v d Hin. by apply not_elem_of_nil in Hin. }
  destruct (Hx k v d) as [Hf Hb]; [by left|].
  destruct (put_tombstone_spec idx st k (swept_tombstone now ret v d) Hwf Hf Hb) as [Hwf1 Hs1].
  set (st1 := set_tombstones st _) in *.
  destruct (IH st1 Hwf1) as (H1 & H2 & H3 & H4 & H5).
  { intros k' v' d' Hin. by apply (Hx k' v' d'); right. }
  { intros k' v1 d1 v2 d2 Hin1 Hin2. eapply Hfun; right; done. }
  split_and!; try done.
  - intros k' v' d' [Heq|Hin]%elem_of_cons; [|by apply H4]. injection Heq as -> -> ->.
    destruct (decide (Exists (fun x => x.1.1 = k) xs)) as [He|Hne].
    + apply Exists_exists in He as ([[k'' v''] d''] & Hin & Hk''). cbn in Hk''. subst k''.
      destruct (Hfun k v d v'' d'') as [-> ->]; [by left|by right|]. by apply H4.
    + rewrite H5; [rewrite (Hs1 k), decide_True by done; done|]. intros v'' d'' Hin. apply Hne.
      apply Exists_exists. by exists (k, v'', d'').
  - intros k' Hk'. rewrite H5 by (intros v'' d'' Hin; apply (Hk' v'' d''); by right).
    rewrite (Hs1 k'), decide_False; [done|]. intros ->. apply (Hk' v d). by left.
Qed.

Lemma set_next_wf idx st n : stripe_wf idx st ->
  (forall l d, l ∈ st_live st -> live_deadline l (live_key l) (st_long_ttl st) = Some d -> n <= d) ->
  stripe_wf idx (set_next_expiry st n).
Proof. intros Hwf Hn. split; try apply Hwf. exact Hn. Qed.

Section SweepOne.
Context (e : Engine V) (idx : nat) (st : Stripe) (now : Z) (retention : option Z).
Context (He : engine_inv e) (Hst : stripes e !! idx = Some st).

Abbreviation fate := (entry_fate (cfg e) (st_long_ttl st) now retention).

Definition kept_key (k : Bytes) : Prop :=
  match find_in st k with Some l => fate l = FKeep | None => True end.

#[global] Instance kept_key_dec k : Decision (kept_key k).
Proof. unfold kept_key. destruct (find_in st k); apply _. Defined.

Let Hwf : stripe_wf idx st := ei_wf _ He _ _ Hst.

Lemma find_own l : l ∈ st_live st -> find_in st (live_key l) = Some l.
Proof. intros Hl. by apply find_live_unique; [apply Hwf| |]. Qed.

Lemma own_ver l : l ∈ st_live st -> versions st !! live_key l = Some (live_ver l).
Proof. intros Hl. by rewrite versions_lookup, (sw_disjoint _ _ Hwf l Hl), (find_own l Hl). Qed.

(** What is left of the stripe once the lapsed entries are out. *)
Lemma swept_restricts st2 order a : order ≡ₚ st_live st ->
  sweep_folded now retention (st_long_ttl st) e
    {| sa_engine := e; sa_weight := 0; sa_count := 0; sa_next := u64_max; sa_cleared := []; sa_expired := [] |}
    a order ->
  st_live st2 ≡ₚ filter (fun l => bool_decide (fate l = FKeep) = true) (st_live st) ->
  st_tombstones st2 = st_tombstones st -> st_next_expiry_ms st2 = st_next_expiry_ms st ->
  (forall k, st_long_ttl st2 !! k = if decide (k ∈ sa_cleared a) then None else st_long_ttl st !! k) ->
  restricts kept_key st st2.
Proof.
  intros Ho Hf Hl Ht Hn Hlong.
  assert (Hcl : forall k, k ∈ sa_cleared a <->
    exists x, find_in st k = Some x /\ lv_expiry x = LONG_TTL /\ fate x <> FKeep).
  { intros k. rewrite (sf_cleared _ _ _ _ _ _ _ Hf). cbn [sa_cleared]. split.
    - intros [Hn'|(x & Hx & <- & ?)]; [by apply not_elem_of_nil in Hn'|].
      exists x. rewrite Ho in Hx. by rewrite (find_own x Hx).
    - intros (x & [Hx Hk]%find_live_Some & ?). right. exists x. by rewrite Ho. }
  split.
  - rewrite Hl. apply Permutation_refl'. apply filter_ext_in. intros l Hin. unfold kept_key.
    rewrite (find_own l Hin). by rewrite bool_decide_eq_true.
  - intros k. rewrite Ht. destruct (decide (kept_key k)) as [Hk|Hk]; [done|]. unfold kept_key in Hk.
    destruct (find_in st k) as [l|] eqn:Ef; [|done]. apply find_live_Some in Ef as [Hin <-].
    by apply (sw_disjoint _ _ Hwf).
  - intros k. rewrite Hlong. destruct (decide (kept_key k)) as [Hk|Hk]; unfold kept_key in Hk.
    + rewrite decide_False; [done|]. rewrite Hcl. intros (x & Hx & _ & Hne). by rewrite Hx in Hk.
    + destruct (decide (k ∈ sa_cleared a)) as [Hin|Hin]; [done|].
      destruct (st_long_ttl st !! k) eqn:El; [|done]. exfalso. apply Hin, Hcl.
      destruct (proj1 (sw_long _ _ Hwf k) ltac:(eauto)) as (x & Hx & Hlg). rewrite Hx in Hk. eauto.
  - by left.
Qed.

(** The expired entries turn into tombstones of their own version. *)
Lemma swept_stored st2 st3 a order : order ≡ₚ st_live st ->
  sweep_folded now retention (st_long_ttl st) e
    {| sa_engine := e; sa_weight := 0; sa_count := 0; sa_next := u64_max; sa_cleared := []; sa_expired := [] |}
    a order ->
  restricts kept_key st st2 ->
  st3 = match retention with
        | Some ret => foldl (fun st x => let '(key_bytes, ver, lapsed_at) := x in
            set_tombstones st (<[key_bytes := swept_tombstone now ret ver lapsed_at]> (st_tombstones st)))
            st2 (sa_expired a)
        | None => st2
        end ->
  stripe_wf idx st3 /\ st_live st3 = st_live st2 /\ st_long_ttl st3 = st_long_ttl st2 /\
  forall k, stored_record st3 k = swept_record (cfg e) st now retention k.
Proof.
  intros Ho Hf Hr ->. pose proof (restricts_wf _ _ _ _ Hwf Hr) as Hwf2.
  pose proof (restricts_record _ _ _ _ Hwf Hr) as Hrec2.
  assert (Hex : forall k v d, (k, v, d) ∈ sa_expired a <->
    exists x, find_in st k = Some x /\ live_ver x = v /\ live_deadline x k (st_long_ttl st) = Some d /\
      fate x = FTombstone).
  { intros k v d. rewrite (sf_expired _ _ _ _ _ _ _ Hf). cbn [sa_expired]. split.
    - intros [Hn|(x & Hx & <- & ?)]; [by apply not_elem_of_nil in Hn|].
      exists x. rewrite Ho in Hx. by rewrite (find_own x Hx).
    - intros (x & [Hx Hk]%find_live_Some & ?). right. exists x. rewrite Ho, Hk. done. }
  assert (Hout : forall k, stored_record st2 k = None -> find_in st2 k = None).
  { intros k. unfold stored_record. destruct (st_tombstones st2 !! k) eqn:E; [done|]. by destruct (find_in st2 k). }
  assert (Hcase : forall k, stored_record st2 k =
    match find_in st k with Some l => if decide (fate l = FKeep) then stored_record st k else None
    | None => stored_record st k end).
  { intros k. rewrite Hrec2. destruct (decide (kept_key k)) as [Hk|Hk]; unfold kept_key in Hk;
      destruct (find_in st k) as [l|]; try done.
    - by rewrite decide_True.
    - by rewrite decide_False. }
  destruct retention as [ret|] eqn:Eret.
  - destruct (put_tombstones_fold idx now ret (sa_expired a) st2 Hwf2) as (H1 & H2 & H3 & H4 & H5).
    { intros k v d (x & Hx & <- & _ & Hft)%Hex. split.
      - apply Hout. rewrite Hcase, Hx. by rewrite decide_False by congruence.
      - apply find_live_Some in Hx as [Hx <-]. apply (sw_bucket _ _ Hwf). rewrite (own_ver x Hx). eauto. }
    { intros k v d v' d' (x & Hx & <- & Hd & _)%Hex (x' & Hx' & <- & Hd' & _)%Hex.
      rewrite Hx in Hx'. injection Hx' as <-. rewrite Hd in Hd'. by injection Hd' as ->. }
    split_and!; try done. intros k. unfold swept_record. destruct (find_in st k) as [l|] eqn:Ef.
    + destruct (entry_fate (cfg e) (st_long_ttl st) now (Some ret) l) eqn:Efl.
      * rewrite H5; [rewrite Hcase, Ef, decide_True by done; done|].
        intros v d (x & Hx & _ & _ & Hft)%Hex. congruence.
      * rewrite H5; [rewrite Hcase, Ef, decide_False by congruence; done|].
        intros v d (x & Hx & _ & _ & Hft)%Hex. congruence.
      * destruct (entry_fate_tombstone _ _ _ _ _ Efl) as (d & Hd & _).
        apply find_live_Some in Ef as Hk. destruct Hk as [_ Hk]. rewrite Hk in Hd. rewrite Hd.
        apply H4. apply Hex. eauto.
    + rewrite H5; [by rewrite Hcase, Ef|]. intros v d (x & Hx & _)%Hex. congruence.
  - split_and!; try done. intros k. rewrite Hcase. unfold swept_record.
    destruct (find_in st k) as [l|] eqn:Ef; [|done].
    pose proof (entry_fate_tombstone (cfg e) (st_long_ttl st) now None l) as Htn.
    destruct (entry_fate (cfg e) (st_long_ttl st) now None l); [done..|].
    by destruct Htn as (d & _ & _ & ?).
Qed.

End SweepOne.

Lemma entry_kept (e : Engine V) idx st now retention l : stripe_wf idx st -> l ∈ st_live st ->
  now < st_next_expiry_ms st -> tti_ms (cfg e) = None ->
  entry_fate (cfg e) (st_long_ttl st) now retention l = FKeep.
Proof.
  intros Hwf Hl Hn Ht. unfold entry_fate, sweep_fate, absent_at, absent_under, idle_at. rewrite Ht. cbn.
  destruct (live_deadline l (live_key l) (st_long_ttl st)) as [d|] eqn:Ed; cbn; [|done].
  pose proof (sw_next _ _ Hwf l d Hl Ed). by destruct (Z.leb_spec d now); [lia|].
Qed.

(** The versions left are those of the digests: an expired entry's tombstone keeps its version. *)
Lemma swept_versions (e : Engine V) (idx : nat) (st : Stripe) (now : Z) (retention : option Z) (st4 : Stripe) (m' : gmap Bytes Hlc) order :
  engine_inv e -> stripes e !! idx = Some st -> order ≡ₚ st_live st ->
  (forall k, stored_record st4 k = swept_record (cfg e) st now retention k) ->
  (forall x, x ∈ order -> entry_fate (cfg e) (st_long_ttl st) now retention x = FDrop ->
     m' !! live_key x = None) ->
  (forall k, (forall x, x ∈ order -> entry_fate (cfg e) (st_long_ttl st) now retention x = FDrop ->
     live_key x <> k) -> m' !! k = versions st !! k) ->
  m' = versions st4.
Proof.
  intros He Hst Ho Hrec Hdrop Hkeep. apply map_eq. intros k. rewrite versions_record, Hrec.
  unfold swept_record. destruct (find_in st k) as [l|] eqn:Ef.
  - pose proof Ef as [Hl Hk]%find_live_Some.
    destruct (entry_fate (cfg e) (st_long_ttl st) now retention l) eqn:Efl.
    + rewrite Hkeep; [apply versions_record|]. intros x Hx Hfx Hxk.
      rewrite Ho in Hx. pose proof (find_own e idx st He Hst x Hx) as Hfo. rewrite Hxk in Hfo. congruence.
    + rewrite <-Hk. rewrite (Hdrop l); [done|by rewrite Ho|done].
    + cbn. rewrite <-(own_ver e idx st He Hst l Hl), Hk. apply Hkeep. intros x Hx Hfx Hxk.
      rewrite Ho in Hx. pose proof (find_own e idx st He Hst x Hx) as Hfo. rewrite Hxk in Hfo. congruence.
  - rewrite Hkeep; [apply versions_record|]. intros x Hx Hfx <-. rewrite Ho in Hx.
    by rewrite (find_own e idx st He Hst x Hx) in Ef.
Qed.

Lemma swept_totals (e : Engine V) (idx : nat) (st : Stripe) (now : Z) (retention : option Z) a (st1 st4 : Stripe) order :
  order ≡ₚ st_live st ->
  sweep_folded now retention (st_long_ttl st) e
    {| sa_engine := e; sa_weight := 0; sa_count := 0; sa_next := u64_max; sa_cleared := []; sa_expired := [] |}
    a order ->
  st_live st1 ≡ₚ filter (fun l => bool_decide (entry_fate (cfg e) (st_long_ttl st) now retention l = FKeep) = true) (st_live st) ->
  st_live st4 = st_live st1 ->
  (idx < length (stripes e))%nat -> totals (sa_engine a) = totals e ->
  move_totals (with_resident (totals (with_stripe (sa_engine a) idx st4))
    (bytes_after (resident_bytes (totals e)) st st1)) (- sa_weight a) (- sa_count a) 0 =
  totals_after (totals e) st st4.
Proof.
  intros Ho Hf Hl1 Hl4 _ Ht.
  set (keep := fun l => bool_decide (entry_fate (cfg e) (st_long_ttl st) now retention l = FKeep)) in *.
  assert (Hdrop : filter (fun x => keep x = false) order ≡ₚ filter (fun x => keep x = false) (st_live st))
    by (by rewrite Ho).
  pose proof (sf_weight _ _ _ _ _ _ _ Hf) as Hw. pose proof (sf_count _ _ _ _ _ _ _ Hf) as Hc.
  assert (Hfd : filter (fun x => entry_fate (cfg e) (st_long_ttl st) now retention x <> FKeep) order =
    filter (fun x => keep x = false) order).
  { apply filter_ext_in. intros x _. unfold keep. by rewrite bool_decide_eq_false. }
  rewrite Hfd in Hw, Hc. cbn [sa_weight sa_count] in Hw, Hc.
  assert (Hk1 : st_live st1 ≡ₚ filter (fun l => keep l = true) (st_live st)) by exact Hl1. clear Hl1.
  apply totals_eq; cbn [move_totals totals_after total_weight live_count resident_bytes totals
    with_stripe with_resident]; unfold stripe_weight, stripe_count; rewrite ?Hl4, ?Ht.
  - rewrite Hw, (sum_Z_perm _ _ (fmap_Permutation lv_weight _ _ Hdrop)), sum_Z_partition.
    rewrite (sum_Z_perm _ _ (fmap_Permutation lv_weight _ _ Hk1)). lia.
  - rewrite Hc, (Permutation_length Hdrop), (Permutation_length Hk1).
    pose proof (Permutation_length (filter_partition_perm keep (st_live st))) as Hlen.
    rewrite length_app in Hlen. lia.
  - rewrite move_resident_0. unfold bytes_after, stripe_bytes. by rewrite Hl4.
Qed.

(** One stripe of the sweep. *)
Lemma sweep_stripe_spec (e : Engine V) idx st now retention : engine_inv e -> stripes e !! idx = Some st ->
  let e' := sweep_stripe now retention e idx in
  engine_inv e' /\ cfg e' = cfg e /\ exists st', stripes e' = <[idx := st']> (stripes e) /\
    forall k, stored_record st' k = swept_record (cfg e) st now retention k.
Proof.
  intros He Hst. pose proof (ei_wf _ He _ _ Hst) as Hwf. unfold sweep_stripe.
  assert (Hat : stripe_at e idx = st) by (unfold stripe_at; by rewrite Hst). rewrite Hat.
  destruct (negb (st_next_expiry_ms st <=? now) && negb (is_some (tti_ms (cfg e)))) eqn:Eskip.
  { split; [done|]. split; [done|]. exists st. split; [by rewrite list_insert_id|]. intros k.
    apply andb_true_iff in Eskip as [Hd Htti]. apply negb_true_iff, Z.leb_gt in Hd.
    destruct (tti_ms (cfg e)) eqn:Et; [done|].
    unfold swept_record. destruct (find_in st k) as [l|] eqn:Ef; [|done].
    apply find_live_Some in Ef as [Hl _]. by rewrite (entry_kept e idx). }
  set (acc0 := {| sa_engine := e |}).
  set (keep := fun l => bool_decide (entry_fate (cfg e) (st_long_ttl st) now retention l = FKeep)).
  destruct (retain_live_spec (sweep_entry e idx now retention (st_long_ttl st)) keep st
    (resident_bytes (totals e)) acc0) as (st1 & order & Ho & -> & Hst1 & Hl1).
  { intros a l. by rewrite sweep_entry_fields. }
  pose proof (sweep_fold_folded idx now retention (st_long_ttl st) e order acc0) as Hf.
  pose proof (sweep_fold_digest idx now retention (st_long_ttl st) e order acc0 (versions st)) as Hdig.
  cbn [sa_engine acc0] in Hdig. set (a := foldl _ acc0 order) in *.
  pose proof (lookup_lt_Some _ _ _ Hst) as Hlt.
  destruct Hdig as (D1 & D2 & D3 & D4 & m' & D5 & D6 & D7).
  { by rewrite <-(ei_stripes _ He). }
  { apply He. }
  { rewrite Ho. apply Hwf. }
  { intros x Hx. rewrite Ho in Hx. by apply (own_ver e idx st He Hst). }
  { by apply (ei_match _ He). }
  destruct (clear_long_fold (sa_cleared a) st1) as (C1 & C2 & C3 & C4).
  set (st2 := foldl _ st1 (sa_cleared a)) in *.
  assert (Hr : restricts (kept_key e st now retention) st st2).
  { apply (swept_restricts e idx st now retention He Hst st2 order a Ho Hf).
    - by rewrite C1.
    - by rewrite C2, Hst1.
    - by rewrite C3, Hst1.
    - intros k. by rewrite C4, Hst1. }
  edestruct (swept_stored e idx st now retention He Hst st2 _ a order Ho Hf Hr eq_refl) as (S1 & S2 & S3 & S4).
  set (st3 := match retention with Some _ => _ | None => st2 end) in *.
  set (st4 := set_next_expiry st3 (sa_next a)). set (e' := with_totals _ _).
  assert (Hrec : forall k, stored_record st4 k = swept_record (cfg e) st now retention k) by exact S4.
  assert (Hs' : stripes e' = <[idx := st4]> (stripes e)) by (cbn; by rewrite D1).
  assert (Hcfg : cfg e' = cfg e).
  { exact (sweep_fold_cfg idx now retention (st_long_ttl st) e order acc0). }
  split; [|split; [done|exists st4; done]].
  apply (engine_inv_stripe e e' idx st st4); try done.
  - apply set_next_wf; [done|]. rewrite S2, S3. intros l d Hl Hd.
    pose proof Hl as [Hk Hin]%(restricts_elem _ _ _ Hr). unfold kept_key in Hk.
    rewrite (find_own e idx st He Hst l Hin) in Hk.
    apply (sf_next _ _ _ _ _ _ _ Hf l); [by rewrite Ho|done|]. rewrite <-Hd.
    apply live_deadline_ext. rewrite (rs_long _ _ _ Hr), decide_True; [done|].
    unfold kept_key. by rewrite (find_own e idx st He Hst l Hin).
  - intros p Hp. change (digest_at e' (digest_slot (Z.of_nat idx) p)) with (digest_at (sa_engine a) (digest_slot (Z.of_nat idx) p)).
    rewrite D5 by done. f_equal. by apply (swept_versions e idx st now retention st4 m' order).
  - apply (swept_totals e idx st now retention a st1 st4 order Ho Hf); [done| |done|done].
    change (st_live st4) with (st_live st3). by rewrite S2, C1.
Qed.


Lemma sweep_stripes_spec now retention ids : forall e : Engine V, engine_inv e -> NoDup ids ->
  Forall (fun i => i < length (stripes e))%nat ids ->
  let e' := foldl (sweep_stripe now retention) e ids in
  engine_inv e' /\
  forall k, engine_record e' k =
    if bool_decide (bucket_of_key k ∈ ids)
    then swept_record (cfg e) (stripe_at e (bucket_of_key k)) now retention k
    else engine_record e k.
Proof.
  induction ids as [|i ids IH]; intros e He Hnd Hlt; cbn [foldl].
  { split; [done|]. intros k. by rewrite bool_decide_eq_false_2 by apply not_elem_of_nil. }
  apply NoDup_cons in Hnd as [Hi Hnd]. apply Forall_cons in Hlt as [Hlt Hlts].
  destruct (lookup_lt_is_Some_2 _ _ Hlt) as [st Hst].
  destruct (sweep_stripe_spec e i st now retention He Hst) as (He1 & Hcfg & st' & Hs & Hrec).
  set (e1 := sweep_stripe now retention e i) in *. clearbody e1.
  destruct (IH e1 He1 Hnd) as [He2 Hrec2]; [by rewrite Hs, length_insert|].
  split; [done|]. intros k. rewrite Hrec2, Hcfg.
  pose proof (stripe_at_insert e e1 i st' (bucket_of_key k) Hlt Hs) as Hat.
  destruct (decide (bucket_of_key k = i)) as [Hb|Hb].
  - rewrite bool_decide_eq_false_2 by (by rewrite Hb). rewrite bool_decide_eq_true_2 by (rewrite Hb; by left).
    unfold engine_record. rewrite Hat, Hrec. unfold stripe_at. by rewrite Hb, Hst.
  - rewrite (bool_decide_ext (bucket_of_key k ∈ i :: ids) (bucket_of_key k ∈ ids)) by (rewrite elem_of_cons; tauto).
    unfold engine_record. by rewrite Hat.
Qed.

(** A sweep removes exactly the live entries that read as absent. An expired entry leaves a
    tombstone of its own version where expiries are tombstoned, and nothing otherwise, like an
    idle one; every other record stays, and digests, totals, long deadlines and each stripe's
    next expiry follow. Without a time-to-idle, a sweep that tombstones its expiries moves no
    digest, so replicas that sweep at different times still agree. *)
Theorem sweep_exact (e : Engine V) (now : Z) (retention : option Z) (Hinv : engine_inv e) :
  engine_inv (sweep e now retention) /\
  (forall k, engine_record (sweep e now retention) k =
     swept_record (cfg e) (stripe_at e (bucket_of_key k)) now retention k) /\
  (tti_ms (cfg e) = None -> is_Some retention -> digest (sweep e now retention) = digest e).
Proof.
  destruct (sweep_stripes_spec now retention (seq 0 (length (stripes e))) e Hinv) as [H1 H2].
  { apply NoDup_seq. }
  { apply Forall_forall. intros i Hi%elem_of_seq. lia. }
  fold (sweep e now retention) in H1, H2.
  assert (Hrec : forall k, engine_record (sweep e now retention) k =
     swept_record (cfg e) (stripe_at e (bucket_of_key k)) now retention k).
  { intros k. rewrite H2, bool_decide_eq_true_2; [done|]. apply elem_of_seq. rewrite (ei_stripes _ Hinv).
    pose proof (bucket_of_key_lt k). lia. }
  split; [done|]. split; [done|]. intros Htti [ret ->]. apply engine_digest_eq; [done|done|].
  intros k. rewrite Hrec. unfold swept_record, engine_record. set (st := stripe_at e (bucket_of_key k)).
  destruct (find_in st k) as [l|] eqn:Ef; [|done].
  pose proof (ei_wf _ Hinv _ _ (stripe_at_lookup e k Hinv)) as Hwf. fold st in Hwf.
  apply find_live_Some in Ef as Hl. destruct Hl as [Hl Hlk].
  destruct (entry_fate _ _ _ _ l) eqn:Efl; [done| |].
  - exfalso. revert Efl. unfold entry_fate, sweep_fate, absent_at, absent_under, idle_at. rewrite Htti. cbn.
    destruct (live_deadline _ _ _); cbn; [|done]. by destruct (_ <=? now).
  - unfold stored_record. rewrite Ef, <-Hlk, (sw_disjoint _ _ Hwf l Hl). done.
Qed.

End Housekeeping.

(** ** Concrete runs *)

(** A value with a deadline at 2000, one without, and a deleted key. *)
Definition ttl_put (k v : Bytes) (t n d : Z) : Write Bytes :=
  {| wt_ctx := local_ctx; wt_key := k; wt_ver := stamp t n; wt_incoming := Put v (Some d) v |}.

Definition aging_engine : Engine Bytes :=
  run_writes LwwResolver empty_engine
    [ttl_put [1] [10] 500 1 2000; put_at [2] [20] 600 2; delete_at [3] 700 1].

Lemma aging_engine_inv : engine_inv aging_engine.
Proof.
  apply run_writes_inv; [apply engine_new_inv|]. repeat constructor; vm_compute; discriminate.
Qed.

Lemma gc_collects_exactly_the_lapsed_witness :
  engine_record (gc_tombstones aging_engine false 60699 60000).1 [3] = engine_record aging_engine [3] /\
  engine_record (gc_tombstones aging_engine false 60700 60000).1 [3] = None.
Proof.
  destruct (gc_collects_exactly_the_lapsed aging_engine false 60699 60000 aging_engine_inv) as [_ H1].
  destruct (gc_collects_exactly_the_lapsed aging_engine false 60700 60000 aging_engine_inv) as [_ H2].
  split; [rewrite (H1 [3])|rewrite (H2 [3])]; vm_compute; reflexivity.
Defined.

Definition peer_ctx : ApplyCtx Bytes := {|
  ac_weigher := None; ac_tti_ms := None; ac_merge_cap := None; ac_tombstone_ttl_ms := 60000;
  ac_tombstone_max_ttl_ms := 600000; ac_deferring := false; ac_now_ms := 70000;
  ac_from_peer := true; ac_held_only := false |}.

Definition aged_tombstone : Tombstone :=
  {| ts_ver := stamp 700 1; ts_ttl_deadline_ms := 60700; ts_max_deadline_ms := 600700;
     ts_expired_at_ms := None |}.

Lemma collected_delete_stays_gone_witness :
  let c := {| c_digest := 0; c_totals := totals empty_engine; c_ignored := 0; c_loads := ∅ |} in
  apply_locked (R:=LwwResolver) peer_ctx [3] (stamp 700 1) (IncTombstone None) stripe_new c =
  (stripe_new, count_ignored c, ORejected).
Proof.
  apply (collected_delete_stays_gone (R:=LwwResolver) peer_ctx aged_tombstone 1000 60700 [3]);
    [reflexivity|vm_compute; discriminate|vm_compute; split; discriminate|reflexivity|reflexivity].
Defined.

Lemma sweep_exact_witness :
  engine_record (sweep aging_engine 2000 (Some 60000)) [1] =
    Some {| wr_key := [1]; wr_value := None; wr_ver := stamp 500 1; wr_expires_at_ms := Some 2000 |} /\
  engine_record (sweep aging_engine 2000 None) [1] = None /\
  digest (sweep aging_engine 2000 (Some 60000)) = digest aging_engine.
Proof.
  destruct (sweep_exact aging_engine 2000 (Some 60000) aging_engine_inv) as (_ & H1 & H2).
  destruct (sweep_exact aging_engine 2000 None aging_engine_inv) as (_ & H3 & _).
  split; [rewrite (H1 [1]); vm_compute; reflexivity|].
  split; [rewrite (H3 [1]); vm_compute; reflexivity|]. apply H2; [reflexivity|eauto].
Defined.
