(* ===== verification/Compaction.v ===== *)
(** * Compaction

    [store/engine/housekeeping.rs]: the rotating scan that asks the resolver to compact resident
    values, and the replacement of a value only while its entry is still at the version the scan
    saw. The scan also shrinks a sparse stripe's allocation, which the arena list does not have:
    [shrink_to_fit] keeps the entries as they are. *)

From S2P Require Import Prelude Clock Part Types Record Expiry Wire Merge Arena Engine Apply Removal.

(** ** Definitions *)

Record CompactCandidate := { cc_key_bytes : Bytes; cc_stale_ver : Hlc; cc_new_encoded : Bytes }.
Record CompactRefusal := { cr_key_bytes : Bytes; cr_size : Z }.
Record CompactScan := {
  cs_candidates : list CompactCandidate;
  cs_refused : list CompactRefusal;
  cs_stripes_visited : Z;
}.

Definition should_shrink_stripe (len capacity : Z) : bool :=
  (0 <? capacity) && (len <=? capacity / 8).

Section Compaction.
Context {PU : PostcardU32} {HS : Hashing} {V : Type}.

Section Scan.
Context {R : ConflictResolver}.
Context (now_ms : Z) (retire : WriterId -> bool) (quiet : Quiescence) (bounds : CompactionBounds).

Record ScanAcc := {
  sc_out : list CompactCandidate;
  sc_refused : list CompactRefusal;
  sc_examined : Z;
}.

(** One entry of a visited stripe. *)
Definition scan_entry (cap : option MergeCap) (a : ScanAcc) (l : Live) : ScanAcc :=
  let encoded := record_value (lv_record l) in
  let examined := sc_examined a + 1 in
  match compact (live_key l) encoded now_ms retire quiet bounds with
  | None => {| sc_out := sc_out a; sc_refused := sc_refused a; sc_examined := examined |}
  | Some new_encoded =>
      let key_bytes := live_key l in
      if is_some_and cap (fun cap =>
           negb (admits cap (blen key_bytes) (blen new_encoded) (Some (blen encoded))))
      then {| sc_out := sc_out a;
              sc_refused := sc_refused a ++
                [{| cr_key_bytes := key_bytes; cr_size := blen new_encoded |}];
              sc_examined := examined |}
      else {| sc_out := sc_out a ++
                [{| cc_key_bytes := key_bytes; cc_stale_ver := live_ver l;
                    cc_new_encoded := new_encoded |}];
              sc_refused := sc_refused a; sc_examined := examined |}
  end.

(** The loop over stripes; [fuel] counts the stripes still unvisited, [BUCKET_COUNT] at first. *)
Fixpoint scan_loop (e : Engine V) (cap : option MergeCap) (max_entries start : Z) (fuel : nat)
    (visited next_start : Z) (a : ScanAcc) : ScanAcc * Z * Z :=
  match fuel with
  | O => (a, visited, next_start)
  | S fuel =>
      let idx := (start + visited) mod BUCKET_COUNT in
      let visited := visited + 1 in
      let next_start := (idx + 1) mod BUCKET_COUNT in
      let a := foldl (scan_entry cap) a (st_live (stripe_at e (Z.to_nat idx))) in
      if max_entries <=? sc_examined a then (a, visited, next_start)
      else scan_loop e cap max_entries start fuel visited next_start a
  end.

Definition compact_scan (e : Engine V) (max_entries : Z) : Engine V * CompactScan :=
  if max_entries =? 0 then
    (e, {| cs_candidates := []; cs_refused := []; cs_stripes_visited := 0 |})
  else
    let start := stripe_index_from_hash (compact_cursor e) in
    let '(a, visited, next_start) :=
      scan_loop e (merge_cap e) max_entries start (Z.to_nat BUCKET_COUNT) 0 start
        {| sc_out := []; sc_refused := []; sc_examined := 0 |} in
    (with_compact_cursor e next_start,
     {| cs_candidates := sc_out a; cs_refused := sc_refused a; cs_stripes_visited := visited |}).

End Scan.

(** The replacement: value, weight, version and re-encoded expiry of one live entry. *)
Definition compact_replace_if_current (e : Engine V) (key_bytes : Bytes) (expected_ver new_ver : Hlc)
    (value : V) (encoded : Bytes) : Engine V * bool :=
  let bucket := bucket_of_key key_bytes in
  let st := stripe_at e bucket in
  match find_slot key_bytes (st_live st) ≫= (fun i => pair i <$> st_live st !! i) with
  | None => (e, false)
  | Some (i, live) =>
      if negb (hlc_eqb (live_ver live) expected_ver) then (e, false)
      else
        let new_weight := weigh e key_bytes value in
        let old_weight := lv_weight live in
        let record := build_resident_record (live_key live) encoded in
        let (l, resident) := set_record live record (resident_bytes (totals e)) in
        let abs_expiry :=
          decode_expiry (lv_wall_ms live) (lv_expiry live) key_bytes (st_long_ttl st) in
        let (expiry, long_ttl_value) := encode_expiry (wall_ms new_ver) abs_expiry in
        let l := {| lv_record := lv_record l; lv_wall_ms := wall_ms new_ver; lv_node := node new_ver;
                    lv_expiry := expiry; lv_logical := logical new_ver; lv_weight := new_weight;
                    lv_last_access_ms := lv_last_access_ms l |} in
        let st := set_live st (<[i := l]> (st_live st)) in
        let st := set_long_ttl st (record_long key_bytes long_ttl_value (st_long_ttl st)) in
        let e := with_totals (with_stripe e bucket st) (with_resident (totals e) resident) in
        let e := fetch_xor e (slot_of_key key_bytes)
                   (Z.lxor (entry_fingerprint key_bytes expected_ver)
                      (entry_fingerprint key_bytes new_ver)) in
        (with_totals e (move_totals (totals e) (new_weight - old_weight) 0 0), true)
  end.

(** ** Replacing a value *)

Section Replace.
Context (idx : nat) (st : Stripe) (i : nat) (live l : Live) (new_ver : Hlc).
Context (Hwf : stripe_wf idx st) (Hi : st_live st !! i = Some live).
Context (Hkey : live_key l = live_key live).

Abbreviation k := (live_key live).
Abbreviation dl := (live_deadline live k (st_long_ttl st)).
Context (Hl : live_ver l = new_ver) (Hexp : lv_expiry l = (encode_expiry (wall_ms new_ver) dl).1).

Definition replaced : Stripe :=
  set_long_ttl (set_live st (<[i := l]> (st_live st)))
    (record_long k (encode_expiry (wall_ms new_ver) dl).2 (st_long_ttl st)).

Lemma replaced_keys : live_key <$> st_live replaced = live_key <$> st_live st.
Proof.
  cbn. rewrite list_fmap_insert, Hkey. apply list_insert_id. by rewrite list_lookup_fmap, Hi.
Qed.

Lemma replaced_perm : exists R, st_live st ≡ₚ live :: R /\ st_live replaced ≡ₚ l :: R.
Proof. apply (insert_perm _ _ _ _ Hi). Qed.

Lemma live_in : live ∈ st_live st.
Proof. by eapply list_elem_of_lookup_2. Qed.

Lemma replaced_find k' : find_in replaced k' = if decide (k' = k) then Some l else find_in st k'.
Proof.
  destruct replaced_perm as (R & H1 & H2). unfold find_in.
  rewrite (find_live_perm k' _ (l :: R)); [|rewrite replaced_keys; apply Hwf|done].
  rewrite (find_live_perm k' _ (live :: R) (sw_nodup _ _ Hwf) H1).
  rewrite !find_live_cons, Hkey. repeat case_decide; congruence.
Qed.

Lemma replaced_long_other k' : k' <> k -> st_long_ttl replaced !! k' = st_long_ttl st !! k'.
Proof.
  intros Hne. cbn. destruct (encode_expiry _ _).2; cbn; [by rewrite lookup_insert_ne|by rewrite lookup_delete_ne].
Qed.

Lemma replaced_deadline : live_deadline l k (st_long_ttl replaced) = dl.
Proof.
  pose proof (decode_encode_expiry (wall_ms new_ver) dl k (st_long_ttl st)) as Hdec.
  unfold live_deadline at 1. rewrite Hexp. replace (lv_wall_ms l) with (wall_ms new_ver) by (by rewrite <-Hl).
  cbn [st_long_ttl replaced set_long_ttl]. destruct (encode_expiry (wall_ms new_ver) dl). apply Hdec.
Qed.

Lemma replaced_sets : sets_record k
  (Some {| wr_key := k; wr_value := Some (record_value (lv_record l)); wr_ver := new_ver;
           wr_expires_at_ms := dl |}) st replaced.
Proof.
  intros k'. unfold stored_record. rewrite replaced_find. change (st_tombstones replaced) with (st_tombstones st).
  case_decide as Hk'; [subst k'|].
  - rewrite (sw_disjoint _ _ Hwf live live_in). cbn [fmap option_fmap option_map].
    by rewrite replaced_deadline, Hl.
  - destruct (st_tombstones st !! k'); [done|]. destruct (find_in st k'); [|done]. cbn.
    do 2 f_equal. by apply live_deadline_ext, replaced_long_other.
Qed.

Lemma replaced_wf : stripe_wf idx replaced.
Proof.
  destruct replaced_perm as (R & H1 & H2). pose proof replaced_keys as Hks.
  pose proof (decode_encode_expiry (wall_ms new_ver) dl k (st_long_ttl st)) as Hdec. split.
  - apply Forall_forall. intros x Hx. assert (Hin : live_key x ∈ (live_key <$> st_live st)).
    { rewrite <-Hks. by apply list_elem_of_fmap_2. }
    apply list_elem_of_fmap in Hin as (y & -> & Hy). by apply (proj1 (Forall_forall _ _) (sw_fits _ _ Hwf)).
  - rewrite Hks. apply Hwf.
  - intros x Hx. assert (Hin : live_key x ∈ (live_key <$> st_live st)).
    { rewrite <-Hks. by apply list_elem_of_fmap_2. }
    apply list_elem_of_fmap in Hin as (y & -> & Hy). by apply (sw_disjoint _ _ Hwf).
  - intros k'. rewrite (sets_record_versions _ _ _ _ replaced_sets), set_version_lookup.
    case_decide as Hk; [subst k'|apply (sw_bucket _ _ Hwf)]. intros _. apply (sw_bucket _ _ Hwf).
    rewrite versions_lookup, (sw_disjoint _ _ Hwf live live_in).
    unfold find_in. rewrite (find_live_unique _ _ live); [eauto|apply Hwf|apply live_in|done].
  - intros k'. rewrite replaced_find. case_decide as Hk; [subst k'|].
    + cbn. destruct (encode_expiry (wall_ms new_ver) dl) as [x long]. cbn in *.
      destruct Hdec as (_ & _ & Hlg). destruct long; cbn [record_long].
      * rewrite lookup_insert_eq. split; [|done]. intros _. exists l. rewrite Hexp. split; [done|].
        apply Hlg. eauto.
      * rewrite lookup_delete_eq. split; [by intros []|]. intros (l' & [= <-] & Hx').
        rewrite Hexp in Hx'. by apply Hlg in Hx' as [].
    + rewrite replaced_long_other by done. apply (sw_long _ _ Hwf).
  - intros x d. rewrite H2. intros [->|Hx]%elem_of_cons.
    + rewrite Hkey, replaced_deadline. intros Hd. by apply (sw_next _ _ Hwf live d live_in).
    + assert (Hxl : x ∈ st_live st) by (rewrite H1; by right).
      assert (Hne : live_key x <> k).
      { pose proof (sw_nodup _ _ Hwf) as Hnd. rewrite H1 in Hnd. apply NoDup_cons in Hnd as [Hnin _].
        intros Heq. apply Hnin. rewrite <-Heq. by apply list_elem_of_fmap_2. }
      rewrite (live_deadline_ext _ _ _ (st_long_ttl st)) by (by apply replaced_long_other).
      by apply (sw_next _ _ Hwf).
Qed.

Lemma replaced_counts :
  stripe_weight replaced = stripe_weight st + (lv_weight l - lv_weight live) /\
  stripe_count replaced = stripe_count st /\
  stripe_bytes replaced = stripe_bytes st + (entry_bytes l - entry_bytes live).
Proof.
  unfold stripe_weight, stripe_count, stripe_bytes. cbn [st_live replaced set_long_ttl set_live].
  rewrite length_insert, !(sum_update _ _ _ _ live) by done. done.
Qed.

End Replace.

Context {PUL : PostcardU32Laws}.

(** A compacted value replaces the one it was computed from and no other: the replacement
    happens exactly when the key's live entry is still at the version the scan saw; it then
    carries the new bytes and version, keeps its absolute deadline whatever the new version's
    clock does to its encoding, and digests and totals follow. *)
Theorem compact_replace_exact (e : Engine V) (k : Bytes) (expected_ver new_ver : Hlc) (value : V)
  (encoded : Bytes) (Hinv : engine_inv e) :
  let (e', done) := compact_replace_if_current e k expected_ver new_ver value encoded in
  let current := is_some_and (engine_record e k)
                   (fun r => is_some (wr_value r) && hlc_eqb (wr_ver r) expected_ver) in
  engine_inv e' /\ done = current /\
  forall k', engine_record e' k' =
    if decide (k' = k /\ current = true)
    then Some {| wr_key := k; wr_value := Some encoded; wr_ver := new_ver;
                 wr_expires_at_ms := engine_record e k ≫= wr_expires_at_ms |}
    else engine_record e k'.
Proof.
  pose proof (stripe_at_lookup e k Hinv) as Hst. pose proof (ei_wf _ Hinv _ _ Hst) as Hwf.
  unfold compact_replace_if_current. set (st := stripe_at e (bucket_of_key k)) in *.
  assert (Hstay : forall b r, b = false -> engine_inv e /\ false = b /\
    forall k', engine_record e k' = if decide (k' = k /\ b = true) then r else engine_record e k').
  { intros b r ->. split; [done|]. split; [done|]. intros k'. by rewrite decide_False by (by intros []). }
  destruct (find_in st k) as [live|] eqn:Ef; cycle 1.
  { assert (Hs : find_slot k (st_live st) ≫= (fun i => pair i <$> st_live st !! i) = None).
    { unfold find_in, find_live in Ef. destruct (find_slot k (st_live st)) as [i|]; [|done]. cbn in *. by rewrite Ef. }
    rewrite Hs. apply Hstay. unfold engine_record. fold st. unfold stored_record. rewrite Ef.
    by destruct (st_tombstones st !! k). }
  pose proof Ef as [Hin Hk]%find_live_Some. pose proof Ef as (i & Hs & Hi)%find_slot_live. rewrite Hs. cbn [mbind option_bind].
  rewrite Hi. cbn [fmap option_fmap option_map].
  assert (Hrec : engine_record e k = Some {| wr_key := k; wr_value := Some (record_value (lv_record live));
    wr_ver := live_ver live; wr_expires_at_ms := live_deadline live k (st_long_ttl st) |}).
  { unfold engine_record. fold st. unfold stored_record. rewrite Ef, <-Hk, (sw_disjoint _ _ Hwf live Hin). done. }
  rewrite Hrec. cbn [is_some_and wr_value is_some andb wr_ver mbind option_bind wr_expires_at_ms].
  destruct (hlc_eqb (live_ver live) expected_ver) eqn:Ev; cbn [negb]; [|by apply Hstay].
  apply hlc_eqb_eq in Ev. unfold set_record.
  destruct (encode_expiry (wall_ms new_ver) _) as [x long] eqn:Ee.
  set (l := {| lv_record := _; lv_wall_ms := _ |}).
  assert (Hkl : live_key l = live_key live).
  { unfold l, live_key. cbn. apply record_key_build.
    by apply (proj1 (Forall_forall _ _) (sw_fits _ _ Hwf)). }
  assert (Hlv : live_ver l = new_ver) by (by destruct new_ver).
  assert (Hdl : decode_expiry (lv_wall_ms live) (lv_expiry live) k (st_long_ttl st) = live_deadline live (live_key live) (st_long_ttl st))
    by (by rewrite Hk).
  rewrite Hdl in Ee.
  assert (Hx : lv_expiry l = (encode_expiry (wall_ms new_ver) (live_deadline live (live_key live) (st_long_ttl st))).1)
    by (by rewrite Ee).
  pose proof (replaced_wf (bucket_of_key k) st i live l new_ver Hwf Hi Hkl Hlv Hx) as Hwf'.
  pose proof (replaced_sets (bucket_of_key k) st i live l new_ver Hwf Hi Hkl Hlv Hx) as Hs'.
  destruct (replaced_counts st i live l new_ver Hi) as (Hw & Hc & Hbt).
  assert (Heq : set_long_ttl (set_live st (<[i := l]> (st_live st)))
    (record_long k long (st_long_ttl st)) = replaced st i live l new_ver).
  { unfold replaced. by rewrite Ee, Hk. }
  change (st_long_ttl (set_live st (<[i := l]> (st_live st)))) with (st_long_ttl st). rewrite Heq.
  set (st' := replaced st i live l new_ver) in *. clearbody st'. split; [|split; [done|]].
  - apply (engine_inv_set e _ k (Some new_ver) st st'); try done.
    + by rewrite (sets_record_versions _ _ _ _ Hs'), Hk.
    + cbn. by rewrite versions_record, (Hrec : stored_record st k = _), Ev.
    + assert (Hlw : lv_weight l = weigh e k value) by done. rewrite Hlw in Hw.
      apply totals_eq; cbn [totals fetch_xor with_digest with_totals with_stripe with_resident move_totals
        total_weight live_count resident_bytes]; [lia|lia|]. rewrite move_resident_0, Hbt. unfold entry_bytes.
      destruct (resident_bytes (totals e)); cbn; [|done]. destruct (_ <=? _); f_equal; lia.
  - intros k'. rewrite (engine_record_insert e _ (bucket_of_key k) st') by (done || apply bucket_of_key_lt).
    rewrite Hk in Hs'. destruct (decide (bucket_of_key k' = bucket_of_key k)) as [Hb|Hb].
    + rewrite (Hs' k'). destruct (decide (k' = k)) as [->|Hne].
      * rewrite decide_True by done. unfold l. cbn. rewrite record_value_build; [done|].
        by apply (proj1 (Forall_forall _ _) (sw_fits _ _ Hwf)).
      * rewrite decide_False by tauto. unfold engine_record. by rewrite Hb.
    + rewrite decide_False; [done|]. intros [-> _]. done.
Qed.

(** ** The scan *)

Section ScanTheory.
Context {R : ConflictResolver}.
Context (now_ms : Z) (retire : WriterId -> bool) (quiet : Quiescence) (bounds : CompactionBounds).

Abbreviation entry := (scan_entry now_ms retire quiet bounds).
Abbreviation compacts l := (compact (live_key l) (record_value (lv_record l)) now_ms retire quiet bounds).

(** The frame cap lets the compacted value replace the one it is computed from. *)
Definition fits_cap (cap : option MergeCap) (l : Live) (new_encoded : Bytes) : bool :=
  negb (is_some_and cap (fun cap =>
    negb (admits cap (blen (live_key l)) (blen new_encoded) (Some (blen (record_value (lv_record l))))))).

Lemma scan_entries_spec cap ls : forall a,
  let a' := foldl (entry cap) a ls in
  sc_examined a' = sc_examined a + Z.of_nat (length ls) /\
  (forall c, c ∈ sc_out a' <-> c ∈ sc_out a \/ exists l, l ∈ ls /\ compacts l = Some (cc_new_encoded c) /\
     fits_cap cap l (cc_new_encoded c) = true /\ cc_key_bytes c = live_key l /\ cc_stale_ver c = live_ver l) /\
  (forall r, r ∈ sc_refused a' <-> r ∈ sc_refused a \/ exists l n, l ∈ ls /\ compacts l = Some n /\
     fits_cap cap l n = false /\ r = {| cr_key_bytes := live_key l; cr_size := blen n |}).
Proof.
  induction ls as [|l ls IH]; intros a; cbn [foldl].
  { split_and!; [cbn; lia|..]; intros x; (split; [by left|]); intros [?|Hx]; try done.
    - destruct Hx as (l & Hl & _). by apply not_elem_of_nil in Hl.
    - destruct Hx as (l & n & Hl & _). by apply not_elem_of_nil in Hl. }
  destruct (IH (entry cap a l)) as (H1 & H2 & H3). clear IH.
  assert (Hout : forall c, c ∈ sc_out (entry cap a l) <-> c ∈ sc_out a \/
    (compacts l = Some (cc_new_encoded c) /\ fits_cap cap l (cc_new_encoded c) = true /\
     cc_key_bytes c = live_key l /\ cc_stale_ver c = live_ver l)).
  { intros c. unfold scan_entry, fits_cap. destruct (compacts l) as [n|]; [|cbn; intuition congruence].
    destruct (is_some_and cap _) eqn:E; cbn [sc_out].
    - split; [by left|]. intros [?|([= <-] & Hf & _)]; [done|]. by rewrite E in Hf.
    - rewrite elem_of_app, list_elem_of_singleton. split.
      + intros [?| ->]; [by left|]. right. cbn. by rewrite E.
      + intros [?|([= Hn] & _ & Hk & Hv)]; [by left|]. right. destruct c; cbn in *. congruence. }
  assert (Href : forall r, r ∈ sc_refused (entry cap a l) <-> r ∈ sc_refused a \/
    exists n, compacts l = Some n /\ fits_cap cap l n = false /\ r = {| cr_key_bytes := live_key l; cr_size := blen n |}).
  { intros r. unfold scan_entry, fits_cap. destruct (compacts l) as [n|];
      [|cbn; split; [by left|intros [?|(n & ? & _)]; done]].
    destruct (is_some_and cap _) eqn:E; cbn [sc_refused].
    - rewrite elem_of_app, list_elem_of_singleton. split.
      + intros [?| ->]; [by left|]. right. exists n. by rewrite E.
      + intros [?|(n' & [= <-] & _ & ->)]; [by left|by right].
    - split; [by left|]. intros [?|(n' & [= <-] & Hf & _)]; [done|]. by rewrite E in Hf. }
  assert (Hex : sc_examined (entry cap a l) = sc_examined a + 1).
  { unfold scan_entry. destruct (compacts l); [|done]. by destruct (is_some_and cap _). }
  split; [|split].
  - rewrite H1, Hex. cbn [length]. lia.
  - intros c. rewrite H2, Hout. setoid_rewrite elem_of_cons. split.
    + intros [[?|?]|(x & ? & ?)]; [by left|right; exists l; auto|right; eauto].
    + intros [?|(x & [->|?] & ?)]; [auto|auto|right; eauto].
  - intros r. rewrite H3, Href. setoid_rewrite elem_of_cons. split.
    + intros [[?|(n & ?)]|(x & n & ? & ?)]; [by left|right; exists l, n; auto|right; eauto].
    + intros [?|(x & n & [->|?] & ?)]; [auto|left; right; eauto|right; eauto].
Qed.

(** The live entries of stripes [visited .. visited' - 1] in the scan's order. *)
Definition scanned (e : Engine V) (start visited visited' : Z) : list Live :=
  mjoin ((fun j => st_live (stripe_at e (Z.to_nat ((start + j) mod BUCKET_COUNT)))) <$>
         seqZ visited (visited' - visited)).

Lemma scanned_live (e : Engine V) start v v' l : engine_inv e -> l ∈ scanned e start v v' ->
  let st := stripe_at e (bucket_of_key (live_key l)) in
  engine_record e (live_key l) =
  Some {| wr_key := live_key l; wr_value := Some (record_value (lv_record l)); wr_ver := live_ver l;
          wr_expires_at_ms := live_deadline l (live_key l) (st_long_ttl st) |}.
Proof.
  intros He Hl. unfold scanned in Hl. apply list_elem_of_join in Hl as (ls & Hl & (j & -> & _)%list_elem_of_fmap).
  set (b := Z.to_nat _) in Hl. destruct (stripes e !! b) as [st0|] eqn:Hst; cycle 1.
  { unfold stripe_at in Hl. rewrite Hst in Hl. by apply not_elem_of_nil in Hl. }
  pose proof (ei_wf _ He _ _ Hst) as Hwf. unfold stripe_at in Hl. rewrite Hst in Hl. cbn in Hl.
  assert (Hfind : find_in st0 (live_key l) = Some l) by (apply find_live_unique; [apply Hwf|done|done]).
  pose proof (sw_disjoint _ _ Hwf l Hl) as Ht.
  assert (Hb : bucket_of_key (live_key l) = b).
  { apply (sw_bucket _ _ Hwf). rewrite versions_lookup, Ht, Hfind. cbn. eauto. }
  unfold engine_record, stripe_at. rewrite Hb, Hst. cbn. unfold stored_record. by rewrite Ht, Hfind.
Qed.

Lemma scan_loop_spec (e : Engine V) cap max start fuel : forall visited next a,
  next = (start + visited) mod BUCKET_COUNT -> sc_examined a < max ->
  let '(a', visited', next') := scan_loop now_ms retire quiet bounds e cap max start fuel visited next a in
  a' = foldl (entry cap) a (scanned e start visited visited') /\
  visited <= visited' <= visited + Z.of_nat fuel /\ next' = (start + visited') mod BUCKET_COUNT /\
  (sc_examined a' < max -> visited' = visited + Z.of_nat fuel) /\ (0 < Z.of_nat fuel -> visited < visited').
Proof.
  induction fuel as [|fuel IH]; intros visited next a Hn Ha; cbn [scan_loop].
  { unfold scanned. rewrite Z.sub_diag. cbn. split_and!; (done || lia). }
  set (a1 := foldl _ a _).
  assert (Hnext : ((start + visited) mod BUCKET_COUNT + 1) mod BUCKET_COUNT = (start + (visited + 1)) mod BUCKET_COUNT).
  { unfold BUCKET_COUNT. rewrite Zplus_mod_idemp_l. f_equal. lia. }
  assert (Hcat : forall v', visited + 1 <= v' -> scanned e start visited v' =
    st_live (stripe_at e (Z.to_nat ((start + visited) mod BUCKET_COUNT))) ++ scanned e start (visited + 1) v').
  { intros v' Hv. unfold scanned. rewrite (seqZ_cons visited) by lia.
    replace (Z.pred (v' - visited)) with (v' - (visited + 1)) by lia. done. }
  rewrite Hnext. destruct (Z.leb_spec max (sc_examined a1)) as [Hge|Hlt].
  - split_and!; try lia; try done. rewrite Hcat by lia. unfold scanned. rewrite Z.sub_diag. cbn.
    by rewrite app_nil_r.
  - specialize (IH (visited + 1) ((start + (visited + 1)) mod BUCKET_COUNT) a1 eq_refl Hlt).
    destruct (scan_loop _ _ _ _ _ _ _ _ _ _ _ _) as [[a' v'] n']. destruct IH as (-> & Hv & -> & Hfull & _).
    split_and!; try lia.
    rewrite Hcat, foldl_app by lia. done.
Qed.

(** A compaction scan stores nothing. Every candidate it returns is a live record at the
    version named, with the resolver's compacted bytes, within the frame cap; every value of the
    stripes it visited that the resolver compacts is a candidate or a refusal; and the cursor
    advances by exactly the stripes visited, at least one, so consecutive scans rotate through
    all of them. A scan that stops before its budget has seen every stripe. *)
Theorem compact_scan_sound (e : Engine V) (max_entries : Z) (Hinv : engine_inv e)
  (Hmax : 0 < max_entries) :
  let start := stripe_index_from_hash (compact_cursor e) in
  let (e', scan) := compact_scan now_ms retire quiet bounds e max_entries in
  let visited := cs_stripes_visited scan in
  e' = with_compact_cursor e ((start + visited) mod BUCKET_COUNT) /\
  0 < visited <= BUCKET_COUNT /\
  (Z.of_nat (length (scanned e start 0 visited)) < max_entries -> visited = BUCKET_COUNT) /\
  (forall c, c ∈ cs_candidates scan -> exists old d,
     engine_record e (cc_key_bytes c) =
       Some {| wr_key := cc_key_bytes c; wr_value := Some old; wr_ver := cc_stale_ver c;
               wr_expires_at_ms := d |} /\
     compact (cc_key_bytes c) old now_ms retire quiet bounds = Some (cc_new_encoded c) /\
     is_none_or (merge_cap e) (fun cap =>
       admits cap (blen (cc_key_bytes c)) (blen (cc_new_encoded c)) (Some (blen old))) = true) /\
  (forall l n, l ∈ scanned e start 0 visited -> compacts l = Some n ->
     {| cc_key_bytes := live_key l; cc_stale_ver := live_ver l; cc_new_encoded := n |} ∈ cs_candidates scan \/
     {| cr_key_bytes := live_key l; cr_size := blen n |} ∈ cs_refused scan).
Proof.
  intros start. unfold compact_scan. rewrite (proj2 (Z.eqb_neq _ _)) by lia. fold start.
  assert (Hstart : start = (start + 0) mod BUCKET_COUNT).
  { pose proof (stripe_index_range (compact_cursor e)). rewrite Z.add_0_r. by rewrite Z.mod_small. }
  pose proof (scan_loop_spec e (merge_cap e) max_entries start (Z.to_nat BUCKET_COUNT) 0 start
    {| sc_out := []; sc_refused := []; sc_examined := 0 |} Hstart Hmax) as Hloop.
  destruct (scan_loop _ _ _ _ _ _ _ _ _ _ _ _) as [[a v] n]. destruct Hloop as (-> & Hv & -> & Hfull & Hpos).
  cbn [cs_stripes_visited cs_candidates cs_refused]. unfold BUCKET_COUNT in Hv, Hfull, Hpos.
  destruct (scan_entries_spec (merge_cap e) (scanned e start 0 v)
    {| sc_out := []; sc_refused := []; sc_examined := 0 |}) as (Hex & Hout & Href).
  cbn [sc_examined sc_out sc_refused] in *. split_and!.
  - done.
  - lia.
  - unfold BUCKET_COUNT. lia.
  - rewrite Hex in Hfull. unfold BUCKET_COUNT. intros. rewrite Hfull by lia. lia.
  - intros c [?|(l & Hl & Hc & Hf & -> & ->)]%Hout; [by apply not_elem_of_nil in H|].
    apply scanned_live in Hl; [|done]. exists (record_value (lv_record l)), (live_deadline l (live_key l) (st_long_ttl (stripe_at e (bucket_of_key (live_key l))))).
    split; [done|]. split; [done|]. unfold fits_cap in Hf. destruct (merge_cap e); cbn in *; [|done].
    by rewrite negb_involutive in Hf.
  - intros l n Hl Hc. destruct (fits_cap (merge_cap e) l n) eqn:Hf.
    + left. apply Hout. right. by exists l.
    + right. apply Href. right. by exists l, n.
Qed.

End ScanTheory.

End Compaction.

(** ** Concrete runs *)

(** A resolver that compacts a value to its first byte. *)
Definition FirstByte : ConflictResolver := {|
  winner := lww_winner; needs_value_bytes := false; merges := false;
  merge _ _ _ := None;
  compact _ v _ _ _ _ := if (1 <? length v)%nat then Some (take 1 v) else None;
  settle _ _ _ _ := None;
|}.

Definition wide_engine : Engine Bytes :=
  run_writes LwwResolver empty_engine [put_at [1] [10; 11] 500 1; put_at [2] [20] 600 2].

Lemma wide_engine_inv : engine_inv wide_engine.
Proof.
  apply run_writes_inv; [apply engine_new_inv|]. repeat constructor; vm_compute; discriminate.
Qed.

Lemma compact_replace_exact_witness :
  (compact_replace_if_current wide_engine [1] (stamp 500 1) (stamp 500 9) [10] [10]).2 = true /\
  (compact_replace_if_current wide_engine [1] (stamp 400 1) (stamp 500 9) [10] [10]).2 = false /\
  engine_inv (compact_replace_if_current wide_engine [1] (stamp 500 1) (stamp 500 9) [10] [10]).1.
Proof.
  split; [vm_compute; reflexivity|]. split; [vm_compute; reflexivity|].
  pose proof (compact_replace_exact wide_engine [1] (stamp 500 1) (stamp 500 9) [10] [10] wide_engine_inv) as H.
  destruct (compact_replace_if_current wide_engine [1] (stamp 500 1) (stamp 500 9) [10] [10]). exact (proj1 H).
Defined.

Lemma compact_scan_sound_witness :
  let scan := (compact_scan (R:=FirstByte) 0 (fun _ => false) Settled (three_bounds 1000) wide_engine 10).2 in
  cs_candidates scan = [{| cc_key_bytes := [1]; cc_stale_ver := stamp 500 1; cc_new_encoded := [10] |}] /\
  0 < cs_stripes_visited scan <= BUCKET_COUNT.
Proof.
  cbv zeta. split; [vm_compute; reflexivity|].
  pose proof (compact_scan_sound (R:=FirstByte) 0 (fun _ => false) Settled (three_bounds 1000)
    wide_engine 10 wide_engine_inv eq_refl) as H. cbv zeta in H.
  destruct (compact_scan 0 (fun _ => false) Settled (three_bounds 1000) wide_engine 10) as [e' scan].
  exact (proj1 (proj2 H)).
Defined.
