(* ===== verification/Evict.v ===== *)
(** * Capacity eviction

    [store/engine/evict.rs] and [Written] of [mod.rs], in the build without the [spill] feature:
    sampled victim selection, one-victim and batched lock holds, the scan for a stripe with a
    victim, and the loop that brings the total weight back under the cap. No victim is ever
    refused in this build, so an outcome's [deficit] is 0, its [refused] false, and the pending
    spill weight 0. *)

From stdpp Require Import sorting.
From S2P Require Import Prelude Clock Part Types Record Expiry Wire Merge Arena Engine Apply Removal.
#[local] Open Scope Z_scope.

(** ** Definitions *)

Definition EVICTION_SAMPLE : Z := 8.
Definition EVICTION_BATCH_SAMPLE : Z := 32.
Definition EVICTION_BATCH : Z := 8.

Definition defer_to_flusher (refused : bool) (total_weight pending_spill_weight limit : Z) : bool :=
  (0 <? pending_spill_weight) && (refused || (total_weight <=? limit)).

Definition deficit_once_still_over_capacity (current limit deficit : Z) : Z :=
  if current <=? limit then 0 else deficit.

(** The loop of [eviction_batch_size]: the first index where enough is cleared. *)
Fixpoint batch_prefix (over_by cleared : Z) (evicted cap : nat) (weights : list Z) : nat :=
  match weights with
  | [] => cap
  | w :: rest =>
      if over_by <=? cleared then evicted
      else batch_prefix over_by (cleared + w) (evicted + 1) cap rest
  end.

Definition eviction_batch_size (over_by : Z) (sampled_weights : list Z) : nat :=
  let cap := Nat.min (Z.to_nat EVICTION_BATCH) ((length sampled_weights + 1) / 2) in
  batch_prefix over_by 0 0 cap (take cap sampled_weights).

Record EvictOutcome := { eo_removed_weight : Z; eo_deficit : Z; eo_refused : bool }.
Definition evict_default : EvictOutcome :=
  {| eo_removed_weight := 0; eo_deficit := 0; eo_refused := false |}.
Definition made_no_progress (o : EvictOutcome) : bool := eo_removed_weight o =? 0.

(** Without the [spill] feature an entry is a candidate when it has a weight. *)
Definition is_spill_candidate (l : Live) : bool := 0 <? lv_weight l.

(** The hashes the writes in progress stored, and the tombstones they ignored. *)
Record Written := { w_hashes : gset Z; w_ignored_tombstones : Z }.
Definition written_default : Written := {| w_hashes := ∅; w_ignored_tombstones := 0 |}.
Definition written_insert (w : Written) (hash : Z) : Written :=
  {| w_hashes := {[ hash ]} ∪ w_hashes w; w_ignored_tombstones := w_ignored_tombstones w |}.
Definition written_of (hash : Z) : Written := written_insert written_default hash.
Definition written_is_empty (w : Written) : bool := bool_decide (w_hashes w = ∅).
Definition written_clear (w : Written) : Written :=
  {| w_hashes := ∅; w_ignored_tombstones := w_ignored_tombstones w |}.
Definition written_ignore (w : Written) (n : Z) : Written :=
  {| w_hashes := w_hashes w; w_ignored_tombstones := w_ignored_tombstones w + n |}.

(** [sort_unstable_by_key] on the idle time, coldest first: ties come in any order. *)
Class IdleSort := { idle_sort : list (Bytes * Z * Z) -> list (Bytes * Z * Z) }.
Class IdleSortLaws `{IdleSort} : Prop := {
  idle_sort_perm l : idle_sort l ≡ₚ l;
  idle_sort_sorted l : StronglySorted (fun a b => b.1.2 <= a.1.2) (idle_sort l);
}.

Section Evict.
Context {PU : PostcardU32} {HS : Hashing} {V : Type} {IS : IdleSort}.

Definition written_holds (w : Written) (l : Live) : bool :=
  negb (written_is_empty w) && bool_decide (hash_key_bytes (live_key l) ∈ w_hashes w).

(** xorshift64 over the engine's cursor. *)
Definition next_random (e : Engine V) : Engine V * Z :=
  let x := evict_cursor e in
  let x := Z.lxor x (Z.shiftl x 13 mod 2 ^ 64) in
  let x := Z.lxor x (Z.shiftr x 7) in
  let x := Z.lxor x (Z.shiftl x 17 mod 2 ^ 64) in
  (with_evict_cursor e x, x).

Definition next_pseudo_random_bucket (e : Engine V) : Engine V * nat :=
  let (e, x) := next_random e in (e, Z.to_nat (stripe_index_from_hash x)).

Definition sample_offset (e : Engine V) (len : nat) : Engine V * nat :=
  if (len =? 0)%nat then (e, 0%nat)
  else let (e, x) := next_random e in (e, Z.to_nat (x mod Z.of_nat len)).

(** The stripe's arena from a random slot on, wrapping; entries the write in progress stored
    are passed over before the sample is cut, weightless ones after. *)
Definition sample_candidates (e : Engine V) (st : Stripe) (sample_size : Z) (written : Written) :
    Engine V * list Live :=
  let (e, offset) := sample_offset e (length (st_live st)) in
  let rotated := drop offset (st_live st) ++ take offset (st_live st) in
  let eligible := filter (fun l =>
    (negb (is_spill_candidate l) || (max_capacity (cfg e) <? lv_weight l)
     || negb (written_holds written l)) = true) rotated in
  (e, filter (fun l => is_spill_candidate l = true) (take (Z.to_nat sample_size) eligible)).

(** [evict_victim_locked]: the entry leaves with its fingerprint; weight and count are the
    caller's. *)
Definition evict_victim_locked (e : Engine V) (bucket : nat) (victim : Bytes) :
    Engine V * option Z :=
  match remove_live (stripe_at e bucket) (resident_bytes (totals e)) victim with
  | (st, resident, Some removed) =>
      let e := with_totals (with_stripe e bucket st) (with_resident (totals e) resident) in
      (fetch_xor e (digest_slot (Z.of_nat bucket) (part_of_key victim))
         (entry_fingerprint victim (rl_ver removed)), Some (rl_weight removed))
  | (_, _, None) => (e, None)
  end.

Definition live_idle (now_ms : Z) (l : Live) : Z := idle_elapsed_ms now_ms (lv_last_access_ms l).

(** [Iterator::max_by_key]: the last of the largest. *)
Definition max_by_idle (now_ms : Z) (ls : list Live) : option Live :=
  foldl (fun best l =>
    match best with
    | Some b => if live_idle now_ms b <=? live_idle now_ms l then Some l else best
    | None => Some l
    end) None ls.

Definition evict_one_sampled (e : Engine V) (bucket : nat) (written : Written) (now_ms : Z) :
    Engine V * EvictOutcome :=
  let (e, sampled) := sample_candidates e (stripe_at e bucket) EVICTION_SAMPLE written in
  match max_by_idle now_ms sampled with
  | None => (e, evict_default)
  | Some l =>
      match evict_victim_locked e bucket (live_key l) with
      | (e, Some weight) =>
          (with_totals e (move_totals (totals e) (- weight) (-1) 0),
           {| eo_removed_weight := weight; eo_deficit := 0; eo_refused := false |})
      | (e, None) => (e, evict_default)
      end
  end.

(** [find_map] over the stripes from [bucket] on, wrapping. *)
Fixpoint scan_stripes (e : Engine V) (candidates : list nat) (written : Written) (now_ms : Z) :
    Engine V * option (nat * EvictOutcome) :=
  match candidates with
  | [] => (e, None)
  | c :: rest =>
      let (e, outcome) := evict_one_sampled e c written now_ms in
      if negb (made_no_progress outcome) || (0 <? eo_deficit outcome) then (e, Some (c, outcome))
      else scan_stripes e rest written now_ms
  end.

Definition evict_one_scanning (e : Engine V) (bucket : nat) (written : Written) (now_ms : Z) :
    Engine V * option (nat * EvictOutcome) :=
  let n := Z.to_nat BUCKET_COUNT in
  scan_stripes e ((fun step => (bucket + step) mod n)%nat <$> seq 0 n) written now_ms.

(** The batch's loop over its victims: the engine, with the weight and the count removed. *)
Definition evict_victims (bucket : nat) (e : Engine V) (keys : list Bytes) : Engine V * Z * Z :=
  foldl (fun acc key =>
    let '(e, w, c) := acc in
    match evict_victim_locked e bucket key with
    | (e, Some weight) => (e, w + weight, c + 1)
    | (e, None) => (e, w, c)
    end) (e, 0, 0) keys.

Definition evict_batch_sampled (e : Engine V) (bucket : nat) (over_by : Z) (written : Written)
    (only_if_dense : bool) (now_ms : Z) : Engine V * EvictOutcome :=
  let (e, candidates) := sample_candidates e (stripe_at e bucket) EVICTION_BATCH_SAMPLE written in
  let sampled := (fun l => (live_key l, live_idle now_ms l, lv_weight l)) <$> candidates in
  if bool_decide (sampled = [])
     || (only_if_dense && bool_decide (Z.of_nat (length sampled) < EVICTION_SAMPLE))
  then (e, evict_default)
  else
    let sampled := idle_sort sampled in
    let victims := eviction_batch_size over_by sampled.*2 in
    let '(e, removed_weight, removed_count) :=
      evict_victims bucket e (take victims sampled).*1.*1 in
    (with_totals e (move_totals (totals e) (- removed_weight) (- removed_count) 0),
     {| eo_removed_weight := removed_weight; eo_deficit := 0; eo_refused := false |}).

(** One round of the loop either ends it, with the weight freed, or names the next round's
    stripe and whether it follows a scan. *)
Inductive Round := RDone (deficit freed : Z) | RNext (bucket : nat) (after_scan : bool) (freed : Z).

Definition evict_round (limit : Z) (start_bucket : nat) (now_ms : Z) (e : Engine V)
    (written : Written) (bucket : nat) (after_scan : bool) (freed : Z) :
    Engine V * Written * Round :=
  let current := saturating_add (total_weight (totals e)) 0 in
  if current <=? limit then (e, written, RDone 0 freed)
  else
    let over_by := current - limit in
    let (e, batch) := evict_batch_sampled e bucket over_by written after_scan now_ms in
    let freed := freed + eo_removed_weight batch in
    let next :=
      let (e, b) := next_pseudo_random_bucket e in (e, written, RNext b false freed) in
    if 0 <? eo_deficit batch then
      (e, written,
       RDone (deficit_once_still_over_capacity (saturating_add (total_weight (totals e)) 0) limit
                (eo_deficit batch)) freed)
    else if made_no_progress batch && negb after_scan then
      if defer_to_flusher (eo_refused batch) (total_weight (totals e)) 0 limit
      then (e, written, RDone 0 freed)
      else
        match evict_one_scanning e bucket written now_ms with
        | (e, None) =>
            if negb (written_is_empty written)
            then (e, written_clear written, RNext start_bucket after_scan freed)
            else (e, written, RDone 0 freed)
        | (e, Some (found, outcome)) =>
            if 0 <? eo_deficit outcome
            then (e, written, RDone (eo_deficit outcome) (freed + eo_removed_weight outcome))
            else if made_no_progress outcome then (e, written, RDone 0 freed)
            else (e, written, RNext found true (freed + eo_removed_weight outcome))
        end
    else next.

Fixpoint evict_loop (limit : Z) (start_bucket : nat) (now_ms : Z) (fuel : nat) (e : Engine V)
    (written : Written) (bucket : nat) (after_scan : bool) (freed : Z) :
    option (Engine V * Written * (Z * Z)) :=
  match fuel with
  | O => None
  | S fuel =>
      match evict_round limit start_bucket now_ms e written bucket after_scan freed with
      | (e, written, RDone deficit freed) => Some (e, written, (deficit, freed))
      | (e, written, RNext bucket after_scan freed) =>
          evict_loop limit start_bucket now_ms fuel e written bucket after_scan freed
      end
  end.

(** [evict_down_to_freeing]. Each round but the last lowers [2 * total_weight], plus 2 while
    [written] is not empty, plus 1 after a scan; so this much fuel is never used up. *)
Definition evict_fuel (e : Engine V) : nat := Z.to_nat (2 * total_weight (totals e) + 4).

Definition evict_down_to_freeing (limit : Z) (e : Engine V) (start_bucket : nat)
    (written : Written) (now_ms : Z) : option (Engine V * Written * (Z * Z)) :=
  if max_capacity (cfg e) =? u64_max then Some (e, written, (0, 0))
  else evict_loop limit start_bucket now_ms (evict_fuel e) e written start_bucket false 0.

Definition enforce_capacity (e : Engine V) (start_bucket : nat) (written : Written) (now_ms : Z) :
    option (Engine V * Written * (Z * Z)) :=
  evict_down_to_freeing (max_capacity (cfg e)) e start_bucket written now_ms.


(** ** What a pass may change *)

(** Live entries leave, with their records, and nothing else changes but the cursor and the
    totals. *)
Record evicted (e e' : Engine V) : Prop := {
  ev_cfg : cfg e' = cfg e;
  ev_loads : loads e' = loads e;
  ev_inflight idx : st_inflight (stripe_at e' idx) = st_inflight (stripe_at e idx);
  ev_live idx : st_live (stripe_at e' idx) ⊆+ st_live (stripe_at e idx);
  ev_record k : engine_record e' k = engine_record e k \/
                (engine_record e' k = None /\ has_live e k = true);
}.

#[export] Instance evicted_preorder : PreOrder evicted.
Proof.
  split.
  - intros e. split; try done. by left.
  - intros e1 e2 e3 [Hc Hl Hi Hv Hr] [Hc' Hl' Hi' Hv' Hr']. split; [congruence..| | |].
    + intros idx. by rewrite Hi', Hi.
    + intros idx. etrans; [apply Hv'|apply Hv].
    + intros k. destruct (Hr k) as [Heq|[Hn Hh]], (Hr' k) as [Heq'|[Hn' Hh']].
      * left. congruence.
      * right. split; [done|]. unfold has_live in *. by rewrite <-Heq.
      * right. split; [congruence|done].
      * by right.
Qed.

(** The engine once the weight and the count of departed entries are settled. *)
Definition settle (e : Engine V) (w c : Z) : Engine V :=
  with_totals e (move_totals (totals e) (- w) (- c) 0).

Lemma settle_0 (e : Engine V) : engine_inv e <-> engine_inv (settle e 0 0).
Proof.
  split; intros He; (eapply engine_inv_ext; [exact He|done..|]);
    apply totals_eq; cbn; rewrite ?move_resident_0; lia || done.
Qed.

Lemma settle_stripes (e e' : Engine V) w c : cfg e' = cfg e -> loads e' = loads e ->
  stripes e' = stripes e -> evicted e (settle e' w c).
Proof.
  intros Hc Hl Hs. split; [done..| | |].
  - intros idx. unfold stripe_at. cbn. by rewrite Hs.
  - intros idx. unfold stripe_at. cbn. by rewrite Hs.
  - intros k. left. unfold engine_record, stripe_at. cbn. by rewrite Hs.
Qed.

(** The victim leaves its stripe; the caller still owes the totals. *)
Lemma victim_spec (e : Engine V) w c k : engine_inv (settle e w c) ->
  let '(e', r) := evict_victim_locked e (bucket_of_key k) k in
  r = lv_weight <$> find_in (stripe_at e (bucket_of_key k)) k /\
  engine_inv (settle e' (w + default 0 r) (c + if is_some r then 1 else 0)) /\ evicted e e' /\
  forall idx l, l ∈ st_live (stripe_at e idx) -> live_key l <> k -> l ∈ st_live (stripe_at e' idx).
Proof.
  intros He. pose proof (stripe_at_lookup _ k He) as Hst. unfold evict_victim_locked.
  change (stripe_at (settle e w c) (bucket_of_key k)) with (stripe_at e (bucket_of_key k)) in Hst.
  set (st := stripe_at e (bucket_of_key k)) in *. pose proof (ei_wf _ He _ _ Hst) as Hwf.
  destruct (find_in st k) as [l|] eqn:Ef; cycle 1.
  { assert (Hrm : remove_live st (resident_bytes (totals e)) k = (st, resident_bytes (totals e), None)).
    { unfold remove_live. unfold find_in, find_live in Ef.
      destruct (find_slot k (st_live st)) as [i|]; [|done]. cbn in *. by rewrite Ef. }
    rewrite Hrm. split; [done|]. cbn. rewrite !Z.add_0_r. done. }
  assert (Ht : st_tombstones st !! k = None).
  { apply find_live_Some in Ef as [Hl <-]. by apply (sw_disjoint _ _ Hwf). }
  destruct (remove_live_spec _ st (resident_bytes (totals e)) k Hwf Ht)
    as (st1 & -> & Hr & _ & Hi & Hw & Hc). rewrite Ef in *. cbn in Hw, Hc |- *.
  pose proof (restricts_sets _ _ _ _ Hwf Hr) as Hs.
  assert (Hlt : (bucket_of_key k < length (stripes e))%nat) by (by apply lookup_lt_Some in Hst).
  split; [done|]. split.
  - apply (engine_inv_set (settle e w c) _ k None st st1); try done.
    + by apply (restricts_wf _ _ _ _ Hwf Hr).
    + by rewrite (sets_record_versions _ _ _ _ Hs).
    + cbn. rewrite <-slot_of_key_bucket, versions_lookup, Ht, Ef. cbn. by rewrite Z.lxor_0_r.
    + apply totals_eq; cbn; rewrite ?move_resident_0; (lia || done).
  - split; [split; [done..| | |]|].
    + intros idx. rewrite (stripe_at_insert e _ (bucket_of_key k) st1) by done.
      case_decide; subst; done.
    + intros idx. rewrite (stripe_at_insert e _ (bucket_of_key k) st1) by done.
      case_decide; subst; [|done]. rewrite (rs_live _ _ _ Hr). fold st.
      apply sublist_submseteq, sublist_filter.
    + intros k'. unfold engine_record.
      rewrite (stripe_at_insert e _ (bucket_of_key k) st1) by done.
      case_decide as Hb; [|by left]. rewrite Hb, (Hs k'). fold st.
      case_decide; subst; [|by left]. right. split; [done|].
      unfold has_live, engine_record. fold st. unfold stored_record. by rewrite Ht, Ef.
    + intros idx x Hx Hk. rewrite (stripe_at_insert e _ (bucket_of_key k) st1) by done.
      case_decide; subst; [|done]. by rewrite (rs_live _ _ _ Hr), list_elem_of_filter.
Qed.


Lemma victim_member (e : Engine V) w c bucket l : engine_inv (settle e w c) ->
  l ∈ st_live (stripe_at e bucket) ->
  bucket = bucket_of_key (live_key l) /\ find_in (stripe_at e bucket) (live_key l) = Some l.
Proof.
  intros He Hl. unfold stripe_at in *. destruct (stripes e !! bucket) as [st|] eqn:E; cbn in *;
    [|by apply not_elem_of_nil in Hl].
  pose proof (ei_wf _ He _ _ E) as Hwf. pose proof (find_live_unique _ _ _ (sw_nodup _ _ Hwf) Hl eq_refl) as Hf.
  split; [|done]. symmetry. apply (sw_bucket _ _ Hwf). rewrite versions_lookup.
  rewrite (sw_disjoint _ _ Hwf l Hl). unfold find_in. rewrite Hf. eauto.
Qed.

(** ** Samples *)

Definition moves_cursor (e e' : Engine V) : Prop := exists x, e' = with_evict_cursor e x.

(** What a pass may take: everything but the entries the write stored, and those too when
    they could never fit. *)
Definition evictable (e : Engine V) (written : Written) (l : Live) : bool :=
  (max_capacity (cfg e) <? lv_weight l) || negb (written_holds written l).

Definition weighty (e : Engine V) : Prop :=
  forall idx l, l ∈ st_live (stripe_at e idx) -> 0 < lv_weight l.

Lemma evicted_weighty e e' : evicted e e' -> weighty e -> weighty e'.
Proof.
  intros Hev Hw idx l Hl. apply (Hw idx). eapply elem_of_submseteq; [done|apply (ev_live _ _ Hev)].
Qed.

Lemma moves_cursor_inv (e e' : Engine V) : moves_cursor e e' -> engine_inv e -> engine_inv e'.
Proof. intros [x ->] He. by apply (engine_inv_ext e). Qed.

Lemma moves_cursor_evicted (e e' : Engine V) : moves_cursor e e' -> evicted e e'.
Proof. intros [x ->]. split; try done. by left. Qed.

Lemma next_random_moves (e : Engine V) : moves_cursor e (next_random e).1.
Proof. by eexists. Qed.

Lemma sample_spec (e : Engine V) st n written :
  moves_cursor e (sample_candidates e st n written).1 /\
  (forall l, l ∈ (sample_candidates e st n written).2 ->
     l ∈ st_live st /\ 0 < lv_weight l /\ evictable e written l = true) /\
  (0 < n -> (forall l, l ∈ st_live st -> 0 < lv_weight l) ->
   (sample_candidates e st n written).2 = [] -> forall l, l ∈ st_live st -> evictable e written l = false).
Proof.
  unfold sample_candidates. destruct (sample_offset e (length (st_live st))) as [e1 offset] eqn:Eo.
  assert (Hm : moves_cursor e e1).
  { unfold sample_offset in Eo. destruct (length (st_live st) =? 0)%nat.
    - injection Eo as <- _. exists (evict_cursor e). by destruct e.
    - destruct (next_random e) as [e2 x] eqn:E. injection Eo as <- _.
      change e2 with (e2, x).1. rewrite <-E. apply next_random_moves. }
  assert (Hcfg : cfg e1 = cfg e) by (by destruct Hm as [x ->]). rewrite Hcfg. cbn [fst snd].
  assert (Hrot : drop offset (st_live st) ++ take offset (st_live st) ≡ₚ st_live st)
    by (rewrite Permutation_app_comm, take_drop; done).
  split; [done|]. split.
  - intros l [Hc Hl]%list_elem_of_filter.
    apply (subseteq_take (Z.to_nat n)), list_elem_of_filter in Hl as [Hf Hin]. rewrite Hrot in Hin.
    unfold is_spill_candidate in Hc. split; [done|]. split; [lia|].
    unfold evictable, is_spill_candidate in *. rewrite Hc in Hf. done.
  - intros Hn Hw Hnil l Hl. destruct (evictable e written l) eqn:Ev; [|done]. exfalso.
    set (el := filter _ (drop _ _ ++ _)) in Hnil.
    assert (Hel : l ∈ el).
    { apply list_elem_of_filter. split; [|by rewrite Hrot].
      unfold evictable in Ev. rewrite <-orb_assoc, Ev. apply orb_true_r. }
    destruct el as [|x el'] eqn:Eel; [by apply not_elem_of_nil in Hel|].
    destruct (Z.to_nat n) as [|m] eqn:En; [lia|]. cbn [take] in Hnil.
    apply (filter_nil_not_elem_of _ _ x) in Hnil; [by apply Hnil; left|].
    unfold is_spill_candidate. apply Z.ltb_lt, Hw. rewrite <-Hrot.
    assert (Hx : x ∈ el) by (rewrite Eel; by left). by apply list_elem_of_filter in Hx as [_ ?].
Qed.

Lemma max_by_idle_spec now ls : match max_by_idle now ls with
  | Some l => l ∈ ls /\ forall x, x ∈ ls -> live_idle now x <= live_idle now l
  | None => ls = []
  end.
Proof.
  unfold max_by_idle. induction ls as [|x ls IH] using rev_ind; [done|]. rewrite foldl_app. cbn.
  destruct (foldl _ None ls) as [b|].
  - destruct IH as [Hb Hmax]. destruct (Z.leb_spec (live_idle now b) (live_idle now x)).
    all: split; [set_solver|]. all: intros y [Hy| ->%list_elem_of_singleton]%elem_of_app; [|lia].
    all: specialize (Hmax _ Hy); lia.
  - subst. split; [by left|]. intros y ->%list_elem_of_singleton. lia.
Qed.


(** ** One pass *)

(** A pass keeps the invariant, accounts for what it took, and takes nothing it must pass
    over. *)
Record pass_ok (e : Engine V) (written : Written) (e' : Engine V) (o : EvictOutcome) : Prop := {
  po_inv : engine_inv e';
  po_evicted : evicted e e';
  po_weight : total_weight (totals e') = total_weight (totals e) - eo_removed_weight o;
  po_nonneg : 0 <= eo_removed_weight o;
  po_deficit : eo_deficit o = 0;
  po_spares idx l : l ∈ st_live (stripe_at e idx) -> evictable e written l = false ->
    l ∈ st_live (stripe_at e' idx);
}.

Lemma pass_nothing (e e' : Engine V) written : engine_inv e -> moves_cursor e e' ->
  pass_ok e written e' evict_default.
Proof.
  intros He Hm. split; [by eapply moves_cursor_inv|by apply moves_cursor_evicted| |done..|].
  - destruct Hm as [x ->]. cbn. lia.
  - by destruct Hm as [x ->].
Qed.

(** Two entries of the engine with one key are one entry. *)
Lemma live_unique (e : Engine V) idx idx' l l' : engine_inv e -> l ∈ st_live (stripe_at e idx) ->
  l' ∈ st_live (stripe_at e idx') -> live_key l = live_key l' -> l = l'.
Proof.
  intros He%settle_0 Hl Hl' Hk. destruct (victim_member e 0 0 idx l He Hl) as [Hb Hf].
  destruct (victim_member e 0 0 idx' l' He Hl') as [Hb' Hf']. rewrite Hb, Hk in Hf. rewrite Hb' in Hf'.
  congruence.
Qed.

Lemma evict_victims_spec bucket keys : forall (e0 : Engine V) w c, engine_inv (settle e0 w c) ->
  weighty e0 -> (forall k, k ∈ keys -> bucket_of_key k = bucket) ->
  forall out, out = foldl (fun acc key =>
    let '(e, w, c) := acc in
    match evict_victim_locked e bucket key with
    | (e, Some weight) => (e, w + weight, c + 1)
    | (e, None) => (e, w, c)
    end) (e0, w, c) keys ->
  engine_inv (settle out.1.1 out.1.2 out.2) /\ evicted e0 out.1.1 /\ w <= out.1.2 /\
  (forall idx l, l ∈ st_live (stripe_at e0 idx) -> live_key l ∉ keys -> l ∈ st_live (stripe_at out.1.1 idx)) /\
  (forall l, l ∈ st_live (stripe_at e0 bucket) -> head keys = Some (live_key l) -> w < out.1.2) /\
  totals out.1.1 = with_resident (totals e0) (resident_bytes (totals out.1.1)).
Proof.
  induction keys as [|k keys IH]; intros e w c He Hw Hb out ->; cbn [foldl fst snd].
  { split_and!; try done. by destruct (totals e). }
  assert (Hbk : bucket_of_key k = bucket) by (apply Hb; by left).
  pose proof (victim_spec e w c k He) as Hv. rewrite Hbk in Hv.
  assert (Htot : totals (evict_victim_locked e bucket k).1 =
    with_resident (totals e) (resident_bytes (totals (evict_victim_locked e bucket k).1))).
  { unfold evict_victim_locked. destruct (remove_live _ _ _) as [[st r] [rm|]]; [done|].
    cbn. by destruct (totals e). }
  destruct (evict_victim_locked e bucket k) as [e1 r]. cbn [fst] in Htot.
  destruct Hv as (Hr & He1 & Hev & Hkeep). pose proof (evicted_weighty _ _ Hev Hw) as Hw1.
  assert (Hw' : 0 <= default 0 r).
  { subst r. destruct (find_in _ k) as [l|] eqn:Ef; [|done]. cbn.
    apply find_live_Some in Ef as [Hl _]. apply Hw in Hl. lia. }
  assert (Hstep : (match r with Some weight => (e1, w + weight, c + 1) | None => (e1, w, c) end) =
    (e1, w + default 0 r, c + if is_some r then 1 else 0)).
  { destruct r; cbn; [done|]. by rewrite !Z.add_0_r. }
  rewrite Hstep. destruct (IH e1 _ _ He1 Hw1 ltac:(intros; apply Hb; by right) _ eq_refl)
    as (H1 & H2 & H3 & H4 & _ & H6).
  set (out := foldl _ _ keys) in *. clearbody out. split_and!; [done|by etrans|lia| | |].
  - intros idx l Hl Hk. apply not_elem_of_cons in Hk as [? ?]. apply H4; [|done]. by apply Hkeep.
  - intros l Hl [= ->]. destruct (victim_member e w c bucket l He Hl) as [_ Hf]. rewrite Hf in Hr.
    subst r. cbn in *. specialize (Hw _ _ Hl). lia.
  - rewrite H6, Htot. done.
Qed.


Lemma one_sampled_spec (e : Engine V) bucket written now : engine_inv e -> weighty e ->
  let (e', o) := evict_one_sampled e bucket written now in
  pass_ok e written e' o /\
  (eo_removed_weight o = 0 -> stripes e' = stripes e /\
     forall l, l ∈ st_live (stripe_at e bucket) -> evictable e written l = false).
Proof.
  intros He Hw. unfold evict_one_sampled.
  destruct (sample_spec e (stripe_at e bucket) EVICTION_SAMPLE written) as (Hm & Hin & Hnil).
  destruct (sample_candidates _ _ _ _) as [e1 sampled]. cbn [fst snd] in *.
  pose proof (max_by_idle_spec now sampled) as Hmax. destruct (max_by_idle now sampled) as [v|]; cycle 1.
  { split; [by apply pass_nothing|]. intros _. split; [by destruct Hm as [x ->]|].
    apply Hnil; [done|by apply Hw|done]. }
  destruct Hmax as [Hv _]. apply Hin in Hv as (Hv & Hvw & Hve). clear Hin Hnil.
  assert (He1 : engine_inv (settle e1 0 0)) by (by apply (proj1 (settle_0 e1)), (moves_cursor_inv e)).
  assert (Hv1 : v ∈ st_live (stripe_at e1 bucket)) by (by destruct Hm as [x ->]).
  destruct (victim_member e1 0 0 bucket v He1 Hv1) as [Hb Hf].
  pose proof (victim_spec e1 0 0 (live_key v) He1) as Hsp. rewrite <-Hb, Hf in Hsp. cbn in Hsp.
  assert (Htot : totals (evict_victim_locked e1 bucket (live_key v)).1 =
    with_resident (totals e1) (resident_bytes (totals (evict_victim_locked e1 bucket (live_key v)).1))).
  { unfold evict_victim_locked. destruct (remove_live _ _ _) as [[st r] [rm|]]; [done|].
    cbn. by destruct (totals e1). }
  destruct (evict_victim_locked e1 bucket (live_key v)) as [e2 r]. cbn [fst] in Htot.
  destruct Hsp as (-> & He2 & Hev & Hkeep). cbn in He2 |- *. split; [|intros; lia].
  pose proof (moves_cursor_evicted _ _ Hm) as Hev1. split; cbn; try lia.
  - done.
  - do 2 (etrans; [done|]). by apply (settle_stripes e2 e2 (lv_weight v) 1).
  - rewrite Htot. cbn. by destruct Hm as [x ->].
  - intros idx l Hl Hne. apply Hkeep; [by destruct Hm as [x ->]|]. intros Hk.
    assert (l = v) as -> by (by eapply (live_unique e idx bucket)). congruence.
Qed.

(** ** The size of a batch *)

Lemma batch_prefix_spec over_by cap : forall ws cleared evicted, (length ws + evicted)%nat = cap ->
  let n := batch_prefix over_by cleared evicted cap ws in
  (evicted <= n <= cap)%nat /\
  (forall m, (evicted <= m < n)%nat -> cleared + sum_Z (take (m - evicted) ws) < over_by) /\
  ((n < cap)%nat -> over_by <= cleared + sum_Z (take (n - evicted) ws)).
Proof.
  induction ws as [|w ws IH]; intros cleared evicted Hc; cbn in Hc |- *.
  - split; [lia|]. split; intros; lia.
  - destruct (Z.leb_spec over_by cleared).
    + split; [lia|]. split; [intros; lia|]. intros _. rewrite Nat.sub_diag. cbn. unfold sum_Z. cbn. lia.
    + destruct (IH (cleared + w) (evicted + 1)%nat ltac:(lia)) as (H1 & H2 & H3).
      set (n := batch_prefix _ _ _ _ ws) in *. clearbody n. split; [lia|]. split.
      * intros m Hm. destruct (decide (m = evicted)) as [->|Hne].
        { rewrite Nat.sub_diag. unfold sum_Z. cbn. lia. }
        replace (m - evicted)%nat with (S (m - (evicted + 1))) by lia. cbn [take].
        rewrite sum_Z_cons. specialize (H2 m ltac:(lia)). lia.
      * intros Hn. specialize (H3 Hn). replace (n - evicted)%nat with (S (n - (evicted + 1))) by lia.
        cbn [take]. rewrite sum_Z_cons. lia.
Qed.

Definition batch_cap (ws : list Z) : nat := Nat.min (Z.to_nat EVICTION_BATCH) ((length ws + 1) / 2).

Lemma batch_cap_le ws : (batch_cap ws <= length ws)%nat.
Proof.
  unfold batch_cap. pose proof (Nat.Div0.div_mod (length ws + 1) 2).
  pose proof (Nat.mod_upper_bound (length ws + 1) 2). lia.
Qed.

Lemma batch_size_spec over_by ws : let n := eviction_batch_size over_by ws in
  (n <= batch_cap ws)%nat /\
  (forall m, (m < n)%nat -> sum_Z (take m ws) < over_by) /\
  ((n < batch_cap ws)%nat -> over_by <= sum_Z (take n ws)).
Proof.
  pose proof (batch_cap_le ws). unfold eviction_batch_size. fold (batch_cap ws).
  destruct (batch_prefix_spec over_by (batch_cap ws) (take (batch_cap ws) ws) 0 0) as (H1 & H2 & H3).
  { rewrite length_take. lia. }
  set (n := batch_prefix _ _ _ _ _) in *. clearbody n. split; [lia|]. split.
  - intros m Hm. specialize (H2 m ltac:(lia)). rewrite Nat.sub_0_r, take_take in H2.
    replace (m `min` batch_cap ws)%nat with m in H2 by lia. lia.
  - intros Hn. specialize (H3 Hn). rewrite Nat.sub_0_r, take_take in H3.
    replace (n `min` batch_cap ws)%nat with n in H3 by lia. lia.
Qed.

Lemma batch_size_pos over_by ws : 0 < over_by -> ws <> [] -> (0 < eviction_batch_size over_by ws)%nat.
Proof.
  intros Ho Hne. destruct (batch_size_spec over_by ws) as (_ & _ & H3).
  destruct (eviction_batch_size over_by ws) as [|n]; [|lia]. exfalso.
  assert (Hcap : (0 < batch_cap ws)%nat).
  { unfold batch_cap. destruct ws as [|w ws]; [done|]. cbn [length].
    pose proof (Nat.div_le_lower_bound (S (length ws) + 1) 2 1 ltac:(lia) ltac:(lia)).
    unfold EVICTION_BATCH. lia. }
  specialize (H3 Hcap). rewrite take_0 in H3. change (sum_Z []) with 0 in H3. lia.
Qed.


Context {ISL : IdleSortLaws}.

Lemma batch_sampled_spec (e : Engine V) bucket over_by written dense now :
  engine_inv e -> weighty e -> 0 < over_by ->
  let (e', o) := evict_batch_sampled e bucket over_by written dense now in
  pass_ok e written e' o.
Proof.
  intros He Hw Ho. unfold evict_batch_sampled.
  destruct (sample_spec e (stripe_at e bucket) EVICTION_BATCH_SAMPLE written) as (Hm & Hin & _).
  destruct (sample_candidates _ _ _ _) as [e1 cands]. cbn [fst snd] in *.
  destruct (bool_decide _ || _); [by apply pass_nothing|].
  set (sampled := idle_sort _). set (n := eviction_batch_size _ _).
  assert (Hkeys : forall k, k ∈ (take n sampled).*1.*1 -> exists l, k = live_key l /\
    l ∈ st_live (stripe_at e bucket) /\ evictable e written l = true).
  { intros k Hk. apply list_elem_of_fmap in Hk as (x & -> & (y & -> & Hy)%list_elem_of_fmap).
    apply subseteq_take in Hy. unfold sampled in Hy. rewrite idle_sort_perm in Hy.
    apply list_elem_of_fmap in Hy as (l & -> & Hl). exists l. cbn.
    apply Hin in Hl as (? & _ & ?). done. }
  assert (He1 : engine_inv (settle e1 0 0)) by (by apply (proj1 (settle_0 e1)), (moves_cursor_inv e)).
  pose proof (moves_cursor_evicted _ _ Hm) as Hev1.
  assert (Hb : forall k, k ∈ (take n sampled).*1.*1 -> bucket_of_key k = bucket).
  { intros k (l & -> & Hl & _)%Hkeys. apply settle_0 in He.
    by destruct (victim_member e 0 0 bucket l He Hl) as [-> _]. }
  destruct (evict_victims_spec bucket _ e1 0 0 He1 (evicted_weighty _ _ Hev1 Hw) Hb _ eq_refl)
    as (H1 & H2 & H3 & H4 & _ & H6). fold (evict_victims bucket e1 (take n sampled).*1.*1) in *.
  destruct (evict_victims _ _ _) as [[e2 w] c]. cbn [fst snd] in *. split; cbn.
  - done.
  - do 2 (etrans; [done|]). by apply (settle_stripes e2 e2 w c).
  - rewrite H6. cbn. destruct Hm as [x ->]. cbn. lia.
  - done.
  - done.
  - intros idx l Hl Hne. apply H4; [by destruct Hm as [x ->]|].
    intros (v & Hk & Hv & Hve)%Hkeys.
    assert (l = v) as -> by (by eapply (live_unique e idx bucket)). congruence.
Qed.

(** ** The scan *)

Lemma scan_stripes_spec written now candidates : forall e : Engine V, engine_inv e -> weighty e ->
  match scan_stripes e candidates written now with
  | (e', Some (_, o)) => pass_ok e written e' o /\ 0 < eo_removed_weight o
  | (e', None) => pass_ok e written e' evict_default /\ stripes e' = stripes e /\
      forall idx l, idx ∈ candidates -> l ∈ st_live (stripe_at e idx) -> evictable e written l = false
  end.
Proof.
  induction candidates as [|c cs IH]; intros e He Hw; cbn [scan_stripes].
  { split; [apply pass_nothing; [done|]; exists (evict_cursor e); by destruct e|]. split; [done|].
    intros idx l Hi. by apply not_elem_of_nil in Hi. }
  pose proof (one_sampled_spec e c written now He Hw) as Hone.
  destruct (evict_one_sampled e c written now) as [e1 o]. destruct Hone as [Hok Hno].
  unfold made_no_progress. rewrite (po_deficit _ _ _ _ Hok). cbn [Z.ltb Z.compare]. rewrite orb_false_r.
  destruct (Z.eqb_spec (eo_removed_weight o) 0) as [H0|H0]; cbn [negb].
  2: { split; [done|]. pose proof (po_nonneg _ _ _ _ Hok). lia. }
  destruct (Hno H0) as [Hs Hc].
  specialize (IH e1 (po_inv _ _ _ _ Hok) (evicted_weighty _ _ (po_evicted _ _ _ _ Hok) Hw)).
  assert (Hst : forall idx, stripe_at e1 idx = stripe_at e idx) by (intros; unfold stripe_at; by rewrite Hs).
  assert (Hevb : forall l, evictable e1 written l = evictable e written l).
  { intros l. unfold evictable. by rewrite (ev_cfg _ _ (po_evicted _ _ _ _ Hok)). }
  assert (Htr : forall e2 o2, pass_ok e1 written e2 o2 -> pass_ok e written e2 o2).
  { intros e2 o2 [P1 P2 P3 P4 P5 P6]. destruct Hok as [Q1 Q2 Q3 Q4 Q5 Q6].
    split; [done|by etrans|lia|done..|]. intros idx l Hl Hne. apply P6; [by apply Q6|by rewrite Hevb]. }
  destruct (scan_stripes e1 cs written now) as [e2 [[found o2]|]].
  - destruct IH as [P ?]. split; [by apply Htr|done].
  - destruct IH as (P & S2 & Hall). split; [by apply Htr|]. split; [congruence|].
    intros idx l [->|Hi]%elem_of_cons Hl; [by apply Hc|].
    rewrite <-Hevb. apply (Hall idx); [done|]. by rewrite Hst.
Qed.

Lemma scanning_covers bucket idx : (idx < Z.to_nat BUCKET_COUNT)%nat ->
  idx ∈ (fun step => (bucket + step) mod Z.to_nat BUCKET_COUNT)%nat <$> seq 0 (Z.to_nat BUCKET_COUNT).
Proof.
  set (n := Z.to_nat BUCKET_COUNT). assert (Hn : (0 < n)%nat) by (unfold n, BUCKET_COUNT; lia). clearbody n.
  intros Hi. apply list_elem_of_fmap. exists ((idx + (n - bucket mod n)) mod n)%nat. split.
  - rewrite Nat.Div0.add_mod_idemp_r, <-Nat.Div0.add_mod_idemp_l.
    pose proof (Nat.mod_upper_bound bucket n ltac:(lia)).
    replace (bucket mod n + (idx + (n - bucket mod n)))%nat with (idx + 1 * n)%nat by lia.
    rewrite Nat.Div0.mod_add. symmetry. by apply Nat.mod_small.
  - apply elem_of_seq. pose proof (Nat.mod_upper_bound (idx + (n - bucket mod n)) n ltac:(lia)). lia.
Qed.


(** ** The loop *)

Lemma pass_trans (e e1 e2 : Engine V) written o1 o2 : pass_ok e written e1 o1 -> pass_ok e1 written e2 o2 ->
  pass_ok e written e2 {| eo_removed_weight := eo_removed_weight o1 + eo_removed_weight o2;
                          eo_deficit := 0; eo_refused := false |}.
Proof.
  intros [P1 P2 P3 P4 P5 P6] [Q1 Q2 Q3 Q4 Q5 Q6]. split; cbn; [done|by etrans|lia|lia|done|].
  intros idx l Hl Hne. apply Q6; [by apply P6|]. unfold evictable in *. by rewrite (ev_cfg _ _ P2).
Qed.

Definition held_weight (written : Written) (st : Stripe) : Z :=
  sum_Z (lv_weight <$> filter (fun l => written_holds written l = true) (st_live st)).

(** The weight of what the write stored. *)
Definition held_total (e : Engine V) (written : Written) : Z :=
  sum_Z (held_weight written <$> stripes e).

Lemma sum_Z_pointwise {A} (f g : A -> Z) (l k : list A) : length l = length k ->
  (forall i x y, l !! i = Some x -> k !! i = Some y -> f x <= g y) -> sum_Z (f <$> l) <= sum_Z (g <$> k).
Proof.
  revert k. induction l as [|x l IH]; intros [|y k] Hlen Hle; try done.
  rewrite !fmap_cons, !sum_Z_cons. specialize (Hle 0%nat x y eq_refl eq_refl) as Hxy.
  cbn in Hlen. specialize (IH k ltac:(lia) (fun i => Hle (S i))). lia.
Qed.

Lemma sum_Z_submseteq {A} (f : A -> Z) (l k : list A) : l ⊆+ k -> (forall x, x ∈ k -> 0 <= f x) ->
  sum_Z (f <$> l) <= sum_Z (f <$> k).
Proof.
  intros (r & Hp)%submseteq_Permutation Hk. rewrite (sum_Z_perm _ _ (fmap_Permutation f _ _ Hp)).
  rewrite fmap_app, sum_Z_app. cut (0 <= sum_Z (f <$> r)); [lia|]. apply sum_Z_nonneg.
  apply Forall_fmap, Forall_forall. intros x Hx. apply Hk. rewrite Hp. apply elem_of_app. by right.
Qed.

Lemma stripe_at_Some (e : Engine V) idx st : stripes e !! idx = Some st -> stripe_at e idx = st.
Proof. intros H. unfold stripe_at. by rewrite H. Qed.

Lemma held_total_mono (e e' : Engine V) written : engine_inv e -> engine_inv e' -> weighty e ->
  evicted e e' -> held_total e' written <= held_total e written.
Proof.
  intros He He' Hw Hev. apply sum_Z_pointwise; [by rewrite (ei_stripes _ He), (ei_stripes _ He')|].
  intros i x y Hx%stripe_at_Some Hy%stripe_at_Some. subst. apply sum_Z_submseteq.
  - destruct (submseteq_Permutation _ _ (ev_live _ _ Hev i)) as [r Hr].
    rewrite Hr, filter_app. apply submseteq_inserts_r. done.
  - intros l [_ Hl]%list_elem_of_filter. apply Hw in Hl. lia.
Qed.

Lemma held_total_all (e : Engine V) written : engine_inv e ->
  (forall idx l, (idx < Z.to_nat BUCKET_COUNT)%nat -> l ∈ st_live (stripe_at e idx) -> evictable e written l = false) ->
  total_weight (totals e) <= held_total e written.
Proof.
  intros He Hall. rewrite (ei_weight _ He). apply sum_Z_pointwise; [done|].
  intros i x y Hx Hy. replace y with x by congruence. unfold stripe_weight, held_weight.
  rewrite list_filter_all; [done|]. apply Forall_forall. intros l Hl.
  pose proof (lookup_lt_Some _ _ _ Hx) as Hi. rewrite (ei_stripes _ He) in Hi.
  specialize (Hall i l Hi). rewrite (stripe_at_Some _ _ _ Hx) in Hall. specialize (Hall Hl).
  unfold evictable in Hall. apply orb_false_iff in Hall as [_ Hh]. by apply negb_false_iff.
Qed.

Lemma held_total_empty (e : Engine V) written : written_is_empty written = true -> held_total e written = 0.
Proof.
  intros Hemp. unfold held_total. induction (stripes e) as [|st sts IH]; [done|].
  rewrite fmap_cons, sum_Z_cons, IH. unfold held_weight. rewrite filter_none; [done|].
  intros l. unfold written_holds. by rewrite Hemp.
Qed.

Definition loop_measure (e : Engine V) (written : Written) (after_scan : bool) : Z :=
  2 * total_weight (totals e) + (if written_is_empty written then 0 else 2) + (if after_scan then 1 else 0).

(** A round over the limit goes on, closer to the end: it takes only what it may, or it found
    that the write alone is over the limit and takes up its entries too. *)
Lemma evict_round_spec limit start now (e : Engine V) written bucket after_scan freed :
  engine_inv e -> weighty e -> 0 <= limit < total_weight (totals e) -> total_weight (totals e) <= u64_max ->
  exists e' written' bucket' after_scan' o,
    evict_round limit start now e written bucket after_scan freed =
      (e', written', RNext bucket' after_scan' (freed + eo_removed_weight o)) /\
    pass_ok e written e' o /\
    loop_measure e' written' after_scan' < loop_measure e written after_scan /\
    (written' = written \/ written' = written_clear written /\ limit < held_total e written).
Proof.
  intros He Hw Hl Hu. unfold evict_round.
  assert (Hcur : saturating_add (total_weight (totals e)) 0 = total_weight (totals e)) by ulia. rewrite Hcur.
  rewrite (proj2 (Z.leb_gt _ _)) by lia.
  pose proof (batch_sampled_spec e bucket (total_weight (totals e) - limit) written after_scan now He Hw ltac:(lia)) as Hb.
  destruct (evict_batch_sampled _ _ _ _ _ _) as [e1 o1]. rewrite (po_deficit _ _ _ _ Hb). cbn [Z.ltb Z.compare].
  assert (He1 := po_inv _ _ _ _ Hb). assert (Hev1 := po_evicted _ _ _ _ Hb).
  assert (Hw1 := evicted_weighty _ _ Hev1 Hw). assert (Ht1 := po_weight _ _ _ _ Hb).
  assert (Hn1 := po_nonneg _ _ _ _ Hb).
  destruct (made_no_progress o1 && negb after_scan) eqn:Enp; cycle 1.
  { destruct (next_pseudo_random_bucket e1) as [e2 b] eqn:Er.
    assert (Hm : moves_cursor e1 e2).
    { unfold next_pseudo_random_bucket in Er. destruct (next_random e1) as [e3 x] eqn:Ex.
      injection Er as <- _. change e3 with (e3, x).1. rewrite <-Ex. apply next_random_moves. }
    eexists e2, written, b, false, _. split_and!; [|eapply pass_trans; [done|by apply pass_nothing]| |by left].
    { cbn. by rewrite Z.add_0_r. }
    unfold loop_measure. destruct Hm as [x ->]. cbn. rewrite Ht1. unfold made_no_progress in Enp.
    destruct after_scan, (Z.eqb_spec (eo_removed_weight o1) 0); cbn in Enp; try done; lia. }
  apply andb_true_iff in Enp as [Hnp Has%negb_true_iff]. subst after_scan.
  unfold made_no_progress in Hnp. apply Z.eqb_eq in Hnp.
  unfold evict_one_scanning.
  set (cs := (fun step => (bucket + step) mod Z.to_nat BUCKET_COUNT)%nat <$> seq 0 (Z.to_nat BUCKET_COUNT)).
  pose proof (scan_stripes_spec written now cs e1 He1 Hw1) as Hsc.
  destruct (scan_stripes e1 cs written now) as [e2 [[found o2]|]].
  - destruct Hsc as [Hok Hpos]. rewrite (po_deficit _ _ _ _ Hok). cbn [Z.ltb Z.compare].
    unfold made_no_progress. rewrite (proj2 (Z.eqb_neq _ _)) by lia.
    eexists e2, written, found, true, _. split_and!; [|by eapply pass_trans| |by left].
    { cbn. by rewrite Z.add_assoc. }
    unfold loop_measure. rewrite (po_weight _ _ _ _ Hok), Ht1. lia.
  - destruct Hsc as (Hok & Hs & Hall).
    assert (Hheld : limit < held_total e written).
    { pose proof (held_total_mono e e1 written He He1 Hw Hev1).
      enough (total_weight (totals e1) <= held_total e1 written) by lia. apply held_total_all; [done|].
      intros idx l Hi Hx. apply (Hall idx); [|done]. by apply scanning_covers. }
    destruct (written_is_empty written) eqn:Hemp.
    { rewrite (held_total_empty e written Hemp) in Hheld. lia. }
    cbn [negb]. eexists e2, (written_clear written), start, false, _.
    split_and!; [|by eapply pass_trans| |by right].
    { cbn. rewrite Hnp. do 2 f_equal. }
    assert (Hclr : written_is_empty (written_clear written) = true) by (by apply bool_decide_eq_true_2).
    unfold loop_measure. rewrite Hemp, Hclr, (po_weight _ _ _ _ Hok), Ht1. cbn. lia.
Qed.


Lemma written_holds_spared (e : Engine V) written idx l : weighty e -> engine_inv e ->
  held_total e written <= max_capacity (cfg e) -> l ∈ st_live (stripe_at e idx) ->
  written_holds written l = true -> evictable e written l = false.
Proof.
  intros Hw He Hh Hl Hx. unfold evictable. rewrite Hx, orb_false_r. apply Z.ltb_ge.
  etrans; [|exact Hh]. unfold stripe_at in Hl.
  destruct (stripes e !! idx) as [st|] eqn:E; cbn in Hl; [|by apply not_elem_of_nil in Hl].
  assert (Hnn : forall i st', stripes e !! i = Some st' -> 0 <= held_weight written st').
  { intros i st' Hs%stripe_at_Some. apply sum_Z_nonneg, Forall_fmap, Forall_forall.
    intros y [_ Hy]%list_elem_of_filter. subst. apply Hw in Hy. cbn. lia. }
  destruct (insert_perm _ _ st _ E) as (R & HR & _). unfold held_total. trans (held_weight written st).
  - assert (Hf : l ∈ filter (fun l => written_holds written l = true) (st_live st))
      by (by apply list_elem_of_filter).
    unfold held_weight. apply elem_of_Permutation in Hf as [r Hr].
    rewrite (sum_Z_perm _ _ (fmap_Permutation lv_weight _ _ Hr)), fmap_cons, sum_Z_cons.
    cut (0 <= sum_Z (lv_weight <$> r)); [lia|]. apply sum_Z_nonneg, Forall_fmap, Forall_forall.
    intros y Hy. assert (Hin : y ∈ st_live st).
    { apply (list_elem_of_filter (fun l => written_holds written l = true)). rewrite Hr. by right. }
    specialize (Hw idx y). rewrite (stripe_at_Some _ _ _ E) in Hw. specialize (Hw Hin). cbn. lia.
  - rewrite (sum_Z_perm _ _ (fmap_Permutation _ _ _ HR)), fmap_cons, sum_Z_cons.
    cut (0 <= sum_Z (held_weight written <$> R)); [lia|]. apply sum_Z_nonneg, Forall_fmap, Forall_forall.
    intros st' Hst'. assert (Hin : st' ∈ stripes e) by (rewrite HR; by right).
    apply list_elem_of_lookup in Hin as [i Hi]. by apply (Hnn i).
Qed.

Lemma evict_loop_spec limit start now fuel : forall (e : Engine V) written bucket after_scan freed,
  engine_inv e -> weighty e -> 0 <= limit <= max_capacity (cfg e) -> total_weight (totals e) <= u64_max ->
  loop_measure e written after_scan < Z.of_nat fuel ->
  exists e' written',
    evict_loop limit start now fuel e written bucket after_scan freed =
      Some (e', written', (0, freed + (total_weight (totals e) - total_weight (totals e')))) /\
    engine_inv e' /\ evicted e e' /\ total_weight (totals e') <= limit /\
    (held_total e written <= limit -> written' = written /\
       forall idx l, l ∈ st_live (stripe_at e idx) -> written_holds written l = true ->
         l ∈ st_live (stripe_at e' idx)).
Proof.
  induction fuel as [|fuel IH]; intros e written bucket after_scan freed He Hw Hl Hu Hm.
  { assert (0 <= total_weight (totals e)).
    { rewrite (ei_weight _ He). apply sum_Z_nonneg, Forall_fmap, Forall_forall. intros st Hst.
      apply list_elem_of_lookup in Hst as [i Hi%stripe_at_Some]. apply sum_Z_nonneg, Forall_fmap, Forall_forall.
      intros l Hx. subst. apply Hw in Hx. cbn. lia. }
    unfold loop_measure in Hm. destruct (written_is_empty written), after_scan; lia. }
  cbn [evict_loop]. destruct (decide (total_weight (totals e) <= limit)) as [Hle|Hgt].
  { exists e, written. unfold evict_round.
    assert (Hcur : saturating_add (total_weight (totals e)) 0 = total_weight (totals e)) by ulia.
    rewrite Hcur, (proj2 (Z.leb_le _ _) Hle). split_and!; try done. by rewrite Z.sub_diag, Z.add_0_r. }
  destruct (evict_round_spec limit start now e written bucket after_scan freed He Hw ltac:(lia) Hu)
    as (e1 & written1 & bucket1 & scan1 & o & -> & Hok & Hdec & Hwr).
  pose proof Hok as [P1 P2 P3 P4 P5 P6].
  destruct (IH e1 written1 bucket1 scan1 (freed + eo_removed_weight o) P1 (evicted_weighty _ _ P2 Hw)
    ltac:(by rewrite (ev_cfg _ _ P2)) ltac:(lia) ltac:(lia)) as (e' & written' & -> & H1 & H2 & H3 & H4).
  exists e', written'. split_and!; [|done|by etrans|done|].
  { do 3 f_equal. lia. }
  intros Hh. destruct Hwr as [->|[_ Hover]]; [|lia].
  destruct H4 as [-> H4]; [pose proof (held_total_mono e e1 written He P1 Hw P2); lia|].
  split; [done|]. intros idx l Hx Hholds. apply H4; [|done]. apply P6; [done|].
  apply (written_holds_spared e written idx l); (done || lia).
Qed.

Lemma enforce_capacity_spec (e : Engine V) start written now : engine_inv e -> weighty e ->
  0 <= max_capacity (cfg e) < u64_max -> total_weight (totals e) <= u64_max ->
  exists e' written',
    enforce_capacity e start written now =
      Some (e', written', (0, total_weight (totals e) - total_weight (totals e'))) /\
    engine_inv e' /\ evicted e e' /\ total_weight (totals e') <= max_capacity (cfg e) /\
    (held_total e written <= max_capacity (cfg e) -> written' = written /\
       forall idx l, l ∈ st_live (stripe_at e idx) -> written_holds written l = true ->
         l ∈ st_live (stripe_at e' idx)).
Proof.
  intros He Hw Hc Hu. unfold enforce_capacity, evict_down_to_freeing.
  rewrite (proj2 (Z.eqb_neq _ _)) by lia. apply evict_loop_spec; try done; [lia|].
  unfold loop_measure, evict_fuel. destruct (written_is_empty written); lia.
Qed.


(** C35: capacity enforcement does what it promises, on every engine whose entries have weight:
    the loop ends, the total weight is then within the cap, the freed weight it reports is the
    weight that left, and the only change to the records is that live ones are gone: no
    tombstone leaves, no value, version or deadline changes, and digests and totals follow. *)
Theorem enforce_capacity_holds_the_cap (e : Engine V) (start : nat) (written : Written) (now_ms : Z)
    (Hinv : engine_inv e) (Hw : weighty e) (Hcap : 0 <= max_capacity (cfg e) < u64_max)
    (Hu : total_weight (totals e) <= u64_max) :
  exists e' written' freed,
    enforce_capacity e start written now_ms = Some (e', written', (0, freed)) /\
    total_weight (totals e') <= max_capacity (cfg e) /\
    freed = total_weight (totals e) - total_weight (totals e') /\
    engine_inv e' /\ loads e' = loads e /\
    forall k, engine_record e' k = engine_record e k \/
              (engine_record e' k = None /\ has_live e k = true).
Proof.
  destruct (enforce_capacity_spec e start written now_ms Hinv Hw Hcap Hu) as (e' & w' & -> & H1 & H2 & H3 & _).
  eexists e', w', _. split_and!; try done; apply H2.
Qed.

(** An entry the triggering write just stored is never the victim while the write alone
    fits the cap: its record, of any key whose hash the write recorded, is the same after. *)
Theorem enforce_capacity_spares_the_write (e : Engine V) (start : nat) (written : Written) (now_ms : Z)
    (Hinv : engine_inv e) (Hw : weighty e) (Hcap : 0 <= max_capacity (cfg e) < u64_max)
    (Hu : total_weight (totals e) <= u64_max)
    (Hfits : held_total e written <= max_capacity (cfg e)) :
  exists e' freed,
    enforce_capacity e start written now_ms = Some (e', written, (0, freed)) /\
    forall k, hash_key_bytes k ∈ w_hashes written -> engine_record e' k = engine_record e k.
Proof.
  destruct (enforce_capacity_spec e start written now_ms Hinv Hw Hcap Hu) as (e' & w' & -> & H1 & H2 & H3 & H4).
  destruct (H4 Hfits) as [-> Hstay]. eexists e', _. split; [done|]. intros k Hk.
  destruct (ev_record _ _ H2 k) as [Heq|[Hnone Hlive]]; [done|]. exfalso.
  rewrite has_live_find in Hlive by done.
  destruct (find_in (stripe_at e (bucket_of_key k)) k) as [l|] eqn:Ef; [|done].
  apply find_live_Some in Ef as [Hl <-].
  assert (Hl' : l ∈ st_live (stripe_at e' (bucket_of_key (live_key l)))).
  { apply Hstay; [done|]. unfold written_holds, written_is_empty.
    rewrite (bool_decide_eq_true_2 _ Hk), andb_true_r. apply negb_true_iff, bool_decide_eq_false_2.
    intros Hemp. rewrite Hemp in Hk. set_solver. }
  apply settle_0 in H1. destruct (victim_member e' 0 0 _ l H1 Hl') as [_ Hf].
  unfold engine_record, stored_record in Hnone. rewrite Hf in Hnone. by destruct (_ !! live_key l).
Qed.

(** The batch takes the colder end of its sample and no more than it needs: at most eight
    entries and at most the colder half; every shorter batch would leave the excess, and a batch
    below both bounds clears it. *)
Theorem eviction_batch_is_minimal (over_by : Z) (ws : list Z) :
  let n := eviction_batch_size over_by ws in
  (n <= 8)%nat /\ (2 * n <= length ws + 1)%nat /\
  (forall m, (m < n)%nat -> sum_Z (take m ws) < over_by) /\
  ((n < 8)%nat -> (2 * (n + 1) <= length ws + 1)%nat -> over_by <= sum_Z (take n ws)).
Proof.
  cbv zeta. destruct (batch_size_spec over_by ws) as (H1 & H2 & H3).
  set (n := eviction_batch_size over_by ws) in *. clearbody n.
  pose proof (Nat.Div0.div_mod (length ws + 1) 2) as Hd.
  pose proof (Nat.mod_upper_bound (length ws + 1) 2 ltac:(lia)).
  unfold batch_cap, EVICTION_BATCH in *. change (Z.to_nat 8) with 8%nat in *.
  split_and!; [lia|lia|done|]. intros. apply H3. lia.
Qed.

End Evict.

(** ** Concrete runs *)

(** Coldest first, as a merge sort leaves them. *)
Definition colder (a b : Bytes * Z * Z) : Prop := b.1.2 <= a.1.2.
#[global] Instance colder_dec : RelDecision colder.
Proof. intros a b. unfold colder. apply _. Defined.
#[global] Instance colder_trans : Transitive colder.
Proof. intros a b c. unfold colder. lia. Qed.
#[global] Instance colder_total : Total colder.
Proof. intros a b. unfold colder. lia. Qed.

#[global] Instance merge_idle_sort : IdleSort := {| idle_sort := merge_sort colder |}.
#[global] Instance merge_idle_sort_laws : @IdleSortLaws merge_idle_sort.
Proof.
  split; intros l; cbn.
  - apply merge_sort_Permutation.
  - apply (StronglySorted_merge_sort colder).
Qed.

Definition weighty_b {V} (e : Engine V) : bool :=
  forallb (fun st => forallb (fun l => 0 <? lv_weight l) (st_live st)) (stripes e).

Lemma weighty_b_spec {V} (e : Engine V) : weighty_b e = true -> weighty e.
Proof.
  unfold weighty_b. rewrite forallb_forall. intros Hall idx l. unfold stripe_at.
  destruct (stripes e !! idx) as [st|] eqn:E; cbn; [|by intros ?%not_elem_of_nil].
  intros Hl. apply list_elem_of_lookup_2, list_elem_of_In in E. apply Hall in E.
  rewrite forallb_forall in E. apply list_elem_of_In, E in Hl. lia.
Qed.

(** Three entries of weight 1 under a cap of 2. *)
Definition full_engine : Engine Bytes :=
  run_writes LwwResolver (engine_new 2 None None)
    [put_at [1] [10] 500 1; put_at [2] [20] 600 2; put_at [3] [30] 700 1].

Lemma full_engine_inv : engine_inv full_engine.
Proof.
  apply run_writes_inv; [apply engine_new_inv|]. repeat constructor; vm_compute; discriminate.
Qed.

Lemma enforce_capacity_holds_the_cap_witness :
  exists e' written' freed,
    enforce_capacity full_engine 0 written_default 1000 = Some (e', written', (0, freed)) /\
    total_weight (totals e') <= 2.
Proof.
  destruct (enforce_capacity_holds_the_cap full_engine 0 written_default 1000 full_engine_inv)
    as (e' & w' & f & H1 & H2 & _).
  - apply weighty_b_spec. vm_compute. reflexivity.
  - vm_compute. split; discriminate || reflexivity.
  - vm_compute. discriminate.
  - exists e', w', f. split; [exact H1|exact H2].
Defined.

Lemma enforce_capacity_spares_the_write_witness :
  exists e' freed,
    enforce_capacity full_engine 0 (written_of (hash_key_bytes [3])) 1000 =
      Some (e', written_of (hash_key_bytes [3]), (0, freed)) /\
    engine_record e' [3] = engine_record full_engine [3].
Proof.
  destruct (enforce_capacity_spares_the_write full_engine 0 (written_of (hash_key_bytes [3])) 1000
    full_engine_inv) as (e' & f & H1 & H2).
  - apply weighty_b_spec. vm_compute. reflexivity.
  - vm_compute. split; discriminate || reflexivity.
  - vm_compute. discriminate.
  - vm_compute. discriminate.
  - exists e', f. split; [exact H1|]. apply H2. apply elem_of_union_l, elem_of_singleton. reflexivity.
Defined.

(** ** Weightless entries *)

(** All keys in one stripe. *)
Definition flat_hashing : Hashing := {| xxh3_64 _ := 0; postcard_hlc := postcard_hlc |}.

Definition weigh_by_value (_ : Bytes) (v : Bytes) : Z := default 1 (head v).

Definition weighed_ctx : ApplyCtx Bytes := {|
  ac_weigher := Some weigh_by_value; ac_tti_ms := None; ac_merge_cap := None; ac_tombstone_ttl_ms := 60000;
  ac_tombstone_max_ttl_ms := 600000; ac_deferring := false; ac_now_ms := 1000;
  ac_from_peer := false; ac_held_only := false |}.

Definition weighed_put (k : Bytes) (w t : Z) : Write Bytes :=
  {| wt_ctx := weighed_ctx; wt_key := k; wt_ver := stamp t 1; wt_incoming := Put [w] None [w] |}.

(** A weight of 6, seventy entries a weigher gives no weight, and another weight of 6, under a
    cap of 10. *)
Definition weightless_engine : Engine Bytes :=
  run_writes (HS := flat_hashing) LwwResolver (engine_new 10 None (Some weigh_by_value))
    (weighed_put [0] 6 500 :: ((fun i => weighed_put [1; i] 0 600) <$> seqZ 0 70) ++ [weighed_put [2] 6 700]).

Lemma weightless_engine_inv : engine_inv (HS := flat_hashing) weightless_engine.
Proof.
  apply (run_writes_inv (HS := flat_hashing)); [apply engine_new_inv|].
  apply Forall_forall. intros w Hw. apply elem_of_cons in Hw as [->|Hw]; [vm_compute; discriminate|].
  apply elem_of_app in Hw as [Hw|Hw].
  - apply list_elem_of_fmap in Hw as (i & -> & _). vm_compute. discriminate.
  - apply list_elem_of_singleton in Hw as ->. vm_compute. discriminate.
Qed.

(** One run: entries a weigher gives no weight fill the sampling window ahead of the ones that
    could go. The engine is consistent and over its cap, and holds a live entry of weight 6 the
    write did not store; capacity enforcement evicts nothing and leaves it over the cap. *)
Example weightless_entries_hide_the_victims :
  engine_inv (HS := flat_hashing) weightless_engine /\
  (exists l, l ∈ st_live (stripe_at weightless_engine 0) /\ live_key l = [0] /\ lv_weight l = 6) /\
  exists e' written',
    enforce_capacity (HS := flat_hashing) weightless_engine 0 written_default 1000 =
      Some (e', written', (0, 0)) /\
    total_weight (totals e') = 12 /\ max_capacity (cfg e') = 10.
Proof.
  split; [apply weightless_engine_inv|]. split.
  - destruct (st_live (stripe_at weightless_engine 0)) as [|l ls] eqn:E; [vm_compute in E; discriminate|].
    exists l. split; [by left|]. vm_compute in E. injection E as <- _. vm_compute. done.
  - set (out := enforce_capacity _ _ _ _).
    assert (Hout : (fun r => (r.2, total_weight (totals r.1.1), max_capacity (cfg r.1.1))) <$> out =
      Some ((0, 0), 12, 10)) by (vm_compute; reflexivity).
    clearbody out. destruct out as [[[e' w'] [d f]]|]; [|discriminate].
    cbn in Hout. injection Hout as -> -> Hw Hc. exists e', w'. done.
Qed.
