(* ===== verification/Read.v ===== *)
(** * Point reads

    [store/engine/read.rs] and the recency touch of [mod.rs]: lookups by key bytes, lifetimes,
    key enumeration and the record a peer is sent, in the build where every entry is resident. *)

From S2P Require Import Prelude Clock Part Types Record Expiry Wire Merge Arena Engine Apply Removal.

(** ** Definitions *)

(** [explain.rs]'s [LocalRecord]. *)
Inductive LocalRecord :=
  | LAbsent
  | LTombstone (version : Hlc)
  | LLive (version : Hlc) (expires_at_ms : option Z) (spilled : bool)
  | LLapsed (version : Hlc) (expires_at_ms : option Z) (cause : Lapse).

Inductive Ttl := Never | Remaining (ms : Z).

Section Read.
Context {PU : PostcardU32} {HS : Hashing} {V : Type} {VC : ValueCodec V}.

(** [touch] on the key's live entry: its recency stamp moves, where it is consulted. *)
Definition touch (e : Engine V) (k : Bytes) (now_ms : Z) : Engine V :=
  if tracks_last_access e then
    let st := stripe_at e (bucket_of_key k) in
    match find_slot k (st_live st) with
    | Some i =>
        with_stripe e (bucket_of_key k)
          (set_live st (alter (fun l => set_last_access l (touch_stamp now_ms)) i (st_live st)))
    | None => e
    end
  else e.

(** The entry a read returns: found, and neither past its expiry nor idle. *)
Definition visible (e : Engine V) (k : Bytes) (now_ms : Z) : option Live :=
  let st := stripe_at e (bucket_of_key k) in
  live ← find_in st k;
  if is_absent e live k (st_long_ttl st) now_ms then None else Some live.

(** A found value is decoded with [expect]: [Some None] is its panic. *)
Definition get_by_bytes (e : Engine V) (k : Bytes) (now_ms : Z) : Engine V * option (option V) :=
  match visible e k now_ms with
  | None => (e, None)
  | Some live => (touch e k now_ms, Some (decode_value (record_value (lv_record live))))
  end.

Definition get_with_lifetime (e : Engine V) (k : Bytes) (now_ms : Z) :
    Engine V * option (option V * Hlc * option Z) :=
  match visible e k now_ms with
  | None => (e, None)
  | Some live =>
      let st := stripe_at e (bucket_of_key k) in
      let deadline := decode_expiry (lv_wall_ms live) (lv_expiry live) k (st_long_ttl st) in
      (touch e k now_ms,
       Some (decode_value (record_value (lv_record live)), live_ver live, deadline))
  end.

Definition lifetime_of (e : Engine V) (k : Bytes) (now_ms : Z) : option (Hlc * option Z) :=
  live ← visible e k now_ms;
  Some (live_ver live,
        decode_expiry (lv_wall_ms live) (lv_expiry live) k
          (st_long_ttl (stripe_at e (bucket_of_key k)))).

Definition inspect (e : Engine V) (k : Bytes) (now_ms : Z) : LocalRecord :=
  let st := stripe_at e (bucket_of_key k) in
  match st_tombstones st !! k with
  | Some t => LTombstone (ts_ver t)
  | None =>
      match find_in st k with
      | None => LAbsent
      | Some live =>
          let version := live_ver live in
          let expires_at_ms := decode_expiry (lv_wall_ms live) (lv_expiry live) k (st_long_ttl st) in
          if is_absent e live k (st_long_ttl st) now_ms
          then LLapsed version expires_at_ms (lapse_cause expires_at_ms now_ms)
          else LLive version expires_at_ms false
      end
  end.

Definition contains_key (e : Engine V) (k : Bytes) (now_ms : Z) : Engine V * bool :=
  match visible e k now_ms with
  | None => (e, false)
  | Some _ => (touch e k now_ms, true)
  end.

Definition keys (e : Engine V) (now_ms : Z) : list Bytes :=
  stripes e ≫= (fun st =>
    live_key <$> filter (fun l => is_absent e l (live_key l) (st_long_ttl st) now_ms = false)
                   (st_live st)).

Definition record_scoped (e : Engine V) (k : Bytes) (now_ms : Z) (lapsed : Lapsed) :
    option WireRecord :=
  let st := stripe_at e (bucket_of_key k) in
  match st_tombstones st !! k with
  | Some t => Some {| wr_key := k; wr_value := None; wr_ver := ts_ver t;
                      wr_expires_at_ms := ts_expired_at_ms t |}
  | None =>
      live ← find_in st k;
      if absent_under live k (st_long_ttl st) (tti_ms (cfg e)) now_ms lapsed then None
      else Some {| wr_key := k; wr_value := Some (record_value (lv_record live));
                   wr_ver := live_ver live;
                   wr_expires_at_ms :=
                     decode_expiry (lv_wall_ms live) (lv_expiry live) k (st_long_ttl st) |}
  end.

Definition record_for (e : Engine V) (k : Bytes) (now_ms : Z) : option WireRecord :=
  record_scoped e k now_ms Hidden.
Definition written_record_for (e : Engine V) (k : Bytes) (now_ms : Z) : option WireRecord :=
  record_scoped e k now_ms Shown.

Definition ttl_of (e : Engine V) (k : Bytes) (now_ms : Z) : option Ttl :=
  live ← visible e k now_ms;
  Some match decode_expiry (lv_wall_ms live) (lv_expiry live) k
               (st_long_ttl (stripe_at e (bucket_of_key k))) with
       | None => Never
       | Some deadline => Remaining (saturating_sub deadline now_ms)
       end.

(** ** The recency touch stores nothing *)

(** Entries that differ in their recency stamp alone. *)
Definition same_entry (l l' : Live) : Prop := exists x, l' = set_last_access l x.

Lemma same_entry_refl l : same_entry l l.
Proof. exists (lv_last_access_ms l). by destruct l. Qed.

Lemma same_entries_fmap {A} (f : Live -> A) es es' : (forall l x, f (set_last_access l x) = f l) ->
  Forall2 same_entry es es' -> f <$> es' = f <$> es.
Proof. intros Hf. induction 1 as [|l l' es es' [x ->] _ IH]; [done|]. rewrite !fmap_cons. by rewrite Hf, IH. Qed.

Lemma same_entries_find es es' k : Forall2 same_entry es es' ->
  match find_live k es, find_live k es' with
  | Some l, Some l' => same_entry l l'
  | None, None => True
  | _, _ => False
  end.
Proof.
  induction 1 as [|l l' es es' Hl _ IH]; [done|]. rewrite !find_live_cons.
  destruct Hl as [x ->]. change (live_key (set_last_access l x)) with (live_key l).
  case_decide; [by exists x|done].
Qed.

Lemma same_entries_elem es es' l' : Forall2 same_entry es es' -> l' ∈ es' ->
  exists l, l ∈ es /\ same_entry l l'.
Proof.
  intros H Hl. apply list_elem_of_lookup in Hl as [i Hi].
  destruct (Forall2_lookup_r _ _ _ _ _ H Hi) as (l & Hl & Hs). exists l. split; [|done].
  by eapply list_elem_of_lookup_2.
Qed.

Lemma same_entries_record st es k : Forall2 same_entry (st_live st) es ->
  stored_record (set_live st es) k = stored_record st k.
Proof.
  intros H. unfold stored_record, find_in. cbn [set_live st_tombstones st_live st_long_ttl].
  destruct (st_tombstones st !! k); [done|].
  pose proof (same_entries_find _ _ k H) as Hf.
  destruct (find_live k (st_live st)), (find_live k es); try done. by destruct Hf as [x ->].
Qed.

Lemma same_entries_wf idx st es : stripe_wf idx st -> Forall2 same_entry (st_live st) es ->
  stripe_wf idx (set_live st es).
Proof.
  intros Hwf H. split; cbn [set_live st_tombstones st_live st_long_ttl st_next_expiry_ms].
  - apply Forall_forall. intros l' Hl'. destruct (same_entries_elem _ _ _ H Hl') as (l & Hl & x & ->).
    apply (proj1 (Forall_forall _ _) (sw_fits _ _ Hwf) l Hl).
  - rewrite (same_entries_fmap live_key _ _ ltac:(done) H). apply Hwf.
  - intros l' Hl'. destruct (same_entries_elem _ _ _ H Hl') as (l & Hl & x & ->).
    apply (sw_disjoint _ _ Hwf l Hl).
  - intros k. rewrite versions_record, (same_entries_record _ _ _ H), <-versions_record. apply Hwf.
  - intros k. rewrite (sw_long _ _ Hwf). unfold find_in.
    cbn [set_live st_live]. pose proof (same_entries_find _ _ k H) as Hf.
    destruct (find_live k (st_live st)), (find_live k es); try done.
    destruct Hf as [x ->]. split; intros (y & [= <-] & Hy); eauto.
  - intros l' d Hl'. destruct (same_entries_elem _ _ _ H Hl') as (l & Hl & x & ->).
    apply (sw_next _ _ Hwf l d Hl).
Qed.

Lemma set_live_same (e : Engine V) idx st es : engine_inv e -> stripes e !! idx = Some st ->
  Forall2 same_entry (st_live st) es ->
  let e' := with_stripe e idx (set_live st es) in
  engine_inv e' /\ forall k, engine_record e' k = engine_record e k.
Proof.
  intros He Hst H e'. pose proof (ei_wf _ He _ _ Hst) as Hwf.
  pose proof (lookup_lt_Some _ _ _ Hst) as Hlt. rewrite (ei_stripes _ He) in Hlt.
  assert (Hsame : forall k, stored_record (set_live st es) k = stored_record st k)
    by (intros k; by apply same_entries_record). split.
  - apply (engine_inv_stripe e e' idx st (set_live st es)); try done.
    + by apply same_entries_wf.
    + intros p Hp. unfold e', digest_at. cbn. change (default 0 (digest e !! _)) with (digest_at e (digest_slot (Z.of_nat idx) p)).
      rewrite (ei_match _ He _ _ Hst p Hp). f_equal. apply map_eq. intros k.
      by rewrite !versions_record, Hsame.
    + apply totals_eq; unfold stripe_weight, stripe_count, stripe_bytes; cbn.
      * rewrite (same_entries_fmap lv_weight _ _ ltac:(done) H). lia.
      * rewrite (Forall2_length _ _ _ H). lia.
      * rewrite (same_entries_fmap entry_bytes _ _ ltac:(done) H), Z.sub_diag. by rewrite move_resident_0.
  - intros k. rewrite (engine_record_insert e e' idx (set_live st es)) by done.
    case_decide as Hb; [|done]. rewrite Hsame. unfold engine_record, stripe_at. by rewrite Hb, Hst.
Qed.

Lemma touch_same (e : Engine V) k now : engine_inv e ->
  engine_inv (touch e k now) /\ (forall k', engine_record (touch e k now) k' = engine_record e k') /\
  digest (touch e k now) = digest e /\ totals (touch e k now) = totals e.
Proof.
  intros He. unfold touch. destruct (tracks_last_access e); [|done].
  destruct (find_slot k _) as [i|]; [|done].
  destruct (set_live_same e (bucket_of_key k) _
    (alter (fun l => set_last_access l (touch_stamp now)) i (st_live (stripe_at e (bucket_of_key k)))) He
    (stripe_at_lookup e k He)) as [H1 H2]; [|done].
  apply Forall2_same_length_lookup_2; [by rewrite length_alter|]. intros j l l' Hl.
  destruct (decide (i = j)) as [->|Hne].
  - rewrite list_lookup_alter_eq, Hl. intros [= <-]. by eexists.
  - rewrite list_lookup_alter_ne, Hl by done. intros [= <-]. apply same_entry_refl.
Qed.

(** ** What a read sees *)

Lemma record_for_live (e : Engine V) k now : engine_inv e ->
  match visible e k now with
  | Some live =>
      find_in (stripe_at e (bucket_of_key k)) k = Some live /\
      record_for e k now = Some {| wr_key := k; wr_value := Some (record_value (lv_record live));
        wr_ver := live_ver live;
        wr_expires_at_ms := live_deadline live k (st_long_ttl (stripe_at e (bucket_of_key k))) |}
  | None => record_for e k now ≫= wr_value = None
  end.
Proof.
  intros He. pose proof (ei_wf _ He _ _ (stripe_at_lookup e k He)) as Hwf.
  unfold visible, record_for, record_scoped, is_absent, absent_at.
  destruct (st_tombstones _ !! k) as [t|] eqn:Et.
  { by rewrite (tombstone_not_live _ _ _ _ Hwf Et). }
  destruct (find_in _ k) as [l|]; cbn; [|done]. by destruct (absent_under _ _ _ _ _ _).
Qed.

Lemma keys_visible (e : Engine V) now k : engine_inv e ->
  k ∈ keys e now <-> is_Some (visible e k now).
Proof.
  intros He. unfold keys, visible. rewrite list_elem_of_bind. split.
  - intros (st & (l & -> & [Hab Hl]%list_elem_of_filter)%list_elem_of_fmap & [i Hi]%list_elem_of_lookup).
    pose proof (ei_wf _ He _ _ Hi) as Hwf.
    assert (Hf : find_in st (live_key l) = Some l) by (by apply find_live_unique; [apply Hwf| |]).
    assert (Hb : bucket_of_key (live_key l) = i).
    { apply (sw_bucket _ _ Hwf). rewrite versions_lookup, (sw_disjoint _ _ Hwf l Hl), Hf. by eexists. }
    unfold stripe_at. rewrite Hb, Hi. cbn [from_option id]. rewrite Hf. cbn. rewrite Hab. by eexists.
  - intros [l Hl]. pose proof (stripe_at_lookup e k He) as Hst.
    exists (stripe_at e (bucket_of_key k)). split; [|by eapply list_elem_of_lookup_2].
    destruct (find_in _ k) as [x|] eqn:Ef; cbn in Hl; [|done].
    apply find_live_Some in Ef as [Hx <-]. apply list_elem_of_fmap. exists x. split; [done|].
    apply list_elem_of_filter. split; [|done]. by destruct (is_absent e x _ _ now).
Qed.

(** A list of lists that share nothing, whatever their order. *)
Lemma NoDup_bind_indexed {A B} (f : A -> list B) (l : list A) :
  (forall i x, l !! i = Some x -> NoDup (f x)) ->
  (forall i j x y z, l !! i = Some x -> l !! j = Some y -> z ∈ f x -> z ∈ f y -> i = j) ->
  NoDup (l ≫= f).
Proof.
  induction l as [|x l IH]; intros Hn Hd; cbn; [constructor|]. apply NoDup_app. split_and!.
  - by apply (Hn 0%nat).
  - intros z Hz (y & Hz' & [j Hj]%list_elem_of_lookup)%list_elem_of_bind.
    by specialize (Hd 0%nat (S j) x y z eq_refl Hj Hz Hz').
  - apply IH; [intros i; apply (Hn (S i))|]. intros i j a b z Ha Hb Hz Hz'.
    specialize (Hd (S i) (S j) a b z Ha Hb Hz Hz'). lia.
Qed.

Lemma stored_bucket (e : Engine V) i st l : engine_inv e -> stripes e !! i = Some st -> l ∈ st_live st ->
  bucket_of_key (live_key l) = i /\ find_in st (live_key l) = Some l.
Proof.
  intros He Hi Hl. pose proof (ei_wf _ He _ _ Hi) as Hwf.
  assert (Hf : find_in st (live_key l) = Some l) by (by apply find_live_unique; [apply Hwf| |]).
  split; [|done]. apply (sw_bucket _ _ Hwf). rewrite versions_lookup, (sw_disjoint _ _ Hwf l Hl), Hf.
  by eexists.
Qed.

Lemma keys_nodup (e : Engine V) now : engine_inv e -> NoDup (keys e now).
Proof.
  intros He. unfold keys. apply NoDup_bind_indexed.
  - intros i st Hi. pose proof (ei_wf _ He _ _ Hi) as Hwf.
    eapply (sublist_NoDup _ (live_key <$> st_live st)); [apply Hwf|].
    apply fmap_sublist, sublist_filter.
  - intros i j st1 st2 k Hi Hj (l1 & -> & [_ Hl1]%list_elem_of_filter)%list_elem_of_fmap.
    intros (l2 & Hk & [_ Hl2]%list_elem_of_filter)%list_elem_of_fmap.
    destruct (stored_bucket e i st1 l1 He Hi Hl1) as [<- _].
    destruct (stored_bucket e j st2 l2 He Hj Hl2) as [<- _]. by rewrite Hk.
Qed.

(** Every read agrees with the record a peer is sent. [get], [contains_key], the lifetimes
    and [keys] answer exactly for the keys whose readable record is a live one, with its value,
    version and deadline; [inspect] tells a deleted key, a lapsed entry and a missing one
    apart; [keys] lists each key once; and a read changes no record, no digest and no total. *)
Theorem reads_agree (e : Engine V) (k : Bytes) (now : Z) (Hinv : engine_inv e) :
  let seen := r ← record_for e k now; v ← wr_value r; Some (v, wr_ver r, wr_expires_at_ms r) in
  (get_by_bytes e k now).2 = (fun x => decode_value x.1.1) <$> seen /\
  (get_with_lifetime e k now).2 = (fun x => (decode_value x.1.1, x.1.2, x.2)) <$> seen /\
  lifetime_of e k now = (fun x => (x.1.2, x.2)) <$> seen /\
  (contains_key e k now).2 = is_some seen /\
  ttl_of e k now = (fun x => match x.2 with None => Never | Some d => Remaining (saturating_sub d now) end) <$> seen /\
  (k ∈ keys e now <-> is_Some seen) /\ NoDup (keys e now) /\
  inspect e k now =
    match engine_record e k with
    | None => LAbsent
    | Some r =>
        if is_some (wr_value r) then
          if is_some seen then LLive (wr_ver r) (wr_expires_at_ms r) false
          else LLapsed (wr_ver r) (wr_expires_at_ms r) (lapse_cause (wr_expires_at_ms r) now)
        else LTombstone (wr_ver r)
    end /\
  (forall e', e' ∈ [(get_by_bytes e k now).1; (get_with_lifetime e k now).1; (contains_key e k now).1] ->
     engine_inv e' /\ (forall k', engine_record e' k' = engine_record e k') /\
     digest e' = digest e /\ totals e' = totals e).
Proof.
  cbv zeta. pose proof (record_for_live e k now Hinv) as Hv. pose proof (touch_same e k now Hinv) as Ht.
  unfold get_by_bytes, get_with_lifetime, lifetime_of, contains_key, ttl_of.
  rewrite (keys_visible e now k Hinv).
  destruct (visible e k now) as [l|] eqn:Ev.
  - destruct Hv as [Hf Hr]. rewrite Hr. cbn. split_and!; try done.
    + by apply keys_nodup.
    + unfold visible in Ev. rewrite Hf in Ev. cbn in Ev. unfold inspect, engine_record, stored_record.
      rewrite Hf. destruct (st_tombstones _ !! k) as [t|] eqn:Et.
      { pose proof (ei_wf _ Hinv _ _ (stripe_at_lookup e k Hinv)) as Hwf.
        by rewrite (tombstone_not_live _ _ _ _ Hwf Et) in Hf. }
      cbn. by destruct (is_absent _ _ _ _ _).
    + intros e' He'. rewrite !elem_of_cons, elem_of_nil in He'. by destruct He' as [->|[->|[->|[]]]].
  - assert (Hn : (r ← record_for e k now; v ← wr_value r; Some (v, wr_ver r, wr_expires_at_ms r)) = None).
    { destruct (record_for e k now) as [r|]; cbn in *; [|done]. by rewrite Hv. }
    rewrite Hn. cbn. split_and!; try done.
    + by apply keys_nodup.
    + unfold visible in Ev. unfold inspect, engine_record, stored_record.
      destruct (st_tombstones _ !! k) as [t|]; [done|].
      destruct (find_in _ k) as [l|]; cbn in *; [|done]. by destruct (is_absent _ _ _ _ _).
    + intros e' He'. rewrite !elem_of_cons, elem_of_nil in He'. by destruct He' as [->|[->|[->|[]]]].
Qed.

(** What the fan-out sends is the readable record, or a lapsed one with its past deadline. *)
Lemma written_record_extends (e : Engine V) k now :
  written_record_for e k now =
    match record_for e k now with
    | Some r => Some r
    | None => r ← written_record_for e k now;
              if is_some_and (wr_expires_at_ms r) (fun d => d <=? now) then Some r else None
    end.
Proof.
  unfold written_record_for, record_for, record_scoped, absent_under.
  destruct (st_tombstones _ !! k); [done|]. destruct (find_in _ k) as [l|]; cbn; [|done].
  unfold live_deadline. destruct (decode_expiry _ _ _ _) as [d|]; cbn; [|by destruct (idle_at _ _ _)].
  destruct (d <=? now) eqn:Hd; [|by destruct (idle_at _ _ _)].
  destruct (idle_at _ _ _); [done|]. cbn. by rewrite Hd.
Qed.

End Read.

(** ** A concrete read *)

Lemma reads_agree_witness :
  (get_by_bytes small_engine [1] 1000).2 = Some (Some [10]) /\
  inspect small_engine [3] 1000 = LTombstone (stamp 700 1) /\
  engine_inv (get_by_bytes small_engine [1] 1000).1.
Proof.
  destruct (reads_agree small_engine [1] 1000 small_engine_inv) as (Hg & _ & _ & _ & _ & _ & _ & _ & Hs).
  split_and!.
  - rewrite Hg. vm_compute. reflexivity.
  - vm_compute. reflexivity.
  - apply Hs. left.
Defined.
