(* ===== verification/Serve.v ===== *)
(** * Serving anti-entropy and state transfer

    [store/engine/serve.rs]: bucket and part listings, digests and the snapshot, and
    [chunk_records_for_snapshot] of [store/mod.rs]; with what a joining node stores once it has
    applied the chunks. *)

From S2P Require Import Prelude Clock Part Types Record Expiry Wire Merge Arena Engine Apply Removal Read.

(** ** Definitions *)

Record KeyVersion := { kv_key : Bytes; kv_version : Hlc }.

Section Serve.
Context {PU : PostcardU32} {HS : Hashing} {V : Type} {VC : ValueCodec V}.

(** The live entries of a stripe a read returns. *)
Definition present (e : Engine V) (st : Stripe) (now_ms : Z) : list Live :=
  filter (fun l => is_absent e l (live_key l) (st_long_ttl st) now_ms = false) (st_live st).

Definition listing (e : Engine V) (st : Stripe) (now_ms : Z) : list (Bytes * Hlc) :=
  ((fun l => (live_key l, live_ver l)) <$> present e st now_ms) ++
  ((fun kt => (kt.1, ts_ver kt.2)) <$> map_to_list (st_tombstones st)).

Definition key_version (kv : Bytes * Hlc) : KeyVersion := {| kv_key := kv.1; kv_version := kv.2 |}.

Definition collect_buckets (e : Engine V) (wanted : list Z) (now_ms : Z) :
    list (Z * list KeyVersion) :=
  (fun bucket => (bucket, key_version <$> listing e (stripe_at e (Z.to_nat bucket)) now_ms)) <$>
  filter (fun bucket => bucket < BUCKET_COUNT) wanted.

(** The parts asked for, by bucket; the out-of-range ones are skipped. *)
Definition wanted_parts (wanted : list BucketPart) : gmap Z (list Z) :=
  foldl (fun m bp =>
    if (BUCKET_COUNT <=? bp_bucket bp) || (PART_COUNT <=? bp_part bp) then m
    else <[bp_bucket bp := default [] (m !! bp_bucket bp) ++ [bp_part bp]]> m) ∅ wanted.

(** The array from a part to its place among the parts asked for. *)
Definition slot_of_part (parts : list Z) : list (option nat) :=
  foldl (fun a sp => <[Z.to_nat sp.2 := Some sp.1]> a) (replicate (Z.to_nat PART_COUNT) None)
    (imap pair parts).

Definition route (slots : list (option nat)) (per_part : list (list KeyVersion)) (kv : Bytes * Hlc) :
    list (list KeyVersion) :=
  match slots !! Z.to_nat (part_of_key kv.1) ≫= id with
  | Some slot => alter (fun es => es ++ [key_version kv]) slot per_part
  | None => per_part
  end.

Definition collect_bucket_parts (e : Engine V) (now_ms : Z) (bucket : Z) (parts : list Z) :
    list (BucketPart * list KeyVersion) :=
  let parts := dedup (sort_Z parts) in
  let per_part :=
    foldl (route (slot_of_part parts)) (replicate (length parts) [])
      (listing e (stripe_at e (Z.to_nat bucket)) now_ms) in
  zip ((fun part => {| bp_bucket := bucket; bp_part := part |}) <$> parts) per_part.

(** A [BTreeMap] is walked in key order. *)
Definition collect_parts (e : Engine V) (wanted : list BucketPart) (now_ms : Z) :
    list (BucketPart * list KeyVersion) :=
  let by_bucket := wanted_parts wanted in
  sort_Z (map_to_list by_bucket).*1 ≫=
    (fun bucket => collect_bucket_parts e now_ms bucket (default [] (by_bucket !! bucket))).

Definition digests (e : Engine V) : list (Z * Z) :=
  (fun bucket =>
     (bucket, foldl (fun acc part => Z.lxor acc (digest_at e (digest_slot bucket part))) 0
                (seqZ 0 PART_COUNT))) <$> seqZ 0 BUCKET_COUNT.

Definition bucket_len (e : Engine V) (bucket : Z) : Z :=
  if BUCKET_COUNT <=? bucket then 0
  else
    let st := stripe_at e (Z.to_nat bucket) in
    Z.of_nat (length (st_live st)) + Z.of_nat (size (st_tombstones st)).

Definition part_digests (e : Engine V) (bucket : Z) : list Z :=
  if BUCKET_COUNT <=? bucket then []
  else (fun part => digest_at e (digest_slot bucket part)) <$> seqZ 0 PART_COUNT.

Definition snapshot_stripe (e : Engine V) (now_ms : Z) (st : Stripe) : list WireRecord :=
  ((fun l => {| wr_key := live_key l; wr_value := Some (record_value (lv_record l));
                wr_ver := live_ver l;
                wr_expires_at_ms :=
                  decode_expiry (lv_wall_ms l) (lv_expiry l) (live_key l) (st_long_ttl st) |}) <$>
   present e st now_ms) ++
  ((fun kt => {| wr_key := kt.1; wr_value := None; wr_ver := ts_ver kt.2;
                 wr_expires_at_ms := ts_expired_at_ms kt.2 |}) <$> map_to_list (st_tombstones st)).

Definition snapshot_records (e : Engine V) (now_ms : Z) : list WireRecord :=
  stripes e ≫= snapshot_stripe e now_ms.

End Serve.

(** ** Chunks *)

Definition SNAPSHOT_CHUNK_SIZE : Z := 500.
Definition SNAPSHOT_CHUNK_ENVELOPE_HEADROOM : Z := 4 * 1024.

Definition snapshot_budget : Z := saturating_sub MAX_FRAME SNAPSHOT_CHUNK_ENVELOPE_HEADROOM.

Definition rec_size (rec : WireRecord) : Z :=
  Z.of_nat RECORD_HEADER_LEN + blen (wr_key rec) + from_option blen 0 (wr_value rec).

(** One turn of the loop: the chunks closed so far, the open one and its size. *)
Definition chunk_step (acc : list (list WireRecord) * list WireRecord * Z) (rec : WireRecord) :
    list (list WireRecord) * list WireRecord * Z :=
  let '(chunks, current, current_size) := acc in
  let over_budget :=
    (snapshot_budget <? current_size + rec_size rec) ||
    (SNAPSHOT_CHUNK_SIZE <=? Z.of_nat (length current)) in
  let '(chunks, current, current_size) :=
    if over_budget && negb (bool_decide (current = []))
    then (chunks ++ [current], [], 0) else (chunks, current, current_size) in
  (chunks, current ++ [rec], current_size + rec_size rec).

Definition chunk_records_for_snapshot (records : list WireRecord) : list (list WireRecord) :=
  let '(chunks, current, _) := foldl chunk_step ([], [], 0) records in
  if bool_decide (current = []) then chunks else chunks ++ [current].

(** ** A joining node *)

Section Transfer.
Context {PU : PostcardU32} {HS : Hashing} {V : Type} {VC : ValueCodec V}.

(** The write an arriving record is; one whose value does not decode is dropped. *)
Definition arrival (ctx : ApplyCtx V) (rec : WireRecord) : option (Write V) :=
  (fun i => {| wt_ctx := ctx; wt_key := wr_key rec; wt_ver := wr_ver rec; wt_incoming := i |}) <$>
  incoming_of rec.

Definition apply_chunk (R : ConflictResolver) (ctx : ApplyCtx V) (e : Engine V) (chunk : list WireRecord) :
    Engine V :=
  run_writes R e (omap (arrival ctx) chunk).

(** Whether an arriving record passes the gate: a tombstone past its retention does not. *)
Definition admitted (ctx : ApplyCtx V) (rec : WireRecord) : bool :=
  is_some_and (arrival ctx rec) wt_admitted.

(** ** The snapshot *)

Lemma record_for_key (e : Engine V) k now r : record_for e k now = Some r -> wr_key r = k.
Proof.
  unfold record_for, record_scoped. destruct (st_tombstones _ !! k); [by intros [= <-]|].
  destruct (find_in _ k); cbn; [|done]. destruct (absent_under _ _ _ _ _ _); [done|]. by intros [= <-].
Qed.

Lemma stripe_at_bucket (e : Engine V) i st k : stripes e !! i = Some st -> bucket_of_key k = i ->
  stripe_at e (bucket_of_key k) = st.
Proof. intros Hi ->. unfold stripe_at. by rewrite Hi. Qed.

Lemma present_elem (e : Engine V) st now l :
  l ∈ present e st now <-> l ∈ st_live st /\ is_absent e l (live_key l) (st_long_ttl st) now = false.
Proof. unfold present. rewrite list_elem_of_filter. tauto. Qed.

Lemma tombstone_bucket (e : Engine V) i st k t : engine_inv e -> stripes e !! i = Some st ->
  st_tombstones st !! k = Some t -> bucket_of_key k = i.
Proof.
  intros He Hi Ht. apply (sw_bucket _ _ (ei_wf _ He _ _ Hi)). rewrite versions_lookup, Ht. eauto.
Qed.

Lemma snapshot_stripe_exact (e : Engine V) now i st r : engine_inv e -> stripes e !! i = Some st ->
  r ∈ snapshot_stripe e now st <-> record_for e (wr_key r) now = Some r /\ bucket_of_key (wr_key r) = i.
Proof.
  intros He Hi. pose proof (ei_wf _ He _ _ Hi) as Hwf. unfold record_for, record_scoped, snapshot_stripe. split.
  - intros Hr. apply elem_of_app in Hr as [(l & -> & [Hl Hab]%present_elem)%list_elem_of_fmap
                               |([k t] & -> & Hk%elem_of_map_to_list)%list_elem_of_fmap]; cbn [wr_key fst].
    + destruct (stored_bucket e i st l He Hi Hl) as [Hb Hf]. rewrite (stripe_at_bucket e i st) by done.
      split; [|done]. rewrite (sw_disjoint _ _ Hwf l Hl), Hf. cbn. unfold is_absent, absent_at in Hab. by rewrite Hab.
    + pose proof (tombstone_bucket e i st k t He Hi Hk) as Hb. rewrite (stripe_at_bucket e i st) by done.
      by rewrite Hk.
  - intros [Hr Hb]. rewrite (stripe_at_bucket e i st) in Hr by done. apply elem_of_app.
    destruct (st_tombstones st !! wr_key r) as [t|] eqn:Et.
    + right. apply list_elem_of_fmap. exists (wr_key r, t). split; [by injection Hr as <-|].
      by apply elem_of_map_to_list.
    + left. destruct (find_in st (wr_key r)) as [l|] eqn:Ef; cbn in Hr; [|done].
      apply find_live_Some in Ef as [Hl Hk]. destruct (absent_under _ _ _ _ _ _) eqn:Hab; [done|].
      apply list_elem_of_fmap. exists l. rewrite Hk. split; [by injection Hr as <-|].
      apply present_elem. split; [done|]. unfold is_absent, absent_at. by rewrite Hk.
Qed.

Lemma snapshot_stripe_nodup (e : Engine V) now i st : engine_inv e -> stripes e !! i = Some st ->
  NoDup (wr_key <$> snapshot_stripe e now st).
Proof.
  intros He Hi. pose proof (ei_wf _ He _ _ Hi) as Hwf. unfold snapshot_stripe.
  rewrite fmap_app, <-!list_fmap_compose. apply NoDup_app. split_and!.
  - eapply (sublist_NoDup _ (live_key <$> st_live st)); [apply Hwf|].
    apply fmap_sublist, sublist_filter.
  - intros k (l & -> & [Hl _]%present_elem)%list_elem_of_fmap.
    intros ([k t] & Hk & Ht%elem_of_map_to_list)%list_elem_of_fmap. cbn in Hk. subst k.
    by rewrite (sw_disjoint _ _ Hwf l Hl) in Ht.
  - change (NoDup ((map_to_list (st_tombstones st)).*1)). apply NoDup_fst_map_to_list.
Qed.

Lemma snapshot_exact (e : Engine V) now r : engine_inv e ->
  r ∈ snapshot_records e now <-> record_for e (wr_key r) now = Some r.
Proof.
  intros He. unfold snapshot_records. rewrite list_elem_of_bind. split.
  - intros (st & Hr & [i Hi]%list_elem_of_lookup). 
    by destruct (proj1 (snapshot_stripe_exact e now i st r He Hi) Hr).
  - intros Hr. pose proof (stripe_at_lookup e (wr_key r) He) as Hst. eexists.
    split; [by apply (snapshot_stripe_exact e now _ _ r He Hst)|]. by eapply list_elem_of_lookup_2.
Qed.

Lemma fmap_of_bind {A B C} (f : B -> C) (g : A -> list B) (l : list A) :
  f <$> (l ≫= g) = l ≫= (fun x => f <$> g x).
Proof. induction l as [|x l IH]; cbn; [done|]. by rewrite fmap_app, IH. Qed.

Lemma snapshot_nodup (e : Engine V) now : engine_inv e -> NoDup (wr_key <$> snapshot_records e now).
Proof.
  intros He. unfold snapshot_records. rewrite fmap_of_bind. apply NoDup_bind_indexed.
  - intros i st Hi. by apply (snapshot_stripe_nodup e now i).
  - intros i j x y z Hi Hj (r & -> & Hr)%list_elem_of_fmap (r' & Hk & Hr')%list_elem_of_fmap.
    apply (snapshot_stripe_exact e now i x r He Hi) in Hr as [_ <-].
    apply (snapshot_stripe_exact e now j y r' He Hj) in Hr' as [_ <-]. by rewrite Hk.
Qed.

(** ** Listings *)

Lemma listing_snapshot (e : Engine V) st now :
  listing e st now = (fun r => (wr_key r, wr_ver r)) <$> snapshot_stripe e now st.
Proof. unfold listing, snapshot_stripe. by rewrite fmap_app, <-!list_fmap_compose. Qed.

Lemma listing_exact (e : Engine V) now i st k v : engine_inv e -> stripes e !! i = Some st ->
  (k, v) ∈ listing e st now <-> wr_ver <$> record_for e k now = Some v /\ bucket_of_key k = i.
Proof.
  intros He Hi. rewrite listing_snapshot, list_elem_of_fmap. split.
  - intros (r & [= -> ->] & Hr). apply (snapshot_stripe_exact e now i st r He Hi) in Hr as [-> <-]. done.
  - intros [Hv Hb]. destruct (record_for e k now) as [r|] eqn:Er; [|done]. injection Hv as <-.
    assert (Hk : wr_key r = k) by (by eapply record_for_key). exists r. split; [by rewrite Hk|].
    apply (snapshot_stripe_exact e now i st r He Hi). by rewrite Hk.
Qed.

Lemma listing_nodup (e : Engine V) now i st : engine_inv e -> stripes e !! i = Some st ->
  NoDup (listing e st now).*1.
Proof.
  intros He Hi. rewrite listing_snapshot, <-list_fmap_compose. by apply (snapshot_stripe_nodup e now i).
Qed.

Lemma wanted_parts_spec wanted : forall b p,
  p ∈ default [] (wanted_parts wanted !! b) <->
  {| bp_bucket := b; bp_part := p |} ∈ wanted /\ b < BUCKET_COUNT /\ p < PART_COUNT.
Proof.
  unfold wanted_parts. induction wanted as [|[b' p'] wanted IH] using rev_ind; intros b p.
  { cbn. rewrite lookup_empty. cbn. rewrite !elem_of_nil. tauto. }
  rewrite foldl_app. cbn. rewrite elem_of_app, list_elem_of_singleton.
  destruct (Z.leb_spec BUCKET_COUNT b'), (Z.leb_spec PART_COUNT p'); cbn.
  1-3: rewrite IH; split; [tauto|]; intros [[?|[= -> ->]] [? ?]]; [tauto|lia].
  destruct (decide (b' = b)) as [->|Hne].
  - rewrite lookup_insert_eq. cbn. rewrite elem_of_app, IH, list_elem_of_singleton. split.
    + intros [?| ->]; [tauto|]. split; [by right|lia].
    + intros [[?|[= ->]] ?]; [tauto|by right].
  - rewrite lookup_insert_ne by done. rewrite IH. split; [tauto|]. intros [[?|[= -> _]] ?]; [tauto|done].
Qed.

Lemma slot_of_part_spec parts : NoDup parts -> Forall (fun p => 0 <= p < PART_COUNT) parts ->
  forall p i, 0 <= p < PART_COUNT ->
  slot_of_part parts !! Z.to_nat p ≫= id = Some i <-> parts !! i = Some p.
Proof.
  unfold slot_of_part. intros Hnd Hr. induction parts as [|q parts IH] using rev_ind; intros p i Hp.
  { cbn [imap foldl]. rewrite lookup_replicate_2 by lia. done. }
  apply NoDup_app in Hnd as (Hnd & Hq & _). apply Forall_app in Hr as [Hr Hqr]. apply Forall_cons in Hqr as [Hqr _].
  rewrite imap_app, foldl_app. cbn [imap foldl]. rewrite Nat.add_0_r. cbn [fst snd].
  assert (Hlen : forall l (a : list (option nat)), length (foldl (fun a sp => <[Z.to_nat sp.2:=Some sp.1]> a) a l) = length a).
  { clear. induction l as [|x l IH]; intros a; cbn; [done|]. by rewrite IH, length_insert. }
  destruct (decide (p = q)) as [->|Hne].
  - rewrite list_lookup_insert_eq by (rewrite Hlen, length_replicate; lia). cbn. split.
    + intros [= <-]. by rewrite lookup_app_r, Nat.sub_diag by lia.
    + intros [Hi|[? Hi]]%lookup_app_Some.
      * apply list_elem_of_lookup_2, Hq in Hi. destruct Hi. by left.
      * apply list_lookup_singleton_Some in Hi as [Hi _]. f_equal. lia.
  - rewrite list_lookup_insert_ne by lia. rewrite IH by done. rewrite lookup_app_Some.
    split; [by left|]. intros [Hi|[? Hi]]; [done|].
    apply list_lookup_singleton_Some in Hi as [_ ?]. congruence.
Qed.

Lemma route_spec parts kvs : NoDup parts -> Forall (fun p => 0 <= p < PART_COUNT) parts ->
  forall pp i p, parts !! i = Some p ->
  foldl (route (slot_of_part parts)) pp kvs !! i =
  (fun es => es ++ (key_version <$> filter (fun kv => part_of_key kv.1 = p) kvs)) <$> pp !! i.
Proof.
  intros Hnd Hr. induction kvs as [|kv kvs IH]; intros pp i p Hi; cbn [foldl].
  { rewrite filter_nil. destruct (pp !! i); cbn; [by rewrite app_nil_r|done]. }
  rewrite (IH _ i p Hi), filter_cons. clear IH. unfold route.
  pose proof (slot_of_part_spec parts Hnd Hr (part_of_key kv.1)) as Hs.
  destruct (slot_of_part parts !! Z.to_nat (part_of_key kv.1) ≫= id) as [j|] eqn:Ej.
  - pose proof (proj1 (Hs j (part_of_key_range _)) eq_refl) as Hj. destruct (decide (i = j)) as [->|Hne].
    + rewrite Hi in Hj. injection Hj as Hj. rewrite decide_True by done.
      rewrite list_lookup_alter_eq. destruct (pp !! j); cbn; [|done]. by rewrite <-app_assoc.
    + rewrite list_lookup_alter_ne by done. rewrite decide_False; [done|].
      intros Hp. apply Hne. eapply (NoDup_lookup parts); [done..|]. by rewrite Hj, Hp.
  - rewrite decide_False; [done|]. intros Hp. rewrite <-Hp in Hi.
    by apply (Hs i (part_of_key_range _)) in Hi.
Qed.

(** One bucket's answer. *)
Lemma collect_bucket_parts_spec (e : Engine V) now b ps bp es : engine_inv e ->
  0 <= b < BUCKET_COUNT -> (forall p, p ∈ ps -> 0 <= p < PART_COUNT) ->
  (bp, es) ∈ collect_bucket_parts e now b ps ->
  bp_bucket bp = b /\ bp_part bp ∈ ps /\ NoDup (kv_key <$> es) /\
  forall kv, kv ∈ es <->
    wr_ver <$> record_for e (kv_key kv) now = Some (kv_version kv) /\
    Z.of_nat (bucket_of_key (kv_key kv)) = b /\ part_of_key (kv_key kv) = bp_part bp.
Proof.
  intros He Hb Hps. unfold collect_bucket_parts. destruct (sort_dedup ps) as [Hnd Hel].
  set (parts := dedup (sort_Z ps)) in *.
  assert (Hr : Forall (fun p => 0 <= p < PART_COUNT) parts).
  { apply Forall_forall. intros p Hp. apply Hps, Hel, Hp. }
  destruct (lookup_lt_is_Some_2 (stripes e) (Z.to_nat b)) as [st Hst];
    [rewrite (ei_stripes _ He); lia|].
  assert (Hat : stripe_at e (Z.to_nat b) = st) by (unfold stripe_at; by rewrite Hst). rewrite Hat.
  intros Hin. apply list_elem_of_lookup in Hin as [i Hi]. apply lookup_zip_Some in Hi as [Hbp Hes].
  rewrite list_lookup_fmap in Hbp. destruct (parts !! i) as [p|] eqn:Hp; [|done]. injection Hbp as <-.
  rewrite (route_spec parts _ Hnd Hr _ i p Hp), lookup_replicate_2 in Hes
    by (by eapply lookup_lt_Some). injection Hes as <-. cbn.
  split_and!; [done|by eapply Hel, list_elem_of_lookup_2| |].
  - rewrite <-list_fmap_compose. change (kv_key ∘ key_version) with (@fst Bytes Hlc).
    eapply (sublist_NoDup _ (listing e st now).*1); [by eapply listing_nodup|].
    apply fmap_sublist, sublist_filter.
  - intros [k v]. cbn. rewrite list_elem_of_fmap. split.
    + intros ([k' v'] & [= -> ->] & [Hpk Hl]%list_elem_of_filter).
      apply (listing_exact e now _ st _ _ He Hst) in Hl as [? ?]. split_and!; [done|lia|done].
    + intros (Hv & Hbk & Hpk). exists (k, v). split; [done|]. apply list_elem_of_filter. split; [done|].
      apply (listing_exact e now _ st _ _ He Hst). split; [done|lia].
Qed.

Lemma collect_bucket_parts_keys (e : Engine V) now b ps :
  (collect_bucket_parts e now b ps).*1 =
  (fun part => {| bp_bucket := b; bp_part := part |}) <$> dedup (sort_Z ps).
Proof.
  unfold collect_bucket_parts. apply fst_zip. rewrite length_fmap.
  assert (Hlen : forall slots kvs pp, length (foldl (route slots) pp kvs) = length pp).
  { intros slots kvs. induction kvs as [|kv kvs IH]; intros pp; cbn; [done|]. rewrite IH. unfold route.
    destruct (_ ≫= id); [by rewrite length_alter|done]. }
  by rewrite Hlen, length_replicate.
Qed.

(** A part listing is exact. Each part asked for that exists is answered once, and nothing
    else is; the listing of a part holds each key of that part whose record a read returns,
    tombstones included, once, with its version, and no other key. *)
Theorem collect_parts_exact (e : Engine V) (wanted : list BucketPart) (now : Z) (Hinv : engine_inv e)
    (Hw : Forall (fun bp => 0 <= bp_bucket bp /\ 0 <= bp_part bp) wanted) :
  let out := collect_parts e wanted now in
  NoDup out.*1 /\
  (forall bp, bp ∈ out.*1 <-> bp ∈ wanted /\ bp_bucket bp < BUCKET_COUNT /\ bp_part bp < PART_COUNT) /\
  forall bp es, (bp, es) ∈ out ->
    NoDup (kv_key <$> es) /\
    forall kv, kv ∈ es <->
      wr_ver <$> record_for e (kv_key kv) now = Some (kv_version kv) /\
      Z.of_nat (bucket_of_key (kv_key kv)) = bp_bucket bp /\ part_of_key (kv_key kv) = bp_part bp.
Proof.
  intros out. rewrite Forall_forall in Hw. pose proof (wanted_parts_spec wanted) as Hs.
  assert (Hbk : forall b, b ∈ sort_Z (map_to_list (wanted_parts wanted)).*1 <-> is_Some (wanted_parts wanted !! b)).
  { intros b. rewrite sort_Z_elem, list_elem_of_fmap. split.
    - intros ([b' ps] & -> & Hm%elem_of_map_to_list). eauto.
    - intros [ps Hm]. exists (b, ps). split; [done|]. by apply elem_of_map_to_list. }
  assert (Hkeys : forall bp, bp ∈ out.*1 <-> bp ∈ wanted /\ bp_bucket bp < BUCKET_COUNT /\ bp_part bp < PART_COUNT).
  { intros [b p]. cbn [bp_bucket bp_part]. unfold out, collect_parts. rewrite fmap_of_bind, list_elem_of_bind.
    rewrite <-Hs. split.
    - intros (b' & Hin & _). rewrite collect_bucket_parts_keys in Hin.
      apply list_elem_of_fmap in Hin as (p' & [= -> ->] & Hp). by rewrite dedup_elem, sort_Z_elem in Hp.
    - intros Hp. exists b. rewrite collect_bucket_parts_keys. split.
      + apply list_elem_of_fmap. exists p. split; [done|]. by rewrite dedup_elem, sort_Z_elem.
      + apply Hbk. destruct (wanted_parts wanted !! b) eqn:E; [eauto|]. cbn in Hp. by apply not_elem_of_nil in Hp. }
  split_and!.
  - unfold out, collect_parts. rewrite fmap_of_bind. apply NoDup_bind.
    + intros b1 b2 bp _ _. rewrite !collect_bucket_parts_keys.
      intros (p & -> & _)%list_elem_of_fmap (p' & [= ? _] & _)%list_elem_of_fmap. congruence.
    + intros b _. rewrite collect_bucket_parts_keys. apply NoDup_fmap_2; [by intros ? ? [= ->]|].
      apply sort_dedup.
    + unfold sort_Z. rewrite merge_sort_Permutation. apply NoDup_fst_map_to_list.
  - done.
  - intros bp es Hin.
    assert (Hbp : bp ∈ out.*1) by (apply list_elem_of_fmap; by exists (bp, es)).
    apply Hkeys in Hbp as (Hwd & Hb & Hp). destruct (Hw _ Hwd) as [Hb0 Hp0].
    unfold out, collect_parts in Hin. apply list_elem_of_bind in Hin as (b & Hin & _).
    assert (Hbb : bp_bucket bp = b).
    { assert (Hk : bp ∈ (collect_bucket_parts e now b (default [] (wanted_parts wanted !! b))).*1)
        by (apply list_elem_of_fmap; by exists (bp, es)).
      rewrite collect_bucket_parts_keys in Hk. by apply list_elem_of_fmap in Hk as (p & -> & _). }
    destruct (collect_bucket_parts_spec e now b (default [] (wanted_parts wanted !! b)) bp es Hinv) as (_ & _ & H1 & H2); [lia| |done|].
    { intros p Hpp%Hs. destruct Hpp as (Hm & _ & ?). destruct (Hw _ Hm). cbn in *. lia. }
    split; [done|]. by rewrite Hbb.
Qed.

(** ** Digests *)

(** The fingerprints of everything stored, folded. *)
Definition full_digest (m : gmap Bytes Hlc) : Z :=
  xor_list ((fun x => entry_fingerprint x.1 x.2) <$> map_to_list m).

Lemma foldl_lxor_once (f g : Z -> Z) x (q : Z) ps : forall acc acc', NoDup ps -> acc' = acc ->
  (forall p, p ∈ ps -> g p = if decide (p = q) then Z.lxor x (f p) else f p) ->
  foldl (fun a p => Z.lxor a (g p)) acc' ps =
  if decide (q ∈ ps) then Z.lxor x (foldl (fun a p => Z.lxor a (f p)) acc ps)
  else foldl (fun a p => Z.lxor a (f p)) acc ps.
Proof.
  assert (Hpull : forall (h : Z -> Z) ps a b, foldl (fun a p => Z.lxor a (h p)) (Z.lxor b a) ps =
    Z.lxor b (foldl (fun a p => Z.lxor a (h p)) a ps)).
  { intros h ps'. induction ps' as [|p ps' IH]; intros a b; cbn; [done|]. by rewrite Z.lxor_assoc, IH. }
  induction ps as [|p ps IH]; intros acc acc' Hnd -> Hg; cbn [foldl].
  { rewrite decide_False; [done|]. apply not_elem_of_nil. }
  apply NoDup_cons in Hnd as [Hp Hnd]. rewrite (Hg p) by (by left).
  destruct (decide (p = q)) as [->|Hne].
  - rewrite decide_True by (by left).
    replace (Z.lxor acc (Z.lxor x (f q))) with (Z.lxor x (Z.lxor acc (f q)))
      by (rewrite <-!Z.lxor_assoc, (Z.lxor_comm x acc); done).
    rewrite Hpull. f_equal. rewrite (IH (Z.lxor acc (f q)) _ Hnd eq_refl); [by rewrite decide_False|].
    intros p Hin. apply Hg. by right.
  - rewrite (IH (Z.lxor acc (f p)) _ Hnd eq_refl) by (intros; apply Hg; by right).
    destruct (decide (q ∈ ps)) as [Hq|Hq]; [by rewrite decide_True by (by right)|].
    rewrite decide_False; [done|]. intros [?|?]%elem_of_cons; congruence.
Qed.

Lemma full_digest_parts (m : gmap Bytes Hlc) :
  foldl (fun a p => Z.lxor a (part_digest p m)) 0 (seqZ 0 PART_COUNT) = full_digest m.
Proof.
  induction m as [|k v m Hk IH] using map_ind.
  - unfold full_digest. rewrite map_to_list_empty. cbn [fmap list_fmap].
    assert (H0 : forall ps, foldl (fun a p => Z.lxor a (part_digest p ∅)) 0 ps = 0).
    { induction ps as [|p ps IHp]; cbn; [done|]. by rewrite part_digest_empty. }
    apply H0.
  - change (<[k := v]> m) with (set_version k (Some v) m).
    rewrite (foldl_lxor_once (fun p => part_digest p m) _ (entry_fingerprint k v) (part_of_key k)
      (seqZ 0 PART_COUNT) 0 0 (NoDup_seqZ _ _) eq_refl).
    + rewrite decide_True by (apply elem_of_seqZ; pose proof (part_of_key_range k); lia).
      rewrite IH. unfold full_digest. change (set_version k (Some v) m) with (<[k := v]> m).
      by rewrite (map_to_list_insert m k v Hk).
    + intros p _. rewrite (part_digest_fresh p k (Some v) m Hk). cbn [opt_fp].
      by destruct (decide (part_of_key k = p)), (decide (p = part_of_key k)).
Qed.

Lemma versions_size idx st : stripe_wf idx st ->
  size (versions st) = (length (st_live st) + size (st_tombstones st))%nat.
Proof.
  intros Hwf. unfold versions. rewrite map_size_disj_union.
  - rewrite map_size_fmap, map_size_list_to_map, length_fmap; [lia|].
    rewrite <-list_fmap_compose. apply Hwf.
  - apply map_disjoint_spec. intros k t v. rewrite lookup_fmap, live_map_lookup.
    destruct (st_tombstones st !! k) as [t'|] eqn:Et; [|done]. intros _.
    pose proof (tombstone_not_live idx st k t' Hwf Et) as Hf. unfold find_in in Hf. by rewrite Hf.
Qed.

(** What a node answers about a bucket describes the records it stores there: each part
    digest is the XOR of the fingerprints of the part's records, the bucket digest is that of
    all of them, computed from the part digests, and the length is their number, live entries
    and tombstones, though the answer reads neither. A bucket past the last has no parts and no
    records. *)
Theorem digest_answers_are_exact (e : Engine V) (b : Z) (Hinv : engine_inv e) (Hb : 0 <= b) :
  (b < BUCKET_COUNT ->
   let stored := versions (stripe_at e (Z.to_nat b)) in
   part_digests e b = (fun p => part_digest p stored) <$> seqZ 0 PART_COUNT /\
   digests e !! Z.to_nat b = Some (b, full_digest stored) /\
   bucket_len e b = Z.of_nat (size stored)) /\
  (BUCKET_COUNT <= b -> part_digests e b = [] /\ digests e !! Z.to_nat b = None /\ bucket_len e b = 0).
Proof.
  unfold part_digests, bucket_len, digests. split; intros Hlt.
  - destruct (lookup_lt_is_Some_2 (stripes e) (Z.to_nat b)) as [st Hst]; [rewrite (ei_stripes _ Hinv); lia|].
    assert (Hat : stripe_at e (Z.to_nat b) = st) by (unfold stripe_at; by rewrite Hst). rewrite Hat.
    pose proof (ei_match _ Hinv _ _ Hst) as Hm. unfold digest_matches in Hm. rewrite Z2Nat.id in Hm by done.
    rewrite (proj2 (Z.leb_gt _ _)) by lia. cbv zeta. split_and!.
    + apply list_fmap_ext. intros i p Hp%lookup_seqZ. apply Hm. lia.
    + rewrite list_lookup_fmap, lookup_seqZ_lt by lia. cbn. rewrite Z2Nat.id by done.
      do 2 f_equal. rewrite <-full_digest_parts.
      assert (Hext : forall ps a, Forall (fun p => 0 <= p < PART_COUNT) ps ->
        foldl (fun acc part => Z.lxor acc (digest_at e (digest_slot b part))) a ps =
        foldl (fun acc part => Z.lxor acc (part_digest part (versions st))) a ps).
      { induction ps as [|p ps IH]; intros a Hps; [done|]. apply Forall_cons in Hps as [Hp Hps].
        cbn. by rewrite IH, Hm. }
      apply Hext, Forall_forall. intros p Hp%elem_of_seqZ. lia.
    + rewrite (versions_size _ _ (ei_wf _ Hinv _ _ Hst)). lia.
  - rewrite (proj2 (Z.leb_le _ _)) by lia. split_and!; try done. rewrite list_lookup_fmap.
    rewrite lookup_seqZ_ge by lia. done.
Qed.

(** ** Chunks *)

Definition chunk_ok (c : list WireRecord) : Prop :=
  c <> [] /\ Z.of_nat (length c) <= SNAPSHOT_CHUNK_SIZE /\
  (sum_Z (rec_size <$> c) <= snapshot_budget \/ length c = 1%nat).

Lemma chunk_step_inv rs : forall chunks current size,
  Forall chunk_ok chunks -> (current = [] \/ chunk_ok current) -> size = sum_Z (rec_size <$> current) ->
  let '(chunks', current', _) := foldl chunk_step (chunks, current, size) rs in
  Forall chunk_ok chunks' /\ (current' = [] \/ chunk_ok current') /\
  concat chunks' ++ current' = concat chunks ++ current ++ rs.
Proof.
  induction rs as [|r rs IH]; intros chunks current size Hc Hcur ->; cbn [foldl].
  { by rewrite app_nil_r. }
  assert (Hone : chunk_ok [r]).
  { unfold chunk_ok, SNAPSHOT_CHUNK_SIZE. cbn. split_and!; [done|lia|by right]. }
  unfold chunk_step at 2. cbv zeta. destruct (decide (current = [])) as [->|Hne].
  - rewrite bool_decide_eq_true_2, andb_false_r by done.
    specialize (IH chunks [r] (sum_Z (rec_size <$> []) + rec_size r) Hc (or_intror Hone)).
    destruct (foldl chunk_step _ rs) as [[c1 cur1] z1].
    destruct IH as (H1 & H2 & H3); [unfold sum_Z; cbn; lia|]. by rewrite H3.
  - destruct Hcur as [?|Hcur]; [done|]. rewrite bool_decide_eq_false_2, andb_true_r by done.
    destruct (_ || _) eqn:Hover.
    + specialize (IH (chunks ++ [current]) [r] (0 + rec_size r)).
      destruct (foldl chunk_step _ rs) as [[c1 cur1] z1].
      destruct IH as (H1 & H2 & H3); [apply Forall_app; by split; [|constructor]|by right|unfold sum_Z; cbn; lia|].
      rewrite H3, concat_app. cbn. by rewrite app_nil_r, <-app_assoc.
    + apply orb_false_iff in Hover as [Hb Hn]. apply Z.ltb_ge in Hb. apply Z.leb_gt in Hn.
      assert (Hsum : sum_Z (rec_size <$> current ++ [r]) = sum_Z (rec_size <$> current) + rec_size r).
      { rewrite fmap_app, sum_Z_app. unfold sum_Z at 2. cbn. lia. }
      specialize (IH chunks (current ++ [r]) (sum_Z (rec_size <$> current) + rec_size r) Hc).
      destruct (foldl chunk_step _ rs) as [[c1 cur1] z1]. destruct IH as (H1 & H2 & H3); [|lia|].
      { right. split; [by destruct current|]. rewrite length_app. cbn. split; [lia|]. left. lia. }
      by rewrite H3, <-!app_assoc.
Qed.

Lemma chunks_spec rs : Forall chunk_ok (chunk_records_for_snapshot rs) /\
  concat (chunk_records_for_snapshot rs) = rs.
Proof.
  unfold chunk_records_for_snapshot.
  pose proof (chunk_step_inv rs [] [] 0 ltac:(constructor) (or_introl eq_refl) eq_refl) as H.
  destruct (foldl chunk_step _ rs) as [[chunks current] z]. destruct H as (H1 & H2 & H3). cbn in H3.
  destruct (bool_decide_reflect (current = [])) as [->|Hne].
  - by rewrite app_nil_r in H3.
  - destruct H2 as [?|H2]; [done|]. split; [apply Forall_app; by split; [|constructor]|].
    rewrite concat_app. cbn. by rewrite app_nil_r.
Qed.

(** ** The transfer *)

Context {PUL : PostcardU32Laws}.

Lemma arrival_fresh (R : ConflictResolver) (ctx : ApplyCtx V) (e : Engine V) rec :
  engine_inv e -> key_fits (wr_key rec) -> ac_held_only ctx = false ->
  engine_record e (wr_key rec) = None ->
  let e' := run_writes R e (omap (arrival ctx) [rec]) in
  engine_inv e' /\
  forall k, engine_record e' k =
    if decide (k = wr_key rec /\ admitted ctx rec = true) then Some rec else engine_record e k.
Proof.
  intros He Hk Hh Hnone e'. unfold e', admitted. cbn. destruct (arrival ctx rec) as [w|] eqn:Ea; cbn; cycle 1.
  { split; [done|]. intros k. by rewrite decide_False by (by intros []). }
  assert (Hw : wt_key w = wr_key rec /\ wt_ctx w = ctx /\ wt_record w = rec).
  { unfold arrival, incoming_of in Ea. destruct rec as [rk [b|] rv rx]; cbn in Ea.
    - destruct (decode_value b); [|done]. by injection Ea as <-.
    - by injection Ea as <-. }
  destruct Hw as (Hwk & Hwc & Hwr). split; [apply write_one_inv; [done|by rewrite Hwk]|]. intros k.
  unfold write_one.
  destruct (apply_at_spec (R:=R) e 0 (wt_ctx w) (wt_key w) (wt_ver w) (wt_incoming w) He ltac:(by rewrite Hwk))
    as (e1 & ign & out & -> & _ & _ & Hrec). cbn. rewrite Hrec.
  unfold verdict. rewrite Hwc, Hh. cbn [andb]. unfold wt_admitted. rewrite Hwc.
  destruct (ignores _ _); cbn [negb]; [by rewrite decide_False by (by intros [])|].
  rewrite versions_record. fold (engine_record e (wt_key w)). rewrite Hwk, Hnone. cbn.
  rewrite <-Hwk. fold (wt_record w). rewrite Hwr.
  destruct (decide (k = wt_key w)) as [Hkk|Hkk]; [by rewrite decide_True by (by rewrite Hkk)|].
  rewrite decide_False; [done|]. by intros [-> _].
Qed.

Lemma run_writes_app R (e : Engine V) ws ws' : run_writes R e (ws ++ ws') = run_writes R (run_writes R e ws) ws'.
Proof. apply foldl_app. Qed.

Lemma apply_chunks_concat R (ctx : ApplyCtx V) chunks : forall e : Engine V,
  foldl (apply_chunk R ctx) e chunks = run_writes R e (omap (arrival ctx) (concat chunks)).
Proof.
  induction chunks as [|c chunks IH]; intros e; cbn [foldl concat]; [done|].
  by rewrite omap_app, run_writes_app, IH.
Qed.

Lemma arrivals_spec (R : ConflictResolver) (ctx : ApplyCtx V) rs : ac_held_only ctx = false ->
  forall e : Engine V, engine_inv e -> Forall (fun r => key_fits (wr_key r)) rs -> NoDup (wr_key <$> rs) ->
  (forall r, r ∈ rs -> engine_record e (wr_key r) = None) ->
  let e' := run_writes R e (omap (arrival ctx) rs) in
  engine_inv e' /\
  (forall r, r ∈ rs -> engine_record e' (wr_key r) = if admitted ctx r then Some r else None) /\
  (forall k, k ∉ wr_key <$> rs -> engine_record e' k = engine_record e k).
Proof.
  intros Hh. induction rs as [|r rs IH]; intros e He Hf Hnd Hfree e'.
  { split_and!; try done. intros r Hr. by apply not_elem_of_nil in Hr. }
  apply Forall_cons in Hf as [Hfr Hf]. rewrite fmap_cons in Hnd. apply NoDup_cons in Hnd as [Hnr Hnd].
  destruct (arrival_fresh R ctx e r He Hfr Hh (Hfree r ltac:(by left))) as [He1 Hrec1].
  set (e1 := run_writes R e (omap (arrival ctx) [r])) in *.
  assert (Hsplit : e' = run_writes R e1 (omap (arrival ctx) rs)).
  { unfold e', e1. rewrite <-run_writes_app, <-omap_app. done. }
  destruct (IH e1 He1 Hf Hnd) as (H1 & H2 & H3).
  { intros x Hx. rewrite Hrec1, decide_False; [apply Hfree; by right|].
    intros [Hk _]. apply Hnr. rewrite <-Hk. by apply list_elem_of_fmap_2. }
  rewrite Hsplit. split_and!; [done| |].
  - intros x [->|Hx]%elem_of_cons; [|by apply H2]. rewrite H3, Hrec1 by done.
    rewrite (Hfree r ltac:(by left)). destruct (admitted ctx r); [by rewrite decide_True|].
    by rewrite decide_False by (by intros []).
  - intros k Hk. rewrite fmap_cons, not_elem_of_cons in Hk. destruct Hk as [Hne Hk].
    rewrite H3, Hrec1 by done. by rewrite decide_False by (by intros []).
Qed.

Lemma engine_new_record cap tti (w : option (Bytes -> V -> Z)) k : engine_record (engine_new cap tti w) k = None.
Proof.
  unfold engine_record, stripe_at. cbn [stripes engine_new].
  destruct (replicate _ _ !! _) as [st|] eqn:E; [|done]. by apply lookup_replicate in E as [-> _].
Qed.

(** A state transfer reproduces the store. The snapshot, cut into chunks that each fit a
    frame and applied chunk by chunk to an empty engine, leaves under every key exactly the
    record a read of the sender returns, deadline and tombstones included, less the tombstones
    past their retention, which the gate keeps out; and when nothing at the sender had lapsed
    and nothing is kept out, all part digests agree, so the next comparison finds no difference. *)
Theorem snapshot_transfer_reproduces_the_store (R : ConflictResolver) (e : Engine V) (now : Z)
    (ctx : ApplyCtx V) (cap : Z) (tti : option Z) (weigher : option (Bytes -> V -> Z))
    (Hinv : engine_inv e) (Hfits : forall k, is_Some (engine_record e k) -> key_fits k)
    (Hscope : ac_held_only ctx = false) :
  let chunks := chunk_records_for_snapshot (snapshot_records e now) in
  let e' := foldl (apply_chunk R ctx) (engine_new cap tti weigher) chunks in
  Forall chunk_ok chunks /\ engine_inv e' /\
  (forall k, engine_record e' k =
     r ← record_for e k now; if admitted ctx r then Some r else None) /\
  ((forall k, record_for e k now = engine_record e k) ->
   (forall k r, engine_record e k = Some r -> admitted ctx r = true) -> digest e' = digest e).
Proof.
  intros chunks e'. destruct (chunks_spec (snapshot_records e now)) as [Hok Hcat]. fold chunks in Hok, Hcat.
  assert (Hsub : forall k r, record_for e k now = Some r -> engine_record e k = Some r).
  { intros k r. unfold record_for, record_scoped, engine_record, stored_record.
    destruct (st_tombstones _ !! k); [done|]. destruct (find_in _ k); cbn; [|done].
    by destruct (absent_under _ _ _ _ _ _). }
  destruct (arrivals_spec R ctx (snapshot_records e now) Hscope (engine_new cap tti weigher)
    (engine_new_inv cap tti weigher)) as (H1 & H2 & H3).
  { apply Forall_forall. intros r Hr%snapshot_exact; [|done]. apply Hfits. by apply Hsub in Hr as ->. }
  { by apply snapshot_nodup. }
  { intros r _. apply engine_new_record. }
  assert (He' : e' = run_writes R (engine_new cap tti weigher) (omap (arrival ctx) (snapshot_records e now)))
    by (unfold e'; by rewrite apply_chunks_concat, Hcat).
  assert (Hrec : forall k, engine_record e' k = r ← record_for e k now; if admitted ctx r then Some r else None).
  { intros k. rewrite He'. destruct (record_for e k now) as [r|] eqn:Er; cbn.
    - assert (Hk : wr_key r = k) by (by eapply record_for_key). subst k. apply H2. by apply snapshot_exact.
    - rewrite H3; [apply engine_new_record|]. intros (r & -> & Hr%snapshot_exact)%list_elem_of_fmap; [|done].
      congruence. }
  split_and!; [done|by rewrite He'|done|].
  intros Hall Hadm. apply engine_digest_eq; [by rewrite He'|done|]. intros k. rewrite Hrec, Hall.
  destruct (engine_record e k) as [r|] eqn:Er; cbn; [|done]. by rewrite (Hadm k r Er).
Qed.

End Transfer.

(** ** Concrete answers *)

Lemma digest_answers_are_exact_witness :
  let b := Z.of_nat (bucket_of_key [3]) in
  bucket_len small_engine b = Z.of_nat (size (versions (stripe_at small_engine (bucket_of_key [3])))) /\
  part_digests small_engine 1024 = [].
Proof.
  assert (Hb : 0 <= Z.of_nat (bucket_of_key [3])) by lia.
  destruct (digest_answers_are_exact small_engine _ small_engine_inv Hb) as [H1 _].
  destruct (digest_answers_are_exact small_engine 1024 small_engine_inv ltac:(lia)) as [_ H2].
  cbv zeta. split.
  - destruct H1 as (_ & _ & H1); [pose proof (bucket_of_key_lt [3]); lia|].
    rewrite Nat2Z.id in H1. exact H1.
  - apply H2. vm_compute. discriminate.
Defined.

Lemma collect_parts_exact_witness :
  let bp := {| bp_bucket := Z.of_nat (bucket_of_key [3]); bp_part := part_of_key [3] |} in
  (collect_parts small_engine [bp; {| bp_bucket := 1024; bp_part := 0 |}; bp] 1000).*1 = [bp] /\
  forall es, (bp, es) ∈ collect_parts small_engine [bp; {| bp_bucket := 1024; bp_part := 0 |}; bp] 1000 ->
    {| kv_key := [3]; kv_version := stamp 700 1 |} ∈ es.
Proof.
  cbv zeta. split; [vm_compute; reflexivity|]. intros es Hes.
  destruct (collect_parts_exact small_engine
    [{| bp_bucket := Z.of_nat (bucket_of_key [3]); bp_part := part_of_key [3] |};
     {| bp_bucket := 1024; bp_part := 0 |};
     {| bp_bucket := Z.of_nat (bucket_of_key [3]); bp_part := part_of_key [3] |}] 1000 small_engine_inv)
    as (_ & _ & H).
  - repeat constructor; vm_compute; discriminate.
  - destruct (H _ _ Hes) as [_ Hkv]. apply Hkv. split; [vm_compute; reflexivity|]. split; reflexivity.
Defined.

Lemma small_engine_fits k : is_Some (engine_record small_engine k) -> key_fits k.
Proof.
  intros [r Hr]. assert (Hk : k = [1] \/ k = [2] \/ k = [3]).
  { unfold small_engine in Hr. rewrite run_writes_lww in Hr; [|apply engine_new_inv|].
    - cbn [foldl] in Hr. unfold lww_join in Hr. cbn [wt_key put_at delete_at] in Hr.
      destruct (decide ([1] = k)), (decide ([2] = k)), (decide ([3] = k)); try (subst; tauto).
      rewrite !bool_decide_eq_false_2, !andb_false_r in Hr by done. unfold empty_engine in Hr. rewrite engine_new_record in Hr. done.
    - repeat constructor; vm_compute; discriminate. }
  destruct Hk as [->|[->| ->]]; vm_compute; discriminate.
Qed.

Lemma snapshot_transfer_reproduces_the_store_witness :
  let e' := foldl (apply_chunk LwwResolver local_ctx) (engine_new u64_max None None)
              (chunk_records_for_snapshot (snapshot_records small_engine 1000)) in
  engine_inv e' /\ forall k, engine_record e' k =
    r ← record_for small_engine k 1000; if admitted local_ctx r then Some r else None.
Proof.
  destruct (snapshot_transfer_reproduces_the_store LwwResolver small_engine 1000 local_ctx u64_max None None
    small_engine_inv small_engine_fits eq_refl) as (_ & H1 & H2 & _).
  cbv zeta. split; [exact H1|exact H2].
Defined.
