(* ===== verification/Inflight.v ===== *)
(** * Loads in flight

    [store/engine/inflight.rs] and [Inflight] of [mod.rs]: single-flight loads, their
    completion against what landed meanwhile, and the drop guard of a cancelled one. A load is
    shared by its owner, its waiters and its stripe, so it lives in the engine's [loads] under
    an id. *)

From S2P Require Import Prelude Clock Part Types Record Expiry Wire Merge Arena Engine Apply Removal Evict Read.

(** ** Definitions *)

Inductive FillOutcome := Installed (had_live : bool) | Superseded | Invalidated.

Definition fill_supersedes (existing : option Hlc) (fill : Hlc) : bool :=
  is_none_or existing (fun current => hlc_ltb current fill).

Record FreshLoad (V : Type) := {
  fl_key_bytes : Bytes;
  fl_ver : Hlc;
  fl_value : V;
  fl_encoded : Bytes;
  fl_expires_at_ms : option Z;
}.
Arguments fl_key_bytes {V}. Arguments fl_ver {V}. Arguments fl_value {V}.
Arguments fl_encoded {V}. Arguments fl_expires_at_ms {V}.

Inductive JoinOutcome (V : Type) :=
  | JHit (value : option V)
  | JJoin (load : nat)
  | JOwner (load : nat).
Arguments JHit {V}. Arguments JJoin {V}. Arguments JOwner {V}.

Section Inflight.
Context {PU : PostcardU32} {HS : Hashing} {V : Type} {VC : ValueCodec V} {IS : IdleSort}.

(** [done.send_replace(true)]; [OnceLock::set] keeps the first value; the [absent] flag. *)
Definition load_finish (i : Inflight V) : Inflight V :=
  {| inf_done := true; inf_error := inf_error i; inf_value := inf_value i;
     inf_invalidated := inf_invalidated i; inf_absent := inf_absent i |}.
Definition load_set_value (v : V) (i : Inflight V) : Inflight V :=
  {| inf_done := inf_done i; inf_error := inf_error i;
     inf_value := match inf_value i with Some x => Some x | None => Some v end;
     inf_invalidated := inf_invalidated i; inf_absent := inf_absent i |}.
Definition load_set_error (err : Bytes) (i : Inflight V) : Inflight V :=
  {| inf_done := inf_done i;
     inf_error := match inf_error i with Some x => Some x | None => Some err end;
     inf_value := inf_value i; inf_invalidated := inf_invalidated i; inf_absent := inf_absent i |}.
Definition load_set_absent (i : Inflight V) : Inflight V :=
  {| inf_done := inf_done i; inf_error := inf_error i; inf_value := inf_value i;
     inf_invalidated := inf_invalidated i; inf_absent := true |}.

Definition on_load (f : Inflight V -> Inflight V) (id : nat) (e : Engine V) : Engine V :=
  with_loads e (alter f id (loads e)).

(** A fresh load registered under the key. *)
Definition register_load (e : Engine V) (k : Bytes) : Engine V * nat :=
  let (e, id) := new_load e in
  let st := stripe_at e (bucket_of_key k) in
  (with_stripe e (bucket_of_key k) (set_inflight st (<[k := id]> (st_inflight st))), id).

Definition begin_refresh (e : Engine V) (k : Bytes) : Engine V * option nat :=
  match st_inflight (stripe_at e (bucket_of_key k)) !! k with
  | Some _ => (e, None)
  | None => let (e, id) := register_load e k in (e, Some id)
  end.

Definition miss_or_join (e : Engine V) (k : Bytes) (now_ms : Z) : Engine V * JoinOutcome V :=
  match visible e k now_ms with
  | Some live => (touch e k now_ms, JHit (decode_value (record_value (lv_record live))))
  | None =>
      match st_inflight (stripe_at e (bucket_of_key k)) !! k with
      | Some existing => (e, JJoin existing)
      | None => let (e, id) := register_load e k in (e, JOwner id)
      end
  end.

Definition finish_inflight (e : Engine V) (k : Bytes) : Engine V :=
  let st := stripe_at e (bucket_of_key k) in
  with_stripe e (bucket_of_key k) (set_inflight st (delete k (st_inflight st))).

(** The stripe lock's section of an installing fill: the prior tombstone or entry leaves, and
    the loaded value takes its place. *)
Definition clear_for_fill (e : Engine V) (k : Bytes) : Engine V * bool :=
  let st := stripe_at e (bucket_of_key k) in
  match st_tombstones st !! k with
  | Some t =>
      (fetch_xor (with_stripe e (bucket_of_key k) (set_tombstones st (delete k (st_tombstones st))))
         (slot_of_key k) (entry_fingerprint k (ts_ver t)), false)
  | None =>
      match remove_live_at e k with
      | (e, Some removed) => (account_removed e k removed true, true)
      | (e, None) => (e, false)
      end
  end.

Definition install_fill (e : Engine V) (w : FreshLoad V) (now_ms : Z) : Engine V * bool :=
  let k := fl_key_bytes w in
  let bucket := bucket_of_key k in
  let (e, had_live) := clear_for_fill e k in
  let e := if had_live then e else with_totals e (move_totals (totals e) 0 1 0) in
  let e := fetch_xor e (slot_of_key k) (entry_fingerprint k (fl_ver w)) in
  let weight := weigh e k (fl_value w) in
  let (st, resident) :=
    install_live (stripe_at e bucket) (resident_bytes (totals e)) k (fl_ver w) (fl_expires_at_ms w)
      (fl_encoded w) weight now_ms in
  let e := with_totals (with_stripe e bucket st) (with_resident (totals e) resident) in
  (with_totals e (move_totals (totals e) weight 0 0), had_live).

(** [complete_fresh_load]: [None] only if the capacity loop runs out of fuel. *)
Definition complete_fresh_load (e : Engine V) (w : FreshLoad V) (now_ms : Z) (load : nat) :
    option (Engine V * FillOutcome) :=
  let k := fl_key_bytes w in
  let e := finish_inflight e k in
  if from_option inf_invalidated false (loads e !! load) then
    Some (on_load load_finish load (on_load (load_set_value (fl_value w)) load e), Invalidated)
  else
    let st := stripe_at e (bucket_of_key k) in
    let existing :=
      match ts_ver <$> st_tombstones st !! k with
      | Some v => Some v
      | None => live_ver <$> find_in st k
      end in
    if negb (fill_supersedes existing (fl_ver w)) then
      Some (on_load load_finish load e, Superseded)
    else
      let (e, had_live) := install_fill e w now_ms in
      let e := on_load load_finish load e in
      '(e, _, _) ← enforce_capacity e (bucket_of_key k) (written_of (hash_key_bytes k)) now_ms;
      Some (e, Installed had_live).

Definition fail_inflight (e : Engine V) (k : Bytes) (load : nat) (error : Bytes) : Engine V :=
  let e := on_load (load_set_error error) load e in
  on_load load_finish load (finish_inflight e k).

Definition finish_absent (e : Engine V) (k : Bytes) (load : nat) : Engine V :=
  let e := on_load load_set_absent load e in
  on_load load_finish load (finish_inflight e k).

Definition abandon_inflight (e : Engine V) (k : Bytes) (load : nat) : Engine V :=
  on_load load_finish load (finish_inflight e k).

Definition finish_uncached (e : Engine V) (k : Bytes) (load : nat) (value : V) : Engine V :=
  let e := on_load (load_set_value value) load e in
  on_load load_finish load (finish_inflight e k).

(** [InflightGuard::drop]. *)
Definition guard_drop (e : Engine V) (k : Bytes) (load : nat) (completed : bool) : Engine V :=
  if completed then e else on_load load_finish load (finish_inflight e k).

(** ** Bookkeeping stores nothing *)

Lemma set_inflight_same (e : Engine V) k m : engine_inv e ->
  let e' := with_stripe e (bucket_of_key k) (set_inflight (stripe_at e (bucket_of_key k)) m) in
  engine_inv e' /\ forall k', engine_record e' k' = engine_record e k'.
Proof.
  intros He e'. pose proof (stripe_at_lookup e k He) as Hst. set (st := stripe_at e (bucket_of_key k)) in *.
  destruct (ei_wf _ He _ _ Hst) as [W1 W2 W3 W4 W5 W6]. split.
  - apply (engine_inv_stripe e e' (bucket_of_key k) st (set_inflight st m)); try done.
    + intros p Hp. apply (ei_match _ He _ _ Hst p Hp).
    + apply totals_eq; cbn; unfold stripe_weight, stripe_count, stripe_bytes; cbn; rewrite ?Z.sub_diag.
      1,2: lia. by rewrite move_resident_0.
  - intros k'. rewrite (engine_record_insert e e' (bucket_of_key k) (set_inflight st m))
      by (done || apply bucket_of_key_lt).
    case_decide as Hb; [|done]. unfold engine_record. by rewrite Hb.
Qed.

Lemma finish_inflight_same (e : Engine V) k : engine_inv e ->
  engine_inv (finish_inflight e k) /\ forall k', engine_record (finish_inflight e k) k' = engine_record e k'.
Proof. apply set_inflight_same. Qed.

Lemma on_load_same (e : Engine V) f id : engine_inv e ->
  engine_inv (on_load f id e) /\ forall k', engine_record (on_load f id e) k' = engine_record e k'.
Proof. intros He. split; [by apply (engine_inv_ext e)|done]. Qed.

Lemma register_load_same (e : Engine V) k : engine_inv e ->
  engine_inv (register_load e k).1 /\ forall k', engine_record (register_load e k).1 k' = engine_record e k'.
Proof.
  intros He. unfold register_load. cbn [new_load fst].
  set (e1 := {| cfg := cfg e |}). assert (He1 : engine_inv e1) by (by apply (engine_inv_ext e)).
  apply (set_inflight_same e1 k _ He1).
Qed.

(** ** Installing a fill *)

Context {PUL : PostcardU32Laws}.

(** The key's place is free, its fingerprint out of the digest, the count unchanged. *)
Lemma clear_for_fill_spec (e : Engine V) k : engine_inv e ->
  let st := stripe_at e (bucket_of_key k) in
  exists e1 had st1, clear_for_fill e k = (e1, had) /\
    stripes e1 = <[bucket_of_key k := st1]> (stripes e) /\
    digest e1 = <[Z.to_nat (slot_of_key k) :=
                  Z.lxor (digest_at e (slot_of_key k)) (opt_fp k (versions st !! k))]> (digest e) /\
    cfg e1 = cfg e /\ loads e1 = loads e /\
    stripe_wf (bucket_of_key k) st1 /\ sets_record k None st st1 /\
    st_inflight st1 = st_inflight st /\ st_live st1 ⊆+ st_live st /\
    totals e1 = {| total_weight := total_weight (totals e) + (stripe_weight st1 - stripe_weight st);
                   live_count := live_count (totals e);
                   resident_bytes := bytes_after (resident_bytes (totals e)) st st1 |} /\
    stripe_count st1 = stripe_count st - (if had then 1 else 0).
Proof.
  intros He st. pose proof (stripe_at_lookup e k He) as Hst. fold st in Hst.
  pose proof (ei_wf _ He _ _ Hst) as Hwf. unfold clear_for_fill, remove_live_at. fold st.
  assert (Hroom : forall st1, restricts (fun k' => k' <> k) st st1 ->
    stripe_wf (bucket_of_key k) st1 /\ sets_record k None st st1 /\ st_live st1 ⊆+ st_live st).
  { intros st1 Hr. split_and!; [by eapply restricts_wf|by eapply restricts_sets|].
    rewrite (rs_live _ _ _ Hr). apply sublist_submseteq, sublist_filter. }
  rewrite versions_lookup. destruct (st_tombstones st !! k) as [t|] eqn:Et.
  { pose proof (tombstone_not_live _ _ _ _ Hwf Et) as Hf.
    destruct (Hroom _ (delete_tombstone_restricts _ _ _ Hwf Hf)) as (R1 & R2 & R3).
    eexists _, false, _. split_and!; try done.
    - apply totals_eq; cbn; [unfold stripe_weight; cbn; lia|done|]. by rewrite bytes_after_same.
    - unfold stripe_count. cbn. lia. }
  destruct (remove_live_spec _ st (resident_bytes (totals e)) k Hwf Et)
    as (st1 & -> & Hr & _ & Hi & Hw & Hc). destruct (Hroom _ Hr) as (R1 & R2 & R3).
  destruct (find_in st k) as [l|]; cbn in Hw, Hc |- *; eexists _, _, st1; (split_and!; try done).
  - apply totals_eq; cbn; [lia|lia|]. by rewrite move_resident_0.
  - cbn. rewrite Z.lxor_0_r. symmetry. by apply insert_default with 0.
  - apply totals_eq; cbn; [lia|done|done].
Qed.

Definition fill_record (w : FreshLoad V) : WireRecord :=
  {| wr_key := fl_key_bytes w; wr_value := Some (fl_encoded w); wr_ver := fl_ver w;
     wr_expires_at_ms := fl_expires_at_ms w |}.

Lemma install_fill_spec (e : Engine V) w now : engine_inv e -> key_fits (fl_key_bytes w) ->
  let weight := weigh e (fl_key_bytes w) (fl_value w) in
  let e' := (install_fill e w now).1 in
  engine_inv e' /\ cfg e' = cfg e /\ loads e' = loads e /\
  (forall k', engine_record e' k' = if decide (k' = fl_key_bytes w) then Some (fill_record w) else engine_record e k') /\
  (forall idx, st_inflight (stripe_at e' idx) = st_inflight (stripe_at e idx)) /\
  (forall idx l, l ∈ st_live (stripe_at e' idx) -> l ∈ st_live (stripe_at e idx) \/ lv_weight l = weight) /\
  (weighty e -> total_weight (totals e') <= total_weight (totals e) + weight).
Proof.
  intros He Hk weight. set (k := fl_key_bytes w) in *. set (b := bucket_of_key k).
  pose proof (stripe_at_lookup e k He) as Hst. fold b in Hst. set (st := stripe_at e b) in *.
  destruct (clear_for_fill_spec e k He)
    as (e1 & had & st1 & Heq & Hs1 & Hd1 & Hc1 & Hl1 & Hwf1 & Hr1 & Hi1 & Hsub & Ht1 & Hn1).
  fold b st in Hs1, Hd1, Hr1, Hi1, Hsub, Ht1, Hn1, Hwf1.
  assert (Hlt : (b < length (stripes e))%nat) by (by eapply lookup_lt_Some).
  assert (Hslot : (Z.to_nat (slot_of_key k) < length (digest e))%nat).
  { pose proof (slot_of_key_range k). rewrite (ei_digest _ He). lia. }
  assert (Hfree : versions st1 !! k = None) by (rewrite versions_record, (Hr1 k); by case_decide).
  unfold install_fill. fold k b. rewrite Heq.
  set (e2 := fetch_xor (if had then e1 else _) _ _).
  assert (H2 : stripes e2 = stripes e1 /\ cfg e2 = cfg e1 /\ loads e2 = loads e1 /\
    digest e2 = <[Z.to_nat (slot_of_key k) := Z.lxor (digest_at e1 (slot_of_key k)) (entry_fingerprint k (fl_ver w))]> (digest e1) /\
    total_weight (totals e2) = total_weight (totals e1) /\ resident_bytes (totals e2) = resident_bytes (totals e1) /\
    live_count (totals e2) = live_count (totals e1) + if had then 0 else 1).
  { unfold e2. destruct had; cbn; split_and!; rewrite ?move_resident_0; (done || lia). }
  clearbody e2. destruct H2 as (Hs2 & Hc2 & Hl2 & Hd2 & Hw2 & Hb2 & Hn2).
  assert (Hat : stripe_at e2 b = st1).
  { rewrite (stripe_at_insert e e2 b st1 b) by congruence. by rewrite decide_True. }
  assert (Hwt : weigh e2 k (fl_value w) = weight) by (unfold weight, weigh; by rewrite Hc2, Hc1).
  rewrite Hat, Hwt.
  set (r1 := resident_bytes (totals e2)).
  pose proof (install_wf b st1 r1 k (fl_ver w) (fl_expires_at_ms w) (fl_encoded w) weight now Hwf1 Hfree Hk eq_refl) as Hwf3.
  pose proof (install_sets b st1 r1 k (fl_ver w) (fl_expires_at_ms w) (fl_encoded w) weight now Hwf1 Hfree Hk eq_refl) as Hr3.
  pose proof (install_bytes st1 r1 k (fl_ver w) (fl_expires_at_ms w) (fl_encoded w) weight now) as Hb3.
  destruct (install_counts st1 r1 k (fl_ver w) (fl_expires_at_ms w) (fl_encoded w) weight now) as [Hw3 Hn3].
  destruct (install_live_fields st1 r1 k (fl_ver w) (fl_expires_at_ms w) (fl_encoded w) weight now) as (Hlv3 & _ & Hi3 & _).
  destruct (install_live _ _ _ _ _ _ _ _) as [st3 r3]. cbn [fst snd] in *.
  set (e3 := with_totals _ (move_totals _ _ _ _)).
  assert (Hs3 : stripes e3 = <[b := st3]> (stripes e)) by (unfold e3; cbn; by rewrite Hs2, Hs1, list_insert_insert_eq).
  assert (Hrec : sets_record k (Some (fill_record w)) st st3) by (by eapply sets_record_trans).
  assert (Hat3 : forall idx, stripe_at e3 idx = if decide (idx = b) then st3 else stripe_at e idx)
    by (intros idx; by apply stripe_at_insert).
  cbv zeta. split_and!.
  - apply (engine_inv_set e e3 k (Some (fl_ver w)) st st3); try done.
    + by rewrite (sets_record_versions _ _ _ _ Hrec).
    + unfold e3. cbn. rewrite Hd2, Hd1, list_insert_insert_eq. f_equal.
      rewrite (digest_at_insert _ e e1 (slot_of_key k) (slot_of_key k)
        (proj1 (slot_of_key_range k)) (proj1 (slot_of_key_range k)) Hslot Hd1).
      rewrite decide_True by done. by rewrite Z.lxor_assoc.
    + unfold e3. apply totals_eq; cbn; rewrite ?move_resident_0.
      * rewrite Hw2, Ht1. cbn. lia.
      * rewrite Hn2, Ht1. cbn. destruct had; lia.
      * rewrite Hb3. unfold r1. rewrite Hb2, Ht1. cbn [resident_bytes]. by rewrite bytes_after_trans.
  - unfold e3. cbn. congruence.
  - unfold e3. cbn. congruence.
  - intros k'. rewrite (engine_record_insert e e3 b st3) by (done || apply bucket_of_key_lt).
    destruct (decide (bucket_of_key k' = b)) as [Hbk|Hbk].
    + rewrite (Hrec k'). case_decide; [done|]. unfold engine_record. by rewrite Hbk.
    + rewrite decide_False; [done|]. intros ->. done.
  - intros idx. rewrite Hat3. case_decide; subst; [|done]. by rewrite Hi3.
  - intros idx l. rewrite Hat3. case_decide; subst; [|by left]. rewrite Hlv3.
    intros [Hl|Hl%list_elem_of_singleton]%elem_of_app; [left|right; by subst].
    by eapply elem_of_submseteq.
  - intros Hwy. unfold e3. cbn. rewrite Hw2, Ht1. cbn.
    assert (stripe_weight st1 <= stripe_weight st).
    { apply sum_Z_submseteq; [done|]. intros l Hl. apply (Hwy b) in Hl. lia. }
    lia.
Qed.

(** The engine can take another entry of this weight and find its way back under the cap. *)
Definition capacity_ok (e : Engine V) (weight : Z) : Prop :=
  max_capacity (cfg e) = u64_max \/
  (0 <= max_capacity (cfg e) < u64_max /\ weighty e /\ 0 < weight /\
   total_weight (totals e) + weight <= u64_max).

Context {ISL : IdleSortLaws}.

(** Capacity enforcement ends, and drops live records only, none without a cap. *)
Lemma enforce_after_install (e : Engine V) start written now :
  engine_inv e -> max_capacity (cfg e) = u64_max \/
    (0 <= max_capacity (cfg e) < u64_max /\ weighty e /\ total_weight (totals e) <= u64_max) ->
  exists e' written' freed, enforce_capacity e start written now = Some (e', written', freed) /\
    engine_inv e' /\ evicted e e' /\
    (max_capacity (cfg e) = u64_max -> e' = e).
Proof.
  intros He [Hc|(Hc & Hw & Hu)].
  - unfold enforce_capacity, evict_down_to_freeing. rewrite Hc. by eexists _, _, _.
  - destruct (enforce_capacity_spec e start written now He Hw Hc Hu) as (e' & w' & Heq & H1 & H2 & _).
    eexists _, _, _. split; [exact Heq|]. split_and!; try done. intros. lia.
Qed.

Lemma finish_inflight_fields (e : Engine V) k : engine_inv e ->
  let e1 := finish_inflight e k in
  loads e1 = loads e /\ cfg e1 = cfg e /\ totals e1 = totals e /\
  (forall idx, st_live (stripe_at e1 idx) = st_live (stripe_at e idx)) /\
  (forall k', st_inflight (stripe_at e1 (bucket_of_key k')) !! k' =
     if decide (k' = k) then None else st_inflight (stripe_at e (bucket_of_key k')) !! k').
Proof.
  intros He e1. assert (Hat : forall idx, stripe_at e1 idx = if decide (idx = bucket_of_key k)
    then set_inflight (stripe_at e (bucket_of_key k)) (delete k (st_inflight (stripe_at e (bucket_of_key k))))
    else stripe_at e idx).
  { intros idx. apply stripe_at_insert; [|done]. rewrite (ei_stripes _ He). apply bucket_of_key_lt. }
  split_and!; try done.
  - intros idx. rewrite Hat. case_decide; by subst.
  - intros k'. rewrite Hat. destruct (decide (k' = k)) as [->|Hne].
    + rewrite decide_True by done. apply lookup_delete_eq.
    + case_decide as Hb; [|done]. cbn. rewrite lookup_delete_ne by done. by rewrite Hb.
Qed.

Lemma clear_for_fill_had (e : Engine V) k : engine_inv e -> (clear_for_fill e k).2 = has_live e k.
Proof.
  intros He. rewrite has_live_find by done. unfold clear_for_fill, remove_live_at, remove_live.
  pose proof (ei_wf _ He _ _ (stripe_at_lookup e k He)) as Hwf.
  destruct (st_tombstones _ !! k) as [t|] eqn:Et; [by rewrite (tombstone_not_live _ _ _ _ Hwf Et)|].
  unfold find_in, find_live. destruct (find_slot k _) as [i|]; [|done]. cbn.
  by destruct (_ !! i).
Qed.

Lemma install_fill_had (e : Engine V) w now : engine_inv e ->
  (install_fill e w now).2 = has_live e (fl_key_bytes w).
Proof.
  intros He. rewrite <-(clear_for_fill_had e _ He). unfold install_fill.
  destruct (clear_for_fill e (fl_key_bytes w)) as [e1 had]. by destruct (install_live _ _ _ _ _ _ _ _).
Qed.

Lemma has_live_ext (e e' : Engine V) k : engine_record e k = engine_record e' k -> has_live e k = has_live e' k.
Proof. unfold has_live. by intros ->. Qed.

(** The installing branch, capacity enforcement included. *)
Lemma fill_installs (e : Engine V) w now load i : engine_inv e -> key_fits (fl_key_bytes w) ->
  loads e !! load = Some i -> capacity_ok e (weigh e (fl_key_bytes w) (fl_value w)) ->
  exists e' written' freed,
    enforce_capacity (on_load load_finish load (install_fill e w now).1) (bucket_of_key (fl_key_bytes w))
      (written_of (hash_key_bytes (fl_key_bytes w))) now = Some (e', written', freed) /\
    engine_inv e' /\ loads e' !! load = Some (load_finish i) /\
    (forall idx, st_inflight (stripe_at e' idx) = st_inflight (stripe_at e idx)) /\
    forall k', let stored := if decide (k' = fl_key_bytes w) then Some (fill_record w) else engine_record e k' in
      engine_record e' k' = stored \/
      (max_capacity (cfg e) <> u64_max /\ engine_record e' k' = None /\ is_Some (stored ≫= wr_value)).
Proof.
  intros He Hk Hload Hcap.
  destruct (install_fill_spec e w now He Hk) as (H1 & H2 & H3 & H4 & H5 & H6 & H7).
  set (e2 := (install_fill e w now).1) in *. clearbody e2.
  destruct (on_load_same e2 load_finish load H1) as [H8 H9].
  destruct (enforce_after_install (on_load load_finish load e2) (bucket_of_key (fl_key_bytes w))
    (written_of (hash_key_bytes (fl_key_bytes w))) now H8) as (e' & w' & f & Heq & H10 & H11 & H12).
  { cbn. rewrite H2. destruct Hcap as [?|(Hc & Hw & Hp & Hu)]; [by left|right]. split; [done|].
    split; [|specialize (H7 Hw); lia]. intros idx l Hl. destruct (H6 idx l Hl) as [Hl'| ->]; [by apply (Hw idx)|done]. }
  exists e', w', f. split_and!; [done|done| | |].
  - rewrite (ev_loads _ _ H11). cbn. by rewrite H3, lookup_alter_eq, Hload.
  - intros idx. rewrite (ev_inflight _ _ H11). apply H5.
  - intros k'. rewrite <-H4, <-H9. destruct (ev_record _ _ H11 k') as [?|[Hn Hlv]]; [by left|].
    destruct (decide (max_capacity (cfg e) = u64_max)) as [Hc|Hc].
    { left. rewrite H12; [done|]. cbn. by rewrite H2. }
    right. split_and!; try done. unfold has_live in Hlv.
    destruct (engine_record (on_load load_finish load e2) k') as [r|]; [|done]. cbn in *. by destruct (wr_value r).
Qed.

Definition installs (o : FillOutcome) : bool := match o with Installed _ => true | _ => false end.

(** A fill never replaces newer data. A load completes, whatever landed while its loader
    ran; it stores its value exactly when no invalidation landed and the key's record, value or
    tombstone, is older than the stamp taken before the load. Otherwise the records are left
    alone, and an invalidated load hands its value to its waiters. In every case the key's
    in-flight slot is free, the waiters are woken and the invariant holds; a fill under a cap
    may evict live entries, and without a cap nothing else changes. *)
Theorem fill_never_replaces_newer_data (e : Engine V) (w : FreshLoad V) (now : Z) (load : nat) (i : Inflight V)
    (Hinv : engine_inv e) (Hk : key_fits (fl_key_bytes w)) (Hload : loads e !! load = Some i)
    (Hcap : capacity_ok e (weigh e (fl_key_bytes w) (fl_value w))) :
  let k := fl_key_bytes w in
  let stale := is_none_or (engine_record e k) (fun r => hlc_ltb (wr_ver r) (fl_ver w)) in
  exists e' out i', complete_fresh_load e w now load = Some (e', out) /\
    out = (if inf_invalidated i then Invalidated
           else if stale then Installed (has_live e k) else Superseded) /\
    engine_inv e' /\
    st_inflight (stripe_at e' (bucket_of_key k)) !! k = None /\
    loads e' !! load = Some i' /\ inf_done i' = true /\
    (inf_invalidated i = true -> is_Some (inf_value i')) /\
    forall k', let stored := if decide (k' = k /\ installs out = true) then Some (fill_record w)
                             else engine_record e k' in
      engine_record e' k' = stored \/
      (installs out = true /\ max_capacity (cfg e) <> u64_max /\
       engine_record e' k' = None /\ is_Some (stored ≫= wr_value)).
Proof.
  cbv zeta. set (k := fl_key_bytes w). unfold complete_fresh_load. fold k.
  destruct (finish_inflight_same e k Hinv) as [He1 Hr1].
  destruct (finish_inflight_fields e k Hinv) as (Hl1 & Hc1 & Ht1 & Hlv1 & Hi1).
  set (e1 := finish_inflight e k) in *. clearbody e1. rewrite Hl1, Hload. cbn [from_option].
  assert (Hfree : st_inflight (stripe_at e1 (bucket_of_key k)) !! k = None) by (rewrite Hi1; by case_decide).
  destruct (inf_invalidated i).
  { destruct (on_load_same e1 (load_set_value (fl_value w)) load He1) as [He2 Hr2].
    destruct (on_load_same _ load_finish load He2) as [He3 Hr3]. eexists _, _, _.
    split; [done|]. split_and!; try done.
    - cbn. rewrite Hl1, !lookup_alter_eq, Hload. done.
    - done.
    - intros _. cbn. by destruct (inf_value i).
    - intros k'. left. rewrite decide_False by (by intros []). by rewrite Hr3, Hr2, Hr1. }
  assert (Hex : fill_supersedes (match ts_ver <$> st_tombstones (stripe_at e1 (bucket_of_key k)) !! k with
    | Some v => Some v | None => live_ver <$> find_in (stripe_at e1 (bucket_of_key k)) k end) (fl_ver w) =
    is_none_or (engine_record e k) (fun r => hlc_ltb (wr_ver r) (fl_ver w))).
  { rewrite <-Hr1. unfold engine_record, stored_record. destruct (st_tombstones _ !! k); [done|].
    by destruct (find_in _ k). }
  rewrite Hex. destruct (is_none_or (engine_record e k) _); cbn [negb]; cycle 1.
  { destruct (on_load_same e1 load_finish load He1) as [He2 Hr2]. eexists _, _, _.
    split; [done|]. split_and!; try done.
    - cbn. rewrite Hl1, lookup_alter_eq, Hload. done.
    - done.
    - intros k'. left. rewrite decide_False by (by intros []). by rewrite Hr2, Hr1. }
  pose proof (install_fill_had e1 w now He1) as Hhad. fold k in Hhad. rewrite (has_live_ext e1 e) in Hhad by done.
  destruct (fill_installs e1 w now load i He1 Hk ltac:(congruence)) as (e' & w' & f & Heq & H1 & H2 & H3 & H4).
  { unfold capacity_ok, weighty, weigh in *. rewrite Hc1, Ht1. setoid_rewrite Hlv1. exact Hcap. }
  destruct (install_fill e1 w now) as [e2 had]. cbn [fst snd] in *. subst had. fold k in Heq. rewrite Heq.
  eexists _, _, _. split; [done|]. split_and!; try done.
  - by rewrite H3.
  - intros k'. specialize (H4 k'). fold k in H4. rewrite Hr1, Hc1 in H4. cbn [installs].
    destruct (decide (k' = k)) as [->|Hne]; [rewrite decide_True by done|rewrite decide_False by (by intros [])];
      cbv zeta in H4 |- *; tauto.
Qed.

End Inflight.


(** A miss on key [9] starts a load; it ends while nothing newer landed, and installs. *)
Definition loading_engine : Engine Bytes * nat := register_load small_engine [9].
Definition nine_load : FreshLoad Bytes := 
  {| fl_key_bytes := [9]; fl_ver := stamp 800 2; fl_value := [90]; fl_encoded := [90]; fl_expires_at_ms := None |}.

Lemma loading_engine_inv : engine_inv loading_engine.1.
Proof. apply register_load_same. exact small_engine_inv. Qed.

Lemma fill_never_replaces_newer_data_witness :
  key_fits [9] /\ exists e' (i' : Inflight Bytes), complete_fresh_load loading_engine.1 nine_load 1000 loading_engine.2
    = Some (e', Installed false) /\ engine_inv e' /\ inf_done i' = true.
Proof.
  split; [done|].
  destruct (fill_never_replaces_newer_data loading_engine.1 nine_load 1000 loading_engine.2
    inflight_new loading_engine_inv) as (e' & out & i' & H1 & H2 & H3 & H4 & H5 & H6 & _).
  - done.
  - vm_compute. reflexivity.
  - left. reflexivity.
  - vm_compute in H2. subst out. exists e', i'. split; [exact H1|]. split; [exact H3|exact H6].
Defined.
