(* ===== verification/LoadProtocol.v ===== *)
(** * The load protocol

    Who owns which load: the callers of [store/engine/inflight.rs] as a step relation over the
    engine and the loads whose owner has not ended them yet, with the writes and invalidations
    that run meanwhile. *)

From S2P Require Import Prelude Clock Part Types Record Expiry Wire Merge Arena Engine Apply Removal Evict Read Inflight.

Section Protocol.
Context {PU : PostcardU32} {HS : Hashing} {R : ConflictResolver} {V : Type} {VC : ValueCodec V} {IS : IdleSort}.

(** The load registered under a key, and whether a load has ended. *)
Definition registered (e : Engine V) (k : Bytes) : option nat :=
  st_inflight (stripe_at e (bucket_of_key k)) !! k.
Definition ended (e : Engine V) (id : nat) : option bool := inf_done <$> loads e !! id.

(** ** Steps *)

Definition Owners : Type := gset (Bytes * nat).

(** A caller becomes an owner when [miss_or_join] or [begin_refresh] registers its load; it
    ends the load once, by one of the five ways; anyone may join, write or invalidate. *)
Inductive load_step : Engine V * Owners -> Engine V * Owners -> Prop :=
  | ls_own e O k now e' id :
      miss_or_join e k now = (e', JOwner id) -> load_step (e, O) (e', {[ (k, id) ]} ∪ O)
  | ls_hit e O k now e' v : miss_or_join e k now = (e', JHit v) -> load_step (e, O) (e', O)
  | ls_join e O k now e' id : miss_or_join e k now = (e', JJoin id) -> load_step (e, O) (e', O)
  | ls_refresh e O k e' id : begin_refresh e k = (e', Some id) -> load_step (e, O) (e', {[ (k, id) ]} ∪ O)
  | ls_complete e O w now id e' out :
      (fl_key_bytes w, id) ∈ O -> complete_fresh_load e w now id = Some (e', out) ->
      load_step (e, O) (e', O ∖ {[ (fl_key_bytes w, id) ]})
  | ls_fail e O k id err :
      (k, id) ∈ O -> load_step (e, O) (fail_inflight e k id err, O ∖ {[ (k, id) ]})
  | ls_absent e O k id :
      (k, id) ∈ O -> load_step (e, O) (finish_absent e k id, O ∖ {[ (k, id) ]})
  | ls_uncached e O k id v :
      (k, id) ∈ O -> load_step (e, O) (finish_uncached e k id v, O ∖ {[ (k, id) ]})
  | ls_drop e O k id :
      (k, id) ∈ O -> load_step (e, O) (guard_drop e k id false, O ∖ {[ (k, id) ]})
  | ls_write e O ctx k ver i n :
      load_step (e, O) ((apply_at e (bucket_of_key k) n ctx k ver i).1.1, O)
  | ls_invalidate e O k ver : load_step (e, O) ((invalidate e k ver).1, O)
  | ls_invalidate_local e O k : load_step (e, O) (invalidate_local e k, O).

(** ** What operations leave alone *)

(** The in-flight maps, the loads' ends and the id counter. *)
Record keeps_loads (e e' : Engine V) : Prop := {
  kl_stripes : length (stripes e') = length (stripes e);
  kl_next : next_load e' = next_load e;
  kl_inflight idx : st_inflight (stripe_at e' idx) = st_inflight (stripe_at e idx);
  kl_ended id : ended e' id = ended e id;
}.

#[export] Instance keeps_loads_preorder : PreOrder keeps_loads.
Proof.
  split; [done|]. intros a b c [H1 H2 H3 H4] [K1 K2 K3 K4]. split; [congruence..| |].
  - intros idx. by rewrite K3.
  - intros id. by rewrite K4.
Qed.

Lemma keeps_with_stripe (e : Engine V) b st : st_inflight st = st_inflight (stripe_at e b) ->
  keeps_loads e (with_stripe e b st).
Proof.
  intros Hst. split; [by cbn; rewrite length_insert|done| |done].
  intros idx. unfold stripe_at in *. cbn. destruct (decide (idx = b)) as [->|Hne].
  - destruct (decide (b < length (stripes e))%nat) as [Hlt|Hge].
    + by rewrite list_lookup_insert_eq.
    + by rewrite list_insert_ge by lia.
  - by rewrite list_lookup_insert_ne.
Qed.

(** Engines with the same stripes and loads. *)
Lemma keeps_same (e e' : Engine V) : stripes e' = stripes e -> loads e' = loads e ->
  next_load e' = next_load e -> keeps_loads e e'.
Proof.
  intros Hs Hl Hn. split; [by rewrite Hs|done| |].
  - intros idx. unfold stripe_at. by rewrite Hs.
  - intros id. unfold ended. by rewrite Hl.
Qed.

Lemma remove_live_inflight st r k : st_inflight (remove_live st r k).1.1 = st_inflight st.
Proof. unfold remove_live. by destruct (_ ≫= _) as [[i l]|]. Qed.

Lemma keeps_mark (e : Engine V) k : keeps_loads e (mark_invalidated e k).
Proof.
  split; try done. intros id. unfold ended, mark_invalidated, invalidate_load. cbn.
  destruct (st_inflight _ !! k) as [j|]; [|done]. destruct (decide (id = j)) as [->|Hne].
  - rewrite lookup_alter_eq. by destruct (loads e !! j).
  - by rewrite lookup_alter_ne.
Qed.

Lemma keeps_remove (e : Engine V) k : keeps_loads e (remove_live_at e k).1.
Proof.
  unfold remove_live_at. pose proof (remove_live_inflight (stripe_at e (bucket_of_key k)) (resident_bytes (totals e)) k) as Hi.
  destruct (remove_live _ _ _) as [[st r] rm]. cbn in *. etrans; [by apply keeps_with_stripe|].
  by apply keeps_same.
Qed.

Lemma keeps_depart (e : Engine V) k b : keeps_loads e
  (match remove_live_at e k with (e, Some removed) => account_removed e k removed b | (e, None) => e end).
Proof.
  pose proof (keeps_remove e k) as Hk. destruct (remove_live_at e k) as [e1 [rm|]]; [|done].
  etrans; [done|]. by apply keeps_same.
Qed.

Lemma keeps_invalidate (e : Engine V) k ver : keeps_loads e (invalidate e k ver).1.
Proof.
  unfold invalidate. destruct (is_some_and _ _); [done|]. pose proof (keeps_mark e k) as Hm.
  destruct (negb _); [done|]. pose proof (keeps_depart (mark_invalidated e k) k false) as Hd.
  destruct (remove_live_at _ k) as [e1 [rm|]]; cbn; by etrans.
Qed.

Lemma keeps_invalidate_local (e : Engine V) k : keeps_loads e (invalidate_local e k).
Proof.
  unfold invalidate_local. etrans; [apply (keeps_mark e k)|]. apply keeps_depart.
Qed.

Lemma install_live_inflight st r k v exp enc w now :
  st_inflight (install_live st r k v exp enc w now).1 = st_inflight st.
Proof. by destruct (install_live_fields st r k v exp enc w now) as (_ & _ & -> & _). Qed.

(** A write marks the load it races at most. *)
Lemma apply_locked_loads (ctx : ApplyCtx V) k ver i st c :
  let '(st', c', _) := apply_locked ctx k ver i st c in
  st_inflight st' = st_inflight st /\
  (c_loads c' = c_loads c \/ c_loads c' = invalidate_load st k (c_loads c)).
Proof.
  unfold apply_locked. destruct (ignores _ _); [by split; [|left]|].
  set (live := if is_some _ then None else _). set (sv := match _ with Some t => _ | None => _ end).
  set (gate := if ac_held_only ctx then _ else _).
  assert (Hg : c_loads gate.1 = c_loads c \/ c_loads gate.1 = invalidate_load st k (c_loads c)).
  { unfold gate, reject_unheld. destruct (ac_held_only ctx); [|by left].
    destruct (_ && _); [by left|]. cbn. destruct (is_none_or _ _); [by right|by left]. }
  destruct gate as [c1 [|]]; cbn in Hg; [done|]. destruct (collide _ _ _ _ _ _ _) as [|v' i'|size]; try done.
  assert (Hs : forall v, st_inflight (swap_fingerprint st c1 k v (st_tombstones st !! k) sv).1 = st_inflight st /\
    c_loads (swap_fingerprint st c1 k v (st_tombstones st !! k) sv).2 = c_loads c1).
  { intros v. unfold swap_fingerprint. destruct (st_tombstones st !! k); [done|]. by destruct sv. }
  specialize (Hs v'). destruct (swap_fingerprint _ _ _ _ _ _) as [st2 c2]. cbn in Hs. destruct Hs as [Hs Hc].
  assert (Hrm : forall b r, st_inflight (if b : bool then remove_live st2 r k else (st2, r, None)).1.1 = st_inflight st).
  { intros b r. destruct b; [by rewrite remove_live_inflight|done]. }
  destruct i' as [value exp enc|exp].
  - unfold apply_put. match goal with |- context [if ?b then remove_live st2 ?r k else _] => specialize (Hrm b r) end.
    destruct (if _ && _ then _ else _) as [[st3 r3] rm]. cbn in Hrm.
    match goal with |- context [install_live ?a ?b ?c ?d ?e ?f ?g ?h] =>
      pose proof (install_live_inflight a b c d e f g h) as Hi; destruct (install_live a b c d e f g h) as [st4 r4] end.
    cbn in *. rewrite Hi, Hrm, Hc. done.
  - destruct (default _ _) as [d1 d2]. unfold apply_tombstone.
    match goal with |- context [if ?b then remove_live st2 ?r k else _] => specialize (Hrm b r) end.
    destruct (if _ && _ then _ else _) as [[st3 r3] rm]. cbn in *. rewrite Hrm, Hc. done.
Qed.

Lemma keeps_apply (e : Engine V) n ctx k ver i :
  keeps_loads e (apply_at e (bucket_of_key k) n ctx k ver i).1.1.
Proof.
  unfold apply_at. set (st := stripe_at e (bucket_of_key k)).
  pose proof (apply_locked_loads ctx k ver i st
    {| c_digest := digest_at e (digest_slot (Z.of_nat (bucket_of_key k)) (part_of_key k));
       c_totals := totals e; c_ignored := n; c_loads := loads e |}) as Ha.
  destruct (apply_locked _ _ _ _ _ _) as [[st' c'] out]. cbn in Ha |- *. destruct Ha as [Hi Hl].
  destruct (keeps_with_stripe e (bucket_of_key k) st' Hi) as [K1 K2 K3 K4].
  split; [exact K1|exact K2|exact K3|]. intros id. unfold ended. cbn. destruct Hl as [->| ->]; [done|].
  apply (kl_ended _ _ (keeps_mark e k) id).
Qed.

Lemma keeps_touch (e : Engine V) k now : keeps_loads e (touch e k now).
Proof.
  unfold touch. destruct (tracks_last_access e); [|done]. destruct (find_slot _ _); [|done].
  by apply keeps_with_stripe.
Qed.

(** *** Eviction *)

Lemma keeps_victim (e : Engine V) b k : keeps_loads e (evict_victim_locked e b k).1.
Proof.
  unfold evict_victim_locked. pose proof (remove_live_inflight (stripe_at e b) (resident_bytes (totals e)) k) as Hi.
  destruct (remove_live _ _ _) as [[st r] [rm|]]; [|done]. cbn in *.
  etrans; [by apply keeps_with_stripe|]. by apply keeps_same.
Qed.

Lemma keeps_cursor (e e' : Engine V) : moves_cursor e e' -> keeps_loads e e'.
Proof. intros [x ->]. by apply keeps_same. Qed.

Lemma keeps_one_sampled (e : Engine V) b written now : keeps_loads e (evict_one_sampled e b written now).1.
Proof.
  unfold evict_one_sampled. destruct (sample_spec e (stripe_at e b) EVICTION_SAMPLE written) as (Hm & _).
  destruct (sample_candidates _ _ _ _) as [e1 ls]. cbn in Hm. apply keeps_cursor in Hm.
  destruct (max_by_idle now ls) as [l|]; [|done]. pose proof (keeps_victim e1 b (live_key l)) as Hv.
  destruct (evict_victim_locked e1 b (live_key l)) as [e2 [wt|]]; cbn in *.
  - etrans; [exact Hm|]. etrans; [exact Hv|]. by apply keeps_same.
  - by etrans.
Qed.

Lemma keeps_scan written now cs : forall e : Engine V, keeps_loads e (scan_stripes e cs written now).1.
Proof.
  induction cs as [|c cs IH]; intros e; cbn; [done|]. pose proof (keeps_one_sampled e c written now) as Ho.
  destruct (evict_one_sampled e c written now) as [e1 o]. destruct (_ || _); [done|]. by etrans; [|apply IH].
Qed.

Lemma keeps_victims b keys : forall (e : Engine V) w c, keeps_loads e
  (foldl (fun acc key =>
    let '(e, w, c) := acc in
    match evict_victim_locked e b key with
    | (e, Some weight) => (e, w + weight, c + 1)
    | (e, None) => (e, w, c)
    end) (e, w, c) keys).1.1.
Proof.
  induction keys as [|k keys IH]; intros e w c; cbn [foldl]; [done|].
  pose proof (keeps_victim e b k) as Hv. destruct (evict_victim_locked e b k) as [e1 [wt|]]; cbn in Hv;
    (etrans; [exact Hv|apply IH]).
Qed.

Lemma keeps_batch (e : Engine V) b over written dense now :
  keeps_loads e (evict_batch_sampled e b over written dense now).1.
Proof.
  unfold evict_batch_sampled. destruct (sample_spec e (stripe_at e b) EVICTION_BATCH_SAMPLE written) as (Hm & _).
  destruct (sample_candidates _ _ _ _) as [e1 ls]. cbn in Hm. apply keeps_cursor in Hm.
  destruct (_ || _); [done|]. set (keys := (take _ _).*1.*1).
  pose proof (keeps_victims b keys e1 0 0) as Hv. unfold evict_victims.
  destruct (foldl _ _ keys) as [[e2 w] c]. cbn in *. etrans; [exact Hm|]. etrans; [exact Hv|]. by apply keeps_same.
Qed.

Lemma keeps_round limit start now (e : Engine V) written b a f :
  keeps_loads e (evict_round limit start now e written b a f).1.1.
Proof.
  unfold evict_round. destruct (_ <=? limit); [done|].
  match goal with |- context [evict_batch_sampled ?a ?b ?c ?d ?e ?f] =>
    pose proof (keeps_batch a b c d e f) as Hb; destruct (evict_batch_sampled a b c d e f) as [e1 o] end.
  cbn in Hb. destruct (0 <? _); [done|].
  destruct (_ && negb a); cycle 1.
  { unfold next_pseudo_random_bucket. pose proof (next_random_moves e1) as Hr.
    destruct (next_random e1) as [e2 x]. cbn in *. etrans; [exact Hb|by apply keeps_cursor]. }
  destruct (defer_to_flusher _ _ _ _); [done|]. unfold evict_one_scanning.
  match goal with |- context [scan_stripes ?a ?b ?c ?d] =>
    pose proof (keeps_scan c d b a) as Hs; destruct (scan_stripes a b c d) as [e2 [[fd o2]|]] end; cbn in Hs.
  - destruct (0 <? _); [by etrans|]. destruct (made_no_progress o2); by etrans.
  - destruct (negb _); by etrans.
Qed.

Lemma keeps_loop limit start now fuel : forall (e : Engine V) written b a f e' written' out,
  evict_loop limit start now fuel e written b a f = Some (e', written', out) -> keeps_loads e e'.
Proof.
  induction fuel as [|fuel IH]; intros e written b a f e' written' out; cbn; [done|].
  pose proof (keeps_round limit start now e written b a f) as Hr.
  destruct (evict_round _ _ _ _ _ _ _ _) as [[e1 w1] [d fr|b1 a1 fr]]; cbn in Hr.
  - by intros [= <- _ _].
  - intros H%IH. by etrans.
Qed.

Lemma keeps_enforce (e : Engine V) start written now e' written' out :
  enforce_capacity e start written now = Some (e', written', out) -> keeps_loads e e'.
Proof.
  unfold enforce_capacity, evict_down_to_freeing. destruct (_ =? _); [by intros [= <- _ _]|]. apply keeps_loop.
Qed.

Lemma keeps_install_fill (e : Engine V) w now : keeps_loads e (install_fill e w now).1.
Proof.
  assert (Hc : keeps_loads e (clear_for_fill e (fl_key_bytes w)).1).
  { unfold clear_for_fill. destruct (_ !! _) as [t|].
    - cbn [fst]. etrans; [|by apply (keeps_same (with_stripe e (bucket_of_key (fl_key_bytes w))
        (set_tombstones (stripe_at e (bucket_of_key (fl_key_bytes w)))
          (delete (fl_key_bytes w) (st_tombstones (stripe_at e (bucket_of_key (fl_key_bytes w))))))))].
      by apply keeps_with_stripe.
    - pose proof (keeps_depart e (fl_key_bytes w) true) as Hd. by destruct (remove_live_at e (fl_key_bytes w)) as [e1 [rm|]]. }
  unfold install_fill. destruct (clear_for_fill e (fl_key_bytes w)) as [e1 had]. cbn in Hc.
  set (e2 := fetch_xor _ _ _). assert (H2 : keeps_loads e1 e2) by (unfold e2; destruct had; apply keeps_same; done).
  match goal with |- context [install_live ?a ?b ?c ?d ?e ?f ?g ?h] =>
    pose proof (install_live_inflight a b c d e f g h) as Hi; destruct (install_live a b c d e f g h) as [st4 r4] end.
  cbn [fst] in *. etrans; [exact Hc|]. etrans; [exact H2|].
  etrans; [by apply (keeps_with_stripe e2 (bucket_of_key (fl_key_bytes w)) st4)|]. by apply keeps_same.
Qed.

(** ** The invariant *)

(** The registered loads are the owned ones, each under one key; they and no others have not
    ended; ids are fresh. *)
Record loads_ok (s : Engine V * Owners) : Prop := {
  lo_stripes : length (stripes s.1) = Z.to_nat BUCKET_COUNT;
  lo_registered k id : registered s.1 k = Some id <-> (k, id) ∈ s.2;
  lo_pending k id : (k, id) ∈ s.2 -> ended s.1 id = Some false;
  lo_owned id : ended s.1 id = Some false -> exists k, (k, id) ∈ s.2;
  lo_inj k k' id : (k, id) ∈ s.2 -> (k', id) ∈ s.2 -> k = k';
  lo_fresh id : (next_load s.1 <= id)%nat -> loads s.1 !! id = None;
}.

Lemma loads_ok_keeps (e e' : Engine V) O : loads_ok (e, O) -> keeps_loads e e' -> loads_ok (e', O).
Proof.
  intros [H1 H2 H3 H4 H5 H6] [K1 K2 K3 K4]. split; cbn in *.
  - congruence.
  - intros k id. unfold registered. rewrite K3. apply H2.
  - intros k id Hin. rewrite K4. by apply (H3 k).
  - intros id. rewrite K4. apply H4.
  - apply H5.
  - intros id Hid. rewrite K2 in Hid. apply H6 in Hid. specialize (K4 id). unfold ended in K4.
    rewrite Hid in K4. by destruct (loads e' !! id).
Qed.

Lemma registered_with (e : Engine V) k m k' : length (stripes e) = Z.to_nat BUCKET_COUNT ->
  registered (with_stripe e (bucket_of_key k) (set_inflight (stripe_at e (bucket_of_key k)) m)) k' =
  if decide (bucket_of_key k' = bucket_of_key k) then m !! k' else registered e k'.
Proof.
  intros Hl. unfold registered.
  rewrite (stripe_at_insert e _ (bucket_of_key k) (set_inflight (stripe_at e (bucket_of_key k)) m))
    by (done || rewrite Hl; apply bucket_of_key_lt). by case_decide.
Qed.

(** A registration: a new load, owned by its caller. *)
Lemma loads_ok_register (e : Engine V) O k : loads_ok (e, O) -> registered e k = None ->
  loads_ok ((register_load e k).1, {[ (k, (register_load e k).2) ]} ∪ O).
Proof.
  intros [H1 H2 H3 H4 H5 H6] Hnone. cbn [fst snd] in *. unfold register_load. cbn [new_load fst snd].
  set (e1 := {| cfg := cfg e |}). set (id0 := next_load e) in *.
  assert (Hreg : forall k', registered (with_stripe e1 (bucket_of_key k)
    (set_inflight (stripe_at e1 (bucket_of_key k)) (<[k := id0]> (st_inflight (stripe_at e1 (bucket_of_key k)))))) k' =
    if decide (k' = k) then Some id0 else registered e k').
  { intros k'. rewrite registered_with by done. change (registered e1 k') with (registered e k').
    destruct (decide (k' = k)) as [->|Hne].
    - rewrite decide_True by done. by rewrite lookup_insert_eq.
    - case_decide as Hb; [|done]. rewrite lookup_insert_ne by done. unfold registered. by rewrite Hb. }
  assert (Hnew : forall id, ended e1 id = if decide (id = id0) then Some false else ended e id).
  { intros id. unfold ended. cbn. case_decide; subst; [by rewrite lookup_insert_eq|by rewrite lookup_insert_ne]. }
  assert (Hno : forall k', (k', id0) ∉ O).
  { intros k' Hin%H3. unfold ended in Hin. by rewrite (H6 id0) in Hin by lia. }
  split; cbn [fst snd].
  - cbn. by rewrite length_insert.
  - intros k' id. rewrite Hreg, elem_of_union, elem_of_singleton, <-H2. destruct (decide (k' = k)) as [->|Hne].
    + rewrite Hnone. split; [intros [= <-]; by left|]. intros [Heq|?]; [|done]. by injection Heq as ->.
    + split; [by right|]. intros [Heq|?]; [|done]. congruence.
  - intros k' id. rewrite elem_of_union, elem_of_singleton. change (ended (with_stripe e1 _ _) id) with (ended e1 id).
    rewrite Hnew. intros [Heq|Hin]; [injection Heq as _ ->; by rewrite decide_True|].
    rewrite decide_False; [by apply (H3 k')|]. intros ->. by apply (Hno k').
  - intros id. change (ended (with_stripe e1 _ _) id) with (ended e1 id). rewrite Hnew. case_decide; subst.
    + intros _. exists k. apply elem_of_union. left. by apply elem_of_singleton.
    + intros [k' Hk']%H4. exists k'. apply elem_of_union. by right.
  - intros k1 k2 id. rewrite !elem_of_union, !elem_of_singleton. intros [Ha|Ha] [Hb|Hb].
    + congruence.
    + injection Ha as _ ->. by destruct (Hno k2).
    + injection Hb as _ ->. by destruct (Hno k1).
    + by eapply H5.
  - intros id Hid. cbn in Hid |- *. rewrite lookup_insert_ne by lia. apply H6. lia.
Qed.

(** An end: the owner's load is out of the map and done. *)
Lemma loads_ok_end (e e' : Engine V) O k id : loads_ok (e, O) -> (k, id) ∈ O ->
  length (stripes e') = length (stripes e) -> next_load e' = next_load e ->
  (forall k', registered e' k' = if decide (k' = k) then None else registered e k') ->
  (forall j, ended e' j = if decide (j = id) then Some true else ended e j) ->
  loads_ok (e', O ∖ {[ (k, id) ]}).
Proof.
  intros [H1 H2 H3 H4 H5 H6] Hin Hl Hn Hreg Hend. cbn [fst snd] in *. split; cbn [fst snd].
  - congruence.
  - intros k' j. rewrite Hreg, elem_of_difference, elem_of_singleton. destruct (decide (k' = k)) as [->|Hne].
    + split; [done|]. intros [Hj Hx]. apply H2 in Hin, Hj. rewrite Hin in Hj. by injection Hj as <-.
    + rewrite H2. split; [|by intros []]. intros Hj. split; [done|]. by intros [= -> _].
  - intros k' j. rewrite elem_of_difference, elem_of_singleton, Hend. intros [Hj Hx].
    rewrite decide_False; [by apply (H3 k')|]. intros ->. apply Hx. by rewrite (H5 _ _ _ Hj Hin).
  - intros j. rewrite Hend. case_decide; [done|]. intros [k' Hk']%H4. exists k'.
    rewrite elem_of_difference, elem_of_singleton. split; [done|]. by intros [= _ ->].
  - intros k1 k2 j Ha Hb. apply elem_of_difference in Ha as [Ha _], Hb as [Hb _]. by eapply H5.
  - intros j Hj. rewrite Hn in Hj. apply H6 in Hj as Hx. specialize (Hend j). unfold ended in Hend.
    rewrite Hx in Hend. case_decide; [|by destruct (loads e' !! j)]. subst. apply (H3 k) in Hin.
    unfold ended in Hin. by rewrite Hx in Hin.
Qed.

Lemma ended_finish (e : Engine V) id j : ended e id <> None ->
  ended (on_load load_finish id e) j = if decide (j = id) then Some true else ended e j.
Proof.
  intros Hid. unfold ended in *. cbn. case_decide; subst.
  - rewrite lookup_alter_eq. by destruct (loads e !! id).
  - by rewrite lookup_alter_ne.
Qed.

Lemma ended_on_load (e : Engine V) f id j : (forall i, inf_done (f i) = inf_done i) ->
  ended (on_load f id e) j = ended e j.
Proof.
  intros Hf. unfold ended. cbn. destruct (decide (j = id)) as [->|Hne].
  - rewrite lookup_alter_eq. destruct (loads e !! id); cbn; [|done]. by rewrite Hf.
  - by rewrite lookup_alter_ne.
Qed.

(** The last part of every end: out of the map, marked done, whatever runs in between keeps
    the loads. *)
Lemma loads_ok_finish (e e1 : Engine V) O k id : loads_ok (e, O) -> (k, id) ∈ O ->
  keeps_loads (finish_inflight e k) e1 -> loads_ok (on_load load_finish id e1, O ∖ {[ (k, id) ]}).
Proof.
  intros Hok Hin [K1 K2 K3 K4]. pose proof (lo_stripes _ Hok) as Hl. cbn in Hl.
  apply (loads_ok_end e _ O k id Hok Hin).
  - cbn. rewrite K1. cbn. by rewrite length_insert.
  - cbn. by rewrite K2.
  - intros k'. change (registered (on_load load_finish id e1) k') with (registered e1 k').
    unfold registered. rewrite K3. change (st_inflight (stripe_at (finish_inflight e k) (bucket_of_key k')) !! k')
      with (registered (finish_inflight e k) k'). unfold finish_inflight.
    rewrite registered_with by done. destruct (decide (k' = k)) as [->|Hne].
    + rewrite decide_True by done. apply lookup_delete_eq.
    + case_decide as Hb; [|done]. rewrite lookup_delete_ne by done. unfold registered. by rewrite Hb.
  - intros j. assert (He : forall j, ended e1 j = ended e j) by (intros j'; by rewrite K4).
    pose proof (lo_pending _ Hok k id Hin) as Hp. cbn [fst snd] in Hp.
    rewrite ended_finish by (rewrite He, Hp; done). by rewrite He.
Qed.

(** Setting an outcome first changes nothing the protocol sees. *)
Lemma loads_ok_outcome (e : Engine V) O f id : loads_ok (e, O) -> (forall i, inf_done (f i) = inf_done i) ->
  loads_ok (on_load f id e, O).
Proof.
  intros Hok Hf. apply (loads_ok_keeps e); [done|]. split; try done. intros j. by apply ended_on_load.
Qed.

Lemma loads_ok_complete (e : Engine V) O w now id e' out : loads_ok (e, O) ->
  (fl_key_bytes w, id) ∈ O -> complete_fresh_load e w now id = Some (e', out) ->
  loads_ok (e', O ∖ {[ (fl_key_bytes w, id) ]}).
Proof.
  intros Hok Hin. unfold complete_fresh_load. destruct (from_option _ _ _).
  { intros [= <- _]. apply (loads_ok_finish e _ _ _ _ Hok Hin). split; try done.
    intros j. by apply ended_on_load. }
  destruct (negb _).
  { intros [= <- _]. by apply (loads_ok_finish e _ _ _ _ Hok Hin). }
  pose proof (keeps_install_fill (finish_inflight e (fl_key_bytes w)) w now) as Hk.
  destruct (install_fill _ w now) as [e1 had]. cbn in Hk.
  destruct (enforce_capacity _ _ _ _) as [[[e2 w2] o2]|] eqn:Ee; cbn; [|done]. intros [= <- _].
  apply keeps_enforce in Ee. apply (loads_ok_keeps (on_load load_finish id e1)); [|done].
  by apply (loads_ok_finish e).
Qed.

Lemma load_step_ok s s' : load_step s s' -> loads_ok s -> loads_ok s'.
Proof.
  intros Hstep Hok. destruct Hstep as
    [e O k now e' id Hm|e O k now e' v Hm|e O k now e' id Hm|e O k e' id Hm|e O w now id e' out Hin Hc
    |e O k id err Hin|e O k id Hin|e O k id v Hin|e O k id Hin|e O ctx k ver i n|e O k ver|e O k].
  - unfold miss_or_join in Hm. destruct (visible e k now); [done|].
    destruct (st_inflight _ !! k) eqn:Ei; [done|]. pose proof (loads_ok_register e O k Hok Ei) as Hr.
    destruct (register_load e k) as [e1 j]. by injection Hm as <- <-.
  - unfold miss_or_join in Hm. destruct (visible e k now).
    + injection Hm as <- _. apply (loads_ok_keeps e); [done|apply keeps_touch].
    + destruct (st_inflight _ !! k); [done|]. by destruct (register_load e k).
  - unfold miss_or_join in Hm. destruct (visible e k now); [done|].
    destruct (st_inflight _ !! k); [by injection Hm as <- _|]. by destruct (register_load e k).
  - unfold begin_refresh in Hm. destruct (st_inflight _ !! k) eqn:Ei; [done|].
    pose proof (loads_ok_register e O k Hok Ei) as Hr. destruct (register_load e k) as [e1 j]. by injection Hm as <- <-.
  - by eapply loads_ok_complete.
  - apply (loads_ok_finish (on_load (load_set_error err) id e)); [by apply loads_ok_outcome|done|done].
  - apply (loads_ok_finish (on_load load_set_absent id e)); [by apply loads_ok_outcome|done|done].
  - apply (loads_ok_finish (on_load (load_set_value v) id e)); [by apply loads_ok_outcome|done|done].
  - by apply (loads_ok_finish e).
  - apply (loads_ok_keeps e); [done|apply keeps_apply].
  - apply (loads_ok_keeps e); [done|apply keeps_invalidate].
  - apply (loads_ok_keeps e); [done|apply keeps_invalidate_local].
Qed.

(** A new engine has no load. *)
Lemma loads_ok_new (cap : Z) (tti : option Z) (weigher : option (Bytes -> V -> Z)) : loads_ok (engine_new cap tti weigher, ∅).
Proof.
  split; cbn [fst snd]; [apply length_replicate|..].
  - intros k id. unfold registered, stripe_at. cbn [stripes engine_new].
    destruct (replicate _ _ !! _) as [st|] eqn:E; [apply lookup_replicate in E as [-> _]|]; cbn;
      rewrite lookup_empty; set_solver.
  - set_solver.
  - intros id. unfold ended. cbn. by rewrite lookup_empty.
  - set_solver.
  - done.
Qed.

(** Writes start and end none. *)
Lemma loads_ok_writes (ws : list (Write V)) O : forall e : Engine V, loads_ok (e, O) -> loads_ok (run_writes R e ws, O).
Proof.
  induction ws as [|w ws IH]; intros e He; [done|]. apply IH. apply (loads_ok_keeps e); [done|]. apply keeps_apply.
Qed.

(** C34: loads are single-flight and no waiter is stranded. However misses, refreshes, joins,
    completions, failures, cancelled owners, writes and invalidations interleave from a new
    engine, each key has at most one load that has not ended, it is the one the stripe hands to
    callers that join, and exactly the loads that have not ended have an owner left to end
    them; so the next miss on a key joins its load or starts the only one. *)
Theorem one_load_per_key (cap : Z) (tti : option Z) (weigher : option (Bytes -> V -> Z))
    (e : Engine V) (O : Owners) (Hreach : rtc load_step (engine_new cap tti weigher, ∅) (e, O)) :
  (forall k id id', (k, id) ∈ O -> (k, id') ∈ O -> id = id') /\
  (forall id, ended e id = Some false <-> exists k, (k, id) ∈ O) /\
  (forall k now e' id, miss_or_join e k now = (e', JJoin id) -> (k, id) ∈ O /\ ended e id = Some false) /\
  (forall k now e' id, miss_or_join e k now = (e', JOwner id) ->
     (forall id', (k, id') ∉ O) /\ ended e' id = Some false).
Proof.
  assert (Hok : loads_ok (e, O)).
  { remember (engine_new cap tti weigher, ∅) as s0 eqn:Hs0. remember (e, O) as s eqn:Hs.
    assert (H0 : loads_ok s0) by (subst s0; apply loads_ok_new).
    clear Hs0 Hs e O. induction Hreach as [|s1 s2 s3 Hst _ IH]; [done|]. apply IH. by eapply load_step_ok. }
  pose proof Hok as [H1 H2 H3 H4 H5 H6]. cbn [fst snd] in *. split_and!.
  - intros k id id' Ha Hb. apply H2 in Ha, Hb. congruence.
  - intros id. split; [apply H4|]. intros [k Hk]. by apply (H3 k).
  - intros k now e' id Hm. unfold miss_or_join in Hm. destruct (visible e k now); [done|].
    destruct (st_inflight _ !! k) as [j|] eqn:Ei; [|by destruct (register_load e k)].
    injection Hm as _ <-. apply H2 in Ei. split; [done|by apply (H3 k)].
  - intros k now e' id Hm. pose proof (load_step_ok _ _ (ls_own e O k now e' id Hm) Hok) as Hok'.
    unfold miss_or_join in Hm. destruct (visible e k now); [done|].
    destruct (st_inflight _ !! k) as [j|] eqn:Ei; [done|]. split.
    + intros id' Hin. apply H2 in Hin. unfold registered in Hin. congruence.
    + apply (lo_pending _ Hok' k). cbn. set_solver.
Qed.

End Protocol.

(** A miss on a new engine owns the load of its key, and the next caller joins it. *)
Lemma one_load_per_key_witness :
  rtc (load_step (R:=LwwResolver)) (empty_engine, ∅) ((register_load empty_engine [9]).1, {[ ([9], 0%nat) ]} ∪ ∅) /\
  forall e', miss_or_join (register_load empty_engine [9]).1 [9] 1000 = (e', JJoin 0) ->
    ([9], 0%nat) ∈ ({[ ([9], 0%nat) ]} ∪ ∅ : Owners).
Proof.
  assert (Hr : rtc (load_step (R:=LwwResolver)) (empty_engine, ∅) ((register_load empty_engine [9]).1, {[ ([9], 0%nat) ]} ∪ ∅)).
  { eapply rtc_once, (ls_own (R:=LwwResolver) _ _ _ 1000). reflexivity. }
  split; [exact Hr|]. destruct (one_load_per_key (R:=LwwResolver) _ _ _ _ _ Hr) as (_ & _ & Hj & _).
  intros e' He. exact (proj1 (Hj _ _ _ _ He)).
Defined.
