(* ===== verification/Receipts.v ===== *)
(** * CRDT receipts and maps

    [store/crdt/mod.rs] and what its two value types share: the receipt lifetime, the entry-wise
    combination of two ordered maps, and postcard's codec of a value. A [BTreeMap] is a finite
    map here; the order in which its entries are visited matters nowhere, since what is
    accumulated over them commutes. *)

From S2P Require Import Prelude Types.

(** ** Definitions *)

Definition receipt_expired (now_ms stamp_ms ttl_ms : Z) : bool :=
  (ttl_ms <? saturating_sub now_ms stamp_ms) || (ttl_ms <? saturating_sub stamp_ms now_ms).

(** [postcard::to_stdvec] and [postcard::from_bytes] at one type. *)
Class Postcard (A : Type) := {
  to_stdvec : A -> option Bytes;
  from_bytes : Bytes -> option A;
}.

(** Its round trip, which the resolvers rely on. *)
Class PostcardLaws (A : Type) `{Postcard A} : Prop := {
  from_to_bytes x b : to_stdvec x = Some b -> from_bytes b = Some x;
}.

(** Encoding a value by its position in an enumeration of its type, for evaluating the model. *)
Definition enumerated_postcard (A : Type) `{Countable A} : Postcard A := {|
  to_stdvec x := Some [Z.pos (encode x)];
  from_bytes b := match b with [Z.pos n] => decode n | _ => None end;
|}.

Lemma enumerated_laws (A : Type) `{Countable A} : @PostcardLaws A (enumerated_postcard A).
Proof. constructor. intros x b [= <-]. cbn. apply decode_encode. Qed.

Section Maps.
Context {K : Type} `{Countable K} {A : Type}.

(** The keys and the values of a map. *)
Definition map_keys (m : gmap K A) : list K := (map_to_list m).*1.
Definition map_values (m : gmap K A) : list A := (map_to_list m).*2.

(** [for (k, v) in b { a.entry(k).and_modify(|m| *m = f(m, v)).or_insert(v) }] *)
Definition merge_entries (f : A -> A -> A) (a b : gmap K A) : gmap K A :=
  foldl (fun m kv => partial_alter (fun o => Some (from_option (fun x => f x kv.2) kv.2 o)) kv.1 m)
    a (map_to_list b).

End Maps.

(** [fold(0, u64::saturating_add)] *)
Definition saturating_sum (l : list Z) : Z := foldl saturating_add 0 l.

(** ** Lemmas *)

Section MapLemmas.
Context {K : Type} `{Countable K} {A : Type}.
Implicit Types (m a b : gmap K A).

Lemma elem_of_map_keys m k : k ∈ map_keys m <-> is_Some (m !! k).
Proof.
  unfold map_keys. rewrite list_elem_of_fmap. split.
  - intros ([k' v] & -> & Hin%elem_of_map_to_list). by exists v.
  - intros [v Hv]. exists (k, v). split; [done|]. by apply elem_of_map_to_list.
Qed.

Lemma map_keys_NoDup m : NoDup (map_keys m).
Proof. apply NoDup_fst_map_to_list. Qed.

Lemma merge_entries_lookup f a b k :
  merge_entries f a b !! k = union_with (fun x y => Some (f x y)) (a !! k) (b !! k).
Proof.
  unfold merge_entries. pose proof (NoDup_fst_map_to_list b) as Hnd.
  assert (Hb : forall v, (k, v) ∈ map_to_list b <-> b !! k = Some v) by (intros; apply elem_of_map_to_list).
  revert Hnd Hb. generalize (b !! k) (map_to_list b). intros o l. revert a o.
  induction l as [|[k' v'] l IH]; intros a o Hnd Hb; cbn.
  { destruct o as [v|]; [|by destruct (a !! k)]. pose proof (proj2 (Hb v) eq_refl) as Hin. by apply not_elem_of_nil in Hin. }
  cbn in Hnd. apply NoDup_cons in Hnd as [Hni Hnd]. destruct (decide (k' = k)) as [->|Hne].
  - assert (o = Some v') as -> by (apply Hb; left).
    rewrite (IH _ None) by (done || (intros v; split; [|done]; intros Hin;
      exfalso; apply Hni, list_elem_of_fmap; by exists (k, v))).
    rewrite lookup_partial_alter_eq. by destruct (a !! k).
  - rewrite (IH _ o), lookup_partial_alter_ne by (done || (intros v; rewrite <-Hb, elem_of_cons; split; [by right|by intros [[= -> _]|?]])).
    done.
Qed.

Lemma merge_entries_comm f a b : (forall x y, f x y = f y x) -> merge_entries f a b = merge_entries f b a.
Proof.
  intros Hf. apply map_eq. intros k. rewrite !merge_entries_lookup.
  destruct (a !! k), (b !! k); cbn; f_equal; auto.
Qed.
Lemma merge_entries_assoc f a b c : (forall x y z, f x (f y z) = f (f x y) z) ->
  merge_entries f a (merge_entries f b c) = merge_entries f (merge_entries f a b) c.
Proof.
  intros Hf. apply map_eq. intros k. rewrite !merge_entries_lookup.
  destruct (a !! k), (b !! k), (c !! k); cbn; f_equal; auto.
Qed.
Lemma merge_entries_idemp f a : (forall x, f x x = x) -> merge_entries f a a = a.
Proof.
  intros Hf. apply map_eq. intros k. rewrite !merge_entries_lookup.
  destruct (a !! k); cbn; f_equal; auto.
Qed.
Lemma merge_entries_is_Some f a b k :
  is_Some (merge_entries f a b !! k) <-> is_Some (a !! k) \/ is_Some (b !! k).
Proof. rewrite merge_entries_lookup, !is_Some_alt. destruct (a !! k), (b !! k); cbn; tauto. Qed.

(** A sum over a map's entries is a sum over any list of keys that covers it. *)
Lemma sum_over_keys (g : K -> A -> Z) m (ks : list K) : NoDup ks -> (forall k, is_Some (m !! k) -> k ∈ ks) ->
  sum_Z ((fun kv => g kv.1 kv.2) <$> map_to_list m) = sum_Z ((fun k => from_option (g k) 0 (m !! k)) <$> ks).
Proof.
  revert ks. induction m as [|k v m Hk IH] using map_ind; intros ks Hnd Hc.
  { rewrite map_to_list_empty. cbn. clear Hnd Hc. induction ks as [|k ks IH]; cbn; [done|].
    rewrite lookup_empty. apply IH. }
  assert (Hin : k ∈ ks) by (apply Hc; rewrite lookup_insert_eq; by eexists).
  destruct (list_elem_of_split _ _ Hin) as (l1 & l2 & ->).
  rewrite (sum_Z_perm _ _ (fmap_Permutation _ _ _ (map_to_list_insert m k v Hk))), fmap_cons, sum_Z_cons.
  rewrite <-Permutation_middle in Hnd. apply NoDup_cons in Hnd as [Hni Hnd].
  rewrite (IH (l1 ++ l2)).
  - rewrite !fmap_app, !sum_Z_app, fmap_cons, sum_Z_cons, lookup_insert_eq. cbn [from_option fst snd].
    assert (He : forall l : list K, k ∉ l -> (fun k0 => from_option (g k0) 0 (<[k:=v]> m !! k0)) <$> l =
      (fun k0 => from_option (g k0) 0 (m !! k0)) <$> l).
    { intros l Hl. apply list_fmap_ext. intros i x Hx. rewrite lookup_insert_ne; [done|].
      intros ->. apply Hl. by eapply list_elem_of_lookup_2. }
    rewrite not_elem_of_app in Hni. destruct Hni. rewrite !He by done. lia.
  - done.
  - intros k' Hk'. assert (k' <> k) by (intros ->; rewrite Hk in Hk'; by destruct Hk').
    specialize (Hc k'). rewrite lookup_insert_ne, elem_of_app, elem_of_cons in Hc by done.
    rewrite elem_of_app. destruct (Hc Hk') as [?|[?|?]]; tauto.
Qed.

Lemma sum_over_values (g : A -> Z) m (ks : list K) : NoDup ks -> (forall k, is_Some (m !! k) -> k ∈ ks) ->
  sum_Z (g <$> map_values m) = sum_Z ((fun k => from_option g 0 (m !! k)) <$> ks).
Proof.
  intros Hnd Hc. rewrite <-(sum_over_keys (fun _ => g)) by done. unfold map_values.
  by rewrite <-list_fmap_compose.
Qed.

(** Adding over one list of keys. *)
Lemma sum_Z_fmap_add (f g : K -> Z) (ks : list K) :
  sum_Z ((fun k => f k + g k) <$> ks) = sum_Z (f <$> ks) + sum_Z (g <$> ks).
Proof. induction ks as [|k ks IH]; [done|]. rewrite !fmap_cons, !sum_Z_cons, IH. lia. Qed.
Lemma sum_Z_fmap_ext (f g : K -> Z) (ks : list K) : (forall k, k ∈ ks -> f k = g k) ->
  sum_Z (f <$> ks) = sum_Z (g <$> ks).
Proof.
  intros Hfg. f_equal. apply list_fmap_ext. intros i k Hk. apply Hfg. by eapply list_elem_of_lookup_2.
Qed.

End MapLemmas.

Lemma saturating_fold l : forall x, Forall (Z.le 0) l -> 0 <= x <= u64_max ->
  foldl saturating_add x l = Z.min (x + sum_Z l) u64_max.
Proof.
  induction l as [|y l IH]; intros x Hl Hx; cbn [foldl]; [change (sum_Z []) with 0; lia|]. apply Forall_cons in Hl as [Hy Hl].
  pose proof (sum_Z_nonneg l Hl). rewrite sum_Z_cons, IH by (done || unfold saturating_add; ulia).
  unfold saturating_add. ulia.
Qed.

Lemma saturating_sum_exact l : Forall (Z.le 0) l -> saturating_sum l = Z.min (sum_Z l) u64_max.
Proof. intros Hl. unfold saturating_sum. rewrite saturating_fold by (done || ulia). f_equal. Qed.
