(* ===== verification/Counter.v ===== *)
(** * The PN-counter

    [store/crdt/pn_counter.rs]: per-writer totals that merge by maximum, the two-stage
    retirement of writers, the receipts, and the resolver built on them. *)

From S2P Require Import Prelude Clock Types Merge Receipts.

(** ** Definitions *)

Record Retired := { ret_p : Z; ret_n : Z; ret_since_ms : Z }.

Record PnCounter := {
  pn_p : gmap WriterId Z;
  pn_n : gmap WriterId Z;
  pn_retired : gmap WriterId Retired;
  pn_folded_p : Z;
  pn_folded_n : Z;
  pn_folded_at : gmap WriterId Z;
}.

Definition pn_default : PnCounter := {|
  pn_p := ∅; pn_n := ∅; pn_retired := ∅; pn_folded_p := 0; pn_folded_n := 0; pn_folded_at := ∅ |}.

Definition with_folded_at (c : PnCounter) (m : gmap WriterId Z) : PnCounter := {|
  pn_p := pn_p c; pn_n := pn_n c; pn_retired := pn_retired c; pn_folded_p := pn_folded_p c;
  pn_folded_n := pn_folded_n c; pn_folded_at := m |}.

Definition pn_value (c : PnCounter) : Z :=
  let '(retired_p, retired_n) :=
    foldl (fun '(p, n) r => (saturating_add p (ret_p r), saturating_add n (ret_n r)))
      (0, 0) (map_values (pn_retired c)) in
  let pos := saturating_add (saturating_add (saturating_sum (map_values (pn_p c))) retired_p) (pn_folded_p c) in
  let neg := saturating_add (saturating_add (saturating_sum (map_values (pn_n c))) retired_n) (pn_folded_n c) in
  pos - neg.

Definition local_delta (writer : WriterId) (cumulative_increment : Z) : PnCounter := {|
  pn_p := {[ writer := cumulative_increment ]}; pn_n := ∅; pn_retired := ∅;
  pn_folded_p := 0; pn_folded_n := 0; pn_folded_at := ∅ |}.

Definition local_decrement (writer : WriterId) (cumulative_decrement : Z) : PnCounter := {|
  pn_p := ∅; pn_n := {[ writer := cumulative_decrement ]}; pn_retired := ∅;
  pn_folded_p := 0; pn_folded_n := 0; pn_folded_at := ∅ |}.

Definition pointwise_max (a b : gmap WriterId Z) : gmap WriterId Z := merge_entries Z.max a b.

Definition pointwise_max_excluding (a b : gmap WriterId Z) (excluding : gmap WriterId Retired) :
    gmap WriterId Z :=
  filter (fun wv => excluding !! wv.1 = None) (pointwise_max a b).

(** The entry [merge] builds for a writer one of the two sides has retired. *)
Definition retire_entry (self other : PnCounter) (w : WriterId) : Retired := {|
  ret_p := Z.max (Z.max (Z.max (from_option ret_p 0 (pn_retired self !! w))
                               (from_option ret_p 0 (pn_retired other !! w)))
                        (default 0 (pn_p self !! w)))
                 (default 0 (pn_p other !! w));
  ret_n := Z.max (Z.max (Z.max (from_option ret_n 0 (pn_retired self !! w))
                               (from_option ret_n 0 (pn_retired other !! w)))
                        (default 0 (pn_n self !! w)))
                 (default 0 (pn_n other !! w));
  ret_since_ms :=
    match pn_retired self !! w, pn_retired other !! w with
    | Some a, Some b => Z.min (ret_since_ms a) (ret_since_ms b)
    | Some a, None | None, Some a => ret_since_ms a
    | None, None => 0
    end |}.

Definition retired_union (self other : PnCounter) : gmap WriterId Retired :=
  foldl (fun m w => if is_some (m !! w) then m else <[w := retire_entry self other w]> m)
    ∅ (map_keys (pn_retired self) ++ map_keys (pn_retired other)).

Definition already_folded (side : PnCounter) (w : WriterId) : bool :=
  negb (is_some (pn_retired side !! w)) && negb (is_some (pn_p side !! w))
  && negb (is_some (pn_n side !! w)) && is_some (pn_folded_at side !! w).

Definition add_credit (credit : Z * Z) (r : Retired) : Z * Z :=
  (saturating_add credit.1 (ret_p r), saturating_add credit.2 (ret_n r)).

(** [retired.retain]: what it keeps, and the credit of each side. *)
Definition settle_retired (self other : PnCounter) (retired : gmap WriterId Retired) :
    gmap WriterId Retired * (Z * Z) * (Z * Z) :=
  foldl (fun '(kept, credit_self, credit_other) '(w, r) =>
      let by_self := already_folded self w in
      let by_other := already_folded other w in
      (if by_self || by_other then delete w kept else kept,
       if by_other && negb by_self then add_credit credit_self r else credit_self,
       if by_self && negb by_other then add_credit credit_other r else credit_other))
    (retired, (0, 0), (0, 0)) (map_to_list retired).

Definition pn_merge (self other : PnCounter) : PnCounter :=
  let '(retired, credit_self, credit_other) :=
    settle_retired self other (retired_union self other) in
  let bound_self := (saturating_add (pn_folded_p self) credit_self.1,
                     saturating_add (pn_folded_n self) credit_self.2) in
  let bound_other := (saturating_add (pn_folded_p other) credit_other.1,
                      saturating_add (pn_folded_n other) credit_other.2) in
  {| pn_p := pointwise_max_excluding (pn_p self) (pn_p other) retired;
     pn_n := pointwise_max_excluding (pn_n self) (pn_n other) retired;
     pn_retired := retired;
     pn_folded_p := Z.max bound_self.1 bound_other.1;
     pn_folded_n := Z.max bound_self.2 bound_other.2;
     pn_folded_at := merge_entries Z.max (pn_folded_at self) (pn_folded_at other) |}.

Definition pn_prune_receipts (c : PnCounter) (now_ms receipt_ttl_ms : Z) : option PnCounter :=
  if existsb (fun stamp_ms => receipt_expired now_ms stamp_ms receipt_ttl_ms) (map_values (pn_folded_at c))
  then Some (with_folded_at c
         (filter (fun wt => receipt_expired now_ms wt.2 receipt_ttl_ms = false) (pn_folded_at c)))
  else None.

(** Stage one for one writer. *)
Definition retire_writer (now_ms : Z) (c : PnCounter) (w : WriterId) : PnCounter := {|
  pn_p := delete w (pn_p c); pn_n := delete w (pn_n c);
  pn_retired := <[w := {| ret_p := default 0 (pn_p c !! w); ret_n := default 0 (pn_n c !! w);
                          ret_since_ms := now_ms |}]> (pn_retired c);
  pn_folded_p := pn_folded_p c; pn_folded_n := pn_folded_n c; pn_folded_at := pn_folded_at c |}.

Definition retire_stage (c : PnCounter) (now_ms : Z) (retire : WriterId -> bool) : PnCounter * bool :=
  let candidates :=
    filter (fun w => retire w = true) (elements (list_to_set (map_keys (pn_p c) ++ map_keys (pn_n c)) : gset WriterId)) in
  (foldl (retire_writer now_ms) c candidates, negb (bool_decide (candidates = []))).

(** Stage two for one retired entry: it is folded once it is older than the bound. *)
Definition fold_writer (now_ms double_bound : Z) (acc : PnCounter * bool) (wr : WriterId * Retired) :
    PnCounter * bool :=
  let '(c, aged_any) := acc in
  let '(w, r) := wr in
  if double_bound <? saturating_sub now_ms (ret_since_ms r) then
    ({| pn_p := pn_p c; pn_n := pn_n c; pn_retired := delete w (pn_retired c);
        pn_folded_p := saturating_add (pn_folded_p c) (ret_p r);
        pn_folded_n := saturating_add (pn_folded_n c) (ret_n r);
        pn_folded_at := partial_alter (fun o => Some (from_option (fun stamp => Z.max stamp now_ms) now_ms o))
                          w (pn_folded_at c) |}, true)
  else (c, aged_any).

Definition fold_stage (c : PnCounter) (now_ms : Z) (bounds : CompactionBounds) : PnCounter * bool :=
  let double_bound := saturating_mul (retire_after_ms bounds) 2 in
  let '(c, aged_any) :=
    match pn_prune_receipts c now_ms (receipt_ttl_ms bounds) with
    | Some pruned => (pruned, true)
    | None => (c, false)
    end in
  foldl (fold_writer now_ms double_bound) (c, aged_any) (map_to_list (pn_retired c)).

Definition pn_compact (c : PnCounter) (now_ms : Z) (retire : WriterId -> bool) (quiet : Quiescence)
    (bounds : CompactionBounds) : option PnCounter :=
  let '(out, changed) := retire_stage c now_ms retire in
  let '(out, changed) :=
    if is_settled quiet then
      let '(out, aged_any) := fold_stage out now_ms bounds in (out, changed || aged_any)
    else (out, changed) in
  if changed : bool then Some out else None.

(** ** The codec and the resolver *)

#[export] Instance Retired_eq_dec : EqDecision Retired.
Proof. solve_decision. Defined.
#[export] Instance Retired_countable : Countable Retired.
Proof.
  refine (inj_countable' (fun r => (ret_p r, ret_n r, ret_since_ms r))
    (fun t => {| ret_p := t.1.1; ret_n := t.1.2; ret_since_ms := t.2 |}) _).
  by intros [].
Defined.
#[export] Instance PnCounter_eq_dec : EqDecision PnCounter.
Proof. solve_decision. Defined.
#[export] Instance PnCounter_countable : Countable PnCounter.
Proof.
  refine (inj_countable' (fun c => (pn_p c, pn_n c, pn_retired c, pn_folded_p c, pn_folded_n c, pn_folded_at c))
    (fun t => {| pn_p := t.1.1.1.1.1; pn_n := t.1.1.1.1.2; pn_retired := t.1.1.1.2;
                 pn_folded_p := t.1.1.2; pn_folded_n := t.1.2; pn_folded_at := t.2 |}) _).
  by intros [].
Defined.

Section Codec.
Context {PC : Postcard PnCounter}.

Definition pn_encode (c : PnCounter) : option Bytes := to_stdvec c.

Definition pn_decode (bytes : Bytes) : option PnCounter :=
  counter ← from_bytes bytes;
  if existsb (fun w => is_some (pn_retired counter !! w)) (map_keys (pn_p counter) ++ map_keys (pn_n counter))
  then None else Some counter.

Definition pn_resolver_merge (_ : Bytes) (a b : RecordView) : option Merged :=
  av ← rv_value a; bv ← rv_value b;
  pa ← pn_decode av; pb ← pn_decode bv;
  bytes ← pn_encode (pn_merge pa pb);
  Some {| mg_value := bytes; mg_expires_at_ms := later_deadline (rv_expires_at_ms a) (rv_expires_at_ms b) |}.

Definition PnCounterResolver : ConflictResolver := {|
  winner := lww_winner;
  needs_value_bytes := true;
  merges := true;
  merge := pn_resolver_merge;
  compact _ bytes now_ms retire quiet bounds :=
    counter ← pn_decode bytes;
    compacted ← pn_compact counter now_ms retire quiet bounds;
    pn_encode compacted;
  settle _ bytes now_ms receipt_ttl_ms :=
    counter ← pn_decode bytes;
    pruned ← pn_prune_receipts counter now_ms receipt_ttl_ms;
    pn_encode pruned;
|}.

End Codec.

(** ** The counter's shape *)

(** One of its two directions. *)
Definition slot (up : bool) (c : PnCounter) : gmap WriterId Z := if up then pn_p c else pn_n c.
Definition rslot (up : bool) (r : Retired) : Z := if up then ret_p r else ret_n r.
Definition folded (up : bool) (c : PnCounter) : Z := if up then pn_folded_p c else pn_folded_n c.

(** What [pn_decode] accepts and every operation keeps: no writer is both live and retired, and
    the totals are [u64]s. *)
Record pn_wf (c : PnCounter) : Prop := {
  wf_disjoint up w : is_Some (pn_retired c !! w) -> slot up c !! w = None;
  wf_slot up w x : slot up c !! w = Some x -> is_u64 x;
  wf_retired up w r : pn_retired c !! w = Some r -> is_u64 (rslot up r);
  wf_folded up : is_u64 (folded up c);
}.

Lemma pn_eq c c' : (forall up, slot up c = slot up c') -> pn_retired c = pn_retired c' ->
  (forall up, folded up c = folded up c') -> pn_folded_at c = pn_folded_at c' -> c = c'.
Proof.
  intros Hs Hr Hf Ha. destruct c, c'. cbn in *.
  pose proof (Hs true). pose proof (Hs false). pose proof (Hf true). pose proof (Hf false). cbn in *. congruence.
Qed.

Lemma pn_default_wf : pn_wf pn_default.
Proof.
  split; [by intros []|intros [] w x; cbn; by rewrite lookup_empty|
    intros up w r; cbn; by rewrite lookup_empty|intros []; cbn; ulia].
Qed.

Lemma local_wf (up : bool) w x : is_u64 x -> pn_wf (if up then local_delta w x else local_decrement w x).
Proof.
  intros Hx. split; destruct up; cbn.
  all: try (intros [] w' H; cbn in *; rewrite ?lookup_empty in *; by destruct H).
  all: try (intros [] w' y; cbn; rewrite ?lookup_empty, ?lookup_singleton; try done; case_decide; naive_solver).
  all: try (intros [] w' y; cbn; by rewrite ?lookup_empty).
  all: intros []; cbn; ulia.
Qed.

(** ** The value as a sum over writers *)

Definition contrib (up : bool) (c : PnCounter) (w : WriterId) : Z :=
  default 0 (slot up c !! w) + from_option (rslot up) 0 (pn_retired c !! w).
Definition covers (ks : list WriterId) (c : PnCounter) : Prop :=
  forall w, (exists up, is_Some (slot up c !! w)) \/ is_Some (pn_retired c !! w) -> w ∈ ks.
Definition total (ks : list WriterId) (up : bool) (c : PnCounter) : Z :=
  sum_Z (contrib up c <$> ks) + folded up c.

Lemma foldl_pair (l : list Retired) : forall p n,
  foldl (fun '(p, n) r => (saturating_add p (ret_p r), saturating_add n (ret_n r))) (p, n) l =
  (foldl saturating_add p (ret_p <$> l), foldl saturating_add n (ret_n <$> l)).
Proof. induction l as [|r l IH]; intros p n; cbn; [done|]. apply IH. Qed.

Lemma elem_of_map_values {A} (m : gmap WriterId A) x : x ∈ map_values m -> exists w, m !! w = Some x.
Proof.
  unfold map_values. intros ([w y] & -> & Hin%elem_of_map_to_list)%list_elem_of_fmap. by exists w.
Qed.

Lemma slots_sum ks up c : pn_wf c -> NoDup ks -> covers ks c ->
  saturating_add (saturating_add (saturating_sum (map_values (slot up c)))
    (foldl saturating_add 0 (rslot up <$> map_values (pn_retired c)))) (folded up c) =
  Z.min (total ks up c) u64_max.
Proof.
  intros Hwf Hnd Hc. pose proof (wf_folded c Hwf up) as Hf.
  assert (H1 : Forall (Z.le 0) (map_values (slot up c))).
  { apply Forall_forall. intros x [w Hw]%elem_of_map_values. apply (wf_slot c Hwf) in Hw. ulia. }
  assert (H2 : Forall (Z.le 0) (rslot up <$> map_values (pn_retired c))).
  { apply Forall_fmap, Forall_forall. intros x [w Hw]%elem_of_map_values.
    apply (wf_retired c Hwf up) in Hw. cbn. ulia. }
  pose proof (sum_Z_nonneg _ H1) as S1. pose proof (sum_Z_nonneg _ H2) as S2.
  rewrite saturating_sum_exact, saturating_fold by (done || ulia).
  assert (Ht : total ks up c = sum_Z (map_values (slot up c)) + sum_Z (rslot up <$> map_values (pn_retired c)) + folded up c).
  { unfold total, contrib. rewrite sum_Z_fmap_add. f_equal. f_equal.
    - rewrite <-(list_fmap_id (map_values (slot up c))), (sum_over_values id) with (ks := ks).
      + done.
      + done.
      + intros w Hw. apply Hc. left. by exists up.
    - rewrite (sum_over_values (rslot up)) with (ks := ks); [done|done|]. intros w Hw. apply Hc. by right. }
  unfold saturating_add in *. ulia.
Qed.

Lemma pn_value_total ks c : pn_wf c -> NoDup ks -> covers ks c ->
  pn_value c = Z.min (total ks true c) u64_max - Z.min (total ks false c) u64_max.
Proof.
  intros Hwf Hnd Hc. rewrite <-!slots_sum by done. unfold pn_value. rewrite foldl_pair. done.
Qed.

Definition writers (c : PnCounter) : list WriterId :=
  map_keys (pn_p c) ++ map_keys (pn_n c) ++ map_keys (pn_retired c).
Lemma writers_cover c ks : (forall w, w ∈ writers c -> w ∈ ks) -> covers ks c.
Proof.
  intros Hk w Hw. apply Hk. unfold writers. rewrite !elem_of_app, !elem_of_map_keys.
  destruct Hw as [[[] ?]|?]; tauto.
Qed.

(** Counters whose totals agree over the writers of both have the same value. *)
Lemma pn_value_eq c c' : pn_wf c -> pn_wf c' ->
  (forall ks up, NoDup ks -> covers ks c -> covers ks c' ->
     Z.min (total ks up c) u64_max = Z.min (total ks up c') u64_max) -> pn_value c = pn_value c'.
Proof.
  intros Hc Hc' Ht.
  set (ks := remove_dups (writers c ++ writers c')).
  assert (Hnd : NoDup ks) by apply NoDup_remove_dups.
  assert (H1 : covers ks c) by (apply writers_cover; intros w ?; apply elem_of_remove_dups, elem_of_app; by left).
  assert (H2 : covers ks c') by (apply writers_cover; intros w ?; apply elem_of_remove_dups, elem_of_app; by right).
  rewrite (pn_value_total ks c), (pn_value_total ks c') by done. by rewrite !Ht.
Qed.

(** ** What a merge holds *)

Section MergeFacts.
Context (a b : PnCounter).

Definition in_retired (w : WriterId) : bool := is_some (pn_retired a !! w) || is_some (pn_retired b !! w).
Definition in_folded (w : WriterId) : bool := already_folded a w || already_folded b w.

Lemma retired_union_lookup w :
  retired_union a b !! w = if in_retired w then Some (retire_entry a b w) else None.
Proof.
  unfold retired_union. set (l := _ ++ _).
  assert (Hl : w ∈ l <-> in_retired w = true).
  { unfold l, in_retired. rewrite elem_of_app, !elem_of_map_keys, !is_Some_alt.
    destruct (pn_retired a !! w), (pn_retired b !! w); cbn; split; (tauto || done || by intros [[]|[]]). }
  assert (Hgen : forall l (m : gmap WriterId Retired), foldl (fun m w => if is_some (m !! w) then m else <[w := retire_entry a b w]> m) m l !! w =
    match m !! w with Some r => Some r | None => if decide (w ∈ l) then Some (retire_entry a b w) else None end).
  { clear. intros l. induction l as [|w' l IH]; intros m; cbn; [by destruct (m !! w)|]. rewrite IH.
    destruct (decide (w' = w)) as [->|Hne].
    - destruct (m !! w) as [r|] eqn:E; cbn; [by rewrite E|]. rewrite lookup_insert_eq.
      by rewrite decide_True by left.
    - assert (Hm : (if is_some (m !! w') then m else <[w' := retire_entry a b w']> m) !! w = m !! w)
        by (destruct (m !! w'); cbn; [done|by rewrite lookup_insert_ne]).
      rewrite Hm. destruct (m !! w); [done|]. f_equal.
      destruct (decide (w ∈ l)); [by rewrite decide_True by (by right)|].
      rewrite decide_False; [done|]. by rewrite elem_of_cons; intros [?|?]. }
  rewrite Hgen, lookup_empty. destruct (in_retired w).
  - by rewrite decide_True by (by apply Hl).
  - by rewrite decide_False by (by rewrite Hl).
Qed.

(** The credit [x] gets: the retired totals of the writers only [y] has folded. *)
Definition credits (x y : PnCounter) (m : gmap WriterId Retired) : list Retired :=
  (filter (fun wr => already_folded y wr.1 && negb (already_folded x wr.1) = true) (map_to_list m)).*2.

Lemma settle_retired_spec m :
  settle_retired a b m =
  (filter (fun wr => in_folded wr.1 = false) m,
   foldl add_credit (0, 0) (credits a b m), foldl add_credit (0, 0) (credits b a m)).
Proof.
  unfold settle_retired, credits.
  assert (Hgen : forall l (kept : gmap WriterId Retired) cs co,
    foldl (fun '(kept, credit_self, credit_other) '(w, r) =>
      let by_self := already_folded a w in
      let by_other := already_folded b w in
      (if by_self || by_other then delete w kept else kept,
       if by_other && negb by_self then add_credit credit_self r else credit_self,
       if by_self && negb by_other then add_credit credit_other r else credit_other))
      (kept, cs, co) l =
    (foldl (fun kept w => if in_folded w then delete w kept else kept) kept l.*1,
     foldl add_credit cs (filter (fun wr => already_folded b wr.1 && negb (already_folded a wr.1) = true) l).*2,
     foldl add_credit co (filter (fun wr => already_folded a wr.1 && negb (already_folded b wr.1) = true) l).*2)).
  { intros l. induction l as [|[w r] l IH]; intros kept cs co; cbn [foldl]; [done|]. rewrite IH. unfold in_folded.
    cbn. by destruct (already_folded a w), (already_folded b w). }
  rewrite Hgen. f_equal. f_equal. apply map_eq. intros w.
  assert (Hdel : forall l (kept : gmap WriterId Retired), foldl (fun kept w => if in_folded w then delete w kept else kept) kept l !! w =
    if decide (w ∈ l /\ in_folded w = true) then None else kept !! w).
  { clear. intros l. induction l as [|w' l IH]; intros kept; cbn.
    { rewrite decide_False; [done|]. by intros [?%not_elem_of_nil _]. }
    rewrite IH. destruct (decide (w' = w)) as [->|Hne].
    - destruct (in_folded w) eqn:E; [|by rewrite !decide_False by naive_solver].
      rewrite (decide_True (P := w ∈ w :: l /\ _)) by (split; [left|done]).
      case_decide; [done|]. apply lookup_delete_eq.
    - assert (Hm : (if in_folded w' then delete w' kept else kept) !! w = kept !! w)
        by (destruct (in_folded w'); [by rewrite lookup_delete_ne|done]).
      rewrite Hm. apply decide_ext. rewrite elem_of_cons. naive_solver. }
  rewrite Hdel. destruct (m !! w) as [r|] eqn:E.
  - assert (Hin : w ∈ (map_to_list m).*1) by (apply (elem_of_map_keys m); by exists r).
    destruct (in_folded w) eqn:Ef.
    + rewrite decide_True by done. symmetry. apply map_lookup_filter_None. right. intros r' _. cbn. by rewrite Ef.
    + rewrite decide_False by naive_solver. symmetry. by apply map_lookup_filter_Some.
  - trans (None : option Retired); [by destruct (decide (_ /\ _))|]. symmetry. apply map_lookup_filter_None. by left.
Qed.

Lemma merge_retired_lookup w :
  pn_retired (pn_merge a b) !! w =
  if in_retired w && negb (in_folded w) then Some (retire_entry a b w) else None.
Proof.
  unfold pn_merge. rewrite settle_retired_spec. cbn.
  destruct (retired_union a b !! w) as [r|] eqn:E; rewrite retired_union_lookup in E;
    destruct (in_retired w) eqn:Er; try discriminate E; cbn.
  - injection E as <-. destruct (in_folded w) eqn:Ef; cbn.
    + apply map_lookup_filter_None. right. intros r _. cbn. by rewrite Ef.
    + apply map_lookup_filter_Some. by rewrite retired_union_lookup, Er.
  - apply map_lookup_filter_None. left. by rewrite retired_union_lookup, Er.
Qed.

Lemma pointwise_max_lookup m m' w : pointwise_max m m' !! w = option_max (m !! w) (m' !! w).
Proof. unfold pointwise_max. rewrite merge_entries_lookup. by destruct (m !! w), (m' !! w). Qed.

Lemma merge_slot_lookup up w :
  slot up (pn_merge a b) !! w =
  if in_retired w && negb (in_folded w) then None else option_max (slot up a !! w) (slot up b !! w).
Proof.
  assert (Hgen : forall m m', pointwise_max_excluding m m' (pn_retired (pn_merge a b)) !! w =
    if in_retired w && negb (in_folded w) then None else option_max (m !! w) (m' !! w)).
  { intros m m'. unfold pointwise_max_excluding. rewrite <-pointwise_max_lookup.
    pose proof (merge_retired_lookup w) as Hr. destruct (in_retired w && negb (in_folded w)).
    - apply map_lookup_filter_None. right. intros x _. cbn. by rewrite Hr.
    - destruct (pointwise_max m m' !! w) eqn:E.
      + by apply map_lookup_filter_Some.
      + apply map_lookup_filter_None. by left. }
  rewrite <-Hgen. unfold pn_merge. rewrite settle_retired_spec. by destruct up.
Qed.

Lemma foldl_add_credit up l : forall x,
  (if up : bool then fst else snd) (foldl add_credit x l) =
  foldl saturating_add ((if up then fst else snd) x) (rslot up <$> l).
Proof. induction l as [|r l IH]; intros x; cbn; [done|]. rewrite IH. by destruct up. Qed.

Lemma merge_folded up :
  folded up (pn_merge a b) =
  Z.max (saturating_add (folded up a) (saturating_sum (rslot up <$> credits a b (retired_union a b))))
        (saturating_add (folded up b) (saturating_sum (rslot up <$> credits b a (retired_union a b)))).
Proof.
  unfold pn_merge. rewrite settle_retired_spec. unfold saturating_sum.
  pose proof (foldl_add_credit up (credits a b (retired_union a b)) (0, 0)) as H1.
  pose proof (foldl_add_credit up (credits b a (retired_union a b)) (0, 0)) as H2.
  destruct up; cbn in *; by rewrite H1, H2.
Qed.

End MergeFacts.

(** ** Merging is a join *)

Lemma retire_entry_comm a b w : retire_entry a b w = retire_entry b a w.
Proof.
  unfold retire_entry. f_equal; [lia|lia|]. destruct (pn_retired a !! w), (pn_retired b !! w); lia.
Qed.
Lemma in_retired_comm a b w : in_retired a b w = in_retired b a w.
Proof. apply orb_comm. Qed.
Lemma in_folded_comm a b w : in_folded a b w = in_folded b a w.
Proof. apply orb_comm. Qed.
Lemma retired_union_comm a b : retired_union a b = retired_union b a.
Proof.
  apply map_eq. intros w. rewrite !retired_union_lookup, in_retired_comm, retire_entry_comm. done.
Qed.

Lemma pn_merge_comm a b : pn_merge a b = pn_merge b a.
Proof.
  apply pn_eq.
  - intros up. apply map_eq. intros w. rewrite !merge_slot_lookup, in_retired_comm, in_folded_comm.
    by rewrite option_max_comm.
  - apply map_eq. intros w. by rewrite !merge_retired_lookup, in_retired_comm, in_folded_comm, retire_entry_comm.
  - intros up. by rewrite !merge_folded, Z.max_comm, retired_union_comm.
  - unfold pn_merge. rewrite !settle_retired_spec. cbn. apply merge_entries_comm, Z.max_comm.
Qed.

Lemma in_retired_not_folded a w : is_Some (pn_retired a !! w) -> already_folded a w = false.
Proof. unfold already_folded. by intros [r ->]. Qed.

Lemma merge_folded_at a b : pn_folded_at (pn_merge a b) = merge_entries Z.max (pn_folded_at a) (pn_folded_at b).
Proof. unfold pn_merge. by rewrite settle_retired_spec. Qed.

Lemma credits_self a m : credits a a m = [].
Proof.
  unfold credits. rewrite filter_none; [done|]. intros x _. by destruct (already_folded a x.1).
Qed.

Lemma saturating_add_0 x : is_u64 x -> saturating_add x 0 = x.
Proof. unfold saturating_add. ulia. Qed.

Lemma rslot_entry up a b w :
  rslot up (retire_entry a b w) =
  Z.max (Z.max (Z.max (from_option (rslot up) 0 (pn_retired a !! w)) (from_option (rslot up) 0 (pn_retired b !! w)))
    (default 0 (slot up a !! w))) (default 0 (slot up b !! w)).
Proof. by destruct up. Qed.

Lemma retired_ext r r' : (forall up, rslot up r = rslot up r') -> ret_since_ms r = ret_since_ms r' -> r = r'.
Proof.
  intros H Hs. pose proof (H true). pose proof (H false). destruct r, r'. cbn in *. congruence.
Qed.

Lemma pn_merge_idemp a : pn_wf a -> pn_merge a a = a.
Proof.
  intros Hwf. apply pn_eq.
  - intros up. apply map_eq. intros w. rewrite merge_slot_lookup, option_max_idemp. unfold in_retired, in_folded.
    destruct (pn_retired a !! w) as [r|] eqn:Er; cbn; [|done].
    rewrite (wf_disjoint a Hwf up w) by (rewrite Er; by eexists).
    by destruct (negb _).
  - apply map_eq. intros w. rewrite merge_retired_lookup. unfold in_retired, in_folded.
    destruct (pn_retired a !! w) as [r|] eqn:Er; cbn; [|done].
    rewrite in_retired_not_folded by (rewrite Er; by eexists). cbn. f_equal. apply retired_ext.
    + intros up. rewrite rslot_entry, Er, (wf_disjoint a Hwf up w) by (rewrite Er; by eexists). cbn.
      pose proof (wf_retired a Hwf up w r Er). ulia.
    + cbn. rewrite Er. lia.
  - intros up. rewrite merge_folded, credits_self. cbn. rewrite saturating_add_0 by apply (wf_folded a Hwf). lia.
  - rewrite merge_folded_at. apply merge_entries_idemp, Z.max_id.
Qed.

Lemma saturating_sum_u64 l : Forall (Z.le 0) l -> is_u64 (saturating_sum l).
Proof. intros Hl. rewrite saturating_sum_exact by done. pose proof (sum_Z_nonneg l Hl). ulia. Qed.

Lemma opt_u64_max a b : from_option is_u64 True a -> from_option is_u64 True b -> from_option is_u64 True (option_max a b).
Proof. destruct a, b; cbn; intros; ulia. Qed.

Lemma slot_u64 up c w : pn_wf c -> from_option is_u64 True (slot up c !! w).
Proof. intros Hwf. destruct (slot up c !! w) eqn:E; [|done]. by eapply wf_slot. Qed.

Lemma retire_entry_u64 up a b w : pn_wf a -> pn_wf b -> is_u64 (rslot up (retire_entry a b w)).
Proof.
  intros Ha Hb. rewrite rslot_entry.
  assert (Hs : forall c, pn_wf c -> is_u64 (default 0 (slot up c !! w))).
  { intros c Hc. pose proof (slot_u64 up c w Hc). destruct (slot up c !! w); cbn in *; ulia. }
  assert (Hr : forall c, pn_wf c -> is_u64 (from_option (rslot up) 0 (pn_retired c !! w))).
  { intros c Hc. destruct (pn_retired c !! w) eqn:E; cbn; [by eapply wf_retired|ulia]. }
  pose proof (Hs a Ha). pose proof (Hs b Hb). pose proof (Hr a Ha). pose proof (Hr b Hb). ulia.
Qed.

Lemma credits_nonneg a b x y up : pn_wf a -> pn_wf b -> Forall (Z.le 0) (rslot up <$> credits x y (retired_union a b)).
Proof.
  intros Ha Hb. apply Forall_fmap, Forall_forall. intros r Hr. unfold credits in Hr.
  apply list_elem_of_fmap in Hr as ([w r'] & -> & [_ Hin]%list_elem_of_filter).
  apply elem_of_map_to_list in Hin. rewrite retired_union_lookup in Hin.
  destruct (in_retired a b w); [|done]. injection Hin as <-. cbn. pose proof (retire_entry_u64 up a b w Ha Hb). ulia.
Qed.

Lemma pn_merge_wf a b : pn_wf a -> pn_wf b -> pn_wf (pn_merge a b).
Proof.
  intros Ha Hb. split.
  - intros up w. rewrite merge_retired_lookup, merge_slot_lookup. destruct (_ && _); [done|]. by intros [? ?].
  - intros up w x. rewrite merge_slot_lookup. destruct (_ && _); [done|]. intros Hx.
    pose proof (opt_u64_max _ _ (slot_u64 up a w Ha) (slot_u64 up b w Hb)) as H. by rewrite Hx in H.
  - intros up w r. rewrite merge_retired_lookup. destruct (_ && _); [|done]. intros [= <-]. by apply retire_entry_u64.
  - intros up. rewrite merge_folded. pose proof (wf_folded a Ha up). pose proof (wf_folded b Hb up).
    pose proof (saturating_sum_u64 _ (credits_nonneg a b a b up Ha Hb)).
    pose proof (saturating_sum_u64 _ (credits_nonneg a b b a up Ha Hb)).
    unfold saturating_add. ulia.
Qed.

(** While nothing is retired a merge is the pointwise maximum. *)
Lemma merge_plain a b : pn_wf a -> pn_wf b -> pn_retired a = ∅ -> pn_retired b = ∅ ->
  pn_retired (pn_merge a b) = ∅ /\
  (forall up w, slot up (pn_merge a b) !! w = option_max (slot up a !! w) (slot up b !! w)) /\
  (forall up, folded up (pn_merge a b) = Z.max (folded up a) (folded up b)).
Proof.
  intros Ha Hb Ra Rb.
  assert (Hin : forall w, in_retired a b w = false) by (intros w; unfold in_retired; by rewrite Ra, Rb, lookup_empty).
  assert (Hu : retired_union a b = ∅) by (apply map_eq; intros w; by rewrite retired_union_lookup, Hin, lookup_empty).
  split_and!.
  - apply map_eq. intros w. by rewrite merge_retired_lookup, Hin, lookup_empty.
  - intros up w. by rewrite merge_slot_lookup, Hin.
  - intros up. rewrite merge_folded, Hu. unfold credits. rewrite map_to_list_empty. cbn.
    rewrite !saturating_add_0 by (by apply wf_folded). done.
Qed.

Lemma pn_merge_assoc a b c : pn_wf a -> pn_wf b -> pn_wf c ->
  pn_retired a = ∅ -> pn_retired b = ∅ -> pn_retired c = ∅ ->
  pn_merge a (pn_merge b c) = pn_merge (pn_merge a b) c.
Proof.
  intros Ha Hb Hc Ra Rb Rc.
  destruct (merge_plain a b Ha Hb Ra Rb) as (R1 & S1 & F1). destruct (merge_plain b c Hb Hc Rb Rc) as (R2 & S2 & F2).
  destruct (merge_plain a (pn_merge b c)) as (R3 & S3 & F3); try done; [by apply pn_merge_wf|].
  destruct (merge_plain (pn_merge a b) c) as (R4 & S4 & F4); try done; [by apply pn_merge_wf|].
  apply pn_eq.
  - intros up. apply map_eq. intros w. by rewrite S3, S4, S1, S2, option_max_assoc.
  - congruence.
  - intros up. rewrite F3, F4, F1, F2. lia.
  - rewrite !merge_folded_at. apply merge_entries_assoc. lia.
Qed.

(** Merging counters is a join. It does not matter which side merges which, merging a
    counter with itself changes nothing, no writer ends up both live and retired, the totals
    stay in range; and while no writer is retired the grouping does not matter either. *)
Theorem counter_merge_is_a_join (a b c : PnCounter) (Ha : pn_wf a) (Hb : pn_wf b) (Hc : pn_wf c) :
  pn_merge a b = pn_merge b a /\ pn_merge a a = a /\ pn_wf (pn_merge a b) /\
  (pn_retired a = ∅ -> pn_retired b = ∅ -> pn_retired c = ∅ ->
   pn_merge a (pn_merge b c) = pn_merge (pn_merge a b) c).
Proof.
  split_and!; [apply pn_merge_comm|by apply pn_merge_idemp|by apply pn_merge_wf|by apply pn_merge_assoc].
Qed.

(** ** Deliveries *)

(** A writer's blind write: its new cumulative total in one direction. *)
Record Delta := { d_writer : WriterId; d_up : bool; d_total : Z }.

#[export] Instance Delta_eq_dec : EqDecision Delta.
Proof. solve_decision. Defined.

Definition delta_counter (d : Delta) : PnCounter :=
  if d_up d then local_delta (d_writer d) (d_total d) else local_decrement (d_writer d) (d_total d).

(** What a replica holds after merging these writes in this order. *)
Definition deliver (ds : list Delta) : PnCounter := foldl (fun c d => pn_merge c (delta_counter d)) pn_default ds.

(** The largest cumulative total delivered for a writer, which is its last one. *)
Definition delta_at (up : bool) (w : WriterId) (d : Delta) : option Z :=
  if decide (d_writer d = w /\ d_up d = up) then Some (d_total d) else None.
Definition latest (up : bool) (w : WriterId) (ds : list Delta) : option Z :=
  foldl (fun acc d => option_max acc (delta_at up w d)) None ds.

Lemma delta_slot up w d : slot up (delta_counter d) !! w = delta_at up w d.
Proof.
  unfold delta_counter, delta_at. destruct d as [w' [] x], up;
    cbn [slot d_up d_writer d_total local_delta local_decrement pn_p pn_n];
    try (rewrite decide_False by (by intros []); apply lookup_empty).
  all: destruct (decide (w' = w)) as [->|Hne];
    [rewrite lookup_singleton_eq|rewrite lookup_singleton_ne by done]; by case_decide; naive_solver.
Qed.
Lemma delta_retired d : pn_retired (delta_counter d) = ∅.
Proof. unfold delta_counter. by destruct (d_up d). Qed.
Lemma delta_wf d : is_u64 (d_total d) -> pn_wf (delta_counter d).
Proof. apply (local_wf (d_up d)). Qed.

Lemma deliver_spec ds : Forall (fun d => is_u64 (d_total d)) ds ->
  pn_wf (deliver ds) /\ pn_retired (deliver ds) = ∅ /\ (forall up w, slot up (deliver ds) !! w = latest up w ds) /\
  (forall up, folded up (deliver ds) = 0) /\ pn_folded_at (deliver ds) = ∅.
Proof.
  unfold deliver, latest. induction ds as [|d ds IH] using rev_ind; intros Hds.
  { split_and!; [apply pn_default_wf|done|by intros []|by intros []|done]. }
  apply Forall_app in Hds as [Hds Hd]. rewrite Forall_singleton in Hd. specialize (IH Hds) as (H1 & H2 & H3 & H4 & H5).
  setoid_rewrite foldl_app. cbn [foldl]. set (c := foldl _ pn_default ds) in *. clearbody c.
  destruct (merge_plain c (delta_counter d)) as (R & S & F); [done|apply delta_wf, Hd|done|apply delta_retired|].
  split_and!; [apply pn_merge_wf; [done|apply delta_wf, Hd]|done| | |].
  - intros up w. by rewrite S, H3, delta_slot.
  - intros up. rewrite F, H4. unfold delta_counter. by destruct up, (d_up d).
  - rewrite merge_folded_at, H5. unfold delta_counter. by destruct (d_up d).
Qed.

Lemma latest_acc up w ds : forall acc,
  foldl (fun acc d => option_max acc (delta_at up w d)) acc ds = option_max acc (latest up w ds).
Proof.
  unfold latest. induction ds as [|d ds IH]; intros acc; cbn [foldl]; [by destruct acc|].
  rewrite IH, (IH (option_max None _)), option_max_assoc. by destruct acc.
Qed.
Lemma latest_app up w ds ds' : latest up w (ds ++ ds') = option_max (latest up w ds) (latest up w ds').
Proof. unfold latest at 1. rewrite foldl_app. apply latest_acc. Qed.

Lemma latest_spec up w ds x : latest up w ds = Some x <->
  (exists d, d ∈ ds /\ delta_at up w d = Some x) /\ forall d y, d ∈ ds -> delta_at up w d = Some y -> y <= x.
Proof.
  revert x. induction ds as [|d ds IH] using rev_ind; intros x.
  { split; [done|]. by intros [(d & ?%not_elem_of_nil & _) _]. }
  rewrite latest_app. setoid_rewrite elem_of_app. setoid_rewrite list_elem_of_singleton.
  assert (Hnone : latest up w ds = None -> forall d y, d ∈ ds -> delta_at up w d <> Some y).
  { clear. induction ds as [|e ds IH] using rev_ind; [by intros _ d y ?%not_elem_of_nil|].
    rewrite latest_app. unfold latest at 2. cbn. destruct (latest up w ds), (delta_at up w e) eqn:E; cbn; try done.
    intros _ d y [Hd|Hd]%elem_of_app; [by apply IH|]. apply list_elem_of_singleton in Hd. congruence. }
  unfold latest at 2. cbn [foldl option_max]. destruct (latest up w ds) as [m|] eqn:El.
  - pose proof (proj1 (IH m) eq_refl) as [(d0 & Hd0 & Hm0) Hmax].
    destruct (delta_at up w d) as [z|] eqn:Ez; cbn; split.
    + intros [= <-]. split.
      * destruct (Z.max_spec m z) as [[_ ->]|[_ ->]]; eauto.
      * intros e y [He| ->] Hy; [specialize (Hmax e y He Hy); lia|]. rewrite Ez in Hy. injection Hy. lia.
    + intros [(e & He & Hx) Hm]. f_equal. pose proof (Hm d0 m (or_introl Hd0) Hm0). pose proof (Hm d z (or_intror eq_refl) Ez).
      destruct He as [He| ->]; [specialize (Hmax e x He Hx); lia|]. rewrite Ez in Hx. injection Hx. lia.
    + intros [= <-]. split; [by eauto|]. intros e y [He| ->] Hy; [by apply (Hmax e)|congruence].
    + intros [(e & [He| ->] & Hx) Hm]; [|congruence]. f_equal. specialize (Hmax e x He Hx).
      pose proof (Hm d0 m (or_introl Hd0) Hm0). lia.
  - specialize (Hnone eq_refl). cbn. destruct (delta_at up w d) as [z|] eqn:Ez; split.
    + intros [= <-]. split; [by eauto|]. intros e y [He| ->] Hy; [by destruct (Hnone e y He)|]. rewrite Ez in Hy. injection Hy. lia.
    + intros [(e & [He| ->] & Hx) _]; [by destruct (Hnone e x He)|congruence].
    + done.
    + intros [(e & [He| ->] & Hx) _]; [by destruct (Hnone e x He)|congruence].
Qed.

Lemma latest_ext up w ds ds' : (forall d, d ∈ ds <-> d ∈ ds') -> latest up w ds = latest up w ds'.
Proof.
  intros Heq. apply option_eq. intros x. rewrite !latest_spec. by setoid_rewrite Heq.
Qed.

(** A counter's value is exact however its writes travel. A replica that merged a set of
    blind writes, in any order and any number of times each, holds the same counter; replicas
    that merged different writes and then each other hold the counter of all of them; and its
    value is the sum over the writers of their last increment totals minus that of their
    decrement totals, as long as each sum fits. *)
Theorem counter_value_is_exact (ds : list Delta) (ws : list WriterId)
    (Hds : Forall (fun d => is_u64 (d_total d)) ds) (Hnd : NoDup ws) (Hws : forall d, d ∈ ds -> d_writer d ∈ ws) :
  let sum up := sum_Z ((fun w => default 0 (latest up w ds)) <$> ws) in
  (sum true <= u64_max -> sum false <= u64_max -> pn_value (deliver ds) = sum true - sum false) /\
  (forall ds', (forall d, d ∈ ds <-> d ∈ ds') -> deliver ds' = deliver ds) /\
  (forall ds', Forall (fun d => is_u64 (d_total d)) ds' ->
     pn_merge (deliver ds) (deliver ds') = deliver (ds ++ ds')).
Proof.
  intros sum. pose proof (deliver_spec ds Hds) as (H1 & H2 & H3 & H4 & H5).
  assert (Hext : forall ds' c, Forall (fun d => is_u64 (d_total d)) ds' -> pn_retired c = ∅ -> pn_folded_at c = ∅ ->
    (forall up w, slot up c !! w = latest up w ds') -> (forall up, folded up c = 0) -> c = deliver ds').
  { intros ds' c Hds' R A S F. destruct (deliver_spec ds' Hds') as (_ & R' & S' & F' & A').
    apply pn_eq; [|congruence|intros up; by rewrite F, F'|congruence].
    intros up. apply map_eq. intros w. by rewrite S, S'. }
  split_and!.
  - intros Ht Hf. rewrite (pn_value_total ws); [|done|done|].
    + assert (Hs : forall up, total ws up (deliver ds) = sum up).
      { intros up. unfold total, sum. rewrite H4, Z.add_0_r. apply sum_Z_fmap_ext. intros w _.
        unfold contrib. rewrite H2, H3, lookup_empty. cbn. lia. }
      rewrite !Hs. lia.
    + intros w [[up [x Hx]]|Hr]; [|rewrite H2, lookup_empty in Hr; by destruct Hr].
      rewrite H3 in Hx. apply latest_spec in Hx as [(d & Hd & Hx) _]. unfold delta_at in Hx.
      case_decide as E; [|done]. destruct E as [<- _]. by apply Hws.
  - intros ds' Heq. assert (Hds' : Forall (fun d => is_u64 (d_total d)) ds')
      by (apply Forall_forall; intros d Hd; rewrite Forall_forall in Hds; by apply Hds, Heq).
    destruct (deliver_spec ds' Hds') as (_ & R & S & F & A). apply Hext; try done.
    intros up w. rewrite S. symmetry. by apply latest_ext.
  - intros ds' Hds'. destruct (deliver_spec ds' Hds') as (W & R & S & F & A).
    destruct (merge_plain _ _ H1 W H2 R) as (R' & S' & F'). apply Hext.
    + by apply Forall_app.
    + done.
    + by rewrite merge_folded_at, H5, A.
    + intros up w. by rewrite S', H3, S, latest_app.
    + intros up. by rewrite F', H4, F.
Qed.

(** ** Compaction *)

Definition is_live (c : PnCounter) (w : WriterId) : bool := is_some (pn_p c !! w) || is_some (pn_n c !! w).

Lemma not_live up c w : is_live c w = false -> slot up c !! w = None.
Proof. unfold is_live, slot. destruct up, (pn_p c !! w), (pn_n c !! w); done. Qed.
Lemma slot_live up c w : is_Some (slot up c !! w) -> is_live c w = true.
Proof. intros [x Hx]. destruct (is_live c w) eqn:E; [done|]. by rewrite (not_live up c w E) in Hx. Qed.

Lemma decide_cons_ne {A} (x y : A) (w w' : WriterId) l : w <> w' ->
  (if decide (w ∈ w' :: l) then x else y) = if decide (w ∈ l) then x else y.
Proof. intros Hne. apply decide_ext. rewrite elem_of_cons. naive_solver. Qed.

(** What stage one retires. *)
Definition retires (retire : WriterId -> bool) (c : PnCounter) (w : WriterId) : bool := retire w && is_live c w.

Lemma retire_stage_spec c now retire : let out := (retire_stage c now retire).1 in
  let R := retires retire c in
  (forall up w, slot up out !! w = if R w then None else slot up c !! w) /\
  (forall w, pn_retired out !! w = if R w then
     Some {| ret_p := default 0 (pn_p c !! w); ret_n := default 0 (pn_n c !! w); ret_since_ms := now |}
     else pn_retired c !! w) /\
  (forall up, folded up out = folded up c) /\ pn_folded_at out = pn_folded_at c.
Proof.
  cbv zeta. unfold retire_stage, retires. cbn [fst]. set (l := filter _ _).
  assert (Hl : forall w, w ∈ l <-> retire w && is_live c w = true).
  { intros w. unfold l. rewrite list_elem_of_filter, elem_of_elements, elem_of_list_to_set, elem_of_app, !elem_of_map_keys.
    unfold is_live. rewrite !is_Some_alt. destruct (retire w), (pn_p c !! w), (pn_n c !! w); cbn; naive_solver. }
  assert (Hnd : NoDup l) by (apply NoDup_filter, NoDup_elements). clearbody l.
  assert (Hgen : forall c0, let out := foldl (retire_writer now) c0 l in
    (forall up w, slot up out !! w = if decide (w ∈ l) then None else slot up c0 !! w) /\
    (forall w, pn_retired out !! w = if decide (w ∈ l) then
       Some {| ret_p := default 0 (pn_p c0 !! w); ret_n := default 0 (pn_n c0 !! w); ret_since_ms := now |}
       else pn_retired c0 !! w) /\
    (forall up, folded up out = folded up c0) /\ pn_folded_at out = pn_folded_at c0).
  { clear Hl. induction l as [|w' l IH]; intros c0; cbn [foldl]; cbv zeta.
    { split_and!; [intros up w|intros w|done|done]; rewrite decide_False by apply not_elem_of_nil; done. }
    apply NoDup_cons in Hnd as [Hni Hnd]. destruct (IH Hnd (retire_writer now c0 w')) as (H1 & H2 & H3 & H4).
    split_and!.
    - intros up w. rewrite H1. destruct (decide (w = w')) as [->|Hne].
      + rewrite (decide_False (P := w' ∈ l)), (decide_True (P := w' ∈ w' :: l)) by (done || left).
        destruct up; cbn; apply lookup_delete_eq.
      + rewrite decide_cons_ne by done. case_decide; [done|].
        destruct up; cbn; by rewrite lookup_delete_ne.
    - intros w. rewrite H2. destruct (decide (w = w')) as [->|Hne].
      + rewrite (decide_False (P := w' ∈ l)), (decide_True (P := w' ∈ w' :: l)) by (done || left).
        cbn. by rewrite lookup_insert_eq.
      + rewrite decide_cons_ne by done.
        cbn. by rewrite !lookup_delete_ne, lookup_insert_ne.
    - intros up. rewrite H3. by destruct up.
    - by rewrite H4. }
  destruct (Hgen c) as (H1 & H2 & H3 & H4). split_and!; [| |done|done].
  - intros up w. rewrite H1. destruct (retire w && is_live c w) eqn:E;
      [by rewrite decide_True by (by apply Hl)|rewrite decide_False; [done|]]. rewrite Hl. congruence.
  - intros w. rewrite H2. destruct (retire w && is_live c w) eqn:E;
      [by rewrite decide_True by (by apply Hl)|rewrite decide_False; [done|]]. rewrite Hl. congruence.
Qed.

(** Whether stage two folds a retired entry, and a writer's. *)
Definition is_aged (now db : Z) (r : Retired) : bool := db <? saturating_sub now (ret_since_ms r).
Definition aged (now db : Z) (c : PnCounter) (w : WriterId) : bool := is_some_and (pn_retired c !! w) (is_aged now db).

Lemma prune_receipts_spec c now ttl c' : pn_prune_receipts c now ttl = Some c' ->
  c' = with_folded_at c (filter (fun wt => receipt_expired now wt.2 ttl = false) (pn_folded_at c)).
Proof. unfold pn_prune_receipts. destruct (existsb _ _); [|done]. by intros [= <-]. Qed.

Lemma fold_writers_spec now db l : forall c aged_any,
  let out := (foldl (fold_writer now db) (c, aged_any) l).1 in
  let F w := existsb (fun wr => bool_decide (wr.1 = w) && is_aged now db wr.2) l in
  (forall up, slot up out = slot up c) /\
  (forall w, pn_retired out !! w = if F w then None else pn_retired c !! w) /\
  (forall up, folded up out =
     foldl saturating_add (folded up c) (rslot up <$> (filter (fun wr => is_aged now db wr.2 = true) l).*2)) /\
  (forall w, F w = true \/ is_Some (pn_folded_at c !! w) -> is_Some (pn_folded_at out !! w)).
Proof.
  cbv zeta. induction l as [|[w' r'] l IH]; intros c aged_any.
  { split_and!; try done. by intros w [?|?]. }
  cbn [foldl existsb fst snd]. destruct (fold_writer now db (c, aged_any) (w', r')) as [c1 aa1] eqn:Hst.
  unfold fold_writer in Hst. fold (is_aged now db r') in Hst.
  destruct (is_aged now db r') eqn:Ea; injection Hst as <- <-.
  - edestruct IH as (H1 & H2 & H3 & H4). split_and!.
    + intros up. rewrite H1. by destruct up.
    + intros w. rewrite H2. cbn. destruct (decide (w' = w)) as [->|Hne].
      * rewrite bool_decide_eq_true_2, lookup_delete_eq by done. cbn. by destruct (existsb _ _).
      * by rewrite bool_decide_eq_false_2, lookup_delete_ne by done.
    + intros up. rewrite H3. rewrite filter_cons_True by done. by destruct up.
    + intros w Hw. apply H4. cbn. destruct (decide (w' = w)) as [->|Hne].
      * right. rewrite lookup_partial_alter_eq. by eexists.
      * rewrite bool_decide_eq_false_2 in Hw by done. cbn in Hw. by rewrite lookup_partial_alter_ne.
  - edestruct IH as (H1 & H2 & H3 & H4). split_and!.
    + intros up. apply H1.
    + intros w. rewrite H2. by rewrite andb_false_r.
    + intros up. rewrite H3. rewrite filter_cons_False by (cbn; congruence). done.
    + intros w Hw. apply H4. by rewrite andb_false_r in Hw.
Qed.

Lemma sum_filter (f : Retired -> Z) (P : WriterId * Retired -> bool) l :
  sum_Z (f <$> (filter (fun wr => P wr = true) l).*2) = sum_Z ((fun wr => if P wr then f wr.2 else 0) <$> l).
Proof.
  induction l as [|wr l IH]; [done|]. rewrite fmap_cons, sum_Z_cons, <-IH, filter_cons.
  destruct (P wr).
  - rewrite decide_True, !fmap_cons, sum_Z_cons by done. done.
  - rewrite decide_False by done. lia.
Qed.

Lemma aged_existsb now db c w :
  existsb (fun wr => bool_decide (wr.1 = w) && is_aged now db wr.2) (map_to_list (pn_retired c)) = aged now db c w.
Proof.
  apply eq_bool_prop_intro. rewrite !Is_true_true, existsb_exists. unfold aged. split.
  - intros ([w' r] & Hin & [Hw Ha]%andb_true_iff). apply bool_decide_eq_true in Hw. cbn in Hw, Ha. subst w'.
    apply list_elem_of_In, elem_of_map_to_list in Hin. by rewrite Hin.
  - destruct (pn_retired c !! w) as [r|] eqn:E; [|done]. cbn. intros Ha. exists (w, r). cbn.
    rewrite bool_decide_eq_true_2, Ha by done. split; [|done]. by apply list_elem_of_In, elem_of_map_to_list.
Qed.

Lemma fold_stage_spec c now bounds ks : pn_wf c -> NoDup ks -> covers ks c ->
  let out := (fold_stage c now bounds).1 in
  let F := aged now (saturating_mul (retire_after_ms bounds) 2) c in
  (forall up, slot up out = slot up c) /\
  (forall w, pn_retired out !! w = if F w then None else pn_retired c !! w) /\
  (forall up, folded up out = Z.min (folded up c +
     sum_Z ((fun w => if F w then from_option (rslot up) 0 (pn_retired c !! w) else 0) <$> ks)) u64_max) /\
  (forall w, F w = true -> is_Some (pn_folded_at out !! w)).
Proof.
  intros Hwf Hnd Hc. cbv zeta. unfold fold_stage. set (db := saturating_mul _ _).
  assert (Hp : exists c1 aa, (match pn_prune_receipts c now (receipt_ttl_ms bounds) with
      | Some pruned => (pruned, true) | None => (c, false) end) = (c1, aa) /\
    (forall up, slot up c1 = slot up c) /\ pn_retired c1 = pn_retired c /\ forall up, folded up c1 = folded up c).
  { destruct (pn_prune_receipts _ _ _) as [c1|] eqn:E; [|by eauto 10].
    apply prune_receipts_spec in E as ->. eexists _, _. split; [done|]. split_and!; [by intros []|done|by intros []]. }
  destruct Hp as (c1 & aa & -> & P1 & P2 & P3).
  destruct (fold_writers_spec now db (map_to_list (pn_retired c1)) c1 aa) as (H1 & H2 & H3 & H4).
  assert (HF : forall w, existsb (fun wr => bool_decide (wr.1 = w) && is_aged now db wr.2) (map_to_list (pn_retired c1))
    = aged now db c w) by (intros w; rewrite aged_existsb; unfold aged; by rewrite P2).
  split_and!.
  - intros up. by rewrite H1, P1.
  - intros w. by rewrite H2, HF, P2.
  - intros up. rewrite H3, P3, P2. rewrite saturating_fold.
    + rewrite (sum_filter _ (fun wr => is_aged now db wr.2)).
      rewrite (sum_over_keys (fun _ r => if is_aged now db r then rslot up r else 0)) with (ks := ks); [|done|].
      * f_equal. f_equal. apply sum_Z_fmap_ext. intros w _. unfold aged. by destruct (pn_retired c !! w).
      * intros w Hw. apply Hc. by right.
    + apply Forall_fmap, Forall_forall. intros r ([w r'] & -> & [_ Hin%elem_of_map_to_list]%list_elem_of_filter)%list_elem_of_fmap.
      cbn. pose proof (wf_retired c Hwf up w r' Hin). ulia.
    + apply (wf_folded c Hwf).
  - intros w Hw. apply H4. left. by rewrite HF.
Qed.

(** [a] is [base] with the writers of [R] retired and the retired writers of [F] folded. *)
Record compacts (base a : PnCounter) (R F : WriterId -> bool) : Prop := {
  cp_live w : R w = true -> is_live base w = true;
  cp_old w : F w = true -> is_Some (pn_retired base !! w);
  cp_slot up w : slot up a !! w = if R w then None else slot up base !! w;
  cp_retires w : R w = true ->
    exists r, pn_retired a !! w = Some r /\ forall up, rslot up r = default 0 (slot up base !! w);
  cp_retired w : R w = false -> pn_retired a !! w = if F w then None else pn_retired base !! w;
  cp_folded ks up : NoDup ks -> covers ks base -> folded up a = Z.min (folded up base +
    sum_Z ((fun w => if F w then from_option (rslot up) 0 (pn_retired base !! w) else 0) <$> ks)) u64_max;
  cp_receipt w : F w = true -> is_Some (pn_folded_at a !! w);
}.

Lemma sum_zero (ks : list WriterId) : sum_Z ((fun _ => 0) <$> ks) = 0.
Proof. induction ks as [|w ks IH]; [done|]. by rewrite fmap_cons, sum_Z_cons, IH. Qed.

Lemma compacts_refl c : pn_wf c -> compacts c c (fun _ => false) (fun _ => false).
Proof.
  intros Hwf. split; try done. intros ks up _ _. rewrite sum_zero. pose proof (wf_folded c Hwf up). ulia.
Qed.

Section Compacted.
Context (base a : PnCounter) (R F : WriterId -> bool).
Context (Hbase : pn_wf base) (Hc : compacts base a R F).

Lemma old_not_live w : F w = true -> is_live base w = false.
Proof.
  intros HF. apply (cp_old _ _ _ _ Hc) in HF. unfold is_live.
  pose proof (wf_disjoint base Hbase true w HF). pose proof (wf_disjoint base Hbase false w HF). cbn in *.
  by rewrite H, H0.
Qed.

Lemma compacts_covers ks : covers ks base -> covers ks a.
Proof.
  intros Hk w Hw. apply Hk. destruct Hw as [[up Hs]|Hr].
  - left. exists up. rewrite (cp_slot _ _ _ _ Hc) in Hs. destruct (R w); [by destruct Hs|done].
  - destruct (R w) eqn:ER.
    + left. apply (cp_live _ _ _ _ Hc) in ER. unfold is_live in ER.
      destruct (pn_p base !! w) eqn:E1; [exists true|exists false]; cbn.
      * rewrite E1. by eexists.
      * destruct (pn_n base !! w); [by eexists|done].
    + right. rewrite (cp_retired _ _ _ _ Hc) in Hr by done. destruct (F w); [by destruct Hr|done].
Qed.

Lemma compacts_wf : pn_wf a.
Proof.
  split.
  - intros up w Hr. rewrite (cp_slot _ _ _ _ Hc). destruct (R w) eqn:ER; [done|].
    rewrite (cp_retired _ _ _ _ Hc) in Hr by done. destruct (F w); [by destruct Hr|]. by apply (wf_disjoint base Hbase).
  - intros up w x. rewrite (cp_slot _ _ _ _ Hc). destruct (R w); [done|]. by apply (wf_slot base Hbase).
  - intros up w r. destruct (R w) eqn:ER.
    + destruct (cp_retires _ _ _ _ Hc w ER) as (r' & -> & Hr'). intros [= <-]. rewrite Hr'.
      pose proof (slot_u64 up base w Hbase). destruct (slot up base !! w); cbn in *; ulia.
    + rewrite (cp_retired _ _ _ _ Hc) by done. destruct (F w); [done|]. by apply (wf_retired base Hbase).
  - intros up. rewrite (cp_folded _ _ _ _ Hc (remove_dups (writers base))).
    + pose proof (wf_folded base Hbase up). set (l := _ <$> _).
      assert (Hl : Forall (Z.le 0) l).
      { apply Forall_fmap, Forall_forall. intros w _. cbn. destruct (F w), (pn_retired base !! w) eqn:E; cbn; try lia.
        pose proof (wf_retired base Hbase up w _ E). ulia. }
      pose proof (sum_Z_nonneg l Hl). ulia.
    + apply NoDup_remove_dups.
    + apply writers_cover. intros w. by rewrite elem_of_remove_dups.
Qed.

(** Among the writers the base knows, the ones the copy says it folded are those of [F]. *)
Lemma compacts_folded w : is_live base w = true \/ is_Some (pn_retired base !! w) -> already_folded a w = F w.
Proof.
  intros Hk. unfold already_folded. pose proof (cp_slot _ _ _ _ Hc true w) as Hp. pose proof (cp_slot _ _ _ _ Hc false w) as Hn.
  cbn in Hp, Hn. destruct (R w) eqn:ER.
  - destruct (cp_retires _ _ _ _ Hc w ER) as (r & -> & _). cbn. destruct (F w) eqn:EF; [|done].
    apply old_not_live in EF. pose proof (cp_live _ _ _ _ Hc w ER). congruence.
  - rewrite Hp, Hn, (cp_retired _ _ _ _ Hc) by done. destruct (F w) eqn:EF.
    + apply old_not_live in EF as Hl. unfold is_live in Hl. apply orb_false_iff in Hl as [-> ->].
      destruct (cp_receipt _ _ _ _ Hc w EF) as [t ->]. done.
    + destruct Hk as [Hl|[r ->]]; [|done]. unfold is_live in Hl.
      destruct (pn_retired base !! w); [done|]. by destruct (pn_p base !! w), (pn_n base !! w).
Qed.

End Compacted.

Lemma compacts_ext base a R F R' F' : (forall w, R w = R' w) -> (forall w, F w = F' w) ->
  compacts base a R F -> compacts base a R' F'.
Proof.
  intros HR HF Hc. split.
  - intros w. rewrite <-HR. apply Hc.
  - intros w. rewrite <-HF. apply Hc.
  - intros up w. rewrite <-HR. apply Hc.
  - intros w. rewrite <-HR. apply Hc.
  - intros w. rewrite <-HR, <-HF. apply Hc.
  - intros ks up Hnd Hk. rewrite (cp_folded _ _ _ _ Hc ks up Hnd Hk). f_equal. f_equal.
    apply sum_Z_fmap_ext. intros w _. by rewrite HF.
  - intros w. rewrite <-HF. apply Hc.
Qed.

Lemma compacts_retire base now retire : pn_wf base ->
  compacts base (retire_stage base now retire).1 (retires retire base) (fun _ => false).
Proof.
  intros Hwf. destruct (retire_stage_spec base now retire) as (S1 & S2 & S3 & S4). split; try done.
  - intros w. unfold retires. by intros [_ ?]%andb_true_iff.
  - intros w HR. rewrite S2, HR. eexists. split; [done|]. by intros [].
  - intros w HR. by rewrite S2, HR.
  - intros ks up _ _. rewrite sum_zero, S3. pose proof (wf_folded base Hwf up). ulia.
Qed.

(** Nothing just retired is old enough to fold. *)
Lemma aged_retire base now retire db w : pn_wf base -> 0 <= db ->
  aged now db (retire_stage base now retire).1 w = aged now db base w.
Proof.
  intros Hwf Hb. destruct (retire_stage_spec base now retire) as (_ & S2 & _). unfold aged. rewrite S2.
  destruct (retires retire base w) eqn:ER; [|done]. apply andb_true_iff in ER as [_ Hl]. cbn.
  destruct (pn_retired base !! w) as [r|] eqn:Er.
  - unfold is_live in Hl. pose proof (wf_disjoint base Hwf true w) as H1. pose proof (wf_disjoint base Hwf false w) as H2.
    cbn in H1, H2. rewrite Er in *. by rewrite H1, H2 in Hl by (by eexists).
  - cbn. unfold is_aged. cbn. apply Z.ltb_ge. unfold saturating_sub. ulia.
Qed.

(** What one sweep folds. *)
Definition folds (now : Z) (quiet : Quiescence) (bounds : CompactionBounds) (c : PnCounter) (w : WriterId) : bool :=
  is_settled quiet && aged now (saturating_mul (retire_after_ms bounds) 2) c w.

Lemma pn_compact_eq c now retire quiet bounds c' : pn_compact c now retire quiet bounds = Some c' ->
  c' = if is_settled quiet then (fold_stage (retire_stage c now retire).1 now bounds).1 else (retire_stage c now retire).1.
Proof.
  unfold pn_compact. destruct (retire_stage c now retire) as [c1 ch1]. cbn [fst]. destruct (is_settled quiet).
  - destruct (fold_stage c1 now bounds). destruct (ch1 || b); [|done]. by intros [= <-].
  - destruct ch1; [|done]. by intros [= <-].
Qed.

Lemma compacts_compact base now retire quiet bounds a : pn_wf base -> 0 <= retire_after_ms bounds ->
  pn_compact base now retire quiet bounds = Some a ->
  compacts base a (retires retire base) (folds now quiet bounds base) /\
  forall w r, retires retire base w = true -> pn_retired a !! w = Some r -> ret_since_ms r = now.
Proof.
  intros Hwf Hb Hc. apply pn_compact_eq in Hc. pose proof (compacts_retire base now retire Hwf) as H1.
  pose proof (fun db w => aged_retire base now retire db w Hwf) as Hag.
  destruct (retire_stage_spec base now retire) as (_ & S2 & S3 & _). set (c1 := (retire_stage base now retire).1) in *.
  set (R := retires retire base) in *.
  assert (Hsince : forall w r, R w = true -> pn_retired c1 !! w = Some r -> ret_since_ms r = now).
  { intros w r HR. rewrite S2, HR. by intros [= <-]. }
  unfold folds. destruct (is_settled quiet); [|by subst]. cbn [andb].
  set (db := saturating_mul (retire_after_ms bounds) 2). assert (Hdb : 0 <= db) by (unfold db, saturating_mul; ulia).
  pose proof (compacts_wf _ _ _ _ Hwf H1) as Hwf1.
  assert (Hspec : forall ks, NoDup ks -> covers ks base -> _ ) by
    (intros ks Hnd Hk; exact (fold_stage_spec c1 now bounds ks Hwf1 Hnd (compacts_covers _ _ _ _ H1 ks Hk))).
  cbv zeta in Hspec. rewrite <-Hc in Hspec. fold db in Hspec.
  assert (Hcov : covers (remove_dups (writers base)) base).
  { apply writers_cover. intros w. by rewrite elem_of_remove_dups. }
  destruct (Hspec _ (NoDup_remove_dups _) Hcov) as (T1 & T2 & _ & T4). split.
  { apply (compacts_ext _ _ R (aged now db c1)); [done|intros w; by apply Hag|].
    assert (HRF : forall w, R w = true -> aged now db c1 w = false).
    { intros w HR. unfold aged. destruct (pn_retired c1 !! w) as [r|] eqn:Er; [|done]. cbn. unfold is_aged.
      rewrite (Hsince w r HR Er). apply Z.ltb_ge. unfold saturating_sub. ulia. }
    assert (HF : forall w, aged now db c1 w = true -> R w = false /\ is_Some (pn_retired base !! w)).
    { intros w HF. destruct (R w) eqn:ER; [by rewrite HRF in HF|]. split; [done|].
      rewrite Hag in HF by done. unfold aged in HF. by destruct (pn_retired base !! w). }
    split.
    - apply (cp_live _ _ _ _ H1).
    - intros w Hw. by apply HF.
    - intros up w. by rewrite T1, (cp_slot _ _ _ _ H1).
    - intros w HR. rewrite T2, HRF by done. by apply (cp_retires _ _ _ _ H1).
    - intros w HR. rewrite T2. destruct (aged now db c1 w); [done|]. by apply (cp_retired _ _ _ _ H1).
    - intros ks up Hnd Hk. destruct (Hspec ks Hnd Hk) as (_ & _ & T3 & _). rewrite T3, S3. f_equal. f_equal.
      apply sum_Z_fmap_ext. intros w _. destruct (aged now db c1 w) eqn:EF; [|done]. f_equal.
      rewrite S2. by rewrite (proj1 (HF w EF)).
    - done. }
  intros w r HR. rewrite T2. destruct (aged now db c1 w); [done|]. by apply Hsince.
Qed.


(** ** Replicas that compact on their own *)

Section Apart.
Context (base a b : PnCounter) (Ra Fa Rb Fb : WriterId -> bool).
Context (Hbase : pn_wf base) (Ha : compacts base a Ra Fa) (Hb : compacts base b Rb Fb).

Abbreviation known w := (is_live base w = true \/ is_Some (pn_retired base !! w)).

Lemma apart_in_retired w : in_retired a b w = true -> known w.
Proof.
  intros Hr. unfold in_retired in Hr.
  assert (Hone : forall c R F, compacts base c R F -> is_some (pn_retired c !! w) = true -> known w).
  { intros c R F Hc Hs. destruct (R w) eqn:ER; [left; by apply (cp_live _ _ _ _ Hc)|].
    rewrite (cp_retired _ _ _ _ Hc) in Hs by done. destruct (F w); [done|]. right.
    destruct (pn_retired base !! w); [by eexists|done]. }
  apply orb_true_iff in Hr as [Hr|Hr]; eauto.
Qed.

(** A writer's retired entry in the merge carries its total in the base. *)
Lemma apart_entry up w : in_retired a b w = true ->
  rslot up (retire_entry a b w) = contrib up base w.
Proof.
  intros Hr. pose proof (apart_in_retired w Hr) as Hk. rewrite rslot_entry.
  rewrite (cp_slot _ _ _ _ Ha), (cp_slot _ _ _ _ Hb). unfold contrib.
  assert (Hs : 0 <= default 0 (slot up base !! w)).
  { pose proof (slot_u64 up base w Hbase). destruct (slot up base !! w); cbn in *; ulia. }
  destruct (pn_retired base !! w) as [r|] eqn:Er.
  - assert (Hl : is_live base w = false).
    { unfold is_live. pose proof (wf_disjoint base Hbase true w) as H1. pose proof (wf_disjoint base Hbase false w) as H2.
      cbn in H1, H2. rewrite Er in *. rewrite H1, H2 by (by eexists). done. }
    assert (HR : Ra w = false /\ Rb w = false).
    { split; [destruct (Ra w) eqn:E; [apply (cp_live _ _ _ _ Ha) in E|]|
              destruct (Rb w) eqn:E; [apply (cp_live _ _ _ _ Hb) in E|]]; congruence. }
    destruct HR as [H1 H2]. pose proof (wf_retired base Hbase up w r Er) as Hu.
    unfold in_retired in Hr. rewrite (cp_retired _ _ _ _ Ha), (cp_retired _ _ _ _ Hb) in Hr |- * by done.
    rewrite Er in *. rewrite (not_live up base w Hl), H1, H2. cbn. destruct (Fa w), (Fb w); cbn in *; (done || ulia).
  - cbn [from_option].
    assert (HF : Fa w = false /\ Fb w = false).
    { split; [destruct (Fa w) eqn:E; [apply (cp_old _ _ _ _ Ha) in E|]|
              destruct (Fb w) eqn:E; [apply (cp_old _ _ _ _ Hb) in E|]]; try done; rewrite Er in E; by destruct E. }
    destruct HF as [H1 H2].
    assert (Hone : forall c R F, compacts base c R F -> F w = false -> 
      from_option (rslot up) 0 (pn_retired c !! w) = if R w then default 0 (slot up base !! w) else 0).
    { intros c R F Hc HF. destruct (R w) eqn:ER.
      - destruct (cp_retires _ _ _ _ Hc w ER) as (r & -> & Hr'). apply Hr'.
      - rewrite (cp_retired _ _ _ _ Hc), HF, Er by done. done. }
    rewrite (Hone a Ra Fa Ha H1), (Hone b Rb Fb Hb H2).
    assert (HR : Ra w = true \/ Rb w = true).
    { unfold in_retired in Hr. destruct (Ra w) eqn:E1; [by left|]. destruct (Rb w) eqn:E2; [by right|].
      rewrite (cp_retired _ _ _ _ Ha), (cp_retired _ _ _ _ Hb), H1, H2, Er in Hr by done. done. }
    destruct (Ra w), (Rb w); cbn; try lia; by destruct HR.
Qed.

Abbreviation F w := (Fa w || Fb w).

Lemma apart_contrib up w :
  contrib up (pn_merge a b) w = contrib up base w - if F w then from_option (rslot up) 0 (pn_retired base !! w) else 0.
Proof.
  unfold contrib at 1. rewrite merge_slot_lookup, merge_retired_lookup. unfold in_folded.
  destruct (in_retired a b w) eqn:Er; cbn [andb].
  - pose proof (apart_in_retired w Er) as Hk.
    rewrite (compacts_folded base a Ra Fa Hbase Ha w Hk), (compacts_folded base b Rb Fb Hbase Hb w Hk).
    destruct (F w) eqn:EF; cbn [negb from_option].
    + assert (Ho : is_Some (pn_retired base !! w))
        by (apply orb_true_iff in EF as [?|?]; [by apply (cp_old _ _ _ _ Ha)|by apply (cp_old _ _ _ _ Hb)]).
      assert (Hn : slot up base !! w = None) by (by apply (wf_disjoint base Hbase)).
      rewrite (cp_slot _ _ _ _ Ha), (cp_slot _ _ _ _ Hb). unfold contrib. rewrite Hn.
      destruct (Ra w), (Rb w); cbn; lia.
    + rewrite apart_entry by done. cbn. lia.
  - unfold in_retired in Er. apply orb_false_iff in Er as [E1 E2].
    assert (HRa : Ra w = false) by (destruct (Ra w) eqn:E; [|done]; destruct (cp_retires _ _ _ _ Ha w E) as (r & Hr & _); by rewrite Hr in E1).
    assert (HRb : Rb w = false) by (destruct (Rb w) eqn:E; [|done]; destruct (cp_retires _ _ _ _ Hb w E) as (r & Hr & _); by rewrite Hr in E2).
    rewrite (cp_slot _ _ _ _ Ha), (cp_slot _ _ _ _ Hb), HRa, HRb, option_max_idemp. unfold contrib.
    rewrite (cp_retired _ _ _ _ Ha) in E1 by done. rewrite (cp_retired _ _ _ _ Hb) in E2 by done.
    destruct (pn_retired base !! w) as [r|], (Fa w), (Fb w); cbn in *; (done || lia).
Qed.

(** The credit of a side, over the writers of the base. *)
Lemma apart_credit up (x y : PnCounter) (Fx Fy : WriterId -> bool) ks : NoDup ks -> covers ks base ->
  (forall w, known w -> already_folded x w = Fx w) -> (forall w, known w -> already_folded y w = Fy w) ->
  (forall w, Fy w = true -> Fx w = false -> in_retired a b w = true) ->
  (forall w, Fy w = true -> is_Some (pn_retired base !! w)) ->
  sum_Z (rslot up <$> credits x y (retired_union a b)) =
  sum_Z ((fun w => if Fy w && negb (Fx w) then from_option (rslot up) 0 (pn_retired base !! w) else 0) <$> ks).
Proof.
  intros Hnd Hk Hx Hy Hin Hold. unfold credits.
  rewrite (sum_filter _ (fun wr => already_folded y wr.1 && negb (already_folded x wr.1))).
  rewrite (sum_over_keys (fun w r => if already_folded y w && negb (already_folded x w) then rslot up r else 0)) with (ks := ks); [|done|].
  - apply sum_Z_fmap_ext. intros w _. rewrite retired_union_lookup. destruct (in_retired a b w) eqn:Er; cbn [from_option].
    + pose proof (apart_in_retired w Er) as Hw. rewrite Hx, Hy by done. destruct (Fy w && negb (Fx w)) eqn:E; [|done].
      rewrite apart_entry by done. unfold contrib. apply andb_true_iff in E as [E _].
      rewrite (wf_disjoint base Hbase up w) by (by apply Hold). cbn. lia.
    + destruct (Fy w) eqn:E1, (Fx w) eqn:E2; cbn; try done. by rewrite Hin in Er.
  - intros w. rewrite retired_union_lookup. destruct (in_retired a b w) eqn:Er; [|by intros [? ?]]. intros _.
    apply Hk. destruct (apart_in_retired w Er) as [Hl|Hr]; [left|by right]. unfold is_live in Hl.
    destruct (pn_p base !! w) eqn:E; [exists true|exists false]; cbn; [rewrite E; by eexists|].
    destruct (pn_n base !! w); [by eexists|done].
Qed.

Lemma apart_value : pn_value (pn_merge a b) = pn_value base.
Proof.
  pose proof (compacts_wf _ _ _ _ Hbase Ha) as Hwa. pose proof (compacts_wf _ _ _ _ Hbase Hb) as Hwb.
  apply pn_value_eq; [by apply pn_merge_wf|done|]. intros ks up Hnd _ Hk.
  assert (Hin : forall w, Fa w = true -> Fb w = false -> in_retired a b w = true).
  { intros w H1 H2. destruct (cp_old _ _ _ _ Ha w H1) as [r Hr]. unfold in_retired.
    assert (Rb w = false) as HR by (destruct (Rb w) eqn:E; [|done]; apply (cp_live _ _ _ _ Hb) in E;
      rewrite (old_not_live base a Ra Fa Hbase Ha w H1) in E; done).
    rewrite (cp_retired _ _ _ _ Hb), H2, Hr by done. apply orb_true_r. }
  assert (Hin' : forall w, Fb w = true -> Fa w = false -> in_retired a b w = true).
  { intros w H1 H2. destruct (cp_old _ _ _ _ Hb w H1) as [r Hr]. unfold in_retired.
    assert (Ra w = false) as HR by (destruct (Ra w) eqn:E; [|done]; apply (cp_live _ _ _ _ Ha) in E;
      rewrite (old_not_live base b Rb Fb Hbase Hb w H1) in E; done).
    rewrite (cp_retired _ _ _ _ Ha), H2, Hr by done. done. }
  pose proof (compacts_folded base a Ra Fa Hbase Ha) as Hfa. pose proof (compacts_folded base b Rb Fb Hbase Hb) as Hfb.
  pose proof (apart_credit up a b Fa Fb ks Hnd Hk Hfa Hfb Hin' (cp_old _ _ _ _ Hb)) as C1.
  pose proof (apart_credit up b a Fb Fa ks Hnd Hk Hfb Hfa Hin (cp_old _ _ _ _ Ha)) as C2.
  unfold total. rewrite merge_folded.
  rewrite !saturating_sum_exact by (by apply credits_nonneg). rewrite C1, C2.
  rewrite (cp_folded _ _ _ _ Ha ks up Hnd Hk), (cp_folded _ _ _ _ Hb ks up Hnd Hk).
  set (g w := from_option (rslot up) 0 (pn_retired base !! w)).
  assert (Hg : forall P : WriterId -> bool, 0 <= sum_Z ((fun w => if P w then g w else 0) <$> ks)).
  { intros P. apply sum_Z_nonneg, Forall_fmap, Forall_forall. intros w _. cbn. unfold g.
    destruct (P w), (pn_retired base !! w) eqn:E; cbn; try lia. pose proof (wf_retired base Hbase up w _ E). ulia. }
  assert (Hsplit : forall P Q : WriterId -> bool, sum_Z ((fun w => if P w || Q w then g w else 0) <$> ks) =
    sum_Z ((fun w => if P w then g w else 0) <$> ks) + sum_Z ((fun w => if Q w && negb (P w) then g w else 0) <$> ks)).
  { intros P Q. rewrite <-sum_Z_fmap_add. apply sum_Z_fmap_ext. intros w _. destruct (P w), (Q w); cbn; lia. }
  assert (Hm : sum_Z (contrib up (pn_merge a b) <$> ks) + sum_Z ((fun w => if F w then g w else 0) <$> ks)
    = sum_Z (contrib up base <$> ks)).
  { rewrite <-sum_Z_fmap_add. apply sum_Z_fmap_ext. intros w _. rewrite apart_contrib. unfold g. destruct (F w); lia. }
  pose proof (Hsplit Fa Fb) as S1. pose proof (Hsplit Fb Fa) as S2.
  assert (S3 : sum_Z ((fun w => if Fb w || Fa w then g w else 0) <$> ks) = sum_Z ((fun w => if F w then g w else 0) <$> ks))
    by (apply sum_Z_fmap_ext; intros w _; by rewrite orb_comm).
  assert (Hc : 0 <= sum_Z (contrib up (pn_merge a b) <$> ks)).
  { apply sum_Z_nonneg, Forall_fmap, Forall_forall. intros w _. cbn. unfold contrib.
    pose proof (pn_merge_wf a b Hwa Hwb) as Hwm. pose proof (slot_u64 up _ w Hwm).
    destruct (slot up (pn_merge a b) !! w), (pn_retired (pn_merge a b) !! w) eqn:E; cbn in *;
      try (pose proof (wf_retired _ Hwm up w _ E)); ulia. }
  pose proof (Hg Fa). pose proof (Hg Fb). pose proof (Hg (fun w => Fb w && negb (Fa w))). pose proof (Hg (fun w => Fa w && negb (Fb w))).
  cbv beta in *. pose proof (wf_folded base Hbase up). unfold saturating_add. clear Hg Hsplit. unfold g in *. ulia.
Qed.

End Apart.

(** ** A run of sweeps *)

(** The sweeps of one copy, under one configuration and by a clock that does not go back: from
    [base] at [from] to the copy the last of them left. A sweep that finds nothing to do changes
    nothing and is no step. *)
Inductive swept (bounds : CompactionBounds) (from : Z) (base : PnCounter) : Z -> PnCounter -> Prop :=
  | swept_none : swept bounds from base from base
  | swept_again t c now retire quiet c' : swept bounds from base t c -> t <= now ->
      pn_compact c now retire quiet bounds = Some c' -> swept bounds from base now c'.

Lemma prune_lookup c now ttl w :
  pn_folded_at (default c (pn_prune_receipts c now ttl)) !! w =
  s ← pn_folded_at c !! w; if receipt_expired now s ttl then None else Some s.
Proof.
  unfold pn_prune_receipts. destruct (existsb _ _) eqn:E; cbn.
  - rewrite map_lookup_filter. destruct (pn_folded_at c !! w) as [s|]; cbn; [|done].
    case_guard as Hs; cbn in *; destruct (receipt_expired now s ttl); naive_solver.
  - destruct (pn_folded_at c !! w) as [s|] eqn:Es; cbn; [|done].
    destruct (receipt_expired now s ttl) eqn:Ex; [|done]. exfalso. apply not_true_iff_false in E. apply E, existsb_exists.
    exists s. split; [|done]. apply list_elem_of_In. unfold map_values. apply list_elem_of_fmap. exists (w, s).
    split; [done|]. by apply elem_of_map_to_list.
Qed.

(** The receipts a fold of retired entries leaves. *)
Lemma fold_writers_stamps now db w l : forall c aged_any,
  pn_folded_at (foldl (fold_writer now db) (c, aged_any) l).1 !! w =
  if existsb (fun wr => bool_decide (wr.1 = w) && is_aged now db wr.2) l
  then Some (from_option (fun s => Z.max s now) now (pn_folded_at c !! w)) else pn_folded_at c !! w.
Proof.
  induction l as [|[w' r'] l IH]; intros c aged_any; [done|]. cbn [foldl existsb fst snd].
  destruct (fold_writer now db (c, aged_any) (w', r')) as [c1 aa1] eqn:Hst. rewrite IH.
  unfold fold_writer in Hst. fold (is_aged now db r') in Hst.
  destruct (is_aged now db r'); injection Hst as <- <-; [|by rewrite andb_false_r]. rewrite andb_true_r. cbn.
  destruct (decide (w' = w)) as [->|Hne].
  - rewrite bool_decide_eq_true_2, lookup_partial_alter_eq by done. cbn.
    destruct (existsb _ _), (pn_folded_at c !! w); cbn; f_equal; lia.
  - by rewrite bool_decide_eq_false_2, lookup_partial_alter_ne by done.
Qed.

(** The receipts one sweep leaves. *)
Lemma compact_stamps c now retire quiet bounds c' w : pn_wf c -> 0 <= retire_after_ms bounds ->
  pn_compact c now retire quiet bounds = Some c' ->
  pn_folded_at c' !! w =
    if is_settled quiet then
      let kept := s ← pn_folded_at c !! w; if receipt_expired now s (receipt_ttl_ms bounds) then None else Some s in
      if folds now quiet bounds c w then Some (from_option (fun s => Z.max s now) now kept) else kept
    else pn_folded_at c !! w.
Proof.
  intros Hwf Hb Hc. apply pn_compact_eq in Hc.
  destruct (retire_stage_spec c now retire) as (_ & _ & _ & S4). unfold folds.
  rewrite <-(aged_retire c now retire _ w Hwf) by (unfold saturating_mul; ulia).
  set (c1 := (retire_stage c now retire).1) in *. rewrite <-S4. destruct (is_settled quiet); subst c'; [|done].
  cbv zeta. cbn [andb]. rewrite <-prune_lookup. unfold fold_stage.
  assert (Hp : exists aa, (match pn_prune_receipts c1 now (receipt_ttl_ms bounds) with
      | Some pruned => (pruned, true) | None => (c1, false) end) = (default c1 (pn_prune_receipts c1 now (receipt_ttl_ms bounds)), aa) /\
    pn_retired (default c1 (pn_prune_receipts c1 now (receipt_ttl_ms bounds))) = pn_retired c1).
  { destruct (pn_prune_receipts c1 now _) as [c2|] eqn:E; [|by eexists].
    apply prune_receipts_spec in E as ->. by eexists. }
  destruct Hp as (aa & -> & Hr). rewrite fold_writers_stamps, aged_existsb. unfold aged. by rewrite Hr.
Qed.

(** Two sweeps in turn are one, when the second folds nothing the first retired and keeps the
    first one's receipts. *)
Lemma compacts_trans base c c' R F R' F' : pn_wf base -> compacts base c R F -> compacts c c' R' F' ->
  (forall w, F' w = true -> R w = false) -> (forall w, F w = true -> is_Some (pn_folded_at c' !! w)) ->
  compacts base c' (fun w => R w || R' w) (fun w => F w || F' w).
Proof.
  intros Hwf H1 H2 HF' Hrec.
  assert (HR' : forall w, R' w = true -> R w = false /\ is_live base w = true).
  { intros w Hw. apply (cp_live _ _ _ _ H2) in Hw. unfold is_live in *.
    pose proof (cp_slot _ _ _ _ H1 true w) as Hp. pose proof (cp_slot _ _ _ _ H1 false w) as Hn. cbn in Hp, Hn.
    rewrite Hp, Hn in Hw. by destruct (R w). }
  assert (Hold : forall w, F' w = true -> F w = false /\ pn_retired c !! w = pn_retired base !! w /\ is_Some (pn_retired base !! w)).
  { intros w Hw. pose proof (cp_old _ _ _ _ H2 w Hw) as Hs. rewrite (cp_retired _ _ _ _ H1) in * by auto.
    destruct (F w); [by destruct Hs|done]. }
  split.
  - intros w [Hw|Hw]%orb_true_iff; [by apply (cp_live _ _ _ _ H1)|by apply HR'].
  - intros w [Hw|Hw]%orb_true_iff; [by apply (cp_old _ _ _ _ H1)|by apply Hold].
  - intros up w. rewrite (cp_slot _ _ _ _ H2), (cp_slot _ _ _ _ H1). by destruct (R w), (R' w).
  - intros w Hw. destruct (R' w) eqn:E'.
    + destruct (cp_retires _ _ _ _ H2 w E') as (r & Hr & Hs). exists r. split; [done|]. intros up.
      rewrite Hs, (cp_slot _ _ _ _ H1). by rewrite (proj1 (HR' w E')).
    + rewrite orb_false_r in Hw. destruct (cp_retires _ _ _ _ H1 w Hw) as (r & Hr & Hs). exists r. split; [|done].
      rewrite (cp_retired _ _ _ _ H2) by done. destruct (F' w) eqn:EF; [|done]. apply HF' in EF. congruence.
  - intros w [Hw Hw']%orb_false_iff. rewrite (cp_retired _ _ _ _ H2), (cp_retired _ _ _ _ H1) by done.
    by destruct (F w), (F' w).
  - intros ks up Hnd Hk. rewrite (cp_folded _ _ _ _ H2 ks up Hnd (compacts_covers _ _ _ _ H1 ks Hk)), (cp_folded _ _ _ _ H1 ks up Hnd Hk).
    set (g w := from_option (rslot up) 0 (pn_retired base !! w)).
    assert (Hg : forall w, 0 <= g w).
    { intros w. unfold g. destruct (pn_retired base !! w) eqn:E; cbn; [|lia]. pose proof (wf_retired base Hwf up w _ E). ulia. }
    assert (He : sum_Z ((fun w => if F' w then from_option (rslot up) 0 (pn_retired c !! w) else 0) <$> ks) =
      sum_Z ((fun w => if F' w then g w else 0) <$> ks)).
    { apply sum_Z_fmap_ext. intros w _. destruct (F' w) eqn:E; [|done]. unfold g. by rewrite (proj1 (proj2 (Hold w E))). }
    assert (Hs : sum_Z ((fun w => if F w || F' w then g w else 0) <$> ks) =
      sum_Z ((fun w => if F w then g w else 0) <$> ks) + sum_Z ((fun w => if F' w then g w else 0) <$> ks)).
    { rewrite <-sum_Z_fmap_add. apply sum_Z_fmap_ext. intros w _. destruct (F' w) eqn:E; [|destruct (F w); cbn; lia].
      rewrite (proj1 (Hold w E)). cbn. lia. }
    assert (Hn : 0 <= sum_Z ((fun w => if F' w then g w else 0) <$> ks)).
    { apply sum_Z_nonneg, Forall_fmap, Forall_forall. intros w _. cbn. specialize (Hg w). destruct (F' w); lia. }
    rewrite He. fold (g). change (fun w => if F w then from_option (rslot up) 0 (pn_retired base !! w) else 0) with (fun w => if F w then g w else 0).
    change (fun w => if F w || F' w then from_option (rslot up) 0 (pn_retired base !! w) else 0) with (fun w => if F w || F' w then g w else 0).
    rewrite Hs. pose proof (wf_folded base Hwf up). ulia.
  - intros w [Hw|Hw]%orb_true_iff; [by apply Hrec|by apply (cp_receipt _ _ _ _ H2)].
Qed.

(** The bound after which an entry is folded is within a receipt's lifetime. *)
Lemma fold_bound_ttl ra period : 0 <= ra ->
  let bounds := compaction_bounds_new ra period in
  0 <= saturating_mul (retire_after_ms bounds) 2 <= receipt_ttl_ms bounds.
Proof. intros Hra. cbn. unfold saturating_mul, saturating_add. ulia. Qed.

(** A run that lasts no longer than that bound is one compaction of its base: what it retired is
    still retired, and what it folded has its receipt. *)
Lemma swept_compacts ra period from base t c : 0 <= ra -> pn_wf base -> let bounds := compaction_bounds_new ra period in
  swept bounds from base t c -> t - from <= saturating_mul ra 2 ->
  exists R F, compacts base c R F /\ from <= t /\
    (forall w r, R w = true -> pn_retired c !! w = Some r -> from <= ret_since_ms r) /\
    (forall w, F w = true -> exists s, pn_folded_at c !! w = Some s /\ from <= s <= t + receipt_ttl_ms bounds).
Proof.
  intros Hra Hwf bounds Hrun. pose proof (fold_bound_ttl ra period Hra) as Hb. fold bounds in Hb. cbv zeta in Hb.
  change (retire_after_ms bounds) with ra in Hb.
  induction Hrun as [|t c now retire quiet c' _ IH Hnow Hc]; intros Hlen.
  { exists (fun _ => false), (fun _ => false). split_and!; try done. by apply compacts_refl. }
  destruct IH as (R & F & H1 & Hfrom & Hsince & Hstamp); [lia|].
  pose proof (compacts_wf _ _ _ _ Hwf H1) as Hwc. assert (Hra' : 0 <= retire_after_ms bounds) by done.
  destruct (compacts_compact _ _ _ _ _ _ Hwc Hra' Hc) as [H2 Hsince'].
  pose proof (fun w => compact_stamps _ _ _ _ _ _ w Hwc Hra' Hc) as Hst.
  assert (Htl : from <= now <= from + saturating_mul ra 2) by lia.
  set (R' := retires retire c) in *. set (F' := folds now quiet bounds c) in *. set (ttl := receipt_ttl_ms bounds) in *. clearbody ttl.
  assert (HF' : forall w, F' w = true -> R w = false /\ is_settled quiet = true).
  { intros w Hw. unfold F', folds, aged in Hw. apply andb_true_iff in Hw as [Hq Hw]. split; [|done].
    destruct (R w) eqn:ER; [|done]. destruct (cp_retires _ _ _ _ H1 w ER) as (r & Hr & _). rewrite Hr in Hw. cbn in Hw.
    unfold is_aged in Hw. apply Z.ltb_lt in Hw. pose proof (Hsince w r ER Hr). change (retire_after_ms bounds) with ra in Hw.
    unfold saturating_sub in Hw. lia. }
  assert (Hkept : forall w s, pn_folded_at c !! w = Some s -> from <= s <= t + ttl -> receipt_expired now s ttl = false).
  { intros w s _ Hs. unfold receipt_expired, saturating_sub. apply orb_false_iff. rewrite !Z.ltb_ge. lia. }
  assert (Hstamp' : forall w, F w || F' w = true -> exists s, pn_folded_at c' !! w = Some s /\ from <= s <= now + ttl).
  { intros w Hw. rewrite Hst. destruct (F' w) eqn:E'.
    - rewrite (proj2 (HF' w E')). cbv zeta. eexists. split; [done|]. destruct (pn_folded_at c !! w) as [s|]; cbn; [|lia].
      destruct (receipt_expired now s ttl) eqn:Ex; cbn; [lia|]. unfold receipt_expired, saturating_sub in Ex.
      apply orb_false_iff in Ex as [_ Ex]. apply Z.ltb_ge in Ex. lia.
    - rewrite orb_false_r in Hw. destruct (Hstamp w Hw) as (s & Hs & Hin). exists s. rewrite Hs. cbn.
      rewrite (Hkept w s) by done. split; [by destruct (is_settled quiet)|lia]. }
  exists (fun w => R w || R' w), (fun w => F w || F' w). split_and!; [|lia| |done].
  - apply (compacts_trans _ c); try done; [intros w Hw; by apply HF'|].
    intros w Hw. destruct (Hstamp' w) as (s & -> & _); [by rewrite Hw|by eexists].
  - intros w r Hw Hr. destruct (R' w) eqn:E'; [rewrite (Hsince' w r E' Hr); lia|]. rewrite orb_false_r in Hw.
    rewrite (cp_retired _ _ _ _ H2) in Hr by done. destruct (F' w); [done|]. eauto.
Qed.

(** One sweep keeps the value, so any run of them does. *)
Lemma swept_keeps bounds from base t c : 0 <= retire_after_ms bounds -> pn_wf base ->
  swept bounds from base t c -> pn_wf c /\ pn_value c = pn_value base.
Proof.
  intros Hra Hwf. induction 1 as [|t c now retire quiet c' _ [Hwc Hv] _ Hc]; [done|].
  destruct (compacts_compact _ _ _ _ _ _ Hwc Hra Hc) as [H2 _].
  pose proof (compacts_wf _ _ _ _ Hwc H2) as Hw'. split; [done|].
  rewrite <-Hv, <-(pn_merge_idemp c' Hw'). by eapply apart_value.
Qed.

(** C32: retiring and folding writers never changes a counter's value, however many sweeps a
    copy goes through. And replicas may do it independently: two copies of the same counter,
    each swept any number of times with its own bounds, clock and opinion of which writers are
    gone, merge to a counter of the same value, one folding what the other still keeps retired,
    as long as neither has been swept apart from the other for longer than twice its
    [retire_after_ms] (a merge with a copy swept apart for longer can count a writer twice). *)
Theorem compaction_keeps_the_value (base a b : PnCounter) (ra_a ra_b period_a period_b from_a from_b t_a t_b : Z)
    (Hwf : pn_wf base) (Hra : 0 <= ra_a) (Hrb : 0 <= ra_b)
    (Ha : swept (compaction_bounds_new ra_a period_a) from_a base t_a a)
    (Hb : swept (compaction_bounds_new ra_b period_b) from_b base t_b b) :
  pn_wf a /\ pn_value a = pn_value base /\
  (t_a - from_a <= saturating_mul ra_a 2 -> t_b - from_b <= saturating_mul ra_b 2 ->
   pn_value (pn_merge a b) = pn_value base).
Proof.
  destruct (swept_keeps (compaction_bounds_new ra_a period_a) _ _ _ _ Hra Hwf Ha) as [Hwa Hva]. split_and!; [done..|]. intros Hta Htb.
  destruct (swept_compacts _ _ _ _ _ _ Hra Hwf Ha Hta) as (Ra & Fa & Hca & _).
  destruct (swept_compacts _ _ _ _ _ _ Hrb Hwf Hb Htb) as (Rb & Fb & Hcb & _). by eapply apart_value.
Qed.

(** One writer through both stages. *)
Definition one_retired (w : WriterId) (v t : Z) : PnCounter := {|
  pn_p := ∅; pn_n := ∅; pn_retired := {[ w := {| ret_p := v; ret_n := 0; ret_since_ms := t |} ]};
  pn_folded_p := 0; pn_folded_n := 0; pn_folded_at := ∅ |}.
Definition one_folded (w : WriterId) (v t : Z) : PnCounter := {|
  pn_p := ∅; pn_n := ∅; pn_retired := ∅; pn_folded_p := v; pn_folded_n := 0; pn_folded_at := {[ w := t ]} |}.

Lemma one_retires w v t bounds :
  pn_compact (local_delta w v) t (fun _ => true) Churning bounds = Some (one_retired w v t).
Proof.
  unfold pn_compact, retire_stage, local_delta, map_keys. cbn [pn_p pn_n is_settled].
  rewrite map_to_list_singleton, map_to_list_empty. cbn [fmap list_fmap fst app list_to_set].
  assert (Hl : filter (fun _ : WriterId => true = true) (elements ({[w]} ∪ ∅ : gset WriterId)) = [w]).
  { by rewrite union_empty_r_L, elements_singleton. }
  rewrite Hl.
  rewrite bool_decide_eq_false_2 by done. cbn [foldl is_settled negb]. f_equal.
  unfold retire_writer, one_retired. cbn [pn_p pn_n pn_retired pn_folded_p pn_folded_n pn_folded_at].
  by rewrite delete_empty, lookup_empty, delete_singleton_eq, lookup_singleton_eq, insert_empty.
Qed.

Lemma one_folds w v t1 t2 bounds : 0 <= v <= u64_max -> 0 <= retire_after_ms bounds ->
  2 * retire_after_ms bounds <= u64_max -> 2 * retire_after_ms bounds < t2 - t1 ->
  pn_compact (one_retired w v t1) t2 (fun _ => false) Settled bounds = Some (one_folded w v t2).
Proof.
  intros Hv Hb Hu Ht. unfold pn_compact, retire_stage, one_retired, map_keys, fold_stage, pn_prune_receipts, map_values.
  cbn [pn_p pn_n pn_folded_at pn_retired is_settled]. rewrite !map_to_list_empty.
  cbn [fmap list_fmap app list_to_set existsb]. rewrite elements_empty, filter_nil. cbn [foldl pn_retired pn_folded_at].
  rewrite map_to_list_empty. cbn [fmap list_fmap existsb pn_retired]. rewrite map_to_list_singleton. cbn [fmap list_fmap existsb foldl fold_writer ret_since_ms].
  rewrite (proj2 (Z.ltb_lt _ _)) by (unfold saturating_mul, saturating_sub; ulia).
  cbn [orb negb bool_decide pn_p pn_n pn_retired pn_folded_p pn_folded_n pn_folded_at ret_p ret_n].
  rewrite orb_true_r. f_equal. unfold one_folded. rewrite delete_singleton_eq. f_equal.
  unfold saturating_add. lia.
Qed.

(** C33: the receipt of a fold does not reach a copy that still holds the writer live. Once a
    writer's total has been retired and folded, merging the folded counter with a copy from
    before the retirement counts the total twice, receipt or not. *)
Theorem live_copy_counts_twice_after_a_fold (w : WriterId) (v t1 t2 : Z) (bounds : CompactionBounds)
    (Hv : 0 <= v) (H2v : 2 * v <= u64_max) (Hb : 0 <= retire_after_ms bounds)
    (Ht : 2 * retire_after_ms bounds < t2 - t1) (Hu : 2 * retire_after_ms bounds <= u64_max) :
  exists retired folded_c,
    pn_compact (local_delta w v) t1 (fun _ => true) Churning bounds = Some retired /\
    pn_compact retired t2 (fun _ => false) Settled bounds = Some folded_c /\
    pn_value folded_c = v /\ is_Some (pn_folded_at folded_c !! w) /\
    pn_value (pn_merge folded_c (local_delta w v)) = 2 * v.
Proof.
  exists (one_retired w v t1), (one_folded w v t2). split; [apply one_retires|]. split; [apply one_folds; ulia|].
  assert (Hbase : pn_wf (local_delta w v)) by (apply (local_wf true); ulia).
  assert (Hwf : pn_wf (one_folded w v t2)).
  { split; [by intros up w' [? ?]|intros [] w' x; cbn; by rewrite lookup_empty|by intros up w' r|].
    intros []; cbn; ulia. }
  destruct (merge_plain _ _ Hwf Hbase eq_refl eq_refl) as (R & S & F).
  assert (Hsum : forall up, total [w] up (one_folded w v t2) = if up then v else 0).
  { intros up. unfold total, contrib. cbn [fmap list_fmap]. rewrite sum_Z_cons.
    change (sum_Z []) with 0. destruct up; cbn [slot one_folded pn_p pn_n pn_retired folded pn_folded_p pn_folded_n];
      rewrite !lookup_empty; cbn [from_option]; lia. }
  split_and!.
  - rewrite (pn_value_total [w]), !Hsum; [ulia|done|apply NoDup_singleton|].
    intros w' [[[] [x Hx]]|[x Hx]]; cbn in Hx; by rewrite lookup_empty in Hx.
  - cbn [one_folded pn_folded_at]. rewrite lookup_singleton_eq. by eexists.
  - assert (Hm : forall up, total [w] up (pn_merge (one_folded w v t2) (local_delta w v)) = if up then 2 * v else 0).
    { intros up. unfold total, contrib. cbn [fmap list_fmap]. rewrite sum_Z_cons, S, R, F, lookup_empty.
      destruct up; cbn [slot one_folded local_delta pn_p pn_n folded pn_folded_p pn_folded_n];
        rewrite !lookup_empty, ?lookup_singleton_eq; cbn [from_option option_max id]; change (sum_Z []) with 0; lia. }
    rewrite (pn_value_total [w]), !Hm; [ulia|by apply pn_merge_wf|apply NoDup_singleton|].
    intros w' Hw. apply list_elem_of_singleton. destruct Hw as [[up Hx]|Hx].
    + rewrite S in Hx. destruct (decide (w' = w)) as [|Hne]; [done|].
      destruct up; cbn [slot one_folded local_delta pn_p pn_n] in Hx;
        rewrite !lookup_empty, ?lookup_singleton_ne in Hx by done; by destruct Hx.
    + rewrite R, lookup_empty in Hx. by destruct Hx.
Qed.

(** ** The resolver keeps the contract *)

Lemma lww_winner_antisym k a b : rv_ver a <> rv_ver b -> lww_winner k a b = WinA <-> lww_winner k b a = WinB.
Proof. apply (winner_antisym (R := LwwResolver)). Qed.

#[export] Instance pn_resolver_laws {PC : Postcard PnCounter} : ResolverLaws PnCounterResolver.
Proof.
  constructor; [apply lww_winner_antisym| |done].
  intros k a b. cbn. unfold pn_resolver_merge. destruct (rv_value a) as [av|], (rv_value b) as [bv|]; cbn; try done.
  destruct (pn_decode av) as [pa|], (pn_decode bv) as [pb|]; cbn; try done.
  rewrite pn_merge_comm. destruct (pn_encode _); cbn; [|done]. unfold later_deadline. by rewrite option_max_comm.
Qed.

(** [pn_decode] refuses exactly the counters with a writer both live and retired. *)
Lemma pn_decode_spec {PC : Postcard PnCounter} b c :
  pn_decode b = Some c <-> from_bytes b = Some c /\ forall up w, is_Some (pn_retired c !! w) -> slot up c !! w = None.
Proof.
  unfold pn_decode. destruct (from_bytes b) as [c'|]; cbn; [|naive_solver].
  destruct (existsb _ _) eqn:E.
  - split; [done|]. intros [[= <-] Hd]. apply existsb_exists in E as (w & Hin & Hr). apply list_elem_of_In in Hin.
    assert (Hs : is_Some (pn_retired c' !! w)) by (destruct (pn_retired c' !! w); [by eexists|done]).
    apply elem_of_app in Hin as [Hin|Hin]; apply elem_of_map_keys in Hin as [x Hx].
    + by specialize (Hd true w Hs); cbn in Hd; rewrite Hx in Hd.
    + by specialize (Hd false w Hs); cbn in Hd; rewrite Hx in Hd.
  - split; [|by intros [[= <-] _]]. intros [= <-]. split; [done|]. intros up w Hs.
    destruct (slot up c' !! w) as [x|] eqn:Ex; [|done]. exfalso. apply not_true_iff_false in E. apply E, existsb_exists.
    exists w. split; [|by destruct Hs as [r ->]]. apply list_elem_of_In, elem_of_app. rewrite !elem_of_map_keys.
    destruct up; cbn in Ex; rewrite Ex; [left|right]; by eexists.
Qed.

(** What the resolver merges decodes again, so no merge stores a counter that the next one
    cannot read. *)
Lemma merged_counter_decodes {PC : Postcard PnCounter} (PL : PostcardLaws PnCounter) pa pb b :
  pn_encode (pn_merge pa pb) = Some b -> pn_decode b = Some (pn_merge pa pb).
Proof.
  intros Hb. apply pn_decode_spec. split; [by apply from_to_bytes|].
  intros up w. rewrite merge_retired_lookup, merge_slot_lookup. destruct (_ && _); [done|]. by intros [? ?].
Qed.

(** What two records of a counter become, errors included. When both sides decode, the
    conflict stores their merge, which decodes again, under the later deadline; when one of
    them does not decode, or holds a writer both live and retired, or the merge does not
    encode, nothing is merged and the higher version stays. *)
Theorem counter_conflict_outcome {PC : Postcard PnCounter} (PL : PostcardLaws PnCounter) {V : Type}
    (k : Bytes) (sv ver : Hlc) (bs bi : Bytes) (es ei : option Z) (v : V)
    (Hver : sv <> ver) (Hes : lapsed_before es ver = false) (Hei : lapsed_before ei sv = false) :
  resolve_conflict (R := PnCounterResolver) k sv (Some bs) es false false ver (Put v ei bi) =
  match pn_decode bs, pn_decode bi with
  | Some pa, Some pb =>
      match pn_encode (pn_merge pa pb) with
      | Some b => ResMerged b (later_deadline es ei)
      | None => if hlc_ltb sv ver then IncomingWins else IncomingLoses
      end
  | _, _ => if hlc_ltb sv ver then IncomingWins else IncomingLoses
  end /\
  (forall value e, resolve_conflict (R := PnCounterResolver) k sv (Some bs) es false false ver (Put v ei bi) =
     ResMerged value e -> exists c, pn_decode value = Some c).
Proof.
  assert (Hw : forall a b, rv_ver a = sv -> rv_ver b = ver ->
    winner_resolution (R := PnCounterResolver) k a b = if hlc_ltb sv ver then IncomingWins else IncomingLoses).
  { intros a b <- <-. unfold winner_resolution. cbn. unfold lww_winner.
    destruct (hlc_ltb (rv_ver a) (rv_ver b)) eqn:E.
    - destruct (hlc_leb (rv_ver b) (rv_ver a)) eqn:E2; [|done]. exfalso. revert E E2. hlc_lia.
    - destruct (hlc_leb (rv_ver b) (rv_ver a)) eqn:E2; [done|]. apply hlc_leb_gt in E2. unfold hlc_lt in E2. congruence. }
  assert (Heq : resolve_conflict (R := PnCounterResolver) k sv (Some bs) es false false ver (Put v ei bi) =
    match pn_decode bs, pn_decode bi with
    | Some pa, Some pb =>
        match pn_encode (pn_merge pa pb) with
        | Some b => ResMerged b (later_deadline es ei)
        | None => if hlc_ltb sv ver then IncomingWins else IncomingLoses
        end
    | _, _ => if hlc_ltb sv ver then IncomingWins else IncomingLoses
    end).
  { unfold resolve_conflict, hlc_eqb. rewrite bool_decide_eq_false_2 by done. cbn.
    unfold fold_sides. rewrite Hes, Hei. cbn. unfold pn_resolver_merge. cbn.
    destruct (pn_decode bs) as [pa|], (pn_decode bi) as [pb|]; cbn; try (by apply Hw).
    destruct (pn_encode _); cbn; [done|by apply Hw]. }
  split; [done|]. intros value e. rewrite Heq.
  destruct (pn_decode bs) as [pa|], (pn_decode bi) as [pb|]; try (by destruct (hlc_ltb sv ver)).
  destruct (pn_encode _) as [b|] eqn:Eb; [|by destruct (hlc_ltb sv ver)]. intros [= <- _].
  eexists. by apply merged_counter_decodes.
Qed.

(** ** Concrete runs *)

#[global] Instance enumerated_counter : Postcard PnCounter := enumerated_postcard PnCounter.
#[global] Instance enumerated_counter_laws : PostcardLaws PnCounter := enumerated_laws PnCounter.

Definition writer_at (n i : Z) : WriterId := {| wid_node := n; wid_incarnation := i |}.
Definition three_days : CompactionBounds := three_bounds 1000.

Lemma counter_merge_is_a_join_witness :
  pn_merge (local_delta (writer_at 1 0) 5) (local_decrement (writer_at 2 0) 3) =
  pn_merge (local_decrement (writer_at 2 0) 3) (local_delta (writer_at 1 0) 5) /\
  pn_value (pn_merge (local_delta (writer_at 1 0) 5) (local_decrement (writer_at 2 0) 3)) = 2.
Proof.
  split; [|vm_compute; reflexivity].
  apply (counter_merge_is_a_join _ _ pn_default); [apply (local_wf true)|apply (local_wf false)|apply pn_default_wf];
    vm_compute; by split.
Defined.

Definition two_writers : list Delta :=
  [{| d_writer := writer_at 1 0; d_up := true; d_total := 5 |};
   {| d_writer := writer_at 2 0; d_up := false; d_total := 3 |};
   {| d_writer := writer_at 1 0; d_up := true; d_total := 9 |}].

Lemma counter_value_is_exact_witness : pn_value (deliver two_writers) = 6.
Proof.
  refine (proj1 (counter_value_is_exact two_writers [writer_at 1 0; writer_at 2 0] _ _ _) _ _).
  - repeat constructor; cbn; ulia.
  - repeat constructor; set_solver.
  - intros d Hd. repeat (apply elem_of_cons in Hd as [->|Hd]); cbn; [set_solver..|by apply not_elem_of_nil in Hd].
  - vm_compute. discriminate.
  - vm_compute. discriminate.
Defined.

(** One replica retires the first writer and, in a later sweep, the second; the other has noticed
    neither. *)
Definition retire_once (w : WriterId) (now : Z) (c : PnCounter) : PnCounter :=
  default c (pn_compact c now (fun w' => bool_decide (w' = w)) Settled (compaction_bounds_new 1000 10)).
Definition both_gone : PnCounter :=
  retire_once (writer_at 2 0) 1050 (retire_once (writer_at 1 0) 50 (deliver two_writers)).

Lemma compaction_keeps_the_value_witness :
  is_Some (pn_retired both_gone !! writer_at 1 0) /\ is_Some (pn_retired both_gone !! writer_at 2 0) /\
  pn_value both_gone = 6 /\ pn_value (pn_merge both_gone (deliver two_writers)) = 6.
Proof.
  split_and!; [vm_compute; by eexists..|vm_compute; reflexivity|].
  trans (pn_value (deliver two_writers)); [|vm_compute; reflexivity].
  apply (compaction_keeps_the_value (deliver two_writers) both_gone (deliver two_writers) 1000 1000 10 10 50 0 1050 0);
    [|vm_compute; discriminate|vm_compute; discriminate| |constructor|vm_compute; discriminate|vm_compute; discriminate].
  - apply deliver_spec. repeat constructor; cbn; ulia.
  - apply (swept_again _ _ _ 50 (retire_once (writer_at 1 0) 50 (deliver two_writers)) 1050 (fun w' => bool_decide (w' = writer_at 2 0)) Settled);
      [|vm_compute; discriminate|vm_compute; reflexivity].
    apply (swept_again _ _ _ 50 (deliver two_writers) 50 (fun w' => bool_decide (w' = writer_at 1 0)) Settled);
      [constructor|vm_compute; discriminate|vm_compute; reflexivity].
Defined.

Lemma live_copy_counts_twice_after_a_fold_witness :
  exists retired folded_c,
    pn_compact (local_delta (writer_at 1 0) 42) 0 (fun _ => true) Churning three_days = Some retired /\
    pn_compact retired 2001 (fun _ => false) Settled three_days = Some folded_c /\
    pn_value folded_c = 42 /\ is_Some (pn_folded_at folded_c !! writer_at 1 0) /\
    pn_value (pn_merge folded_c (local_delta (writer_at 1 0) 42)) = 84.
Proof. apply (live_copy_counts_twice_after_a_fold (writer_at 1 0) 42 0 2001 three_days); vm_compute; congruence. Defined.

Lemma counter_conflict_outcome_witness :
  resolve_conflict (R := PnCounterResolver) (V := unit) [1] {| wall_ms := 1; logical := 0; node := 1 |} (Some [0]) None
    false false {| wall_ms := 2; logical := 0; node := 2 |} (Put tt None [0]) = IncomingWins.
Proof.
  refine (eq_trans (proj1 (counter_conflict_outcome enumerated_counter_laws [1] _ _ [0] [0] None None tt _ _ _)) _);
    [discriminate|reflexivity|reflexivity|vm_compute; reflexivity].
Defined.
