(* ===== verification/ObservedSet.v ===== *)
(** * The observed-remove set

    [store/crdt/or_set.rs]: tagged adds, removal by watermarks, the two-stage retirement of
    writers, and the resolver. *)

From stdpp Require Import functions.
From S2P Require Import Prelude Clock Types Merge Receipts.

(** ** Definitions *)

Abbreviation Tag := (WriterId * Z)%type (only parsing).

Record OrSet (T : Type) := {
  os_adds : gmap Tag T;
  os_seen : gmap WriterId Z;
  os_retired : gmap WriterId Z;
  os_folded_at : gmap WriterId Z;
}.
Arguments os_adds {T}. Arguments os_seen {T}. Arguments os_retired {T}. Arguments os_folded_at {T}.

Section Operations.
Context {T : Type} `{EqDecision T}.

Definition os_empty : OrSet T := {| os_adds := ∅; os_seen := ∅; os_retired := ∅; os_folded_at := ∅ |}.

Definition os_iter (s : OrSet T) : list T := map_values (os_adds s).

Definition os_contains (s : OrSet T) (element : T) : bool :=
  existsb (fun live => bool_decide (live = element)) (os_iter s).

Definition os_add (writer : WriterId) (seq : Z) (element : T) : OrSet T := {|
  os_adds := {[ (writer, seq) := element ]}; os_seen := ∅; os_retired := ∅; os_folded_at := ∅ |}.

(** The writers with a live tag of the element. *)
Definition os_touched (observed : OrSet T) (element : T) : gset WriterId :=
  list_to_set ((filter (fun te => te.2 = element) (map_to_list (os_adds observed))).*1.*1).

(** [remove]'s loop body: raise the watermark, re-assert the writer's other tags. *)
Definition remove_step (touched : gset WriterId) (element : T) (acc : gmap WriterId Z * gmap Tag T)
    (te : Tag * T) : gmap WriterId Z * gmap Tag T :=
  let '(seen, adds) := acc in
  let '((writer, seq), e) := te in
  if decide (writer ∈ touched) then
    (partial_alter (fun o => Some (from_option (fun m => Z.max m seq) seq o)) writer seen,
     if decide (e = element) then adds else <[(writer, seq) := e]> adds)
  else (seen, adds).

Definition os_remove (observed : OrSet T) (element : T) : OrSet T :=
  let '(seen, adds) :=
    foldl (remove_step (os_touched observed element) element) (∅, ∅) (map_to_list (os_adds observed)) in
  {| os_adds := adds; os_seen := seen; os_retired := ∅; os_folded_at := ∅ |}.

(** [merge]'s watermarks: the maximum, an absent side as 0. *)
Definition seen_union (self other : OrSet T) : gmap WriterId Z :=
  foldl (fun m w => <[w := Z.max (default 0 (os_seen self !! w)) (default 0 (os_seen other !! w))]> m)
    ∅ (map_keys (os_seen self) ++ map_keys (os_seen other)).

Definition dropped_by (side : OrSet T) (w : WriterId) : bool :=
  negb (is_some (os_seen side !! w)) && negb (is_some (os_retired side !! w))
  && is_some (os_folded_at side !! w).

(** [retired.retain], which also drops the watermark of a writer it drops. *)
Definition drop_folded (self other : OrSet T) (retired seen : gmap WriterId Z) :
    gmap WriterId Z * gmap WriterId Z :=
  foldl (fun '(kept, seen) w =>
      if dropped_by self w || dropped_by other w then (delete w kept, delete w seen) else (kept, seen))
    (retired, seen) (map_keys retired).

Definition is_dead_by (side : OrSet T) (writer : WriterId) (seq : Z) (in_side_adds : bool) : bool :=
  negb in_side_adds &&
  (is_some (os_retired side !! writer) || is_some (os_folded_at side !! writer)
   || is_some_and (os_seen side !! writer) (fun watermark => seq <=? watermark)).

(** [merge]'s loop over the tags of both sides. *)
Definition adds_step (self other : OrSet T) (adds : gmap Tag T) (te : Tag * T) : gmap Tag T :=
  let '((writer, seq), element) := te in
  if is_some (adds !! (writer, seq)) then adds
  else
    let in_self := is_some (os_adds self !! (writer, seq)) in
    let in_other := is_some (os_adds other !! (writer, seq)) in
    let keep :=
      if in_self && in_other then true
      else if in_self then negb (is_dead_by other writer seq in_other)
      else negb (is_dead_by self writer seq in_self) in
    if keep then <[(writer, seq) := element]> adds else adds.

Definition os_merge (self other : OrSet T) : OrSet T :=
  let retired := merge_entries Z.min (os_retired self) (os_retired other) in
  let folded_at := merge_entries Z.max (os_folded_at self) (os_folded_at other) in
  let '(retired, seen) := drop_folded self other retired (seen_union self other) in
  let adds := foldl (adds_step self other) ∅ (map_to_list (os_adds self) ++ map_to_list (os_adds other)) in
  {| os_adds := adds; os_seen := seen; os_retired := retired; os_folded_at := folded_at |}.

Definition os_prune_receipts (s : OrSet T) (now_ms receipt_ttl_ms : Z) : option (OrSet T) :=
  if existsb (fun stamp_ms => receipt_expired now_ms stamp_ms receipt_ttl_ms) (map_values (os_folded_at s))
  then Some {| os_adds := os_adds s; os_seen := os_seen s; os_retired := os_retired s;
               os_folded_at := filter (fun wt => receipt_expired now_ms wt.2 receipt_ttl_ms = false) (os_folded_at s) |}
  else None.

(** Stage one for one writer. *)
Definition os_retire_writer (now_ms : Z) (retire : WriterId -> bool) (acc : OrSet T * bool) (w : WriterId) :
    OrSet T * bool :=
  let '(out, changed) := acc in
  if retire w && negb (is_some (os_retired out !! w)) then
    ({| os_adds := os_adds out; os_seen := os_seen out; os_retired := <[w := now_ms]> (os_retired out);
        os_folded_at := os_folded_at out |}, true)
  else (out, changed).

(** Stage two for one retired writer. *)
Definition os_fold_writer (now_ms double_bound : Z) (acc : OrSet T * bool) (ws : WriterId * Z) : OrSet T * bool :=
  let '(out, aged_any) := acc in
  let '(w, since_ms) := ws in
  if double_bound <? saturating_sub now_ms since_ms then
    ({| os_adds := os_adds out; os_seen := delete w (os_seen out); os_retired := delete w (os_retired out);
        os_folded_at := partial_alter (fun o => Some (from_option (fun stamp => Z.max stamp now_ms) now_ms o))
                          w (os_folded_at out) |}, true)
  else (out, aged_any).

Definition os_compact (s : OrSet T) (now_ms : Z) (bounds : CompactionBounds) (retire : WriterId -> bool)
    (quiet : Quiescence) : option (OrSet T) :=
  let writers : gset WriterId :=
    list_to_set ((map_keys (os_adds s)).*1 ++ map_keys (os_seen s)) in
  let '(out, changed) := foldl (os_retire_writer now_ms retire) (s, false) (elements writers) in
  let '(out, changed) :=
    if is_settled quiet then
      let double_bound := saturating_mul (retire_after_ms bounds) 2 in
      let '(out, aged_any) :=
        match os_prune_receipts out now_ms (receipt_ttl_ms bounds) with
        | Some pruned => (pruned, true)
        | None => (out, false)
        end in
      let '(out, aged_any) := foldl (os_fold_writer now_ms double_bound) (out, aged_any) (map_to_list (os_retired out)) in
      (out, changed || aged_any)
    else (out, changed) in
  if changed : bool then Some out else None.

(** ** The codec and the resolver *)

Section Codec.
Context {PC : Postcard (OrSet T)}.

Definition os_encode (s : OrSet T) : option Bytes := to_stdvec s.
Definition os_decode (bytes : Bytes) : option (OrSet T) := from_bytes bytes.

Definition os_resolver_merge (_ : Bytes) (a b : RecordView) : option Merged :=
  av ← rv_value a; bv ← rv_value b;
  sa ← os_decode av; sb ← os_decode bv;
  bytes ← os_encode (os_merge sa sb);
  Some {| mg_value := bytes; mg_expires_at_ms := later_deadline (rv_expires_at_ms a) (rv_expires_at_ms b) |}.

Definition OrSetResolver : ConflictResolver := {|
  winner := lww_winner;
  needs_value_bytes := true;
  merges := true;
  merge := os_resolver_merge;
  compact _ bytes now_ms retire quiet bounds :=
    set ← os_decode bytes;
    compacted ← os_compact set now_ms bounds retire quiet;
    os_encode compacted;
  settle _ bytes now_ms receipt_ttl_ms :=
    set ← os_decode bytes;
    pruned ← os_prune_receipts set now_ms receipt_ttl_ms;
    os_encode pruned;
|}.

End Codec.
End Operations.
Arguments OrSet : clear implicits.

(** ** What a merge holds *)

Section MergeFacts.
Context {T : Type} `{EqDecision T}.
Implicit Types (a b c s : OrSet T).

(** What a side says about the tags it does not hold. *)
Definition kills (s : OrSet T) (t : Tag) : bool := is_dead_by s t.1 t.2 false.
(** A side that does not hold a tag and knows it is gone. *)
Definition vetoes (s : OrSet T) (t : Tag) : bool := negb (is_some (os_adds s !! t)) && kills s t.

(** Watermarks are [u64]s. *)
Definition seen_ok (s : OrSet T) : Prop := forall w m, os_seen s !! w = Some m -> 0 <= m.

(** A tag names one add: two sides that hold it hold the same element. *)
Definition agree (a b : OrSet T) : Prop :=
  forall t x y, os_adds a !! t = Some x -> os_adds b !! t = Some y -> x = y.

Lemma seen_union_lookup a b w :
  seen_union a b !! w =
  if is_some (os_seen a !! w) || is_some (os_seen b !! w)
  then Some (Z.max (default 0 (os_seen a !! w)) (default 0 (os_seen b !! w))) else None.
Proof.
  unfold seen_union. set (l := _ ++ _).
  assert (Hl : w ∈ l <-> is_some (os_seen a !! w) || is_some (os_seen b !! w) = true).
  { unfold l. rewrite elem_of_app, !elem_of_map_keys, !is_Some_alt.
    destruct (os_seen a !! w), (os_seen b !! w); cbn; tauto || (split; [by intros [[]|[]]|done]). }
  assert (Hgen : forall l (m : gmap WriterId Z),
    foldl (fun m w => <[w := Z.max (default 0 (os_seen a !! w)) (default 0 (os_seen b !! w))]> m) m l !! w =
    if decide (w ∈ l) then Some (Z.max (default 0 (os_seen a !! w)) (default 0 (os_seen b !! w))) else m !! w).
  { clear. intros l. induction l as [|w' l IH]; intros m; cbn [foldl].
    { by rewrite decide_False by apply not_elem_of_nil. }
    rewrite IH. destruct (decide (w ∈ l)).
    - by rewrite decide_True by (by right).
    - destruct (decide (w = w')) as [->|Hne].
      + by rewrite decide_True, lookup_insert_eq by left.
      + rewrite lookup_insert_ne by done. rewrite decide_False; [done|]. by intros [?|?]%elem_of_cons. }
  rewrite Hgen, lookup_empty. destruct (_ || _).
  - by rewrite decide_True by (by apply Hl).
  - by rewrite decide_False by (by rewrite Hl).
Qed.

Lemma drop_folded_lookup a b (retired seen : gmap WriterId Z) w :
  let drop := dropped_by a w || dropped_by b w in
  (drop_folded a b retired seen).1 !! w = (if drop then None else retired !! w) /\
  (drop_folded a b retired seen).2 !! w =
    (if is_some (retired !! w) && drop then None else seen !! w).
Proof.
  cbv zeta. unfold drop_folded.
  assert (Hgen : forall l (r s : gmap WriterId Z),
    let out := foldl (fun '(kept, seen) w =>
      if dropped_by a w || dropped_by b w then (delete w kept, delete w seen) else (kept, seen)) (r, s) l in
    out.1 !! w = (if decide (w ∈ l /\ dropped_by a w || dropped_by b w = true) then None else r !! w) /\
    out.2 !! w = (if decide (w ∈ l /\ dropped_by a w || dropped_by b w = true) then None else s !! w)).
  { clear. intros l. induction l as [|w' l IH]; intros r s; cbn [foldl].
    { rewrite !decide_False by (by intros [?%not_elem_of_nil _]). done. }
    destruct (dropped_by a w' || dropped_by b w') eqn:E.
    - destruct (IH (delete w' r) (delete w' s)) as [-> ->]. destruct (decide (w = w')) as [->|Hne].
      + rewrite E, !lookup_delete_eq, !(decide_True (P := w' ∈ w' :: l /\ true = true)) by (split; [left|done]).
        split; by destruct (decide (w' ∈ l /\ true = true)).
      + rewrite !lookup_delete_ne by done. split; apply decide_ext; rewrite elem_of_cons; tauto.
    - destruct (IH r s) as [-> ->]. split; apply decide_ext; rewrite elem_of_cons; intuition congruence. }
  destruct (Hgen (map_keys retired) retired seen) as [-> ->].
  destruct (dropped_by a w || dropped_by b w); rewrite ?andb_false_r.
  - destruct (retired !! w) as [x|] eqn:Er.
    + rewrite !decide_True by (split; [apply elem_of_map_keys; by rewrite Er|done]). done.
    + rewrite !decide_False by (rewrite elem_of_map_keys, Er; by intros [[? ?] _]). done.
  - rewrite !decide_False by (by intros [_ ?]). done.
Qed.

Lemma adds_lookup a b t :
  os_adds (os_merge a b) !! t =
  match os_adds a !! t, os_adds b !! t with
  | Some x, Some _ => Some x
  | Some x, None => if kills b t then None else Some x
  | None, Some y => if kills a t then None else Some y
  | None, None => None
  end.
Proof.
  unfold os_merge. destruct (drop_folded _ _ _ _). cbn [os_adds].
  set (keep := match os_adds a !! t, os_adds b !! t with
    | Some _, Some _ => true | Some _, None => negb (kills b t) | None, Some _ => negb (kills a t) | None, None => false end).
  assert (Hgen : forall l (m : gmap Tag T), (forall x, (t, x) ∈ l -> is_Some (os_adds a !! t) \/ is_Some (os_adds b !! t)) ->
    foldl (adds_step a b) m l !! t =
    match m !! t with
    | Some x => Some x
    | None => if keep then snd <$> head (filter (fun te => te.1 = t) l) else None
    end).
  { clear g g0. intros l. induction l as [|[[w q] x] l IH]; intros m Hl; cbn [foldl].
    { cbn. by destruct (m !! t), keep. }
    assert (Hst : adds_step a b m ((w, q), x) !! t =
      if decide ((w, q) = t) then match m !! t with Some y => Some y | None => if keep then Some x else None end
      else m !! t).
    { unfold adds_step. destruct (decide ((w, q) = t)) as [<-|Hne].
      - destruct (m !! (w, q)) as [y|] eqn:Em; cbn [is_some]; [by rewrite Em|].
        set (k := if _ && _ then _ else _).
        assert (k = keep) as ->.
        { unfold k, keep, kills. destruct (Hl x ltac:(left)) as [[z ->]|[z ->]];
            [by destruct (os_adds b !! (w, q))|by destruct (os_adds a !! (w, q))]. }
        destruct keep; [by rewrite lookup_insert_eq|done].
      - destruct (is_some (m !! (w, q))); [done|]. set (k := if _ && _ then _ else _). destruct k; [|done].
        by rewrite lookup_insert_ne. }
    rewrite IH, Hst by (intros y Hy; apply (Hl y); by right). rewrite filter_cons. cbn [fst].
    destruct (decide ((w, q) = t)) as [<-|Hne]; [|done].
    destruct (m !! (w, q)) as [y|]; [done|]. by destruct keep. }
  rewrite Hgen, lookup_empty.
  - assert (Hh : forall m : gmap Tag T, filter (fun te => te.1 = t) (map_to_list m) =
      match m !! t with Some x => [(t, x)] | None => [] end).
    { clear. assert (Hn : forall m : gmap Tag T, m !! t = None -> filter (fun te => te.1 = t) (map_to_list m) = []).
      { intros m E. apply filter_none. intros [t' y] Hin%elem_of_map_to_list Heq. cbn in Heq. congruence. }
      intros m. destruct (m !! t) as [x|] eqn:E; [|by apply Hn].
      apply Permutation_singleton_r. rewrite <-(insert_delete_id m t x E).
      rewrite (filter_Permutation _ _ _ (map_to_list_insert (delete t m) t x (lookup_delete_eq m t))).
      by rewrite filter_cons_True, Hn by (done || apply lookup_delete_eq). }
    rewrite filter_app, !Hh. unfold keep.
    by destruct (os_adds a !! t), (os_adds b !! t), (kills a t), (kills b t).
  - intros x [Hin|Hin]%elem_of_app; apply elem_of_map_to_list in Hin; rewrite Hin; [left|right]; by eexists.
Qed.

Lemma retired_lookup a b w :
  os_retired (os_merge a b) !! w =
  if dropped_by a w || dropped_by b w then None
  else merge_entries Z.min (os_retired a) (os_retired b) !! w.
Proof.
  unfold os_merge. set (r := merge_entries Z.min _ _).
  destruct (drop_folded_lookup a b r (seen_union a b) w) as [H1 _]. cbv zeta in H1.
  by destruct (drop_folded _ _ _ _).
Qed.

Lemma seen_lookup a b w :
  os_seen (os_merge a b) !! w =
  if (is_some (os_retired a !! w) || is_some (os_retired b !! w)) && (dropped_by a w || dropped_by b w) then None
  else seen_union a b !! w.
Proof.
  unfold os_merge. set (r := merge_entries Z.min _ _).
  destruct (drop_folded_lookup a b r (seen_union a b) w) as [_ H2]. cbv zeta in H2.
  assert (Hr : is_some (r !! w) = is_some (os_retired a !! w) || is_some (os_retired b !! w)).
  { unfold r. rewrite merge_entries_lookup. by destruct (os_retired a !! w), (os_retired b !! w). }
  rewrite Hr in H2. by destruct (drop_folded _ _ _ _).
Qed.

Lemma folded_lookup a b w :
  os_folded_at (os_merge a b) !! w = option_max (os_folded_at a !! w) (os_folded_at b !! w).
Proof.
  unfold os_merge. destruct (drop_folded _ _ _ _). cbn [os_folded_at]. rewrite merge_entries_lookup.
  by destruct (os_folded_at a !! w), (os_folded_at b !! w).
Qed.

(** A merge knows dead what either side knows dead: dropping a folded writer's state forgets
    nothing, because its receipt speaks for every tag of it. *)
Lemma kills_merge a b t : seen_ok a -> seen_ok b -> kills (os_merge a b) t = kills a t || kills b t.
Proof.
  intros Ha Hb. destruct t as [w q]. unfold kills, is_dead_by. cbn [fst snd negb andb].
  rewrite retired_lookup, seen_lookup, folded_lookup, seen_union_lookup, merge_entries_lookup.
  specialize (Ha w). specialize (Hb w). unfold dropped_by.
  destruct (os_retired a !! w), (os_retired b !! w), (os_folded_at a !! w), (os_folded_at b !! w),
    (os_seen a !! w) as [x|], (os_seen b !! w) as [y|]; cbn; try done;
    try specialize (Ha _ eq_refl); try specialize (Hb _ eq_refl); lia.
Qed.

Lemma seen_ok_merge a b : seen_ok a -> seen_ok b -> seen_ok (os_merge a b).
Proof.
  intros Ha Hb w m. rewrite seen_lookup. destruct (_ && _); [done|]. rewrite seen_union_lookup.
  specialize (Ha w). specialize (Hb w). destruct (os_seen a !! w) as [x|], (os_seen b !! w) as [y|]; cbn; try done;
    intros [= <-]; try specialize (Ha _ eq_refl); try specialize (Hb _ eq_refl); lia.
Qed.

(** A tag is live in a merge when some side holds it and no side knows it gone. *)
Lemma live_merge a b t :
  is_Some (os_adds (os_merge a b) !! t) <->
  (is_Some (os_adds a !! t) \/ is_Some (os_adds b !! t)) /\ vetoes a t = false /\ vetoes b t = false.
Proof.
  rewrite adds_lookup, !is_Some_alt. unfold vetoes.
  destruct (os_adds a !! t), (os_adds b !! t), (kills a t), (kills b t); cbn; tauto || (split; [done|intros [_ [? ?]]; done]).
Qed.
Lemma vetoes_merge a b t : seen_ok a -> seen_ok b -> vetoes (os_merge a b) t = vetoes a t || vetoes b t.
Proof.
  intros Ha Hb. unfold vetoes. rewrite kills_merge, adds_lookup by done.
  by destruct (os_adds a !! t), (os_adds b !! t), (kills a t), (kills b t).
Qed.
Lemma value_merge a b t x : os_adds (os_merge a b) !! t = Some x ->
  os_adds a !! t = Some x \/ os_adds b !! t = Some x.
Proof.
  rewrite adds_lookup. destruct (os_adds a !! t), (os_adds b !! t); try (by auto);
    [destruct (kills b t)|destruct (kills a t)]; auto; done.
Qed.

Lemma os_eq a b : os_adds a = os_adds b -> os_seen a = os_seen b -> os_retired a = os_retired b ->
  os_folded_at a = os_folded_at b -> a = b.
Proof. destruct a, b. cbn. congruence. Qed.

Lemma os_merge_comm a b : agree a b -> os_merge a b = os_merge b a.
Proof.
  intros Hag. apply os_eq; apply map_eq.
  - intros t. rewrite !adds_lookup. specialize (Hag t).
    destruct (os_adds a !! t) as [x|], (os_adds b !! t) as [y|]; try done. f_equal. by apply Hag.
  - intros w. rewrite !seen_lookup, !seen_union_lookup.
    rewrite (orb_comm (is_some (os_retired a !! w))), (orb_comm (dropped_by a w)), (orb_comm (is_some (os_seen a !! w))).
    by rewrite Z.max_comm.
  - intros w. rewrite !retired_lookup, (orb_comm (dropped_by a w)).
    by rewrite (merge_entries_comm Z.min) by apply Z.min_comm.
  - intros w. by rewrite !folded_lookup, option_max_comm.
Qed.

Lemma os_merge_idemp a : seen_ok a -> os_merge a a = a.
Proof.
  intros Ha. apply os_eq; apply map_eq.
  - intros t. rewrite adds_lookup. by destruct (os_adds a !! t).
  - intros w. rewrite seen_lookup, seen_union_lookup, !orb_diag. unfold dropped_by.
    destruct (os_retired a !! w), (os_seen a !! w) as [m|] eqn:E; cbn; rewrite ?Z.max_id; try done;
      by destruct (os_folded_at a !! w).
  - intros w. rewrite retired_lookup, merge_entries_idemp, orb_diag by apply Z.min_id. unfold dropped_by.
    destruct (os_retired a !! w), (os_seen a !! w); cbn; try done; by destruct (os_folded_at a !! w).
  - intros w. by rewrite folded_lookup, option_max_idemp.
Qed.

(** ** Sets with the same members, now and after any merge *)

#[global] Instance os_equiv : Equiv (OrSet T) := fun a b =>
  os_adds a = os_adds b /\ forall t, kills a t = kills b t.

#[global] Instance os_equivalence : Equivalence (≡@{OrSet T}).
Proof.
  split; [done| |].
  - intros a b [H1 H2]. split; [done|]. intros t. by rewrite H2.
  - intros a b c [H1 H2] [H3 H4]. split; [congruence|]. intros t. by rewrite H2, H4.
Qed.

Lemma os_merge_equiv a a' b b' : seen_ok a -> seen_ok a' -> seen_ok b -> seen_ok b' ->
  a ≡ a' -> b ≡ b' -> os_merge a b ≡ os_merge a' b'.
Proof.
  intros Ha Ha' Hb Hb' [H1 H2] [H3 H4]. split.
  - apply map_eq. intros t. by rewrite !adds_lookup, H1, H2, H3, H4.
  - intros t. by rewrite !kills_merge, H2, H4.
Qed.

Lemma os_merge_assoc a b c : seen_ok a -> seen_ok b -> seen_ok c -> agree a b -> agree b c -> agree a c ->
  os_merge a (os_merge b c) ≡ os_merge (os_merge a b) c.
Proof.
  intros Ha Hb Hc Hab Hbc Hac. split; cycle 1.
  { intros t. rewrite !kills_merge by (done || by apply seen_ok_merge). by rewrite orb_assoc. }
  apply map_eq. intros t. rewrite (adds_lookup a), (adds_lookup (os_merge a b)), !kills_merge, !adds_lookup by done.
  specialize (Hab t). specialize (Hbc t). specialize (Hac t).
  destruct (os_adds a !! t) as [x|], (os_adds b !! t) as [y|], (os_adds c !! t) as [z|],
    (kills a t), (kills b t), (kills c t); cbn; done.
Qed.

(** Merging sets is a join on their members, whatever their writers' retirement. It does
    not matter which side merges which; a set merged with itself is unchanged; a tag is live
    after a merge exactly when a side holds it and no side knows it gone; and although the
    bookkeeping of three merges can depend on their grouping, the members, and what every
    later merge will accept, do not. *)
Theorem membership_is_a_join (a b c : OrSet T) (Ha : seen_ok a) (Hb : seen_ok b) (Hc : seen_ok c)
    (Hab : agree a b) (Hbc : agree b c) (Hac : agree a c) :
  os_merge a b = os_merge b a /\ os_merge a a = a /\
  os_merge a (os_merge b c) ≡ os_merge (os_merge a b) c /\
  (forall t, is_Some (os_adds (os_merge a b) !! t) <->
     (is_Some (os_adds a !! t) \/ is_Some (os_adds b !! t)) /\ vetoes a t = false /\ vetoes b t = false).
Proof.
  split_and!; [by apply os_merge_comm|by apply os_merge_idemp|by apply os_merge_assoc|intros t; apply live_merge].
Qed.

End MergeFacts.

(** ** Retirement *)

Section Retirement.
Context {T : Type} `{EqDecision T}.
Implicit Types (a b c s : OrSet T).

Lemma retire_writers_spec now retire l : forall s ch,
  let out := (foldl (os_retire_writer now retire) (s, ch) l).1 in
  os_adds out = os_adds s /\ os_seen out = os_seen s /\ os_folded_at out = os_folded_at s /\
  (forall w, is_Some (os_retired out !! w) <-> is_Some (os_retired s !! w) \/ (w ∈ l /\ retire w = true)).
Proof.
  cbv zeta. induction l as [|w' l IH]; intros s ch; cbn [foldl].
  { split_and!; try done. intros w. split; [by left|]. by intros [?|[?%not_elem_of_nil _]]. }
  destruct (os_retire_writer now retire (s, ch) w') as [s1 ch1] eqn:E1. unfold os_retire_writer in E1.
  destruct (IH s1 ch1) as (H1 & H2 & H3 & H4). rewrite H1, H2, H3. setoid_rewrite H4. clear IH H1 H2 H3 H4.
  setoid_rewrite elem_of_cons. destruct (retire w' && negb (is_some (os_retired s !! w'))) eqn:Er; injection E1 as <- <-; cbn.
  - apply andb_true_iff in Er as [Hr _]. split_and!; try done. intros w. destruct (decide (w = w')) as [->|Hne].
    + rewrite lookup_insert_eq. split; [|by left; eexists]. intros _. right. by split; [left|].
    + rewrite lookup_insert_ne by done. tauto.
  - split_and!; try done. intros w. apply andb_false_iff in Er. split; [tauto|]. intros [?|[[->|?] Hr]]; [by left| |tauto].
    destruct Er as [Er|Er]; [congruence|]. left. destruct (os_retired s !! w'); [by eexists|done].
Qed.

(** Stage two trades a writer's retired entry and watermark for a receipt. *)
Lemma fold_writers_kill now db l : forall s ch,
  let out := (foldl (os_fold_writer now db) (s, ch) l).1 in
  os_adds out = os_adds s /\ forall t, kills s t = true -> kills out t = true.
Proof.
  cbv zeta. induction l as [|[w' since] l IH]; intros s ch; cbn [foldl]; [done|].
  destruct (os_fold_writer now db (s, ch) (w', since)) as [s1 ch1] eqn:E1. unfold os_fold_writer in E1.
  destruct (IH s1 ch1) as (H1 & H2). destruct (db <? _); injection E1 as <- <-; [|done]. cbn in *.
  split; [done|]. intros t Ht. apply H2. revert Ht. destruct t as [w q]. unfold kills, is_dead_by. cbn.
  destruct (decide (w = w')) as [->|Hne].
  - rewrite !lookup_delete_eq, lookup_partial_alter_eq. done.
  - by rewrite !lookup_delete_ne, lookup_partial_alter_ne.
Qed.

Lemma prune_kills s now ttl s' : os_prune_receipts s now ttl = Some s' ->
  os_adds s' = os_adds s /\ os_retired s' = os_retired s /\
  forall t, kills s t = true -> kills s' t = true \/
    exists stamp, os_folded_at s !! t.1 = Some stamp /\ receipt_expired now stamp ttl = true.
Proof.
  unfold os_prune_receipts. destruct (existsb _ _); [|done]. intros [= <-]. cbn. split_and!; try done.
  intros [w q] Hk. unfold kills, is_dead_by in *. cbn in *.
  destruct (os_folded_at s !! w) as [stamp|] eqn:E; cbn in *.
  - destruct (receipt_expired now stamp ttl) eqn:Ex; [right; eauto|left].
    rewrite (proj2 (map_lookup_filter_Some _ _ _ stamp)) by done. by rewrite orb_true_r.
  - left. rewrite (proj2 (map_lookup_filter_None _ _ _)) by (by left). done.
Qed.

(** Retiring writers never changes what a set holds, and it is sticky. A compaction keeps
    every member; a replica that merges the compacted copy keeps every member too; a writer
    compaction retires can add no new tag anywhere the copy is merged; and nothing a replica
    knew to be removed comes back, except by the loss of a receipt past its lifetime. *)
Theorem compaction_keeps_the_members (s s' : OrSet T) (now : Z) (bounds : CompactionBounds)
    (retire : WriterId -> bool) (quiet : Quiescence)
    (Hc : os_compact s now bounds retire quiet = Some s') :
  os_adds s' = os_adds s /\ os_adds (os_merge s s') = os_adds s /\
  (forall t, kills s t = true -> kills s' t = true \/
     exists stamp, os_folded_at s !! t.1 = Some stamp /\ receipt_expired now stamp (receipt_ttl_ms bounds) = true) /\
  (forall w q, retire w = true -> is_Some (os_seen s !! w) \/ (exists q', is_Some (os_adds s !! (w, q'))) ->
     kills s' (w, q) = true).
Proof.
  unfold os_compact in Hc. set (ws := elements _) in Hc.
  destruct (retire_writers_spec now retire ws s false) as (R1 & R2 & R3 & R4).
  destruct (foldl (os_retire_writer now retire) (s, false) ws) as [s1 ch1]. cbn [fst] in *.
  assert (Hws : forall w, w ∈ ws <-> is_Some (os_seen s !! w) \/ exists q', is_Some (os_adds s !! (w, q'))).
  { intros w. unfold ws. rewrite elem_of_elements, elem_of_list_to_set, elem_of_app, elem_of_map_keys, list_elem_of_fmap.
    setoid_rewrite elem_of_map_keys. split.
    - intros [([w' q] & -> & Ht)|?]; [right; by exists q|by left].
    - intros [?|[q Ht]]; [by right|]. left. by exists (w, q). }
  assert (K1 : forall t, kills s t = true -> kills s1 t = true).
  { intros [w q]. unfold kills, is_dead_by. cbn. rewrite R2, R3. specialize (R4 w). rewrite !is_Some_alt in R4.
    destruct (os_retired s !! w), (os_retired s1 !! w); cbn in *; tauto. }
  assert (K2 : forall w, retire w = true -> w ∈ ws -> is_Some (os_retired s1 !! w)) by (intros w Hr Hw; apply R4; by right).
  assert (Hgoal : os_adds s' = os_adds s /\ (forall t, kills s1 t = true -> kills s' t = true \/
      exists stamp, os_folded_at s !! t.1 = Some stamp /\ receipt_expired now stamp (receipt_ttl_ms bounds) = true) /\
      (forall w q, is_Some (os_retired s1 !! w) -> kills s' (w, q) = true)).
  { destruct (is_settled quiet); cycle 1.
    { destruct ch1; [|done]. injection Hc as <-. split_and!; [done|by left|].
      intros w q [x Hx]. unfold kills, is_dead_by. cbn. by rewrite Hx. }
    assert (Hp : exists s2 aa, match os_prune_receipts s1 now (receipt_ttl_ms bounds) with
        | Some pruned => (pruned, true) | None => (s1, false) end = (s2, aa) /\
      os_adds s2 = os_adds s1 /\ os_retired s2 = os_retired s1 /\ forall t, kills s1 t = true -> kills s2 t = true \/
        exists stamp, os_folded_at s1 !! t.1 = Some stamp /\ receipt_expired now stamp (receipt_ttl_ms bounds) = true).
    { destruct (os_prune_receipts _ _ _) as [s2|] eqn:E; [|eexists _, _; split_and!; try done; by left].
      apply prune_kills in E as (? & ? & ?). by eexists _, _. }
    destruct Hp as (s2 & aa & Heq & P1 & P2 & P3). rewrite Heq in Hc.
    destruct (fold_writers_kill now (saturating_mul (retire_after_ms bounds) 2) (map_to_list (os_retired s2)) s2 aa) as [F1 F2].
    destruct (foldl (os_fold_writer _ _) (s2, aa) _) as [s3 aa3]. cbn [fst] in *.
    destruct (ch1 || aa3); [|done]. injection Hc as <-. split_and!; [congruence| |].
    - intros t [Ht|Ht]%P3; [left; by apply F2|right]. by rewrite R3 in Ht.
    - intros w q [x Hx]. apply F2. unfold kills, is_dead_by. cbn. by rewrite P2, Hx. }
  destruct Hgoal as (G1 & G2 & G3). split_and!; [done| |by auto|].
  - apply map_eq. intros t. rewrite adds_lookup, G1. by destruct (os_adds s !! t).
  - intros w q Hr Hw. apply G3, (K2 w Hr), Hws, Hw.
Qed.

End Retirement.

(** ** What a remove says *)

Section RemoveFacts.
Context {T : Type} `{EqDecision T}.

Lemma elem_of_touched (s : OrSet T) x w : w ∈ os_touched s x <-> exists q, os_adds s !! (w, q) = Some x.
Proof.
  unfold os_touched. rewrite elem_of_list_to_set. split.
  - intros ([w0 q0] & Hw & ([[w1 q1] e] & Heq & [Hx Hin]%list_elem_of_filter)%list_elem_of_fmap)%list_elem_of_fmap.
    apply elem_of_map_to_list in Hin. cbn in *. simplify_eq. by exists q1.
  - intros [q Hq]. apply list_elem_of_fmap. exists (w, q). split; [done|]. apply list_elem_of_fmap.
    exists ((w, q), x). split; [done|]. apply list_elem_of_filter. split; [done|]. by apply elem_of_map_to_list.
Qed.

Lemma remove_fold (touched : gset WriterId) (x : T) l : NoDup l.*1 ->
  let out := foldl (remove_step touched x) (∅, ∅) l in
  (forall w m, out.1 !! w = Some m <->
     w ∈ touched /\ (exists e, ((w, m), e) ∈ l) /\ forall q e, ((w, q), e) ∈ l -> q <= m) /\
  (forall w q e, w ∈ touched -> ((w, q), e) ∈ l -> is_Some (out.1 !! w)) /\
  (forall w q e, out.2 !! (w, q) = Some e <-> ((w, q), e) ∈ l /\ w ∈ touched /\ e <> x).
Proof.
  cbv zeta. induction l as [|[[w' q'] e'] l IH] using rev_ind; intros Hnd.
  { cbn. split_and!.
    - intros w m. rewrite lookup_empty. split; [done|]. by intros (_ & [e ?%not_elem_of_nil] & _).
    - by intros w q e _ ?%not_elem_of_nil.
    - intros w q e. rewrite lookup_empty. split; [done|]. by intros [?%not_elem_of_nil _]. }
  rewrite fmap_app in Hnd. apply NoDup_app in Hnd as (Hnd & Hni & _). specialize (IH Hnd) as (H1 & H2 & H3).
  assert (Hfresh : forall e, ((w', q'), e) ∉ l).
  { intros e Hin. apply (Hni (w', q')); [|cbn; left]. apply list_elem_of_fmap. by exists ((w', q'), e). }
  rewrite foldl_app. cbn [foldl]. destruct (foldl (remove_step touched x) (∅, ∅) l) as [seen adds]. cbn [fst snd] in *.
  unfold remove_step. setoid_rewrite elem_of_app. setoid_rewrite list_elem_of_singleton.
  destruct (decide (w' ∈ touched)) as [Ht|Ht]; cbn [fst snd].
  - split_and!.
    + intros w m. destruct (decide (w = w')) as [->|Hne]; cycle 1.
      { rewrite lookup_partial_alter_ne by done. rewrite H1. naive_solver. }
      rewrite lookup_partial_alter_eq. destruct (seen !! w') as [m0|] eqn:E; cbn [from_option].
      * apply H1 in E as (_ & [e0 He0] & Hm0). split.
        { intros [= <-]. split_and!; [done| |].
          - destruct (Z.max_spec m0 q') as [[_ ->]|[_ ->]]; [by exists e'; right|by exists e0; left].
          - intros q e [Hin|[= -> ->]]; [specialize (Hm0 q e Hin)|]; lia. }
        intros (_ & [e [Hin|[= -> ->]]] & Hmax); f_equal.
        { specialize (Hm0 m e Hin). pose proof (Hmax m0 e0 (or_introl He0)). pose proof (Hmax q' e' (or_intror eq_refl)). lia. }
        pose proof (Hmax m0 e0 (or_introl He0)). lia.
      * assert (Hno : forall q e, ((w', q), e) ∉ l) by (intros q e Hin; destruct (H2 w' q e Ht Hin); congruence).
        split.
        { intros [= <-]. split_and!; [done|by exists e'; right|]. intros q e [Hin|[= -> ->]]; [by apply Hno in Hin|lia]. }
        intros (_ & [e [Hin|[= -> ->]]] & _); [by apply Hno in Hin|done].
    + intros w q e Hw [Hin|[= -> -> ->]].
      * destruct (decide (w = w')) as [->|Hne]; [rewrite lookup_partial_alter_eq; by eexists|].
        rewrite lookup_partial_alter_ne by done. by eapply H2.
      * rewrite lookup_partial_alter_eq. by eexists.
    + intros w q e. destruct (decide (e' = x)) as [->|Hx].
      * rewrite H3. naive_solver.
      * destruct (decide ((w, q) = (w', q'))) as [[= -> ->]|Hne].
        { rewrite lookup_insert_eq. split; [intros [= <-]; tauto|]. intros ([Hin|[= ->]] & _); [by apply Hfresh in Hin|done]. }
        rewrite lookup_insert_ne by congruence. rewrite H3. naive_solver.
  - split_and!.
    + intros w m. rewrite H1. naive_solver.
    + intros w q e Hw [Hin|[= -> -> ->]]; [by eapply H2|done].
    + intros w q e. rewrite H3. naive_solver.
Qed.

Lemma os_remove_spec (s : OrSet T) x :
  (forall w m, os_seen (os_remove s x) !! w = Some m <->
     w ∈ os_touched s x /\ is_Some (os_adds s !! (w, m)) /\ forall q, is_Some (os_adds s !! (w, q)) -> q <= m) /\
  (forall w q, w ∈ os_touched s x -> is_Some (os_adds s !! (w, q)) -> is_Some (os_seen (os_remove s x) !! w)) /\
  (forall w q e, os_adds (os_remove s x) !! (w, q) = Some e <->
     os_adds s !! (w, q) = Some e /\ w ∈ os_touched s x /\ e <> x) /\
  os_retired (os_remove s x) = ∅ /\ os_folded_at (os_remove s x) = ∅.
Proof.
  destruct (remove_fold (os_touched s x) x (map_to_list (os_adds s)) (NoDup_fst_map_to_list _)) as (H1 & H2 & H3).
  unfold os_remove. destruct (foldl _ _ _) as [seen adds]. cbn in *.
  setoid_rewrite elem_of_map_to_list in H1. setoid_rewrite elem_of_map_to_list in H2. setoid_rewrite elem_of_map_to_list in H3.
  split_and!; try done.
  - intros w m. rewrite H1. unfold is_Some. naive_solver.
  - intros w q Hw [e He]. by eapply H2.
Qed.

End RemoveFacts.

(** ** The observed-remove specification *)

Section Spec.
Context {T : Type} `{EqDecision T}.

(** What the writers of a cluster do: a writer adds through its home replica under its next
    sequence number, a replica removes an element it reads, a replica merges another's state. *)
Inductive SetOp :=
  | OpAdd (w : WriterId) (q : Z) (x : T)
  | OpRemove (i : nat) (x : T)
  | OpSync (i j : nat).

Context (home : WriterId -> nat).

(** The program: replicas of the set. *)
Definition run_op (reps : nat -> OrSet T) (op : SetOp) : nat -> OrSet T :=
  match op with
  | OpAdd w q x => <[home w := os_merge (reps (home w)) (os_add w q x)]> reps
  | OpRemove i x => <[i := os_merge (reps i) (os_remove (reps i) x)]> reps
  | OpSync i j => <[i := os_merge (reps i) (reps j)]> reps
  end.
Definition run_ops (ops : list SetOp) : nat -> OrSet T := foldl run_op (fun _ => os_empty) ops.

(** The specification: the adds ever made, and for each replica the adds it has observed and
    those it has observed to be removed. *)
Record Spec := { sp_adds : gmap Tag T; sp_known : nat -> gset Tag; sp_removed : nat -> gset Tag }.

Definition victims (U : gmap Tag T) (K R : gset Tag) (x : T) : gset Tag :=
  filter (fun t => U !! t = Some x) (K ∖ R).

Definition spec_op (sp : Spec) (op : SetOp) : Spec :=
  match op with
  | OpAdd w q x =>
      {| sp_adds := <[(w, q) := x]> (sp_adds sp);
         sp_known := <[home w := {[ (w, q) ]} ∪ sp_known sp (home w)]> (sp_known sp);
         sp_removed := sp_removed sp |}
  | OpRemove i x =>
      {| sp_adds := sp_adds sp; sp_known := sp_known sp;
         sp_removed := <[i := victims (sp_adds sp) (sp_known sp i) (sp_removed sp i) x ∪ sp_removed sp i]> (sp_removed sp) |}
  | OpSync i j =>
      {| sp_adds := sp_adds sp;
         sp_known := <[i := sp_known sp i ∪ sp_known sp j]> (sp_known sp);
         sp_removed := <[i := sp_removed sp i ∪ sp_removed sp j]> (sp_removed sp) |}
  end.
Definition spec_empty : Spec := {| sp_adds := ∅; sp_known := fun _ => ∅; sp_removed := fun _ => ∅ |}.
Definition spec_ops (ops : list SetOp) : Spec := foldl spec_op spec_empty ops.

(** A writer's sequence numbers are drawn in increasing order. *)
Definition op_ok (sp : Spec) (op : SetOp) : Prop :=
  match op with
  | OpAdd w q _ => 0 <= q /\ forall q', is_Some (sp_adds sp !! (w, q')) -> q' < q
  | _ => True
  end.
Fixpoint ops_ok (sp : Spec) (ops : list SetOp) : Prop :=
  match ops with
  | [] => True
  | op :: ops => op_ok sp op /\ ops_ok (spec_op sp op) ops
  end.

End Spec.
Arguments SetOp : clear implicits.
Arguments Spec : clear implicits.

Section Knowledge.
Context {T : Type} `{EqDecision T}.
Implicit Types (s : OrSet T) (K R : gset Tag).

(** A set that holds exactly what was observed and not removed: its watermarks cover the
    removed tags, and below a watermark every add is known. *)
Record knows (U : gmap Tag T) s K R : Prop := {
  kn_adds t : os_adds s !! t = if decide (t ∈ K /\ t ∉ R) then U !! t else None;
  kn_exists t : t ∈ K -> is_Some (U !! t);
  kn_sub t : t ∈ R -> t ∈ K;
  kn_removed w q : (w, q) ∈ R -> exists m, os_seen s !! w = Some m /\ q <= m;
  kn_seen w m q : os_seen s !! w = Some m -> is_Some (U !! (w, q)) -> q <= m -> (w, q) ∈ K;
  kn_mark w m : os_seen s !! w = Some m -> is_Some (U !! (w, m));
  kn_plain : os_retired s = ∅ /\ os_folded_at s = ∅;
}.

Context (U : gmap Tag T) (HU : forall w q, is_Some (U !! (w, q)) -> 0 <= q).

Lemma knows_seen_ok s K R : knows U s K R -> seen_ok s.
Proof. intros Hk w m Hm. by apply (HU w), (kn_mark _ _ _ _ Hk). Qed.

Lemma knows_live s K R t x : knows U s K R -> os_adds s !! t = Some x -> t ∈ K /\ t ∉ R /\ U !! t = Some x.
Proof. intros Hk Hx. rewrite (kn_adds _ _ _ _ Hk) in Hx. case_decide; [|done]. tauto. Qed.
Lemma knows_kills s K R w q : knows U s K R -> kills s (w, q) = is_some_and (os_seen s !! w) (fun m => q <=? m).
Proof.
  intros Hk. destruct (kn_plain _ _ _ _ Hk) as [H1 H2]. unfold kills, is_dead_by. cbn.
  by rewrite H1, H2, !lookup_empty.
Qed.

(** A known side vetoes exactly the tags it knows to be removed. *)
Lemma knows_veto s K R t : knows U s K R -> is_Some (U !! t) -> kills s t = true -> t ∈ K.
Proof.
  destruct t as [w q]. intros Hk Ht. rewrite (knows_kills _ _ _ w q Hk). destruct (os_seen s !! w) as [m|] eqn:E; [|done].
  cbn. intros Hq. apply (kn_seen _ _ _ _ Hk w m q E Ht). lia.
Qed.
Lemma knows_removed_killed s K R t : knows U s K R -> t ∈ R -> kills s t = true.
Proof.
  destruct t as [w q]. intros Hk Ht. rewrite (knows_kills _ _ _ w q Hk).
  destruct (kn_removed _ _ _ _ Hk w q Ht) as (m & -> & Hq). cbn. lia.
Qed.

Lemma knows_merge a b Ka Ra Kb Rb : knows U a Ka Ra -> knows U b Kb Rb ->
  knows U (os_merge a b) (Ka ∪ Kb) (Ra ∪ Rb).
Proof.
  intros Ha Hb. destruct (kn_plain _ _ _ _ Ha) as [A1 A2], (kn_plain _ _ _ _ Hb) as [B1 B2].
  assert (Hs : forall w, os_seen (os_merge a b) !! w = seen_union a b !! w)
    by (intros w; by rewrite seen_lookup, A1, B1, !lookup_empty).
  assert (Hmax : forall w m, os_seen (os_merge a b) !! w = Some m ->
    os_seen a !! w = Some m \/ os_seen b !! w = Some m).
  { intros w m. rewrite Hs, seen_union_lookup. pose proof (knows_seen_ok _ _ _ Ha w) as S1. pose proof (knows_seen_ok _ _ _ Hb w) as S2.
    destruct (os_seen a !! w) as [x|], (os_seen b !! w) as [y|]; cbn; try done; intros [= <-].
    - destruct (Z.max_spec x y) as [[_ ->]|[_ ->]]; auto.
    - specialize (S1 _ eq_refl). left. f_equal. lia.
    - specialize (S2 _ eq_refl). right. f_equal. lia. }
  split.
  - intros t. rewrite adds_lookup, (kn_adds _ _ _ _ Ha), (kn_adds _ _ _ _ Hb).
    destruct (decide (t ∈ Ka ∪ Kb /\ t ∉ Ra ∪ Rb)) as [[Hk Hr]|Hn].
    + rewrite elem_of_union in Hk. rewrite not_elem_of_union in Hr. destruct Hr as [Hr1 Hr2].
      assert (Ht : is_Some (U !! t)) by (destruct Hk; [by apply (kn_exists _ _ _ _ Ha)|by apply (kn_exists _ _ _ _ Hb)]).
      destruct Ht as [x Hx]. rewrite Hx.
      destruct (decide (t ∈ Ka)) as [H1|H1], (decide (t ∈ Kb)) as [H2|H2]; [..|by destruct Hk].
      * by rewrite !decide_True by done.
      * rewrite decide_True, decide_False by tauto. destruct (kills b t) eqn:E; [|done].
        apply (knows_veto _ _ _ _ Hb) in E; [done|by eexists].
      * rewrite decide_False, decide_True by tauto. destruct (kills a t) eqn:E; [|done].
        apply (knows_veto _ _ _ _ Ha) in E; [done|by eexists].
    + rewrite not_and_l, elem_of_union, not_elem_of_union in Hn.
      destruct (decide (t ∈ Ka /\ t ∉ Ra)) as [[H1 H2]|H1], (decide (t ∈ Kb /\ t ∉ Rb)) as [[H3 H4]|H3]; [tauto| | |done].
      * assert (t ∈ Rb) by (destruct (decide (t ∈ Rb)); tauto).
        rewrite (knows_removed_killed _ _ _ _ Hb) by done. by destruct (U !! t).
      * assert (t ∈ Ra) by (destruct (decide (t ∈ Ra)); tauto).
        rewrite (knows_removed_killed _ _ _ _ Ha) by done. by destruct (U !! t).
  - intros t [?|?]%elem_of_union; [by apply (kn_exists _ _ _ _ Ha)|by apply (kn_exists _ _ _ _ Hb)].
  - intros t [?|?]%elem_of_union; apply elem_of_union; [left; by apply (kn_sub _ _ _ _ Ha)|right; by apply (kn_sub _ _ _ _ Hb)].
  - intros w q [Hr|Hr]%elem_of_union.
    + destruct (kn_removed _ _ _ _ Ha w q Hr) as (m & Hm & Hq). rewrite Hs, seen_union_lookup, Hm. cbn. eexists. split; [done|]. lia.
    + destruct (kn_removed _ _ _ _ Hb w q Hr) as (m & Hm & Hq). rewrite Hs, seen_union_lookup, Hm, orb_true_r. cbn. eexists. split; [done|]. lia.
  - intros w m q Hm Hq Hle. apply elem_of_union.
    apply Hmax in Hm as [Hm|Hm]; [left; by eapply (kn_seen _ _ _ _ Ha)|right; by eapply (kn_seen _ _ _ _ Hb)].
  - intros w m Hm. apply Hmax in Hm as [Hm|Hm]; [by eapply (kn_mark _ _ _ _ Ha)|by eapply (kn_mark _ _ _ _ Hb)].
  - split; apply map_eq; intros w; rewrite lookup_empty.
    + rewrite retired_lookup, merge_entries_lookup, A1, B1, !lookup_empty. by destruct (_ || _).
    + by rewrite folded_lookup, A2, B2, !lookup_empty.
Qed.

(** Knowledge without gaps: a replica that knows an add of a writer knows its earlier ones. *)
Definition gapless K : Prop := forall w q q', (w, q) ∈ K -> is_Some (U !! (w, q')) -> q' <= q -> (w, q') ∈ K.

(** A remove's delta covers what the replica knows of the writers it touches, up to their last
    live add; with no gaps in that knowledge its watermarks kill only what it says. *)
Lemma knows_remove s K R x : knows U s K R -> gapless K ->
  let covered := filter (fun t => kills (os_remove s x) t = true) K in
  knows U (os_remove s x) covered (victims U K R x ∪ R ∩ covered).
Proof.
  intros Hk Hg. cbv zeta. set (d := os_remove s x). destruct (os_remove_spec s x) as (S1 & S2 & S3 & S4 & S5).
  fold d in S1, S2, S3, S4, S5.
  assert (Hkill : forall w q, kills d (w, q) = is_some_and (os_seen d !! w) (fun m => q <=? m)).
  { intros w q. unfold kills, is_dead_by. cbn. by rewrite S4, S5, !lookup_empty. }
  assert (Hlive : forall w q e, os_adds s !! (w, q) = Some e -> w ∈ os_touched s x -> kills d (w, q) = true).
  { intros w q e He Hw. rewrite Hkill. destruct (S2 w q Hw ltac:(by eexists)) as [m Hm]. rewrite Hm. cbn.
    apply S1 in Hm as (_ & _ & Hmax). specialize (Hmax q ltac:(by eexists)). lia. }
  assert (Hvic : forall t, t ∈ victims U K R x <-> os_adds s !! t = Some x).
  { intros t. unfold victims. rewrite elem_of_filter, elem_of_difference, (kn_adds _ _ _ _ Hk).
    case_decide; [tauto|]. split; [tauto|done]. }
  split.
  - intros [w q]. destruct (decide ((w, q) ∈ _ /\ _)) as [[H1 H2]|Hn].
    + apply elem_of_filter in H1 as [H1 HK]. rewrite not_elem_of_union, Hvic, not_elem_of_intersection, elem_of_filter in H2.
      destruct H2 as [Hv HR]. assert (HR' : (w, q) ∉ R) by (destruct HR as [?|HR]; [done|by destruct HR]).
      pose proof (kn_adds _ _ _ _ Hk (w, q)) as Ha. rewrite decide_True in Ha by done. rewrite <-Ha.
      destruct (kn_exists _ _ _ _ Hk _ HK) as [e He]. rewrite He in Ha. rewrite Ha in *. apply S3. split_and!; [done| |congruence].
      rewrite Hkill in H1. destruct (os_seen d !! w) as [m|] eqn:Em; [|done]. by apply S1 in Em as (? & _).
    + apply eq_None_not_Some. intros [e He]. apply Hn. apply S3 in He as (He & Hw & Hx).
      destruct (knows_live _ _ _ _ _ Hk He) as (HK & HR & _). split.
      * apply elem_of_filter. split; [by eapply Hlive|done].
      * rewrite not_elem_of_union, Hvic, not_elem_of_intersection. split; [congruence|by left].
  - intros t [_ Ht]%elem_of_filter. by apply (kn_exists _ _ _ _ Hk).
  - intros [w q] [Ht|[_ Ht]%elem_of_intersection]%elem_of_union; [|done]. apply Hvic in Ht.
    apply elem_of_filter. split; [eapply Hlive; [done|]; apply elem_of_touched; by exists q|].
    by apply (knows_live _ _ _ _ _ Hk Ht).
  - intros w q Ht. assert (Hq : kills d (w, q) = true).
    { apply elem_of_union in Ht as [Ht|[_ [? _]%elem_of_filter]%elem_of_intersection]; [|done]. apply Hvic in Ht.
      eapply Hlive; [done|]. apply elem_of_touched. by exists q. }
    rewrite Hkill in Hq. destruct (os_seen d !! w) as [m|]; [|done]. exists m. split; [done|]. cbn in Hq. lia.
  - intros w m q Hm HUq Hq. apply elem_of_filter. split; [rewrite Hkill, Hm; cbn; lia|].
    apply S1 in Hm as (_ & [e He] & _). destruct (knows_live _ _ _ _ _ Hk He) as (HK & _). by apply (Hg w m q).
  - intros w m Hm. apply S1 in Hm as (_ & [e He] & _). destruct (knows_live _ _ _ _ _ Hk He) as (_ & _ & ->). by eexists.
  - done.
Qed.

Lemma knows_remove_merge s K R x : knows U s K R -> gapless K ->
  knows U (os_merge s (os_remove s x)) K (victims U K R x ∪ R).
Proof.
  intros Hk Hg. pose proof (knows_merge _ _ _ _ _ _ Hk (knows_remove s K R x Hk Hg)) as Hm. cbv zeta in Hm.
  set (C := filter _ K) in Hm. assert (HC : C ⊆ K) by (intros t [_ ?]%elem_of_filter; done). clearbody C.
  replace (K ∪ C) with K in Hm by set_solver. replace (R ∪ (victims U K R x ∪ R ∩ C)) with (victims U K R x ∪ R) in Hm; [done|].
  apply leibniz_equiv. intros t. rewrite !elem_of_union, elem_of_intersection. tauto.
Qed.

End Knowledge.

(** ** The set implements the specification *)

Section Refinement.
Context {T : Type} `{EqDecision T} (home : WriterId -> nat).

Lemma knows_grow (U : gmap Tag T) s K R w q x : knows U s K R -> (forall q', is_Some (U !! (w, q')) -> q' < q) ->
  knows (<[(w, q) := x]> U) s K R.
Proof.
  intros Hk Hq.
  assert (Hfresh : U !! (w, q) = None).
  { apply eq_None_not_Some. intros Hs. specialize (Hq q Hs). lia. }
  assert (Hne : forall t, t ∈ K -> t <> (w, q)).
  { intros t Ht ->. destruct (kn_exists _ _ _ _ Hk _ Ht). congruence. }
  split; try apply Hk.
  - intros t. rewrite (kn_adds _ _ _ _ Hk). case_decide as Ht; [|done]. rewrite lookup_insert_ne; [done|].
    intros Heq. by apply (Hne t (proj1 Ht)).
  - intros t Ht. rewrite lookup_insert_ne; [by apply (kn_exists _ _ _ _ Hk)|]. intros Heq. by apply (Hne t Ht).
  - intros w' m q' Hm Hs Hle. destruct (decide ((w', q') = (w, q))) as [[= -> ->]|Hn].
    + pose proof (kn_mark _ _ _ _ Hk w m Hm) as Hw. specialize (Hq m Hw). lia.
    + rewrite lookup_insert_ne in Hs by congruence. by eapply (kn_seen _ _ _ _ Hk).
  - intros w' m Hm. destruct (decide ((w', m) = (w, q))) as [[= -> ->]|Hn]; [rewrite lookup_insert_eq; by eexists|].
    rewrite lookup_insert_ne by congruence. by eapply (kn_mark _ _ _ _ Hk).
Qed.

Lemma knows_add (U : gmap Tag T) w q x : U !! (w, q) = Some x -> knows U (os_add w q x) {[ (w, q) ]} ∅.
Proof.
  intros HU. split; cbn; try done.
  - intros t. destruct (decide (t = (w, q))) as [->|Hne].
    + rewrite lookup_singleton_eq, decide_True by set_solver. done.
    + rewrite lookup_singleton_ne, decide_False by (congruence || set_solver). done.
  - intros t ->%elem_of_singleton. by eexists.
Qed.

Lemma knows_empty (U : gmap Tag T) : knows U os_empty ∅ ∅.
Proof. by split; cbn; set_solver. Qed.

Record refines (reps : nat -> OrSet T) (sp : Spec T) : Prop := {
  rf_seq w q : is_Some (sp_adds sp !! (w, q)) -> 0 <= q;
  rf_knows i : knows (sp_adds sp) (reps i) (sp_known sp i) (sp_removed sp i);
  rf_gapless i : gapless (sp_adds sp) (sp_known sp i);
  rf_home w q : is_Some (sp_adds sp !! (w, q)) -> (w, q) ∈ sp_known sp (home w);
}.

Lemma refines_step reps sp op : refines reps sp -> op_ok sp op -> refines (run_op home reps op) (spec_op home sp op).
Proof.
  intros [H1 H2 H3 H4] Hok. destruct op as [w q x|i x|i j]; cbn.
  - destruct Hok as [Hq Hnew]. set (U := <[(w, q) := x]> (sp_adds sp)).
    assert (HU : forall w' q', is_Some (U !! (w', q')) -> (w', q') = (w, q) \/ is_Some (sp_adds sp !! (w', q'))).
    { intros w' q'. unfold U. destruct (decide ((w', q') = (w, q))); [by left|]. rewrite lookup_insert_ne by congruence. by right. }
    assert (Hseq : forall w' q', is_Some (U !! (w', q')) -> 0 <= q')
      by (intros w' q' [[= -> ->]|?]%HU; [done|by eapply H1]).
    assert (Hk : forall i, knows U (reps i) (sp_known sp i) (sp_removed sp i)) by (intros i; by apply knows_grow).
    split; cbn; [done| | |].
    + intros i. destruct (decide (i = home w)) as [->|Hne].
      * rewrite !fn_lookup_insert. rewrite union_comm_L.
        rewrite <-(union_empty_r_L (sp_removed sp (home w))). apply knows_merge; [done|done|]. apply knows_add, lookup_insert_eq.
      * by rewrite !fn_lookup_insert_ne.
    + intros i w' q1 q2 Hin Hs Hle.
      assert (Hold : forall i, (w', q1) ∈ sp_known sp i -> (w', q2) ∈ sp_known sp i).
      { intros i' Hi. apply HU in Hs as [[= -> ->]|Hs]; [|by apply (H3 i' w' q1 q2)].
        destruct (kn_exists _ _ _ _ (H2 i') _ Hi) as [y Hy]. specialize (Hnew q1 ltac:(by eexists)). lia. }
      destruct (decide (i = home w)) as [->|Hne]; [|rewrite fn_lookup_insert_ne in Hin |- * by done; by apply Hold].
      rewrite fn_lookup_insert in Hin |- *. rewrite elem_of_union in Hin |- *.
      destruct Hin as [Hin|Hin]; [|right; by apply Hold]. apply elem_of_singleton in Hin. injection Hin as -> ->.
      apply HU in Hs as [->|Hs]; [left; by apply elem_of_singleton|right; by apply H4].
    + intros w' q' Hs. apply HU in Hs as [[= -> ->]|Hs].
      * rewrite fn_lookup_insert. apply elem_of_union. left. by apply elem_of_singleton.
      * apply H4 in Hs. destruct (decide (home w' = home w)) as [Hh|Hne]; [rewrite Hh in Hs |- *; rewrite fn_lookup_insert; apply elem_of_union; tauto|by rewrite fn_lookup_insert_ne].
  - split; cbn; [done| |done|done]. intros k. destruct (decide (k = i)) as [->|Hne].
    + rewrite !fn_lookup_insert. apply knows_remove_merge; [exact H1|apply H2|apply H3].
    + by rewrite !fn_lookup_insert_ne.
  - split; cbn; [done| | |].
    + intros k. destruct (decide (k = i)) as [->|Hne]; [rewrite !fn_lookup_insert; by apply knows_merge|by rewrite !fn_lookup_insert_ne].
    + intros k. destruct (decide (k = i)) as [->|Hne]; [rewrite fn_lookup_insert|by rewrite fn_lookup_insert_ne].
      intros w q q' [Hin|Hin]%elem_of_union Hs Hle; apply elem_of_union; [left|right]; by eapply H3.
    + intros w q Hs%H4. destruct (decide (home w = i)) as [<-|Hne]; [rewrite fn_lookup_insert; apply elem_of_union; tauto|by rewrite fn_lookup_insert_ne].
Qed.

Lemma refines_ops ops : forall reps sp, refines reps sp -> ops_ok home sp ops ->
  refines (foldl (run_op home) reps ops) (foldl (spec_op home) sp ops).
Proof.
  induction ops as [|op ops IH]; intros reps sp Hr Hok; [done|]. destruct Hok as [H1 H2]. cbn [foldl].
  apply IH; [by apply refines_step|done].
Qed.

Lemma os_contains_spec (s : OrSet T) x : os_contains s x = true <-> exists t, os_adds s !! t = Some x.
Proof.
  unfold os_contains, os_iter. rewrite existsb_exists. split.
  - intros (y & Hy & ->%bool_decide_eq_true). apply list_elem_of_In in Hy. unfold map_values in Hy.
    apply list_elem_of_fmap in Hy as ([t z] & -> & Hin%elem_of_map_to_list). by exists t.
  - intros [t Ht]. exists x. split; [|by apply bool_decide_eq_true]. apply list_elem_of_In, list_elem_of_fmap.
    exists (t, x). split; [done|]. by apply elem_of_map_to_list.
Qed.

(** C31: the watermark set is an observed-remove set. Writers add through their home replica
    under increasing sequence numbers, replicas remove what they read and merge each other's
    states in any interleaving: a replica then holds an element exactly when it has observed an
    add of it that it has not observed to be removed. A removal takes out only adds the remover
    had observed, so an add concurrent with it survives; and two replicas that observed the same
    adds and removals hold the same tags. *)
Theorem or_set_refines_observed_remove (ops : list (SetOp T)) (Hok : ops_ok home spec_empty ops) :
  let reps := run_ops home ops in let sp := spec_ops home ops in
  (forall i t, os_adds (reps i) !! t =
     if decide (t ∈ sp_known sp i /\ t ∉ sp_removed sp i) then sp_adds sp !! t else None) /\
  (forall i x, os_contains (reps i) x = true <->
     exists t, sp_adds sp !! t = Some x /\ t ∈ sp_known sp i /\ t ∉ sp_removed sp i) /\
  (forall i j, sp_known sp i = sp_known sp j -> sp_removed sp i = sp_removed sp j ->
     os_adds (reps i) = os_adds (reps j)).
Proof.
  cbv zeta. unfold run_ops, spec_ops.
  pose proof (refines_ops ops (fun _ => os_empty) spec_empty) as Hr.
  destruct Hr as [_ Hk _ _]; [|done|].
  { split; cbn; [intros w q; by rewrite lookup_empty; intros [? ?]|intros i; apply knows_empty|by intros i w q q' ?%not_elem_of_empty|].
    intros w q. rewrite lookup_empty. by intros [? ?]. }
  set (reps := foldl _ _ ops) in *. set (sp := foldl _ spec_empty ops) in *. split_and!.
  - intros i t. apply (kn_adds _ _ _ _ (Hk i)).
  - intros i x. rewrite os_contains_spec. setoid_rewrite (kn_adds _ _ _ _ (Hk i)). split.
    + intros [t Ht]. exists t. case_decide; [tauto|done].
    + intros (t & Ht & H1 & H2). exists t. by rewrite decide_True.
  - intros i j H1 H2. apply map_eq. intros t. rewrite !(kn_adds _ _ _ _ (Hk _)). by rewrite H1, H2.
Qed.

End Refinement.

(** ** Concrete runs *)

#[export] Instance OrSet_eq_dec {T} `{EqDecision T} : EqDecision (OrSet T).
Proof. solve_decision. Defined.

Definition alice : WriterId := {| wid_node := 1; wid_incarnation := 0 |}.
Definition bob : WriterId := {| wid_node := 2; wid_incarnation := 0 |}.

(** Bob has folded Alice away; Alice's late add does not come back in either grouping. *)
Definition bob_folded : OrSet Z :=
  {| os_adds := {[ (bob, 0) := 20 ]}; os_seen := ∅; os_retired := ∅; os_folded_at := {[ alice := 500 ]} |}.

Lemma membership_is_a_join_witness :
  os_merge (os_add alice 4 10) (os_merge bob_folded os_empty) ≡
    os_merge (os_merge (os_add alice 4 10) bob_folded) os_empty /\
  os_contains (os_merge (os_add alice 4 10) bob_folded) 10 = false.
Proof.
  split; [|vm_compute; reflexivity].
  apply (membership_is_a_join (os_add alice 4 10) bob_folded os_empty);
    try (intros w m; cbn; rewrite lookup_empty; done); intros t x y Hx Hy; try by apply lookup_empty_Some in Hy.
  cbn [os_add os_adds bob_folded] in Hx, Hy. apply lookup_singleton_Some in Hx as [<- _]. apply lookup_singleton_Some in Hy as [Hy _]. discriminate Hy.
Defined.

(** Alice is gone: her tag stays, her new ones are refused. *)
Lemma compaction_keeps_the_members_witness :
  let s := os_merge (os_add alice 4 10) (os_add bob 0 20) in
  let s' := default os_empty (os_compact s 1000 (three_bounds 100) (fun w => bool_decide (w = alice)) Churning) in
  os_adds s' = os_adds s /\ kills s' (alice, 5) = true.
Proof.
  cbv zeta.
  destruct (compaction_keeps_the_members (os_merge (os_add alice 4 10) (os_add bob 0 20))
    (default os_empty (os_compact (os_merge (os_add alice 4 10) (os_add bob 0 20)) 1000 (three_bounds 100)
       (fun w => bool_decide (w = alice)) Churning)) 1000 (three_bounds 100) (fun w => bool_decide (w = alice)) Churning)
    as (H1 & _ & _ & H2).
  - vm_compute. reflexivity.
  - split; [exact H1|]. apply H2; [reflexivity|]. right. exists 4. vm_compute. eexists. reflexivity.
Defined.

(** A remove at one replica and an add of the same element at another: the add wins. *)
Definition race : list (SetOp Z) :=
  [OpAdd alice 0 7; OpSync 1 0; OpRemove 0 7; OpAdd bob 0 7; OpSync 0 1; OpSync 1 0].

Lemma or_set_refines_observed_remove_witness :
  let home w := if decide (w = alice) then 0%nat else 1%nat in
  os_contains (run_ops home race 0) 7 = true /\ os_contains (run_ops home (take 3 race) 0) 7 = false.
Proof.
  cbv zeta. split; [|vm_compute; reflexivity].
  set (home := fun w => if decide (w = alice) then 0%nat else 1%nat).
  apply (or_set_refines_observed_remove home race).
  - cbn [ops_ok race op_ok]. split_and!; try done.
    + intros q' Hq. cbn in Hq. rewrite lookup_empty in Hq. by destruct Hq.
    + intros q' Hq. cbn in Hq. rewrite lookup_insert_ne, lookup_empty in Hq by (intros [=]). by destruct Hq.
  - exists (bob, 0). split_and!; [vm_compute; reflexivity| |].
    + apply (bool_decide_eq_true_1 ((bob, 0) ∈ sp_known (spec_ops home race) 0)). vm_compute. reflexivity.
    + apply (bool_decide_eq_true_1 ((bob, 0) ∉ sp_removed (spec_ops home race) 0)). vm_compute. reflexivity.
Defined.
