(* ===== verification/Prefold.v ===== *)
(** * Pre-folding a batch

    [store/engine/prefold.rs]: a batch's consecutive puts to one key are folded into one before
    the stripe is locked. The hash and the typed key of a batch entry are those of its key
    bytes. The order in which the code's hash map lists the keys is an argument. *)

From S2P Require Import Prelude Clock Part Types Record Expiry Wire Merge Arena Engine Apply.

(** ** Definitions *)

Record BatchEntry (V : Type) := { be_key : Bytes; be_ver : Hlc; be_incoming : Incoming V }.
Arguments be_key {V}. Arguments be_ver {V}. Arguments be_incoming {V}.

Inductive Slot (V : Type) :=
  | SlotApply (entry : BatchEntry V)
  | SlotAbsorbed
  | SlotRefused (key_bytes : Bytes) (size : Z).
Arguments SlotApply {V}. Arguments SlotAbsorbed {V}. Arguments SlotRefused {V}.

Record FoldedRun (V : Type) := {
  fr_ver : Hlc;
  fr_incoming : Incoming V;
  fr_refused : list (nat * Z);
  fr_remaining : list (Hlc * Incoming V);
}.
Arguments fr_ver {V}. Arguments fr_incoming {V}. Arguments fr_refused {V}. Arguments fr_remaining {V}.

Inductive PrefoldSeed :=
  | Vacant
  | SeedStored (ver : Hlc) (encoded : Bytes) (expires_at_ms : option Z) (absent : bool)
  | SeedSequential.

Inductive RunSlot := RunAbsorbed | RunSurvivor | RunRefused (size : Z) | RunUnconsumed.

#[export] Instance RunSlot_eq_dec : EqDecision RunSlot.
Proof. solve_decision. Defined.
#[export] Instance Fold_eq_dec : EqDecision Fold.
Proof. solve_decision. Defined.

(** [Slot::into_entry]: the entry to apply, or the outcome reported for it. *)
Definition into_entry {V} (s : Slot V) : BatchEntry V + ApplyOutcome V :=
  match s with
  | SlotApply entry => inl entry
  | SlotAbsorbed => inr ORejected
  | SlotRefused key_bytes size => inr (OTooLarge key_bytes size)
  end.

Definition reaches_deadline {V} (incoming : Incoming V) (now_ms : Z) : bool :=
  match incoming with
  | Put _ (Some deadline) _ => deadline <=? now_ms
  | _ => false
  end.

Definition incoming_encoded {V} (i : Incoming V) : option Bytes :=
  match i with Put _ _ encoded => Some encoded | IncTombstone _ => None end.
Definition incoming_deadline {V} (i : Incoming V) : option Z :=
  match i with Put _ e _ => e | IncTombstone _ => None end.

(** What each of a run's entries becomes; [first_step] is 0 against a stored record. *)
Definition plan_run (len consumed first_step : nat) (refused : list (nat * Z)) : list RunSlot :=
  let plan := replicate consumed RunAbsorbed ++ replicate (len - consumed) RunUnconsumed in
  let plan := foldl (fun plan '(step, size) => <[(step + first_step)%nat := RunRefused size]> plan) plan refused in
  match last (filter (fun i => plan !! i = Some RunAbsorbed) (seq 0 consumed)) with
  | Some last => <[last := RunSurvivor]> plan
  | None => plan
  end.

Section Group.
Context {V : Type}.

(** A key's indices, in order, and how they are cut into runs. *)
Definition key_indices (entries : list (BatchEntry V)) (k : Bytes) : list nat :=
  filter (fun i => be_key <$> entries !! i = Some k) (seq 0 (length entries)).

Definition run_step (entries : list (BatchEntry V)) (acc : list (list nat) * list nat * bool) (idx : nat) :
    list (list nat) * list nat * bool :=
  let '(runs, current, past_leading_run) := acc in
  if past_leading_run : bool then (runs ++ [[idx]], current, true)
  else
    match be_incoming <$> entries !! idx with
    | Some (IncTombstone _) =>
        ((if bool_decide (current = []) then runs else runs ++ [current]) ++ [[idx]], [], true)
    | _ => (runs, current ++ [idx], false)
    end.

Definition key_runs (entries : list (BatchEntry V)) (k : Bytes) : list (list nat) :=
  let '(runs, current, _) := foldl (run_step entries) ([], [], false) (key_indices entries k) in
  if bool_decide (current = []) then runs else runs ++ [current].

Definition group_prefold_runs (keys : list Bytes) (entries : list (BatchEntry V)) : list (list nat) :=
  mjoin (key_runs entries <$> keys).

End Group.

Section Fold.
Context {PU : PostcardU32} {HS : Hashing} {R : ConflictResolver} {V : Type} {VC : ValueCodec V}.

(** [fold_run]'s loop: the accumulator stands in for the stored record. *)
Fixpoint fold_loop (cap : option MergeCap) (key_bytes : Bytes) (acc_ver : Hlc) (acc_incoming : Incoming V)
    (acc_absent carries_stored : bool) (now_ms : Z) (refused : list (nat * Z)) (step : nat)
    (rest : list (Hlc * Incoming V)) : FoldedRun V :=
  match rest with
  | [] => {| fr_ver := acc_ver; fr_incoming := acc_incoming; fr_refused := refused; fr_remaining := [] |}
  | (ver, incoming) :: tail =>
      let stored_encoded := incoming_encoded acc_incoming in
      let stored_expires_at_ms := incoming_deadline acc_incoming in
      if carries_stored
         && negb (bool_decide (fold_sides acc_absent acc_ver stored_expires_at_ms ver (incoming_deadline incoming)
                               = FoldBoth))
      then {| fr_ver := acc_ver; fr_incoming := acc_incoming; fr_refused := refused; fr_remaining := rest |}
      else
        match resolve_and_rebind cap key_bytes acc_ver stored_encoded stored_expires_at_ms acc_absent
                (is_incoming_tombstone acc_incoming) ver incoming with
        | RStore new_ver new_incoming =>
            fold_loop cap key_bytes new_ver new_incoming (reaches_deadline new_incoming now_ms) carries_stored
              now_ms refused (S step) tail
        | RLost =>
            fold_loop cap key_bytes acc_ver acc_incoming acc_absent carries_stored now_ms refused (S step) tail
        | RTooLarge size =>
            fold_loop cap key_bytes acc_ver acc_incoming acc_absent carries_stored now_ms
              (refused ++ [(step, size)]) (S step) tail
        end
  end.

Definition fold_run (cap : option MergeCap) (key_bytes : Bytes) (seed_ver : Hlc) (seed_incoming : Incoming V)
    (seed_absent carries_stored : bool) (now_ms : Z) (rest : list (Hlc * Incoming V)) : FoldedRun V :=
  fold_loop cap key_bytes seed_ver seed_incoming seed_absent carries_stored now_ms [] 0 rest.

Definition peek_stored_seed (st : Stripe) (key_bytes : Bytes) (tti_ms : option Z) (now_ms : Z) : PrefoldSeed :=
  if is_some (st_tombstones st !! key_bytes) then SeedSequential
  else
    match find_in st key_bytes with
    | None => Vacant
    | Some live =>
        SeedStored (live_ver live) (record_value (lv_record live))
          (decode_expiry (lv_wall_ms live) (lv_expiry live) key_bytes (st_long_ttl st))
          (absent_at live key_bytes (st_long_ttl st) tti_ms now_ms)
    end.

Definition peek_prefold_seeds (st : Stripe) (entries : list (BatchEntry V)) (runs : list (list nat))
    (tti_ms : option Z) (now_ms : Z) : gmap Bytes PrefoldSeed :=
  foldl (fun seeds run =>
      match (if (length run <? 2)%nat then None else head run ≫= (fun i => entries !! i)) with
      | Some entry =>
          if is_some (seeds !! be_key entry) then seeds
          else <[be_key entry := peek_stored_seed st (be_key entry) tti_ms now_ms]> seeds
      | None => seeds
      end) ∅ runs.

(** [Slot::entry] of every slot of a run; [None] is the panic on a slot another run took. *)
Definition run_entries (slots : list (Slot V)) (run : list nat) : option (list (BatchEntry V)) :=
  mapM (fun i => s ← slots !! i; match s with SlotApply entry => Some entry | _ => None end) run.

(** A run's fold from what its key has stored, with the position of the first entry it merges;
    [None] leaves the run to sequential application. *)
Definition fold_parts (cap : option MergeCap) (seed : option PrefoldSeed) (now_ms : Z) (key_bytes : Bytes)
    (versioned : list (Hlc * Incoming V)) : option (FoldedRun V * nat) :=
  let unseeded :=
    '(seed_ver, seed_incoming) ← head versioned;
    Some (fold_run cap key_bytes seed_ver seed_incoming (reaches_deadline seed_incoming now_ms) false now_ms
            (tail versioned), 1%nat) in
  match seed with
  | Some SeedSequential => None
  | Some (SeedStored sv encoded expires_at_ms absent) =>
      value ← decode_value encoded;
      Some (fold_run cap key_bytes sv (Put value expires_at_ms encoded) absent (negb absent) now_ms versioned, 0%nat)
  | Some Vacant | None => unseeded
  end.

(** Writing a folded run's plan back to its slots, which [take] emptied; [None] is the panic on
    a second survivor or on an unconsumed index with nothing remaining. *)
Fixpoint place (slots : list (Slot V)) (run : list nat) (parts : list (BatchEntry V)) (plan : list RunSlot)
    (survivor : option (Hlc * Incoming V)) (remaining : list (Hlc * Incoming V)) : option (list (Slot V)) :=
  match run, parts, plan with
  | idx :: run, part :: parts, planned :: plan =>
      let apply '(ver, incoming) := SlotApply {| be_key := be_key part; be_ver := ver; be_incoming := incoming |} in
      match planned with
      | RunAbsorbed => place (<[idx := SlotAbsorbed]> slots) run parts plan survivor remaining
      | RunSurvivor => w ← survivor; place (<[idx := apply w]> slots) run parts plan None remaining
      | RunRefused size => place (<[idx := SlotRefused (be_key part) size]> slots) run parts plan survivor remaining
      | RunUnconsumed =>
          match remaining with
          | w :: remaining => place (<[idx := apply w]> slots) run parts plan survivor remaining
          | [] => None
          end
      end
  | _, _, _ => Some slots
  end.

Definition prefold_run (cap : option MergeCap) (stored_seeds : gmap Bytes PrefoldSeed) (now_ms : Z)
    (slots : list (Slot V)) (run : list nat) : option (list (Slot V)) :=
  if (length run <? 2)%nat then Some slots
  else
    parts ← run_entries slots run;
    first ← head parts;
    let key_bytes := be_key first in
    match fold_parts cap (stored_seeds !! key_bytes) now_ms key_bytes ((fun p => (be_ver p, be_incoming p)) <$> parts) with
    | None => Some slots
    | Some (folded, first_step) =>
        let consumed := (length run - length (fr_remaining folded))%nat in
        let plan := plan_run (length run) consumed first_step (fr_refused folded) in
        place slots run parts plan (Some (fr_ver folded, fr_incoming folded)) (fr_remaining folded)
    end.

Definition prefold_batch (cap : option MergeCap) (stored_seeds : gmap Bytes PrefoldSeed) (now_ms : Z)
    (entries : list (BatchEntry V)) (runs : list (list nat)) : option (list (Slot V)) :=
  foldl (fun slots run => slots ≫= (fun s => prefold_run cap stored_seeds now_ms s run))
    (Some (SlotApply <$> entries)) runs.

End Fold.

(** ** One key's cell *)

(** What a write meets under its key: the stored version, its content (or the tombstone's
    expiry) and whether it reads as absent. *)
Abbreviation Cell := (option (Hlc * (Content + option Z) * bool)) (only parsing).

Definition incoming_content {V} (i : Incoming V) : Content + option Z :=
  match i with Put _ e b => inl (b, e) | IncTombstone d => inr d end.
Definition live_part (s : Content + option Z) : option Content := match s with inl c => Some c | inr _ => None end.

Section Cell.
Context {HS : Hashing} {R : ConflictResolver} {V : Type} {VC : ValueCodec V}.
Context (cap : option MergeCap) (now_ms : Z).
Implicit Types (c : Cell) (w : Hlc * Incoming V).

(** The verdict on one write, the cell it leaves, and the size of a refused merge. *)
Definition meet (k : Bytes) c w : Rebound V :=
  match c with
  | None => RStore w.1 w.2
  | Some (sv, stored, absent) =>
      let content := live_part stored in
      resolve_and_rebind cap k sv (fst <$> content) (content ≫= snd) absent (negb (is_some content)) w.1 w.2
  end.

Definition left_by c (r : Rebound V) : Cell :=
  match r with
  | RStore v i => Some (v, incoming_content i, reaches_deadline i now_ms)
  | _ => c
  end.
Definition refusal (r : Rebound V) : option Z := match r with RTooLarge size => Some size | _ => None end.

(** Writes applied one after the other: the final cell and what was refused at each. *)
Fixpoint in_order (k : Bytes) c (ws : list (Hlc * Incoming V)) : Cell * list (option Z) :=
  match ws with
  | [] => (c, [])
  | w :: ws =>
      let r := meet k c w in
      let '(c', refs) := in_order k (left_by c r) ws in (c', refusal r :: refs)
  end.

Lemma in_order_app k ws1 : forall c ws2,
  in_order k c (ws1 ++ ws2) =
  let '(c1, r1) := in_order k c ws1 in let '(c2, r2) := in_order k c1 ws2 in (c2, r1 ++ r2).
Proof.
  induction ws1 as [|w ws1 IH]; intros c ws2; cbn; [by destruct (in_order k c ws2)|].
  rewrite IH. destruct (in_order k _ ws1) as [c1 r1]. by destruct (in_order k c1 ws2).
Qed.

Lemma in_order_length k ws : forall c, length (in_order k c ws).2 = length ws.
Proof.
  induction ws as [|w ws IH]; intros c; cbn; [done|]. specialize (IH (left_by c (meet k c w))).
  destruct (in_order k _ ws). cbn in *. by rewrite IH.
Qed.

(** The refused positions of a run, counted from [step]. *)
Fixpoint refused_from (step : nat) (refs : list (option Z)) : list (nat * Z) :=
  match refs with
  | [] => []
  | Some size :: refs => (step, size) :: refused_from (S step) refs
  | None :: refs => refused_from (S step) refs
  end.

(** A fold consumes a prefix, its accumulator is the cell the prefix leaves, and it keeps
    whatever each stored step keeps. The index counts the entries still to come. *)
Section Loop.
Context (k : Bytes) (carries : bool) (P : nat -> Hlc -> Incoming V -> bool -> Prop) (W : nat -> Hlc * Incoming V -> Prop).
Context (Hstep : forall n av ai ab ver inc v' i', P (S n) av ai ab -> W (S n) (ver, inc) ->
  (carries = true -> fold_sides ab av (incoming_deadline ai) ver (incoming_deadline inc) = FoldBoth) ->
  meet k (Some (av, incoming_content ai, ab)) (ver, inc) = RStore v' i' ->
  P n v' i' (reaches_deadline i' now_ms)).
Context (HP : forall n av ai ab, P (S n) av ai ab -> P n av ai ab) (HW : forall n w, W (S n) w -> W n w).

Lemma keeps_to_zero n av ai ab : P n av ai ab -> P 0 av ai ab.
Proof. induction n; auto. Qed.

Lemma fold_loop_spec rest : forall av ai ab refused step,
  P (length rest) av ai ab -> Forall (W (length rest)) rest ->
  let f := fold_loop cap k av ai ab carries now_ms refused step rest in
  exists consumed ab' refs,
    rest = consumed ++ fr_remaining f /\
    in_order k (Some (av, incoming_content ai, ab)) consumed =
      (Some (fr_ver f, incoming_content (fr_incoming f), ab'), refs) /\
    fr_refused f = refused ++ refused_from step refs /\
    (carries = false -> fr_remaining f = []) /\
    P 0 (fr_ver f) (fr_incoming f) ab'.
Proof.
  induction rest as [|[ver inc] rest IH]; intros av ai ab refused step Hacc Hall; cbv zeta; cbn [fold_loop].
  { exists [], ab, []. cbn. by rewrite app_nil_r. }
  apply Forall_cons in Hall as [Hw Hall].
  assert (Hall' : Forall (W (length rest)) rest) by (eapply Forall_impl; [exact Hall|]; auto).
  assert (Hmeet : resolve_and_rebind cap k av (incoming_encoded ai) (incoming_deadline ai) ab
      (is_incoming_tombstone ai) ver inc = meet k (Some (av, incoming_content ai, ab)) (ver, inc)) by (by destruct ai).
  destruct (carries && _) eqn:Estop.
  { exists [], ab, []. cbn. rewrite app_nil_r. split_and!; try done; [by intros ->|]. by eapply keeps_to_zero. }
  assert (Hboth : carries = true -> fold_sides ab av (incoming_deadline ai) ver (incoming_deadline inc) = FoldBoth).
  { intros ->. cbn in Estop. apply negb_false_iff in Estop. by apply bool_decide_eq_true in Estop. }
  rewrite Hmeet. clear Hmeet.
  destruct (meet k _ (ver, inc)) as [|v' i'|size] eqn:Em;
    match goal with |- context [fold_loop cap k ?av ?ai ?ab carries now_ms ?rf ?st rest] =>
      destruct (IH av ai ab rf st) as (consumed & ab' & refs & H1 & H2 & H3 & H4 & H5); [by eauto|done|] end;
    exists ((ver, inc) :: consumed), ab'; eexists;
    (split_and!; [cbn; by f_equal | cbn [in_order]; rewrite Em; cbn [left_by refusal]; rewrite H2; reflexivity
                 | rewrite H3; cbn; by rewrite <-?app_assoc | done | done]).
Qed.

End Loop.

End Cell.

(** ** The survivor against the stored record *)

(** A resolver whose merge is a join of the contents it is given, with the later deadline, and
    whose winner is the newer side. *)
Class JoinResolver `(R : ConflictResolver) (k : Bytes) (ok : Content -> Prop) (join : Content -> Content -> Content) :
    Prop := {
  jr_merges : merges = true;
  jr_reads : needs_value_bytes = true;
  jr_winner a b : rv_ver a <> rv_ver b -> winner k a b = WinB <-> hlc_lt (rv_ver a) (rv_ver b);
  jr_merge a b ca cb : ok ca -> ok cb ->
    rv_value a = Some ca.1 -> rv_expires_at_ms a = ca.2 -> rv_value b = Some cb.1 -> rv_expires_at_ms b = cb.2 ->
    merge k a b = Some {| mg_value := (join ca cb).1; mg_expires_at_ms := (join ca cb).2 |};
  jr_ok a b : ok a -> ok b -> ok (join a b);
  jr_idem a : ok a -> join a a = a;
  jr_assoc a b c : ok a -> ok b -> ok c -> join a (join b c) = join (join a b) c;
  jr_deadline a b : ok a -> ok b -> (join a b).2 = later_deadline a.2 b.2;
}.

(** Space for [n] more minted versions after [v]. *)
Definition room (n : nat) (v : Hlc) : Prop := wall_ms v + Z.of_nat n < u64_max.

(** A value that fits a frame of its own, under the cap. *)
Definition fits (cap : option MergeCap) (k : Bytes) (len : Z) : Prop :=
  match cap with Some c => replicate_frame_len (cap_cache_len c) (blen k) len <= cap_limit c | None => True end.

Lemma later_deadline_lapsed a b v : lapsed_before a v = false -> lapsed_before b v = false ->
  lapsed_before (later_deadline a b) v = false.
Proof. unfold lapsed_before, later_deadline. destruct a, b; cbn; (done || lia). Qed.

Lemma lapsed_before_older e v v' : wall_ms v <= wall_ms v' -> lapsed_before e v' = false -> lapsed_before e v = false.
Proof. unfold lapsed_before. destruct e; cbn; [lia|done]. Qed.

Lemma hlc_le_wall a b : hlc_le a b -> wall_ms a <= wall_ms b.
Proof. hlc_lia. Qed.

Lemma merge_decision_gt sv ver s i n v : wall_ms sv < u64_max -> wall_ms ver < u64_max ->
  merge_decision sv ver s i n = MvStore v ->
  hlc_lt sv v /\ wall_ms v <= Z.max (wall_ms sv) (wall_ms ver) + 1.
Proof.
  intros Hs Hv. unfold merge_decision.
  assert (Hm : hlc_lt sv (mint_stamp sv ver n) /\
    wall_ms (mint_stamp sv ver n) <= Z.max (wall_ms sv) (wall_ms ver) + 1).
  { split; [apply mint_stamp_gt; lia|]. unfold mint_stamp, checked_add. repeat bcase; cbn; unfold u64_max in *; lia. }
  destruct (hlc_total sv ver) as [Hlt|[->|Hlt]].
  - destruct (hlc_max_lt _ _ Hlt) as [-> _], (hlc_lt_ne _ _ Hlt) as (_ & E1 & E2).
    repeat bcase; intros; simplify_eq; try done; split; (done || lia).
  - replace (hlc_max ver ver) with ver by (unfold hlc_max; by bcase). rewrite hlc_eqb_refl.
    assert (hlc_ltb ver ver = false) as -> by (apply not_true_is_false; hlc_lia).
    rewrite !andb_false_r. repeat bcase; intros; by simplify_eq.
  - destruct (hlc_max_lt _ _ Hlt) as [_ ->]. rewrite hlc_eqb_refl.
    assert (hlc_ltb sv ver = false) as -> by (apply not_true_is_false; revert Hlt; hlc_lia).
    rewrite andb_false_r. repeat bcase; intros; by simplify_eq.
Qed.

Section Survivor.
Context {HS : Hashing} {R : ConflictResolver} {V : Type} {VC : ValueCodec V}.
Context (cap : option MergeCap) (now_ms : Z) (k : Bytes) (ok : Content -> Prop) (join : Content -> Content -> Content).
Context `{!JoinResolver R k ok join} (Hcap : forall c, cap = Some c -> 0 <= cap_cache_len c).
Implicit Types (c : Content) (ab : bool).

(** What a put does to a live cell: which of the two ways it is stored. *)
Lemma meet_store av ca ab ver v e b v' i' : meet cap k (Some (av, inl ca, ab)) (ver, Put v e b) = RStore v' i' ->
  (v' = ver /\ i' = Put v e b /\ hlc_lt av ver /\
    resolve_conflict k av (Some ca.1) ca.2 ab false ver (Put v e b) = IncomingWins) \/
  exists d value e' s i n, i' = Put d e' value /\ merge_decision av ver s i n = MvStore v' /\
    resolve_conflict k av (Some ca.1) ca.2 ab false ver (Put v e b) = ResMerged value e' /\
    (fits cap k (blen value) \/ blen value <= blen ca.1).
Proof.
  unfold meet. cbn [fst snd live_part fmap option_fmap option_map mbind option_bind is_some negb]. intros Hm.
  destruct (resolve_conflict k av (Some ca.1) ca.2 ab false ver (Put v e b)) as [| |value e'] eqn:Er;
    unfold resolve_and_rebind in Hm; rewrite Er in Hm.
  - done.
  - left. simplify_eq. split_and!; try done. revert Er. unfold resolve_conflict, winner_resolution.
    rewrite (jr_merges (R:=R) (k:=k)), (jr_reads (R:=R) (k:=k)). cbn.
    destruct (hlc_eqb av v') eqn:Ev; [done|].
    assert (av <> v') by (intros ->; by rewrite hlc_eqb_refl in Ev).
    repeat case_match; try done; intros _;
      match goal with H : winner _ _ _ = WinB |- _ => by apply (jr_winner (R:=R)) in H end.
  - right.
    revert Hm. unfold merge_version. destruct (merge_decision _ _ _ _ _) as [|w] eqn:Ed; [done|].
    intros Hm.
    assert (Hfit : w = v' -> fits cap k (blen value) \/ blen value <= blen ca.1).
    { intros ->. destruct cap as [cp|] eqn:Ec; [|by left]. specialize (Hcap cp eq_refl).
      pose proof (rebind_within_cap cp k av ver (Some ca.1) ca.2 ab false (Put v e b) value e' Hcap Er) as Hw'.
      unfold resolve_and_rebind in Hw'. rewrite Er in Hw'. unfold merge_version in Hw'. rewrite Ed, Hm in Hw'.
      destruct Hw' as [?|(x & [= <-] & _ & ?)]; [by left|by right]. }
    assert (Hi : w = v' /\ exists d, i' = Put d e' value).
    { revert Hm. bcase; [done|]. bcase; [|destruct (decode_value value); [|done]]; intros [= <- <-]; split; try done;
        [|by eexists]. case_bool_decide; [|done]. case_bool_decide; [|done]. subst. by eexists. }
    destruct Hi as [<- [d ->]]. eexists d, value, e', _, _, _. split_and!; [done|exact Ed|done|by apply Hfit].
Qed.

(** Against a live record that reads as absent: the newer survivor replaces it. *)
Lemma survivor_over_absent sv cs ver v e b : hlc_lt sv ver -> fits cap k (blen b) ->
  meet cap k (Some (sv, inl cs, true)) (ver, Put v e b) = RStore ver (Put v e b).
Proof.
  intros Hlt Hfit. destruct (hlc_lt_ne _ _ Hlt) as (Hne & _ & _).
  unfold meet, resolve_and_rebind, resolve_conflict, winner_resolution.
  rewrite (jr_merges (R:=R) (k:=k)), (jr_reads (R:=R) (k:=k)).
  cbn [fst snd live_part fmap option_fmap option_map mbind option_bind is_some negb tombstone_resolution orb is_incoming_tombstone rv_value].
  rewrite Hne. unfold fold_sides. cbn [orb]. destruct (lapsed_before e sv) eqn:El.
  - set (a := {| rv_value := _; rv_ver := sv |}). set (a' := {| rv_value := _; rv_ver := ver |}).
    assert (winner k a a' = WinB) as ->; [|done]. apply (jr_winner (R:=R)); [|done]. cbn. intros ->.
    by rewrite hlc_eqb_refl in Hne.
  - unfold merge_version, merge_decision. cbn [fst snd].
    rewrite (bool_decide_false (None = _)), (bool_decide_true ((b, e) = (b, e))), Hlt by done. cbn [andb].
    rewrite !bool_decide_true by done. cbn [andb].
    destruct cap as [cp|]; [|done]. cbn [is_some_and].
    unfold admits_contribution, admits_by, merge_fits. cbn in Hfit. by rewrite (proj2 (Z.leb_le _ _) Hfit).
Qed.

(** Against a live record it was folded from: the survivor's content is above the record's. *)
Lemma survivor_over_stored sv cs ver v e b : hlc_lt sv ver -> ok cs -> ok (b, e) -> join cs (b, e) = (b, e) ->
  (lapsed_before cs.2 sv = false -> lapsed_before e sv = false) -> fits cap k (blen b) \/ blen b <= blen cs.1 ->
  meet cap k (Some (sv, inl cs, false)) (ver, Put v e b) = RStore ver (Put v e b).
Proof.
  intros Hlt Hs Hb Hj El Hfit. destruct (hlc_lt_ne _ _ Hlt) as (Hne & Hne' & _).
  assert (Hres : resolve_conflict k sv (Some cs.1) cs.2 false false ver (Put v e b) = ResMerged b e \/
    resolve_conflict k sv (Some cs.1) cs.2 false false ver (Put v e b) = IncomingWins).
  { unfold resolve_conflict, winner_resolution. rewrite (jr_merges (R:=R) (k:=k)), (jr_reads (R:=R) (k:=k)), Hne.
    cbn [tombstone_resolution orb is_incoming_tombstone rv_value is_some andb].
    unfold fold_sides. cbn [orb]. destruct (lapsed_before e sv) eqn:Ee.
    - destruct (lapsed_before cs.2 ver) eqn:Ec.
      + right. match goal with |- context [winner k ?a ?b] => assert (winner k a b = WinB) as ->; [|done] end.
        apply (jr_winner (R:=R)); [|done]. cbn. intros ->. by rewrite hlc_eqb_refl in Hne.
      + apply (lapsed_before_older _ sv) in Ec; [|by apply hlc_le_wall, hlc_lt_le]. by specialize (El Ec).
    - left. destruct (lapsed_before cs.2 ver); [done|]. by rewrite (jr_merge (R:=R) _ _ cs (b, e)), Hj by done. }
  unfold meet, resolve_and_rebind.
  cbn [fst snd live_part fmap option_fmap option_map mbind option_bind is_some negb].
  destruct Hres as [-> | ->]; [|done].
  unfold merge_version, merge_decision. cbn [fst snd].
  rewrite (bool_decide_true ((b, e) = (b, e))), Hlt, andb_true_r by done. cbn [andb].
  destruct (hlc_max_lt _ _ Hlt) as [-> _]. rewrite Hne'.
  match goal with |- context [match ?x with MvNoOp => _ | MvStore _ => _ end] => assert (x = MvStore ver) as -> by (by bcase) end.
  rewrite !bool_decide_true by done. cbn [andb].
  destruct cap as [cp|]; [|done]. cbn [is_some_and].
  assert (admits_contribution cp (blen k) (blen b) (Some (blen cs.1)) = true) as ->; [|done].
  unfold admits_contribution, admits_by, merge_fits. cbn [from_option].
  apply orb_true_iff. destruct Hfit as [Hfit|Hfit]; [left; by apply Z.leb_le|right]. apply Z.leb_le.
  unfold replicate_frame_len. lia.
Qed.

Lemma fits_mono x y : fits cap k y -> x <= y -> fits cap k x.
Proof. unfold fits. destruct cap; [|done]. unfold replicate_frame_len. lia. Qed.

Lemma room_pred n v : room (S n) v -> room n v.
Proof. unfold room. lia. Qed.

(** An entry of the run: a put that fits, stamped with room for the run's mints. *)
Definition run_entry (n : nat) (w : Hlc * Incoming V) : Prop :=
  room n w.1 /\ exists v e b, w.2 = Put v e b /\ ok (b, e) /\ fits cap k (blen b).

Lemma meet_both av ca ver (v : V) e b : ok ca -> ok (b, e) -> fold_sides false av ca.2 ver e = FoldBoth ->
  av <> ver ->
  resolve_conflict k av (Some ca.1) ca.2 false false ver (Put v e b) =
    ResMerged (join ca (b, e)).1 (join ca (b, e)).2.
Proof.
  intros Ha Hb Hf Hne. unfold resolve_conflict.
  rewrite (jr_merges (R:=R) (k:=k)), (jr_reads (R:=R) (k:=k)).
  destruct (hlc_eqb av ver) eqn:E; [by apply hlc_eqb_eq in E|].
  cbn [tombstone_resolution orb is_incoming_tombstone rv_value is_some andb].
  rewrite Hf. by rewrite (jr_merge (R:=R) _ _ ca (b, e)) by done.
Qed.

Lemma fold_both_sides ab av e ver ie : fold_sides ab av e ver ie = FoldBoth ->
  ab = false /\ lapsed_before e ver = false /\ lapsed_before ie av = false.
Proof. unfold fold_sides. destruct ab; cbn; repeat case_match; naive_solver. Qed.

Section Seeded.
Context (sv : Hlc) (cs : Content) (absent : bool).
Context (Hseed : absent = false -> ok cs).

(** The accumulator: the stored record, or a survivor the stored record will take. *)
Definition above (av : Hlc) (ai : Incoming V) (ab : bool) : Prop :=
  hlc_lt sv av /\ ab = reaches_deadline ai now_ms /\ exists v e b, ai = Put v e b /\
  if absent then fits cap k (blen b)
  else ok (b, e) /\ join cs (b, e) = (b, e) /\ (lapsed_before cs.2 sv = false -> lapsed_before e sv = false) /\
       (fits cap k (blen b) \/ blen b <= blen cs.1).
Definition reached (n : nat) (av : Hlc) (ai : Incoming V) (ab : bool) : Prop :=
  room n av /\ ((av = sv /\ incoming_content ai = inl cs /\ ab = absent) \/ above av ai ab).

Lemma survivor_stored av ai ab : above av ai ab ->
  meet cap k (Some (sv, inl cs, absent)) (av, ai) = RStore av ai.
Proof.
  intros (Hlt & _ & v & e & b & -> & Hi). destruct absent.
  - by apply survivor_over_absent.
  - destruct Hi as (? & ? & ? & ?). apply survivor_over_stored; auto.
Qed.

(** One stored step keeps the accumulator above the stored record. *)
Lemma step_above n av ai ab ver inc v' i' : reached (S n) av ai ab -> run_entry (S n) (ver, inc) ->
  (absent = false -> fold_sides ab av (incoming_deadline ai) ver (incoming_deadline inc) = FoldBoth) ->
  meet cap k (Some (av, incoming_content ai, ab)) (ver, inc) = RStore v' i' ->
  reached n v' i' (reaches_deadline i' now_ms).
Proof.
  intros [Hroom Hacc] (Hr & v & e & b & Hinc & Hokb & Hfit) Hboth Hm. cbn in Hr, Hinc. subst inc.
  assert (Hle : hlc_le sv av) by (destruct Hacc as [(-> & _)|(Hlt & _)]; [apply hlc_le_refl|by apply hlc_lt_le]).
  assert (exists ca, incoming_content ai = inl ca /\ incoming_deadline ai = ca.2 /\
     if absent then ab = true \/ fits cap k (blen ca.1)
     else ok ca /\ join cs ca = ca /\ (lapsed_before cs.2 sv = false -> lapsed_before ca.2 sv = false) /\
          (fits cap k (blen ca.1) \/ blen ca.1 <= blen cs.1)) as (ca & Hca & Hde & Hinv).
  { destruct Hacc as [(-> & Hc & ->)|(_ & _ & v0 & e0 & b0 & -> & Hi)].
    - exists cs. split_and!; [done|by destruct ai; simplify_eq/=|]. destruct absent; [by left|].
      split_and!; [by apply Hseed|apply (jr_idem (R:=R)); by apply Hseed|done|by right].
    - exists (b0, e0). split_and!; try done. destruct absent; [by right|done]. }
  rewrite Hca in Hm. rewrite Hde in Hboth. clear Hde Hca.
  pose proof (meet_store _ _ _ _ _ _ _ _ _ Hm) as Hst.
  assert (Hv' : hlc_lt av v' /\ room n v').
  { destruct Hst as [(-> & _ & Hlt & _)|(? & ? & ? & ? & ? & ? & _ & Hd & _)]; [split; [done|]; by apply room_pred|].
    unfold room in *. apply merge_decision_gt in Hd as [Hlt Hw]; [|lia..]. split; [done|lia]. }
  destruct Hv' as [Hlt' Hroom']. split; [done|]. right. split; [by eapply hlc_le_lt_trans|]. split; [done|].
  destruct absent eqn:Eabs.
  - destruct Hst as [(-> & -> & _)|(d & value & e' & ? & ? & ? & -> & _ & Hres & Hf)]; [by eexists _, _, _|].
    eexists _, _, _. split; [done|]. destruct Hinv as [->|Hca].
    + assert (value = b) as ->; [|done]. revert Hres. unfold resolve_conflict, winner_resolution.
      rewrite (jr_merges (R:=R) (k:=k)), (jr_reads (R:=R) (k:=k)). cbn.
      unfold fold_sides. cbn. repeat case_match; by intros [= <- <-].
    + destruct Hf as [Hf|Hf]; [done|]. by eapply fits_mono.
  - specialize (Hboth eq_refl). destruct Hinv as (Hoka & Hja & Hla & Hfa).
    destruct (fold_both_sides _ _ _ _ _ Hboth) as (-> & _ & Hlb). cbn in Hlb, Hboth.
    assert (Hne : av <> ver).
    { intros ->. unfold meet, resolve_and_rebind, resolve_conflict in Hm. cbn in Hm. by rewrite hlc_eqb_refl in Hm. }
    pose proof (meet_both av ca ver v e b Hoka Hokb Hboth Hne) as Hmb.
    destruct Hst as [(_ & _ & _ & Hw)|(d & value & e' & ? & ? & ? & -> & _ & Hres & Hf)]; [congruence|].
    rewrite Hmb in Hres. injection Hres as <- <-.
    assert (Hpair : ((join ca (b, e)).1, (join ca (b, e)).2) = join ca (b, e)) by (by destruct (join ca (b, e))).
    eexists _, _, _. split; [done|]. rewrite Hpair. pose proof (Hseed eq_refl) as Hoks. split_and!.
    + by apply (jr_ok (R:=R)).
    + by rewrite (jr_assoc (R:=R)), Hja.
    + intros Hsv. rewrite (jr_deadline (R:=R)) by done. apply later_deadline_lapsed; [by apply Hla|].
      apply (lapsed_before_older _ sv av); [by apply hlc_le_wall|done].
    + destruct Hf as [Hf|Hf]; [by left|]. destruct Hfa as [Hfa|Hfa]; [left; by eapply fits_mono|right; lia].
Qed.

Lemma reached_pred n av ai ab : reached (S n) av ai ab -> reached n av ai ab.
Proof. intros [? ?]. split; [by apply room_pred|done]. Qed.

Lemma run_entry_pred n w : run_entry (S n) w -> run_entry n w.
Proof. intros [? ?]. split; [by apply room_pred|done]. Qed.

(** A fold seeded with the stored record. *)
Lemma fold_seeded value rest (f := fold_run cap k sv (Put value cs.2 cs.1) absent (negb absent) now_ms rest) :
  room (length rest) sv -> Forall (run_entry (length rest)) rest ->
  exists consumed ab' refs,
    rest = consumed ++ fr_remaining f /\
    in_order cap now_ms k (Some (sv, inl cs, absent)) consumed =
      (Some (fr_ver f, incoming_content (fr_incoming f), ab'), refs) /\
    fr_refused f = refused_from 0 refs /\
    reached 0 (fr_ver f) (fr_incoming f) ab'.
Proof.
  intros Hr Hall.
  destruct (fold_loop_spec cap now_ms k (negb absent) reached run_entry) with (rest := rest) (av := sv)
    (ai := Put value cs.2 cs.1) (ab := absent) (refused := @nil (nat * Z)) (step := 0%nat)
    as (consumed & ab' & refs & H1 & H2 & H3 & _ & H5).
  - intros n av ai ab ver inc v' i' Ha Hw Hb. apply step_above; try done. intros E. apply Hb. by rewrite E.
  - apply reached_pred.
  - apply run_entry_pred.
  - split; [done|]. left. by destruct cs.
  - done.
  - exists consumed, ab', refs. split_and!; try done. cbn [incoming_content] in H2. by rewrite <-surjective_pairing in H2.
Qed.

End Seeded.

End Survivor.

(** ** What a run becomes *)

Definition planned_ref (r : option Z) : RunSlot := match r with Some size => RunRefused size | None => RunAbsorbed end.

Lemma plan_refused refs : forall step fs pre tl, length pre = (step + fs)%nat ->
  foldl (fun plan '(step, size) => <[(step + fs)%nat := RunRefused size]> plan)
    (pre ++ replicate (length refs) RunAbsorbed ++ tl) (refused_from step refs) =
  pre ++ (planned_ref <$> refs) ++ tl.
Proof.
  induction refs as [|[size|] refs IH]; intros step fs pre tl Hl; cbn; [done|..].
  - rewrite insert_app_r_alt by lia. rewrite Hl, Nat.sub_diag. cbn.
    specialize (IH (S step) fs (pre ++ [RunRefused size]) tl). rewrite <-!app_assoc in IH. cbn in IH.
    apply IH. rewrite length_app. cbn. lia.
  - specialize (IH (S step) fs (pre ++ [RunAbsorbed]) tl). rewrite <-!app_assoc in IH. cbn in IH.
    apply IH. rewrite length_app. cbn. lia.
Qed.

(** The last position nothing refused becomes the survivor's. *)
Inductive marked (q : list RunSlot) : list RunSlot -> Prop :=
  | marked_none : (forall i, q !! i <> Some RunAbsorbed) -> marked q q
  | marked_last q1 q2 : q = q1 ++ RunAbsorbed :: q2 -> (forall i, q2 !! i <> Some RunAbsorbed) ->
      marked q (q1 ++ RunSurvivor :: q2).

Lemma last_absorbed (q : list RunSlot) :
  (forall i, q !! i <> Some RunAbsorbed) \/
  exists q1 q2, q = q1 ++ RunAbsorbed :: q2 /\ forall i, q2 !! i <> Some RunAbsorbed.
Proof.
  induction q as [|r q IH] using rev_ind; [by left|].
  destruct (decide (r = RunAbsorbed)) as [->|Hr]; [right; by exists q, []|].
  assert (Hlast : forall q0, (forall i, q0 !! i <> Some RunAbsorbed) -> forall i, (q0 ++ [r]) !! i <> Some RunAbsorbed).
  { intros q0 H0 i. rewrite lookup_app. destruct (q0 !! i) eqn:E; [by rewrite <-E|].
    destruct (i - length q0)%nat as [|[|]]; cbn; naive_solver. }
  destruct IH as [H|(q1 & q2 & -> & H)]; [left; auto|right].
  exists q1, (q2 ++ [r]). split; [by rewrite <-app_assoc|auto].
Qed.

Lemma mark_survivor q tl :
  exists q', marked q q' /\
  match last (filter (fun i => (q ++ tl) !! i = Some RunAbsorbed) (seq 0 (length q))) with
  | Some last => <[last := RunSurvivor]> (q ++ tl)
  | None => q ++ tl
  end = q' ++ tl.
Proof.
  destruct (last_absorbed q) as [H|(q1 & q2 & -> & H)].
  - exists q. split; [by left|]. rewrite filter_none; [done|]. intros i Hi%elem_of_seq. rewrite lookup_app_l by lia. apply H.
  - exists (q1 ++ RunSurvivor :: q2). split; [by eright|].
    rewrite length_app. cbn [length]. rewrite seq_app, filter_app. cbn [seq Nat.add].
    rewrite filter_cons_True; [|rewrite <-app_assoc; cbn [app]; by apply list_lookup_middle].
    rewrite (filter_none _ (seq (S (length q1)) _)), last_snoc.
    + rewrite <-!app_assoc. cbn [app]. rewrite insert_app_r_alt by lia. by rewrite Nat.sub_diag.
    + intros i Hi%elem_of_seq. rewrite <-app_assoc, lookup_app_r by lia. cbn [app].
      destruct (i - length q1)%nat as [|j] eqn:E; [lia|].
      change ((RunAbsorbed :: q2 ++ tl) !! S j) with ((q2 ++ tl) !! j).
      rewrite lookup_app_l by lia. apply H.
Qed.

Lemma plan_run_spec fs refs len : (fs + length refs <= len)%nat ->
  exists q', marked (replicate fs RunAbsorbed ++ (planned_ref <$> refs)) q' /\
    plan_run len (fs + length refs) fs (refused_from 0 refs) =
    q' ++ replicate (len - (fs + length refs)) RunUnconsumed.
Proof.
  intros Hlen. unfold plan_run. rewrite replicate_add, <-app_assoc.
  rewrite plan_refused by (by rewrite length_replicate). rewrite app_assoc.
  destruct (mark_survivor (replicate fs RunAbsorbed ++ (planned_ref <$> refs))
    (replicate (len - (fs + length refs)) RunUnconsumed)) as (q' & Hm & Heq).
  exists q'. split; [done|]. rewrite <-Heq. by rewrite length_app, length_replicate, length_fmap.
Qed.

Section Slots.
Context {HS : Hashing} {R : ConflictResolver} {V : Type} {VC : ValueCodec V}.
Context (cap : option MergeCap) (now_ms : Z).

(** One key's slots, in order: an absorbed or refused one leaves the cell as it is. *)
Fixpoint slots_in_order (k : Bytes) (c : Cell) (ss : list (Slot V)) : Cell * list (option Z) :=
  match ss with
  | [] => (c, [])
  | SlotApply e :: ss =>
      let r := meet cap k c (be_ver e, be_incoming e) in
      let '(c', refs) := slots_in_order k (left_by now_ms c r) ss in (c', refusal r :: refs)
  | SlotAbsorbed :: ss => let '(c', refs) := slots_in_order k c ss in (c', None :: refs)
  | SlotRefused _ size :: ss => let '(c', refs) := slots_in_order k c ss in (c', Some size :: refs)
  end.

Lemma slots_in_order_app k ss1 : forall c ss2,
  slots_in_order k c (ss1 ++ ss2) =
  let '(c1, r1) := slots_in_order k c ss1 in let '(c2, r2) := slots_in_order k c1 ss2 in (c2, r1 ++ r2).
Proof.
  induction ss1 as [|s ss1 IH]; intros c ss2; cbn; [by destruct (slots_in_order k c ss2)|].
  destruct s; rewrite IH; destruct (slots_in_order k _ ss1) as [c1 r1]; by destruct (slots_in_order k c1 ss2).
Qed.

Lemma slots_in_order_entries k es : forall c,
  slots_in_order k c (SlotApply <$> es) = in_order cap now_ms k c ((fun e => (be_ver e, be_incoming e)) <$> es).
Proof. induction es as [|e es IH]; intros c; cbn; [done|]. by rewrite IH. Qed.

(** The slots a planned run is given. *)
Fixpoint planned_slots (survivor : Hlc * Incoming V) (remaining : list (Hlc * Incoming V)) (parts : list (BatchEntry V))
    (plan : list RunSlot) : list (Slot V) :=
  match parts, plan with
  | part :: parts, RunAbsorbed :: plan => SlotAbsorbed :: planned_slots survivor remaining parts plan
  | part :: parts, RunSurvivor :: plan =>
      SlotApply {| be_key := be_key part; be_ver := survivor.1; be_incoming := survivor.2 |}
        :: planned_slots survivor remaining parts plan
  | part :: parts, RunRefused size :: plan =>
      SlotRefused (be_key part) size :: planned_slots survivor remaining parts plan
  | part :: parts, RunUnconsumed :: plan =>
      match remaining with
      | (ver, incoming) :: remaining =>
          SlotApply {| be_key := be_key part; be_ver := ver; be_incoming := incoming |}
            :: planned_slots survivor remaining parts plan
      | [] => SlotApply part :: planned_slots survivor [] parts plan
      end
  | _, _ => []
  end.

Lemma planned_refs k survivor rem refs : forall parts plan c,
  length parts = (length refs + length plan)%nat ->
  slots_in_order k c (planned_slots survivor rem parts ((planned_ref <$> refs) ++ plan)) =
  let '(c', r) := slots_in_order k c (planned_slots survivor rem (drop (length refs) parts) plan) in (c', refs ++ r).
Proof.
  induction refs as [|r refs IH]; intros parts plan c Hl; cbn [fmap list_fmap app length drop].
  { by destruct (slots_in_order k c _). }
  destruct parts as [|part parts]; [done|]. cbn in Hl.
  destruct r as [size|]; cbn [planned_ref planned_slots slots_in_order]; rewrite IH by lia;
    by destruct (slots_in_order k c _).
Qed.

Lemma planned_rest k survivor rem : forall parts c, length parts = length rem ->
  slots_in_order k c (planned_slots survivor rem parts (replicate (length rem) RunUnconsumed)) =
  in_order cap now_ms k c rem.
Proof.
  induction rem as [|[ver inc] rem IH]; intros [|part parts] c Hl; try done. cbn in Hl.
  cbn [length replicate planned_slots slots_in_order in_order be_ver be_incoming]. by rewrite IH by lia.
Qed.

(** A folded run, applied slot by slot: the survivor leaves what the consumed entries leave,
    and the entries after them run as they would have. *)
Lemma planned_run k c c' survivor refs rem parts q' :
  marked (planned_ref <$> refs) q' -> length parts = (length refs + length rem)%nat ->
  (None ∈ refs -> left_by now_ms c (meet cap k c survivor) = c' /\ refusal (meet cap k c survivor) = None) ->
  (None ∉ refs -> c' = c) ->
  slots_in_order k c (planned_slots survivor rem parts (q' ++ replicate (length rem) RunUnconsumed)) =
  let '(c'', r) := in_order cap now_ms k c' rem in (c'', refs ++ r).
Proof.
  intros Hm Hl Hsurv Hall. inversion Hm as [Hn|q1 q2 Heq Hn]; subst q'.
  - rewrite planned_refs by (rewrite length_replicate; lia).
    rewrite planned_rest by (rewrite length_drop; lia).
    rewrite Hall; [done|]. intros [i Hi]%list_elem_of_lookup. apply (Hn i). rewrite list_lookup_fmap, Hi. done.
  - apply fmap_app_inv in Heq as (r1 & r2 & -> & Hr2 & ->). symmetry in Hr2.
    apply fmap_cons_inv in Hr2 as (r & r2' & Hr & -> & ->). destruct r; [done|].
    destruct Hsurv as [Hleft Href]; [set_solver|].
    rewrite length_app in Hl. cbn [length] in Hl. rewrite <-app_assoc. cbn [app].
    rewrite planned_refs by (cbn; rewrite length_app, length_fmap, length_replicate; lia).
    assert (Hd : length (drop (length r1) parts) = S (length r2' + length rem)) by (rewrite length_drop; lia).
    destruct (drop (length r1) parts) as [|part parts']; [done|]. injection Hd as Hd.
    cbn [planned_slots slots_in_order be_ver be_incoming]. rewrite <-surjective_pairing, Hleft, Href.
    rewrite planned_refs by (rewrite length_replicate; lia).
    rewrite planned_rest by (rewrite length_drop; lia).
    destruct (in_order cap now_ms k c' rem). by rewrite <-app_assoc.
Qed.

(** Refused steps leave the cell as it is. *)
Lemma in_order_refused k ws : forall c c' refs, in_order cap now_ms k c ws = (c', refs) -> None ∉ refs -> c' = c.
Proof.
  induction ws as [|w ws IH]; intros c c' refs; cbn; [by intros [= <- <-]|].
  destruct (in_order cap now_ms k _ ws) as [c1 r1] eqn:E. intros [= <- <-] Hn. rewrite not_elem_of_cons in Hn.
  destruct Hn as [Hr Hn]. rewrite (IH _ _ _ E Hn). destruct (meet cap k c w); cbn in *; done.
Qed.

(** The seed a run is folded from is the cell its key has. *)
Definition seeds (seed : option PrefoldSeed) (c : Cell) : Prop :=
  match seed with
  | None => True
  | Some Vacant => c = None
  | Some (SeedStored sv encoded e absent) => c = Some (sv, inl (encoded, e), absent)
  | Some SeedSequential => exists sv d ab, c = Some (sv, inr d, ab)
  end.

(** What a fold against a stored record relies on. *)
Definition foldable (ok : Content -> Prop) (k : Bytes) (c : Cell) (ws : list (Hlc * Incoming V)) : Prop :=
  match c with
  | Some (sv, inl cs, absent) =>
      room (length ws) sv /\ Forall (run_entry cap k ok (length ws)) ws /\
      (absent = false -> ok cs)
  | _ => True
  end.

Context (ok : Content -> Prop) (join : Content -> Content -> Content) (HR : forall k, JoinResolver R k ok join).
Context (Hcap : forall c, cap = Some c -> 0 <= cap_cache_len c).

Lemma marked_length q q' : marked q q' -> length q' = length q.
Proof. intros [_|q1 q2 -> _]; [done|]. by rewrite !length_app. Qed.

Section Run.
Context (k : Bytes) (parts : list (BatchEntry V)).
Abbreviation ws := ((fun p => (be_ver p, be_incoming p)) <$> parts).
Definition run_plan (f : FoldedRun V) (fs : nat) : list RunSlot :=
  plan_run (length parts) (length parts - length (fr_remaining f)) fs (fr_refused f).

(** The fold's plan is a marked one, and its slots run as the entries do. *)
Definition exact_plan (c : Cell) (f : FoldedRun V) (fs : nat) : Prop :=
  (exists refs q', marked (planned_ref <$> refs) q' /\
    length parts = (length refs + length (fr_remaining f))%nat /\
    run_plan f fs = q' ++ replicate (length (fr_remaining f)) RunUnconsumed) /\
  slots_in_order k c (planned_slots (fr_ver f, fr_incoming f) (fr_remaining f) parts (run_plan f fs)) =
  in_order cap now_ms k c ws.

Lemma exact_plan_intro f fs consumed refs c c' : ws = consumed ++ fr_remaining f ->
  in_order cap now_ms k c consumed = (c', replicate fs None ++ refs) -> fr_refused f = refused_from 0 refs ->
  (None ∈ replicate fs None ++ refs -> left_by now_ms c (meet cap k c (fr_ver f, fr_incoming f)) = c' /\
    refusal (meet cap k c (fr_ver f, fr_incoming f)) = None) ->
  exact_plan c f fs.
Proof.
  intros Hws Hin Href Hsurv. pose proof (f_equal length Hws) as Hl. rewrite length_fmap, length_app in Hl.
  pose proof (in_order_length cap now_ms k consumed c) as Hlr. rewrite Hin in Hlr. cbn [snd] in Hlr.
  rewrite length_app, length_replicate in Hlr.
  destruct (plan_run_spec fs refs (length parts)) as (q' & Hm & Hplan); [lia|].
  assert (Hq : replicate fs RunAbsorbed ++ (planned_ref <$> refs) = planned_ref <$> replicate fs None ++ refs)
    by (rewrite fmap_app, fmap_replicate; done).
  rewrite Hq in Hm.
  assert (Hp : run_plan f fs = q' ++ replicate (length (fr_remaining f)) RunUnconsumed).
  { unfold run_plan. rewrite Href. replace (length parts - length (fr_remaining f))%nat with (fs + length refs)%nat by lia.
    rewrite Hplan. do 2 f_equal. lia. }
  split.
  - exists (replicate fs None ++ refs), q'. split_and!; [done| |done]. rewrite length_app, length_replicate. lia.
  - rewrite Hp, (planned_run k c c' _ (replicate fs None ++ refs)); try done.
    + rewrite Hws, in_order_app, Hin. by destruct (in_order cap now_ms k c' (fr_remaining f)).
    + rewrite length_app, length_replicate. lia.
    + by apply (in_order_refused k consumed).
Qed.

(** A folded run applied slot by slot is the run applied entry by entry: the same cell is left
    and the same entries are refused, with the same sizes. *)
Lemma folded_run_exact f fs seed c : seed <> None -> seeds seed c -> foldable ok k c ws ->
  fold_parts cap seed now_ms k ws = Some (f, fs) -> exact_plan c f fs.
Proof.
  intros Hsome Hseed Hfold Hf. destruct seed as [[|sv enc e absent|]|]; try done; cbn in Hseed, Hf; subst c.
  - apply bind_Some in Hf as ([ver inc] & Hhd & Hf). injection Hf as Hf <-.
    destruct (fold_loop_spec cap now_ms k false (fun _ _ ai ab => ab = reaches_deadline ai now_ms) (fun _ _ => True))
      with (rest := tail ws) (av := ver) (ai := inc) (ab := reaches_deadline inc now_ms) (refused := @nil (nat * Z))
      (step := 0%nat) as (consumed & ab' & refs & H1 & H2 & H3 & H4 & ->); try done; [by apply Forall_true|].
    fold (fold_run cap k ver inc (reaches_deadline inc now_ms) false now_ms (tail ws)) in H1, H2, H3, H4.
    rewrite Hf in *. rewrite H4, app_nil_r in H1 by done.
    eapply (exact_plan_intro f 1 ((ver, inc) :: consumed) refs); [|cbn [in_order meet left_by fst snd]; rewrite H2; reflexivity|done|done].
    rewrite H4, app_nil_r, <-H1 by done. by destruct ws as [|w ws']; simplify_eq/=.
  - apply bind_Some in Hf as (value & _ & Hf). injection Hf as Hf <-.
    destruct Hfold as (Hroom & Hall & Hseed).
    destruct (fold_seeded cap now_ms k ok join Hcap sv (enc, e) absent Hseed value ws Hroom Hall)
      as (consumed & ab' & refs & H1 & H2 & H3 & Hreach). cbn [fst snd] in H1, H2, H3, Hreach. rewrite Hf in *.
    apply (exact_plan_intro f 0 consumed refs _ _ H1 H2 H3). intros _.
    destruct Hreach as [_ [(Hv & Hc & ->)|Habove]].
    + rewrite Hv, Hc. unfold meet, resolve_and_rebind, resolve_conflict. cbn [fst snd]. by rewrite hlc_eqb_refl.
    + pose proof (survivor_stored cap now_ms k ok join Hcap sv (enc, e) absent Hseed _ _ _ Habove) as ->.
      destruct Habove as (_ & -> & _). done.
Qed.

End Run.

End Slots.

(** ** Where a plan ix written *)

Definition at_indices {A} (l : list A) (ix : list nat) : list A := omap (fun i => l !! i) ix.

Lemma at_indices_app {A} (l : list A) ix1 ix2 : at_indices l (ix1 ++ ix2) = at_indices l ix1 ++ at_indices l ix2.
Proof. apply omap_app. Qed.

Lemma at_indices_ext {A} (l l' : list A) ix : (forall i, i ∈ ix -> l !! i = l' !! i) -> at_indices l ix = at_indices l' ix.
Proof.
  unfold at_indices. induction ix as [|i ix IH]; intros Hi; [done|]. cbn. rewrite (Hi i) by set_solver.
  rewrite IH by set_solver. done.
Qed.

Lemma at_indices_fmap {A B} (g : A -> B) (l : list A) ix : at_indices (g <$> l) ix = g <$> at_indices l ix.
Proof.
  unfold at_indices. induction ix as [|i ix IH]; [done|]. cbn. rewrite list_lookup_fmap. destruct (l !! i); cbn; by rewrite IH.
Qed.

Lemma at_indices_length {A} (l : list A) ix : Forall (fun i => (i < length l)%nat) ix -> length (at_indices l ix) = length ix.
Proof.
  unfold at_indices. induction 1 as [|i ix Hi _ IH]; [done|]. cbn. apply lookup_lt_is_Some in Hi as [x ->]. cbn. by rewrite IH.
Qed.

(** A plan with one survivor at most, and something remaining for each unconsumed index. *)
Inductive planned_ok : bool -> nat -> list RunSlot -> Prop :=
  | po_nil b : planned_ok b 0 []
  | po_absorbed b n plan : planned_ok b n plan -> planned_ok b n (RunAbsorbed :: plan)
  | po_refused b n size plan : planned_ok b n plan -> planned_ok b n (RunRefused size :: plan)
  | po_survivor n plan : planned_ok false n plan -> planned_ok true n (RunSurvivor :: plan)
  | po_unconsumed b n plan : planned_ok b n plan -> planned_ok b (S n) (RunUnconsumed :: plan).

Lemma planned_ok_rest b n : planned_ok b n (replicate n RunUnconsumed).
Proof. induction n; cbn; by constructor. Qed.

Lemma planned_ok_refs b n refs plan : planned_ok b n plan -> planned_ok b n ((planned_ref <$> refs) ++ plan).
Proof. intros H. induction refs as [|[|] refs IH]; cbn; [done|by constructor..]. Qed.

Lemma planned_ok_marked refs q' n : marked (planned_ref <$> refs) q' -> planned_ok true n (q' ++ replicate n RunUnconsumed).
Proof.
  intros Hm. inversion Hm as [Hn|q1 q2 Heq Hn]; subst q'; [apply planned_ok_refs, planned_ok_rest|].
  apply fmap_app_inv in Heq as (r1 & r2 & -> & Hr2 & ->). symmetry in Hr2.
  apply fmap_cons_inv in Hr2 as (r & r2' & _ & -> & ->).
  rewrite <-app_assoc. cbn. apply planned_ok_refs. constructor. apply planned_ok_refs, planned_ok_rest.
Qed.

Section Place.
Context {V : Type}.
Implicit Types slots : list (Slot V).

Lemma place_spec survivor run : forall slots parts plan rem live,
  NoDup run -> Forall (fun i => (i < length slots)%nat) run -> length parts = length run -> length plan = length run ->
  planned_ok (is_some live) (length rem) plan -> (forall w, live = Some w -> w = survivor) ->
  exists slots', place slots run parts plan live rem = Some slots' /\ length slots' = length slots /\
    (forall i, i ∉ run -> slots' !! i = slots !! i) /\
    at_indices slots' run = planned_slots survivor rem parts plan.
Proof.
  induction run as [|idx run IH]; intros slots [|part parts] [|p plan] rem live Hnd Hlt Hlp Hlq Hok Hlive; try done.
  { by exists slots. }
  apply NoDup_cons in Hnd as [Hni Hnd]. apply Forall_cons in Hlt as [Hidx Hlt]. cbn in Hlp, Hlq.
  injection Hlp as Hlp. injection Hlq as Hlq.
  assert (Hnext : forall s live' rem', planned_ok (is_some live') (length rem') plan ->
    (forall w, live' = Some w -> w = survivor) ->
    exists slots', place (<[idx := s]> slots) run parts plan live' rem' = Some slots' /\ length slots' = length slots /\
      (forall i, i ∉ idx :: run -> slots' !! i = slots !! i) /\
      at_indices slots' (idx :: run) = s :: planned_slots survivor rem' parts plan).
  { intros s live' rem' Hok' Hlive'. destruct (IH (<[idx := s]> slots) parts plan rem' live') as (slots' & H1 & H2 & H3 & H4);
      try done; [by rewrite length_insert|]. rewrite length_insert in H2. exists slots'. split_and!; try done.
    - intros i [Hi1 Hi2]%not_elem_of_cons. rewrite H3 by done. by rewrite list_lookup_insert_ne.
    - unfold at_indices in *. cbn. rewrite H3, list_lookup_insert_eq by done. cbn. by rewrite H4. }
  inversion Hok; subst; cbn [place planned_slots]; try by apply Hnext.
  - destruct live as [w|]; [|done]. rewrite (Hlive w eq_refl). cbn [mbind option_bind].
    destruct survivor as [ver inc]. by apply Hnext.
  - destruct rem as [|[ver inc] rem]; [done|]. cbn in *. simplify_eq. by apply Hnext.
Qed.

End Place.

(** ** The runs of a key *)

Section Runs.
Context {V : Type} (entries : list (BatchEntry V)).

Lemma key_indices_elem k i : i ∈ key_indices entries k <-> be_key <$> entries !! i = Some k.
Proof.
  unfold key_indices. rewrite list_elem_of_filter, elem_of_seq. split; [naive_solver|]. intros Hk. split; [done|].
  destruct (entries !! i) eqn:E; [|done]. apply lookup_lt_Some in E. lia.
Qed.

Lemma key_indices_nodup k : NoDup (key_indices entries k).
Proof. apply NoDup_filter, NoDup_seq. Qed.

Lemma key_indices_lt k : Forall (fun i => (i < length entries)%nat) (key_indices entries k).
Proof.
  apply Forall_forall. intros i Hi%key_indices_elem. destruct (entries !! i) eqn:E; [|done]. by eapply lookup_lt_Some.
Qed.

Definition is_put (i : nat) : Prop := forall d, be_incoming <$> entries !! i <> Some (IncTombstone d).

Lemma run_step_past ix : forall runs cur,
  foldl (run_step entries) (runs, cur, true) ix = (runs ++ ((fun i => [i]) <$> ix), cur, true).
Proof.
  induction ix as [|i ix IH]; intros runs cur; cbn; [by rewrite app_nil_r|]. by rewrite IH, <-app_assoc.
Qed.

Lemma run_step_leading ix : forall cur, Forall is_put cur ->
  exists lead rest past cur', cur ++ ix = lead ++ rest /\ Forall is_put lead /\
    foldl (run_step entries) ([], cur, false) ix =
      ((if bool_decide (cur' = lead) then [] else if bool_decide (lead = []) then [] else [lead]) ++
        ((fun i => [i]) <$> rest), cur', past) /\
    (cur' = lead \/ cur' = []) /\ (cur' = lead -> lead <> [] -> rest = []).
Proof.
  induction ix as [|i ix IH]; intros cur Hcur; cbn [foldl].
  { exists cur, [], false, cur. rewrite bool_decide_true by done. by split_and!; auto. }
  unfold run_step at 2. destruct (be_incoming <$> entries !! i) as [[v e b|d]|] eqn:E.
  2: { exists cur, (i :: ix), true, []. rewrite run_step_past. split_and!; [done|done| |by right|by intros <-].
       f_equal. f_equal. destruct cur; cbn; done. }
  all: destruct (IH (cur ++ [i])) as (lead & rest & past & cur' & H1 & H2 & H3 & H4);
    [apply Forall_app; split; [done|]; apply Forall_singleton; intros d; rewrite E; done|];
    exists lead, rest, past, cur'; rewrite <-app_assoc in H1; by split_and!; try apply H4.
Qed.

(** A key's runs: the puts before its first tombstone, then each later entry on its own. *)
Lemma key_runs_spec k : exists lead rest, key_indices entries k = lead ++ rest /\ Forall is_put lead /\
  key_runs entries k = (if bool_decide (lead = []) then [] else [lead]) ++ ((fun i => [i]) <$> rest).
Proof.
  unfold key_runs. destruct (run_step_leading (key_indices entries k) []) as (lead & rest & past & cur' & H1 & H2 & -> & H4 & H5);
    [done|]. exists lead, rest. split_and!; [done|done|].
  destruct H4 as [->| ->].
  - rewrite (bool_decide_true (lead = lead)) by done. cbn [app]. case_bool_decide; [done|]. by rewrite H5.
  - rewrite (bool_decide_true ([] = [])) by done. destruct lead; [|done]. done.
Qed.

End Runs.
