(* ===== verification/Batch.v ===== *)
(** * Batches of writes

    [store/engine/apply.rs]: [apply_many_in], its pre-fold stage [prefold_slots] and
    [apply_if_current]. A batch is one stripe's; the order in which the pre-fold's hash map
    lists the keys is an argument. *)

From S2P Require Import Prelude Clock Part Types Record Expiry Wire Merge Arena Engine Apply Removal Evict Prefold.

(** ** Definitions *)

Section Batch.
Context {PU : PostcardU32} {HS : Hashing} {R : ConflictResolver} {V : Type} {VC : ValueCodec V} {IS : IdleSort}.

(** The context every entry of the batch is applied under. *)
Definition batch_ctx (e : Engine V) (scope : ApplyScope) (arrival : Arrival)
    (tombstone_ttl_ms tombstone_max_ttl_ms now_ms : Z) : ApplyCtx V := {|
  ac_weigher := weigher (cfg e); ac_tti_ms := tti_ms (cfg e);
  ac_merge_cap := if merges then merge_cap e else None;
  ac_tombstone_ttl_ms := tombstone_ttl_ms; ac_tombstone_max_ttl_ms := tombstone_max_ttl_ms;
  ac_deferring := deferring_at e now_ms tombstone_ttl_ms; ac_now_ms := now_ms;
  ac_from_peer := is_peer arrival;
  ac_held_only := match scope with HeldOnly => true | AnyScope => false end |}.

(** Whether an outcome stored a value. *)
Definition is_put_outcome (o : ApplyOutcome V) : bool := match o with OPut _ _ _ _ => true | _ => false end.

Record BatchState := {
  bs_engine : Engine V;
  bs_ignored : Z;
  bs_outcomes : list (ApplyOutcome V);
  bs_wrote : bool;
  bs_written : Written;
}.

(** One turn of the loop over the slots. *)
Definition apply_slot (ctx : ApplyCtx V) (bucket : nat) (b : BatchState) (slot : Slot V) : BatchState :=
  match into_entry slot with
  | inr outcome => {|
      bs_engine := bs_engine b; bs_ignored := bs_ignored b; bs_outcomes := bs_outcomes b ++ [outcome];
      bs_wrote := bs_wrote b; bs_written := bs_written b |}
  | inl entry =>
      let '(e, ignored, outcome) :=
        apply_at (bs_engine b) bucket (bs_ignored b) ctx (be_key entry) (be_ver entry) (be_incoming entry) in
      let put := is_put_outcome outcome in
      {| bs_engine := e; bs_ignored := ignored; bs_outcomes := bs_outcomes b ++ [outcome];
         bs_wrote := put || bs_wrote b;
         bs_written := if put && negb (max_capacity (cfg e) =? u64_max)
                       then written_insert (bs_written b) (hash_key_bytes (be_key entry)) else bs_written b |}
  end.

Definition apply_slots (ctx : ApplyCtx V) (bucket : nat) (e : Engine V) (written : Written) (slots : list (Slot V)) :
    BatchState :=
  foldl (apply_slot ctx bucket)
    {| bs_engine := e; bs_ignored := 0; bs_outcomes := []; bs_wrote := false; bs_written := written |} slots.

(** [None] is a panic of [prefold_batch]. *)
Definition prefold_slots (e : Engine V) (bucket : nat) (keys : list Bytes) (entries : list (BatchEntry V))
    (cap : option MergeCap) (now_ms : Z) : option (list (Slot V)) :=
  let runs := group_prefold_runs keys entries in
  let stored_seeds := peek_prefold_seeds (stripe_at e bucket) entries runs (tti_ms (cfg e)) now_ms in
  prefold_batch cap stored_seeds now_ms entries runs.

Definition prefolds (e : Engine V) (scope : ApplyScope) : bool :=
  merges && (match scope with HeldOnly => false | AnyScope => true end) && prefold_enabled (cfg e).

Definition apply_many_in (e : Engine V) (scope : ApplyScope) (arrival : Arrival) (bucket : nat) (keys : list Bytes)
    (entries : list (BatchEntry V)) (tombstone_ttl_ms tombstone_max_ttl_ms now_ms : Z) (written : Written) :
    option (Engine V * Written * list (ApplyOutcome V) * Z) :=
  let ctx := batch_ctx e scope arrival tombstone_ttl_ms tombstone_max_ttl_ms now_ms in
  slots ← (if prefolds e scope then prefold_slots e bucket keys entries (ac_merge_cap ctx) now_ms
           else Some (SlotApply <$> entries));
  let b := apply_slots ctx bucket e written slots in
  let written := written_ignore (bs_written b) (bs_ignored b) in
  if bs_wrote b then
    '(e, written, (deficit, _)) ← enforce_capacity (bs_engine b) bucket written now_ms;
    Some (e, written, bs_outcomes b, deficit)
  else Some (bs_engine b, written, bs_outcomes b, 0).

Definition apply_many_with_reservation (e : Engine V) (arrival : Arrival) := apply_many_in e AnyScope arrival.

(** The result is the engine and the outcome, [None] inside when the key's live entry is not
    the expected one any more; the outer [None] is the eviction loop's fuel. *)
Definition apply_if_current (e : Engine V) (entry : BatchEntry V) (expected : Hlc)
    (tombstone_ttl_ms tombstone_max_ttl_ms now_ms : Z) : option (Engine V * option (ApplyOutcome V)) :=
  let bucket := bucket_of_key (be_key entry) in
  let st := stripe_at e bucket in
  match find_in st (be_key entry) with
  | None => Some (e, None)
  | Some live =>
      if negb (hlc_eqb (live_ver live) expected) || is_absent e live (be_key entry) (st_long_ttl st) now_ms
      then Some (e, None)
      else
        let ctx := {|
          ac_weigher := weigher (cfg e); ac_tti_ms := tti_ms (cfg e); ac_merge_cap := merge_cap e;
          ac_tombstone_ttl_ms := tombstone_ttl_ms; ac_tombstone_max_ttl_ms := tombstone_max_ttl_ms;
          ac_deferring := deferring_at e now_ms tombstone_ttl_ms; ac_now_ms := now_ms;
          ac_from_peer := false; ac_held_only := false |} in
        let '(e, _, outcome) := apply_at e bucket 0 ctx (be_key entry) (be_ver entry) (be_incoming entry) in
        if is_put_outcome outcome then
          '(e, _, _) ← enforce_capacity e bucket (written_of (hash_key_bytes (be_key entry))) now_ms;
          Some (e, Some outcome)
        else Some (e, Some outcome)
  end.

End Batch.

(** ** What a write does to its key's cell *)

Section Cells.
Context {PU : PostcardU32} {HS : Hashing} {R : ConflictResolver} {V : Type} {VC : ValueCodec V} {PUL : PostcardU32Laws}.

(** The size of a refused merge. *)
Definition too_large (o : ApplyOutcome V) : option Z := match o with OTooLarge _ size => Some size | _ => None end.

Definition absent_in (ctx : ApplyCtx V) (st : Stripe) (k : Bytes) : bool :=
  is_some_and (find_in st k) (fun l => absent_at l k (st_long_ttl st) (ac_tti_ms ctx) (ac_now_ms ctx)).

Definition cell_of (ctx : ApplyCtx V) (st : Stripe) (k : Bytes) : Cell :=
  (fun r => match wr_value r with
            | Some b => (wr_ver r, inl (b, wr_expires_at_ms r), absent_in ctx st k)
            | None => (wr_ver r, inr (wr_expires_at_ms r), false)
            end) <$> stored_record st k.

(** The verdict behind the arrival gate. *)
Definition gated_meet (ctx : ApplyCtx V) (k : Bytes) (c : Cell) (w : Hlc * Incoming V) : Rebound V :=
  if ignores (ctx_rule ctx) (rule_deadlines (ctx_rule ctx) w.2 w.1) then RLost else meet (ac_merge_cap ctx) k c w.

Lemma verdict_meet ctx st k ver i : ac_held_only ctx = false ->
  verdict ctx st k ver i = gated_meet ctx k (cell_of ctx st k) (ver, i).
Proof.
  intros Hh. unfold verdict, gated_meet. rewrite Hh. cbn [fst snd andb]. destruct (ignores _ _); [done|].
  unfold collide, cell_of, stored_record, absent_in. rewrite versions_lookup.
  destruct (st_tombstones st !! k) as [t|]; [done|]. unfold read_stored_live.
  destruct (find_in st k) as [l|]; [|done]. cbn. by rewrite negb_involutive.
Qed.

Lemma absent_in_same ctx k st st' : same_live k st st' -> absent_in ctx st' k = absent_in ctx st k.
Proof.
  intros [Hf Hl]. unfold absent_in. rewrite Hf. destruct (find_in st k) as [l|]; [|done]. cbn.
  unfold absent_at, absent_under. by rewrite (live_deadline_ext l k _ _ Hl).
Qed.

Lemma idle_at_touched l tti now : (forall t, tti = Some t -> 0 < t) -> lv_last_access_ms l = touch_stamp now ->
  idle_at l tti now = false.
Proof.
  intros Ht Hl. unfold idle_at, idle_elapsed_ms. rewrite Hl. unfold touch_stamp. rewrite Z.sub_diag.
  change (wrap32 0) with 0. destruct tti as [t|]; [|done]. cbn [is_some_and]. specialize (Ht t eq_refl).
  destruct (MAX_TTI_MS <? 0); by apply Z.leb_gt.
Qed.

Lemma cell_of_wrote ctx idx k v (i : Incoming V) st (c : Cells V) st' c' : (forall t, ac_tti_ms ctx = Some t -> 0 < t) ->
  wrote idx (ac_now_ms ctx) k (stored_as k v i) st c st' c' ->
  forall k', cell_of ctx st' k' =
    if decide (k' = k) then left_by (ac_now_ms ctx) (cell_of ctx st k) (RStore v i) else cell_of ctx st k'.
Proof.
  intros Htti Hw k'. pose proof (w_sets _ _ _ _ _ _ _ _ Hw k') as Hs. unfold cell_of. rewrite Hs. case_decide as Hk.
  - subst k'. destruct i as [value e b|d]; [|done]. cbn. do 3 f_equal. unfold absent_in.
    revert Hs. unfold stored_record. rewrite ?decide_True by done.
    destruct (st_tombstones st' !! k) as [t|]; [done|]. destruct (find_in st' k) as [l|] eqn:Ef; [|done].
    cbn. intros [= _ _ He]. unfold absent_at, absent_under. rewrite He, idle_at_touched; [|done|by apply (w_touched _ _ _ _ _ _ _ _ Hw)].
    destruct e as [d|]; [|done]. cbn. destruct (d <=? _); done.
  - rewrite (absent_in_same ctx k' st st'); [done|]. by apply (w_others _ _ _ _ _ _ _ _ Hw).
Qed.

Lemma apply_put_outcome st (c : Cells V) ctx k ver value e b h v : (apply_put st c ctx k ver value e b h v).2 = OPut k value (negb v) ver.
Proof.
  unfold apply_put. destruct (if h then _ else _) as [[st1 r1] removed]. by destruct (install_live _ _ _ _ _ _ _ _).
Qed.

Lemma apply_tombstone_outcome st c k t h : (apply_tombstone (V:=V) st c k t h).2 = OTombstoned k (ts_ver t).
Proof. unfold apply_tombstone. by destruct (if h then _ else _) as [[st1 r1] removed]. Qed.

Lemma apply_locked_refusal ctx k ver i st c :
  too_large (apply_locked ctx k ver i st c).2 = refusal (verdict ctx st k ver i).
Proof.
  unfold apply_locked, verdict. rewrite stored_ver_versions. destruct (ignores _ _); [done|].
  set (live := if is_some _ then None else read_stored_live st ctx k).
  set (gate := if ac_held_only ctx then _ else (c, false)).
  assert (gate.2 = ac_held_only ctx && negb (is_some_and live sl_visible && negb (is_incoming_tombstone i))) as Hg.
  { unfold gate. destruct (ac_held_only ctx); [|done]. unfold reject_unheld. by destruct (_ && _). }
  rewrite <-Hg. destruct gate as [c1 [|]]; [done|]. cbn [snd].
  destruct (collide _ _ _ _ _ _ _) as [|v' i'|size]; [done| |done].
  destruct (swap_fingerprint _ _ _ _ _ _) as [st1 c2]. destruct i' as [value e b|d].
  - by rewrite apply_put_outcome.
  - destruct (default (0, 0) _). by rewrite apply_tombstone_outcome.
Qed.

Lemma apply_locked_others ctx idx k ver i st c k' : stripe_wf idx st -> key_fits k -> bucket_of_key k = idx ->
  ac_held_only ctx = false -> (forall t, ac_tti_ms ctx = Some t -> 0 < t) ->
  let r := gated_meet ctx k (cell_of ctx st k) (ver, i) in
  cell_of ctx (apply_locked ctx k ver i st c).1.1 k' =
  if decide (k' = k) then left_by (ac_now_ms ctx) (cell_of ctx st k) r else cell_of ctx st k'.
Proof.
  intros Hwf Hk Hb Hh Ht. cbv zeta.
  destruct (apply_locked_spec idx ctx st c k ver i Hwf Hk Hb) as (st' & c' & out & -> & Hv). cbn [fst].
  rewrite (verdict_meet ctx st k ver i Hh) in Hv.
  destruct (gated_meet ctx k (cell_of ctx st k) (ver, i)) as [|v' i'|size].
  2: { destruct Hv as [Hw _]. by apply (cell_of_wrote ctx idx k v' i' st c st' c'). }
  all: destruct Hv as (-> & _); case_decide; by subst.
Qed.

(** The cells of one stripe's keys, and what one call of the batch loop does to them. *)
Lemma apply_at_cells (e : Engine V) ign ctx bucket k ver i e' ign' out : engine_inv e -> key_fits k ->
  bucket_of_key k = bucket -> ac_held_only ctx = false -> (forall t, ac_tti_ms ctx = Some t -> 0 < t) ->
  apply_at e bucket ign ctx k ver i = (e', ign', out) ->
  let r := gated_meet ctx k (cell_of ctx (stripe_at e bucket) k) (ver, i) in
  engine_inv e' /\ cfg e' = cfg e /\ too_large out = refusal r /\
  (forall k', cell_of ctx (stripe_at e' bucket) k' =
    if decide (k' = k) then left_by (ac_now_ms ctx) (cell_of ctx (stripe_at e bucket) k) r
    else cell_of ctx (stripe_at e bucket) k') /\
  (forall k', bucket_of_key k' <> bucket -> engine_record e' k' = engine_record e k').
Proof.
  intros He Hk <- Hh Ht Ha. cbv zeta.
  destruct (apply_at_spec e ign ctx k ver i He Hk) as (e1 & ign1 & out1 & Ha1 & Hinv & _ & Hrec).
  rewrite Ha in Ha1. injection Ha1 as <- <- <-. cbv zeta in Hrec.
  pose proof (stripe_at_lookup e k He) as Hst. pose proof (ei_wf _ He _ _ Hst) as Hwf.
  unfold apply_at in Ha. set (c := {| c_digest := _ |}) in Ha.
  pose proof (apply_locked_refusal ctx k ver i (stripe_at e (bucket_of_key k)) c) as Href.
  pose proof (fun k' => apply_locked_others ctx _ k ver i (stripe_at e (bucket_of_key k)) c k' Hwf Hk eq_refl Hh Ht) as Hcell.
  cbv zeta in Hcell. rewrite (verdict_meet _ _ _ _ _ Hh) in Href.
  destruct (apply_locked ctx k ver i _ c) as [[st' c'] o]. injection Ha as Ha _ <-.
  split_and!; [done|by subst e'|done| |].
  - intros k'. rewrite (stripe_at_insert e e' (bucket_of_key k) st').
    + rewrite decide_True by done. apply Hcell.
    + by eapply lookup_lt_Some.
    + by subst e'.
  - intros k' Hne. rewrite Hrec. destruct (verdict _ _ _ _ _); try done. rewrite decide_False; [done|]. congruence.
Qed.

End Cells.

(** ** Reading a batch key by key *)

(** The elements of a list that belong to a key, given the key of each position. *)
Fixpoint sel {A} (k : Bytes) (ks : list Bytes) (xs : list A) : list A :=
  match ks, xs with
  | k' :: ks, x :: xs => if decide (k' = k) then x :: sel k ks xs else sel k ks xs
  | _, _ => []
  end.

Lemma sel_inj {A} ks : forall xs ys : list A, length xs = length ks -> length ys = length ks ->
  (forall k, sel k ks xs = sel k ks ys) -> xs = ys.
Proof.
  induction ks as [|k' ks IH]; intros [|x xs] [|y ys] Hx Hy Hsel; try done.
  assert (x = y /\ forall k, sel k ks xs = sel k ks ys) as [-> Htl].
  { split; [specialize (Hsel k'); cbn in Hsel; rewrite !decide_True in Hsel by done; by injection Hsel|].
    intros k. specialize (Hsel k). cbn in Hsel. case_decide; [by injection Hsel|done]. }
  f_equal. apply IH; try done; cbn in *; lia.
Qed.

Lemma sel_snoc {A} k k' ks : forall (xs : list A) x, length xs = length ks ->
  sel k (ks ++ [k']) (xs ++ [x]) = sel k ks xs ++ (if decide (k' = k) then [x] else []).
Proof.
  induction ks as [|k1 ks IH]; intros [|x1 xs] x Hl; try done. cbn.
  injection Hl as Hl. rewrite IH by done. by repeat case_decide.
Qed.

Lemma key_indices_snoc {V} (entries : list (BatchEntry V)) en k :
  key_indices (entries ++ [en]) k = key_indices entries k ++ (if decide (be_key en = k) then [length entries] else []).
Proof.
  unfold key_indices. rewrite length_app. cbn [length]. rewrite seq_app, filter_app. f_equal.
  - apply filter_ext_in. intros i Hi%elem_of_seq. by rewrite lookup_app_l by lia.
  - cbn [seq Nat.add]. case_decide as Hk.
    + rewrite filter_cons_True; [done|]. by rewrite list_lookup_middle, <-Hk.
    + rewrite filter_cons_False; [done|]. rewrite list_lookup_middle by done.
      intros Heq. by injection Heq.
Qed.

Lemma sel_at_indices {V A} (entries : list (BatchEntry V)) : forall (xs : list A) k, length xs = length entries ->
  sel k (be_key <$> entries) xs = at_indices xs (key_indices entries k).
Proof.
  induction entries as [|en entries IH] using rev_ind; intros xs k Hl; [by destruct xs|].
  destruct xs as [|x xs _] using rev_ind; [rewrite length_app in Hl; cbn in Hl; lia|].
  rewrite !length_app in Hl. cbn in Hl. assert (Hl' : length xs = length entries) by lia.
  rewrite fmap_app, key_indices_snoc, at_indices_app. cbn [fmap list_fmap].
  rewrite sel_snoc by (by rewrite length_fmap). f_equal.
  - rewrite IH by done. apply at_indices_ext. intros i Hi. symmetry. apply lookup_app_l. rewrite Hl'.
    pose proof (key_indices_lt entries k) as Hlt. rewrite Forall_forall in Hlt. by apply Hlt.
  - case_decide; [|done]. unfold at_indices. cbn. by rewrite <-Hl', list_lookup_middle.
Qed.

Section Loop.
Context {PU : PostcardU32} {HS : Hashing} {R : ConflictResolver} {V : Type} {VC : ValueCodec V} {PUL : PostcardU32Laws}.
Context (ctx : ApplyCtx V) (bucket : nat).
Context (Hheld : ac_held_only ctx = false) (Htti : forall t, ac_tti_ms ctx = Some t -> 0 < t).

(** One key's slots behind the arrival gate. *)
Fixpoint gated_in_order (k : Bytes) (c : Cell) (ss : list (Slot V)) : Cell * list (option Z) :=
  match ss with
  | [] => (c, [])
  | SlotApply e :: ss =>
      let r := gated_meet ctx k c (be_ver e, be_incoming e) in
      let '(c', refs) := gated_in_order k (left_by (ac_now_ms ctx) c r) ss in (c', refusal r :: refs)
  | SlotAbsorbed :: ss => let '(c', refs) := gated_in_order k c ss in (c', None :: refs)
  | SlotRefused _ size :: ss => let '(c', refs) := gated_in_order k c ss in (c', Some size :: refs)
  end.

Lemma gated_in_order_app k ss1 : forall c ss2,
  gated_in_order k c (ss1 ++ ss2) =
  let '(c1, r1) := gated_in_order k c ss1 in let '(c2, r2) := gated_in_order k c1 ss2 in (c2, r1 ++ r2).
Proof.
  induction ss1 as [|s ss1 IH]; intros c ss2; cbn; [by destruct (gated_in_order k c ss2)|].
  destruct s; rewrite IH; destruct (gated_in_order k _ ss1) as [c1 r1]; by destruct (gated_in_order k c1 ss2).
Qed.

(** A slot that applies a put, if it applies anything. *)
Definition put_slot (s : Slot V) : Prop :=
  match s with SlotApply e => is_incoming_tombstone (be_incoming e) = false | _ => True end.

Lemma gated_in_order_puts k ss : forall c, Forall put_slot ss ->
  gated_in_order k c ss = slots_in_order (ac_merge_cap ctx) (ac_now_ms ctx) k c ss.
Proof.
  induction ss as [|s ss IH]; intros c Hp; [done|]. apply Forall_cons in Hp as [Hs Hp]. cbn.
  destruct s as [e| |kb size]; rewrite ?IH by done; [|done|done].
  assert (gated_meet ctx k c (be_ver e, be_incoming e) = meet (ac_merge_cap ctx) k c (be_ver e, be_incoming e)) as ->;
    [|done]. unfold gated_meet. cbn in Hs. by destruct (be_incoming e).
Qed.

(** A slot that fits its position. *)
Definition slot_at (k : Bytes) (s : Slot V) : Prop :=
  match s with SlotApply e => be_key e = k | _ => True end.

Abbreviation cells e := (cell_of ctx (stripe_at e bucket)).

(** The loop, read key by key. *)
Lemma apply_slots_by_key ks ss : Forall2 slot_at ks ss -> Forall (fun k => key_fits k /\ bucket_of_key k = bucket) ks ->
  forall b : BatchState, engine_inv (bs_engine b) ->
  exists outs, let b' := foldl (apply_slot ctx bucket) b ss in
    bs_outcomes b' = bs_outcomes b ++ outs /\ length outs = length ks /\ engine_inv (bs_engine b') /\
    cfg (bs_engine b') = cfg (bs_engine b) /\
    (forall k, gated_in_order k (cells (bs_engine b) k) (sel k ks ss) =
       (cells (bs_engine b') k, sel k ks (too_large <$> outs))) /\
    (forall k, bucket_of_key k <> bucket -> engine_record (bs_engine b') k = engine_record (bs_engine b) k).
Proof.
  induction 1 as [|k0 s ks ss Hs _ IH]; intros Hks b Hinv; cbv zeta; cbn [foldl].
  { exists []. rewrite app_nil_r. by split_and!. }
  apply Forall_cons in Hks as [[Hfit Hbk] Hks].
  destruct (into_entry s) as [en|out] eqn:Es.
  - assert (s = SlotApply en) as -> by (by destruct s; simplify_eq/=). cbn in Hs. subst k0.
    destruct (apply_at (bs_engine b) bucket (bs_ignored b) ctx (be_key en) (be_ver en) (be_incoming en))
      as [[e' ign'] out] eqn:Ea.
    destruct (apply_at_cells _ _ _ _ _ _ _ _ _ _ Hinv Hfit Hbk Hheld Htti Ea) as (Hinv' & Hcfg & Href & Hcell & Hother).
    destruct (IH Hks (apply_slot ctx bucket b (SlotApply en))) as (outs & H1 & H2 & H3 & H4 & H5 & H6);
      [unfold apply_slot; by rewrite Es, Ea|].
    assert (Hb1 : bs_engine (apply_slot ctx bucket b (SlotApply en)) = e' /\
      bs_outcomes (apply_slot ctx bucket b (SlotApply en)) = bs_outcomes b ++ [out])
      by (unfold apply_slot; by rewrite Es, Ea).
    destruct Hb1 as [Hb1 Hb2]. rewrite Hb1, Hb2 in *.
    exists (out :: outs). split_and!.
    + by rewrite H1, <-app_assoc.
    + cbn. by rewrite H2.
    + done.
    + by rewrite H4.
    + intros k. specialize (H5 k). rewrite Hcell in H5. cbn [sel fmap list_fmap].
      destruct (decide (be_key en = k)) as [Hk|Hk].
      * rewrite decide_True in H5 by done. subst k. cbn [gated_in_order]. rewrite H5. by rewrite Href.
      * by rewrite decide_False in H5 by congruence.
    + intros k Hk. by rewrite H6, Hother.
  - destruct (IH Hks (apply_slot ctx bucket b s)) as (outs & H1 & H2 & H3 & H4 & H5 & H6);
      [unfold apply_slot; by rewrite Es|].
    assert (Hb1 : bs_engine (apply_slot ctx bucket b s) = bs_engine b /\
      bs_outcomes (apply_slot ctx bucket b s) = bs_outcomes b ++ [out]) by (unfold apply_slot; by rewrite Es).
    destruct Hb1 as [Hb1 Hb2]. rewrite Hb1, Hb2 in *.
    exists (out :: outs). split_and!; try done.
    + by rewrite H1, <-app_assoc.
    + cbn. by rewrite H2.
    + intros k. cbn [sel fmap list_fmap]. case_decide; [|done].
      destruct s as [?| |kb size]; simplify_eq/=; by rewrite H5.
Qed.

End Loop.

(** ** A folded batch *)

Section Puts.
Context {HS : Hashing} {R : ConflictResolver} {V : Type} {VC : ValueCodec V}.

Lemma meet_put cap k c ver (inc : Incoming V) v i : is_incoming_tombstone inc = false ->
  meet cap k c (ver, inc) = RStore v i -> is_incoming_tombstone i = false.
Proof.
  unfold meet. destruct c as [[[sv s] ab]|]; [|by intros ? [= _ <-]]. cbn [fst snd].
  unfold resolve_and_rebind. intros Hp. repeat case_match; try done; intros; simplify_eq; done.
Qed.

Lemma fold_parts_puts cap seed now k (ws : list (Hlc * Incoming V)) f fs :
  Forall (fun w => is_incoming_tombstone w.2 = false) ws -> fold_parts cap seed now k ws = Some (f, fs) ->
  is_incoming_tombstone (fr_incoming f) = false /\ Forall (fun w => is_incoming_tombstone w.2 = false) (fr_remaining f).
Proof.
  intros Hp.
  assert (Hgen : forall av ai ab carries rest, Forall (fun w => is_incoming_tombstone w.2 = false) rest ->
    is_incoming_tombstone ai = false -> let f := fold_run cap k av ai ab carries now rest in
    is_incoming_tombstone (fr_incoming f) = false /\ Forall (fun w => is_incoming_tombstone w.2 = false) (fr_remaining f)).
  { intros av ai ab carries rest Hr Ha. cbv zeta.
    destruct (fold_loop_spec cap now k carries (fun _ _ ai _ => is_incoming_tombstone ai = false)
      (fun _ w => is_incoming_tombstone w.2 = false)) with (rest := rest) (av := av) (ai := ai) (ab := ab)
      (refused := @nil (nat * Z)) (step := 0%nat) as (consumed & ab' & refs & H1 & _ & _ & _ & H5); try done.
    - intros n av' ai' ab' ver inc v' i' _ Hw _. by apply meet_put.
    - split; [done|]. change (Forall (fun w => is_incoming_tombstone w.2 = false)
        (fr_remaining (fold_loop cap k av ai ab carries now [] 0 rest))). rewrite H1 in Hr. by apply Forall_app in Hr as [_ ?]. }
  unfold fold_parts. destruct seed as [[|sv enc e absent|]|]; [| |done|].
  2: { intros (value & _ & [= <- <-])%bind_Some. by apply Hgen. }
  all: intros ([ver inc] & Hh & [= <- <-])%bind_Some; destruct ws as [|w ws]; [done|]; injection Hh as ->;
    apply Forall_cons in Hp as [? ?]; by apply Hgen.
Qed.

Lemma planned_slots_puts survivor (rem : list (Hlc * Incoming V)) : is_incoming_tombstone survivor.2 = false ->
  forall plan parts, Forall (fun w => is_incoming_tombstone w.2 = false) rem ->
  Forall (fun p => is_incoming_tombstone (be_incoming p) = false) parts ->
  Forall put_slot (planned_slots survivor rem parts plan).
Proof.
  intros Hs plan. revert rem. induction plan as [|p plan IH]; intros rem [|part parts] Hr Hp; cbn; try by constructor.
  apply Forall_cons in Hp as [Hp0 Hp]. destruct p; try (constructor; [done|by apply IH]).
  destruct rem as [|[ver inc] rem]; [by constructor; [|apply IH]|]. apply Forall_cons in Hr as [Hr0 Hr].
  constructor; [done|by apply IH].
Qed.

Lemma planned_slots_key k survivor : forall plan (rem : list (Hlc * Incoming V)) parts,
  Forall (fun p => be_key p = k) parts -> Forall (slot_at k) (planned_slots survivor rem parts plan).
Proof.
  induction plan as [|p plan IH]; intros rem [|part parts] Hp; cbn; try by constructor.
  apply Forall_cons in Hp as [Hp0 Hp]. destruct p; try (constructor; [done|by apply IH]).
  destruct rem as [|[ver inc] rem]; (constructor; [done|by apply IH]).
Qed.

End Puts.

Section Folded.
Context {PU : PostcardU32} {HS : Hashing} {R : ConflictResolver} {V : Type} {VC : ValueCodec V} {PUL : PostcardU32Laws}.
Context (ctx : ApplyCtx V) (st : Stripe) (entries : list (BatchEntry V)).
Context (ok : Content -> Prop) (join : Content -> Content -> Content) (HR : forall k, JoinResolver R k ok join).
Context (Hcap : forall c, ac_merge_cap ctx = Some c -> 0 <= cap_cache_len c).

(** What the fold relies on of the batch's puts and of the stored records they meet: content
    the resolver joins, values that fit a frame, and room above every stamp for a mint per
    entry. *)
Definition batch_sound : Prop :=
  (forall en v e b, en ∈ entries -> be_incoming en = Put v e b ->
     room (length entries) (be_ver en) /\ ok (b, e) /\ fits (ac_merge_cap ctx) (be_key en) (blen b)) /\
  (forall en sv cs absent, en ∈ entries -> cell_of ctx st (be_key en) = Some (sv, inl cs, absent) ->
     room (length entries) sv /\ (absent = false -> ok cs)).
Context (Hsound : batch_sound).

Lemma peek_seeds k : seeds (Some (peek_stored_seed st k (ac_tti_ms ctx) (ac_now_ms ctx))) (cell_of ctx st k).
Proof.
  unfold peek_stored_seed, cell_of, stored_record, absent_in.
  destruct (st_tombstones st !! k) as [t|]; [by eexists _, _, _|]. by destruct (find_in st k).
Qed.

(** Every seed the stage reads is its key's, and every run long enough has one. *)
Lemma peek_prefold_seeds_spec runs (m := peek_prefold_seeds st entries runs (ac_tti_ms ctx) (ac_now_ms ctx)) :
  (forall k s, m !! k = Some s -> s = peek_stored_seed st k (ac_tti_ms ctx) (ac_now_ms ctx)) /\
  (forall run i en, run ∈ runs -> (2 <= length run)%nat -> head run = Some i -> entries !! i = Some en ->
     is_Some (m !! be_key en)).
Proof.
  subst m. unfold peek_prefold_seeds. set (step := fun seeds run => _).
  assert (Hstep : forall m run,
    ((forall k s, m !! k = Some s -> s = peek_stored_seed st k (ac_tti_ms ctx) (ac_now_ms ctx)) ->
     forall k s, step m run !! k = Some s -> s = peek_stored_seed st k (ac_tti_ms ctx) (ac_now_ms ctx)) /\
    (forall k, is_Some (m !! k) -> is_Some (step m run !! k)) /\
    (forall i en, (2 <= length run)%nat -> head run = Some i -> entries !! i = Some en ->
       is_Some (step m run !! be_key en))).
  { intros m run. unfold step.
    assert (Hrun : forall i en, (2 <= length run)%nat -> head run = Some i -> entries !! i = Some en ->
      (if (length run <? 2)%nat then None else head run ≫= (fun i => entries !! i)) = Some en).
    { intros i en Hl Hh He. destruct (Nat.ltb_spec (length run) 2); [lia|]. by rewrite Hh. }
    destruct (if (length run <? 2)%nat then None else _) as [en0|] eqn:E.
    - destruct (m !! be_key en0) as [s0|] eqn:Em; cbn [is_some].
      + split_and!; try done. intros i en Hl Hh He. pose proof (Hrun i en Hl Hh He) as [= <-]. by exists s0.
      + split_and!.
        * intros Hm k s. destruct (decide (be_key en0 = k)) as [<-|Hne].
          -- rewrite lookup_insert_eq. by intros [= <-].
          -- rewrite lookup_insert_ne by done. apply Hm.
        * intros k Hk. destruct (decide (be_key en0 = k)) as [<-|Hne]; [rewrite lookup_insert_eq; eauto|].
          by rewrite lookup_insert_ne.
        * intros i en Hl Hh He. pose proof (Hrun i en Hl Hh He) as [= <-].
          rewrite lookup_insert_eq. eauto.
    - split_and!; try done. intros i en Hl Hh He. by specialize (Hrun i en Hl Hh He). }
  clearbody step.
  assert (Hall : forall m, (forall k s, m !! k = Some s -> s = peek_stored_seed st k (ac_tti_ms ctx) (ac_now_ms ctx)) ->
    (forall k s, foldl step m runs !! k = Some s -> s = peek_stored_seed st k (ac_tti_ms ctx) (ac_now_ms ctx)) /\
    (forall k, is_Some (m !! k) -> is_Some (foldl step m runs !! k)) /\
    (forall run i en, run ∈ runs -> (2 <= length run)%nat -> head run = Some i -> entries !! i = Some en ->
     is_Some (foldl step m runs !! be_key en))).
  { induction runs as [|run0 runs IH]; intros m Hm; [by split_and!; [| |intros ? ? ? ?%not_elem_of_nil]|].
    destruct (Hstep m run0) as (H1 & H2 & H3). destruct (IH (step m run0) (H1 Hm)) as (I1 & I2 & I3).
    split_and!; [done|by auto|]. intros run i en [->|Hin]%elem_of_cons Hl Hh He; [by eauto|by eapply I3]. }
  destruct (Hall ∅) as (H1 & _ & H3); [by intros k s; rewrite lookup_empty|]. done.
Qed.

Lemma batch_foldable k ixs : (forall i, i ∈ ixs -> i ∈ key_indices entries k) -> (0 < length ixs <= length entries)%nat ->
  Forall (is_put entries) ixs ->
  foldable (ac_merge_cap ctx) ok k (cell_of ctx st k) ((fun p => (be_ver p, be_incoming p)) <$> at_indices entries ixs).
Proof.
  intros Hinc Hlen Hput. destruct Hsound as [Hen Hst]. unfold foldable.
  destruct (cell_of ctx st k) as [[[sv [cs|d]] ab]|] eqn:Ec; [|done..].
  assert (exists en, en ∈ entries /\ be_key en = k) as (en0 & Hen0 & Hk0).
  { destruct ixs as [|i ixs]; [cbn in Hlen; lia|]. specialize (Hinc i ltac:(left)). apply key_indices_elem in Hinc.
    destruct (entries !! i) as [en|] eqn:E; [|done]. injection Hinc as <-. exists en. split; [by eapply list_elem_of_lookup_2|done]. }
  rewrite <-Hk0 in Ec. destruct (Hst en0 sv cs ab Hen0 Ec) as [Hroom Hab].
  assert (Hl : (length (at_indices entries ixs) <= length entries)%nat).
  { rewrite at_indices_length; [lia|]. apply Forall_forall. intros i Hi%Hinc.
    pose proof (key_indices_lt entries k) as Hlt. rewrite Forall_forall in Hlt. by apply Hlt. }
  rewrite length_fmap. split_and!; [unfold room in *; lia| |done].
  apply Forall_fmap, Forall_forall. intros en Hin. cbn. unfold at_indices in Hin.
  apply list_elem_of_omap in Hin as (i & Hi & He).
  assert (Hk : be_key <$> entries !! i = Some k) by (by apply key_indices_elem, Hinc).
  rewrite He in Hk. injection Hk as Hk. rewrite Forall_forall in Hput. specialize (Hput i Hi).
  destruct (be_incoming en) as [v e b|d] eqn:Eb.
  2: { exfalso. apply (Hput d). by rewrite He, <-Eb. }
  destruct (Hen en v e b) as (Hr & Ho & Hf); [by eapply list_elem_of_lookup_2|exact Eb|].
  split; [unfold room in *; cbn; lia|]. exists v, e, b. by rewrite <-Hk.
Qed.

Abbreviation cap := (ac_merge_cap ctx).
Abbreviation now := (ac_now_ms ctx).
Abbreviation indices := (key_indices entries).

(** No run has touched the key's slots. *)
Definition untouched (slots : list (Slot V)) (k : Bytes) : Prop :=
  forall i, i ∈ indices k -> slots !! i = SlotApply <$> entries !! i.

Lemma run_entries_untouched slots k ixs : untouched slots k -> (forall i, i ∈ ixs -> i ∈ indices k) ->
  run_entries slots ixs = Some (at_indices entries ixs).
Proof.
  intros Hu. unfold run_entries, at_indices. induction ixs as [|i ixs IH]; intros Hi; [done|].
  cbn [mapM]. rewrite (Hu i) by (apply Hi; left). pose proof (proj1 (key_indices_elem entries k i) (Hi i ltac:(left))) as Hk.
  cbn [omap list_omap]. destruct (entries !! i) as [en|]; [|done]. cbn [fmap option_fmap option_map mbind option_bind].
  rewrite IH by (intros; apply Hi; by right). done.
Qed.

(** The key's slots run as its entries do. *)
Definition key_exact (slots : list (Slot V)) (k : Bytes) : Prop :=
  gated_in_order ctx k (cell_of ctx st k) (at_indices slots (indices k)) =
    gated_in_order ctx k (cell_of ctx st k) (at_indices (SlotApply <$> entries) (indices k)) /\
  Forall (slot_at k) (at_indices slots (indices k)).

Lemma untouched_at slots k ixs : untouched slots k -> (forall i, i ∈ ixs -> i ∈ indices k) ->
  at_indices slots ixs = SlotApply <$> at_indices entries ixs.
Proof.
  intros Hu Hi. rewrite <-at_indices_fmap. apply at_indices_ext. intros i Hin. by rewrite list_lookup_fmap, (Hu i (Hi i Hin)).
Qed.

Lemma entries_at_key k ixs : (forall i, i ∈ ixs -> i ∈ indices k) -> Forall (fun p => be_key p = k) (at_indices entries ixs).
Proof.
  intros Hi. apply Forall_forall. intros en (i & Hin & He)%list_elem_of_omap.
  apply Hi, key_indices_elem in Hin. rewrite He in Hin. by injection Hin.
Qed.

Lemma untouched_exact slots k : untouched slots k -> key_exact slots k.
Proof.
  intros Hu. unfold key_exact. rewrite (untouched_at slots k) by done. rewrite at_indices_fmap. split; [done|].
  apply Forall_fmap. eapply Forall_impl; [by apply (entries_at_key k)|]. done.
Qed.

Section Key.
Context (m : gmap Bytes PrefoldSeed) (k : Bytes) (lead rest : list nat).
Context (Hm : forall s, m !! k = Some s -> s = peek_stored_seed st k (ac_tti_ms ctx) now).
Context (Hix : indices k = lead ++ rest) (Hput : Forall (is_put entries) lead).

Lemma lead_in i : i ∈ lead -> i ∈ indices k.
Proof. rewrite Hix. set_solver. Qed.

Lemma lead_facts : NoDup lead /\ Forall (fun i => (i < length entries)%nat) lead /\
  (length lead <= length entries)%nat /\ (forall i, i ∈ rest -> i ∉ lead) /\
  Forall (fun p => is_incoming_tombstone (be_incoming p) = false) (at_indices entries lead).
Proof.
  pose proof (key_indices_nodup entries k) as Hnd. pose proof (key_indices_lt entries k) as Hlt.
  rewrite Hix in Hnd, Hlt. apply NoDup_app in Hnd as (Hnd & Hdis & _). apply Forall_app in Hlt as [Hlt _].
  split_and!; [done|done| |intros i Hi Hl; by apply (Hdis i)|].
  - rewrite <-(length_seq (length entries) 0). apply submseteq_length, NoDup_submseteq; [done|].
    intros i Hi. apply elem_of_seq. rewrite Forall_forall in Hlt. specialize (Hlt i Hi). lia.
  - apply Forall_forall. intros en (i & Hin & He)%list_elem_of_omap. rewrite Forall_forall in Hput.
    specialize (Hput i Hin). destruct (be_incoming en) as [v e b|d] eqn:Eb; [done|]. exfalso. apply (Hput d). by rewrite He, <-Eb.
Qed.

Lemma prefold_lead slots : length slots = length entries -> untouched slots k -> is_Some (m !! k) \/ (length lead < 2)%nat ->
  exists slots', prefold_run cap m now slots lead = Some slots' /\ length slots' = length entries /\
    (forall i, i ∉ indices k -> slots' !! i = slots !! i) /\ key_exact slots' k.
Proof.
  intros Hlen Hu Hseed. unfold prefold_run. destruct (Nat.ltb_spec (length lead) 2) as [Hs|Hl].
  { exists slots. split_and!; try done. by apply untouched_exact. }
  destruct Hseed as [[s Hs]|]; [|lia]. destruct lead_facts as (Hnd & Hlt & Hle & Hdis & Hputs).
  rewrite (run_entries_untouched slots k lead Hu lead_in). cbn [mbind option_bind].
  pose proof (at_indices_length entries lead Hlt) as Hpl. pose proof (entries_at_key k lead lead_in) as Hkeys.
  set (parts := at_indices entries lead) in *. destruct parts as [|first parts'] eqn:Ep; [cbn in Hpl; lia|].
  cbn [head mbind option_bind]. rewrite <-Ep in *. assert (be_key first = k) as -> by (rewrite Ep in Hkeys; by apply Forall_cons in Hkeys as [? _]).
  destruct (fold_parts cap (m !! k) now k _) as [[f fs]|] eqn:Ef.
  2: { exists slots. split_and!; try done. by apply untouched_exact. }
  pose proof (batch_foldable k lead lead_in ltac:(lia) Hput) as Hfold. fold parts in Hfold.
  pose proof (peek_seeds k) as Hpeek. rewrite <-(Hm s Hs), <-Hs in Hpeek.
  destruct (folded_run_exact cap now ok join HR Hcap k parts f fs (m !! k) _ ltac:(by rewrite Hs) Hpeek Hfold Ef) as
    [(refs & q' & Hmk & Hrl & Hplan) Hrun].
  assert (Hwp : Forall (fun w => is_incoming_tombstone w.2 = false) ((fun p => (be_ver p, be_incoming p)) <$> parts)) by (by apply Forall_fmap).
  destruct (fold_parts_puts cap (m !! k) now k _ f fs Hwp Ef) as [Hsp Hrp].
  assert (Hpok : planned_ok true (length (fr_remaining f)) (run_plan parts f fs)) by (rewrite Hplan; by eapply planned_ok_marked).
  destruct (place_spec (fr_ver f, fr_incoming f) lead slots parts (run_plan parts f fs) (fr_remaining f)
    (Some (fr_ver f, fr_incoming f))) as (slots' & Hpl' & Hlen' & Hsame & Hat); try done; [by rewrite Hlen|..|by intros w [= <-]|].
  { rewrite Hplan, length_app, length_replicate. pose proof (marked_length _ _ Hmk). rewrite length_fmap in *. lia. }
  exists slots'. unfold run_plan in Hpl'. rewrite Hpl in Hpl'. split_and!; [done|by rewrite Hlen'| |].
  { intros i Hi. apply Hsame. intros Hin. by apply Hi, lead_in. }
  assert (Hrest : at_indices slots' rest = SlotApply <$> at_indices entries rest).
  { rewrite (at_indices_ext slots' slots) by (intros i Hi; by apply Hsame, Hdis).
    apply (untouched_at slots k); [done|]. intros i. rewrite Hix. set_solver. }
  unfold key_exact. rewrite Hix, !at_indices_app, Hat, Hrest, !at_indices_fmap. fold parts. split.
  - rewrite !gated_in_order_app, !(gated_in_order_puts ctx k (planned_slots _ _ _ _)) by (by apply planned_slots_puts).
    rewrite (gated_in_order_puts ctx k (SlotApply <$> parts)) by (by apply Forall_fmap).
    by rewrite Hrun, slots_in_order_entries.
  - apply Forall_app. split; [by apply planned_slots_key|]. apply Forall_fmap.
    eapply Forall_impl; [apply (entries_at_key k); intros i; rewrite Hix; set_solver|]. done.
Qed.

End Key.

Lemma indices_disjoint k k' i : i ∈ indices k -> i ∈ indices k' -> k = k'.
Proof. rewrite !key_indices_elem. congruence. Qed.

Lemma prefold_singles m slots ixs :
  foldl (fun acc run => acc ≫= (fun s => prefold_run cap m now s run)) (Some slots) ((fun i => [i]) <$> ixs) = Some slots.
Proof. induction ixs as [|i ixs IH]; [done|]. exact IH. Qed.

Lemma prefold_keys m keys : NoDup keys ->
  (forall k s, m !! k = Some s -> s = peek_stored_seed st k (ac_tti_ms ctx) now) ->
  (forall k lead, k ∈ keys -> lead ∈ key_runs entries k -> (2 <= length lead)%nat -> is_Some (m !! k)) ->
  forall slots, length slots = length entries -> (forall k, k ∈ keys -> untouched slots k) ->
  exists slots', foldl (fun acc run => acc ≫= (fun s => prefold_run cap m now s run)) (Some slots)
      (group_prefold_runs keys entries) = Some slots' /\
    length slots' = length entries /\ (forall k, k ∈ keys -> key_exact slots' k) /\
    (forall k i, k ∉ keys -> i ∈ indices k -> slots' !! i = slots !! i).
Proof.
  unfold group_prefold_runs. intros Hnd Hm. induction Hnd as [|k keys Hk Hnd IH]; intros Hsome slots Hlen Hu.
  { exists slots. split_and!; try done. by intros k ?%not_elem_of_nil. }
  cbn [fmap list_fmap mjoin list_join]. rewrite foldl_app.
  destruct (key_runs_spec entries k) as (lead & rest & Hix & Hput & Hruns).
  destruct (prefold_lead m k lead rest (Hm k) Hix Hput slots Hlen) as (slots1 & Hp & Hlen1 & Hsame & Hex).
  { apply Hu. by left. }
  { destruct (decide (length lead < 2)%nat) as [|Hl]; [by right|left]. apply (Hsome k lead); [by left| |lia].
    rewrite Hruns. destruct lead; [cbn in Hl; lia|]. by left. }
  assert (Hstep : foldl (fun acc run => acc ≫= (fun s => prefold_run cap m now s run)) (Some slots) (key_runs entries k) = Some slots1).
  { rewrite Hruns, foldl_app. case_bool_decide as E; cbn [foldl mbind option_bind].
    - subst lead. injection Hp as <-. exact (prefold_singles m slots rest).
    - rewrite Hp. exact (prefold_singles m slots1 rest). }
  rewrite Hstep. destruct (IH ltac:(intros; eapply Hsome; [right|..]; eassumption) slots1 Hlen1) as (slots' & H1 & H2 & H3 & H4).
  { intros k' Hk' i Hi. rewrite Hsame; [apply (Hu k'); [by right|done]|]. intros Hi'. by rewrite (indices_disjoint k k' i Hi' Hi) in Hk. }
  exists slots'. split_and!; try done.
  - intros k' [->|Hk']%elem_of_cons; [|by apply H3]. unfold key_exact in *.
    by rewrite (at_indices_ext slots' slots1) by (intros i Hi; by apply (H4 k)).
  - intros k' i [Hne Hk']%not_elem_of_cons Hi. rewrite (H4 k') by done. apply Hsame. intros Hi'. apply Hne.
    by apply (indices_disjoint k' k i).
Qed.

(** The folded slots of every key run as its entries do. *)
Lemma prefold_batch_exact keys : NoDup keys -> (forall en, en ∈ entries -> be_key en ∈ keys) ->
  let runs := group_prefold_runs keys entries in
  exists slots, prefold_batch cap (peek_prefold_seeds st entries runs (ac_tti_ms ctx) now) now entries runs = Some slots /\
    length slots = length entries /\
    Forall2 slot_at (be_key <$> entries) slots /\
    forall k, gated_in_order ctx k (cell_of ctx st k) (sel k (be_key <$> entries) slots) =
              gated_in_order ctx k (cell_of ctx st k) (sel k (be_key <$> entries) (SlotApply <$> entries)).
Proof.
  intros Hnd Hkeys runs. destruct (peek_prefold_seeds_spec runs) as [Hm Hsome].
  destruct (prefold_keys _ keys Hnd Hm) with (slots := SlotApply <$> entries) as (slots & H1 & H2 & H3 & H4).
  - intros k lead Hk Hl H2l. destruct lead as [|i lead]; [cbn in H2l; lia|].
    assert (Hi : be_key <$> entries !! i = Some k).
    { destruct (key_runs_spec entries k) as (lead' & rest & Hix & _ & Hr). rewrite Hr in Hl.
      apply key_indices_elem. rewrite Hix. apply elem_of_app in Hl as [Hl|Hl].
      - case_bool_decide; [by apply not_elem_of_nil in Hl|]. apply list_elem_of_singleton in Hl. subst lead'. set_solver.
      - apply list_elem_of_fmap in Hl as (j & [= -> ->] & Hj). set_solver. }
    destruct (entries !! i) as [en|] eqn:Ee; [|done]. injection Hi as <-.
    apply (Hsome (i :: lead) i en); try done. unfold runs, group_prefold_runs.
    apply list_elem_of_join. exists (key_runs entries (be_key en)). split; [done|]. apply list_elem_of_fmap. by exists (be_key en).
  - apply length_fmap.
  - intros k _ i _. apply list_lookup_fmap.
  - exists slots. split_and!; [done|done| |].
    + apply Forall2_same_length_lookup. rewrite length_fmap. split; [done|]. intros i k s Hk Hs.
      rewrite list_lookup_fmap in Hk. assert (Hi : i ∈ indices k) by (by apply key_indices_elem).
      destruct (entries !! i) as [en|] eqn:Ee; [|done]. injection Hk as <-.
      destruct (H3 (be_key en)) as [_ Hat]; [by eapply Hkeys, list_elem_of_lookup_2|].
      rewrite Forall_forall in Hat. apply Hat. apply list_elem_of_omap. by exists i.
    + intros k. rewrite !sel_at_indices by (done || apply length_fmap).
      destruct (decide (k ∈ keys)) as [Hk|Hk]; [by apply H3|].
      by rewrite (at_indices_ext slots (SlotApply <$> entries)) by (intros i Hi; by apply (H4 k)).
Qed.

End Folded.

Section Equivalence.
Context {PU : PostcardU32} {HS : Hashing} {R : ConflictResolver} {V : Type} {VC : ValueCodec V} {PUL : PostcardU32Laws}.

Lemma cell_record ctx st st' k : cell_of (V:=V) ctx st k = cell_of ctx st' k -> stored_record st k = stored_record st' k.
Proof.
  unfold cell_of. assert (Hkey : forall st r, stored_record st k = Some r -> wr_key r = k).
  { intros s r. unfold stored_record. repeat case_match; intros Hr; try (by injection Hr as <-).
    by apply fmap_Some in Hr as (? & _ & ->). }
  destruct (stored_record st k) as [[k1 v1 h1 e1]|] eqn:E1, (stored_record st' k) as [[k2 v2 h2 e2]|] eqn:E2; try done.
  apply Hkey in E1, E2. cbn in *. subst. destruct v1, v2; intros; by simplify_eq.
Qed.

(** C20: a pre-folded batch is the batch applied record by record. For a resolver whose merge is
    a join, on a stripe's batch in any order of the fold's hash map: the pre-fold does not
    panic, and the folded slots leave the engine with the same record under every key, the same
    digests, and the same entries refused as too large, with the same sizes, as applying each
    entry on its own. *)
Theorem prefolded_batch_is_sequential (e : Engine V) (arrival : Arrival) (bucket : nat) (keys : list Bytes)
  (entries : list (BatchEntry V)) (ttl max_ttl now_ms : Z) (written : Written)
  (ok : Content -> Prop) (join : Content -> Content -> Content)
  (HR : forall k, JoinResolver R k ok join) (He : engine_inv e) (Hcap : 0 <= merge_cap_cache_len (cfg e))
  (Htti : forall t, tti_ms (cfg e) = Some t -> 0 < t)
  (Hentries : forall en, en ∈ entries -> key_fits (be_key en) /\ bucket_of_key (be_key en) = bucket)
  (Hnd : NoDup keys) (Hkeys : forall en, en ∈ entries -> be_key en ∈ keys)
  (Hsound : batch_sound (batch_ctx e AnyScope arrival ttl max_ttl now_ms) (stripe_at e bucket) entries ok) :
  let ctx := batch_ctx e AnyScope arrival ttl max_ttl now_ms in
  exists slots, prefold_slots e bucket keys entries (ac_merge_cap ctx) now_ms = Some slots /\
    let folded := apply_slots ctx bucket e written slots in
    let plain := apply_slots ctx bucket e written (SlotApply <$> entries) in
    engine_inv (bs_engine folded) /\
    (forall k, engine_record (bs_engine folded) k = engine_record (bs_engine plain) k) /\
    digest (bs_engine folded) = digest (bs_engine plain) /\
    too_large <$> bs_outcomes folded = too_large <$> bs_outcomes plain.
Proof.
  intros ctx.
  destruct (prefold_batch_exact ctx (stripe_at e bucket) entries ok join HR) with (keys := keys)
    as (slots & Hslots & Hlen & Hat & Hexact); [|done..|].
  { intros c. unfold ctx, batch_ctx, merge_cap. cbn. destruct merges; [|done]. by bcase; intros [= <-]. }
  exists slots. split; [exact Hslots|]. cbv zeta.
  assert (Hks : Forall (fun k => key_fits k /\ bucket_of_key k = bucket) (be_key <$> entries)).
  { apply Forall_fmap, Forall_forall. intros en Hen. by apply Hentries. }
  assert (Hat0 : Forall2 slot_at (be_key <$> entries) (SlotApply <$> entries)).
  { apply Forall2_fmap, Forall_Forall2_diag, Forall_forall. done. }
  set (b := {| bs_engine := e; bs_ignored := 0; bs_outcomes := []; bs_wrote := false; bs_written := written |}).
  destruct (apply_slots_by_key ctx bucket eq_refl Htti _ _ Hat Hks b He) as (o1 & A1 & A2 & A3 & _ & A5 & A6).
  destruct (apply_slots_by_key ctx bucket eq_refl Htti _ _ Hat0 Hks b He) as (o2 & B1 & B2 & B3 & _ & B5 & B6).
  unfold apply_slots. fold b. set (f := foldl _ b slots) in *. set (g := foldl _ b (SlotApply <$> entries)) in *.
  assert (Hrec : forall k, engine_record (bs_engine f) k = engine_record (bs_engine g) k).
  { intros k. destruct (decide (bucket_of_key k = bucket)) as [Hb|Hb]; [|by rewrite A6, B6].
    unfold engine_record. rewrite Hb. apply (cell_record ctx). specialize (A5 k). rewrite Hexact, B5 in A5. congruence. }
  split_and!; [done|done| |].
  - apply engine_digest_eq; try done. intros k. by rewrite Hrec.
  - rewrite A1, B1. cbn [app bs_outcomes b]. apply (sel_inj (be_key <$> entries)); [by rewrite length_fmap..|].
    intros k. specialize (A5 k). rewrite Hexact, B5 in A5. congruence.
Qed.

End Equivalence.

(** ** Evaluating the statement *)

Definition max_join (a b : Content) : Content :=
  (match a.1, b.1 with [x], [y] => [Z.max x y] | _, _ => a.1 end, later_deadline a.2 b.2).
Definition one_byte (c : Content) : Prop := exists x, c.1 = [x].

Lemma max_join_resolver k : JoinResolver MaxResolver k one_byte max_join.
Proof.
  constructor; try done.
  - intros a b Hne. cbn. unfold lww_winner. destruct (hlc_leb (rv_ver b) (rv_ver a)) eqn:E.
    + split; [done|]. intros Hlt. exfalso. apply Hne. apply hlc_le_antisym; [by apply hlc_lt_le|done].
    + apply hlc_leb_gt in E. done.
  - intros a b [ca ea] [cb eb] [x Hx] [y Hy]. cbn in *. subst. intros Ha Hea Hb Heb. unfold max_merge, max_join. cbn.
    by rewrite Ha, Hb, Hea, Heb.
  - intros [ca ea] [cb eb] [x Hx] [y Hy]. cbn in *. subst. by eexists.
  - intros [ca ea] [x Hx]. cbn in *. subst. unfold max_join, later_deadline. cbn. by rewrite Z.max_id, option_max_idemp.
  - intros [ca ea] [cb eb] [cc ec] [x Hx] [y Hy] [z Hz]. cbn in *. subst. unfold max_join, later_deadline. cbn.
    by rewrite Z.max_assoc, option_max_assoc.
Qed.

Definition stored_engine : Engine Bytes := run_writes LwwResolver empty_engine [put_at [1] [5] 500 1].
Definition batch_put (v : Z) (t : Z) : BatchEntry Bytes :=
  {| be_key := [1]; be_ver := stamp t 2; be_incoming := Put [v] None [v] |}.

Lemma prefolded_batch_is_sequential_witness :
  let bucket := bucket_of_key [1] in
  let entries := [batch_put 7 600; batch_put 6 650; batch_put 9 640] in
  let ctx := batch_ctx (R := MaxResolver) stored_engine AnyScope ALocal 60000 600000 1000 in
  exists slots, prefold_slots (R := MaxResolver) stored_engine bucket [[1]] entries (ac_merge_cap ctx) 1000 = Some slots /\
    let folded := apply_slots (R := MaxResolver) ctx bucket stored_engine written_default slots in
    let plain := apply_slots (R := MaxResolver) ctx bucket stored_engine written_default (SlotApply <$> entries) in
    engine_inv (bs_engine folded) /\
    (forall k, engine_record (bs_engine folded) k = engine_record (bs_engine plain) k) /\
    digest (bs_engine folded) = digest (bs_engine plain) /\
    too_large <$> bs_outcomes folded = too_large <$> bs_outcomes plain.
Proof.
  intros bucket entries ctx.
  apply (prefolded_batch_is_sequential (R := MaxResolver) stored_engine ALocal bucket [[1]] entries 60000 600000 1000
    written_default one_byte max_join max_join_resolver).
  - apply run_writes_inv; [apply engine_new_inv|]. repeat constructor; vm_compute; discriminate.
  - vm_compute. discriminate.
  - intros t Ht. vm_compute in Ht. discriminate.
  - intros en Hen. repeat (apply elem_of_cons in Hen as [->|Hen]); [..|by apply not_elem_of_nil in Hen];
      (split; [vm_compute; (discriminate || (repeat split; discriminate))|reflexivity]).
  - repeat constructor. apply not_elem_of_nil.
  - intros en Hen. repeat (apply elem_of_cons in Hen as [->|Hen]); [..|by apply not_elem_of_nil in Hen]; by left.
  - split.
    + intros en v e b Hen Hi. repeat (apply elem_of_cons in Hen as [->|Hen]); [..|by apply not_elem_of_nil in Hen];
        cbn in Hi; injection Hi as <- <- <-; (split; [vm_compute; reflexivity|split; [by eexists|exact I]]).
    + intros en sv cs absent Hen Hc.
      assert (be_key en = [1]) as Hk.
      { repeat (apply elem_of_cons in Hen as [->|Hen]); [..|by apply not_elem_of_nil in Hen]; reflexivity. }
      rewrite Hk in Hc. vm_compute in Hc. injection Hc as <- <- _.
      split; [vm_compute; reflexivity|]. intros _. by eexists.
Defined.
