(* ===== verification/Ownership.v ===== *)
(** * Ownership views

    [ownership.rs]: which of a distributed cache's live nodes own each of its 65,536 parts, by
    rendezvous hashing; the view computed from scratch and the view derived from its
    predecessor. A node id is its [u64]; a set of nodes is the vector the code keeps. *)

From stdpp Require Import list_numbers.
From S2P Require Import Prelude Clock Part Types Wire.

(** ** Definitions *)

Abbreviation NodeId := Z (only parsing).

(** The peer's fields the views read. *)
Record Peer := { peer_node : NodeId; peer_protocol : Z }.
Abbreviation CacheModes := (gmap Z (gmap Bytes Mode)) (only parsing).

Definition PROTOCOL_DISTRIBUTED : Z := 3.
Definition PROTOCOL_PART_OWNERSHIP : Z := 5.
Definition peer_supports (peer_protocol since : Z) : bool := since <=? peer_protocol.

Inductive Granularity := Bucket | Part.
#[export] Instance Granularity_eq_dec : EqDecision Granularity.
Proof. solve_decision. Defined.

(** b"part-ownership" *)
Definition PART_VIEW_MARKER : Bytes := [112; 97; 114; 116; 45; 111; 119; 110; 101; 114; 115; 104; 105; 112].

(** A bounded insertion sort: the item moves toward the front past every item it precedes;
    [rtop] is the items before it, last first. *)
Fixpoint sift {T} (le : T -> T -> bool) (rtop : list T) (item : T) (after : list T) : list T :=
  match rtop with
  | [] => item :: after
  | x :: rtop' => if le x item then reverse rtop ++ item :: after else sift le rtop' item (x :: after)
  end.

Definition select_top {T} (items : list T) (k : nat) (le : T -> T -> bool) : list T :=
  foldl (fun top item => take k (sift le (reverse top) item [])) [] items.

(** [None] leaves the unit to a full ranking. *)
Definition carried_top {T} (kept joined : list T) (stays : T -> bool) (k : nat) (le : T -> T -> bool) :
    option (list T) :=
  if forallb stays kept then Some (select_top (kept ++ joined) k le) else None.

(** Higher score first, ties to the lower node: whether [a] does not come after [b]. *)
Definition rank_le (a b : Z * NodeId) : bool := (b.1 <? a.1) || ((a.1 =? b.1) && (a.2 <=? b.2)).

(** The order a full sort of the ranking uses. *)
Definition ranks (a b : Z * NodeId) : Prop := rank_le a b = true.
#[export] Instance ranks_dec : RelDecision ranks.
Proof. intros a b. unfold ranks. apply _. Defined.

Definition unit_count (g : Granularity) : Z := match g with Bucket => BUCKET_COUNT | Part => PART_SPACE end.
Definition units (g : Granularity) : list Z := seqZ 0 (unit_count g).

Definition parts_of_wire_id (g : Granularity) (id : Z) : list PartId :=
  match g with Bucket => Pid.of_bucket id | Part => [id] end.

Definition wire_ids (g : Granularity) (parts : list PartId) : list Z :=
  dedup (sort_Z ((fun p => match g with Bucket => Pid.bucket p | Part => p end) <$> parts)).

Definition with_self (self_node : NodeId) (eligible : list NodeId) : list NodeId :=
  dedup (sort_Z (eligible ++ [self_node])).

(** [slice::chunks_exact]. *)
Fixpoint chunks_exact {A} (fuel n : nat) (l : list A) : list (list A) :=
  match fuel with
  | O => []
  | S fuel => if (length l <? n)%nat then [] else take n l :: chunks_exact fuel n (drop n l)
  end.

Definition for_members (protocols : list Z) : Granularity :=
  if forallb (fun p => peer_supports p PROTOCOL_PART_OWNERSHIP) protocols then Part else Bucket.
Definition for_protocols (peer_protocols : list Z) : Granularity :=
  if peer_supports PROTOCOL_VERSION PROTOCOL_PART_OWNERSHIP then for_members peer_protocols else Bucket.

Definition ownership_granularity (self_node : NodeId) (peers : list Peer) (eligible : list NodeId) : Granularity :=
  for_protocols
    ((fun node => from_option peer_protocol 0 (snd <$> list_find (fun p => peer_node p = node) peers)) <$>
     filter (fun node => node <> self_node) eligible).

Definition eligible_peers (peers : list Peer) (modes : CacheModes) (cache : Bytes) (k : Z) : list NodeId :=
  peer_node <$> filter (fun p =>
    PROTOCOL_DISTRIBUTED <= peer_protocol p /\
    modes !! peer_node p ≫= (fun caches => caches !! cache) = Some (Distributed k)) peers.

Definition eligible_owners (self_node : NodeId) (peers : list Peer) (modes : CacheModes) (cache : Bytes) (k : Z) :
    list NodeId :=
  let eligible := eligible_peers peers modes cache k in
  if bool_decide (self_node ∈ eligible) then eligible else eligible ++ [self_node].

Record OwnershipView := {
  ov_view_hash : Z;
  ov_self_node : NodeId;
  ov_eligible : list NodeId;
  ov_k : Z;
  ov_granularity : Granularity;
  ov_owners : list NodeId;
  ov_stride : nat;
  ov_owned : PartSet.PartSet;
  ov_owns_in_bucket : list bool;
  ov_co_owners : list NodeId;
}.

Section Views.
Context {HS : Hashing}.

Definition rendezvous_score (node : NodeId) (bucket : Z) : Z := xxh3_64 (le_bytes 8 node ++ le_bytes 2 bucket).

(** [rank_by_score] and [owners_of_bucket], the reference of the code's own tests. *)
Definition rank_by_score (scored : list (Z * NodeId)) (k : nat) : list NodeId :=
  snd <$> take k (merge_sort ranks scored).
Definition owners_of_bucket (eligible : list NodeId) (bucket : Z) (k : nat) : list NodeId :=
  rank_by_score ((fun node => (rendezvous_score node bucket, node)) <$> eligible) k.

Definition view_hash (eligible : list NodeId) : Z := xxh3_64 (dedup (sort_Z eligible) ≫= le_bytes 8).
Definition view_hash_at (eligible : list NodeId) (g : Granularity) : Z :=
  match g with
  | Bucket => view_hash eligible
  | Part => xxh3_64 ((dedup (sort_Z eligible) ≫= le_bytes 8) ++ PART_VIEW_MARKER)
  end.

Definition top_by_score (eligible : list NodeId) (raw : Z) (k : nat) : list (Z * NodeId) :=
  select_top ((fun node => (rendezvous_score node raw, node)) <$> eligible) k rank_le.

(** What [self_node] owns, folded over the units and their owners. *)
Definition own_step (self_node : NodeId) (g : Granularity)
    (acc : PartSet.PartSet * list bool * gset Z) (ur : Z * list NodeId) : PartSet.PartSet * list bool * gset Z :=
  let '(owned, in_bucket, co_owners) := acc in
  let (unit, ranked) := ur in
  if bool_decide (self_node ∈ ranked) then
    (foldl (fun s p => (PartSet.insert s p).1) owned (parts_of_wire_id g unit),
     foldl (fun l p => <[Z.to_nat (Pid.bucket p) := true]> l) in_bucket (parts_of_wire_id g unit),
     co_owners ∪ list_to_set (filter (fun node => node <> self_node) ranked))
  else acc.

Definition from_owners (self_node : NodeId) (eligible : list NodeId) (k : Z) (g : Granularity) (owners : list NodeId) :
    OwnershipView :=
  let stride := Nat.min (Z.to_nat k) (length eligible) in
  let '(owned, in_bucket, co_owners) :=
    foldl (own_step self_node g) (PartSet.new, replicate (Z.to_nat BUCKET_COUNT) false, ∅)
      (zip (units g) (chunks_exact (length owners) stride owners)) in
  {| ov_view_hash := view_hash_at eligible g; ov_self_node := self_node; ov_eligible := eligible; ov_k := k;
     ov_granularity := g; ov_owners := owners; ov_stride := stride; ov_owned := owned;
     ov_owns_in_bucket := in_bucket; ov_co_owners := sort_Z (elements co_owners) |}.

Definition compute_at (self_node : NodeId) (eligible : list NodeId) (k : Z) (g : Granularity) : OwnershipView :=
  let eligible := with_self self_node eligible in
  let stride := Nat.min (Z.to_nat k) (length eligible) in
  from_owners self_node eligible k g (units g ≫= (fun unit => snd <$> top_by_score eligible unit stride)).

Definition compute (self_node : NodeId) (eligible : list NodeId) (k : Z) : OwnershipView :=
  compute_at self_node eligible k Bucket.

(** One unit's owners in the successor view, from its previous owners. *)
Definition successor_unit (eligible joined : list NodeId) (stride : nat) (unit : Z) (previous : list NodeId) :
    list NodeId :=
  let stays node := bool_decide (node ∈ eligible) in
  if bool_decide (joined = []) && forallb stays previous then previous
  else
    let candidates := (fun node => (rendezvous_score node unit, node)) <$> previous ++ joined in
    snd <$> match carried_top (take stride candidates) (drop stride candidates) (fun c => stays c.2) stride rank_le with
            | Some top => top
            | None => top_by_score eligible unit stride
            end.

(** [binary_search] on the sorted eligible nodes is membership. *)
Definition successor (v : OwnershipView) (eligible : list NodeId) (k : Z) (g : Granularity) : OwnershipView :=
  let eligible := with_self (ov_self_node v) eligible in
  let stride := Nat.min (Z.to_nat k) (length eligible) in
  if negb (bool_decide (k = ov_k v /\ g = ov_granularity v /\ stride = ov_stride v))
  then compute_at (ov_self_node v) eligible k g
  else
    let joined := filter (fun node => node ∉ ov_eligible v) eligible in
    from_owners (ov_self_node v) eligible k g
      (zip (units g) (chunks_exact (length (ov_owners v)) stride (ov_owners v)) ≫=
       (fun '(unit, previous) => successor_unit eligible joined stride unit previous)).

Definition owns (v : OwnershipView) (part : PartId) : bool := PartSet.contains (ov_owned v) part.

(** [owners.get(start..start + stride).unwrap_or_default()]. *)
Definition owners_of (v : OwnershipView) (part : PartId) : list NodeId :=
  let unit := match ov_granularity v with Bucket => Pid.bucket part | Part => Pid.index part end in
  let start := (Z.to_nat unit * ov_stride v)%nat in
  if (start + ov_stride v <=? length (ov_owners v))%nat then take (ov_stride v) (drop start (ov_owners v)) else [].

Definition owned_parts (v : OwnershipView) : list PartId := PartSet.iter (ov_owned v).
Definition owned_part_count (v : OwnershipView) : Z := PartSet.len (ov_owned v).
Definition owns_any_in_bucket (v : OwnershipView) (bucket : Z) : bool :=
  is_some_and (ov_owns_in_bucket v !! Z.to_nat bucket) id.

Definition widened (v : OwnershipView) (returning : list NodeId) : option OwnershipView :=
  let eligible := dedup (sort_Z (ov_eligible v ++ returning)) in
  if (length eligible =? length (ov_eligible v))%nat then None
  else Some (successor v eligible (ov_k v) (ov_granularity v)).
Definition co_owners_with (v : OwnershipView) (returning : list NodeId) : list NodeId :=
  from_option ov_co_owners (ov_co_owners v) (widened v returning).

Definition shared_owned_parts (v : OwnershipView) (peer : NodeId) : list PartId :=
  filter (fun part => peer ∈ owners_of v part) (owned_parts v).

Definition ownership_diff (old new : OwnershipView) : list PartId * list PartId :=
  (filter (fun p => owns old p = false) (owned_parts new), filter (fun p => owns new p = false) (owned_parts old)).

Definition compute_view (self_node : NodeId) (peers : list Peer) (modes : CacheModes) (cache : Bytes) (k : Z) :
    OwnershipView :=
  let eligible := eligible_owners self_node peers modes cache k in
  compute_at self_node eligible k (ownership_granularity self_node peers eligible).

(** The view [refresh_task] publishes over [current] for one snapshot, if any. *)
Definition refresh_view (current : OwnershipView) (peers : list Peer) (modes : CacheModes) (cache : Bytes) (k : Z) :
    option OwnershipView :=
  let eligible := eligible_owners (ov_self_node current) peers modes cache k in
  let g := ownership_granularity (ov_self_node current) peers eligible in
  if ov_view_hash current =? view_hash_at eligible g then None else Some (successor current eligible k g).

End Views.

(** ** The first [k] of a list *)

Section Top.
Context {T : Type} (R : relation T) `{!RelDecision R, !Total R, !Transitive R, !AntiSymm (=) R}.
Context (le : T -> T -> bool) (Hle : forall a b, le a b = true <-> R a b).

(** If [A] is in order and before everything else, a sort of the whole begins with it. *)
Lemma sort_take l A B : l ≡ₚ A ++ B -> StronglySorted R A -> (forall a b, a ∈ A -> b ∈ B -> R a b) ->
  take (length A) (merge_sort R l) = A.
Proof.
  intros Hl HA Hc. assert (merge_sort R l = A ++ merge_sort R B) as ->; [|by rewrite take_app_length].
  apply (StronglySorted_unique R).
  - apply (StronglySorted_merge_sort R).
  - apply StronglySorted_app. split_and!; [|done|apply (StronglySorted_merge_sort R)].
    intros a b Ha. rewrite merge_sort_Permutation. by apply Hc.
  - by rewrite !merge_sort_Permutation.
Qed.

Lemma sorted_split n s : StronglySorted R s ->
  StronglySorted R (take n s) /\ forall a b, a ∈ take n s -> b ∈ drop n s -> R a b.
Proof.
  intros Hs. rewrite <-(take_drop n s) in Hs. by apply StronglySorted_app in Hs as (Hc & H1 & H2).
Qed.

Lemma sift_spec rtop : forall item after, StronglySorted R (reverse rtop ++ after) ->
  (forall a, a ∈ after -> R item a) ->
  StronglySorted R (sift le rtop item after) /\ sift le rtop item after ≡ₚ item :: reverse rtop ++ after.
Proof.
  induction rtop as [|x rtop IH]; intros item after Hs Ha; cbn [sift].
  { split; [|done]. constructor; [done|]. by apply Forall_forall. }
  apply StronglySorted_app in Hs as Hs'. destruct Hs' as (Hc & Hr & Haf).
  rewrite reverse_cons in Hs, Hr. apply StronglySorted_app in Hr as Hr'. destruct Hr' as (Hx & _ & _).
  destruct (le x item) eqn:E.
  - apply Hle in E. split; [|by rewrite Permutation_middle].
    apply StronglySorted_app. split_and!; [|by rewrite reverse_cons|constructor; [done|by apply Forall_forall]].
    intros a b Ha' Hb. assert (Hai : R a item).
    { rewrite reverse_cons in Ha'. apply elem_of_app in Ha' as [Ha'|Ha'].
      - etrans; [|exact E]. apply Hx; [done|left].
      - apply list_elem_of_singleton in Ha'. by subst a. }
    apply elem_of_cons in Hb as [->|Hb]; [done|]. etrans; [exact Hai|auto].
  - assert (Hix : R item x).
    { destruct (total R item x) as [|Hxi]; [done|]. apply Hle in Hxi. congruence. }
    destruct (IH item (x :: after)) as [H1 H2].
    + by rewrite <-app_assoc in Hs.
    + intros a [->|Hin]%elem_of_cons; [done|auto].
    + split; [done|]. rewrite H2, reverse_cons, <-app_assoc. done.
Qed.

Lemma push_spec top item : StronglySorted R top ->
  StronglySorted R (sift le (reverse top) item []) /\ sift le (reverse top) item [] ≡ₚ item :: top.
Proof.
  intros Ht. destruct (sift_spec (reverse top) item []) as [H1 H2].
  - by rewrite app_nil_r, reverse_involutive.
  - by intros a ?%not_elem_of_nil.
  - split; [done|]. by rewrite H2, app_nil_r, reverse_involutive.
Qed.

(** One item more: what the bounded list keeps is what a sort of everything keeps. *)
Lemma push_take k l item :
  take k (sift le (reverse (take k (merge_sort R l))) item []) = take k (merge_sort R (l ++ [item])).
Proof.
  destruct (sorted_split k (merge_sort R l) ltac:(apply (StronglySorted_merge_sort R))) as [Ht Hcross].
  set (t := take k (merge_sort R l)) in *. set (d := drop k (merge_sort R l)) in *.
  assert (Htd : t ++ d ≡ₚ l) by (unfold t, d; by rewrite take_drop, merge_sort_Permutation).
  destruct (push_spec t item Ht) as [Hs Hp]. set (t1 := sift le (reverse t) item []) in *.
  destruct (sorted_split k t1 Hs) as [Ha Hab].
  assert (Hl1 : length t1 = S (length t)) by (by rewrite Hp).
  assert (Hlt : length t = Nat.min k (length (merge_sort R l))) by apply length_take.
  assert (Hkeep : take (length (take k t1)) (merge_sort R (l ++ [item])) = take k t1).
  { apply (sort_take _ _ (drop k t1 ++ d)); [|done|].
    - rewrite app_assoc, take_drop, Hp, <-Htd. cbn. rewrite (Permutation_app_comm _ [item]). done.
    - intros a b Hain [Hb|Hb]%elem_of_app; [by apply Hab|].
      destruct (decide (length t < k)%nat) as [Hlk|Hlk].
      { unfold d in Hb. rewrite drop_ge in Hb by lia. by apply not_elem_of_nil in Hb. }
      assert (Hae : a ∈ item :: t) by (rewrite <-Hp; by eapply subseteq_take).
      apply elem_of_cons in Hae as [->|Hat]; [|by apply Hcross].
      apply list_elem_of_split in Hain as (a1 & a2 & Heq).
      assert (Hm : exists m, m ∈ drop k t1 /\ m ∈ t).
      { assert (Hpt : a1 ++ a2 ++ drop k t1 ≡ₚ t).
        { apply (Permutation_cons_inv (a := item)). rewrite <-Hp. rewrite <-(take_drop k t1) at 2. rewrite Heq.
          rewrite Permutation_middle. cbn. by rewrite <-app_assoc. }
        destruct (drop k t1) as [|m rest] eqn:Ed; [apply (f_equal length) in Ed; rewrite length_drop in Ed; cbn in Ed; lia|].
        exists m. split; [left|]. rewrite <-Hpt. set_solver. }
      destruct Hm as (m & Hm1 & Hm2). etrans; [apply (Hab item m); [rewrite Heq; set_solver|done]|]. by apply Hcross. }
  rewrite <-Hkeep, length_take, Hl1.
  assert (Hl2 : length (merge_sort R (l ++ [item])) = S (length (merge_sort R l)))
    by (rewrite !merge_sort_Permutation, length_app; cbn; lia).
  destruct (decide (length t < k)%nat) as [Hlk|Hlk].
  - rewrite !take_ge by lia. done.
  - f_equal. lia.
Qed.

(** [select_top] is the beginning of a full sort. *)
Lemma select_top_sort k items : select_top items k le = take k (merge_sort R items).
Proof.
  unfold select_top. induction items as [|x items IH] using rev_ind; [by destruct k|].
  rewrite foldl_app, IH. cbn [foldl]. apply push_take.
Qed.

End Top.

(** ** Ranking a unit's nodes *)

#[export] Instance ranks_total : Total ranks.
Proof. intros [s1 n1] [s2 n2]. unfold ranks, rank_le. cbn. lia. Qed.
#[export] Instance ranks_trans : Transitive ranks.
Proof. intros [s1 n1] [s2 n2] [s3 n3]. unfold ranks, rank_le. cbn. lia. Qed.
#[export] Instance ranks_antisym : AntiSymm (=) ranks.
Proof. intros [s1 n1] [s2 n2]. unfold ranks, rank_le. cbn. intros. f_equal; lia. Qed.

(** The vector of a set of nodes: ascending, without repetition. *)
Lemma dedup_sorted l : StronglySorted Z.le l -> StronglySorted Z.lt (dedup l).
Proof.
  induction 1 as [|y l Hs IH Hy]; [constructor|]. destruct l as [|z l]; [repeat constructor|].
  change (StronglySorted Z.lt (if y =? z then dedup (z :: l) else y :: dedup (z :: l))).
  destruct (Z.eqb_spec y z) as [->|Hne]; [done|]. constructor; [done|].
  apply Forall_forall. intros w Hw. rewrite dedup_elem in Hw. apply Forall_cons in Hy as [Hyz _].
  apply StronglySorted_inv in Hs as [_ Hz]. rewrite Forall_forall in Hz.
  apply elem_of_cons in Hw as [->|Hw]; [lia|]. specialize (Hz w Hw). lia.
Qed.

Lemma canonical_eq l l' : (forall x, x ∈ l <-> x ∈ l') -> dedup (sort_Z l) = dedup (sort_Z l').
Proof.
  intros Heq. apply (StronglySorted_unique_strong Z.lt).
  - intros x y _ _ H1 H2. lia.
  - apply dedup_sorted, (StronglySorted_merge_sort Z.le).
  - apply dedup_sorted, (StronglySorted_merge_sort Z.le).
  - apply NoDup_Permutation; [apply sort_dedup..|]. intros x. rewrite !(proj2 (sort_dedup _)). apply Heq.
Qed.

Lemma with_self_spec n l : NoDup (with_self n l) /\ forall x, x ∈ with_self n l <-> x = n \/ x ∈ l.
Proof.
  unfold with_self. destruct (sort_dedup (l ++ [n])) as [Hnd Hin]. split; [done|]. intros x.
  rewrite Hin, elem_of_app, list_elem_of_singleton. tauto.
Qed.

Lemma with_self_idemp n l : with_self n (with_self n l) = with_self n l.
Proof.
  unfold with_self at 1 3. apply canonical_eq. intros x. destruct (with_self_spec n l) as [_ Hin].
  rewrite !elem_of_app, !list_elem_of_singleton, Hin. tauto.
Qed.

Lemma with_self_length n l : (1 <= length (with_self n l))%nat.
Proof.
  destruct (with_self_spec n l) as [_ Hin]. assert (n ∈ with_self n l) as H by (apply Hin; by left).
  destruct (with_self n l); [by apply not_elem_of_nil in H|cbn; lia].
Qed.

Section Rank.
Context {HS : Hashing}.

Abbreviation scored unit := (fmap (M := list) (fun node => (rendezvous_score node unit, node))).

#[local] Instance scored_inj unit : Inj eq eq (fun node => (rendezvous_score node unit, node)).
Proof. by intros a b [= _ ->]. Qed.

Lemma scored_nodup unit l : NoDup l -> NoDup (scored unit l).
Proof. by apply (NoDup_fmap_2 _). Qed.

Lemma scored_elem unit l s n : (s, n) ∈ scored unit l <-> s = rendezvous_score n unit /\ n ∈ l.
Proof.
  rewrite list_elem_of_fmap. split; [intros (x & [= -> ->] & ?); done|]. intros [-> ?]. by exists n.
Qed.

Lemma scored_snd unit l : snd <$> scored unit l = l.
Proof. induction l as [|x l IH]; cbn; [done|]. by f_equal. Qed.

Lemma top_by_score_owners l unit k : snd <$> top_by_score l unit k = owners_of_bucket l unit k.
Proof.
  unfold top_by_score, owners_of_bucket, rank_by_score. by rewrite (select_top_sort ranks).
Qed.

(** The owners are a function of the set of nodes, distinct, [min k n] of them, from it. *)
Lemma owners_perm l l' unit k : l ≡ₚ l' -> owners_of_bucket l unit k = owners_of_bucket l' unit k.
Proof.
  intros Hp. unfold owners_of_bucket, rank_by_score. f_equal. f_equal.
  apply (StronglySorted_unique ranks); [apply (StronglySorted_merge_sort ranks)..|].
  rewrite !merge_sort_Permutation. by rewrite Hp.
Qed.

Lemma owners_length l unit k : length (owners_of_bucket l unit k) = Nat.min k (length l).
Proof. unfold owners_of_bucket, rank_by_score. by rewrite length_fmap, length_take, merge_sort_Permutation, length_fmap. Qed.

Lemma owners_take_min l unit k : owners_of_bucket l unit (Nat.min k (length l)) = owners_of_bucket l unit k.
Proof.
  unfold owners_of_bucket, rank_by_score. f_equal.
  assert (Hl : length (merge_sort ranks (scored unit l)) = length l) by (by rewrite merge_sort_Permutation, length_fmap).
  destruct (Nat.min_spec k (length l)) as [[_ ->]|[Hge ->]]; [done|]. by rewrite !take_ge by lia.
Qed.

Lemma merge_sort_scored l unit : merge_sort ranks (scored unit l) = scored unit (snd <$> merge_sort ranks (scored unit l)).
Proof.
  apply list_eq. intros i. rewrite !list_lookup_fmap. destruct (merge_sort ranks (scored unit l) !! i) as [[s n]|] eqn:E; [|done].
  cbn. do 2 f_equal. apply list_elem_of_lookup_2 in E. rewrite merge_sort_Permutation in E.
  by apply scored_elem in E as [-> _].
Qed.

Lemma owners_scored l unit k : scored unit (owners_of_bucket l unit k) = take k (merge_sort ranks (scored unit l)).
Proof. unfold owners_of_bucket, rank_by_score. rewrite merge_sort_scored at 2. by rewrite <-!fmap_take. Qed.

Lemma owners_subset l unit k : owners_of_bucket l unit k ⊆ l.
Proof.
  intros x Hx. assert (Hs : (rendezvous_score x unit, x) ∈ scored unit (owners_of_bucket l unit k)) by (by apply scored_elem).
  rewrite owners_scored in Hs. apply subseteq_take in Hs. rewrite merge_sort_Permutation in Hs. by apply scored_elem in Hs as [_ ?].
Qed.

Lemma owners_nodup l unit k : NoDup l -> NoDup (owners_of_bucket l unit k).
Proof.
  intros Hl. apply (NoDup_fmap_1 (fun node => (rendezvous_score node unit, node))). rewrite owners_scored.
  apply (NoDup_app (take k _) (drop k (merge_sort ranks (scored unit l)))). rewrite take_drop, merge_sort_Permutation.
  by apply scored_nodup.
Qed.

(** One of the first [s] of [A] does not come after all of [s] given elements of it. *)
Lemma leader_bounded (A kept : list (Z * NodeId)) s a : NoDup kept -> kept ⊆ A -> (s <= length kept)%nat ->
  a ∈ take s (merge_sort ranks A) -> exists u, u ∈ kept /\ ranks a u.
Proof.
  intros Hkn HkA Hkl Ha. destruct (decide (Exists (fun u => ranks a u) kept)) as [Hex|Hno];
    [by apply Exists_exists in Hex|exfalso].
  apply list_elem_of_lookup in Ha as [i Hi]. apply lookup_take_Some in Hi as [Hi His].
  assert (Hpre : kept ⊆ take i (merge_sort ranks A)).
  { intros u Hu. assert (Hnot : ~ ranks a u) by (intros ?; apply Hno, Exists_exists; eauto).
    assert (HuA : u ∈ merge_sort ranks A) by (rewrite merge_sort_Permutation; auto).
    rewrite <-(take_drop_middle _ _ _ Hi) in HuA. apply elem_of_app in HuA as [?|HuA]; [done|].
    exfalso. apply Hnot. apply elem_of_cons in HuA as [->|HuA]; [destruct (total ranks a a); done|].
    pose proof (StronglySorted_merge_sort ranks A) as HsA. rewrite <-(take_drop_middle _ _ _ Hi) in HsA.
    apply StronglySorted_app in HsA as (_ & _ & HsA). apply StronglySorted_inv in HsA as [_ HsA].
    rewrite Forall_forall in HsA. by apply HsA. }
  apply NoDup_submseteq, submseteq_length in Hpre; [|done]. rewrite length_take in Hpre. lia.
Qed.

(** [kept] are the first [s] of [E]; if they all stay, no other old node can rise. *)
Lemma kept_still_lead (E E' kept joined : list (Z * NodeId)) s : NoDup E -> NoDup E' -> (s <= length E)%nat ->
  kept = take s (merge_sort ranks E) -> kept ⊆ E' -> NoDup joined -> (forall x, x ∈ joined <-> x ∈ E' /\ x ∉ E) ->
  take s (merge_sort ranks (kept ++ joined)) = take s (merge_sort ranks E').
Proof.
  intros HE HE' Hs -> Hstay HJ Hjoin. set (kept := take s (merge_sort ranks E)) in *.
  assert (Hsort : NoDup (merge_sort ranks E)) by (by rewrite merge_sort_Permutation).
  assert (Hkl : length kept = s) by (unfold kept; rewrite length_take, merge_sort_Permutation; lia).
  assert (Hkn : NoDup kept) by (rewrite <-(take_drop s (merge_sort ranks E)) in Hsort; by apply NoDup_app in Hsort as [? _]).
  assert (Hke : kept ⊆ E) by (intros x Hx%subseteq_take; by rewrite merge_sort_Permutation in Hx).
  destruct (sorted_split ranks s (merge_sort ranks E) ltac:(apply (StronglySorted_merge_sort ranks))) as [_ Hcross].
  set (A := kept ++ joined). set (D := filter (fun x => x ∉ A) E').
  assert (HA : NoDup A).
  { apply NoDup_app. split_and!; [done| |done]. intros x Hx Hj. apply Hjoin in Hj as [_ Hj]. auto. }
  set (t := take s (merge_sort ranks A)).
  assert (Htl : length t = s) by (unfold t; rewrite length_take, merge_sort_Permutation; unfold A; rewrite length_app; lia).
  destruct (sorted_split ranks s (merge_sort ranks A) ltac:(apply (StronglySorted_merge_sort ranks))) as [Hts Htd].
  fold t in Hts, Htd. change (t = take s (merge_sort ranks E')).
  pose proof (sort_take ranks E' t (drop s (merge_sort ranks A) ++ D)) as Hst. rewrite Htl in Hst.
  symmetry. apply Hst; [|done|].
  - rewrite app_assoc. unfold t. rewrite take_drop, merge_sort_Permutation.
    apply NoDup_Permutation; [done| |].
    + apply NoDup_app. split_and!; [done| |by apply NoDup_filter]. intros x Hx Hd. by apply list_elem_of_filter in Hd as [? _].
    + intros x. unfold D. rewrite elem_of_app, list_elem_of_filter.
      destruct (decide (x ∈ A)) as [Hx|Hx]; [|tauto]. unfold A in Hx. apply elem_of_app in Hx as Hx'.
      destruct Hx' as [Hk|Hj]; [|apply Hjoin in Hj]; naive_solver.
  - intros a b Ha [Hb|Hb]%elem_of_app; [by apply Htd|].
    apply list_elem_of_filter in Hb as [HbA HbE'].
    assert (HbE : b ∈ E). { destruct (decide (b ∈ E)); [done|]. exfalso. apply HbA. unfold A. apply elem_of_app. right. by apply Hjoin. }
    assert (Hbd : b ∈ drop s (merge_sort ranks E)).
    { assert (Hb : b ∈ merge_sort ranks E) by (by rewrite merge_sort_Permutation).
      rewrite <-(take_drop s (merge_sort ranks E)) in Hb. apply elem_of_app in Hb as [Hb|Hb]; [|done].
      exfalso. apply HbA. unfold A. apply elem_of_app. by left. }
    destruct (leader_bounded A kept s a) as (u & Hu & Hau); [done|by intros x; unfold A; set_solver|lia|done|].
    etrans; [exact Hau|]. by apply Hcross.
Qed.

End Rank.

(** ** The successor view *)

Section Successor.
Context {HS : Hashing}.
Abbreviation scored unit := (fmap (M := list) (fun node => (rendezvous_score node unit, node))).

Lemma successor_unit_exact (E E' : list NodeId) unit s : NoDup E -> NoDup E' -> (s <= length E)%nat -> (s <= length E')%nat ->
  successor_unit E' (filter (fun node => node ∉ E) E') s unit (owners_of_bucket E unit s) = owners_of_bucket E' unit s.
Proof.
  intros HE HE' Hs Hs'. set (joined := filter (fun node => node ∉ E) E'). set (prev := owners_of_bucket E unit s).
  assert (Hprev : length prev = s) by (unfold prev; rewrite owners_length; lia).
  assert (Hlead : prev ⊆ E' -> take s (merge_sort ranks (scored unit (prev ++ joined))) = take s (merge_sort ranks (scored unit E'))).
  { intros Hstay. rewrite fmap_app. apply (kept_still_lead (scored unit E)).
    - by apply scored_nodup.
    - by apply scored_nodup.
    - by rewrite length_fmap.
    - apply owners_scored.
    - intros [sc n] [-> Hn]%scored_elem. apply scored_elem. auto.
    - by apply scored_nodup, NoDup_filter.
    - intros [sc n]. rewrite !scored_elem. unfold joined. rewrite list_elem_of_filter. naive_solver. }
  unfold successor_unit. case_match eqn:Estay.
  - apply andb_true_iff in Estay as [Hj%bool_decide_eq_true Hall].
    assert (Hstay : prev ⊆ E').
    { intros x Hx. rewrite forallb_forall in Hall. apply list_elem_of_In in Hx. apply Hall in Hx. by apply bool_decide_eq_true in Hx. }
    specialize (Hlead Hstay). fold joined in Hj. rewrite Hj, app_nil_r in Hlead. unfold owners_of_bucket, rank_by_score at 1.
    rewrite <-Hlead, <-(scored_snd unit prev) at 1. f_equal. unfold prev at 1. rewrite owners_scored.
    symmetry. assert (Hl : length (scored unit prev) = s) by (by rewrite length_fmap). rewrite take_ge by (rewrite merge_sort_Permutation; lia).
    apply (StronglySorted_unique ranks); [apply (StronglySorted_merge_sort ranks)|apply (sorted_split ranks), (StronglySorted_merge_sort ranks)|].
    rewrite merge_sort_Permutation. unfold prev. by rewrite owners_scored.
  - fold joined prev. rewrite fmap_app, take_app_length', drop_app_length' by (by rewrite length_fmap).
    unfold carried_top. destruct (forallb _ (scored unit prev)) eqn:Ef; [|apply top_by_score_owners].
    rewrite (select_top_sort ranks), <-fmap_app, Hlead; [reflexivity|..]; try done.
    intros x Hx. rewrite forallb_forall in Ef.
    assert (Hin : (rendezvous_score x unit, x) ∈ scored unit prev) by (by apply scored_elem).
    apply list_elem_of_In in Hin. apply Ef in Hin. by apply bool_decide_eq_true in Hin.
Qed.

(** The units' owners laid end to end, and cut again. *)
Lemma chunks_exact_units {A} (f : Z -> list A) s us : (0 < s)%nat -> (forall u, length (f u) = s) ->
  forall fuel, (length us <= fuel)%nat -> chunks_exact fuel s (us ≫= f) = f <$> us.
Proof.
  intros Hs Hf. induction us as [|u us IH]; intros fuel Hfuel.
  { destruct fuel; [done|]. cbn. destruct s; [lia|done]. }
  destruct fuel; [cbn in Hfuel; lia|]. cbn in Hfuel. rewrite bind_cons. cbn [chunks_exact fmap list_fmap].
  rewrite length_app, Hf. destruct (Nat.ltb_spec (s + length (us ≫= f)) s); [lia|].
  rewrite take_app_length', drop_app_length' by done. f_equal. apply IH. lia.
Qed.

Lemma bind_length {A} (f : Z -> list A) s us : (forall u, length (f u) = s) -> length (us ≫= f) = (length us * s)%nat.
Proof. intros Hf. induction us as [|u us IH]; [done|]. rewrite bind_cons, length_app, Hf, IH. cbn. lia. Qed.

Lemma zip_bind {A B} (f : Z -> A) (h : Z -> A -> list B) us :
  zip us (f <$> us) ≫= (fun '(u, p) => h u p) = us ≫= (fun u => h u (f u)).
Proof. induction us as [|u us IH]; [done|]. cbn [fmap list_fmap zip zip_with]. by rewrite !bind_cons, IH. Qed.

(** A view is its units' owners: [owners_of_bucket] of the eligible nodes, one after the other. *)
Definition unit_owners (eligible : list NodeId) (k : Z) (unit : Z) : list NodeId :=
  owners_of_bucket eligible unit (Z.to_nat k).

Section View.
Context (self_node : NodeId) (eligible : list NodeId) (k : Z) (g : Granularity) (Hk : 1 <= k).
Abbreviation members := (with_self self_node eligible).
Abbreviation stride := (Nat.min (Z.to_nat k) (length members)).
Abbreviation view := (compute_at self_node eligible k g).

Lemma stride_pos : (0 < stride)%nat.
Proof. pose proof (with_self_length self_node eligible). lia. Qed.

Lemma unit_owners_length unit : length (unit_owners members k unit) = stride.
Proof. apply owners_length. Qed.

Lemma compute_at_owners : compute_at self_node eligible k g = from_owners self_node members k g (units g ≫= unit_owners members k).
Proof.
  unfold compute_at. f_equal. apply list_bind_ext; [|done]. intros u. rewrite top_by_score_owners. apply owners_take_min.
Qed.

Lemma from_owners_fields owners : let v := from_owners self_node members k g owners in
  ov_owners v = owners /\ ov_stride v = stride /\ ov_eligible v = members /\ ov_self_node v = self_node /\ ov_k v = k /\
  ov_granularity v = g /\ ov_view_hash v = view_hash_at members g.
Proof. cbv zeta. unfold from_owners. by destruct (foldl _ _ _) as [[? ?] ?]. Qed.

Lemma view_chunks : chunks_exact (length (ov_owners view)) stride (ov_owners view) = unit_owners members k <$> units g.
Proof.
  rewrite compute_at_owners. destruct (from_owners_fields (units g ≫= unit_owners members k)) as (-> & _).
  apply chunks_exact_units; [apply stride_pos|apply unit_owners_length|].
  rewrite (bind_length _ stride) by apply unit_owners_length. pose proof stride_pos. nia.
Qed.

End View.

Lemma successor_compute (self_node : NodeId) (eligible eligible' : list NodeId) (k k' : Z) (g g' : Granularity)
  (Hk : 1 <= k) (Hk' : 1 <= k') :
  successor (compute_at self_node eligible k g) eligible' k' g' = compute_at self_node eligible' k' g'.
Proof.
  unfold successor.
  destruct (from_owners_fields self_node eligible k g (units g ≫= unit_owners (with_self self_node eligible) k))
    as (Ho & Hst & He & Hse & Hkk & Hg & _). rewrite <-compute_at_owners in Ho, Hst, He, Hse, Hkk, Hg.
  rewrite Hse, Hkk, Hg, Hst. case_bool_decide as Hsame; cbn [negb].
  2: { unfold compute_at. by rewrite with_self_idemp. }
  destruct Hsame as (-> & -> & Hs). rewrite Hs, view_chunks, He by done. rewrite compute_at_owners.
  f_equal. rewrite zip_bind. apply list_bind_ext; [|done]. intros u.
  unfold unit_owners. rewrite <-(owners_take_min _ u (Z.to_nat k)), <-(owners_take_min (with_self self_node eligible') u (Z.to_nat k)).
  rewrite Hs. apply successor_unit_exact; [apply with_self_spec..|lia|lia].
Qed.

(** C25: a view derived from its predecessor is the view computed from scratch: whatever nodes
    joined and left, and whatever the owner count and granularity become, the successor equals
    [compute_at], owner lists, owned parts, co-owners and hash included. *)
Theorem successor_is_compute_at (self_node : NodeId) (eligible eligible' : list NodeId) (k k' : Z) (g g' : Granularity)
  (Hk : 1 <= k) (Hk' : 1 <= k') :
  successor (compute_at self_node eligible k g) eligible' k' g' = compute_at self_node eligible' k' g'.
Proof. by apply successor_compute. Qed.

End Successor.

(** ** What a view says *)

Section Exact.
Context {HS : Hashing}.

Definition unit_of (g : Granularity) (p : PartId) : Z := match g with Bucket => Pid.bucket p | Part => p end.

Lemma unit_of_range g p : is_u16 p -> 0 <= unit_of g p < unit_count g.
Proof.
  intros Hp. destruct g; cbn; [rewrite Pid.bucket_mod|]; unfold is_u16, u16_max, PART_SPACE, BUCKET_COUNT, PART_COUNT in *; dlia.
Qed.

Lemma unit_of_in g p : is_u16 p -> unit_of g p ∈ units g.
Proof. intros Hp. apply elem_of_seqZ. pose proof (unit_of_range g p Hp). lia. Qed.

Lemma parts_of_wire_id_spec g u q : u ∈ units g -> is_u16 q -> q ∈ parts_of_wire_id g u <-> unit_of g q = u.
Proof.
  intros Hu%elem_of_seqZ Hq. destruct g; cbn in *; [|rewrite list_elem_of_singleton; lia].
  unfold Pid.of_bucket. rewrite list_elem_of_fmap. unfold BUCKET_COUNT, PART_COUNT in *. split.
  - intros (p & -> & Hp%elem_of_seqZ). rewrite Pid.bucket_mod, Pid.new_add. dlia.
  - intros <-. exists (Pid.part q). split; [by rewrite Pid.new_bucket_part|]. apply elem_of_seqZ. rewrite Pid.part_div.
    unfold is_u16, u16_max in Hq. dlia.
Qed.

Lemma parts_of_wire_id_u16 g u q : u ∈ units g -> q ∈ parts_of_wire_id g u -> is_u16 q.
Proof.
  intros Hu%elem_of_seqZ. destruct g; cbn in *.
  - unfold Pid.of_bucket. rewrite list_elem_of_fmap. intros (p & -> & Hp%elem_of_seqZ). rewrite Pid.new_add.
    unfold is_u16, u16_max. dlia.
  - rewrite list_elem_of_singleton. intros ->. unfold is_u16, u16_max, PART_SPACE, BUCKET_COUNT, PART_COUNT in *. lia.
Qed.

Lemma insert_all ps : forall s, PartSet.wf s -> (forall p, p ∈ ps -> is_u16 p) ->
  let s' := foldl (fun s p => (PartSet.insert s p).1) s ps in
  PartSet.wf s' /\ forall q, is_u16 q -> PartSet.member s' q <-> q ∈ ps \/ PartSet.member s q.
Proof.
  induction ps as [|p ps IH]; intros s Hwf Hps; cbv zeta; cbn [foldl].
  { split; [done|]. intros q _. rewrite elem_of_nil. tauto. }
  pose proof (PartSet.insert_spec s p Hwf (Hps p ltac:(left))) as Hi. destruct (PartSet.insert s p) as [s1 r].
  destruct Hi as (Hwf1 & _ & Hm1). cbn [fst]. destruct (IH s1 Hwf1) as [Hwf' Hm']; [intros; apply Hps; by right|].
  split; [done|]. intros q Hq. rewrite Hm', Hm1, elem_of_cons by done. naive_solver.
Qed.

(** The owned parts and the co-owners, as sets. *)
Lemma own_fold self_node g (f : Z -> list NodeId) us : (forall u, u ∈ us -> u ∈ units g) ->
  forall owned in_bucket co, PartSet.wf owned ->
  let '(owned', _, co') := foldl (own_step self_node g) (owned, in_bucket, co) (zip us (f <$> us)) in
  PartSet.wf owned' /\
  (forall q, is_u16 q -> PartSet.member owned' q <-> (unit_of g q ∈ us /\ self_node ∈ f (unit_of g q)) \/ PartSet.member owned q) /\
  (forall n, n ∈ co' <-> (exists u, u ∈ us /\ self_node ∈ f u /\ n ∈ f u /\ n <> self_node) \/ n ∈ co).
Proof.
  induction us as [|u us IH]; intros Hus owned in_bucket co Hwf; cbn [fmap list_fmap zip zip_with foldl].
  { split_and!; [done| |]; intros; set_solver. }
  unfold own_step at 2. case_bool_decide as Hself.
  - destruct (insert_all (parts_of_wire_id g u) owned Hwf) as [Hwf1 Hm1].
    { intros p. apply parts_of_wire_id_u16. apply Hus. left. }
    match goal with |- context [foldl _ (?o, ?b, ?c) (zip us _)] =>
      specialize (IH ltac:(intros; apply Hus; by right) o b c Hwf1); destruct (foldl _ (o, b, c) _) as [[owned' b'] co'] end.
    destruct IH as (H1 & H2 & H3). split_and!; [done| |].
    + intros q Hq. rewrite H2, Hm1, parts_of_wire_id_spec, elem_of_cons by (done || (apply Hus; left)).
      split; [|naive_solver]. intros [[? ?]|[<-|?]]; auto.
    + intros n. rewrite H3, elem_of_union, elem_of_list_to_set, list_elem_of_filter. set_solver.
  - specialize (IH ltac:(intros; apply Hus; by right) owned in_bucket co Hwf).
    destruct (foldl _ _ _) as [[owned' b'] co']. destruct IH as (H1 & H2 & H3). split_and!; [done| |].
    + intros q Hq. rewrite H2, elem_of_cons by done. split; [naive_solver|]. intros [[[->|?] ?]|?]; tauto.
    + intros n. rewrite H3. set_solver.
Qed.

Section Facts.
Context (self_node : NodeId) (eligible : list NodeId) (k : Z) (g : Granularity) (Hk : 1 <= k).
Abbreviation members := (with_self self_node eligible).
Abbreviation view := (compute_at self_node eligible k g).

Lemma slice_units {A} (f : Z -> list A) s us : (forall u, length (f u) = s) ->
  forall i u, us !! i = Some u -> take s (drop (i * s) (us ≫= f)) = f u.
Proof.
  intros Hf. induction us as [|w us IH]; intros i u Hi; [done|]. rewrite bind_cons. destruct i as [|i].
  - injection Hi as ->. change (0 * s)%nat with 0%nat. rewrite drop_0. by rewrite take_app_length'.
  - cbn [Nat.mul]. rewrite <-drop_drop, drop_app_length' by done. by apply IH.
Qed.

Lemma owners_of_view p : is_u16 p -> owners_of view p = unit_owners members k (unit_of g p).
Proof.
  intros Hp. unfold owners_of. rewrite compute_at_owners.
  destruct (from_owners_fields self_node eligible k g (units g ≫= unit_owners members k)) as (-> & -> & _ & _ & _ & -> & _).
  fold (unit_of g p). pose proof (unit_of_range g p Hp) as Hu.
  change (match g with Bucket => Pid.bucket p | Part => Pid.index p end) with (unit_of g p).
  assert (Hl : units g !! Z.to_nat (unit_of g p) = Some (unit_of g p)).
  { unfold units. rewrite lookup_seqZ. lia. }
  rewrite (bind_length _ (Nat.min (Z.to_nat k) (length members))) by apply unit_owners_length.
  assert (Hlen : length (units g) = Z.to_nat (unit_count g)) by apply length_seqZ.
  destruct (Nat.leb_spec (Z.to_nat (unit_of g p) * Nat.min (Z.to_nat k) (length members) + Nat.min (Z.to_nat k) (length members))
    (length (units g) * Nat.min (Z.to_nat k) (length members))) as [_|Hgt]; [|rewrite Hlen in Hgt; nia].
  apply slice_units; [apply unit_owners_length|done].
Qed.

Lemma view_sets : PartSet.wf (ov_owned view) /\
  (forall q, is_u16 q -> PartSet.member (ov_owned view) q <-> self_node ∈ unit_owners members k (unit_of g q)) /\
  (forall n, n ∈ ov_co_owners view <->
     n <> self_node /\ exists u, u ∈ units g /\ self_node ∈ unit_owners members k u /\ n ∈ unit_owners members k u).
Proof.
  pose proof (view_chunks self_node eligible k g Hk) as Hch. rewrite compute_at_owners in Hch |- *.
  destruct (from_owners_fields self_node eligible k g (units g ≫= unit_owners members k)) as (Ho & _). rewrite Ho in Hch.
  unfold from_owners. rewrite Hch.
  pose proof (own_fold self_node g (unit_owners members k) (units g) ltac:(done) PartSet.new
    (replicate (Z.to_nat BUCKET_COUNT) false) ∅ (PartSet.zero_words_wf 1024 eq_refl)) as Hf.
  destruct (foldl _ _ _) as [[owned inb] co]. destruct Hf as (H1 & H2 & H3). cbn [ov_owned ov_co_owners]. split_and!; [done| |].
  - intros q Hq. rewrite H2 by done. split; [|intros; left; split; [by apply unit_of_in|done]].
    intros [[_ ?]|Hn]; [done|]. exfalso. by apply PartSet.zero_words_member in Hn.
  - intros n. rewrite sort_Z_elem, elem_of_elements, H3. set_solver.
Qed.

Lemma owns_view p : is_u16 p -> owns view p = bool_decide (self_node ∈ owners_of view p).
Proof.
  intros Hp. destruct view_sets as (_ & Hm & _). unfold owns. rewrite owners_of_view by done. apply eq_true_iff_eq.
  by rewrite PartSet.contains_member, bool_decide_eq_true, Hm.
Qed.

Lemma owned_parts_view : owned_parts view = filter (fun q => self_node ∈ owners_of view q) (seqZ 0 PART_SPACE).
Proof.
  destruct view_sets as (Hwf & Hm & _). unfold owned_parts. rewrite PartSet.iter_spec by apply Hwf.
  apply filter_ext_in. intros q Hq%elem_of_seqZ. change PART_SPACE with 65536 in Hq.
  assert (is_u16 q) by (unfold is_u16, u16_max; lia). by rewrite PartSet.contains_member, Hm, owners_of_view.
Qed.

End Facts.

Lemma co_owners_view (self_node : NodeId) (eligible : list NodeId) (k : Z) (g : Granularity) n : 1 <= k ->
  let view := compute_at self_node eligible k g in
  n ∈ ov_co_owners view <-> n <> self_node /\ exists p, is_u16 p /\ self_node ∈ owners_of view p /\ n ∈ owners_of view p.
Proof.
  intros Hk. cbv zeta. destruct (view_sets self_node eligible k g Hk) as (_ & _ & ->). apply and_iff_compat_l. split.
  + intros (u & Hu & H1 & H2).
    assert (exists p, is_u16 p /\ unit_of g p = u) as (p & Hp & <-).
    { apply elem_of_seqZ in Hu. exists u. unfold is_u16, u16_max. destruct g; cbn in *;
        unfold PART_SPACE, BUCKET_COUNT, PART_COUNT in Hu; [rewrite Pid.bucket_mod|]; split; dlia. }
    exists p. by rewrite (owners_of_view self_node eligible k g Hk p Hp).
  + intros (p & Hp & H1 & H2). rewrite (owners_of_view self_node eligible k g Hk p Hp) in H1, H2.
    exists (unit_of g p). split_and!; [by apply unit_of_in|done|done].
Qed.

(** A view is the rendezvous ranking. For every part the owners are the first [k] eligible
    nodes in rank order, as a full sort gives them: distinct, and as many as there are nodes,
    up to [k]. The node owns exactly the parts it is listed for, in index order, and its
    co-owners are exactly the other nodes listed for one of them. *)
Theorem ownership_is_rendezvous (self_node : NodeId) (eligible : list NodeId) (k : Z) (g : Granularity) (Hk : 1 <= k) :
  let view := compute_at self_node eligible k g in
  let members := with_self self_node eligible in
  (forall p, is_u16 p ->
     owners_of view p = owners_of_bucket members (unit_of g p) (Z.to_nat k) /\
     NoDup (owners_of view p) /\ length (owners_of view p) = Nat.min (Z.to_nat k) (length members) /\
     owns view p = bool_decide (self_node ∈ owners_of view p)) /\
  owned_parts view = filter (fun q => self_node ∈ owners_of view q) (seqZ 0 PART_SPACE) /\
  (forall n, n ∈ ov_co_owners view <->
     n <> self_node /\ exists p, is_u16 p /\ self_node ∈ owners_of view p /\ n ∈ owners_of view p).
Proof.
  cbv zeta. split_and!.
  - intros p Hp. rewrite owns_view by done. rewrite (owners_of_view self_node eligible k g Hk p Hp).
    split_and!; [done|apply owners_nodup, with_self_spec|apply owners_length|done].
  - by apply owned_parts_view.
  - intros n. by apply co_owners_view.
Qed.

(** ** Agreement and movement *)

Lemma with_self_member a E : a ∈ E -> with_self a E = dedup (sort_Z E).
Proof.
  intros Ha. unfold with_self. apply canonical_eq. intros x. rewrite elem_of_app, list_elem_of_singleton. naive_solver.
Qed.

Lemma owners_of_member a E k g p : 1 <= k -> a ∈ E -> is_u16 p ->
  owners_of (compute_at a E k g) p = unit_owners (dedup (sort_Z E)) k (unit_of g p).
Proof. intros Hk Ha Hp. rewrite owners_of_view, with_self_member by done. done. Qed.

(** Nodes that see the same members agree. Whatever order and repetition each learned the
    members in, their views have the same hash and the same owners for every part; two members
    share the same parts seen from either side; and exactly [min k n] of the [n] members count
    a part as their own. *)
Theorem members_agree (E : list NodeId) (k : Z) (g : Granularity) (a b : NodeId) (E' : list NodeId) (p : PartId)
  (Hk : 1 <= k) (Ha : a ∈ E) (Hb : b ∈ E) (Hsame : forall x, x ∈ E <-> x ∈ E') (Hp : is_u16 p) :
  let va := compute_at a E k g in
  let vb := compute_at b E' k g in
  ov_view_hash va = ov_view_hash vb /\ owners_of va p = owners_of vb p /\
  shared_owned_parts va b = shared_owned_parts vb a /\
  length (filter (fun m => owns (compute_at m E k g) p = true) (dedup (sort_Z E))) =
    Nat.min (Z.to_nat k) (length (dedup (sort_Z E))).
Proof.
  cbv zeta. assert (Hc : dedup (sort_Z E) = dedup (sort_Z E')) by (by apply canonical_eq).
  assert (Hb' : b ∈ E') by (by apply Hsame).
  assert (Hag : forall q, is_u16 q -> owners_of (compute_at a E k g) q = owners_of (compute_at b E' k g) q).
  { intros q Hq. rewrite !owners_of_member by done. by rewrite Hc. }
  split_and!; [|by apply Hag| |].
  - rewrite !compute_at_owners.
    destruct (from_owners_fields a E k g (units g ≫= unit_owners (with_self a E) k)) as (_ & _ & _ & _ & _ & _ & ->).
    destruct (from_owners_fields b E' k g (units g ≫= unit_owners (with_self b E') k)) as (_ & _ & _ & _ & _ & _ & ->).
    by rewrite !with_self_member, Hc.
  - unfold shared_owned_parts. rewrite !owned_parts_view, !list_filter_filter by done. apply filter_ext_in.
    intros q Hq%elem_of_seqZ. change PART_SPACE with 65536 in Hq.
    rewrite Hag by (unfold is_u16, u16_max; lia). tauto.
  - set (ms := dedup (sort_Z E)). destruct (sort_dedup E) as [Hnd Hin]. fold ms in Hnd, Hin.
    rewrite <-(owners_length ms (unit_of g p) (Z.to_nat k)). apply Permutation_length, NoDup_Permutation.
    + by apply NoDup_filter.
    + by apply owners_nodup.
    + intros x. rewrite list_elem_of_filter, Hin. split.
      * intros [Hown Hx]. rewrite owns_view, owners_of_member, bool_decide_eq_true in Hown by done. done.
      * intros Ho. assert (Hx : x ∈ E) by (apply Hin, (owners_subset ms (unit_of g p) (Z.to_nat k)), Ho). split; [|done].
        rewrite owns_view, owners_of_member, bool_decide_eq_true by done. done.
Qed.

(** Only a node that joined can become an owner where every owner stays. *)
Lemma new_owner_joined E E' unit k : NoDup E -> NoDup E' -> owners_of_bucket E unit k ⊆ E' ->
  forall x, x ∈ owners_of_bucket E' unit k -> x ∈ owners_of_bucket E unit k \/ x ∉ E.
Proof.
  intros HE HE' Hstay x Hx. destruct (decide (x ∈ E)) as [HxE|]; [left|by right].
  destruct (decide (k <= length E)%nat) as [Hle|Hgt].
  - assert (Hl' : (k <= length E')%nat).
    { pose proof (owners_length E unit k) as Hl. replace (Nat.min k (length E)) with k in Hl by lia. rewrite <-Hl.
      apply submseteq_length, NoDup_submseteq; [by apply owners_nodup|done]. }
    rewrite <-(successor_unit_exact E E' unit k HE HE' Hle Hl') in Hx. unfold successor_unit in Hx. case_match; [done|].
    set (joined := filter (fun node => node ∉ E) E') in *.
    rewrite fmap_app, take_app_length', drop_app_length' in Hx by (rewrite length_fmap, owners_length; lia).
    unfold carried_top in Hx. destruct (forallb _ (fmap _ (owners_of_bucket E unit k))) eqn:Ef.
    + rewrite (select_top_sort ranks) in Hx by done. apply list_elem_of_fmap in Hx as ([sc n] & Heq & Hx). cbn in Heq. subst n.
      apply subseteq_take in Hx. rewrite merge_sort_Permutation, <-fmap_app in Hx. apply scored_elem in Hx as [_ Hx].
      apply elem_of_app in Hx as [?|Hx]; [done|]. by apply list_elem_of_filter in Hx as [? _].
    + exfalso. apply not_true_iff_false in Ef. apply Ef, forallb_forall. intros [sc n] Hn%list_elem_of_In.
      apply scored_elem in Hn as [_ Hn]. by apply bool_decide_eq_true, Hstay.
  - assert (Hp : owners_of_bucket E unit k ≡ₚ E).
    { rewrite <-(scored_snd unit (owners_of_bucket E unit k)), owners_scored, take_ge.
      - rewrite merge_sort_Permutation. by rewrite scored_snd.
      - rewrite merge_sort_Permutation, length_fmap. lia. }
    by rewrite Hp.
Qed.

(** Membership changes move only what they must. Where every owner of a part stays, a node
    becomes an owner of it only by joining; and when nodes only leave, every owner that stays
    keeps the part. So one join gives the new node some parts and moves nothing between the
    others, and one departure moves only the parts the node owned. *)
Theorem membership_change_moves_little (self_node : NodeId) (E E' : list NodeId) (k : Z) (g : Granularity) (p : PartId)
  (Hk : 1 <= k) (Hself : self_node ∈ E) (Hself' : self_node ∈ E') (Hp : is_u16 p) :
  let before := owners_of (compute_at self_node E k g) p in
  let after := owners_of (compute_at self_node E' k g) p in
  (before ⊆ E' -> forall x, x ∈ after -> x ∈ before \/ x ∉ E) /\
  (E' ⊆ E -> forall x, x ∈ before -> x ∈ E' -> x ∈ after).
Proof.
  cbv zeta. rewrite !owners_of_member by done. unfold unit_owners.
  destruct (sort_dedup E) as [Hnd Hin], (sort_dedup E') as [Hnd' Hin'].
  split.
  - intros Hstay x Hx. destruct (new_owner_joined (dedup (sort_Z E)) (dedup (sort_Z E')) (unit_of g p) (Z.to_nat k)) with (x := x)
      as [?|Hx']; try done; [intros y Hy; by apply Hin', Hstay|by left|right; by rewrite <-Hin].
  - intros Hsub x Hx HxE'.
    destruct (new_owner_joined (dedup (sort_Z E')) (dedup (sort_Z E)) (unit_of g p) (Z.to_nat k)) with (x := x)
      as [?|Hx']; try done; [intros y Hy; apply Hin, Hsub, Hin'; by apply owners_subset in Hy|].
    exfalso. apply Hx'. by apply Hin'.
Qed.

(** What names parts on the wire reads back: the parts themselves, or whole buckets of them. *)
Theorem wire_ids_cover (g : Granularity) (parts : list PartId) (Hps : forall p, p ∈ parts -> is_u16 p) :
  forall q, is_u16 q ->
  q ∈ (wire_ids g parts ≫= parts_of_wire_id g) <-> exists p, p ∈ parts /\ unit_of g p = unit_of g q.
Proof.
  intros q Hq. rewrite list_elem_of_bind. unfold wire_ids. split.
  - intros (u & Hqu & Hu). apply sort_dedup, list_elem_of_fmap in Hu as (p & -> & Hp).
    exists p. split; [done|]. symmetry. change (q ∈ parts_of_wire_id g (unit_of g p)) in Hqu.
    apply (parts_of_wire_id_spec g); [|done|done]. by apply unit_of_in, Hps.
  - intros (p & Hp & Heq). exists (unit_of g p). split.
    + apply parts_of_wire_id_spec; [by apply unit_of_in, Hps|done|done].
    + apply sort_dedup, list_elem_of_fmap. by exists p.
Qed.

End Exact.

(** ** Evaluating the statements *)

Lemma successor_is_compute_at_witness :
  successor (compute_at 7 [3; 9] 2 Bucket) [9; 4; 9] 2 Bucket = compute_at 7 [9; 4; 9] 2 Bucket.
Proof. apply (successor_is_compute_at 7 [3; 9] [9; 4; 9] 2 2 Bucket Bucket); lia. Defined.

Lemma ownership_is_rendezvous_witness :
  owners_of (compute_at 7 [3; 9] 2 Part) 300 = owners_of_bucket [3; 7; 9] 300 2.
Proof.
  assert (H := ownership_is_rendezvous 7 [3; 9] 2 Part ltac:(lia)). cbv zeta in H. destruct H as [H _].
  destruct (H 300 ltac:(unfold is_u16, u16_max; lia)) as [-> _].
  assert (with_self 7 [3; 9] = [3; 7; 9]) as -> by (vm_compute; reflexivity).
  assert (Z.to_nat 2 = 2%nat) as -> by (vm_compute; reflexivity). exact eq_refl.
Defined.

Lemma members_agree_witness :
  shared_owned_parts (compute_at 7 [3; 7; 9] 2 Part) 9 = shared_owned_parts (compute_at 9 [9; 7; 9; 3] 2 Part) 7.
Proof.
  assert (H := members_agree [3; 7; 9] 2 Part 7 9 [9; 7; 9; 3] 0 ltac:(lia) ltac:(repeat constructor) ltac:(repeat constructor)
    ltac:(intros x; rewrite !elem_of_cons, !elem_of_nil; tauto) ltac:(unfold is_u16, u16_max; lia)). cbv zeta in H. exact (proj1 (proj2 (proj2 H))).
Defined.

Lemma membership_change_moves_little_witness :
  Forall (fun x => x ∈ [7; 3] -> x ∈ owners_of (compute_at 7 [7; 3] 2 Bucket) 5)
    (owners_of (compute_at 7 [7; 3; 9] 2 Bucket) 5).
Proof.
  assert (H := membership_change_moves_little 7 [7; 3; 9] [7; 3] 2 Bucket 5 ltac:(lia) ltac:(repeat constructor) ltac:(repeat constructor)
    ltac:(unfold is_u16, u16_max; lia)). cbv zeta in H. apply Forall_forall, (proj2 H).
  intros x. rewrite !elem_of_cons, !elem_of_nil. tauto.
Defined.
