(* ===== verification/Residency.v ===== *)
(** * Residency: what this node's copy of a part may answer

    [ResidencySet], [Settlement] and [PullTicket] of [ownership.rs], the marks of one part
    ([Residency] of [explain.rs]) and the read decisions of [verdict.rs]. Instants and
    durations are milliseconds. Each operation is one critical section of the code. *)

From S2P Require Import Prelude Clock Part Types Record Expiry Wire Read Ownership.

(** ** Definitions *)

Abbreviation PartSet := PartSet.PartSet (only parsing).

Definition remove_all (s : PartSet) (parts : list PartId) : PartSet :=
  foldl (fun s p => (PartSet.remove s p).1) s parts.

Record Settlement := {
  settled : option PartSet;
  served : PartSet;
  lost : PartSet;
  owned : option PartSet;
  pulls : gmap Z PartSet;
  next_pull : Z;
}.

Definition settlement_default : Settlement := {|
  settled := None; served := PartSet.new; lost := PartSet.new; owned := None; pulls := ∅; next_pull := 0 |}.

Definition settlement_owns (s : Settlement) (part : PartId) : bool :=
  is_none_or (owned s) (fun owned => PartSet.contains owned part).
Definition settlement_is_unsettled (s : Settlement) (part : PartId) : bool :=
  is_some_and (settled s) (fun settled => negb (PartSet.contains settled part))
  && negb (PartSet.contains (served s) part).

Record ResidencySet := {
  releasing : gmap Z Z;
  cold : PartSet;
  unverified : PartSet;
  stale : PartSet;
  settlement : Settlement;
}.

Definition residency_new : ResidencySet := {|
  releasing := ∅; cold := PartSet.new; unverified := PartSet.new; stale := PartSet.new;
  settlement := settlement_default |}.

Definition with_settlement (r : ResidencySet) (s : Settlement) : ResidencySet := {|
  releasing := releasing r; cold := cold r; unverified := unverified r; stale := stale r; settlement := s |}.
Definition with_marks (r : ResidencySet) (c u s : PartSet) : ResidencySet := {|
  releasing := releasing r; cold := c; unverified := u; stale := s; settlement := settlement r |}.
Definition with_releasing (r : ResidencySet) (m : gmap Z Z) : ResidencySet := {|
  releasing := m; cold := cold r; unverified := unverified r; stale := stale r; settlement := settlement r |}.

Definition settle (r : ResidencySet) (view : OwnershipView) : ResidencySet :=
  let s := settlement r in
  with_settlement r {|
    settled := Some (PartSet.from_iter (filter (fun p => PartSet.contains (lost s) p = false) (owned_parts view)));
    served := PartSet.clear (served s); lost := lost s; owned := owned s; pulls := pulls s; next_pull := next_pull s |}.

Definition record_published (r : ResidencySet) (old new : OwnershipView) : ResidencySet :=
  let s := settlement r in
  let dropped := filter (fun p => owns new p = false) (owned_parts old) in
  with_settlement r {|
    settled := (fun settled => remove_all settled dropped) <$> settled s;
    served := remove_all (served s) dropped;
    lost := PartSet.extend (lost s) dropped;
    owned := Some (PartSet.from_iter (owned_parts new));
    pulls := (fun held => remove_all held dropped) <$> pulls s;
    next_pull := next_pull s |}.

Definition open_pull (r : ResidencySet) : ResidencySet * Z :=
  let s := settlement r in
  let id := next_pull s in
  (with_settlement r {|
     settled := settled s; served := served s; lost := lost s; owned := owned s;
     pulls := <[id := default (PartSet.from_iter Pid.all) (owned s)]> (pulls s);
     next_pull := next_pull s + 1 |}, id).

Definition drop_pull (r : ResidencySet) (id : Z) : ResidencySet :=
  let s := settlement r in
  with_settlement r {|
    settled := settled s; served := served s; lost := lost s; owned := owned s;
    pulls := delete id (pulls s); next_pull := next_pull s |}.

Definition take_lost (r : ResidencySet) : ResidencySet * PartSet :=
  let s := settlement r in
  (with_settlement r {|
     settled := settled s; served := served s; lost := PartSet.new; owned := owned s; pulls := pulls s;
     next_pull := next_pull s |}, lost s).

Definition is_unsettled (r : ResidencySet) (part : PartId) : bool := settlement_is_unsettled (settlement r) part.

Definition mark_cold (r : ResidencySet) (parts : list PartId) : ResidencySet :=
  with_marks r (PartSet.extend (cold r) parts) (unverified r) (stale r).
Definition clear_cold (r : ResidencySet) (parts : list PartId) : ResidencySet :=
  with_marks r (remove_all (cold r) parts) (unverified r) (stale r).
Definition mark_unverified (r : ResidencySet) (parts : list PartId) : ResidencySet :=
  with_marks r (cold r) (PartSet.extend (unverified r) parts) (stale r).
Definition mark_stale (r : ResidencySet) (parts : list PartId) : ResidencySet :=
  with_marks r (cold r) (unverified r) (PartSet.extend (stale r) parts).
Definition clear_unverified (r : ResidencySet) (parts : list PartId) : ResidencySet :=
  with_marks r (cold r) (remove_all (unverified r) parts) (remove_all (stale r) parts).

Definition serve_parts (r : ResidencySet) (parts : list PartId) (more : list PartId) : ResidencySet :=
  let r := clear_unverified (clear_cold r parts) parts in
  let s := settlement r in
  with_settlement r {|
    settled := settled s; served := PartSet.extend (served s) more; lost := lost s; owned := owned s;
    pulls := pulls s; next_pull := next_pull s |}.

(** The parts a pull vouches for: owned now, and still held by its ticket. *)
Definition vouched (r : ResidencySet) (pull : option Z) (parts : list PartId) : list PartId :=
  let s := settlement r in
  let held := pull ≫= (fun id => pulls s !! id) in
  filter (fun p => settlement_owns s p && is_none_or held (fun held => PartSet.contains held p) = true) parts.

Definition mark_serving_for (r : ResidencySet) (pull : option Z) (parts : list PartId) : ResidencySet :=
  let owned := vouched r pull parts in serve_parts r owned owned.
Definition mark_serving (r : ResidencySet) (parts : list PartId) : ResidencySet := mark_serving_for r None parts.

Definition mark_all_serving (r : ResidencySet) : ResidencySet :=
  let owned := filter (fun p => settlement_owns (settlement r) p = true) Pid.all in
  serve_parts r owned
    (match settled (settlement r) with
     | Some settled => filter (fun p => PartSet.contains settled p = false) owned
     | None => []
     end).

Definition is_cold (r : ResidencySet) (part : PartId) : bool := PartSet.contains (cold r) part.
Definition is_unverified (r : ResidencySet) (part : PartId) : bool :=
  PartSet.contains (unverified r) part || PartSet.contains (stale r) part.
Definition is_replayed (r : ResidencySet) (part : PartId) : bool := PartSet.contains (unverified r) part.

Definition mark_releasing (r : ResidencySet) (now : Z) (parts : list PartId) : ResidencySet :=
  with_releasing r (foldl (fun m p => if is_some (m !! p) then m else <[p := now]> m) (releasing r) parts).
Definition unmark (r : ResidencySet) (parts : list PartId) : ResidencySet :=
  with_releasing r (foldl (fun m p => delete p m) (releasing r) parts).
Definition is_releasing (r : ResidencySet) (part : PartId) : bool := is_some (releasing r !! part).
Definition releasing_parts (r : ResidencySet) : list PartId := (map_to_list (releasing r)).*1.
Definition releasing_in_bucket (r : ResidencySet) (bucket : Z) : bool :=
  if Z.of_nat (size (releasing r)) <? PART_COUNT
  then existsb (fun p => Pid.bucket p =? bucket) (releasing_parts r)
  else existsb (fun p => is_some (releasing r !! p)) (Pid.of_bucket bucket).
Definition expired (r : ResidencySet) (now grace : Z) : list PartId :=
  (filter (fun kv => grace <= saturating_sub now kv.2) (map_to_list (releasing r))).*1.

(** *** One part's marks, [explain.rs] *)

Record Residency := {
  rd_owns : bool;
  rd_releasing_for : option Z;
  rd_cold_marked : bool;
  rd_unsettled : bool;
  rd_unverified : bool;
  rd_stale : bool;
}.

Definition rd_cold (r : Residency) : bool := rd_cold_marked r || (rd_unsettled r && rd_owns r).
Definition implicitly_cold (r : Residency) : bool := negb (rd_cold_marked r) && rd_unsettled r && rd_owns r.
Definition distrusted (r : Residency) : bool := rd_unverified r || rd_stale r.
Definition rd_resident (r : Residency) : bool := rd_owns r || is_some (rd_releasing_for r).

Definition residency_of (r : ResidencySet) (part : PartId) (owns : bool) (now : Z) : Residency := {|
  rd_owns := owns;
  rd_releasing_for := (fun since => saturating_sub now since) <$> releasing r !! part;
  rd_cold_marked := PartSet.contains (cold r) part;
  rd_unsettled := is_unsettled r part;
  rd_unverified := PartSet.contains (unverified r) part;
  rd_stale := PartSet.contains (stale r) part |}.

Inductive LocalRead := LrHit | LrMiss | LrNotOwner | LrDistrusted | LrColdMiss.
Inductive ServeVerdict := SvServe | SvStale | SvMiss | SvDeclineDistrusted | SvDeclineCold.
Definition answers (l : LocalRead) : bool := match l with LrHit | LrMiss => true | _ => false end.

Definition is_live (l : LocalRecord) : bool := match l with LLive _ _ _ => true | _ => false end.
Definition is_held (l : LocalRecord) : bool := match l with LLive _ _ _ | LTombstone _ => true | _ => false end.

Inductive Reads := ReadsValue | ReadsDeleted | ReadsExpired | ReadsUndecodable.
#[export] Instance Reads_eq_dec : EqDecision Reads.
Proof. solve_decision. Defined.
Record ProbedRecord := { pr_version : Hlc; pr_expires_at_ms : option Z; pr_reads : Reads }.
Inductive ErrorKind := KNotFound | KUnsupported | KTimedOut | KOther (kind : Z).
Inductive Unreached := UNotAMember | UProtocolTooOld | UTimedOut | UIo (kind : ErrorKind) | UCodec.
Inductive ProbeAnswer :=
  | PaHeld (rec : ProbedRecord) | PaMiss | PaStaleView (responder_view_hash : Z) | PaDeclined | PaUnreached (why : Unreached).
Definition probe_answers (a : ProbeAnswer) : bool := match a with PaHeld _ | PaMiss => true | _ => false end.
Record OwnerProbe := { op_node : NodeId; op_answer : ProbeAnswer }.
Inductive ReadSource := RsLocal (hit : bool) | RsOwner (node : NodeId) (hit : bool) | RsUnavailable.
Definition returns_value (s : ReadSource) : bool := match s with RsLocal hit | RsOwner _ hit => hit | RsUnavailable => false end.

Definition dead_record (rec : WireRecord) (now_ms : Z) : option Reads :=
  match wr_value rec with
  | None => Some ReadsDeleted
  | Some _ => if is_some_and (wr_expires_at_ms rec) (fun expires => expires <=? now_ms) then Some ReadsExpired else None
  end.

(** A fetch's reply ([FetchOutcome] of [net/types.rs]) and the [CodecError] of [error.rs] by kind. *)
Inductive FetchOutcome := FoFound (rec : option WireRecord) | FoStale (responder_view_hash : Z) | FoDeclined.
Inductive FetchError := CeIo (kind : ErrorKind) | CePostcard | CeMalformedFrame | CeFrameTooLarge.

Definition classify_probe (reply : option (FetchOutcome + FetchError)) (reads : WireRecord -> Reads) : ProbeAnswer :=
  match reply with
  | None => PaUnreached UTimedOut
  | Some (inl (FoFound (Some rec))) =>
      PaHeld {| pr_version := wr_ver rec; pr_expires_at_ms := wr_expires_at_ms rec; pr_reads := reads rec |}
  | Some (inl (FoFound None)) => PaMiss
  | Some (inl (FoStale h)) => PaStaleView h
  | Some (inl FoDeclined) => PaDeclined
  | Some (inr (CeIo kind)) =>
      PaUnreached (match kind with
                   | KNotFound => UNotAMember | KUnsupported => UProtocolTooOld | KTimedOut => UTimedOut
                   | KOther _ => UIo kind
                   end)
  | Some (inr (CePostcard | CeMalformedFrame | CeFrameTooLarge)) => PaUnreached UCodec
  end.

(** *** The decisions, [verdict.rs] *)

Definition local_verdict (r : Residency) (live : bool) : LocalRead :=
  if negb (rd_owns r) then LrNotOwner
  else if distrusted r then LrDistrusted
  else if live then LrHit
  else if rd_cold r then LrColdMiss
  else LrMiss.

Definition reads_local (r : Residency) : bool := answers (local_verdict r true).

Record ServeInputs := { si_distrusted : bool; si_served : bool; si_views_match : bool; si_cold : bool }.

Definition fetch_serve_verdict (i : ServeInputs) : ServeVerdict :=
  if si_distrusted i then SvDeclineDistrusted
  else if si_served i then SvServe
  else if negb (si_views_match i) then SvStale
  else if si_cold i then SvDeclineCold
  else SvMiss.

Definition serves_peers (r : Residency) (local : LocalRecord) : ServeVerdict :=
  fetch_serve_verdict {|
    si_distrusted := distrusted r; si_served := rd_resident r && is_held local; si_views_match := true;
    si_cold := rd_cold r |}.

Definition probe_source (p : OwnerProbe) : option ReadSource :=
  match op_answer p with
  | PaHeld rec => Some (RsOwner (op_node p) (bool_decide (pr_reads rec = ReadsValue)))
  | PaMiss => Some (RsOwner (op_node p) false)
  | PaStaleView _ | PaDeclined | PaUnreached _ => None
  end.

Definition read_source (local : LocalRead) (probes : list OwnerProbe) : ReadSource :=
  match local with
  | LrHit => RsLocal true
  | LrMiss => RsLocal false
  | LrNotOwner | LrDistrusted | LrColdMiss => default RsUnavailable (head (omap probe_source probes))
  end.

(** ** Part sets *)

Abbreviation wf := PartSet.wf.
Abbreviation mem := PartSet.member.
Definition all_u16 (parts : list PartId) : Prop := forall p, p ∈ parts -> is_u16 p.

Lemma contains_mem s p : PartSet.contains s p = true <-> mem s p.
Proof. apply PartSet.contains_member. Qed.

Lemma contains_not_mem s p : PartSet.contains s p = false <-> ~ mem s p.
Proof. rewrite <-contains_mem. by destruct (PartSet.contains s p). Qed.

Lemma extend_spec s ps : wf s -> all_u16 ps ->
  wf (PartSet.extend s ps) /\ forall q, is_u16 q -> mem (PartSet.extend s ps) q <-> q ∈ ps \/ mem s q.
Proof. apply insert_all. Qed.

Lemma remove_all_spec ps : forall s, wf s -> all_u16 ps ->
  wf (remove_all s ps) /\ forall q, is_u16 q -> mem (remove_all s ps) q <-> q ∉ ps /\ mem s q.
Proof.
  induction ps as [|p ps IH]; intros s Hwf Hps; cbn [remove_all foldl].
  { split; [done|]. intros q _. rewrite elem_of_nil. tauto. }
  pose proof (PartSet.remove_spec s p Hwf (Hps p ltac:(left))) as Hi. destruct (PartSet.remove s p) as [s1 r].
  destruct Hi as (Hwf1 & _ & Hm1). cbn [fst]. destruct (IH s1 Hwf1) as [Hwf' Hm']; [intros q Hq; apply Hps; by right|].
  split; [done|]. intros q Hq. unfold remove_all in Hm'. rewrite Hm', Hm1, elem_of_cons by done. tauto.
Qed.

Lemma new_spec : wf PartSet.new /\ forall q, ~ mem PartSet.new q.
Proof. split; [by apply PartSet.zero_words_wf|]. intros q. apply PartSet.zero_words_member. Qed.

Lemma from_iter_spec ps : all_u16 ps ->
  wf (PartSet.from_iter ps) /\ forall q, is_u16 q -> mem (PartSet.from_iter ps) q <-> q ∈ ps.
Proof.
  intros Hps. destruct new_spec as [Hw Hn]. destruct (extend_spec PartSet.new ps Hw Hps) as [H1 H2].
  split; [done|]. intros q Hq. unfold PartSet.from_iter. rewrite H2 by done. specialize (Hn q). tauto.
Qed.

Lemma clear_spec s : wf s -> wf (PartSet.clear s) /\ forall q, ~ mem (PartSet.clear s) q.
Proof.
  intros (Hl & _ & _). unfold PartSet.clear. split; [apply PartSet.zero_words_wf; done|]. intros q. apply PartSet.zero_words_member.
Qed.

Lemma all_parts p : p ∈ Pid.all <-> is_u16 p.
Proof.
  assert (Hl : forall x, Pid.from_index x = x mod 65536) by (intros x; apply (land_ones_mod x 16); lia).
  unfold Pid.all. rewrite list_elem_of_fmap. change PART_SPACE with 65536. unfold is_u16, u16_max. split.
  - intros (i & -> & Hi%elem_of_seqZ). rewrite Hl. dlia.
  - intros Hp. exists p. split; [rewrite Hl; dlia|apply elem_of_seqZ; lia].
Qed.

(** A view whose owned parts are a set, as every computed view's are. *)
Definition view_wf (v : OwnershipView) : Prop := wf (ov_owned v).

Lemma owned_parts_spec v p : view_wf v -> p ∈ owned_parts v <-> is_u16 p /\ owns v p = true.
Proof.
  intros Hv. unfold owned_parts, owns. rewrite contains_mem. split.
  - intros Hp. assert (is_u16 p) by (by eapply PartSet.iter_u16). split; [done|]. by apply PartSet.member_in_space.
  - intros [Hp Hm]. by apply PartSet.member_in_space.
Qed.

Lemma dropped_spec old new p : view_wf old ->
  p ∈ filter (fun p => owns new p = false) (owned_parts old) <-> is_u16 p /\ owns old p = true /\ owns new p = false.
Proof. intros Hv. rewrite list_elem_of_filter, owned_parts_spec by done. tauto. Qed.

(** ** Events *)

Inductive Event :=
  | EvPublish (new : OwnershipView)
  | EvSettle (view : OwnershipView)
  | EvOpen
  | EvDrop (id : Z)
  | EvServe (pull : option Z) (parts : list PartId)
  | EvServeAll
  | EvTakeLost
  | EvCold (parts : list PartId)
  | EvUnverified (parts : list PartId)
  | EvStale (parts : list PartId)
  | EvReleasing (now : Z) (parts : list PartId)
  | EvUnmark (parts : list PartId).

(** The tracker's current view and the residency it is kept with. *)
Record World := { w_view : OwnershipView; w_res : ResidencySet }.

Definition ev_step (w : World) (ev : Event) : World :=
  let r := w_res w in
  let keep r := {| w_view := w_view w; w_res := r |} in
  match ev with
  | EvPublish new => {| w_view := new; w_res := record_published r (w_view w) new |}
  | EvSettle v => keep (settle r v)
  | EvOpen => keep (open_pull r).1
  | EvDrop id => keep (drop_pull r id)
  | EvServe pull parts => keep (mark_serving_for r pull parts)
  | EvServeAll => keep (mark_all_serving r)
  | EvTakeLost => keep (take_lost r).1
  | EvCold parts => keep (mark_cold r parts)
  | EvUnverified parts => keep (mark_unverified r parts)
  | EvStale parts => keep (mark_stale r parts)
  | EvReleasing now parts => keep (mark_releasing r now parts)
  | EvUnmark parts => keep (unmark r parts)
  end.

Definition ev_run (w : World) (tr : list Event) : World := foldl ev_step w tr.

Definition published (tr : list Event) : list OwnershipView :=
  omap (fun ev => match ev with EvPublish v => Some v | _ => None end) tr.

(** Parts named on the wire and in views are part ids. *)
Definition ev_parts (ev : Event) : Prop :=
  match ev with
  | EvPublish v | EvSettle v => view_wf v
  | EvServe _ ps | EvCold ps | EvUnverified ps | EvStale ps | EvReleasing _ ps | EvUnmark ps => all_u16 ps
  | _ => True
  end.

Record sets_wf (w : World) : Prop := {
  sw_view : view_wf (w_view w);
  sw_cold : wf (cold (w_res w));
  sw_unverified : wf (unverified (w_res w));
  sw_stale : wf (stale (w_res w));
  sw_settled s : settled (settlement (w_res w)) = Some s -> wf s;
  sw_served : wf (served (settlement (w_res w)));
  sw_lost : wf (lost (settlement (w_res w)));
  sw_owned s : owned (settlement (w_res w)) = Some s -> wf s;
  sw_pulls id s : pulls (settlement (w_res w)) !! id = Some s -> wf s;
}.

(** *** What each event does to the sets *)

Ltac sets Hw := first
  [ exact (sw_view _ Hw) | exact (sw_cold _ Hw) | exact (sw_unverified _ Hw) | exact (sw_stale _ Hw)
  | exact (sw_settled _ Hw) | exact (sw_served _ Hw) | exact (sw_lost _ Hw) | exact (sw_owned _ Hw)
  | exact (sw_pulls _ Hw) ].

Section Effects.
Context (w : World) (Hw : sets_wf w).
Abbreviation r := (w_res w).
Abbreviation st := (settlement (w_res w)).

Lemma u16_filter (P : PartId -> Prop) `{!forall p, Decision (P p)} ps : all_u16 ps -> all_u16 (filter P ps).
Proof. intros Hall p [_ Hp]%list_elem_of_filter. auto. Qed.

Lemma owned_u16 v : view_wf v -> all_u16 (owned_parts v).
Proof. intros Hv p [? _]%(owned_parts_spec v p Hv). done. Qed.

Lemma record_published_spec new : view_wf new -> let r' := record_published r (w_view w) new in
  let dropped q := owns (w_view w) q = true /\ owns new q = false in
  sets_wf {| w_view := new; w_res := r' |} /\
  (forall s', settled (settlement r') = Some s' ->
     exists s, settled st = Some s /\ forall q, is_u16 q -> mem s' q <-> mem s q /\ ~ dropped q) /\
  (forall q, is_u16 q -> mem (served (settlement r')) q <-> mem (served st) q /\ ~ dropped q) /\
  (forall q, is_u16 q -> settlement_owns (settlement r') q = owns new q) /\
  (forall id held, pulls st !! id = Some held -> exists held', pulls (settlement r') !! id = Some held' /\
     forall q, is_u16 q -> mem held' q <-> mem held q /\ ~ dropped q).
Proof.
  intros Hnew. cbv zeta. set (ds := filter (fun p => owns new p = false) (owned_parts (w_view w))).
  assert (Hds : all_u16 ds) by (apply u16_filter, owned_u16, Hw).
  assert (Hd : forall q, is_u16 q -> q ∈ ds <-> owns (w_view w) q = true /\ owns new q = false).
  { intros q Hq. unfold ds. rewrite dropped_spec by apply Hw. tauto. }
  assert (Hrem : forall s, wf s -> wf (remove_all s ds) /\ forall q, is_u16 q ->
    mem (remove_all s ds) q <-> mem s q /\ ~ (owns (w_view w) q = true /\ owns new q = false)).
  { intros s Hs. destruct (remove_all_spec ds s Hs Hds) as [H1 H2]. split; [done|]. intros q Hq.
    rewrite H2, Hd by done. tauto. }
  destruct (from_iter_spec (owned_parts new) (owned_u16 new Hnew)) as [Hfw Hfm].
  destruct (extend_spec (lost st) ds (sw_lost _ Hw) Hds) as [Hlw _].
  cbn [record_published w_view w_res settlement with_settlement settled served lost owned pulls]. fold ds. split_and!.
  - split; cbn; fold ds; [done|sets Hw|sets Hw|sets Hw| | |done| |].
    + intros s' Hs'. apply fmap_Some in Hs' as (s & Hs & ->). eapply Hrem, (sw_settled _ Hw); done.
    + apply Hrem, (sw_served _ Hw).
    + by intros s' [= <-].
    + intros id s' Hs'. rewrite lookup_fmap in Hs'. apply fmap_Some in Hs' as (s & Hs & ->). eapply Hrem, (sw_pulls _ Hw); done.
  - intros s' Hs'. apply fmap_Some in Hs' as (s & Hs & ->). exists s. split; [done|]. by apply Hrem, (sw_settled _ Hw).
  - apply Hrem, (sw_served _ Hw).
  - intros q Hq. unfold settlement_owns. cbn [owned is_none_or]. apply eq_true_iff_eq.
    rewrite contains_mem, Hfm, owned_parts_spec by done. tauto.
  - intros id held Hid. exists (remove_all held ds). split; [by rewrite lookup_fmap, Hid|]. eapply Hrem, (sw_pulls _ Hw); done.
Qed.

Lemma serve_parts_spec ps more : all_u16 ps -> all_u16 more -> let r' := serve_parts r ps more in
  sets_wf {| w_view := w_view w; w_res := r' |} /\
  (forall q, is_u16 q -> mem (cold r') q <-> q ∉ ps /\ mem (cold r) q) /\
  (forall q, is_u16 q -> mem (served (settlement r')) q <-> q ∈ more \/ mem (served st) q) /\
  settled (settlement r') = settled st /\ owned (settlement r') = owned st /\
  (forall q, is_u16 q -> mem (unverified r') q \/ mem (stale r') q <-> q ∉ ps /\ (mem (unverified r) q \/ mem (stale r) q)).
Proof.
  intros Hps Hmore. cbv zeta. unfold serve_parts.
  cbn [clear_unverified clear_cold with_marks with_settlement settlement cold unverified stale settled served lost owned pulls].
  destruct (remove_all_spec ps (cold r) (sw_cold _ Hw) Hps) as [Hc1 Hc2].
  destruct (remove_all_spec ps (unverified r) (sw_unverified _ Hw) Hps) as [Hu1 Hu2].
  destruct (remove_all_spec ps (stale r) (sw_stale _ Hw) Hps) as [Hs1 Hs2].
  destruct (extend_spec (served st) more (sw_served _ Hw) Hmore) as [He1 He2].
  split_and!; try done; [split; cbn; try sets Hw; done|]. intros q Hq. rewrite Hu2, Hs2 by done. tauto.
Qed.

Lemma settle_spec v : view_wf v -> let r' := settle r v in
  sets_wf {| w_view := w_view w; w_res := r' |} /\
  (exists s, settled (settlement r') = Some s /\
     forall q, is_u16 q -> mem s q <-> owns v q = true /\ ~ mem (lost st) q) /\
  (forall q, ~ mem (served (settlement r')) q).
Proof.
  intros Hv. cbv zeta. set (ps := filter (fun p => PartSet.contains (lost st) p = false) (owned_parts v)).
  assert (Hps : all_u16 ps) by (apply u16_filter, owned_u16, Hv).
  destruct (from_iter_spec ps Hps) as [H1 H2]. destruct (clear_spec (served st) (sw_served _ Hw)) as [H3 H4].
  cbn [settle with_settlement settlement settled served lost owned pulls]. fold ps. split_and!.
  - split; cbn; try sets Hw; try done. by intros s [= <-].
  - eexists. split; [done|]. intros q Hq. rewrite H2 by done. unfold ps.
    rewrite list_elem_of_filter, owned_parts_spec, contains_not_mem by done. tauto.
  - apply H4.
Qed.

Lemma vouched_spec pull ps q : q ∈ vouched r pull ps <->
  q ∈ ps /\ settlement_owns st q = true /\
  forall held, pull ≫= (fun id => pulls st !! id) = Some held -> mem held q.
Proof.
  unfold vouched. rewrite list_elem_of_filter, andb_true_iff. split.
  - intros [[Ho Hh] Hq]. split_and!; [done|done|]. intros held Heq. rewrite Heq in Hh. by apply contains_mem.
  - intros (Hq & Ho & Hh). split_and!; [done| |done]. destruct (pull ≫= _) as [held|]; [|done]. cbn. apply contains_mem. auto.
Qed.

End Effects.

Lemma marks_wf w c u s : sets_wf w -> wf c -> wf u -> wf s ->
  sets_wf {| w_view := w_view w; w_res := with_marks (w_res w) c u s |}.
Proof. intros Hw Hc Hu Hs. split; cbn; try sets Hw; done. Qed.

Lemma ev_step_wf w ev : sets_wf w -> ev_parts ev -> sets_wf (ev_step w ev).
Proof.
  intros Hw Hev. destruct ev as [v|v| |id|pull ps| | |ps|ps|ps|t ps|ps]; cbn [ev_step ev_parts] in *.
  - by apply record_published_spec.
  - by apply settle_spec.
  - split; cbn; try sets Hw. intros id s. rewrite lookup_insert_Some. intros [[_ <-]|[_ Hs]]; [|by eapply (sw_pulls _ Hw)].
    destruct (owned (settlement (w_res w))) as [o|] eqn:Eo; cbn; [by apply (sw_owned _ Hw)|].
    apply from_iter_spec. intros p. apply all_parts.
  - split; cbn; try sets Hw. intros id' s Hs. apply lookup_delete_Some in Hs as [_ Hs]. by eapply (sw_pulls _ Hw).
  - apply serve_parts_spec; [done|..]; by apply u16_filter.
  - apply serve_parts_spec; [done|apply u16_filter; intros p; apply all_parts|].
    destruct (settled _); [|by intros q Hq%elem_of_nil]. do 2 apply u16_filter. intros q. apply all_parts.
  - split; cbn; try sets Hw. apply new_spec.
  - apply marks_wf; try sets Hw; [done|]. by apply extend_spec; [sets Hw|].
  - apply marks_wf; try sets Hw; [done|]. by apply extend_spec; [sets Hw|].
  - apply marks_wf; try sets Hw; [done|]. by apply extend_spec; [sets Hw|].
  - split; cbn; sets Hw.
  - split; cbn; sets Hw.
Qed.

Lemma ev_run_wf tr : forall w, sets_wf w -> Forall ev_parts tr -> sets_wf (ev_run w tr).
Proof.
  induction tr as [|ev tr IH]; intros w Hw Htr; [done|]. apply Forall_cons in Htr as [Hev Htr]. cbn.
  apply IH; [by apply ev_step_wf|done].
Qed.

(** ** Histories *)

Definition seeded (seed : OwnershipView) (tr : list Event) : World :=
  ev_run {| w_view := seed; w_res := residency_new |} tr.

Lemma seeded_snoc seed tr ev : seeded seed (tr ++ [ev]) = ev_step (seeded seed tr) ev.
Proof. unfold seeded, ev_run. by rewrite foldl_app. Qed.

Lemma published_app tr tr' : published (tr ++ tr') = published tr ++ published tr'.
Proof. apply omap_app. Qed.

Lemma initial_wf seed : view_wf seed -> sets_wf {| w_view := seed; w_res := residency_new |}.
Proof. intros Hs. destruct new_spec as [Hn _]. by split. Qed.

(** Until a view is published no part is known unowned; from then on the residency knows
    exactly the parts of the current view. *)
Lemma owned_current seed tr : view_wf seed -> Forall ev_parts tr ->
  if decide (published tr = []) then owned (settlement (w_res (seeded seed tr))) = None /\ w_view (seeded seed tr) = seed
  else forall q, is_u16 q -> settlement_owns (settlement (w_res (seeded seed tr))) q = owns (w_view (seeded seed tr)) q.
Proof.
  intros Hs. induction tr as [|ev tr IH] using rev_ind; intros Hall; [done|].
  apply Forall_app in Hall as [Hall [Hev _]%Forall_cons]. specialize (IH Hall). rewrite seeded_snoc, published_app.
  assert (Hw : sets_wf (seeded seed tr)) by (apply ev_run_wf; [by apply initial_wf|done]).
  destruct ev as [v|v| |id|pull ps| | |ps|ps|ps|t ps|ps]; cbn [published omap list_omap]; rewrite ?app_nil_r; try exact IH.
  rewrite decide_False by (by destruct (published tr)). intros q Hq. by apply (record_published_spec _ Hw v Hev).
Qed.

(** *** Pull tickets *)

Section Pulls.
Context (seed : OwnershipView) (tr0 : list Event) (Hseed : view_wf seed) (Htr0 : Forall ev_parts tr0)
  (Hpub : published tr0 <> []).
Abbreviation w0 := (seeded seed tr0).
Abbreviation id := (open_pull (w_res w0)).2.

Record holds (tr : list Event) (w : World) : Prop := {
  ho_wf : sets_wf w;
  ho_next : id < next_pull (settlement (w_res w));
  ho_owned q : is_u16 q -> settlement_owns (settlement (w_res w)) q = owns (w_view w) q;
  ho_held : exists held, pulls (settlement (w_res w)) !! id = Some held /\ forall q, is_u16 q ->
    mem held q <-> owns (w_view w0) q = true /\ Forall (fun v => owns v q = true) (published tr);
  ho_last q : is_u16 q -> owns (w_view w0) q = true -> Forall (fun v => owns v q = true) (published tr) ->
    owns (w_view w) q = true;
}.

Lemma holds_open : holds [] (ev_step w0 EvOpen).
Proof.
  assert (Hw : sets_wf w0) by (apply ev_run_wf; [by apply initial_wf|done]).
  pose proof (owned_current seed tr0 Hseed Htr0) as Ho. rewrite decide_False in Ho by done.
  split; cbn [ev_step open_pull w_view w_res fst snd with_settlement settlement pulls next_pull owned published omap list_omap].
  - by apply (ev_step_wf w0 EvOpen).
  - lia.
  - exact Ho.
  - eexists. split; [apply lookup_insert_eq|]. intros q Hq. rewrite <-Ho by done. unfold settlement_owns.
    destruct (owned (settlement (w_res w0))) as [o|] eqn:Eo; cbn [default is_none_or]; rewrite Forall_nil.
    + rewrite contains_mem. tauto.
    + destruct (from_iter_spec Pid.all) as [_ Hm]; [intros p; apply all_parts|]. rewrite Hm, all_parts by done. tauto.
  - done.
Qed.

Lemma holds_step tr w ev : holds tr w -> ev_parts ev -> ev <> EvDrop id -> holds (tr ++ [ev]) (ev_step w ev).
Proof.
  intros [Hw Hn Ho (held & Hheld & Hm) Hl] Hev Hne. pose proof (ev_step_wf w ev Hw Hev) as Hw'.
  destruct ev as [v|v| |id'|pull ps| | |ps|ps|ps|t ps|ps]; rewrite ?published_app; cbn [ev_step ev_parts] in *;
    try (split; rewrite ?published_app, ?app_nil_r; [exact Hw'|exact Hn|exact Ho|by exists held|exact Hl]).
  - destruct (record_published_spec w Hw v Hev) as (_ & _ & _ & Ho' & Hp).
    destruct (Hp _ _ Hheld) as (held' & Hheld' & Hm').
    split; rewrite ?published_app; change (published [EvPublish v]) with [v]; [exact Hw'|exact Hn|exact Ho'| |].
    + exists held'. split; [exact Hheld'|]. intros q Hq. rewrite Hm', Hm, Forall_app, Forall_singleton by done. split.
      * intros [[H1 H2] H3]. split_and!; [done..|]. pose proof (Hl q Hq H1 H2). destruct (owns v q); [done|tauto].
      * intros (H1 & H2 & H3). split; [done|]. intros [_ H4]. rewrite H3 in H4. done.
    + intros q Hq _ H3. apply Forall_app in H3 as [_ H3]. rewrite Forall_singleton in H3. exact H3.
  - split; rewrite ?published_app, ?app_nil_r; [exact Hw'|cbn in Hn |- *; lia|exact Ho| |exact Hl].
    exists held. split; [|done]. cbn in Hn |- *. rewrite lookup_insert_ne by lia. exact Hheld.
  - split; rewrite ?published_app, ?app_nil_r; [exact Hw'|exact Hn|exact Ho| |exact Hl].
    exists held. split; [|done]. cbn. rewrite lookup_delete_ne by (intros ->; by destruct Hne). exact Hheld.
Qed.

Lemma holds_run tr : Forall ev_parts tr -> EvDrop id ∉ tr -> holds tr (ev_run (ev_step w0 EvOpen) tr).
Proof.
  induction tr as [|ev tr IH] using rev_ind; intros Hall Hno; [apply holds_open|].
  apply Forall_app in Hall as [Hall [Hev _]%Forall_cons]. apply not_elem_of_app in Hno as [Hno Hne].
  unfold ev_run. rewrite foldl_app. apply holds_step; [by apply IH|done|].
  intros ->. apply Hne, list_elem_of_singleton. done.
Qed.

End Pulls.

(** A pull's ticket vouches for exactly the parts owned all the while it ran: whatever
    happens between opening the ticket and its marking (other pulls, other marks, views
    published in any order, views settled), a finished part is marked serving iff the view at
    the opening and every view published since own it. *)
Theorem pull_vouches_for_held_parts (seed : OwnershipView) (tr0 tr : list Event) (ps : list PartId) (p : PartId)
  (Hseed : view_wf seed) (Htr0 : Forall ev_parts tr0) (Htr : Forall ev_parts tr) (Hpub : published tr0 <> [])
  (Hopen : EvDrop (open_pull (w_res (seeded seed tr0))).2 ∉ tr) (Hp : is_u16 p) :
  p ∈ vouched (w_res (seeded seed (tr0 ++ EvOpen :: tr))) (Some (open_pull (w_res (seeded seed tr0))).2) ps <->
  p ∈ ps /\ owns (w_view (seeded seed tr0)) p = true /\ Forall (fun v => owns v p = true) (published tr).
Proof.
  destruct (holds_run seed tr0 Hseed Htr0 Hpub tr Htr Hopen) as [_ _ Ho (held & Hheld & Hm) Hl].
  replace (seeded seed (tr0 ++ EvOpen :: tr)) with (ev_run (ev_step (seeded seed tr0) EvOpen) tr)
    by (unfold seeded, ev_run; by rewrite foldl_app).
  rewrite vouched_spec, Ho by done. cbn [mbind option_bind]. rewrite Hheld. split.
  - intros (H1 & _ & H3). specialize (H3 held eq_refl). rewrite Hm in H3 by done. tauto.
  - intros (H1 & H2 & H3). split_and!; [done|by apply Hl|]. intros h [= <-]. by apply Hm.
Qed.

(** *** What a definitive miss rests on *)

(** A part whose local miss the marks let through. *)
Definition trusted (r : ResidencySet) (q : PartId) : Prop :=
  exists s, settled (settlement r) = Some s /\ (mem s q \/ mem (served (settlement r)) q) /\ ~ mem (cold r) q.

(** [v], current after some prefix, may be settled once every part it owns is lost, cold,
    already trusted, or owned by every view published since. *)
Definition settle_ok (seed : OwnershipView) (tr : list Event) (v : OwnershipView) : Prop :=
  exists tr1 tr2, tr = tr1 ++ tr2 /\ w_view (seeded seed tr1) = v /\
  forall q, is_u16 q -> owns v q = true ->
    mem (lost (settlement (w_res (seeded seed tr)))) q \/ mem (cold (w_res (seeded seed tr))) q \/
    trusted (w_res (seeded seed tr)) q \/ Forall (fun v' => owns v' q = true) (published tr2).

(** The calls a history may make next. Views are settled under [settle_ok]. Before the first view
    is published, only parts the seed view owns are marked serving; [mark_all_serving] at that
    point, which the code allows, hides the parts a later view gains, and is left out. *)
Definition ev_ok (seed : OwnershipView) (tr : list Event) (ev : Event) : Prop :=
  match ev with
  | EvSettle v => settle_ok seed tr v
  | EvServe _ ps => published tr <> [] \/ forall q, q ∈ ps -> owns seed q = true
  | EvServeAll => published tr <> []
  | _ => True
  end.

(** The histories of one cache's residency. *)
Inductive History (seed : OwnershipView) : list Event -> Prop :=
  | History_open : History seed []
  | History_step tr ev : History seed tr -> ev_parts ev -> ev_ok seed tr ev -> History seed (tr ++ [ev]).

Definition serves (ev : Event) (q : PartId) : Prop :=
  match ev with EvServe _ ps => q ∈ ps | EvServeAll => True | _ => False end.

(** [q] was owned after some prefix and by every view published since, and in that stretch
    either that prefix's view was settled or the stretch began with a serving mark for [q]. *)
Definition backed (seed : OwnershipView) (tr : list Event) (q : PartId) : Prop :=
  exists tr1 tr2, tr = tr1 ++ tr2 /\ owns (w_view (seeded seed tr1)) q = true /\
  Forall (fun v => owns v q = true) (published tr2) /\
  (EvSettle (w_view (seeded seed tr1)) ∈ tr2 \/ exists ev rest, tr2 = ev :: rest /\ serves ev q).

Lemma history_parts seed tr : History seed tr -> Forall ev_parts tr.
Proof. induction 1; [done|]. apply Forall_app. by rewrite Forall_singleton. Qed.

Lemma last_view seed tr1 tr2 q : owns (w_view (seeded seed tr1)) q = true ->
  Forall (fun v => owns v q = true) (published tr2) -> owns (w_view (seeded seed (tr1 ++ tr2))) q = true.
Proof.
  intros H1. induction tr2 as [|ev tr2 IH] using rev_ind; [by rewrite app_nil_r|].
  rewrite published_app, Forall_app, app_assoc, seeded_snoc. intros [H2 H3]. specialize (IH H2).
  destruct ev; try exact IH. change (published [EvPublish new]) with [new] in H3. by rewrite Forall_singleton in H3.
Qed.

Lemma backed_snoc seed tr ev q : backed seed tr q ->
  (forall v, ev = EvPublish v -> owns (w_view (seeded seed tr)) q = true -> owns v q = true) -> backed seed (tr ++ [ev]) q.
Proof.
  intros (tr1 & tr2 & -> & H1 & H2 & H3) Hv. exists tr1, (tr2 ++ [ev]). split_and!.
  - by rewrite app_assoc.
  - done.
  - rewrite published_app. apply Forall_app. split; [done|]. destruct ev; try apply Forall_nil_2.
    apply Forall_singleton, (Hv _ eq_refl). by apply last_view.
  - destruct H3 as [H3|(ev' & rest & -> & H3)]; [left; set_solver|]. right. by exists ev', (rest ++ [ev]).
Qed.

Lemma backed_now seed tr ev q : owns (w_view (seeded seed tr)) q = true -> serves ev q -> backed seed (tr ++ [ev]) q.
Proof.
  intros Ho Hs. exists tr, [ev]. split_and!; [done|done|by destruct ev; try apply Forall_nil_2|]. right. by exists ev, [].
Qed.

Section Trust.
Context (seed : OwnershipView) (Hseed : view_wf seed) (tr : list Event) (Htr : Forall ev_parts tr)
  (IH : forall q, is_u16 q -> trusted (w_res (seeded seed tr)) q -> backed seed tr q).
Abbreviation w := (seeded seed tr).

Lemma seeded_wf : sets_wf w.
Proof. apply ev_run_wf; [by apply initial_wf|done]. Qed.

Lemma serve_backed ev ps more q : is_u16 q -> all_u16 ps -> all_u16 more ->
  (forall p, p ∈ ps \/ p ∈ more -> owns (w_view w) p = true /\ serves ev p) ->
  (forall v, ev <> EvPublish v) -> trusted (serve_parts (w_res w) ps more) q -> backed seed (tr ++ [ev]) q.
Proof.
  intros Hq Hps Hmore Hev Hne (s & Hs & Hin & Hc).
  destruct (serve_parts_spec w seeded_wf ps more Hps Hmore) as (_ & Hcold & Hserved & Hset & _).
  rewrite Hset in Hs. rewrite Hserved in Hin by done. rewrite Hcold in Hc by done.
  destruct (decide (q ∈ ps)) as [Hqp|Hqp]; [by apply backed_now; apply Hev; left|].
  destruct (decide (q ∈ more)) as [Hqm|Hqm]; [by apply backed_now; apply Hev; right|].
  apply backed_snoc; [|intros v ->; by destruct (Hne v)]. apply IH; [done|]. exists s. tauto.
Qed.

Lemma publish_backed v q : is_u16 q -> view_wf v ->
  trusted (record_published (w_res w) (w_view w) v) q -> backed seed (tr ++ [EvPublish v]) q.
Proof.
  intros Hq Hv (s' & Hs' & Hin & Hc).
  destruct (record_published_spec w seeded_wf v Hv) as (_ & Hset & Hserved & _).
  destruct (Hset s' Hs') as (s & Hs & Hm). rewrite Hm, Hserved in Hin by done.
  apply backed_snoc; [apply IH; [done|]; exists s; tauto|].
  intros v' [= <-] Ho. destruct (owns v q); [done|]. tauto.
Qed.

Lemma settle_backed v q : is_u16 q -> view_wf v -> settle_ok seed tr v ->
  trusted (settle (w_res w) v) q -> backed seed (tr ++ [EvSettle v]) q.
Proof.
  intros Hq Hv (tr1 & tr2 & Htr12 & Hcur & Hok) (s & Hs & Hin & Hc).
  destruct (settle_spec w seeded_wf v Hv) as (_ & (s0 & Hs0 & Hm) & Hserved). rewrite Hs0 in Hs. simplify_eq Hs. intros <-.
  destruct Hin as [Hin|Hin]; [|by destruct (Hserved q)]. rewrite Hm in Hin by done. destruct Hin as [Ho Hl].
  destruct (Hok q Hq Ho) as [?|[?|[Ht|Hall]]]; [done|done| |].
  { apply backed_snoc; [by apply IH|done]. }
  exists tr1, (tr2 ++ [EvSettle v]). rewrite Hcur. split_and!; [by rewrite Htr12, app_assoc|done| |].
  - rewrite published_app. apply Forall_app. by split; [|apply Forall_nil_2].
  - left. apply elem_of_app. right. by apply list_elem_of_singleton.
Qed.

Lemma served_owned q : published tr <> [] \/ owns seed q = true -> is_u16 q ->
  settlement_owns (settlement (w_res w)) q = true -> owns (w_view w) q = true.
Proof.
  intros Hor Hq Ho. pose proof (owned_current seed tr Hseed Htr) as Hcur. destruct (decide (published tr = [])) as [He|He].
  - destruct Hcur as [_ ->]. by destruct Hor.
  - by rewrite <-Hcur.
Qed.

Lemma mark_backed ev q : is_u16 q -> (forall v, ev <> EvPublish v) ->
  settled (settlement (w_res (ev_step w ev))) = settled (settlement (w_res w)) ->
  served (settlement (w_res (ev_step w ev))) = served (settlement (w_res w)) ->
  (mem (cold (w_res w)) q -> mem (cold (w_res (ev_step w ev))) q) ->
  trusted (w_res (ev_step w ev)) q -> backed seed (tr ++ [ev]) q.
Proof.
  intros Hq Hne Hset Hserved Hcold (s & Hs & Hin & Hc). rewrite Hset in Hs. rewrite Hserved in Hin.
  apply backed_snoc; [|intros v ->; by destruct (Hne v)]. apply IH; [done|]. exists s. tauto.
Qed.

End Trust.

Lemma trust_is_backed seed tr q : view_wf seed -> History seed tr -> is_u16 q ->
  trusted (w_res (seeded seed tr)) q -> backed seed tr q.
Proof.
  intros Hseed Hh. revert q. induction Hh as [|tr ev Hh IH Hev Hok]; intros q Hq; [by intros (s & Hs & _)|].
  pose proof (history_parts _ _ Hh) as Htr. rewrite seeded_snoc. pose proof (seeded_wf seed Hseed tr Htr) as Hw.
  destruct ev as [v|v| |id|pull ps| | |ps|ps|ps|t ps|ps]; cbn [ev_parts ev_ok] in Hev, Hok;
    try (apply mark_backed; [done|done|done|done|done|first [done|intros Hc; apply extend_spec; [sets Hw|done|done|by right]]]).
  - by apply publish_backed.
  - by apply settle_backed.
  - apply serve_backed; [done..|by apply u16_filter|by apply u16_filter| |done].
    intros p Hp. assert (Hv : p ∈ vouched (w_res (seeded seed tr)) pull ps) by tauto.
    apply vouched_spec in Hv as (H1 & H2 & _). split; [|done]. apply (served_owned seed Hseed tr Htr p); [destruct Hok as [?|Hs]; [by left|right; by apply Hs]|by apply Hev|done].
  - set (all := filter (fun p => settlement_owns (settlement (w_res (seeded seed tr))) p = true) Pid.all).
    assert (Hall : all_u16 all) by (apply u16_filter; intros p; apply all_parts).
    apply serve_backed; [done..| | |done].
    + destruct (settled _); [by apply u16_filter|by intros p Hp%elem_of_nil].
    + intros p Hp. assert (Hin : p ∈ all).
      { destruct Hp as [Hp|Hp]; [done|]. destruct (settled _); [by apply list_elem_of_filter in Hp as [_ Hp]|by apply elem_of_nil in Hp]. }
      split; [|done]. apply (served_owned seed Hseed tr Htr p); [by left|by apply Hall|].
      by apply list_elem_of_filter in Hin as [? _].
Qed.

Lemma miss_is_trusted r p owned now : settled (settlement r) <> None ->
  local_verdict (residency_of r p owned now) false = LrMiss -> owned = true /\ trusted r p.
Proof.
  intros Hset. destruct (settled (settlement r)) as [s|] eqn:Es; [|done].
  unfold local_verdict, residency_of, rd_cold, is_unsettled, settlement_is_unsettled.
  cbn [rd_owns rd_cold_marked rd_unsettled]. rewrite Es. cbn [is_some_and].
  destruct owned; cbn [negb]; [|done]. destruct (distrusted _); [done|]. rewrite andb_true_r. intros Hv. split; [done|].
  exists s. rewrite <-!contains_mem.
  destruct (PartSet.contains (cold r) p), (PartSet.contains s p), (PartSet.contains (served (settlement r)) p); naive_solver.
Qed.

(** A miss answered from the local copy is never answered over a gap in ownership. In every
    history of a cache that settled a view, a part the node answers a definitive miss for was
    owned, by the current view of some moment and by every view published since, for a stretch
    in which a rebalance settled that moment's view or which began with a pull or a
    verification marking the part serving. *)
Theorem misses_need_unbroken_ownership (seed : OwnershipView) (tr : list Event) (p : PartId) (now : Z)
  (Hseed : view_wf seed) (Hh : History seed tr) (Hp : is_u16 p)
  (Hset : settled (settlement (w_res (seeded seed tr))) <> None) :
  let w := seeded seed tr in
  local_verdict (residency_of (w_res w) p (owns (w_view w) p) now) false = LrMiss -> backed seed tr p.
Proof.
  cbv zeta. intros Hv. apply trust_is_backed; [done..|]. by apply miss_is_trusted in Hv as [_ Hv].
Qed.

(** Settling the view [rebalance_task] borrowed is always in order when no loss was taken since
    it was borrowed: every later drop is still among the lost parts. *)
Lemma lost_since seed tr1 tr2 q : view_wf seed -> Forall ev_parts (tr1 ++ tr2) -> EvTakeLost ∉ tr2 -> is_u16 q ->
  owns (w_view (seeded seed tr1)) q = true ->
  mem (lost (settlement (w_res (seeded seed (tr1 ++ tr2))))) q \/ Forall (fun v => owns v q = true) (published tr2).
Proof.
  intros Hseed. induction tr2 as [|ev tr2 IH] using rev_ind; intros Hall Hno Hq Ho; [right; by apply Forall_nil_2|].
  rewrite app_assoc in Hall |- *. apply Forall_app in Hall as [Hall [Hev _]%Forall_cons].
  apply not_elem_of_app in Hno as [Hno Hne]. specialize (IH Hall Hno Hq Ho). rewrite seeded_snoc, published_app.
  pose proof (seeded_wf seed Hseed _ Hall) as Hw.
  destruct ev as [v|v| |id|pull ps| | |ps|ps|ps|t ps|ps]; cbn [published omap list_omap] in *; rewrite ?app_nil_r; try exact IH;
    [|by destruct Hne; apply list_elem_of_singleton].
  set (ds := filter (fun p => owns v p = false) (owned_parts (w_view (seeded seed (tr1 ++ tr2))))).
  destruct (extend_spec (lost (settlement (w_res (seeded seed (tr1 ++ tr2))))) ds) as [_ Hl];
    [sets Hw|apply u16_filter, owned_u16; sets Hw|].
  change (lost _) with (PartSet.extend (lost (settlement (w_res (seeded seed (tr1 ++ tr2))))) ds). rewrite Hl by done.
  destruct IH as [IH|IH]; [tauto|]. destruct (owns v q) eqn:Ev.
  - right. apply Forall_app. by rewrite Forall_singleton.
  - left. left. unfold ds. rewrite dropped_spec by sets Hw. split_and!; [done| |done]. by apply last_view.
Qed.

Lemma settle_borrowed seed tr1 tr2 : view_wf seed -> Forall ev_parts (tr1 ++ tr2) -> EvTakeLost ∉ tr2 ->
  settle_ok seed (tr1 ++ tr2) (w_view (seeded seed tr1)).
Proof.
  intros Hseed Hall Hno. exists tr1, tr2. split_and!; [done..|]. intros q Hq Ho.
  destruct (lost_since seed tr1 tr2 q) as [?|?]; tauto.
Qed.

Lemma unserved_verdict r p now : ~ (mem (unverified r) p \/ mem (stale r) p) -> ~ mem (cold r) p ->
  (exists s, settled (settlement r) = Some s /\ ~ mem s p) ->
  local_verdict (residency_of r p true now) false =
    if PartSet.contains (served (settlement r)) p then LrMiss else LrColdMiss.
Proof.
  rewrite <-!contains_mem. intros Hd Hc (s & Hs & Hm%contains_not_mem).
  unfold local_verdict, residency_of, rd_cold, distrusted, is_unsettled, settlement_is_unsettled.
  cbn [rd_owns rd_cold_marked rd_unsettled rd_unverified rd_stale negb]. rewrite Hs. cbn [is_some_and]. rewrite Hm.
  destruct (PartSet.contains (cold r) p), (PartSet.contains (unverified r) p), (PartSet.contains (stale r) p); try tauto.
  by destruct (PartSet.contains (served _) p).
Qed.

Lemma gained_verdict w v p now : sets_wf w -> view_wf v -> is_u16 p -> owns v p = true ->
  ~ (mem (unverified (w_res w)) p \/ mem (stale (w_res w)) p) -> ~ mem (cold (w_res w)) p ->
  (exists s, settled (settlement (w_res w)) = Some s /\ ~ mem s p) ->
  let w' := ev_step w (EvPublish v) in
  local_verdict (residency_of (w_res w') p (owns (w_view w') p) now) false =
    if PartSet.contains (served (settlement (w_res w))) p then LrMiss else LrColdMiss.
Proof.
  intros Hw Hv Hp Ho Hd Hc (s & Hs & Hm). cbv zeta. cbn [ev_step w_view w_res].
  destruct (record_published_spec w Hw v Hv) as (_ & Hset & Hserved & _). rewrite Ho, unserved_verdict.
  - assert (E : PartSet.contains (served (settlement (record_published (w_res w) (w_view w) v))) p =
      PartSet.contains (served (settlement (w_res w))) p); [|by rewrite E].
    apply eq_true_iff_eq. rewrite !contains_mem, Hserved, Ho by done. split; [tauto|]. intros ?. split; [done|]. by intros [_ ?].
  - exact Hd.
  - exact Hc.
  - cbn [record_published with_settlement settlement settled]. rewrite Hs. eexists. split; [reflexivity|].
    intros Hbad. cbn [record_published with_settlement settlement settled] in Hset. rewrite Hs in Hset.
    destruct (Hset _ eq_refl) as (s' & [= <-] & Hiff). apply Hiff in Hbad; tauto.
Qed.

Lemma serve_all_spec w s : sets_wf w -> settled (settlement (w_res w)) = Some s ->
  let w' := ev_step w EvServeAll in
  sets_wf w' /\ settled (settlement (w_res w')) = Some s /\
  forall q, is_u16 q -> settlement_owns (settlement (w_res w)) q = true ->
    ~ mem (cold (w_res w')) q /\ ~ (mem (unverified (w_res w')) q \/ mem (stale (w_res w')) q) /\
    (~ mem s q -> mem (served (settlement (w_res w'))) q).
Proof.
  intros Hw Hs. cbv zeta. cbn [ev_step w_res]. unfold mark_all_serving. rewrite Hs.
  set (all := filter (fun p => settlement_owns (settlement (w_res w)) p = true) Pid.all).
  set (more := filter (fun p => PartSet.contains s p = false) all).
  assert (Hin : forall q, q ∈ all <-> is_u16 q /\ settlement_owns (settlement (w_res w)) q = true).
  { intros q. unfold all. rewrite list_elem_of_filter, all_parts. tauto. }
  assert (Hmore : forall q, q ∈ more <-> ~ mem s q /\ q ∈ all).
  { intros q. unfold more. by rewrite list_elem_of_filter, contains_not_mem. }
  clearbody all more.
  destruct (serve_parts_spec w Hw all more) as (Hw2 & Hc2 & Hv2 & Hs2 & _ & Hd2); [intros q; rewrite Hin; tauto|intros q; rewrite Hmore, Hin; tauto|].
  split_and!; [exact Hw2|by rewrite Hs2|]. intros q Hq Ho. assert (q ∈ all) by (by apply Hin).
  rewrite Hc2, Hd2, Hv2, Hmore by done. tauto.
Qed.

(** C24: marking everything serving before the first view is published vouches for parts the node
    does not own: if the seed view does not own [p] and the first published view does, a local
    miss for [p] is answered as definitive before any pull of [p] started, while without the
    marking the part counts as cold. *)
Theorem serving_all_before_a_view_hides_gained_parts (seed v : OwnershipView) (p : PartId) (now : Z)
  (Hseed : view_wf seed) (Hv : view_wf v) (Hp : is_u16 p) (Hs : owns seed p = false) (Ho : owns v p = true) :
  let verdict tr := let w := seeded seed tr in
    local_verdict (residency_of (w_res w) p (owns (w_view w) p) now) false in
  verdict [EvSettle seed; EvServeAll; EvPublish v] = LrMiss /\ verdict [EvSettle seed; EvPublish v] = LrColdMiss.
Proof.
  cbv zeta. destruct new_spec as [Hnw Hn]. assert (Hw0 : sets_wf (seeded seed [])) by (by apply initial_wf).
  destruct (settle_spec _ Hw0 seed Hseed) as (Hw1 & (s & Hs1 & Hm1) & Hv1).
  assert (Hm : ~ mem s p) by (rewrite Hm1 by done; rewrite Hs; by intros [? _]).
  split.
  - change (seeded seed _) with (ev_step (ev_step (seeded seed [EvSettle seed]) EvServeAll) (EvPublish v)).
    destruct (serve_all_spec (seeded seed [EvSettle seed]) s Hw1 Hs1) as (Hw2 & Hs2 & Hall).
    destruct (Hall p Hp eq_refl) as (Hc & Hd & Hsv).
    specialize (Hsv Hm). set (w2 := ev_step _ EvServeAll) in *. clearbody w2.
    rewrite gained_verdict by (assumption || by exists s). by rewrite (proj2 (contains_mem _ p) Hsv).
  - change (seeded seed _) with (ev_step (seeded seed [EvSettle seed]) (EvPublish v)).
    assert (Hc : ~ mem (cold (w_res (seeded seed [EvSettle seed]))) p) by exact (Hn p).
    assert (Hd : ~ (mem (unverified (w_res (seeded seed [EvSettle seed]))) p \/ mem (stale (w_res (seeded seed [EvSettle seed]))) p))
      by (intros [Hu|Hu]; exact (Hn p Hu)).
    assert (Hsv : ~ mem (served (settlement (w_res (seeded seed [EvSettle seed])))) p) by exact (Hv1 p).
    change (sets_wf (seeded seed [EvSettle seed])) in Hw1.
    change (settled (settlement (w_res (seeded seed [EvSettle seed]))) = Some s) in Hs1.
    set (w1 := seeded seed [EvSettle seed]) in *. clearbody w1.
    rewrite gained_verdict by (assumption || by exists s). by rewrite (proj2 (contains_not_mem _ p) Hsv).
Qed.

(** ** Evaluating the statements *)

(** A two-node view in which this node owns [parts]. *)
Definition sample_view (parts : list PartId) : OwnershipView := {|
  ov_view_hash := 1; ov_self_node := 7; ov_eligible := [7; 9]; ov_k := 1; ov_granularity := Part;
  ov_owners := []; ov_stride := 1; ov_owned := PartSet.from_iter parts; ov_owns_in_bucket := []; ov_co_owners := [9] |}.

Lemma sample_wf parts : Forall is_u16 parts -> view_wf (sample_view parts).
Proof. rewrite Forall_forall. intros Hps. by apply from_iter_spec. Qed.

Ltac u16s := repeat constructor; unfold is_u16, u16_max; lia.

Lemma pull_vouches_for_held_parts_witness :
  let tr0 := [EvPublish (sample_view [5; 6])] in
  let tr := [EvPublish (sample_view [5]); EvCold [9]; EvPublish (sample_view [5; 6])] in
  let r := w_res (seeded (sample_view []) (tr0 ++ EvOpen :: tr)) in
  5 ∈ vouched r (Some 0) [5; 6] /\ 6 ∉ vouched r (Some 0) [5; 6].
Proof.
  cbv zeta.
  assert (H0 : view_wf (sample_view [])) by (apply sample_wf; u16s).
  assert (H1 : view_wf (sample_view [5])) by (apply sample_wf; u16s).
  assert (H2 : view_wf (sample_view [5; 6])) by (apply sample_wf; u16s).
  assert (H9 : all_u16 [9]) by (intros q Hq; apply list_elem_of_singleton in Hq as ->; u16s).
  assert (Ht0 : Forall ev_parts [EvPublish (sample_view [5; 6])]) by exact (Forall_cons_2 ev_parts (EvPublish _) _ H2 (Forall_nil_2 _)).
  assert (Ht : Forall ev_parts [EvPublish (sample_view [5]); EvCold [9]; EvPublish (sample_view [5; 6])])
    by exact (Forall_cons_2 ev_parts (EvPublish _) _ H1 (Forall_cons_2 ev_parts (EvCold _) _ H9 Ht0)).
  assert (H := fun p => pull_vouches_for_held_parts (sample_view []) [EvPublish (sample_view [5; 6])]
    [EvPublish (sample_view [5]); EvCold [9]; EvPublish (sample_view [5; 6])] [5; 6] p H0
    Ht0 Ht ltac:(discriminate)).
  change (open_pull (w_res (seeded (sample_view []) [EvPublish (sample_view [5; 6])]))).2 with 0 in H.
  assert (Hno : EvDrop 0 ∉ [EvPublish (sample_view [5]); EvCold [9]; EvPublish (sample_view [5; 6])]).
  { rewrite !not_elem_of_cons. split_and!; try done. apply not_elem_of_nil. }
  assert (U5 : is_u16 5) by u16s. assert (U6 : is_u16 6) by u16s.
  assert (O5 : owns (sample_view [5]) 5 = true) by (vm_compute; reflexivity).
  assert (O56 : owns (sample_view [5; 6]) 5 = true) by (vm_compute; reflexivity).
  assert (O6 : owns (sample_view [5]) 6 = false) by (vm_compute; reflexivity).
  split.
  - refine (proj2 (H 5 Hno U5) (conj _ (conj O56 (Forall_cons_2 _ _ _ O5 (Forall_cons_2 _ _ _ O56 (Forall_nil_2 _)))))).
    apply elem_of_cons. by left.
  - intros Hin. destruct (proj1 (H 6 Hno U6) Hin) as (_ & _ & Hbad). apply Forall_inv in Hbad.
    rewrite O6 in Hbad. discriminate Hbad.
Defined.

Lemma misses_need_unbroken_ownership_witness :
  let w := seeded (sample_view [5]) [EvSettle (sample_view [5])] in
  local_verdict (residency_of (w_res w) 5 (owns (w_view w) 5) 0) false = LrMiss /\
  backed (sample_view [5]) [EvSettle (sample_view [5])] 5.
Proof.
  cbv zeta. assert (H1 : view_wf (sample_view [5])) by (apply sample_wf; u16s).
  assert (Hv : local_verdict (residency_of (settle residency_new (sample_view [5])) 5 (owns (sample_view [5]) 5) 0) false = LrMiss)
    by (vm_compute; reflexivity).
  refine (conj Hv (misses_need_unbroken_ownership (sample_view [5]) [EvSettle (sample_view [5])] 5 0 H1 _ ltac:(u16s) ltac:(discriminate) Hv)).
  apply (History_step _ []); [constructor|done|]. apply (settle_borrowed (sample_view [5]) [] []); [done|constructor|apply not_elem_of_nil].
Defined.

Lemma serving_all_before_a_view_hides_gained_parts_witness :
  let w := seeded (sample_view [5]) [EvSettle (sample_view [5]); EvServeAll; EvPublish (sample_view [6])] in
  local_verdict (residency_of (w_res w) 6 (owns (w_view w) 6) 0) false = LrMiss.
Proof.
  apply (serving_all_before_a_view_hides_gained_parts (sample_view [5]) (sample_view [6]) 6 0);
    [apply sample_wf; u16s|apply sample_wf; u16s|u16s|vm_compute; reflexivity|vm_compute; reflexivity].
Defined.
