(* ===== verification/Rebalance.v ===== *)
(** * Rebalance: pulling gained parts, releasing lost ones

    [cluster/rebalance.rs] and the warm-up decisions of [cluster/state_transfer.rs]. What a
    donor or a peer answers is an input of the definitions; [ticket.mark_serving] calls are
    recorded in the order they are made. Durations and instants are milliseconds. *)

From S2P Require Import Prelude Clock Part Types Ownership Residency.

(** ** Definitions *)

(** [cluster.rs]: the index map holds each key's position among the groups. *)
Definition group_in_order {K V} `{EqDecision K} (items : list (K * list V)) : list (K * list V) :=
  foldl (fun groups kv =>
    match list_find (fun g => g.1 = kv.1) groups with
    | Some (at_, _) => alter (fun g => (g.1, g.2 ++ kv.2)) at_ groups
    | None => groups ++ [kv]
    end) [] items.

Abbreviation DonorGroup := (list NodeId * list PartId)%type (only parsing).

Section Groups.
Context {HS : Hashing}.

Definition sole_owned (view : OwnershipView) (alone : list PartId) (absent : list NodeId) : list PartId :=
  match widened view absent with
  | None => alone
  | Some widened =>
      filter (fun part => existsb (fun owner => bool_decide (owner ∈ absent)) (owners_of widened part) = false) alone
  end.

End Groups.

Definition group_parts_by_donor_set (view : OwnershipView) (self_node : NodeId) (parts : list PartId) : list DonorGroup :=
  let by_owners := group_in_order ((fun part => (owners_of view part, [part])) <$> parts) in
  group_in_order ((fun g : DonorGroup => (filter (fun n => n <> self_node) g.1, g.2)) <$> by_owners).

(** *** Warm-up decisions, [cluster/state_transfer.rs] *)

Definition per_donor_budget (total : Z) : Z := duration_mul total 2 / 5.
Definition first_peer_grace (total : Z) : Z := total / 5.

Inductive Outcome := Completed | NoPeers | NoDonor | Skipped | TimedOut | Superseded | Unverified.
#[export] Instance Outcome_eq_dec : EqDecision Outcome.
Proof. solve_decision. Defined.
Definition needs_warm_up (o : Outcome) : bool :=
  match o with NoPeers | TimedOut | Superseded | Unverified => true | _ => false end.

Definition MAX_WARM_UP_ATTEMPTS : Z := 3.
Inductive WarmUpStep := WDone | WaitForPeer | RetryLater | RetryNow | WarmAnyway.
Definition next_warm_up_step (outcome : Outcome) (attempt : Z) : WarmUpStep :=
  match outcome with
  | Completed | NoDonor | Skipped => WDone
  | NoPeers => WaitForPeer
  | Superseded => RetryNow
  | TimedOut | Unverified => if MAX_WARM_UP_ATTEMPTS <=? attempt then WarmAnyway else RetryLater
  end.

Record DeclineClock := { dc_set : list NodeId; dc_since : Z }.
Definition note (c : DeclineClock) (set : list NodeId) (now : Z) : DeclineClock * Z :=
  let c := if decide (dc_set c = set) then c else {| dc_set := set; dc_since := now |} in
  (c, saturating_sub now (dc_since c)).

Inductive DonorResult := DDone | DDeclined | DFailed.
#[export] Instance DonorResult_eq_dec : EqDecision DonorResult.
Proof. solve_decision. Defined.
Inductive Pass := PDone (idx : nat) | PAllDeclined | PRetry.
Definition pass_outcome (results : list DonorResult) : Pass :=
  match list_find (fun r => r = DDone) results with
  | Some (idx, _) => PDone idx
  | None => if bool_decide (DFailed ∈ results) then PRetry else PAllDeclined
  end.

(** *** One group's pull *)

(** What [request_buckets] and the stream after it answer: a decline for a stale view or a cold
    donor, a failed request, or a stream that named these ids done and ended cleanly or broke;
    an attempt that ran out of time did so with these ids already done. *)
Inductive DonorAnswer :=
  | DaStale | DaCold | DaError
  | DaStream (ids : list Z) (clean : bool)
  | DaTimedOut (ids : list Z).

Record Pull := {
  pu_parts : list PartId;
  pu_credited : gset Z;
  pu_served : list PartId;
  pu_counted : Z;
}.

Definition credit (requested : list PartId) (acc : gset Z * Z) (part : PartId) : gset Z * Z :=
  let (credited, fresh) := acc in
  if bool_decide (part ∈ requested) && bool_decide (part ∉ credited) then ({[part]} ∪ credited, fresh + 1) else acc.

(** One [BucketDone]. *)
Definition on_bucket_done (g : Granularity) (requested : list PartId) (st : Pull) (id : Z) : Pull :=
  let done := parts_of_wire_id g id in
  let (credited, fresh) := foldl (credit requested) (pu_credited st, 0) done in
  {| pu_parts := pu_parts st; pu_credited := credited; pu_served := pu_served st ++ done;
     pu_counted := pu_counted st + fresh |}.

Definition try_donor_parts (g : Granularity) (answer : DonorAnswer) (st : Pull) : Pull * (DonorResult * bool) :=
  match answer with
  | DaStale => (st, (DDeclined, false))
  | DaCold => (st, (DDeclined, true))
  | DaError => (st, (DFailed, false))
  | DaStream ids clean =>
      (foldl (on_bucket_done g (pu_parts st)) st ids, (if clean then DDone else DFailed, false))
  | DaTimedOut ids => (foldl (on_bucket_done g (pu_parts st)) st ids, (DFailed, false))
  end.

Definition parts_pending_group_credit (total_parts : Z) (already_credited : gset Z) : Z :=
  saturating_sub total_parts (Z.of_nat (size already_credited)).

Definition ALL_COLD_PASSES : Z := 3.
Definition COLD_DONOR_ROUNDS : nat := 3.

(** What a part-scoped anti-entropy round reports ([PartRoundOutcome]). *)
Record PartRoundOutcome := { pro_matched : list PartId; pro_failed : bool }.
Inductive ColdRound := Unreached | Matched | Diverging.

Definition cold_round (outcome : option PartRoundOutcome) (diverging : list PartId) : ColdRound * list PartId :=
  match outcome with
  | Some o =>
      if pro_failed o then (Unreached, diverging)
      else
        let diverging := filter (fun part => part ∉ pro_matched o) diverging in
        (if bool_decide (diverging = []) then Matched else Diverging, diverging)
  | None => (Unreached, diverging)
  end.

(** The rounds against one donor: whether it was reached, and the parts not seen equal. *)
Fixpoint cold_donor_rounds (rounds : nat) (round : nat -> list PartId -> option PartRoundOutcome) (diverging : list PartId) :
    bool * list PartId :=
  match rounds with
  | O => (true, diverging)
  | S rounds =>
      match cold_round (round rounds diverging) diverging with
      | (Unreached, diverging) => (false, diverging)
      | (Matched, diverging) => (true, diverging)
      | (Diverging, diverging) => cold_donor_rounds rounds round diverging
      end
  end.

Definition converge_with_cold_donors (round : NodeId -> nat -> list PartId -> option PartRoundOutcome)
    (donors : list NodeId) (parts : list PartId) : bool :=
  foldl (fun reached_all donor => reached_all && (cold_donor_rounds COLD_DONOR_ROUNDS (round donor) parts).1) true donors.

Inductive GroupPull := Landed (parts : Z) | GSuperseded | GUnverified.

Definition settle_all_cold (parts : list PartId) (unverified : PartId -> bool) : list PartId * GroupPull :=
  let waiting := filter (fun part => unverified part = true) parts in
  let settled := filter (fun part => unverified part = false) parts in
  (settled, if bool_decide (waiting = []) then Landed 0 else GUnverified).

Definition mark (st : Pull) (parts : list PartId) : Pull := {|
  pu_parts := pu_parts st; pu_credited := pu_credited st; pu_served := pu_served st ++ parts; pu_counted := pu_counted st |}.
Definition retain_uncredited (st : Pull) : Pull := {|
  pu_parts := filter (fun part => part ∉ pu_credited st) (pu_parts st); pu_credited := pu_credited st;
  pu_served := pu_served st; pu_counted := pu_counted st |}.
Definition count_in (st : Pull) (n : Z) : Pull := {|
  pu_parts := pu_parts st; pu_credited := pu_credited st; pu_served := pu_served st; pu_counted := pu_counted st + n |}.

(** What one pass over the donors meets. *)
Record PassInput := {
  pi_answer : NodeId -> list PartId -> DonorAnswer;
  pi_round : NodeId -> nat -> list PartId -> option PartRoundOutcome;
  pi_replayed : PartId -> bool;
  pi_view_hash : Z;
}.

(** One pass over the donors: landed, or whether every donor asked was cold. *)
Fixpoint donor_pass (g : Granularity) (group_len : Z) (answer : NodeId -> list PartId -> DonorAnswer) (donors : list NodeId)
    (st : Pull) (every_donor_cold : bool) : Pull * (GroupPull + bool) :=
  match donors with
  | [] => (st, inr every_donor_cold)
  | donor :: donors =>
      let st := retain_uncredited st in
      let '(st, (result, cold)) := try_donor_parts g (answer donor (pu_parts st)) st in
      if decide (result = DDone) then
        let st := mark st (pu_parts st) in
        (count_in st (parts_pending_group_credit group_len (pu_credited st)), inl (Landed group_len))
      else donor_pass g group_len answer donors st (every_donor_cold && cold)
  end.

(** The retry loop, over the passes it gets; [None] while it would still retry. *)
Fixpoint pull_passes (g : Granularity) (group_len view_hash : Z) (donors : list NodeId) (passes : list PassInput)
    (st : Pull) (all_cold_passes : Z) : Pull * option GroupPull :=
  match passes with
  | [] => (st, None)
  | pass :: passes =>
      let retry st all_cold_passes :=
        if negb (pi_view_hash pass =? view_hash) then (st, Some GSuperseded)
        else pull_passes g group_len view_hash donors passes st all_cold_passes in
      match donor_pass g group_len (pi_answer pass) donors st (negb (bool_decide (donors = []))) with
      | (st, inl landed) => (st, Some landed)
      | (st, inr true) =>
          let all_cold_passes := all_cold_passes + 1 in
          if ALL_COLD_PASSES <=? all_cold_passes then
            if converge_with_cold_donors (pi_round pass) donors (pu_parts st) then
              let (settled, pull) := settle_all_cold (pu_parts st) (pi_replayed pass) in (mark st settled, Some pull)
            else retry st 0
          else retry st all_cold_passes
      | (st, inr false) => retry st 0
      end
  end.

Definition pull_one_group (g : Granularity) (view_hash : Z) (donors : list NodeId) (parts : list PartId)
    (passes : list PassInput) : Pull * option GroupPull :=
  pull_passes g (Z.of_nat (length parts)) view_hash donors passes
    {| pu_parts := parts; pu_credited := ∅; pu_served := []; pu_counted := 0 |} 0.

(** How [PullRequest::run] folds the groups' ends into an outcome; [None] is a group whose task
    did not finish. *)
Definition fold_groups (ends : list (option GroupPull)) : Outcome :=
  if existsb (fun e => match e with None | Some GSuperseded => true | _ => false end) ends then Superseded
  else if existsb (fun e => match e with Some GUnverified => true | _ => false end) ends then Unverified
  else Completed.

(** *** Retries *)

Definition retry_parts (unfinished : PartSet) (view : OwnershipView) (is_cold : PartId -> bool) : list PartId :=
  sort_Z (filter (fun part => owns view part && (1 <? length (owners_of view part))%nat && is_cold part = true)
            (PartSet.iter unfinished)).
Definition still_cold (unfinished : list PartId) (is_cold : PartId -> bool) : PartSet :=
  PartSet.from_iter (filter (fun part => is_cold part = true) unfinished).

Inductive RetryEnd := Cancelled | ViewChanged | Ran (o : Outcome).
Record RetryEffects := { count_timeout : bool; reset_ticker : bool }.
Definition retry_effects (e : RetryEnd) : RetryEffects := {|
  count_timeout := match e with Ran TimedOut => true | _ => false end;
  reset_ticker := match e with Ran _ => true | _ => false end |}.

(** *** A view change *)

Record ViewChangePlan := { vp_lost : list PartId; vp_regained : list PartId; vp_to_pull : list PartId; vp_stale : list PartId }.

(** [iter.filter(|&part| seen.insert(part))]. *)
Fixpoint insert_new (seen : PartSet) (parts : list PartId) : list PartId :=
  match parts with
  | [] => []
  | part :: parts =>
      let (seen, fresh) := PartSet.insert seen part in
      if fresh then part :: insert_new seen parts else insert_new seen parts
  end.

Definition plan_view_change (prev pulled new : OwnershipView) (held : list PartId) (repull : PartSet) : ViewChangePlan :=
  let (regained, lost) := ownership_diff prev new in
  let lost := lost ++ insert_new (PartSet.from_iter lost) (filter (fun part => owns new part = false) held) in
  let to_pull := (ownership_diff pulled new).1 in
  let to_pull := to_pull ++ insert_new (PartSet.from_iter to_pull)
                   (regained ++ filter (fun part => owns new part = true) (PartSet.iter repull)) in
  let held := PartSet.from_iter held in
  {| vp_lost := lost; vp_regained := regained; vp_to_pull := to_pull;
     vp_stale := filter (fun part => PartSet.contains held part = true) to_pull |}.

Definition mark_pulling (r : ResidencySet) (plan : ViewChangePlan) : ResidencySet :=
  mark_stale (mark_cold r (vp_to_pull plan)) (vp_stale plan).

(** *** Handing lost parts over *)

Definition hand_off_owners (view : OwnershipView) (self_node : NodeId) (due : list PartId) (live : gset Z) : list NodeId :=
  foldl (fun owners part =>
    foldl (fun owners owner =>
      if negb (bool_decide (owner = self_node)) && bool_decide (owner ∈ live) && negb (bool_decide (owner ∈ owners))
      then owners ++ [owner] else owners) owners (owners_of view part)) [] due.

Definition unpullable_losses (prev new : OwnershipView) (self_node : NodeId) (lost : list PartId) : list PartId :=
  filter (fun part =>
    existsb (fun owner => negb (bool_decide (owner = self_node)) && bool_decide (owner ∈ owners_of prev part))
      (owners_of new part) = false) lost.

Abbreviation PushTargets := (list (NodeId * list PartId)) (only parsing).

Definition push_target (targets : PushTargets) (owner : NodeId) (part : PartId) : PushTargets :=
  match list_find (fun t => t.1 = owner) targets with
  | Some (at_, _) => alter (fun t => (t.1, t.2 ++ [part])) at_ targets
  | None => targets ++ [(owner, [part])]
  end.
Definition push_targets (view : OwnershipView) (self_node : NodeId) (parts : list PartId) : PushTargets :=
  foldl (fun targets part =>
    foldl (fun targets owner => if bool_decide (owner = self_node) then targets else push_target targets owner part)
      targets (owners_of view part)) [] parts.

(** [checked_add] overflows past [max_instant]. *)
Definition out_of_time (max_instant now retry : Z) (gives_up : option Z) : bool :=
  is_some_and gives_up (fun gives_up => if max_instant <? now + retry then true else gives_up <? now + retry).

Definition split_reachable (targets : PushTargets) (live : gset Z) : PushTargets * PushTargets :=
  (filter (fun t => t.1 ∈ live) targets, filter (fun t => t.1 ∉ live) targets).

Definition hand_off_cutoff (tombstone_ttl ae_interval : Z) : Z := Z.max (saturating_sub tombstone_ttl ae_interval) ae_interval.

Definition acked_by_part (g : Granularity) (acked : gmap Z (gset Z)) : gmap Z (gset Z) :=
  map_fold (fun id owners out =>
    foldl (fun out part => <[part := default ∅ (out !! part) ∪ owners]> out) out (parts_of_wire_id g id)) ∅ acked.

Definition has_acked (acked : gmap Z (gset Z)) (part : PartId) (owner : NodeId) : bool :=
  is_some_and (acked !! part) (fun owners => bool_decide (owner ∈ owners)).

Definition parts_to_release (view : OwnershipView) (self_node : NodeId) (due : list PartId) (overdue : PartSet)
    (reconciled : gset Z) (acked : gmap Z (gset Z)) (unreachable : gset Z) : list PartId :=
  filter (fun part =>
    negb (owns view part) &&
    forallb (fun owner =>
      bool_decide (owner = self_node) || bool_decide (owner ∈ reconciled) || has_acked acked part owner
      || (PartSet.contains overdue part && bool_decide (owner ∈ unreachable))) (owners_of view part) = true) due.

Definition view_moved (planned current : OwnershipView) : bool := negb (ov_view_hash planned =? ov_view_hash current).
Definition not_owned (view : OwnershipView) (parts : list PartId) : list PartId :=
  filter (fun part => owns view part = false) parts.

Definition owners_needing_confirmation (view : OwnershipView) (owners : list NodeId) (due : list PartId)
    (reconciled : gset Z) (acked : gmap Z (gset Z)) : list NodeId :=
  filter (fun owner =>
    negb (bool_decide (owner ∈ reconciled))
    && negb (forallb (fun part => has_acked acked part owner) (filter (fun part => owner ∈ owners_of view part) due)) = true) owners.

(** *** The release pass of one tick *)

Inductive RoundOutcome := Reconciled | RFailed | RStale.

(** What the tick reads: the view current as it starts, the view the hand-off plans by, the
    instants it compares releases against, the live peers, the acks within their
    window, the rounds' outcomes, and the view current once the rounds are over. *)
Record TickInput := {
  ti_start : OwnershipView;
  ti_view : OwnershipView;
  ti_now_cutoff : Z;
  ti_now_due : Z;
  ti_now_overdue : Z;
  ti_live : gset Z;
  ti_acked : gmap Z (gset Z);
  ti_round : NodeId -> RoundOutcome;
  ti_current : OwnershipView;
}.

Definition confirm (round : NodeId -> RoundOutcome) (acc : gset Z * gset Z) (owner : NodeId) : gset Z * gset Z :=
  match round owner with
  | Reconciled => ({[owner]} ∪ acc.1, acc.2)
  | RFailed => (acc.1, {[owner]} ∪ acc.2)
  | RStale => acc
  end.

(** The parts released without a hand-off, then the parts released after one. *)
Definition release_tick (r : ResidencySet) (self_node : NodeId) (disown_grace cutoff : Z) (ti : TickInput) :
    list PartId * list PartId :=
  let past_cutoff := not_owned (ti_start ti) (expired r (ti_now_cutoff ti) cutoff) in
  let r := unmark r past_cutoff in
  let past := PartSet.from_iter past_cutoff in
  let due := filter (fun part => PartSet.contains past part = false) (expired r (ti_now_due ti) disown_grace) in
  let view := ti_view ti in
  if bool_decide (due = []) then (past_cutoff, [])
  else
    let acked := acked_by_part (ov_granularity view) (ti_acked ti) in
    let missing := list_to_set (filter (fun owner => owner <> self_node /\ owner ∉ ti_live ti) (due ≫= owners_of view)) in
    let hand_off := hand_off_owners view self_node due (ti_live ti) in
    let '(reconciled, unreachable) :=
      foldl (confirm (ti_round ti)) (∅, missing) (owners_needing_confirmation view hand_off due ∅ acked) in
    let overdue := PartSet.from_iter (expired r (ti_now_overdue ti) (duration_mul disown_grace 2)) in
    let due := parts_to_release view self_node due overdue reconciled acked unreachable in
    if view_moved view (ti_current ti) then (past_cutoff, []) else (past_cutoff, due).

(** ** Planning a view change *)

Lemma insert_new_spec parts : forall seen, wf seen -> all_u16 parts ->
  NoDup (insert_new seen parts) /\ forall p, is_u16 p -> p ∈ insert_new seen parts <-> p ∈ parts /\ ~ mem seen p.
Proof.
  induction parts as [|x parts IH]; intros seen Hwf Hall; cbn [insert_new].
  { split; [constructor|]. intros p _. rewrite elem_of_nil. tauto. }
  assert (Hx : is_u16 x) by (apply Hall; left). pose proof (PartSet.insert_spec seen x Hwf Hx) as Hi.
  destruct (PartSet.insert seen x) as [seen' fresh]. destruct Hi as (Hwf' & Hfresh & Hm).
  destruct (IH seen' Hwf') as [Hnd Hin]; [intros q Hq; apply Hall; by right|].
  destruct fresh; symmetry in Hfresh.
  - apply negb_true_iff, contains_not_mem in Hfresh. split.
    + constructor; [|done]. rewrite Hin by done. rewrite Hm by done. tauto.
    + intros p Hp. rewrite !elem_of_cons, Hin, Hm by done. destruct (decide (p = x)) as [->|]; tauto.
  - apply negb_false_iff, contains_mem in Hfresh. split; [done|]. intros p Hp. rewrite elem_of_cons, Hin, Hm by done.
    split; [tauto|]. intros [[->|Hp'] Hno]; [done|]. split; [done|]. intros [->|?]; done.
Qed.

Lemma fresh_app base more : NoDup base -> all_u16 base -> all_u16 more ->
  let l := base ++ insert_new (PartSet.from_iter base) more in
  NoDup l /\ all_u16 l /\ forall p, is_u16 p -> p ∈ l <-> p ∈ base \/ p ∈ more.
Proof.
  intros Hnd Hb Hm. cbv zeta. destruct (from_iter_spec base Hb) as [Hw Hin].
  destruct (insert_new_spec more _ Hw Hm) as [Hnd' Hin'].
  assert (Hsub : forall p, p ∈ insert_new (PartSet.from_iter base) more -> p ∈ more).
  { clear. generalize (PartSet.from_iter base). induction more as [|x more IH]; intros s p; cbn [insert_new]; [done|].
    destruct (PartSet.insert s x) as [s' [|]]; rewrite ?elem_of_cons; intros; naive_solver. }
  split_and!.
  - apply NoDup_app. split_and!; [done| |done]. intros p Hp Hbad. apply Hin' in Hbad as [_ Hbad]; [|auto]. apply Hbad, Hin; auto.
  - intros p [Hp|Hp]%elem_of_app; auto.
  - intros p Hp. rewrite elem_of_app, Hin', Hin by done. destruct (decide (p ∈ base)); tauto.
Qed.

Lemma diff_spec a b : view_wf b ->
  let l := filter (fun p => owns a p = false) (owned_parts b) in
  NoDup l /\ all_u16 l /\ forall p, is_u16 p -> p ∈ l <-> owns b p = true /\ owns a p = false.
Proof.
  intros Hb. cbv zeta. split_and!; [by apply NoDup_filter, PartSet.iter_NoDup|by apply u16_filter, owned_u16|].
  intros p Hp. rewrite list_elem_of_filter, owned_parts_spec by done. tauto.
Qed.

Lemma to_pull_spec prev pulled new held repull : view_wf new -> wf repull ->
  let l := vp_to_pull (plan_view_change prev pulled new held repull) in
  NoDup l /\ all_u16 l /\
  forall p, is_u16 p -> p ∈ l <-> owns new p = true /\ (owns pulled p = false \/ owns prev p = false \/ mem repull p).
Proof.
  intros Hnew Hrep. cbv zeta. unfold plan_view_change, ownership_diff. cbn [fst vp_to_pull].
  destruct (diff_spec prev new Hnew) as (_ & Hr2 & Hr3). destruct (diff_spec pulled new Hnew) as (Hp1 & Hp2 & Hp3).
  assert (Hiter : all_u16 (PartSet.iter repull)) by (intros p; by apply PartSet.iter_u16).
  edestruct fresh_app as (H1 & H2 & H3); [exact Hp1|exact Hp2| |split_and!; [exact H1|exact H2|]].
  { intros p [Hp|Hp]%elem_of_app; [auto|]. by apply (u16_filter (fun p => owns new p = true) _ Hiter). }
  intros p Hp. rewrite H3, Hp3, elem_of_app, Hr3, list_elem_of_filter, PartSet.member_in_space by done. tauto.
Qed.

(** A view change is planned exactly: a part is released when the new view does not own it
    and the previous one did or records of it are held here; it is pulled when the new view owns
    it and the last view pulled to the end or the previous view did not, or it was lost or left
    unfinished since; of those, the parts with records here are stale; each list names a part
    once. *)
Theorem plan_view_change_exact (prev pulled new : OwnershipView) (held : list PartId) (repull : PartSet)
  (Hprev : view_wf prev) (Hpulled : view_wf pulled) (Hnew : view_wf new) (Hheld : all_u16 held) (Hrep : wf repull) :
  let plan := plan_view_change prev pulled new held repull in
  NoDup (vp_lost plan) /\ NoDup (vp_regained plan) /\ NoDup (vp_to_pull plan) /\ NoDup (vp_stale plan) /\
  forall p, is_u16 p ->
    (p ∈ vp_lost plan <-> owns new p = false /\ (owns prev p = true \/ p ∈ held)) /\
    (p ∈ vp_regained plan <-> owns new p = true /\ owns prev p = false) /\
    (p ∈ vp_to_pull plan <-> owns new p = true /\ (owns pulled p = false \/ owns prev p = false \/ mem repull p)) /\
    (p ∈ vp_stale plan <-> p ∈ vp_to_pull plan /\ p ∈ held).
Proof.
  cbv zeta. destruct (to_pull_spec prev pulled new held repull Hnew Hrep) as (HP1 & HP2 & HP3).
  destruct (diff_spec new prev Hprev) as (Hl1 & Hl2 & Hl3). destruct (diff_spec prev new Hnew) as (Hr1 & _ & Hr3).
  destruct (fresh_app _ (filter (fun p => owns new p = false) held) Hl1 Hl2 (u16_filter (fun p => owns new p = false) _ Hheld)) as (HL1 & HL2 & HL3).
  destruct (from_iter_spec held Hheld) as [_ Hhm].
  split_and!; [exact HL1|exact Hr1|exact HP1|by apply NoDup_filter|]. intros p Hp. split_and!.
  - unfold plan_view_change, ownership_diff. cbn [vp_lost]. rewrite HL3, Hl3, list_elem_of_filter by done. tauto.
  - unfold plan_view_change, ownership_diff. cbn [vp_regained]. rewrite Hr3 by done. tauto.
  - by apply HP3.
  - unfold plan_view_change, ownership_diff. cbn [vp_stale vp_to_pull]. rewrite list_elem_of_filter, contains_mem, Hhm by done. tauto.
Qed.

(** ** Pulling one group *)

Section Pulls.
Context (ps0 : list PartId).

Record pulling (st : Pull) : Prop := {
  pl_served p : p ∈ pu_credited st -> p ∈ pu_served st;
  pl_cover p : p ∈ ps0 -> p ∈ pu_parts st \/ p ∈ pu_credited st;
  pl_parts p : p ∈ pu_parts st -> p ∈ ps0;
  pl_credited p : p ∈ pu_credited st -> p ∈ ps0;
  pl_counted : pu_counted st = Z.of_nat (size (pu_credited st));
}.

Lemma credit_spec requested done : forall (c0 : gset Z) n,
  let '(c, fresh) := foldl (credit requested) (c0, n) done in
  (forall p, p ∈ c <-> p ∈ c0 \/ (p ∈ done /\ p ∈ requested)) /\
  fresh - n = Z.of_nat (size c) - Z.of_nat (size c0).
Proof.
  induction done as [|x done IH]; intros c0 n; cbn [foldl].
  { split; [|lia]. intros p. rewrite elem_of_nil. tauto. }
  unfold credit at 2. cbv beta iota. destruct (bool_decide (x ∈ requested) && bool_decide (x ∉ c0)) eqn:E.
  - apply andb_true_iff in E as [E1%bool_decide_eq_true E2%bool_decide_eq_true].
    specialize (IH ({[x]} ∪ c0) (n + 1)). destruct (foldl _ _ done) as [c fresh]. destruct IH as [Hm Hf].
    rewrite size_union, size_singleton in Hf by set_solver. split; [|lia]. intros p. rewrite Hm, elem_of_cons.
    set_solver.
  - specialize (IH c0 n). destruct (foldl _ _ done) as [c fresh]. destruct IH as [Hm Hf]. split; [|done].
    intros p. rewrite Hm, elem_of_cons. apply andb_false_iff in E.
    destruct E as [E%bool_decide_eq_false|E%bool_decide_eq_false]; [set_solver|].
    destruct (decide (p = x)) as [->|]; [|tauto]. apply dec_stable in E. tauto.
Qed.

Lemma bucket_done_pulling g requested st id : (forall p, p ∈ requested -> p ∈ ps0) ->
  pulling st -> pulling (on_bucket_done g requested st id) /\ pu_parts (on_bucket_done g requested st id) = pu_parts st.
Proof.
  intros Hreq [H1 H2 H3 H4 H5]. unfold on_bucket_done.
  pose proof (credit_spec requested (parts_of_wire_id g id) (pu_credited st) 0) as Hc.
  destruct (foldl (credit requested) _ _) as [c fresh]. destruct Hc as [Hm Hf]. split; [|done]. split; cbn.
  - intros p [Hp|[Hp _]]%Hm; apply elem_of_app; auto.
  - intros p Hp. rewrite Hm. destruct (H2 p Hp); auto.
  - done.
  - intros p [Hp|[_ Hp]]%Hm; auto.
  - lia.
Qed.

Lemma bucket_dones_pulling g requested ids : forall st, (forall p, p ∈ requested -> p ∈ ps0) ->
  pulling st -> pulling (foldl (on_bucket_done g requested) st ids) /\
  pu_parts (foldl (on_bucket_done g requested) st ids) = pu_parts st.
Proof.
  induction ids as [|id ids IH]; intros st Hreq Hst; cbn; [done|].
  destruct (bucket_done_pulling g requested st id Hreq Hst) as [H1 H2]. destruct (IH _ Hreq H1) as [H3 H4].
  split; [done|]. by rewrite H4, H2.
Qed.

Lemma retain_pulling st : pulling st -> pulling (retain_uncredited st).
Proof.
  intros [H1 H2 H3 H4 H5]. split; cbn; try done.
  - intros p Hp. rewrite list_elem_of_filter. destruct (decide (p ∈ pu_credited st)); [by right|]. destruct (H2 p Hp); tauto.
  - intros p [_ Hp]%list_elem_of_filter. auto.
Qed.

Lemma try_donor_pulling g answer st : pulling st ->
  let '(st', (result, cold)) := try_donor_parts g answer st in
  pulling st' /\ pu_parts st' = pu_parts st /\ (cold = true -> result = DDeclined).
Proof.
  intros Hst. destruct answer as [| | |ids clean|ids]; cbn; try done;
    destruct (bucket_dones_pulling g (pu_parts st) ids st (pl_parts _ Hst) Hst); done.
Qed.

(** How a pass over the donors ends. *)
Lemma donor_pass_spec g answer donors : forall st every, NoDup ps0 -> pulling st ->
  let '(st', res) := donor_pass g (Z.of_nat (length ps0)) answer donors st every in
  match res with
  | inl e => e = Landed (Z.of_nat (length ps0)) /\ (forall p, p ∈ ps0 -> p ∈ pu_served st') /\
      pu_counted st' = Z.of_nat (length ps0)
  | inr _ => pulling st'
  end.
Proof.
  induction donors as [|d donors IH]; intros st every Hnd Hst; cbn [donor_pass]; [done|].
  pose proof (retain_pulling st Hst) as Hr. set (st1 := retain_uncredited st) in *.
  pose proof (try_donor_pulling g (answer d (pu_parts st1)) st1 Hr) as Ht.
  destruct (try_donor_parts _ _ st1) as [st2 [result cold]]. destruct Ht as (Ht & _ & _).
  destruct (decide (result = DDone)) as [->|Hne]; [|by apply IH].
  destruct Ht as [H1 H2 H3 H4 H5]. split_and!; [done| |]; cbn.
  - intros p Hp. rewrite elem_of_app. destruct (H2 p Hp); auto.
  - rewrite H5. unfold parts_pending_group_credit, saturating_sub.
    assert (size (pu_credited st2) <= length ps0)%nat; [|lia].
    rewrite <-(size_list_to_set (C := gset Z) ps0) by done. apply subseteq_size. intros p Hp. apply elem_of_list_to_set. auto.
Qed.

Lemma pull_passes_spec g vh donors passes : forall st cold, NoDup ps0 -> pulling st ->
  let '(st', res) := pull_passes g (Z.of_nat (length ps0)) vh donors passes st cold in
  match res with
  | Some (Landed n) => (forall p, p ∈ ps0 -> p ∈ pu_served st') /\
      (n = Z.of_nat (length ps0) /\ pu_counted st' = n \/ n = 0 /\ 0 <= pu_counted st' <= Z.of_nat (length ps0))
  | _ => True
  end.
Proof.
  induction passes as [|pass passes IH]; intros st cold Hnd Hst; cbn [pull_passes]; [done|].
  pose proof (donor_pass_spec g (pi_answer pass) donors st (negb (bool_decide (donors = []))) Hnd Hst) as Hd.
  destruct (donor_pass _ _ _ _ _ _) as [st1 [e|b]].
  { destruct Hd as (-> & H1 & H2). split; [done|]. left. split; [done|lia]. }
  assert (Hretry : forall c, let '(st', res) := if negb (pi_view_hash pass =? vh) then (st1, Some GSuperseded)
      else pull_passes g (Z.of_nat (length ps0)) vh donors passes st1 c in
    match res with Some (Landed n) => (forall p, p ∈ ps0 -> p ∈ pu_served st') /\
      (n = Z.of_nat (length ps0) /\ pu_counted st' = n \/ n = 0 /\ 0 <= pu_counted st' <= Z.of_nat (length ps0)) | _ => True end).
  { intros c. destruct (negb _); [done|]. by apply IH. }
  destruct b; [|apply Hretry]. destruct (ALL_COLD_PASSES <=? cold + 1); [|apply Hretry].
  destruct (converge_with_cold_donors _ _ _); [|apply Hretry].
  unfold settle_all_cold. destruct (bool_decide _) eqn:E; [|done]. apply bool_decide_eq_true in E.
  destruct Hd as [H1 H2 H3 H4 H5]. cbn. split.
  - intros p Hp. rewrite elem_of_app, list_elem_of_filter. destruct (H2 p Hp) as [Hp'|]; [|auto]. right. split; [|done].
    destruct (pi_replayed pass p) eqn:Er; [|done]. exfalso. apply (not_elem_of_nil p). rewrite <-E. by apply list_elem_of_filter.
  - right. split; [done|]. rewrite H5.
    assert (size (pu_credited st1) <= length ps0)%nat; [|lia].
    rewrite <-(size_list_to_set (C := gset Z) ps0) by done. apply subseteq_size. intros p Hp. apply elem_of_list_to_set. auto.
Qed.

End Pulls.

(** A group's pull that reports its parts landed has marked every one of them serving,
    through a finished id, the end of a donor's stream or the settling of an all-cold group, and
    has counted each part at most once, whatever the donors answer, in whatever order their
    streams break and however often parts are sent again. *)
Theorem landed_group_is_served (g : Granularity) (view_hash : Z) (donors : list NodeId) (parts : list PartId)
  (passes : list PassInput) (n : Z) (Hnd : NoDup parts)
  (Hlanded : (pull_one_group g view_hash donors parts passes).2 = Some (Landed n)) :
  let st := (pull_one_group g view_hash donors parts passes).1 in
  (forall p, p ∈ parts -> p ∈ pu_served st) /\
  (n = Z.of_nat (length parts) /\ pu_counted st = n \/ n = 0 /\ 0 <= pu_counted st <= Z.of_nat (length parts)).
Proof.
  revert Hlanded. unfold pull_one_group.
  pose proof (pull_passes_spec parts g view_hash donors passes
    {| pu_parts := parts; pu_credited := ∅; pu_served := []; pu_counted := 0 |} 0 Hnd) as Hp.
  destruct (pull_passes _ _ _ _ _ _ _) as [st res]. cbn. intros ->. apply Hp. split; cbn; set_solver.
Qed.

(** A pull always ends once the view it planned by is replaced: some pass that sees another
    view hash makes the pull end, whatever its donors answer. *)
Theorem pull_ends_when_the_view_moves (g : Granularity) (view_hash : Z) (donors : list NodeId) (parts : list PartId)
  (passes : list PassInput) (Hmoved : Exists (fun pass => pi_view_hash pass <> view_hash) passes) :
  exists e, (pull_one_group g view_hash donors parts passes).2 = Some e.
Proof.
  unfold pull_one_group. generalize 0 at 2. generalize ({| pu_parts := parts; pu_credited := ∅; pu_served := []; pu_counted := 0 |}).
  induction Hmoved as [pass passes Hne|pass passes Hm IH]; intros st cold; cbn [pull_passes];
    destruct (donor_pass _ _ _ _ _ _) as [st1 [e|b]]; try (by eexists); destruct b;
    try destruct (ALL_COLD_PASSES <=? cold + 1); try destruct (converge_with_cold_donors _ _ _);
    try destruct (settle_all_cold _ _); try (by eexists); destruct (pi_view_hash pass =? view_hash) eqn:E;
    try (by eexists); try (apply Z.eqb_eq in E; done); apply IH.
Qed.

(** ** Releasing parts *)

Lemma expired_spec r now grace p : p ∈ expired r now grace <->
  exists since, releasing r !! p = Some since /\ grace <= saturating_sub now since.
Proof.
  unfold expired. rewrite list_elem_of_fmap. split.
  - intros ([q since] & -> & Hin). apply list_elem_of_filter in Hin as [Hg Hin]. apply elem_of_map_to_list in Hin. by exists since.
  - intros (since & Hs & Hg). exists (p, since). split; [done|]. apply list_elem_of_filter. split; [done|]. by apply elem_of_map_to_list.
Qed.

Lemma unmark_lookup ps : forall r p, releasing (unmark r ps) !! p = if decide (p ∈ ps) then None else releasing r !! p.
Proof.
  intros r p. unfold unmark, with_releasing. cbn. generalize (releasing r). induction ps as [|x ps IH]; intros m; cbn; [done|].
  rewrite IH. destruct (decide (p = x)) as [->|Hne].
  - rewrite lookup_delete_eq, (decide_True (P := x ∈ x :: ps)) by (by left). by destruct (decide _).
  - rewrite lookup_delete_ne by done. destruct (decide (p ∈ ps)) as [Hin|Hin].
    + by rewrite decide_True by (by right).
    + rewrite decide_False; [done|]. rewrite elem_of_cons. tauto.
Qed.

Lemma ack_parts_spec ps (owners : gset Z) : forall (out : gmap Z (gset Z)) p o,
  o ∈ default ∅ (foldl (fun out part => <[part := default ∅ (out !! part) ∪ owners]> out) out ps !! p) <->
  o ∈ default ∅ (out !! p) \/ (p ∈ ps /\ o ∈ owners).
Proof.
  induction ps as [|x ps IH]; intros out p o; cbn; [rewrite elem_of_nil; tauto|]. rewrite IH, elem_of_cons.
  destruct (decide (p = x)) as [->|Hne].
  - rewrite lookup_insert_eq. cbn. rewrite elem_of_union. tauto.
  - rewrite lookup_insert_ne by done. tauto.
Qed.

Lemma acked_by_part_spec g acked p o : has_acked (acked_by_part g acked) p o = true <->
  exists id owners, acked !! id = Some owners /\ p ∈ parts_of_wire_id g id /\ o ∈ owners.
Proof.
  assert (Hd : has_acked (acked_by_part g acked) p o = true <-> o ∈ default ∅ (acked_by_part g acked !! p)).
  { unfold has_acked. destruct (acked_by_part g acked !! p); cbn; [|set_solver]. by rewrite bool_decide_eq_true. }
  rewrite Hd. unfold acked_by_part. apply (map_fold_weak_ind (fun out m => o ∈ default ∅ (out !! p) <->
    exists id owners, m !! id = Some owners /\ p ∈ parts_of_wire_id g id /\ o ∈ owners)).
  - rewrite lookup_empty. cbn. split; [set_solver|]. intros (id & owners & Hid & _). by rewrite lookup_empty in Hid.
  - intros id owners m out Hid IH. rewrite ack_parts_spec, IH. split.
    + intros [(id' & owners' & H1 & H2)|H]; [|exists id, owners; by rewrite lookup_insert_eq].
      exists id', owners'. rewrite lookup_insert_ne; [done|]. intros ->. congruence.
    + intros (id' & owners' & H1 & H2 & H3). apply lookup_insert_Some in H1 as [[-> ->]|[Hne H1]]; [by right|]. left. eauto.
Qed.

Lemma hand_off_inner self (live : gset Z) l : forall acc o,
  o ∈ foldl (fun owners owner =>
      if negb (bool_decide (owner = self)) && bool_decide (owner ∈ live) && negb (bool_decide (owner ∈ owners))
      then owners ++ [owner] else owners) acc l <-> o ∈ acc \/ (o ∈ l /\ o <> self /\ o ∈ live).
Proof.
  induction l as [|x l IH]; intros acc o; cbn [foldl]; [rewrite elem_of_nil; tauto|]. rewrite IH, elem_of_cons.
  destruct (decide (x = self)) as [->|Hs]; [rewrite (bool_decide_true (self = self)) by done; cbn; intuition congruence|].
  rewrite (bool_decide_false (x = self)) by done. destruct (decide (x ∈ live)) as [Hl|Hl];
    [rewrite (bool_decide_true (x ∈ live)) by done|rewrite (bool_decide_false (x ∈ live)) by done; cbn; intuition congruence].
  destruct (decide (x ∈ acc)) as [Ha|Ha]; [rewrite (bool_decide_true (x ∈ acc)) by done; cbn; intuition congruence|].
  rewrite (bool_decide_false (x ∈ acc)) by done. cbn. rewrite elem_of_app, list_elem_of_singleton. intuition congruence.
Qed.

Lemma hand_off_owners_spec view self due (live : gset Z) o : o ∈ hand_off_owners view self due live <->
  o <> self /\ o ∈ live /\ exists p, p ∈ due /\ o ∈ owners_of view p.
Proof.
  unfold hand_off_owners.
  enough (Hg : forall acc, o ∈ foldl (fun owners part => foldl (fun owners owner =>
      if negb (bool_decide (owner = self)) && bool_decide (owner ∈ live) && negb (bool_decide (owner ∈ owners))
      then owners ++ [owner] else owners) owners (owners_of view part)) acc due <->
    o ∈ acc \/ (o <> self /\ o ∈ live /\ exists p, p ∈ due /\ o ∈ owners_of view p)).
  { rewrite Hg, elem_of_nil. tauto. }
  induction due as [|x due IH]; intros acc; cbn [foldl]; [set_solver|]. rewrite IH, hand_off_inner. set_solver.
Qed.

Lemma confirm_spec round os : forall (rec0 unr0 : gset Z),
  let '(rec, unr) := foldl (confirm round) (rec0, unr0) os in
  (forall o, o ∈ rec <-> o ∈ rec0 \/ (o ∈ os /\ round o = Reconciled)) /\
  (forall o, o ∈ unr <-> o ∈ unr0 \/ (o ∈ os /\ round o = RFailed)).
Proof.
  induction os as [|x os IH]; intros rec0 unr0; cbn [foldl]; [set_solver|].
  unfold confirm at 2. cbn [fst snd]. destruct (round x) eqn:Er.
  - specialize (IH ({[x]} ∪ rec0) unr0). destruct (foldl _ _ os) as [rec unr]. destruct IH as [H1 H2].
    split; intros o; rewrite ?H1, ?H2, ?elem_of_cons, ?elem_of_union, ?elem_of_singleton; intuition congruence.
  - specialize (IH rec0 ({[x]} ∪ unr0)). destruct (foldl _ _ os) as [rec unr]. destruct IH as [H1 H2].
    split; intros o; rewrite ?H1, ?H2, ?elem_of_cons, ?elem_of_union, ?elem_of_singleton; intuition congruence.
  - specialize (IH rec0 unr0). destruct (foldl _ _ os) as [rec unr]. destruct IH as [H1 H2].
    split; intros o; rewrite ?H1, ?H2, ?elem_of_cons; intuition congruence.
Qed.

Lemma forallb_false {A} (f : A -> bool) l : forallb f l = false <-> exists x, x ∈ l /\ f x = false.
Proof.
  induction l as [|x l IH]; cbn; [set_solver|]. rewrite andb_false_iff, IH. setoid_rewrite elem_of_cons. naive_solver.
Qed.

Lemma needs_confirmation_spec view owners due acked o : o ∈ owners_needing_confirmation view owners due ∅ acked <->
  o ∈ owners /\ exists p, p ∈ due /\ o ∈ owners_of view p /\ has_acked acked p o = false.
Proof.
  unfold owners_needing_confirmation. rewrite list_elem_of_filter, (bool_decide_false (o ∈ ∅)) by set_solver. cbn.
  rewrite negb_true_iff, forallb_false. setoid_rewrite list_elem_of_filter. naive_solver.
Qed.

(** An owner's answer covers [p]: its round reconciled, or it acked an id that names [p]. *)
Definition answered (ti : TickInput) (p : PartId) (o : NodeId) : Prop :=
  (o ∈ ti_live ti /\ ti_round ti o = Reconciled) \/
  (exists id owners, ti_acked ti !! id = Some owners /\ p ∈ parts_of_wire_id (ov_granularity (ti_view ti)) id /\ o ∈ owners).

(** The one exception the code makes: [p] has been releasing for twice the grace, and the owner
    is not live or its round failed. *)
Definition given_up (r : ResidencySet) (disown_grace : Z) (ti : TickInput) (p : PartId) (o : NodeId) : Prop :=
  (exists since, releasing r !! p = Some since /\ duration_mul disown_grace 2 <= saturating_sub (ti_now_overdue ti) since) /\
  (o ∉ ti_live ti \/ ti_round ti o = RFailed).

Section Release.
Context (r : ResidencySet) (self_node : NodeId) (disown_grace cutoff : Z) (ti : TickInput)
  (Hu : forall p since, releasing r !! p = Some since -> is_u16 p).
Abbreviation view := (ti_view ti).
Abbreviation past := (not_owned (ti_start ti) (expired r (ti_now_cutoff ti) cutoff)).
Abbreviation r1 := (unmark r past).
Abbreviation due := (filter (fun part => PartSet.contains (PartSet.from_iter past) part = false) (expired r1 (ti_now_due ti) disown_grace)).

Lemma past_u16 : all_u16 past.
Proof. intros p [_ Hp]%list_elem_of_filter. apply expired_spec in Hp as (since & Hs & _). eauto. Qed.

Lemma expired_r1 now grace p : p ∈ expired r1 now grace <->
  p ∉ past /\ exists since, releasing r !! p = Some since /\ grace <= saturating_sub now since.
Proof.
  rewrite expired_spec. setoid_rewrite unmark_lookup. destruct (decide (p ∈ past)); [|tauto].
  split; [by intros (? & ? & _)|tauto].
Qed.

Lemma due_spec p : p ∈ due <->
  p ∉ past /\ exists since, releasing r !! p = Some since /\ disown_grace <= saturating_sub (ti_now_due ti) since.
Proof.
  rewrite list_elem_of_filter, expired_r1. destruct (from_iter_spec past past_u16) as [_ Hm]. split; [tauto|].
  intros (Hp & since & Hs & Hg). split; [|eauto]. rewrite contains_not_mem, Hm by eauto. done.
Qed.

Abbreviation acked := (acked_by_part (ov_granularity view) (ti_acked ti)).
Abbreviation confirmed := (owners_needing_confirmation view (hand_off_owners view self_node due (ti_live ti)) due ∅ acked).
Abbreviation missing := (list_to_set (filter (fun owner => owner <> self_node /\ owner ∉ ti_live ti) (due ≫= owners_of view)) : gset Z).
Abbreviation overdue := (PartSet.from_iter (expired r1 (ti_now_overdue ti) (duration_mul disown_grace 2))).

Lemma overdue_spec p : is_u16 p -> p ∉ past -> PartSet.contains overdue p = true <->
  exists since, releasing r !! p = Some since /\ duration_mul disown_grace 2 <= saturating_sub (ti_now_overdue ti) since.
Proof.
  intros Hp Hpast. destruct (from_iter_spec (expired r1 (ti_now_overdue ti) (duration_mul disown_grace 2))) as [_ Hm].
  { intros q Hq. apply expired_r1 in Hq as (_ & since & Hs & _). eauto. }
  rewrite contains_mem, Hm, expired_r1 by done. tauto.
Qed.

Lemma release_tick_eq : let '(reconciled, unreachable) := foldl (confirm (ti_round ti)) (∅, missing) confirmed in
  release_tick r self_node disown_grace cutoff ti =
  (past, if view_moved view (ti_current ti) then []
         else parts_to_release view self_node due overdue reconciled acked unreachable).
Proof.
  destruct (foldl _ _ confirmed) as [rec unr] eqn:Ef. unfold release_tick. cbv zeta. rewrite Ef.
  case_bool_decide as Hd; [|by destruct (view_moved _ _)]. rewrite Hd. by destruct (view_moved _ _).
Qed.

Lemma released_spec p : p ∈ (release_tick r self_node disown_grace cutoff ti).2 <->
  view_moved view (ti_current ti) = false /\ p ∈ due /\ owns view p = false /\
  forall o, o ∈ owners_of view p -> o <> self_node ->
    (o ∈ confirmed /\ ti_round ti o = Reconciled) \/ has_acked acked p o = true \/
    (PartSet.contains overdue p = true /\ (o ∈ missing \/ (o ∈ confirmed /\ ti_round ti o = RFailed))).
Proof.
  pose proof release_tick_eq as He. pose proof (confirm_spec (ti_round ti) confirmed ∅ missing) as Hc.
  destruct (foldl _ _ confirmed) as [rec unr]. destruct Hc as [Hrec Hunr]. rewrite He. cbn [snd].
  destruct (view_moved view (ti_current ti)); [set_solver|].
  unfold parts_to_release. rewrite list_elem_of_filter, andb_true_iff, negb_true_iff, forallb_forall.
  setoid_rewrite <-list_elem_of_In. setoid_rewrite orb_true_iff. setoid_rewrite orb_true_iff. setoid_rewrite orb_true_iff.
  setoid_rewrite andb_true_iff. setoid_rewrite bool_decide_eq_true. setoid_rewrite Hrec. setoid_rewrite Hunr.
  split.
  - intros [[Ho Hall] Hd]. split_and!; [done..|]. intros o Hin Hne. destruct (Hall o Hin) as [[[?|[?|?]]|?]|?]; set_solver.
  - intros (_ & Hd & Ho & Hall). split; [|done]. split; [done|]. intros o Hin. destruct (decide (o = self_node)); [tauto|].
    destruct (Hall o Hin) as [?|[?|?]]; tauto.
Qed.

Lemma handed_off_spec p : p ∈ (release_tick r self_node disown_grace cutoff ti).2 ->
  ov_view_hash view = ov_view_hash (ti_current ti) /\ p ∉ past /\ owns view p = false /\
  (exists since, releasing r !! p = Some since /\ disown_grace <= saturating_sub (ti_now_due ti) since) /\
  forall o, o ∈ owners_of view p -> o <> self_node -> answered ti p o \/ given_up r disown_grace ti p o.
Proof.
  intros Hp. apply released_spec in Hp as (Hmv & Hd & Ho & Hall). apply due_spec in Hd as [Hnp Hs]. split_and!; try done.
  { unfold view_moved in Hmv. apply negb_false_iff, Z.eqb_eq in Hmv. done. }
  intros o Hin Hne. destruct (Hall o Hin Hne) as [[Hc Hr]|[Ha|[Hover Hun]]].
  - left. left. split; [|done]. apply needs_confirmation_spec in Hc as [Hc _]. by apply hand_off_owners_spec in Hc as (_ & ? & _).
  - left. right. by apply acked_by_part_spec.
  - right. destruct Hs as (since & Hs & Hg). rewrite overdue_spec in Hover; [|by eapply Hu|exact Hnp]. split; [done|].
    destruct Hun as [Hun|[_ Hun]]; [left|by right]. apply elem_of_list_to_set, list_elem_of_filter in Hun. tauto.
Qed.

End Release.

(** C22: a tick's release is safe and makes progress. The parts dropped without a hand-off are
    exactly those past the cutoff the node does not own. A part dropped after one is past its
    grace and not owned, under a view that did not move during the rounds, and each other owner
    of it has answered for it or is given up on: not live or failed in its round, with the part
    overdue by twice the grace. So before that an unanswering owner keeps the part, and from
    then on only an owner that is live and whose round did not fail does. And when every owner
    of a due part is live and its round reconciles, the part is dropped. *)
Theorem release_waits_for_every_owner (r : ResidencySet) (self_node : NodeId) (disown_grace cutoff : Z) (ti : TickInput)
  (Hu : forall p since, releasing r !! p = Some since -> is_u16 p) :
  let '(at_once, handed_off) := release_tick r self_node disown_grace cutoff ti in
  (forall p, p ∈ at_once <-> owns (ti_start ti) p = false /\
     exists since, releasing r !! p = Some since /\ cutoff <= saturating_sub (ti_now_cutoff ti) since) /\
  (forall p, p ∈ handed_off ->
     ov_view_hash (ti_view ti) = ov_view_hash (ti_current ti) /\ p ∉ at_once /\ owns (ti_view ti) p = false /\
     (exists since, releasing r !! p = Some since /\ disown_grace <= saturating_sub (ti_now_due ti) since) /\
     forall o, o ∈ owners_of (ti_view ti) p -> o <> self_node -> answered ti p o \/ given_up r disown_grace ti p o) /\
  (forall p o since, releasing r !! p = Some since -> o ∈ owners_of (ti_view ti) p -> o <> self_node -> ~ answered ti p o ->
     saturating_sub (ti_now_overdue ti) since < duration_mul disown_grace 2 \/ (o ∈ ti_live ti /\ ti_round ti o <> RFailed) ->
     p ∉ handed_off) /\
  (forall p since, releasing r !! p = Some since -> disown_grace <= saturating_sub (ti_now_due ti) since ->
     p ∉ at_once -> owns (ti_view ti) p = false -> ov_view_hash (ti_view ti) = ov_view_hash (ti_current ti) ->
     (forall o, o ∈ owners_of (ti_view ti) p -> o <> self_node -> o ∈ ti_live ti /\ ti_round ti o = Reconciled) ->
     p ∈ handed_off).
Proof.
  pose proof (released_spec r self_node disown_grace cutoff ti Hu) as Hrel.
  pose proof (handed_off_spec r self_node disown_grace cutoff ti Hu) as Hsafe.
  pose proof (release_tick_eq r self_node disown_grace cutoff ti) as He.
  assert (Hpast : (release_tick r self_node disown_grace cutoff ti).1 = not_owned (ti_start ti) (expired r (ti_now_cutoff ti) cutoff)).
  { destruct (foldl _ _ _) as [rec unr]. by rewrite He. }
  clear He. destruct (release_tick r self_node disown_grace cutoff ti) as [at_once handed]. cbn [fst snd] in Hpast, Hrel, Hsafe. subst at_once.
  split_and!.
  - intros p. unfold not_owned. rewrite list_elem_of_filter, expired_spec. tauto.
  - done.
  - intros p o since Hs Hin Hne Hna Hwait Hp. apply Hsafe in Hp as (_ & _ & _ & _ & Hall).
    destruct (Hall o Hin Hne) as [?|[(since' & Hs' & Hg) Hun]]; [done|]. simplify_eq. destruct Hwait as [?|[Hl Hr]]; [lia|].
    by destruct Hun.
  - intros p since Hs Hg Hnp Ho Hh Hall. apply Hrel. assert (Hd : p ∈ filter (fun part => PartSet.contains (PartSet.from_iter
      (not_owned (ti_start ti) (expired r (ti_now_cutoff ti) cutoff))) part = false)
      (expired (unmark r (not_owned (ti_start ti) (expired r (ti_now_cutoff ti) cutoff))) (ti_now_due ti) disown_grace)).
    { apply (due_spec r disown_grace cutoff ti Hu). eauto. }
    split_and!; [|done|done|].
    { unfold view_moved. apply negb_false_iff, Z.eqb_eq. done. }
    intros o Hin Hne. destruct (Hall o Hin Hne) as [Hl Hr].
    destruct (has_acked (acked_by_part (ov_granularity (ti_view ti)) (ti_acked ti)) p o) eqn:Ea; [tauto|]. left. split; [|done].
    apply needs_confirmation_spec. split; [|eauto]. apply hand_off_owners_spec. eauto.
Qed.

(** ** Grouping and handing over *)

Section Grouping.
Context {K V : Type} `{!EqDecision K}.

Definition group_add (groups : list (K * list V)) (kv : K * list V) : list (K * list V) :=
  match list_find (fun g => g.1 = kv.1) groups with
  | Some (at_, _) => alter (fun g => (g.1, g.2 ++ kv.2)) at_ groups
  | None => groups ++ [kv]
  end.

Definition in_group (groups : list (K * list V)) (k : K) (v : V) : Prop := exists vs, (k, vs) ∈ groups /\ v ∈ vs.

Lemma in_group_nil k v : ~ in_group [] k v.
Proof. intros (vs & Hin & _). by apply elem_of_nil in Hin. Qed.

Lemma in_group_cons kv groups k v : in_group (kv :: groups) k v <-> (k = kv.1 /\ v ∈ kv.2) \/ in_group groups k v.
Proof.
  unfold in_group. setoid_rewrite elem_of_cons. destruct kv as [k0 vs0]. cbn. split.
  - intros (vs & [Heq|Hin] & Hv); [left; by simplify_eq|right; eauto].
  - intros [[-> Hv]|(vs & Hin & Hv)]; eauto.
Qed.

Lemma group_add_spec groups kv : NoDup groups.*1 ->
  NoDup (group_add groups kv).*1 /\ forall k v, in_group (group_add groups kv) k v <-> in_group groups k v \/ (k = kv.1 /\ v ∈ kv.2).
Proof.
  intros Hnd. unfold group_add. destruct (list_find _ groups) as [[i g]|] eqn:E.
  - apply list_find_Some in E as (Hi & Hk & _). split.
    + enough ((alter (fun g => (g.1, g.2 ++ kv.2)) i groups).*1 = groups.*1) as -> by done.
      apply list_eq. intros j. rewrite !list_lookup_fmap, list_lookup_alter. destruct (decide (i = j)) as [->|]; [|done].
      destruct (groups !! j) as [[k0 vs0]|]; reflexivity.
    + intros k v. unfold in_group. split.
      * intros (vs & Hin & Hv). apply list_elem_of_lookup in Hin as (j & Hj). rewrite list_lookup_alter in Hj.
        destruct (decide (i = j)) as [->|].
        -- rewrite Hi in Hj. cbn in Hj. simplify_eq Hj. intros <- <-. apply elem_of_app in Hv as [Hv|Hv]; [|by right].
           left. exists g.2. split; [|done]. apply list_elem_of_lookup. exists j. rewrite Hi. by destruct g.
        -- left. exists vs. split; [|done]. apply list_elem_of_lookup. by exists j.
      * intros [(vs & Hin & Hv)|[-> Hv]].
        -- apply list_elem_of_lookup in Hin as (j & Hj). destruct (decide (i = j)) as [->|Hne].
           ++ rewrite Hi in Hj. simplify_eq Hj. intros ->. exists (vs ++ kv.2). split; [|apply elem_of_app; by left].
              apply list_elem_of_lookup. exists j. by rewrite list_lookup_alter_eq, Hi.
           ++ exists vs. split; [|done]. apply list_elem_of_lookup. exists j. by rewrite list_lookup_alter_ne.
        -- exists (g.2 ++ kv.2). split; [|apply elem_of_app; by right]. apply list_elem_of_lookup. exists i.
           rewrite list_lookup_alter_eq, Hi. cbn. by rewrite Hk.
  - apply list_find_None in E. split.
    + rewrite fmap_app. apply NoDup_app. split_and!; [done| |apply NoDup_singleton].
      intros k Hk1 Hk2. apply list_elem_of_singleton in Hk2 as ->. apply list_elem_of_fmap in Hk1 as (g & Hg & Hin).
      rewrite Forall_forall in E. by apply (E g Hin).
    + intros k v. unfold in_group. setoid_rewrite elem_of_app. setoid_rewrite list_elem_of_singleton. split.
      * intros (vs & [Hin|Hin] & Hv); [left; eauto|]. right. by subst kv.
      * intros [(vs & Hin & Hv)|[-> Hv]]; [eauto|]. exists kv.2. split; [|done]. right. by destruct kv.
Qed.

Lemma group_in_order_spec (items : list (K * list V)) : NoDup (group_in_order items).*1 /\
  forall k v, in_group (group_in_order items) k v <-> in_group items k v.
Proof.
  unfold group_in_order. change (fun groups kv => _) with group_add.
  enough (Hg : forall acc, NoDup acc.*1 -> NoDup (foldl group_add acc items).*1 /\
    forall k v, in_group (foldl group_add acc items) k v <-> in_group acc k v \/ in_group items k v).
  { destruct (Hg [] (NoDup_nil_2)) as [H1 H2]. split; [done|]. intros k v. rewrite H2. pose proof (in_group_nil k v). tauto. }
  induction items as [|kv items IH]; intros acc Hnd; cbn [foldl]; [split; [done|]; intros k v; pose proof (in_group_nil k v); tauto|].
  destruct (group_add_spec acc kv Hnd) as [H1 H2]. destruct (IH _ H1) as [H3 H4]. split; [done|]. intros k v. rewrite H4, H2, in_group_cons. tauto.
Qed.
End Grouping.

Lemma group_parts_spec view self parts d p : p ∈ parts -> d ∈ owners_of view p -> d <> self ->
  exists donors ps, (donors, ps) ∈ group_parts_by_donor_set view self parts /\ p ∈ ps /\ d ∈ donors /\
    donors = filter (fun n => n <> self) (owners_of view p).
Proof.
  intros Hp Hd Hne. unfold group_parts_by_donor_set.
  destruct (group_in_order_spec ((fun part => (owners_of view part, [part])) <$> parts)) as [_ H1].
  set (by_owners := group_in_order _) in *.
  destruct (group_in_order_spec ((fun g : DonorGroup => (filter (fun n => n <> self) g.1, g.2)) <$> by_owners)) as [_ H2].
  assert (Hin : in_group by_owners (owners_of view p) p).
  { apply H1. exists [p]. split; [|by apply list_elem_of_singleton]. apply list_elem_of_fmap. by exists p. }
  destruct Hin as (ps & Hps & Hin).
  assert (Hg : in_group ((fun g : DonorGroup => (filter (fun n => n <> self) g.1, g.2)) <$> by_owners)
    (filter (fun n => n <> self) (owners_of view p)) p).
  { exists ps. split; [|done]. apply list_elem_of_fmap. by exists (owners_of view p, ps). }
  apply H2 in Hg as (ps' & Hin' & Hp'). exists (filter (fun n => n <> self) (owners_of view p)), ps'. split_and!; try done.
  by apply list_elem_of_filter.
Qed.

Lemma push_targets_spec view self parts : NoDup (push_targets view self parts).*1 /\
  forall o p, in_group (push_targets view self parts) o p <-> p ∈ parts /\ o ∈ owners_of view p /\ o <> self.
Proof.
  assert (Hin : forall owners part acc, NoDup acc.*1 ->
    let l := foldl (fun targets owner => if bool_decide (owner = self) then targets else push_target targets owner part) acc owners in
    NoDup l.*1 /\ forall o p, in_group l o p <-> in_group acc o p \/ (p = part /\ o ∈ owners /\ o <> self)).
  { intros owners part. induction owners as [|x owners IH]; intros acc Hnd; cbn [foldl]; [set_solver|].
    case_bool_decide as Hx.
    - destruct (IH acc Hnd) as [H1 H2]. split; [done|]. intros o p. rewrite H2, elem_of_cons. intuition congruence.
    - change (push_target acc x part) with (group_add acc (x, [part])).
      destruct (group_add_spec acc (x, [part]) Hnd) as [H1 H2]. destruct (IH _ H1) as [H3 H4]. split; [done|].
      intros o p. rewrite H4, H2, elem_of_cons. cbn. rewrite list_elem_of_singleton. intuition congruence. }
  unfold push_targets.
  enough (Hg : forall acc, NoDup acc.*1 ->
    let l := foldl (fun targets part => foldl (fun targets owner => if bool_decide (owner = self) then targets
      else push_target targets owner part) targets (owners_of view part)) acc parts in
    NoDup l.*1 /\ forall o p, in_group l o p <-> in_group acc o p \/ (p ∈ parts /\ o ∈ owners_of view p /\ o <> self)).
  { destruct (Hg [] NoDup_nil_2) as [H1 H2]. split; [done|]. intros o p. rewrite H2. pose proof (in_group_nil (V := PartId) o p). tauto. }
  induction parts as [|x parts IH]; intros acc Hnd; cbn [foldl]; [set_solver|].
  destruct (Hin (owners_of view x) x acc Hnd) as [H1 H2]. destruct (IH _ H1) as [H3 H4]. split; [done|].
  intros o p. rewrite H4, H2, elem_of_cons. naive_solver.
Qed.

(** No part a node loses is out of its new owners' reach: each of them owned the part
    already, or its own pull of the part asks a node that owned it before and still does, or the
    losing node pushes the part to it. The pull is planned by the new owner's own view, which
    names the same owners. *)
Theorem lost_parts_reach_their_new_owners (prev new new' : OwnershipView) (self_node o : NodeId) (lost parts : list PartId) (p : PartId)
  (Hp : p ∈ lost) (Ho : o ∈ owners_of new p) (Hne : o <> self_node) (Hagree : owners_of new' p = owners_of new p)
  (Hparts : p ∈ parts) :
  o ∈ owners_of prev p \/
  (exists d donors ps, d ∈ owners_of prev p /\ d <> self_node /\
     (donors, ps) ∈ group_parts_by_donor_set new' o parts /\ p ∈ ps /\ d ∈ donors) \/
  (exists ps, (o, ps) ∈ push_targets new self_node (unpullable_losses prev new self_node lost) /\ p ∈ ps).
Proof.
  destruct (existsb (fun owner => negb (bool_decide (owner = self_node)) && bool_decide (owner ∈ owners_of prev p)) (owners_of new p)) eqn:E.
  - apply existsb_exists in E as (d & Hd%list_elem_of_In & Hb).
    apply andb_true_iff in Hb as [Hb1%negb_true_iff%bool_decide_eq_false Hb2%bool_decide_eq_true].
    destruct (decide (d = o)) as [->|Hdo]; [by left|]. right. left. rewrite <-Hagree in Hd.
    destruct (group_parts_spec new' o parts d p Hparts Hd Hdo) as (donors & ps & H1 & H2 & H3 & _). by exists d, donors, ps.
  - right. right. apply push_targets_spec. split_and!; [|done|done]. by apply list_elem_of_filter.
Qed.

(** ** Evaluating the statements *)

(** A view at part granularity in which every part up to 63 is owned by [owner]; [parts] is
    what node 7 owns of them. *)
Definition owner_view (hash : Z) (owner : NodeId) (parts : list PartId) : OwnershipView := {|
  ov_view_hash := hash; ov_self_node := 7; ov_eligible := [7; 9]; ov_k := 1; ov_granularity := Part;
  ov_owners := replicate 64 owner; ov_stride := 1; ov_owned := PartSet.from_iter parts; ov_owns_in_bucket := [];
  ov_co_owners := [] |}.

Lemma plan_view_change_exact_witness :
  let plan := plan_view_change (sample_view [5]) (sample_view [5]) (sample_view [6]) [5; 8] PartSet.new in
  vp_lost plan = [5; 8] /\ 6 ∈ vp_to_pull plan.
Proof.
  split; [vm_compute; reflexivity|].
  assert (H5 : view_wf (sample_view [5])) by (apply sample_wf; u16s). assert (H6 : view_wf (sample_view [6])) by (apply sample_wf; u16s).
  assert (Hh : all_u16 [5; 8]) by (intros q Hq; rewrite !elem_of_cons, elem_of_nil in Hq; destruct Hq as [->|[->|[]]]; u16s).
  destruct (plan_view_change_exact (sample_view [5]) (sample_view [5]) (sample_view [6]) [5; 8] PartSet.new H5 H5 H6 Hh (proj1 new_spec))
    as (_ & _ & _ & _ & H). destruct (H 6 ltac:(u16s)) as (_ & _ & Hp & _). apply (proj2 Hp). split; [vm_compute; reflexivity|]. left. vm_compute. reflexivity.
Defined.

(** A donor that finishes part 5 and breaks, then one that sends everything again. *)
Definition sample_pass (ids : list Z) (clean : bool) (hash : Z) : PassInput := {|
  pi_answer := fun _ _ => DaStream ids clean; pi_round := fun _ _ _ => None; pi_replayed := fun _ => false; pi_view_hash := hash |}.

Lemma landed_group_is_served_witness :
  let st := (pull_one_group Part 1 [9] [5; 6] [sample_pass [5] false 1; sample_pass [5; 6] true 1]).1 in
  pu_counted st = 2 /\ 6 ∈ pu_served st.
Proof.
  split; [vm_compute; reflexivity|].
  apply (landed_group_is_served Part 1 [9] [5; 6] [sample_pass [5] false 1; sample_pass [5; 6] true 1] 2);
    [repeat constructor; set_solver|vm_compute; reflexivity|repeat constructor].
Defined.

Lemma pull_ends_when_the_view_moves_witness :
  exists e, (pull_one_group Part 1 [9] [5; 6] [sample_pass [5] false 1; sample_pass [] false 2]).2 = Some e.
Proof.
  apply (pull_ends_when_the_view_moves Part 1 [9] [5; 6]). apply Exists_cons. right. apply Exists_cons. left. discriminate.
Defined.

Lemma release_waits_for_every_owner_witness :
  let r := mark_releasing residency_new 0 [5] in
  let ti := {| ti_start := owner_view 1 9 []; ti_view := owner_view 1 9 []; ti_now_cutoff := 20; ti_now_due := 20; ti_now_overdue := 20;
               ti_live := {[9]}; ti_acked := ∅; ti_round := fun _ => Reconciled; ti_current := owner_view 1 9 [] |} in
  5 ∈ (release_tick r 7 10 100 ti).2.
Proof.
  cbv zeta. set (ti := {| ti_start := _ |}). set (r := mark_releasing _ _ _).
  assert (H : let '(at_once, handed) := release_tick r 7 10 100 ti in _) by (apply (release_waits_for_every_owner r 7 10 100 ti);
    intros p since Hp; assert (p = 5) as -> by (unfold r in Hp; cbn in Hp; apply lookup_insert_Some in Hp as [[<- _]|[_ Hp]]; [done|by rewrite lookup_empty in Hp]); u16s).
  assert (Ha : (release_tick r 7 10 100 ti).1 = []) by (vm_compute; reflexivity).
  destruct (release_tick r 7 10 100 ti) as [at_once handed]. cbn [fst snd] in *. subst at_once. destruct H as (_ & _ & _ & H).
  apply (H 5 0); [vm_compute; reflexivity|vm_compute; discriminate|by apply not_elem_of_nil|vm_compute; reflexivity|reflexivity|].
  assert (Ho : owners_of (ti_view ti) 5 = [9]) by (vm_compute; reflexivity). rewrite Ho.
  intros o Hin _. apply list_elem_of_singleton in Hin as ->. split; [vm_compute; reflexivity|reflexivity].
Defined.

Lemma lost_parts_reach_their_new_owners_witness :
  owners_of (owner_view 1 7 [5]) 5 = [7] /\
  (9 ∈ owners_of (owner_view 1 7 [5]) 5 \/
   (exists d donors ps, d ∈ owners_of (owner_view 1 7 [5]) 5 /\ d <> 7 /\
      (donors, ps) ∈ group_parts_by_donor_set (owner_view 2 9 []) 9 [5] /\ 5 ∈ ps /\ d ∈ donors) \/
   (exists ps, (9, ps) ∈ push_targets (owner_view 2 9 []) 7 (unpullable_losses (owner_view 1 7 [5]) (owner_view 2 9 []) 7 [5]) /\ 5 ∈ ps)).
Proof.
  split; [vm_compute; reflexivity|].
  assert (Ho : owners_of (owner_view 2 9 []) 5 = [9]) by (vm_compute; reflexivity).
  apply (lost_parts_reach_their_new_owners (owner_view 1 7 [5]) (owner_view 2 9 []) (owner_view 2 9 []) 7 9 [5] [5] 5);
    [by apply list_elem_of_singleton|rewrite Ho; by apply list_elem_of_singleton|done|reflexivity|by apply list_elem_of_singleton].
Defined.
