(* ===== verification/RebalanceTask.v ===== *)
(** * RebalanceTask: the rebalance task and the residency it drives

    The view-change arm of [rebalance_task] ([cluster/rebalance.rs]) as a machine over the
    residency of [Residency], interleaved with everything else that touches it, and what the
    composition guarantees to reads. *)

From S2P Require Import Prelude Clock Part Types Ownership Residency Rebalance.

(** ** The task and the residency it drives

    The view-change arm of [rebalance_task] as a machine whose residency calls interleave with
    everything else that touches the residency: [refresh_task] publishing views, pulls and
    warm-ups marking parts serving, ticks. [Borrowed] holds the view read from the watch channel,
    [Taken] the parts to pull again, [Marking] the residency calls still to make. *)

Inductive Phase :=
  | Idle
  | Borrowed (new : OwnershipView)
  | Taken (new : OwnershipView) (repull : PartSet)
  | Marking (new : OwnershipView) (to_pull : list PartId) (pending : list Event)
  | Pulling (new : OwnershipView) (planned : list PartId).

Record Task := { tk_prev : OwnershipView; tk_pulled : OwnershipView; tk_unfinished : PartSet; tk_phase : Phase }.

Definition with_phase (tk : Task) (ph : Phase) : Task := {|
  tk_prev := tk_prev tk; tk_pulled := tk_pulled tk; tk_unfinished := tk_unfinished tk; tk_phase := ph |}.

(** The residency calls a plan makes, in their order. *)
Definition change_marks (plan : ViewChangePlan) (alone : list PartId) (now : Z) : list Event :=
  (if bool_decide (alone = []) then [] else [EvServe None alone]) ++
  (if bool_decide (vp_lost plan = []) then [] else [EvReleasing now (vp_lost plan)]) ++
  (if bool_decide (vp_regained plan = []) then [] else [EvUnmark (vp_regained plan)]) ++
  (if bool_decide (vp_to_pull plan = []) then [] else [EvCold (vp_to_pull plan); EvStale (vp_stale plan)]).

(** [attach_ownership] of [cache/open.rs]: what a cache's residency starts from. *)
Definition open_cold (seed : OwnershipView) : list PartId :=
  filter (fun part => (1 < length (owners_of seed part))%nat) (owned_parts seed).
Definition open_events (seed : OwnershipView) : list Event := [EvCold (open_cold seed); EvSettle seed].
Definition task_new (seed : OwnershipView) : Task := {|
  tk_prev := seed; tk_pulled := seed; tk_unfinished := PartSet.new; tk_phase := Idle |}.

Definition environment (ev : Event) : Prop := match ev with EvSettle _ | EvTakeLost => False | _ => True end.

Section Task.
Context {HS : Hashing} (seed : OwnershipView).

Definition alone_parts (new : OwnershipView) (absent : list NodeId) : list PartId :=
  sole_owned new (filter (fun part => length (owners_of new part) = 1%nat) (owned_parts new)) absent.

Inductive task_step : list Event * Task -> list Event * Task -> Prop :=
  | TsEnvironment tr tk ev : environment ev -> ev_parts ev -> ev_ok seed tr ev -> task_step (tr, tk) (tr ++ [ev], tk)
  | TsUnfinished tr tk unfinished : wf unfinished ->
      task_step (tr, tk) (tr, {| tk_prev := tk_prev tk; tk_pulled := tk_pulled tk; tk_unfinished := unfinished; tk_phase := tk_phase tk |})
  | TsBorrow tr tk : tk_phase tk = Idle -> published tr <> [] ->
      task_step (tr, tk) (tr, with_phase tk (Borrowed (w_view (seeded seed tr))))
  | TsTake tr tk new : tk_phase tk = Borrowed new ->
      task_step (tr, tk) (tr ++ [EvTakeLost],
        with_phase tk (Taken new (PartSet.extend (take_lost (w_res (seeded seed tr))).2 (PartSet.iter (tk_unfinished tk)))))
  | TsPlan tr tk new repull held absent now : tk_phase tk = Taken new repull -> all_u16 held ->
      let plan := plan_view_change (tk_prev tk) (tk_pulled tk) new held repull in
      task_step (tr, tk) (tr,
        {| tk_prev := new; tk_pulled := tk_pulled tk; tk_unfinished := tk_unfinished tk;
           tk_phase := Marking new (vp_to_pull plan) (change_marks plan (alone_parts new absent) now) |})
  | TsMark tr tk new to_pull ev pending : tk_phase tk = Marking new to_pull (ev :: pending) ->
      task_step (tr, tk) (tr ++ [ev], with_phase tk (Marking new to_pull pending))
  | TsPull tr tk new to_pull : tk_phase tk = Marking new to_pull [] -> task_step (tr, tk) (tr, with_phase tk (Pulling new to_pull))
  | TsFinish tr tk new planned (outcome : Outcome) : tk_phase tk = Pulling new planned ->
      let unfinished := still_cold planned (is_cold (w_res (seeded seed tr))) in
      task_step (tr, tk)
        (if decide (outcome = Superseded)
         then (tr, {| tk_prev := tk_prev tk; tk_pulled := tk_pulled tk; tk_unfinished := unfinished; tk_phase := Idle |})
         else (tr ++ [EvSettle new], {| tk_prev := tk_prev tk; tk_pulled := new; tk_unfinished := unfinished; tk_phase := Idle |})).

(** *** Every part stays accounted for *)

Definition covered (r : ResidencySet) (q : PartId) : Prop :=
  mem (lost (settlement r)) q \/ mem (cold r) q \/
  (exists s, settled (settlement r) = Some s /\ mem s q) \/ mem (served (settlement r)) q.

Definition accounted (tr : list Event) (new : OwnershipView) (D : PartId -> Prop) : Prop :=
  exists tr1 tr2, tr = tr1 ++ tr2 /\ w_view (seeded seed tr1) = new /\
  forall q, is_u16 q -> owns new q = true ->
    D q \/ covered (w_res (seeded seed tr)) q \/ Forall (fun v => owns v q = true) (published tr2).

Lemma publish_covered w v q : sets_wf w -> view_wf v -> is_u16 q ->
  covered (w_res w) q \/ (owns (w_view w) q = true /\ owns v q = false) -> covered (record_published (w_res w) (w_view w) v) q.
Proof.
  intros Hw Hv Hq Hc. set (ds := filter (fun p => owns v p = false) (owned_parts (w_view w))).
  assert (Hds : all_u16 ds) by (apply u16_filter, owned_u16; sets Hw).
  destruct (extend_spec (lost (settlement (w_res w))) ds) as [_ Hl]; [sets Hw|done|].
  assert (Hd : q ∈ ds <-> owns (w_view w) q = true /\ owns v q = false) by (unfold ds; rewrite dropped_spec by sets Hw; tauto).
  destruct (record_published_spec w Hw v Hv) as (_ & _ & Hserved & _).
  unfold covered. rewrite Hserved by done.
  change (lost (settlement (record_published (w_res w) (w_view w) v))) with (PartSet.extend (lost (settlement (w_res w))) ds).
  rewrite Hl, Hd by done. destruct (decide (owns (w_view w) q = true /\ owns v q = false)) as [|Hnd]; [tauto|].
  destruct Hc as [[?|[?|[(s & Hs & Hm)|?]]]|?]; [tauto|tauto| |tauto|tauto]. right. right. left.
  exists (remove_all s ds). split; [cbn; by rewrite Hs|]. apply remove_all_spec; [by apply (sw_settled _ Hw)|done|done|]. rewrite Hd. tauto.
Qed.

Lemma serve_covered w ps more q : sets_wf w -> is_u16 q -> all_u16 ps -> all_u16 more ->
  (q ∈ ps -> q ∈ more \/ exists s, settled (settlement (w_res w)) = Some s /\ mem s q) ->
  covered (w_res w) q -> covered (serve_parts (w_res w) ps more) q.
Proof.
  intros Hw Hq Hps Hmore Hsub Hc. destruct (serve_parts_spec w Hw ps more Hps Hmore) as (_ & H1 & H2 & H3 & _).
  unfold covered. rewrite H1, H2, H3 by done. change (lost (settlement (serve_parts (w_res w) ps more))) with (lost (settlement (w_res w))).
  unfold covered in Hc. destruct (decide (q ∈ ps)) as [Hin|Hin]; [|tauto]. destruct (Hsub Hin); tauto.
Qed.

Lemma covered_step w ev q : sets_wf w -> ev_parts ev -> environment ev -> is_u16 q ->
  settled (settlement (w_res w)) <> None -> covered (w_res w) q -> covered (w_res (ev_step w ev)) q.
Proof.
  intros Hw Hev Henv Hq Hset Hc. destruct ev as [v|v| |id|pull ps| | |ps|ps|ps|t ps|ps]; cbn [ev_parts environment] in Hev, Henv; try done.
  - apply publish_covered; [done|done|done|tauto].
  - apply serve_covered; try done; [by apply u16_filter|by apply u16_filter|tauto].
  - cbn [ev_step w_res]. unfold mark_all_serving.
    set (all := filter (fun p => settlement_owns (settlement (w_res w)) p = true) Pid.all).
    assert (Hall : all_u16 all) by (apply u16_filter; intros p; apply all_parts). clearbody all.
    destruct (settled (settlement (w_res w))) as [s|] eqn:Es; [|done].
    apply serve_covered; try done; [by apply u16_filter|]. intros Hin. destruct (PartSet.contains s q) eqn:Ec.
    + right. exists s. split; [done|]. by apply contains_mem.
    + left. by apply list_elem_of_filter.
  - unfold covered in *. cbn [ev_step mark_cold with_marks w_res cold settlement]. destruct (extend_spec (cold (w_res w)) ps) as [_ Hx]; [sets Hw|done|].
    rewrite Hx by done. tauto.
Qed.

Lemma settled_stays w ev : settled (settlement (w_res w)) <> None -> settled (settlement (w_res (ev_step w ev))) <> None.
Proof. destruct ev; cbn; try done. by destruct (settled _). Qed.

Lemma covered_cold tr tp q : sets_wf (seeded seed tr) -> all_u16 tp -> q ∈ tp -> is_u16 q ->
  covered (w_res (seeded seed (tr ++ [EvCold tp]))) q.
Proof.
  intros Hw Htp Hin Hq. rewrite seeded_snoc. right. left. cbn. destruct (extend_spec (cold (w_res (seeded seed tr))) tp) as [_ Hx]; [sets Hw|done|].
  apply Hx; auto.
Qed.

Lemma accounted_step tr new (D D' : PartId -> Prop) ev : view_wf seed -> History seed tr ->
  settled (settlement (w_res (seeded seed tr))) <> None -> ev_parts ev -> environment ev ->
  (forall q, is_u16 q -> D q -> D' q \/ covered (w_res (seeded seed (tr ++ [ev]))) q) ->
  accounted tr new D -> accounted (tr ++ [ev]) new D'.
Proof.
  intros Hseed Hh Hset Hev Henv HD (tr1 & tr2 & Htr & Hv & Hall).
  pose proof (seeded_wf seed Hseed tr (history_parts _ _ Hh)) as Hw.
  exists tr1, (tr2 ++ [ev]). split_and!; [by rewrite Htr, app_assoc|done|]. intros q Hq Ho.
  destruct (Hall q Hq Ho) as [Hd|[Hc|Hf]]; [destruct (HD q Hq Hd); tauto| |].
  - right. left. rewrite seeded_snoc. by apply covered_step.
  - rewrite published_app, Forall_app. destruct ev as [v|v| |id|pull ps| | |ps|ps|ps|t ps|ps]; try (right; right; split; [done|apply Forall_nil_2]).
    change (published [EvPublish v]) with [v]. rewrite Forall_singleton. destruct (owns v q) eqn:Ev; [tauto|]. right. left.
    rewrite seeded_snoc. apply publish_covered; [done|done|done|]. right. split; [|done]. rewrite Htr. apply last_view; [by rewrite Hv|done].
Qed.

Lemma accounted_settles tr new : view_wf seed -> History seed tr -> settled (settlement (w_res (seeded seed tr))) <> None ->
  accounted tr new (fun _ => False) -> settle_ok seed tr new.
Proof.
  intros Hseed Hh Hset (tr1 & tr2 & Htr & Hv & Hall). exists tr1, tr2. split_and!; [done|done|]. intros q Hq Ho.
  destruct (Hall q Hq Ho) as [[]|[Hc|Hf]]; [|tauto]. destruct (settled (settlement (w_res (seeded seed tr)))) as [s|] eqn:Es; [|done].
  destruct (PartSet.contains (cold (w_res (seeded seed tr))) q) eqn:Ec; [right; left; by apply contains_mem|].
  apply contains_not_mem in Ec. unfold trusted. destruct Hc as [?|[?|[(s' & Hs' & Hm)|?]]]; [tauto|tauto| |]; right; right; left; exists s.
  - rewrite Es in Hs'. simplify_eq Hs'. intros ->. tauto.
  - tauto.
Qed.

(** *** Phases *)

Definition mark_event (ev : Event) : Prop :=
  match ev with EvServe None _ | EvReleasing _ _ | EvUnmark _ | EvCold _ | EvStale _ => True | _ => False end.

Definition phase_inv (tr : list Event) (ph : Phase) : Prop :=
  match ph with
  | Idle => True
  | Borrowed new => published tr <> [] /\ view_wf new /\ accounted tr new (fun _ => False)
  | Taken new repull => published tr <> [] /\ view_wf new /\ wf repull /\ accounted tr new (mem repull)
  | Marking new to_pull pending =>
      published tr <> [] /\ view_wf new /\ all_u16 to_pull /\ Forall (fun ev => mark_event ev /\ ev_parts ev) pending /\
      accounted tr new (fun q => q ∈ to_pull /\ EvCold to_pull ∈ pending)
  | Pulling new planned => published tr <> [] /\ view_wf new /\ all_u16 planned /\ accounted tr new (fun _ => False)
  end.

Record task_inv (tr : list Event) (tk : Task) : Prop := {
  ti_history : History seed tr;
  ti_settled : settled (settlement (w_res (seeded seed tr))) <> None;
  ti_unfinished : wf (tk_unfinished tk);
  ti_phase : phase_inv tr (tk_phase tk);
}.

Context (Hseed : view_wf seed).

Lemma seeded_view_wf tr : History seed tr -> view_wf (w_view (seeded seed tr)).
Proof. intros Hh. exact (sw_view _ (seeded_wf seed Hseed tr (history_parts _ _ Hh))). Qed.

Lemma open_inv : task_inv (open_events seed) (task_new seed).
Proof.
  set (cold := open_cold seed).
  assert (H1 : History seed [EvCold cold]).
  { apply (History_step _ []); [constructor|by apply u16_filter, owned_u16|done]. }
  split; [|done|apply new_spec|done].
  apply (History_step _ [EvCold cold]); [done|done|]. exists [EvCold cold], []. split_and!; [done|done|].
  intros q _ _. right. right. right. apply Forall_nil_2.
Qed.

(** An environment or marking event keeps whatever phase the task is in. *)
Lemma phase_step tr ph ev : History seed tr -> settled (settlement (w_res (seeded seed tr))) <> None ->
  ev_parts ev -> environment ev -> phase_inv tr ph -> phase_inv (tr ++ [ev]) ph.
Proof.
  intros Hh Hset Hev Henv.
  assert (Hpub : published tr <> [] -> published (tr ++ [ev]) <> []).
  { rewrite published_app. by destruct (published tr). }
  assert (Hacc : forall new D, accounted tr new D -> accounted (tr ++ [ev]) new D) by (intros new D; apply accounted_step; auto).
  destruct ph; cbn; naive_solver.
Qed.

Lemma history_snoc tr ev : History seed tr -> settled (settlement (w_res (seeded seed tr))) <> None -> ev_parts ev ->
  ev_ok seed tr ev -> History seed (tr ++ [ev]) /\ settled (settlement (w_res (seeded seed (tr ++ [ev])))) <> None.
Proof. intros Hh Hset Hev Hok. split; [by apply History_step|]. rewrite seeded_snoc. by apply settled_stays. Qed.

Lemma mark_event_ok tr ev : mark_event ev -> published tr <> [] -> environment ev /\ ev_ok seed tr ev.
Proof. destruct ev as [| | | |[]| | | | | | |]; cbn; try done; auto. Qed.

Lemma alone_u16 new absent : view_wf new -> all_u16 (alone_parts new absent).
Proof.
  intros Hv. unfold alone_parts, sole_owned.
  assert (Hf : all_u16 (filter (fun part => length (owners_of new part) = 1%nat) (owned_parts new))) by (by apply u16_filter, owned_u16).
  destruct (widened new absent); [by apply u16_filter|done].
Qed.

Lemma taken_accounted tr new unfinished : History seed tr -> settled (settlement (w_res (seeded seed tr))) <> None -> wf unfinished ->
  accounted tr new (fun _ => False) ->
  let repull := PartSet.extend (take_lost (w_res (seeded seed tr))).2 (PartSet.iter unfinished) in
  wf repull /\ accounted (tr ++ [EvTakeLost]) new (mem repull).
Proof.
  intros Hh Hset Hu (tr1 & tr2 & Htr & Hv & Hall). cbv zeta.
  pose proof (seeded_wf seed Hseed tr (history_parts _ _ Hh)) as Hw.
  destruct (extend_spec (lost (settlement (w_res (seeded seed tr)))) (PartSet.iter unfinished)) as [Hwf Hm];
    [sets Hw|intros p; by apply PartSet.iter_u16|]. split; [done|].
  exists tr1, (tr2 ++ [EvTakeLost]). split_and!; [by rewrite Htr, app_assoc|done|]. intros q Hq Ho.
  rewrite published_app. cbn [published omap list_omap]. rewrite app_nil_r, seeded_snoc.
  change (take_lost (w_res (seeded seed tr))).2 with (lost (settlement (w_res (seeded seed tr)))). rewrite Hm by done.
  destruct (Hall q Hq Ho) as [[]|[Hc|Hf]]; [|tauto]. destruct Hc as [?|Hc]; [tauto|]. right. left. by right.
Qed.

Lemma cold_marks plan alone now : vp_to_pull plan <> [] -> EvCold (vp_to_pull plan) ∈ change_marks plan alone now.
Proof.
  intros Hne. unfold change_marks. rewrite !elem_of_app. right. right. right. rewrite bool_decide_false by done. left.
Qed.

Lemma change_marks_ok prev pulled new held repull absent now : view_wf prev -> view_wf new -> all_u16 held -> wf repull ->
  Forall (fun ev => mark_event ev /\ ev_parts ev)
    (change_marks (plan_view_change prev pulled new held repull) (alone_parts new absent) now).
Proof.
  intros Hprev Hnew Hheld Hrep. set (plan := plan_view_change _ _ _ _ _).
  destruct (to_pull_spec prev pulled new held repull Hnew Hrep) as (_ & HP & _).
  destruct (diff_spec new prev Hprev) as (Hl1 & Hl2 & _). destruct (diff_spec prev new Hnew) as (_ & Hr & _).
  destruct (fresh_app _ (filter (fun p => owns new p = false) held) Hl1 Hl2 (u16_filter (fun p => owns new p = false) _ Hheld)) as (_ & HL & _).
  assert (HS' : all_u16 (vp_stale plan)) by (by apply u16_filter). pose proof (alone_u16 new absent Hnew) as HA.
  unfold change_marks. rewrite !Forall_app. split_and!; case_bool_decide; repeat (constructor; [done|]); constructor.
Qed.

Lemma task_step_inv tr tk tr' tk' : task_step (tr, tk) (tr', tk') -> task_inv tr tk -> view_wf (tk_prev tk) ->
  task_inv tr' tk' /\ view_wf (tk_prev tk').
Proof.
  intros Hstep [Hh Hset Hu Hph] Hprev. inversion Hstep; subst; clear Hstep.
  - destruct (history_snoc tr ev) as [H1 H2]; [done..|]. split; [|done]. split; [done|done|done|by apply phase_step].
  - split; [|done]. split; cbn; done.
  - split; [|done]. split; cbn; try done. split_and!; [done|by apply seeded_view_wf|].
    exists tr', []. rewrite app_nil_r. split_and!; [done|done|]. intros q _ _. right. right. apply Forall_nil_2.
  - rename select (tk_phase tk = _) into Heq. rewrite Heq in Hph. destruct Hph as (Hpub & Hv & Hacc).
    destruct (history_snoc tr EvTakeLost) as [H1 H2]; [done..|].
    destruct (taken_accounted tr new (tk_unfinished tk)) as [H3 H4]; [done..|].
    split; [|done]. split; cbn [tk_unfinished tk_phase with_phase]; [done|done|done|]. split_and!; [|done|done|done].
    rewrite published_app. by destruct (published tr).
  - rename select (tk_phase tk = _) into Heq. rewrite Heq in Hph. destruct Hph as (Hpub & Hv & Hwf & tr1 & tr2 & Htr & Hcur & Hall).
    split; [|done]. split; cbn [tk_unfinished tk_phase]; [done|done|done|]. destruct (to_pull_spec (tk_prev tk) (tk_pulled tk) new held repull Hv Hwf) as (_ & HP16 & HP).
    split_and!; [done|done|done|by apply change_marks_ok|]. exists tr1, tr2. split_and!; [done|done|]. intros q Hq Ho. destruct (Hall q Hq Ho) as [Hm|[?|?]]; [|tauto|tauto]. left.
    assert (Hin : q ∈ vp_to_pull (plan_view_change (tk_prev tk) (tk_pulled tk) new held repull)) by (apply HP; tauto).
    split; [done|]. apply (cold_marks plan). intros Hnil. unfold plan in Hnil. rewrite Hnil in Hin. by apply elem_of_nil in Hin.
  - rename select (tk_phase tk = _) into Heq. rewrite Heq in Hph. destruct Hph as (Hpub & Hv & H16 & Hpend & Hacc).
    apply Forall_cons in Hpend as [[Hmk Hev] Hpend]. destruct (mark_event_ok tr ev Hmk Hpub) as [Henv Hok].
    destruct (history_snoc tr ev) as [H1 H2]; [done..|]. split; [|done]. split; cbn [tk_unfinished tk_phase with_phase]; [done|done|done|].
    split_and!; [rewrite published_app; by destruct (published tr)|done|done|done|].
    refine (accounted_step tr new _ _ ev Hseed Hh Hset Hev Henv _ Hacc). intros q Hq [Hin Hcold]. apply elem_of_cons in Hcold as [<-|Hcold]; [|tauto]. right.
    apply covered_cold; [apply seeded_wf; [done|by eapply history_parts]|done|done|done].
  - rename select (tk_phase tk = _) into Heq. rewrite Heq in Hph. destruct Hph as (Hpub & Hv & H16 & _ & tr1 & tr2 & Htr & Hcur & Hall).
    split; [|done]. split; cbn [tk_unfinished tk_phase with_phase]; [done|done|done|]. split_and!; [done|done|done|].
    exists tr1, tr2. split_and!; [done|done|]. intros q Hq Ho. destruct (Hall q Hq Ho) as [[_ Hbad]|?]; [by apply elem_of_nil in Hbad|tauto].
  - rename select (tk_phase tk = _) into Heq. rewrite Heq in Hph. destruct Hph as (Hpub & Hv & H16 & Hacc).
    assert (Hun : wf unfinished) by (by apply from_iter_spec, u16_filter).
    rename select ((if decide _ then _ else _) = _) into Hres.
    destruct (decide (outcome = Superseded)); simplify_eq Hres; intros <- <-; (split; [|done]).
    + by split.
    + destruct (history_snoc tr (EvSettle new)) as [H1 H2]; [done|done|done|by apply accounted_settles|]. by split.
Qed.

Lemma reachable_inv tr tk : rtc task_step (open_events seed, task_new seed) (tr, tk) -> task_inv tr tk.
Proof.
  intros Hr. enough (task_inv tr tk /\ view_wf (tk_prev tk)) by tauto.
  apply (rtc_ind_r (fun s => task_inv s.1 s.2 /\ view_wf (tk_prev s.2)) (open_events seed, task_new seed)) in Hr; [done| |].
  - split; [apply open_inv|done].
  - intros [tr1 tk1] [tr2 tk2] _ Hs [H1 H2]. by apply (task_step_inv tr1 tk1).
Qed.

End Task.

(** C21: the rebalance task and the residency compose. Suppose that before the first view is
    published nothing but a part the seed view owns is marked serving, and so not all parts at
    once ([ev_ok]); the code does not enforce this of its callers, and the order it leaves out does
    break the conclusion. Then however the task's view changes interleave with views being
    published, pulls and warm-ups marking parts, and ticks, every definitive miss the node answers
    from its own copy is for a part the current view owns and it has owned without a break since
    a moment whose view the task settled or since the part was marked serving. What the task
    settles is its own order of calls, and is proved fit, not assumed. *)
Theorem rebalancing_never_answers_over_a_gap {HS : Hashing} (seed : OwnershipView) (tr : list Event) (tk : Task) (p : PartId) (now : Z)
  (Hseed : view_wf seed) (Hr : rtc (task_step seed) (open_events seed, task_new seed) (tr, tk)) (Hp : is_u16 p) :
  let w := seeded seed tr in
  local_verdict (residency_of (w_res w) p (owns (w_view w) p) now) false = LrMiss ->
  owns (w_view w) p = true /\ backed seed tr p.
Proof.
  cbv zeta. intros Hv. destruct (reachable_inv seed Hseed tr tk Hr) as [Hh Hset _ _].
  apply miss_is_trusted in Hv as [Ho Ht]; [|done]. split; [done|]. by apply trust_is_backed.
Qed.

(** ** Evaluating the statement *)

#[local] Instance sample_hashing : Hashing := {| xxh3_64 := fun _ => 0; postcard_hlc := fun _ => [] |}.

Lemma rebalancing_never_answers_over_a_gap_witness :
  let tr := open_events (sample_view [5]) ++ [EvPublish (sample_view [5; 6])] in
  local_verdict (residency_of (w_res (seeded (sample_view [5]) tr)) 5 (owns (w_view (seeded (sample_view [5]) tr)) 5) 0) false = LrMiss /\
  backed (sample_view [5]) tr 5.
Proof.
  assert (H5 : view_wf (sample_view [5])) by (apply sample_wf; u16s).
  assert (H56 : view_wf (sample_view [5; 6])) by (apply sample_wf; u16s).
  assert (Hv : local_verdict (residency_of (record_published (settle (mark_cold residency_new
      (open_cold (sample_view [5]))) (sample_view [5]))
      (sample_view [5]) (sample_view [5; 6])) 5 (owns (sample_view [5; 6]) 5) 0) false = LrMiss) by (vm_compute; reflexivity).
  refine (conj Hv (proj2 (rebalancing_never_answers_over_a_gap (sample_view [5]) (open_events (sample_view [5]) ++ [EvPublish (sample_view [5; 6])]) (task_new (sample_view [5])) 5 0 H5 _ ltac:(u16s) Hv))).
  apply rtc_once. by apply TsEnvironment.
Defined.
