(* ===== verification/Absence.v ===== *)
(** * Absence: which members hold tombstone collection back

    [cluster/absence.rs] with the deferral decisions of [cluster.rs]. Instants and durations are
    milliseconds; each operation is one critical section and reads the clock once. The member
    map's capacity is not modelled. *)

From S2P Require Import Prelude Clock Part Types Expiry Ownership.

(** ** Definitions *)

(** [LiveFlags] of [membership/mod.rs]. *)
Record LiveFlags := { departing : bool }.

Record MemberRecord := {
  mr_flags : LiveFlags;
  mr_absent_since : option Z;
  mr_gone_since : option Z;
  mr_known_since : option Z;
  mr_present_since : option Z;
  mr_returned_since : option Z;
  mr_back_since : option Z;
}.

Definition default_record : MemberRecord := {|
  mr_flags := {| departing := false |}; mr_absent_since := None; mr_gone_since := None; mr_known_since := None;
  mr_present_since := None; mr_returned_since := None; mr_back_since := None |}.

Definition is_empty (r : MemberRecord) : bool :=
  negb (is_some (mr_absent_since r)) && negb (is_some (mr_gone_since r)) && negb (is_some (mr_known_since r))
  && negb (is_some (mr_present_since r)) && negb (is_some (mr_returned_since r)) && negb (is_some (mr_back_since r)).

Definition older_than (now : Z) (since : option Z) (horizon : Z) : bool :=
  is_some_and since (fun since => horizon <? saturating_sub now since).

Definition forgotten (r : MemberRecord) (now gone back : Z) : MemberRecord :=
  let spent := older_than now (mr_gone_since r) gone in {|
    mr_flags := mr_flags r; mr_absent_since := mr_absent_since r;
    mr_gone_since := if spent then None else mr_gone_since r;
    mr_known_since := if spent then None else mr_known_since r;
    mr_present_since := mr_present_since r; mr_returned_since := mr_returned_since r;
    mr_back_since := if older_than now (mr_back_since r) back then None else mr_back_since r |}.

Record ForgetPolicy := { fp_gone : Z; fp_back : Z; fp_every : Z }.
Definition policy_new (receipt_lifetime transfer_budget gc_period : Z) : ForgetPolicy := {|
  fp_gone := receipt_lifetime; fp_back := Z.max receipt_lifetime transfer_budget; fp_every := gc_period / 2 |}.

Definition forget_is_due (forgot_at : option Z) (now every : Z) : bool :=
  is_none_or forgot_at (fun at_ => every <=? saturating_sub now at_).

Record AbsenceState := { as_members : gmap Z MemberRecord; as_forgot_at : option Z }.
Definition absence_new : AbsenceState := {| as_members := ∅; as_forgot_at := None |}.

(** Records left empty are dropped. *)
Definition update_members (f : MemberRecord -> MemberRecord) (m : gmap Z MemberRecord) : gmap Z MemberRecord :=
  filter (fun kv => is_empty kv.2 = false) (f <$> m).

Definition forget (st : AbsenceState) (now gone back : Z) : AbsenceState := {|
  as_members := update_members (fun r => forgotten r now gone back) (as_members st); as_forgot_at := as_forgot_at st |}.

Definition counts_as_absent (departed_gracefully : bool) : bool := negb departed_gracefully.

(** A live member that dropped out of the live set. *)
Definition depart (now : Z) (r : MemberRecord) : MemberRecord := {|
  mr_flags := mr_flags r;
  mr_absent_since :=
    if counts_as_absent (departing (mr_flags r)) then Some (default now (mr_absent_since r)) else mr_absent_since r;
  mr_gone_since := Some (default now (mr_gone_since r));
  mr_known_since := mr_known_since r; mr_present_since := None; mr_returned_since := mr_returned_since r;
  mr_back_since := mr_back_since r |}.

(** A member of the live set. *)
Definition arrive (now : Z) (flags : LiveFlags) (r : MemberRecord) : MemberRecord :=
  let was_absent := is_some (mr_absent_since r) in {|
    mr_flags := flags; mr_absent_since := None; mr_gone_since := None;
    mr_known_since := Some (default now (mr_known_since r));
    mr_present_since := Some (default now (mr_present_since r));
    mr_returned_since := if was_absent then Some now else mr_returned_since r;
    mr_back_since := if was_absent then Some now else mr_back_since r |}.

Definition observe (st : AbsenceState) (now : Z) (live : gmap Z LiveFlags) : AbsenceState :=
  let departed := map_imap (fun node r =>
    Some (if is_some (mr_present_since r) && negb (is_some (live !! node)) then depart now r else r)) (as_members st) in
  {| as_members := map_fold (fun node flags m => <[node := arrive now flags (default default_record (m !! node))]> m) departed live;
     as_forgot_at := as_forgot_at st |}.

Definition prune_gone_older_than (st : AbsenceState) (now horizon : Z) : AbsenceState := forget st now horizon DURATION_MAX.

Definition forget_departed_at (st : AbsenceState) (policy : ForgetPolicy) (now : Z) : AbsenceState :=
  if negb (forget_is_due (as_forgot_at st) now (fp_every policy)) then st
  else forget {| as_members := as_members st; as_forgot_at := Some now |} now (fp_gone policy) (fp_back policy).

Definition aged (now : Z) (since : option Z) (bound : Z) : bool :=
  is_some_and since (fun since => bound <=? saturating_sub now since).

Definition age_record (now hard_cap settle : Z) (r : MemberRecord) : MemberRecord := {|
  mr_flags := mr_flags r;
  mr_absent_since := if aged now (mr_absent_since r) hard_cap then None else mr_absent_since r;
  mr_gone_since := mr_gone_since r; mr_known_since := mr_known_since r; mr_present_since := mr_present_since r;
  mr_returned_since := if aged now (mr_returned_since r) settle then None else mr_returned_since r;
  mr_back_since := mr_back_since r |}.

Definition members_where (f : MemberRecord -> bool) (m : gmap Z MemberRecord) : list NodeId :=
  (filter (fun kv => f kv.2 = true) (map_to_list m)).*1.

Definition holding_gc (st : AbsenceState) (now hard_cap settle : Z) : AbsenceState * list NodeId :=
  let m := update_members (age_record now hard_cap settle) (as_members st) in
  ({| as_members := m; as_forgot_at := as_forgot_at st |},
   members_where (fun r => is_some (mr_absent_since r) || is_some (mr_returned_since r)) m).

Definition recent (now bound : Z) (since : option Z) : bool :=
  is_some_and since (fun since => saturating_sub now since <? bound).
Definition away_within (st : AbsenceState) (now bound : Z) : list NodeId :=
  members_where (fun r => recent now bound (mr_absent_since r) || recent now bound (mr_back_since r)) (as_members st).
Definition gone_longer_than (st : AbsenceState) (now retire_after : Z) : list NodeId :=
  members_where (fun r => aged now (mr_gone_since r) retire_after) (as_members st).
Definition present_since (st : AbsenceState) (node : NodeId) : option Z := as_members st !! node ≫= mr_present_since.
Definition gone_since (st : AbsenceState) (node : NodeId) : option Z := as_members st !! node ≫= mr_gone_since.
Definition known_since (st : AbsenceState) (node : NodeId) : option Z := as_members st !! node ≫= mr_known_since.

Section Deferral.
Context {HS : Hashing}.

Definition defers_for (mode : Mode) (holders : list NodeId) (ownership : option OwnershipView) : bool :=
  match mode with
  | Replicated => negb (bool_decide (holders = []))
  | Distributed _ =>
      match ownership with
      | None => false
      | Some view =>
          if bool_decide (holders = []) then false
          else existsb (fun node => bool_decide (node ∈ co_owners_with view holders)) holders
      end
  | Local | Invalidation => false
  end.

Definition should_defer_gc (mode : Mode) (st : AbsenceState) (now hard_cap settle : Z) (ownership : option OwnershipView) :
    AbsenceState * bool :=
  let (st, holders) := holding_gc st now hard_cap settle in (st, defers_for mode holders ownership).

Definition gc_defers (mode : Mode) (absent_defers : bool) (uptime settle : Z) : bool :=
  defers_tombstone_gc mode && (absent_defers || (uptime <? settle)).

Definition until_next_grid_tick (now_ms period : Z) : Z :=
  let period_ms := Z.max (Z.min period u64_max) 1 in period_ms - now_ms mod period_ms.

(** One tick of [tombstone_gc_task]: the tracker afterwards, whether collection defers, and the
    wait to the next tick. *)
Definition gc_tick (mode : Mode) (tombstone_ttl tombstone_max_ttl : Z) (st : AbsenceState) (policy : ForgetPolicy)
    (now uptime now_ms : Z) (view : option OwnershipView) : AbsenceState * bool * Z :=
  let st := forget_departed_at st policy now in
  let (st, absent_defers) := should_defer_gc mode st now tombstone_max_ttl tombstone_ttl view in
  (st, gc_defers mode absent_defers uptime tombstone_ttl,
   until_next_grid_tick now_ms (gc_period_ms (Z.min tombstone_ttl u64_max))).

End Deferral.

(** ** One member at a time *)

Lemma update_lookup f m n : update_members f m !! n = m !! n ≫= fun r => if is_empty (f r) then None else Some (f r).
Proof.
  unfold update_members. rewrite map_lookup_filter, lookup_fmap. destruct (m !! n) as [r|]; cbn; [|done].
  destruct (is_empty (f r)) eqn:E; cbn; by case_guard.
Qed.

Lemma members_where_spec f m n : n ∈ members_where f m <-> exists r, m !! n = Some r /\ f r = true.
Proof.
  unfold members_where. rewrite list_elem_of_fmap. split.
  - intros ([n' r] & -> & Hin). apply list_elem_of_filter in Hin as [Hf Hin]. apply elem_of_map_to_list in Hin. eauto.
  - intros (r & Hr & Hf). exists (n, r). split; [done|]. apply list_elem_of_filter. split; [done|]. by apply elem_of_map_to_list.
Qed.

Lemma observe_lookup st now live n : as_members (observe st now live) !! n =
  match live !! n with
  | Some flags => Some (arrive now flags (default default_record (as_members st !! n)))
  | None => (fun r => if is_some (mr_present_since r) then depart now r else r) <$> as_members st !! n
  end.
Proof.
  unfold observe. cbn [as_members]. set (m0 := map_imap _ _).
  assert (Hm0 : m0 !! n = (fun r => if is_some (mr_present_since r) && negb (is_some (live !! n)) then depart now r else r) <$> as_members st !! n).
  { unfold m0. rewrite map_lookup_imap. by destruct (as_members st !! n). }
  assert (Hf : map_fold (fun node flags m => <[node := arrive now flags (default default_record (m !! node))]> m) m0 live !! n =
    match live !! n with Some flags => Some (arrive now flags (default default_record (m0 !! n))) | None => m0 !! n end).
  { apply (map_fold_weak_ind (fun out l => out !! n =
      match l !! n with Some flags => Some (arrive now flags (default default_record (m0 !! n))) | None => m0 !! n end)).
    - by rewrite lookup_empty.
    - intros node flags l out Hl IH. destruct (decide (node = n)) as [->|Hne].
      + rewrite !lookup_insert_eq, IH, Hl. done.
      + by rewrite !lookup_insert_ne by done. }
  rewrite Hf, Hm0. destruct (live !! n); cbn; [|by destruct (as_members st !! n) as [r|]; cbn; rewrite ?andb_true_r].
  destruct (as_members st !! n) as [r|]; cbn; [by rewrite andb_false_r|done].
Qed.

Lemma holding_lookup st now hard_cap settle n : n ∈ (holding_gc st now hard_cap settle).2 <->
  exists r, as_members st !! n = Some r /\
    ((exists t, mr_absent_since r = Some t /\ saturating_sub now t < hard_cap) \/
     (exists t, mr_returned_since r = Some t /\ saturating_sub now t < settle)).
Proof.
  unfold holding_gc. cbn [snd]. rewrite members_where_spec. setoid_rewrite update_lookup.
  destruct (as_members st !! n) as [r|] eqn:Er; cbn; [|naive_solver].
  assert (Hage : forall o b, is_some (if aged now o b then None else o) = true <-> exists t, o = Some t /\ saturating_sub now t < b).
  { intros [t|] b; cbn; [|naive_solver]. destruct (Z.leb_spec b (saturating_sub now t)); cbn; [|naive_solver]. split; [done|]. intros (t' & [= <-] & ?). lia. }
  split.
  - intros (r' & Hr' & Hf). destruct (is_empty _); [done|]. injection Hr' as <-. exists r. split; [done|]. cbn in Hf. apply orb_true_iff in Hf. by rewrite <-!Hage.
  - intros (r' & [= <-] & Hf). rewrite <-!Hage, <-orb_true_iff in Hf. exists (age_record now hard_cap settle r).
    destruct (is_empty (age_record now hard_cap settle r)) eqn:Ee; [|done]. exfalso. unfold is_empty in Ee. cbn in Ee.
    destruct (is_some (if aged now (mr_absent_since r) hard_cap then None else _)), (is_some (if aged now (mr_returned_since r) settle then None else _));
      rewrite ?andb_false_r in Ee; done.
Qed.

(** ** Histories of one tracker *)

Inductive Op :=
  | OpObserve (now : Z) (live : gmap Z LiveFlags)
  | OpForget (now : Z)
  | OpPrune (now horizon : Z)
  | OpHold (now : Z).
Definition op_time (op : Op) : Z :=
  match op with OpObserve now _ | OpForget now | OpPrune now _ | OpHold now => now end.

Section History.
Context (policy : ForgetPolicy) (hard_cap settle : Z).

Definition op_step (st : AbsenceState) (op : Op) : AbsenceState :=
  match op with
  | OpObserve now live => observe st now live
  | OpForget now => forget_departed_at st policy now
  | OpPrune now horizon => prune_gone_older_than st now horizon
  | OpHold now => (holding_gc st now hard_cap settle).1
  end.
Definition op_run (st : AbsenceState) (ops : list Op) : AbsenceState := foldl op_step st ops.

Definition without (m : NodeId) (op : Op) : Prop := match op with OpObserve _ live => live !! m = None | _ => True end.

(** A forgetting pass keeps what holds collection back. *)
Lemma forget_keeps st now gone back n r : as_members st !! n = Some r ->
  mr_absent_since r <> None \/ mr_returned_since r <> None ->
  exists r', as_members (forget st now gone back) !! n = Some r' /\ mr_absent_since r' = mr_absent_since r /\
    mr_returned_since r' = mr_returned_since r /\ mr_present_since r' = mr_present_since r.
Proof.
  intros Hr Hne. unfold forget. cbn [as_members]. rewrite update_lookup, Hr. cbn. exists (forgotten r now gone back).
  destruct (is_empty (forgotten r now gone back)) eqn:E; [|done]. exfalso. unfold is_empty in E. cbn in E.
  destruct (mr_absent_since r), (mr_returned_since r); cbn in E; rewrite ?andb_false_r in E; try done. naive_solver.
Qed.

Lemma forget_step_keeps st op n r : as_members st !! n = Some r ->
  mr_absent_since r <> None \/ mr_returned_since r <> None ->
  (exists now, op = OpForget now) \/ (exists now h, op = OpPrune now h) ->
  exists r', as_members (op_step st op) !! n = Some r' /\ mr_absent_since r' = mr_absent_since r /\
    mr_returned_since r' = mr_returned_since r /\ mr_present_since r' = mr_present_since r.
Proof.
  intros Hr Hne [(now & ->)|(now & h & ->)]; cbn [op_step]; [|by apply forget_keeps].
  unfold forget_departed_at. destruct (negb _); [by exists r|]. by apply forget_keeps.
Qed.

Lemma absent_stays m t0 (ops : list Op) : 0 < hard_cap -> forall st r, as_members st !! m = Some r ->
  mr_absent_since r = Some t0 -> mr_present_since r = None -> Forall (without m) ops ->
  Forall (fun op => op_time op - t0 < hard_cap) ops ->
  exists r', as_members (op_run st ops) !! m = Some r' /\ mr_absent_since r' = Some t0 /\ mr_present_since r' = None /\
    (mr_returned_since r = None -> mr_returned_since r' = None).
Proof.
  intros Hcap. induction ops as [|op ops IH]; intros st r Hr Ha Hp Hw Ht; [by exists r|].
  apply Forall_cons in Hw as [Hw1 Hw]. apply Forall_cons in Ht as [Ht1 Ht]. cbn [op_run foldl].
  assert (exists r1, as_members (op_step st op) !! m = Some r1 /\ mr_absent_since r1 = Some t0 /\ mr_present_since r1 = None /\
    (mr_returned_since r = None -> mr_returned_since r1 = None)) as (r1 & H1 & H2 & H3 & H4).
  { destruct op as [now live|now|now h|now].
    - cbn [op_step]. rewrite observe_lookup. cbn in Hw1. rewrite Hw1, Hr. cbn. rewrite Hp. by exists r.
    - destruct (forget_step_keeps st (OpForget now) m r Hr) as (r' & ? & E1 & E2 & E3); [left; congruence|eauto|]. exists r'. rewrite E1, E2, E3. done.
    - destruct (forget_step_keeps st (OpPrune now h) m r Hr) as (r' & ? & E1 & E2 & E3); [left; congruence|eauto|]. exists r'. rewrite E1, E2, E3. done.
    - cbn in Ht1 |- *. rewrite update_lookup, Hr. cbn.
      assert (Hag : aged now (mr_absent_since r) hard_cap = false).
      { rewrite Ha. cbn. unfold saturating_sub. lia. }
      exists (age_record now hard_cap settle r). unfold is_empty. cbn. rewrite Hag, Ha. cbn. split_and!; try done.
      intros ->. done. }
  destruct (IH _ _ H1 H2 H3 Hw Ht) as (r' & H5 & H6 & H7 & H8). exists r'. split_and!; auto.
Qed.

Lemma returned_stays m t1 (ops : list Op) : 0 < settle -> forall st r t, as_members st !! m = Some r ->
  mr_returned_since r = Some t -> t1 <= t -> Forall (fun op => t1 <= op_time op /\ op_time op - t1 < settle) ops ->
  exists r' t', as_members (op_run st ops) !! m = Some r' /\ mr_returned_since r' = Some t' /\ t1 <= t'.
Proof.
  intros Hs. induction ops as [|op ops IH]; intros st r t Hr Ha Hle Ht; [by exists r, t|].
  apply Forall_cons in Ht as [[Ht0 Ht1] Ht]. cbn [op_run foldl].
  assert (exists r1 t', as_members (op_step st op) !! m = Some r1 /\ mr_returned_since r1 = Some t' /\ t1 <= t') as (r1 & t' & H1 & H2 & H3).
  { destruct op as [now live|now|now h|now].
    - cbn [op_step]. rewrite observe_lookup, Hr. destruct (live !! m) as [flags|]; cbn.
      + eexists. destruct (is_some (mr_absent_since r)) eqn:E; eexists; split; [reflexivity| |reflexivity|]; cbn; rewrite E; [|by rewrite Ha].
        split; [done|]. cbn in Ht0. lia.
      + destruct (is_some (mr_present_since r)); eexists _, t; (split; [reflexivity|]); by cbn.
    - destruct (forget_step_keeps st (OpForget now) m r Hr) as (r' & ? & E1 & E2 & E3); [right; congruence|eauto|]. exists r', t. by rewrite E2.
    - destruct (forget_step_keeps st (OpPrune now h) m r Hr) as (r' & ? & E1 & E2 & E3); [right; congruence|eauto|]. exists r', t. by rewrite E2.
    - cbn in Ht1 |- *. rewrite update_lookup, Hr. cbn.
      assert (Hag : aged now (mr_returned_since r) settle = false).
      { rewrite Ha. cbn. unfold saturating_sub. lia. }
      exists (age_record now hard_cap settle r), t. unfold is_empty. cbn. rewrite Hag, Ha. cbn. by rewrite ?andb_false_r. }
  by apply (IH _ _ t' H1 H2 H3 Ht).
Qed.

End History.

(** C23: a member that crashes holds tombstone collection back for as long as it is away, up to
    the hard cap, and for the settle time once it is back, whatever else the tracker sees and
    forgets meanwhile; past the cap it holds nothing back. *)
Theorem crashed_member_holds_collection (policy : ForgetPolicy) (hard_cap settle : Z) (st : AbsenceState) (m : NodeId) (r : MemberRecord)
  (t0 t1 p0 : Z) (live0 live1 : gmap Z LiveFlags) (flags : LiveFlags) (ops1 ops2 : list Op)
  (Hcap : 0 < hard_cap) (Hsettle : 0 < settle)
  (Hr : as_members st !! m = Some r) (Hlive : mr_present_since r = Some p0) (Hcrash : departing (mr_flags r) = false)
  (Hfresh : mr_absent_since r = None) (Hgone : live0 !! m = None)
  (Hops1 : Forall (fun op => without m op /\ op_time op - t0 < hard_cap) ops1)
  (Hback : live1 !! m = Some flags) (Hops2 : Forall (fun op => t1 <= op_time op /\ op_time op - t1 < settle) ops2) :
  let run := op_run policy hard_cap settle in
  let away := run st (OpObserve t0 live0 :: ops1) in
  let back := run away (OpObserve t1 live1 :: ops2) in
  (forall now, now - t0 < hard_cap -> m ∈ (holding_gc away now hard_cap settle).2) /\
  (forall now, now - t1 < settle -> m ∈ (holding_gc back now hard_cap settle).2) /\
  (mr_returned_since r = None -> forall now, hard_cap <= now - t0 -> m ∉ (holding_gc away now hard_cap settle).2).
Proof.
  cbv zeta. cbn [op_run foldl op_step].
  assert (H0 : as_members (observe st t0 live0) !! m = Some (depart t0 r)).
  { rewrite observe_lookup, Hgone, Hr. cbn. by rewrite Hlive. }
  apply Forall_and in Hops1 as [Hw Ht].
  destruct (absent_stays policy hard_cap settle m t0 ops1 Hcap _ _ H0) as (r1 & Hr1 & Ha1 & Hp1 & Hn1); [|done|done|done|].
  { cbn. by rewrite Hcrash, Hfresh. }
  fold (op_run policy hard_cap settle (observe st t0 live0) ops1). set (away := op_run policy hard_cap settle _ ops1) in *.
  split_and!.
  - intros now Hnow. apply holding_lookup. exists r1. split; [done|]. left. exists t0. split; [done|]. unfold saturating_sub. lia.
  - intros now Hnow. apply holding_lookup.
    assert (H1 : as_members (observe away t1 live1) !! m = Some (arrive t1 flags r1)) by (by rewrite observe_lookup, Hback, Hr1).
    destruct (returned_stays policy hard_cap settle m t1 ops2 Hsettle _ _ t1 H1) as (r2 & t & Hr2 & Ht2 & Hle); [|lia|done|].
    { cbn. by rewrite Ha1. }
    exists r2. split; [done|]. right. exists t. split; [done|]. unfold saturating_sub. lia.
  - intros Hret now Hnow Hin. apply holding_lookup in Hin as (r' & Hr' & Hor). rewrite Hr1 in Hr'. injection Hr' as <-.
    destruct Hor as [(t & Ht' & Hlt)|(t & Ht' & _)].
    + rewrite Ha1 in Ht'. injection Ht' as <-. unfold saturating_sub in Hlt. lia.
    + rewrite Hn1 in Ht'; [done|]. done.
Qed.

(** ** Forgetting *)

Lemma forget_members st now gone back n r : as_members st !! n = Some r ->
  as_members (forget st now gone back) !! n =
    if is_empty (forgotten r now gone back) then None else Some (forgotten r now gone back).
Proof. intros Hr. unfold forget. cbn. by rewrite update_lookup, Hr. Qed.

Lemma forget_none st now gone back n : as_members st !! n = None -> as_members (forget st now gone back) !! n = None.
Proof. intros Hr. unfold forget. cbn. by rewrite update_lookup, Hr. Qed.

(** A reader of single records that answers nothing for an empty record, and the same before and
    after a record forgets, answers the same before and after the pass. *)
Lemma forget_invisible st now gone back n (f : MemberRecord -> Prop) :
  (forall r, as_members st !! n = Some r -> f (forgotten r now gone back) <-> f r) ->
  (forall r, is_empty r = true -> ~ f r) ->
  (exists r, as_members (forget st now gone back) !! n = Some r /\ f r) <-> (exists r, as_members st !! n = Some r /\ f r).
Proof.
  intros Hsame Hempty. destruct (as_members st !! n) as [r|] eqn:Er; [|rewrite forget_none by done; naive_solver].
  rewrite (forget_members _ _ _ _ _ r) by done. specialize (Hsame r eq_refl).
  destruct (is_empty (forgotten r now gone back)) eqn:Ee; [|naive_solver]. specialize (Hempty _ Ee). naive_solver.
Qed.

Lemma recent_forgotten now now' bound back since : now <= now' -> bound <= back -> 0 <= bound ->
  recent now' bound (if older_than now since back then None else since) = recent now' bound since.
Proof.
  intros Hn Hb H0. destruct since as [t|]; cbn; [|done]. destruct (Z.ltb_spec back (saturating_sub now t)); cbn; [|done].
  symmetry. apply Z.ltb_ge. unfold saturating_sub in *. lia.
Qed.

(** A forgetting pass is invisible to the readers that act on absences. With a policy whose
    return horizon covers the bound its callers pass, whoever counts as away, and whoever holds
    collection back, is the same before and after the pass, then and later; a member's presence
    is kept; and a departure is kept for the whole receipt lifetime. *)
Theorem forgetting_is_invisible (policy : ForgetPolicy) (st : AbsenceState) (now now' bound hard_cap settle : Z) (n : NodeId)
  (Hnow : now <= now') (Hbound : 0 <= bound <= fp_back policy) :
  let st' := forget_departed_at st policy now in
  (n ∈ away_within st' now' bound <-> n ∈ away_within st now' bound) /\
  (n ∈ (holding_gc st' now' hard_cap settle).2 <-> n ∈ (holding_gc st now' hard_cap settle).2) /\
  present_since st' n = present_since st n /\
  (forall t, gone_since st n = Some t -> now - t <= fp_gone policy -> 0 <= fp_gone policy -> gone_since st' n = Some t).
Proof.
  cbv zeta. unfold forget_departed_at. destruct (negb _); [done|].
  set (st0 := {| as_members := as_members st; as_forgot_at := Some now |}).
  change (away_within st now' bound) with (away_within st0 now' bound).
  change (holding_gc st now' hard_cap settle).2 with (holding_gc st0 now' hard_cap settle).2.
  change (present_since st n) with (present_since st0 n). change (gone_since st n) with (gone_since st0 n). split_and!.
  - unfold away_within. rewrite !members_where_spec. apply forget_invisible.
    + intros r _. cbn. by rewrite recent_forgotten by lia.
    + intros r He. unfold is_empty in He. destruct (mr_absent_since r), (mr_back_since r); cbn in *; rewrite ?andb_false_r in He; done.
  - rewrite !holding_lookup. apply forget_invisible; [done|]. intros r He. unfold is_empty in He.
    destruct (mr_absent_since r), (mr_returned_since r); cbn in He; rewrite ?andb_false_r in He; try done. naive_solver.
  - unfold present_since. destruct (as_members st0 !! n) as [r|] eqn:Er; [|by rewrite forget_none].
    rewrite (forget_members _ _ _ _ _ r) by done. cbn.
    destruct (is_empty (forgotten r now (fp_gone policy) (fp_back policy))) eqn:Ee; [|done]. unfold is_empty in Ee. cbn in *.
    destruct (mr_present_since r); [|done]. rewrite ?andb_false_r in Ee. cbn in Ee. rewrite ?andb_false_r in Ee. done.
  - intros t Ht Hg H0. unfold gone_since in *.
    destruct (as_members st0 !! n) as [r|] eqn:Er; [|done]. cbn in Ht. rewrite (forget_members _ _ _ _ _ r) by done.
    assert (Hold : older_than now (mr_gone_since r) (fp_gone policy) = false) by (rewrite Ht; cbn; apply Z.ltb_ge; unfold saturating_sub; lia).
    unfold is_empty, forgotten. rewrite Hold, Ht. cbn. by rewrite ?andb_false_r.
Qed.

(** ** Deferral *)

Section Deferring.
Context {HS : Hashing}.

Lemma widened_view self eligible k g returning : 1 <= k ->
  co_owners_with (compute_at self eligible k g) returning = ov_co_owners (compute_at self (eligible ++ returning) k g).
Proof.
  intros Hk. destruct (from_owners_fields self eligible k g (units g ≫= unit_owners (with_self self eligible) k))
    as (_ & _ & He & _ & Hkk & Hg & _). rewrite <-compute_at_owners in He, Hkk, Hg.
  unfold co_owners_with, widened. rewrite He, Hkk, Hg.
  set (e := dedup (sort_Z (with_self self eligible ++ returning))).
  assert (Hmem : forall x, x ∈ e <-> x = self \/ x ∈ eligible \/ x ∈ returning).
  { intros x. unfold e. rewrite dedup_elem, sort_Z_elem, elem_of_app. destruct (with_self_spec self eligible) as [_ ->]. tauto. }
  assert (Hself : with_self self e = with_self self (eligible ++ returning)).
  { apply canonical_eq. intros x. rewrite !elem_of_app, Hmem, list_elem_of_singleton. tauto. }
  assert (Hc : compute_at self e k g = compute_at self (eligible ++ returning) k g).
  { unfold compute_at. by rewrite Hself. }
  destruct (Nat.eqb_spec (length e) (length (with_self self eligible))) as [Hlen|Hlen]; cbn.
  - enough (with_self self eligible = with_self self (eligible ++ returning)) as Hw by (unfold compute_at; by rewrite Hw).
    destruct (with_self_spec self eligible) as [Hnd Hin].
    assert (Hp : with_self self eligible ≡ₚ e).
    { apply submseteq_length_Permutation; [|lia]. apply NoDup_submseteq; [done|]. intros x. rewrite Hin, Hmem. tauto. }
    unfold with_self. apply canonical_eq. intros x. rewrite !elem_of_app, list_elem_of_singleton.
    split; [tauto|]. intros [[?|Hx]|?]; [tauto| |tauto]. assert (Hx' : x ∈ e) by (apply Hmem; tauto). rewrite <-Hp, Hin in Hx'. tauto.
  - by rewrite successor_compute, Hc.
Qed.

End Deferring.

(** A distributed cache defers collection exactly for the members that may still hold a
    deleted entry: one of the members held back would, were they all eligible again, own a part
    together with this node. *)
Theorem absent_co_owners_defer {HS : Hashing} (self_node : NodeId) (eligible holders : list NodeId) (k owners : Z) (g : Granularity)
  (Hk : 1 <= k) (Hself : self_node ∉ holders) :
  let view := compute_at self_node eligible k g in
  let together := compute_at self_node (eligible ++ holders) k g in
  defers_for (Distributed owners) holders (Some view) = true <->
  exists h p, h ∈ holders /\ is_u16 p /\ self_node ∈ owners_of together p /\ h ∈ owners_of together p.
Proof.
  cbv zeta. cbn [defers_for]. rewrite widened_view by done. case_bool_decide as Hh.
  { subst. split; [done|]. intros (h & p & Hin & _). by apply elem_of_nil in Hin. }
  rewrite existsb_exists. setoid_rewrite <-list_elem_of_In. setoid_rewrite bool_decide_eq_true.
  setoid_rewrite co_owners_view; [|done]. split.
  - intros (h & Hin & _ & p & Hp & H1 & H2). by exists h, p.
  - intros (h & p & Hin & Hp & H1 & H2). exists h. split; [done|]. split; [by intros ->|]. by exists p.
Qed.

(** The ticks of every node fall on one grid: the wait is positive, at most a period, and ends on
    a multiple of the period. *)
Lemma grid_tick now period : 0 <= now -> let p := Z.max (Z.min period u64_max) 1 in
  let wait := until_next_grid_tick now period in 0 < wait <= p /\ (now + wait) mod p = 0.
Proof.
  intros Hn. cbv zeta. unfold until_next_grid_tick. set (p := Z.max (Z.min period u64_max) 1).
  assert (Hp : 0 < p) by (unfold p; lia). pose proof (Z.mod_pos_bound now p Hp). split; [lia|].
  replace (now + (p - now mod p)) with ((now / p + 1) * p) by (pose proof (Z.div_mod now p ltac:(lia)); nia).
  apply Z.mod_mul. lia.
Qed.

(** ** Evaluating the statements *)

Lemma crashed_member_holds_collection_witness :
  let policy := policy_new 1000 100 500 in
  let st := observe absence_new 0 {[3 := {| departing := false |}]} in
  let away := op_run policy 100 50 st [OpObserve 10 ∅; OpForget 20; OpHold 30] in
  3 ∈ (holding_gc away 60 100 50).2 /\
  3 ∈ (holding_gc (op_run policy 100 50 away [OpObserve 70 {[3 := {| departing := true |}]}; OpObserve 80 ∅]) 90 100 50).2.
Proof.
  cbv zeta. set (st := observe _ _ _).
  destruct (as_members st !! 3) as [r|] eqn:Er; [|vm_compute in Er; discriminate].
  assert (Hr : r = {| mr_flags := {| departing := false |}; mr_absent_since := None; mr_gone_since := None; mr_known_since := Some 0;
    mr_present_since := Some 0; mr_returned_since := None; mr_back_since := None |}) by (vm_compute in Er; congruence). subst r.
  pose proof (crashed_member_holds_collection (policy_new 1000 100 500) 100 50 st 3 _ 10 70 0 ∅ {[3 := {| departing := true |}]} {| departing := true |}
    [OpForget 20; OpHold 30] [OpObserve 80 ∅] ltac:(lia) ltac:(lia) Er eq_refl eq_refl eq_refl (lookup_empty _)) as H.
  cbv zeta in H. destruct H as (H1 & H2 & _).
  { repeat constructor. }
  { apply lookup_singleton_eq. }
  { repeat constructor; cbn; lia. }
  split; [apply H1; lia|apply H2; lia].
Defined.

Lemma forgetting_is_invisible_witness :
  let st := op_run (policy_new 40 60 10) 100 50 absence_new [OpObserve 0 {[3 := {| departing := false |}]}; OpObserve 10 ∅] in
  gone_since (forget_departed_at st (policy_new 40 60 10) 60) 3 = None /\
  3 ∈ away_within (forget_departed_at st (policy_new 40 60 10) 60) 60 55.
Proof.
  split; [vm_compute; reflexivity|].
  apply (forgetting_is_invisible (policy_new 40 60 10) _ 60 60 55 100 50 3); [lia|cbn; lia|].
  apply members_where_spec. eexists. split; [vm_compute; reflexivity|vm_compute; reflexivity].
Defined.

#[local] Instance sample_hashing : Hashing := {| xxh3_64 := fun _ => 0; postcard_hlc := fun _ => [] |}.

Lemma absent_co_owners_defer_witness : defers_for (Distributed 2) [9] (Some (compute_at 7 [7] 2 Part)) = true.
Proof.
  apply (absent_co_owners_defer 7 [7] [9] 2 2 Part); [lia|rewrite list_elem_of_singleton; lia|].
  assert (Hu : is_u16 5) by (unfold is_u16, u16_max; lia). exists 9, 5.
  rewrite (owners_of_view 7 ([7] ++ [9]) 2 Part ltac:(lia) 5 Hu).
  assert (Ho : unit_owners (with_self 7 ([7] ++ [9])) 2 (unit_of Part 5) = [7; 9]) by (vm_compute; reflexivity).
  rewrite Ho. repeat split; try (exact (proj1 Hu)); try (exact (proj2 Hu)); rewrite !elem_of_cons; tauto.
Defined.
