(* ===== verification/SkewHold.v ===== *)
(** * SkewHold: forwarded writes parked until the clock reaches them

    [store/skew_hold.rs]. The [BTreeMap] of held records is the list of its entries in slot
    order. *)

From S2P Require Import Prelude Clock Part Types Ownership.

(** ** Definitions *)

Definition SKEW_HOLD_MAX_RECORDS : Z := 16384.
Definition SKEW_HOLD_MAX_BYTES : Z := 32 * 1024 * 1024.
Definition SKEW_HOLD_MAX_HORIZON_MS : Z := 24 * 60 * 60 * 1000.
Definition SKEW_RELEASE_POLL : Z := 1000.
Definition HELD_RECORD_OVERHEAD : Z := 64.

Definition skew_due_ms (wall_ms max_skew_ms : Z) : Z := saturating_sub wall_ms max_skew_ms.
Definition skew_hold_horizon_ms (tombstone_max_ttl_ms : Z) : Z := Z.min tombstone_max_ttl_ms SKEW_HOLD_MAX_HORIZON_MS.
Definition beyond_horizon (due_ms now_ms horizon_ms : Z) : bool := horizon_ms <? saturating_sub due_ms now_ms.
Definition skew_hold_wait (next_due_ms : option Z) (now_ms : Z) : option Z :=
  (fun due_ms => Z.min (Z.max (saturating_sub due_ms now_ms) 1) SKEW_RELEASE_POLL) <$> next_due_ms.

Inductive HoldOutcome := Held | Duplicate | Superseded | Full | Closed.

(** Its due time, then its arrival number. *)
Abbreviation Slot := (Z * Z)%type (only parsing).
Definition slot_ltb (a b : Slot) : bool := (a.1 <? b.1) || ((a.1 =? b.1) && (a.2 <? b.2)).

Record SkewHold := {
  entries : list (Slot * WireRecord);
  by_key : gmap Bytes (list (Slot * Hlc));
  seq : Z;
  bytes : Z;
  max_records : Z;
  max_bytes : Z;
  closed : bool;
}.

Definition held_size (rec : WireRecord) : Z :=
  Z.of_nat (length (wr_key rec)) + from_option (fun v => Z.of_nat (length v)) 0 (wr_value rec) + HELD_RECORD_OVERHEAD.

Definition skew_new (max_records max_bytes : Z) : SkewHold := {|
  entries := []; by_key := ∅; seq := 0; bytes := 0; max_records := max_records; max_bytes := max_bytes; closed := false |}.

(** [BTreeMap::insert] of a new slot and [BTreeMap::get]. *)
Fixpoint insert_slot (s : Slot) (rec : WireRecord) (l : list (Slot * WireRecord)) : list (Slot * WireRecord) :=
  match l with
  | [] => [(s, rec)]
  | (s', rec') :: l' => if slot_ltb s s' then (s, rec) :: l else (s', rec') :: insert_slot s rec l'
  end.
Definition get_slot (s : Slot) (l : list (Slot * WireRecord)) : option WireRecord :=
  (fun x => x.2.2) <$> list_find (fun e => e.1 = s) l.

Definition total_size (l : list WireRecord) : Z := foldr (fun rec n => held_size rec + n) 0 l.

Definition fits (h : SkewHold) (evict : list Slot) (size : Z) : bool :=
  let freed := total_size (omap (fun s => get_slot s (entries h)) evict) in
  (Z.of_nat (length (entries h)) - Z.of_nat (length evict) <? max_records h) && (bytes h - freed + size <=? max_bytes h).

Definition remove (h : SkewHold) (s : Slot) : SkewHold * option WireRecord :=
  match get_slot s (entries h) with
  | None => (h, None)
  | Some rec =>
      ({| entries := filter (fun e => e.1 <> s) (entries h);
          by_key := match by_key h !! wr_key rec with
                    | Some held =>
                        let held := filter (fun x => x.1 <> s) held in
                        if bool_decide (held = []) then delete (wr_key rec) (by_key h) else <[wr_key rec := held]> (by_key h)
                    | None => by_key h
                    end;
          seq := seq h; bytes := bytes h - held_size rec; max_records := max_records h; max_bytes := max_bytes h;
          closed := closed h |}, Some rec)
  end.

Definition push (h : SkewHold) (rec : WireRecord) (s : Slot) : SkewHold := {|
  entries := insert_slot s rec (entries h);
  by_key := <[wr_key rec := default [] (by_key h !! wr_key rec) ++ [(s, wr_ver rec)]]> (by_key h);
  seq := seq h + 1; bytes := bytes h + held_size rec; max_records := max_records h; max_bytes := max_bytes h;
  closed := closed h |}.

Definition hold (h : SkewHold) (rec : WireRecord) (max_skew_ms : Z) (keep_every_version : bool) : SkewHold * HoldOutcome :=
  if closed h then (h, Closed)
  else
    let size := held_size rec in
    let held_for_key := default [] (by_key h !! wr_key rec) in
    if existsb (fun x => hlc_eqb x.2 (wr_ver rec)) held_for_key then (h, Duplicate)
    else if negb keep_every_version && existsb (fun x => hlc_ltb (wr_ver rec) x.2) held_for_key then (h, Superseded)
    else
      let evict := if keep_every_version then [] else held_for_key.*1 in
      if negb (fits h evict size) then (h, Full)
      else
        let h := foldl (fun h s => (remove h s).1) h evict in
        (push h rec (skew_due_ms (wall_ms (wr_ver rec)) max_skew_ms, seq h), Held).

(** Removing the slots in turn, keeping what each held. *)
Fixpoint remove_slots (h : SkewHold) (slots : list Slot) : SkewHold * list WireRecord :=
  match slots with
  | [] => (h, [])
  | s :: slots =>
      let (h, rec) := remove h s in
      let (h, recs) := remove_slots h slots in
      (h, match rec with Some rec => rec :: recs | None => recs end)
  end.

Definition take_due (h : SkewHold) (now_ms : Z) : SkewHold * list WireRecord :=
  remove_slots h (filter (fun s => slot_ltb (now_ms, u64_max) s = false) (entries h).*1).

Definition close (h : SkewHold) : SkewHold * list WireRecord :=
  ({| entries := []; by_key := ∅; seq := seq h; bytes := 0; max_records := max_records h; max_bytes := max_bytes h; closed := true |},
   (entries h).*2).

Definition next_due_ms (h : SkewHold) : option Z := (fun e => e.1.1) <$> head (entries h).

(** *** The shard's use of the hold, [store/shard_skew.rs] *)

Inductive DropReason := DropHorizon | DropFull.

(** What a refused forward came to: nothing is held by a shard without an ownership view or a skew bound, a drop is
    counted, a record held wakes the release task. *)
Inductive SkewNote := Unheld | Dropped (reason : DropReason) | Woke | Skipped (outcome : HoldOutcome).

Record SkewConfig := {
  sc_max_clock_skew_ms : option Z;
  sc_ownership : option OwnershipView;
  sc_tombstone_max_ttl_ms : Z;
  sc_merges : bool;
}.

Definition holds_skewed_forwards (c : SkewConfig) : bool :=
  bool_decide (is_Some (sc_max_clock_skew_ms c)) && bool_decide (is_Some (sc_ownership c)).

Definition hold_skewed (c : SkewConfig) (h : SkewHold) (now_ms : Z) (rec : WireRecord) : SkewHold * SkewNote :=
  match sc_max_clock_skew_ms c, sc_ownership c with
  | Some max_skew_ms, Some _ =>
      let due_ms := skew_due_ms (wall_ms (wr_ver rec)) max_skew_ms in
      if beyond_horizon due_ms now_ms (skew_hold_horizon_ms (sc_tombstone_max_ttl_ms c)) then (h, Dropped DropHorizon)
      else
        let (h, outcome) := hold h rec max_skew_ms (sc_merges c) in
        (h, match outcome with
            | Held => Woke
            | Full => Dropped DropFull
            | Duplicate | Superseded | Closed => Skipped outcome
            end)
  | _, _ => (h, Unheld)
  end.

Section Release.
Context `{!Hashing}.

(** The records to apply here, and the ones redirected to their owners. *)
Definition release_due_skewed (c : SkewConfig) (h : SkewHold) (now_ms : Z) : SkewHold * (list WireRecord * list WireRecord) :=
  let (h, due) := take_due h now_ms in
  match due with
  | [] => (h, ([], []))
  | _ =>
      match sc_ownership c with
      | None => (h, ([], []))
      | Some view =>
          let owned rec := owns view (Pid.from_hash (xxh3_64 (wr_key rec))) in
          (h, (List.filter owned due, List.filter (fun rec => negb (owned rec)) due))
      end
  end.
End Release.

Definition next_skew_wait (h : SkewHold) (now_ms : Z) : option Z := skew_hold_wait (next_due_ms h) now_ms.

(** The records handed to the fan-out. *)
Definition hand_off_skew_hold (h : SkewHold) : SkewHold * list WireRecord := close h.


(** ** Slots *)

Definition slot_lt (a b : Slot) : Prop := slot_ltb a b = true.

Lemma slot_lt_iff a b : slot_lt a b <-> a.1 < b.1 \/ (a.1 = b.1 /\ a.2 < b.2).
Proof. unfold slot_lt, slot_ltb. lia. Qed.

Lemma slot_total a b : slot_ltb a b = false -> a <> b -> slot_lt b a.
Proof.
  intros Hf Hne. apply not_true_iff_false in Hf. rewrite slot_lt_iff. change (~ slot_lt a b) in Hf. rewrite slot_lt_iff in Hf.
  destruct a as [a1 a2], b as [b1 b2]. cbn in *. assert (a1 <> b1 \/ a2 <> b2) by (destruct (decide (a1 = b1)), (decide (a2 = b2)); try tauto; congruence). lia.
Qed.

Lemma insert_slot_elem s rec l e : e ∈ insert_slot s rec l <-> e = (s, rec) \/ e ∈ l.
Proof.
  induction l as [|[s' r'] l IH]; cbn; [set_solver|]. destruct (slot_ltb s s'); [set_solver|]. rewrite !elem_of_cons, IH. tauto.
Qed.

Lemma insert_slot_perm s rec l : insert_slot s rec l ≡ₚ (s, rec) :: l.
Proof. induction l as [|[s' r'] l IH]; cbn; [done|]. destruct (slot_ltb s s'); [done|]. rewrite IH. apply perm_swap. Qed.

Lemma insert_slot_sorted s rec l : StronglySorted slot_lt l.*1 -> (forall e, e ∈ l -> e.1 <> s) ->
  StronglySorted slot_lt (insert_slot s rec l).*1.
Proof.
  induction l as [|[s' r'] l IH]; cbn; intros Hs Hne; [repeat constructor|]. apply StronglySorted_inv in Hs as [Hs Hall].
  destruct (slot_ltb s s') eqn:E; cbn.
  - constructor; [by constructor|]. constructor; [done|]. eapply Forall_impl; [exact Hall|]. cbn. intros x.
    rewrite !slot_lt_iff. change (slot_lt s s') in E. rewrite slot_lt_iff in E. lia.
  - constructor; [apply IH; [done|]; intros e He; apply Hne; by right|]. apply Forall_forall. intros x Hx.
    apply list_elem_of_fmap in Hx as (e & -> & He). apply insert_slot_elem in He as [->|He]; cbn.
    + apply slot_total; [done|]. specialize (Hne (s', r') ltac:(left)). cbn in Hne. congruence.
    + rewrite Forall_forall in Hall. apply Hall. apply list_elem_of_fmap. by exists e.
Qed.

Lemma sorted_nodup (l : list (Slot * WireRecord)) : StronglySorted slot_lt l.*1 -> NoDup l.*1.
Proof.
  induction 1 as [|s l' Hs IH Hall]; constructor; [|done]. intros Hin. rewrite Forall_forall in Hall. apply Hall in Hin.
  rewrite slot_lt_iff in Hin. lia.
Qed.

Lemma get_slot_spec s l rec : NoDup l.*1 -> get_slot s l = Some rec <-> (s, rec) ∈ l.
Proof.
  intros Hnd. unfold get_slot. split.
  - intros H. apply fmap_Some in H as ([i [s' r']] & Hf & ->). apply list_find_Some in Hf as (Hl & Heq & _). cbn in *. subst s'.
    by apply list_elem_of_lookup_2 in Hl.
  - intros Hin. destruct (list_find (fun e => e.1 = s) l) as [[i [s' r']]|] eqn:E; cbn.
    + apply list_find_Some in E as (Hl & Heq & _). cbn in Heq. subst s'. f_equal. apply list_elem_of_lookup_2 in Hl.
      clear i. induction l as [|[s0 r0] l IH]; [by apply elem_of_nil in Hin|]. cbn in Hnd. apply NoDup_cons in Hnd as [Hn Hnd].
      apply elem_of_cons in Hin, Hl. destruct Hin as [Hin|Hin], Hl as [Hl|Hl]; simplify_eq; try done.
      * exfalso. apply Hn, list_elem_of_fmap. by exists (s0, r').
      * exfalso. apply Hn, list_elem_of_fmap. by exists (s0, rec).
      * by apply IH.
    + apply list_find_None in E. rewrite Forall_forall in E. by destruct (E _ Hin).
Qed.

Lemma filter_sorted (P : Slot * WireRecord -> Prop) `{!forall e, Decision (P e)} l :
  StronglySorted slot_lt l.*1 -> StronglySorted slot_lt (filter P l).*1.
Proof.
  induction l as [|e l IH]; [done|]. intros Hs. apply StronglySorted_inv in Hs as [Hs Hall]. rewrite filter_cons.
  case_decide; [|by apply IH]. constructor; [by apply IH|]. apply Forall_forall. intros x Hx. rewrite Forall_forall in Hall.
  apply Hall. apply list_elem_of_fmap in Hx as (e' & -> & He'). apply list_elem_of_fmap. exists e'. split; [done|]. by apply list_elem_of_filter in He' as [_ He'].
Qed.

Lemma remove_one (s : Slot) (rec : WireRecord) l : NoDup l.*1 -> (s, rec) ∈ l -> l ≡ₚ (s, rec) :: filter (fun e => e.1 <> s) l.
Proof.
  induction l as [|[s0 r0] l IH]; intros Hnd Hin; [by apply elem_of_nil in Hin|]. cbn in Hnd. apply NoDup_cons in Hnd as [Hn Hnd].
  rewrite filter_cons. cbn. apply elem_of_cons in Hin as [Heq|Hin].
  - simplify_eq. rewrite decide_False by tauto. rewrite list_filter_all; [done|]. apply Forall_forall. intros [s1 r1] He Heq. cbn in Heq. subst s1. apply Hn, list_elem_of_fmap. by exists (s0, r1).
  - assert (s0 <> s) by (intros ->; apply Hn, list_elem_of_fmap; by exists (s, rec)). rewrite decide_True by done.
    rewrite (IH Hnd Hin) at 1. apply perm_swap.
Qed.

Lemma total_size_cons rec l : total_size (rec :: l) = held_size rec + total_size l.
Proof. done. Qed.

Lemma total_size_perm l l' : l ≡ₚ l' -> total_size l = total_size l'.
Proof. induction 1; rewrite ?total_size_cons; lia. Qed.

Lemma held_size_pos rec : 0 < held_size rec.
Proof. unfold held_size, HELD_RECORD_OVERHEAD. destruct (wr_value rec); cbn; lia. Qed.

(** ** The invariant *)

Section Invariant.
Context (max_skew : Z).

Record skew_wf (h : SkewHold) : Prop := {
  w_sorted : StronglySorted slot_lt (entries h).*1;
  w_slot s rec : (s, rec) ∈ entries h -> s.1 = skew_due_ms (wall_ms (wr_ver rec)) max_skew /\ s.2 < seq h;
  w_index k s v : (s, v) ∈ default [] (by_key h !! k) <-> exists rec, (s, rec) ∈ entries h /\ wr_key rec = k /\ wr_ver rec = v;
  w_lists k l : by_key h !! k = Some l -> NoDup l.*1 /\ l <> [];
  w_distinct s s' rec rec' : (s, rec) ∈ entries h -> (s', rec') ∈ entries h -> wr_key rec = wr_key rec' ->
    wr_ver rec = wr_ver rec' -> s = s';
  w_bytes : bytes h = total_size (entries h).*2;
  w_max_bytes : bytes h <= max_bytes h;
  w_max_records : Z.of_nat (length (entries h)) <= max_records h;
  w_closed : closed h = true -> entries h = [];
}.

Lemma new_wf mr mb : 0 <= mr -> 0 <= mb -> skew_wf (skew_new mr mb).
Proof.
  intros H1 H2. split; cbn; try done; [constructor|set_solver|intros k s v; rewrite lookup_empty; cbn; set_solver|set_solver].
Qed.

Lemma entries_nodup h : skew_wf h -> NoDup (entries h).*1.
Proof. intros Hw. by apply sorted_nodup, w_sorted. Qed.

Lemma remove_wf h s rec : skew_wf h -> (s, rec) ∈ entries h ->
  let '(h', got) := remove h s in
  skew_wf h' /\ got = Some rec /\ entries h ≡ₚ (s, rec) :: entries h' /\
  entries h' = filter (fun e => e.1 <> s) (entries h) /\ seq h' = seq h /\ closed h' = closed h /\
  max_records h' = max_records h /\ max_bytes h' = max_bytes h /\ bytes h' = bytes h - held_size rec.
Proof.
  intros Hw Hin. pose proof (entries_nodup h Hw) as Hnd. unfold remove. rewrite (proj2 (get_slot_spec s (entries h) rec Hnd) Hin).
  pose proof (remove_one s rec _ Hnd Hin) as Hperm. pose proof (held_size_pos rec) as Hpos.
  assert (Hel : forall e, e ∈ filter (fun e => e.1 <> s) (entries h) <-> e.1 <> s /\ e ∈ entries h) by (intros e; by rewrite list_elem_of_filter).
  split_and!; try done. destruct Hw as [H1 H2 H3 H4 H5 H6 H7 H8 H9].
  assert (Hbytes : bytes h - held_size rec = total_size (filter (fun e => e.1 <> s) (entries h)).*2).
  { rewrite H6, (total_size_perm _ _ (fmap_Permutation snd _ _ Hperm)), fmap_cons, total_size_cons. cbn [snd]. lia. }
  set (held' := fun held : list (Slot * Hlc) => filter (fun x => x.1 <> s) held).
  destruct (by_key h !! wr_key rec) as [held|] eqn:Eh.
  2: { exfalso. assert (Hi : (s, wr_ver rec) ∈ default [] (by_key h !! wr_key rec)) by (apply H3; eauto). rewrite Eh in Hi. by apply elem_of_nil in Hi. }
  set (bk := if bool_decide (filter (fun x => x.1 <> s) held = []) then delete (wr_key rec) (by_key h) else <[wr_key rec := filter (fun x => x.1 <> s) held]> (by_key h)).
  assert (Hbk : forall k, default [] (bk !! k) = if decide (k = wr_key rec) then filter (fun x => x.1 <> s) held else default [] (by_key h !! k)).
  { intros k. unfold bk. case_bool_decide as Hb; destruct (decide (k = wr_key rec)) as [->|Hk].
    - by rewrite lookup_delete_eq, Hb.
    - by rewrite lookup_delete_ne.
    - by rewrite lookup_insert_eq.
    - by rewrite lookup_insert_ne. }
  split; cbn.
  - by apply filter_sorted.
  - intros s' r' [_ Hi]%Hel. by apply H2.
  - intros k s' v. rewrite Hbk. destruct (decide (k = wr_key rec)) as [->|Hk].
    + rewrite list_elem_of_filter. cbn. specialize (H3 (wr_key rec) s' v). rewrite Eh in H3. cbn in H3. rewrite H3. setoid_rewrite Hel. cbn. naive_solver.
    + rewrite H3. setoid_rewrite Hel. cbn. split; [|naive_solver]. intros (r' & Hr' & <- & Hv). exists r'. split_and!; try done.
      intros ->. apply Hk. assert (get_slot s (entries h) = Some r') as Hg by (by apply get_slot_spec).
      rewrite (proj2 (get_slot_spec s (entries h) rec Hnd) Hin) in Hg. congruence.
  - intros k l Hl. destruct (H4 _ _ Eh) as [Hn _]. unfold bk in Hl. case_bool_decide as Hb.
    + apply lookup_delete_Some in Hl as [_ Hl]. by apply (H4 k).
    + apply lookup_insert_Some in Hl as [[<- <-]|[_ Hl]]; [|by apply (H4 k)]. split; [|done].
      clear -Hn. induction held as [|x held IH]; [constructor|]. cbn in Hn. apply NoDup_cons in Hn as [Hx Hn]. rewrite filter_cons.
      case_decide; [|by apply IH]. cbn. constructor; [|by apply IH]. intros Hin. apply Hx. apply list_elem_of_fmap in Hin as (y & Hy & Hin).
      apply list_elem_of_filter in Hin as [_ Hin]. apply list_elem_of_fmap. by exists y.
  - intros s1 s2 r1 r2 [_ Hi1]%Hel [_ Hi2]%Hel. by apply H5.
  - done.
  - lia.
  - pose proof (length_filter (fun e => e.1 <> s) (entries h)). lia.
  - intros Hc. rewrite (H9 Hc) in Hin. by apply elem_of_nil in Hin.
Qed.
End Invariant.

Lemma remove_slots_cons h s slots : remove_slots h (s :: slots) =
  ((remove_slots (remove h s).1 slots).1,
   match (remove h s).2 with Some rec => rec :: (remove_slots (remove h s).1 slots).2 | None => (remove_slots (remove h s).1 slots).2 end).
Proof. cbn. destruct (remove h s) as [h' r]. cbn. destruct (remove_slots h' slots) as [h'' rs]. by destruct r. Qed.

Lemma evict_remove_slots h slots : foldl (fun h s => (remove h s).1) h slots = (remove_slots h slots).1.
Proof. revert h. induction slots as [|s slots IH]; intros h; [done|]. rewrite remove_slots_cons. cbn. apply IH. Qed.

(** What removing a list of held slots leaves. *)
Definition removed (h : SkewHold) (slots : list Slot) (h' : SkewHold) (recs : list WireRecord) : Prop :=
  entries h' = filter (fun e => e.1 ∉ slots) (entries h) /\ entries h ≡ₚ zip slots recs ++ entries h' /\
  length recs = length slots /\ seq h' = seq h /\ closed h' = closed h /\ max_records h' = max_records h /\
  max_bytes h' = max_bytes h /\ bytes h' = bytes h - total_size recs.

Lemma remove_slots_wf max_skew h slots : skew_wf max_skew h -> NoDup slots -> (forall s, s ∈ slots -> s ∈ (entries h).*1) ->
  skew_wf max_skew (remove_slots h slots).1 /\ removed h slots (remove_slots h slots).1 (remove_slots h slots).2 /\
  (remove_slots h slots).2 = omap (fun s => get_slot s (entries h)) slots.
Proof.
  revert h. induction slots as [|s slots IH]; intros h Hw Hnd Hin.
  - split; [done|]. split; [|done]. unfold removed. cbn. split_and!; try done; [|lia].
    symmetry. apply list_filter_all. apply Forall_forall. intros e _. set_solver.
  - apply NoDup_cons in Hnd as [Hs Hnd]. rewrite remove_slots_cons. cbn [fst snd].
    assert (exists rec, (s, rec) ∈ entries h) as [rec Hrec].
    { specialize (Hin s ltac:(left)). apply list_elem_of_fmap in Hin as ([s' rec] & -> & Hin). by exists rec. }
    pose proof (remove_wf max_skew h s rec Hw Hrec) as Hr. pose proof (entries_nodup max_skew h Hw) as Hnde.
    destruct (remove h s) as [h' r]. destruct Hr as (Hw' & -> & Hperm & Hent & Hseq & Hcl & Hmr & Hmb & Hb). cbn [fst snd].
    destruct (IH h' Hw' Hnd) as (Hw'' & (He & Hp & Hlen & Hs2 & Hc2 & Hm2 & Hmb2 & Hb2) & Hom).
    { intros s' Hs'. rewrite Hent. specialize (Hin s' ltac:(by right)). apply list_elem_of_fmap in Hin as (e & -> & He).
      apply list_elem_of_fmap. exists e. split; [done|]. apply list_elem_of_filter. split; [|done]. intros Heq. apply Hs. by rewrite <-Heq. }
    split; [done|]. split.
    + unfold removed. cbn [length]. rewrite total_size_cons. split_and!; try congruence; try lia.
      * rewrite He, Hent, list_filter_filter. apply list_filter_iff. intros e. rewrite not_elem_of_cons. tauto.
      * by rewrite Hperm, Hp.
    + rewrite Hom. cbn. rewrite (proj2 (get_slot_spec s (entries h) rec Hnde) Hrec). f_equal.
      apply list_omap_ext, Forall2_same_length_lookup_2; [done|]. intros i x y Hx Hy. simplify_eq.
      assert (x <> s) by (intros ->; apply Hs; by eapply list_elem_of_lookup_2).
      pose proof (entries_nodup max_skew h' Hw') as Hnd'. apply option_eq. intros r0. rewrite !get_slot_spec by done. rewrite Hent, list_elem_of_filter. cbn. tauto.
Qed.

Lemma push_wf max_skew h rec : skew_wf max_skew h -> closed h = false ->
  (forall s r, (s, r) ∈ entries h -> wr_key r = wr_key rec -> wr_ver r <> wr_ver rec) ->
  Z.of_nat (length (entries h)) < max_records h -> bytes h + held_size rec <= max_bytes h ->
  skew_wf max_skew (push h rec (skew_due_ms (wall_ms (wr_ver rec)) max_skew, seq h)).
Proof.
  intros Hw Hcl Hnew Hmr Hmb. set (s0 := (skew_due_ms (wall_ms (wr_ver rec)) max_skew, seq h)).
  assert (Hfresh : forall e, e ∈ entries h -> e.1 <> s0).
  { intros [s r] He Heq. cbn in Heq. subst s. apply (w_slot _ _ Hw) in He as [_ He]. cbn in He. lia. }
  pose proof (insert_slot_perm s0 rec (entries h)) as Hperm. destruct Hw as [H1 H2 H3 H4 H5 H6 H7 H8 H9].
  assert (Hel : forall e, e ∈ insert_slot s0 rec (entries h) <-> e = (s0, rec) \/ e ∈ entries h) by (intros; apply insert_slot_elem).
  assert (Hbk : forall k, default [] (<[wr_key rec := default [] (by_key h !! wr_key rec) ++ [(s0, wr_ver rec)]]> (by_key h) !! k) =
    default [] (by_key h !! k) ++ if decide (k = wr_key rec) then [(s0, wr_ver rec)] else []).
  { intros k. destruct (decide (k = wr_key rec)) as [->|Hk]; [by rewrite lookup_insert_eq|]. by rewrite lookup_insert_ne, app_nil_r. }
  split; cbn [entries by_key seq bytes max_records max_bytes closed push].
  - by apply insert_slot_sorted.
  - intros s r [Heq|He]%Hel; [simplify_eq; cbn; split; [done|lia]|]. apply H2 in He as [He1 He2]. split; [done|lia].
  - intros k s v. rewrite Hbk, elem_of_app, H3. setoid_rewrite Hel. split.
    + intros [(r & Hr & Hk & Hv)|Hin]; [exists r; tauto|]. case_decide; [|by apply elem_of_nil in Hin].
      apply list_elem_of_singleton in Hin. simplify_eq. exists rec. split; [by left|done].
    + intros (r & [Heq|Hr] & Hk & Hv); [|left; eauto]. simplify_eq. rewrite decide_True by done. right. by apply list_elem_of_singleton.
  - intros k l Hl. apply lookup_insert_Some in Hl as [[<- <-]|[_ Hl]]; [|by apply (H4 k)]. split; [|by destruct (default [] _)].
    rewrite fmap_app. apply NoDup_app. split; [|split; [|apply NoDup_singleton]].
    + destruct (by_key h !! wr_key rec) as [l|] eqn:E; [by apply (H4 _ _ E)|constructor].
    + intros s Hs Hs'. apply list_elem_of_singleton in Hs'. cbn in Hs'. subst s. apply list_elem_of_fmap in Hs as ([s v] & Heq & Hs).
      apply H3 in Hs as (r & Hr & _). apply (Hfresh _ Hr). by rewrite Heq.
  - intros s s' r r' [Heq|He]%Hel [Heq'|He']%Hel Hk Hv; simplify_eq; try done.
    + by destruct (Hnew _ _ He').
    + by destruct (Hnew _ _ He).
    + by apply (H5 _ _ r r').
  - rewrite (total_size_perm _ _ (fmap_Permutation snd _ _ Hperm)), fmap_cons, total_size_cons. cbn [snd]. lia.
  - done.
  - rewrite Hperm. cbn [length]. lia.
  - congruence.
Qed.

(** The slots held for a key and the records in them. *)
Lemma held_slots max_skew h k : skew_wf max_skew h ->
  NoDup (default [] (by_key h !! k)).*1 /\
  (forall s, s ∈ (default [] (by_key h !! k)).*1 <-> exists rec, (s, rec) ∈ entries h /\ wr_key rec = k).
Proof.
  intros Hw. split.
  - destruct (by_key h !! k) as [l|] eqn:E; [by apply (w_lists _ _ Hw k)|constructor].
  - intros s. rewrite list_elem_of_fmap. split.
    + intros ([s' v] & -> & Hin). apply (w_index _ _ Hw) in Hin as (rec & ? & ? & ?). eauto.
    + intros (rec & Hin & Hk). exists (s, wr_ver rec). split; [done|]. apply (w_index _ _ Hw). eauto.
Qed.

Lemma held_any max_skew h rec (P : Hlc -> bool) : skew_wf max_skew h ->
  existsb (fun x => P x.2) (default [] (by_key h !! wr_key rec)) = true <->
  exists r, r ∈ (entries h).*2 /\ wr_key r = wr_key rec /\ P (wr_ver r) = true.
Proof.
  intros Hw. rewrite existsb_exists. split.
  - intros ([s v] & Hin & Hp). apply list_elem_of_In, (w_index _ _ Hw) in Hin as (r & Hr & Hk & <-). exists r. split_and!; try done.
    apply list_elem_of_fmap. by exists (s, r).
  - intros (r & Hr & Hk & Hp). apply list_elem_of_fmap in Hr as ([s r'] & Heq & Hr). cbn in Heq. subst r'. exists (s, wr_ver r).
    split; [|done]. apply list_elem_of_In, (w_index _ _ Hw). eauto.
Qed.

(** What each outcome of [hold] means. *)
Definition hold_post (h : SkewHold) (rec : WireRecord) (keep : bool) (h' : SkewHold) (o : HoldOutcome) : Prop :=
  match o with
  | Held => exists gone kept,
      (entries h).*2 ≡ₚ gone ++ kept /\ (entries h').*2 ≡ₚ rec :: kept /\
      (forall r, r ∈ gone -> keep = false /\ wr_key r = wr_key rec /\ hlc_lt (wr_ver r) (wr_ver rec)) /\
      (keep = false -> forall r, r ∈ kept -> wr_key r <> wr_key rec)
  | Duplicate => h' = h /\ exists r, r ∈ (entries h).*2 /\ wr_key r = wr_key rec /\ wr_ver r = wr_ver rec
  | Superseded => h' = h /\ keep = false /\ exists r, r ∈ (entries h).*2 /\ wr_key r = wr_key rec /\ hlc_lt (wr_ver rec) (wr_ver r)
  | Full => h' = h /\ exists gone kept, (entries h).*2 ≡ₚ gone ++ kept /\
      (forall r, r ∈ gone -> keep = false /\ wr_key r = wr_key rec) /\
      (max_records h <= Z.of_nat (length kept) \/ max_bytes h < total_size kept + held_size rec)
  | Closed => h' = h /\ closed h = true
  end.

Lemma total_size_app l l' : total_size (l ++ l') = total_size l + total_size l'.
Proof. induction l as [|r l IH]; [done|]. cbn [app]. rewrite !total_size_cons. lia. Qed.

Lemma zip_snd {A B} (l : list A) (k : list B) : length k = length l -> (zip l k).*2 = k.
Proof. intros H. apply snd_zip. lia. Qed.

(** What [hold] gives up for [rec], and what stays. *)
Section Evict.
Context (max_skew : Z) (h : SkewHold) (rec : WireRecord) (keep : bool) (Hw : skew_wf max_skew h).
Let evict : list Slot := if keep then [] else (default [] (by_key h !! wr_key rec)).*1.
Let gone : list WireRecord := (remove_slots h evict).2.
Let h1 : SkewHold := (remove_slots h evict).1.

Lemma evict_spec : skew_wf max_skew h1 /\ removed h evict h1 gone /\ gone = omap (fun s => get_slot s (entries h)) evict.
Proof.
  destruct (held_slots max_skew h (wr_key rec) Hw) as [Hnd Hslot]. apply remove_slots_wf; [done| |].
  - unfold evict. destruct keep; [constructor|done].
  - intros s Hs. unfold evict in Hs. destruct keep; [by apply elem_of_nil in Hs|]. apply Hslot in Hs as (r & Hr & _).
    apply list_elem_of_fmap. by exists (s, r).
Qed.

Lemma evict_perm : (entries h).*2 ≡ₚ gone ++ (entries h1).*2.
Proof.
  destruct evict_spec as (_ & (_ & Hp & Hlen & _) & _). rewrite (fmap_Permutation snd _ _ Hp), fmap_app, zip_snd by done. done.
Qed.

Lemma evict_gone r : r ∈ gone -> keep = false /\ wr_key r = wr_key rec.
Proof.
  destruct evict_spec as (_ & _ & Hom). rewrite Hom. intros Hr. apply list_elem_of_omap in Hr as (s & Hs & Hg).
  apply get_slot_spec in Hg; [|by apply (entries_nodup max_skew)]. unfold evict in Hs. destruct keep; [by apply elem_of_nil in Hs|].
  split; [done|]. apply (held_slots max_skew h (wr_key rec) Hw) in Hs as (r' & Hr' & <-).
  apply get_slot_spec in Hg; [|by apply (entries_nodup max_skew)]. apply get_slot_spec in Hr'; [|by apply (entries_nodup max_skew)]. congruence.
Qed.

Lemma evict_kept r : keep = false -> r ∈ (entries h1).*2 -> wr_key r <> wr_key rec.
Proof.
  destruct evict_spec as (_ & (He & _) & _). intros Hk Hr Heq. rewrite He in Hr. apply list_elem_of_fmap in Hr as ([s r'] & Hr' & Hin).
  cbn in Hr'. subst r'. apply list_elem_of_filter in Hin as [Hne Hin]. apply Hne. unfold evict. rewrite Hk.
  apply (held_slots max_skew h (wr_key rec) Hw). by exists r.
Qed.

Lemma fits_spec : fits h evict (held_size rec) = true <->
  Z.of_nat (length (entries h1)) < max_records h /\ bytes h1 + held_size rec <= max_bytes h.
Proof.
  destruct evict_spec as (_ & (He & Hp & Hlen & _ & _ & _ & _ & Hb) & Hom). unfold fits. rewrite <-Hom.
  apply Permutation_length in Hp. rewrite length_app, length_zip_with in Hp. rewrite andb_true_iff, Z.ltb_lt, Z.leb_le, Hb. lia.
Qed.
End Evict.

Lemma hold_spec max_skew h rec keep : skew_wf max_skew h ->
  let '(h', o) := hold h rec max_skew keep in
  skew_wf max_skew h' /\ hold_post h rec keep h' o /\
  max_records h' = max_records h /\ max_bytes h' = max_bytes h /\ closed h' = closed h /\ seq h <= seq h' <= seq h + 1.
Proof.
  intros Hw. unfold hold. destruct (closed h) eqn:Ec; [split_and!; try done; lia|].
  destruct (existsb _ _) eqn:Ed.
  { split_and!; try done; try lia. cbn. split; [done|]. apply (held_any _ _ _ (fun v => hlc_eqb v (wr_ver rec)) Hw) in Ed as (r & Hr & Hk & Hv).
    exists r. split_and!; try done. by apply hlc_eqb_eq. }
  assert (Hnew : forall r, r ∈ (entries h).*2 -> wr_key r = wr_key rec -> wr_ver r <> wr_ver rec).
  { intros r Hr Hk Hv. apply not_true_iff_false in Ed. apply Ed, (held_any _ _ _ (fun v => hlc_eqb v (wr_ver rec)) Hw).
    exists r. split_and!; try done. by apply hlc_eqb_eq. }
  destruct (negb keep && existsb _ _) eqn:Es.
  { apply andb_true_iff in Es as [Hk Es]. apply negb_true_iff in Hk. split_and!; try done; try lia. cbn. split_and!; try done.
    apply (held_any _ _ _ (fun v => hlc_ltb (wr_ver rec) v) Hw) in Es as (r & Hr & Hkey & Hv). by exists r. }
  assert (Hold : forall r, keep = false -> r ∈ (entries h).*2 -> wr_key r = wr_key rec -> hlc_lt (wr_ver r) (wr_ver rec)).
  { intros r Hk Hr Hkey. rewrite Hk in Es. cbn in Es. destruct (hlc_total (wr_ver r) (wr_ver rec)) as [|[Heq|Hgt]]; [done|by destruct (Hnew r)|].
    apply not_true_iff_false in Es. destruct Es. apply (held_any _ _ _ (fun v => hlc_ltb (wr_ver rec) v) Hw). by exists r. }
  pose proof (evict_spec max_skew h rec keep Hw) as Hev. pose proof (evict_perm max_skew h rec keep Hw) as Hperm.
  pose proof (evict_gone max_skew h rec keep Hw) as Hgone. pose proof (fun r => evict_kept max_skew h rec keep Hw r) as Hkept.
  pose proof (fits_spec max_skew h rec keep Hw) as Hfits. cbv zeta in *.
  set (evict := if keep then [] else (default [] (by_key h !! wr_key rec)).*1) in *. rewrite evict_remove_slots.
  destruct (remove_slots h evict) as [h1 gone] eqn:Er. cbn [fst snd] in *.
  destruct Hev as (Hw1 & (_ & _ & _ & Hseq & Hc1 & Hmr & Hmb & Hb) & _).
  destruct (fits h evict (held_size rec)) eqn:Ef; cbn [negb].
  - destruct (proj1 Hfits eq_refl) as [Hf1 Hf2]. pose proof (push_wf max_skew h1 rec Hw1) as Hpw. rewrite Hmr, Hmb, Hc1 in Hpw.
    split_and!; try (cbn; congruence || lia).
    + apply Hpw; try done. intros s r Hr Hk. apply Hnew; [|done]. rewrite Hperm. apply elem_of_app. right. apply list_elem_of_fmap. by exists (s, r).
    + exists gone, (entries h1).*2. split_and!; try done.
      * cbn. by rewrite insert_slot_perm.
      * intros r Hr. destruct (Hgone r Hr) as [Hk Hkey]. split_and!; try done. apply Hold; try done. rewrite Hperm. apply elem_of_app. by left.
      * intros Hk r Hr. by apply Hkept.
  - split_and!; try done; try lia. split; [done|]. exists gone, (entries h1).*2. split_and!; try done.
    rewrite length_fmap, <-(w_bytes _ _ Hw1). destruct (decide (Z.of_nat (length (entries h1)) < max_records h)); [|lia]. right.
    apply Znot_ge_lt. intros Hge. assert (false = true); [apply Hfits; lia|done].
Qed.

Lemma in_range_wall rec max_skew now : is_u64 (wall_ms (wr_ver rec)) -> is_u64 now ->
  skew_due_ms (wall_ms (wr_ver rec)) max_skew <= now <-> exceeds_skew now (wall_ms (wr_ver rec)) max_skew = false.
Proof. unfold skew_due_ms, exceeds_skew, saturating_sub, saturating_add, is_u64, u64_max. intros. rewrite Z.ltb_ge. lia. Qed.

(** A release takes exactly the records within the clock bound, in slot order. *)
Lemma take_due_spec max_skew h now : skew_wf max_skew h -> seq h <= u64_max ->
  let '(h', due) := take_due h now in
  let ready (e : Slot * WireRecord) := e.1.1 <= now in
  skew_wf max_skew h' /\ due = (filter ready (entries h)).*2 /\ entries h' = filter (fun e => ~ ready e) (entries h) /\
  max_records h' = max_records h /\ max_bytes h' = max_bytes h /\ closed h' = closed h /\ seq h' = seq h.
Proof.
  intros Hw Hseq. unfold take_due. set (slots := filter _ _).
  assert (Hdue : forall e, e ∈ entries h -> slot_ltb (now, u64_max) e.1 = false <-> e.1.1 <= now).
  { intros [s r] He. apply (w_slot _ _ Hw) in He as [_ He]. cbn. rewrite <-not_true_iff_false. change (~ slot_lt (now, u64_max) s <-> s.1 <= now).
    rewrite slot_lt_iff. cbn. lia. }
  assert (Hslots : slots = (filter (fun e : Slot * WireRecord => e.1.1 <= now) (entries h)).*1).
  { unfold slots. clear slots. induction (entries h) as [|e l IH]; [done|]. cbn [fmap list_fmap]. rewrite !filter_cons.
    assert (Hl : forall e, e ∈ l -> slot_ltb (now, u64_max) e.1 = false <-> e.1.1 <= now) by (intros; apply Hdue; by right).
    specialize (Hdue e ltac:(left)). do 2 case_decide; try tauto; cbn; first [by apply IH | by rewrite IH]. }
  pose proof (entries_nodup _ _ Hw) as Hnd. assert (Hsub : forall s, s ∈ slots -> s ∈ (entries h).*1) by (intros s Hs; by apply list_elem_of_filter in Hs as [_ Hs]).
  destruct (remove_slots_wf max_skew h slots Hw) as (Hw' & (He & _ & _ & Hsq & Hc & Hmr & Hmb & _) & Hom); [by apply NoDup_filter|done|].
  destruct (remove_slots h slots) as [h' due]. cbn [fst snd] in *. split_and!; try done.
  - rewrite Hom, Hslots. clear -Hnd. assert (Hsub : forall e, e ∈ filter (fun e : Slot * WireRecord => e.1.1 <= now) (entries h) -> e ∈ entries h)
      by (intros e He; by apply list_elem_of_filter in He as [_ He]). revert Hsub.
    generalize (filter (fun e : Slot * WireRecord => e.1.1 <= now) (entries h)). intros l Hsub.
    induction l as [|[s r] l IH]; [done|]. cbn. rewrite (proj2 (get_slot_spec s _ r Hnd)) by (apply Hsub; left). f_equal.
    apply IH. intros e He. apply Hsub. by right.
  - rewrite He. apply filter_ext_in. intros e Hin. rewrite Hslots. rewrite list_elem_of_fmap. split.
    + intros Hn Hle. apply Hn. exists e. split; [done|]. by apply list_elem_of_filter.
    + intros Hn (e' & Heq & He'). apply list_elem_of_filter in He' as [He' _]. apply Hn. by rewrite Heq.
Qed.

(** ** What the shard keeps *)

Section Ledger.
Context `{!Hashing}.

(** A forward refused for its stamp, a pass of the release task under a view, the close. *)
Inductive SkewOp := OpRefuse (now_ms : Z) (rec : WireRecord) | OpRelease (now_ms : Z) (view : OwnershipView) | OpClose.

(** The hold, every record it took, and every record it gave back. *)
Record Ledger := { l_hold : SkewHold; l_taken : list WireRecord; l_given : list WireRecord }.

Definition with_view (c : SkewConfig) (view : OwnershipView) : SkewConfig := {|
  sc_max_clock_skew_ms := sc_max_clock_skew_ms c; sc_ownership := Some view;
  sc_tombstone_max_ttl_ms := sc_tombstone_max_ttl_ms c; sc_merges := sc_merges c |}.

Definition skew_step (c : SkewConfig) (l : Ledger) (op : SkewOp) : Ledger :=
  match op with
  | OpRefuse now rec =>
      let (h, note) := hold_skewed c (l_hold l) now rec in
      {| l_hold := h; l_taken := match note with Woke => rec :: l_taken l | _ => l_taken l end; l_given := l_given l |}
  | OpRelease now view =>
      let '(h, (owned, redirected)) := release_due_skewed (with_view c view) (l_hold l) now in
      {| l_hold := h; l_taken := l_taken l; l_given := owned ++ redirected ++ l_given l |}
  | OpClose =>
      let (h, handed) := hand_off_skew_hold (l_hold l) in
      {| l_hold := h; l_taken := l_taken l; l_given := handed ++ l_given l |}
  end.

Definition skew_run (c : SkewConfig) (ops : list SkewOp) : Ledger :=
  foldl (skew_step c) {| l_hold := skew_new SKEW_HOLD_MAX_RECORDS SKEW_HOLD_MAX_BYTES; l_taken := []; l_given := [] |} ops.

Definition outstanding (l : Ledger) : list WireRecord := (entries (l_hold l)).*2 ++ l_given l.

(** The ledger balances: what came back was taken, and a record taken is outstanding or gave way to a newer version of
    its key. *)
Record balanced (merges : bool) (l : Ledger) : Prop := {
  b_taken r : r ∈ outstanding l -> r ∈ l_taken l;
  b_newest r : r ∈ l_taken l -> exists r', r' ∈ outstanding l /\ wr_key r' = wr_key r /\ hlc_le (wr_ver r) (wr_ver r');
  b_every : merges = true -> l_taken l ≡ₚ outstanding l;
}.

Lemma balanced_perm merges h h' taken given given' :
  (entries h).*2 ++ given ≡ₚ (entries h').*2 ++ given' ->
  balanced merges {| l_hold := h; l_taken := taken; l_given := given |} ->
  balanced merges {| l_hold := h'; l_taken := taken; l_given := given' |}.
Proof.
  intros Hp [H1 H2 H3]. unfold outstanding in *. cbn in *.
  split; unfold outstanding; cbn; [intros r; rewrite <-Hp; apply H1|setoid_rewrite <-Hp; apply H2|intros Hm; rewrite <-Hp; by apply H3].
Qed.

Lemma balanced_hold merges h h' rec taken given : hold_post h rec merges h' Held ->
  balanced merges {| l_hold := h; l_taken := taken; l_given := given |} ->
  balanced merges {| l_hold := h'; l_taken := rec :: taken; l_given := given |}.
Proof.
  intros (gone & kept & Hp & Hp' & Hgone & _) [H1 H2 H3]. unfold outstanding in *. cbn in *.
  split; unfold outstanding; cbn.
  - intros r. rewrite Hp', elem_of_app, !elem_of_cons. intros [[->|Hr]|Hr]; [by left|right..]; apply H1; rewrite Hp, !elem_of_app; tauto.
  - intros r. setoid_rewrite Hp'. rewrite elem_of_cons. intros [->|Hr].
    + exists rec. split_and!; [|done|hlc_lia]. apply elem_of_app. left. left.
    + destruct (H2 r Hr) as (r' & Hr' & Hk & Hv). rewrite Hp, !elem_of_app in Hr'. destruct Hr' as [[Hr'|Hr']|Hr'].
      * destruct (Hgone r' Hr') as (_ & Hk' & Hv'). exists rec. split_and!; [|congruence|hlc_lia]. apply elem_of_app. left. left.
      * exists r'. split_and!; try done. rewrite elem_of_app, elem_of_cons. tauto.
      * exists r'. split_and!; try done. rewrite elem_of_app, elem_of_cons. tauto.
  - intros Hm. rewrite Hp'. cbn. constructor. rewrite (H3 Hm), Hp. destruct gone as [|r gone]; [done|].
    destruct (Hgone r ltac:(left)) as [Hm' _]. congruence.
Qed.

Lemma filter_split {A} (f : A -> bool) l : List.filter f l ++ List.filter (fun x => negb (f x)) l ≡ₚ l.
Proof.
  induction l as [|x l IH]; [done|]. cbn. destruct (f x); cbn; [by rewrite IH|]. rewrite <-Permutation_middle. by rewrite IH.
Qed.

Lemma filter_parts {A} (P : A -> Prop) `{!forall x, Decision (P x)} l : filter P l ++ filter (fun x => ~ P x) l ≡ₚ l.
Proof.
  induction l as [|x l IH]; [done|]. rewrite !filter_cons. destruct (decide (P x)).
  - rewrite decide_False by tauto. cbn. by rewrite IH.
  - rewrite decide_True by done. rewrite <-Permutation_middle. by rewrite IH.
Qed.

Lemma close_wf max_skew h : skew_wf max_skew h -> skew_wf max_skew (close h).1.
Proof.
  intros Hw. pose proof (w_max_bytes _ _ Hw). pose proof (w_max_records _ _ Hw). pose proof (w_bytes _ _ Hw) as Hb.
  assert (0 <= bytes h) by (rewrite Hb; clear; induction (entries h).*2 as [|r l IH]; [done|]; rewrite total_size_cons; pose proof (held_size_pos r); lia).
  split; cbn; try done; [constructor|set_solver|intros k s v; rewrite lookup_empty; cbn; set_solver|set_solver|lia|lia].
Qed.

Lemma release_due_spec max_skew c view h now : skew_wf max_skew h -> seq h <= u64_max ->
  let '(h', (owned, redirected)) := release_due_skewed (with_view c view) h now in
  skew_wf max_skew h' /\ seq h' = seq h /\
  owned ++ redirected ≡ₚ (filter (fun e => e.1.1 <= now) (entries h)).*2 /\ entries h' = filter (fun e => ~ e.1.1 <= now) (entries h).
Proof.
  intros Hw Hs. pose proof (take_due_spec max_skew h now Hw Hs) as Ht. unfold release_due_skewed. destruct (take_due h now) as [h' due].
  cbv zeta in Ht. destruct Ht as (Hw' & Hdue & He & _ & _ & _ & Hseq). destruct due as [|r due]; cbn [with_view sc_ownership].
  - split_and!; try done. by rewrite <-Hdue.
  - split_and!; try done. rewrite <-Hdue. apply (filter_split (fun rec => owns view (Pid.from_hash (xxh3_64 (wr_key rec))))).
Qed.
End Ledger.

Section Claims.
Context `{!Hashing}.

Lemma skew_step_inv c max_skew l op : sc_max_clock_skew_ms c = Some max_skew -> is_Some (sc_ownership c) ->
  skew_wf max_skew (l_hold l) -> balanced (sc_merges c) l -> seq (l_hold l) <= u64_max ->
  let l' := skew_step c l op in
  skew_wf max_skew (l_hold l') /\ balanced (sc_merges c) l' /\ seq (l_hold l') <= seq (l_hold l) + 1.
Proof.
  intros Hskew [view Hview] Hw Hb Hseq. destruct op as [now rec|now v|]; cbn [skew_step].
  - unfold hold_skewed. rewrite Hskew, Hview. destruct (beyond_horizon _ _ _); [destruct l; split_and!; try done; cbn; lia|].
    pose proof (hold_spec max_skew (l_hold l) rec (sc_merges c) Hw) as Hh. destruct (hold _ _ _ _) as [h' o].
    destruct Hh as (Hw' & Hpost & _ & _ & _ & Hs). split_and!; [done| |cbn; lia]. destruct l as [h taken given]. cbn in *.
    destruct o; try (by destruct Hpost as [-> _]). by apply (balanced_hold _ h).
  - pose proof (release_due_spec max_skew c v (l_hold l) now Hw Hseq) as Hr.
    destruct (release_due_skewed _ _ _) as [h' [owned redirected]]. destruct Hr as (Hw' & Hs & Hp & He). split_and!; [done| |cbn; lia].
    destruct l as [h taken given]. cbn in *. eapply balanced_perm, Hb. rewrite He, !(assoc_L (++)). f_equiv.
    rewrite <-(assoc_L (++)), Hp, (Permutation_app_comm _ (filter _ _).*2), <-fmap_app. apply fmap_Permutation. by rewrite filter_parts.
  - pose proof (close_wf max_skew (l_hold l) Hw) as Hc. destruct l as [h taken given]. cbn in *. split_and!; [done| |lia].
    by eapply balanced_perm, Hb.
Qed.

(** C29: the skew hold never loses a write it took. Over any sequence of refused forwards, release passes under any views
    and closes, the hold stays within its record and byte caps with its two indexes in step and its byte count exact;
    every record it holds or has given back (to the apply path, to the part's owners or to the closing fan-out) is one
    it took; every record it took is still held, was given back, or made way for a newer version of the same key that
    was; and under a merging resolver nothing ever makes way: what was taken is exactly what is held or given back. *)
Theorem held_forwards_are_never_lost c max_skew ops :
  sc_max_clock_skew_ms c = Some max_skew -> is_Some (sc_ownership c) -> Z.of_nat (length ops) <= u64_max ->
  let l := skew_run c ops in
  skew_wf max_skew (l_hold l) /\
  (forall r, r ∈ outstanding l -> r ∈ l_taken l) /\
  (forall r, r ∈ l_taken l -> exists r', r' ∈ outstanding l /\ wr_key r' = wr_key r /\ hlc_le (wr_ver r) (wr_ver r')) /\
  (sc_merges c = true -> l_taken l ≡ₚ outstanding l).
Proof.
  intros Hskew Hview Hlen. cbv zeta.
  assert (skew_wf max_skew (l_hold (skew_run c ops)) /\ balanced (sc_merges c) (skew_run c ops) /\
    seq (l_hold (skew_run c ops)) <= Z.of_nat (length ops)) as (Hw & Hb & _).
  { unfold skew_run. induction ops as [|op ops IH] using rev_ind.
    - cbn. split_and!; [by apply new_wf| |lia]. by split; [set_solver|set_solver|].
    - rewrite length_app in *. cbn in *. rewrite foldl_app. cbn [foldl].
      destruct IH as (Hw & Hb & Hs); [lia|]. destruct (skew_step_inv c max_skew _ op Hskew Hview Hw Hb ltac:(lia)) as (Hw' & Hb' & Hs').
      split_and!; [done..|lia]. }
  split; [done|]. by destruct Hb.
Qed.

Lemma filter_snd {A B} (P : B -> Prop) `{!forall x, Decision (P x)} (l : list (A * B)) :
  (filter (fun e => P e.2) l).*2 = filter P l.*2.
Proof. induction l as [|[a b] l IH]; [done|]. cbn [fmap list_fmap]. rewrite !filter_cons. cbn. case_decide; cbn; by rewrite IH. Qed.

(** Until the release task wakes nothing held comes within the bound. *)
Lemma wait_before_due max_skew h now : 0 <= max_skew -> skew_wf max_skew h -> is_u64 now ->
  (forall r, r ∈ (entries h).*2 -> is_u64 (wall_ms (wr_ver r))) ->
  (forall e, e ∈ entries h -> ~ e.1.1 <= now) ->
  match next_skew_wait h now with
  | None => entries h = []
  | Some wait => 1 <= wait <= SKEW_RELEASE_POLL /\
      forall r t, r ∈ (entries h).*2 -> now <= t < now + wait -> exceeds_skew t (wall_ms (wr_ver r)) max_skew = true
  end.
Proof.
  intros Hpos Hw Hnow Hwall Hleft. unfold next_skew_wait, next_due_ms, skew_hold_wait. destruct (entries h) as [|[s0 r0] l] eqn:El; [done|].
  cbn [head fmap option_fmap option_map fst]. unfold SKEW_RELEASE_POLL. split; [lia|]. intros r t Hr Ht.
  assert (Hmin : forall s r, (s, r) ∈ entries h -> s0.1 <= s.1).
  { pose proof (w_sorted _ _ Hw) as Hs. rewrite El in Hs |- *. cbn [fmap list_fmap fst] in Hs. apply StronglySorted_inv in Hs as [_ Hall]. intros s r' [Heq|Hin]%elem_of_cons; [by simplify_eq|].
    rewrite Forall_forall in Hall. specialize (Hall s). rewrite slot_lt_iff in Hall. enough (s ∈ l.*1) by (specialize (Hall ltac:(done)); lia).
    apply list_elem_of_fmap. by exists (s, r'). }
  specialize (Hleft (s0, r0) ltac:(left)). cbn in Hleft. pose proof Hr as Hu. apply Hwall in Hu.
  apply list_elem_of_fmap in Hr as ([s r'] & Heq & Hin). cbn in Heq. subst r'. rewrite <-El in Hin. specialize (Hmin s r Hin).
  apply not_false_iff_true. intros Hf. apply in_range_wall in Hf; [|done|].
  2: { rewrite (proj1 (w_slot _ _ Hw s r Hin)) in Hmin. unfold skew_due_ms, saturating_sub, is_u64 in *. lia. }
  rewrite <-(proj1 (w_slot _ _ Hw s r Hin)) in Hf. unfold saturating_sub in Ht. lia.
Qed.

(** A release pass gives back exactly the records the clock has reached, and the release task never sleeps past one.
    At [now] the pass returns the held records whose stamp no longer exceeds the skew bound, those of parts this node
    owns to the apply path and the others to their owners, each in due order; every record left still exceeds the
    bound; and from there the task sleeps at least a millisecond, at most the poll interval, and never past the moment
    the next record comes due. *)
Theorem release_gives_back_exactly_the_due c max_skew view h now :
  0 <= max_skew -> skew_wf max_skew h -> seq h <= u64_max -> is_u64 now -> (forall r, r ∈ (entries h).*2 -> is_u64 (wall_ms (wr_ver r))) ->
  let '(h', (owned, redirected)) := release_due_skewed (with_view c view) h now in
  let due := filter (fun r => exceeds_skew now (wall_ms (wr_ver r)) max_skew = false) (entries h).*2 in
  let mine := fun r => owns view (Pid.from_hash (xxh3_64 (wr_key r))) in
  owned = List.filter mine due /\ redirected = List.filter (fun r => negb (mine r)) due /\
  (entries h').*2 = filter (fun r => exceeds_skew now (wall_ms (wr_ver r)) max_skew = true) (entries h).*2 /\
  match next_skew_wait h' now with
  | None => entries h' = []
  | Some wait => 1 <= wait <= SKEW_RELEASE_POLL /\
      forall r t, r ∈ (entries h').*2 -> now <= t < now + wait -> exceeds_skew t (wall_ms (wr_ver r)) max_skew = true
  end.
Proof.
  intros Hpos Hw Hseq Hnow Hwall. pose proof (take_due_spec max_skew h now Hw Hseq) as Ht. unfold release_due_skewed.
  destruct (take_due h now) as [h' due]. cbv zeta in Ht. destruct Ht as (Hw' & Hdue & He & _ & _ & _ & Hs').
  assert (Hready : forall e, e ∈ entries h -> e.1.1 <= now <-> exceeds_skew now (wall_ms (wr_ver e.2)) max_skew = false).
  { intros [s r] Hin. cbn. rewrite (proj1 (w_slot _ _ Hw s r Hin)). apply in_range_wall; [|done]. apply Hwall, list_elem_of_fmap. by exists (s, r). }
  assert (Hd : due = filter (fun r => exceeds_skew now (wall_ms (wr_ver r)) max_skew = false) (entries h).*2).
  { rewrite Hdue, <-filter_snd. f_equal. by apply filter_ext_in. }
  assert (Hleft : (entries h').*2 = filter (fun r => exceeds_skew now (wall_ms (wr_ver r)) max_skew = true) (entries h).*2).
  { rewrite He, <-filter_snd. f_equal. apply filter_ext_in. intros e Hin. rewrite (Hready e Hin). apply not_false_iff_true. }
  assert (Hwait := wait_before_due max_skew h' now Hpos Hw' Hnow).
  destruct due as [|r0 due]; cbn [with_view sc_ownership]; rewrite <-Hd; split_and!; try done; (apply Hwait; [intros r Hr; apply Hwall; rewrite Hleft in Hr; by apply list_elem_of_filter in Hr as [_ Hr]|intros e Hin; rewrite He in Hin; by apply list_elem_of_filter in Hin as [Hin _]]).
Qed.

End Claims.

#[local] Instance sample_hashing : Hashing := {| xxh3_64 := fun _ => 0; postcard_hlc := fun _ => [] |}.

Definition sample_forward (key wall : Z) : WireRecord := {|
  wr_key := [key]; wr_value := None; wr_ver := {| wall_ms := wall; logical := 0; node := 3 |}; wr_expires_at_ms := None |}.

Definition sample_config (merges : bool) : SkewConfig := {|
  sc_max_clock_skew_ms := Some 100; sc_ownership := Some (compute_at 7 [7] 2 Part); sc_tombstone_max_ttl_ms := 60000; sc_merges := merges |}.

(** Two versions of one key and another key: the older version gives way, the due one goes back. *)
Definition sample_ops (view : OwnershipView) : list SkewOp :=
  [OpRefuse 1000 (sample_forward 1 5000); OpRefuse 1000 (sample_forward 1 6000); OpRefuse 1000 (sample_forward 2 9000); OpRelease 5900 view].

Definition sample_hold : SkewHold :=
  (hold (hold (skew_new 10 1000) (sample_forward 1 5000) 100 false).1 (sample_forward 2 9000) 100 false).1.

Lemma held_forwards_are_never_lost_witness :
  let l := skew_run (sample_config false) (sample_ops (compute_at 7 [7] 2 Part)) in
  exists r', r' ∈ outstanding l /\ wr_key r' = [1] /\ hlc_le (wr_ver (sample_forward 1 5000)) (wr_ver r').
Proof.
  destruct (held_forwards_are_never_lost (sample_config false) 100 (sample_ops (compute_at 7 [7] 2 Part)))
    as (_ & _ & Hn & _); [reflexivity|eexists; reflexivity|unfold u64_max; cbn; lia|].
  apply (Hn (sample_forward 1 5000)). right. right. left.
Defined.

Lemma release_gives_back_exactly_the_due_witness :
  let '(h', _) := release_due_skewed (with_view (sample_config false) (compute_at 7 [7] 2 Part)) sample_hold 5900 in
  (entries h').*2 = [sample_forward 2 9000].
Proof.
  assert (Hw : skew_wf 100 sample_hold).
  { pose proof (hold_spec 100 _ (sample_forward 1 5000) false (new_wf 100 10 1000 ltac:(lia) ltac:(lia))) as H1.
    destruct (hold (skew_new 10 1000) _ _ _) as [h1 o1] eqn:E1. destruct H1 as [H1 _].
    pose proof (hold_spec 100 _ (sample_forward 2 9000) false H1) as H2. unfold sample_hold. rewrite E1. cbn [fst].
    destruct (hold h1 _ _ _) as [h2 o2]. by destruct H2. }
  pose proof (release_gives_back_exactly_the_due (sample_config false) 100 (compute_at 7 [7] 2 Part) sample_hold 5900 ltac:(lia) Hw
    ltac:(vm_compute; discriminate) ltac:(unfold is_u64, u64_max; lia)) as Hr.
  destruct (release_due_skewed _ _ _) as [h' [owned redirected]]. destruct Hr as (_ & _ & He & _).
  - intros r Hr. change (entries sample_hold).*2 with [sample_forward 1 5000; sample_forward 2 9000] in Hr.
    apply elem_of_cons in Hr as [->|Hr]; [unfold is_u64, u64_max; cbn; lia|]. apply list_elem_of_singleton in Hr as ->. unfold is_u64, u64_max; cbn; lia.
  - rewrite He. vm_compute. reflexivity.
Defined.
