(* ===== verification/FanOut.v ===== *)
(** * FanOut: what a cache's writes become on the wire

    [store/fan_out.rs], [cluster/fan_out.rs] and the batching of [net/frames.rs]: the queue a shard pushes its writes
    onto, what a drained burst sends in each mode, to whom, and how the records are cut into frames. Keys are their
    encoded bytes. The mesh is the sequence of calls made on it; what each owner's outbox took is an argument. *)

From S2P Require Import Prelude Clock Part Types Record Expiry Wire Merge Arena Engine Apply Read Ownership Rebalance.

(** ** Definitions *)

Definition PROTOCOL_INVALIDATION_FOLD : Z := 8.

(** *** The queue, [store/fan_out.rs] *)

Inductive FanOutItem := Applied (key : Bytes) (ver : Hlc) | Forward (rec : WireRecord).

Record FanOutQueue := { fq_pending : list FanOutItem; fq_accepting : bool; fq_closed : bool }.

Definition queue_new (accepting : bool) : FanOutQueue := {| fq_pending := []; fq_accepting := accepting; fq_closed := false |}.
Definition seal (q : FanOutQueue) : FanOutQueue :=
  {| fq_pending := fq_pending q; fq_accepting := fq_accepting q; fq_closed := true |}.
Definition close_queue (q : FanOutQueue) : FanOutQueue := {| fq_pending := []; fq_accepting := false; fq_closed := true |}.
Definition is_open (q : FanOutQueue) : bool := negb (fq_closed q).
Definition extend (q : FanOutQueue) (keys : list FanOutItem) : FanOutQueue * bool :=
  if negb (is_open q) then (q, false)
  else if negb (fq_accepting q) then (q, true)
  else ({| fq_pending := fq_pending q ++ keys; fq_accepting := fq_accepting q; fq_closed := fq_closed q |}, true).
Definition push_item (q : FanOutQueue) (key : FanOutItem) : FanOutQueue * bool :=
  if negb (is_open q) then (q, false)
  else if negb (fq_accepting q) then (q, true)
  else ({| fq_pending := fq_pending q ++ [key]; fq_accepting := fq_accepting q; fq_closed := fq_closed q |}, true).
Definition drain (q : FanOutQueue) : FanOutQueue * list FanOutItem :=
  ({| fq_pending := []; fq_accepting := fq_accepting q; fq_closed := fq_closed q |}, fq_pending q).
Definition fan_out_over_capacity (pending_len capacity : Z) : bool := capacity <=? pending_len.

(** *** A write's way onto the queue, [insert_expiring] and [apply_or_forward] of [store/shard_write.rs] *)

Inductive WriteResult := TooLarge (size limit : Z) | ClosedErr | Forwarded | AppliesHere.

(** What a record's replicate frame takes. *)
Definition rec_frame_len (cache_name : SmolStr) (rec : WireRecord) : Z :=
  replicate_frame_len (blen cache_name) (blen (wr_key rec)) (from_option blen 0 (wr_value rec)).

Definition insert_route (q : FanOutQueue) (owns_key : bool) (max_frame : Z) (cache_name : SmolStr) (rec : WireRecord) :
    FanOutQueue * WriteResult :=
  if max_frame <? rec_frame_len cache_name rec then (q, TooLarge (from_option blen 0 (wr_value rec)) max_frame)
  else if negb owns_key then let (q, queued) := push_item q (Forward rec) in (q, if queued then Forwarded else ClosedErr)
  else (q, AppliesHere).

(** *** What a burst sends, [store/fan_out.rs] *)

Record FanOutRecords := { fr_records : list WireRecord; fr_departed : list WireRecord }.

(** The slot map holds each key's position in [out]. *)
Definition newest_step (out : list (Bytes * Hlc)) (item : Bytes * Hlc) : list (Bytes * Hlc) :=
  match list_find (fun x => x.1 = item.1) out with
  | Some (at_, _) => alter (fun x => (x.1, hlc_max x.2 item.2)) at_ out
  | None => out ++ [item]
  end.
Definition newest_per_key (items : list (Bytes * Hlc)) : list (Bytes * Hlc) := foldl newest_step [] items.

Definition note_written (written : gmap Bytes Hlc) (w : Bytes * Hlc) : gmap Bytes Hlc :=
  partial_alter (fun queued => Some (from_option (fun queued => hlc_max queued w.2) w.2 queued)) w.1 written.

Definition keep_fetched (written : gmap Bytes Hlc) (version_ordered : bool)
    (st : gset Bytes * list WireRecord) (rec : WireRecord) : gset Bytes * list WireRecord :=
  if version_ordered && is_some_and (written !! wr_key rec) (fun queued => hlc_ltb (wr_ver rec) queued) then st
  else ({[wr_key rec]} ∪ st.1, st.2 ++ [rec]).

Definition depart (written : gmap Bytes Hlc) (covered : gset Bytes)
    (st : gset Bytes * list WireRecord) (w : Bytes * Hlc) : gset Bytes * list WireRecord :=
  if bool_decide (w.1 ∈ covered) || bool_decide (w.1 ∈ st.1) then st
  else ({[w.1]} ∪ st.1,
        st.2 ++ [{| wr_key := w.1; wr_value := None; wr_ver := default w.2 (written !! w.1); wr_expires_at_ms := None |}]).

Definition partition_writes (writes : list (Bytes * Hlc)) (fetched : list WireRecord) (version_ordered : bool) : FanOutRecords :=
  let written := foldl note_written ∅ writes in
  let (covered, records) := foldl (keep_fetched written version_ordered) (∅, []) fetched in
  {| fr_records := records; fr_departed := (foldl (depart written covered) (∅, []) writes).2 |}.

Definition fill_fans_out (mode : Mode) : bool := match mode with Invalidation => false | _ => true end.
Inductive FillRoute := Install | Uncached (counts_refusal : bool).
Definition fill_route (owns at_ceiling : bool) : FillRoute :=
  if negb owns then Uncached false else if at_ceiling then Uncached true else Install.
Inductive ReadThroughRoute := LoadLocal | OwnersFirst.
Definition read_through_route (mode : Mode) (owns : bool) : ReadThroughRoute :=
  match mode with Distributed _ => if negb owns then OwnersFirst else LoadLocal | _ => LoadLocal end.
Definition fan_out_ships_values (mode : Mode) (merges : bool) : bool := merges || match mode with Invalidation => false | _ => true end.

Section Records.
Context {PU : PostcardU32} {HS : Hashing} {V : Type} {VC : ValueCodec V} {R : ConflictResolver}.

(** [shard_serve.rs], where every entry is resident. *)
Definition fan_out_records (e : Engine V) (now_ms : Z) (writes : list (Bytes * Hlc)) : FanOutRecords :=
  partition_writes writes (omap (fun w => written_record_for e w.1 now_ms) writes)
    (negb (exchanges_both_records merges needs_value_bytes)).
End Records.

(** *** Frames, [net/frames.rs] *)

Record Chunking := { ch_chunks : list (list WireRecord); ch_current : list WireRecord; ch_bytes : Z }.

Definition chunk_step (cache_name : SmolStr) (st : Chunking) (rec : WireRecord) : Chunking :=
  let rec_bytes := rec_frame_len cache_name rec in
  let st :=
    if negb (bool_decide (ch_current st = []))
       && ((REPLICATE_BATCH_COUNT <=? Z.of_nat (length (ch_current st))) || (REPLICATE_BATCH_BUDGET <? ch_bytes st + rec_bytes))
    then {| ch_chunks := ch_chunks st ++ [ch_current st]; ch_current := []; ch_bytes := 0 |}
    else st in
  {| ch_chunks := ch_chunks st; ch_current := ch_current st ++ [rec]; ch_bytes := ch_bytes st + rec_bytes |}.

Definition chunk_records (cache_name : SmolStr) (records : list WireRecord) : list (list WireRecord) :=
  let st := foldl (chunk_step cache_name) {| ch_chunks := []; ch_current := []; ch_bytes := 0 |} records in
  if bool_decide (ch_current st = []) then ch_chunks st else ch_chunks st ++ [ch_current st].

Definition batch_replicate (cache_name : SmolStr) (records : list WireRecord) : list Msg :=
  (fun recs => match recs with [rec] => Replicate cache_name rec | _ => ReplicateBatch cache_name recs end)
    <$> chunk_records cache_name records.
Definition batch_forward (cache_name : SmolStr) (view_hash hops : Z) (records : list WireRecord) : list Msg :=
  (fun recs => ForwardBatch cache_name view_hash hops recs) <$> chunk_records cache_name records.

Record OutFrame := { of_msg : Msg; of_frame : Bytes }.

(** *** What a write sends, [cluster/fan_out.rs] *)

Inductive MsgClass := ClassInvalidate | ClassReplicate.

(** The calls a batch makes, in order. *)
Inductive Effect :=
  | ApplyForwarded (recs : list WireRecord)
  | NoteUnsent (peer : NodeId) (frames : nat)
  | SendFrames (peer : NodeId) (class : MsgClass) (frames : list OutFrame)
  | SendWithin (peer : NodeId) (frames : list OutFrame)
  | CountLost (writes : Z).

Definition invalidation_ships_values (merges : bool) (peer_protocol : Z) : bool :=
  merges && peer_supports peer_protocol PROTOCOL_INVALIDATION_FOLD.

Definition invalidations (cache_name : SmolStr) (records : list WireRecord) : list Msg :=
  (fun rec => Invalidate cache_name (wr_key rec) (wr_ver rec)) <$> records.

Definition ships (cache_name : SmolStr) (rec : WireRecord) : bool :=
  negb (is_tombstone rec) && (rec_frame_len cache_name rec <=? MAX_FRAME).

Definition fold_msgs (cache_name : SmolStr) (records : list WireRecord) : list Msg :=
  batch_replicate cache_name (List.filter (ships cache_name) records)
  ++ invalidations cache_name (List.filter (fun rec => negb (ships cache_name rec)) records).

Record InvalidationSend := { is_peers : list NodeId; is_msgs : list Msg }.

Definition invalidation_sends (merges : bool) (peers : list (NodeId * Z)) (cache_name : SmolStr) (records : list WireRecord) :
    list InvalidationSend :=
  let folding := List.filter (fun p => invalidation_ships_values merges p.2) peers in
  let dropping := List.filter (fun p => negb (invalidation_ships_values merges p.2)) peers in
  (if bool_decide (folding = []) then [] else [{| is_peers := folding.*1; is_msgs := fold_msgs cache_name records |}])
  ++ (if bool_decide (dropping = []) then [] else [{| is_peers := dropping.*1; is_msgs := invalidations cache_name records |}]).

Record OwnerGroup := { og_owners : list NodeId; og_records : list WireRecord }.
Record DepartedSend := { ds_targets : list NodeId; ds_records : list WireRecord }.
Record OwnerFrame := { ow_frame : OutFrame; ow_targets : list NodeId; ow_invalidation : bool }.

Section Send.
Context {HS : Hashing} {PM : PostcardMsg}.

Definition part_of (rec : WireRecord) : PartId := Pid.from_hash (xxh3_64 (wr_key rec)).

Definition other_owners (view : OwnershipView) (self_node : NodeId) (rec : WireRecord) : list NodeId :=
  sort_Z (filter (fun n => n <> self_node) (owners_of view (part_of rec))).

Definition group_by_owner_set (view : OwnershipView) (self_node : NodeId) (records : list WireRecord) : list OwnerGroup :=
  (fun g => {| og_owners := g.1; og_records := g.2 |})
    <$> group_in_order ((fun rec => (other_owners view self_node rec, [rec])) <$> records).

Definition out_frame (msg : Msg) : result OutFrame CodecError :=
  let? frame := encode msg in Ok {| of_msg := msg; of_frame := frame |}.

Definition encode_step (st : list OutFrame * nat) (msg : Msg) : list OutFrame * nat :=
  match out_frame msg with Ok frame => (st.1 ++ [frame], st.2) | Err _ => (st.1, S st.2) end.
Definition encode_frames (msgs : list Msg) : list OutFrame * nat := foldl encode_step ([], 0%nat) msgs.

Definition encode_frames_for (peers : list NodeId) (msgs : list Msg) : list OutFrame * list Effect :=
  let (frames, unencoded) := encode_frames msgs in (frames, (fun peer => NoteUnsent peer unencoded) <$> peers).

(** A [BTreeMap] of the targets, each with the indices of its frames. *)
Definition frames_by_owner (frames : list OwnerFrame) : list (NodeId * list nat) :=
  (fun owner => (owner, zip (seq 0 (length frames)) frames ≫= (fun x => (fun _ => x.1) <$> filter (fun t => t = owner) (ow_targets x.2))))
    <$> dedup (sort_Z (frames ≫= ow_targets)).

(** How many writes the frames lost, given how many targets took each. *)
Definition lost_of (stored : WireRecord -> bool) (x : OwnerFrame * nat) : Z :=
  let (frame, took) := x in
  match of_msg (ow_frame frame) with
  | Invalidate _ _ _ => if ow_invalidation frame && (took <? length (ow_targets frame))%nat then 1 else 0
  | ForwardBatch _ _ _ recs =>
      if negb (ow_invalidation frame) && (took =? 0)%nat then Z.of_nat (length (List.filter (fun rec => negb (stored rec)) recs)) else 0
  | _ => 0
  end.
Definition lost_writes (frames : list OwnerFrame) (delivered : list nat) (stored : WireRecord -> bool) : Z :=
  foldr (fun x n => lost_of stored x + n) 0 (zip frames delivered).

(** The frames of a batch to the owners of its parts, with the calls made while they are encoded. *)
Definition owner_frames (targets : list NodeId) (msgs : list Msg) (invalidation : bool) : list OwnerFrame * list Effect :=
  let (frames, noted) := encode_frames_for targets msgs in
  ((fun frame => {| ow_frame := frame; ow_targets := targets; ow_invalidation := invalidation |}) <$> frames, noted).

Definition record_frames (cache_name : SmolStr) (view : OwnershipView) (group : OwnerGroup) : list OwnerFrame * list Effect :=
  if bool_decide (og_owners group = []) then ([], [])
  else owner_frames (og_owners group) (batch_forward cache_name (ov_view_hash view) 0 (og_records group)) false.
Definition departed_frames (cache_name : SmolStr) (send : DepartedSend) : list OwnerFrame * list Effect :=
  owner_frames (ds_targets send) (invalidations cache_name (ds_records send)) true.

Definition both {A B} (xs : list (list A * list B)) : list A * list B := (xs ≫= fst, xs ≫= snd).

Definition owner_batch (cache_name : SmolStr) (view : OwnershipView) (self_node : NodeId) (records : list WireRecord)
    (departed : list DepartedSend) : list OwnerFrame * list Effect :=
  both ((record_frames cache_name view <$> group_by_owner_set view self_node records) ++ (departed_frames cache_name <$> departed)).

(** How many of its targets took each frame, when each owner took the first [placed owner] of its own. *)
Definition delivered_to (frames : list OwnerFrame) (placed : NodeId -> nat) : list nat :=
  foldl (fun delivered (x : NodeId * list nat) => foldl (fun delivered i => alter S i delivered) delivered (take (placed x.1) x.2))
    (replicate (length frames) 0%nat) (frames_by_owner frames).

Definition fan_out_to_owners (cache_name : SmolStr) (view : OwnershipView) (self_node : NodeId) (records : list WireRecord)
    (departed : list DepartedSend) (placed : NodeId -> nat) : list Effect :=
  let (frames, noted) := owner_batch cache_name view self_node records departed in
  let sends := (fun x : NodeId * list nat => SendWithin x.1 (omap (fun i => ow_frame <$> frames !! i) x.2)) <$> frames_by_owner frames in
  let lost := lost_writes frames (delivered_to frames placed) (fun rec => owns view (part_of rec)) in
  noted ++ sends ++ (if 0 <? lost then [CountLost lost] else []).

Definition plan_departed_sends (mode : Mode) (peers : list NodeId) (view : option OwnershipView) (self_node : NodeId)
    (merges : bool) (departed : list WireRecord) : list DepartedSend :=
  if bool_decide (departed = []) || merges then []
  else match mode with
       | Local => []
       | Invalidation | Replicated => if bool_decide (peers = []) then [] else [{| ds_targets := peers; ds_records := departed |}]
       | Distributed _ =>
           match view with
           | None => []
           | Some view =>
               (fun g => {| ds_targets := og_owners g; ds_records := og_records g |})
                 <$> filter (fun g => og_owners g <> []) (group_by_owner_set view self_node departed)
           end
       end.

Definition send_all (peers : list NodeId) (class : MsgClass) (msgs : list Msg) : list Effect :=
  let (frames, noted) := encode_frames_for peers msgs in noted ++ ((fun peer => SendFrames peer class frames) <$> peers).

Definition send_departed (cache_name : SmolStr) (plan : list DepartedSend) : list Effect :=
  plan ≫= (fun d => send_all (ds_targets d) ClassInvalidate (invalidations cache_name (ds_records d))).
Definition broadcast_invalidation (peers : list (NodeId * Z)) (merges : bool) (cache_name : SmolStr) (records : list WireRecord) :
    list Effect :=
  invalidation_sends merges peers cache_name records ≫= (fun s => send_all (is_peers s) ClassInvalidate (is_msgs s)).
Definition broadcast_replicate (live : list NodeId) (cache_name : SmolStr) (records : list WireRecord) : list Effect :=
  send_all live ClassReplicate (batch_replicate cache_name records).

(** The writes a drain took, split by kind. *)
Definition applied_of (notified : list FanOutItem) : list (Bytes * Hlc) :=
  omap (fun item => match item with Applied key ver => Some (key, ver) | Forward _ => None end) notified.
Definition forwarded_of (notified : list FanOutItem) : list WireRecord :=
  omap (fun item => match item with Forward rec => Some rec | Applied _ _ => None end) notified.

Record FanOutCluster := {
  fc_node : NodeId;
  (** [peers] and the protocol each speaks, and [live_peer_ids]. *)
  fc_peers : list (NodeId * Z);
  fc_live : list NodeId;
}.

(** [read_back] is [Shard::fan_out_records]. *)
Definition fan_out_batch (read_back : list (Bytes * Hlc) -> FanOutRecords) (view : option OwnershipView) (merges : bool)
    (cluster : FanOutCluster) (cache_name : SmolStr) (mode : Mode) (placed : NodeId -> nat) (notified : list FanOutItem) :
    list Effect :=
  let applied := newest_per_key (applied_of notified) in
  let forwarded := forwarded_of notified in
  if bool_decide (applied = []) && bool_decide (forwarded = []) then []
  else
    let fetched := read_back applied in
    let records := fr_records fetched ++ forwarded in
    let departed := fr_departed fetched in
    if bool_decide (records = []) && bool_decide (departed = []) then []
    else match mode with
         | Distributed _ =>
             match view with
             | None => []
             | Some view =>
                 let mine := List.filter (fun rec => owns view (part_of rec)) forwarded in
                 let plan := plan_departed_sends mode [] (Some view) (fc_node cluster) merges departed in
                 (if bool_decide (mine = []) then [] else [ApplyForwarded mine])
                 ++ fan_out_to_owners cache_name view (fc_node cluster) records plan placed
             end
         | _ =>
             match mode with
             | Invalidation => broadcast_invalidation (fc_peers cluster) merges cache_name records
             | Replicated => broadcast_replicate (fc_live cluster) cache_name records
             | _ => []
             end
             ++ send_departed cache_name (plan_departed_sends mode (fc_live cluster) None (fc_node cluster) merges departed)
         end.
End Send.

(** ** Cutting records into frames *)

(** A chunk: some records, within the count cap, alone or within the byte budget. *)
Definition chunk_ok (cache : SmolStr) (recs : list WireRecord) : Prop :=
  recs <> [] /\ Z.of_nat (length recs) <= REPLICATE_BATCH_COUNT /\
  (length recs = 1%nat \/ sum_Z (rec_frame_len cache <$> recs) <= REPLICATE_BATCH_BUDGET).

Lemma sum_Z_one x : sum_Z [x] = x.
Proof. unfold sum_Z. cbn. lia. Qed.

Lemma frame_chunk_inv cache st rec done :
  Forall (chunk_ok cache) (ch_chunks st) -> (ch_current st = [] \/ chunk_ok cache (ch_current st)) ->
  ch_bytes st = sum_Z (rec_frame_len cache <$> ch_current st) -> concat (ch_chunks st) ++ ch_current st = done ->
  let st' := chunk_step cache st rec in
  Forall (chunk_ok cache) (ch_chunks st') /\ chunk_ok cache (ch_current st') /\
  ch_bytes st' = sum_Z (rec_frame_len cache <$> ch_current st') /\ concat (ch_chunks st') ++ ch_current st' = done ++ [rec].
Proof.
  intros Hc Hcur Hb Hd. unfold chunk_step. destruct (bool_decide_reflect (ch_current st = [])) as [Hnil|Hnil]; cbn [negb andb].
  { rewrite Hnil in *. cbn. unfold chunk_ok. rewrite sum_Z_one. cbn in Hb. rewrite Hb. change (sum_Z []) with 0. cbn in Hd. rewrite app_nil_r in Hd. subst done.
    split_and!; solve [done | unfold REPLICATE_BATCH_COUNT; cbn; lia | by left | lia]. }
  destruct Hcur as [Hcur|Hcur]; [done|].
  destruct ((REPLICATE_BATCH_COUNT <=? _) || _) eqn:E; cbn.
  - split_and!.
    + apply Forall_app. split; [done|]. by constructor.
    + unfold chunk_ok, REPLICATE_BATCH_COUNT. cbn. split_and!; [done|lia|by left].
    + rewrite sum_Z_one. lia.
    + rewrite concat_app. cbn. by rewrite app_nil_r, Hd.
  - apply orb_false_iff in E as [E1%Z.leb_gt E2%Z.ltb_ge]. rewrite fmap_app, sum_Z_app. cbn [fmap list_fmap]. rewrite sum_Z_one. split_and!; try done.
    + unfold chunk_ok. rewrite fmap_app, sum_Z_app, length_app. cbn [fmap list_fmap length]. rewrite sum_Z_one. destruct Hcur as [Hne _]. split_and!; [by destruct (ch_current st)|lia|]. right. lia.
    + lia.
    + by rewrite (assoc_L (++)), Hd.
Qed.

Lemma chunk_records_spec cache records :
  concat (chunk_records cache records) = records /\ Forall (chunk_ok cache) (chunk_records cache records).
Proof.
  unfold chunk_records. set (st := foldl _ _ _).
  assert (Forall (chunk_ok cache) (ch_chunks st) /\ (ch_current st = [] \/ chunk_ok cache (ch_current st)) /\
    ch_bytes st = sum_Z (rec_frame_len cache <$> ch_current st) /\ concat (ch_chunks st) ++ ch_current st = records) as (Hc & Hcur & _ & Hd).
  { unfold st. clear st. induction records as [|rec records IH] using rev_ind; [split_and!; try done; by left|].
    rewrite foldl_app. cbn [foldl]. destruct IH as (H1 & H2 & H3 & H4).
    destruct (frame_chunk_inv cache _ rec _ H1 H2 H3 H4) as (H1' & H2' & H3' & H4'). split_and!; try done. by right. }
  case_bool_decide as Hnil.
  - rewrite Hnil, app_nil_r in Hd. by split.
  - destruct Hcur as [Hcur|Hcur]; [done|]. split.
    + rewrite concat_app. cbn. by rewrite app_nil_r.
    + apply Forall_app. split; [done|]. by constructor.
Qed.

(** A record that fits the widest frame one record travels in. *)
Definition fits_forward (cache : SmolStr) (rec : WireRecord) : Prop :=
  forward_frame_len (blen cache) (blen (wr_key rec)) (from_option blen 0 (wr_value rec)) <= MAX_FRAME.

#[export] Instance fits_forward_dec cache rec : Decision (fits_forward cache rec).
Proof. unfold fits_forward. apply _. Defined.

Lemma fits_forward_lens cache rec : fits_forward cache rec ->
  blen (wr_key rec) <= u32_max /\ from_option blen 0 (wr_value rec) <= u32_max /\ rec_frame_len cache rec <= MAX_FRAME - 9.
Proof.
  unfold fits_forward, rec_frame_len, forward_frame_len, replicate_frame_len, MAX_FRAME, u32_max, RAW_FRAME_HEADER_LEN, RECORD_HEADER_LEN, FORWARD_HEADER_LEN.
  pose proof (blen_nonneg cache). pose proof (blen_nonneg (wr_key rec)).
  assert (0 <= from_option blen 0 (wr_value rec)) by (destruct (wr_value rec); cbn; [apply blen_nonneg|lia]). lia.
Qed.

Lemma encode_record_total rec : blen (wr_key rec) <= u32_max -> from_option blen 0 (wr_value rec) <= u32_max ->
  exists b, encode_record rec = Ok b.
Proof.
  intros Hk Hv. unfold encode_record, ensure. rewrite (proj2 (Z.leb_le _ _) Hk). cbn [result_bind].
  destruct (wr_value rec) as [v|]; cbn [from_option] in Hv; [rewrite (proj2 (Z.leb_le _ _) Hv)|]; cbn; destruct (wr_expires_at_ms rec); eauto.
Qed.

Lemma encode_records_total recs :
  Forall (fun rec => blen (wr_key rec) <= u32_max /\ from_option blen 0 (wr_value rec) <= u32_max) recs ->
  exists bs, encode_records recs = Ok bs.
Proof.
  induction 1 as [|rec recs [Hk Hv] _ [bs IH]]; [by exists []|]. cbn. destruct (encode_record_total rec Hk Hv) as [b ->]. cbn.
  rewrite IH. cbn. eauto.
Qed.

(** A raw frame encodes when its parts' lengths are in range and together fit the limit. *)
Lemma encode_raw_total kind cache recs x : blen cache <= u16_max -> Z.of_nat (length recs) <= u32_max ->
  Forall (fun rec => blen (wr_key rec) <= u32_max /\ from_option blen 0 (wr_value rec) <= u32_max) recs ->
  9 + blen cache + blen (extra_bytes x) + sum_Z (record_len <$> recs) <= MAX_FRAME ->
  exists b, encode_raw_frame kind cache recs x = Ok b.
Proof.
  intros Hc Hn Hr Hlen. unfold encode_raw_frame, ensure. rewrite (proj2 (Z.leb_le _ _) Hc). cbn [result_bind].
  rewrite (proj2 (Z.leb_le _ _) Hn). cbn [result_bind]. destruct (encode_records_total recs Hr) as [bs Hbs]. rewrite Hbs. cbn [result_bind].
  set (b := _ ++ _ ++ cache ++ _ ++ bs). assert (Hb : blen b <= MAX_FRAME).
  { unfold b. rewrite !blen_app. unfold blen at 2. rewrite frame_header_len, (encode_records_len _ _ Hbs).
    unfold RAW_FRAME_HEADER_LEN, extra_bytes in *. unfold blen at 1. cbn [length]. destruct x; cbn [length] in *; lia. }
  unfold check_frame_len, ensure. rewrite (proj2 (Z.leb_le _ _) Hb). cbn. eauto.
Qed.

Lemma rec_frame_len_lens cache rec : rec_frame_len cache rec <= MAX_FRAME ->
  blen (wr_key rec) <= u32_max /\ from_option blen 0 (wr_value rec) <= u32_max.
Proof.
  unfold rec_frame_len, replicate_frame_len, MAX_FRAME, u32_max, RAW_FRAME_HEADER_LEN, RECORD_HEADER_LEN.
  pose proof (blen_nonneg cache). pose proof (blen_nonneg (wr_key rec)).
  assert (0 <= from_option blen 0 (wr_value rec)) by (destruct (wr_value rec); cbn; [apply blen_nonneg|lia]). lia.
Qed.

Lemma chunk_len cache recs limit : chunk_ok cache recs -> REPLICATE_BATCH_BUDGET <= limit ->
  Forall (fun rec => rec_frame_len cache rec <= limit) recs -> blen cache + 9 + sum_Z (record_len <$> recs) <= limit.
Proof.
  intros (Hne & _ & Hlen) Hlim Hf.
  assert (Hone : forall rec, rec_frame_len cache rec = 9 + blen cache + record_len rec)
    by (intros; unfold rec_frame_len, replicate_frame_len, record_len, RAW_FRAME_HEADER_LEN, RECORD_HEADER_LEN; lia).
  destruct Hlen as [H1|Hb].
  - destruct recs as [|rec [|]]; try done. cbn [fmap list_fmap]. rewrite sum_Z_one. apply Forall_cons in Hf as [Hf _]. rewrite Hone in Hf. lia.
  - assert (blen cache + 9 + sum_Z (record_len <$> recs) <= sum_Z (rec_frame_len cache <$> recs)); [|lia].
    clear -Hne Hone. pose proof (blen_nonneg cache). destruct recs as [|r recs]; [done|]. clear Hne. revert r. induction recs as [|r' recs IH]; intros r; cbn [fmap list_fmap]; [rewrite !sum_Z_one, Hone; lia|].
    specialize (IH r'). cbn [fmap list_fmap] in IH. rewrite (sum_Z_cons (record_len r)), (sum_Z_cons (rec_frame_len cache r)), Hone. lia.
Qed.

Section Encode.
Context {PM : PostcardMsg}.

(** The chunks of records that each fit, one property of records carried to the chunks. *)
Lemma chunks_of (P : WireRecord -> Prop) cache records : Forall P records ->
  Forall (fun recs => chunk_ok cache recs /\ Forall P recs) (chunk_records cache records).
Proof.
  intros Hf. destruct (chunk_records_spec cache records) as [Hcat Hok]. rewrite <-Hcat in Hf. apply Forall_concat in Hf. apply Forall_and. by split.
Qed.

Lemma forward_chunk_encodes cache recs vh hops : blen cache <= u16_max -> chunk_ok cache recs -> Forall (fits_forward cache) recs ->
  exists b, encode (ForwardBatch cache vh hops recs) = Ok b.
Proof.
  intros Hc Hch Hfit.
  assert (Hall : Forall (fun rec => rec_frame_len cache rec <= MAX_FRAME - 9) recs)
    by (eapply Forall_impl; [exact Hfit|]; intros rec Hrec; by apply fits_forward_lens in Hrec as (_ & _ & ?)).
  pose proof (chunk_len cache recs (MAX_FRAME - 9) Hch ltac:(unfold REPLICATE_BATCH_BUDGET, MAX_FRAME; lia) Hall) as Hl. destruct Hch as (_ & Hcount & _).
  apply encode_raw_total; [done|unfold REPLICATE_BATCH_COUNT, u32_max in *; lia| |].
  - eapply Forall_impl; [exact Hfit|]. intros rec Hrec. by apply fits_forward_lens in Hrec as (? & ? & _).
  - cbn [extra_bytes]. unfold blen at 2. rewrite forward_header_len. unfold FORWARD_HEADER_LEN. lia.
Qed.

Lemma forwards_encode cache records vh hops : blen cache <= u16_max -> Forall (fits_forward cache) records ->
  Forall (fun m => exists b, encode m = Ok b) (batch_forward cache vh hops records).
Proof.
  intros Hc Hf. apply Forall_fmap. eapply Forall_impl; [exact (chunks_of _ cache records Hf)|]. cbn. intros recs [Hch Hfit]. by apply forward_chunk_encodes.
Qed.

Lemma replicates_encode cache records : blen cache <= u16_max -> Forall (fun rec => rec_frame_len cache rec <= MAX_FRAME) records ->
  Forall (fun m => exists b, encode m = Ok b) (batch_replicate cache records) /\ batch_replicate cache records ≫= msg_records = records.
Proof.
  intros Hc Hf. split.
  - apply Forall_fmap. eapply Forall_impl; [exact (chunks_of _ cache records Hf)|]. cbn. intros recs [Hch Hfit].
    pose proof (chunk_len cache recs MAX_FRAME Hch ltac:(unfold REPLICATE_BATCH_BUDGET, MAX_FRAME; lia) Hfit) as Hl. destruct Hch as (Hne & Hcount & _).
    assert (Hlens : Forall (fun rec => blen (wr_key rec) <= u32_max /\ from_option blen 0 (wr_value rec) <= u32_max) recs)
      by (eapply Forall_impl; [exact Hfit|]; intros rec Hrec; by apply (rec_frame_len_lens cache)).
    destruct recs as [|rec [|rec' recs]]; [done| |]; cbn [encode];
      (apply encode_raw_total; [done|unfold REPLICATE_BATCH_COUNT, u32_max in *; cbn in *; lia|done|cbn [extra_bytes]; unfold blen at 2; cbn [length]; lia]).
  - unfold batch_replicate. destruct (chunk_records_spec cache records) as [Hc' _]. rewrite <-Hc' at 2. rewrite list_fmap_bind. unfold compose.
    clear. induction (chunk_records cache records) as [|recs l IH]; [done|]. rewrite bind_cons, IH. cbn [concat]. f_equal. by destruct recs as [|r [|]].
Qed.

Lemma encode_frames_all msgs : Forall (fun m => exists b, encode m = Ok b) msgs ->
  (encode_frames msgs).2 = 0%nat /\ of_msg <$> (encode_frames msgs).1 = msgs.
Proof.
  unfold encode_frames. induction msgs as [|m msgs IH] using rev_ind; [done|]. intros Hf. apply Forall_app in Hf as [Hf Hm].
  apply Forall_cons in Hm as [[b Hb] _]. destruct (IH Hf) as [H1 H2]. rewrite foldl_app. cbn [foldl].
  assert (Hs : forall st, encode_step st m = (st.1 ++ [{| of_msg := m; of_frame := b |}], st.2)) by (intros; unfold encode_step, out_frame; by rewrite Hb).
  rewrite !Hs. cbn [fst snd]. by rewrite H1, fmap_app, H2.
Qed.

Lemma encode_frames_msgs msgs m : m ∈ of_msg <$> (encode_frames msgs).1 -> m ∈ msgs.
Proof.
  unfold encode_frames. induction msgs as [|m' msgs IH] using rev_ind; [done|]. rewrite foldl_app. cbn [foldl]. unfold encode_step at 1.
  rewrite elem_of_app. unfold out_frame. destruct (encode m'); cbn; [|tauto]. rewrite fmap_app, elem_of_app. cbn. tauto.
Qed.

(** The frames are those of the messages that encode. *)
Definition encodes (m : Msg) : bool := match encode m with Ok _ => true | Err _ => false end.

Lemma encode_frames_filter msgs : of_msg <$> (encode_frames msgs).1 = filter (fun m => encodes m = true) msgs.
Proof.
  unfold encode_frames. induction msgs as [|m msgs IH] using rev_ind; [done|]. rewrite foldl_app, filter_app. cbn [foldl]. unfold encode_step at 1, out_frame.
  rewrite filter_cons, filter_nil. destruct (encodes m) eqn:Em; unfold encodes in Em; destruct (encode m); try done; cbn; [by rewrite fmap_app, IH|by rewrite app_nil_r].
Qed.

Lemma oversize_forward cache vh hops rec : ~ fits_forward cache rec -> encodes (ForwardBatch cache vh hops [rec]) = false.
Proof.
  intros Hf. unfold encodes. destruct (encode (ForwardBatch cache vh hops [rec])) as [b|e] eqn:E; [|done]. exfalso. apply Hf. cbn [encode] in E.
  apply encode_raw_frame_inv in E as (body & Hb & _ & _ & Hlen & ->). rewrite !blen_app in Hlen. rewrite (encode_records_len _ _ Hb) in Hlen.
  cbn [fmap list_fmap extra_bytes] in Hlen. rewrite sum_Z_one in Hlen. revert Hlen. unfold blen at 2. rewrite frame_header_len. unfold blen at 3. rewrite forward_header_len.
  unfold fits_forward, forward_frame_len, replicate_frame_len, record_len. unfold blen at 1. cbn [length]. lia.
Qed.

(** A chunk of more than one record is well within the limit. *)
Lemma chunk_fits cache recs : chunk_ok cache recs -> Forall (fits_forward cache) recs \/ exists rec, recs = [rec] /\ ~ fits_forward cache rec.
Proof.
  intros (Hne & _ & [H1|Hb]).
  - destruct recs as [|rec [|]]; try done. destruct (decide (fits_forward cache rec)); [left; by constructor|right; by exists rec].
  - left. apply Forall_forall. intros rec Hrec.
    assert (Hle : rec_frame_len cache rec <= sum_Z (rec_frame_len cache <$> recs)).
    { apply sum_Z_elem_le; [|by apply list_elem_of_fmap_2]. apply Forall_fmap, Forall_forall. intros r _. unfold compose, rec_frame_len, replicate_frame_len, RAW_FRAME_HEADER_LEN, RECORD_HEADER_LEN.
      pose proof (blen_nonneg cache). pose proof (blen_nonneg (wr_key r)). destruct (wr_value r) as [v|]; cbn; [pose proof (blen_nonneg v)|]; lia. }
    unfold REPLICATE_BATCH_BUDGET in Hb. unfold fits_forward, forward_frame_len, FORWARD_HEADER_LEN, MAX_FRAME. change (rec_frame_len cache rec) with (replicate_frame_len (blen cache) (blen (wr_key rec)) (from_option blen 0 (wr_value rec))) in Hle. lia.
Qed.

(** A chunk's frame is sent, with all its records, exactly when they fit. *)
Lemma chunk_sent cache vh hops recs : blen cache <= u16_max -> chunk_ok cache recs ->
  (if encodes (ForwardBatch cache vh hops recs) then recs else []) = filter (fits_forward cache) recs.
Proof.
  intros Hc Hok. destruct (chunk_fits cache recs Hok) as [Hf|(rec & -> & Hn)].
  - rewrite list_filter_all by done. pose proof (forward_chunk_encodes cache recs vh hops Hc Hok Hf) as [b Hb]. unfold encodes. by rewrite Hb.
  - rewrite oversize_forward by done. by rewrite filter_cons_False.
Qed.
End Encode.

(** ** Grouping *)

(** The values under the keys [Q] selects, in order. *)
Definition sel {K V} (Q : K -> bool) (l : list (K * list V)) : list V := l ≫= (fun kv => if Q kv.1 then kv.2 else []).

Section Selecting.
Context {K V : Type} `{EqDecision K}.
Implicit Types (l : list (K * list V)) (Q : K -> bool).

Lemma sel_app Q l l' : sel Q (l ++ l') = sel Q l ++ sel Q l'.
Proof. apply bind_app. Qed.

Lemma sel_cons Q kv l : sel Q (kv :: l) = (if Q kv.1 then kv.2 else []) ++ sel Q l.
Proof. done. Qed.

Lemma alter_split l i kv vs : l !! i = Some kv ->
  exists l1 l2, l = l1 ++ kv :: l2 /\ length l1 = i /\ alter (fun g : K * list V => (g.1, g.2 ++ vs)) i l = l1 ++ (kv.1, kv.2 ++ vs) :: l2.
Proof.
  intros Hi. apply list_elem_of_split_length in Hi as (l1 & l2 & -> & ->). exists l1, l2. split_and!; try done.
  clear. induction l1 as [|x l1 IH]; [done|]. cbn. f_equal. exact IH.
Qed.

Lemma group_add_sel Q l kv : sel Q (group_add l kv) ≡ₚ sel Q l ++ (if Q kv.1 then kv.2 else []).
Proof.
  unfold group_add. destruct (list_find _ l) as [[i g]|] eqn:E; [|by rewrite sel_app, sel_cons, app_nil_r].
  apply list_find_Some in E as (Hi & Hk & _). destruct (alter_split l i g kv.2 Hi) as (l1 & l2 & -> & _ & ->).
  rewrite !sel_app, !sel_cons. cbn [fst snd]. rewrite Hk. destruct (Q kv.1); [|by rewrite !app_nil_r].
  rewrite <-!(assoc_L (++)). do 2 f_equiv. apply Permutation_app_comm.
Qed.

Lemma group_add_key l kv k : NoDup l.*1 -> sel (fun k' => bool_decide (k' = k)) (group_add l kv) =
  sel (fun k' => bool_decide (k' = k)) l ++ (if bool_decide (kv.1 = k) then kv.2 else []).
Proof.
  intros Hnd. unfold group_add. destruct (list_find _ l) as [[i g]|] eqn:E; [|by rewrite sel_app, sel_cons, app_nil_r].
  apply list_find_Some in E as (Hi & Hk & _). destruct (alter_split l i g kv.2 Hi) as (l1 & l2 & -> & _ & ->).
  rewrite !sel_app, !sel_cons. cbn [fst snd]. rewrite Hk. case_bool_decide as Hkk; [|by rewrite !app_nil_r].
  assert (sel (fun k' => bool_decide (k' = k)) l2 = []) as ->; [|by rewrite !app_nil_r, (assoc_L (++))].
  rewrite fmap_app in Hnd. apply NoDup_app in Hnd as (_ & _ & Hnd). cbn in Hnd. apply NoDup_cons in Hnd as [Hnd _].
  clear -Hnd Hkk Hk. induction l2 as [|kv' l2 IH]; [done|]. rewrite sel_cons. cbn in Hnd. apply not_elem_of_cons in Hnd as [Hne Hnd].
  rewrite bool_decide_eq_false_2 by congruence. by apply IH.
Qed.

Lemma group_in_order_sel (items : list (K * list V)) :
  (forall Q, sel Q (group_in_order items) ≡ₚ sel Q items) /\
  (forall k, sel (fun k' => bool_decide (k' = k)) (group_in_order items) = sel (fun k' => bool_decide (k' = k)) items).
Proof.
  unfold group_in_order. change (fun groups kv => _) with (@group_add K V _). split; induction items as [|kv items IH] using rev_ind; try done.
  - intros Q. rewrite foldl_app, sel_app. cbn [foldl]. by rewrite group_add_sel, IH, sel_cons, app_nil_r.
  - intros k. rewrite foldl_app, sel_app. cbn [foldl]. rewrite group_add_key, IH, sel_cons, app_nil_r; [done|].
    by destruct (group_in_order_spec items) as [Hnd _].
Qed.

(** Values of one kind under a single key keep their order among the selected ones. *)
Lemma sel_one (P : V -> Prop) `{!forall v, Decision (P v)} Q l k :
  (forall kv v, kv ∈ l -> v ∈ kv.2 -> P v -> kv.1 = k) ->
  filter P (sel Q l) = if Q k then filter P (sel (fun k' => bool_decide (k' = k)) l) else [].
Proof.
  induction l as [|kv l IH]; intros Hk; [by destruct (Q k)|]. rewrite !sel_cons, !filter_app, IH by (intros kv' v Hkv; apply Hk; by right).
  destruct (decide (kv.1 = k)) as [Heq|Hne].
  - rewrite bool_decide_eq_true_2 by done. rewrite Heq. by destruct (Q k).
  - rewrite bool_decide_eq_false_2 by done. assert (Hnil : filter P kv.2 = []).
    { destruct (filter P kv.2) as [|v vs] eqn:Ef; [done|]. exfalso. assert (v ∈ filter P kv.2) as [Hp Hv]%list_elem_of_filter by (rewrite Ef; left).
      apply Hne, (Hk kv v); [left|done..]. }
    cbn. destruct (Q kv.1); [rewrite Hnil|]; done.
Qed.

Lemma group_in_order_order (P : V -> Prop) `{!forall v, Decision (P v)} Q k items :
  (forall kv v, kv ∈ items -> v ∈ kv.2 -> P v -> kv.1 = k) ->
  filter P (sel Q (group_in_order items)) = filter P (sel Q items).
Proof.
  intros Hk. rewrite (sel_one P Q items k Hk). destruct (group_in_order_sel items) as [_ Hs]. rewrite <-Hs. apply sel_one.
  intros kv v Hkv Hv Hp. destruct (group_in_order_spec items) as [_ Hin]. destruct kv as [k' vs]. cbn in *.
  assert (in_group items k' v) as (vs' & Hvs & Hv') by (apply Hin; exists vs; eauto). by apply (Hk (k', vs') v).
Qed.

Lemma group_keys (items : list (K * list V)) k : k ∈ (group_in_order items).*1 -> k ∈ items.*1.
Proof.
  unfold group_in_order. change (fun groups kv => _) with (@group_add K V _). induction items as [|kv items IH] using rev_ind; [done|].
  rewrite foldl_app, fmap_app, elem_of_app. cbn [foldl]. intros Hk. unfold group_add in Hk at 1. destruct (list_find _ _) as [[i g]|] eqn:E.
  - left. apply IH. apply list_find_Some in E as (Hi & _). destruct (alter_split _ i g kv.2 Hi) as (l1 & l2 & Hl & _ & Ha).
    rewrite Ha in Hk. rewrite Hl. rewrite fmap_app in Hk |- *. exact Hk.
  - rewrite fmap_app, elem_of_app in Hk. destruct Hk as [Hk|Hk]; [left; by apply IH|by right].
Qed.
End Selecting.

(** ** What each peer is sent *)

Definition sent (effs : list Effect) (peer : NodeId) : list OutFrame :=
  effs ≫= (fun e => match e with
                    | SendFrames p _ frames | SendWithin p frames => if bool_decide (p = peer) then frames else []
                    | _ => []
                    end).
Definition sent_records (frames : list OutFrame) : list WireRecord := frames ≫= (fun f => msg_records (of_msg f)).
Definition sent_invalidations (frames : list OutFrame) : list (Bytes * Hlc) :=
  omap (fun f => match of_msg f with Invalidate _ key ver => Some (key, ver) | _ => None end) frames.

Definition to_peer (frames : list OwnerFrame) (peer : NodeId) : list OutFrame :=
  ow_frame <$> filter (fun f => peer ∈ ow_targets f) frames.

Lemma sent_app e e' p : sent (e ++ e') p = sent e p ++ sent e' p.
Proof. apply bind_app. Qed.

Lemma sent_none effs p : Forall (fun e => match e with SendFrames _ _ _ | SendWithin _ _ => False | _ => True end) effs -> sent effs p = [].
Proof. induction 1 as [|e effs He _ IH]; [done|]. unfold sent. rewrite bind_cons. fold (sent effs p). rewrite IH. by destruct e. Qed.

Lemma sent_within (f : NodeId -> list OutFrame) l p : NoDup l -> (p ∉ l -> f p = []) ->
  sent ((fun q => SendWithin q (f q)) <$> l) p = f p.
Proof.
  intros Hnd Hn. induction l as [|q l IH]; [symmetry; apply Hn; set_solver|]. apply NoDup_cons in Hnd as [Hq Hnd].
  unfold sent. cbn [fmap list_fmap]. rewrite bind_cons. fold (sent ((fun q => SendWithin q (f q)) <$> l) p). case_bool_decide as Heq.
  - subst q. enough (sent ((fun q => SendWithin q (f q)) <$> l) p = []) as -> by apply app_nil_r. clear -Hq.
    induction l as [|q l IH]; [done|]. apply not_elem_of_cons in Hq as [Hne Hq]. unfold sent. cbn [fmap list_fmap]. rewrite bind_cons.
    rewrite bool_decide_eq_false_2 by done. by apply IH.
  - cbn. apply IH; [done|]. intros Hl. apply Hn. rewrite not_elem_of_cons. done.
Qed.

Section Routing.
Context {HS : Hashing} {PM : PostcardMsg}.

(** The frames behind an owner's indices are the ones that target it, in order. *)
Lemma owner_index_frames (frames : list OwnerFrame) owner : Forall (fun f => NoDup (ow_targets f)) frames ->
  omap (fun i => ow_frame <$> frames !! i)
    (zip (seq 0 (length frames)) frames ≫= (fun x => (fun _ => x.1) <$> filter (fun t => t = owner) (ow_targets x.2))) = to_peer frames owner.
Proof.
  intros Hnd. unfold to_peer.
  assert (Hgen : forall pre rest, frames = pre ++ rest ->
    omap (fun i => ow_frame <$> frames !! i)
      (zip (seq (length pre) (length rest)) rest ≫= (fun x => (fun _ => x.1) <$> filter (fun t => t = owner) (ow_targets x.2))) =
    ow_frame <$> filter (fun f => owner ∈ ow_targets f) rest); [|by apply (Hgen [])].
  intros pre rest. revert pre. induction rest as [|f rest IH]; intros pre Heq; [done|]. cbn [length seq zip zip_with]. rewrite bind_cons, omap_app.
  replace (S (length pre)) with (length (pre ++ [f])) by (rewrite length_app; cbn; lia). rewrite IH by (rewrite Heq, <-(assoc_L (++)); done).
  rewrite filter_cons. rewrite Forall_forall in Hnd. specialize (Hnd f ltac:(rewrite Heq; apply elem_of_app; right; left)). cbn [fst snd].
  assert (Hl : frames !! length pre = Some f) by (rewrite Heq, lookup_app_r, Nat.sub_diag by lia; done).
  destruct (decide (owner ∈ ow_targets f)) as [Hin|Hn].
  - assert (filter (fun t => t = owner) (ow_targets f) = [owner]) as ->.
    { clear -Hin Hnd. induction (ow_targets f) as [|t ts IHt]; [by apply elem_of_nil in Hin|]. apply NoDup_cons in Hnd as [Hn Hnd]. rewrite filter_cons.
      case_decide as Ht; [subst t; f_equal|apply IHt; set_solver]. destruct (filter (fun t => t = owner) ts) as [|x xs] eqn:E; [done|].
      exfalso. assert (x ∈ filter (fun t => t = owner) ts) as [-> Hx]%list_elem_of_filter by (rewrite E; left). done. }
    cbn. rewrite Hl. done.
  - assert (filter (fun t => t = owner) (ow_targets f) = []) as ->; [|done].
    destruct (filter (fun t => t = owner) (ow_targets f)) as [|x xs] eqn:E; [done|]. exfalso.
    assert (x ∈ filter (fun t => t = owner) (ow_targets f)) as [-> Hx]%list_elem_of_filter by (rewrite E; left). done.
Qed.

Lemma owner_frames_spec targets msgs inv :
  let '(frames, noted) := owner_frames targets msgs inv in
  ow_frame <$> frames = (encode_frames msgs).1 /\ (forall f, f ∈ frames -> ow_targets f = targets /\ ow_invalidation f = inv) /\
  noted = (fun peer => NoteUnsent peer (encode_frames msgs).2) <$> targets.
Proof.
  unfold owner_frames, encode_frames_for. destruct (encode_frames msgs) as [frames n]. cbn. split_and!; [|set_solver|done].
  rewrite <-list_fmap_compose. unfold compose. cbn. apply list_fmap_id.
Qed.

Lemma to_peer_app l l' p : to_peer (l ++ l') p = to_peer l p ++ to_peer l' p.
Proof. unfold to_peer. by rewrite filter_app, fmap_app. Qed.

Lemma to_peer_owner_frames targets msgs inv p :
  to_peer (owner_frames targets msgs inv).1 p = if bool_decide (p ∈ targets) then (encode_frames msgs).1 else [].
Proof.
  pose proof (owner_frames_spec targets msgs inv) as Hs. destruct (owner_frames targets msgs inv) as [frames noted]. destruct Hs as (Hf & Ht & _).
  cbn [fst]. unfold to_peer. case_bool_decide as Hp.
  - rewrite list_filter_all; [done|]. apply Forall_forall. intros f Hin. by rewrite (proj1 (Ht f Hin)).
  - destruct (filter _ frames) as [|f fs] eqn:E; [done|]. exfalso.
    assert (f ∈ filter (fun f => p ∈ ow_targets f) frames) as [Hin Hff]%list_elem_of_filter by (rewrite E; left). by rewrite (proj1 (Ht f Hff)) in Hin.
Qed.
End Routing.

Section Owners.
Context {HS : Hashing} {PM : PostcardMsg} (view : OwnershipView) (self_node : NodeId) (cache : SmolStr).
Context (Hview : forall rec, NoDup (owners_of view (part_of rec))).

Definition to_owner (p : NodeId) (rec : WireRecord) : bool := bool_decide (p ∈ other_owners view self_node rec).

Lemma other_owners_nodup rec : NoDup (other_owners view self_node rec).
Proof. unfold other_owners. unfold sort_Z. rewrite merge_sort_Permutation. apply NoDup_filter, Hview. Qed.

Lemma other_owners_elem rec p : p ∈ other_owners view self_node rec <-> p <> self_node /\ p ∈ owners_of view (part_of rec).
Proof. unfold other_owners. by rewrite sort_Z_elem, list_elem_of_filter. Qed.

Lemma group_owners records g : g ∈ group_by_owner_set view self_node records ->
  NoDup (og_owners g) /\ forall rec, rec ∈ og_records g -> rec ∈ records /\ other_owners view self_node rec = og_owners g.
Proof.
  intros Hg. apply list_elem_of_fmap in Hg as ([owners recs] & -> & Hg). cbn.
  set (items := (fun rec => (other_owners view self_node rec, [rec])) <$> records) in *. destruct (group_in_order_spec items) as [_ Hin].
  assert (Hrec : forall rec, rec ∈ recs -> rec ∈ records /\ other_owners view self_node rec = owners).
  { intros rec Hr. assert (in_group items owners rec) as (vs & Hvs & Hv) by (apply Hin; exists recs; eauto).
    apply list_elem_of_fmap in Hvs as (r & Heq & Hr'). simplify_eq. apply list_elem_of_singleton in Hv as ->. done. }
  split; [|done]. assert (Hne : exists rec, other_owners view self_node rec = owners).
  { assert (owners ∈ items.*1) as Ho by (apply group_keys, list_elem_of_fmap; by exists (owners, recs)).
    apply list_elem_of_fmap in Ho as ([o vs] & -> & Ho). apply list_elem_of_fmap in Ho as (r & Heq & _). simplify_eq. by exists r. }
  destruct Hne as [rec <-]. apply other_owners_nodup.
Qed.

Lemma to_peer_bind {A} (f : A -> list OwnerFrame) xs p : to_peer (xs ≫= f) p = xs ≫= (fun x => to_peer (f x) p).
Proof. induction xs as [|x xs IH]; [done|]. by rewrite !bind_cons, to_peer_app, IH. Qed.

Lemma bind_ext_in {A B} (f g : A -> list B) xs : (forall x, x ∈ xs -> f x = g x) -> xs ≫= f = xs ≫= g.
Proof.
  induction xs as [|x xs IH]; intros H; [done|]. rewrite !bind_cons, (H x) by left. f_equal. apply IH. intros y Hy. apply H. by right.
Qed.

Definition record_part (records : list WireRecord) (p : NodeId) : list OutFrame :=
  group_by_owner_set view self_node records ≫= (fun g =>
    if bool_decide (p ∈ og_owners g) then (encode_frames (batch_forward cache (ov_view_hash view) 0 (og_records g))).1 else []).
Definition departed_part (departed : list DepartedSend) (p : NodeId) : list OutFrame :=
  departed ≫= (fun d => if bool_decide (p ∈ ds_targets d) then (encode_frames (invalidations cache (ds_records d))).1 else []).

(** What a peer is sent: the record frames of the groups it is in, then its invalidations. *)
Lemma fan_out_sent records departed placed p : (forall d, d ∈ departed -> NoDup (ds_targets d)) ->
  sent (fan_out_to_owners cache view self_node records departed placed) p = record_part records p ++ departed_part departed p.
Proof.
  intros Hd. unfold fan_out_to_owners. destruct (owner_batch cache view self_node records departed) as [frames noted] eqn:Eb.
  assert (Hframes : frames = (owner_batch cache view self_node records departed).1) by (by rewrite Eb).
  assert (Hnoted : noted = (owner_batch cache view self_node records departed).2) by (by rewrite Eb). clear Eb.
  rewrite !sent_app, (sent_none noted), (sent_none (if 0 <? _ then _ else _)), app_nil_r.
  2: { destruct (0 <? _); repeat constructor. }
  2: { rewrite Hnoted. unfold owner_batch, both. cbn [snd]. apply Forall_forall. intros e He. rewrite list_elem_of_bind in He. destruct He as (x & Hx & He).
       rewrite elem_of_app, !list_elem_of_fmap in He. unfold record_frames, departed_frames in He.
       destruct He as [(g & -> & _)|(d & -> & _)]; [case_bool_decide; [by apply elem_of_nil in Hx|]|];
         (match type of Hx with context [owner_frames ?t ?m ?i] => pose proof (owner_frames_spec t m i) as Hs; destruct (owner_frames t m i) end;
          destruct Hs as (_ & _ & ->); apply list_elem_of_fmap in Hx as (? & -> & _); done). }
  cbn [app].
  assert (Hnd : Forall (fun f => NoDup (ow_targets f)) frames).
  { rewrite Hframes. unfold owner_batch, both. cbn [fst]. apply Forall_forall. intros f Hf. rewrite list_elem_of_bind in Hf. destruct Hf as (x & Hx & Hf).
    rewrite elem_of_app, !list_elem_of_fmap in Hf. unfold record_frames, departed_frames in Hf.
    destruct Hf as [(g & -> & Hg)|(d & -> & Hdd)]; [case_bool_decide; [by apply elem_of_nil in Hx|]|];
      (match type of Hx with context [owner_frames ?t ?m ?i] => pose proof (owner_frames_spec t m i) as Hs; destruct (owner_frames t m i) end;
       destruct Hs as (_ & Ht & _); rewrite (proj1 (Ht f Hx))); [by apply (group_owners records)|by apply Hd]. }
  unfold frames_by_owner. rewrite <-list_fmap_compose. unfold compose. cbn [fst snd].
  rewrite (list_fmap_ext _ (fun q => SendWithin q (to_peer frames q))) by (intros i q _; by rewrite owner_index_frames).
  rewrite sent_within.
  - rewrite Hframes. unfold owner_batch, both. cbn [fst]. rewrite to_peer_bind, bind_app, !list_fmap_bind. unfold compose. f_equal.
    + unfold record_part. apply bind_ext_in. intros g Hg. unfold record_frames. case_bool_decide as Hnil.
      * cbn. rewrite bool_decide_eq_false_2; [done|]. rewrite Hnil. apply not_elem_of_nil.
      * apply to_peer_owner_frames.
    + apply bind_ext_in. intros d _. apply to_peer_owner_frames.
  - by destruct (sort_dedup (frames ≫= ow_targets)).
  - intros Hn. unfold to_peer. destruct (filter (fun f => p ∈ ow_targets f) frames) as [|f fs] eqn:E; [done|]. exfalso. apply Hn.
    apply sort_dedup, list_elem_of_bind. assert (f ∈ filter (fun f => p ∈ ow_targets f) frames) as [Hp Hf]%list_elem_of_filter by (rewrite E; left). eauto.
Qed.
End Owners.

Lemma concat_bind {A} (ls : list (list A)) : ls ≫= (fun l => l) = concat ls.
Proof. induction ls as [|l ls IH]; [done|]. by rewrite bind_cons, IH. Qed.

Lemma bind_assoc {A B C} (f : A -> list B) (g : B -> list C) l : (l ≫= f) ≫= g = l ≫= (fun x => f x ≫= g).
Proof. induction l as [|x l IH]; [done|]. by rewrite !bind_cons, bind_app, IH. Qed.

Section Reach.
Context {HS : Hashing} {PM : PostcardMsg} (view : OwnershipView) (self_node : NodeId) (cache : SmolStr).
Context (Hview : forall rec, NoDup (owners_of view (part_of rec))) (Hcache : blen cache <= u16_max).

Abbreviation grouped := (fun records => group_in_order ((fun rec => (other_owners view self_node rec, [rec])) <$> records)).

Definition goes_to (p : NodeId) (rec : WireRecord) : Prop := p <> self_node /\ p ∈ owners_of view (part_of rec).
#[export] Instance goes_to_dec p rec : Decision (goes_to p rec).
Proof. unfold goes_to. apply _. Defined.

Lemma sel_records p records :
  sel (fun owners => bool_decide (p ∈ owners)) ((fun rec => (other_owners view self_node rec, [rec])) <$> records) = filter (goes_to p) records.
Proof.
  induction records as [|rec records IH]; [done|]. cbn [fmap list_fmap]. rewrite sel_cons, IH, filter_cons. cbn [fst snd].
  pose proof (other_owners_elem view self_node rec p) as Hiff.
  destruct (decide (goes_to p rec)) as [Hg|Hg]; [rewrite bool_decide_eq_true_2 by (by apply Hiff)|rewrite bool_decide_eq_false_2 by (by rewrite Hiff)]; done.
Qed.

Lemma grouped_spec p records :
  sel (fun owners => bool_decide (p ∈ owners)) (grouped records) ≡ₚ filter (goes_to p) records /\
  forall key, filter (fun rec => wr_key rec = key) (sel (fun owners => bool_decide (p ∈ owners)) (grouped records)) =
    filter (fun rec => wr_key rec = key) (filter (goes_to p) records).
Proof.
  split.
  - rewrite (proj1 (group_in_order_sel _)). by rewrite sel_records.
  - intros key. rewrite (group_in_order_order _ _ (sort_Z (filter (fun n => n <> self_node) (owners_of view (Pid.from_hash (xxh3_64 key)))))); [by rewrite sel_records|].
    intros kv rec Hkv Hrec Hkey. apply list_elem_of_fmap in Hkv as (r & -> & _). cbn in *. apply list_elem_of_singleton in Hrec as ->.
    unfold other_owners, part_of. by rewrite Hkey.
Qed.

Lemma sent_records_of frames : sent_records frames = (of_msg <$> frames) ≫= msg_records.
Proof. unfold sent_records. by rewrite list_fmap_bind. Qed.

Lemma forward_records vh hops records : Forall (fits_forward cache) records ->
  sent_records (encode_frames (batch_forward cache vh hops records)).1 = records /\
  forall f, f ∈ (encode_frames (batch_forward cache vh hops records)).1 -> exists recs, of_msg f = ForwardBatch cache vh hops recs.
Proof.
  intros Hf. pose proof (forwards_encode cache records vh hops Hcache Hf) as He. destruct (encode_frames_all _ He) as [_ Hm]. split.
  - rewrite sent_records_of, Hm. unfold batch_forward. rewrite list_fmap_bind. unfold compose. cbn [msg_records].
    destruct (chunk_records_spec cache records) as [Hc _]. rewrite <-Hc at 2. by rewrite concat_bind.
  - intros f Hin. assert (of_msg f ∈ of_msg <$> (encode_frames (batch_forward cache vh hops records)).1) as Hmf by (apply list_elem_of_fmap; eauto).
    rewrite Hm in Hmf. apply list_elem_of_fmap in Hmf as (recs & -> & _). eauto.
Qed.

(** Without a condition: the records that fit are the ones sent. *)
Lemma forward_records_fit vh hops records :
  sent_records (encode_frames (batch_forward cache vh hops records)).1 = filter (fits_forward cache) records /\
  forall f, f ∈ (encode_frames (batch_forward cache vh hops records)).1 -> exists recs, of_msg f = ForwardBatch cache vh hops recs.
Proof.
  split.
  - rewrite sent_records_of, encode_frames_filter. unfold batch_forward. destruct (chunk_records_spec cache records) as [Hc Hok]. rewrite <-Hc at 2. clear Hc.
    induction Hok as [|recs chunks Hr _ IH]; [done|]. rewrite fmap_cons, filter_cons. cbn [concat]. rewrite filter_app, <-IH, <-(chunk_sent cache vh hops recs Hcache Hr).
    by destruct (encodes _).
  - intros f Hin. assert (of_msg f ∈ of_msg <$> (encode_frames (batch_forward cache vh hops records)).1) as Hmf by (apply list_elem_of_fmap; eauto).
    apply encode_frames_msgs, list_elem_of_fmap in Hmf as (recs & -> & _). eauto.
Qed.

Lemma filter_swap {A} (P Q : A -> Prop) `{!forall x, Decision (P x), !forall x, Decision (Q x)} (l : list A) : filter P (filter Q l) = filter Q (filter P l).
Proof. rewrite !list_filter_filter. apply list_filter_iff. tauto. Qed.

Lemma filter_bind {A B} (P : B -> Prop) `{!forall x, Decision (P x)} (f : A -> list B) l : filter P (l ≫= f) = l ≫= (fun x => filter P (f x)).
Proof. induction l as [|x l IH]; [done|]. by rewrite !bind_cons, filter_app, IH. Qed.

Lemma record_part_fits records p :
  sent_records (record_part view self_node cache records p) = filter (fits_forward cache) (sel (fun owners => bool_decide (p ∈ owners)) (grouped records)) /\
  forall f, f ∈ record_part view self_node cache records p -> exists recs, of_msg f = ForwardBatch cache (ov_view_hash view) 0 recs.
Proof.
  unfold record_part. split.
  - unfold sel, sent_records, group_by_owner_set. rewrite bind_assoc, list_fmap_bind, filter_bind. unfold compose. cbn [og_owners og_records].
    apply bind_ext_in. intros [owners recs] Hin. cbn. case_bool_decide; [|done]. apply forward_records_fit.
  - intros f Hin. apply list_elem_of_bind in Hin as (g & Hin & Hgg). case_bool_decide; [|by apply elem_of_nil in Hin].
    by apply (forward_records_fit _ _ (og_records g)).
Qed.

Lemma record_part_spec records p : Forall (fits_forward cache) records ->
  sent_records (record_part view self_node cache records p) = sel (fun owners => bool_decide (p ∈ owners)) (grouped records) /\
  forall f, f ∈ record_part view self_node cache records p -> exists recs, of_msg f = ForwardBatch cache (ov_view_hash view) 0 recs.
Proof.
  intros Hf. assert (Hg : forall g, g ∈ group_by_owner_set view self_node records -> Forall (fits_forward cache) (og_records g)).
  { intros g Hg. apply Forall_forall. intros rec Hr. rewrite Forall_forall in Hf. apply Hf. by apply (group_owners view self_node Hview records g Hg). }
  unfold record_part. split.
  - unfold sel, sent_records, group_by_owner_set. rewrite bind_assoc, list_fmap_bind. unfold compose. cbn [og_owners og_records].
    apply bind_ext_in. intros [owners recs] Hin. cbn. case_bool_decide; [|done]. apply forward_records.
    apply (Hg {| og_owners := owners; og_records := recs |}). apply list_elem_of_fmap. by exists (owners, recs).
  - intros f Hin. apply list_elem_of_bind in Hin as (g & Hin & Hgg). case_bool_decide; [|by apply elem_of_nil in Hin].
    by apply (forward_records _ _ (og_records g) (Hg g Hgg)).
Qed.
End Reach.

Section Claims.
Context {HS : Hashing} {PM : PostcardMsg}.

Lemma part_of_u16 rec : is_u16 (part_of rec).
Proof. apply Pid.from_hash_u16. Qed.

Lemma view_owners_nodup self eligible k g rec : 1 <= k -> NoDup (owners_of (compute_at self eligible k g) (part_of rec)).
Proof.
  intros Hk. rewrite owners_of_view by (try done; apply part_of_u16). unfold unit_owners. apply owners_nodup. by destruct (with_self_spec self eligible).
Qed.

Lemma view_owners_some self eligible k g rec : 1 <= k -> owners_of (compute_at self eligible k g) (part_of rec) <> [].
Proof.
  intros Hk. rewrite owners_of_view by (try done; apply part_of_u16). intros Hn. apply (f_equal length) in Hn. unfold unit_owners in Hn. rewrite owners_length in Hn.
  assert (self ∈ with_self self eligible) as Hin by (apply with_self_spec; by left). destruct (with_self self eligible); [by apply elem_of_nil in Hin|].
  cbn in Hn. lia.
Qed.

Definition invalidation_encodes (cache : SmolStr) (rec : WireRecord) : Prop := exists b, encode (Invalidate cache (wr_key rec) (wr_ver rec)) = Ok b.

Lemma invalidation_frames cache recs : Forall (invalidation_encodes cache) recs ->
  let frames := (encode_frames (invalidations cache recs)).1 in
  sent_invalidations frames = (fun r => (wr_key r, wr_ver r)) <$> recs /\ sent_records frames = [].
Proof.
  intros Hf. assert (He : Forall (fun m => exists b, encode m = Ok b) (invalidations cache recs)) by (by apply Forall_fmap).
  destruct (encode_frames_all _ He) as [_ Hm]. cbv zeta. split.
  - assert (Hg : forall frames, sent_invalidations frames = omap (fun m => match m with Invalidate _ key ver => Some (key, ver) | _ => None end) (of_msg <$> frames)).
    { intros frames. unfold sent_invalidations. induction frames as [|f frames IH]; [done|]. cbn. rewrite <-IH. by destruct (of_msg f). }
    rewrite Hg, Hm. clear. induction recs as [|r recs IH]; [done|]. cbn. by rewrite <-IH.
  - rewrite sent_records_of, Hm. clear. induction recs as [|r recs IH]; [done|]. done.
Qed.

Lemma sel_filter_key {K V} (P : K * list V -> Prop) `{!forall x, Decision (P x)} (Q : K -> bool) (l : list (K * list V)) :
  (forall kv, ~ P kv -> Q kv.1 = false) -> sel Q (filter P l) = sel Q l.
Proof. intros Hp. induction l as [|kv l IH]; [done|]. rewrite filter_cons, sel_cons, <-IH. case_decide; [done|]. by rewrite Hp. Qed.

Lemma departed_plan_part view self cache k departed p : (forall rec, NoDup (owners_of view (part_of rec))) ->
  Forall (invalidation_encodes cache) departed ->
  let plan := plan_departed_sends (Distributed k) [] (Some view) self false departed in
  (forall d, d ∈ plan -> NoDup (ds_targets d)) /\
  sent_invalidations (departed_part cache plan p) ≡ₚ (fun r => (wr_key r, wr_ver r)) <$> filter (goes_to view self p) departed /\
  sent_records (departed_part cache plan p) = [].
Proof.
  intros Hv Henc. cbv zeta. unfold plan_departed_sends. case_bool_decide as Hnil; [subst departed; cbn; split_and!; try done; set_solver|]. cbn [orb].
  assert (Hg : forall g, g ∈ group_by_owner_set view self departed -> Forall (invalidation_encodes cache) (og_records g)).
  { intros g Hg. apply Forall_forall. intros rec Hr. rewrite Forall_forall in Henc. apply Henc. by apply (group_owners view self Hv departed g Hg). }
  set (groups := filter _ _). assert (Hsub : forall g, g ∈ groups -> g ∈ group_by_owner_set view self departed) by (intros g Hgg; by apply list_elem_of_filter in Hgg as [_ Hgg]).
  split.
  { intros d Hd. apply list_elem_of_fmap in Hd as (g & -> & Hgg). cbn. by apply (group_owners view self Hv departed g), Hsub. }
  unfold departed_part. rewrite list_fmap_bind. unfold compose. cbn [ds_targets ds_records]. split.
  - assert (Hs : sent_invalidations (groups ≫= (fun g => if bool_decide (p ∈ og_owners g) then (encode_frames (invalidations cache (og_records g))).1 else [])) =
      (fun r => (wr_key r, wr_ver r)) <$> (groups ≫= (fun g => if bool_decide (p ∈ og_owners g) then og_records g else []))).
    { clear Henc Hnil. induction groups as [|g gs IH]; [done|]. rewrite !bind_cons. unfold sent_invalidations in *. rewrite omap_app, fmap_app, IH by (intros; apply Hsub; by right). f_equal.
      case_bool_decide; [|done]. apply (invalidation_frames cache (og_records g)), Hg, Hsub. left. }
    rewrite Hs. apply fmap_Permutation. rewrite <-(proj1 (grouped_spec view self p departed)).
    assert (Heq : groups ≫= (fun g => if bool_decide (p ∈ og_owners g) then og_records g else []) =
      sel (fun owners => bool_decide (p ∈ owners)) (filter (fun g => g.1 <> []) (group_in_order ((fun rec => (other_owners view self rec, [rec])) <$> departed)))).
    { unfold groups, group_by_owner_set. clear. induction (group_in_order _) as [|[o vs] l IH]; [done|]. cbn [fmap list_fmap]. rewrite !filter_cons. cbn [og_owners fst].
      case_decide; [|exact IH]. rewrite bind_cons, sel_cons, IH. done. }
    rewrite Heq, sel_filter_key; [done|]. intros kv Hn. apply bool_decide_eq_false_2. destruct (decide (kv.1 = [])) as [->|Hne]; [apply not_elem_of_nil|by destruct Hn].
  - unfold sent_records. rewrite bind_assoc. clear Henc Hnil. induction groups as [|g gs IH]; [done|]. rewrite bind_cons, IH by (intros; apply Hsub; by right).
    rewrite app_nil_r. case_bool_decide; [|done]. apply (invalidation_frames cache (og_records g)), Hg, Hsub. left.
Qed.

(** C26: a distributed fan-out reaches exactly the owners. Under a published view with at least one copy, for a cache name a frame can
    carry and departed writes whose invalidations encode, whatever each outbox takes, the frames
    a peer is sent are forwards stamped with the view's hash followed by invalidations. The forwards carry exactly the
    batch's records whose part the peer owns and which fit a forward frame, each once, the records of a key in the order they were
    written; a record that fits none is sent to nobody. The invalidations name exactly the departed writes of its parts, or none where
    the cache's resolver merges. This node and every non-owner are sent nothing. *)
Theorem fan_out_reaches_exactly_the_owners self eligible k g cache records departed merges placed p :
  1 <= k -> blen cache <= u16_max -> Forall (invalidation_encodes cache) departed ->
  let view := compute_at self eligible k g in
  let plan := plan_departed_sends (Distributed k) [] (Some view) self merges departed in
  let going := filter (fits_forward cache) (filter (goes_to view self p) records) in
  exists forwards invs, sent (fan_out_to_owners cache view self records plan placed) p = forwards ++ invs /\
    (forall f, f ∈ forwards -> exists recs, of_msg f = ForwardBatch cache (ov_view_hash view) 0 recs) /\
    sent_records forwards ≡ₚ going /\
    (forall key, filter (fun r => wr_key r = key) (sent_records forwards) = filter (fun r => wr_key r = key) going) /\
    sent_invalidations invs ≡ₚ (if merges then [] else (fun r => (wr_key r, wr_ver r)) <$> filter (goes_to view self p) departed) /\
    sent_records invs = [].
Proof.
  intros Hk Hc He. cbv zeta. set (view := compute_at self eligible k g).
  assert (Hv : forall rec, NoDup (owners_of view (part_of rec))) by (intros rec; by apply view_owners_nodup).
  set (plan := plan_departed_sends _ _ _ _ merges departed).
  assert (Hplan : (forall d, d ∈ plan -> NoDup (ds_targets d)) /\
    sent_invalidations (departed_part cache plan p) ≡ₚ (if merges then [] else (fun r => (wr_key r, wr_ver r)) <$> filter (goes_to view self p) departed) /\
    sent_records (departed_part cache plan p) = []).
  { unfold plan. destruct merges; [|by apply departed_plan_part]. unfold plan_departed_sends. rewrite orb_true_r. split_and!; [|done|done]. intros d Hd. by apply elem_of_nil in Hd. }
  destruct Hplan as (Hd & Hi & Hr). destruct (record_part_fits view self cache Hc records p) as [Hs Hm]. destruct (grouped_spec view self p records) as [Hp Ho].
  exists (record_part view self cache records p), (departed_part cache plan p).
  split; [by apply fan_out_sent|]. split; [exact Hm|]. rewrite Hs. split_and!; [by rewrite Hp| |exact Hi|exact Hr].
  intros key. rewrite !(filter_swap _ (fits_forward cache)). by rewrite Ho.
Qed.
End Claims.

Section Forwards.
Context {HS : Hashing} {PM : PostcardMsg}.

Lemma plan_targets_nodup view self k merges departed d : (forall rec, NoDup (owners_of view (part_of rec))) ->
  d ∈ plan_departed_sends (Distributed k) [] (Some view) self merges departed -> NoDup (ds_targets d).
Proof.
  intros Hv. unfold plan_departed_sends. destruct (_ || _); [intros Hd; by apply elem_of_nil in Hd|]. intros Hd.
  apply list_elem_of_fmap in Hd as (g & -> & Hg). apply list_elem_of_filter in Hg as [_ Hg]. cbn. by apply (group_owners view self Hv departed g).
Qed.

Lemma batch_distributed read_back view merges cl cache k placed notified :
  applied_of notified <> [] \/ forwarded_of notified <> [] ->
  let fetched := read_back (newest_per_key (applied_of notified)) in
  fr_records fetched ++ forwarded_of notified <> [] ->
  let mine := List.filter (fun rec => owns view (part_of rec)) (forwarded_of notified) in
  fan_out_batch read_back (Some view) merges cl cache (Distributed k) placed notified =
    (if bool_decide (mine = []) then [] else [ApplyForwarded mine]) ++
    fan_out_to_owners cache view (fc_node cl) (fr_records fetched ++ forwarded_of notified)
      (plan_departed_sends (Distributed k) [] (Some view) (fc_node cl) merges (fr_departed fetched)) placed.
Proof.
  intros Hn. cbv zeta. intros Hr. unfold fan_out_batch. rewrite (bool_decide_eq_false_2 _ Hr). cbn [andb].
  destruct (bool_decide (newest_per_key (applied_of notified) = []) && bool_decide (forwarded_of notified = [])) eqn:E; [|done].
  exfalso. apply andb_true_iff in E as [E1%bool_decide_eq_true E2%bool_decide_eq_true]. destruct Hn as [Hn|Hn]; [|done].
  destruct (applied_of notified) as [|[k0 v0] l]; [done|]. clear -E1. unfold newest_per_key in E1. cbn [foldl] in E1.
  assert (Hlen : forall l out, (0 < length out)%nat -> (0 < length (foldl newest_step out l))%nat).
  { clear. induction l as [|x l IH]; intros out Ho; [done|]. cbn [foldl]. apply IH. unfold newest_step. destruct (list_find _ _) as [[i y]|]; [by rewrite length_alter|rewrite length_app; lia]. }
  specialize (Hlen l (newest_step [] (k0, v0)) ltac:(cbn; lia)). rewrite E1 in Hlen. cbn in Hlen. lia.
Qed.

(** A forwarded write is never left without a destination. Draining a burst under a published view, each forwarded
    record that fits a forward frame is applied here when this node has come to own its part, is sent to every other
    owner of its part, and has at least one of the two: no view leaves it with nobody. *)
Theorem forwarded_writes_reach_an_owner self eligible k g read_back merges peers live cache placed notified rec :
  1 <= k -> blen cache <= u16_max -> rec ∈ forwarded_of notified ->
  Forall (fits_forward cache) (fr_records (read_back (newest_per_key (applied_of notified))) ++ forwarded_of notified) ->
  let view := compute_at self eligible k g in
  let cluster := {| fc_node := self; fc_peers := peers; fc_live := live |} in
  let effs := fan_out_batch read_back (Some view) merges cluster cache (Distributed k) placed notified in
  let owners := owners_of view (part_of rec) in
  (self ∈ owners -> exists mine, ApplyForwarded mine ∈ effs /\ rec ∈ mine) /\
  (forall p, p ∈ owners -> p <> self -> rec ∈ sent_records (sent effs p)) /\
  (self ∈ owners \/ exists p, p ∈ owners /\ p <> self).
Proof.
  intros Hk Hc Hrec Hf. cbv zeta. set (view := compute_at self eligible k g).
  assert (Hv : forall rec, NoDup (owners_of view (part_of rec))) by (intros; by apply view_owners_nodup).
  assert (Hne : forwarded_of notified <> []) by (intros Hn; rewrite Hn in Hrec; by apply elem_of_nil in Hrec).
  rewrite batch_distributed; [|by right|intros Hn; apply app_eq_nil in Hn; tauto]. cbn [fc_node].
  set (mine := List.filter _ _). set (plan := plan_departed_sends _ _ _ _ _ _). set (records := _ ++ _) in *.
  split_and!.
  - intros Ho. assert (Hin : rec ∈ mine).
    { unfold mine. apply list_elem_of_In, filter_In. split; [by apply list_elem_of_In|]. unfold view. rewrite (owns_view self eligible k g Hk) by apply part_of_u16.
      by apply bool_decide_eq_true. }
    exists mine. split; [|done]. rewrite bool_decide_eq_false_2 by (intros Hn; rewrite Hn in Hin; by apply elem_of_nil in Hin). left.
  - intros p Hp Hps. rewrite sent_app. rewrite (sent_none (if bool_decide (mine = []) then _ else _)) by (case_bool_decide; repeat constructor). cbn [app].
    rewrite fan_out_sent by (try done; intros d; by apply plan_targets_nodup). rewrite sent_records_of, fmap_app, bind_app, elem_of_app. left.
    rewrite <-sent_records_of. destruct (record_part_spec view self cache Hv Hc records p Hf) as [-> _].
    rewrite (proj1 (grouped_spec view self p records)). apply list_elem_of_filter. split; [done|]. apply elem_of_app. by right.
  - pose proof (view_owners_some self eligible k g rec Hk) as Hs. fold view in Hs. destruct (owners_of view (part_of rec)) as [|o l]; [done|].
    destruct (decide (o = self)) as [->|Ho]; [left; left|right; exists o; split; [left|done]].
Qed.

Lemma group_one view self rec :
  group_by_owner_set view self [rec] = [{| og_owners := other_owners view self rec; og_records := [rec] |}].
Proof. done. Qed.

(** C27: a write within nine bytes of the frame limit is acknowledged and then lost. On a node that does
    not own its part, a record whose replicate frame fits the limit passes the size check of [insert] and is queued as a
    forward; when its forward frame, nine bytes wider, does not fit, draining it sends no frame to any owner, applies it
    nowhere and counts no lost write: the owners are marked dirty for a dropped frame, but no node holds the record. *)
Theorem near_limit_forward_is_lost self eligible k g read_back merges peers live cache placed rec :
  1 <= k -> blen cache <= u16_max -> read_back [] = {| fr_records := []; fr_departed := [] |} ->
  rec_frame_len cache rec <= MAX_FRAME -> ~ fits_forward cache rec ->
  let view := compute_at self eligible k g in
  owns view (part_of rec) = false ->
  let cluster := {| fc_node := self; fc_peers := peers; fc_live := live |} in
  let '(q, result) := insert_route (queue_new true) (owns view (part_of rec)) MAX_FRAME cache rec in
  result = Forwarded /\
  fan_out_batch read_back (Some view) merges cluster cache (Distributed k) placed (drain q).2 =
    (fun p => NoteUnsent p 1) <$> other_owners view self rec.
Proof.
  intros Hk Hc Hrb Hr Hf. cbv zeta. intros Ho. set (view := compute_at self eligible k g) in *. 
  assert (Hq : insert_route (queue_new true) (owns view (part_of rec)) MAX_FRAME cache rec =
    ({| fq_pending := [Forward rec]; fq_accepting := true; fq_closed := false |}, Forwarded)).
  { unfold insert_route. by rewrite Ho, (proj2 (Z.ltb_ge _ _) Hr). }
  rewrite Hq. split; [done|]. cbn [drain snd fq_pending]. rewrite (batch_distributed _ _ _ _ _ _ _ [Forward rec]); [|by right|cbn; by destruct (fr_records _)].
  cbn [applied_of forwarded_of omap list_omap newest_per_key foldl fc_node]. rewrite Hrb. cbn [fr_records fr_departed app].
  cbn [List.filter]. rewrite Ho. cbn [bool_decide]. rewrite bool_decide_eq_true_2 by done. cbn [app].
  change (plan_departed_sends (Distributed k) [] (Some view) self merges []) with (@nil DepartedSend).
  unfold fan_out_to_owners, owner_batch. rewrite group_one. cbn [fmap list_fmap app]. unfold record_frames. cbn [og_owners og_records].
  assert (Hone : other_owners view self rec <> []).
  { pose proof (view_owners_some self eligible k g rec Hk) as Hs. fold view in Hs. intros Hn.
    destruct (owners_of view (part_of rec)) as [|o l] eqn:Eo; [done|].
    assert (self ∈ owners_of view (part_of rec)) as Hself.
    { destruct (decide (o = self)) as [->|Hne]; [rewrite Eo; left|]. exfalso. assert (o ∈ other_owners view self rec) as Hin by (apply other_owners_elem; split; [done|rewrite Eo; left]).
      rewrite Hn in Hin. by apply elem_of_nil in Hin. }
    unfold view in Ho. rewrite (owns_view self eligible k g Hk) in Ho by apply part_of_u16. by apply bool_decide_eq_false in Ho. }
  rewrite (bool_decide_eq_false_2 _ Hone). unfold owner_frames, encode_frames_for.
  assert (Hm : batch_forward cache (ov_view_hash view) 0 [rec] = [ForwardBatch cache (ov_view_hash view) 0 [rec]]) by done.
  rewrite Hm. unfold encode_frames. cbn [foldl]. unfold encode_step, out_frame. pose proof (oversize_forward cache (ov_view_hash view) 0 rec Hf) as Hov. unfold encodes in Hov. destruct (encode (ForwardBatch _ _ _ _)) as [|e]; [done|]. cbn.
  unfold both. cbn. by rewrite !app_nil_r.
Qed.
End Forwards.

(** ** What a burst ships and what departs *)

(** The newest version a burst wrote a key at. *)
Definition newest_write (writes : list (Bytes * Hlc)) (key : Bytes) : option Hlc :=
  foldl (fun acc w => if bool_decide (w.1 = key) then Some (from_option (fun v => hlc_max v w.2) w.2 acc) else acc) None writes.

Lemma newest_write_snoc writes w key : newest_write (writes ++ [w]) key =
  if bool_decide (w.1 = key) then Some (from_option (fun v => hlc_max v w.2) w.2 (newest_write writes key)) else newest_write writes key.
Proof. unfold newest_write. by rewrite foldl_app. Qed.

Lemma written_newest writes key : foldl note_written ∅ writes !! key = newest_write writes key.
Proof.
  induction writes as [|w writes IH] using rev_ind; [done|]. rewrite foldl_app, newest_write_snoc. cbn [foldl]. unfold note_written at 1.
  destruct (decide (w.1 = key)) as [<-|Hne].
  - by rewrite lookup_partial_alter_eq, IH, bool_decide_eq_true_2.
  - by rewrite lookup_partial_alter_ne, IH, bool_decide_eq_false_2.
Qed.

Lemma newest_write_is_some writes key : is_Some (newest_write writes key) <-> key ∈ writes.*1.
Proof.
  induction writes as [|w writes IH] using rev_ind; [cbn; split; [by intros []|intros H; by apply elem_of_nil in H]|].
  rewrite newest_write_snoc, fmap_app, elem_of_app. cbn [fmap list_fmap]. rewrite list_elem_of_singleton. case_bool_decide as Hk.
  - split; [by right|eauto].
  - rewrite IH. split; [by left|]. intros [H|H]; [done|congruence].
Qed.

(** [newest_per_key] keeps each key once, at its newest version. *)
Lemma newest_per_key_spec items :
  NoDup (newest_per_key items).*1 /\ forall key v, (key, v) ∈ newest_per_key items <-> newest_write items key = Some v.
Proof.
  unfold newest_per_key. induction items as [|w items [Hnd IH]] using rev_ind.
  { split; [constructor|]. intros key v. cbn. split; [intros H; by apply elem_of_nil in H|done]. }
  rewrite foldl_app. cbn [foldl]. set (out := foldl newest_step [] items) in *. unfold newest_step.
  destruct (list_find _ out) as [[i x]|] eqn:E.
  - apply list_find_Some in E as (Hi & Hk & _). apply list_elem_of_split_length in Hi as (l1 & l2 & Hout & ->).
    assert (Ha : alter (fun x : Bytes * Hlc => (x.1, hlc_max x.2 w.2)) (length l1) out = l1 ++ (x.1, hlc_max x.2 w.2) :: l2).
    { rewrite Hout. clear. induction l1 as [|y l1 IH]; [done|]. cbn. f_equal. exact IH. }
    rewrite Ha. rewrite Hout in Hnd, IH. split; [rewrite fmap_app in Hnd |- *; exact Hnd|]. intros key v. rewrite newest_write_snoc.
    assert (Hx : newest_write items x.1 = Some x.2) by (apply IH; rewrite elem_of_app, elem_of_cons; right; left; by destruct x).
    rewrite fmap_app in Hnd. apply NoDup_app in Hnd as (_ & Hd1 & Hnd2). cbn in Hnd2. apply NoDup_cons in Hnd2 as [Hd2 _].
    case_bool_decide as Hkey.
    + subst key. rewrite <-Hk, Hx. cbn. rewrite elem_of_app, elem_of_cons. split; [|intros [= <-]; right; by left].
      intros [Hin|[Heq|Hin]]; [exfalso|congruence|exfalso].
      * apply (Hd1 x.1); [apply list_elem_of_fmap; by exists (x.1, v)|left].
      * apply Hd2, list_elem_of_fmap. by exists (x.1, v).
    + rewrite <-IH, !elem_of_app, !elem_of_cons. destruct x as [xk xv]. cbn in *. naive_solver.
  - apply list_find_None in E. assert (Hn : newest_write items w.1 = None).
    { apply eq_None_not_Some. intros [v Hv]. apply IH in Hv. rewrite Forall_forall in E. by apply (E _ Hv). }
    split.
    + rewrite fmap_app. apply NoDup_app. split_and!; [done| |apply NoDup_singleton]. intros k Hk1 Hk2. apply list_elem_of_singleton in Hk2 as ->.
      apply list_elem_of_fmap in Hk1 as (y & Hy & Hin). rewrite Forall_forall in E. by apply (E _ Hin).
    + intros key v. rewrite newest_write_snoc, elem_of_app, list_elem_of_singleton, IH. case_bool_decide as Hkey.
      * subst key. rewrite Hn. cbn. destruct w. cbn. naive_solver.
      * destruct w. cbn in *. naive_solver.
Qed.

Section Partition.
Context (writes : list (Bytes * Hlc)) (fetched : list WireRecord) (version_ordered : bool).

(** A fetched record older than the write it answers. *)
Definition outdated (rec : WireRecord) : bool :=
  version_ordered && is_some_and (newest_write writes (wr_key rec)) (fun queued => hlc_ltb (wr_ver rec) queued).

Lemma keep_fetched_fold st : foldl (keep_fetched (foldl note_written ∅ writes) version_ordered) st fetched =
  (list_to_set (wr_key <$> filter (fun rec => outdated rec = false) fetched) ∪ st.1, st.2 ++ filter (fun rec => outdated rec = false) fetched).
Proof.
  revert st. induction fetched as [|rec l IH]; intros [covered records]; cbn [foldl]; [cbn; by rewrite union_empty_l_L, app_nil_r|].
  rewrite IH, filter_cons. unfold keep_fetched. rewrite written_newest. fold (outdated rec). destruct (outdated rec); [done|]. cbn [decide]. rewrite decide_True by done. cbn. f_equal; [set_solver|].
  by rewrite <-(assoc_L (++)).
Qed.

(** The carrier of a departed write. *)
Definition carrier (key : Bytes) (ver : Hlc) : WireRecord := {| wr_key := key; wr_value := None; wr_ver := ver; wr_expires_at_ms := None |}.

Lemma depart_fold covered ws : (forall key, key ∈ ws.*1 -> key ∈ writes.*1) ->
  let st := foldl (depart (foldl note_written ∅ writes) covered) (∅, []) ws in
  NoDup (wr_key <$> st.2) /\ (forall key, key ∈ st.1 <-> key ∈ wr_key <$> st.2) /\
  forall rec, rec ∈ st.2 <-> exists key ver, key ∈ ws.*1 /\ key ∉ covered /\ newest_write writes key = Some ver /\ rec = carrier key ver.
Proof.
  induction ws as [|w ws IH] using rev_ind; intros Hsub.
  { cbn. split_and!; [constructor|set_solver|]. intros rec. split; [intros H; by apply elem_of_nil in H|intros (k & v & H & _); by apply elem_of_nil in H]. }
  destruct IH as (Hnd & Hseen & Hrec); [intros k Hk; apply Hsub; rewrite fmap_app, elem_of_app; by left|]. rewrite foldl_app. cbn [foldl].
  set (st := foldl (depart _ covered) (∅, []) ws) in *. unfold depart. rewrite written_newest.
  assert (Hw : w.1 ∈ writes.*1) by (apply Hsub; rewrite fmap_app, elem_of_app; right; left).
  apply newest_write_is_some in Hw as [v Hv]. rewrite Hv. cbn [default]. fold (carrier w.1 v).
  assert (Hks : forall key, key ∈ (ws ++ [w]).*1 <-> key ∈ ws.*1 \/ key = w.1) by (intros; rewrite fmap_app, elem_of_app; cbn; by rewrite list_elem_of_singleton).
  destruct (bool_decide (w.1 ∈ covered) || bool_decide (w.1 ∈ st.1)) eqn:E.
  - split_and!; [done|done|]. intros rec. rewrite Hrec. setoid_rewrite Hks. split; [by intros (k0 & v0 & H1 & H2 & H3 & H4); exists k0, v0; split_and!; auto|]. intros (key & ver & [Hk|Hk] & Hn & Hver & ->); [eauto 8|]. subst key.
    apply orb_true_iff in E as [E%bool_decide_eq_true|E%bool_decide_eq_true]; [done|]. rewrite Hv in Hver. injection Hver as <-.
    apply Hseen, list_elem_of_fmap in E as (r & Hr1 & Hr2). apply Hrec in Hr2 as (key' & ver' & H1 & H2 & H3 & ->). cbn in Hr1. subst key'. eauto 8.
  - apply orb_false_iff in E as [E1%bool_decide_eq_false E2%bool_decide_eq_false]. cbn [fst snd]. split_and!.
    + rewrite fmap_app. apply NoDup_app. split_and!; [done| |apply NoDup_singleton]. intros key H1 H2. cbn in H2. apply list_elem_of_singleton in H2 as ->. by apply E2, Hseen.
    + intros key. rewrite fmap_app, elem_of_app, elem_of_union, elem_of_singleton, Hseen. cbn. rewrite list_elem_of_singleton. tauto.
    + intros rec. rewrite elem_of_app, list_elem_of_singleton, Hrec. setoid_rewrite Hks. split.
      { intros [(k0 & v0 & H1 & H2 & H3 & H4)|Heq]; [exists k0, v0; split_and!; auto|]. exists w.1, v. split_and!; auto. }
      intros (key & ver & [Hk|Hk] & Hn & Hver & ->); [left; eauto 8|]. subst key. rewrite Hv in Hver. injection Hver as <-. by right.
Qed.

(** The split of a burst: the records not outdated, in order, and one carrier for each other key, at its newest version. *)
Lemma partition_spec :
  let out := partition_writes writes fetched version_ordered in
  fr_records out = filter (fun rec => outdated rec = false) fetched /\ NoDup (wr_key <$> fr_departed out) /\
  forall rec, rec ∈ fr_departed out <-> exists key ver, newest_write writes key = Some ver /\ rec = carrier key ver /\
    forall r, r ∈ fr_records out -> wr_key r <> key.
Proof.
  cbv zeta. unfold partition_writes. rewrite keep_fetched_fold. cbn [fst snd app fr_records fr_departed]. rewrite !union_empty_r_L.
  destruct (depart_fold (list_to_set (wr_key <$> filter (fun rec => outdated rec = false) fetched)) writes ltac:(done)) as (Hnd & _ & Hrec).
  split_and!; [done|done|]. intros rec. etransitivity; [apply Hrec|]. split; intros (key & ver & H); exists key, ver.
  - destruct H as (Hk & Hn & Hv & Hr). split_and!; try done. intros r Hr' Heq. apply Hn, elem_of_list_to_set, list_elem_of_fmap. by exists r.
  - destruct H as (Hv & Hr & Hn). split_and!; try done; [apply newest_write_is_some; eauto|]. intros Hin.
    apply elem_of_list_to_set, list_elem_of_fmap in Hin as (r & Heq & Hr'). by apply (Hn r).
Qed.
End Partition.

Section Burst.
Context {PU : PostcardU32} {HS : Hashing} {V : Type} {VC : ValueCodec V} {R : ConflictResolver}.

Lemma written_record_key (e : Engine V) key now r : written_record_for e key now = Some r -> wr_key r = key.
Proof.
  unfold written_record_for, record_scoped. destruct (st_tombstones _ !! key); [by intros [= <-]|].
  destruct (find_in _ key); cbn; [|done]. case_match; [done|]. by intros [= <-].
Qed.

(** Every write a drain takes is accounted for once. For each key of a drained burst, at the newest version the
    burst wrote it: when the store still holds a record of the key at that version or later (or any record, for a
    resolver that reads values), that record is sent, once; when it holds an older one or none, the older record is
    not sent and the key departs, once, carrying that newest version and no value, so peers drop what the write
    replaced. Nothing else is sent. *)
Theorem drained_writes_ship_or_depart (e : Engine V) (now : Z) (items : list (Bytes * Hlc)) :
  let out := fan_out_records e now (newest_per_key items) in
  let reads_values := exchanges_both_records merges needs_value_bytes in
  NoDup (wr_key <$> fr_records out ++ fr_departed out) /\
  (forall key, key ∈ wr_key <$> fr_records out ++ fr_departed out -> key ∈ items.*1) /\
  (forall key ver, newest_write items key = Some ver ->
     match written_record_for e key now with
     | Some r => if reads_values || hlc_leb ver (wr_ver r) then r ∈ fr_records out else carrier key ver ∈ fr_departed out
     | None => carrier key ver ∈ fr_departed out
     end).
Proof.
  cbv zeta. destruct (newest_per_key_spec items) as [Hnd Hnew]. set (ws := newest_per_key items) in *.
  assert (Hsame : forall key, newest_write ws key = newest_write items key).
  { intros key. apply option_eq. intros v. rewrite <-Hnew. clear -Hnd. induction ws as [|w ws IH] using rev_ind; [cbn; split; [done|intros H; by apply elem_of_nil in H]|].
    rewrite newest_write_snoc, elem_of_app, list_elem_of_singleton. rewrite fmap_app in Hnd. apply NoDup_app in Hnd as (Hnd & Hd & _). specialize (IH Hnd).
    case_bool_decide as Hk; [subst key|rewrite IH; destruct w; cbn in *; naive_solver].
    assert (newest_write ws w.1 = None) as ->.
    { apply eq_None_not_Some. rewrite newest_write_is_some. intros Hin. apply (Hd w.1 Hin). left. }
    cbn. split; [intros [= <-]; right; by destruct w|]. intros [Hin|<-]; [|done]. exfalso. apply (Hd w.1); [|left]. apply list_elem_of_fmap. by exists (w.1, v). }
  unfold fan_out_records. set (fetched := omap _ ws). set (vo := negb _).
  assert (Hfetch : forall r, r ∈ fetched <-> exists key ver, newest_write items key = Some ver /\ written_record_for e key now = Some r).
  { intros r. unfold fetched. rewrite list_elem_of_omap. setoid_rewrite <-Hnew. split; [intros ([k v] & H1 & H2); eauto|intros (k & v & H1 & H2); by exists (k, v)]. }
  assert (Hfnd : NoDup (wr_key <$> fetched)).
  { unfold fetched. clear -Hnd. induction ws as [|[k v] ws IH]; [constructor|]. cbn in Hnd. apply NoDup_cons in Hnd as [Hn Hnd]. cbn.
    destruct (written_record_for e k now) as [r|] eqn:Er; [|by apply IH]. cbn. rewrite (written_record_key e k now r Er). constructor; [|by apply IH].
    intros Hin. apply list_elem_of_fmap in Hin as (r' & Hr' & Hin). apply list_elem_of_omap in Hin as ([k' v'] & Hk' & Hw). apply written_record_key in Hw. cbn in Hw.
    apply Hn, list_elem_of_fmap. exists (k', v'). split; [cbn; congruence|done]. }
  destruct (partition_spec ws fetched vo) as (Hrecs & Hdnd & Hdep). set (out := partition_writes ws fetched vo) in *.
  setoid_rewrite Hsame in Hdep.
  assert (Hin : forall r, r ∈ fr_records out <-> r ∈ fetched /\ outdated ws vo r = false) by (intros r; rewrite Hrecs, list_elem_of_filter; tauto).
  split_and!.
  - rewrite fmap_app. apply NoDup_app. split_and!; [|by intros key H1 H2; apply list_elem_of_fmap in H1 as (r & -> & Hr), H2 as (d & Hd1 & Hd2);
      apply Hdep in Hd2 as (key & ver & _ & -> & Hn); apply (Hn r)|done].
    rewrite Hrecs. clear -Hfnd. induction fetched as [|r l IH]; [constructor|]. cbn in Hfnd. apply NoDup_cons in Hfnd as [Hn Hfnd]. rewrite filter_cons.
    case_decide; [|by apply IH]. cbn. constructor; [|by apply IH]. intros Hin. apply Hn. apply list_elem_of_fmap in Hin as (r' & -> & Hin).
    apply list_elem_of_filter in Hin as [_ Hin]. apply list_elem_of_fmap. eauto.
  - intros key Hk. apply newest_write_is_some. rewrite fmap_app, elem_of_app, !list_elem_of_fmap in Hk. destruct Hk as [(r & -> & Hr)|(d & -> & Hd)].
    + apply Hin in Hr as [Hr _]. apply Hfetch in Hr as (key & ver & Hn & Hw). apply written_record_key in Hw as ->. eauto.
    + apply Hdep in Hd as (key & ver & Hn & -> & _). eauto.
  - intros key ver Hn. destruct (written_record_for e key now) as [r|] eqn:Er.
    + assert (Hr : r ∈ fetched) by (apply Hfetch; eauto). pose proof (written_record_key e key now r Er) as Hk.
      assert (Hout : outdated ws vo r = negb (exchanges_both_records merges needs_value_bytes || hlc_leb ver (wr_ver r))).
      { unfold outdated, vo. rewrite Hk, Hsame, Hn. cbn. unfold hlc_leb. destruct (exchanges_both_records _ _); cbn; [done|]. by destruct (hlc_ltb _ _). }
      destruct (exchanges_both_records merges needs_value_bytes || hlc_leb ver (wr_ver r)) eqn:Eo; [by apply Hin|].
      apply Hdep. exists key, ver. split_and!; try done. intros r' Hr' Hk'. apply Hin in Hr' as [Hr' Ho'].
      apply Hfetch in Hr' as (k2 & v2 & Hn2 & Hw2). pose proof (written_record_key e k2 now r' Hw2). assert (k2 = key) as -> by congruence. rewrite Er in Hw2. injection Hw2 as <-.
      rewrite Hout in Ho'. done.
    + apply Hdep. exists key, ver. split_and!; try done. intros r' Hr' Hk'. apply Hin in Hr' as [Hr' _].
      apply Hfetch in Hr' as (k2 & v2 & Hn2 & Hw2). pose proof (written_record_key e k2 now r' Hw2). congruence.
Qed.
End Burst.

(** ** Counting what was lost *)

(** Whether [t]'s outbox took frame [i]: the frames before it that [t] was sent leave room among the ones taken. *)
Definition took (frames : list OwnerFrame) (placed : NodeId -> nat) (i : nat) (t : NodeId) : bool :=
  (length (to_peer (take i frames) t) <? placed t)%nat.

(** A frame's loss by its outcome at each target. *)
Definition frame_loss (stored : WireRecord -> bool) (took_by : NodeId -> bool) (f : OwnerFrame) : Z :=
  match of_msg (ow_frame f) with
  | Invalidate _ _ _ => if ow_invalidation f && existsb (fun t => negb (took_by t)) (ow_targets f) then 1 else 0
  | ForwardBatch _ _ _ recs =>
      if negb (ow_invalidation f) && forallb (fun t => negb (took_by t)) (ow_targets f)
      then Z.of_nat (length (List.filter (fun rec => negb (stored rec)) recs)) else 0
  | _ => 0
  end.

Section Counting.
Context {HS : Hashing} {PM : PostcardMsg}.

Definition owner_ids (frames : list OwnerFrame) (owner : NodeId) : list nat :=
  zip (seq 0 (length frames)) frames ≫= (fun x => (fun _ => x.1) <$> filter (fun t => t = owner) (ow_targets x.2)).

Lemma filter_one (l : list NodeId) o : NoDup l -> filter (fun t => t = o) l = if bool_decide (o ∈ l) then [o] else [].
Proof.
  induction l as [|t l IH]; intros Hnd; [done|]. apply NoDup_cons in Hnd as [Hn Hnd]. rewrite filter_cons, IH by done. destruct (decide (t = o)) as [->|Ht].
  - rewrite (bool_decide_eq_false_2 (o ∈ l)), bool_decide_eq_true_2 by (done || left). done.
  - destruct (decide (o ∈ l)); [rewrite !bool_decide_eq_true_2 by (done || by right)|rewrite !bool_decide_eq_false_2 by (done || by rewrite not_elem_of_cons)]; done.
Qed.

Lemma owner_ids_snoc frames f o : owner_ids (frames ++ [f]) o =
  owner_ids frames o ++ ((fun _ => length frames) <$> filter (fun t => t = o) (ow_targets f)).
Proof.
  unfold owner_ids. rewrite length_app. cbn [length]. rewrite Nat.add_1_r, seq_S, zip_with_app by (by rewrite length_seq). rewrite bind_app. cbn. by rewrite app_nil_r.
Qed.

Lemma owner_ids_lt frames o i : i ∈ owner_ids frames o -> (i < length frames)%nat.
Proof.
  unfold owner_ids. intros H. apply list_elem_of_bind in H as ([j f] & Hi & Hz). apply list_elem_of_fmap in Hi as (_ & -> & _). apply elem_of_zip_l in Hz.
  apply elem_of_seq in Hz. cbn. lia.
Qed.

(** Frame [i] is among the first [n] an owner gets iff it targets the owner and fewer than [n] come before it. *)
Lemma owner_ids_take frames o n i f : Forall (fun f => NoDup (ow_targets f)) frames -> frames !! i = Some f ->
  length (filter (fun j => j = i) (take n (owner_ids frames o))) =
    if bool_decide (o ∈ ow_targets f) && (length (to_peer (take i frames) o) <? n)%nat then 1%nat else 0%nat.
Proof.
  intros Hnd. revert i f. induction frames as [|f0 frames IH] using rev_ind; intros i f Hi; [done|]. apply Forall_app in Hnd as [Hnd Hf0]. apply Forall_cons in Hf0 as [Hf0 _].
  rewrite owner_ids_snoc, take_app, filter_app, length_app, filter_one by done.
  assert (Hlen : length (owner_ids frames o) = length (to_peer frames o)).
  { clear IH Hi. induction frames as [|f1 frames IH] using rev_ind; [done|]. apply Forall_app in Hnd as [Hnd Hf1]. apply Forall_cons in Hf1 as [Hf1 _].
    rewrite owner_ids_snoc, to_peer_app, !length_app, IH, filter_one by done. f_equal. unfold to_peer. rewrite filter_cons, length_fmap.
    case_bool_decide; [rewrite decide_True by done|rewrite decide_False by done]; done. }
  destruct (decide (i = length frames)) as [->|Hne].
  - rewrite lookup_app_r, Nat.sub_diag in Hi by lia. cbn in Hi. injection Hi as ->. rewrite take_app_length.
    assert (filter (fun j => j = length frames) (take n (owner_ids frames o)) = []) as ->.
    { destruct (filter _ _) as [|j js] eqn:E; [done|]. exfalso. assert (j ∈ filter (fun j => j = length frames) (take n (owner_ids frames o))) as [-> Hj]%list_elem_of_filter by (rewrite E; left).
      apply elem_of_take in Hj as (m & Hj & _). apply list_elem_of_lookup_2, owner_ids_lt in Hj. lia. }
    rewrite Hlen. case_bool_decide; cbn [andb fmap list_fmap length]; [|by rewrite take_nil].
    destruct (Nat.ltb_spec (length (to_peer frames o)) n).
    + rewrite take_ge by (cbn; lia). rewrite filter_cons, decide_True by done. done.
    + replace (n - length (to_peer frames o))%nat with 0%nat by lia. done.
  - assert (Hi' : frames !! i = Some f). { apply lookup_app_Some in Hi as [Hi|[Hge Hi]]; [done|]. destruct (i - length frames)%nat eqn:E; [lia|done]. }
    rewrite (IH Hnd i f Hi'). rewrite take_app_le by (apply lookup_lt_Some in Hi'; lia).
    assert (filter (fun j => j = i) (take (n - length (owner_ids frames o)) ((fun _ => length frames) <$> (if bool_decide (o ∈ ow_targets f0) then [o] else []))) = []) as ->; [|cbn; lia].
    destruct (filter _ _) as [|j js] eqn:E; [done|]. exfalso. assert (Hj : j ∈ j :: js) by left. rewrite <-E in Hj. apply list_elem_of_filter in Hj as [-> Hj].
    apply elem_of_take in Hj as (m & Hj & _). apply list_elem_of_lookup_2 in Hj. case_bool_decide; cbn in Hj; [apply list_elem_of_singleton in Hj; done|by apply elem_of_nil in Hj].
Qed.

Lemma alter_fold (idxs : list nat) (d : list nat) j :
  foldl (fun d i => alter S i d) d idxs !! j = (fun n => (n + length (filter (fun x => x = j) idxs))%nat) <$> d !! j.
Proof.
  revert d. induction idxs as [|i idxs IH]; intros d; cbn [foldl].
  - destruct (d !! j); cbn; [|done]. f_equal. lia.
  - rewrite IH, list_lookup_alter, filter_cons. destruct (decide (i = j)) as [->|Hne]; [|done]. destruct (d !! j); cbn; [|done]. f_equal. lia.
Qed.

Lemma delivered_spec frames placed i f : Forall (fun f => NoDup (ow_targets f)) frames -> frames !! i = Some f ->
  delivered_to frames placed !! i = Some (length (filter (fun t => took frames placed i t = true) (ow_targets f))).
Proof.
  intros Hnd Hi. unfold delivered_to, frames_by_owner. destruct (sort_dedup (frames ≫= ow_targets)) as [Hod Hoe].
  set (owners := dedup (sort_Z (frames ≫= ow_targets))) in *.
  assert (Hgen : forall os (d : list nat) n, d !! i = Some n ->
    foldl (fun delivered (x : NodeId * list nat) => foldl (fun delivered i => alter S i delivered) delivered (take (placed x.1) x.2)) d
      ((fun o => (o, owner_ids frames o)) <$> os) !! i =
    Some (n + length (filter (fun t => t ∈ ow_targets f /\ took frames placed i t = true) os))%nat).
  { induction os as [|o os IH]; intros d n Hd; [cbn; rewrite Hd; f_equal; lia|]. cbn [fmap list_fmap foldl fst snd].
    rewrite (IH _ (n + length (filter (fun x => x = i) (take (placed o) (owner_ids frames o))))%nat) by (by rewrite alter_fold, Hd).
    rewrite (owner_ids_take frames o (placed o) i f Hnd Hi), filter_cons. f_equal.
    destruct (decide (o ∈ ow_targets f)) as [Ho|Ho]; [rewrite bool_decide_eq_true_2 by done|rewrite bool_decide_eq_false_2 by done]; cbn [andb].
    - destruct (length (to_peer (take i frames) o) <? placed o)%nat eqn:Et; [rewrite decide_True by (split; [done|exact Et])|rewrite decide_False by (intros [_ Hc]; unfold took in Hc; congruence)]; cbn; lia.
    - rewrite decide_False by tauto. lia. }
  change (fun owner => (owner, zip (seq 0 (length frames)) frames ≫= _)) with (fun o => (o, owner_ids frames o)).
  rewrite (Hgen owners _ 0%nat) by (apply lookup_replicate; split; [done|by apply lookup_lt_Some in Hi]). f_equal. cbn [Nat.add].
  rewrite Forall_forall in Hnd. pose proof (list_elem_of_lookup_2 _ _ _ Hi) as Hin. apply Permutation_length, NoDup_Permutation; [by apply NoDup_filter|by apply NoDup_filter, Hnd|].
  intros t. rewrite !list_elem_of_filter, Hoe, list_elem_of_bind. split; [tauto|]. intros [Ht Hft]. split_and!; try done. by exists f.
Qed.

Lemma loss_of_took stored f P : NoDup (ow_targets f) ->
  lost_of stored (f, length (filter (fun t => P t = true) (ow_targets f))) = frame_loss stored P f.
Proof.
  intros _. unfold lost_of, frame_loss.
  assert (Hall : (length (filter (fun t => P t = true) (ow_targets f)) =? 0)%nat = forallb (fun t => negb (P t)) (ow_targets f)).
  { induction (ow_targets f) as [|t ts IH]; [done|]. rewrite filter_cons. cbn. rewrite <-IH. destruct (P t); [rewrite decide_True by done|rewrite decide_False by done]; done. }
  assert (Hany : (length (filter (fun t => P t = true) (ow_targets f)) <? length (ow_targets f))%nat = existsb (fun t => negb (P t)) (ow_targets f)).
  { clear Hall. induction (ow_targets f) as [|t ts IH]; [done|]. rewrite filter_cons. cbn [existsb length]. rewrite <-IH. destruct (P t); [rewrite decide_True by done|rewrite decide_False by done]; [done|].
    apply Nat.ltb_lt. pose proof (length_filter (fun t => P t = true) ts). lia. }
  by rewrite Hall, Hany.
Qed.

(** The lost-writes counter is exact. When each owner's outbox takes the first frames it is sent, as many as it has
    room for, the count is the sum over the frames of what each lost: every record of a forward no target took that
    this node does not own itself, and one for every invalidation some target missed. *)
Theorem lost_writes_are_counted_exactly frames placed stored :
  Forall (fun f => NoDup (ow_targets f)) frames ->
  lost_writes frames (delivered_to frames placed) stored =
  sum_Z (imap (fun i f => frame_loss stored (took frames placed i) f) frames).
Proof.
  intros Hnd. assert (Hlen : length (delivered_to frames placed) = length frames).
  { unfold delivered_to. assert (Hl : forall os (d : list nat), length (foldl (fun delivered (x : NodeId * list nat) =>
      foldl (fun delivered i => alter S i delivered) delivered (take (placed x.1) x.2)) d os) = length d).
    { induction os as [|o os IH]; intros d; [done|]. cbn [foldl]. rewrite IH. generalize (take (placed o.1) o.2). intros idxs. revert d.
      induction idxs as [|x idxs IHi]; intros d; [done|]. cbn [foldl]. by rewrite IHi, length_alter. }
    by rewrite Hl, length_replicate. }
  assert (Heq : (fun x => lost_of stored x) <$> zip frames (delivered_to frames placed) = imap (fun i f => frame_loss stored (took frames placed i) f) frames).
  { apply list_eq. intros i. rewrite list_lookup_fmap, list_lookup_imap, lookup_zip_with. destruct (frames !! i) as [f|] eqn:Ei; [|done]. cbn.
    rewrite (delivered_spec frames placed i f Hnd Ei). cbn [mbind option_bind fmap option_fmap option_map]. f_equal.
    apply (loss_of_took stored f (took frames placed i)). rewrite Forall_forall in Hnd. apply Hnd. by eapply list_elem_of_lookup_2. }
  rewrite <-Heq. unfold lost_writes, sum_Z. clear. induction (zip frames _) as [|x l IH]; [done|]. cbn. by rewrite IH.
Qed.
End Counting.

(** ** The broadcast modes *)

Section Broadcast.
Context {HS : Hashing} {PM : PostcardMsg}.

Lemma sent_all peers class msgs p : NoDup peers -> p ∈ peers -> sent (send_all peers class msgs) p = (encode_frames msgs).1.
Proof.
  intros Hnd Hp. unfold send_all, encode_frames_for. destruct (encode_frames msgs) as [frames n]. cbn [fst].
  rewrite sent_app, (sent_none ((fun peer => NoteUnsent peer n) <$> peers)) by (apply Forall_fmap, Forall_true; done). cbn [app].
  induction peers as [|q peers IH]; [by apply elem_of_nil in Hp|]. apply NoDup_cons in Hnd as [Hq Hnd].
  assert (Hnone : forall l, p ∉ l -> sent ((fun peer => SendFrames peer class frames) <$> l) p = []).
  { clear. induction l as [|x l IH]; intros Hn; [done|]. apply not_elem_of_cons in Hn as [Hx Hn]. unfold sent. cbn [fmap list_fmap]. rewrite bind_cons, bool_decide_eq_false_2 by done. by apply IH. }
  unfold sent. cbn [fmap list_fmap]. rewrite bind_cons. fold (sent ((fun peer => SendFrames peer class frames) <$> peers) p).
  apply elem_of_cons in Hp as [->|Hp].
  - rewrite bool_decide_eq_true_2, Hnone, app_nil_r by done. done.
  - rewrite bool_decide_eq_false_2 by (intros ->; done). by apply IH.
Qed.

Lemma sent_all_none peers class msgs p : p ∉ peers -> sent (send_all peers class msgs) p = [].
Proof.
  intros Hp. unfold send_all, encode_frames_for. destruct (encode_frames msgs) as [frames n].
  rewrite sent_app, (sent_none ((fun peer => NoteUnsent peer n) <$> peers)) by (apply Forall_fmap, Forall_true; done). cbn [app].
  induction peers as [|q peers IH]; [done|]. apply not_elem_of_cons in Hp as [Hq Hp]. unfold sent. cbn [fmap list_fmap]. rewrite bind_cons, bool_decide_eq_false_2 by done. by apply IH.
Qed.

Lemma broadcast_sent peers merges cache records p proto : NoDup peers.*1 -> (p, proto) ∈ peers ->
  sent (broadcast_invalidation peers merges cache records) p =
    (encode_frames (if invalidation_ships_values merges proto then fold_msgs cache records else invalidations cache records)).1.
Proof.
  intros Hnd Hp. unfold broadcast_invalidation, invalidation_sends.
  set (folding := List.filter _ peers). set (dropping := List.filter (fun q => negb _) peers).
  assert (Hsub : forall f, NoDup (List.filter f peers).*1 /\ forall q, q ∈ (List.filter f peers).*1 -> exists pr, (q, pr) ∈ peers /\ f (q, pr) = true).
  { intros f. split.
    - clear -Hnd. induction peers as [|x l IH]; [constructor|]. cbn in Hnd. apply NoDup_cons in Hnd as [Hn Hnd]. cbn. destruct (f x); [|by apply IH]. cbn. constructor; [|by apply IH].
      intros Hin. apply Hn. apply list_elem_of_fmap in Hin as (y & -> & Hy). apply list_elem_of_In, filter_In in Hy as [Hy _]. apply list_elem_of_fmap. exists y. split; [done|]. by apply list_elem_of_In.
    - intros q Hq. apply list_elem_of_fmap in Hq as ([q' pr] & -> & Hy). apply list_elem_of_In, filter_In in Hy as [Hy Hf]. exists pr. split; [by apply list_elem_of_In|done]. }
  assert (Huniq : forall pr, (p, pr) ∈ peers -> pr = proto).
  { intros pr Hpr. clear -Hnd Hp Hpr. induction peers as [|x l IH]; [by apply elem_of_nil in Hp|]. cbn in Hnd. apply NoDup_cons in Hnd as [Hn Hnd].
    apply elem_of_cons in Hp, Hpr. destruct Hp as [<-|Hp], Hpr as [Heq|Hpr]; [congruence|exfalso|exfalso|by apply IH].
    - apply Hn, list_elem_of_fmap. by exists (p, pr).
    - subst x. apply Hn, list_elem_of_fmap. by exists (p, proto). }
  assert (Hin : forall f : NodeId * Z -> bool, f (p, proto) = true -> p ∈ (List.filter f peers).*1).
  { intros f Hf. apply list_elem_of_fmap. exists (p, proto). split; [done|]. apply list_elem_of_In, filter_In. split; [by apply list_elem_of_In|done]. }
  rewrite bind_app, sent_app.
  assert (Hif : forall (l : list (NodeId * Z)) msgs, sent ((if bool_decide (l = []) then [] else [{| is_peers := l.*1; is_msgs := msgs |}]) ≫= (fun s => send_all (is_peers s) ClassInvalidate (is_msgs s))) p =
    sent (send_all l.*1 ClassInvalidate msgs) p).
  { intros l msgs. case_bool_decide as Hl; [subst l; by rewrite sent_all_none by apply not_elem_of_nil|]. by rewrite bind_cons, app_nil_r. }
  rewrite !Hif. destruct (invalidation_ships_values merges proto) eqn:E.
  - rewrite sent_all, sent_all_none, app_nil_r; [done| |by apply Hsub|by apply Hin].
    intros Hq. apply Hsub in Hq as (pr & Hpr & Hneg). rewrite (Huniq pr Hpr) in Hneg. cbn in Hneg. by rewrite E in Hneg.
  - rewrite sent_all_none, sent_all; [done|by apply Hsub|apply Hin; cbn; by rewrite E|].
    intros Hq. apply Hsub in Hq as (pr & Hpr & Hpos). rewrite (Huniq pr Hpr) in Hpos. cbn in Hpos. congruence.
Qed.

(** In an invalidation cache no peer is left with a stale copy and none is sent a value it cannot fold. A peer that
    folds, under a merging resolver, is sent every live record that fits a frame as a record, and every tombstone or
    oversize record as an invalidation of its version; any other peer is sent an invalidation of every record and no
    value at all. *)
Theorem invalidation_mode_covers_every_peer peers merges cache records p proto :
  NoDup peers.*1 -> (p, proto) ∈ peers -> blen cache <= u16_max -> Forall (invalidation_encodes cache) records ->
  let frames := sent (broadcast_invalidation peers merges cache records) p in
  let folds := invalidation_ships_values merges proto in
  sent_records frames = (if folds then List.filter (ships cache) records else []) /\
  sent_invalidations frames =
    (fun r => (wr_key r, wr_ver r)) <$> (if folds then List.filter (fun r => negb (ships cache r)) records else records).
Proof.
  intros Hnd Hp Hc He. cbv zeta. rewrite (broadcast_sent peers merges cache records p proto Hnd Hp). destruct (invalidation_ships_values merges proto).
  2: { destruct (invalidation_frames cache records He) as [Hi Hr]. by split. }
  unfold fold_msgs. set (shipped := List.filter (ships cache) records). set (dropped := List.filter _ records).
  assert (Hs : Forall (fun rec => rec_frame_len cache rec <= MAX_FRAME) shipped).
  { apply Forall_forall. intros rec Hr. apply list_elem_of_In, filter_In in Hr as [_ Hr]. unfold ships in Hr. apply andb_true_iff in Hr as [_ Hr]. by apply Z.leb_le in Hr. }
  assert (Hd : Forall (invalidation_encodes cache) dropped).
  { apply Forall_forall. intros rec Hr. apply list_elem_of_In, filter_In in Hr as [Hr _]. rewrite Forall_forall in He. apply He. by apply list_elem_of_In. }
  destruct (replicates_encode cache shipped Hc Hs) as [Hb Hm].
  assert (Hall : Forall (fun m => exists b, encode m = Ok b) (batch_replicate cache shipped ++ invalidations cache dropped)) by (apply Forall_app; split; [done|by apply Forall_fmap]).
  destruct (encode_frames_all _ Hall) as [_ Hmsgs]. split.
  - rewrite sent_records_of, Hmsgs, bind_app, Hm. assert (invalidations cache dropped ≫= msg_records = []) as ->; [|by rewrite app_nil_r].
    clear. induction dropped as [|r l IH]; [done|]. done.
  - assert (Hg : forall frames, sent_invalidations frames = omap (fun m => match m with Invalidate _ key ver => Some (key, ver) | _ => None end) (of_msg <$> frames))
      by (intros frames; unfold sent_invalidations; induction frames as [|f frames IH]; [done|]; cbn; rewrite <-IH; by destruct (of_msg f)).
    rewrite Hg, Hmsgs, omap_app.
    assert (omap (fun m => match m with Invalidate _ key ver => Some (key, ver) | _ => None end) (batch_replicate cache shipped) = []) as ->.
    { unfold batch_replicate. clear. induction (chunk_records cache shipped) as [|recs l IH]; [done|]. cbn. rewrite IH. by destruct recs as [|r [|]]. }
    cbn [app]. clear. induction dropped as [|r l IH]; [done|]. cbn. by rewrite <-IH.
Qed.
End Broadcast.

(** ** The queue's history *)

Inductive QueueOp := QPush (item : FanOutItem) | QExtend (items : list FanOutItem) | QSeal | QDrain.

Record QueueLog := { ql_queue : FanOutQueue; ql_accepted : list FanOutItem; ql_drained : list FanOutItem }.

Definition queue_step (l : QueueLog) (op : QueueOp) : QueueLog :=
  match op with
  | QPush item =>
      let (q, ok) := push_item (ql_queue l) item in
      {| ql_queue := q; ql_accepted := ql_accepted l ++ (if ok then [item] else []); ql_drained := ql_drained l |}
  | QExtend items =>
      let (q, ok) := extend (ql_queue l) items in
      {| ql_queue := q; ql_accepted := ql_accepted l ++ (if ok then items else []); ql_drained := ql_drained l |}
  | QSeal => {| ql_queue := seal (ql_queue l); ql_accepted := ql_accepted l; ql_drained := ql_drained l |}
  | QDrain =>
      let (q, items) := drain (ql_queue l) in
      {| ql_queue := q; ql_accepted := ql_accepted l; ql_drained := ql_drained l ++ items |}
  end.

Definition queue_run (l : QueueLog) (ops : list QueueOp) : QueueLog := foldl queue_step l ops.
Definition queue_start : QueueLog := {| ql_queue := queue_new true; ql_accepted := []; ql_drained := [] |}.

Lemma queue_step_inv l op : fq_accepting (ql_queue l) = true -> ql_accepted l = ql_drained l ++ fq_pending (ql_queue l) ->
  let l' := queue_step l op in
  fq_accepting (ql_queue l') = true /\ ql_accepted l' = ql_drained l' ++ fq_pending (ql_queue l') /\
  (fq_closed (ql_queue l) = true -> fq_closed (ql_queue l') = true /\ ql_accepted l' = ql_accepted l).
Proof.
  intros Ha Hi. destruct l as [[pending acc closed] accepted drained]. cbn in *. subst acc accepted.
  destruct op; cbn; try unfold push_item, extend, is_open; cbn; destruct closed; cbn; rewrite ?app_nil_r, ?(assoc_L (++)); done.
Qed.

(** The fan-out queue neither drops, duplicates nor reorders a write it accepted. Whatever pushes, drains and seals
    interleave, what was accepted is what has been drained followed by what is pending, in order; and once the queue is
    sealed a single further drain leaves everything ever accepted drained, however many pushes are still tried. *)
Theorem accepted_writes_are_drained_once ops more :
  let l := queue_run queue_start ops in
  ql_accepted l = ql_drained l ++ fq_pending (ql_queue l) /\
  let sealed := queue_run l (QSeal :: more ++ [QDrain]) in
  ql_drained sealed = ql_accepted l.
Proof.
  cbv zeta. assert (Hinv : forall os l, fq_accepting (ql_queue l) = true -> ql_accepted l = ql_drained l ++ fq_pending (ql_queue l) ->
    let l' := queue_run l os in fq_accepting (ql_queue l') = true /\ ql_accepted l' = ql_drained l' ++ fq_pending (ql_queue l') /\
    (fq_closed (ql_queue l) = true -> ql_accepted l' = ql_accepted l)).
  { induction os as [|op os IH]; intros l Ha Hi; [done|]. destruct (queue_step_inv l op Ha Hi) as (Ha' & Hi' & Hc').
    destruct (IH _ Ha' Hi') as (Ha'' & Hi'' & Hc''). split_and!; try done. intros Hc. destruct (Hc' Hc) as [Hc1 Hc2]. unfold queue_run in *. cbn [foldl]. rewrite Hc''; done. }
  destruct (Hinv ops queue_start eq_refl eq_refl) as (Ha & Hi & _). split; [exact Hi|]. set (l := queue_run queue_start ops) in *.
  unfold queue_run. cbn [foldl]. rewrite foldl_app. fold (queue_run (queue_step l QSeal) more). cbn [foldl].
  destruct (Hinv more (queue_step l QSeal)) as (_ & Hi2 & Hc2); [done|done|].
  specialize (Hc2 eq_refl). set (l2 := queue_run (queue_step l QSeal) more) in *. cbn [queue_step drain ql_drained]. rewrite <-Hi2. exact Hc2.
Qed.

(** ** Examples *)

#[local] Instance sample_hashing : Hashing := {| xxh3_64 := fun b => hd 0 b; postcard_hlc := fun _ => [] |}.
#[local] Instance sample_postcard : PostcardMsg := {|
  postcard_msg := fun _ => Some []; postcard_msg_decode := fun _ => None;
  unnamed_hello_decode := fun _ => None; legacy_hello_decode := fun _ => None |}.

Definition sample_rec (key : Z) (value : option Bytes) : WireRecord := {|
  wr_key := [key]; wr_value := value; wr_ver := {| wall_ms := 10; logical := 0; node := 3 |}; wr_expires_at_ms := None |}.

Abbreviation sample_view := (compute_at 7 [7; 9] 1 Part).

Lemma sample_owner rec : owners_of sample_view (part_of rec) = [9].
Proof.
  rewrite owners_of_view by (try lia; apply part_of_u16).
  assert (Hu : forall unit, unit_owners (with_self 7 [7; 9]) 1 unit = unit_owners (with_self 7 [7; 9]) 1 0) by reflexivity.
  rewrite Hu. vm_compute. reflexivity.
Qed.

Lemma fan_out_reaches_exactly_the_owners_witness :
  exists forwards invs,
    sent (fan_out_to_owners [99] sample_view 7 [sample_rec 5 (Some [1])]
            (plan_departed_sends (Distributed 1) [] (Some sample_view) 7 false [sample_rec 6 None]) (fun _ => 1%nat)) 9 = forwards ++ invs /\
    sent_records forwards ≡ₚ filter (fits_forward [99]) (filter (goes_to sample_view 7 9) [sample_rec 5 (Some [1])]) /\
    goes_to sample_view 7 9 (sample_rec 5 (Some [1])).
Proof.
  destruct (fan_out_reaches_exactly_the_owners 7 [7; 9] 1 Part [99] [sample_rec 5 (Some [1])] [sample_rec 6 None] false (fun _ => 1%nat) 9)
    as (forwards & invs & Hs & _ & Hr & _).
  - lia.
  - vm_compute. discriminate.
  - constructor; [eexists; vm_compute; reflexivity|constructor].
  - exists forwards, invs. split; [exact Hs|]. split; [exact Hr|]. split; [discriminate|]. rewrite sample_owner. left.
Defined.

Lemma forwarded_writes_reach_an_owner_witness :
  sample_rec 5 (Some [1]) ∈ sent_records (sent (fan_out_batch (fun _ => {| fr_records := []; fr_departed := [] |}) (Some sample_view) false
    {| fc_node := 7; fc_peers := []; fc_live := [] |} [99] (Distributed 1) (fun _ => 0%nat) [Forward (sample_rec 5 (Some [1]))]) 9).
Proof.
  apply (forwarded_writes_reach_an_owner 7 [7; 9] 1 Part (fun _ => {| fr_records := []; fr_departed := [] |}) false [] [] [99] (fun _ => 0%nat)
    [Forward (sample_rec 5 (Some [1]))] (sample_rec 5 (Some [1]))).
  - lia.
  - vm_compute. discriminate.
  - left.
  - constructor; [vm_compute; discriminate|constructor].
  - rewrite sample_owner. left.
  - discriminate.
Defined.

(** A value that leaves room for its replicate frame and nothing more. *)
Definition near_limit_rec : WireRecord := sample_rec 5 (Some (replicate (Z.to_nat 4194256) 0)).

Lemma near_limit_len : rec_frame_len [99] near_limit_rec = MAX_FRAME.
Proof.
  unfold rec_frame_len, near_limit_rec, sample_rec, replicate_frame_len. cbn [wr_key wr_value from_option]. unfold blen at 3.
  rewrite length_replicate, Z2Nat.id by lia. reflexivity.
Qed.

Lemma near_limit_forward_is_lost_witness :
  let '(q, result) := insert_route (queue_new true) (owns sample_view (part_of near_limit_rec)) MAX_FRAME [99] near_limit_rec in
  result = Forwarded /\
  fan_out_batch (fun _ => {| fr_records := []; fr_departed := [] |}) (Some sample_view) false {| fc_node := 7; fc_peers := []; fc_live := [] |}
    [99] (Distributed 1) (fun _ => 1%nat) (drain q).2 = (fun p => NoteUnsent p 1) <$> other_owners sample_view 7 near_limit_rec.
Proof.
  apply (near_limit_forward_is_lost 7 [7; 9] 1 Part).
  - lia.
  - vm_compute. discriminate.
  - reflexivity.
  - rewrite near_limit_len. lia.
  - unfold fits_forward, forward_frame_len. fold (rec_frame_len [99] near_limit_rec). rewrite near_limit_len. unfold MAX_FRAME. intros Hc. apply Hc. reflexivity.
  - rewrite owns_view by (try lia; apply part_of_u16). rewrite sample_owner. reflexivity.
Defined.

Lemma lost_writes_are_counted_exactly_witness :
  let f := {| ow_frame := {| of_msg := ForwardBatch [99] 0 0 [sample_rec 5 None; sample_rec 6 None]; of_frame := [] |}; ow_targets := [8; 9]; ow_invalidation := false |} in
  lost_writes [f] (delivered_to [f] (fun _ => 0%nat)) (fun rec => bool_decide (wr_key rec = [6])) = 1.
Proof.
  cbv zeta. rewrite (lost_writes_are_counted_exactly [_]); [vm_compute; reflexivity|]. constructor; [|constructor]. cbn.
  apply NoDup_cons. split; [rewrite list_elem_of_singleton; discriminate|apply NoDup_singleton].
Defined.

Lemma invalidation_mode_covers_every_peer_witness :
  sent_invalidations (sent (broadcast_invalidation [(9, 8)] true [99] [sample_rec 5 (Some [1]); sample_rec 6 None]) 9) =
    [([6], {| wall_ms := 10; logical := 0; node := 3 |})].
Proof.
  destruct (invalidation_mode_covers_every_peer [(9, 8)] true [99] [sample_rec 5 (Some [1]); sample_rec 6 None] 9 8) as [_ Hi].
  - apply NoDup_singleton.
  - left.
  - vm_compute. discriminate.
  - constructor; [eexists; vm_compute; reflexivity|constructor; [eexists; vm_compute; reflexivity|constructor]].
  - rewrite Hi. vm_compute. reflexivity.
Defined.
