(* ===== verification/Mesh.v ===== *)
(** * Mesh: outboxes, sends and per-peer bookkeeping

    [net/outbox.rs]'s drop-oldest queue, the decisions and the bookkeeping of [net/mod.rs], and the sends of
    [net/mesh.rs]. The replicate outbox is a tokio channel and semaphore: what a reservation answers, when, and what the
    writer has taken by then are inputs. Instants are milliseconds of a monotonic clock. *)

From S2P Require Import Prelude Clock Types Record Wire Ownership FanOut.

(** ** Definitions *)

Inductive OutboxFull := Full | Closed.

(** *** The drop-oldest queue, [net/outbox.rs] *)

(** [Weighed]: what a queued entry weighs against its queue's byte budget. *)
Class Weighed (T : Type) := weight : T -> Z.

Record DropOldestQueue T := { dq_entries : list (T * Z); dq_bytes : Z; dq_capacity : Z; dq_budget : Z }.
Arguments dq_entries {T} _.
Arguments dq_bytes {T} _.
Arguments dq_capacity {T} _.
Arguments dq_budget {T} _.

Section Queue.
Context {T : Type} `{!Weighed T}.

Definition dq_new (capacity budget : Z) : DropOldestQueue T :=
  {| dq_entries := []; dq_bytes := 0; dq_capacity := capacity; dq_budget := budget |}.

(** The eviction loop of [push]: the entries and bytes left, and how many entries went. *)
Fixpoint evict_oldest (capacity budget weight : Z) (entries : list (T * Z)) (bytes evicted : Z) : list (T * Z) * Z * Z :=
  match entries with
  | [] => ([], bytes, evicted)
  | (_, w) :: rest =>
      if (capacity <=? Z.of_nat (length entries)) || (budget <? saturating_add bytes weight)
      then evict_oldest capacity budget weight rest (bytes - w) (evicted + 1)
      else (entries, bytes, evicted)
  end.

Definition dq_push (q : DropOldestQueue T) (item : T) : DropOldestQueue T * Z :=
  let w := Z.min (weight item) (dq_budget q) in
  let '(entries, bytes, evicted) := evict_oldest (dq_capacity q) (dq_budget q) w (dq_entries q) (dq_bytes q) 0 in
  ({| dq_entries := entries ++ [(item, w)]; dq_bytes := bytes + w; dq_capacity := dq_capacity q; dq_budget := dq_budget q |}, evicted).

Definition try_pop (q : DropOldestQueue T) : DropOldestQueue T * option T :=
  match dq_entries q with
  | [] => (q, None)
  | (item, w) :: rest =>
      ({| dq_entries := rest; dq_bytes := dq_bytes q - w; dq_capacity := dq_capacity q; dq_budget := dq_budget q |}, Some item)
  end.

Definition dq_len (q : DropOldestQueue T) : Z := Z.of_nat (length (dq_entries q)).
End Queue.

(** [net/frames.rs]: the sizes of the two structures are the compiler's. *)
Class Layout := { size_of_Msg : Z; size_of_WireRecord : Z }.

Definition record_bytes `{!Layout} (rec : WireRecord) : Z :=
  size_of_WireRecord + blen (wr_key rec) + from_option blen 0 (wr_value rec).
Definition resident_bytes `{!Layout} (msg : Msg) (encoded : Z) : Z :=
  let decoded :=
    match msg with
    | Replicate _ rec => record_bytes rec
    | ReplicateBatch _ recs | ForwardBatch _ _ _ recs => sum_Z (record_bytes <$> recs)
    | Invalidate _ key _ => blen key
    | _ => 0
    end in
  size_of_Msg + encoded + decoded.
#[export] Instance OutFrame_weighed `{!Layout} : Weighed OutFrame := fun f => resident_bytes (of_msg f) (blen (of_frame f)).

(** *** A send's waits and the stall latch, [net/mod.rs] *)

Definition FAN_OUT_SEND_DEADLINE : Z := 2000.
Inductive SendBudget := Unbounded | Idle (idle : Z).

(** [checked_add] is [None] past the clock's last instant. *)
Definition idle_deadline (max_instant : Z) (budget : SendBudget) (now : Z) : option Z :=
  match budget with Unbounded => None | Idle idle => if now + idle <=? max_instant then Some (now + idle) else None end.

Inductive RoomWait := TryOnly | Until (until : Z).
#[export] Instance RoomWait_eq_dec : EqDecision RoomWait.
Proof. solve_decision. Defined.

Definition fan_out_room_wait (deadline : option Z) (stalled : bool) (now : Z) : RoomWait :=
  let slice_end := now + FAN_OUT_SEND_DEADLINE in
  match deadline with
  | None => Until slice_end
  | Some end_ => if stalled || (end_ <=? now) then TryOnly else Until (Z.min slice_end end_)
  end.

Inductive NoRoom := WaitAgain | NoRoomDeparted | NoRoomStalled.
#[export] Instance NoRoom_eq_dec : EqDecision NoRoom.
Proof. solve_decision. Defined.

Definition fan_out_no_room (peer_live stalled : bool) (wait : RoomWait) (deadline : option Z) (now : Z) : NoRoom :=
  if negb peer_live then NoRoomDeparted
  else match deadline with
       | None => WaitAgain
       | Some end_ => if stalled || (end_ <=? now) || bool_decide (wait = TryOnly) then NoRoomStalled else WaitAgain
       end.

Inductive SendEnd := SendPlaced | SendStalled | SendDeparted.

Definition stall_latch (end_ : SendEnd) (taken_since : bool) : option bool :=
  match end_ with
  | SendPlaced => if taken_since then Some false else None
  | SendStalled => Some true
  | SendDeparted => None
  end.
Definition latch_mark (taken : Z) : Z := saturating_add taken 1.
Definition taken_since_latch (latched_at taken : Z) : bool := negb (latched_at =? 0) && (latched_at <=? taken).
Definition waits_out_latch (latched_at taken : Z) : bool := negb (latched_at =? 0) && negb (taken_since_latch latched_at taken).

(** *** A bounded or unbounded send, [net/mesh.rs] *)

Record IdleWait := { iw_budget : SendBudget; iw_deadline : option Z; iw_last_taken : Z }.
Definition renew (max_instant : Z) (w : IdleWait) (now : Z) : IdleWait :=
  {| iw_budget := iw_budget w; iw_deadline := idle_deadline max_instant (iw_budget w) now; iw_last_taken := iw_last_taken w |}.
Definition note_taken (max_instant : Z) (w : IdleWait) (taken now : Z) : IdleWait :=
  if taken =? iw_last_taken w then w
  else renew max_instant {| iw_budget := iw_budget w; iw_deadline := iw_deadline w; iw_last_taken := taken |} now.

(** One slice of a wait: when it starts and what the writer has taken and the latch reads then, whether a reservation was
    granted, and the same once it ends. *)
Record Slice := {
  sl_started : Z; sl_taken0 : Z; sl_latch0 : Z;
  sl_reserved : result unit OutboxFull;
  sl_now : Z; sl_taken : Z; sl_latch : Z; sl_live : bool;
}.

(** The loop of [room_for] over the slices it goes through; [None] when they do not end it. *)
Fixpoint room_for (max_instant : Z) (idle : IdleWait) (slices : list Slice) : option (IdleWait * result Z NoRoom * list Slice) :=
  match slices with
  | [] => None
  | s :: rest =>
      let wait := fan_out_room_wait (iw_deadline idle) (waits_out_latch (sl_latch0 s) (sl_taken0 s)) (sl_started s) in
      match sl_reserved s with
      | Ok _ => Some (idle, Ok (sl_now s), rest)
      | Err Closed => Some (idle, Err NoRoomDeparted, rest)
      | Err Full =>
          let idle := note_taken max_instant idle (sl_taken s) (sl_now s) in
          let outcome := fan_out_no_room (sl_live s) (waits_out_latch (sl_latch s) (sl_taken s)) wait (iw_deadline idle) (sl_now s) in
          if bool_decide (outcome = WaitAgain) then room_for max_instant idle rest else Some (idle, Err outcome, rest)
      end
  end.

(** The frames of a send in turn: how many were placed, how many dropped, how it ended. *)
Fixpoint send_loop (max_instant : Z) (idle : IdleWait) (frames : nat) (placed : nat) (slices : list Slice) : option (nat * nat * SendEnd) :=
  match frames with
  | O => Some (placed, 0%nat, SendPlaced)
  | S rest_frames =>
      match room_for max_instant idle slices with
      | None => None
      | Some (idle, Ok now, slices) => send_loop max_instant (renew max_instant idle now) rest_frames (S placed) slices
      | Some (_, Err outcome, _) =>
          Some (placed, frames, if bool_decide (outcome = NoRoomStalled) then SendStalled else SendDeparted)
      end
  end.

(** *** The peer table, [net/mod.rs] and [net/mesh.rs] *)

(** An IP and a port. *)
Abbreviation SocketAddr := (Z * Z)%type (only parsing).

Record Peer := { pe_node : NodeId; pe_data_addr : SocketAddr; pe_protocol : Z }.

Record PeerHandle := {
  ph_data_addr : SocketAddr;
  ph_invalidate : DropOldestQueue OutFrame;
  (** Frames in the replicate outbox: its capacity less its free slots. *)
  ph_queued : Z;
  ph_dirty : bool;
  ph_stalled : Z;
  ph_pull_limits : gmap Bytes Z;
  ph_pull_warned : gset Bytes;
  ph_last_replicate_enqueued : Z;
  ph_ae_deferrals : Z;
  ph_protocol : Z;
}.

Definition set_dirty (h : PeerHandle) (d : bool) : PeerHandle := {|
  ph_data_addr := ph_data_addr h; ph_invalidate := ph_invalidate h; ph_queued := ph_queued h; ph_dirty := d; ph_stalled := ph_stalled h;
  ph_pull_limits := ph_pull_limits h; ph_pull_warned := ph_pull_warned h; ph_last_replicate_enqueued := ph_last_replicate_enqueued h;
  ph_ae_deferrals := ph_ae_deferrals h; ph_protocol := ph_protocol h |}.
Definition set_outboxes (h : PeerHandle) (q : DropOldestQueue OutFrame) (queued last : Z) : PeerHandle := {|
  ph_data_addr := ph_data_addr h; ph_invalidate := q; ph_queued := queued; ph_dirty := ph_dirty h; ph_stalled := ph_stalled h;
  ph_pull_limits := ph_pull_limits h; ph_pull_warned := ph_pull_warned h; ph_last_replicate_enqueued := last;
  ph_ae_deferrals := ph_ae_deferrals h; ph_protocol := ph_protocol h |}.
Definition set_stalled (h : PeerHandle) (x : Z) : PeerHandle := {|
  ph_data_addr := ph_data_addr h; ph_invalidate := ph_invalidate h; ph_queued := ph_queued h; ph_dirty := ph_dirty h; ph_stalled := x;
  ph_pull_limits := ph_pull_limits h; ph_pull_warned := ph_pull_warned h; ph_last_replicate_enqueued := ph_last_replicate_enqueued h;
  ph_ae_deferrals := ph_ae_deferrals h; ph_protocol := ph_protocol h |}.
Definition set_pulls (h : PeerHandle) (limits : gmap Bytes Z) (warned : gset Bytes) : PeerHandle := {|
  ph_data_addr := ph_data_addr h; ph_invalidate := ph_invalidate h; ph_queued := ph_queued h; ph_dirty := ph_dirty h; ph_stalled := ph_stalled h;
  ph_pull_limits := limits; ph_pull_warned := warned; ph_last_replicate_enqueued := ph_last_replicate_enqueued h;
  ph_ae_deferrals := ph_ae_deferrals h; ph_protocol := ph_protocol h |}.
Definition set_deferrals (h : PeerHandle) (n : Z) : PeerHandle := {|
  ph_data_addr := ph_data_addr h; ph_invalidate := ph_invalidate h; ph_queued := ph_queued h; ph_dirty := ph_dirty h; ph_stalled := ph_stalled h;
  ph_pull_limits := ph_pull_limits h; ph_pull_warned := ph_pull_warned h; ph_last_replicate_enqueued := ph_last_replicate_enqueued h;
  ph_ae_deferrals := n; ph_protocol := ph_protocol h |}.
Definition set_protocol (h : PeerHandle) (p : Z) : PeerHandle := {|
  ph_data_addr := ph_data_addr h; ph_invalidate := ph_invalidate h; ph_queued := ph_queued h; ph_dirty := ph_dirty h; ph_stalled := ph_stalled h;
  ph_pull_limits := ph_pull_limits h; ph_pull_warned := ph_pull_warned h; ph_last_replicate_enqueued := ph_last_replicate_enqueued h;
  ph_ae_deferrals := ph_ae_deferrals h; ph_protocol := p |}.

Record MeshConfig := { mc_node : NodeId; mc_outbox_capacity : Z; mc_outbox_bytes : Z; mc_ack_window : Z }.

Abbreviation AckedBucketKey := (Bytes * Z * NodeId)%type (only parsing).

Record MeshInner := {
  mi_peers : gmap NodeId PeerHandle;
  (** When the ack was recorded and the view hash it carried. *)
  mi_acked_buckets : gmap AckedBucketKey (Z * Z);
  mi_ack_swept_at : Z;
}.

Definition with_peers (m : MeshInner) (peers : gmap NodeId PeerHandle) : MeshInner :=
  {| mi_peers := peers; mi_acked_buckets := mi_acked_buckets m; mi_ack_swept_at := mi_ack_swept_at m |}.

Definition spawn_peer_handle (c : MeshConfig) (data_addr : SocketAddr) (protocol : Z) : PeerHandle := {|
  ph_data_addr := data_addr; ph_invalidate := dq_new (mc_outbox_capacity c) (mc_outbox_bytes c); ph_queued := 0; ph_dirty := false;
  ph_stalled := 0; ph_pull_limits := ∅; ph_pull_warned := ∅; ph_last_replicate_enqueued := 0; ph_ae_deferrals := 0; ph_protocol := protocol |}.

Definition incoming_peers (c : MeshConfig) (peers : list Peer) : list Peer := filter (fun p => pe_node p <> mc_node c) peers.

(** [HashMap::from_iter]: a later entry replaces an earlier one of its key. *)
Definition incoming_map (peers : list Peer) : gmap NodeId (SocketAddr * Z) :=
  foldl (fun m p => <[pe_node p := (pe_data_addr p, pe_protocol p)]> m) ∅ peers.

(** A kept handle: its peer is still there at its address, and speaks the protocol it now gossips. *)
Definition retain_handle (incoming : gmap NodeId (SocketAddr * Z)) (node : NodeId) (h : PeerHandle) : option PeerHandle :=
  match incoming !! node with
  | None => None
  | Some (data_addr, protocol) => if bool_decide (data_addr <> ph_data_addr h) then None else Some (set_protocol h protocol)
  end.

Definition entry_or_spawn (c : MeshConfig) (table : gmap NodeId PeerHandle) (p : Peer) : gmap NodeId PeerHandle :=
  match table !! pe_node p with
  | Some _ => table
  | None => <[pe_node p := spawn_peer_handle c (pe_data_addr p) (pe_protocol p)]> table
  end.

Definition forget_acks_of_departed {A} (peers : gmap NodeId A) (rows : gmap AckedBucketKey (Z * Z)) : gmap AckedBucketKey (Z * Z) :=
  filter (fun kv => is_Some (peers !! kv.1.2)) rows.

Definition update_peers (c : MeshConfig) (m : MeshInner) (peers : list Peer) : MeshInner :=
  let incoming_list := incoming_peers c peers in
  let incoming := incoming_map incoming_list in
  let kept := map_imap (retain_handle incoming) (mi_peers m) in
  {| mi_peers := foldl (entry_or_spawn c) kept incoming_list;
     mi_acked_buckets := forget_acks_of_departed incoming (mi_acked_buckets m);
     mi_ack_swept_at := mi_ack_swept_at m |}.

(** *** Marks and limits of a peer *)

Definition on_peer (m : MeshInner) (peer : NodeId) (f : PeerHandle -> PeerHandle) : MeshInner := with_peers m (alter f peer (mi_peers m)).

Definition note_unsent (m : MeshInner) (peer : NodeId) (frames : nat) : MeshInner :=
  if (frames =? 0)%nat then m else on_peer m peer (fun h => set_dirty h true).
Definition mark_dirty (m : MeshInner) (peer : NodeId) : MeshInner := on_peer m peer (fun h => set_dirty h true).
Definition take_dirty_peers (m : MeshInner) : MeshInner * gset NodeId :=
  (with_peers m ((fun h => set_dirty h false) <$> mi_peers m), dom (filter (fun kv => ph_dirty kv.2 = true) (mi_peers m))).
Definition peer_is_live (m : MeshInner) (peer : NodeId) : bool := is_some (mi_peers m !! peer).
Definition pull_limit (m : MeshInner) (peer : NodeId) (cache : Bytes) : option Z := h ← mi_peers m !! peer; ph_pull_limits h !! cache.
Definition set_pull_limit (m : MeshInner) (peer : NodeId) (cache : Bytes) (limit : Z) : MeshInner :=
  on_peer m peer (fun h => set_pulls h (<[cache := limit]> (ph_pull_limits h)) (ph_pull_warned h)).
Definition first_one_key_warning (m : MeshInner) (peer : NodeId) (cache : Bytes) : MeshInner * bool :=
  match mi_peers m !! peer with
  | None => (m, false)
  | Some h => (on_peer m peer (fun h => set_pulls h (ph_pull_limits h) ({[cache]} ∪ ph_pull_warned h)), negb (bool_decide (cache ∈ ph_pull_warned h)))
  end.
Definition peer_protocol (m : MeshInner) (peer : NodeId) : Z := from_option ph_protocol 0 (mi_peers m !! peer).

Definition MAX_AE_DEFERRALS : Z := 3.
Definition defer_ae_digest (queued deferred_so_far : Z) : bool := (0 <? queued) && (deferred_so_far <? MAX_AE_DEFERRALS).
Definition defers_ae_digest_from (m : MeshInner) (peer : NodeId) : MeshInner * bool :=
  match mi_peers m !! peer with
  | None => (m, false)
  | Some h =>
      if defer_ae_digest (ph_queued h) (ph_ae_deferrals h)
      then (on_peer m peer (fun h => set_deferrals h (ph_ae_deferrals h + 1)), true)
      else (on_peer m peer (fun h => set_deferrals h 0), false)
  end.
Definition replicate_in_flight (m : MeshInner) (peer : NodeId) (mono_ms window : Z) : bool :=
  match mi_peers m !! peer with
  | None => false
  | Some h =>
      if 0 <? ph_queued h then true
      else let last := ph_last_replicate_enqueued h in negb (last =? 0) && (saturating_sub (mono_ms + 1) last <=? window)
  end.
Definition outboxes_pending (replicate_free replicate_cap invalidate_len : Z) : bool := (replicate_free <? replicate_cap) || (0 <? invalidate_len).
Definition queued_frames (replicate_free replicate_cap invalidate_len : Z) : Z :=
  saturating_add (saturating_sub replicate_cap replicate_free) invalidate_len.

(** *** Sends *)

Section Sends.
Context {LO : Layout}.

(** One frame of [send_frames], with what the replicate outbox answers; whether the frame went in. *)
Definition send_one (class : MsgClass) (acc : PeerHandle * bool) (x : OutFrame * result unit OutboxFull) : PeerHandle * bool :=
  let '(h, all) := acc in
  let '(frame, answer) := x in
  match class with
  | ClassInvalidate =>
      let (q, evicted) := dq_push (ph_invalidate h) frame in
      let h := set_outboxes h q (ph_queued h) (ph_last_replicate_enqueued h) in
      (if 0 <? evicted then set_dirty h true else h, all)
  | ClassReplicate =>
      match answer with
      | Ok _ => (set_outboxes h (ph_invalidate h) (ph_queued h + 1) (ph_last_replicate_enqueued h), all)
      | Err Full => (set_dirty h true, false)
      | Err Closed => (h, all)
      end
  end.

Definition send_frames (m : MeshInner) (peer : NodeId) (class : MsgClass) (mono_ms : Z) (frames : list (OutFrame * result unit OutboxFull)) :
    MeshInner * bool :=
  match mi_peers m !! peer with
  | None => (m, false)
  | Some h =>
      let (h, all) := foldl (send_one class) (h, true) frames in
      let stamped := match class with ClassReplicate => negb (bool_decide (frames = [])) | ClassInvalidate => false end in
      let h := if stamped then set_outboxes h (ph_invalidate h) (ph_queued h) (mono_ms + 1) else h in
      (with_peers m (<[peer := h]> (mi_peers m)), all)
  end.
End Sends.

(** [settle_stall_latch]; the latch has not moved since it was read. *)
Definition settle_stall_latch (h : PeerHandle) (end_ : SendEnd) (taken : Z) : PeerHandle :=
  match stall_latch end_ (taken_since_latch (ph_stalled h) taken) with
  | Some true => set_stalled h (latch_mark taken)
  | Some false => set_dirty (set_stalled h 0) true
  | None => h
  end.

(** What [send_frames_within] does to the handle once its frames have gone: [taken] is the writer's count then. *)
Definition finish_send (h : PeerHandle) (bounded : bool) (dropped : nat) (end_ : SendEnd) (taken mono_ms : Z) : PeerHandle :=
  let h := set_outboxes h (ph_invalidate h) (ph_queued h) (mono_ms + 1) in
  let h := if (0 <? dropped)%nat then set_dirty h true else h in
  if bounded then settle_stall_latch h end_ taken else h.

Definition send_frames_within (max_instant : Z) (m : MeshInner) (peer : NodeId) (frames : nat) (budget : SendBudget) (now taken0 : Z)
    (slices : list Slice) (taken mono_ms : Z) : option (MeshInner * nat) :=
  if (frames =? 0)%nat then Some (m, 0%nat)
  else match mi_peers m !! peer with
       | None => Some (m, 0%nat)
       | Some _ =>
           let idle := {| iw_budget := budget; iw_deadline := idle_deadline max_instant budget now; iw_last_taken := taken0 |} in
           '(placed, dropped, end_) ← send_loop max_instant idle frames 0 slices;
           Some (on_peer m peer (fun h => finish_send h (is_some (iw_deadline idle)) dropped end_ taken mono_ms), placed)
       end.

(** *** Acknowledged buckets *)

Definition ACK_SWEEP_FLOOR : Z := 1000.
Definition ack_within_window (acked_at now window : Z) : bool := saturating_sub now acked_at <=? window.
Definition ack_sweep_due (swept_at now window : Z) : bool := Z.max window ACK_SWEEP_FLOOR <=? saturating_sub now swept_at.

Definition sweep_aged_acks (rows : gmap AckedBucketKey (Z * Z)) (now window : Z) : gmap AckedBucketKey (Z * Z) :=
  filter (fun kv => ack_within_window kv.2.1 now window = true) rows.

Definition record_bucket_ack_at (c : MeshConfig) (m : MeshInner) (cache : Bytes) (bucket : Z) (from : NodeId) (view_hash now : Z) : MeshInner :=
  let rows := <[(cache, bucket, from) := (now, view_hash)]> (mi_acked_buckets m) in
  if ack_sweep_due (mi_ack_swept_at m) now (mc_ack_window c)
  then {| mi_peers := mi_peers m; mi_acked_buckets := sweep_aged_acks rows now (mc_ack_window c); mi_ack_swept_at := now |}
  else {| mi_peers := mi_peers m; mi_acked_buckets := rows; mi_ack_swept_at := mi_ack_swept_at m |}.

Definition ack_counts (cache : Bytes) (due : list Z) (window view_hash now : Z) (row : AckedBucketKey * (Z * Z)) : bool :=
  let '((c, bucket, _), (acked_at, acked_view_hash)) := row in
  bool_decide (c = cache) && bool_decide (bucket ∈ due) && ack_within_window acked_at now window && (acked_view_hash =? view_hash).

(** The pairs of a bucket and an owner that acknowledged it. *)
Definition acked_owners_in (rows : gmap AckedBucketKey (Z * Z)) (cache : Bytes) (due : list Z) (window view_hash now : Z) : gset (Z * NodeId) :=
  list_to_set ((fun row : AckedBucketKey * (Z * Z) => (row.1.1.2, row.1.2))
    <$> filter (fun row => ack_counts cache due window view_hash now row = true) (map_to_list rows)).
Definition acked_owners (m : MeshInner) (cache : Bytes) (due : list Z) (window view_hash now : Z) : gset (Z * NodeId) :=
  acked_owners_in (mi_acked_buckets m) cache due window view_hash now.

(** ** The drop-oldest queue *)

Section QueueProofs.
Context {T : Type} `{!Weighed T}.
Implicit Types (q : DropOldestQueue T) (es : list (T * Z)).

Definition weights es : Z := sum_Z es.*2.

(** Bounds: the weights add up, each within the budget, all within it together, and no more entries than the capacity. *)
Record dq_wf q : Prop := {
  dw_capacity : 1 <= dq_capacity q;
  dw_budget : 0 <= dq_budget q < u64_max;
  dw_bytes : dq_bytes q = weights (dq_entries q);
  dw_weights : Forall (fun e => 0 <= e.2 <= dq_budget q) (dq_entries q);
  dw_len : Z.of_nat (length (dq_entries q)) <= dq_capacity q;
  dw_total : dq_bytes q <= dq_budget q;
}.

(** Whether an item of weight [w] goes in behind [es]. *)
Definition has_room (capacity budget w : Z) es : Prop := Z.of_nat (length es) < capacity /\ weights es + w <= budget.

Lemma weights_cons e es : weights (e :: es) = e.2 + weights es.
Proof. apply sum_Z_cons. Qed.

Lemma weights_nonneg budget es : Forall (fun e => 0 <= e.2 <= budget) es -> 0 <= weights es.
Proof. induction 1 as [|e es He _ IH]; [done|]. rewrite weights_cons. lia. Qed.

Lemma evict_oldest_spec capacity budget w es ev :
  Forall (fun e => 0 <= e.2 <= budget) es -> budget < u64_max ->
  exists n, evict_oldest capacity budget w es (weights es) ev = (drop n es, weights (drop n es), ev + Z.of_nat n) /\ (n <= length es)%nat /\
    (drop n es = [] \/ has_room capacity budget w (drop n es)) /\ (forall m, (m < n)%nat -> ~ has_room capacity budget w (drop m es)).
Proof.
  intros Hf Hb. revert ev. induction es as [|[x we] es IH]; intros ev.
  { exists 0%nat. cbn. split_and!; [f_equal; lia|lia|by left|lia]. }
  apply Forall_cons in Hf as [He Hf]. cbn [snd] in He. cbn [evict_oldest].
  assert (Hiff : (capacity <=? Z.of_nat (length ((x, we) :: es))) || (budget <? saturating_add (weights ((x, we) :: es)) w) = true <->
    ~ has_room capacity budget w ((x, we) :: es)).
  { unfold has_room, saturating_add. rewrite orb_true_iff, Z.leb_le, Z.ltb_lt. lia. }
  destruct (_ || _) eqn:E.
  - destruct (IH Hf (ev + 1)) as (n & Hn & Hle & Hroom & Hmin). exists (S n). rewrite weights_cons. cbn [snd drop]. replace (we + weights es - we) with (weights es) by lia.
    rewrite Hn. split_and!; [f_equal; lia|cbn; lia|done|]. intros [|m] Hm; [cbn; by apply Hiff|]. cbn. apply Hmin. lia.
  - exists 0%nat. cbn [drop]. split_and!; [f_equal; lia|lia| |lia]. right. unfold has_room in *. destruct (decide (Z.of_nat (length ((x, we) :: es)) < capacity /\ weights ((x, we) :: es) + w <= budget)) as [|Hn]; [done|].
    apply Hiff in Hn. congruence.
Qed.

Lemma weights_drop budget n es : Forall (fun e => 0 <= e.2 <= budget) es -> Forall (fun e => 0 <= e.2 <= budget) (drop n es) /\ weights (drop n es) <= weights es.
Proof.
  revert n. induction es as [|e es IH]; intros [|n] Hf; try done. cbn. apply Forall_cons in Hf as [He Hf]. destruct (IH n Hf) as [H1 H2]. split; [done|].
  rewrite weights_cons. lia.
Qed.

(** [push] keeps the new item and as many of the newest entries as fit with it, and counts the ones it dropped. *)
Lemma dq_push_spec q item : dq_wf q -> 0 <= weight item ->
  let w := Z.min (weight item) (dq_budget q) in
  let '(q', evicted) := dq_push q item in
  dq_wf q' /\ exists n, evicted = Z.of_nat n /\ (n <= length (dq_entries q))%nat /\ dq_entries q' = drop n (dq_entries q) ++ [(item, w)] /\
    (forall m, (m < n)%nat -> ~ has_room (dq_capacity q) (dq_budget q) w (drop m (dq_entries q))) /\
    dq_capacity q' = dq_capacity q /\ dq_budget q' = dq_budget q.
Proof.
  intros [Hc Hb Hby Hw Hl Ht] Hpos. cbv zeta. unfold dq_push. set (w := Z.min (weight item) (dq_budget q)).
  destruct (evict_oldest_spec (dq_capacity q) (dq_budget q) w (dq_entries q) 0 Hw ltac:(lia)) as (n & He & Hle & Hroom & Hmin).
  rewrite Hby, He. destruct (weights_drop (dq_budget q) n (dq_entries q) Hw) as [Hwd Hle2]. split.
  - assert (Hfit : Z.of_nat (length (drop n (dq_entries q))) < dq_capacity q /\ weights (drop n (dq_entries q)) + w <= dq_budget q).
    { destruct Hroom as [->|Hr]; [split; [cbn; lia|]; change (weights []) with 0; unfold w; lia|exact Hr]. }
    split; cbn [dq_entries dq_bytes dq_capacity dq_budget]; try done.
    + unfold weights. rewrite fmap_app, sum_Z_app. cbn [fmap list_fmap snd]. rewrite sum_Z_one. done.
    + apply Forall_app. split; [done|]. constructor; [cbn; unfold w; lia|constructor].
    + rewrite length_app. cbn [length]. lia.
    + lia.
  - exists n. split_and!; done || lia.
Qed.

Lemma try_pop_wf q : dq_wf q -> dq_wf (try_pop q).1.
Proof.
  intros [Hc Hb Hby Hw Hl Ht]. unfold try_pop. destruct (dq_entries q) as [|[x w] rest] eqn:E; [split; cbn; rewrite ?E; done|].
  apply Forall_cons in Hw as [Hx Hw]. rewrite weights_cons in Hby. cbn in *. split; cbn; try done; lia.
Qed.

(** A sender's pushes and the writer's pops, in any order. *)
Inductive DqOp := DqPush (item : T) | DqPop.

(** The queue, everything pushed in order, how many entries were popped and how many were dropped. *)
Record DqLog := { dl_queue : DropOldestQueue T; dl_pushed : list T; dl_popped : Z; dl_dropped : Z }.
Definition dq_step (l : DqLog) (op : DqOp) : DqLog :=
  match op with
  | DqPush item =>
      let (q, evicted) := dq_push (dl_queue l) item in
      {| dl_queue := q; dl_pushed := dl_pushed l ++ [item]; dl_popped := dl_popped l; dl_dropped := dl_dropped l + evicted |}
  | DqPop =>
      let (q, got) := try_pop (dl_queue l) in
      {| dl_queue := q; dl_pushed := dl_pushed l; dl_popped := dl_popped l + (if is_some got then 1 else 0); dl_dropped := dl_dropped l |}
  end.
Definition dq_run (capacity budget : Z) (ops : list DqOp) : DqLog :=
  foldl dq_step {| dl_queue := dq_new capacity budget; dl_pushed := []; dl_popped := 0; dl_dropped := 0 |} ops.

Lemma dq_step_inv l op gone : (forall x : T, 0 <= weight x) -> dq_wf (dl_queue l) -> (gone <= length (dl_pushed l))%nat ->
  (dq_entries (dl_queue l)).*1 = drop gone (dl_pushed l) -> Z.of_nat gone = dl_popped l + dl_dropped l ->
  let l' := dq_step l op in exists gone', dq_wf (dl_queue l') /\ (gone' <= length (dl_pushed l'))%nat /\
    (dq_entries (dl_queue l')).*1 = drop gone' (dl_pushed l') /\ Z.of_nat gone' = dl_popped l' + dl_dropped l'.
Proof.
  intros Hpos Hw Hle Hent Hsum. assert (Hlen : (gone + length (dq_entries (dl_queue l)))%nat = length (dl_pushed l)).
  { apply (f_equal length) in Hent. rewrite length_fmap, length_drop in Hent. lia. }
  destruct op as [item|]; cbn [dq_step].
  - pose proof (dq_push_spec (dl_queue l) item Hw (Hpos item)) as Hp. cbv zeta in Hp. destruct (dq_push (dl_queue l) item) as [q' ev].
    destruct Hp as (Hw' & n & -> & Hn & He & _). exists (gone + n)%nat. cbn. split_and!; [done|rewrite length_app; cbn; lia| |lia].
    rewrite He, fmap_app, fmap_drop, Hent, drop_drop, drop_app_le by lia. done.
  - pose proof (try_pop_wf (dl_queue l) Hw) as Hw'. unfold try_pop in *. destruct (dq_entries (dl_queue l)) as [|[x w] rest] eqn:E; cbn in *.
    + exists gone. split_and!; try done; [by rewrite E|lia].
    + exists (S gone). split_and!; [done|lia| |lia]. rewrite <-(drop_drop _ 1 gone) || idtac. rewrite <-Nat.add_1_r, <-drop_drop, <-Hent. done.
Qed.

(** An invalidate outbox always holds the newest entries it can. Whatever is pushed and popped, the queue is a suffix
    of everything pushed, in order; it never exceeds its capacity in entries nor its budget in bytes; every entry that
    is not in it was handed to the writer or counted as dropped; and a push drops no more than it must: with one entry
    fewer dropped, the new one would not have fitted. *)
Theorem outbox_keeps_the_newest (capacity budget : Z) (ops : list DqOp) (item : T) :
  1 <= capacity -> 0 <= budget < u64_max -> (forall x : T, 0 <= weight x) ->
  let l := dq_run capacity budget ops in
  let q := dl_queue l in
  (exists gone, (dq_entries q).*1 = drop gone (dl_pushed l) /\ Z.of_nat gone = dl_popped l + dl_dropped l) /\
  dq_len q <= capacity /\ weights (dq_entries q) = dq_bytes q /\ dq_bytes q <= budget /\
  (forall m, Z.of_nat m < (dq_push q item).2 -> ~ has_room capacity budget (Z.min (weight item) budget) (drop m (dq_entries q))).
Proof.
  intros Hc Hb Hpos. cbv zeta.
  assert (Hinv : exists gone, dq_wf (dl_queue (dq_run capacity budget ops)) /\ (gone <= length (dl_pushed (dq_run capacity budget ops)))%nat /\
    (dq_entries (dl_queue (dq_run capacity budget ops))).*1 = drop gone (dl_pushed (dq_run capacity budget ops)) /\
    Z.of_nat gone = dl_popped (dq_run capacity budget ops) + dl_dropped (dq_run capacity budget ops)).
  { unfold dq_run. induction ops as [|op ops IH] using rev_ind.
    - exists 0%nat. split_and!; [|done..]. split; cbn [dl_queue foldl dq_new dq_capacity dq_budget dq_bytes dq_entries]; first [done | constructor | cbn; lia].
    - rewrite foldl_app. cbn [foldl]. destruct IH as (gone & H1 & H2 & H3 & H4). by apply (dq_step_inv _ op gone). }
  assert (Hcb : dq_capacity (dl_queue (dq_run capacity budget ops)) = capacity /\ dq_budget (dl_queue (dq_run capacity budget ops)) = budget).
  { clear Hinv. unfold dq_run. induction ops as [|op ops IH] using rev_ind; [done|]. rewrite foldl_app. cbn [foldl]. revert IH. generalize (foldl dq_step {| dl_queue := dq_new capacity budget; dl_pushed := []; dl_popped := 0; dl_dropped := 0 |} ops).
    intros l IH. destruct op; cbn [dq_step].
    - unfold dq_push. destruct (evict_oldest _ _ _ _ _ _) as [[es b] ev]. exact IH.
    - unfold try_pop. destruct (dq_entries _) as [|[x w] rest]; exact IH. }
  destruct Hinv as (gone & Hw & _ & He & Hg). destruct Hcb as [Hcap Hbud]. split; [eauto|]. pose proof (dw_len _ Hw) as H1. pose proof (dw_total _ Hw) as H2. pose proof (dw_bytes _ Hw) as H3.
  pose proof (dq_push_spec _ item Hw (Hpos item)) as Hp. cbv zeta in Hp. destruct (dq_push _ item) as [q' ev]. destruct Hp as (_ & n & -> & _ & _ & Hmin & _).
  rewrite Hcap in H1. rewrite Hbud in H2. rewrite Hcap, Hbud in Hmin. split_and!; [exact H1|by rewrite H3|exact H2|]. cbn [snd]. intros m Hm. apply Hmin. lia.
Qed.
End QueueProofs.

(** ** Acknowledged buckets *)

Lemma acked_owners_spec rows cache due window vh now b o :
  (b, o) ∈ acked_owners_in rows cache due window vh now <->
  exists t, rows !! (cache, b, o) = Some (t, vh) /\ b ∈ due /\ ack_within_window t now window = true.
Proof.
  unfold acked_owners_in. rewrite elem_of_list_to_set, list_elem_of_fmap. split.
  - intros ([[[c b'] o'] [t h]] & Heq & Hin). cbn in Heq. simplify_eq. apply list_elem_of_filter in Hin as [Hc Hin]. apply elem_of_map_to_list in Hin.
    cbn in Hc. rewrite !andb_true_iff in Hc. destruct Hc as [[[Hc%bool_decide_eq_true Hd%bool_decide_eq_true] Hw] Hh%Z.eqb_eq]. subst. eauto.
  - intros (t & Hr & Hd & Hw). exists ((cache, b, o), (t, vh)). split; [done|]. apply list_elem_of_filter. split; [|by apply elem_of_map_to_list].
    cbn. by rewrite !bool_decide_eq_true_2, Hw, Z.eqb_refl by done.
Qed.

Inductive AckOp := AckRecord (cache : Bytes) (bucket : Z) (from : NodeId) (view_hash now : Z) | AckPeers (peers : list Peer).

Definition ack_step (c : MeshConfig) (m : MeshInner) (op : AckOp) : MeshInner :=
  match op with
  | AckRecord cache bucket from vh now => record_bucket_ack_at c m cache bucket from vh now
  | AckPeers peers => update_peers c m peers
  end.

(** The same table without the age sweep. *)
Definition unswept_step (c : MeshConfig) (rows : gmap AckedBucketKey (Z * Z)) (op : AckOp) : gmap AckedBucketKey (Z * Z) :=
  match op with
  | AckRecord cache bucket from vh now => <[(cache, bucket, from) := (now, vh)]> rows
  | AckPeers peers => forget_acks_of_departed (incoming_map (incoming_peers c peers)) rows
  end.

Definition op_time (op : AckOp) : option Z := match op with AckRecord _ _ _ _ now => Some now | AckPeers _ => None end.

(** The operations' instants, never going back. *)
Fixpoint times_from (t : Z) (ops : list AckOp) : Prop :=
  match ops with
  | [] => True
  | op :: ops => match op_time op with Some now => t <= now /\ times_from now ops | None => times_from t ops end
  end.
Definition end_time (t : Z) (ops : list AckOp) : Z := foldl (fun t op => default t (op_time op)) t ops.

(** The swept table is the other less rows too old to count at [t]. *)
Definition only_aged_missing (window t : Z) (rows ref : gmap AckedBucketKey (Z * Z)) : Prop :=
  forall k, rows !! k = ref !! k \/ (rows !! k = None /\ exists v, ref !! k = Some v /\ ack_within_window v.1 t window = false).

Lemma window_monotone acked t t' window : t <= t' -> ack_within_window acked t window = false -> ack_within_window acked t' window = false.
Proof. unfold ack_within_window, saturating_sub. rewrite !Z.leb_gt. lia. Qed.

Lemma ack_step_aged c m ref op t t' : only_aged_missing (mc_ack_window c) t (mi_acked_buckets m) ref ->
  match op_time op with Some now => t <= now /\ t' = now | None => t' = t end ->
  only_aged_missing (mc_ack_window c) t' (mi_acked_buckets (ack_step c m op)) (unswept_step c ref op).
Proof.
  intros Hinv Ht. destruct op as [cache bucket from vh now|peers]; cbn in Ht.
  - destruct Ht as [Ht ->]. cbn [ack_step unswept_step]. unfold record_bucket_ack_at.
    assert (Hins : only_aged_missing (mc_ack_window c) now (<[(cache, bucket, from) := (now, vh)]> (mi_acked_buckets m)) (<[(cache, bucket, from) := (now, vh)]> ref)).
    { intros k. destruct (decide (k = (cache, bucket, from))) as [->|Hk]; [left; by rewrite !lookup_insert_eq|]. rewrite !lookup_insert_ne by done.
      destruct (Hinv k) as [Heq|(Hn & v & Hv & Hw)]; [by left|right]. split; [done|]. exists v. split; [done|]. by eapply window_monotone. }
    destruct (ack_sweep_due _ _ _); [|exact Hins]. cbn [mi_acked_buckets]. intros k. unfold sweep_aged_acks.
    destruct (Hins k) as [Heq|(Hn & v & Hv & Hw)].
    + destruct (<[(cache, bucket, from) := (now, vh)]> (mi_acked_buckets m) !! k) as [v|] eqn:Ek.
      * destruct (ack_within_window v.1 now (mc_ack_window c)) eqn:Ew.
        -- left. rewrite <-Heq. by apply map_lookup_filter_Some.
        -- right. split; [|exists v; by split]. apply map_lookup_filter_None. right. intros x Hx. rewrite Ek in Hx. injection Hx as <-. cbn. by rewrite Ew.
      * left. rewrite <-Heq. apply map_lookup_filter_None. by left.
    + right. split; [|by exists v]. apply map_lookup_filter_None. by left.
  - subst t'. cbn [ack_step unswept_step update_peers mi_acked_buckets]. unfold forget_acks_of_departed. intros k.
    destruct (decide (is_Some (incoming_map (incoming_peers c peers) !! k.2))) as [Hs|Hs].
    + assert (Hkeep : forall rows : gmap AckedBucketKey (Z * Z), filter (fun kv => is_Some (incoming_map (incoming_peers c peers) !! kv.1.2)) rows !! k = rows !! k).
      { intros rows. destruct (rows !! k) eqn:Ek; [by apply map_lookup_filter_Some|apply map_lookup_filter_None; by left]. }
      rewrite !Hkeep. apply Hinv.
    + left. assert (Hgone : forall rows : gmap AckedBucketKey (Z * Z), filter (fun kv => is_Some (incoming_map (incoming_peers c peers) !! kv.1.2)) rows !! k = None).
      { intros rows. apply map_lookup_filter_None. right. intros x _. exact Hs. }
      by rewrite !Hgone.
Qed.

(** Sweeping old acknowledgements never changes an answer. Whatever acks are recorded, sweeps triggered and peers
    dropped, in time order, asking later which owners acknowledged a bucket under the view, within the window, gives the
    same answer as a table that is never swept: the sweep only frees rows the reader already refuses. *)
Theorem sweeping_acks_is_invisible c m ops cache due vh t now :
  times_from t ops -> end_time t ops <= now ->
  acked_owners (foldl (ack_step c) m ops) cache due (mc_ack_window c) vh now =
  acked_owners_in (foldl (unswept_step c) (mi_acked_buckets m) ops) cache due (mc_ack_window c) vh now.
Proof.
  intros Ht Hend. unfold acked_owners.
  assert (Hinv : only_aged_missing (mc_ack_window c) (end_time t ops) (mi_acked_buckets (foldl (ack_step c) m ops)) (foldl (unswept_step c) (mi_acked_buckets m) ops)).
  { assert (Hgen : forall ops m ref t, only_aged_missing (mc_ack_window c) t (mi_acked_buckets m) ref -> times_from t ops ->
      only_aged_missing (mc_ack_window c) (end_time t ops) (mi_acked_buckets (foldl (ack_step c) m ops)) (foldl (unswept_step c) ref ops)).
    { clear. induction ops as [|op ops IH]; intros m ref t Hinv Ht; [done|]. unfold end_time. cbn [foldl times_from] in *. destruct (op_time op) as [now|] eqn:Eo.
      - destruct Ht as [Hle Ht]. apply IH; [|done]. apply (ack_step_aged c m ref op t); [done|]. by rewrite Eo.
      - apply IH; [|done]. apply (ack_step_aged c m ref op t); [done|]. by rewrite Eo. }
    apply Hgen; [|done]. intros k. by left. }
  apply set_eq. intros [b o]. rewrite !acked_owners_spec. split; intros (t0 & Hr & Hd & Hw); exists t0; (split; [|by split]).
  - destruct (Hinv (cache, b, o)) as [<-|(Hn & _)]; [done|congruence].
  - destruct (Hinv (cache, b, o)) as [->|(Hn & v & Hv & Hold)]; [done|]. exfalso. rewrite Hr in Hv. injection Hv as <-.
    apply (window_monotone _ _ now) in Hold; [|done]. cbn in Hold. congruence.
Qed.

(** ** The peer table *)

Lemma incoming_map_lookup ps n : NoDup (pe_node <$> ps) ->
  (forall p, p ∈ ps -> incoming_map ps !! pe_node p = Some (pe_data_addr p, pe_protocol p)) /\
  (n ∉ pe_node <$> ps -> incoming_map ps !! n = None).
Proof.
  unfold incoming_map. induction ps as [|q ps IH] using rev_ind; intros Hnd; [split; [intros p Hp; by apply elem_of_nil in Hp|done]|].
  rewrite fmap_app in Hnd. apply NoDup_app in Hnd as (Hnd & Hd & _). destruct (IH Hnd) as [H1 H2]. rewrite foldl_app. cbn [foldl]. split.
  - intros p Hp. apply elem_of_app in Hp as [Hp|Hp].
    + rewrite lookup_insert_ne; [by apply H1|]. intros Heq. apply (Hd (pe_node p)); [apply list_elem_of_fmap; eauto|]. cbn. apply list_elem_of_singleton. done.
    + apply list_elem_of_singleton in Hp as ->. by rewrite lookup_insert_eq.
  - rewrite fmap_app. intros Hn. rewrite not_elem_of_app in Hn. destruct Hn as [Hn Hq]. cbn in Hq. rewrite list_elem_of_singleton in Hq.
    rewrite lookup_insert_ne by congruence. by apply H2.
Qed.

Lemma spawn_fold c ps table n : NoDup (pe_node <$> ps) ->
  foldl (entry_or_spawn c) table ps !! n =
    match table !! n with
    | Some h => Some h
    | None => p ← head (filter (fun p => pe_node p = n) ps); Some (spawn_peer_handle c (pe_data_addr p) (pe_protocol p))
    end.
Proof.
  revert table. induction ps as [|p ps IH]; intros table Hnd; [cbn; by destruct (table !! n)|]. cbn in Hnd. apply NoDup_cons in Hnd as [Hp Hnd]. cbn [foldl]. rewrite IH by done.
  rewrite filter_cons. unfold entry_or_spawn. destruct (decide (pe_node p = n)) as [<-|Hne].
  - destruct (table !! pe_node p) eqn:E; [by rewrite E|]. by rewrite lookup_insert_eq.
  - destruct (table !! pe_node p); [done|]. by rewrite lookup_insert_ne.
Qed.

(** The handle a peer has after an update. *)
Definition updated_handle (c : MeshConfig) (old : option PeerHandle) (p : Peer) : PeerHandle :=
  match old with
  | Some h => if bool_decide (pe_data_addr p = ph_data_addr h) then set_protocol h (pe_protocol p) else spawn_peer_handle c (pe_data_addr p) (pe_protocol p)
  | None => spawn_peer_handle c (pe_data_addr p) (pe_protocol p)
  end.

(** The mesh follows membership exactly. After an update with a list of distinct peers the table holds one handle per
    listed peer other than this node and nothing else: a peer known at the same address keeps its handle, queued
    invalidations, marks and limits included, with the protocol it now gossips; a new peer, or one whose address moved,
    starts from a fresh handle; and the acknowledgements kept are exactly those of peers still listed. *)
Theorem peer_table_follows_membership c m peers : NoDup (pe_node <$> peers) ->
  let m' := update_peers c m peers in
  (forall p, p ∈ peers -> pe_node p <> mc_node c -> mi_peers m' !! pe_node p = Some (updated_handle c (mi_peers m !! pe_node p) p)) /\
  (forall n, (n = mc_node c \/ n ∉ pe_node <$> peers) -> mi_peers m' !! n = None) /\
  (forall k v, mi_acked_buckets m' !! k = Some v <->
     mi_acked_buckets m !! k = Some v /\ k.2 <> mc_node c /\ k.2 ∈ pe_node <$> peers).
Proof.
  intros Hnd. cbv zeta. cbn [update_peers mi_peers mi_acked_buckets]. set (ps := incoming_peers c peers).
  assert (Hps : forall p, p ∈ ps <-> p ∈ peers /\ pe_node p <> mc_node c) by (intros p; unfold ps, incoming_peers; rewrite list_elem_of_filter; tauto).
  assert (Hpnd : NoDup (pe_node <$> ps)).
  { unfold ps, incoming_peers. clear -Hnd. induction peers as [|p l IH]; [constructor|]. cbn in Hnd. apply NoDup_cons in Hnd as [Hn Hnd]. rewrite filter_cons. case_decide; [|by apply IH].
    cbn. constructor; [|by apply IH]. intros Hin. apply Hn. apply list_elem_of_fmap in Hin as (q & -> & Hq). apply list_elem_of_filter in Hq as [_ Hq]. apply list_elem_of_fmap. eauto. }
  assert (Hnode : forall n, n ∈ pe_node <$> ps <-> n <> mc_node c /\ n ∈ pe_node <$> peers).
  { intros n. rewrite !list_elem_of_fmap. setoid_rewrite Hps. split; [intros (p & -> & H1 & H2); eauto|intros (H1 & p & -> & H2); eauto]. }
  split_and!.
  - intros p Hp Hself. assert (Hin : p ∈ ps) by (by apply Hps). destruct (incoming_map_lookup ps (pe_node p) Hpnd) as [Hi _]. specialize (Hi p Hin).
    assert (Hhead : head (filter (fun q => pe_node q = pe_node p) ps) = Some p).
    { clear -Hpnd Hin. induction ps as [|q l IH]; [by apply elem_of_nil in Hin|]. cbn in Hpnd. apply NoDup_cons in Hpnd as [Hn Hnd]. rewrite filter_cons.
      apply elem_of_cons in Hin as [->|Hin]; [by rewrite decide_True|]. rewrite decide_False; [by apply IH|]. intros Heq. apply Hn. rewrite Heq. apply list_elem_of_fmap. eauto. }
    rewrite spawn_fold, map_lookup_imap by done. destruct (mi_peers m !! pe_node p) as [h|]; cbn [mbind option_bind updated_handle].
    + unfold retain_handle. rewrite Hi. destruct (decide (pe_data_addr p = ph_data_addr h)) as [Heq|Hne].
      * rewrite bool_decide_eq_false_2, bool_decide_eq_true_2 by tauto. done.
      * rewrite bool_decide_eq_true_2, bool_decide_eq_false_2 by done. by rewrite Hhead.
    + by rewrite Hhead.
  - intros n Hn. assert (Hnin : n ∉ pe_node <$> ps) by (rewrite Hnode; tauto). destruct (incoming_map_lookup ps n Hpnd) as [_ Hi]. specialize (Hi Hnin).
    rewrite spawn_fold, map_lookup_imap by done.
    assert (Hnone : filter (fun q => pe_node q = n) ps = []).
    { destruct (filter (fun q => pe_node q = n) ps) as [|q l] eqn:E; [done|]. exfalso. assert (q ∈ filter (fun q => pe_node q = n) ps) as [Hq1 Hq2]%list_elem_of_filter by (rewrite E; left).
      apply Hnin, list_elem_of_fmap. eauto. }
    rewrite Hnone. destruct (mi_peers m !! n) as [h|]; cbn; [|done]. unfold retain_handle. by rewrite Hi.
  - intros k v. unfold forget_acks_of_departed. rewrite map_lookup_filter_Some. cbn [fst]. destruct (incoming_map_lookup ps k.2 Hpnd) as [H1 H2]. rewrite <-Hnode.
    split; intros [Hm Hk]; (split; [done|]).
    + destruct (decide (k.2 ∈ pe_node <$> ps)) as [|Hn]; [done|]. rewrite (H2 Hn) in Hk. by destruct Hk.
    + apply list_elem_of_fmap in Hk as (p & Heq & Hp). rewrite Heq, (H1 p Hp). eauto.
Qed.

(** ** A missed frame marks its peer *)

Section Dirty.
Context {LO : Layout}.

Inductive SendOp :=
  | OpUnsent (peer : NodeId) (frames : nat)
  | OpFrames (peer : NodeId) (class : MsgClass) (mono : Z) (frames : list (OutFrame * result unit OutboxFull))
  | OpWithin (peer : NodeId) (frames : nat) (budget : SendBudget) (now taken0 : Z) (slices : list Slice) (taken mono : Z)
  | OpMark (peer : NodeId).

Definition send_op (max_instant : Z) (m : MeshInner) (op : SendOp) : MeshInner :=
  match op with
  | OpUnsent peer frames => note_unsent m peer frames
  | OpFrames peer class mono frames => (send_frames m peer class mono frames).1
  | OpWithin peer frames budget now taken0 slices taken mono =>
      from_option fst m (send_frames_within max_instant m peer frames budget now taken0 slices taken mono)
  | OpMark peer => mark_dirty m peer
  end.

(** How many entries the pushes of [frames] drop. *)
Definition evictions (h : PeerHandle) (frames : list (OutFrame * result unit OutboxFull)) : Z :=
  (foldl (fun acc x => let '(q, n) := acc in let (q, evicted) := dq_push q x.1 in (q, n + evicted)) (ph_invalidate h, 0) frames).2.

(** Whether the operation lost a frame meant for [p]: one that did not encode, one that a push displaced, one the replicate
    outbox refused, full or closed, one a bounded or departed send left over. *)
Definition misses (max_instant : Z) (m : MeshInner) (op : SendOp) (p : NodeId) : Prop :=
  match op with
  | OpUnsent peer frames => peer = p /\ frames <> 0%nat
  | OpFrames peer ClassInvalidate _ frames => peer = p /\ exists h, mi_peers m !! p = Some h /\ 0 < evictions h frames
  | OpFrames peer ClassReplicate _ frames => peer = p /\ exists refusal, Err refusal ∈ frames.*2
  | OpWithin peer frames budget now taken0 slices taken mono =>
      peer = p /\ exists m' placed, send_frames_within max_instant m peer frames budget now taken0 slices taken mono = Some (m', placed) /\ (placed < frames)%nat
  | OpMark _ => False
  end.

(** A send whose frames met no full outbox: those it lost found the outbox closed, its writer gone. *)
Definition met_full (frames : list (OutFrame * result unit OutboxFull)) : bool :=
  existsb (fun x => match x.2 with Err Full => true | _ => false end) frames.
Definition closed_only (op : SendOp) : Prop :=
  match op with OpFrames _ ClassReplicate _ frames => met_full frames = false | _ => False end.

Definition is_dirty (m : MeshInner) (p : NodeId) : Prop := exists h, mi_peers m !! p = Some h /\ ph_dirty h = true.

Lemma on_peer_dirty m peer f p : (forall h, ph_dirty h = true -> ph_dirty (f h) = true) -> is_dirty m p -> is_dirty (on_peer m peer f) p.
Proof.
  intros Hf (h & Hh & Hd). unfold is_dirty, on_peer. cbn. destruct (decide (peer = p)) as [->|Hne].
  - rewrite lookup_alter_eq, Hh. cbn. eauto.
  - rewrite lookup_alter_ne by done. eauto.
Qed.

Lemma on_peer_marks m p f : is_Some (mi_peers m !! p) -> (forall h, ph_dirty (f h) = true) -> is_dirty (on_peer m p f) p.
Proof. intros [h Hh] Hf. exists (f h). split; [|apply Hf]. cbn. by rewrite lookup_alter_eq, Hh. Qed.

Lemma send_one_dirty class acc x : ph_dirty acc.1 = true -> ph_dirty (send_one class acc x).1 = true.
Proof.
  destruct acc as [h all], x as [frame answer]. cbn. intros Hd. destruct class; [|by destruct answer as [|[]]].
  destruct (dq_push (ph_invalidate h) frame) as [q ev]. by destruct (0 <? ev).
Qed.

Lemma send_fold_dirty class frames acc : ph_dirty acc.1 = true -> ph_dirty (foldl (send_one class) acc frames).1 = true.
Proof. revert acc. induction frames as [|x frames IH]; intros acc Hd; [done|]. cbn [foldl]. by apply IH, send_one_dirty. Qed.

Lemma settle_dirty h end_ taken : ph_dirty h = true -> ph_dirty (settle_stall_latch h end_ taken) = true.
Proof. unfold settle_stall_latch. by destruct (stall_latch _ _) as [[]|]. Qed.
Lemma finish_dirty h bounded dropped end_ taken mono : ph_dirty h = true \/ (0 < dropped)%nat -> ph_dirty (finish_send h bounded dropped end_ taken mono) = true.
Proof.
  intros Hd. unfold finish_send. set (h1 := if (0 <? dropped)%nat then _ else _). assert (ph_dirty h1 = true).
  { unfold h1. destruct (Nat.ltb_spec 0 dropped); [done|]. destruct Hd; [done|lia]. }
  destruct bounded; [by apply settle_dirty|done].
Qed.

Lemma with_handle_dirty m peer h p : (peer = p -> ph_dirty h = true) -> (peer = p \/ is_dirty m p) -> is_dirty (with_peers m (<[peer := h]> (mi_peers m))) p.
Proof.
  intros Hh Hd. unfold is_dirty. cbn. destruct (decide (peer = p)) as [->|Hne]; [rewrite lookup_insert_eq; eauto|]. rewrite lookup_insert_ne by done. by destruct Hd.
Qed.

Lemma send_op_keeps max_instant m op p : is_dirty m p -> is_dirty (send_op max_instant m op) p.
Proof.
  intros Hd. destruct op as [peer n|peer class mono frames|peer n budget now taken0 slices taken mono|peer]; cbn [send_op].
  - unfold note_unsent. destruct (n =? 0)%nat; [done|]. by apply on_peer_dirty.
  - unfold send_frames. destruct (mi_peers m !! peer) as [h|] eqn:Eh; [|done].
    destruct (foldl (send_one class) (h, true) frames) as [h1 all] eqn:Ef. cbn [fst]. apply with_handle_dirty; [|by right]. intros ->.
    destruct Hd as (h' & Hh' & Hd). rewrite Eh in Hh'. injection Hh' as <-. pose proof (send_fold_dirty class frames (h, true) Hd) as Hf. rewrite Ef in Hf.
    by destruct (match class with ClassReplicate => _ | ClassInvalidate => _ end).
  - unfold send_frames_within. destruct (n =? 0)%nat; [done|]. destruct (mi_peers m !! peer); [|done]. destruct (send_loop _ _ _ _ _) as [[[pl dr] en]|]; [|done]. cbn.
    apply on_peer_dirty; [|done]. intros h Hh. apply finish_dirty. by left.
  - by apply on_peer_dirty.
Qed.

Lemma evicted_nonneg {T} `{!Weighed T} (q : DropOldestQueue T) item : 0 <= (dq_push q item).2.
Proof.
  unfold dq_push. assert (Hgen : forall c b w es by_ ev, ev <= (evict_oldest (T:=T) c b w es by_ ev).2).
  { intros c b w es. induction es as [|[x we] es IH]; intros by_ ev; cbn [evict_oldest]; [cbn; lia|]. destruct (_ || _); [|cbn; lia]. specialize (IH (by_ - we) (ev + 1)). lia. }
  specialize (Hgen (dq_capacity q) (dq_budget q) (Z.min (weight item) (dq_budget q)) (dq_entries q) (dq_bytes q) 0).
  destruct (evict_oldest _ _ _ _ _ _) as [[es b] ev]. exact Hgen.
Qed.

Lemma invalidate_fold_marks frames h all n :
  n < (foldl (fun acc x => let '(q, n) := acc in let (q, evicted) := dq_push q (x : OutFrame * result unit OutboxFull).1 in (q, n + evicted)) (ph_invalidate h, n) frames).2 ->
  ph_dirty (foldl (send_one ClassInvalidate) (h, all) frames).1 = true.
Proof.
  revert h all n. induction frames as [|[frame answer] frames IH]; intros h all n Hlt; cbn [foldl] in *; [cbn in Hlt; lia|].
  cbn [send_one]. pose proof (evicted_nonneg (ph_invalidate h) frame) as Hpos. cbn [fst] in Hlt. destruct (dq_push (ph_invalidate h) frame) as [q ev]. cbn [snd] in Hpos.
  destruct (Z.ltb_spec 0 ev) as [Hev|Hev]; [apply send_fold_dirty; done|]. assert (ev = 0) as -> by lia. apply (IH _ _ n). rewrite Z.add_0_r in Hlt. exact Hlt.
Qed.

Lemma replicate_fold_marks frames acc : met_full frames = true -> ph_dirty (foldl (send_one ClassReplicate) acc frames).1 = true.
Proof.
  revert acc. induction frames as [|[frame answer] frames IH]; intros acc Hin; [done|]. cbn [foldl]. cbn in Hin. apply orb_prop in Hin as [Heq|Hin]; [|by apply IH].
  apply send_fold_dirty. destruct acc as [h all]. by destruct answer as [|[]].
Qed.

Lemma send_loop_counts max_instant idle frames placed slices pl dr en : send_loop max_instant idle frames placed slices = Some (pl, dr, en) ->
  (placed <= pl)%nat /\ (pl + dr = placed + frames)%nat /\ (en = SendPlaced <-> dr = 0%nat).
Proof.
  revert idle placed slices. induction frames as [|frames IH]; intros idle placed slices; cbn [send_loop]; [intros [= <- <- <-]; split_and!; try lia; done|].
  destruct (room_for max_instant idle slices) as [[[idle' r] rest]|]; [|done]. destruct r as [now|outcome].
  - intros Hs. apply IH in Hs as (H1 & H2 & H3). split_and!; [lia|lia|done].
  - intros [= <- <- <-]. split_and!; [lia|lia|]. case_bool_decide; (split; [done|lia]).
Qed.

Lemma closed_fold_marks frames acc : met_full frames = false -> ph_dirty (foldl (send_one ClassReplicate) acc frames).1 = ph_dirty acc.1.
Proof.
  revert acc. induction frames as [|[frame answer] frames IH]; intros [h all] Hn; [done|]. cbn [foldl]. cbn in Hn. apply orb_false_elim in Hn as [Hn Hrest].
  rewrite IH by done. cbn. by destruct answer as [|[]].
Qed.

(** A closed outbox marks nobody. *)
Lemma closed_only_marks max_instant m op q : closed_only op -> is_dirty (send_op max_instant m op) q <-> is_dirty m q.
Proof.
  destruct op as [peer n|peer class mono frames|peer n budget now taken0 slices taken mono|peer]; try done. destruct class; [done|]. intros Hc. cbn [send_op closed_only] in *.
  unfold send_frames. destruct (mi_peers m !! peer) as [h|] eqn:Eh; [|done]. pose proof (closed_fold_marks frames (h, true) Hc) as Hd.
  destruct (foldl _ _ frames) as [h1 all]. cbn [fst] in *. unfold is_dirty. cbn. destruct (decide (peer = q)) as [->|Hne]; [|by rewrite lookup_insert_ne].
  rewrite lookup_insert_eq. split; [intros (h' & [= <-] & Hh')|intros (h' & Hh' & Hd')].
  - exists h. split; [done|]. rewrite <-Hd. by destruct (negb _).
  - rewrite Eh in Hh'. injection Hh' as <-. eexists. split; [reflexivity|]. rewrite <-Hd in Hd'. by destruct (negb _).
Qed.

Lemma send_op_marks max_instant m op p : is_Some (mi_peers m !! p) -> misses max_instant m op p -> ~ closed_only op -> is_dirty (send_op max_instant m op) p.
Proof.
  intros Hp Hm Hc. destruct op as [peer n|peer class mono frames|peer n budget now taken0 slices taken mono|peer]; cbn [send_op misses closed_only] in *.
  - destruct Hm as [-> Hn]. unfold note_unsent. destruct (Nat.eqb_spec n 0); [done|]. by apply on_peer_marks.
  - unfold send_frames. destruct class; destruct Hm as [-> Hm].
    + destruct Hm as (h & Hh & Hev). rewrite Hh. pose proof (invalidate_fold_marks frames h true 0 Hev) as Hd.
      destruct (foldl (send_one ClassInvalidate) (h, true) frames) as [h1 all]. cbn [fst] in *. apply with_handle_dirty; [done|by left].
    + destruct (met_full frames) eqn:Hfull; [|done].
      destruct Hp as [h Hh]. rewrite Hh. pose proof (replicate_fold_marks frames (h, true) Hfull) as Hd.
      destruct (foldl (send_one ClassReplicate) (h, true) frames) as [h1 all]. cbn [fst] in *. apply with_handle_dirty; [|by left]. by destruct (negb _).
  - destruct Hm as [-> (m' & placed & Hs & Hlt)]. rewrite Hs. cbn. unfold send_frames_within in Hs. destruct (Nat.eqb_spec n 0); [lia|].
    destruct Hp as [h Hh]. rewrite Hh in Hs. destruct (send_loop _ _ _ _ _) as [[[pl dr] en]|] eqn:El; [|done]. cbn in Hs. injection Hs as <- <-.
    apply send_loop_counts in El as (_ & Hcnt & _). apply on_peer_marks; [eauto|]. intros h'. apply finish_dirty. right. lia.
  - done.
Qed.

(** C28: which missed frames reach anti-entropy. When a send to a known peer loses a frame, because it does not encode, is
    displaced from the invalidate outbox, meets a full replicate outbox, or is left over by a send that stalled or whose
    peer departed, the peer is among the dirty peers the next anti-entropy round takes, however many sends come in
    between; and taking them returns exactly the marked peers and clears every mark. The one loss that marks nobody is a replicate frame that
    finds the peer's outbox closed, its writer gone. *)
Theorem missed_frames_reach_anti_entropy max_instant m op ops p :
  is_Some (mi_peers m !! p) -> misses max_instant m op p ->
  (closed_only op -> forall q, is_dirty (send_op max_instant m op) q <-> is_dirty m q) /\
  (~ closed_only op ->
   let m' := foldl (send_op max_instant) (send_op max_instant m op) ops in
   let '(after, dirty) := take_dirty_peers m' in
   p ∈ dirty /\ (forall q, q ∈ dirty <-> is_dirty m' q) /\ (forall q, ~ is_dirty after q) /\ dom (mi_peers after) = dom (mi_peers m')).
Proof.
  intros Hp Hm. split; [intros Hc q; by apply closed_only_marks|]. intros Hc. cbv zeta. assert (Hd : is_dirty (foldl (send_op max_instant) (send_op max_instant m op) ops) p).
  { pose proof (send_op_marks max_instant m op p Hp Hm Hc) as Hd. revert Hd. generalize (send_op max_instant m op). induction ops as [|o ops IH]; intros m0 Hd; [done|].
    cbn [foldl]. by apply IH, send_op_keeps. }
  revert Hd. generalize (foldl (send_op max_instant) (send_op max_instant m op) ops). clear. intros m Hd. unfold take_dirty_peers.
  assert (Hin : forall q, q ∈ dom (filter (fun kv => ph_dirty kv.2 = true) (mi_peers m)) <-> is_dirty m q).
  { intros q. rewrite elem_of_dom. split; [intros [h Hh]|intros (h & Hh & Hd')].
    - apply map_lookup_filter_Some in Hh as [Hh Hd']. exists h. by split.
    - exists h. by apply map_lookup_filter_Some. }
  split_and!; [by apply Hin|exact Hin| |].
  - intros q (h & Hh & Hd'). cbn in Hh. rewrite lookup_fmap in Hh. destruct (mi_peers m !! q); cbn in Hh; [|done]. injection Hh as <-. done.
  - cbn. apply dom_fmap_L.
Qed.
End Dirty.

(** ** Stalls *)

Section Stalls.
Context (max_instant idle : Z) (Hidle : 0 < idle).

(** The last instant of progress after some slices, and the writer's count then: a frame went in, or the count moved. *)
Fixpoint progressed (p last_taken : Z) (slices : list Slice) : Z * Z :=
  match slices with
  | [] => (p, last_taken)
  | s :: rest =>
      match sl_reserved s with
      | Ok _ => progressed (sl_now s) last_taken rest
      | Err Full => if sl_taken s =? last_taken then progressed p last_taken rest else progressed (sl_now s) (sl_taken s) rest
      | Err Closed => progressed p last_taken rest
      end
  end.

Lemma progressed_app p lt l l' : progressed p lt (l ++ l') = progressed (progressed p lt l).1 (progressed p lt l).2 l'.
Proof. revert p lt. induction l as [|s l IH]; intros p lt; [done|]. cbn. destruct (sl_reserved s) as [u|[]]; [apply IH| |apply IH]. destruct (_ =? _); apply IH. Qed.

(** A wait whose idle time runs from the last progress. *)
Definition waiting (x : Z * Z) : IdleWait := {| iw_budget := Idle idle; iw_deadline := idle_deadline max_instant (Idle idle) x.1; iw_last_taken := x.2 |}.

(** Why a send gave up on a slice, [p] being its last progress. *)
Definition gave_up (p : Z) (s : Slice) : Prop :=
  sl_live s = true /\
  (waits_out_latch (sl_latch0 s) (sl_taken0 s) = true \/ waits_out_latch (sl_latch s) (sl_taken s) = true \/
   p + idle <= Z.max (sl_started s) (sl_now s)).

Lemma note_taken_waiting p lt s : sl_reserved s = Err Full -> note_taken max_instant (waiting (p, lt)) (sl_taken s) (sl_now s) = waiting (progressed p lt [s]).
Proof. intros Hr. unfold note_taken. cbn. rewrite Hr. by destruct (sl_taken s =? lt). Qed.

Lemma room_for_stalled slices p lt w' rest : room_for max_instant (waiting (p, lt)) slices = Some (w', Err NoRoomStalled, rest) ->
  exists pre s, slices = pre ++ s :: rest /\ gave_up (progressed p lt pre).1 s.
Proof.
  revert p lt. induction slices as [|s slices IH]; intros p lt Hr; [done|]. cbn [room_for] in Hr.
  destruct (sl_reserved s) as [u|[]] eqn:Er; [done| |done]. rewrite (note_taken_waiting p lt s Er) in Hr.
  case_bool_decide as Hw.
  - destruct (progressed p lt [s]) as [p1 lt1] eqn:Ep. destruct (IH _ _ Hr) as (pre & s' & -> & Hg). exists (s :: pre), s'. split; [done|].
    change (s :: pre) with ([s] ++ pre). by rewrite progressed_app, Ep.
  - remember (progressed p lt [s]) as x eqn:Ex. assert (Hout : fan_out_no_room (sl_live s) (waits_out_latch (sl_latch s) (sl_taken s))
      (fan_out_room_wait (iw_deadline (waiting (p, lt))) (waits_out_latch (sl_latch0 s) (sl_taken0 s)) (sl_started s)) (iw_deadline (waiting x)) (sl_now s) = NoRoomStalled) by congruence.
    injection Hr as _ _ <-. exists [], s. split; [done|]. cbn [progressed fst].
    assert (Htry : fan_out_room_wait (iw_deadline (waiting (p, lt))) (waits_out_latch (sl_latch0 s) (sl_taken0 s)) (sl_started s) = TryOnly ->
      waits_out_latch (sl_latch0 s) (sl_taken0 s) = true \/ p + idle <= sl_started s).
    { unfold fan_out_room_wait. cbn [waiting iw_deadline idle_deadline fst]. destruct (p + idle <=? max_instant); [|done]. destruct (waits_out_latch (sl_latch0 s) (sl_taken0 s)); [intros _; left; reflexivity|]. cbn [orb]. destruct (Z.leb_spec (p + idle) (sl_started s)); [intros _; by right|done]. }
    unfold fan_out_no_room in Hout. split; [by destruct (sl_live s)|]. destruct (negb (sl_live s)); [done|]. cbn [waiting iw_deadline idle_deadline] in Hout.
    destruct (x.1 + idle <=? max_instant); [|done]. destruct (waits_out_latch (sl_latch s) (sl_taken s)); [by right; left|]. cbn [orb] in Hout.
    destruct (Z.leb_spec (x.1 + idle) (sl_now s)) as [Hle|Hgt]; cbn [orb] in Hout.
    + right. right. subst x. cbn [progressed] in Hle. rewrite Er in Hle. destruct (sl_taken s =? lt); cbn [fst] in Hle; lia.
    + destruct (bool_decide_reflect (fan_out_room_wait (iw_deadline (waiting (p, lt))) (waits_out_latch (sl_latch0 s) (sl_taken0 s)) (sl_started s) = TryOnly)) as [Et|Et].
      * destruct (Htry Et) as [Hl|Hs]; [by left|]. right. right. lia.
      * rewrite (bool_decide_eq_false_2 _ Et) in Hout. done.
Qed.

Lemma room_for_ok slices p lt w' now rest : room_for max_instant (waiting (p, lt)) slices = Some (w', Ok now, rest) ->
  exists pre, slices = pre ++ rest /\ renew max_instant w' now = waiting (progressed p lt pre).
Proof.
  revert p lt. induction slices as [|s slices IH]; intros p lt Hr; [done|]. cbn [room_for] in Hr.
  destruct (sl_reserved s) as [u|[]] eqn:Er; [|rewrite (note_taken_waiting p lt s Er) in Hr|done].
  - injection Hr as <- <- <-. exists [s]. split; [done|]. cbn [progressed]. by rewrite Er.
  - case_bool_decide as Hw; [|done]. destruct (progressed p lt [s]) as [p1 lt1] eqn:Ep. destruct (IH _ _ Hr) as (pre & -> & Hren). exists (s :: pre). split; [done|].
    change (s :: pre) with ([s] ++ pre). by rewrite progressed_app, Ep.
Qed.

(** A send stalls a peer only when it has earned it. When a bounded send drops frames as stalled, the peer was still
    in the table on the slice the send gave up on and was latched stalled with nothing read since, or a full idle time
    had passed since the send's last progress: its start, the last frame it placed, or the last slice on which the
    peer's writer had taken a frame. *)
Theorem stalls_need_idle_or_latch start last_taken frames slices placed dropped :
  send_loop max_instant (waiting (start, last_taken)) frames 0 slices = Some (placed, dropped, SendStalled) ->
  exists pre s rest, slices = pre ++ s :: rest /\ gave_up (progressed start last_taken pre).1 s.
Proof.
  assert (Hgen : forall frames p lt placed0 slices, send_loop max_instant (waiting (p, lt)) frames placed0 slices = Some (placed, dropped, SendStalled) ->
    exists pre s rest, slices = pre ++ s :: rest /\ gave_up (progressed p lt pre).1 s).
  { clear -Hidle. induction frames as [|frames IH]; intros p lt placed0 slices; cbn [send_loop]; [done|].
    destruct (room_for max_instant (waiting (p, lt)) slices) as [[[w' r] rest]|] eqn:Er; [|done]. destruct r as [t|outcome].
    - intros Hs. destruct (room_for_ok _ _ _ _ _ _ Er) as (pre & -> & Hren). rewrite Hren in Hs. destruct (progressed p lt pre) as [p1 lt1] eqn:Ep.
      destruct (IH _ _ _ _ Hs) as (pre' & s & rest' & -> & Hg). exists (pre ++ pre'), s, rest'. split; [by rewrite <-(assoc_L (++))|]. by rewrite progressed_app, Ep.
    - intros [= _ _ Hend]. case_bool_decide as Ho; [|done]. subst outcome. destruct (room_for_stalled _ _ _ _ _ Er) as (pre & s & -> & Hg). eauto. }
  apply Hgen.
Qed.

(** A slice of a peer that reads nothing and whose outbox stays full, ending no earlier than the wait it was given. *)
Definition quiet (d : Z) (taken : Z) (s : Slice) : Prop :=
  sl_reserved s = Err Full /\ sl_taken s = taken /\ sl_started s <= sl_now s /\ Z.min (sl_started s + FAN_OUT_SEND_DEADLINE) d <= sl_now s.

(** One slice starts where the one before it ended. *)
Fixpoint in_sequence (t : Z) (slices : list Slice) : Prop :=
  match slices with [] => True | s :: rest => t <= sl_started s /\ in_sequence (sl_now s) rest end.

(** A bounded send never waits for ever on a peer that reads nothing. If every slice of the wait finds the outbox full
    and the writer's count unmoved, the send gives up within the idle time: after at most one slice per two seconds of
    it, and one more. *)
Theorem quiet_peer_is_given_up p lt slices :
  p + idle <= max_instant -> Forall (quiet (p + idle) lt) slices -> in_sequence p slices ->
  Z.of_nat (length slices) >= idle / FAN_OUT_SEND_DEADLINE + 2 ->
  exists w outcome rest, room_for max_instant (waiting (p, lt)) slices = Some (w, Err outcome, rest) /\ outcome <> WaitAgain.
Proof.
  intros Hmax. assert (Hgen : forall slices t, Forall (quiet (p + idle) lt) slices -> in_sequence t slices -> t <= p + idle ->
    Z.of_nat (length slices) * FAN_OUT_SEND_DEADLINE > p + idle - t -> slices <> [] ->
    exists w outcome rest, room_for max_instant (waiting (p, lt)) slices = Some (w, Err outcome, rest) /\ outcome <> WaitAgain).
  { clear slices. induction slices as [|s slices IH]; intros t Hq Hseq Ht Hlen Hne; [done|]. apply Forall_cons in Hq as [(Hr & Htk & Hsn & Hnow) Hq]. destruct Hseq as [Hts Hseq].
    cbn [room_for]. rewrite Hr, (note_taken_waiting p lt s Hr). cbn [progressed]. rewrite Hr, Htk, Z.eqb_refl. case_bool_decide as Hw; [|by do 3 eexists].
    assert (Hlt : sl_now s < p + idle).
    { unfold fan_out_no_room in Hw. destruct (sl_live s); cbn [negb] in Hw; [|done]. cbn in Hw. rewrite (proj2 (Z.leb_le _ _) Hmax) in Hw.
      destruct (waits_out_latch (sl_latch s) lt); cbn in Hw; [done|]. by destruct (Z.leb_spec (p + idle) (sl_now s)). }
    unfold FAN_OUT_SEND_DEADLINE in *. apply (IH (sl_now s)); try done; [lia| |].
    - cbn [length] in Hlen. lia.
    - intros ->. cbn [length] in Hlen. lia. }
  intros Hq Hseq Hlen. apply (Hgen slices p); try done; [lia| |].
  - unfold FAN_OUT_SEND_DEADLINE in *. pose proof (Z.div_mod idle 2000 ltac:(lia)). pose proof (Z.mod_pos_bound idle 2000 ltac:(lia)). lia.
  - intros ->. unfold FAN_OUT_SEND_DEADLINE in Hlen. cbn [length] in Hlen. pose proof (Z.div_pos idle 2000). lia.
Qed.
End Stalls.

(** ** Deferred digests *)

(** What a responder answers a peer's digests in turn, with the frames queued toward it each time. *)
Fixpoint digest_answers (m : MeshInner) (peer : NodeId) (queued : list Z) : list bool :=
  match queued with
  | [] => []
  | n :: queued =>
      let m := on_peer m peer (fun h => set_outboxes h (ph_invalidate h) n (ph_last_replicate_enqueued h)) in
      let (m, deferred) := defers_ae_digest_from m peer in
      deferred :: digest_answers m peer queued
  end.

(** The longest run of deferrals a list starts with, and anywhere in it. *)
Fixpoint leading (l : list bool) : nat := match l with true :: l => S (leading l) | _ => 0%nat end.
Fixpoint longest_run (l : list bool) : nat := match l with [] => 0%nat | b :: rest => Nat.max (leading l) (longest_run rest) end.

(** A responder serves a digest at least once in any four, however many frames stay queued toward the peer. *)
Lemma deferrals_are_bounded queued : forall m peer,
  from_option (fun h => 0 <= ph_ae_deferrals h <= MAX_AE_DEFERRALS) True (mi_peers m !! peer) ->
  (longest_run (digest_answers m peer queued) <= 3)%nat /\
  Z.of_nat (leading (digest_answers m peer queued)) <= 3 - from_option ph_ae_deferrals 0 (mi_peers m !! peer).
Proof.
  induction queued as [|n queued IH]; intros m peer Hm; [cbn; unfold MAX_AE_DEFERRALS in Hm; destruct (mi_peers m !! peer); cbn in *; lia|].
  cbn [digest_answers]. set (m0 := on_peer m peer _).
  assert (Hl0 : from_option (fun h => ph_ae_deferrals h) 0 (mi_peers m0 !! peer) = from_option ph_ae_deferrals 0 (mi_peers m !! peer) /\
    is_some (mi_peers m0 !! peer) = is_some (mi_peers m !! peer)).
  { unfold m0, on_peer. cbn [mi_peers with_peers]. rewrite lookup_alter_eq. by destruct (mi_peers m !! peer). }
  destruct Hl0 as [Hl0 Hs0]. unfold defers_ae_digest_from. destruct (mi_peers m0 !! peer) as [h|] eqn:Eh.
  - destruct (mi_peers m !! peer) as [h0|] eqn:E0; [|done]. cbn in Hm, Hl0. destruct (defer_ae_digest (ph_queued h) (ph_ae_deferrals h)) eqn:Ed.
    + unfold defer_ae_digest, MAX_AE_DEFERRALS in *. destruct (IH (on_peer m0 peer (fun h => set_deferrals h (ph_ae_deferrals h + 1))) peer) as [H1 H2].
      { unfold on_peer. cbn [mi_peers with_peers]. rewrite lookup_alter_eq, Eh. cbn. lia. }
      assert (Hl1 : from_option ph_ae_deferrals 0 (mi_peers (on_peer m0 peer (fun h => set_deferrals h (ph_ae_deferrals h + 1))) !! peer) = ph_ae_deferrals h + 1)
        by (unfold on_peer; cbn [mi_peers with_peers]; by rewrite lookup_alter_eq, Eh).
      rewrite Hl1 in H2. cbn [longest_run leading from_option]. lia.
    + unfold MAX_AE_DEFERRALS in *. destruct (IH (on_peer m0 peer (fun h => set_deferrals h 0)) peer) as [H1 H2].
      { unfold on_peer. cbn [mi_peers with_peers]. rewrite lookup_alter_eq, Eh. cbn. lia. }
      cbn [longest_run leading from_option]. lia.
  - destruct (mi_peers m !! peer) as [h0|] eqn:E0; [done|]. destruct (IH m0 peer) as [H1 H2]; [by rewrite Eh|]. cbn [longest_run leading from_option]. lia.
Qed.

(** ** Examples *)

#[local] Instance sample_weight : Weighed Z := fun x => Z.abs x.

Lemma outbox_keeps_the_newest_witness :
  let q := dl_queue (dq_run 3 10 [DqPush 4; DqPush 4; DqPush 5; DqPop; DqPush 20]) in
  (dq_entries q).*1 = [20] /\ weights (dq_entries q) = dq_bytes q.
Proof.
  split; [vm_compute; reflexivity|].
  destruct (outbox_keeps_the_newest 3 10 [DqPush 4; DqPush 4; DqPush 5; DqPop; DqPush 20] 1 ltac:(lia) ltac:(unfold u64_max; lia)) as (_ & _ & Hw & _);
    [intros x; apply Z.abs_nonneg|exact Hw].
Defined.

Definition sample_mesh_config : MeshConfig := {| mc_node := 7; mc_outbox_capacity := 2; mc_outbox_bytes := 1000; mc_ack_window := 5000 |}.
Definition sample_peer (node port : Z) : Peer := {| pe_node := node; pe_data_addr := (1, port); pe_protocol := 9 |}.
Definition sample_mesh : MeshInner :=
  update_peers sample_mesh_config {| mi_peers := ∅; mi_acked_buckets := ∅; mi_ack_swept_at := 0 |} [sample_peer 7 1; sample_peer 8 2; sample_peer 9 3].

Lemma sweeping_acks_is_invisible_witness :
  let ops := [AckRecord [99] 3 8 42 1000; AckRecord [99] 4 8 42 9000] in
  acked_owners (foldl (ack_step sample_mesh_config) sample_mesh ops) [99] [3; 4] 5000 42 9500 =
    acked_owners_in (foldl (unswept_step sample_mesh_config) (mi_acked_buckets sample_mesh) ops) [99] [3; 4] 5000 42 9500 /\
  mi_acked_buckets (foldl (ack_step sample_mesh_config) sample_mesh ops) !! ([99], 3, 8) = None.
Proof.
  split; [|vm_compute; reflexivity].
  apply (sweeping_acks_is_invisible sample_mesh_config sample_mesh [AckRecord [99] 3 8 42 1000; AckRecord [99] 4 8 42 9000] [99] [3; 4] 42 0 9500); cbn; lia.
Defined.

Lemma peer_table_follows_membership_witness :
  mi_peers (update_peers sample_mesh_config sample_mesh [sample_peer 9 3]) !! 8 = None /\
  mi_peers (update_peers sample_mesh_config sample_mesh [sample_peer 9 3]) !! 9 = Some (updated_handle sample_mesh_config (mi_peers sample_mesh !! 9) (sample_peer 9 3)).
Proof.
  destruct (peer_table_follows_membership sample_mesh_config sample_mesh [sample_peer 9 3] ltac:(apply NoDup_singleton)) as (H1 & H2 & _).
  split; [apply H2; right; cbn; rewrite list_elem_of_singleton; discriminate|apply (H1 (sample_peer 9 3)); [left|discriminate]].
Defined.

#[local] Instance sample_layout : Layout := {| size_of_Msg := 100; size_of_WireRecord := 80 |}.

Lemma missed_frames_reach_anti_entropy_witness :
  9 ∈ (take_dirty_peers (foldl (send_op 1000000) (send_op 1000000 sample_mesh (OpUnsent 9 2)) [OpMark 8])).2.
Proof.
  assert (Hp : is_Some (mi_peers sample_mesh !! 9)) by (vm_compute; eexists; reflexivity).
  assert (Hm : misses 1000000 sample_mesh (OpUnsent 9 2) 9) by (split; [reflexivity|discriminate]).
  pose proof (missed_frames_reach_anti_entropy 1000000 sample_mesh (OpUnsent 9 2) [OpMark 8] 9 Hp Hm) as [_ H]. specialize (H (fun x => x)). cbv zeta in H.
  destruct (take_dirty_peers _) as [after dirty]. exact (proj1 H).
Defined.

Definition quiet_slice (t : Z) : Slice := {|
  sl_started := t; sl_taken0 := 4; sl_latch0 := 0; sl_reserved := Err Full; sl_now := t + 2000; sl_taken := 4; sl_latch := 0; sl_live := true |}.

Lemma stalls_need_idle_or_latch_witness :
  exists pre s rest, [quiet_slice 0; quiet_slice 2000] = pre ++ s :: rest /\ gave_up 3000 (progressed 0 4 pre).1 s.
Proof.
  apply (stalls_need_idle_or_latch 1000000 3000 ltac:(lia) 0 4 2 [quiet_slice 0; quiet_slice 2000] 0 2). vm_compute. reflexivity.
Defined.

Lemma quiet_peer_is_given_up_witness :
  exists w outcome rest, room_for 1000000 (waiting 1000000 3000 (0, 4)) [quiet_slice 0; quiet_slice 2000; quiet_slice 4000] = Some (w, Err outcome, rest) /\ outcome <> WaitAgain.
Proof.
  apply (quiet_peer_is_given_up 1000000 3000 ltac:(lia) 0 4 [quiet_slice 0; quiet_slice 2000; quiet_slice 4000]).
  - lia.
  - repeat constructor; cbn; unfold FAN_OUT_SEND_DEADLINE; try reflexivity; lia.
  - cbn. lia.
  - cbn. unfold FAN_OUT_SEND_DEADLINE. change (3000 / 2000) with 1. lia.
Defined.
