(* ===== verification/PeerServe.v ===== *)
(** * What a node serves its peers

    The residency-guarded serving of [store/shard_serve.rs], the request handler of
    [cluster/handler.rs] over the registered caches, the replies [net/conn/serve.rs] builds for a
    request and what [net/conn/reply.rs] reads back out of them at the other end of the
    connection. A reply is the list of messages sent; a connection delivers a prefix of it, then an
    error or a close. *)

From S2P Require Import Prelude Clock Part Types Record Expiry Sketch Wire Merge Arena Engine Apply Removal Read Serve Ownership Residency FanOut Mesh.

(** ** Definitions *)

(** *** Sorting by a key *)

Definition key_le {T} (key : T -> Z) (x y : T) : Prop := key x <= key y.
#[global] Instance key_le_dec {T} (key : T -> Z) x y : Decision (key_le key x y) := Z_le_dec _ _.

(** [sort_unstable_by_key]; only ever used where equal keys mean equal elements. *)
Definition sort_by {T} (key : T -> Z) (l : list T) : list T := merge_sort (key_le key) l.

(** [Vec::dedup] at any type with equality. *)
Fixpoint dedup_eq {T} `{EqDecision T} (l : list T) : list T :=
  match l with
  | x :: ((y :: _) as rest) => if decide (x = y) then dedup_eq rest else x :: dedup_eq rest
  | _ => l
  end.

#[global] Instance BucketPart_eq_dec : EqDecision BucketPart.
Proof. solve_decision. Defined.
#[global] Instance KeyVersion_eq_dec : EqDecision KeyVersion.
Proof. solve_decision. Defined.

(** The derived order of [BucketPart]: its bucket, then its part, a [u8]. *)
Definition bp_rank (bp : BucketPart) : Z := bp_bucket bp * 256 + bp_part bp.

Definition dedup_sorted {T} `{EqDecision T} (rank : T -> Z) (items : list T) : list T := dedup_eq (sort_by rank items).

(** *** The reply types, [net/types.rs] *)

Inductive AeMismatch :=
  | MmBucket (bucket : Z) (entries : list KeyVersion)
  | MmSketch (bucket : Z) (cells : list Cell)
  | MmPartDigests (bucket : Z) (digests : list Z).

Definition mm_bucket (m : AeMismatch) : Z :=
  match m with MmBucket b _ | MmSketch b _ | MmPartDigests b _ => b end.

Inductive AePartReply :=
  | PrListing (bucket part : Z) (entries : list KeyVersion)
  | PrSketch (bucket part : Z) (cells : list Cell).

Definition pr_bucket (r : AePartReply) : Z := match r with PrListing b _ _ | PrSketch b _ _ => b end.
Definition pr_part (r : AePartReply) : Z := match r with PrListing _ p _ | PrSketch _ p _ => p end.

Inductive AeRoundOutcome := RoMismatches (ms : list AeMismatch) | RoStale (responder_view_hash : Z).

Inductive AeServeOutcome (T : Type) := AsDigests (digests : T) | AsStale (responder_view_hash : Z) | AsUnavailable.
Arguments AsDigests {T}. Arguments AsStale {T}. Arguments AsUnavailable {T}.

Inductive FetchServe := FsFound (rec : option WireRecord) | FsStale (responder_view_hash : Z) | FsUnavailable.

Inductive LoadServe :=
  | LsLoaded (found : list WireRecord) (uncached : list (Bytes * Bytes))
  | LsFailed (message : Bytes)
  | LsUnavailable.

Inductive LoadOutcome :=
  | LoLoaded (found : list WireRecord) (uncached : list (Bytes * Bytes))
  | LoFailed (message : Bytes)
  | LoDeclined.

Inductive BucketStreamItem := BsChunk (recs : list WireRecord) | BsBucketDone (bucket : Z).

Inductive StServe :=
  | StStale (responder_view_hash : Z)
  | StCold
  | StStream (chunks : list (Z * list WireRecord)) (order : list Z) (parts : Z).

(** *** The scope of an anti-entropy round, [store/shard_ops.rs] *)

Record MaskedDigest := { md_bucket : Z; md_mask : Z; md_digest : Z }.
Inductive Scope := ScBuckets (ids : list (Z * Z)) | ScParts (masked : list MaskedDigest).
Record ScopedDigests := { sd_view_hash : Z; sd_scope : Scope }.

Definition coverage (s : Scope) : list (Z * Z) :=
  match s with
  | ScBuckets ids => (fun b => (b.1, PartMask.ALL)) <$> ids
  | ScParts masked => (fun m => (md_bucket m, md_mask m)) <$> masked
  end.
Definition scope_retain (keep : Z -> Z -> bool) (s : Scope) : Scope :=
  match s with
  | ScBuckets ids => ScBuckets (filter (fun b => keep b.1 PartMask.ALL = true) ids)
  | ScParts masked => ScParts (filter (fun m => keep (md_bucket m) (md_mask m) = true) masked)
  end.

(** *** Records too large to travel, [store/shard_oversize.rs] *)

Definition fits_frame (cache_len : Z) (rec : WireRecord) : bool :=
  replicate_frame_len cache_len (blen (wr_key rec)) (from_option blen 0 (wr_value rec)) <=? MAX_FRAME.

(** One record: kept, or counted against the largest left out so far. *)
Definition split_step (cache_len : Z) (acc : list WireRecord * option (Z * Bytes)) (rec : WireRecord) :
    list WireRecord * option (Z * Bytes) :=
  let len := replicate_frame_len cache_len (blen (wr_key rec)) (from_option blen 0 (wr_value rec)) in
  if len <=? MAX_FRAME then (acc.1 ++ [rec], acc.2)
  else (acc.1, if is_none_or acc.2 (fun l => l.1 <? len) then Some (len, wr_key rec) else acc.2).

Definition split_unframeable (cache_len : Z) (records : list WireRecord) : list WireRecord * option (Z * Bytes) :=
  foldl (split_step cache_len) ([], None) records.

Definition OVERSIZE_WARN_SPACING_MS : Z := 60000.
Definition oversize_warn_due (last_warn_ms : option Z) (now_ms : Z) : bool :=
  is_none_or last_warn_ms (fun last => (now_ms <? last) || (OVERSIZE_WARN_SPACING_MS <=? now_ms - last)).

(** The warning slot, [u64::MAX] before the first; a caller that loses the exchange does not warn. *)
Definition claim_warning (last : Z) (now : Z) : Z * bool :=
  let seen := if last =? u64_max then None else Some last in
  if oversize_warn_due seen now then (now, true) else (last, false).

Record SyncSkips := { ss_cache : Bytes; ss_last_warn_ms : Z }.

(** What a sync sends of [records], the slot after it, how many it left out and whether it warned. *)
Definition sync_skip (s : SyncSkips) (records : list WireRecord) (now : Z) : SyncSkips * list WireRecord * Z * bool :=
  let '(kept, largest) := split_unframeable (blen (ss_cache s)) records in
  match largest with
  | None => (s, kept, 0, false)
  | Some _ =>
      let (last, warn) := claim_warning (ss_last_warn_ms s) now in
      ({| ss_cache := ss_cache s; ss_last_warn_ms := last |}, kept, Z.of_nat (length records) - Z.of_nat (length kept), warn)
  end.

(** Of a batch applied stripe by stripe, the first refusal in call order. *)
Fixpoint first_refusal_walk (first : gmap Z (Z * Z)) (seen : gmap Z Z) (stripe_of : list Z) : option Z :=
  match stripe_of with
  | [] => None
  | stripe :: rest =>
      let index := default 0 (seen !! stripe) in
      match first !! stripe with
      | Some (refused, size) =>
          if refused =? index then Some size
          else first_refusal_walk first (<[stripe := index + 1]> seen) rest
      | None => first_refusal_walk first (<[stripe := index + 1]> seen) rest
      end
  end.

Definition first_refusal_in_call_order (stripe_of : list Z) (first_refused : list (Z * Z * Z)) : option Z :=
  match first_refused with
  | [] => None
  | _ => first_refusal_walk (foldl (fun m r => <[r.1.1 := (r.1.2, r.2)]> m) ∅ first_refused) ∅ stripe_of
  end.

(** *** The serving guard, [store/shard_serve.rs] *)

Section Shard.
Context {PU : PostcardU32} {HS : Hashing} {V : Type} {VC : ValueCodec V}.

Abbreviation Resident := (OwnershipView * ResidencySet)%type (only parsing).

(** A shard as its peers see it; only a distributed one has a view. *)
Record ServeShard := {
  sv_name : Bytes;
  sv_engine : Engine V;
  sv_residency : option Resident;
}.

Definition is_resident_part (r : Resident) (part : PartId) : bool := owns r.1 part || is_releasing r.2 part.
Definition is_resident_bucket (r : Resident) (bucket : Z) : bool :=
  owns_any_in_bucket r.1 bucket || releasing_in_bucket r.2 bucket.
Definition resident_bucket_mask (r : Resident) : list bool :=
  foldl (fun mask part => <[Z.to_nat (Pid.bucket part) := true]> mask) (ov_owns_in_bucket r.1) (releasing_parts r.2).

Definition peer_scope (r : Resident) (peer : NodeId) : list PartId :=
  dedup (sort_Z (shared_owned_parts r.1 peer ++
    filter (fun part => peer ∈ owners_of r.1 part) (releasing_parts r.2))).

Definition bucket_digests_for (s : ServeShard) (r : Resident) (peer : NodeId) : list (Z * Z) :=
  let scope : gset Z := list_to_set (Pid.bucket <$> peer_scope r peer) in
  filter (fun bd => bd.1 ∈ scope) (digests (sv_engine s)).

Definition part_mask_map (parts : list PartId) : gmap Z Z :=
  foldl (fun m part => <[Pid.bucket part := PartMask.insert (default 0 (m !! Pid.bucket part)) (Pid.part part)]> m) ∅ parts.

(** A [BTreeMap] is walked in key order. *)
Definition masked_digests (s : ServeShard) (parts : list PartId) : list MaskedDigest :=
  let masks := part_mask_map parts in
  (fun bucket =>
     let mask := default 0 (masks !! bucket) in
     {| md_bucket := bucket; md_mask := mask; md_digest := PartMask.fold mask (part_digests (sv_engine s) bucket) |})
  <$> sort_Z (map_to_list masks).*1.

Definition gated {R} (mask : option (list bool)) (bucket : Z) (value absent : R) : Z * R :=
  let resident := is_none_or mask (fun m => default false (m !! Z.to_nat bucket)) in
  (bucket, if resident then value else absent).

Definition gated_map {R} (s : ServeShard) (buckets : list Z) (compute : Z -> R) (absent : R) : list (Z * R) :=
  let mask := resident_bucket_mask <$> sv_residency s in
  (fun b => gated mask b (compute b) absent) <$> dedup_sorted id buckets.

Definition resident_backfill {T} `{EqDecision T} (rank : T -> Z) (s : ServeShard) (wanted : list T)
    (is_resident : Resident -> T -> bool) (query : list T -> list (T * list KeyVersion)) :
    list (T * list KeyVersion) :=
  let wanted := dedup_sorted rank wanted in
  match sv_residency s with
  | Some r =>
      let resident := filter (fun t => is_resident r t = true) wanted in
      let unresident := filter (fun t => is_resident r t = false) wanted in
      sort_by (fun te => rank te.1) (query resident ++ ((fun t => (t, [])) <$> unresident))
  | None => query wanted
  end.

Definition shard_digests (s : ServeShard) : list (Z * Z) :=
  match sv_residency s with
  | Some r =>
      let mask := resident_bucket_mask r in
      filter (fun bd => default false (mask !! Z.to_nat (bd.1 mod BUCKET_COUNT)) = true) (digests (sv_engine s))
  | None => digests (sv_engine s)
  end.

Definition ae_digests_for (s : ServeShard) (peer : NodeId) : list (Z * Z) :=
  match sv_residency s with Some r => bucket_digests_for s r peer | None => shard_digests s end.

Definition ae_scoped_digests_for (s : ServeShard) (peer : NodeId) : option ScopedDigests :=
  r ← sv_residency s;
  Some {|
    sd_view_hash := ov_view_hash r.1;
    sd_scope := match ov_granularity r.1 with
                | Ownership.Bucket => ScBuckets (bucket_digests_for s r peer)
                | Ownership.Part => ScParts (masked_digests s (peer_scope r peer))
                end |}.

Definition bucket_entries (s : ServeShard) (bucket now_ms : Z) : list KeyVersion :=
  if is_some_and (sv_residency s) (fun r => negb (is_resident_bucket r bucket)) then []
  else from_option snd [] (last (collect_buckets (sv_engine s) [bucket] now_ms)).

Definition entries_for_buckets (s : ServeShard) (buckets : list Z) (now_ms : Z) : list (Z * list KeyVersion) :=
  resident_backfill id s buckets is_resident_bucket (fun resident => collect_buckets (sv_engine s) resident now_ms).

Definition bucket_lens (s : ServeShard) (buckets : list Z) : list (Z * Z) :=
  gated_map s buckets (bucket_len (sv_engine s)) 0.

Definition held_buckets (s : ServeShard) : list Z :=
  filter (fun b => 0 < bucket_len (sv_engine s) b) (seqZ 0 BUCKET_COUNT).

Definition shard_part_digests (s : ServeShard) (buckets : list Z) : list (Z * list Z) :=
  gated_map s buckets (part_digests (sv_engine s)) [].

Definition entries_for_parts (s : ServeShard) (parts : list BucketPart) (now_ms : Z) :
    list (BucketPart * list KeyVersion) :=
  resident_backfill bp_rank s parts (fun r bp => is_resident_part r (Pid.of_bucket_part bp))
    (fun resident => collect_parts (sv_engine s) resident now_ms).

Definition pid_of_key (k : Bytes) : PartId := Pid.from_hash (xxh3_64 k).

Definition records_for (s : ServeShard) (keys : list Bytes) (now_ms : Z) : list WireRecord :=
  let keys :=
    match sv_residency s with
    | Some r => filter (fun k => is_resident_part r (pid_of_key k) = true) keys
    | None => keys
    end in
  omap (fun k => record_for (sv_engine s) k now_ms) keys.

(** [ShardOps::skip_unframeable], less its counter and its warning. *)
Definition skip_unframeable (s : ServeShard) (records : list WireRecord) : list WireRecord :=
  (split_unframeable (blen (sv_name s)) records).1.

Definition snapshot_chunks (s : ServeShard) (now_ms : Z) : list (list WireRecord) :=
  let records := snapshot_records (sv_engine s) now_ms in
  let records :=
    match sv_residency s with
    | Some r => filter (fun rec => is_resident_part r (pid_of_key (wr_key rec)) = true) records
    | None => records
    end in
  chunk_records_for_snapshot (skip_unframeable s records).

Definition ownership_view_hash (s : ServeShard) : option Z := (fun r => ov_view_hash r.1) <$> sv_residency s.
Definition is_cold_part (s : ServeShard) (part : PartId) : bool :=
  is_some_and (sv_residency s) (fun r => is_cold r.2 part || (is_unsettled r.2 part && owns r.1 part)).
Definition is_unverified_part (s : ServeShard) (part : PartId) : bool :=
  is_some_and (sv_residency s) (fun r => is_unverified r.2 part).

Definition cohort (r : Resident) : gset NodeId :=
  list_to_set (ov_co_owners r.1 ++ (releasing_parts r.2 ≫= owners_of r.1)).

Definition ae_peer_filter (s : ServeShard) (dirty live : list NodeId) : list NodeId * list NodeId :=
  match sv_residency s with
  | None => (dirty, live)
  | Some r => (filter (fun n => n ∈ cohort r) dirty, filter (fun n => n ∈ cohort r) live)
  end.

(** *** The donor's stream of one request, [cluster/handler.rs] *)

(** Bucket ids in order, part ids by their bucket and then their part. *)
Definition id_rank (g : Granularity) (id : Z) : Z :=
  match g with Ownership.Bucket => id | Ownership.Part => Pid.bucket id * PART_COUNT + Pid.part id end.
Definition serve_order (g : Granularity) (ids : list Z) : list Z := dedup_sorted (id_rank g) ids.

Definition same_run (g : Granularity) (a b : Z) : bool :=
  match g with Ownership.Bucket => false | Ownership.Part => Pid.bucket a =? Pid.bucket b end.

(** [slice::chunk_by]: a new run wherever two neighbours are not related. *)
Fixpoint chunk_by {A} (same : A -> A -> bool) (l : list A) : list (list A) :=
  match l with
  | [] => []
  | x :: rest =>
      match chunk_by same rest with
      | (y :: run) :: runs => if same x y then (x :: y :: run) :: runs else [x] :: (y :: run) :: runs
      | runs => [x] :: runs
      end
  end.
Definition bucket_runs (g : Granularity) (ids : list Z) : list (list Z) := chunk_by (same_run g) ids.

Definition id_listed (s : ServeShard) (g : Granularity) (now_ms : Z) (run : list Z) : list (Z * list KeyVersion) :=
  match g with
  | Ownership.Bucket => entries_for_buckets s run now_ms
  | Ownership.Part =>
      (fun be : BucketPart * list KeyVersion => (Pid.of_bucket_part be.1, be.2))
        <$> entries_for_parts s (Pid.bucket_part <$> run) now_ms
  end.
Definition id_keys (s : ServeShard) (g : Granularity) (now_ms : Z) (run : list Z) : list (Z * list Bytes) :=
  (fun ie : Z * list KeyVersion => (ie.1, kv_key <$> ie.2)) <$> filter (fun ie => ie.2 <> []) (id_listed s g now_ms run).

(** One key of [st_bucket_key_sub_batches]: the batches closed, the open one, its estimated size. *)
Definition sub_batch_step (chunk_bytes : Z) (acc : list (list Bytes) * list Bytes * Z) (key : Bytes) :
    list (list Bytes) * list Bytes * Z :=
  let '(batches, current, size) := acc in
  let key_size := Z.of_nat RECORD_HEADER_LEN + blen key in
  let '(batches, current, size) :=
    if (chunk_bytes <? saturating_add size key_size) && negb (bool_decide (current = []))
    then (batches ++ [current], [], 0) else (batches, current, size) in
  (batches, current ++ [key], size + key_size).
Definition st_bucket_key_sub_batches (keys : list Bytes) (chunk_bytes : Z) : list (list Bytes) :=
  let '(batches, current, _) := foldl (sub_batch_step chunk_bytes) ([], [], 0) keys in
  if bool_decide (current = []) then batches else batches ++ [current].

(** Every read of the store happens at one [now_ms] here; the stream reads it lazily. *)
Definition id_chunks (s : ServeShard) (g : Granularity) (ids : list Z) (chunk_bytes now_ms : Z) :
    list (Z * list WireRecord) :=
  bucket_runs g ids ≫= (fun run =>
  id_keys s g now_ms run ≫= (fun ik =>
  st_bucket_key_sub_batches ik.2 chunk_bytes ≫= (fun batch =>
  (fun chunk => (ik.1, chunk)) <$> chunk_records_for_snapshot (skip_unframeable s (records_for s batch now_ms))))).

(** *** The request handler, [cluster/handler.rs] *)

Record Handler := {
  hd_shards : gmap Bytes ServeShard;
  hd_warm : Bytes -> bool;
  hd_part_min_bucket : Z;
  hd_sketch_min_bucket : Z;
  hd_sketch_cells : nat;
  hd_chunk_bytes : Z;
}.

(** An unregistered cache degrades to an empty answer. *)
Definition with_shard {A} (h : Handler) (cache : Bytes) (f : ServeShard -> A) (absent : A) : A :=
  from_option f absent (hd_shards h !! cache).

Definition matching_view {T} (h : Handler) (cache : Bytes) (view_hash : Z) : result ServeShard (AeServeOutcome T) :=
  let? shard := ok_or (hd_shards h !! cache) AsUnavailable in
  let? r := ok_or (sv_residency shard) AsUnavailable in
  if ov_view_hash r.1 =? view_hash then Ok shard else Err (AsStale (ov_view_hash r.1)).

Definition serve_reply (verdict : ServeVerdict) (rec : option WireRecord) (local_hash : Z) : FetchServe :=
  match verdict with
  | SvServe => FsFound rec
  | SvMiss => FsFound None
  | SvStale => FsStale local_hash
  | SvDeclineDistrusted | SvDeclineCold => FsUnavailable
  end.

Definition handle_fetch (h : Handler) (cache key : Bytes) (view_hash now_ms : Z) : FetchServe :=
  match hd_shards h !! cache with
  | None => FsUnavailable
  | Some shard =>
      match ownership_view_hash shard with
      | None => FsUnavailable
      | Some local_hash =>
          let part := pid_of_key key in
          let distrusted := is_unverified_part shard part in
          let cold := is_cold_part shard part in
          let rec := if distrusted then None else head (records_for shard [key] now_ms) in
          serve_reply
            (fetch_serve_verdict {| si_distrusted := distrusted; si_served := is_some rec;
                                    si_views_match := local_hash =? view_hash; si_cold := cold |})
            rec local_hash
      end
  end.

Definition ae_digest_scoped (h : Handler) (cache : Bytes) (view_hash : Z) : AeServeOutcome (list (Z * Z)) :=
  match matching_view h cache view_hash with Ok shard => AsDigests (shard_digests shard) | Err declined => declined end.

Definition masked_remote (buckets : list (Z * Z * Z)) : gmap Z (Z * Z) :=
  foldl (fun m b => <[b.1.1 := (b.1.2, b.2)]> m) ∅ buckets.

Definition ae_digest_masked (h : Handler) (cache : Bytes) (view_hash : Z) (buckets : list (Z * Z * Z)) :
    AeServeOutcome (list (Z * list Z)) :=
  match matching_view h cache view_hash with
  | Err declined => declined
  | Ok shard =>
      let remote := masked_remote buckets in
      AsDigests (filter (fun bpd =>
        is_some_and (remote !! bpd.1) (fun md => negb (PartMask.fold md.1 bpd.2 =? md.2)) = true)
        (shard_part_digests shard (map_to_list remote).*1))
  end.

Definition st_serve (h : Handler) (cache : Bytes) (ids : list Z) (view_hash now_ms : Z) : StServe :=
  match shard ← hd_shards h !! cache; (fun r => (shard, r)) <$> sv_residency shard with
  | None => StStale 0
  | Some (shard, r) =>
      if negb (ov_view_hash r.1 =? view_hash) then StStale (ov_view_hash r.1)
      else
        let g := ov_granularity r.1 in
        let order := serve_order g ids in
        let parts := order ≫= parts_of_wire_id g in
        if existsb (is_cold_part shard) parts then StCold
        else StStream (id_chunks shard g order (hd_chunk_bytes h) now_ms) order (Z.of_nat (length parts))
  end.

(** By hash: the bucket's entries whose key hash was asked for. *)
Definition records_for_hashes (h : Handler) (cache : Bytes) (bucket : Z) (hashes : list Z) (now_ms : Z) : list WireRecord :=
  let keys := with_shard h cache (fun s =>
    kv_key <$> filter (fun kv => xxh3_64 (kv_key kv) ∈ hashes) (bucket_entries s bucket now_ms)) [] in
  with_shard h cache (fun s => skip_unframeable s (records_for s keys now_ms)) [].

End Shard.
Arguments ServeShard V : clear implicits.
Arguments Handler V : clear implicits.

(** *** The replies a request is answered with, [net/conn/serve.rs] *)

Definition PROTOCOL_PART_DIGESTS : Z := 2.
Definition PROTOCOL_ST_UNAVAILABLE : Z := 2.
Definition PROTOCOL_ST_BUCKET_DONE_ACK : Z := 4.
Definition PROTOCOL_AE_LISTING_CHUNKS : Z := 9.

Definition key_versions_to_wire (entries : list KeyVersion) : list (Bytes * Hlc) :=
  (fun kv => (kv_key kv, kv_version kv)) <$> entries.
Definition wire_to_key_versions (entries : list (Bytes * Hlc)) : list KeyVersion := key_version <$> entries.

Definition AE_LISTING_BUDGET : Z := MAX_FRAME / 2.
Definition listing_entry_cost (entry : KeyVersion) : Z := blen (kv_key entry) + AE_ENTRY_MAX_WIRE_LEN.

Fixpoint listing_fits_from (used : Z) (entries : list KeyVersion) (budget : Z) : bool :=
  match entries with
  | [] => true
  | entry :: rest =>
      let used := saturating_add used (listing_entry_cost entry) in
      if budget <? used then false else listing_fits_from used rest budget
  end.
Definition listing_fits (entries : list KeyVersion) (budget : Z) : bool := listing_fits_from 0 entries budget.

Inductive ListingOrSketch := LsListing (entries : list KeyVersion) | LsSketch (cells : list Cell).

Definition kv_elem {HS : Hashing} (kv : KeyVersion) : Elem :=
  {| el_key_hash := xxh3_64 (kv_key kv); el_ver := kv_version kv |}.

Definition listing_or_sketch {HS : Hashing} (entries : list KeyVersion) (min_bucket : Z) (sketch_cells : nat) :
    ListingOrSketch :=
  if (min_bucket <? Z.of_nat (length entries)) || negb (listing_fits entries AE_LISTING_BUDGET)
  then LsSketch (cells (foldl (fun s kv => iblt_insert s (kv_elem kv)) (iblt_new sketch_cells) entries))
  else LsListing entries.

(** One entry of [chunk_ae_listing]: the slices closed, the open one, its size. *)
Definition listing_step (budget : Z) (acc : list (list KeyVersion) * list KeyVersion * Z) (kv : KeyVersion) :
    list (list KeyVersion) * list KeyVersion * Z :=
  let '(chunks, current, used) := acc in
  let len := listing_entry_cost kv in
  let '(chunks, current, used) :=
    if (0 <? used) && (budget <? used + len) then (chunks ++ [current], [], 0) else (chunks, current, used) in
  (chunks, current ++ [kv], used + len).
Definition chunk_ae_listing (entries : list KeyVersion) (budget : Z) : list (list KeyVersion) :=
  if listing_fits entries budget then [entries]
  else let '(chunks, current, _) := foldl (listing_step budget) ([], [], 0) entries in chunks ++ [current].

Definition ae_entries_replies (cache : Bytes) (listings : list (Z * list KeyVersion)) (chunked : bool) (budget : Z) :
    list Msg :=
  listings ≫= (fun be =>
    (fun slice => AeBucket cache be.1 (key_versions_to_wire slice))
      <$> (if chunked then chunk_ae_listing be.2 budget else [be.2])).

Definition LOADED_REPLY_BUDGET : Z := MAX_FRAME / 2.
Definition loaded_len (entry : WireRecord + Bytes * Bytes) : Z :=
  match entry with
  | inl rec => blen (wr_key rec) + from_option blen 0 (wr_value rec)
  | inr (key, value) => blen key + blen value
  end.
(** One entry of [loaded_replies]: the messages closed, the open one, its size. *)
Definition loaded_step (budget : Z) (acc : list Msg * (list WireRecord * list (Bytes * Bytes)) * Z)
    (entry : WireRecord + Bytes * Bytes) : list Msg * (list WireRecord * list (Bytes * Bytes)) * Z :=
  let '(replies, current, used) := acc in
  let len := loaded_len entry in
  let '(replies, current, used) :=
    if (0 <? used) && (budget <? used + len)
    then (replies ++ [Loaded current.1 current.2], ([], []), 0) else (replies, current, used) in
  let current := match entry with
                 | inl rec => (current.1 ++ [rec], current.2)
                 | inr kv => (current.1, current.2 ++ [kv])
                 end in
  (replies, current, used + len).
Definition loaded_replies (found : list WireRecord) (uncached : list (Bytes * Bytes)) (budget : Z) : list Msg :=
  let '(replies, current, _) :=
    foldl (loaded_step budget) ([], ([], []), 0) ((inl <$> found) ++ (inr <$> uncached)) in
  if bool_decide (replies = []) || negb (bool_decide (current.1 = [])) || negb (bool_decide (current.2 = []))
  then replies ++ [Loaded current.1 current.2] else replies.

Definition declined_replies {T} (cache : Bytes) (outcome : AeServeOutcome T) : list Msg :=
  match outcome with AsStale h => [StaleView cache h] | AsDigests _ | AsUnavailable => [] end.

Section Replies.
Context {PU : PostcardU32} {HS : Hashing} {V : Type} {VC : ValueCodec V}.

Definition ae_mismatch_replies (h : Handler V) (cache : Bytes) (local : gmap Z Z) (remote_buckets : list (Z * Z))
    (peer_protocol now_ms : Z) : list Msg :=
  let mismatched := fst <$> filter (fun bd => default 0 (local !! bd.1) <> bd.2) remote_buckets in
  if bool_decide (mismatched = []) then []
  else
    let part_min_bucket :=
      if peer_supports peer_protocol PROTOCOL_PART_DIGESTS then hd_part_min_bucket h else u64_max in
    let lens : gmap Z Z := foldl (fun m bl => <[bl.1 := bl.2]> m) ∅
      (with_shard h cache (fun s => bucket_lens s mismatched) []) in
    let big := filter (fun b => part_min_bucket < default 0 (lens !! b)) mismatched in
    let small := filter (fun b => ~ part_min_bucket < default 0 (lens !! b)) mismatched in
    (if bool_decide (big = []) then [] else
       (fun bpd => AePartDigests cache bpd.1 bpd.2) <$> with_shard h cache (fun s => shard_part_digests s big) []) ++
    (if bool_decide (small = []) then [] else
       (fun be => match listing_or_sketch be.2 (hd_sketch_min_bucket h) (hd_sketch_cells h) with
                  | LsSketch cells => AeSketch cache be.1 cells
                  | LsListing entries => AeBucket cache be.1 (key_versions_to_wire entries)
                  end)
       <$> with_shard h cache (fun s => entries_for_buckets s small now_ms) []).

Definition digest_map (ds : list (Z * Z)) : gmap Z Z := foldl (fun m bd => <[bd.1 := bd.2]> m) ∅ ds.

Definition serve_ae_digest (h : Handler V) (cache : Bytes) (remote_buckets : list (Z * Z)) (peer_protocol now_ms : Z) :
    list Msg :=
  ae_mismatch_replies h cache (digest_map (with_shard h cache shard_digests [])) remote_buckets peer_protocol now_ms
  ++ [ReqDone].

Definition serve_fetch (h : Handler V) (cache key : Bytes) (view_hash now_ms : Z) : list Msg :=
  [match handle_fetch h cache key view_hash now_ms with
   | FsFound rec => FetchReply rec
   | FsStale hash => StaleView cache hash
   | FsUnavailable => FetchDeclined cache
   end; ReqDone].

Definition serve_load (cache : Bytes) (answer : LoadServe) : list Msg :=
  match answer with
  | LsLoaded found uncached => loaded_replies found uncached LOADED_REPLY_BUDGET
  | LsFailed message => [LoadFailed cache message]
  | LsUnavailable => [LoadDeclined cache]
  end ++ [ReqDone].

Definition serve_ae_digest_scoped (h : Handler V) (cache : Bytes) (view_hash : Z) (remote_buckets : list (Z * Z))
    (peer_protocol now_ms : Z) : list Msg :=
  match ae_digest_scoped h cache view_hash with
  | AsDigests local => ae_mismatch_replies h cache (digest_map local) remote_buckets peer_protocol now_ms
  | declined => declined_replies cache declined
  end ++ [ReqDone].

Definition serve_ae_digest_masked (h : Handler V) (cache : Bytes) (view_hash : Z) (remote_buckets : list (Z * Z * Z)) :
    list Msg :=
  match ae_digest_masked h cache view_hash remote_buckets with
  | AsDigests mismatched => (fun bpd => AePartDigests cache bpd.1 bpd.2) <$> mismatched
  | declined => declined_replies cache declined
  end ++ [ReqDone].

Definition part_replies (h : Handler V) (cache : Bytes) (parts : list BucketPart) (now_ms : Z) : list Msg :=
  if bool_decide (parts = []) then []
  else
    (fun be => match listing_or_sketch be.2 (hd_sketch_min_bucket h) (hd_sketch_cells h) with
               | LsSketch cells => AePartSketch cache (bp_bucket be.1) (bp_part be.1) cells
               | LsListing entries => AePart cache (bp_bucket be.1) (bp_part be.1) (key_versions_to_wire entries)
               end)
    <$> with_shard h cache (fun s => entries_for_parts s parts now_ms) [].

Definition serve_ae_parts (h : Handler V) (cache : Bytes) (parts : list (Z * Z)) (now_ms : Z) : list Msg :=
  part_replies h cache ((fun bp => {| bp_bucket := bp.1; bp_part := bp.2 |}) <$> parts) now_ms ++ [ReqDone].

Definition serve_ae_entries (h : Handler V) (cache : Bytes) (buckets : list Z) (peer_protocol now_ms : Z) : list Msg :=
  (if bool_decide (buckets = []) then []
   else ae_entries_replies cache (with_shard h cache (fun s => entries_for_buckets s buckets now_ms) [])
          (peer_supports peer_protocol PROTOCOL_AE_LISTING_CHUNKS) AE_LISTING_BUDGET) ++ [ReqDone].

Definition handler_records_for (h : Handler V) (cache : Bytes) (keys : list Bytes) (now_ms : Z) : list WireRecord :=
  with_shard h cache (fun s => skip_unframeable s (records_for s keys now_ms)) [].
Definition serve_ae_pull (h : Handler V) (cache : Bytes) (keys : list Bytes) (now_ms : Z) : list Msg :=
  batch_replicate cache (handler_records_for h cache keys now_ms) ++ [ReqDone].
Definition serve_ae_pull_hashes (h : Handler V) (cache : Bytes) (bucket : Z) (hashes : list Z) (now_ms : Z) : list Msg :=
  batch_replicate cache (records_for_hashes h cache bucket hashes now_ms) ++ [ReqDone].

Definition serve_state_transfer (h : Handler V) (cache : Bytes) (peer_protocol now_ms : Z) : list Msg :=
  if negb (hd_warm h cache) && peer_supports peer_protocol PROTOCOL_ST_UNAVAILABLE then [StUnavailable cache]
  else ((fun recs => StChunk cache recs false) <$> with_shard h cache (fun s => snapshot_chunks s now_ms) [])
       ++ [StChunk cache [] true].

End Replies.

(** The donor's loop: before a chunk, every id ahead of it is marked done. The acks it reads
    meanwhile only reach the ack table ([drain_ready_acks]). *)
Fixpoint ids_ahead (bucket : Z) (remaining : list Z) : list Z :=
  match remaining with
  | b :: rest => if b =? bucket then [] else b :: ids_ahead bucket rest
  | [] => []
  end.

Fixpoint st_loop (signal_done : bool) (cache : Bytes) (remaining : list Z) (chunks : list (Z * list WireRecord)) :
    list Msg :=
  match chunks with
  | [] => (if signal_done then StBucketDone cache <$> remaining else []) ++ [StBucketChunk cache [] true]
  | (bucket, recs) :: rest =>
      let done_run := if signal_done then ids_ahead bucket remaining else [] in
      (StBucketDone cache <$> done_run) ++ StBucketChunk cache recs false ::
      st_loop signal_done cache (drop (length done_run) remaining) rest
  end.

Definition serve_st_buckets {PU : PostcardU32} {HS : Hashing} {V} {VC : ValueCodec V} (h : Handler V) (cache : Bytes)
    (buckets : list Z) (view_hash peer_protocol now_ms : Z) : list Msg :=
  match st_serve h cache buckets view_hash now_ms with
  | StStale hash => [StaleView cache hash]
  | StCold => [StUnavailable cache]
  | StStream chunks order _ => st_loop (peer_supports peer_protocol PROTOCOL_ST_BUCKET_DONE_ACK) cache order chunks
  end.

(** *** Reading a reply, [net/conn/reply.rs] *)

Inductive IoKind := IoTimedOut | IoUnexpectedEof | IoNotFound | IoUnsupported | IoOther.
Inductive NetError := NetIo (kind : IoKind) | NetCodec (e : CodecError).

(** The messages a connection delivers, ending in an error or, past the end of the list, a close. *)
Abbreviation Received := (list (result Msg NetError)) (only parsing).

Definition unexpected_close : NetError := NetIo IoUnexpectedEof.

Fixpoint collect_replies {T} (received : Received) (seed : T) (accumulate : Msg -> T -> T) : result T NetError :=
  match received with
  | [] => Err unexpected_close
  | Ok ReqDone :: _ => Ok seed
  | Ok msg :: rest => collect_replies rest (accumulate msg seed) accumulate
  | Err e :: _ => Err e
  end.

Fixpoint merge_bucket_chunk (out : list (Z * list KeyVersion)) (bucket : Z) (entries : list KeyVersion) :
    list (Z * list KeyVersion) :=
  match out with
  | [] => [(bucket, entries)]
  | (id, existing) :: rest =>
      if id =? bucket then (id, existing ++ entries) :: rest else (id, existing) :: merge_bucket_chunk rest bucket entries
  end.

Definition push_bucket (msg : Msg) (out : list (Z * list KeyVersion)) : list (Z * list KeyVersion) :=
  match msg with
  | AeBucket _ bucket entries => merge_bucket_chunk out bucket (wire_to_key_versions entries)
  | _ => out
  end.
Definition collect_ae_buckets (received : Received) : result (list (Z * list KeyVersion)) NetError :=
  collect_replies received [] push_bucket.

Definition push_mismatch (msg : Msg) (out : list AeMismatch) : list AeMismatch :=
  match msg with
  | AeBucket _ bucket entries => out ++ [MmBucket bucket (wire_to_key_versions entries)]
  | AeSketch _ bucket cells => out ++ [MmSketch bucket cells]
  | AePartDigests _ bucket digests => out ++ [MmPartDigests bucket digests]
  | _ => out
  end.
Definition collect_ae_mismatches (received : Received) : result (list AeMismatch) NetError :=
  collect_replies received [] push_mismatch.

Definition push_part_reply (msg : Msg) (out : list AePartReply) : list AePartReply :=
  match msg with
  | AePart _ bucket part entries => out ++ [PrListing bucket part (wire_to_key_versions entries)]
  | AePartSketch _ bucket part cells => out ++ [PrSketch bucket part cells]
  | _ => out
  end.
Definition collect_ae_part_replies (received : Received) : result (list AePartReply) NetError :=
  collect_replies received [] push_part_reply.

Definition push_records (msg : Msg) (out : list WireRecord) : list WireRecord :=
  match msg with
  | Replicate _ rec => out ++ [rec]
  | ReplicateBatch _ recs => out ++ recs
  | _ => out
  end.
Definition collect_pulled_records (received : Received) : result (list WireRecord) NetError :=
  collect_replies received [] push_records.

Definition note_fetch (msg : Msg) (out : option FetchOutcome) : option FetchOutcome :=
  match msg with
  | FetchReply rec => Some (FoFound rec)
  | FetchDeclined _ => Some FoDeclined
  | StaleView _ hash => Some (FoStale hash)
  | _ => out
  end.
Definition collect_fetch_reply (received : Received) : result FetchOutcome NetError :=
  let? outcome := collect_replies received None note_fetch in ok_or outcome unexpected_close.

Definition note_load (msg : Msg) (out : option LoadOutcome) : option LoadOutcome :=
  match msg with
  | Loaded found uncached =>
      match out with
      | Some (LoLoaded all_found all_uncached) => Some (LoLoaded (all_found ++ found) (all_uncached ++ uncached))
      | _ => Some (LoLoaded found uncached)
      end
  | LoadFailed _ message => Some (LoFailed message)
  | LoadDeclined _ => Some LoDeclined
  | _ => out
  end.
Definition collect_load_reply (received : Received) : result LoadOutcome NetError :=
  let? outcome := collect_replies received None note_load in ok_or outcome unexpected_close.

Definition note_scoped (msg : Msg) (seed : list AeMismatch * option Z) : list AeMismatch * option Z :=
  match msg with
  | StaleView _ hash => (seed.1, Some hash)
  | other => (push_mismatch other seed.1, seed.2)
  end.
Definition collect_ae_round_scoped (received : Received) : result AeRoundOutcome NetError :=
  let? seed := collect_replies received ([], None) note_scoped in
  Ok (match seed.2 with Some hash => RoStale hash | None => RoMismatches seed.1 end).

(** What a consumer that polls to the end sees of a snapshot. *)
Fixpoint state_stream (received : Received) : list (result (list WireRecord) NetError) :=
  match received with
  | [] => [Err unexpected_close]
  | Ok (StChunk _ recs done) :: rest =>
      match recs with
      | [] => if done then [] else state_stream rest
      | _ => Ok recs :: (if done then [] else state_stream rest)
      end
  | Ok _ :: rest => state_stream rest
  | Err e :: _ => [Err e]
  end.

(** What the requester of a bucket pull writes back. *)
Inductive AckOut := AckFed (bucket : Z) | AckFlush.
Definition ACK_FLUSH : Z := 256.

(** The ack for the [BucketDone] just yielded, fed before the next read. *)
Definition feed_ack (ack_gated : bool) (bucket unflushed : Z) : list AckOut * Z :=
  if ack_gated then
    if ACK_FLUSH <=? unflushed + 1 then ([AckFed bucket; AckFlush], 0) else ([AckFed bucket], unflushed + 1)
  else ([], unflushed).
Definition flush_acks (unflushed : Z) : list AckOut := if 0 <? unflushed then [AckFlush] else [].

(** The items a consumer that polls to the end gets, and what the stream wrote back meanwhile. *)
Fixpoint bucket_stream (ack_gated : bool) (unflushed : Z) (received : Received) :
    list (result BucketStreamItem NetError) * list AckOut :=
  match received with
  | [] => ([Err unexpected_close], flush_acks unflushed)
  | Ok (StBucketChunk _ recs done) :: rest =>
      let more := if done then ([], []) else bucket_stream ack_gated 0 rest in
      ((match recs with [] => [] | _ => [Ok (BsChunk recs)] end) ++ more.1, flush_acks unflushed ++ more.2)
  | Ok (StBucketDone _ bucket) :: rest =>
      let (outs, unflushed) := feed_ack ack_gated bucket unflushed in
      let more := bucket_stream ack_gated unflushed rest in
      (Ok (BsBucketDone bucket) :: more.1, outs ++ more.2)
  | Ok _ :: rest =>
      let more := bucket_stream ack_gated 0 rest in (more.1, flush_acks unflushed ++ more.2)
  | Err e :: _ => ([Err e], flush_acks unflushed)
  end.

(** The acks a donor reads between its sends: those of its cache reach the ack table. *)
Fixpoint drain_ready_acks (c : MeshConfig) (cache : Bytes) (from : NodeId) (now : Z) (mesh : MeshInner) (ready : Received) :
    MeshInner * bool :=
  match ready with
  | [] => (mesh, false)
  | Ok (StBucketAck acked bucket view_hash) :: rest =>
      drain_ready_acks c cache from now
        (if bool_decide (acked = cache) then record_bucket_ack_at c mesh acked bucket from view_hash now else mesh) rest
  | Ok _ :: rest => drain_ready_acks c cache from now mesh rest
  | Err _ :: _ => (mesh, true)
  end.

(** ** Reading back what was served *)

Lemma collect_replies_all {T} (msgs : list Msg) (acc : Msg -> T -> T) : forall seed,
  ReqDone ∉ msgs -> collect_replies (Ok <$> msgs ++ [ReqDone]) seed acc = Ok (foldl (fun s m => acc m s) seed msgs).
Proof.
  induction msgs as [|m msgs IH]; intros seed Hn; [done|]. apply not_elem_of_cons in Hn as [Hm Hn].
  cbn. rewrite <-(IH (acc m seed) Hn). by destruct m.
Qed.

Lemma wire_key_versions es : wire_to_key_versions (key_versions_to_wire es) = es.
Proof.
  unfold wire_to_key_versions, key_versions_to_wire. rewrite <-list_fmap_compose.
  induction es as [|[k v] es IH]; cbn; [done|]. by rewrite IH.
Qed.

(** *** Listings *)

Definition listing_cost (es : list KeyVersion) : Z := sum_Z (listing_entry_cost <$> es).

(** A slice within the budget, or one entry on its own. *)
Definition slice_ok (budget : Z) (es : list KeyVersion) : Prop := listing_cost es <= budget \/ exists kv, es = [kv].

Lemma entry_cost_pos kv : 0 < listing_entry_cost kv.
Proof. unfold listing_entry_cost, AE_ENTRY_MAX_WIRE_LEN, blen. lia. Qed.

Lemma listing_cost_cons kv es : listing_cost (kv :: es) = listing_entry_cost kv + listing_cost es.
Proof. unfold listing_cost. by rewrite fmap_cons, sum_Z_cons. Qed.
Lemma listing_cost_app es es' : listing_cost (es ++ es') = listing_cost es + listing_cost es'.
Proof. unfold listing_cost. by rewrite fmap_app, sum_Z_app. Qed.

Lemma listing_cost_nonneg es : 0 <= listing_cost es.
Proof. induction es as [|kv es IH]; [done|]. rewrite listing_cost_cons. pose proof (entry_cost_pos kv). lia. Qed.

Lemma listing_fits_cost budget es : budget < u64_max -> forall used, used <= budget ->
  listing_fits_from used es budget = true -> used + listing_cost es <= budget.
Proof.
  intros Hb. induction es as [|kv es IH]; intros used Hu; cbn [listing_fits_from].
  { change (listing_cost []) with 0. lia. }
  rewrite listing_cost_cons. unfold saturating_add. destruct (Z.ltb_spec budget (Z.min (used + listing_entry_cost kv) u64_max)); [done|].
  intros Hf. rewrite Z.min_l in Hf by lia. specialize (IH (used + listing_entry_cost kv) ltac:(lia) Hf). lia.
Qed.

(** The loop's invariant: the entries so far in order, closed slices good, the open one too. *)
Lemma listing_steps budget es : forall chunks current used,
  used = listing_cost current -> Forall (slice_ok budget) chunks -> (used = 0 -> current = []) -> slice_ok budget current \/ current = [] ->
  let '(chunks', current', used') := foldl (listing_step budget) (chunks, current, used) es in
  concat chunks' ++ current' = concat chunks ++ current ++ es /\ Forall (slice_ok budget) chunks' /\
  (slice_ok budget current' \/ current' = []).
Proof.
  induction es as [|kv es IH]; intros chunks current used Hu Hch Hz Hc; [cbn; by rewrite app_nil_r|].
  cbn [foldl]. unfold listing_step at 2. pose proof (entry_cost_pos kv) as Hp.
  destruct ((0 <? used) && (budget <? used + listing_entry_cost kv)) eqn:E.
  - apply andb_true_iff in E as [E1%Z.ltb_lt E2%Z.ltb_lt].
    specialize (IH (chunks ++ [current]) [kv] (listing_entry_cost kv)).
    destruct (foldl _ _ _) as [[c' cur'] u']. destruct IH as (H1 & H2 & H3).
    + by rewrite listing_cost_cons, Z.add_0_r.
    + apply Forall_app. split; [done|]. apply Forall_singleton. destruct Hc as [Hc| ->]; [done|]. subst used. by change (listing_cost []) with 0 in E1.
    + intros; exfalso; lia.
    + left. right. eauto.
    + split_and!; [|done|done]. rewrite H1, concat_app. cbn. by rewrite app_nil_r, <-!app_assoc.
  - specialize (IH chunks (current ++ [kv]) (used + listing_entry_cost kv)).
    destruct (foldl _ _ _) as [[c' cur'] u']. destruct IH as (H1 & H2 & H3).
    + rewrite listing_cost_app, listing_cost_cons. change (listing_cost []) with 0. lia.
    + done.
    + intros H0. exfalso. assert (0 <= used); [|lia]. rewrite Hu. apply listing_cost_nonneg.
    + left. apply andb_false_iff in E as [E%Z.ltb_ge|E%Z.ltb_ge].
      * right. exists kv. rewrite Hz; [done|]. subst used. destruct current as [|x l]; [done|].
        rewrite listing_cost_cons in *. pose proof (entry_cost_pos x).
        pose proof (listing_cost_nonneg l). lia.
      * left. rewrite listing_cost_app, listing_cost_cons. change (listing_cost []) with 0. lia.
    + split_and!; [|done|done]. by rewrite H1, <-!app_assoc.
Qed.

Lemma chunk_ae_listing_spec es budget : 0 <= budget < u64_max ->
  concat (chunk_ae_listing es budget) = es /\ Forall (slice_ok budget) (chunk_ae_listing es budget) /\
  chunk_ae_listing es budget <> [].
Proof.
  intros Hb. unfold chunk_ae_listing. destruct (listing_fits es budget) eqn:E.
  - split_and!; [cbn; by rewrite app_nil_r| |done]. apply Forall_singleton. left.
    pose proof (listing_fits_cost budget es ltac:(lia) 0 ltac:(lia) E). lia.
  - pose proof (listing_steps budget es [] [] 0 eq_refl ltac:(done) ltac:(done) ltac:(by right)) as H.
    destruct (foldl _ _ _) as [[c cur] u]. destruct H as (H1 & H2 & H3). rewrite concat_app. cbn [concat app].
    split_and!; [by rewrite app_nil_r|apply Forall_app; split; [done|]; apply Forall_singleton|by destruct c].
    destruct H3 as [H3| ->]; [done|]. left. change (listing_cost []) with 0. lia.
Qed.

Lemma merge_bucket_chunk_new out bucket es : bucket ∉ out.*1 -> merge_bucket_chunk out bucket es = out ++ [(bucket, es)].
Proof.
  induction out as [|[id ex] out IH]; cbn; [done|]. rewrite not_elem_of_cons. intros [Hne Hn].
  rewrite (proj2 (Z.eqb_neq id bucket)) by congruence. by rewrite IH.
Qed.
Lemma merge_bucket_chunk_last out bucket ex es : bucket ∉ out.*1 ->
  merge_bucket_chunk (out ++ [(bucket, ex)]) bucket es = out ++ [(bucket, ex ++ es)].
Proof.
  induction out as [|[id ex'] out IH]; cbn; [by rewrite Z.eqb_refl|]. rewrite not_elem_of_cons. intros [Hne Hn].
  rewrite (proj2 (Z.eqb_neq id bucket)) by congruence. by rewrite IH.
Qed.

Lemma push_slices cache bucket slices : forall out ex, bucket ∉ out.*1 ->
  foldl (fun s m => push_bucket m s) (out ++ [(bucket, ex)])
    ((fun slice => AeBucket cache bucket (key_versions_to_wire slice)) <$> slices) = out ++ [(bucket, ex ++ concat slices)].
Proof.
  induction slices as [|sl slices IH]; intros out ex Hn; cbn; [by rewrite app_nil_r|].
  rewrite wire_key_versions, merge_bucket_chunk_last, IH by done. by rewrite <-app_assoc.
Qed.

Lemma push_listings cache chunked budget listings : 0 <= budget < u64_max -> forall out, NoDup (out.*1 ++ listings.*1) ->
  foldl (fun s m => push_bucket m s) out (ae_entries_replies cache listings chunked budget) = out ++ listings.
Proof.
  intros Hb. induction listings as [|[b es] listings IH]; intros out Hnd; cbn; [by rewrite app_nil_r|].
  rewrite foldl_app. cbn in Hnd. apply NoDup_app in Hnd as (Hno & Hdis & [Hnb Hnl]%NoDup_cons).
  assert (Hb' : b ∉ out.*1) by (intros Hin; apply (Hdis b Hin); by left).
  assert (Hone : foldl (fun s m => push_bucket m s) out ((fun slice => AeBucket cache b (key_versions_to_wire slice))
      <$> (if chunked then chunk_ae_listing es budget else [es])) = out ++ [(b, es)]).
  { destruct chunked; [|cbn; by rewrite wire_key_versions, merge_bucket_chunk_new].
    destruct (chunk_ae_listing_spec es budget Hb) as (Hc & _ & Hne). rewrite <-Hc at 2.
    destruct (chunk_ae_listing es budget) as [|sl slices]; [done|]. cbn.
    by rewrite wire_key_versions, merge_bucket_chunk_new, push_slices. }
  cbn in Hone. rewrite Hone. fold (ae_entries_replies cache listings chunked budget). rewrite IH.
  - by rewrite <-app_assoc.
  - rewrite fmap_app. cbn. rewrite <-app_assoc. apply NoDup_app. split_and!; [done| |by constructor].
    intros x Hx. apply Hdis, Hx.
Qed.

Lemma reqdone_not_in_listings cache chunked budget listings : ReqDone ∉ ae_entries_replies cache listings chunked budget.
Proof.
  unfold ae_entries_replies. intros (be & Hin & _)%list_elem_of_bind. by apply list_elem_of_fmap in Hin as (? & [=] & _).
Qed.

(** A listing survives its cutting into frames. Whatever the budget and whether the peer takes
    slices, the requester of the full listings reads back exactly the listings the responder had,
    one element per bucket in order, entries in order; and every slice of a sliced answer stays
    within the budget or is one entry on its own. *)
Theorem listings_survive_the_wire (cache : Bytes) (listings : list (Z * list KeyVersion)) (chunked : bool) (budget : Z)
    (Hb : 0 <= budget < u64_max) (Hnd : NoDup listings.*1) :
  collect_ae_buckets (Ok <$> ae_entries_replies cache listings chunked budget ++ [ReqDone]) = Ok listings /\
  (chunked = true -> Forall (fun m => exists b es, m = AeBucket cache b (key_versions_to_wire es) /\ slice_ok budget es)
    (ae_entries_replies cache listings chunked budget)).
Proof.
  split.
  - unfold collect_ae_buckets. rewrite collect_replies_all by apply reqdone_not_in_listings. by rewrite push_listings.
  - intros ->. apply Forall_forall. intros m (be & (es & -> & Hes)%list_elem_of_fmap & _)%list_elem_of_bind.
    destruct (chunk_ae_listing_spec be.2 budget Hb) as (_ & Hok & _). rewrite Forall_forall in Hok. eauto.
Qed.

(** *** Load answers *)

Definition loaded_all (msgs : list Msg) : list WireRecord * list (Bytes * Bytes) :=
  (msgs ≫= (fun m => match m with Loaded f _ => f | _ => [] end), msgs ≫= (fun m => match m with Loaded _ u => u | _ => [] end)).
Definition is_loaded (m : Msg) : Prop := match m with Loaded _ _ => True | _ => False end.

Definition lefts (es : list (WireRecord + Bytes * Bytes)) : list WireRecord := omap (fun e => match e with inl r => Some r | _ => None end) es.
Definition rights (es : list (WireRecord + Bytes * Bytes)) : list (Bytes * Bytes) := omap (fun e => match e with inr r => Some r | _ => None end) es.

Lemma loaded_steps budget es : forall replies current used, Forall is_loaded replies ->
  let '(replies', current', used') := foldl (loaded_step budget) (replies, current, used) es in
  Forall is_loaded replies' /\
  (loaded_all replies').1 ++ current'.1 = (loaded_all replies).1 ++ current.1 ++ lefts es /\
  (loaded_all replies').2 ++ current'.2 = (loaded_all replies).2 ++ current.2 ++ rights es.
Proof.
  induction es as [|e es IH]; intros replies [cf cu] used Hr; cbn [foldl].
  { cbn. by rewrite !app_nil_r. }
  unfold loaded_step at 2.
  destruct ((0 <? used) && (budget <? used + loaded_len e)).
  - specialize (IH (replies ++ [Loaded cf cu]) (match e with inl rec => ([rec], []) | inr kv => ([], [kv]) end) (0 + loaded_len e)).
    cbn. destruct e as [rec|kv]; cbn in IH |- *; (destruct (foldl _ _ _) as [[r' c'] u']; destruct IH as (H1 & H2 & H3);
      [by apply Forall_app; split; [done|apply Forall_singleton]|]; split_and!; [done|rewrite H2|rewrite H3]);
      rewrite bind_app; cbn; by rewrite ?app_nil_r, <-?app_assoc.
  - specialize (IH replies (match e with inl rec => (cf ++ [rec], cu) | inr kv => (cf, cu ++ [kv]) end) (used + loaded_len e) Hr).
    cbn. destruct e as [rec|kv]; cbn in IH |- *; (destruct (foldl _ _ _) as [[r' c'] u']; destruct IH as (H1 & H2 & H3);
      split_and!; [done|rewrite H2|rewrite H3]); by rewrite <-?app_assoc.
Qed.

Lemma note_loads msgs : forall f u, Forall is_loaded msgs ->
  foldl (fun s m => note_load m s) (Some (LoLoaded f u)) msgs = Some (LoLoaded (f ++ (loaded_all msgs).1) (u ++ (loaded_all msgs).2)).
Proof.
  induction msgs as [|m msgs IH]; intros f u Hm; cbn; [by rewrite !app_nil_r|]. apply Forall_cons in Hm as [Hm Hms].
  destruct m; try done. cbn. rewrite IH by done. cbn. by rewrite <-!app_assoc.
Qed.

Lemma lefts_rights (found : list WireRecord) (uncached : list (Bytes * Bytes)) :
  lefts ((inl <$> found) ++ (inr <$> uncached)) = found /\ rights ((inl <$> found) ++ (inr <$> uncached)) = uncached.
Proof.
  unfold lefts, rights. rewrite !omap_app. split.
  - rewrite <-(app_nil_r found) at 2. f_equal; [induction found as [|x l IH]; cbn; [done|]; f_equal; exact IH|by induction uncached].
  - rewrite <-(app_nil_l uncached) at 2. f_equal; [by induction found|induction uncached as [|x l IH]; cbn; [done|]; f_equal; exact IH].
Qed.

Lemma loaded_replies_spec found uncached budget :
  Forall is_loaded (loaded_replies found uncached budget) /\ loaded_replies found uncached budget <> [] /\
  loaded_all (loaded_replies found uncached budget) = (found, uncached).
Proof.
  unfold loaded_replies. pose proof (loaded_steps budget ((inl <$> found) ++ (inr <$> uncached)) [] ([], []) 0 ltac:(done)) as H.
  destruct (foldl _ _ _) as [[r [cf cu]] u]. destruct H as (H1 & H2 & H3).
  destruct (lefts_rights found uncached) as [Hl Hr]. cbn in H2, H3. rewrite Hl in H2. rewrite Hr in H3. cbn [fst snd].
  destruct (bool_decide (r = []) || negb (bool_decide (cf = [])) || negb (bool_decide (cu = []))) eqn:E.
  - split_and!; [apply Forall_app; by split; [|apply Forall_singleton]|by destruct r|].
    unfold loaded_all. rewrite !bind_app. cbn. rewrite !app_nil_r. by f_equal.
  - rewrite !orb_false_iff, !negb_false_iff, !bool_decide_eq_true, bool_decide_eq_false in E. destruct E as [[Hne ->] ->].
    rewrite app_nil_r in H2, H3. split_and!; [done|done|]. unfold loaded_all. by f_equal.
Qed.

(** An answer to a load survives its cutting into frames: the requester reads back exactly the
    records found and the values not cached, in order, the empty answer included, and a failure or
    a refusal comes back as itself. *)
Theorem load_answers_survive_the_wire (cache : Bytes) (answer : LoadServe) :
  collect_load_reply (Ok <$> serve_load cache answer) =
  Ok (match answer with
      | LsLoaded found uncached => LoLoaded found uncached
      | LsFailed message => LoFailed message
      | LsUnavailable => LoDeclined
      end).
Proof.
  destruct answer as [found uncached|message|]; [|done..]. unfold serve_load, collect_load_reply.
  destruct (loaded_replies_spec found uncached LOADED_REPLY_BUDGET) as (Hl & Hne & Hall).
  rewrite collect_replies_all.
  - destruct (loaded_replies _ _ _) as [|m msgs]; [done|]. apply Forall_cons in Hl as [Hm Hms]. destruct m; try done.
    cbn [foldl note_load]. rewrite note_loads by done. cbn [result_bind ok_or]. by injection Hall as <- <-.
  - rewrite Forall_forall in Hl. intros Hin. by apply (Hl ReqDone).
Qed.

(** ** Sorted without repeats *)

Definition key_lt {T} (key : T -> Z) (x y : T) : Prop := key x < key y.

Lemma key_lt_unique {T} (key : T -> Z) (l l' : list T) : StronglySorted (key_lt key) l -> StronglySorted (key_lt key) l' ->
  (forall x, x ∈ l <-> x ∈ l') -> l = l'.
Proof.
  intros Hl. revert l'. induction Hl as [|x l Hl IH Hx]; intros l' Hl' He.
  { destruct l' as [|y l']; [done|]. exfalso. eapply not_elem_of_nil, (He y). by left. }
  destruct Hl' as [|y l' Hl' Hy]; [exfalso; eapply not_elem_of_nil, (He x); by left|].
  rewrite Forall_forall in Hx, Hy. assert (x = y) as <-.
  { destruct (proj1 (elem_of_cons _ _ _) (proj1 (He x) ltac:(by left))) as [?|Hxy]; [done|].
    destruct (proj1 (elem_of_cons _ _ _) (proj2 (He y) ltac:(by left))) as [?|Hyx]; [done|].
    pose proof (Hx _ Hyx). pose proof (Hy _ Hxy). unfold key_lt in *. lia. }
  f_equal. apply IH; [done|]. intros z. specialize (He z). rewrite !elem_of_cons in He. split; intros Hz.
  - destruct (proj1 He (or_intror Hz)) as [->|?]; [|done]. pose proof (Hx _ Hz). unfold key_lt in *. lia.
  - destruct (proj2 He (or_intror Hz)) as [->|?]; [|done]. pose proof (Hy _ Hz). unfold key_lt in *. lia.
Qed.

Lemma key_lt_nodup {T} (key : T -> Z) (l : list T) : StronglySorted (key_lt key) l -> NoDup l.
Proof.
  induction 1 as [|x l Hl IH Hx]; constructor; [|done]. rewrite Forall_forall in Hx. intros Hin.
  pose proof (Hx _ Hin). unfold key_lt in *. lia.
Qed.

#[global] Instance key_le_trans {T} (key : T -> Z) : Transitive (key_le key).
Proof. unfold key_le. intros x y z. lia. Qed.
#[global] Instance key_le_total {T} (key : T -> Z) : Total (key_le key).
Proof. unfold key_le. intros x y. lia. Qed.

Lemma sort_by_elem {T} (key : T -> Z) (l : list T) x : x ∈ sort_by key l <-> x ∈ l.
Proof. unfold sort_by. by rewrite merge_sort_Permutation. Qed.

Lemma dedup_eq_elem {T} `{EqDecision T} (l : list T) x : x ∈ dedup_eq l <-> x ∈ l.
Proof.
  induction l as [|y [|z l] IH]; [done|done|]. cbn [dedup_eq]. case_decide as E; subst.
  - rewrite IH, !elem_of_cons. tauto.
  - rewrite !(elem_of_cons _ x y), IH. done.
Qed.

Lemma dedup_eq_sorted {T} `{EqDecision T} (key : T -> Z) (l : list T) :
  (forall x y, x ∈ l -> y ∈ l -> key x = key y -> x = y) -> StronglySorted (key_le key) l ->
  StronglySorted (key_lt key) (dedup_eq l).
Proof.
  intros Hinj Hs. induction Hs as [|x l Hs IH Hx]; [constructor|].
  assert (IH' : StronglySorted (key_lt key) (dedup_eq l)) by (apply IH; intros; apply Hinj; try done; by right).
  destruct l as [|y l]; [by repeat constructor|]. cbn [dedup_eq]. case_decide as E; [done|]. constructor; [done|].
  apply Forall_forall. intros z Hz. change (z ∈ dedup_eq (y :: l)) in Hz. apply (proj1 (dedup_eq_elem (y :: l) z)) in Hz. rewrite Forall_forall in Hx. pose proof (Hx z Hz) as Hle.
  unfold key_le, key_lt in *. destruct (decide (key x = key z)) as [He|]; [|lia].
  pose proof (Hinj x z ltac:(by left) ltac:(by right) He) as ->.
  apply StronglySorted_inv in Hs as [_ Hy]. rewrite Forall_forall in Hy.
  apply elem_of_cons in Hz as [Hz|Hz]; [done|]. pose proof (Hy _ Hz). pose proof (Hx y ltac:(by left)). unfold key_le in *.
  exfalso. apply E. apply Hinj; [by left|by right; left|lia].
Qed.

Lemma dedup_sorted_spec {T} `{EqDecision T} (key : T -> Z) (l : list T) :
  (forall x y, x ∈ l -> y ∈ l -> key x = key y -> x = y) ->
  StronglySorted (key_lt key) (dedup_sorted key l) /\ forall x, x ∈ dedup_sorted key l <-> x ∈ l.
Proof.
  intros Hinj. unfold dedup_sorted. split; [|intros x; by rewrite dedup_eq_elem, sort_by_elem].
  apply dedup_eq_sorted; [|apply (StronglySorted_merge_sort (key_le key))].
  intros x y Hx%sort_by_elem Hy%sort_by_elem. by apply Hinj.
Qed.

Lemma dedup_sorted_id {T} `{EqDecision T} (key : T -> Z) (l : list T) : StronglySorted (key_lt key) l -> dedup_sorted key l = l.
Proof.
  intros Hs.
  assert (Hinj : forall x y, x ∈ l -> y ∈ l -> key x = key y -> x = y).
  { induction Hs as [|a l Hs IH Ha]; intros x y Hx Hy He; [by apply not_elem_of_nil in Hx|]. rewrite Forall_forall in Ha.
    apply elem_of_cons in Hx as [->|Hx]; apply elem_of_cons in Hy as [->|Hy]; [done|..];
      [pose proof (Ha _ Hy)|pose proof (Ha _ Hx)|by apply IH]; unfold key_lt in *; lia. }
  destruct (dedup_sorted_spec key l Hinj) as [H1 H2]. by apply (key_lt_unique key).
Qed.

Lemma sort_by_strict {T} (key : T -> Z) (l : list T) : NoDup (key <$> l) -> StronglySorted (key_lt key) (sort_by key l).
Proof.
  intros Hnd. assert (Hp : NoDup (key <$> sort_by key l)) by (unfold sort_by; by rewrite merge_sort_Permutation).
  assert (Hs : StronglySorted (key_le key) (sort_by key l)) by apply (StronglySorted_merge_sort (key_le key)).
  induction Hs as [|x l' Hs IH Hx]; [constructor|]. apply NoDup_cons in Hp as [Hn Hp]. constructor; [by apply IH|].
  rewrite Forall_forall in Hx |- *. intros y Hy. pose proof (Hx _ Hy). unfold key_le, key_lt in *.
  assert (key x <> key y); [|lia]. intros He. apply Hn. apply list_elem_of_fmap. by exists y.
Qed.

(** ** The donor's loop *)

Lemma ids_ahead_pre b pre rest : b ∉ pre -> ids_ahead b (pre ++ b :: rest) = pre.
Proof.
  induction pre as [|x pre IH]; cbn; [by rewrite Z.eqb_refl|]. rewrite not_elem_of_cons. intros [Hne Hn].
  rewrite (proj2 (Z.eqb_neq x b)) by congruence. by rewrite IH.
Qed.

Lemma st_loop_own cache id rest cs more :
  st_loop true cache (id :: rest) (((fun c => (id, c)) <$> cs) ++ more) =
  ((fun recs => StBucketChunk cache recs false) <$> cs) ++ st_loop true cache (id :: rest) more.
Proof. induction cs as [|c cs IH]; cbn [fmap list_fmap app st_loop]; [done|]. cbn [ids_ahead]. rewrite Z.eqb_refl. cbn. by rewrite IH. Qed.

(** The reply to one id: its frames, then its mark. *)
Definition id_reply (cache : Bytes) (frames : Z -> list (list WireRecord)) (id : Z) : list Msg :=
  ((fun recs => StBucketChunk cache recs false) <$> frames id) ++ [StBucketDone cache id].

Lemma st_loop_spec cache frames order : forall pre, NoDup (pre ++ order) ->
  st_loop true cache (pre ++ order) (order ≫= (fun id => (fun c => (id, c)) <$> frames id)) =
  (StBucketDone cache <$> pre) ++ (order ≫= id_reply cache frames) ++ [StBucketChunk cache [] true].
Proof.
  induction order as [|id order IH]; intros pre Hnd; [cbn; by rewrite !app_nil_r|].
  rewrite !bind_cons. unfold id_reply at 1. apply NoDup_app in Hnd as (Hp & Hdis & [Hid Ho]%NoDup_cons).
  assert (Hpre : id ∉ pre) by (intros Hin; apply (Hdis id Hin); by left).
  assert (Hone : NoDup ([id] ++ order)) by (by constructor).
  destruct (frames id) as [|c cs] eqn:Ec.
  - cbn [fmap list_fmap app]. change (pre ++ id :: order) with (pre ++ [id] ++ order). rewrite app_assoc.
    rewrite (IH (pre ++ [id])); [by rewrite fmap_app, <-app_assoc|]. rewrite <-app_assoc. apply NoDup_app. split_and!; [done| |done].
    intros x Hx. by apply Hdis.
  - cbn [fmap list_fmap app st_loop]. rewrite ids_ahead_pre by done. rewrite drop_app_length, st_loop_own, <-!app_assoc.
    f_equal. f_equal. f_equal. exact (IH [id] Hone).
Qed.

(** ** The requester's stream *)

Definition acked (outs : list AckOut) : list Z := omap (fun o => match o with AckFed b => Some b | AckFlush => None end) outs.

(** Whether every ack fed has been flushed. *)
Definition all_flushed (outs : list AckOut) : Prop := outs = [] \/ last outs = Some AckFlush.

Lemma stream_chunks cache cs : Forall (fun c => c <> []) cs -> forall unflushed rest,
  bucket_stream true unflushed (Ok <$> ((fun recs => StBucketChunk cache recs false) <$> cs) ++ rest) =
  let more := bucket_stream true (match cs with [] => unflushed | _ => 0 end) (Ok <$> rest) in
  ((Ok <$> (BsChunk <$> cs)) ++ more.1, (match cs with [] => [] | _ => flush_acks unflushed end) ++ more.2).
Proof.
  induction 1 as [|c cs Hc Hcs IH]; intros u rest; cbn; [by destruct (bucket_stream _ _ _)|].
  rewrite IH. destruct c; [done|]. cbn. destruct cs; done.
Qed.

Lemma acked_app o o' : acked (o ++ o') = acked o ++ acked o'.
Proof. apply omap_app. Qed.
Lemma acked_flush u : acked (flush_acks u) = [].
Proof. unfold flush_acks. by destruct (0 <? u). Qed.
Lemma acked_feed b u : acked (feed_ack true b u).1 = [b].
Proof. unfold feed_ack. by destruct (ACK_FLUSH <=? u + 1). Qed.

Lemma stream_replies cache frames order : (forall id, id ∈ order -> Forall (fun c => c <> []) (frames id)) -> forall unflushed,
  let out := bucket_stream true unflushed (Ok <$> (order ≫= id_reply cache frames) ++ [StBucketChunk cache [] true]) in
  out.1 = Ok <$> (order ≫= (fun id => (BsChunk <$> frames id) ++ [BsBucketDone id])) /\ acked out.2 = order.
Proof.
  induction order as [|id order IH]; intros Hne u.
  { cbn. rewrite app_nil_r. by rewrite acked_flush. }
  rewrite !bind_cons. unfold id_reply at 1. rewrite <-!app_assoc. cbn zeta.
  rewrite stream_chunks by (apply Hne; by left). cbn [app]. rewrite fmap_cons. cbn [bucket_stream].
  set (u0 := match frames id with [] => u | _ => 0 end). pose proof (acked_feed id u0) as Hf.
  destruct (feed_ack true id u0) as [outs u1]. cbn [fst snd] in Hf |- *.
  destruct (IH ltac:(intros; apply Hne; by right) u1) as [H1 H2]. cbn zeta in H1, H2. split.
  - rewrite H1, !fmap_app. cbn. by rewrite <-?app_assoc.
  - rewrite !acked_app, Hf, H2. cbn. destruct (frames id); cbn; by rewrite ?acked_flush.
Qed.

(** ** What a donor streams *)

Lemma chunk_by_concat {A} (same : A -> A -> bool) (l : list A) : concat (chunk_by same l) = l.
Proof.
  induction l as [|x l IH]; [done|]. cbn. destruct (chunk_by same l) as [|[|y run] runs]; cbn in *; subst; [done|done|].
  by destruct (same x y).
Qed.

Lemma chunk_by_related {A} (R : relation A) (same : A -> A -> bool) (l : list A) : Transitive R -> Symmetric R -> Reflexive R ->
  (forall x y, same x y = true -> R x y) -> Forall (fun run => forall x y, x ∈ run -> y ∈ run -> R x y) (chunk_by same l).
Proof.
  intros Ht Hs Hr HR. induction l as [|x l IH]; [constructor|]. cbn.
  assert (H1 : forall a b, a ∈ [x] -> b ∈ [x] -> R a b) by (intros a b ->%list_elem_of_singleton ->%list_elem_of_singleton; done).
  destruct (chunk_by same l) as [|[|y run] runs]; [by constructor|by constructor|].
  destruct (same x y) eqn:E; [|by constructor]. apply Forall_cons in IH as [Hrun Hruns]. constructor; [|done].
  assert (Hx : forall b, b ∈ y :: run -> R x b) by (intros b Hb; transitivity y; [by apply HR|apply Hrun; [by left|done]]).
  intros a b Ha Hb. apply elem_of_cons in Ha as [->|Ha]; apply elem_of_cons in Hb as [->|Hb]; [done|by apply Hx|symmetry; by apply Hx|by apply Hrun].
Qed.

Lemma split_unframeable_kept cl records : forall acc,
  (foldl (split_step cl) acc records).1 = acc.1 ++ filter (fun r => fits_frame cl r = true) records.
Proof.
  induction records as [|r rs IH]; intros acc; cbn [foldl]; [by rewrite app_nil_r|]. rewrite IH. unfold split_step.
  rewrite filter_cons. destruct (fits_frame cl r) eqn:E; unfold fits_frame in E; rewrite E; cbn.
  - by rewrite decide_True, <-app_assoc by done.
  - by rewrite decide_False by done.
Qed.
Lemma skip_unframeable_filter {V} `{PostcardU32} (s : ServeShard V) records :
  skip_unframeable s records = filter (fun r => fits_frame (blen (sv_name s)) r = true) records.
Proof. unfold skip_unframeable, split_unframeable. by rewrite split_unframeable_kept. Qed.

Lemma sub_batches_concat cb keys : concat (st_bucket_key_sub_batches keys cb) = keys.
Proof.
  assert (H : forall batches current size,
    let '(b', c', _) := foldl (sub_batch_step cb) (batches, current, size) keys in concat b' ++ c' = concat batches ++ current ++ keys).
  { induction keys as [|k keys IH]; intros b c z; cbn [foldl]; [by rewrite app_nil_r|]. unfold sub_batch_step at 2.
    destruct (_ && _); [specialize (IH (b ++ [c]) [k] (0 + (Z.of_nat RECORD_HEADER_LEN + blen k)))
                       |specialize (IH b (c ++ [k]) (z + (Z.of_nat RECORD_HEADER_LEN + blen k)))];
      cbn [app] in *; destruct (foldl _ _ _) as [[b' c'] z']; rewrite IH; rewrite ?concat_app; cbn; by rewrite ?app_nil_r, <-?app_assoc. }
  unfold st_bucket_key_sub_batches. specialize (H [] [] 0). destruct (foldl _ _ _) as [[b' c'] z']. cbn in H.
  case_bool_decide as E; [by rewrite E, app_nil_r in H|]. rewrite concat_app. cbn. by rewrite app_nil_r.
Qed.

Section Donor.
Context {PU : PostcardU32} {HS : Hashing} {V : Type} {VC : ValueCodec V} {PUL : PostcardU32Laws}.

(** The frames a list of keys is streamed in. *)
Definition key_frames (s : ServeShard V) (chunk_bytes now_ms : Z) (keys : list Bytes) : list (list WireRecord) :=
  st_bucket_key_sub_batches keys chunk_bytes ≫= (fun batch =>
  chunk_records_for_snapshot (skip_unframeable s (records_for s batch now_ms))).

Lemma records_for_app (s : ServeShard V) ks ks' now : records_for s (ks ++ ks') now = records_for s ks now ++ records_for s ks' now.
Proof. unfold records_for. destruct (sv_residency s); by rewrite ?filter_app, omap_app. Qed.

Lemma key_frames_concat (s : ServeShard V) cb now keys :
  concat (key_frames s cb now keys) = skip_unframeable s (records_for s keys now) /\ Forall (fun c => c <> []) (key_frames s cb now keys).
Proof.
  unfold key_frames. split.
  - rewrite <-(sub_batches_concat cb keys) at 2. induction (st_bucket_key_sub_batches keys cb) as [|b bs IH]; cbn.
    { unfold records_for. destruct (sv_residency s); cbn; by rewrite ?filter_nil. }
    rewrite concat_app, IH, records_for_app, !skip_unframeable_filter, filter_app. f_equal. apply chunks_spec.
  - apply Forall_forall. intros c (b & Hc & _)%list_elem_of_bind.
    destruct (chunks_spec (skip_unframeable s (records_for s b now))) as [Hok _]. rewrite Forall_forall in Hok. by apply Hok in Hc as [? _].
Qed.

Lemma id_chunks_assoc (s : ServeShard V) g ids cb now :
  id_chunks s g ids cb now =
  (bucket_runs g ids ≫= id_keys s g now) ≫= (fun ik => (fun c => (ik.1, c)) <$> key_frames s cb now ik.2).
Proof.
  unfold id_chunks. induction (bucket_runs g ids) as [|run runs IH]; [done|]. rewrite !bind_cons, bind_app, IH. f_equal.
  induction (id_keys s g now run) as [|ik iks IHk]; [done|]. rewrite !bind_cons, IHk. f_equal. unfold key_frames.
  induction (st_bucket_key_sub_batches ik.2 cb) as [|b bs IHb]; [done|]. by rewrite !bind_cons, fmap_app, IHb.
Qed.

(** An association over a list's ids, in the list's order, is a function on them. *)
Lemma assoc_as_function {A B} (d : A) (h : Z -> A -> list B) (assoc : list (Z * A)) : NoDup assoc.*1 ->
  exists f : Z -> A, (forall id, id ∈ assoc.*1 -> (id, f id) ∈ assoc) /\
    assoc.*1 ≫= (fun id => h id (f id)) = assoc ≫= (fun ia => h ia.1 ia.2).
Proof.
  induction assoc as [|[id a] assoc IH]; intros Hnd; [exists (fun _ => d); split; [intros id Hid; by apply not_elem_of_nil in Hid|done]|].
  cbn in Hnd. apply NoDup_cons in Hnd as [Hid Hnd]. destruct (IH Hnd) as (f & H1 & H2).
  exists (fun i => if decide (i = id) then a else f i). split.
  - cbn. intros i [->|Hi]%elem_of_cons; [rewrite decide_True by done; by left|].
    rewrite decide_False by (intros ->; done). right. by apply H1.
  - cbn [fmap list_fmap fst]. rewrite !bind_cons. rewrite decide_True by done. cbn [fst snd]. f_equal. rewrite <-H2.
    clear -Hid. induction (assoc.*1) as [|j order IH]; [done|]. apply not_elem_of_cons in Hid as [Hne Hid].
    rewrite !bind_cons, (IH Hid). by rewrite decide_False by congruence.
Qed.

Lemma key_lt_inj {T} (key : T -> Z) (l : list T) x y : StronglySorted (key_lt key) l -> x ∈ l -> y ∈ l -> key x = key y -> x = y.
Proof.
  induction 1 as [|a l Hs IH Ha]; intros Hx Hy He; [by apply not_elem_of_nil in Hx|]. rewrite Forall_forall in Ha.
  apply elem_of_cons in Hx as [->|Hx]; apply elem_of_cons in Hy as [->|Hy]; [done|..];
    [pose proof (Ha _ Hy)|pose proof (Ha _ Hx)|by apply IH]; unfold key_lt in *; lia.
Qed.

Lemma key_lt_fmap {A T} (g : A -> T) (key : T -> Z) (l : list A) :
  StronglySorted (key_lt (fun a => key (g a))) l -> StronglySorted (key_lt key) (g <$> l).
Proof.
  induction 1 as [|a l Hs IH Ha]; cbn; constructor; [done|]. apply Forall_fmap. eapply Forall_impl; [exact Ha|]. done.
Qed.

Lemma backfill_spec {T} `{EqDecision T} (rank : T -> Z) (s : ServeShard V) r wanted isr query :
  sv_residency s = Some r -> StronglySorted (key_lt rank) wanted ->
  let res := filter (fun t => isr r t = true) wanted in
  NoDup (query res).*1 -> (forall t, t ∈ (query res).*1 <-> t ∈ res) ->
  let out := resident_backfill rank s wanted isr query in
  out.*1 = wanted /\ forall t es, (t, es) ∈ out <-> (t, es) ∈ query res \/ t ∈ wanted /\ isr r t = false /\ es = [].
Proof.
  intros Hr Hs res Hnd Hq. unfold resident_backfill. rewrite Hr, dedup_sorted_id by done. fold res.
  set (L := query res ++ _).
  assert (HL : forall t es, (t, es) ∈ L <-> (t, es) ∈ query res \/ t ∈ wanted /\ isr r t = false /\ es = []).
  { intros t es. unfold L. rewrite elem_of_app, list_elem_of_fmap. split; (intros [?|Hx]; [by left|right]).
    - destruct Hx as (t' & [= -> ->] & Ht%list_elem_of_filter). tauto.
    - destruct Hx as (? & ? & ->). exists t. split; [done|]. by apply list_elem_of_filter. }
  assert (HL1 : forall t, t ∈ L.*1 <-> t ∈ wanted).
  { intros t. unfold L. rewrite fmap_app, elem_of_app, Hq, <-list_fmap_compose. unfold res.
    rewrite list_elem_of_filter, list_elem_of_fmap. split.
    - intros [[? ?]|(t' & -> & Ht%list_elem_of_filter)]; [done|]. apply Ht.
    - intros Ht. destruct (isr r t) eqn:E; [by left|]. right. exists t. split; [done|]. by apply list_elem_of_filter. }
  assert (HLn : NoDup L.*1).
  { unfold L. rewrite fmap_app, <-list_fmap_compose. apply NoDup_app. split_and!; [done| |].
    - intros t Ht%Hq (t' & -> & Ht')%list_elem_of_fmap. apply list_elem_of_filter in Ht as [Ht _], Ht' as [Ht' _]. cbn in *. congruence.
    - rewrite list_fmap_id. by apply NoDup_filter, (key_lt_nodup rank). }
  cbn zeta. split; [|intros t es; by rewrite sort_by_elem].
  apply (key_lt_unique rank); [|done|intros t; rewrite <-HL1, !list_elem_of_fmap; split; intros (x & -> & Hx); exists x; (split; [done|]); [by rewrite sort_by_elem in Hx|by rewrite sort_by_elem]].
  apply key_lt_fmap, sort_by_strict. change (NoDup ((rank ∘ fst) <$> L)). rewrite list_fmap_compose. apply NoDup_fmap_2_strong; [|done].
  intros x y Hx%HL1 Hy%HL1. by apply (key_lt_inj rank wanted).
Qed.

(** The wire id of a key, and whether an id's entries are served at all. *)
Definition id_of_key (g : Granularity) (k : Bytes) : Z :=
  match g with Ownership.Bucket => Z.of_nat (bucket_of_key k) | Ownership.Part => pid_of_key k end.
Definition id_resident (g : Granularity) (r : OwnershipView * ResidencySet) (id : Z) : bool :=
  match g with Ownership.Bucket => is_resident_bucket r id | Ownership.Part => is_resident_part r id end.

(** The keys of one id: each key of it that a read returns, once, if the id is resident. *)
Definition keys_ok (s : ServeShard V) r g now (ik : Z * list Bytes) : Prop :=
  NoDup ik.2 /\ forall k, k ∈ ik.2 <-> is_Some (record_for (sv_engine s) k now) /\ id_of_key g k = ik.1 /\ id_resident g r ik.1 = true.

Lemma pid_of_key_parts k : Pid.bucket (pid_of_key k) = Z.of_nat (bucket_of_key k) /\ Pid.part (pid_of_key k) = part_of_key k.
Proof.
  unfold pid_of_key, bucket_of_key, part_of_key, hash_key_bytes. destruct (Pid.from_hash_slots (xxh3_64 k)) as [-> ->].
  split; [|done]. pose proof (stripe_index_range (xxh3_64 k)). lia.
Qed.

Lemma key_versions_keys (kvs : list KeyVersion) k : k ∈ kv_key <$> kvs <-> exists v, {| kv_key := k; kv_version := v |} ∈ kvs.
Proof.
  rewrite list_elem_of_fmap. split; [intros ([k' v] & -> & H); eauto|intros [v H]; by exists {| kv_key := k; kv_version := v |}].
Qed.

Lemma collect_buckets_keys (e : Engine V) l now : Forall (fun b => b < BUCKET_COUNT) l -> (collect_buckets e l now).*1 = l.
Proof.
  unfold collect_buckets. induction 1 as [|b l Hb Hl IH]; [done|]. rewrite filter_cons_True by done. cbn. f_equal. exact IH.
Qed.

Lemma bucket_keys_ok (s : ServeShard V) r b now : engine_inv (sv_engine s) -> sv_residency s = Some r -> 0 <= b < BUCKET_COUNT ->
  exists es, entries_for_buckets s [b] now = [(b, es)] /\ keys_ok s r Ownership.Bucket now (b, kv_key <$> es).
Proof.
  intros He Hr Hb. destruct (backfill_spec id s r [b] is_resident_bucket (fun res => collect_buckets (sv_engine s) res now) Hr) as [H1 H2].
  { by repeat constructor. }
  1,2: rewrite collect_buckets_keys by (apply Forall_forall; intros x [_ ->%list_elem_of_singleton]%list_elem_of_filter; lia).
  1: apply NoDup_filter, NoDup_singleton. 1: done.
  fold (entries_for_buckets s [b] now) in H1, H2. destruct (entries_for_buckets s [b] now) as [|[b' es] [|]]; try done.
  injection H1 as ->. exists es. split; [done|]. specialize (H2 b es). rewrite list_elem_of_singleton in H2.
  destruct (proj1 H2 eq_refl) as [Hin|(_ & Hres & ->)].
  - cbn beta in Hin. unfold collect_buckets in Hin. apply list_elem_of_fmap in Hin as (b2 & [= <- ->] & [Hlt [Hres _]%list_elem_of_filter]%list_elem_of_filter).
    destruct (lookup_lt_is_Some_2 (stripes (sv_engine s)) (Z.to_nat b)) as [st Hst]; [rewrite (ei_stripes _ He); lia|].
    unfold stripe_at. rewrite Hst. cbn [default]. split; cbn [fst snd].
    + rewrite <-list_fmap_compose. exact (listing_nodup (sv_engine s) now _ st He Hst).
    + intros k. rewrite key_versions_keys. split.
      * intros [v ([k' v'] & [= -> ->] & Hin)%list_elem_of_fmap].
        apply (listing_exact _ now _ _ _ _ He Hst) in Hin as [Hv Hk]. destruct (record_for _ _ _); [|done]. split_and!; [eauto|cbn; lia|done].
      * intros ([rec Hrec] & Hk & _). exists (wr_ver rec). apply list_elem_of_fmap. exists (k, wr_ver rec). split; [done|].
        apply (listing_exact _ now _ _ _ _ He Hst). rewrite Hrec. split; [done|]. cbn in Hk. lia.
  - split; [by apply NoDup_nil|]. intros k. cbn. rewrite Hres. split; [intros Hx; by apply not_elem_of_nil in Hx|by intros (_ & _ & ?)].
Qed.

Definition valid_id (g : Granularity) (id : Z) : Prop :=
  match g with Ownership.Bucket => 0 <= id < BUCKET_COUNT | Ownership.Part => is_u16 id end.

Lemma bucket_part_inv id : is_u16 id -> Pid.of_bucket_part (Pid.bucket_part id) = id.
Proof. apply Pid.new_bucket_part. Qed.

Lemma pid_ranges id : is_u16 id -> 0 <= Pid.bucket id < BUCKET_COUNT /\ 0 <= Pid.part id < PART_COUNT.
Proof. intros Hid. rewrite Pid.bucket_mod, Pid.part_div. unfold BUCKET_COUNT, PART_COUNT. dlia. Qed.

Lemma part_run_sorted run : Forall is_u16 run -> StronglySorted (key_lt (id_rank Ownership.Part)) run ->
  StronglySorted (key_lt bp_rank) (Pid.bucket_part <$> run).
Proof.
  intros Hu Hs. induction Hs as [|x run Hs IH Hx]; cbn; [constructor|]. apply Forall_cons in Hu as [Hux Hu].
  constructor; [by apply IH|]. apply Forall_fmap. rewrite Forall_forall in Hx, Hu |- *. intros y Hy. pose proof (Hx _ Hy) as Hlt.
  pose proof (pid_ranges _ Hux). pose proof (pid_ranges _ (Hu _ Hy)).
  unfold key_lt, id_rank, bp_rank, PART_COUNT in *. cbn in *. lia.
Qed.

Lemma part_listed_ok (s : ServeShard V) r run now : engine_inv (sv_engine s) -> sv_residency s = Some r ->
  Forall is_u16 run -> StronglySorted (key_lt (id_rank Ownership.Part)) run ->
  (id_listed s Ownership.Part now run).*1 = run /\
  Forall (fun ie => keys_ok s r Ownership.Part now (ie.1, kv_key <$> ie.2)) (id_listed s Ownership.Part now run).
Proof.
  intros He Hr Hu Hs. set (isr := fun r bp => is_resident_part r (Pid.of_bucket_part bp)).
  set (res := filter (fun t => isr r t = true) (Pid.bucket_part <$> run)).
  assert (Hbp : forall bp, bp ∈ Pid.bucket_part <$> run -> 0 <= bp_bucket bp < BUCKET_COUNT /\ 0 <= bp_part bp < PART_COUNT /\
    Pid.bucket_part (Pid.of_bucket_part bp) = bp).
  { intros bp (id & -> & Hid)%list_elem_of_fmap. rewrite Forall_forall in Hu. destruct (pid_ranges id (Hu _ Hid)).
    rewrite bucket_part_inv by auto. done. }
  assert (Hres : Forall (fun bp => 0 <= bp_bucket bp /\ 0 <= bp_part bp) res).
  { apply Forall_forall. intros bp [_ Hin]%list_elem_of_filter. destruct (Hbp _ Hin) as (? & ? & _). lia. }
  destruct (collect_parts_exact (sv_engine s) res now He Hres) as (Hnd & Hkeys & Hcont).
  destruct (backfill_spec bp_rank s r (Pid.bucket_part <$> run) isr (fun res => collect_parts (sv_engine s) res now) Hr) as [H1 H2].
  { by apply part_run_sorted. } { exact Hnd. }
  { intros t. change (t ∈ (collect_parts (sv_engine s) res now).*1 <-> t ∈ res). rewrite Hkeys. split; [by intros [? _]|]. intros Ht. split; [done|]. apply list_elem_of_filter in Ht as [_ Ht].
    destruct (Hbp _ Ht) as (? & ? & _). lia. }
  change (resident_backfill bp_rank s (Pid.bucket_part <$> run) isr (fun res => collect_parts (sv_engine s) res now))
    with (entries_for_parts s (Pid.bucket_part <$> run) now) in H1, H2. cbn [id_listed]. split.
  - rewrite <-list_fmap_compose. transitivity (Pid.of_bucket_part <$> (entries_for_parts s (Pid.bucket_part <$> run) now).*1); [by rewrite <-list_fmap_compose|].
    rewrite H1, <-list_fmap_compose. clear -Hu. induction Hu as [|x l Hx Hl IH]; cbn; [done|]. f_equal; [by apply bucket_part_inv|exact IH].
  - apply Forall_fmap, Forall_forall. intros [bp es] Hin. cbn.
    assert (Hbin : bp ∈ Pid.bucket_part <$> run) by (rewrite <-H1; apply list_elem_of_fmap; by exists (bp, es)).
    destruct (Hbp _ Hbin) as (Hb & Hp & Hinv).
    apply H2 in Hin as [Hin|(_ & Hn & ->)].
    + destruct (Hcont bp es Hin) as [Hndk Hk]. split; [done|]. intros k. cbn [fst snd]. rewrite key_versions_keys.
      assert (Hrs : isr r bp = true).
      { assert (Hx : bp ∈ (collect_parts (sv_engine s) res now).*1) by (apply list_elem_of_fmap; by exists (bp, es)).
        apply Hkeys in Hx as [Hx _]. by apply list_elem_of_filter in Hx as [? _]. }
      destruct (pid_of_key_parts k) as [Hpb Hpp].
      assert (Hid : pid_of_key k = Pid.of_bucket_part bp <-> Z.of_nat (bucket_of_key k) = bp_bucket bp /\ part_of_key k = bp_part bp).
      { rewrite <-Hpb, <-Hpp. split.
        - intros ->. rewrite <-Hinv at 2 4. done.
        - intros [E1 E2]. rewrite <-(Pid.new_bucket_part (pid_of_key k)) by apply Pid.from_hash_u16. by rewrite E1, E2. }
      split.
      * intros [v Hv%Hk]. cbn in Hv. destruct Hv as (Hv & Hb' & Hp'). destruct (record_for _ _ _); [|done]. split_and!; [eauto|by apply Hid|done].
      * intros ([rec Hrec] & Hid' & _). exists (wr_ver rec). apply Hk. cbn. rewrite Hrec. split; [done|]. by apply Hid.
    + split; [by apply NoDup_nil|]. intros k. cbn. unfold isr in Hn. rewrite Hn. split; [intros Hx; by apply not_elem_of_nil in Hx|by intros (_ & _ & ?)].
Qed.

Lemma sorted_concat {A} (R : relation A) (ls : list (list A)) : StronglySorted R (concat ls) -> Forall (StronglySorted R) ls.
Proof. induction ls as [|l ls IH]; cbn; [constructor|]. intros (_ & H1 & H2)%StronglySorted_app. constructor; [done|by apply IH]. Qed.

Lemma bucket_runs_single ids : bucket_runs Ownership.Bucket ids = (fun id => [id]) <$> ids.
Proof. unfold bucket_runs. induction ids as [|x l IH]; cbn; [done|]. rewrite IH. by destruct l. Qed.

Lemma runs_listed_ok (s : ServeShard V) r g order now : engine_inv (sv_engine s) -> sv_residency s = Some r ->
  Forall (valid_id g) order -> StronglySorted (key_lt (id_rank g)) order ->
  let L := bucket_runs g order ≫= id_listed s g now in
  L.*1 = order /\ Forall (fun ie => keys_ok s r g now (ie.1, kv_key <$> ie.2)) L.
Proof.
  intros He Hr Hv Hs. destruct g.
  - rewrite bucket_runs_single. clear Hs. induction Hv as [|b order Hb Hv [IH1 IH2]]; [by split|].
    rewrite fmap_cons, bind_cons. cbn zeta. destruct (bucket_keys_ok s r b now He Hr Hb) as (es & Hes & Hok).
    cbn [id_listed]. rewrite Hes. cbn [app]. split; [cbn; f_equal; exact IH1|by constructor].
  - unfold bucket_runs. rewrite <-(chunk_by_concat (same_run Ownership.Part) order) in Hv, Hs |- * at 2.
    apply sorted_concat in Hs. apply Forall_concat in Hv.
    set (runs := chunk_by (same_run Ownership.Part) order) in *. clearbody runs.
    induction runs as [|run runs IH]; [by split|]. apply Forall_cons in Hv as [Hv1 Hv], Hs as [Hs1 Hs].
    destruct (IH Hv Hs) as [IH1 IH2]. destruct (part_listed_ok s r run now He Hr Hv1 Hs1) as [H1 H2].
    rewrite bind_cons. cbn zeta. split; [rewrite fmap_app, H1; cbn [concat]; f_equal; exact IH1|by apply Forall_app].
Qed.

Lemma listed_frames (s : ServeShard V) g cb now run :
  id_keys s g now run ≫= (fun ik => (fun c => (ik.1, c)) <$> key_frames s cb now ik.2) =
  id_listed s g now run ≫= (fun ie => (fun c => (ie.1, c)) <$> key_frames s cb now (kv_key <$> ie.2)).
Proof.
  unfold id_keys. induction (id_listed s g now run) as [|[id es] L IH]; [done|]. rewrite filter_cons, bind_cons, <-IH.
  case_decide as E; [by rewrite fmap_cons, bind_cons|]. by destruct es.
Qed.

Lemma id_chunks_frames (s : ServeShard V) r g order cb now : engine_inv (sv_engine s) -> sv_residency s = Some r ->
  Forall (valid_id g) order -> StronglySorted (key_lt (id_rank g)) order ->
  exists keys : Z -> list Bytes, (forall id, id ∈ order -> keys_ok s r g now (id, keys id)) /\
    id_chunks s g order cb now = order ≫= (fun id => (fun c => (id, c)) <$> key_frames s cb now (keys id)).
Proof.
  intros He Hr Hv Hs. destruct (runs_listed_ok s r g order now He Hr Hv Hs) as [H1 H2].
  set (L := bucket_runs g order ≫= id_listed s g now) in *.
  set (L' := (fun ie : Z * list KeyVersion => (ie.1, kv_key <$> ie.2)) <$> L).
  assert (HL' : L'.*1 = order) by (unfold L'; rewrite <-list_fmap_compose; exact H1).
  destruct (assoc_as_function [] (fun id ks => (fun c => (id, c)) <$> key_frames s cb now ks) L') as (f & Hf & Hb).
  { rewrite HL'. by eapply key_lt_nodup. }
  rewrite HL' in Hf, Hb. exists f. split.
  - intros id Hid. specialize (Hf id Hid). unfold L' in Hf. apply list_elem_of_fmap in Hf as ([id' es] & [= -> E] & Hin).
    rewrite Forall_forall in H2. specialize (H2 _ Hin). cbn in H2. by rewrite E.
  - rewrite Hb. unfold L'. rewrite list_fmap_bind. unfold compose. cbn. rewrite id_chunks_assoc. unfold L.
    clear. induction (bucket_runs g order) as [|run runs IH]; [done|]. rewrite !bind_cons, !bind_app, IH. f_equal. apply listed_frames.
Qed.

Lemma id_rank_inj g x y : valid_id g x -> valid_id g y -> id_rank g x = id_rank g y -> x = y.
Proof.
  destruct g; cbn; [done|]. intros Hx Hy He. pose proof (pid_ranges _ Hx). pose proof (pid_ranges _ Hy).
  rewrite <-(Pid.new_bucket_part x), <-(Pid.new_bucket_part y) by done. unfold PART_COUNT in *. f_equal; lia.
Qed.

Lemma serve_order_spec g ids : Forall (valid_id g) ids ->
  StronglySorted (key_lt (id_rank g)) (serve_order g ids) /\ Forall (valid_id g) (serve_order g ids) /\
  forall id, id ∈ serve_order g ids <-> id ∈ ids.
Proof.
  intros Hv. rewrite Forall_forall in Hv. destruct (dedup_sorted_spec (id_rank g) ids) as [H1 H2].
  { intros x y Hx Hy. by apply id_rank_inj; apply Hv. }
  split_and!; [done|apply Forall_forall; intros id Hid%H2; by apply Hv|done].
Qed.

(** The records of an id: what a read returns for a key of it, in a resident part, that fits a frame. *)
Definition id_record (s : ServeShard V) r g now id (rec : WireRecord) : Prop :=
  record_for (sv_engine s) (wr_key rec) now = Some rec /\ id_of_key g (wr_key rec) = id /\
  is_resident_part r (pid_of_key (wr_key rec)) = true /\ fits_frame (blen (sv_name s)) rec = true.

Lemma records_of_keys (s : ServeShard V) r g now id ks : sv_residency s = Some r -> keys_ok s r g now (id, ks) ->
  (forall p, is_resident_part r p = true -> is_resident_bucket r (Pid.bucket p) = true) ->
  let out := skip_unframeable s (records_for s ks now) in
  NoDup (wr_key <$> out) /\ forall rec, rec ∈ out <-> id_record s r g now id rec.
Proof.
  intros Hr [Hnd Hk] Hmask. cbn [fst snd] in *. rewrite skip_unframeable_filter. unfold records_for. rewrite Hr. cbn zeta.
  set (ks' := filter (fun k => is_resident_part r (pid_of_key k) = true) ks).
  assert (Hkey : forall l, wr_key <$> omap (fun k => record_for (sv_engine s) k now) l `sublist_of` l).
  { induction l as [|k l IH]; cbn; [done|]. destruct (record_for _ k now) as [rec|] eqn:E; cbn; [|by constructor].
    rewrite (record_for_key _ _ _ _ E). by constructor. }
  split.
  - eapply sublist_NoDup; [|apply fmap_sublist, sublist_filter]. eapply sublist_NoDup; [|apply Hkey]. by apply NoDup_filter.
  - intros rec. unfold id_record. rewrite list_elem_of_filter, list_elem_of_omap. split.
    + intros (Hf & k & [Hres Hin]%list_elem_of_filter & Hrec). pose proof (record_for_key _ _ _ _ Hrec) as ->.
      apply Hk in Hin as (_ & Hid & _). done.
    + intros (Hrec & Hid & Hres & Hf). split; [done|]. exists (wr_key rec). split; [|done]. apply list_elem_of_filter. split; [done|].
      apply Hk. split_and!; [eauto|done|]. rewrite <-Hid. destruct g; cbn; [|done].
      destruct (pid_of_key_parts (wr_key rec)) as [<- _]. by apply Hmask.
Qed.


End Donor.

(** ** Only resident entries leave *)

Section Guard.
Context {PU : PostcardU32} {HS : Hashing} {V : Type} {VC : ValueCodec V} {PUL : PostcardU32Laws}.

Lemma records_for_resident (s : ServeShard V) r ks now rec : sv_residency s = Some r -> rec ∈ records_for s ks now ->
  record_for (sv_engine s) (wr_key rec) now = Some rec /\ is_resident_part r (pid_of_key (wr_key rec)) = true.
Proof.
  intros Hr. unfold records_for. rewrite Hr. intros (k & [Hres _]%list_elem_of_filter & Hrec)%list_elem_of_omap.
  by pose proof (record_for_key _ _ _ _ Hrec) as ->.
Qed.

(** A distributed cache never hands a peer an entry of a part it neither owns nor is releasing: not
    in a pull or a snapshot, not in a part listing, and not as the answer to a fetch, which in
    addition it gives only from a part it trusts. What it does hand over is what a read of it returns. *)
Theorem only_resident_entries_are_served (h : Handler V) (cache : Bytes) (s : ServeShard V) r (now : Z)
    (Hs : hd_shards h !! cache = Some s) (Hr : sv_residency s = Some r) (Hinv : engine_inv (sv_engine s)) :
  let served rec := record_for (sv_engine s) (wr_key rec) now = Some rec /\ is_resident_part r (pid_of_key (wr_key rec)) = true in
  (forall ks rec, rec ∈ handler_records_for h cache ks now -> served rec) /\
  (forall rec, rec ∈ concat (snapshot_chunks s now) -> served rec) /\
  (forall parts bp es kv, Forall (fun bp => 0 <= bp_bucket bp /\ 0 <= bp_part bp) parts ->
     (bp, es) ∈ entries_for_parts s parts now -> kv ∈ es ->
     is_resident_part r (Pid.of_bucket_part bp) = true /\ pid_of_key (kv_key kv) = Pid.of_bucket_part bp) /\
  (forall key view_hash rec, handle_fetch h cache key view_hash now = FsFound (Some rec) ->
     wr_key rec = key /\ served rec /\ is_unverified r.2 (pid_of_key key) = false).
Proof.
  intros served. split_and!.
  - intros ks rec. unfold handler_records_for, with_shard. rewrite Hs. cbn. rewrite skip_unframeable_filter.
    intros [_ Hin]%list_elem_of_filter. by apply (records_for_resident s r ks).
  - intros rec. unfold snapshot_chunks. rewrite Hr, (proj2 (chunks_spec _)), skip_unframeable_filter. intros [_ [Hres Hin]%list_elem_of_filter]%list_elem_of_filter.
    split; [by apply snapshot_exact|done].
  - intros parts bp es kv Hp. unfold entries_for_parts, resident_backfill. rewrite Hr. rewrite sort_by_elem, elem_of_app.
    set (res := filter _ (dedup_sorted bp_rank parts)). intros [Hin|(t & [= _ ->] & _)%list_elem_of_fmap] Hkv; [|by apply not_elem_of_nil in Hkv].
    assert (Hres : Forall (fun bp => 0 <= bp_bucket bp /\ 0 <= bp_part bp) res).
    { rewrite Forall_forall in Hp |- *. intros x [_ Hx]%list_elem_of_filter. apply Hp. unfold dedup_sorted in Hx. by rewrite dedup_eq_elem, sort_by_elem in Hx. }
    destruct (collect_parts_exact (sv_engine s) res now Hinv Hres) as (_ & Hkeys & Hcont).
    assert (Hb : bp ∈ (collect_parts (sv_engine s) res now).*1) by (apply list_elem_of_fmap; by exists (bp, es)).
    apply Hkeys in Hb as ([Hrs _]%list_elem_of_filter & _ & _). split; [done|].
    apply (Hcont bp es Hin) in Hkv as (_ & Hb & Hpt). destruct (pid_of_key_parts (kv_key kv)) as [H1 H2].
    rewrite <-(Pid.new_bucket_part (pid_of_key (kv_key kv))) by apply Pid.from_hash_u16. by rewrite H1, H2, Hb, Hpt.
  - intros key vh rec. unfold handle_fetch. rewrite Hs. unfold ownership_view_hash, is_unverified_part, is_cold_part. rewrite Hr. cbn -[records_for].
    destruct (is_unverified r.2 (pid_of_key key)) eqn:Eu; cbn -[records_for]; [by unfold fetch_serve_verdict|].
    destruct (records_for s [key] now) as [|rec' l] eqn:Er; cbn.
    + unfold fetch_serve_verdict. cbn. by destruct (_ =? _), (_ || _).
    + unfold fetch_serve_verdict. cbn. intros [= <-].
      assert (Hin : rec' ∈ records_for s [key] now) by (rewrite Er; by left).
      split_and!; [|by apply (records_for_resident s r [key])|done]. unfold records_for in Hin. rewrite Hr in Hin.
      apply list_elem_of_omap in Hin as (k & [_ ->%list_elem_of_singleton]%list_elem_of_filter & Hrec). by apply record_for_key in Hrec.
Qed.

End Guard.

(** ** Evaluating the statements *)

Definition demo_pid : Z := pid_of_key [1].
Definition demo_residents : OwnershipView * ResidencySet := ({|
  ov_view_hash := 77; ov_self_node := 7; ov_eligible := [7; 9]; ov_k := 1; ov_granularity := Ownership.Part;
  ov_owners := []; ov_stride := 1; ov_owned := PartSet.from_iter [demo_pid]; ov_owns_in_bucket := replicate (Z.to_nat BUCKET_COUNT) true;
  ov_co_owners := [9] |}, residency_new).
Definition demo_shard : ServeShard Bytes := {| sv_name := [99]; sv_engine := small_engine; sv_residency := Some demo_residents |}.
Definition demo_handler : Handler Bytes := {|
  hd_shards := {[ [99] := demo_shard ]}; hd_warm := fun _ => true; hd_part_min_bucket := 4096; hd_sketch_min_bucket := 256;
  hd_sketch_cells := 96; hd_chunk_bytes := 65536 |}.

Lemma listings_survive_the_wire_witness :
  let listings := [(3, [{| kv_key := [1; 2]; kv_version := stamp 5 1 |}; {| kv_key := [4]; kv_version := stamp 6 1 |}]); (9, [])] in
  length (ae_entries_replies [99] listings true 40) = 3%nat /\
  collect_ae_buckets (Ok <$> ae_entries_replies [99] listings true 40 ++ [ReqDone]) = Ok listings.
Proof.
  split; [vm_compute; reflexivity|]. apply (listings_survive_the_wire [99] _ true 40); [unfold u64_max; lia|].
  cbn. apply NoDup_cons. split; [|apply NoDup_singleton]. by intros ?%list_elem_of_singleton.
Defined.

Lemma demo_mask p : is_resident_part demo_residents p = true -> is_resident_bucket demo_residents (Pid.bucket p) = true.
Proof.
  intros _. unfold is_resident_bucket, owns_any_in_bucket. cbn [ov_owns_in_bucket demo_residents fst].
  rewrite lookup_replicate_2; [done|]. rewrite Pid.bucket_mod. unfold BUCKET_COUNT. dlia.
Qed.


Lemma only_resident_entries_are_served_witness :
  handler_records_for demo_handler [99] [[1]; [2]] 1000 = [{| wr_key := [1]; wr_value := Some [10]; wr_ver := stamp 500 1; wr_expires_at_ms := None |}] /\
  (forall rec, rec ∈ concat (snapshot_chunks demo_shard 1000) -> is_resident_part demo_residents (pid_of_key (wr_key rec)) = true).
Proof.
  split; [vm_compute; reflexivity|]. intros rec Hrec.
  destruct (only_resident_entries_are_served demo_handler [99] demo_shard demo_residents 1000 eq_refl eq_refl small_engine_inv) as (_ & H & _).
  exact (proj2 (H rec Hrec)).
Defined.
