(* ===== verification/Inbound.v ===== *)
(** * Records arriving from a peer

    [Shard::apply_inbound] of [store/shard_serve.rs], which every replicated record, pull reply,
    transfer chunk and forwarded write goes through: the ownership guard, the clock, the skew
    hold, decoding, and the engine's batch loop stripe by stripe. *)

From S2P Require Import Prelude SkewHold Clock Part Types Record Expiry Sketch Wire Merge Arena Engine Apply Removal Evict Prefold Batch Read Serve Ownership Residency FanOut Mesh PeerServe.

(** ** Definitions *)

Definition inbound_scope (mode : Mode) : ApplyScope :=
  match mode with Invalidation => HeldOnly | Local | Replicated | Distributed _ => AnyScope end.

Inductive Inbound := InReplicated | InForwarded (held : nat).

Definition inbound_held (i : Inbound) : nat := match i with InReplicated => 0%nat | InForwarded held => held end.

Section Inbound.
Context {PU : PostcardU32} {HS : Hashing} {R : ConflictResolver} {V : Type} {VC : ValueCodec V} {IS : IdleSort}.

(** What a shard applies inbound records under. Whether a key's bytes decode, and the order in which
    a batch's pre-fold lists its keys, come with it. *)
Record InConfig := {
  ic_name : Bytes;
  ic_mode : Mode;
  ic_residency : option (OwnershipView * ResidencySet);
  ic_max_clock_skew_ms : option Z;
  ic_tombstone_ttl_ms : Z;
  ic_tombstone_max_ttl_ms : Z;
  ic_key_decodes : Bytes -> bool;
  ic_key_order : list (BatchEntry V) -> list Bytes;
}.

Definition skew_config (c : InConfig) : SkewConfig := {|
  sc_max_clock_skew_ms := ic_max_clock_skew_ms c; sc_ownership := fst <$> ic_residency c;
  sc_tombstone_max_ttl_ms := ic_tombstone_max_ttl_ms c; sc_merges := merges |}.

(** The store, the clock, the skew hold, the forwards handed to the fan-out, and the counts of
    records dropped as unowned and refused by the clock. *)
Record InShard := {
  in_engine : Engine V;
  in_clock : HlcClock.HlcClock;
  in_hold : SkewHold;
  in_forwards : list WireRecord;
  in_unowned_dropped : Z;
  in_skew_rejected : Z;
}.

Definition in_with_engine (s : InShard) (e : Engine V) : InShard := {|
  in_engine := e; in_clock := in_clock s; in_hold := in_hold s; in_forwards := in_forwards s;
  in_unowned_dropped := in_unowned_dropped s; in_skew_rejected := in_skew_rejected s |}.
Definition in_with_clock (s : InShard) (clock : HlcClock.HlcClock) (refused : bool) : InShard := {|
  in_engine := in_engine s; in_clock := clock; in_hold := in_hold s; in_forwards := in_forwards s;
  in_unowned_dropped := in_unowned_dropped s; in_skew_rejected := in_skew_rejected s + (if refused then 1 else 0) |}.
Definition in_with_hold (s : InShard) (h : SkewHold) : InShard := {|
  in_engine := in_engine s; in_clock := in_clock s; in_hold := h; in_forwards := in_forwards s;
  in_unowned_dropped := in_unowned_dropped s; in_skew_rejected := in_skew_rejected s |}.

(** Handing records on to their owners; nothing happens for none. *)
Definition redirect_to_owners (s : InShard) (redirected : list WireRecord) : InShard := {|
  in_engine := in_engine s; in_clock := in_clock s; in_hold := in_hold s; in_forwards := in_forwards s ++ redirected;
  in_unowned_dropped := in_unowned_dropped s; in_skew_rejected := in_skew_rejected s |}.
Definition count_unowned (s : InShard) (n : nat) : InShard := {|
  in_engine := in_engine s; in_clock := in_clock s; in_hold := in_hold s; in_forwards := in_forwards s;
  in_unowned_dropped := in_unowned_dropped s + Z.of_nat n; in_skew_rejected := in_skew_rejected s |}.

Definition owned_here (r : OwnershipView * ResidencySet) (rec : WireRecord) : bool := owns r.1 (pid_of_key (wr_key rec)).
Definition releasing_here (r : OwnershipView * ResidencySet) (rec : WireRecord) : bool := is_releasing r.2 (pid_of_key (wr_key rec)).

Definition guard_inbound (c : InConfig) (s : InShard) (recs : list WireRecord) (held : nat) :
    InShard * list WireRecord * nat :=
  match ic_residency c with
  | Some r =>
      let owned := filter (fun rec => owned_here r rec = true) recs in
      let unowned := filter (fun rec => owned_here r rec = false) recs in
      let held_owned := length (filter (fun rec => owned_here r rec = true) (take held recs)) in
      let redirected := filter (fun rec => releasing_here r rec = true) unowned in
      let dropped := filter (fun rec => releasing_here r rec = false) unowned in
      (count_unowned (redirect_to_owners s redirected) (length dropped), owned, held_owned)
  | None => (s, recs, held)
  end.

(** [Shard::observe_remote]: whether the stamp is accepted. *)
Definition observe_remote (c : InConfig) (s : InShard) (now_ms : Z) (remote : Hlc) : InShard * bool :=
  match ic_max_clock_skew_ms c with
  | Some max_skew_ms =>
      let (clock, h) := HlcClock.observe_bounded (in_clock s) now_ms remote max_skew_ms in
      let accepted := is_some h in (in_with_clock s clock (negb accepted), accepted)
  | None => (in_with_clock s (HlcClock.observe (in_clock s) now_ms remote).1 false, true)
  end.

(** [Shard::invalidate_key] on the store; the pending merge it also settles is not kept here. *)
Definition invalidate_key (c : InConfig) (now_ms : Z) (s : InShard) (rec : WireRecord) : InShard :=
  let (s, accepted) := observe_remote c s now_ms (wr_ver rec) in
  if accepted && ic_key_decodes c (wr_key rec)
  then in_with_engine s (invalidate (in_engine s) (wr_key rec) (wr_ver rec)).1 else s.

(** One record of the decoding loop, with its place in the batch. *)
Definition decode_one (c : InConfig) (now_ms : Z) (held : nat) (acc : InShard * list (BatchEntry V)) (ir : nat * WireRecord) :
    InShard * list (BatchEntry V) :=
  let '(s, decoded) := acc in
  let '(i, rec) := ir in
  let (s, accepted) := observe_remote c s now_ms (wr_ver rec) in
  if negb accepted then
    (if (i <? held)%nat then in_with_hold s (hold_skewed (skew_config c) (in_hold s) now_ms rec).1 else s, decoded)
  else if negb (ic_key_decodes c (wr_key rec)) then (s, decoded)
  else
    match incoming_of rec with
    | None => (s, decoded)
    | Some incoming => (s, decoded ++ [{| be_key := wr_key rec; be_ver := wr_ver rec; be_incoming := incoming |}])
    end.

(** One stripe's group; the outer [None] is the batch's. *)
Definition apply_group (c : InConfig) (now_ms : Z) (decoded : list (BatchEntry V)) (acc : option (Engine V * Written)) (bucket : nat) :
    option (Engine V * Written) :=
  '(e, written) ← acc;
  let group := filter (fun en => bucket_of_key (be_key en) = bucket) decoded in
  match group with
  | [] => Some (e, written)
  | _ =>
      '(e, written, _, _) ← apply_many_in e (inbound_scope (ic_mode c)) APeer bucket (ic_key_order c group) group
        (ic_tombstone_ttl_ms c) (ic_tombstone_max_ttl_ms c) now_ms written;
      Some (e, written)
  end.

Definition apply_inbound (c : InConfig) (s : InShard) (recs : list WireRecord) (inbound : Inbound) (now_ms : Z) : option InShard :=
  let '(s, recs, held) := guard_inbound c s recs (inbound_held inbound) in
  let '(recs, removals, held) :=
    match inbound_scope (ic_mode c) with
    | HeldOnly => (filter (fun rec => is_tombstone rec = false) recs, filter (fun rec => is_tombstone rec = true) recs, 0%nat)
    | AnyScope => (recs, [], held)
    end in
  let s := foldl (invalidate_key c now_ms) s removals in
  let '(s, decoded) := foldl (decode_one c now_ms held) (s, []) (imap pair recs) in
  '(e, _) ← foldl (apply_group c now_ms decoded) (Some (in_engine s, written_default)) (List.seq 0 (Z.to_nat BUCKET_COUNT));
  Some (in_with_engine s e).

Definition apply_remote_batch (c : InConfig) (s : InShard) (recs : list WireRecord) (now_ms : Z) : option InShard :=
  apply_inbound c s recs InReplicated now_ms.

Definition apply_forwarded_batch (c : InConfig) (s : InShard) (recs : list WireRecord) (now_ms : Z) : option InShard :=
  apply_inbound c s recs (InForwarded (length recs)) now_ms.
Definition apply_forward_run (c : InConfig) (s : InShard) (held kept : list WireRecord) (now_ms : Z) : option InShard :=
  apply_inbound c s (held ++ kept) (InForwarded (length held)) now_ms.

End Inbound.
Arguments InConfig V : clear implicits.
Arguments InShard V : clear implicits.

(** ** Last writer wins *)

Section Lww.
Context {PU : PostcardU32} {HS : Hashing} {V : Type} {VC : ValueCodec V} {IS : IdleSort} {PUL : PostcardU32Laws}.

Definition entry_write (ctx : ApplyCtx V) (en : BatchEntry V) : Write V :=
  {| wt_ctx := ctx; wt_key := be_key en; wt_ver := be_ver en; wt_incoming := be_incoming en |}.

(** What a batch loop leaves as it was. *)
Definition same_config (e e' : Engine V) : Prop := cfg e' = cfg e /\ gc e' = gc e.
#[export] Instance same_config_preorder : PreOrder same_config.
Proof. split; [done|]. intros e1 e2 e3 [? ?] [? ?]. split; congruence. Qed.

Lemma apply_at_same_config e bucket ign ctx k ver i : same_config e (apply_at (R := LwwResolver) e bucket ign ctx k ver i).1.1.
Proof. unfold apply_at. destruct (apply_locked _ _ _ _ _ _) as [[st c] out]. done. Qed.

Lemma slots_lww ctx bucket entries : ac_held_only ctx = false ->
  Forall (fun en => key_fits (be_key en) /\ bucket_of_key (be_key en) = bucket) entries ->
  forall b : BatchState, engine_inv (bs_engine b) ->
  let b' := foldl (apply_slot (R := LwwResolver) ctx bucket) b (SlotApply <$> entries) in
  engine_inv (bs_engine b') /\ same_config (bs_engine b) (bs_engine b') /\
  forall k, engine_record (bs_engine b') k = foldl (lww_join k) (engine_record (bs_engine b) k) (entry_write ctx <$> entries).
Proof.
  intros Hh. induction 1 as [|en entries [Hfit <-] Hen IH]; intros b He; [done|].
  rewrite !fmap_cons. cbn [foldl]. set (b1 := apply_slot ctx _ b (SlotApply en)).
  assert (Hb1 : bs_engine b1 = (apply_at (R := LwwResolver) (bs_engine b) (bucket_of_key (be_key en)) (bs_ignored b) ctx (be_key en) (be_ver en) (be_incoming en)).1.1).
  { unfold b1, apply_slot. cbn [into_entry]. by destruct (apply_at _ _ _ _ _ _ _) as [[? ?] ?]. }
  pose proof (apply_at_same_config (bs_engine b) (bucket_of_key (be_key en)) (bs_ignored b) ctx (be_key en) (be_ver en) (be_incoming en)) as Hsc.
  assert (Hrec : engine_inv (bs_engine b1) /\ forall k, engine_record (bs_engine b1) k = lww_join k (engine_record (bs_engine b) k) (entry_write ctx en)).
  { pose proof (fun k => write_one_lww (bs_engine b) (entry_write ctx en) k He Hfit Hh) as Hw. unfold write_one in Hw. cbn in Hw.
    destruct (apply_at_spec (R:=LwwResolver) (bs_engine b) (bs_ignored b) ctx (be_key en) (be_ver en) (be_incoming en) He Hfit) as (e' & ign & out & Ha & Hinv & _ & Hr).
    destruct (apply_at_spec (R:=LwwResolver) (bs_engine b) 0 ctx (be_key en) (be_ver en) (be_incoming en) He Hfit) as (e2 & ign2 & out2 & Ha2 & _ & _ & Hr2).
    rewrite Hb1, Ha. split; [done|]. intros k. rewrite <-Hw, Ha2. cbn. by rewrite Hr, Hr2. }
  destruct Hrec as [Hinv1 Hrec1]. rewrite <-Hb1 in Hsc. destruct (IH b1 Hinv1) as (H1 & H2 & H3). split_and!; [done|by etrans|].
  intros k. by rewrite H3, Hrec1.
Qed.

Lemma apply_many_lww (e : Engine V) arrival bucket keys entries ttl max_ttl now written : engine_inv e -> max_capacity (cfg e) = u64_max ->
  Forall (fun en => key_fits (be_key en) /\ bucket_of_key (be_key en) = bucket) entries ->
  let ctx := batch_ctx (R := LwwResolver) e AnyScope arrival ttl max_ttl now in
  exists e' written' outs, apply_many_in (R := LwwResolver) e AnyScope arrival bucket keys entries ttl max_ttl now written = Some (e', written', outs, 0) /\
    engine_inv e' /\ same_config e e' /\
    forall k, engine_record e' k = foldl (lww_join k) (engine_record e k) (entry_write ctx <$> entries).
Proof.
  intros He Hcap Hen ctx. unfold apply_many_in, prefolds. cbn [merges LwwResolver andb]. cbn [mbind option_bind]. fold ctx.
  set (b0 := {| bs_engine := e; bs_ignored := 0; bs_outcomes := []; bs_wrote := false; bs_written := written |}).
  destruct (slots_lww ctx bucket entries eq_refl Hen b0 He) as (H1 & H2 & H3). unfold apply_slots. fold b0.
  set (b' := foldl _ b0 (SlotApply <$> entries)) in *. destruct (bs_wrote b'); [|by eexists _, _, _].
  unfold enforce_capacity, evict_down_to_freeing. destruct H2 as [Hc Hg]. cbn [b0 bs_engine] in Hc. rewrite Hc, Hcap, Z.eqb_refl. cbn.
  by eexists _, _, _.
Qed.

Lemma batch_ctx_same e e' scope arrival ttl max_ttl now : same_config e e' ->
  batch_ctx (R := LwwResolver) (V := V) e' scope arrival ttl max_ttl now = batch_ctx (R := LwwResolver) e scope arrival ttl max_ttl now.
Proof. intros [Hc Hg]. unfold batch_ctx, deferring_at. by rewrite Hc, Hg. Qed.

(** A write of another key joins nothing. *)
Lemma lww_join_filter b k ctx (es : list (BatchEntry V)) : bucket_of_key k = b -> forall s,
  foldl (lww_join k) s (entry_write ctx <$> filter (fun en => bucket_of_key (be_key en) = b) es) = foldl (lww_join k) s (entry_write ctx <$> es).
Proof.
  intros Hk. induction es as [|en es IH]; intros s; [done|]. rewrite filter_cons. case_decide as E; cbn; [apply IH|].
  rewrite IH. f_equal. unfold lww_join. cbn. rewrite (bool_decide_eq_false_2 (be_key en = k)) by (intros Heq; rewrite Heq in E; done). by rewrite andb_false_r.
Qed.

Lemma lww_join_others b k ctx (es : list (BatchEntry V)) : bucket_of_key k <> b -> forall s,
  foldl (lww_join k) s (entry_write ctx <$> filter (fun en => bucket_of_key (be_key en) = b) es) = s.
Proof.
  intros Hk. induction es as [|en es IH]; intros s; [done|]. rewrite filter_cons. case_decide as E; cbn; [|apply IH].
  rewrite IH. unfold lww_join. cbn. rewrite (bool_decide_eq_false_2 (be_key en = k)) by (intros Heq; rewrite Heq in E; done). by rewrite andb_false_r.
Qed.

Lemma apply_groups_lww (c : InConfig V) now decoded buckets : inbound_scope (ic_mode c) = AnyScope ->
  Forall (fun en => key_fits (be_key en)) decoded -> NoDup buckets ->
  forall e written, engine_inv e -> max_capacity (cfg e) = u64_max ->
  let ctx := batch_ctx (R := LwwResolver) e AnyScope APeer (ic_tombstone_ttl_ms c) (ic_tombstone_max_ttl_ms c) now in
  exists e' written', foldl (apply_group (R := LwwResolver) c now decoded) (Some (e, written)) buckets = Some (e', written') /\
    engine_inv e' /\ same_config e e' /\
    forall k, engine_record e' k =
      if decide (bucket_of_key k ∈ buckets) then foldl (lww_join k) (engine_record e k) (entry_write ctx <$> decoded) else engine_record e k.
Proof.
  intros Hscope Hfit. induction buckets as [|b buckets IH]; intros Hnd e written He Hcap ctx.
  { exists e, written. by split_and!. }
  apply NoDup_cons in Hnd as [Hb Hnd]. cbn [foldl]. set (group := filter (fun en => bucket_of_key (be_key en) = b) decoded).
  assert (Hone : exists e1 w1, apply_group (R := LwwResolver) c now decoded (Some (e, written)) b = Some (e1, w1) /\ engine_inv e1 /\ same_config e e1 /\
    forall k, engine_record e1 k = foldl (lww_join k) (engine_record e k) (entry_write ctx <$> group)).
  { unfold apply_group. cbn [mbind option_bind]. fold group. rewrite Hscope.
    destruct (apply_many_lww e APeer b (ic_key_order c group) group (ic_tombstone_ttl_ms c) (ic_tombstone_max_ttl_ms c) now written He Hcap)
      as (e' & w' & outs & Hap & H1 & H2 & H3).
    { rewrite Forall_forall in Hfit |- *. intros en [? ?]%list_elem_of_filter. by split; [apply Hfit|]. }
    destruct group as [|en' group'] eqn:Eg; [by exists e, written|]. rewrite Hap. cbn. by exists e', w'. }
  destruct Hone as (e1 & w1 & -> & He1 & Hsc1 & Hr1).
  destruct (IH Hnd e1 w1 He1) as (e2 & w2 & -> & He2 & Hsc2 & Hr2); [by destruct Hsc1 as [-> _]|].
  exists e2, w2. split_and!; [done|done|by etrans|]. intros k. rewrite Hr2, (batch_ctx_same e e1) by done. fold ctx. rewrite Hr1.
  destruct (decide (bucket_of_key k = b)) as [<-|Hne].
  - rewrite decide_False by done. rewrite decide_True by (by left). unfold group.
    by apply lww_join_filter.
  - assert (Hs : forall s, foldl (lww_join k) s (entry_write ctx <$> group) = s)
      by (intros s; unfold group; by apply lww_join_others).
    rewrite Hs. destruct (decide (bucket_of_key k ∈ buckets)); [by rewrite decide_True by (by right)|].
    rewrite decide_False; [done|]. by intros [?|?]%elem_of_cons.
Qed.

(** Whether the clock takes a stamp. *)
Definition stamp_accepted (c : InConfig V) (now : Z) (ver : Hlc) : bool :=
  is_none_or (ic_max_clock_skew_ms c) (fun max_skew => negb (exceeds_skew now (wall_ms ver) max_skew)).

Lemma observe_remote_spec (c : InConfig V) s now ver :
  let out := observe_remote c s now ver in
  out.2 = stamp_accepted c now ver /\ in_engine out.1 = in_engine s /\ in_hold out.1 = in_hold s /\ in_forwards out.1 = in_forwards s.
Proof.
  unfold observe_remote, stamp_accepted, HlcClock.observe_bounded. destruct (ic_max_clock_skew_ms c) as [m|]; cbn; [|done].
  by destruct (exceeds_skew _ _ _).
Qed.

(** The records the store takes, the ones parked, in order. *)
Definition stored_from (c : InConfig V) (now : Z) (rec : WireRecord) : option (BatchEntry V) :=
  if stamp_accepted c now (wr_ver rec) && ic_key_decodes c (wr_key rec)
  then (fun i => {| be_key := wr_key rec; be_ver := wr_ver rec; be_incoming := i |}) <$> incoming_of rec else None.
Definition parked_from (c : InConfig V) (now : Z) (held : nat) (recs : list WireRecord) : list WireRecord :=
  filter (fun rec => stamp_accepted c now (wr_ver rec) = false) (take held recs).

Lemma decode_loop (c : InConfig V) now held recs : forall i s decoded,
  let out := foldl (decode_one (R := LwwResolver) c now held) (s, decoded) (imap (fun j rec => ((i + j)%nat, rec)) recs) in
  out.2 = decoded ++ omap (stored_from c now) recs /\ in_engine out.1 = in_engine s /\ in_forwards out.1 = in_forwards s /\
  in_hold out.1 = foldl (fun h rec => (hold_skewed (skew_config (R := LwwResolver) c) h now rec).1) (in_hold s) (parked_from c now (held - i) recs).
Proof.
  induction recs as [|rec recs IH]; intros i s decoded.
  { cbn. unfold parked_from. rewrite take_nil. by rewrite app_nil_r. }
  rewrite imap_cons. cbn [foldl]. rewrite Nat.add_0_r.
  pose proof (observe_remote_spec c s now (wr_ver rec)) as (Ha & He & Hh & Hf).
  assert (Hshift : imap ((fun j rec => ((i + j)%nat, rec)) ∘ S) recs = imap (fun j rec => ((S i + j)%nat, rec)) recs)
    by (apply imap_ext; intros j x _; cbn; f_equal; lia).
  rewrite Hshift. unfold decode_one at 2 4 6 8.
  destruct (observe_remote c s now (wr_ver rec)) as [s1 acc]. cbn [fst snd] in *. subst acc.
  assert (Hpark : parked_from c now (held - i) (rec :: recs) =
    (if (i <? held)%nat && negb (stamp_accepted c now (wr_ver rec)) then [rec] else []) ++ parked_from c now (held - S i) recs).
  { unfold parked_from. destruct (Nat.ltb_spec i held).
    - replace (held - i)%nat with (S (held - S i)) by lia. cbn [take]. rewrite filter_cons.
      destruct (stamp_accepted c now (wr_ver rec)); [by rewrite decide_False by done|by rewrite decide_True by done].
    - replace (held - i)%nat with 0%nat by lia. by replace (held - S i)%nat with 0%nat by lia. }
  rewrite Hpark. assert (Hst : omap (stored_from c now) (rec :: recs) = from_option (fun en => [en]) [] (stored_from c now rec) ++ omap (stored_from c now) recs)
    by (cbn; by destruct (stored_from c now rec)).
  rewrite Hst. unfold stored_from at 1.
  destruct (stamp_accepted c now (wr_ver rec)); cbn [negb andb].
  - rewrite andb_false_r. cbn [app]. destruct (ic_key_decodes c (wr_key rec)); cbn [negb].
    + destruct (incoming_of rec) as [inc|]; cbn [fmap option_fmap option_map].
      * destruct (IH (S i) s1 (decoded ++ [{| be_key := wr_key rec; be_ver := wr_ver rec; be_incoming := inc |}])) as (H1 & H2 & H3 & H4).
        split_and!; [by rewrite H1, <-app_assoc|congruence|congruence|by rewrite H4, Hh].
      * destruct (IH (S i) s1 decoded) as (H1 & H2 & H3 & H4). split_and!; [done|congruence|congruence|by rewrite H4, Hh].
    + destruct (IH (S i) s1 decoded) as (H1 & H2 & H3 & H4). split_and!; [done|congruence|congruence|by rewrite H4, Hh].
  - rewrite andb_true_r. destruct (i <? held)%nat; cbn [app foldl].
    + destruct (IH (S i) (in_with_hold s1 (hold_skewed (skew_config (R := LwwResolver) c) (in_hold s1) now rec).1) decoded) as (H1 & H2 & H3 & H4).
      split_and!; [exact H1|etrans; [exact H2|exact He]|etrans; [exact H3|exact Hf]|]. etrans; [exact H4|]. cbn. by rewrite Hh.
    + destruct (IH (S i) s1 decoded) as (H1 & H2 & H3 & H4). split_and!; [done|congruence|congruence|by rewrite H4, Hh].
Qed.

(** The records the guard keeps, and the ones it hands on. *)
Definition kept_by_guard (c : InConfig V) (recs : list WireRecord) : list WireRecord :=
  match ic_residency c with Some r => filter (fun rec => owned_here r rec = true) recs | None => recs end.
Definition handed_on (c : InConfig V) (recs : list WireRecord) : list WireRecord :=
  match ic_residency c with
  | Some r => filter (fun rec => releasing_here r rec = true) (filter (fun rec => owned_here r rec = false) recs)
  | None => []
  end.

Lemma guard_spec (c : InConfig V) s recs held :
  let out := guard_inbound c s recs held in
  out.1.2 = kept_by_guard c recs /\ in_engine out.1.1 = in_engine s /\ in_hold out.1.1 = in_hold s /\
  in_forwards out.1.1 = in_forwards s ++ handed_on c recs /\ take out.2 out.1.2 = kept_by_guard c (take held recs).
Proof.
  unfold guard_inbound, kept_by_guard, handed_on. destruct (ic_residency c) as [r|]; cbn; [|by rewrite app_nil_r].
  split_and!; try done. revert held. induction recs as [|rec recs IH]; intros held; [by rewrite take_nil|].
  destruct held as [|held]; [done|]. cbn [take]. rewrite !filter_cons. case_decide; cbn; [f_equal|]; apply IH.
Qed.

Lemma stored_from_fits (c : InConfig V) now recs : Forall (fun rec => key_fits (wr_key rec)) recs ->
  Forall (fun en => key_fits (be_key en)) (omap (stored_from c now) recs).
Proof.
  rewrite !Forall_forall. intros Hf en (rec & Hrec & Hen)%list_elem_of_omap. unfold stored_from in Hen.
  destruct (_ && _); [|done]. apply fmap_Some in Hen as (i & _ & ->). cbn. by apply Hf.
Qed.

Lemma apply_inbound_lww (c : InConfig V) (s : InShard V) (recs : list WireRecord) (inbound : Inbound) (now : Z)
    (Hinv : engine_inv (in_engine s)) (Hcap : max_capacity (cfg (in_engine s)) = u64_max)
    (Hmode : inbound_scope (ic_mode c) = AnyScope) (Hfit : Forall (fun rec => key_fits (wr_key rec)) recs) :
  let ctx := batch_ctx (R := LwwResolver) (in_engine s) AnyScope APeer (ic_tombstone_ttl_ms c) (ic_tombstone_max_ttl_ms c) now in
  exists s', apply_inbound (R := LwwResolver) c s recs inbound now = Some s' /\
    engine_inv (in_engine s') /\ same_config (in_engine s) (in_engine s') /\
    (forall k, engine_record (in_engine s') k =
       foldl (lww_join k) (engine_record (in_engine s) k) (entry_write ctx <$> omap (stored_from c now) (kept_by_guard c recs))) /\
    in_forwards s' = in_forwards s ++ handed_on c recs /\
    in_hold s' = foldl (fun h rec => (hold_skewed (skew_config (R := LwwResolver) c) h now rec).1) (in_hold s)
                   (filter (fun rec => stamp_accepted c now (wr_ver rec) = false) (kept_by_guard c (take (inbound_held inbound) recs))).
Proof.
  intros ctx. unfold apply_inbound. pose proof (guard_spec c s recs (inbound_held inbound)) as (G1 & G2 & G3 & G4 & G5).
  destruct (guard_inbound c s recs (inbound_held inbound)) as [[s1 kept] held]. cbn [fst snd] in *. rewrite Hmode. cbn [foldl].
  pose proof (decode_loop c now held kept 0 s1 []) as (D1 & D2 & D3 & D4). change (imap (fun j rec => ((0 + j)%nat, rec)) kept) with (imap pair kept) in *.
  destruct (foldl _ (s1, []) (imap pair kept)) as [s2 decoded]. cbn [fst snd app] in *. rewrite Nat.sub_0_r in D4.
  assert (Hfd : Forall (fun en => key_fits (be_key en)) decoded).
  { rewrite D1. apply stored_from_fits. rewrite G1. unfold kept_by_guard. destruct (ic_residency c); [|done].
    rewrite Forall_forall in Hfit |- *. intros rec [_ ?]%list_elem_of_filter. by apply Hfit. }
  destruct (apply_groups_lww c now decoded (List.seq 0 (Z.to_nat BUCKET_COUNT)) Hmode Hfd (NoDup_seq _ _) (in_engine s2) written_default)
    as (e' & w' & -> & H1 & H2 & H3); [by rewrite D2, G2..|].
  cbn. eexists. split; [done|]. rewrite D2, G2 in H2, H3. split_and!; [done|done| |cbn; by rewrite D3, G4|].
  - intros k. cbn. rewrite H3, decide_True, D1, G1; [done|]. apply list_elem_of_In, List.in_seq. pose proof (bucket_of_key_lt k). lia.
  - cbn. rewrite D4, G3. unfold parked_from. by rewrite G5.
Qed.

(** C17: a batch from a peer, under last-writer-wins in an uncapped cache that keeps what arrives. The
    store ends with, under every key, the newest of what it held and the records of the batch it takes:
    the owned ones whose stamp the clock accepts, whose key and value decode, and whose tombstone is
    not past its retention. How the batch is cut into stripes does not show. A record of a part being released is
    handed on to the owners, a record of any other part leaves no trace, and of the forwards whose
    writer may keep no copy, exactly those the clock refuses are parked. *)
Theorem inbound_batch_keeps_the_newest (c : InConfig V) (s : InShard V) (recs : list WireRecord) (inbound : Inbound) (now : Z)
    (Hinv : engine_inv (in_engine s)) (Hcap : max_capacity (cfg (in_engine s)) = u64_max)
    (Hmode : inbound_scope (ic_mode c) = AnyScope) (Hfit : Forall (fun rec => key_fits (wr_key rec)) recs) :
  let ctx := batch_ctx (R := LwwResolver) (in_engine s) AnyScope APeer (ic_tombstone_ttl_ms c) (ic_tombstone_max_ttl_ms c) now in
  exists s', apply_inbound (R := LwwResolver) c s recs inbound now = Some s' /\
    engine_inv (in_engine s') /\ same_config (in_engine s) (in_engine s') /\
    (forall k, engine_record (in_engine s') k =
       foldl (lww_join k) (engine_record (in_engine s) k) (entry_write ctx <$> omap (stored_from c now) (kept_by_guard c recs))) /\
    in_forwards s' = in_forwards s ++ handed_on c recs /\
    in_hold s' = foldl (fun h rec => (hold_skewed (skew_config (R := LwwResolver) c) h now rec).1) (in_hold s)
                   (filter (fun rec => stamp_accepted c now (wr_ver rec) = false) (kept_by_guard c (take (inbound_held inbound) recs))).
Proof. exact (apply_inbound_lww c s recs inbound now Hinv Hcap Hmode Hfit). Qed.

End Lww.

(** ** Evaluating the statement *)

Definition demo_inbound (max_skew : option Z) : InConfig Bytes := {|
  ic_name := [99]; ic_mode := Distributed 2; ic_residency := Some demo_residents; ic_max_clock_skew_ms := max_skew;
  ic_tombstone_ttl_ms := 60000; ic_tombstone_max_ttl_ms := 600000; ic_key_decodes := fun _ => true; ic_key_order := fmap be_key |}.
Definition demo_in_shard : InShard Bytes := {|
  in_engine := small_engine; in_clock := HlcClock.new 7; in_hold := skew_new 10 1000; in_forwards := []; in_unowned_dropped := 0;
  in_skew_rejected := 0 |}.
Definition demo_arrival (k v t : Z) : WireRecord :=
  {| wr_key := [k]; wr_value := Some [v]; wr_ver := stamp t 9; wr_expires_at_ms := None |}.

Lemma inbound_batch_keeps_the_newest_witness :
  exists s', apply_inbound (R := LwwResolver) (demo_inbound (Some 500)) demo_in_shard
    [demo_arrival 1 7 600; demo_arrival 1 8 9000; demo_arrival 2 5 800] (InForwarded 3) 1000 = Some s' /\
    engine_record (in_engine s') [1] = Some (demo_arrival 1 7 600) /\ engine_record (in_engine s') [2] = engine_record small_engine [2] /\
    (entries (in_hold s')).*2 = [demo_arrival 1 8 9000] /\ in_forwards s' = [].
Proof.
  destruct (inbound_batch_keeps_the_newest (demo_inbound (Some 500)) demo_in_shard
    [demo_arrival 1 7 600; demo_arrival 1 8 9000; demo_arrival 2 5 800] (InForwarded 3) 1000) as (s' & H1 & _ & _ & H4 & H5 & H6).
  - exact small_engine_inv.
  - reflexivity.
  - reflexivity.
  - repeat constructor; vm_compute; discriminate.
  - exists s'. split; [exact H1|]. rewrite !H4, H5, H6. split_and!; vm_compute; reflexivity.
Defined.
