(* ===== verification/Dispatch.v ===== *)
(** * The inbound loop

    [cluster/inbound.rs], the one consumer of the messages peers send unasked: runs of records coalesced
    into one call on their shard, invalidations between them, and the re-forward of batches routed under
    another view, through a bounded lane and a worker per peer. The registry's shards are values of any type
    with the operations of the trait [ShardOps] the loop calls; a lookup is remembered for the burst, so the registry
    does not change within one. *)

From S2P Require Import Prelude SkewHold Clock Part Types Record Expiry Sketch Wire Merge Arena Engine Apply Removal Evict Prefold Batch Read Serve Ownership Residency Rebalance FanOut Mesh PeerServe Inbound.

(** ** Definitions *)

(** The part of [ShardOps] the loop calls. [None] is a call that runs out of fuel. *)
Class ShardOps (S : Type) := {
  so_ownership_view : S -> option OwnershipView;
  so_apply_remote_batch : S -> list WireRecord -> option S;
  so_apply_forward_run : S -> list WireRecord -> list WireRecord -> option S;
  so_invalidate : S -> Bytes -> Hlc -> option S;
  so_refresh_hint : S -> Bytes -> Hlc -> option S;
}.

Record PendingRun := { pr_cache : SmolStr; pr_forwarded : bool; pr_recs : list WireRecord; pr_kept : list WireRecord }.

Definition same_run (pending : option (SmolStr * bool)) (cache : SmolStr) (forwarded : bool) : bool :=
  is_some_and pending (fun p => bool_decide (p.1 = cache) && Bool.eqb p.2 forwarded).

(** *** The lanes *)

Definition REFORWARD_LANE_BYTES : Z := 64 * 1024 * 1024.
Definition REFORWARD_WARN_SPACING : Z := 5000.
Definition MAX_FORWARD_HOPS : Z := 1.

Definition lane_admits (queued batch cap : Z) : bool := (queued =? 0) || (saturating_add queued batch <=? cap).
Definition lane_retired (peer_live worker_ended : bool) : bool := negb peer_live || worker_ended.
Definition warn_due (last_warn : option Z) (now : Z) : bool := is_none_or last_warn (fun at_ => REFORWARD_WARN_SPACING <=? saturating_sub now at_).

Record LaneBatch := { lb_frames : list OutFrame; lb_bytes : Z }.

(** A worker: its receiving end of the lane's channel, the batch it is sending, and the bytes of both. It has ended
    once its receiving end is gone. *)
Record Worker := { wk_peer : NodeId; wk_batches : list LaneBatch; wk_sending : option LaneBatch; wk_queued : Z; wk_ended : bool }.

(** The sending end: which worker it leads to, and its warnings. *)
Record Lane := { ln_worker : nat; ln_dropped_unreported : Z; ln_last_warn : option Z }.

Record Reforwarder := { rf_mesh : MeshInner; rf_lanes : gmap NodeId Lane; rf_workers : gmap nat Worker; rf_lane_bytes : Z }.

Definition rf_with_mesh (r : Reforwarder) (m : MeshInner) : Reforwarder :=
  {| rf_mesh := m; rf_lanes := rf_lanes r; rf_workers := rf_workers r; rf_lane_bytes := rf_lane_bytes r |}.
Definition rf_with_lanes (r : Reforwarder) (lanes : gmap NodeId Lane) : Reforwarder :=
  {| rf_mesh := rf_mesh r; rf_lanes := lanes; rf_workers := rf_workers r; rf_lane_bytes := rf_lane_bytes r |}.
Definition rf_with_workers (r : Reforwarder) (workers : gmap nat Worker) : Reforwarder :=
  {| rf_mesh := rf_mesh r; rf_lanes := rf_lanes r; rf_workers := workers; rf_lane_bytes := rf_lane_bytes r |}.

Definition with_lane_bytes (mesh : MeshInner) (lane_bytes : Z) : Reforwarder :=
  {| rf_mesh := mesh; rf_lanes := ∅; rf_workers := ∅; rf_lane_bytes := lane_bytes |}.
Definition reforwarder_new (mesh : MeshInner) : Reforwarder := with_lane_bytes mesh REFORWARD_LANE_BYTES.

Section Lanes.
Context {L : Layout}.

Definition frames_bytes (frames : list OutFrame) : Z := sum_Z (weight <$> frames).

(** The lane toward [peer], opened with a new worker when there is none. *)
Definition lane_for (r : Reforwarder) (peer : NodeId) : Reforwarder * Lane :=
  match rf_lanes r !! peer with
  | Some lane => (r, lane)
  | None =>
      let id := fresh (dom (rf_workers r)) in
      let lane := {| ln_worker := id; ln_dropped_unreported := 0; ln_last_warn := None |} in
      (rf_with_lanes (rf_with_workers r (<[id := {| wk_peer := peer; wk_batches := []; wk_sending := None; wk_queued := 0; wk_ended := false |}]> (rf_workers r)))
         (<[peer := lane]> (rf_lanes r)), lane)
  end.

(** A full lane's warning: counted, and logged when one is due. *)
Definition note_dropped (lane : Lane) (now : Z) : Lane :=
  if warn_due (ln_last_warn lane) now
  then {| ln_worker := ln_worker lane; ln_dropped_unreported := 0; ln_last_warn := Some now |}
  else {| ln_worker := ln_worker lane; ln_dropped_unreported := ln_dropped_unreported lane + 1; ln_last_warn := ln_last_warn lane |}.

(** What became of a batch: its peer is not live, a worker has it, or it was dropped. *)
Inductive Dispatched := Skipped | Queued (worker : nat) | Dropped.

Definition worker_push (w : Worker) (batch : LaneBatch) : Worker :=
  {| wk_peer := wk_peer w; wk_batches := wk_batches w ++ [batch]; wk_sending := wk_sending w; wk_queued := wk_queued w + lb_bytes batch; wk_ended := wk_ended w |}.

Definition rf_drop (r : Reforwarder) (peer : NodeId) (batch : LaneBatch) : Reforwarder :=
  rf_with_mesh r (note_unsent (rf_mesh r) peer (length (lb_frames batch))).

(** The attempts left. A send to a worker that has ended fails, and the next attempt opens a new lane. Every lane's
    worker is in the table. *)
Fixpoint dispatch_loop (attempts : nat) (r : Reforwarder) (peer : NodeId) (batch : LaneBatch) (now : Z) : Reforwarder * Dispatched :=
  match attempts with
  | O => (rf_drop r peer batch, Dropped)
  | S attempts =>
      let (r, lane) := lane_for r peer in
      match rf_workers r !! ln_worker lane with
      | None => dispatch_loop attempts (rf_with_lanes r (delete peer (rf_lanes r))) peer batch now
      | Some w =>
          if negb (lane_admits (wk_queued w) (lb_bytes batch) (rf_lane_bytes r)) then
            (rf_with_lanes (rf_drop r peer batch) (<[peer := note_dropped lane now]> (rf_lanes r)), Dropped)
          else if wk_ended w then dispatch_loop attempts (rf_with_lanes r (delete peer (rf_lanes r))) peer batch now
          else (rf_with_workers r (<[ln_worker lane := worker_push w batch]> (rf_workers r)), Queued (ln_worker lane))
      end
  end.

Definition dispatch (r : Reforwarder) (peer : NodeId) (frames : list OutFrame) (now : Z) : Reforwarder * Dispatched :=
  if bool_decide (frames = []) || negb (peer_is_live (rf_mesh r) peer) then (r, Skipped)
  else dispatch_loop 2 r peer {| lb_frames := frames; lb_bytes := frames_bytes frames |} now.

Definition retire_departed (r : Reforwarder) : Reforwarder :=
  rf_with_lanes r (filter (fun kv => lane_retired (peer_is_live (rf_mesh r) kv.1) (from_option wk_ended true (rf_workers r !! ln_worker kv.2)) = false) (rf_lanes r)).

(** A worker's turn: it receives the next batch, and, once the mesh has taken the batch's frames, releases its bytes. *)
Definition worker_recv (w : Worker) : option Worker :=
  match wk_ended w, wk_sending w, wk_batches w with
  | false, None, batch :: rest => Some {| wk_peer := wk_peer w; wk_batches := rest; wk_sending := Some batch; wk_queued := wk_queued w; wk_ended := false |}
  | _, _, _ => None
  end.
Definition worker_sent (w : Worker) : option (Worker * LaneBatch) :=
  match wk_ended w, wk_sending w with
  | false, Some batch =>
      Some ({| wk_peer := wk_peer w; wk_batches := wk_batches w; wk_sending := None; wk_queued := wk_queued w - lb_bytes batch; wk_ended := false |}, batch)
  | _, _ => None
  end.

(** [Reforwarder::shutdown]: every lane is closed. *)
Definition close_lanes (r : Reforwarder) : Reforwarder := rf_with_lanes r ∅.

End Lanes.

(** *** Re-forwarding under this node's view *)

Section Reforward.
Context {HS : Hashing} {PM : PostcardMsg} {L : Layout}.

Definition writer_kept (view : OwnershipView) (from : NodeId) (sent_under : Z) (rec : WireRecord) : bool :=
  (Clock.node (wr_ver rec) =? from) && (sent_under =? ov_view_hash view) && bool_decide (from ∈ owners_of view (part_of rec)).

Definition reforward_groups (view : OwnershipView) (self_node from : NodeId) (sender_view_hash hops : Z) (records : list WireRecord) : option (list OwnerGroup) :=
  if (MAX_FORWARD_HOPS <=? hops) || (sender_view_hash =? ov_view_hash view) then None
  else Some (filter (fun g => og_owners g <> [])
    ((fun g => {| og_owners := filter (fun n => n <> from) (og_owners g); og_records := og_records g |}) <$> group_by_owner_set view self_node records)).

(** One group: its frames, encoded once, on the lane of each of its owners. *)
Definition reforward_group (cache : SmolStr) (view_hash hops now : Z) (r : Reforwarder) (g : OwnerGroup) : Reforwarder :=
  let (frames, unencoded) := encode_frames (batch_forward cache view_hash (hops + 1) (og_records g)) in
  let r := foldl (fun r peer => rf_with_mesh r (note_unsent (rf_mesh r) peer unencoded)) r (og_owners g) in
  foldl (fun r peer => (dispatch r peer frames now).1) r (og_owners g).

Definition reforward_stale_view (r : Reforwarder) (view : option OwnershipView) (self_node from : NodeId) (cache : SmolStr)
    (sender_view_hash hops : Z) (records : list WireRecord) (now : Z) : Reforwarder :=
  match view with
  | None => r
  | Some view => foldl (reforward_group cache (ov_view_hash view) hops now) r (default [] (reforward_groups view self_node from sender_view_hash hops records))
  end.

(** *** The loop *)

Context {S : Type} {SO : ShardOps S}.

Record InboundMsg := { im_from : NodeId; im_msg : Msg }.

(** The shards, the lanes, the run being gathered and the instant each peer was last seen streaming. *)
Record LoopState := { lp_shards : gmap SmolStr S; lp_reforwarder : Reforwarder; lp_pending : option PendingRun; lp_seen : gmap NodeId Z }.

Definition lp_with_shards (s : LoopState) (shards : gmap SmolStr S) : LoopState :=
  {| lp_shards := shards; lp_reforwarder := lp_reforwarder s; lp_pending := lp_pending s; lp_seen := lp_seen s |}.
Definition lp_with_reforwarder (s : LoopState) (r : Reforwarder) : LoopState :=
  {| lp_shards := lp_shards s; lp_reforwarder := r; lp_pending := lp_pending s; lp_seen := lp_seen s |}.
Definition lp_with_pending (s : LoopState) (p : option PendingRun) : LoopState :=
  {| lp_shards := lp_shards s; lp_reforwarder := lp_reforwarder s; lp_pending := p; lp_seen := lp_seen s |}.
Definition lp_with_seen (s : LoopState) (seen : gmap NodeId Z) : LoopState :=
  {| lp_shards := lp_shards s; lp_reforwarder := lp_reforwarder s; lp_pending := lp_pending s; lp_seen := seen |}.

(** A call on the shard a name leads to; nothing for a cache not open here. *)
Definition on_shard (s : LoopState) (cache : SmolStr) (f : S -> option S) : option LoopState :=
  match lp_shards s !! cache with
  | Some shard => shard ← f shard; Some (lp_with_shards s (<[cache := shard]> (lp_shards s)))
  | None => Some s
  end.

Definition apply_pending_run (s : LoopState) (run : PendingRun) : option LoopState :=
  on_shard s (pr_cache run) (fun shard =>
    if pr_forwarded run then so_apply_forward_run shard (pr_recs run) (pr_kept run) else so_apply_remote_batch shard (pr_recs run)).

(** The run being gathered, applied. *)
Definition flush_run (s : LoopState) : option LoopState :=
  match lp_pending s with Some run => apply_pending_run (lp_with_pending s None) run | None => Some s end.

Definition queue_run (s : LoopState) (cache : SmolStr) (forwarded : bool) (recs kept : list WireRecord) : option LoopState :=
  match lp_pending s with
  | Some run =>
      if same_run (Some (pr_cache run, pr_forwarded run)) cache forwarded then
        Some (lp_with_pending s (Some {| pr_cache := pr_cache run; pr_forwarded := pr_forwarded run; pr_recs := pr_recs run ++ recs; pr_kept := pr_kept run ++ kept |}))
      else
        s ← flush_run s;
        Some (lp_with_pending s (Some {| pr_cache := cache; pr_forwarded := forwarded; pr_recs := recs; pr_kept := kept |}))
  | None => Some (lp_with_pending s (Some {| pr_cache := cache; pr_forwarded := forwarded; pr_recs := recs; pr_kept := kept |}))
  end.

Definition carries_records (msg : Msg) : bool :=
  match msg with Replicate _ _ | ReplicateBatch _ _ | ForwardBatch _ _ _ _ => true | _ => false end.

Definition note_streaming_peers (s : LoopState) (drained : list InboundMsg) (mono_ms : Z) : LoopState :=
  lp_with_seen s (foldl (fun seen m => if carries_records (im_msg m) then <[im_from m := mono_ms]> seen else seen) (lp_seen s) drained).

(** [InboundActivity::recent] and [retain_live]. *)
Definition recent_stream (seen : gmap NodeId Z) (peer : NodeId) (window mono_ms : Z) : bool :=
  is_some_and (seen !! peer) (fun at_ => saturating_sub mono_ms at_ <=? window).
Definition retain_live (seen : gmap NodeId Z) (live : list NodeId) : gmap NodeId Z := filter (fun kv => kv.1 ∈ live) seen.

(** One drained message. *)
Definition handle_msg (self_node : NodeId) (now : Z) (s : LoopState) (m : InboundMsg) : option LoopState :=
  match im_msg m with
  | Replicate cache rec => queue_run s cache false [rec] []
  | ReplicateBatch cache recs => queue_run s cache false recs []
  | ForwardBatch cache view_hash hops recs =>
      match lp_shards s !! cache with
      | Some shard =>
          let s := lp_with_reforwarder s
            (reforward_stale_view (lp_reforwarder s) (so_ownership_view shard) self_node (im_from m) cache view_hash hops recs now) in
          match so_ownership_view shard with
          | Some view =>
              queue_run s cache true (filter (fun rec => writer_kept view (im_from m) view_hash rec = false) recs)
                (filter (fun rec => writer_kept view (im_from m) view_hash rec = true) recs)
          | None => queue_run s cache true recs []
          end
      | None => queue_run s cache true recs []
      end
  | Invalidate cache key ver => s ← flush_run s; on_shard s cache (fun shard => so_invalidate shard key ver)
  | RefreshHint cache key ver => on_shard s cache (fun shard => so_refresh_hint shard key ver)
  | _ => Some s
  end.

Definition handle_all (self_node : NodeId) (now : Z) (s : LoopState) (drained : list InboundMsg) : option LoopState :=
  foldl (fun acc m => s ← acc; handle_msg self_node now s m) (Some s) drained.

(** One turn of the loop over what a wake drained. *)
Definition drain_burst (self_node : NodeId) (now : Z) (s : LoopState) (drained : list InboundMsg) : option LoopState :=
  let s := note_streaming_peers s drained now in
  let s := lp_with_reforwarder s (retire_departed (lp_reforwarder s)) in
  s ← handle_all self_node now s drained;
  flush_run s.

End Reforward.
Arguments LoopState S : clear implicits.

(** ** A burst is its messages, in turn *)

Definition both_some {S} (rel : S -> S -> Prop) (x y : option S) : Prop := exists t t', x = Some t /\ y = Some t' /\ rel t t'.

(** What the loop relies on: two shards in relation are well formed and hold the same; calls keep that, and a batch
    is its halves applied in turn. A record is one a shard may be given. *)
Class ShardOpsLaws (S : Type) {SO : ShardOps S} := {
  sl_rel : S -> S -> Prop;
  sl_rec : WireRecord -> Prop;
  sl_sym s s' : sl_rel s s' -> sl_rel s' s;
  sl_trans s1 s2 s3 : sl_rel s1 s2 -> sl_rel s2 s3 -> sl_rel s1 s3;
  sl_view s s' : sl_rel s s' -> so_ownership_view s = so_ownership_view s';
  sl_keeps_view s t : (exists recs, so_apply_remote_batch s recs = Some t) \/ (exists held kept, so_apply_forward_run s held kept = Some t) ->
    so_ownership_view t = so_ownership_view s;
  sl_remote s s' recs : sl_rel s s' -> Forall sl_rec recs -> both_some sl_rel (so_apply_remote_batch s recs) (so_apply_remote_batch s' recs);
  sl_forward s s' held kept : sl_rel s s' -> Forall sl_rec held -> Forall sl_rec kept ->
    both_some sl_rel (so_apply_forward_run s held kept) (so_apply_forward_run s' held kept);
  sl_remote_app s a b : sl_rel s s -> Forall sl_rec a -> Forall sl_rec b ->
    both_some sl_rel (so_apply_remote_batch s (a ++ b)) (s1 ← so_apply_remote_batch s a; so_apply_remote_batch s1 b);
  sl_forward_app s h1 k1 h2 k2 : sl_rel s s -> Forall sl_rec h1 -> Forall sl_rec k1 -> Forall sl_rec h2 -> Forall sl_rec k2 ->
    both_some sl_rel (so_apply_forward_run s (h1 ++ h2) (k1 ++ k2)) (s1 ← so_apply_forward_run s h1 k1; so_apply_forward_run s1 h2 k2);
  sl_invalidate s s' key ver : sl_rel s s' -> both_some sl_rel (so_invalidate s key ver) (so_invalidate s' key ver);
  sl_hint s key ver : sl_rel s s -> exists t, so_refresh_hint s key ver = Some t /\ sl_rel t s;
}.

Section Burst.
Context {HS : Hashing} {PM : PostcardMsg} {L : Layout} {S : Type} {SO : ShardOps S} {SL : ShardOpsLaws S}.
Implicit Types s : LoopState S.

Definition shards_rel (m m' : gmap SmolStr S) : Prop := forall c, option_Forall2 sl_rel (m !! c) (m' !! c).

Lemma shards_rel_sym m m' : shards_rel m m' -> shards_rel m' m.
Proof. intros H c. destruct (H c); constructor. by apply sl_sym. Qed.
Lemma shards_rel_trans m1 m2 m3 : shards_rel m1 m2 -> shards_rel m2 m3 -> shards_rel m1 m3.
Proof. intros H H' c. specialize (H c). specialize (H' c). destruct H; inversion H'; constructor. by eapply sl_trans. Qed.
Lemma shards_rel_left m m' : shards_rel m m' -> shards_rel m m.
Proof. intros H. eapply shards_rel_trans; [exact H|by apply shards_rel_sym]. Qed.
Lemma shards_rel_insert m m' c t t' : shards_rel m m' -> sl_rel t t' -> shards_rel (<[c := t]> m) (<[c := t']> m').
Proof. intros H Ht c'. destruct (decide (c = c')) as [<-|]; [rewrite !lookup_insert_eq; by constructor|by rewrite !lookup_insert_ne]. Qed.

Definition same_views (m m' : gmap SmolStr S) : Prop := forall c, so_ownership_view <$> m !! c = so_ownership_view <$> m' !! c.
Lemma shards_rel_views m m' : shards_rel m m' -> same_views m m'.
Proof. intros H c. destruct (H c); cbn; [|done]. f_equal. by apply sl_view. Qed.

Lemma with_shards_id s : lp_with_shards s (lp_shards s) = s.
Proof. by destruct s. Qed.

Lemma on_shard_rel s s' c f f' : shards_rel (lp_shards s) (lp_shards s') -> (forall x x', sl_rel x x' -> both_some sl_rel (f x) (f' x')) ->
  exists m m', on_shard s c f = Some (lp_with_shards s m) /\ on_shard s' c f' = Some (lp_with_shards s' m') /\ shards_rel m m'.
Proof.
  intros Hs Hf. unfold on_shard. destruct (Hs c) as [x x' Hx|].
  - destruct (Hf x x' Hx) as (t & t' & -> & -> & Ht). cbn. eexists _, _. split_and!; [done|done|]. by apply shards_rel_insert.
  - exists (lp_shards s), (lp_shards s'). by rewrite !with_shards_id.
Qed.

Lemma on_shard_view s c f m : (forall x t, f x = Some t -> so_ownership_view t = so_ownership_view x) -> on_shard s c f = Some (lp_with_shards s m) ->
  same_views m (lp_shards s).
Proof.
  intros Hf. unfold on_shard. destruct (lp_shards s !! c) as [x|] eqn:Ex.
  - destruct (f x) as [t|] eqn:Et; [|done]. cbn. intros [= <-] c'. destruct (decide (c = c')) as [<-|]; [|by rewrite lookup_insert_ne].
    rewrite lookup_insert_eq, Ex. cbn. f_equal. by apply Hf.
  - rewrite <-(with_shards_id s) at 1. intros [= <-]. by intros c'.
Qed.

Definition run_call (run : PendingRun) (shard : S) : option S :=
  if pr_forwarded run then so_apply_forward_run shard (pr_recs run) (pr_kept run) else so_apply_remote_batch shard (pr_recs run).
Definition run_ok (run : PendingRun) : Prop := Forall sl_rec (pr_recs run) /\ Forall sl_rec (pr_kept run).

Lemma run_call_rel run x x' : run_ok run -> sl_rel x x' -> both_some sl_rel (run_call run x) (run_call run x').
Proof. intros [H1 H2] Hx. unfold run_call. destruct (pr_forwarded run); [by apply sl_forward|by apply sl_remote]. Qed.
Lemma run_call_view run x t : run_call run x = Some t -> so_ownership_view t = so_ownership_view x.
Proof. unfold run_call. intros H. apply sl_keeps_view. destruct (pr_forwarded run); [right|left]; eauto. Qed.

Definition join_run (run run' : PendingRun) : PendingRun :=
  {| pr_cache := pr_cache run; pr_forwarded := pr_forwarded run; pr_recs := pr_recs run ++ pr_recs run'; pr_kept := pr_kept run ++ pr_kept run' |}.
Lemma run_call_join run run' x : pr_forwarded run = pr_forwarded run' -> run_ok run -> run_ok run' -> sl_rel x x ->
  both_some sl_rel (run_call (join_run run run') x) (x1 ← run_call run x; run_call run' x1).
Proof.
  intros Hf [H1 H2] [H3 H4] Hx. unfold run_call, join_run. cbn. rewrite <-Hf. destruct (pr_forwarded run); [by apply sl_forward_app|by apply sl_remote_app].
Qed.

(** The loop's state and the reference's, which has applied the run the loop still gathers. *)
Record sim (s s' : LoopState S) : Prop := {
  sim_none : lp_pending s' = None;
  sim_reforwarder : lp_reforwarder s = lp_reforwarder s';
  sim_seen : lp_seen s = lp_seen s';
  sim_wf : shards_rel (lp_shards s) (lp_shards s);
  sim_run : from_option run_ok True (lp_pending s);
  sim_views : same_views (lp_shards s) (lp_shards s');
  sim_flush : exists m, flush_run s = Some (lp_with_shards (lp_with_pending s None) m) /\ shards_rel m (lp_shards s');
}.

Lemma flush_gives s m : flush_run s = Some (lp_with_shards (lp_with_pending s None) m) -> same_views m (lp_shards s).
Proof.
  unfold flush_run. destruct (lp_pending s) as [run|] eqn:Ep.
  - unfold apply_pending_run. intros H. apply (on_shard_view (lp_with_pending s None) (pr_cache run) (run_call run)); [apply run_call_view|exact H].
  - intros [= H]. apply (f_equal lp_shards) in H. cbn in H. rewrite <-H. by intros c.
Qed.

(** A state whose flush is known simulates. *)
Lemma sim_intro s s' : lp_pending s' = None -> lp_reforwarder s = lp_reforwarder s' -> lp_seen s = lp_seen s' -> shards_rel (lp_shards s) (lp_shards s) ->
  from_option run_ok True (lp_pending s) ->
  (exists m, flush_run s = Some (lp_with_shards (lp_with_pending s None) m) /\ shards_rel m (lp_shards s')) -> sim s s'.
Proof.
  intros H1 H2 H3 H4 H5 (m & Hm & Hr). split; try done; [|eauto]. intros c. rewrite <-(flush_gives s m Hm c). by apply shards_rel_views.
Qed.

(** The reference: each message's run is applied before the next message is looked at. *)
Definition handle_alone (self_node : NodeId) (now : Z) (s : LoopState S) (m : InboundMsg) : option (LoopState S) :=
  s ← handle_msg self_node now s m; flush_run s.
Definition handle_each (self_node : NodeId) (now : Z) (s : LoopState S) (drained : list InboundMsg) : option (LoopState S) :=
  foldl (fun acc m => s ← acc; handle_alone self_node now s m) (Some s) drained.

(** A fresh run on both sides, once the loop's has been applied. *)
Lemma sim_fresh s s' m run : lp_pending s' = None -> lp_reforwarder s = lp_reforwarder s' -> lp_seen s = lp_seen s' -> shards_rel m (lp_shards s') -> run_ok run ->
  exists t', apply_pending_run s' run = Some t' /\ sim (lp_with_pending (lp_with_shards s m) (Some run)) t'.
Proof.
  intros H1 H2 H3 Hm Hrun.
  destruct (on_shard_rel (lp_with_pending (lp_with_shards s m) None) s' (pr_cache run) (run_call run) (run_call run) Hm) as (m1 & m2 & E1 & E2 & Hm12).
  { intros x x'. by apply run_call_rel. }
  exists (lp_with_shards s' m2). split; [exact E2|]. apply sim_intro; try done; [by eapply shards_rel_left|]. exists m1. split; [exact E1|done].
Qed.

(** A run that joins the one being gathered. *)
Lemma sim_join s s' m old run : lp_pending s = Some old -> pr_cache old = pr_cache run -> pr_forwarded old = pr_forwarded run -> run_ok old -> run_ok run ->
  lp_pending s' = None -> lp_reforwarder s = lp_reforwarder s' -> lp_seen s = lp_seen s' -> shards_rel (lp_shards s) (lp_shards s) ->
  flush_run s = Some (lp_with_shards (lp_with_pending s None) m) -> shards_rel m (lp_shards s') ->
  exists t', apply_pending_run s' run = Some t' /\ sim (lp_with_pending s (Some (join_run old run))) t'.
Proof.
  intros Ep Ec Ef Hold Hrun H1 H2 H3 H4 Hm Hr. unfold flush_run in Hm. rewrite Ep in Hm. unfold apply_pending_run, on_shard in Hm. cbn [lp_shards lp_with_pending] in Hm.
  assert (Hj : run_ok (join_run old run)) by (destruct Hold, Hrun; split; by apply Forall_app).
  destruct (lp_shards s !! pr_cache old) as [x|] eqn:Ex.
  - assert (Hx : sl_rel x x) by (specialize (H4 (pr_cache old)); rewrite Ex in H4; by inversion H4).
    destruct (run_call_join old run x Ef Hold Hrun Hx) as (t & t1' & Et & E1 & Ht).
    fold (run_call old x) in Hm. destruct (run_call old x) as [x1|] eqn:Ex1; [|done]. cbn [mbind option_bind] in Hm, E1.
    apply (f_equal (fmap lp_shards)) in Hm. cbn in Hm. injection Hm as <-.
    assert (Hx1 : exists x', lp_shards s' !! pr_cache run = Some x' /\ sl_rel x1 x').
    { specialize (Hr (pr_cache old)). rewrite lookup_insert_eq, Ec in Hr. inversion Hr; subst. eauto. }
    destruct Hx1 as (x' & Ex' & Hx1). destruct (run_call_rel run x1 x' Hrun Hx1) as (t1 & t' & E1' & Et' & Ht').
    rewrite E1 in E1'. injection E1' as <-. exists (lp_with_shards s' (<[pr_cache run := t']> (lp_shards s'))). split.
    { unfold apply_pending_run, on_shard. rewrite Ex'. fold (run_call run x'). by rewrite Et'. }
    apply sim_intro; try done. exists (<[pr_cache run := t]> (lp_shards s)). split.
    { unfold flush_run, apply_pending_run, on_shard. cbn [lp_pending lp_with_pending lp_shards]. change (pr_cache (join_run old run)) with (pr_cache old). rewrite Ex.
      fold (run_call (join_run old run) x). rewrite Et. cbn. by rewrite Ec. }
    intros c. cbn [lp_shards lp_with_shards]. destruct (decide (pr_cache run = c)) as [<-|Hne]; [rewrite !lookup_insert_eq; constructor; by eapply sl_trans|].
    rewrite !lookup_insert_ne by done. specialize (Hr c). by rewrite lookup_insert_ne in Hr by congruence.
  - apply (f_equal (fmap lp_shards)) in Hm. cbn in Hm. injection Hm as <-.
    assert (Ex' : lp_shards s' !! pr_cache run = None) by (specialize (Hr (pr_cache old)); rewrite Ex in Hr; rewrite <-Ec; by inversion Hr).
    exists s'. split; [unfold apply_pending_run, on_shard; by rewrite Ex'|].
    apply sim_intro; try done. exists (lp_shards s). split; [|done].
    unfold flush_run, apply_pending_run, on_shard. cbn [lp_pending lp_with_pending lp_shards]. change (pr_cache (join_run old run)) with (pr_cache old). by rewrite Ex.
Qed.

Lemma sim_queue s s' cache forwarded recs kept : sim s s' -> Forall sl_rec recs -> Forall sl_rec kept ->
  exists t t', queue_run s cache forwarded recs kept = Some t /\ (s1 ← queue_run s' cache forwarded recs kept; flush_run s1) = Some t' /\ sim t t'.
Proof.
  intros [H1 H2 H3 H4 H5 H6 (m & Hm & Hr)] Hrecs Hkept. set (run := {| pr_cache := cache; pr_forwarded := forwarded; pr_recs := recs; pr_kept := kept |}).
  assert (Hrun : run_ok run) by done.
  assert (Href : (s1 ← queue_run s' cache forwarded recs kept; flush_run s1) = apply_pending_run s' run).
  { unfold queue_run. rewrite H1. cbn [mbind option_bind flush_run lp_pending lp_with_pending]. unfold flush_run. cbn. fold run. f_equal. destruct s'; cbn in *; by subst. }
  rewrite Href. clear Href. unfold queue_run. destruct (lp_pending s) as [old|] eqn:Ep.
  - unfold same_run. cbn [is_some_and fst snd]. destruct (bool_decide (pr_cache old = cache) && Bool.eqb (pr_forwarded old) forwarded) eqn:Esame.
    + apply andb_true_iff in Esame as [Ec%bool_decide_eq_true Ef%eqb_prop].
      destruct (sim_join s s' m old run Ep Ec Ef H5 Hrun H1 H2 H3 H4 Hm Hr) as (t' & Et' & Hsim). by eexists _, t'.
    + rewrite Hm. cbn [mbind option_bind].
      destruct (sim_fresh (lp_with_pending s None) s' m run H1 H2 H3 Hr Hrun) as (t' & Et' & Hsim). by eexists _, t'.
  - unfold flush_run in Hm. rewrite Ep in Hm. injection Hm as Hm. apply (f_equal lp_shards) in Hm. cbn in Hm. subst m.
    destruct (sim_fresh s s' (lp_shards s) run H1 H2 H3 Hr Hrun) as (t' & Et' & Hsim). rewrite with_shards_id in Hsim. by eexists _, t'.
Qed.

(** The records a burst brings. *)
Definition burst_ok (drained : list InboundMsg) : Prop := Forall (fun m => Forall sl_rec (msg_records (im_msg m))) drained.

Lemma flush_none s : lp_pending s = None -> flush_run s = Some s.
Proof. unfold flush_run. by intros ->. Qed.

Lemma hint_rel s cache key ver : shards_rel (lp_shards s) (lp_shards s) ->
  exists m, on_shard s cache (fun x => so_refresh_hint x key ver) = Some (lp_with_shards s m) /\ shards_rel m (lp_shards s).
Proof.
  intros H. unfold on_shard. destruct (lp_shards s !! cache) as [x|] eqn:Ex; [|exists (lp_shards s); by rewrite with_shards_id].
  assert (Hx : sl_rel x x) by (specialize (H cache); rewrite Ex in H; by inversion H). destruct (sl_hint x key ver Hx) as (t & -> & Ht). cbn. eexists. split; [done|].
  rewrite <-(insert_id (lp_shards s) cache x Ex) at 2. by apply shards_rel_insert.
Qed.

Lemma sim_handle self_node now s s' m : sim s s' -> Forall sl_rec (msg_records (im_msg m)) ->
  exists t t', handle_msg self_node now s m = Some t /\ handle_alone self_node now s' m = Some t' /\ sim t t'.
Proof.
  intros Hsim Hok. unfold handle_alone, handle_msg.
  assert (Hidle : exists t t', Some s = Some t /\ (s1 ← Some s'; flush_run s1) = Some t' /\ sim t t').
  { exists s, s'. split; [done|]. split; [|done]. cbn. apply flush_none, Hsim. }
  destruct (im_msg m) eqn:Em; cbn [msg_records] in Hok; try exact Hidle.
  - (* Invalidate *)
    destruct Hsim as [H1 H2 H3 H4 H5 H6 (m1 & Hm & Hr)]. rewrite Hm, (flush_none s' H1). cbn [mbind option_bind].
    destruct (on_shard_rel (lp_with_shards (lp_with_pending s None) m1) s' cache (fun x => so_invalidate x key ver) (fun x => so_invalidate x key ver) Hr)
      as (m2 & m2' & -> & -> & Hm2); [intros; by apply sl_invalidate|]. cbn [mbind option_bind].
    exists (lp_with_shards (lp_with_shards (lp_with_pending s None) m1) m2), (lp_with_shards s' m2'). split; [done|]. split; [by apply flush_none|].
    apply sim_intro; try done; [by eapply shards_rel_left|]. by exists m2.
  - by apply sim_queue.
  - by apply sim_queue.
  - (* ForwardBatch *)
    pose proof (sim_views _ _ Hsim cache) as Hv. destruct (lp_shards s !! cache) as [x|], (lp_shards s' !! cache) as [x'|]; try done; [|by apply sim_queue].
    cbn in Hv. injection Hv as Hv. rewrite <-Hv, (sim_reforwarder _ _ Hsim). set (r := reforward_stale_view _ _ _ _ _ _ _ _ _).
    assert (Hsim' : sim (lp_with_reforwarder s r) (lp_with_reforwarder s' r)).
    { destruct Hsim as [H1 H2 H3 H4 H5 H6 (m1 & Hm & Hr)]. split; try done. exists m1. split; [|done]. revert Hm. unfold flush_run. cbn.
      destruct (lp_pending s) as [run|]; [|intros [= Hm]; f_equal; by rewrite Hm]. unfold apply_pending_run, on_shard. cbn.
      destruct (lp_shards s !! pr_cache run) as [x0|]; [|intros [= Hm]; by rewrite <-Hm]. destruct (if pr_forwarded run then _ else _); cbn; [|done]. by intros [= <-]. }
    destruct (so_ownership_view x) as [view|]; apply sim_queue; try done; apply Forall_forall; intros rec [_ Hrec]%list_elem_of_filter; rewrite Forall_forall in Hok; by apply Hok.
  - (* RefreshHint *)
    destruct Hsim as [H1 H2 H3 H4 H5 H6 (m1 & Hm & Hr)].
    destruct (hint_rel s cache key ver H4) as (m2 & -> & Hm2).
    destruct (hint_rel s' cache key ver (shards_rel_left _ _ (shards_rel_sym _ _ Hr))) as (m2' & -> & Hm2').
    exists (lp_with_shards s m2), (lp_with_shards s' m2'). split; [done|]. split; [by apply flush_none|].
    apply sim_intro; try done; [by eapply shards_rel_left|]. unfold flush_run in *. cbn [lp_pending lp_with_shards]. destruct (lp_pending s) as [run|] eqn:Ep.
    + destruct (on_shard_rel (lp_with_pending (lp_with_shards s m2) None) (lp_with_pending s None) (pr_cache run) (run_call run) (run_call run) Hm2)
        as (m3 & m3' & E3 & E3' & Hm3); [intros x x'; by apply run_call_rel|].
      unfold apply_pending_run in Hm. fold (run_call run) in Hm. change (on_shard (lp_with_pending s None) (pr_cache run) (run_call run) = Some (lp_with_shards (lp_with_pending s None) m1)) in Hm.
      rewrite Hm in E3'. injection E3' as <-. exists m3. split; [exact E3|]. eapply shards_rel_trans; [exact Hm3|]. eapply shards_rel_trans; [exact Hr|]. by apply shards_rel_sym.
    + injection Hm as Hm. apply (f_equal lp_shards) in Hm. cbn in Hm. subst m1. exists m2. split; [destruct s; cbn in *; by subst|].
      eapply shards_rel_trans; [exact Hm2|]. eapply shards_rel_trans; [exact Hr|]. by apply shards_rel_sym.
Qed.

Lemma sim_all self_node now drained : burst_ok drained -> forall s s', sim s s' ->
  exists t t', handle_all self_node now s drained = Some t /\ handle_each self_node now s' drained = Some t' /\ sim t t'.
Proof.
  unfold handle_all, handle_each. induction 1 as [|m drained Hm _ IH]; intros s s' Hs; [by exists s, s'|].
  cbn [foldl mbind option_bind]. destruct (sim_handle self_node now s s' m Hs Hm) as (t & t' & -> & -> & Ht). by apply IH.
Qed.

(** The loop's turn and the reference end with the same lanes and with shards in relation. *)
Lemma drain_burst_each self_node now s drained : lp_pending s = None -> shards_rel (lp_shards s) (lp_shards s) -> burst_ok drained ->
  let s0 := lp_with_reforwarder (note_streaming_peers s drained now) (retire_departed (lp_reforwarder s)) in
  exists t t', drain_burst self_node now s drained = Some t /\ handle_each self_node now s0 drained = Some t' /\
    lp_reforwarder t = lp_reforwarder t' /\ lp_seen t = lp_seen t' /\ lp_pending t = None /\ shards_rel (lp_shards t) (lp_shards t').
Proof.
  intros Hp Hwf Hok. cbv zeta. set (s0 := lp_with_reforwarder _ _). assert (Hs0 : sim s0 s0).
  { apply sim_intro; try done; cbn; rewrite ?Hp; try done. exists (lp_shards s0). split; [|exact Hwf]. unfold flush_run. cbn. rewrite Hp. unfold s0. destruct s; cbn in *; by subst. }
  destruct (sim_all self_node now drained Hok s0 s0 Hs0) as (t & t' & E & E' & Hsim). change (drain_burst self_node now s drained) with (s1 ← handle_all self_node now s0 drained; flush_run s1). rewrite E. cbn [mbind option_bind].
  destruct Hsim as [H1 H2 H3 H4 H5 H6 (m & Hm & Hr)]. rewrite Hm. by eexists _, t'.
Qed.

End Burst.

(** ** The shard as the loop's interface *)

(** A registered shard: what it applies under, and its state. *)
Record Registered (V : Type) {HS : Hashing} := { rg_config : InConfig V; rg_shard : InShard V }.
Arguments rg_config {V HS}.
Arguments rg_shard {V HS}.

Section Shards.
Context {PU : PostcardU32} {HS : Hashing} {V : Type} {VC : ValueCodec V} {IS : IdleSort}.

Definition rg_with (s : Registered V) (shard : InShard V) : Registered V := {| rg_config := rg_config s; rg_shard := shard |}.

(** A hint changes nothing the model of a shard keeps: it asks for a reload. *)
Definition registered_ops {R : ConflictResolver} (now : Z) : ShardOps (Registered V) := {|
  so_ownership_view s := fst <$> ic_residency (rg_config s);
  so_apply_remote_batch s recs := rg_with s <$> apply_remote_batch (rg_config s) (rg_shard s) recs now;
  so_apply_forward_run s held kept := rg_with s <$> apply_forward_run (rg_config s) (rg_shard s) held kept now;
  so_invalidate s key ver :=
    Some (rg_with s (invalidate_key (rg_config s) now (rg_shard s) {| wr_key := key; wr_value := None; wr_ver := ver; wr_expires_at_ms := None |}));
  so_refresh_hint s key ver := Some s;
|}.

End Shards.

Section ShardLaws.
Context {PU : PostcardU32} {HS : Hashing} {V : Type} {VC : ValueCodec V} {IS : IdleSort} {PUL : PostcardU32Laws}.

(** Both well formed, under the same settings, with the same records, the same parked forwards and the same
    records handed on, in whatever order. *)
Record same_shard (s s' : Registered V) : Prop := {
  ss_config : rg_config s = rg_config s';
  ss_mode : inbound_scope (ic_mode (rg_config s)) = AnyScope;
  ss_inv : engine_inv (in_engine (rg_shard s));
  ss_inv' : engine_inv (in_engine (rg_shard s'));
  ss_cap : max_capacity (cfg (in_engine (rg_shard s))) = u64_max;
  ss_same : same_config (in_engine (rg_shard s)) (in_engine (rg_shard s'));
  ss_records k : engine_record (in_engine (rg_shard s)) k = engine_record (in_engine (rg_shard s')) k;
  ss_hold : in_hold (rg_shard s) = in_hold (rg_shard s');
  ss_forwards : in_forwards (rg_shard s) ≡ₚ in_forwards (rg_shard s');
}.

Lemma same_shard_sym s s' : same_shard s s' -> same_shard s' s.
Proof. intros [H1 H2 H3 H4 H5 [H6 H6'] H7 H8 H9]. split; try done; try by symmetry. all: congruence. Qed.
Lemma same_shard_trans s1 s2 s3 : same_shard s1 s2 -> same_shard s2 s3 -> same_shard s1 s3.
Proof.
  intros [] []. split; try done; try (by etrans); congruence.
Qed.

(** One record per key and version, of keys that fit. *)
Record one_writer (U : WireRecord -> Prop) : Prop := {
  ow_fits rec : U rec -> key_fits (wr_key rec);
  ow_unique rec rec' : U rec -> U rec' -> wr_key rec = wr_key rec' -> wr_ver rec = wr_ver rec' -> rec = rec';
}.

Context (U : WireRecord -> Prop) (HU : one_writer U) (now : Z).
#[local] Instance lww_ops : ShardOps (Registered V) := registered_ops (R := LwwResolver) now.

Abbreviation taken c recs := (omap (stored_from c now) (kept_by_guard c recs)).

Lemma kept_app (c : InConfig V) a b : kept_by_guard c (a ++ b) = kept_by_guard c a ++ kept_by_guard c b.
Proof. unfold kept_by_guard. destruct (ic_residency c); [by rewrite filter_app|done]. Qed.
Lemma handed_app (c : InConfig V) a b : handed_on c (a ++ b) = handed_on c a ++ handed_on c b.
Proof. unfold handed_on. destruct (ic_residency c); [by rewrite !filter_app|done]. Qed.
Lemma taken_perm (c : InConfig V) a b : a ≡ₚ b -> taken c a ≡ₚ taken c b /\ handed_on c a ≡ₚ handed_on c b.
Proof.
  intros H. assert (Hk : kept_by_guard c a ≡ₚ kept_by_guard c b) by (unfold kept_by_guard; destruct (ic_residency c); by rewrite ?H). split; [by rewrite Hk|].
  unfold handed_on. destruct (ic_residency c); by rewrite ?H.
Qed.

Lemma taken_consistent (c : InConfig V) ctx recs a b : Forall U recs -> a ∈ entry_write ctx <$> taken c recs -> b ∈ entry_write ctx <$> taken c recs -> consistent a b.
Proof.
  intros Hu Ha Hb Hk Hv. rewrite Forall_forall in Hu.
  assert (Hfrom : forall w, w ∈ entry_write ctx <$> taken c recs -> exists rec en, U rec /\ stored_from c now rec = Some en /\ w = entry_write ctx en /\ wt_key w = wr_key rec /\ wt_ver w = wr_ver rec).
  { intros w (en & -> & (rec & Hrec & Hen)%list_elem_of_omap)%list_elem_of_fmap. exists rec, en. assert (rec ∈ recs) as Hin.
    { unfold kept_by_guard in Hrec. destruct (ic_residency c); [by apply list_elem_of_filter in Hrec as [_ ?]|done]. }
    split; [by apply Hu|]. split; [done|]. split; [done|]. unfold stored_from in Hen. destruct (_ && _); [|done]. apply fmap_Some in Hen as (i & _ & ->). done. }
  destruct (Hfrom a Ha) as (ra & ea & Hua & Hsa & -> & Hka & Hva), (Hfrom b Hb) as (rb & eb & Hub & Hsb & -> & Hkb & Hvb).
  assert (ra = rb) as -> by (apply (ow_unique U HU); congruence). rewrite Hsa in Hsb. by injection Hsb as ->.
Qed.

Lemma lww_fold_perm (c : InConfig V) ctx k r a b : Forall U a -> a ≡ₚ b ->
  foldl (lww_join k) r (entry_write ctx <$> taken c a) = foldl (lww_join k) r (entry_write ctx <$> taken c b).
Proof.
  intros Hu Hp. apply foldl_perm; [apply fmap_Permutation, taken_perm, Hp|]. intros x y s Hx Hy. apply lww_join_comm. by eapply taken_consistent.
Qed.

(** The same records, in any order, with the same ones to hold. *)
Lemma inbound_rel s s' recs recs' i i' : same_shard s s' -> Forall U recs -> recs ≡ₚ recs' -> take (inbound_held i) recs = take (inbound_held i') recs' ->
  both_some same_shard (rg_with s <$> apply_inbound (R := LwwResolver) (rg_config s) (rg_shard s) recs i now)
                       (rg_with s' <$> apply_inbound (R := LwwResolver) (rg_config s') (rg_shard s') recs' i' now).
Proof.
  intros [H1 H2 H3 H4 H5 H6 H7 H8 H9] Hu Hp Ht.
  assert (Hf : Forall (fun rec => key_fits (wr_key rec)) recs) by (eapply Forall_impl; [exact Hu|]; apply ow_fits, HU).
  assert (Hf' : Forall (fun rec => key_fits (wr_key rec)) recs') by (by rewrite <-Hp).
  destruct (apply_inbound_lww (rg_config s) (rg_shard s) recs i now H3 H5 H2 Hf) as (t & Et & A1 & A2 & A3 & A4 & A5).
  rewrite <-H1. destruct (apply_inbound_lww (rg_config s) (rg_shard s') recs' i' now H4 ltac:(by destruct H6 as [-> _]) H2 Hf') as (t' & Et' & B1 & B2 & B3 & B4 & B5).
  rewrite Et, Et'. eexists _, _. split_and!; [done|done|]. split; cbn; try done.
  - destruct A2 as [-> _]. done.
  - destruct A2, B2, H6. split; congruence.
  - intros k. rewrite A3, B3, <-H7, <-(lww_fold_perm _ _ _ _ recs recs' Hu Hp). rewrite (batch_ctx_same (in_engine (rg_shard s)) (in_engine (rg_shard s'))) by done. done.
  - by rewrite A5, B5, H8, Ht.
  - rewrite A4, B4, H9. by rewrite (proj2 (taken_perm (rg_config s) _ _ Hp)).
Qed.

(** Two batches in turn are one. *)
Lemma inbound_split s recs a b i ia ib : same_shard s s -> Forall U recs -> recs ≡ₚ a ++ b ->
  take (inbound_held i) recs = take (inbound_held ia) a ++ take (inbound_held ib) b ->
  both_some same_shard (rg_with s <$> apply_inbound (R := LwwResolver) (rg_config s) (rg_shard s) recs i now)
    (s1 ← rg_with s <$> apply_inbound (R := LwwResolver) (rg_config s) (rg_shard s) a ia now;
     rg_with s1 <$> apply_inbound (R := LwwResolver) (rg_config s1) (rg_shard s1) b ib now).
Proof.
  intros [H1 H2 H3 _ H5 H6 H7 H8 H9] Hu Hp Ht.
  assert (Hf : Forall (fun rec => key_fits (wr_key rec)) recs) by (eapply Forall_impl; [exact Hu|]; apply ow_fits, HU).
  assert (Hab : Forall (fun rec => key_fits (wr_key rec)) a /\ Forall (fun rec => key_fits (wr_key rec)) b) by (apply Forall_app; by rewrite <-Hp).
  destruct (apply_inbound_lww (rg_config s) (rg_shard s) recs i now H3 H5 H2 Hf) as (t & -> & A1 & A2 & A3 & A4 & A5).
  destruct (apply_inbound_lww (rg_config s) (rg_shard s) a ia now H3 H5 H2 (proj1 Hab)) as (t1 & -> & B1 & B2 & B3 & B4 & B5). cbn [mbind option_bind fmap option_fmap option_map rg_config rg_shard rg_with].
  assert (Hc1 : max_capacity (cfg (in_engine t1)) = u64_max) by (by destruct B2 as [-> _]).
  destruct (apply_inbound_lww (rg_config s) t1 b ib now B1 Hc1 H2 (proj2 Hab)) as (t2 & -> & C1 & C2 & C3 & C4 & C5).
  eexists _, _. split_and!; [done|done|]. split; cbn; try done.
  - by destruct A2 as [-> _].
  - destruct A2, B2, C2. split; congruence.
  - intros k. rewrite A3, C3, B3, (lww_fold_perm _ _ _ _ recs (a ++ b) Hu Hp), kept_app, omap_app, fmap_app, foldl_app.
    by rewrite (batch_ctx_same (in_engine (rg_shard s)) (in_engine t1)).
  - by rewrite A5, C5, B5, Ht, kept_app, filter_app, foldl_app.
  - rewrite A4, C4, B4, (proj2 (taken_perm (rg_config s) _ _ Hp)), handed_app. by rewrite app_assoc.
Qed.

Lemma invalidate_same_config (e : Engine V) k ver : same_config e (invalidate e k ver).1.
Proof.
  unfold invalidate. destruct (is_some_and _ _); [done|]. destruct (negb _); [done|]. unfold remove_live_at. destruct (remove_live _ _) as [[? ?] [?|]]; cbn; try done.
Qed.

Lemma invalidate_rel s s' key ver : same_shard s s' -> both_some same_shard (so_invalidate s key ver) (so_invalidate s' key ver).
Proof.
  intros Hs. pose proof Hs as [H1 H2 H3 H4 H5 H6 H7 H8 H9]. cbn [so_invalidate lww_ops registered_ops]. eexists _, _. split_and!; [done|done|].
  rewrite <-H1. unfold invalidate_key. set (rec := {| wr_key := key; wr_value := None; wr_ver := ver; wr_expires_at_ms := None |}).
  pose proof (observe_remote_spec (rg_config s) (rg_shard s) now (wr_ver rec)) as (A1 & A2 & A3 & A4).
  pose proof (observe_remote_spec (rg_config s) (rg_shard s') now (wr_ver rec)) as (B1 & B2 & B3 & B4).
  destruct (observe_remote _ (rg_shard s) now _) as [t acc], (observe_remote _ (rg_shard s') now _) as [t' acc']. cbn [fst snd] in *. subst acc acc'.
  destruct (_ && _); [|split; cbn; rewrite ?A2, ?A3, ?A4, ?B2, ?B3, ?B4; done].
  rewrite A2, B2. pose proof (invalidate_exact (in_engine (rg_shard s)) key ver H3) as HI. pose proof (invalidate_exact (in_engine (rg_shard s')) key ver H4) as HI'.
  pose proof (invalidate_same_config (in_engine (rg_shard s)) key ver) as HC. pose proof (invalidate_same_config (in_engine (rg_shard s')) key ver) as HC'.
  cbn [wr_key wr_ver rec]. destruct (invalidate (in_engine (rg_shard s)) key ver) as [e o], (invalidate (in_engine (rg_shard s')) key ver) as [e' o']. cbn [fst] in *.
  destruct HI as (I1 & _ & I3), HI' as (J1 & _ & J3). split; cbn; rewrite ?A3, ?A4, ?B3, ?B4; try done.
  - by destruct HC as [-> _].
  - destruct HC, HC', H6. split; congruence.
  - intros k. by rewrite I3, J3, <-!H7.
Qed.

Definition lww_laws : ShardOpsLaws (Registered V).
Proof.
  refine {| sl_rel := same_shard; sl_rec := U; sl_sym := same_shard_sym; sl_trans := same_shard_trans; sl_invalidate := invalidate_rel |}.
  - intros s s' H. cbn. by rewrite (ss_config _ _ H).
  - intros s t [(recs & H)|(held & kept & H)]; cbn in *; apply fmap_Some in H as (x & _ & ->); done.
  - intros s s' recs H Hu. by apply inbound_rel.
  - intros s s' held kept H Hh Hk. apply inbound_rel; [done|by apply Forall_app|done|done].
  - intros s a b H Ha Hb. apply (inbound_split s (a ++ b) a b InReplicated InReplicated InReplicated); [done|by apply Forall_app|done|done].
  - intros s h1 k1 h2 k2 H Hh1 Hk1 Hh2 Hk2.
    apply (inbound_split s ((h1 ++ h2) ++ k1 ++ k2) (h1 ++ k1) (h2 ++ k2) (InForwarded (length (h1 ++ h2))) (InForwarded (length h1)) (InForwarded (length h2))); [done|by rewrite !Forall_app| |].
    + solve_Permutation.
    + cbn [inbound_held]. by rewrite !take_app_length.
  - intros s key ver H. by exists s.
Defined.

End ShardLaws.

(** ** The lanes *)

Definition sending_list (w : Worker) : list LaneBatch := from_option (fun b => [b]) [] (wk_sending w).
Definition held_batches (w : Worker) : list LaneBatch := sending_list w ++ wk_batches w.

(** What happens to the lanes: batches are dispatched, lanes retire, workers receive, hand over and end, the mesh changes. *)
Inductive LaneOp :=
  | LDispatch (peer : NodeId) (frames : list OutFrame) (now : Z)
  | LRetire
  | LRecv (worker : nat)
  | LSent (worker : nat)
  | LEnd (worker : nat)
  | LMesh (mesh : MeshInner)
  | LClose.

(** With what each worker has taken in and handed to the mesh so far. *)
Record LaneLog := { ll_rf : Reforwarder; ll_taken : gmap nat (list LaneBatch); ll_handed : gmap nat (list LaneBatch) }.

Definition add_to (m : gmap nat (list LaneBatch)) (w : nat) (b : LaneBatch) : gmap nat (list LaneBatch) := <[w := default [] (m !! w) ++ [b]]> m.

Section LaneRuns.
Context {L : Layout}.

Definition lane_step (l : LaneLog) (op : LaneOp) : LaneLog :=
  let r := ll_rf l in
  match op with
  | LDispatch peer frames now =>
      let '(r, out) := dispatch r peer frames now in
      {| ll_rf := r;
         ll_taken := match out with Queued w => add_to (ll_taken l) w {| lb_frames := frames; lb_bytes := frames_bytes frames |} | _ => ll_taken l end;
         ll_handed := ll_handed l |}
  | LRetire => {| ll_rf := retire_departed r; ll_taken := ll_taken l; ll_handed := ll_handed l |}
  | LRecv w =>
      match rf_workers r !! w ≫= worker_recv with
      | Some wk => {| ll_rf := rf_with_workers r (<[w := wk]> (rf_workers r)); ll_taken := ll_taken l; ll_handed := ll_handed l |}
      | None => l
      end
  | LSent w =>
      match rf_workers r !! w ≫= worker_sent with
      | Some (wk, b) => {| ll_rf := rf_with_workers r (<[w := wk]> (rf_workers r)); ll_taken := ll_taken l; ll_handed := add_to (ll_handed l) w b |}
      | None => l
      end
  | LEnd w =>
      match rf_workers r !! w with
      | Some wk =>
          {| ll_rf := rf_with_workers r (<[w := {| wk_peer := wk_peer wk; wk_batches := []; wk_sending := None; wk_queued := wk_queued wk; wk_ended := true |}]> (rf_workers r));
             ll_taken := ll_taken l; ll_handed := ll_handed l |}
      | None => l
      end
  | LMesh mesh => {| ll_rf := rf_with_mesh r mesh; ll_taken := ll_taken l; ll_handed := ll_handed l |}
  | LClose => {| ll_rf := close_lanes r; ll_taken := ll_taken l; ll_handed := ll_handed l |}
  end.
Definition lane_run (mesh : MeshInner) (lane_bytes : Z) (ops : list LaneOp) : LaneLog :=
  foldl lane_step {| ll_rf := with_lane_bytes mesh lane_bytes; ll_taken := ∅; ll_handed := ∅ |} ops.

(** A running worker has its bytes counted exactly, within the cap but for a lone batch beyond it. *)
Record worker_ok (cap : Z) (taken handed : list LaneBatch) (w : Worker) : Prop := {
  wo_order : if wk_ended w then exists lost, taken = handed ++ lost else taken = handed ++ held_batches w;
  wo_bytes : wk_ended w = false -> wk_queued w = sum_Z (lb_bytes <$> held_batches w);
  wo_nonneg : Forall (fun b => 0 <= lb_bytes b) (held_batches w);
  wo_bound : wk_ended w = false -> wk_queued w <= cap \/ exists b, b ∈ held_batches w /\ wk_queued w = lb_bytes b;
  wo_gone : wk_ended w = true -> held_batches w = [];
}.

Record lanes_ok (l : LaneLog) : Prop := {
  lo_lane peer lane : rf_lanes (ll_rf l) !! peer = Some lane -> exists w, rf_workers (ll_rf l) !! ln_worker lane = Some w /\ wk_peer w = peer;
  lo_worker id w : rf_workers (ll_rf l) !! id = Some w -> worker_ok (rf_lane_bytes (ll_rf l)) (default [] (ll_taken l !! id)) (default [] (ll_handed l !! id)) w;
  lo_fresh id : rf_workers (ll_rf l) !! id = None -> ll_taken l !! id = None /\ ll_handed l !! id = None;
}.

Lemma add_to_lookup m w b id : default [] (add_to m w b !! id) = default [] (m !! id) ++ (if decide (id = w) then [b] else []).
Proof. unfold add_to. case_decide as Hd; [subst; by rewrite lookup_insert_eq|by rewrite lookup_insert_ne, app_nil_r]. Qed.

Lemma sum_Z_snoc l x : sum_Z (l ++ [x]) = sum_Z l + x.
Proof. by rewrite sum_Z_app, sum_Z_one. Qed.

Lemma lane_admits_spec queued batch cap : 0 <= queued -> 0 <= batch -> cap < u64_max -> lane_admits queued batch cap = true -> queued = 0 \/ queued + batch <= cap.
Proof. unfold lane_admits. intros H1 H2 H3 [->%Z.eqb_eq|H%Z.leb_le]%orb_true_iff; [by left|]. right. unfold saturating_add in H. lia. Qed.

Lemma worker_push_ok cap taken handed w b : cap < u64_max -> worker_ok cap taken handed w -> wk_ended w = false -> 0 <= lb_bytes b ->
  lane_admits (wk_queued w) (lb_bytes b) cap = true -> worker_ok cap (taken ++ [b]) handed (worker_push w b).
Proof.
  intros Hcap [H1 H2 H3 H4 H5] He Hb Ha. rewrite He in H1. specialize (H2 He). specialize (H4 He).
  assert (Hh : held_batches (worker_push w b) = held_batches w ++ [b]) by (unfold held_batches, sending_list, worker_push; cbn; by rewrite app_assoc).
  assert (Hq : wk_queued (worker_push w b) = wk_queued w + lb_bytes b) by done.
  split; rewrite ?Hh, ?Hq.
  - cbn. by rewrite He, H1, app_assoc.
  - intros _. rewrite fmap_app. change (lb_bytes <$> [b]) with [lb_bytes b]. by rewrite sum_Z_snoc, H2.
  - apply Forall_app. split; [done|by constructor].
  - intros _. assert (0 <= wk_queued w) by (rewrite H2; apply sum_Z_nonneg, Forall_fmap; done).
    destruct (lane_admits_spec _ _ _ ltac:(done) Hb Hcap Ha) as [->|]; [right; exists b; split; [apply elem_of_app; right; by left|lia]|by left].
  - cbn. by rewrite He.
Qed.

Lemma note_lane_ok l peer lane lane' : lanes_ok l -> rf_lanes (ll_rf l) !! peer = Some lane -> ln_worker lane' = ln_worker lane -> forall m,
  lanes_ok {| ll_rf := rf_with_lanes (rf_with_mesh (ll_rf l) m) (<[peer := lane']> (rf_lanes (ll_rf l))); ll_taken := ll_taken l; ll_handed := ll_handed l |}.
Proof.
  intros [H1 H2 H3] Hl Hw m. split; cbn; [|done..]. intros p ln. destruct (decide (peer = p)) as [<-|]; [rewrite lookup_insert_eq; intros [= <-]; rewrite Hw; by apply H1|].
  rewrite lookup_insert_ne by done. apply H1.
Qed.

Lemma drop_lane_ok l peer : lanes_ok l -> lanes_ok {| ll_rf := rf_with_lanes (ll_rf l) (delete peer (rf_lanes (ll_rf l))); ll_taken := ll_taken l; ll_handed := ll_handed l |}.
Proof. intros [H1 H2 H3]. split; cbn; [|done..]. intros p ln [_ Hl]%lookup_delete_Some. by apply H1. Qed.

(** Opening a lane, or finding the one there is. *)
Lemma lane_for_ok l peer : lanes_ok l -> 0 <= rf_lane_bytes (ll_rf l) ->
  let '(r, lane) := lane_for (ll_rf l) peer in
  lanes_ok {| ll_rf := r; ll_taken := ll_taken l; ll_handed := ll_handed l |} /\ rf_lanes r !! peer = Some lane /\
  rf_mesh r = rf_mesh (ll_rf l) /\ rf_lane_bytes r = rf_lane_bytes (ll_rf l).
Proof.
  intros [H1 H2 H3] Hcap. unfold lane_for. destruct (rf_lanes (ll_rf l) !! peer) as [lane|] eqn:El; [by split|].
  set (id := fresh (dom (rf_workers (ll_rf l)))). assert (Hid : rf_workers (ll_rf l) !! id = None) by (apply not_elem_of_dom, is_fresh).
  split; [|split; [apply lookup_insert_eq|done]]. split; cbn.
  - intros p ln. destruct (decide (peer = p)) as [<-|]; [rewrite lookup_insert_eq; intros [= <-]; cbn; rewrite lookup_insert_eq; by eexists|].
    rewrite lookup_insert_ne by done. intros (w & Hw & Hp)%H1. exists w. split; [|done]. rewrite lookup_insert_ne; [done|]. intros ->. congruence.
  - intros i w. destruct (decide (id = i)) as [<-|]; [|rewrite lookup_insert_ne by done; apply H2]. rewrite lookup_insert_eq. intros [= <-].
    destruct (H3 _ Hid) as [-> ->]. split; cbn; try done. intros _. by left.
  - intros i [Hi Hne]%lookup_insert_None. by apply H3.
Qed.

Lemma dispatch_loop_ok n peer batch now : 0 <= lb_bytes batch -> forall l, lanes_ok l -> 0 <= rf_lane_bytes (ll_rf l) < u64_max ->
  let '(r, out) := dispatch_loop n (ll_rf l) peer batch now in
  lanes_ok {| ll_rf := r; ll_taken := match out with Queued w => add_to (ll_taken l) w batch | _ => ll_taken l end; ll_handed := ll_handed l |} /\
  rf_lane_bytes r = rf_lane_bytes (ll_rf l) /\
  match out with
  | Skipped => False
  | Queued w => rf_mesh r = rf_mesh (ll_rf l) /\ exists wk, rf_workers r !! w = Some wk /\ wk_peer wk = peer /\ wk_ended wk = false /\ last (wk_batches wk) = Some batch
  | Dropped => rf_mesh r = note_unsent (rf_mesh (ll_rf l)) peer (length (lb_frames batch))
  end.
Proof.
  intros Hb. induction n as [|n IH]; intros l Hl Hcap; cbn [dispatch_loop].
  { split; [|done]. destruct Hl as [H1 H2 H3]. by split. }
  pose proof (lane_for_ok l peer Hl ltac:(lia)) as H. destruct (lane_for (ll_rf l) peer) as [r lane]. destruct H as (Hl1 & Hlane & Hm & Hc).
  set (l1 := {| ll_rf := r; ll_taken := ll_taken l; ll_handed := ll_handed l |}) in *.
  assert (Hretry : let '(r', out) := dispatch_loop n (rf_with_lanes r (delete peer (rf_lanes r))) peer batch now in
    lanes_ok {| ll_rf := r'; ll_taken := match out with Queued w => add_to (ll_taken l) w batch | _ => ll_taken l end; ll_handed := ll_handed l |} /\
    rf_lane_bytes r' = rf_lane_bytes (ll_rf l) /\
    match out with
    | Skipped => False
    | Queued w => rf_mesh r' = rf_mesh (ll_rf l) /\ exists wk, rf_workers r' !! w = Some wk /\ wk_peer wk = peer /\ wk_ended wk = false /\ last (wk_batches wk) = Some batch
    | Dropped => rf_mesh r' = note_unsent (rf_mesh (ll_rf l)) peer (length (lb_frames batch))
    end).
  { rewrite <-Hc, <-Hm. apply (IH {| ll_rf := rf_with_lanes r (delete peer (rf_lanes r)); ll_taken := ll_taken l; ll_handed := ll_handed l |}); [by apply (drop_lane_ok l1)|cbn; lia]. }
  destruct (lo_lane _ Hl1 _ _ Hlane) as (w & Hw & Hpeer). cbn [ll_rf l1] in Hw. rewrite Hw.
  destruct (lane_admits (wk_queued w) (lb_bytes batch) (rf_lane_bytes r)) eqn:Ea; cbn [negb].
  - destruct (wk_ended w) eqn:Ee; [exact Hretry|]. split; [|split; [done|split; [done|]]].
    + destruct Hl1 as [H1 H2 H3]. split; cbn [ll_rf ll_taken ll_handed rf_with_workers rf_workers rf_lanes rf_lane_bytes].
      * intros p ln (w' & Hw' & Hp')%H1. cbn in Hw'. destruct (decide (ln_worker lane = ln_worker ln)) as [Heq|Hne]; [|rewrite lookup_insert_ne by done; by exists w'].
        exists (worker_push w batch). split; [by rewrite <-Heq, lookup_insert_eq|]. cbn. congruence.
      * intros id w'. rewrite add_to_lookup. destruct (decide (ln_worker lane = id)) as [<-|Hne].
        -- rewrite lookup_insert_eq, decide_True by done. intros [= <-]. apply worker_push_ok; [lia|by apply (H2 (ln_worker lane))|done..].
        -- rewrite lookup_insert_ne, decide_False, app_nil_r by congruence. apply H2.
      * intros id [Hid Hne]%lookup_insert_None. unfold add_to. rewrite lookup_insert_ne by done. by apply H3.
    + exists (worker_push w batch). cbn [rf_workers rf_with_workers]. rewrite lookup_insert_eq. cbn. split_and!; [done..|]. by rewrite last_snoc.
  - split; [|split; [done|by rewrite <-Hm]]. apply (note_lane_ok l1 peer lane); [done|done|]. unfold note_dropped. by destruct (warn_due _ _).
Qed.

(** A worker replaced by one that took the same, or handed one batch over. *)
Lemma set_worker_ok l id w w' handed' : lanes_ok l -> rf_workers (ll_rf l) !! id = Some w -> wk_peer w' = wk_peer w ->
  (forall i, i <> id -> handed' !! i = ll_handed l !! i) ->
  worker_ok (rf_lane_bytes (ll_rf l)) (default [] (ll_taken l !! id)) (default [] (handed' !! id)) w' ->
  lanes_ok {| ll_rf := rf_with_workers (ll_rf l) (<[id := w']> (rf_workers (ll_rf l))); ll_taken := ll_taken l; ll_handed := handed' |}.
Proof.
  intros [H1 H2 H3] Hw Hp Hh Hok. split; cbn.
  - intros p ln (w0 & Hw0 & Hp0)%H1. destruct (decide (id = ln_worker ln)) as [->|]; [|rewrite lookup_insert_ne by done; by exists w0].
    exists w'. rewrite lookup_insert_eq. split; [done|]. congruence.
  - intros i w0. destruct (decide (id = i)) as [<-|]; [rewrite lookup_insert_eq; by intros [= <-]|]. rewrite lookup_insert_ne, Hh by done. apply H2.
  - intros i [Hi Hne]%lookup_insert_None. rewrite Hh by done. by apply H3.
Qed.

Lemma worker_recv_ok cap taken handed w w' : worker_recv w = Some w' -> worker_ok cap taken handed w -> wk_peer w' = wk_peer w /\ worker_ok cap taken handed w'.
Proof.
  unfold worker_recv. destruct (wk_ended w) eqn:Ee; [done|]. destruct (wk_sending w) eqn:Es; [done|]. destruct (wk_batches w) as [|b rest] eqn:Eb; [done|]. intros [= <-] [H1 H2 H3 H4 H5].
  assert (Hh : held_batches w = b :: rest) by (unfold held_batches, sending_list; by rewrite Es, Eb). rewrite Ee, Hh in *. by split.
Qed.

Lemma worker_sent_ok cap taken handed w w' b : 0 <= cap -> worker_sent w = Some (w', b) -> worker_ok cap taken handed w -> wk_peer w' = wk_peer w /\ worker_ok cap taken (handed ++ [b]) w'.
Proof.
  intros Hcap. unfold worker_sent. destruct (wk_ended w) eqn:Ee; [done|]. destruct (wk_sending w) as [b'|] eqn:Es; [|done]. intros [= <- ->] [H1 H2 H3 H4 H5].
  assert (Hh : held_batches w = b :: wk_batches w) by (unfold held_batches, sending_list; by rewrite Es). rewrite Ee, Hh in *. specialize (H2 eq_refl). specialize (H4 eq_refl).
  apply Forall_cons in H3 as [Hb Hrest]. rewrite fmap_cons, sum_Z_cons in H2. split; [done|].
  assert (Hnn : 0 <= sum_Z (lb_bytes <$> wk_batches w)) by (apply sum_Z_nonneg, Forall_fmap; done).
  split; cbn; [by rewrite H1, <-app_assoc|intros _; lia|done| |done]. intros _. destruct H4 as [|(b1 & [->|Hb1]%elem_of_cons & Hq)]; [left; lia|left; lia|].
  right. exists b1. split; [done|].
  assert (lb_bytes b1 <= sum_Z (lb_bytes <$> wk_batches w)); [|lia]. apply sum_Z_elem_le; [by apply Forall_fmap|]. apply list_elem_of_fmap. by exists b1.
Qed.

Context (Hmsg : 0 <= size_of_Msg) (Hrec : 0 <= size_of_WireRecord).

Lemma frames_bytes_nonneg frames : 0 <= frames_bytes frames.
Proof.
  apply sum_Z_nonneg, Forall_fmap, Forall_forall. intros f _. unfold compose, weight, OutFrame_weighed, resident_bytes.
  assert (Hr : forall rec, 0 <= record_bytes rec) by (intros rec; unfold record_bytes; pose proof (blen_nonneg (wr_key rec)); destruct (wr_value rec) as [v|]; cbn; [pose proof (blen_nonneg v)|]; lia).
  pose proof (blen_nonneg (of_frame f)). assert (Hs : forall recs, 0 <= sum_Z (record_bytes <$> recs)) by (intros recs; apply sum_Z_nonneg, Forall_fmap, Forall_forall; intros; apply Hr).
  destruct (of_msg f); try lia; try (match goal with |- context [record_bytes ?r] => pose proof (Hr r); lia | |- context [record_bytes <$> ?rs] => pose proof (Hs rs); lia | |- context [blen ?k] => pose proof (blen_nonneg k); lia end).
Qed.

Lemma lane_step_ok l op : lanes_ok l -> 0 <= rf_lane_bytes (ll_rf l) < u64_max -> lanes_ok (lane_step l op) /\ rf_lane_bytes (ll_rf (lane_step l op)) = rf_lane_bytes (ll_rf l).
Proof.
  intros Hl Hcap. destruct op as [peer frames now| |w|w|w|mesh|]; cbn [lane_step].
  - unfold dispatch. destruct (_ || _); [by destruct l|].
    pose proof (dispatch_loop_ok 2 peer {| lb_frames := frames; lb_bytes := frames_bytes frames |} now (frames_bytes_nonneg frames) l Hl Hcap) as H.
    destruct (dispatch_loop _ _ _ _ _) as [r out]. by destruct H as (H1 & H2 & _).
  - split; [|done]. destruct Hl as [H1 H2 H3]. split; cbn; [|done..]. intros p ln [Hp _]%map_lookup_filter_Some. by apply H1.
  - destruct (rf_workers (ll_rf l) !! w) as [wk|] eqn:Ew; cbn; [|done]. destruct (worker_recv wk) as [wk'|] eqn:Er; [|done]. split; [|done].
    destruct (worker_recv_ok _ _ _ _ _ Er (lo_worker _ Hl _ _ Ew)) as [Hp Hok]. by eapply set_worker_ok.
  - destruct (rf_workers (ll_rf l) !! w) as [wk|] eqn:Ew; cbn; [|done]. destruct (worker_sent wk) as [[wk' b]|] eqn:Er; [|done]. split; [|done].
    destruct (worker_sent_ok _ _ _ _ _ _ (proj1 Hcap) Er (lo_worker _ Hl _ _ Ew)) as [Hp Hok]. eapply set_worker_ok; [done|done|done| |].
    + intros i Hi. unfold add_to. by rewrite lookup_insert_ne.
    + by rewrite add_to_lookup, decide_True by done.
  - destruct (rf_workers (ll_rf l) !! w) as [wk|] eqn:Ew; [|done]. split; [|done]. eapply set_worker_ok; [done|done|done|done|].
    destruct (lo_worker _ Hl _ _ Ew) as [H1 H2 H3 H4 H5]. split; cbn; try done. destruct (wk_ended wk); [done|]. by exists (held_batches wk).
  - split; [|done]. by destruct Hl as [H1 H2 H3].
  - split; [|done]. destruct Hl as [H1 H2 H3]. split; cbn; done.
Qed.

Lemma lane_run_ok mesh lane_bytes ops : 0 <= lane_bytes < u64_max -> lanes_ok (lane_run mesh lane_bytes ops) /\ rf_lane_bytes (ll_rf (lane_run mesh lane_bytes ops)) = lane_bytes.
Proof.
  intros Hcap. unfold lane_run. induction ops as [|op ops [IH1 IH2]] using rev_ind; [by split|]. rewrite foldl_app. cbn [foldl].
  destruct (lane_step_ok _ op IH1 ltac:(by rewrite IH2)) as [H1 H2]. by rewrite H2.
Qed.

(** *** What waits in the lane toward a peer *)

Definition worker_frames (w : Worker) : list OutFrame := wk_batches w ≫= lb_frames.
Definition lane_frames (r : Reforwarder) (p : NodeId) : list OutFrame :=
  lane ← option_list (rf_lanes r !! p); w ← option_list (rf_workers r !! ln_worker lane); worker_frames w.

Lemma lane_frames_lane r p lane w : rf_lanes r !! p = Some lane -> rf_workers r !! ln_worker lane = Some w -> lane_frames r p = worker_frames w.
Proof. unfold lane_frames. intros -> Hw. cbn. rewrite Hw. cbn. by rewrite !app_nil_r. Qed.
Lemma lane_frames_none r p : rf_lanes r !! p = None -> lane_frames r p = [].
Proof. unfold lane_frames. by intros ->. Qed.
Lemma lane_frames_ext r r' p : rf_lanes r' !! p = rf_lanes r !! p ->
  (forall lane, rf_lanes r !! p = Some lane -> rf_workers r' !! ln_worker lane = rf_workers r !! ln_worker lane) -> lane_frames r' p = lane_frames r p.
Proof. unfold lane_frames. intros -> Hw. destruct (rf_lanes r !! p) as [lane|]; [|done]. cbn. by rewrite Hw. Qed.

Lemma lane_for_frames l peer p : lanes_ok l -> lane_frames (lane_for (ll_rf l) peer).1 p = lane_frames (ll_rf l) p.
Proof.
  intros [H1 H2 H3]. unfold lane_for. destruct (rf_lanes (ll_rf l) !! peer) as [lane|] eqn:El; [done|]. cbn [fst].
  set (id := fresh (dom (rf_workers (ll_rf l)))). assert (Hid : rf_workers (ll_rf l) !! id = None) by (apply not_elem_of_dom, is_fresh).
  destruct (decide (peer = p)) as [<-|Hne].
  - rewrite (lane_frames_none (ll_rf l)) by done. erewrite lane_frames_lane; [|apply lookup_insert_eq|apply lookup_insert_eq]. done.
  - apply lane_frames_ext; cbn; [by rewrite lookup_insert_ne|]. intros lane Hl. destruct (H1 _ _ Hl) as (w & Hw & _). rewrite lookup_insert_ne; [done|]. congruence.
Qed.

(** A dispatch adds its frames to its peer's lane, or drops them, and touches no other lane. *)
Lemma dispatch_loop_frames n peer batch now p : 0 <= lb_bytes batch -> forall l, lanes_ok l -> 0 <= rf_lane_bytes (ll_rf l) < u64_max ->
  let '(r, out) := dispatch_loop n (ll_rf l) peer batch now in
  lane_frames r p = lane_frames (ll_rf l) p ++ (if decide (p = peer) then match out with Queued _ => lb_frames batch | _ => [] end else []).
Proof.
  intros Hb. induction n as [|n IH]; intros l Hl Hcap; cbn [dispatch_loop]; [by case_decide; rewrite app_nil_r|].
  pose proof (lane_for_ok l peer Hl ltac:(lia)) as H. pose proof (lane_for_frames l peer p Hl) as Hfr. destruct (lane_for (ll_rf l) peer) as [r lane]. destruct H as (Hl1 & Hlane & Hm & Hc).
  cbn [fst] in Hfr. rewrite <-Hfr. destruct (lo_lane _ Hl1 _ _ Hlane) as (w & Hw & Hpeer). cbn [ll_rf] in Hw. rewrite Hw.
  destruct (lane_admits _ _ _) eqn:Ea; cbn [negb].
  - destruct (wk_ended w) eqn:Ee.
    + specialize (IH {| ll_rf := rf_with_lanes r (delete peer (rf_lanes r)); ll_taken := ll_taken l; ll_handed := ll_handed l |}
        (drop_lane_ok {| ll_rf := r; ll_taken := ll_taken l; ll_handed := ll_handed l |} peer Hl1) ltac:(cbn; lia)). cbn [ll_rf] in IH.
      destruct (dispatch_loop n _ _ _ _) as [r' out]. rewrite IH. f_equal. destruct (decide (p = peer)) as [->|Hne].
      * rewrite lane_frames_none by apply lookup_delete_eq. erewrite lane_frames_lane by done. pose proof (wo_gone _ _ _ _ (lo_worker _ Hl1 _ _ Hw) Ee) as Hg.
        unfold held_batches in Hg. apply app_nil in Hg as [_ Hg]. unfold worker_frames. by rewrite Hg.
      * apply lane_frames_ext; cbn; [by rewrite lookup_delete_ne|done].
    + case_decide as Hp.
      * subst p. erewrite (lane_frames_lane r) by done. erewrite lane_frames_lane; [|exact Hlane|apply lookup_insert_eq].
        unfold worker_frames. cbn. by rewrite bind_app, bind_cons, app_nil_r.
      * rewrite app_nil_r. apply lane_frames_ext; cbn; [done|]. intros ln Hln. destruct (lo_lane _ Hl1 _ _ Hln) as (w' & Hw' & Hp'). cbn in Hw'.
        rewrite lookup_insert_ne; [done|]. congruence.
  - assert (Hkeep : forall ln, ln_worker ln = ln_worker lane -> lane_frames (rf_with_lanes (rf_drop r peer batch) (<[peer := ln]> (rf_lanes r))) p = lane_frames r p).
    { intros ln Hln. destruct (decide (peer = p)) as [<-|Hne].
      - erewrite (lane_frames_lane r) by done. erewrite lane_frames_lane; [done|apply lookup_insert_eq|by rewrite Hln].
      - apply lane_frames_ext; cbn; [by rewrite lookup_insert_ne|done]. }
    rewrite Hkeep by (unfold note_dropped; by destruct (warn_due _ _)). by case_decide; rewrite app_nil_r.
Qed.

Definition rf_ok (r : Reforwarder) : Prop :=
  0 <= rf_lane_bytes r < u64_max /\ exists taken handed, lanes_ok {| ll_rf := r; ll_taken := taken; ll_handed := handed |}.

(** From [r] to [r'] the lane toward [p] gains [add], or [p] is marked for anti-entropy. *)
Record gains (p : NodeId) (add : list OutFrame) (r r' : Reforwarder) : Prop := {
  gn_ok : rf_ok r';
  gn_live q : peer_is_live (rf_mesh r') q = peer_is_live (rf_mesh r) q;
  gn_dirty : is_dirty (rf_mesh r) p -> is_dirty (rf_mesh r') p;
  gn_frames : peer_is_live (rf_mesh r) p = true -> lane_frames r' p = lane_frames r p ++ add \/ is_dirty (rf_mesh r') p;
}.

Lemma gains_none p r : rf_ok r -> gains p [] r r.
Proof. intros H. split; try done. intros _. left. by rewrite app_nil_r. Qed.

Lemma gains_app p a b r1 r2 r3 : gains p a r1 r2 -> gains p b r2 r3 -> gains p (a ++ b) r1 r3.
Proof.
  intros [A1 A2 A3 A4] [B1 B2 B3 B4]. split; [done|intros q; by rewrite B2|by intros ?%A3%B3|]. intros Hl.
  destruct (B4 ltac:(by rewrite A2)) as [Hb|]; [|by right]. destruct (A4 Hl) as [Ha|Hd]; [left; by rewrite Hb, Ha, app_assoc|right; by apply B3].
Qed.

Lemma gains_fold {A} p (f : Reforwarder -> A -> Reforwarder) (add : A -> list OutFrame) xs : (forall x r, x ∈ xs -> rf_ok r -> gains p (add x) r (f r x)) ->
  forall r, rf_ok r -> gains p (xs ≫= add) r (foldl f r xs).
Proof.
  induction xs as [|x xs IH]; intros H r Hr; [by apply gains_none|]. cbn [foldl]. rewrite bind_cons. eapply gains_app; [apply H; [by left|done]|].
  apply IH; [intros; apply H; [by right|done]|]. apply (H x); [by left|done].
Qed.

Lemma note_unsent_live m peer n q : peer_is_live (note_unsent m peer n) q = peer_is_live m q.
Proof.
  unfold note_unsent, peer_is_live. destruct (n =? 0)%nat; [done|]. cbn. destruct (decide (peer = q)) as [<-|]; [rewrite lookup_alter_eq|by rewrite lookup_alter_ne].
  by destruct (mi_peers m !! peer).
Qed.
Lemma note_unsent_dirty m peer n p : is_dirty m p -> is_dirty (note_unsent m peer n) p.
Proof. unfold note_unsent. destruct (n =? 0)%nat; [done|]. by apply on_peer_dirty. Qed.
Lemma note_unsent_marks m p n : peer_is_live m p = true -> (n <> 0)%nat -> is_dirty (note_unsent m p n) p.
Proof.
  unfold note_unsent, peer_is_live. intros Hl Hn. destruct (Nat.eqb_spec n 0); [done|]. apply on_peer_marks; [|done]. by destruct (mi_peers m !! p).
Qed.

Lemma noted_gains p peer n r : rf_ok r -> gains p [] r (rf_with_mesh r (note_unsent (rf_mesh r) peer n)).
Proof.
  intros [Hc (taken & handed & Hl)]. split.
  - split; [done|]. exists taken, handed. by destruct Hl as [H1 H2 H3].
  - apply note_unsent_live.
  - apply note_unsent_dirty.
  - intros _. left. by rewrite app_nil_r.
Qed.

Lemma dispatch_gains p peer frames now r : rf_ok r -> gains p (if decide (p = peer) then frames else []) r (dispatch r peer frames now).1.
Proof.
  intros Hr. pose proof Hr as [Hc (taken & handed & Hl)]. unfold dispatch. set (l := {| ll_rf := r; ll_taken := taken; ll_handed := handed |}) in *.
  destruct (bool_decide_reflect (frames = [])) as [->|Hne]; cbn [orb fst]; [case_decide; by apply gains_none|].
  destruct (peer_is_live (rf_mesh r) peer) eqn:Elive; cbn [negb fst].
  2: { split; try done. intros Hp. case_decide; [congruence|]. left. by rewrite app_nil_r. }
  set (batch := {| lb_frames := frames; lb_bytes := frames_bytes frames |}).
  pose proof (dispatch_loop_ok 2 peer batch now (frames_bytes_nonneg frames) l Hl Hc) as Hok.
  pose proof (dispatch_loop_frames 2 peer batch now p (frames_bytes_nonneg frames) l Hl Hc) as Hfr. cbn [ll_rf l] in Hok, Hfr.
  destruct (dispatch_loop 2 r peer batch now) as [r' out]. destruct Hok as (Hl' & Hc' & Hout). cbn [fst].
  assert (Hmesh : rf_mesh r' = rf_mesh r \/ rf_mesh r' = note_unsent (rf_mesh r) peer (length frames)) by (destruct out; [done|left; apply Hout|by right]).
  split.
  - split; [by rewrite Hc'|]. eauto.
  - intros q. destruct Hmesh as [->| ->]; [done|apply note_unsent_live].
  - destruct Hmesh as [->| ->]; [done|apply note_unsent_dirty].
  - intros Hlive. rewrite Hfr. case_decide as Hp; [|by left]. subst p. destruct out; [done|by left|]. right. rewrite Hout. apply note_unsent_marks; [done|]. by destruct frames.
Qed.

End LaneRuns.

Section Stale.
Context {HS : Hashing} {PM : PostcardMsg} {L : Layout} (Hmsg : 0 <= size_of_Msg) (Hrec : 0 <= size_of_WireRecord).

Definition group_frames (cache : SmolStr) (view_hash hops : Z) (g : OwnerGroup) : list OutFrame := (encode_frames (batch_forward cache view_hash (hops + 1) (og_records g))).1.

Lemma bind_if_in {A B} `{!EqDecision A} (xs : list A) (p : A) (v : list B) : NoDup xs ->
  xs ≫= (fun x => if decide (p = x) then v else []) = if bool_decide (p ∈ xs) then v else [].
Proof.
  induction 1 as [|x xs Hx Hnd IH]; [done|]. rewrite bind_cons, IH. destruct (decide (p = x)) as [Hp|Hp].
  - rewrite bool_decide_eq_false_2 by (by rewrite Hp). rewrite bool_decide_eq_true_2 by (rewrite Hp; by left). by rewrite app_nil_r.
  - cbn. case_bool_decide as H1; case_bool_decide as H2; try done; exfalso; [apply H2; by right|by apply elem_of_cons in H2 as [|]].
Qed.

Lemma group_gains p cache vh hops now g r : NoDup (og_owners g) -> rf_ok r ->
  gains p (if bool_decide (p ∈ og_owners g) then group_frames cache vh hops g else []) r (reforward_group cache vh hops now r g).
Proof.
  intros Hnd Hr. unfold reforward_group, group_frames. destruct (encode_frames _) as [frames unencoded]. cbn [fst].
  pose proof (gains_fold p (fun r peer => rf_with_mesh r (note_unsent (rf_mesh r) peer unencoded)) (fun _ => []) (og_owners g) (fun x r _ => noted_gains p x unencoded r) r Hr) as H1.
  pose proof (gains_fold p (fun r peer => (dispatch r peer frames now).1) (fun x => if decide (p = x) then frames else []) (og_owners g)
    (fun x r _ => dispatch_gains Hmsg Hrec p x frames now r) _ (gn_ok _ _ _ _ H1)) as H2.
  rewrite bind_if_in in H2 by done. pose proof (gains_app _ _ _ _ _ _ H1 H2) as H. assert (Hnil : og_owners g ≫= (fun _ => []) = ([] : list OutFrame)) by (clear; induction (og_owners g) as [|o os IH]; [done|]; rewrite bind_cons; exact IH).
  by rewrite Hnil in H.
Qed.

Context (view : OwnershipView) (self_node from : NodeId) (cache : SmolStr).
Context (Hview : forall rec, NoDup (owners_of view (part_of rec))) (Hcache : blen cache <= u16_max).

Lemma reforward_gains p sender_hash hops records now r groups : reforward_groups view self_node from sender_hash hops records = Some groups -> rf_ok r ->
  gains p (groups ≫= (fun g => if bool_decide (p ∈ og_owners g) then group_frames cache (ov_view_hash view) hops g else [])) r
    (reforward_stale_view r (Some view) self_node from cache sender_hash hops records now).
Proof.
  intros Hg Hr. unfold reforward_stale_view. rewrite Hg. cbn [default from_option]. apply gains_fold; [|done]. intros g r1 Hin Hr1. apply group_gains; [|done].
  unfold reforward_groups in Hg. destruct (_ || _); [done|]. injection Hg as <-. apply list_elem_of_filter in Hin as [_ Hin]. apply list_elem_of_fmap in Hin as (g0 & -> & Hg0). cbn.
  by apply NoDup_filter, (group_owners view self_node Hview records g0).
Qed.

(** What a group of the re-forward carries. *)
Lemma groups_frames p sender_hash hops records groups : Forall (fits_forward cache) records ->
  reforward_groups view self_node from sender_hash hops records = Some groups ->
  let frames := groups ≫= (fun g => if bool_decide (p ∈ og_owners g) then group_frames cache (ov_view_hash view) hops g else []) in
  sent_records frames = (if decide (p = from) then [] else sel (fun owners => bool_decide (p ∈ owners)) (group_in_order ((fun rec => (other_owners view self_node rec, [rec])) <$> records))) /\
  forall f, f ∈ frames -> exists recs, of_msg f = ForwardBatch cache (ov_view_hash view) (hops + 1) recs.
Proof.
  intros Hf Hg frames. unfold reforward_groups in Hg. destruct (_ || _); [done|]. injection Hg as <-.
  assert (Hfit : forall g, g ∈ group_by_owner_set view self_node records -> Forall (fits_forward cache) (og_records g)).
  { intros g Hg. apply Forall_forall. intros rec Hr. rewrite Forall_forall in Hf. apply Hf. by apply (group_owners view self_node Hview records g Hg). }
  assert (Hfr : frames = group_by_owner_set view self_node records ≫= (fun g => if bool_decide (p <> from /\ p ∈ og_owners g) then group_frames cache (ov_view_hash view) hops g else [])).
  { unfold frames. clear. induction (group_by_owner_set view self_node records) as [|g gs IH]; [done|]. rewrite fmap_cons, filter_cons, bind_cons, <-IH. cbn [og_owners].
    assert (Hiff : p ∈ filter (fun n => n <> from) (og_owners g) <-> p <> from /\ p ∈ og_owners g) by (by rewrite list_elem_of_filter).
    destruct (decide (filter (fun n => n <> from) (og_owners g) <> [])) as [Hd|Hd].
    - rewrite bind_cons. cbn [og_owners]. f_equal. case_bool_decide as H1; case_bool_decide as H2; try done; exfalso; tauto.
    - rewrite bool_decide_eq_false_2; [done|]. rewrite <-Hiff. intros Hin. apply Hd. intros Hn. rewrite Hn in Hin. by apply not_elem_of_nil in Hin. }
  rewrite Hfr. split.
  - unfold sent_records, group_by_owner_set. rewrite bind_assoc, list_fmap_bind. unfold compose. cbn [og_owners og_records]. case_decide as Hd.
    + subst p. clear. induction (group_in_order _) as [|kv l IH]; [done|]. rewrite bind_cons, IH. rewrite bool_decide_eq_false_2 by tauto. done.
    + unfold sel. apply bind_ext_in. intros [owners recs] Hin. cbn [fst snd]. destruct (bool_decide_reflect (p ∈ owners)) as [Hp|Hp]; [|rewrite bool_decide_eq_false_2 by tauto; done].
      rewrite bool_decide_eq_true_2 by done. apply (forward_records cache Hcache (ov_view_hash view) (hops + 1) recs).
      apply (Hfit {| og_owners := owners; og_records := recs |}). apply list_elem_of_fmap. by exists (owners, recs).
  - intros f Hin. apply list_elem_of_bind in Hin as (g & Hin & Hgg). case_bool_decide; [|by apply elem_of_nil in Hin].
    by apply (forward_records cache Hcache _ _ (og_records g) (Hfit g Hgg)).
Qed.

End Stale.

(** ** The claims *)

Section Claims.
Context {PU : PostcardU32} {HS : Hashing} {PM : PostcardMsg} {L : Layout} {V : Type} {VC : ValueCodec V} {IS : IdleSort} {PUL : PostcardU32Laws}.

(** A shard the inbound path is exact for: well formed, uncapped, keeping what arrives. *)
Definition admits_inbound (s : Registered V) : Prop :=
  engine_inv (in_engine (rg_shard s)) /\ max_capacity (cfg (in_engine (rg_shard s))) = u64_max /\ inbound_scope (ic_mode (rg_config s)) = AnyScope.

(** C8: A burst is its messages in turn, where every registered cache is last-writer-wins, has no capacity cap and is not in
    invalidation mode, and a key at a version is one record. Whatever mix of replicates, forwards, invalidations and hints a wake
    drains, for any number of such caches, for unregistered ones too, gathering consecutive messages of a cache into one call leaves
    what handling each message by itself would: the same record under every key of every shard, the same parked
    forwards, the same records handed on, the same lanes toward the peers. Caches that merge, evict or refuse keys they do not
    hold are outside the statement. *)
Theorem a_burst_is_its_messages_in_turn (U : WireRecord -> Prop) (self_node : NodeId) (now : Z) (s : LoopState (Registered V)) (drained : list InboundMsg)
  (HU : one_writer U) (Hidle : lp_pending s = None) (Hok : forall c x, lp_shards s !! c = Some x -> admits_inbound x)
  (Hrecs : Forall (fun m => Forall U (msg_records (im_msg m))) drained) :
  let ops := registered_ops (R := LwwResolver) now in
  let s0 := lp_with_reforwarder (note_streaming_peers s drained now) (retire_departed (lp_reforwarder s)) in
  exists t t', drain_burst (SO := ops) self_node now s drained = Some t /\ handle_each (SO := ops) self_node now s0 drained = Some t' /\
    lp_pending t = None /\ lp_reforwarder t = lp_reforwarder t' /\ lp_seen t = lp_seen t' /\
    forall c, match lp_shards t !! c, lp_shards t' !! c with
              | Some x, Some x' =>
                  (forall k, engine_record (in_engine (rg_shard x)) k = engine_record (in_engine (rg_shard x')) k) /\
                  in_hold (rg_shard x) = in_hold (rg_shard x') /\ in_forwards (rg_shard x) ≡ₚ in_forwards (rg_shard x')
              | None, None => True
              | _, _ => False
              end.
Proof.
  intros ops s0.
  assert (Hwf : @shards_rel _ ops (lww_laws U HU now) (lp_shards s) (lp_shards s)).
  { intros c. destruct (lp_shards s !! c) as [x|] eqn:Ex; constructor. destruct (Hok c x Ex) as (H1 & H2 & H3). by split. }
  destruct (drain_burst_each (SL := lww_laws U HU now) self_node now s drained Hidle Hwf Hrecs) as (t & t' & E & E' & H1 & H2 & H3 & Hr).
  exists t, t'. split_and!; try done. intros c. destruct (Hr c) as [x x' [H4 H5 H6 H7 H8 H9 H10 H11 H12]|]; done.
Qed.

(** C9: A forward routed under another view reaches our owners, and stops there. The batch's records go to the lanes of
    exactly the other peers that own them under this node's view, the sender apart, each once and a key's in the order
    they came, stamped with our view and one more hop; a live peer that misses any of it is marked for anti-entropy.
    What is sent on is never sent on again, whatever view its receiver has. *)
Theorem a_stale_forward_reaches_our_owners (mesh : MeshInner) (lane_bytes : Z) (ops : list LaneOp) self eligible k g (from p : NodeId) (cache : SmolStr)
  (sender_hash hops : Z) (records : list WireRecord) (now : Z) :
  let view := compute_at self eligible k g in
  let r := ll_rf (lane_run mesh lane_bytes ops) in
  let r' := reforward_stale_view r (Some view) self from cache sender_hash hops records now in
  0 <= size_of_Msg -> 0 <= size_of_WireRecord -> 0 <= lane_bytes < u64_max -> 1 <= k -> blen cache <= u16_max -> Forall (fits_forward cache) records ->
  0 <= hops < MAX_FORWARD_HOPS -> sender_hash <> ov_view_hash view -> peer_is_live (rf_mesh r) p = true ->
  (is_dirty (rf_mesh r') p \/
   exists frames, lane_frames r' p = lane_frames r p ++ frames /\
     (forall f, f ∈ frames -> exists recs, of_msg f = ForwardBatch cache (ov_view_hash view) (hops + 1) recs) /\
     let owed := if decide (p = from) then [] else filter (goes_to view self p) records in
     sent_records frames ≡ₚ owed /\ forall key, filter (fun rec => wr_key rec = key) (sent_records frames) = filter (fun rec => wr_key rec = key) owed) /\
  forall r2 view2 self2 from2 hash2 recs now2, reforward_stale_view r2 view2 self2 from2 cache hash2 (hops + 1) recs now2 = r2.
Proof.
  intros view r r' Hm Hr Hcap Hk Hc Hf Hh Hne Hlive. split.
  - assert (Hv : forall rec, NoDup (owners_of view (part_of rec))) by (intros rec; by apply view_owners_nodup).
    destruct (lane_run_ok Hm Hr mesh lane_bytes ops Hcap) as [Hl Hb].
    assert (Hrf : rf_ok r) by (split; [unfold r; by rewrite Hb|]; exists (ll_taken (lane_run mesh lane_bytes ops)), (ll_handed (lane_run mesh lane_bytes ops)); unfold r; by destruct (lane_run mesh lane_bytes ops)).
    destruct (reforward_groups view self from sender_hash hops records) as [groups|] eqn:Eg.
    2: { unfold reforward_groups in Eg. rewrite (proj2 (Z.leb_gt _ _)), (proj2 (Z.eqb_neq _ _)) in Eg by (done || lia). done. }
    pose proof (reforward_gains Hm Hr view self from cache Hv p sender_hash hops records now r groups Eg Hrf) as [_ _ _ Hg].
    destruct (groups_frames view self from cache Hv Hc p sender_hash hops records groups Hf Eg) as [Hs Hfr].
    destruct (Hg Hlive) as [Hlane|]; [|by left]. right. eexists. split; [exact Hlane|]. split; [exact Hfr|]. cbv zeta. rewrite Hs. case_decide; [done|]. apply grouped_spec.
  - intros. unfold reforward_stale_view, reforward_groups. destruct view2; [|done]. rewrite (proj2 (Z.leb_le _ _)) by (unfold MAX_FORWARD_HOPS in *; lia). done.
Qed.

(** C10: The lanes lose nothing they take and stay bounded. However dispatches, retirements, workers' turns and ends and changes of the
    peer table interleave, each running worker holds, in order, exactly the batches it took and has not handed to the mesh;
    the bytes counted are theirs and stay within the cap, or are those of one batch alone; a worker that ended handed over
    a prefix of what it took. A batch for a live peer is queued behind that peer's others, at a running worker,
    or is dropped and its peer marked for anti-entropy. *)
Theorem lanes_keep_what_they_take (mesh : MeshInner) (lane_bytes : Z) (ops : list LaneOp) :
  0 <= size_of_Msg -> 0 <= size_of_WireRecord -> 0 <= lane_bytes < u64_max ->
  let l := lane_run mesh lane_bytes ops in
  (forall id w, rf_workers (ll_rf l) !! id = Some w -> worker_ok lane_bytes (default [] (ll_taken l !! id)) (default [] (ll_handed l !! id)) w) /\
  forall peer frames now, frames <> [] -> peer_is_live (rf_mesh (ll_rf l)) peer = true ->
    let '(r, out) := dispatch (ll_rf l) peer frames now in
    match out with
    | Queued id => exists w, rf_workers r !! id = Some w /\ wk_peer w = peer /\ wk_ended w = false /\ lb_frames <$> last (wk_batches w) = Some frames
    | Dropped => is_dirty (rf_mesh r) peer
    | Skipped => False
    end.
Proof.
  intros Hm Hr Hcap l. destruct (lane_run_ok Hm Hr mesh lane_bytes ops Hcap) as [Hl Hb]. split.
  - intros id w Hw. rewrite <-Hb. by apply Hl.
  - intros peer frames now Hne Hlive. unfold dispatch. rewrite bool_decide_eq_false_2, Hlive by done. cbn [orb negb].
    pose proof (dispatch_loop_ok 2 peer {| lb_frames := frames; lb_bytes := frames_bytes frames |} now (frames_bytes_nonneg Hm Hr frames) l Hl ltac:(unfold l; by rewrite Hb)) as H.
    fold l. destruct (dispatch_loop _ _ _ _ _) as [r out]. destruct H as (_ & _ & H). destruct out; [done| |].
    + destruct H as (_ & w & Hw & Hp & He & Hlast). exists w. by rewrite Hlast.
    + rewrite H. apply note_unsent_marks; [done|]. by destruct frames.
Qed.

End Claims.

(** ** Evaluating the statements *)

#[local] Instance demo_layout : Layout := {| size_of_Msg := 100; size_of_WireRecord := 80 |}.
Definition demo_msg (from : NodeId) (m : Msg) : InboundMsg := {| im_from := from; im_msg := m |}.
Definition demo_registered : Registered Bytes := {|
  rg_config := {| ic_name := [99]; ic_mode := Replicated; ic_residency := None; ic_max_clock_skew_ms := Some 500; ic_tombstone_ttl_ms := 60000;
                  ic_tombstone_max_ttl_ms := 600000; ic_key_decodes := fun _ => true; ic_key_order := fmap be_key |};
  rg_shard := demo_in_shard |}.
Definition demo_loop : LoopState (Registered Bytes) := {|
  lp_shards := {[ [99] := demo_registered ]}; lp_reforwarder := reforwarder_new sample_mesh; lp_pending := None; lp_seen := ∅ |}.
(** Two replicates, a hint, a forward too far ahead, an invalidation, a replicate of what it removed, and one for a cache
    not open here. *)
Definition demo_burst : list InboundMsg := [
  demo_msg 9 (Replicate [99] (demo_arrival 1 7 600)); demo_msg 9 (ReplicateBatch [99] [demo_arrival 2 5 800; demo_arrival 1 6 590]);
  demo_msg 8 (RefreshHint [99] [1] (stamp 600 9)); demo_msg 8 (ForwardBatch [99] 5 0 [demo_arrival 5 4 9000]);
  demo_msg 8 (Invalidate [99] [1] (stamp 700 8)); demo_msg 9 (Replicate [99] (demo_arrival 1 9 900)); demo_msg 9 (Replicate [98] (demo_arrival 1 9 900))].
Definition demo_recs : list WireRecord := demo_burst ≫= (fun m => msg_records (im_msg m)).

Lemma demo_recs_one_writer : one_writer (fun rec => rec ∈ demo_recs).
Proof.
  split.
  - assert (H : Forall (fun rec => key_fits (wr_key rec)) demo_recs) by (repeat constructor; vm_compute; discriminate). by rewrite Forall_forall in H.
  - assert (H : Forall (fun a => Forall (fun b => wr_key a = wr_key b -> wr_ver a = wr_ver b -> a = b) demo_recs) demo_recs) by (repeat constructor; vm_compute; congruence).
    rewrite Forall_forall in H. intros a b Ha Hb. specialize (H a Ha). rewrite Forall_forall in H. by apply H.
Qed.

Lemma a_burst_is_its_messages_in_turn_witness :
  exists t x, drain_burst (SO := registered_ops (R := LwwResolver) 1000) 7 1000 demo_loop demo_burst = Some t /\ lp_shards t !! [99] = Some x /\
    engine_record (in_engine (rg_shard x)) [1] = Some (demo_arrival 1 9 900) /\ engine_record (in_engine (rg_shard x)) [5] = None.
Proof.
  destruct (a_burst_is_its_messages_in_turn (fun rec => rec ∈ demo_recs) 7 1000 demo_loop demo_burst) as (t & t' & E & _ & _ & _ & _ & H).
  - exact demo_recs_one_writer.
  - reflexivity.
  - intros c x Hx. cbn [lp_shards demo_loop] in Hx. apply lookup_singleton_Some in Hx as [_ <-]. split; [exact small_engine_inv|by split].
  - apply Forall_forall. intros m Hm. apply Forall_forall. intros rec Hrec. apply list_elem_of_bind. eauto.
  - assert (Hx : (fun t => (lp_shards t !! [99]) ≫= (fun x => Some (engine_record (in_engine (rg_shard x)) [1], engine_record (in_engine (rg_shard x)) [5])))
        <$> drain_burst (SO := registered_ops (R := LwwResolver) 1000) 7 1000 demo_loop demo_burst = Some (Some (Some (demo_arrival 1 9 900), None)))
      by (vm_compute; reflexivity).
    rewrite E in Hx. cbn [fmap option_fmap option_map] in Hx. destruct (lp_shards t !! [99]) as [x|] eqn:Et; [|discriminate]. cbn in Hx.
    exists t, x. split; [exact E|]. split; [exact Et|]. injection Hx as Hx1 Hx5. split; [exact Hx1|exact Hx5].
Defined.

Lemma a_stale_forward_reaches_our_owners_witness :
  let view := compute_at (HS := sample_hashing) 7 [7; 9] 1 Part in
  let r := reforwarder_new sample_mesh in
  let r' := reforward_stale_view (HS := sample_hashing) (PM := sample_postcard) r (Some view) 7 8 [99] (ov_view_hash view + 1) 0 [sample_rec 5 (Some [1])] 1000 in
  is_dirty (rf_mesh r') 9 \/ exists frames, lane_frames r' 9 = frames /\ sent_records frames ≡ₚ [sample_rec 5 (Some [1])].
Proof.
  intros view r r'.
  destruct (a_stale_forward_reaches_our_owners (HS := sample_hashing) (PM := sample_postcard) sample_mesh REFORWARD_LANE_BYTES [] 7 [7; 9] 1 Part 8 9 [99]
    (ov_view_hash view + 1) 0 [sample_rec 5 (Some [1])] 1000) as [H _].
  - vm_compute. discriminate.
  - vm_compute. discriminate.
  - vm_compute. split; [discriminate|reflexivity].
  - lia.
  - vm_compute. discriminate.
  - constructor; [vm_compute; discriminate|constructor].
  - vm_compute. split; [discriminate|reflexivity].
  - fold view. intros Heq. lia.
  - vm_compute. reflexivity.
  - destruct H as [H|(frames & Hl & _ & Hs & _)]; [left; exact H|right]. exists frames. split; [exact Hl|].
    cbn [decide] in Hs. rewrite decide_False in Hs by discriminate. rewrite filter_cons, decide_True in Hs; [exact Hs|]. split; [discriminate|].
    rewrite sample_owner. by left.
Defined.

Definition demo_frame : OutFrame := {| of_msg := ReqDone; of_frame := [1; 2] |}.

Lemma lanes_keep_what_they_take_witness :
  let l := lane_run sample_mesh 150 [LDispatch 9 [demo_frame] 0; LRecv 0; LDispatch 9 [demo_frame] 1; LSent 0; LDispatch 9 [demo_frame; demo_frame] 2] in
  exists w, rf_workers (ll_rf l) !! 0%nat = Some w /\ wk_queued w = 204 /\ worker_ok 150 (default [] (ll_taken l !! 0%nat)) (default [] (ll_handed l !! 0%nat)) w /\
    is_dirty (rf_mesh (dispatch (ll_rf l) 9 [demo_frame] 3).1) 9.
Proof.
  intros l. destruct (lanes_keep_what_they_take sample_mesh 150 [LDispatch 9 [demo_frame] 0; LRecv 0; LDispatch 9 [demo_frame] 1; LSent 0; LDispatch 9 [demo_frame; demo_frame] 2]) as [H1 H2].
  - vm_compute. discriminate.
  - vm_compute. discriminate.
  - vm_compute. split; [discriminate|reflexivity].
  - fold l in H1, H2. assert (Hw : wk_queued <$> rf_workers (ll_rf l) !! 0%nat = Some 204) by (vm_compute; reflexivity).
    apply fmap_Some in Hw as (w & Hw & Hq). exists w. split; [exact Hw|]. split; [by rewrite <-Hq|]. split; [exact (H1 0%nat w Hw)|].
    specialize (H2 9 [demo_frame] 3 ltac:(discriminate) ltac:(vm_compute; reflexivity)).
    assert (Ho : (dispatch (ll_rf l) 9 [demo_frame] 3).2 = Dropped) by (vm_compute; reflexivity). destruct (dispatch (ll_rf l) 9 [demo_frame] 3) as [r out]. cbn in Ho. by rewrite Ho in H2.
Defined.
