(* ===== verification/AntiEntropy.v ===== *)
(** * Anti-entropy

    [cluster/anti_entropy.rs]: the scheduler's choice of a peer, one round against it from the digest
    exchange to the repairs, and the pull loop with its adaptive batch size. What the peer answers
    is a [PeerLink]; [link_to] is the link to a node that serves as [PeerServe] says. *)

From S2P Require Import Prelude SkewHold Clock Part Types Record Expiry Sketch Wire Merge Arena Engine Apply Removal Evict Prefold Batch Read Serve Ownership Residency FanOut Mesh PeerServe Inbound.

(** ** Definitions *)

(** *** The scheduler *)

Definition MAX_STREAMING_SKIPS : Z := 3.
Definition should_skip_round (streaming : bool) (skipped_so_far : Z) : bool :=
  streaming && (skipped_so_far <? MAX_STREAMING_SKIPS).

Definition forget_departed_skips (skipped : gmap NodeId Z) (live : list NodeId) : gmap NodeId Z :=
  filter (fun ps => ps.1 ∈ live) skipped.

(** [IndexedRandom::choose]: [rng] is the draw. *)
Definition choose (l : list NodeId) (rng : Z) : option NodeId :=
  l !! Z.to_nat (rng mod Z.of_nat (length l)).

Definition choose_peer (dirty live : list NodeId) (rng : Z) : option (NodeId * bool * list NodeId) :=
  match choose dirty rng with
  | Some peer => Some (peer, true, filter (fun other => other <> peer) dirty)
  | None => (fun peer => (peer, false, [])) <$> choose live rng
  end.

Section Scheduler.
Context {PU : PostcardU32} {HS : Hashing} {V : Type} {VC : ValueCodec V}.

(** The dirty marks are the mesh's, shared by every cache. *)
Definition pick_peer (m : MeshInner) (shard : ServeShard V) (live : list NodeId) (rng : Z) :
    MeshInner * option (NodeId * bool) :=
  let (m, dirty) := take_dirty_peers m in
  let '(dirty, live) := ae_peer_filter shard (elements dirty) live in
  match choose_peer dirty live rng with
  | None => (m, None)
  | Some (peer, was_dirty, give_back) => (foldl mark_dirty m give_back, Some (peer, was_dirty))
  end.

Inductive Turn := TurnNone | TurnSkipped (peer : NodeId) | TurnRound (peer : NodeId).

(** One turn of the scheduler's loop, up to the round it starts. *)
Definition scheduler_turn (m : MeshInner) (shard : ServeShard V) (skipped : gmap NodeId Z) (live : list NodeId)
    (streaming : NodeId -> bool) (rng : Z) : MeshInner * gmap NodeId Z * Turn :=
  let skipped := forget_departed_skips skipped live in
  match pick_peer m shard live rng with
  | (m, None) => (m, skipped, TurnNone)
  | (m, Some (peer, was_dirty)) =>
      let skips := default 0 (skipped !! peer) in
      if should_skip_round (streaming peer) skips
      then (if was_dirty : bool then mark_dirty m peer else m, <[peer := skips + 1]> skipped, TurnSkipped peer)
      else (m, <[peer := 0]> skipped, TurnRound peer)
  end.

End Scheduler.

(** *** Classifying a difference *)

Record RepairPlan := {
  rp_in_scope : option (gmap Z Z);
  rp_push_keys : list Bytes;
  rp_pull_keys : list Bytes;
  rp_pull_hashes : list (Z * list Z);
  rp_undecodable : list Z;
}.
Definition plan_default (in_scope : option (gmap Z Z)) : RepairPlan := {|
  rp_in_scope := in_scope; rp_push_keys := []; rp_pull_keys := []; rp_pull_hashes := []; rp_undecodable := [] |}.

Definition repairable (p : RepairPlan) (bucket : Z) : Z :=
  match rp_in_scope p with None => PartMask.ALL | Some scope => default 0 (scope !! bucket) end.

Definition plan_keys (p : RepairPlan) (pp : list Bytes * list Bytes) : RepairPlan := {|
  rp_in_scope := rp_in_scope p; rp_push_keys := rp_push_keys p ++ pp.1; rp_pull_keys := rp_pull_keys p ++ pp.2;
  rp_pull_hashes := rp_pull_hashes p; rp_undecodable := rp_undecodable p |}.
Definition pull_by_hash (p : RepairPlan) (bucket : Z) (hashes : list Z) : RepairPlan :=
  match hashes with
  | [] => p
  | _ => {| rp_in_scope := rp_in_scope p; rp_push_keys := rp_push_keys p; rp_pull_keys := rp_pull_keys p;
            rp_pull_hashes := rp_pull_hashes p ++ [(bucket, hashes)]; rp_undecodable := rp_undecodable p |}
  end.
Definition mark_undecodable (p : RepairPlan) (bucket : Z) : RepairPlan := {|
  rp_in_scope := rp_in_scope p; rp_push_keys := rp_push_keys p; rp_pull_keys := rp_pull_keys p;
  rp_pull_hashes := rp_pull_hashes p; rp_undecodable := rp_undecodable p ++ [bucket] |}.
Definition take_undecodable (p : RepairPlan) : RepairPlan := {|
  rp_in_scope := rp_in_scope p; rp_push_keys := rp_push_keys p; rp_pull_keys := rp_pull_keys p;
  rp_pull_hashes := rp_pull_hashes p; rp_undecodable := [] |}.

(** Whether a key is pushed and whether it is pulled. *)
Definition classify_versions (local peer : option Hlc) (both_ways : bool) : bool * bool :=
  match local, peer with
  | Some l, Some p =>
      if negb (hlc_eqb l p) then (hlc_ltb p l || both_ways, hlc_ltb l p || both_ways) else (false, false)
  | None, None => (false, false)
  | Some _, None => (true, false)
  | None, Some _ => (false, true)
  end.

(** [collect] into a [HashMap]: a later pair replaces an earlier one. *)
Definition collect_map {K A} `{Countable K} (l : list (K * A)) : gmap K A := foldl (fun m ka => <[ka.1 := ka.2]> m) ∅ l.

Abbreviation Listing := (list (Bytes * Hlc)) (only parsing).

(** The keys to push and the keys to pull of one listing against another. *)
Definition diff_bucket (local_entries peer_entries : Listing) (both_ways : bool) : list Bytes * list Bytes :=
  let peer_by_key : gmap Bytes Hlc := collect_map peer_entries in
  let local_keys : gset Bytes := list_to_set local_entries.*1 in
  let class kv := classify_versions (Some kv.2) (peer_by_key !! kv.1) both_ways in
  (fst <$> filter (fun kv => (class kv).1 = true) local_entries,
   (fst <$> filter (fun kv => (class kv).2 = true) local_entries) ++
   (fst <$> filter (fun kv => kv.1 ∉ local_keys) peer_entries)).

Definition CLASSIFY_BUCKET_CHUNK : nat := 64.

Fixpoint chunks_go {A} (fuel size : nat) (l : list A) : list (list A) :=
  match fuel, l with
  | S fuel, _ :: _ => take (Nat.min size (length l)) l :: chunks_go fuel size (drop (Nat.min size (length l)) l)
  | _, _ => []
  end.
(** The loop drains at least one element a turn, so the length of the list is fuel enough. *)
Definition chunk_mismatches {A} (mismatches : list A) (chunk_size : nat) : list (list A) :=
  chunks_go (length mismatches) (Nat.max chunk_size 1) mismatches.

Definition key_versions_to_tuples (entries : list KeyVersion) : Listing := (fun kv => (kv_key kv, kv_version kv)) <$> entries.

Section Classify.
Context {PU : PostcardU32} {HS : Hashing} {V : Type} {VC : ValueCodec V}.

Definition listing_elem (kv : Bytes * Hlc) : Elem := {| el_key_hash := xxh3_64 kv.1; el_ver := kv.2 |}.

(** The keys to push and the hashes to pull of a decoded sketch. *)
Definition diff_decoded (local_entries : Listing) (decoded : Decoded) (both_ways : bool) : list Bytes * list Z :=
  let local_by_hash : gmap Z Bytes := collect_map ((fun kv => (xxh3_64 kv.1, kv.1)) <$> local_entries) in
  let local_only : gmap Z Hlc := collect_map ((fun el => (el_key_hash el, el_ver el)) <$> only_left decoded) in
  let remote_only : gmap Z Hlc := collect_map ((fun el => (el_key_hash el, el_ver el)) <$> only_right decoded) in
  let class el := classify_versions (Some (el_ver el)) (remote_only !! el_key_hash el) both_ways in
  (omap (fun el => if (class el).1 then local_by_hash !! el_key_hash el else None) (only_left decoded),
   (el_key_hash <$> filter (fun el => (class el).2 = true) (only_left decoded)) ++
   (el_key_hash <$> filter (fun el => local_only !! el_key_hash el = None) (only_right decoded))).

(** The plan with the sketch's difference, [None] inside when it does not decode; the outer [None] is
    peeling's fuel. *)
Definition peel_sketch_into (fuel : nat) (bucket : Z) (cs : list Sketch.Cell) (local_entries : Listing) (plan : RepairPlan)
    (both_ways : bool) : option (option RepairPlan) :=
  let local_sketch := foldl (fun s kv => iblt_insert s (listing_elem kv)) (iblt_new (length cs)) local_entries in
  match subtract local_sketch (from_cells cs) with
  | inr _ => Some None
  | inl diff =>
      peeled ← peel fuel diff;
      match peeled with
      | inr _ => Some None
      | inl decoded =>
          let '(push, hashes) := diff_decoded local_entries decoded both_ways in
          Some (Some (pull_by_hash (plan_keys plan (push, [])) bucket hashes))
      end
  end.
Definition handle_sketch_mismatch (fuel : nat) (bucket : Z) (cs : list Sketch.Cell) (local_entries : Listing) (plan : RepairPlan)
    (both_ways : bool) : option RepairPlan :=
  peeled ← peel_sketch_into fuel bucket cs local_entries plan both_ways;
  Some (default (mark_undecodable plan bucket) peeled).

Definition local_listings (s : ServeShard V) (buckets : list Z) (now_ms : Z) : gmap Z Listing :=
  collect_map ((fun be => (be.1, key_versions_to_tuples be.2)) <$> entries_for_buckets s buckets now_ms).

Definition classify_one (fuel : nat) (local : gmap Z Listing) (both_ways : bool) (plan : option RepairPlan) (m : AeMismatch) :
    option RepairPlan :=
  plan ← plan;
  match m with
  | MmBucket bucket peer_entries =>
      Some (plan_keys plan (diff_bucket (default [] (local !! bucket)) (key_versions_to_tuples peer_entries) both_ways))
  | MmSketch bucket cs => handle_sketch_mismatch fuel bucket cs (default [] (local !! bucket)) plan both_ways
  | MmPartDigests _ _ => None (* unreachable: partitioned out *)
  end.
Definition classify_bucket_mismatches (fuel : nat) (s : ServeShard V) (now_ms : Z) (mismatches : list AeMismatch)
    (plan : RepairPlan) (both_ways : bool) : option RepairPlan :=
  foldl (fun plan chunk =>
    let local := local_listings s (mm_bucket <$> chunk) now_ms in
    foldl (classify_one fuel local both_ways) plan chunk)
    (Some plan) (chunk_mismatches mismatches CLASSIFY_BUCKET_CHUNK).

(** A ragged pair counts a missing digest as zero; an index past [u8] is left out. *)
Definition mismatched_parts (local remote : list Z) : list Z :=
  filter (fun i => i <= u8_max /\ default 0 (local !! Z.to_nat i) <> default 0 (remote !! Z.to_nat i))
    (seqZ 0 (Z.max (Z.of_nat (length local)) (Z.of_nat (length remote)))).

(** Every bucket's parts, in bucket order: one undecodable part sends the whole bucket to the fallback. *)
Definition settle_bucket_parts (gathered : gmap Z RepairPlan) (plan : RepairPlan) : RepairPlan :=
  foldl (fun plan bucket =>
    match gathered !! bucket with
    | Some parts =>
        match rp_undecodable parts with
        | _ :: _ => mark_undecodable plan bucket
        | [] => {| rp_in_scope := rp_in_scope plan; rp_push_keys := rp_push_keys plan ++ rp_push_keys parts;
                   rp_pull_keys := rp_pull_keys plan ++ rp_pull_keys parts;
                   rp_pull_hashes := rp_pull_hashes plan ++ rp_pull_hashes parts; rp_undecodable := rp_undecodable plan |}
        end
    | None => plan
    end) plan (sort_Z (map_to_list gathered).*1).

Definition local_part_listings (s : ServeShard V) (parts : list BucketPart) (now_ms : Z) : gmap (Z * Z) Listing :=
  collect_map ((fun be : BucketPart * list KeyVersion =>
    ((bp_bucket be.1, bp_part be.1), key_versions_to_tuples be.2)) <$> entries_for_parts s parts now_ms).

Definition gather_one (fuel : nat) (local : gmap (Z * Z) Listing) (both_ways : bool) (gathered : option (gmap Z RepairPlan))
    (reply : AePartReply) : option (gmap Z RepairPlan) :=
  gathered ← gathered;
  let slot := default (plan_default None) (gathered !! pr_bucket reply) in
  let entries := default [] (local !! (pr_bucket reply, pr_part reply)) in
  slot ← (match reply with
          | PrListing _ _ peer_entries => Some (plan_keys slot (diff_bucket entries (key_versions_to_tuples peer_entries) both_ways))
          | PrSketch bucket _ cs => handle_sketch_mismatch fuel bucket cs entries slot both_ways
          end);
  Some (<[pr_bucket reply := slot]> gathered).
Definition classify_part_replies (fuel : nat) (s : ServeShard V) (now_ms : Z) (replies : list AePartReply) (plan : RepairPlan)
    (both_ways : bool) : option RepairPlan :=
  match replies with
  | [] => Some plan
  | _ =>
      let wanted := (fun r => {| bp_bucket := pr_bucket r; bp_part := pr_part r |}) <$> replies in
      let local := local_part_listings s wanted now_ms in
      gathered ← foldl (gather_one fuel local both_ways) (Some ∅) replies;
      Some (settle_bucket_parts gathered plan)
  end.

Definition retain_peer_owned_pushes (s : ServeShard V) (peer : NodeId) (push_keys : list Bytes) : list Bytes :=
  match sv_residency s with
  | Some r => filter (fun k => peer ∈ owners_of r.1 (pid_of_key k)) push_keys
  | None => push_keys
  end.
Definition retain_owned_pulls (s : ServeShard V) (pull_keys : list Bytes) (pull_hashes : list (Z * list Z)) :
    list Bytes * list (Z * list Z) :=
  match sv_residency s with
  | Some r =>
      (filter (fun k => owns r.1 (pid_of_key k) = true) pull_keys,
       filter (fun bh => bh.2 <> [])
         ((fun bh => (bh.1, filter (fun hash => owns r.1 (Pid.from_hash hash) = true) bh.2)) <$> pull_hashes))
  | None => (pull_keys, pull_hashes)
  end.

End Classify.

(** *** Pulling *)

Definition REPAIR_BATCH : Z := 4096.
Definition REPAIR_BATCH_KEY_BYTES : Z := 512 * 1024.
Definition MAX_CONSECUTIVE_PULL_FAILURES : Z := 2.

Definition push_needed (local : Hlc) (pulled : option Hlc) : bool := negb (bool_decide (pulled = Some local)).

Fixpoint batch_len_from (index bytes : Z) (keys : list Bytes) (max_keys max_bytes : Z) : Z :=
  match keys with
  | [] => index
  | key :: rest =>
      if (0 <? index) && ((max_keys <=? index) || (max_bytes <? bytes + blen key)) then index
      else batch_len_from (index + 1) (bytes + blen key) rest max_keys max_bytes
  end.
Definition pull_batch_len (keys : list Bytes) (max_keys max_bytes : Z) : Z := batch_len_from 0 0 keys max_keys max_bytes.

Definition pull_gives_up (consecutive_failures : Z) : bool := MAX_CONSECUTIVE_PULL_FAILURES <=? consecutive_failures.

Inductive PullOutcome := PoTimedOut | PoFailed | PoAnswered (quick : bool).

Definition next_pull_limit (limit : Z) (outcome : PullOutcome) : Z :=
  match outcome with
  | PoTimedOut => Z.max (limit / 2) 1
  | PoAnswered true => Z.min (saturating_mul limit 2) REPAIR_BATCH
  | PoFailed | PoAnswered false => limit
  end.

Definition pull_timed_out (error : NetError) : bool := match error with NetIo IoTimedOut => true | _ => false end.
(** Durations in nanoseconds; a quarter of one rounds down. *)
Definition pull_was_quick (elapsed timeout : Z) : bool := elapsed <=? timeout / 4.
Definition pull_outcome {T} (reply : result T NetError) (elapsed timeout : Z) : PullOutcome :=
  match reply with
  | Ok _ => PoAnswered (pull_was_quick elapsed timeout)
  | Err error => if pull_timed_out error then PoTimedOut else PoFailed
  end.

Record PullStep := { ps_limit : Z; ps_consumed : bool }.
Definition is_timed_out (o : PullOutcome) : bool := match o with PoTimedOut => true | _ => false end.
Definition pull_step (limit sent : Z) (outcome : PullOutcome) : PullStep :=
  let timed_out := is_timed_out outcome in
  {| ps_limit := next_pull_limit (if timed_out then Z.min limit sent else limit) outcome;
     ps_consumed := negb (timed_out && (1 <? sent)) |}.

Inductive PullSource := SrcKeys (keys : list Bytes) | SrcHashes (bucket : Z) (hashes : list Z).
Definition source_len (s : PullSource) : Z :=
  match s with SrcKeys keys => Z.of_nat (length keys) | SrcHashes _ hashes => Z.of_nat (length hashes) end.
Definition batch_len (s : PullSource) (done limit : Z) : Z :=
  match s with
  | SrcKeys keys => pull_batch_len (drop (Z.to_nat done) keys) limit REPAIR_BATCH_KEY_BYTES
  | SrcHashes _ hashes => Z.min (Z.of_nat (length hashes) - done) limit
  end.

(** A request for some of a source's entries. *)
Inductive PullRequest := ReqKeys (keys : list Bytes) | ReqHashes (bucket : Z) (hashes : list Z).
Definition source_request (s : PullSource) (done count : Z) : PullRequest :=
  match s with
  | SrcKeys keys => ReqKeys (take (Z.to_nat count) (drop (Z.to_nat done) keys))
  | SrcHashes bucket hashes => ReqHashes bucket (take (Z.to_nat count) (drop (Z.to_nat done) hashes))
  end.

(** What the peer at the other end answers. A pull is answered by its number in the round, with
    how long it took, since the same entries may go out twice. *)
Record PeerLink := {
  pl_round : list (Z * Z) -> result (list AeMismatch) NetError;
  pl_round_scoped : Z -> list (Z * Z) -> result AeRoundOutcome NetError;
  pl_round_masked : Z -> list (Z * Z * Z) -> result AeRoundOutcome NetError;
  pl_entries : list Z -> result (list (Z * list KeyVersion)) NetError;
  pl_parts : list (Z * Z) -> result (list AePartReply) NetError;
  pl_pull : nat -> PullRequest -> result (list WireRecord) NetError * Z;
  pl_enqueue : list Msg -> bool;
}.

Record RepairTally := { rt_repaired : Z; rt_bytes_moved : Z }.
Definition wire_record_len (cache_len : Z) (rec : WireRecord) : Z :=
  replicate_frame_len cache_len (blen (wr_key rec)) (from_option blen 0 (wr_value rec)).
Definition tally_add (cache_len : Z) (t : RepairTally) (records : list WireRecord) : RepairTally := {|
  rt_repaired := rt_repaired t + Z.of_nat (length records);
  rt_bytes_moved := rt_bytes_moved t + sum_Z (wire_record_len cache_len <$> records) |}.

Definition request_timeout : Z := 10 * 1000000000.

Section Repairs.
Context {PU : PostcardU32} {HS : Hashing} {R : ConflictResolver} {V : Type} {VC : ValueCodec V} {IS : IdleSort}.

(** The shard as its peers see it. *)
Definition serve_of (c : InConfig V) (s : InShard V) : ServeShard V :=
  {| sv_name := ic_name c; sv_engine := in_engine s; sv_residency := ic_residency c |}.

Record Pulling := {
  pg_shard : InShard V;
  pg_limit : Z;
  pg_kept : option Z; (* the limit the mesh keeps for the peer *)
  pg_failures : Z;
  pg_complete : bool;
  pg_pulled : gmap Bytes Hlc;
  pg_tally : RepairTally;
  pg_requests : list PullRequest;
}.

(** One request: what it leaves, and how many entries it consumed. The outer [None] is the
    store's. *)
Definition pull_once (c : InConfig V) (link : PeerLink) (now_ms : Z) (source : PullSource) (done : Z) (st : Pulling) :
    option (Pulling * Z) :=
  let sent := batch_len source done (pg_limit st) in
  let req := source_request source done sent in
  let '(reply, elapsed) := pl_pull link (length (pg_requests st)) req in
  let step := pull_step (pg_limit st) sent (pull_outcome reply elapsed request_timeout) in
  let consumed := if ps_consumed step then sent else 0 in
  let kept := if ps_limit step =? pg_limit st then pg_kept st else Some (ps_limit step) in
  match reply with
  | Ok records =>
      shard ← apply_remote_batch c (pg_shard st) records now_ms;
      Some ({| pg_shard := shard; pg_limit := ps_limit step; pg_kept := kept; pg_failures := 0; pg_complete := pg_complete st;
               pg_pulled := foldl (fun m rec => <[wr_key rec := wr_ver rec]> m) (pg_pulled st) records;
               pg_tally := tally_add (blen (ic_name c)) (pg_tally st) records; pg_requests := pg_requests st ++ [req] |}, consumed)
  | Err _ =>
      Some ({| pg_shard := pg_shard st; pg_limit := ps_limit step; pg_kept := kept; pg_failures := pg_failures st + 1; pg_complete := false;
               pg_pulled := pg_pulled st; pg_tally := pg_tally st; pg_requests := pg_requests st ++ [req] |}, consumed)
  end.

(** The loop over one source: whether the round gives up. *)
Fixpoint pull_source (fuel : nat) (c : InConfig V) (link : PeerLink) (now_ms : Z) (source : PullSource) (done : Z) (st : Pulling) :
    option (Pulling * bool) :=
  if source_len source <=? done then Some (st, false)
  else
    match fuel with
    | O => None
    | S fuel =>
        '(st, consumed) ← pull_once c link now_ms source done st;
        if pull_gives_up (pg_failures st) then Some (st, true)
        else pull_source fuel c link now_ms source (done + consumed) st
    end.

(** Every request consumes an entry or is one of two failures in a row, so twice the entries and one
    are fuel enough. *)
Definition pull_fuel (source : PullSource) : nat := Z.to_nat (2 * source_len source + 1).

Fixpoint pull_sources (c : InConfig V) (link : PeerLink) (now_ms : Z) (sources : list PullSource) (st : Pulling) : option Pulling :=
  match sources with
  | [] => Some st
  | source :: rest =>
      '(st, gave_up) ← pull_source (pull_fuel source) c link now_ms source 0 st;
      if gave_up : bool then Some st else pull_sources c link now_ms rest st
  end.

Definition pull_repairs (c : InConfig V) (link : PeerLink) (now_ms : Z) (shard : InShard V) (limit : option Z) (tally : RepairTally)
    (pull_keys : list Bytes) (pull_hashes : list (Z * list Z)) : option Pulling :=
  pull_sources c link now_ms (SrcKeys pull_keys :: ((fun bh => SrcHashes bh.1 bh.2) <$> pull_hashes))
    {| pg_shard := shard; pg_limit := default REPAIR_BATCH limit; pg_kept := limit; pg_failures := 0; pg_complete := true; pg_pulled := ∅;
       pg_tally := tally; pg_requests := [] |}.

(** *** Pushing *)

Record Pushing := { pu_enqueued : bool; pu_sent : list Msg; pu_tally : RepairTally }.

Definition push_batch (c : InConfig V) (link : PeerLink) (now_ms : Z) (s : ServeShard V) (pulled : gmap Bytes Hlc) (p : Pushing)
    (batch : list Bytes) : Pushing :=
  let records := skip_unframeable s (records_for s batch now_ms) in
  let records := filter (fun rec => push_needed (wr_ver rec) (pulled !! wr_key rec) = true) records in
  let msgs := batch_replicate (ic_name c) records in
  {| pu_enqueued := pu_enqueued p && pl_enqueue link msgs; pu_sent := pu_sent p ++ msgs;
     pu_tally := tally_add (blen (ic_name c)) (pu_tally p) records |}.
Definition push_repairs (c : InConfig V) (link : PeerLink) (now_ms : Z) (shard : InShard V) (push_keys : list Bytes)
    (pulled : gmap Bytes Hlc) (tally : RepairTally) : Pushing :=
  foldl (push_batch c link now_ms (serve_of c shard) pulled) {| pu_enqueued := true; pu_sent := []; pu_tally := tally |}
    (chunk_mismatches push_keys (Z.to_nat REPAIR_BATCH)).

(** What one round's repairs leave: the store, the peer's pull limit, what was sent, the bytes
    moved, and whether everything was answered. *)
Record Repairs := { rs_shard : InShard V; rs_limit : option Z; rs_sent : list Msg; rs_bytes_moved : Z; rs_complete : bool }.

Definition apply_repairs (c : InConfig V) (link : PeerLink) (now_ms : Z) (shard : InShard V) (limit : option Z)
    (push_keys pull_keys : list Bytes) (pull_hashes : list (Z * list Z)) (both_ways : bool) : option Repairs :=
  let tally := {| rt_repaired := 0; rt_bytes_moved := 0 |} in
  if both_ways then
    pg ← pull_repairs c link now_ms shard limit tally pull_keys pull_hashes;
    let pu := push_repairs c link now_ms (pg_shard pg) push_keys (pg_pulled pg) (pg_tally pg) in
    Some {| rs_shard := pg_shard pg; rs_limit := pg_kept pg; rs_sent := pu_sent pu; rs_bytes_moved := rt_bytes_moved (pu_tally pu);
            rs_complete := pg_complete pg && pu_enqueued pu |}
  else
    let pu := push_repairs c link now_ms shard push_keys ∅ tally in
    pg ← pull_repairs c link now_ms shard limit (pu_tally pu) pull_keys pull_hashes;
    Some {| rs_shard := pg_shard pg; rs_limit := pg_kept pg; rs_sent := pu_sent pu; rs_bytes_moved := rt_bytes_moved (pg_tally pg);
            rs_complete := pu_enqueued pu && pg_complete pg |}.

(** *** A round *)

Inductive RoundOutcome := Reconciled | Stale | Failed.

Definition part_digest_map (s : ServeShard V) (buckets : list Z) : gmap Z (list Z) := collect_map (shard_part_digests s buckets).

(** One chunk of part-digest answers: the plan and whether the part exchange was answered. *)
Definition classify_part_digest_chunk (fuel : nat) (link : PeerLink) (s : ServeShard V) (now_ms : Z) (chunk : list (Z * list Z))
    (plan : RepairPlan) (both_ways : bool) : option (RepairPlan * bool) :=
  let local := part_digest_map s chunk.*1 in
  let wanted := chunk ≫= (fun bd =>
    let mask := repairable plan bd.1 in
    (fun part => (bd.1, part)) <$>
      filter (fun part => PartMask.contains mask part = true) (mismatched_parts (default [] (local !! bd.1)) bd.2)) in
  match wanted with
  | [] => Some (plan, true)
  | _ =>
      match pl_parts link wanted with
      | Ok replies => (fun plan => (plan, true)) <$> classify_part_replies fuel s now_ms replies plan both_ways
      | Err _ => Some (plan, false)
      end
  end.
Fixpoint classify_part_digest_chunks (fuel : nat) (link : PeerLink) (s : ServeShard V) (now_ms : Z) (chunks : list (list (Z * list Z)))
    (plan : RepairPlan) (both_ways : bool) : option (RepairPlan * bool) :=
  match chunks with
  | [] => Some (plan, true)
  | chunk :: rest =>
      '(plan, ok) ← classify_part_digest_chunk fuel link s now_ms chunk plan both_ways;
      if ok : bool then classify_part_digest_chunks fuel link s now_ms rest plan both_ways else Some (plan, false)
  end.

Definition is_part_digests (m : AeMismatch) : option (Z * list Z) := match m with MmPartDigests b ds => Some (b, ds) | _ => None end.
Definition is_bucket_answer (m : AeMismatch) : bool := match m with MmPartDigests _ _ => false | _ => true end.

(** The whole-bucket fallback for the sketches that did not decode: the plan and whether it was answered. *)
Definition sketch_fallback (link : PeerLink) (s : ServeShard V) (now_ms : Z) (plan : RepairPlan) (both_ways : bool) :
    RepairPlan * bool :=
  match rp_undecodable plan with
  | [] => (plan, true)
  | undecodable =>
      let plan := take_undecodable plan in
      match pl_entries link undecodable with
      | Ok fallback =>
          let local := local_listings s fallback.*1 now_ms in
          (foldl (fun plan be =>
             plan_keys plan (diff_bucket (default [] (local !! be.1)) (key_versions_to_tuples be.2) both_ways)) plan fallback, true)
      | Err _ => (plan, false)
      end
  end.

Definition reconcile_mismatches (fuel : nat) (c : InConfig V) (link : PeerLink) (peer : NodeId) (now_ms : Z) (shard : InShard V)
    (limit : option Z) (mismatched : list AeMismatch) (in_scope : option (gmap Z Z)) (both_ways : bool) : option Repairs :=
  let s := serve_of c shard in
  plan ← classify_bucket_mismatches fuel s now_ms (filter (fun m => is_bucket_answer m = true) mismatched) (plan_default in_scope) both_ways;
  '(plan, answered) ← classify_part_digest_chunks fuel link s now_ms
    (chunk_mismatches (omap is_part_digests mismatched) CLASSIFY_BUCKET_CHUNK) plan both_ways;
  let '(plan, listed) := sketch_fallback link s now_ms plan both_ways in
  let '(pull_keys, pull_hashes) := retain_owned_pulls s (rp_pull_keys plan) (rp_pull_hashes plan) in
  let push_keys := retain_peer_owned_pushes s peer (rp_push_keys plan) in
  repairs ← apply_repairs c link now_ms shard limit push_keys pull_keys pull_hashes both_ways;
  Some {| rs_shard := rs_shard repairs; rs_limit := rs_limit repairs; rs_sent := rs_sent repairs;
          rs_bytes_moved := rs_bytes_moved repairs; rs_complete := answered && listed && rs_complete repairs |}.

Definition scoped_exchange (link : PeerLink) (scoped : ScopedDigests) : result AeRoundOutcome NetError :=
  match sd_scope scoped with
  | ScBuckets ids => pl_round_scoped link (sd_view_hash scoped) ids
  | ScParts masked => pl_round_masked link (sd_view_hash scoped) ((fun m => (md_bucket m, md_mask m, md_digest m)) <$> masked)
  end.

(** [ShardOps::ae_exchanges_both]. *)
Definition ae_exchanges_both : bool := merges || needs_value_bytes.

(** A round that ran no repair leaves everything as it was. *)
Definition no_repairs (shard : InShard V) (limit : option Z) : Repairs :=
  {| rs_shard := shard; rs_limit := limit; rs_sent := []; rs_bytes_moved := 0; rs_complete := true |}.

Definition after_exchange (fuel : nat) (c : InConfig V) (link : PeerLink) (peer : NodeId) (now_ms : Z) (shard : InShard V)
    (limit : option Z) (mismatched : list AeMismatch) (in_scope : option (gmap Z Z)) : option (Repairs * RoundOutcome) :=
  match mismatched with
  | [] => Some (no_repairs shard limit, Reconciled)
  | _ =>
      repairs ← reconcile_mismatches fuel c link peer now_ms shard limit mismatched in_scope ae_exchanges_both;
      Some (repairs, if rs_complete repairs then Reconciled else Failed)
  end.

Definition run_round_against (fuel : nat) (c : InConfig V) (link : PeerLink) (peer : NodeId) (now_ms : Z) (shard : InShard V)
    (limit : option Z) : option (Repairs * RoundOutcome) :=
  let s := serve_of c shard in
  match ae_scoped_digests_for s peer with
  | Some scoped =>
      match scoped_exchange link scoped with
      | Ok (RoMismatches mismatched) =>
          after_exchange fuel c link peer now_ms shard limit mismatched (Some (collect_map (coverage (sd_scope scoped))))
      | Ok (RoStale _) => Some (no_repairs shard limit, Stale)
      | Err _ => Some (no_repairs shard limit, Failed)
      end
  | None =>
      match pl_round link (shard_digests s) with
      | Ok mismatched => after_exchange fuel c link peer now_ms shard limit mismatched None
      | Err _ => Some (no_repairs shard limit, Failed)
      end
  end.

(** *** A round for some parts *)

Record PartRoundOutcome := { pr_matched : gset Z; pr_still_diverged : gset Z; pr_bytes_moved : Z; pr_failed : bool }.

Definition every_part_diverged (requested : gset Z) : PartRoundOutcome :=
  {| pr_matched := ∅; pr_still_diverged := requested; pr_bytes_moved := 0; pr_failed := true |}.

Definition matched_parts (requested : gset Z) (covered : list (Z * Z)) (named_mismatched : gset Z) : gset Z :=
  list_to_set (filter (fun part => part ∈ requested)
    (filter (fun bm => bm.1 ∉ named_mismatched) covered ≫= (fun bm => (fun part => Pid.new bm.1 part) <$> PartMask.parts bm.2))).

Definition run_round_for_parts (fuel : nat) (c : InConfig V) (link : PeerLink) (peer : NodeId) (now_ms : Z) (shard : InShard V)
    (limit : option Z) (parts : list PartId) : option (Repairs * PartRoundOutcome) :=
  let requested : gset Z := list_to_set parts in
  match ae_scoped_digests_for (serve_of c shard) peer with
  | None => Some (no_repairs shard limit, every_part_diverged requested)
  | Some scoped =>
      let scope := scope_retain (fun bucket mask =>
        existsb (fun part => bool_decide (Pid.new bucket part ∈ requested)) (PartMask.parts mask)) (sd_scope scoped) in
      let covered := coverage scope in
      match scoped_exchange link {| sd_view_hash := sd_view_hash scoped; sd_scope := scope |} with
      | Ok (RoMismatches mismatched) =>
          let matched := matched_parts requested covered (list_to_set (mm_bucket <$> mismatched)) in
          match mismatched with
          | [] => Some (no_repairs shard limit,
                        {| pr_matched := matched; pr_still_diverged := requested ∖ matched; pr_bytes_moved := 0; pr_failed := false |})
          | _ =>
              repairs ← reconcile_mismatches fuel c link peer now_ms shard limit mismatched (Some (collect_map covered)) ae_exchanges_both;
              Some (repairs, {| pr_matched := matched; pr_still_diverged := requested ∖ matched;
                                pr_bytes_moved := rs_bytes_moved repairs; pr_failed := negb (rs_complete repairs) |})
          end
      | Ok (RoStale _) | Err _ => Some (no_repairs shard limit, every_part_diverged requested)
      end
  end.

End Repairs.
Arguments Pulling V : clear implicits.
Arguments Repairs V : clear implicits.

(** *** The link to a node that serves *)

Definition link_to {PU : PostcardU32} {HS : Hashing} {V} {VC : ValueCodec V} (h : Handler V) (cache : Bytes)
    (my_protocol now_ms elapsed : Z) : PeerLink := {|
  pl_round buckets := collect_ae_mismatches (Ok <$> serve_ae_digest h cache buckets my_protocol now_ms);
  pl_round_scoped view_hash ids := collect_ae_round_scoped (Ok <$> serve_ae_digest_scoped h cache view_hash ids my_protocol now_ms);
  pl_round_masked view_hash bs := collect_ae_round_scoped (Ok <$> serve_ae_digest_masked h cache view_hash bs);
  pl_entries buckets := collect_ae_buckets (Ok <$> serve_ae_entries h cache buckets my_protocol now_ms);
  pl_parts parts := collect_ae_part_replies (Ok <$> serve_ae_parts h cache parts now_ms);
  pl_pull _ req :=
    (collect_pulled_records (Ok <$> match req with
       | ReqKeys keys => serve_ae_pull h cache keys now_ms
       | ReqHashes bucket hashes => serve_ae_pull_hashes h cache bucket hashes now_ms
       end), elapsed);
  pl_enqueue _ := true |}.

(** ** The pull loop *)

Definition request_len (req : PullRequest) : Z :=
  match req with ReqKeys keys => Z.of_nat (length keys) | ReqHashes _ hashes => Z.of_nat (length hashes) end.

(** What is asked for: a key, or a bucket's hash. *)
Definition request_entries (req : PullRequest) : list (Bytes + Z * Z) :=
  match req with ReqKeys keys => inl <$> keys | ReqHashes bucket hashes => (fun h => inr (bucket, h)) <$> hashes end.
Definition source_entries (s : PullSource) : list (Bytes + Z * Z) :=
  match s with SrcKeys keys => inl <$> keys | SrcHashes bucket hashes => (fun h => inr (bucket, h)) <$> hashes end.

Definition answered (link : PeerLink) (n : nat) (req : PullRequest) : option (list WireRecord) :=
  match (pl_pull link n req).1 with Ok recs => Some recs | Err _ => None end.
Definition timed_out (link : PeerLink) (n : nat) (req : PullRequest) : bool :=
  match (pl_pull link n req).1 with Ok _ => false | Err e => pull_timed_out e end.

(** The requests of a round from number [n] on, by what came of them: those not sent again, the
    answers, and whether all were answered. *)
Definition settled (link : PeerLink) (n : nat) (reqs : list PullRequest) : list PullRequest :=
  omap (fun ir => if timed_out link ir.1 ir.2 && (1 <? request_len ir.2) then None else Some ir.2) (imap (fun i req => ((n + i)%nat, req)) reqs).
Definition answers (link : PeerLink) (n : nat) (reqs : list PullRequest) : list (list WireRecord) :=
  omap (fun ir => answered link ir.1 ir.2) (imap (fun i req => ((n + i)%nat, req)) reqs).
Definition answered_requests (link : PeerLink) (n : nat) (reqs : list PullRequest) : list PullRequest :=
  omap (fun ir => (fun _ => ir.2) <$> answered link ir.1 ir.2) (imap (fun i req => ((n + i)%nat, req)) reqs).
Definition all_answered (link : PeerLink) (n : nat) (reqs : list PullRequest) : bool :=
  forallb (fun ir => is_some (answered link ir.1 ir.2)) (imap (fun i req => ((n + i)%nat, req)) reqs).

Lemma imap_shift {A} n (x : A) l : imap (fun i y => ((n + i)%nat, y)) (x :: l) = (n, x) :: imap (fun i y => ((S n + i)%nat, y)) l.
Proof. rewrite imap_cons, Nat.add_0_r. f_equal. apply imap_ext. intros i y _. cbn. f_equal. lia. Qed.

Lemma source_entries_len s : Z.of_nat (length (source_entries s)) = source_len s.
Proof. destruct s; cbn; by rewrite length_fmap. Qed.

Lemma source_request_entries s done count :
  request_entries (source_request s done count) = take (Z.to_nat count) (drop (Z.to_nat done) (source_entries s)).
Proof. destruct s; cbn; by rewrite fmap_take, fmap_drop. Qed.

Lemma request_entries_len req : Z.of_nat (length (request_entries req)) = request_len req.
Proof. destruct req; cbn; by rewrite length_fmap. Qed.

Lemma batch_len_from_bounds keys limit max_bytes : 1 <= limit -> forall index bytes, 0 <= index <= limit ->
  let n := batch_len_from index bytes keys limit max_bytes in
  index <= n <= index + Z.of_nat (length keys) /\ n <= limit /\ (keys <> [] -> index = 0 -> 1 <= n).
Proof.
  intros Hlim. induction keys as [|key keys IH]; intros index bytes Hi; cbn; [split_and!; try lia; done|].
  destruct (_ && _) eqn:E; [split_and!; [lia..|intros _ ->; by cbn in E]|].
  assert (index = 0 \/ index < limit) by (destruct (Z.ltb_spec 0 index), (Z.leb_spec limit index); cbn in E; try discriminate; lia).
  specialize (IH (index + 1) (bytes + blen key)). cbn in IH.
  destruct IH as (IH1 & IH2 & _); [lia|]. split_and!; intros; lia.
Qed.

Lemma batch_len_bounds s done limit : 1 <= limit -> 0 <= done < source_len s ->
  1 <= batch_len s done limit <= Z.min limit (source_len s - done).
Proof.
  intros Hl Hd. destruct s as [keys|bucket hashes]; cbn in *; [|lia].
  pose proof (batch_len_from_bounds (drop (Z.to_nat done) keys) limit REPAIR_BATCH_KEY_BYTES Hl 0 0) as H. cbn in H.
  rewrite length_drop in H. unfold pull_batch_len.
  assert (drop (Z.to_nat done) keys <> []) by (intros Hn; apply (f_equal length) in Hn; rewrite length_drop in Hn; cbn in Hn; lia).
  destruct H as (H1 & H2 & H3); [lia|]. specialize (H3 ltac:(done) eq_refl). lia.
Qed.

Lemma source_request_len s done limit : 1 <= limit -> 0 <= done < source_len s ->
  request_len (source_request s done (batch_len s done limit)) = batch_len s done limit.
Proof.
  intros Hl Hd. pose proof (batch_len_bounds s done limit Hl Hd). rewrite <-request_entries_len, source_request_entries, length_take, length_drop.
  pose proof (source_entries_len s). lia.
Qed.

Section PullLoop.
Context {PU : PostcardU32} {HS : Hashing} {R : ConflictResolver} {V : Type} {VC : ValueCodec V} {IS : IdleSort}.
Context (c : InConfig V) (link : PeerLink) (now_ms : Z).

(** The store after some answers, in the order they came. *)
Definition apply_answers (s : InShard V) (batches : list (list WireRecord)) : option (InShard V) :=
  foldl (fun s recs => s ≫= fun s => apply_remote_batch c s recs now_ms) (Some s) batches.

(** What the store needs to take a batch: an invariant it keeps, and answers fit for it. *)
Context (good : InShard V -> Prop).
Context (Hgood : forall n req s, good s -> forall recs, answered link n req = Some recs ->
  exists s', apply_remote_batch c s recs now_ms = Some s' /\ good s').

Definition limit_ok (st : Pulling V) : Prop := 1 <= pg_limit st <= REPAIR_BATCH /\ default REPAIR_BATCH (pg_kept st) = pg_limit st.

Record pull_once_result (source : PullSource) (done : Z) (st st' : Pulling V) (consumed : Z) : Prop := {
  po_good : good (pg_shard st');
  po_limit : limit_ok st';
  po_requests : pg_requests st' = pg_requests st ++ [source_request source done (batch_len source done (pg_limit st))];
  po_store : apply_answers (pg_shard st) (answers link (length (pg_requests st)) [source_request source done (batch_len source done (pg_limit st))])
             = Some (pg_shard st');
  po_failures : pg_failures st' = if is_some (answered link (length (pg_requests st)) (source_request source done (batch_len source done (pg_limit st))))
                                  then 0 else pg_failures st + 1;
  po_complete : pg_complete st' = pg_complete st &&
    is_some (answered link (length (pg_requests st)) (source_request source done (batch_len source done (pg_limit st))));
  po_consumed : consumed = if timed_out link (length (pg_requests st)) (source_request source done (batch_len source done (pg_limit st)))
                              && (1 <? batch_len source done (pg_limit st)) then 0 else batch_len source done (pg_limit st);
  po_shrinks : timed_out link (length (pg_requests st)) (source_request source done (batch_len source done (pg_limit st))) = true ->
    pg_limit st' = Z.max (batch_len source done (pg_limit st) / 2) 1;
  po_grows : pg_limit st' <= 2 * pg_limit st;
}.

Lemma pull_once_spec source done st : good (pg_shard st) -> limit_ok st -> 0 <= done < source_len source ->
  exists st' consumed, pull_once c link now_ms source done st = Some (st', consumed) /\ pull_once_result source done st st' consumed.
Proof.
  intros Hg [Hl Hk] Hd. pose proof (batch_len_bounds source done (pg_limit st) (proj1 Hl) Hd) as Hb.
  unfold pull_once. set (sent := batch_len source done (pg_limit st)) in *. set (req := source_request source done sent) in *.
  specialize (Hgood (length (pg_requests st)) req (pg_shard st) Hg).
  assert (Hsat : saturating_mul (pg_limit st) 2 = pg_limit st * 2) by (unfold saturating_mul, REPAIR_BATCH in *; ulia).
  assert (Hkeep : forall l, default REPAIR_BATCH (if l =? pg_limit st then pg_kept st else Some l) = l)
    by (intros l; destruct (Z.eqb_spec l (pg_limit st)) as [->|]; done).
  destruct (pl_pull link (length (pg_requests st)) req) as [[recs|e] elapsed] eqn:Ep.
  - assert (Ha : answered link (length (pg_requests st)) req = Some recs) by (unfold answered; by rewrite Ep).
    assert (Ht : timed_out link (length (pg_requests st)) req = false) by (unfold timed_out; by rewrite Ep).
    destruct (Hgood recs Ha) as (s' & Hs & Hg'). rewrite Hs. cbn [mbind option_bind]. eexists _, _. split; [done|].
    cbn. split; cbn [pg_shard pg_limit pg_kept pg_failures pg_complete pg_requests]; fold sent; fold req; rewrite ?Ha, ?Ht; try done.
    + split; [|apply Hkeep]. cbn. destruct (pull_was_quick _ _); [|done]. rewrite Hsat. unfold REPAIR_BATCH in *. lia.
    + unfold answers. rewrite imap_shift. cbn. rewrite Ha. cbn. by rewrite Hs.
    + by rewrite andb_true_r.
    + destruct (pull_was_quick _ _); [rewrite Hsat|]; lia.
  - assert (Ha : answered link (length (pg_requests st)) req = None) by (unfold answered; by rewrite Ep).
    assert (Ht : timed_out link (length (pg_requests st)) req = pull_timed_out e) by (unfold timed_out; by rewrite Ep).
    eexists _, _. split; [done|]. cbn.
    split; cbn [pg_shard pg_limit pg_kept pg_failures pg_complete pg_requests]; fold sent; fold req; rewrite ?Ha, ?Ht; try done.
    + split; [|apply Hkeep]. cbn. unfold pull_step, pull_outcome. destruct (pull_timed_out e); cbn; unfold REPAIR_BATCH in *; dlia.
    + unfold answers. rewrite imap_shift. cbn. by rewrite Ha.
    + by rewrite andb_false_r.
    + unfold pull_step, pull_outcome. destruct (pull_timed_out e); cbn; [|done]. by destruct (1 <? sent).
    + intros Hto. unfold pull_step, pull_outcome. rewrite Hto. cbn. by rewrite Z.min_r by lia.
    + unfold pull_step, pull_outcome. destruct (pull_timed_out e); cbn; dlia.
Qed.

(** What some requests make of a round. *)
Record pull_run (st st' : Pulling V) (reqs : list PullRequest) : Prop := {
  pn_good : good (pg_shard st');
  pn_limit : limit_ok st';
  pn_requests : pg_requests st' = pg_requests st ++ reqs;
  pn_store : apply_answers (pg_shard st) (answers link (length (pg_requests st)) reqs) = Some (pg_shard st');
  pn_complete : pg_complete st' = pg_complete st && all_answered link (length (pg_requests st)) reqs;
  pn_failures : 0 <= pg_failures st -> all_answered link (length (pg_requests st)) reqs = true -> 0 <= pg_failures st' <= pg_failures st;
}.

Lemma apply_answers_app s l1 l2 : apply_answers s (l1 ++ l2) = apply_answers s l1 ≫= fun s => apply_answers s l2.
Proof.
  unfold apply_answers. rewrite foldl_app. destruct (foldl _ (Some s) l1) as [s'|]; [done|]. cbn.
  induction l2 as [|recs l2 IH]; [done|]. exact IH.
Qed.

Lemma pull_run_refl st : good (pg_shard st) -> limit_ok st -> pull_run st st [].
Proof. intros Hg Hl. split; try done; [by rewrite app_nil_r|]. unfold all_answered. cbn. by rewrite andb_true_r. Qed.

Lemma pull_run_trans st1 st2 st3 reqs1 reqs2 : pull_run st1 st2 reqs1 -> pull_run st2 st3 reqs2 -> pull_run st1 st3 (reqs1 ++ reqs2).
Proof.
  intros [_ _ Hr1 Hs1 Hc1 Hf1] [Hg Hl Hr2 Hs2 Hc2 Hf2]. rewrite Hr1, length_app in Hs2, Hc2, Hf2.
  assert (Himap : imap (fun i req => ((length (pg_requests st1) + i)%nat, req)) (reqs1 ++ reqs2) =
    imap (fun i req => ((length (pg_requests st1) + i)%nat, req)) reqs1 ++ imap (fun i req => ((length (pg_requests st1) + length reqs1 + i)%nat, req)) reqs2)
    by (rewrite imap_app; f_equal; apply imap_ext; intros i x _; cbn; f_equal; lia).
  split; [done|done|by rewrite Hr2, Hr1, app_assoc| | |].
  - unfold answers. rewrite Himap, omap_app, apply_answers_app. unfold answers in Hs1. rewrite Hs1. exact Hs2.
  - unfold all_answered. rewrite Himap, forallb_app, andb_assoc. by rewrite Hc2, Hc1.
  - unfold all_answered in *. rewrite Himap, forallb_app, andb_true_iff. intros H0 [Ha1 Ha2]. specialize (Hf1 H0 Ha1). specialize (Hf2 ltac:(lia) Ha2). lia.
Qed.

Lemma settled_app n reqs1 reqs2 : settled link n (reqs1 ++ reqs2) = settled link n reqs1 ++ settled link (n + length reqs1) reqs2.
Proof.
  unfold settled. rewrite imap_app, omap_app. f_equal. f_equal. apply imap_ext. intros i x _. cbn. f_equal. lia.
Qed.

Lemma pull_once_run source done st st' consumed : pull_once_result source done st st' consumed ->
  pull_run st st' [source_request source done (batch_len source done (pg_limit st))].
Proof.
  intros [H1 H2 H3 H4 H5 H6 H7 H8 H9]. split; try done; unfold all_answered; cbn; rewrite Nat.add_0_r, andb_true_r; [done|].
  intros H0 Ha. rewrite H5, Ha. lia.
Qed.

(** What the loop over one source leaves. *)
Definition source_pulled (source : PullSource) (done : Z) (st : Pulling V) (out : option (Pulling V * bool)) : Prop :=
  exists st' g reqs, out = Some (st', g) /\ pull_run st st' reqs /\
    0 <= pg_failures st' <= 2 /\ g = pull_gives_up (pg_failures st') /\
    Z.of_nat (length reqs) <= 2 * (source_len source - done) - pg_failures st + pg_failures st' /\
    (g = false -> concat (request_entries <$> settled link (length (pg_requests st)) reqs) = drop (Z.to_nat done) (source_entries source)).

Lemma pull_source_spec source : forall fuel done st, good (pg_shard st) -> limit_ok st -> 0 <= done <= source_len source ->
  0 <= pg_failures st <= 1 -> 2 * (source_len source - done) - pg_failures st <= Z.of_nat fuel ->
  source_pulled source done st (pull_source fuel c link now_ms source done st).
Proof.
  assert (Hend : forall fuel done st, good (pg_shard st) -> limit_ok st -> 0 <= pg_failures st <= 1 -> done = source_len source ->
    source_pulled source done st (pull_source fuel c link now_ms source done st)).
  { intros fuel done st Hg Hl Hf ->. exists st, false, []. split_and!; try lia.
    - destruct fuel; cbn [pull_source]; by rewrite (proj2 (Z.leb_le _ _)) by lia.
    - by apply pull_run_refl.
    - unfold pull_gives_up, MAX_CONSECUTIVE_PULL_FAILURES. by rewrite (proj2 (Z.leb_gt _ _)) by lia.
    - cbn. lia.
    - intros _. cbn. rewrite drop_ge; [done|]. pose proof (source_entries_len source). lia. }
  induction fuel as [|fuel IH]; intros done st Hg Hl Hd Hf Hfuel.
  { apply Hend; try done. lia. }
  destruct (Z.eq_dec done (source_len source)) as [->|Hne]; [by apply Hend|].
  assert (Hdl : 0 <= done < source_len source) by lia.
  cbn [pull_source]. rewrite (proj2 (Z.leb_gt _ _)) by lia.
  destruct (pull_once_spec source done st Hg Hl Hdl) as (st1 & consumed & -> & Hpo). cbn [mbind option_bind].
  pose proof (batch_len_bounds source done (pg_limit st) (proj1 (proj1 Hl)) Hdl) as Hb.
  pose proof (source_request_len source done (pg_limit st) (proj1 (proj1 Hl)) Hdl) as Hrl.
  pose proof (pull_once_run _ _ _ _ _ Hpo) as Hrun. destruct Hpo as [Hg1 Hl1 Hr1 _ Hf1 _ Hco _ _].
  set (sent := batch_len source done (pg_limit st)) in *. set (req := source_request source done sent) in *.
  set (n := length (pg_requests st)) in *.
  assert (Hset : concat (request_entries <$> settled link n [req]) = take (Z.to_nat consumed) (drop (Z.to_nat done) (source_entries source))).
  { unfold settled. cbn. rewrite Nat.add_0_r, Hrl, Hco. destruct (_ && _); cbn; [done|]. rewrite app_nil_r. apply source_request_entries. }
  assert (Hans : timed_out link n req = true -> answered link n req = None) by (unfold timed_out, answered; by destruct (pl_pull link n req).1).
  assert (Hm : 0 <= consumed <= source_len source - done /\ 0 <= pg_failures st1 <= 2 /\
    2 * (source_len source - (done + consumed)) - pg_failures st1 <= 2 * (source_len source - done) - pg_failures st - 1).
  { rewrite Hco, Hf1. destruct (timed_out link n req) eqn:Et; cbn [andb].
    - rewrite Hans by done. cbn. destruct (Z.ltb_spec 1 sent); lia.
    - destruct (is_some _); lia. }
  destruct (pull_gives_up (pg_failures st1)) eqn:Eg.
  { exists st1, true, [req]. split_and!; try done; try lia; cbn; lia. }
  unfold pull_gives_up, MAX_CONSECUTIVE_PULL_FAILURES in Eg. apply Z.leb_gt in Eg.
  destruct (IH (done + consumed) st1 Hg1 Hl1) as (st' & g & reqs & -> & Hrun2 & Hf2 & Hgu & Hlen & Hcov); [lia..|].
  exists st', g, (req :: reqs). split_and!; try done; try lia.
  - by apply (pull_run_trans st st1 st' [req] reqs).
  - cbn [length]. lia.
  - intros Hgf. fold n. change (req :: reqs) with ([req] ++ reqs). rewrite settled_app, fmap_app, concat_app, Hset.
    rewrite Hr1, length_app in Hcov. cbn [length] in *. fold n in Hcov. rewrite Hcov by done.
    rewrite Z2Nat.inj_add, <-drop_drop by lia. apply take_drop.
Qed.

Lemma pull_sources_spec sources : forall st, good (pg_shard st) -> limit_ok st -> 0 <= pg_failures st <= 1 ->
  exists st' reqs, pull_sources c link now_ms sources st = Some st' /\ pull_run st st' reqs /\ 0 <= pg_failures st' <= 2 /\
    Z.of_nat (length reqs) <= 2 * sum_Z (source_len <$> sources) - pg_failures st + pg_failures st' /\
    (pull_gives_up (pg_failures st') = false ->
     concat (request_entries <$> settled link (length (pg_requests st)) reqs) = concat (source_entries <$> sources)).
Proof.
  induction sources as [|source sources IH]; intros st Hg Hl Hf.
  { exists st, []. split_and!; try done; try lia; [by apply pull_run_refl|change (sum_Z (source_len <$> [])) with 0; cbn; lia]. }
  pose proof (source_entries_len source) as Hsl. cbn [pull_sources].
  destruct (pull_source_spec source (pull_fuel source) 0 st Hg Hl ltac:(lia) Hf) as (st1 & g & reqs1 & -> & Hrun1 & Hf1 & Hgu & Hlen1 & Hcov1).
  { unfold pull_fuel. lia. }
  cbn [mbind option_bind]. rewrite fmap_cons, sum_Z_cons.
  assert (0 <= sum_Z (source_len <$> sources)) by (apply sum_Z_nonneg; apply Forall_fmap, Forall_true; intros x; cbn; pose proof (source_entries_len x); lia).
  destruct g; [exists st1, reqs1; split_and!; try done; try lia; congruence|].
  symmetry in Hgu. pose proof Hgu as Hgu'. unfold pull_gives_up, MAX_CONSECUTIVE_PULL_FAILURES in Hgu'. apply Z.leb_gt in Hgu'.
  pose proof Hrun1 as [Hg1 Hl1 Hr1 _ _ _].
  destruct (IH st1 Hg1 Hl1 ltac:(lia)) as (st' & reqs2 & -> & Hrun2 & Hf2 & Hlen2 & Hcov2).
  exists st', (reqs1 ++ reqs2). split_and!; try done; try lia.
  - by eapply pull_run_trans.
  - rewrite length_app. lia.
  - intros Hgf. rewrite settled_app, fmap_app, concat_app, Hcov1, drop_0 by done. rewrite fmap_cons. cbn [concat]. f_equal.
    rewrite Hr1, length_app in Hcov2. by apply Hcov2.
Qed.

End PullLoop.

(** *** Under last-writer-wins *)

Section PullLww.
Context {PU : PostcardU32} {HS : Hashing} {V : Type} {VC : ValueCodec V} {IS : IdleSort} {PUL : PostcardU32Laws}.

(** A store that takes any batch: the invariant holds and nothing is evicted. *)
Definition takes_batches (s : InShard V) : Prop := engine_inv (in_engine s) /\ max_capacity (cfg (in_engine s)) = u64_max.

Definition answers_fit (link : PeerLink) : Prop :=
  forall n req recs, answered link n req = Some recs -> Forall (fun rec => key_fits (wr_key rec)) recs.

Lemma takes_batches_good (c : InConfig V) link now : inbound_scope (ic_mode c) = AnyScope -> answers_fit link ->
  forall n req s, takes_batches s -> forall recs, answered link n req = Some recs ->
  exists s', apply_remote_batch (R := LwwResolver) c s recs now = Some s' /\ takes_batches s'.
Proof.
  intros Hm Hfit n req s [Hi Hc] recs Ha.
  destruct (apply_inbound_lww c s recs InReplicated now Hi Hc Hm (Hfit _ _ _ Ha)) as (s' & Hs & Hi' & [Hcfg _] & _).
  exists s'. split; [done|]. split; [done|by rewrite Hcfg].
Qed.

Lemma omap_stored_app (c : InConfig V) now l1 l2 : omap (stored_from c now) (kept_by_guard c (l1 ++ l2)) =
  omap (stored_from c now) (kept_by_guard c l1) ++ omap (stored_from c now) (kept_by_guard c l2).
Proof. unfold kept_by_guard. destruct (ic_residency c); [rewrite filter_app|]; apply omap_app. Qed.

Lemma apply_answers_lww (c : InConfig V) now batches : inbound_scope (ic_mode c) = AnyScope ->
  Forall (Forall (fun rec => key_fits (wr_key rec))) batches -> forall s, takes_batches s ->
  let ctx := batch_ctx (R := LwwResolver) (in_engine s) AnyScope APeer (ic_tombstone_ttl_ms c) (ic_tombstone_max_ttl_ms c) now in
  exists s', apply_answers (R := LwwResolver) c now s batches = Some s' /\ takes_batches s' /\ same_config (in_engine s) (in_engine s') /\
    forall k, engine_record (in_engine s') k =
      foldl (lww_join k) (engine_record (in_engine s) k) (entry_write ctx <$> omap (stored_from c now) (kept_by_guard c (concat batches))).
Proof.
  intros Hm. induction 1 as [|recs batches Hfit _ IH]; intros s [Hi Hc] ctx.
  { exists s. split_and!; try done. intros k. unfold kept_by_guard. by destruct (ic_residency c). }
  destruct (apply_inbound_lww c s recs InReplicated now Hi Hc Hm Hfit) as (s1 & Hs1 & Hi1 & Hsc1 & Hr1 & _).
  destruct (IH s1) as (s' & Hs' & Ht' & Hsc' & Hr'); [split; [done|by destruct Hsc1 as [-> _]]|].
  exists s'. split_and!; [|done|by etrans|].
  - unfold apply_answers in *. cbn [foldl mbind option_bind]. unfold apply_remote_batch at 2. rewrite Hs1. exact Hs'.
  - intros k. rewrite Hr', Hr1, (batch_ctx_same (in_engine s) (in_engine s1)) by done. cbn [concat]. by rewrite omap_stored_app, fmap_app, foldl_app.
Qed.

Lemma answers_all_fit link n reqs : answers_fit link -> Forall (Forall (fun rec => key_fits (wr_key rec))) (answers link n reqs).
Proof.
  intros Hfit. apply Forall_forall. intros recs ([i req] & _ & Ha)%list_elem_of_omap. by eapply Hfit.
Qed.

Lemma settled_all link n reqs : all_answered link n reqs = true -> settled link n reqs = reqs.
Proof.
  unfold all_answered, settled. revert n. induction reqs as [|req reqs IH]; intros n; [done|]. rewrite !imap_shift.
  cbn [forallb omap list_omap fst snd]. intros [Ha Hr]%andb_true_iff.
  assert (Ht : timed_out link n req = false) by (unfold timed_out, answered in *; by destruct (pl_pull link n req).1).
  rewrite Ht. cbn [andb]. f_equal. by apply (IH (S n)).
Qed.

Definition pull_plan (pull_keys : list Bytes) (pull_hashes : list (Z * list Z)) : list PullSource :=
  SrcKeys pull_keys :: ((fun bh => SrcHashes bh.1 bh.2) <$> pull_hashes).

Lemma pull_repairs_spec (c : InConfig V) link now s limit tally pull_keys pull_hashes :
  inbound_scope (ic_mode c) = AnyScope -> takes_batches s -> answers_fit link -> 1 <= default REPAIR_BATCH limit <= REPAIR_BATCH ->
  let ctx := batch_ctx (R := LwwResolver) (in_engine s) AnyScope APeer (ic_tombstone_ttl_ms c) (ic_tombstone_max_ttl_ms c) now in
  let sources := pull_plan pull_keys pull_hashes in
  exists pg, pull_repairs (R := LwwResolver) c link now s limit tally pull_keys pull_hashes = Some pg /\
    1 <= default REPAIR_BATCH (pg_kept pg) <= REPAIR_BATCH /\
    Z.of_nat (length (pg_requests pg)) <= 2 * sum_Z (source_len <$> sources) + MAX_CONSECUTIVE_PULL_FAILURES /\
    (pull_gives_up (pg_failures pg) = false ->
     concat (request_entries <$> settled link 0 (pg_requests pg)) = concat (source_entries <$> sources)) /\
    (pg_complete pg = true -> concat (request_entries <$> pg_requests pg) = concat (source_entries <$> sources)) /\
    pg_complete pg = all_answered link 0 (pg_requests pg) /\
    takes_batches (pg_shard pg) /\ same_config (in_engine s) (in_engine (pg_shard pg)) /\
    forall k, engine_record (in_engine (pg_shard pg)) k =
      foldl (lww_join k) (engine_record (in_engine s) k)
        (entry_write ctx <$> omap (stored_from c now) (kept_by_guard c (concat (answers link 0 (pg_requests pg))))).
Proof.
  intros Hm Hs Hfit Hlim ctx sources.
  unfold pull_repairs. fold sources. set (st := {| pg_shard := s; pg_limit := _; pg_kept := _; pg_failures := _; pg_complete := _; pg_pulled := _; pg_tally := _; pg_requests := _ |}).
  destruct (pull_sources_spec c link now takes_batches (takes_batches_good c link now Hm Hfit) sources st) as (pg & reqs & Hp & [Hg Hl Hr Hst Hc Hf] & Hf' & Hlen & Hcov);
    [done|by split|cbn; lia|].
  cbn [st pg_requests length app] in *. subst reqs. cbn [pg_complete andb] in Hc.
  destruct (apply_answers_lww c now (answers link 0 (pg_requests pg)) Hm (answers_all_fit _ _ _ Hfit) s Hs) as (s' & Hs' & _ & Hsc & Hrec).
  change (pg_shard st) with s in Hst. rewrite Hst in Hs'. injection Hs' as <-.
  destruct Hl as [Hl Hk]. change (pg_failures st) with 0 in *.
  exists pg. split_and!; try done; try (rewrite Hk; lia).
  - unfold MAX_CONSECUTIVE_PULL_FAILURES. lia.
  - intros Hco. rewrite Hc in Hco. specialize (Hf ltac:(lia) Hco). rewrite <-Hcov, settled_all; try done.
    unfold pull_gives_up, MAX_CONSECUTIVE_PULL_FAILURES. apply Z.leb_gt. lia.
Qed.

End PullLww.

(** *** A peer that answers small batches *)

(** The peer answers every request for at most [m] entries; a larger one is answered or times
    out. A request refused in another way is not sent again and leaves the limit as it is, so
    nothing can be said of a peer that refuses large requests instead of being slow. *)
Definition answers_up_to (m : Z) (link : PeerLink) : Prop :=
  forall n req, answered link n req = None -> timed_out link n req = true /\ m < request_len req.

Section Stall.
Context {PU : PostcardU32} {HS : Hashing} {R : ConflictResolver} {V : Type} {VC : ValueCodec V} {IS : IdleSort}.
Context (c : InConfig V) (link : PeerLink) (now_ms : Z) (good : InShard V -> Prop).
Context (Hgood : forall n req s, good s -> forall recs, answered link n req = Some recs ->
  exists s', apply_remote_batch c s recs now_ms = Some s' /\ good s').
Context (Hup : answers_up_to 1 link).

(** A request of the run, for one entry at least, was answered. *)
Definition some_answer (st st' : Pulling V) : Prop :=
  exists i req recs, (length (pg_requests st) <= i)%nat /\ pg_requests st' !! i = Some req /\
    request_entries req <> [] /\ answered link i req = Some recs.

Lemma some_answer_run_r st st1 st' reqs : some_answer st st1 -> pull_run c link now_ms good st1 st' reqs -> some_answer st st'.
Proof.
  intros (i & req & recs & Hi & Hr & Hrest) [_ _ H2 _ _ _]. exists i, req, recs. split_and!; [done| |by apply Hrest..].
  rewrite H2. by apply lookup_app_l_Some.
Qed.
Lemma some_answer_run_l st st1 st' reqs : pull_run c link now_ms good st st1 reqs -> some_answer st1 st' -> some_answer st st'.
Proof.
  intros [_ _ H1 _ _ _] (i & req & recs & Hi & Hrest). exists i, req, recs. split; [|done].
  rewrite H1, length_app in Hi. lia.
Qed.

(** One request: it is answered, or its limit is halved. *)
Lemma pull_once_stall source done st : good (pg_shard st) -> limit_ok st -> 0 <= done < source_len source ->
  exists st' consumed, pull_once c link now_ms source done st = Some (st', consumed) /\
    (exists reqs, pull_run c link now_ms good st st' reqs) /\ 0 <= done + consumed <= source_len source /\
    ((some_answer st st' /\ pg_failures st' = 0 /\ 1 <= consumed) \/
     (pg_failures st' = pg_failures st + 1 /\ consumed = 0 /\ 2 <= pg_limit st /\ pg_limit st' <= pg_limit st / 2)).
Proof.
  intros Hg Hl Hd. destruct (pull_once_spec c link now_ms good Hgood source done st Hg Hl Hd) as (st' & consumed & Hp & Hpo).
  pose proof (batch_len_bounds source done (pg_limit st) (proj1 (proj1 Hl)) Hd) as Hb.
  pose proof (source_request_len source done (pg_limit st) (proj1 (proj1 Hl)) Hd) as Hrl.
  exists st', consumed. pose proof (pull_once_run c link now_ms good _ _ _ _ _ Hpo) as Hrun. destruct Hpo as [_ _ Hr _ Hf _ Hco Hsh _].
  split_and!; [done|by eexists|rewrite Hco; destruct (_ && _); lia..|].
  destruct (answered link (length (pg_requests st)) (source_request source done (batch_len source done (pg_limit st)))) as [recs|] eqn:Ea.
  - left. split_and!; [|done|]; [eexists _, _, recs; split_and!; [done|by rewrite Hr, lookup_app_r, Nat.sub_diag by lia| |done]; intros Hn;
      pose proof (request_entries_len (source_request source done (batch_len source done (pg_limit st)))) as Hlen; rewrite Hn, Hrl in Hlen; cbn in Hlen; lia|].
    unfold timed_out in Hco. unfold answered in Ea. destruct (pl_pull link _ _).1; [|done]. cbn in Hco. lia.
  - right. destruct (Hup _ _ Ea) as [Ht Hm]. rewrite Hrl in Hm. rewrite Ht in Hco, Hsh. specialize (Hsh eq_refl).
    rewrite (proj2 (Z.ltb_lt _ _)) in Hco by lia. cbn in Hco, Hf. split_and!; try done; [lia|]. rewrite Hsh. dlia.
Qed.

(** A source either gets an answer, or the round gives up with a quarter of the limit. *)
Lemma pull_source_stall source st : good (pg_shard st) -> limit_ok st -> pg_failures st = 0 -> 0 < source_len source ->
  exists st' g reqs, pull_source (pull_fuel source) c link now_ms source 0 st = Some (st', g) /\ pull_run c link now_ms good st st' reqs /\
    (some_answer st st' \/ (g = true /\ 4 <= pg_limit st /\ pg_limit st' <= pg_limit st / 4)) /\
    (g = false -> 0 <= pg_failures st' <= 1).
Proof.
  intros Hg Hl Hf Hlen.
  assert (Hrest : forall fuel done st1 r1, pull_run c link now_ms good st st1 r1 -> some_answer st st1 -> 0 <= pg_failures st1 <= 1 -> 0 <= done <= source_len source ->
    2 * (source_len source - done) <= Z.of_nat fuel ->
    exists st' g reqs, pull_source fuel c link now_ms source done st1 = Some (st', g) /\ pull_run c link now_ms good st st' reqs /\
      (some_answer st st' \/ (g = true /\ 4 <= pg_limit st /\ pg_limit st' <= pg_limit st / 4)) /\ (g = false -> 0 <= pg_failures st' <= 1)).
  { intros fuel done st1 r1 Hrun Ha Hf1 Hd Hfu. pose proof Hrun as [Hg1 Hl1 _ _ _ _].
    destruct (pull_source_spec c link now_ms good Hgood source fuel done st1 Hg1 Hl1 Hd Hf1) as (st' & g & r2 & Hp & Hrun2 & Hf2 & Hgu & _ & _); [lia|].
    exists st', g, (r1 ++ r2). split_and!; [done|by eapply pull_run_trans|left; by eapply some_answer_run_r|].
    intros ->. symmetry in Hgu. apply Z.leb_gt in Hgu. unfold MAX_CONSECUTIVE_PULL_FAILURES in Hgu. lia. }
  unfold pull_fuel. destruct (Z.to_nat (2 * source_len source + 1)) as [|[|fuel]] eqn:Efuel; [lia..|]. cbn [pull_source].
  rewrite (proj2 (Z.leb_gt _ _)) by lia.
  destruct (pull_once_stall source 0 st Hg Hl ltac:(lia)) as (st1 & c1 & -> & (r1 & Hrun1) & Hd1 & Hcase). cbn [mbind option_bind].
  destruct Hcase as [(Ha & Hf1 & Hc1)|(Hf1 & -> & Hlo & Hhalf)].
  - unfold pull_gives_up at 1. rewrite Hf1. change (MAX_CONSECUTIVE_PULL_FAILURES <=? 0) with false. cbn iota. apply (Hrest (S fuel) (0 + c1) st1 r1); try done; lia.
  - unfold pull_gives_up at 1. rewrite Hf1, Hf. change (MAX_CONSECUTIVE_PULL_FAILURES <=? 0 + 1) with false. cbn iota. change (0 + 0) with 0. cbn [pull_source].
    rewrite (proj2 (Z.leb_gt _ _)) by lia. pose proof Hrun1 as [Hg1 Hl1 _ _ _ _].
    destruct (pull_once_stall source 0 st1 Hg1 Hl1 ltac:(lia)) as (st2 & c2 & -> & (r2 & Hrun2) & Hd2 & Hcase2). cbn [mbind option_bind].
    pose proof (pull_run_trans c link now_ms good _ _ _ _ _ Hrun1 Hrun2) as Hrun.
    destruct Hcase2 as [(Ha & Hf2 & Hc2)|(Hf2 & -> & Hlo2 & Hhalf2)].
    + unfold pull_gives_up at 1. rewrite Hf2. change (MAX_CONSECUTIVE_PULL_FAILURES <=? 0) with false. cbn iota. apply (Hrest fuel (0 + c2) st2 (r1 ++ r2)); try done; try lia. exact (some_answer_run_l _ _ _ _ Hrun1 Ha).
    + unfold pull_gives_up at 1. rewrite Hf2, Hf1, Hf. change (MAX_CONSECUTIVE_PULL_FAILURES <=? 0 + 1 + 1) with true. cbn iota. exists st2, true, (r1 ++ r2). split_and!; try done. right. split_and!; [done|dlia|dlia].
Qed.

Lemma pull_sources_stall sources : forall st, good (pg_shard st) -> limit_ok st -> pg_failures st = 0 ->
  exists st' reqs, pull_sources c link now_ms sources st = Some st' /\ pull_run c link now_ms good st st' reqs /\
    (some_answer st st' \/ concat (source_entries <$> sources) = [] \/ (4 <= pg_limit st /\ pg_limit st' <= pg_limit st / 4)).
Proof.
  induction sources as [|source sources IH]; intros st Hg Hl Hf.
  { exists st, []. split_and!; [done|by apply pull_run_refl|]. right. by left. }
  pose proof (source_entries_len source) as Hsl. cbn [pull_sources].
  destruct (Z.eq_dec (source_len source) 0) as [H0|Hpos].
  { assert (Hp : pull_source (pull_fuel source) c link now_ms source 0 st = Some (st, false))
      by (destruct (pull_fuel source); cbn [pull_source]; by rewrite H0).
    rewrite Hp. cbn [mbind option_bind]. rewrite fmap_cons. cbn [concat].
    assert (Hsrc : source_entries source = []) by (destruct (source_entries source); [done|cbn in Hsl; lia]). rewrite Hsrc. by apply IH. }
  destruct (pull_source_stall source st Hg Hl Hf ltac:(lia)) as (st1 & g & r1 & -> & Hrun1 & Hcase & Hg1). cbn [mbind option_bind].
  destruct g.
  - exists st1, r1. split_and!; try done. destruct Hcase as [?|(_ & ? & ?)]; [by left|right; by right].
  - destruct Hcase as [Ha|(? & _)]; [|done]. pose proof Hrun1 as [Hgd Hl1 _ _ _ _].
    destruct (pull_sources_spec c link now_ms good Hgood sources st1 Hgd Hl1 (Hg1 eq_refl)) as (st' & r2 & -> & Hrun2 & _).
    exists st', (r1 ++ r2). split_and!; [done|by eapply pull_run_trans|]. left. by eapply some_answer_run_r.
Qed.

End Stall.

(** *** The theorems on pulling *)

Section PullTheorems.
Context {PU : PostcardU32} {HS : Hashing} {V : Type} {VC : ValueCodec V} {IS : IdleSort} {PUL : PostcardU32Laws}.

(** C15: the pull loop of a last-writer-wins cache without a capacity cap that is not in
    invalidation mode, against any peer whose answers carry keys under 2^32 bytes, whatever it
    answers, fails or times out. It ends: in at most twice as many requests as there are
    entries to pull, and two more. The batch limit the mesh keeps stays between one and [REPAIR_BATCH].
    Unless the round gives up, the requests that are not sent again cut the entries to pull, the keys
    and then each bucket's hashes, into consecutive batches; a round that reports itself complete had every
    entry answered, in one request each. The store ends with the newest of what it held and of
    all that was answered, which a failed request does not lose. *)
Theorem pull_loop_fetches_every_entry (c : InConfig V) (link : PeerLink) (now : Z) (s : InShard V) (limit : option Z) (tally : RepairTally)
    (pull_keys : list Bytes) (pull_hashes : list (Z * list Z))
    (Hmode : inbound_scope (ic_mode c) = AnyScope) (Hs : takes_batches s) (Hfit : answers_fit link)
    (Hlimit : 1 <= default REPAIR_BATCH limit <= REPAIR_BATCH) :
  let ctx := batch_ctx (R := LwwResolver) (in_engine s) AnyScope APeer (ic_tombstone_ttl_ms c) (ic_tombstone_max_ttl_ms c) now in
  let sources := pull_plan pull_keys pull_hashes in
  exists pg, pull_repairs (R := LwwResolver) c link now s limit tally pull_keys pull_hashes = Some pg /\
    1 <= default REPAIR_BATCH (pg_kept pg) <= REPAIR_BATCH /\
    Z.of_nat (length (pg_requests pg)) <= 2 * sum_Z (source_len <$> sources) + MAX_CONSECUTIVE_PULL_FAILURES /\
    (pull_gives_up (pg_failures pg) = false ->
     concat (request_entries <$> settled link 0 (pg_requests pg)) = concat (source_entries <$> sources)) /\
    (pg_complete pg = true -> concat (request_entries <$> pg_requests pg) = concat (source_entries <$> sources)) /\
    pg_complete pg = all_answered link 0 (pg_requests pg) /\
    takes_batches (pg_shard pg) /\ same_config (in_engine s) (in_engine (pg_shard pg)) /\
    forall k, engine_record (in_engine (pg_shard pg)) k =
      foldl (lww_join k) (engine_record (in_engine s) k)
        (entry_write ctx <$> omap (stored_from c now) (kept_by_guard c (concat (answers link 0 (pg_requests pg))))).
Proof. by apply pull_repairs_spec. Qed.

(** A round's pulls: against which answers, into which store, of which entries. *)
Record PullRound := {
  prd_link : PeerLink; prd_now : Z; prd_shard : InShard V; prd_keys : list Bytes; prd_hashes : list (Z * list Z) }.

Definition round_tally : RepairTally := {| rt_repaired := 0; rt_bytes_moved := 0 |}.

(** Rounds against one peer: each starts from the limit the one before it left on the mesh. *)
Fixpoint pull_rounds (c : InConfig V) (limit : option Z) (rounds : list PullRound) : option (list (Pulling V)) :=
  match rounds with
  | [] => Some []
  | rd :: rest =>
      pg ← pull_repairs (R := LwwResolver) c (prd_link rd) (prd_now rd) (prd_shard rd) limit round_tally (prd_keys rd) (prd_hashes rd);
      pgs ← pull_rounds c (pg_kept pg) rest;
      Some (pg :: pgs)
  end.

(** A round with something to pull, from a peer that answers a request for one entry. *)
Record live_round (rd : PullRound) : Prop := {
  lr_shard : takes_batches (prd_shard rd);
  lr_fit : answers_fit (prd_link rd);
  lr_answers : answers_up_to 1 (prd_link rd);
  lr_work : concat (source_entries <$> pull_plan (prd_keys rd) (prd_hashes rd)) <> [];
}.

(** A request for one of the entries at least was answered. *)
Definition round_answered (rd : PullRound) (pg : Pulling V) : Prop :=
  exists i req recs, pg_requests pg !! i = Some req /\ request_entries req <> [] /\ answered (prd_link rd) i req = Some recs.

(** The store the round leaves: the newest of what it held and of all that was answered. *)
Definition round_applied (c : InConfig V) (rd : PullRound) (pg : Pulling V) : Prop :=
  let ctx := batch_ctx (R := LwwResolver) (in_engine (prd_shard rd)) AnyScope APeer (ic_tombstone_ttl_ms c) (ic_tombstone_max_ttl_ms c) (prd_now rd) in
  forall k, engine_record (in_engine (pg_shard pg)) k =
    foldl (lww_join k) (engine_record (in_engine (prd_shard rd)) k)
      (entry_write ctx <$> omap (stored_from c (prd_now rd)) (kept_by_guard c (concat (answers (prd_link rd) 0 (pg_requests pg))))).

Lemma pull_rounds_applied (c : InConfig V) : inbound_scope (ic_mode c) = AnyScope -> forall rounds limit pgs,
  1 <= default REPAIR_BATCH limit <= REPAIR_BATCH -> Forall live_round rounds -> pull_rounds c limit rounds = Some pgs ->
  forall i rd pg, rounds !! i = Some rd -> pgs !! i = Some pg -> round_applied c rd pg.
Proof.
  intros Hm. induction rounds as [|rd rounds IH]; intros limit pgs Hlim Hr Hp i rd' pg' Hrd Hpg; [done|].
  apply Forall_cons in Hr as [[Hs Hf _ _] Hr]. cbn [pull_rounds] in Hp.
  destruct (pull_repairs_spec c (prd_link rd) (prd_now rd) (prd_shard rd) limit round_tally (prd_keys rd) (prd_hashes rd) Hm Hs Hf Hlim)
    as (pg & Hpr & Hl' & _ & _ & _ & _ & _ & _ & Hst).
  rewrite Hpr in Hp. cbn [mbind option_bind] in Hp. destruct (pull_rounds c (pg_kept pg) rounds) as [pgs'|] eqn:Er; [|done].
  injection Hp as <-. destruct i as [|i]; cbn in Hrd, Hpg; [injection Hrd as <-; injection Hpg as <-; exact Hst|].
  by apply (IH (pg_kept pg) pgs' Hl' Hr Er i).
Qed.

Lemma pull_rounds_stall (c : InConfig V) : inbound_scope (ic_mode c) = AnyScope -> forall n rounds limit,
  1 <= default REPAIR_BATCH limit <= REPAIR_BATCH -> default REPAIR_BATCH limit <= 4 ^ Z.of_nat n -> Forall live_round rounds -> (n < length rounds)%nat ->
  exists pgs, pull_rounds c limit rounds = Some pgs /\
    exists i rd pg, (i <= n)%nat /\ rounds !! i = Some rd /\ pgs !! i = Some pg /\ round_answered rd pg.
Proof.
  intros Hm.
  assert (Htot : forall rounds limit, 1 <= default REPAIR_BATCH limit <= REPAIR_BATCH -> Forall live_round rounds -> is_Some (pull_rounds c limit rounds)).
  { induction rounds as [|rd rounds IH]; intros limit Hlim Hr; [done|]. apply Forall_cons in Hr as [[Hs Hf _ _] Hr]. cbn [pull_rounds].
    destruct (pull_repairs_spec c (prd_link rd) (prd_now rd) (prd_shard rd) limit round_tally (prd_keys rd) (prd_hashes rd) Hm Hs Hf Hlim) as (pg & -> & Hl' & _).
    cbn [mbind option_bind]. destruct (IH (pg_kept pg) Hl' Hr) as [pgs ->]. done. }
  induction n as [|n IH]; intros rounds limit Hlim Hle Hr Hlen; (destruct rounds as [|rd rounds]; [cbn in Hlen; lia|]);
    pose proof (Htot _ _ Hlim Hr) as [pgs Hpgs]; exists pgs; split; try done; apply Forall_cons in Hr as [[Hs Hf Ha Hw] Hr]; cbn [pull_rounds] in Hpgs;
    unfold pull_repairs in Hpgs; fold (pull_plan (prd_keys rd) (prd_hashes rd)) in Hpgs;
    set (st := {| pg_shard := prd_shard rd; pg_limit := _; pg_kept := _; pg_failures := _; pg_complete := _; pg_pulled := _; pg_tally := _; pg_requests := _ |}) in Hpgs;
    destruct (pull_sources_stall c (prd_link rd) (prd_now rd) takes_batches (takes_batches_good c (prd_link rd) (prd_now rd) Hm Hf) Ha (pull_plan (prd_keys rd) (prd_hashes rd)) st)
      as (pg & reqs & Hp & [_ [Hl1 Hk1] _ _ _ _] & Hcase); [done|by split|done| |done|by split|done|]; rewrite Hp in Hpgs; cbn [mbind option_bind] in Hpgs;
    destruct (pull_rounds c (pg_kept pg) rounds) as [pgs'|] eqn:Er; [|done| |done]; injection Hpgs as <-.
  - cbn in Hle. destruct Hcase as [(j & req & recs & _ & Hans)|[?|(H4 & _)]]; [|done|change (pg_limit st) with (default REPAIR_BATCH limit) in H4; lia].
    exists 0%nat, rd, pg. split_and!; [done..|by exists j, req, recs].
  - destruct Hcase as [(j & req & recs & _ & Hans)|[?|(H4 & H5)]]; [|done|].
    + exists 0%nat, rd, pg. split_and!; [lia|done..|by exists j, req, recs].
    + change (pg_limit st) with (default REPAIR_BATCH limit) in *. rewrite Nat2Z.inj_succ, Z.pow_succ_r in Hle by lia.
      destruct (IH rounds (pg_kept pg)) as (pgs2 & Hpgs2 & i & rd' & pg' & Hi & H1 & H2 & H3); [by rewrite Hk1|rewrite Hk1; dlia|done|cbn in Hlen; lia|].
      rewrite Er in Hpgs2. injection Hpgs2 as <-. exists (S i), rd', pg'. split_and!; [lia|done..].
Qed.

(** C16: a slow peer is not starved, of a last-writer-wins cache without a capacity cap that is
    not in invalidation mode. Let the peer answer every request for a single entry, and answer
    or time out on each larger one, with keys under 2^32 bytes. Then a round that gets no
    answer leaves at most a quarter of the batch limit behind, so among any seven rounds in a
    row with something to pull, from any limit, one at least gets an answer to a request for one
    entry or more, and its store ends with the newest of what it held and of the records
    answered. *)
Theorem a_slow_peer_is_not_starved (c : InConfig V) (limit : option Z) (rounds : list PullRound)
    (Hmode : inbound_scope (ic_mode c) = AnyScope) (Hlimit : 1 <= default REPAIR_BATCH limit <= REPAIR_BATCH)
    (Hrounds : Forall live_round rounds) (Hseven : (7 <= length rounds)%nat) :
  exists pgs, pull_rounds c limit rounds = Some pgs /\
    exists i rd pg, (i < 7)%nat /\ rounds !! i = Some rd /\ pgs !! i = Some pg /\ round_answered rd pg /\ round_applied c rd pg.
Proof.
  destruct (pull_rounds_stall c Hmode 6 rounds limit Hlimit) as (pgs & Hp & i & rd & pg & Hi & Hrd & Hpg & Ha);
    [unfold REPAIR_BATCH in *; cbn; lia|done|lia|].
  exists pgs. split; [done|]. exists i, rd, pg. split_and!; [lia|done..|]. by eapply pull_rounds_applied.
Qed.

End PullTheorems.

(** ** Classifying listings *)

Lemma collect_map_lookup {K A} `{Countable K} (l : list (K * A)) : (forall k a a', (k, a) ∈ l -> (k, a') ∈ l -> a = a') ->
  forall k a, collect_map l !! k = Some a <-> (k, a) ∈ l.
Proof.
  unfold collect_map. induction l as [|[k' a'] l IH] using rev_ind; intros Hf k a.
  { cbn. rewrite lookup_empty. split; [done|]. by intros ?%not_elem_of_nil. }
  rewrite foldl_app. cbn [foldl fst snd]. rewrite elem_of_app, list_elem_of_singleton.
  assert (Hf' : forall k a a', (k, a) ∈ l -> (k, a') ∈ l -> a = a') by (intros k0 a0 a1 H0 H1; apply (Hf k0); apply elem_of_app; by left).
  destruct (decide (k' = k)) as [->|Hne].
  - rewrite lookup_insert_eq. split; [intros [= ->]; by right|]. intros [Hin|[= ->]]; [|done]. f_equal.
    apply (Hf k); apply elem_of_app; [by right; apply list_elem_of_singleton|by left].
  - rewrite lookup_insert_ne by done. rewrite (IH Hf'). split; [by left|]. intros [?|[= ? ?]]; [done|congruence].
Qed.

Lemma nodup_functional {K A} (l : list (K * A)) : NoDup l.*1 -> forall k a a', (k, a) ∈ l -> (k, a') ∈ l -> a = a'.
Proof.
  intros Hnd k a a' H1 H2. destruct (list_elem_of_lookup_1 _ _ H1) as [i Hi], (list_elem_of_lookup_1 _ _ H2) as [j Hj].
  assert (i = j) as -> by (apply (proj1 (NoDup_alt _) Hnd i j k); by rewrite list_lookup_fmap, ?Hi, ?Hj). congruence.
Qed.

Lemma classify_pull_local l p both : (classify_versions l p both).2 = true -> is_Some p.
Proof. destruct l, p; cbn; done. Qed.

Lemma nodup_filter_fst {K A} (P : K * A -> Prop) `{forall x, Decision (P x)} (l : list (K * A)) : NoDup l.*1 -> NoDup (filter P l).*1.
Proof. intros Hnd. eapply sublist_NoDup; [exact Hnd|]. apply fmap_sublist, sublist_filter. Qed.

(** A listing's entries as a map. *)
Abbreviation listed := (@collect_map Bytes Hlc _ _) (only parsing).

(** The differences of two listings are classified key by key. *)
Lemma diff_bucket_spec (local peer : Listing) both : NoDup local.*1 -> NoDup peer.*1 ->
  let class k := classify_versions (listed local !! k) (listed peer !! k) both in
  let '(push, pull) := diff_bucket local peer both in
  NoDup push /\ NoDup pull /\ forall k, (k ∈ push <-> (class k).1 = true) /\ (k ∈ pull <-> (class k).2 = true).
Proof.
  intros Hnl Hnp class. pose proof (collect_map_lookup local (nodup_functional _ Hnl)) as HL.
  pose proof (collect_map_lookup peer (nodup_functional _ Hnp)) as HP. unfold diff_bucket. split_and!.
  - by apply nodup_filter_fst.
  - apply NoDup_app. split_and!; [by apply nodup_filter_fst| |by apply nodup_filter_fst].
    intros k ([k1 v1] & -> & [_ H1]%list_elem_of_filter)%list_elem_of_fmap ([k2 v2] & Heq & [H2 _]%list_elem_of_filter)%list_elem_of_fmap.
    cbn in Heq, H2. apply H2, elem_of_list_to_set. rewrite <-Heq. apply list_elem_of_fmap. by exists (k1, v1).
  - intros k. unfold class. split; rewrite ?elem_of_app, !list_elem_of_fmap.
    + split.
      * intros ([k' v] & -> & [Hc Hin]%list_elem_of_filter). cbn in *. by rewrite (proj2 (HL k' v) Hin).
      * destruct (collect_map local !! k) as [v|] eqn:El; [|destruct (collect_map peer !! k); cbn; done]. intros Hc.
        exists (k, v). split; [done|]. apply list_elem_of_filter. split; [done|]. by apply HL.
    + split.
      * intros [([k' v] & -> & [Hc Hin]%list_elem_of_filter)|([k' v] & -> & [Hc Hin]%list_elem_of_filter)]; cbn in *.
        -- by rewrite (proj2 (HL k' v) Hin).
        -- rewrite (proj2 (HP k' v) Hin). destruct (collect_map local !! k') as [w|] eqn:El; [|done].
           exfalso. apply Hc, elem_of_list_to_set, list_elem_of_fmap. exists (k', w). split; [done|]. by apply HL.
      * intros Hc. pose proof (classify_pull_local _ _ _ Hc) as [p Hp].
        destruct (collect_map local !! k) as [v|] eqn:El.
        -- left. exists (k, v). split; [done|]. apply list_elem_of_filter. split; [done|]. by apply HL.
        -- right. exists (k, p). split; [done|]. apply list_elem_of_filter. split; [|by apply HP]. cbn.
           rewrite elem_of_list_to_set, list_elem_of_fmap. intros ([k' v] & -> & Hin). cbn in El. apply HL in Hin. congruence.
Qed.

Section DecodedSpec.
Context {PU : PostcardU32} {HS : Hashing}.

(** What a decoded sketch should name: the entries one listing has and the other does not. *)
Definition decoded_exactly (local peer : Listing) (d : Decoded) : Prop :=
  (forall el, el ∈ only_left d <-> exists kv, kv ∈ local /\ kv ∉ peer /\ el = listing_elem kv) /\
  (forall el, el ∈ only_right d <-> exists kv, kv ∈ peer /\ kv ∉ local /\ el = listing_elem kv).

Definition hashes_apart (keys : list Bytes) : Prop :=
  forall k k', k ∈ keys -> k' ∈ keys -> xxh3_64 k = xxh3_64 k' -> k = k'.

Lemma in_keys (l : Listing) k v : (k, v) ∈ l -> k ∈ l.*1.
Proof. intros H. apply list_elem_of_fmap. by exists (k, v). Qed.

(** One side of the decoded difference, by hash. *)
Lemma decoded_side (es : list Elem) (mine other : Listing) :
  hashes_apart (mine.*1 ++ other.*1) -> NoDup mine.*1 ->
  (forall el, el ∈ es <-> exists kv, kv ∈ mine /\ kv ∉ other /\ el = listing_elem kv) ->
  forall k v, k ∈ mine.*1 ++ other.*1 ->
  (collect_map ((fun el => (el_key_hash el, el_ver el)) <$> es) : gmap Z Hlc) !! xxh3_64 k = Some v <-> (k, v) ∈ mine /\ (k, v) ∉ other.
Proof.
  intros Hinj Hnd Hes k v Hk.
  assert (Hin : forall h w, (h, w) ∈ ((fun el => (el_key_hash el, el_ver el)) <$> es) <-> exists k, xxh3_64 k = h /\ (k, w) ∈ mine /\ (k, w) ∉ other).
  { intros h w. rewrite list_elem_of_fmap. split.
    - intros (el & [= -> ->] & ([k' v'] & H1 & H2 & ->)%Hes). exists k'. done.
    - intros (k' & <- & H1 & H2). exists (listing_elem (k', w)). split; [done|]. apply Hes. by exists (k', w). }
  rewrite collect_map_lookup; [rewrite Hin|].
  - split; [|by exists k]. intros (k' & Hh & H1 & H2). rewrite (Hinj k k'); try done. apply elem_of_app. left. by eapply in_keys.
  - intros h a a' (k1 & Hh1 & H1 & _)%Hin (k2 & Hh2 & H2 & _)%Hin.
    assert (k1 = k2) as -> by (apply Hinj; [apply elem_of_app; left; by eapply in_keys..|congruence]).
    by apply (nodup_functional mine Hnd k2).
Qed.

(** The classification a decoded difference carries is that of the versions themselves. *)
Lemma decoded_class both (l p l' p' : option Hlc) :
  (forall v, l' = Some v <-> l = Some v /\ p <> Some v) -> (forall v, p' = Some v <-> p = Some v /\ l <> Some v) ->
  classify_versions l' p' both = classify_versions l p both.
Proof.
  intros Hl Hp. destruct l as [l|], p as [p|].
  - destruct (decide (l = p)) as [->|Hne].
    + assert (l' = None) as -> by (destruct l' as [v|]; [|done]; destruct (proj1 (Hl v) eq_refl); congruence).
      assert (p' = None) as -> by (destruct p' as [v|]; [|done]; destruct (proj1 (Hp v) eq_refl); congruence).
      cbn. by rewrite hlc_eqb_refl.
    + rewrite (proj2 (Hl l)), (proj2 (Hp p)); [done|split; congruence..].
  - rewrite (proj2 (Hl l)) by done. by destruct p' as [v|]; [destruct (proj1 (Hp v) eq_refl)|].
  - rewrite (proj2 (Hp p)) by done. by destruct l' as [v|]; [destruct (proj1 (Hl v) eq_refl)|].
  - destruct l' as [v|]; [destruct (proj1 (Hl v) eq_refl); done|]. destruct p' as [v|]; [destruct (proj1 (Hp v) eq_refl); done|]. done.
Qed.

Lemma diff_decoded_spec (local peer : Listing) (d : Decoded) both : NoDup local.*1 -> NoDup peer.*1 ->
  hashes_apart (local.*1 ++ peer.*1) -> decoded_exactly local peer d ->
  let class k := classify_versions (listed local !! k) (listed peer !! k) both in
  let '(push, hashes) := diff_decoded local d both in
  (forall k, k ∈ push <-> (class k).1 = true) /\ (forall h, h ∈ hashes <-> exists k, xxh3_64 k = h /\ (class k).2 = true).
Proof.
  intros Hnl Hnp Hinj [HdL HdR] class. unfold diff_decoded.
  pose proof (collect_map_lookup local (nodup_functional _ Hnl)) as HL. pose proof (collect_map_lookup peer (nodup_functional _ Hnp)) as HP.
  set (left := collect_map ((fun el => (el_key_hash el, el_ver el)) <$> only_left d) : gmap Z Hlc).
  set (right := collect_map ((fun el => (el_key_hash el, el_ver el)) <$> only_right d) : gmap Z Hlc).
  set (by_hash := collect_map ((fun kv : Bytes * Hlc => (xxh3_64 kv.1, kv.1)) <$> local) : gmap Z Bytes).
  assert (Hinj' : hashes_apart (peer.*1 ++ local.*1)) by (intros k k' Hk Hk'; apply Hinj; apply elem_of_app; [apply elem_of_app in Hk|apply elem_of_app in Hk']; tauto).
  assert (Hclass : forall k, k ∈ local.*1 ++ peer.*1 -> classify_versions (left !! xxh3_64 k) (right !! xxh3_64 k) both = class k).
  { intros k Hk. apply decoded_class; intros v.
    - unfold left. rewrite (decoded_side _ local peer Hinj Hnl HdL k v Hk), <-HL, <-HP. done.
    - unfold right. rewrite (decoded_side _ peer local Hinj' Hnp HdR k v); [by rewrite <-HL, <-HP|]. apply elem_of_app. apply elem_of_app in Hk. tauto. }
  assert (Hbh : forall k v, (k, v) ∈ local -> by_hash !! xxh3_64 k = Some k).
  { intros k v Hin. unfold by_hash. apply collect_map_lookup; [|apply list_elem_of_fmap; by exists (k, v)].
    intros h a a' ([k1 v1] & [= -> ->] & H1)%list_elem_of_fmap ([k2 v2] & [= Hh ->] & H2)%list_elem_of_fmap.
    apply Hinj; [apply elem_of_app; left; by eapply in_keys..|done]. }
  assert (Hleft : forall k v, (k, v) ∈ local -> (k, v) ∉ peer -> left !! xxh3_64 k = Some v).
  { intros k v H1 H2. apply (decoded_side _ local peer Hinj Hnl HdL); [apply elem_of_app; left; by eapply in_keys|done]. }
  assert (Hkin : forall k, (class k).1 = true \/ (class k).2 = true ->
    (exists v, (k, v) ∈ local /\ (k, v) ∉ peer) \/ (exists v, (k, v) ∈ peer /\ k ∉ local.*1)).
  { intros k Hc. unfold class in Hc. destruct (collect_map local !! k) as [l|] eqn:El.
    - left. exists l. split; [by apply HL|]. rewrite <-HP. intros Hp. rewrite Hp in Hc. cbn in Hc. rewrite hlc_eqb_refl in Hc. cbn in Hc. by destruct Hc.
    - right. destruct (collect_map peer !! k) as [p|] eqn:Ep; [|cbn in Hc; by destruct Hc]. exists p. split; [by apply HP|].
      intros ([k' v] & -> & Hin)%list_elem_of_fmap. apply HL in Hin. cbn in El. congruence. }
  assert (Hel : forall k v, (k, v) ∈ local -> (k, v) ∉ peer ->
    classify_versions (Some (el_ver (listing_elem (k, v)))) (right !! el_key_hash (listing_elem (k, v))) both = class k).
  { intros k v H1 H2. rewrite <-(Hclass k), (Hleft k v H1 H2) by (apply elem_of_app; left; by eapply in_keys). done. }
  split.
  - intros k. rewrite list_elem_of_omap. split.
    + intros (el & ([k' v] & H1 & H2 & ->)%HdL & He). rewrite Hel in He by done. destruct (class k').1 eqn:Ec; [|done].
      cbn in He. rewrite (Hbh k' v H1) in He. by injection He as <-.
    + intros Hc. destruct (Hkin k (or_introl Hc)) as [(v & H1 & H2)|(v & H1 & H2)].
      * exists (listing_elem (k, v)). split; [apply HdL; by exists (k, v)|]. rewrite Hel, Hc by done. by apply (Hbh k v).
      * exfalso. unfold class in Hc. destruct (collect_map local !! k) as [l|] eqn:El; [apply HL, in_keys in El; done|].
        by destruct (collect_map peer !! k).
  - intros h. rewrite elem_of_app, !list_elem_of_fmap. split.
    + intros [(el & -> & [Hc ([k v] & H1 & H2 & ->)%HdL]%list_elem_of_filter)|(el & -> & [Hn ([k v] & H1 & H2 & ->)%HdR]%list_elem_of_filter)].
      * exists k. split; [done|]. by rewrite <-(Hel k v).
      * exists k. split; [done|]. rewrite <-(Hclass k) by (apply elem_of_app; right; by eapply in_keys). cbn in Hn. fold left in Hn.
        rewrite Hn. unfold right. rewrite (proj2 (decoded_side _ peer local Hinj' Hnp HdR k v ltac:(apply elem_of_app; left; by eapply in_keys))); done.
    + intros (k & <- & Hc). destruct (Hkin k (or_intror Hc)) as [(v & H1 & H2)|(v & H1 & H2)].
      * left. exists (listing_elem (k, v)). split; [done|]. apply list_elem_of_filter. split; [by rewrite Hel|]. apply HdL. by exists (k, v).
      * right. exists (listing_elem (k, v)). split; [done|]. apply list_elem_of_filter. split; [|apply HdR; exists (k, v); split_and!; try done; by intros ?%in_keys].
        fold left. destruct (left !! el_key_hash (listing_elem (k, v))) as [w|] eqn:Ew; [|done]. exfalso. cbn in Ew. unfold left in Ew.
        apply (decoded_side _ local peer Hinj Hnl HdL) in Ew as [Hw _]; [by apply in_keys in Hw|]. apply elem_of_app; right; by eapply in_keys.
Qed.

(** The two ways of finding a bucket's differences agree. Listing against listing, a key is pushed or
    pulled, once, exactly when its two versions say so: a key one side lacks goes to that side, of two
    different versions the newer one crosses, or both do under a resolver that merges, and equal
    versions stay. A sketch whose difference decodes exactly, where no two keys at hand share a
    hash, pushes the same keys and asks for the hashes of the same ones. *)
Theorem sketch_and_listing_classify_alike (local peer : Listing) (d : Decoded) (both_ways : bool)
    (Hlocal : NoDup local.*1) (Hpeer : NoDup peer.*1) (Hhash : hashes_apart (local.*1 ++ peer.*1)) (Hd : decoded_exactly local peer d) :
  let class k := classify_versions (listed local !! k) (listed peer !! k) both_ways in
  let '(push, pull) := diff_bucket local peer both_ways in
  let '(sketch_push, hashes) := diff_decoded local d both_ways in
  NoDup push /\ NoDup pull /\ (forall k, (k ∈ push <-> (class k).1 = true) /\ (k ∈ pull <-> (class k).2 = true)) /\
  (forall k, k ∈ sketch_push <-> k ∈ push) /\ (forall h, h ∈ hashes <-> exists k, k ∈ pull /\ xxh3_64 k = h).
Proof.
  intros class. pose proof (diff_bucket_spec local peer both_ways Hlocal Hpeer) as Hb. cbv zeta in Hb.
  pose proof (diff_decoded_spec local peer d both_ways Hlocal Hpeer Hhash Hd) as Hs. cbv zeta in Hs.
  destruct (diff_bucket local peer both_ways) as [push pull], (diff_decoded local d both_ways) as [spush hashes].
  destruct Hb as (H1 & H2 & H3), Hs as [H4 H5]. split_and!; try done.
  - intros k. by rewrite H4, (proj1 (H3 k)).
  - intros h. rewrite H5. split; intros (k & Hx & Hy); exists k; split; try done; by apply H3.
Qed.

End DecodedSpec.

(** ** The scheduler *)

Lemma choose_elem l rng x : choose l rng = Some x -> x ∈ l.
Proof. apply list_elem_of_lookup_2. Qed.

Lemma choose_none l rng : choose l rng = None -> l = [].
Proof.
  unfold choose. intros H%lookup_ge_None. destruct l as [|x l]; [done|].
  pose proof (Z.mod_pos_bound rng (Z.of_nat (length (x :: l))) ltac:(cbn; lia)). lia.
Qed.

Lemma is_dirty_marked l : forall m q, is_dirty (foldl mark_dirty m l) q <-> is_dirty m q \/ (q ∈ l /\ is_Some (mi_peers m !! q)).
Proof.
  assert (Hone : forall m p q, (is_dirty (mark_dirty m p) q <-> is_dirty m q \/ (q = p /\ is_Some (mi_peers m !! q))) /\
    (is_Some (mi_peers (mark_dirty m p) !! q) <-> is_Some (mi_peers m !! q))).
  { intros m p q. unfold is_dirty, mark_dirty, on_peer. cbn. destruct (decide (p = q)) as [->|Hne].
    - rewrite lookup_alter_eq. destruct (mi_peers m !! q) as [h|]; cbn; [|split; [naive_solver|done]].
      split; [|done]. split; [intros _; right; done|]. intros _. eexists. done.
    - rewrite lookup_alter_ne by done. split; [naive_solver|done]. }
  induction l as [|p l IH]; intros m q; [cbn; rewrite elem_of_nil; tauto|]. cbn [foldl]. rewrite IH, elem_of_cons.
  destruct (Hone m p q) as [-> ->]. tauto.
Qed.

Lemma take_dirty_spec m q : (q ∈ (take_dirty_peers m).2 <-> is_dirty m q) /\ ~ is_dirty (take_dirty_peers m).1 q /\
  (is_Some (mi_peers (take_dirty_peers m).1 !! q) <-> is_Some (mi_peers m !! q)).
Proof.
  unfold take_dirty_peers, is_dirty. cbn. rewrite elem_of_dom, lookup_fmap. split_and!.
  - split; [intros [h Hh]; apply map_lookup_filter_Some in Hh as [? ?]; eauto|]. intros (h & ? & ?). exists h. by apply map_lookup_filter_Some.
  - destruct (mi_peers m !! q); naive_solver.
  - by rewrite fmap_is_Some.
Qed.

Section SchedulerSpec.
Context {PU : PostcardU32} {HS : Hashing} {V : Type} {VC : ValueCodec V}.

(** The peers a cache reconciles with: all, or a distributed one's cohort. *)
Definition reconciles_with (shard : ServeShard V) (q : NodeId) : Prop := from_option (fun r => q ∈ cohort r) True (sv_residency shard).

Lemma peer_filter_elem (shard : ServeShard V) dirty live q :
  (q ∈ (ae_peer_filter shard dirty live).1 <-> q ∈ dirty /\ reconciles_with shard q) /\
  (q ∈ (ae_peer_filter shard dirty live).2 <-> q ∈ live /\ reconciles_with shard q).
Proof. unfold ae_peer_filter, reconciles_with. destruct (sv_residency shard); cbn; rewrite ?list_elem_of_filter; tauto. Qed.

Lemma is_dirty_known (m : MeshInner) q : is_dirty m q -> is_Some (mi_peers m !! q).
Proof. intros (h & -> & _). done. Qed.

Lemma pick_peer_spec (m : MeshInner) (shard : ServeShard V) live rng :
  let '(m', out) := pick_peer m shard live rng in
  (forall q, is_dirty m' q <-> is_dirty m q /\ reconciles_with shard q /\ fst <$> out <> Some q) /\
  (forall q, is_Some (mi_peers m' !! q) <-> is_Some (mi_peers m !! q)) /\
  (forall p w, out = Some (p, w) -> reconciles_with shard p /\ (if w then is_dirty m p else p ∈ live /\ forall q, ~ (is_dirty m q /\ reconciles_with shard q))).
Proof.
  unfold pick_peer. pose proof (take_dirty_spec m) as Ht. destruct (take_dirty_peers m) as [m1 dirty]. cbn [fst snd] in Ht.
  pose proof (peer_filter_elem shard (elements dirty) live) as Hf. destruct (ae_peer_filter shard (elements dirty) live) as [fd fl]. cbn [fst snd] in Hf.
  assert (Hfd : forall q, q ∈ fd <-> is_dirty m q /\ reconciles_with shard q) by (intros q; rewrite (proj1 (Hf q)), elem_of_elements; by destruct (Ht q) as [-> _]).
  assert (Hm1 : forall q, ~ is_dirty m1 q) by (intros q; by destruct (Ht q) as (_ & ? & _)).
  assert (Hk : forall q, is_Some (mi_peers m1 !! q) <-> is_Some (mi_peers m !! q)) by (intros q; by destruct (Ht q) as (_ & _ & ?)).
  assert (Hknown : forall l q, is_Some (mi_peers (foldl mark_dirty m1 l) !! q) <-> is_Some (mi_peers m1 !! q)).
  { intros l. generalize m1. induction l as [|p l IH]; intros m0 q; [done|]. cbn [foldl]. rewrite IH. unfold mark_dirty, on_peer. cbn.
    destruct (decide (p = q)) as [->|Hne]; [rewrite lookup_alter_eq; by rewrite fmap_is_Some|by rewrite lookup_alter_ne]. }
  unfold choose_peer. destruct (choose fd rng) as [p|] eqn:Ec.
  - apply choose_elem in Ec. split_and!; [|intros q; by rewrite Hknown|intros p' w [= <- <-]; apply Hfd in Ec; tauto].
    intros q. rewrite is_dirty_marked, list_elem_of_filter, Hfd. cbn. rewrite Hk. split.
    + intros [?|([? [? ?]] & ?)]; [by destruct (Hm1 q)|]. split_and!; try done. congruence.
    + intros (H1 & H2 & H3). right. pose proof (is_dirty_known _ _ H1). split_and!; try done. congruence.
  - apply choose_none in Ec. subst fd.
    assert (Hnone : forall q o, is_dirty m1 q <-> is_dirty m q /\ reconciles_with shard q /\ fst <$> (o : option (NodeId * bool)) <> Some q).
    { intros q o. split; [by intros ?%Hm1|]. intros (H1 & H2 & _). by destruct (not_elem_of_nil q); apply Hfd. }
    destruct (choose fl rng) as [p|] eqn:El; cbn [fmap option_fmap option_map foldl].
    + split_and!; [intros q; exact (Hnone q (Some (p, false)))|done|]. intros p' w [= <- <-]. apply choose_elem, Hf in El as [? ?].
      split_and!; try done. intros q Hq%Hfd. by destruct (not_elem_of_nil q).
    + split_and!; [intros q; exact (Hnone q None)|done|done].
Qed.

(** C19: the dirty marks after one turn of a cache's scheduler. A mark says a peer missed frames, and every cache's
    scheduler takes them from the one mesh. A turn of this cache leaves marked exactly the peers that
    were marked and that this cache reconciles with, less the one a round starts against: a peer it
    skips keeps its mark, and a marked peer outside a distributed cache's cohort loses it, though no
    round against it has run. *)
Theorem a_turn_keeps_only_the_cohorts_marks (m : MeshInner) (shard : ServeShard V) (skipped : gmap NodeId Z) (live : list NodeId)
    (streaming : NodeId -> bool) (rng : Z) :
  let '(m', _, turn) := scheduler_turn m shard skipped live streaming rng in
  forall q, is_dirty m' q <-> is_dirty m q /\ reconciles_with shard q /\ turn <> TurnRound q.
Proof.
  unfold scheduler_turn. pose proof (pick_peer_spec m shard live rng) as Hp. destruct (pick_peer m shard live rng) as [m1 [[peer w]|]]; destruct Hp as (Hp & Hk & Hw).
  - destruct (should_skip_round _ _).
    + intros q. destruct (Hw peer w eq_refl) as [Hr Hd]. assert (Ht : TurnSkipped peer <> TurnRound q) by done. destruct w.
      * change (mark_dirty m1 peer) with (foldl mark_dirty m1 [peer]). rewrite is_dirty_marked, Hp, list_elem_of_singleton, Hk. cbn. split.
        -- intros [(? & ? & _)|[-> ?]]; done.
        -- intros (H1 & H2 & _). destruct (decide (q = peer)) as [->|]; [right; split; [done|by apply is_dirty_known]|left; split_and!; congruence].
      * destruct Hd as [_ Hd]. rewrite Hp. split; [tauto|]. intros (H1 & H2 & _). by destruct (Hd q).
    + intros q. rewrite Hp. cbn. split; intros (? & ? & ?); split_and!; try done; congruence.
  - intros q. rewrite Hp. cbn. split; intros (? & ? & ?); by split_and!.
Qed.

End SchedulerSpec.

(** ** Evaluating the statements *)

(** A peer that answers requests for one entry and times out on larger ones. *)
Definition demo_link : PeerLink := {|
  pl_round := fun _ => Ok []; pl_round_scoped := fun _ _ => Ok (RoMismatches []); pl_round_masked := fun _ _ => Ok (RoMismatches []);
  pl_entries := fun _ => Ok []; pl_parts := fun _ => Ok [];
  pl_pull := fun _ req => if request_len req <=? 1 then (Ok [demo_arrival 1 7 600], 0) else (Err (NetIo IoTimedOut), request_timeout);
  pl_enqueue := fun _ => true |}.

Lemma demo_link_fits : answers_fit demo_link.
Proof.
  intros n req recs. unfold answered. cbn. destruct (request_len req <=? 1); [|done]. intros [= <-].
  repeat constructor; vm_compute; discriminate.
Qed.
Lemma demo_link_answers : answers_up_to 1 demo_link.
Proof. intros n req. unfold answered, timed_out. cbn. destruct (Z.leb_spec (request_len req) 1); done. Qed.
Lemma demo_in_shard_takes : takes_batches demo_in_shard.
Proof. split; [exact small_engine_inv|reflexivity]. Qed.

Lemma pull_loop_fetches_every_entry_witness :
  exists pg, pull_repairs (R := LwwResolver) (demo_inbound None) demo_link 1000 demo_in_shard None round_tally [[1]; [2]] [(5, [4; 6])] = Some pg /\
    Z.of_nat (length (pg_requests pg)) <= 10.
Proof.
  destruct (pull_loop_fetches_every_entry (demo_inbound None) demo_link 1000 demo_in_shard None round_tally [[1]; [2]] [(5, [4; 6])])
    as (pg & H1 & _ & H3 & _).
  - reflexivity.
  - exact demo_in_shard_takes.
  - exact demo_link_fits.
  - vm_compute. split; discriminate.
  - exists pg. split; [exact H1|exact H3].
Defined.

Definition demo_round : PullRound :=
  {| prd_link := demo_link; prd_now := 1000; prd_shard := demo_in_shard; prd_keys := [[1]; [2]; [3]]; prd_hashes := [(5, [4; 6])] |}.

Lemma a_slow_peer_is_not_starved_witness :
  exists pgs, pull_rounds (demo_inbound None) None (replicate 7 demo_round) = Some pgs /\
    exists i rd pg, (i < 7)%nat /\ replicate 7 demo_round !! i = Some rd /\ pgs !! i = Some pg /\ round_answered rd pg /\ round_applied (demo_inbound None) rd pg.
Proof.
  apply (a_slow_peer_is_not_starved (demo_inbound None) None (replicate 7 demo_round)).
  - reflexivity.
  - vm_compute. split; discriminate.
  - apply Forall_replicate. split; [exact demo_in_shard_takes|exact demo_link_fits|exact demo_link_answers|discriminate].
  - reflexivity.
Defined.

Lemma sketch_and_listing_classify_alike_witness :
  let local := [([1], stamp 5 1); ([2], stamp 9 1); ([4], stamp 6 1)] in
  let peer := [([2], stamp 7 2); ([3], stamp 8 2); ([4], stamp 6 1)] in
  let d := {| only_left := listing_elem <$> [([1], stamp 5 1); ([2], stamp 9 1)]; only_right := listing_elem <$> [([2], stamp 7 2); ([3], stamp 8 2)] |} in
  (forall k, k ∈ (diff_decoded local d false).1 <-> k ∈ (diff_bucket local peer false).1) /\
  diff_bucket local peer false = ([[1]; [2]], [[3]]).
Proof.
  cbv zeta. split; [|reflexivity].
  pose proof (sketch_and_listing_classify_alike [([1], stamp 5 1); ([2], stamp 9 1); ([4], stamp 6 1)] [([2], stamp 7 2); ([3], stamp 8 2); ([4], stamp 6 1)]
    {| only_left := listing_elem <$> [([1], stamp 5 1); ([2], stamp 9 1)]; only_right := listing_elem <$> [([2], stamp 7 2); ([3], stamp 8 2)] |} false) as H.
  cbv zeta in H. destruct (diff_bucket _ _ _) as [push pull], (diff_decoded _ _ _) as [spush hashes].
  apply H.
  - apply (bool_decide_unpack _). reflexivity.
  - apply (bool_decide_unpack _). reflexivity.
  - intros k k' Hk Hk' Heq. cbn in Hk, Hk'. set_unfold in Hk. set_unfold in Hk'.
    destruct_or?; subst; try done; vm_compute in Heq; discriminate Heq.
  - split; intros el; cbn [only_left only_right]; rewrite list_elem_of_fmap; (split; [intros (kv & -> & Hin)|intros (kv & Hin & Hn & ->)]); exists kv;
      set_unfold in Hin; (split; [|try (split; [|done])]); destruct_or?; subst; set_unfold; try tauto; try (intros Hbad; destruct_or?; unfold stamp in *; congruence);
      try (exfalso; apply Hn; set_unfold; tauto).
Defined.
