(* ===== verification/Convergence.v ===== *)
(** * One round between two replicas

    The round of [cluster/anti_entropy.rs] against the link to a node that serves as
    [net/conn/serve.rs] does, with both stores: what the digest exchange finds, what is classified,
    pulled, pushed and applied at both ends. *)

From S2P Require Import Prelude SkewHold Clock Part Types Record Expiry Sketch Wire Merge Arena Engine Apply Removal Evict Prefold Batch Read Serve Ownership Residency FanOut Mesh PeerServe Inbound AntiEntropy.

(** ** What the exchange finds *)

Lemma fst_filter_pairs {A B} (f : A -> B) (P : A * B -> Prop) `{forall x, Decision (P x)} (l : list A) :
  fst <$> filter P ((fun a => (a, f a)) <$> l) = filter (fun a => P (a, f a)) l.
Proof.
  induction l as [|a l IH]; [done|]. rewrite fmap_cons, !filter_cons. case_decide; cbn; [f_equal|]; exact IH.
Qed.

Lemma collect_map_fun {A} (f : Z -> A) (l : list Z) b : b ∈ l -> collect_map ((fun b => (b, f b)) <$> l) !! b = Some (f b).
Proof.
  intros Hb. apply collect_map_lookup; [|apply list_elem_of_fmap; by exists b].
  intros k a a' (x & [= -> ->] & _)%list_elem_of_fmap (y & [= -> ->] & _)%list_elem_of_fmap. done.
Qed.
Lemma collect_map_fun_none {A} (f : Z -> A) (l : list Z) b : b ∉ l -> collect_map ((fun b => (b, f b)) <$> l) !! b = None.
Proof.
  intros Hb. destruct (collect_map _ !! b) as [a|] eqn:E; [|done]. apply collect_map_lookup in E.
  - apply list_elem_of_fmap in E as (x & [= -> ->] & Hx). done.
  - intros k a1 a2 (x & [= -> ->] & _)%list_elem_of_fmap (y & [= -> ->] & _)%list_elem_of_fmap. done.
Qed.


Lemma chunks_concat {A} (l : list A) size : concat (chunk_mismatches l size) = l.
Proof.
  unfold chunk_mismatches. set (n := Nat.max size 1). assert (Hn : (1 <= n)%nat) by (unfold n; lia). clearbody n.
  assert (Hgo : forall fuel (l : list A), (length l <= fuel)%nat -> concat (chunks_go fuel n l) = l).
  { induction fuel as [|fuel IH]; intros l' Hl; [by destruct l'; [|cbn in Hl; lia]|].
    destruct l' as [|x l']; [done|]. cbn [chunks_go concat]. rewrite IH; [apply take_drop|]. rewrite length_drop. cbn [length] in *. lia. }
  by apply Hgo.
Qed.

Lemma chunks_fmap {A B} (f : A -> B) (l : list A) size : chunk_mismatches (f <$> l : list B) size = (fun ch : list A => f <$> ch : list B) <$> chunk_mismatches l size.
Proof.
  unfold chunk_mismatches. rewrite length_fmap. generalize (Nat.max size 1) as n. intros n. generalize (length l) as fuel. intros fuel. revert l.
  induction fuel as [|fuel IH]; intros l; [done|]. destruct l as [|x l]; [done|]. rewrite !fmap_cons. cbn [chunks_go]. rewrite fmap_cons, <-IH.
  cbn [length]. rewrite length_fmap. f_equal; [|f_equal]; by rewrite <-fmap_cons, ?fmap_take, ?fmap_drop.
Qed.

Lemma bind_concat {A B} (f : A -> list B) (l : list A) : l ≫= f = concat (f <$> l).
Proof. induction l as [|x l IH]; [done|]. rewrite bind_cons, IH. done. Qed.

Lemma list_filter_iff_elem {A} (P Q : A -> Prop) `{forall x, Decision (P x)} `{forall x, Decision (Q x)} (l : list A) :
  (forall x, x ∈ l -> P x <-> Q x) -> filter P l = filter Q l.
Proof.
  induction l as [|x l IH]; intros Hpq; [done|]. rewrite !filter_cons.
  assert (Hl : filter P l = filter Q l) by (apply IH; intros; apply Hpq; by right). rewrite Hl.
  specialize (Hpq x ltac:(by left)). do 2 case_decide; tauto || done.
Qed.
Lemma list_filter_none {A} (P : A -> Prop) `{forall x, Decision (P x)} (l : list A) : (forall x, x ∈ l -> ~ P x) -> filter P l = [].
Proof. intros Hp. rewrite (list_filter_iff_elem P (fun _ => False)) by (intros x Hx; split; [by apply Hp|done]). clear. induction l as [|x l IH]; [done|]. by rewrite filter_cons_False by tauto. Qed.
Lemma list_filter_every {A} (P : A -> Prop) `{forall x, Decision (P x)} (l : list A) : (forall x, x ∈ l -> P x) -> filter P l = l.
Proof.
  intros Hp. rewrite (list_filter_iff_elem P (fun _ => True)) by (intros x Hx; split; [done|intros _; by apply Hp]).
  clear. induction l as [|x l IH]; [done|]. rewrite filter_cons_True by done. by f_equal.
Qed.

Section Exchange.
Context {PU : PostcardU32} {HS : Hashing} {V : Type} {VC : ValueCodec V}.

Definition bucket_listing (e : Engine V) (now b : Z) : Listing := listing e (stripe_at e (Z.to_nat b)) now.
Definition bucket_digest (e : Engine V) (b : Z) : Z := full_digest (versions (stripe_at e (Z.to_nat b))).

Lemma digests_fun (e : Engine V) : engine_inv e -> digests e = (fun b => (b, bucket_digest e b)) <$> seqZ 0 BUCKET_COUNT.
Proof.
  intros He. apply list_eq. intros i. destruct (decide (Z.of_nat i < BUCKET_COUNT)) as [Hi|Hi].
  - destruct (digest_answers_are_exact e (Z.of_nat i) He ltac:(lia)) as [Hd _]. specialize (Hd Hi) as (_ & Hd & _). rewrite Nat2Z.id in Hd.
    rewrite Hd, list_lookup_fmap, lookup_seqZ_lt by lia. cbn. unfold bucket_digest. by rewrite Z.add_0_l, Nat2Z.id.
  - destruct (digest_answers_are_exact e (Z.of_nat i) He ltac:(lia)) as [_ Hd]. specialize (Hd ltac:(lia)) as (_ & Hd & _). rewrite Nat2Z.id in Hd.
    rewrite Hd, list_lookup_fmap, lookup_seqZ_ge by lia. done.
Qed.

(** The buckets whose digests differ, in order. *)
Definition differing (eA eB : Engine V) : list Z := filter (fun b => bucket_digest eB b <> bucket_digest eA b) (seqZ 0 BUCKET_COUNT).

Lemma differing_range eA eB b : b ∈ differing eA eB -> 0 <= b < BUCKET_COUNT.
Proof. unfold differing. rewrite list_elem_of_filter, elem_of_seqZ. lia. Qed.

Lemma sublist_sorted (l l' : list Z) : sublist l l' -> StronglySorted (key_lt id) l' -> StronglySorted (key_lt id) l.
Proof.
  induction 1 as [|x l l' Hsub IH|x l l' Hsub IH]; intros Hs; [done|..]; apply StronglySorted_inv in Hs as [Hs Hx]; [|by apply IH].
  constructor; [by apply IH|]. rewrite Forall_forall in Hx |- *. intros y Hy. apply Hx. by eapply elem_of_sublist.
Qed.

Lemma seqZ_sorted m n : StronglySorted (key_lt id) (seqZ m n).
Proof.
  unfold seqZ. generalize (Z.to_nat n) as k. intros k. generalize 0%nat as j. induction k as [|k IH]; intros j; [constructor|].
  cbn. constructor; [apply IH|]. apply Forall_fmap, Forall_forall. intros x Hx%list_elem_of_In%List.in_seq. unfold key_lt, id. cbn. lia.
Qed.

Lemma differing_sorted eA eB : StronglySorted (key_lt id) (differing eA eB).
Proof. eapply sublist_sorted; [|apply (seqZ_sorted 0 BUCKET_COUNT)]. apply sublist_filter. Qed.

Lemma entries_of_buckets (s : ServeShard V) l now : sv_residency s = None -> StronglySorted (key_lt id) l -> Forall (fun b => b < BUCKET_COUNT) l ->
  entries_for_buckets s l now = (fun b => (b, key_version <$> bucket_listing (sv_engine s) now b)) <$> l.
Proof.
  intros Hr Hs Hl. unfold entries_for_buckets, resident_backfill. rewrite Hr, dedup_sorted_id by done. unfold collect_buckets.
  f_equal. induction Hl as [|b l Hb Hl IH]; [done|]. rewrite filter_cons_True by done. f_equal. apply IH. by inversion Hs.
Qed.

(** A bucket the peer answers with its listing: not cut into parts, not sketched. *)
Definition part_threshold (h : Handler V) (peer_protocol : Z) : Z :=
  if peer_supports peer_protocol PROTOCOL_PART_DIGESTS then hd_part_min_bucket h else u64_max.
Definition answered_with_listing (h : Handler V) (peer_protocol now : Z) (e : Engine V) (b : Z) : Prop :=
  bucket_len e b <= part_threshold h peer_protocol /\
  Z.of_nat (length (bucket_listing e now b)) <= hd_sketch_min_bucket h /\
  listing_fits (key_version <$> bucket_listing e now b) AE_LISTING_BUDGET = true.

Lemma bucket_len_nonneg (e : Engine V) b : 0 <= bucket_len e b.
Proof. unfold bucket_len. destruct (_ <=? _); lia. Qed.

Lemma digest_map_collect ds : digest_map ds = collect_map ds.
Proof. reflexivity. Qed.

Lemma digest_round_replies (h : Handler V) cache (s : ServeShard V) (eA : Engine V) proto now :
  hd_shards h !! cache = Some s -> sv_residency s = None -> engine_inv eA -> engine_inv (sv_engine s) ->
  (forall b, b ∈ differing eA (sv_engine s) -> answered_with_listing h proto now (sv_engine s) b) ->
  serve_ae_digest h cache (digests eA) proto now =
  ((fun b => AeBucket cache b (bucket_listing (sv_engine s) now b)) <$> differing eA (sv_engine s)) ++ [ReqDone].
Proof.
  intros Hs Hr HA HB Hsmall. unfold serve_ae_digest. f_equal. unfold ae_mismatch_replies, with_shard. rewrite Hs. cbn [from_option].
  unfold shard_digests. rewrite Hr, !digests_fun by done.
  rewrite digest_map_collect.
  rewrite fst_filter_pairs. cbn [fst snd].
  assert (Hmis : filter (fun b => default 0 (collect_map ((fun b => (b, bucket_digest (sv_engine s) b)) <$> seqZ 0 BUCKET_COUNT) !! b) <> bucket_digest eA b)
    (seqZ 0 BUCKET_COUNT) = differing eA (sv_engine s)).
  { unfold differing. apply list_filter_iff_elem. intros b Hb. by rewrite collect_map_fun. }
  rewrite Hmis. set (mis := differing eA (sv_engine s)) in *. case_bool_decide as Hnil; [by rewrite Hnil|]. fold (part_threshold h proto).
  set (lens := foldl _ ∅ (bucket_lens s mis)).
  assert (Hlens : forall b, b ∈ mis -> ~ part_threshold h proto < default 0 (lens !! b)).
  { intros b Hb. destruct (Hsmall b Hb) as (Hlen & _ & _). pose proof (bucket_len_nonneg (sv_engine s) b).
    assert (Hl : lens = collect_map ((fun b => (b, bucket_len (sv_engine s) b)) <$> dedup_sorted id mis)).
    { unfold lens, bucket_lens, gated_map, collect_map, gated. by rewrite Hr. }
    rewrite Hl, dedup_sorted_id by apply differing_sorted. rewrite collect_map_fun by done. cbn. lia. }
  assert (Hbig : filter (fun b => part_threshold h proto < default 0 (lens !! b)) mis = []).
  { apply list_filter_none. intros b Hb. by apply Hlens. }
  assert (Hsml : filter (fun b => ~ part_threshold h proto < default 0 (lens !! b)) mis = mis) by (apply list_filter_every; done).
  rewrite Hbig, Hsml, (bool_decide_eq_true_2 ([] = [])) by done. rewrite (bool_decide_eq_false_2 (mis = [])) by exact Hnil. cbn [app].
  rewrite entries_of_buckets; [|done|apply differing_sorted|apply Forall_forall; intros b Hb%differing_range; lia].
  rewrite <-list_fmap_compose. apply list_fmap_ext. intros i b Hb%list_elem_of_lookup_2. cbn. destruct (Hsmall b Hb) as (_ & Hlen & Hfits).
  unfold listing_or_sketch. rewrite Hfits, length_fmap. rewrite (proj2 (Z.ltb_ge _ _)) by lia. cbn. f_equal.
  unfold key_versions_to_wire. rewrite <-list_fmap_compose. rewrite <-(list_fmap_id (bucket_listing _ _ _)) at 2. apply list_fmap_ext. by intros ? [? ?] _.
Qed.

End Exchange.

(** ** What is classified *)

Section Classified.
Context {PU : PostcardU32} {HS : Hashing} {V : Type} {VC : ValueCodec V}.

Lemma tuples_of_listing (l : Listing) : key_versions_to_tuples (key_version <$> l) = l.
Proof. unfold key_versions_to_tuples. rewrite <-list_fmap_compose. rewrite <-(list_fmap_id l) at 2. apply list_fmap_ext. by intros ? [? ?] _. Qed.

Lemma local_listings_lookup (s : ServeShard V) l now b : sv_residency s = None -> StronglySorted (key_lt id) l -> Forall (fun b => b < BUCKET_COUNT) l ->
  b ∈ l -> local_listings s l now !! b = Some (bucket_listing (sv_engine s) now b).
Proof.
  intros Hr Hs Hl Hb. unfold local_listings. rewrite entries_of_buckets, <-list_fmap_compose by done.
  assert (He : ((fun be : Z * list KeyVersion => (be.1, key_versions_to_tuples be.2)) ∘ (fun b => (b, key_version <$> bucket_listing (sv_engine s) now b))) <$> l =
    (fun b => (b, bucket_listing (sv_engine s) now b)) <$> l) by (apply list_fmap_ext; intros i x _; cbn; by rewrite tuples_of_listing).
  rewrite He. by apply collect_map_fun.
Qed.

(** The keys to push and to pull of some buckets, listing against listing. *)
Definition bucket_diff (eA eB : Engine V) (now : Z) (both : bool) (b : Z) : list Bytes * list Bytes :=
  diff_bucket (bucket_listing eA now b) (bucket_listing eB now b) both.

Definition bucket_answer (eB : Engine V) (now b : Z) : AeMismatch := MmBucket b (key_version <$> bucket_listing eB now b).

Lemma classify_listings fuel (s : ServeShard V) (eB : Engine V) now both l plan : sv_residency s = None ->
  StronglySorted (key_lt id) l -> Forall (fun b => b < BUCKET_COUNT) l ->
  classify_bucket_mismatches fuel s now (bucket_answer eB now <$> l) plan both =
  Some (foldl (fun p b => plan_keys p (bucket_diff (sv_engine s) eB now both b)) plan l).
Proof.
  intros Hr Hs Hl. unfold classify_bucket_mismatches. rewrite <-(chunks_concat l CLASSIFY_BUCKET_CHUNK) in Hs, Hl.
  rewrite chunks_fmap. rewrite <-(chunks_concat l CLASSIFY_BUCKET_CHUNK) at 2. revert plan Hs Hl.
  induction (chunk_mismatches l CLASSIFY_BUCKET_CHUNK) as [|chunk chunks IH]; intros plan Hs Hl; [done|].
  rewrite fmap_cons. cbn [foldl concat] in *. rewrite foldl_app.
  apply Forall_app in Hl as [Hl1 Hl2]. apply StronglySorted_app in Hs as (_ & Hs1 & Hs2).
  assert (Hb : mm_bucket <$> (bucket_answer eB now <$> chunk) = chunk)
    by (rewrite <-list_fmap_compose; rewrite <-(list_fmap_id chunk) at 2; done).
  rewrite Hb.
  assert (Hone : forall part plan, (forall b, b ∈ part -> b ∈ chunk) ->
    foldl (classify_one fuel (local_listings s chunk now) both) (Some plan) (bucket_answer eB now <$> part) =
    Some (foldl (fun p b => plan_keys p (bucket_diff (sv_engine s) eB now both b)) plan part)).
  { induction part as [|b part IHp]; intros p Hp; [done|]. rewrite fmap_cons. cbn [foldl]. unfold classify_one at 2. cbn [mbind option_bind bucket_answer].
    rewrite (local_listings_lookup s chunk now b) by (done || (apply Hp; by left)). cbn [default from_option]. rewrite tuples_of_listing.
    rewrite IHp; [done|]. intros x Hx. apply Hp. by right. }
  rewrite Hone by done. by apply IH.
Qed.

Lemma plan_fold {A} (f : A -> list Bytes * list Bytes) l plan :
  let p := foldl (fun p b => plan_keys p (f b)) plan l in
  rp_push_keys p = rp_push_keys plan ++ (l ≫= fun b => (f b).1) /\ rp_pull_keys p = rp_pull_keys plan ++ (l ≫= fun b => (f b).2) /\
  rp_pull_hashes p = rp_pull_hashes plan /\ rp_undecodable p = rp_undecodable plan.
Proof.
  revert plan. induction l as [|b l IH]; intros plan; [cbn; by rewrite !app_nil_r|]. cbn [foldl].
  destruct (IH (plan_keys plan (f b))) as (-> & -> & -> & ->). cbn [plan_keys rp_push_keys rp_pull_keys rp_pull_hashes rp_undecodable].
  rewrite !bind_cons, <-!app_assoc. done.
Qed.

(** Nothing stored has lapsed: what a read sees is what is stored. *)
Definition nothing_lapsed (e : Engine V) (now : Z) : Prop := forall k, record_for e k now = engine_record e k.

Lemma bucket_listing_lookup (e : Engine V) now b : engine_inv e -> nothing_lapsed e now -> 0 <= b < BUCKET_COUNT ->
  NoDup (bucket_listing e now b).*1 /\
  forall k, listed (bucket_listing e now b) !! k = if decide (Z.of_nat (bucket_of_key k) = b) then wr_ver <$> engine_record e k else None.
Proof.
  intros He Hn Hb. destruct (lookup_lt_is_Some_2 (stripes e) (Z.to_nat b)) as [st Hst]; [rewrite (ei_stripes _ He); lia|].
  assert (Hat : bucket_listing e now b = listing e st now) by (unfold bucket_listing, stripe_at; by rewrite Hst). rewrite Hat.
  assert (Hnd : NoDup (listing e st now).*1) by (by apply (listing_nodup e now (Z.to_nat b))). split; [done|]. intros k. apply option_eq. intros v.
  rewrite (collect_map_lookup _ (nodup_functional _ Hnd)), (listing_exact e now (Z.to_nat b) st k v He Hst), Hn.
  case_decide as Hk; split; try done; [by intros [? _]|intros ?; split; [done|lia]|intros [_ ?]; lia].
Qed.

(** The differences of two stores, key by key. *)
Lemma differences_spec (eA eB : Engine V) now both : engine_inv eA -> engine_inv eB -> nothing_lapsed eA now -> nothing_lapsed eB now ->
  let class k := classify_versions (wr_ver <$> engine_record eA k) (wr_ver <$> engine_record eB k) both in
  forall k,
  (k ∈ differing eA eB ≫= (fun b => (bucket_diff eA eB now both b).1) <-> Z.of_nat (bucket_of_key k) ∈ differing eA eB /\ (class k).1 = true) /\
  (k ∈ differing eA eB ≫= (fun b => (bucket_diff eA eB now both b).2) <-> Z.of_nat (bucket_of_key k) ∈ differing eA eB /\ (class k).2 = true).
Proof.
  intros HA HB HnA HnB class k.
  assert (Hb : forall b, b ∈ differing eA eB ->
    (k ∈ (bucket_diff eA eB now both b).1 <-> Z.of_nat (bucket_of_key k) = b /\ (class k).1 = true) /\
    (k ∈ (bucket_diff eA eB now both b).2 <-> Z.of_nat (bucket_of_key k) = b /\ (class k).2 = true)).
  { intros b Hr%differing_range. destruct (bucket_listing_lookup eA now b HA HnA Hr) as [NA LA], (bucket_listing_lookup eB now b HB HnB Hr) as [NB LB].
    pose proof (diff_bucket_spec _ _ both NA NB) as Hd. unfold bucket_diff. destruct (diff_bucket _ _ _) as [push pull]. destruct Hd as (_ & _ & Hd).
    destruct (Hd k) as [Hd1 Hd2]. cbn [fst snd]. rewrite Hd1, Hd2, LA, LB. unfold class. case_decide; [tauto|]. cbn. split; split; try done; by intros []. }
  rewrite !list_elem_of_bind. split; (split; [intros (b & Hin & Hb'); apply (Hb b Hb') in Hin as [-> ?]; done|intros [Hd Hc]; eexists; split; [|exact Hd]; by apply Hb]).
Qed.

End Classified.

(** ** What is repaired *)

Section Repaired.
Context {PU : PostcardU32} {HS : Hashing} {V : Type} {VC : ValueCodec V} {IS : IdleSort} {PUL : PostcardU32Laws}.

(** The newer of two records, the first on a tie. *)
Definition newest (a b : option WireRecord) : option WireRecord :=
  match a, b with
  | Some r, Some r' => if hlc_ltb (wr_ver r) (wr_ver r') then b else a
  | None, _ => b
  | _, None => a
  end.

Lemma newest_idem a b : newest (newest a b) b = newest a b.
Proof.
  destruct a as [r|], b as [r'|]; cbn; try done; [|by rewrite hlc_ltb_irrefl].
  destruct (hlc_ltb (wr_ver r) (wr_ver r')) eqn:E; cbn; [by rewrite hlc_ltb_irrefl|by rewrite E].
Qed.

(** A record the store at the other end keeps: its stamp accepted, its key and value decoded, not a
    tombstone past its retention, in a frame of its own at most. *)
Record takes_record (c : InConfig V) (ctx : ApplyCtx V) (now : Z) (rec : WireRecord) : Prop := {
  tr_stamp : stamp_accepted c now (wr_ver rec) = true;
  tr_decodes : ic_key_decodes c (wr_key rec) = true;
  tr_admitted : admitted ctx rec = true;
  tr_key : key_fits (wr_key rec);
  tr_frame : fits_frame (blen (ic_name c)) rec = true;
}.

Lemma stored_entry (c : InConfig V) ctx now rec : takes_record c ctx now rec ->
  exists en, stored_from c now rec = Some en /\ wt_admitted (entry_write ctx en) = true /\ be_key en = wr_key rec /\ be_ver en = wr_ver rec /\ wt_record (entry_write ctx en) = rec.
Proof.
  intros [H1 H2 H3 _ _]. unfold stored_from. rewrite H1, H2. cbn [andb]. unfold admitted, arrival in H3.
  destruct (incoming_of rec) as [i|] eqn:Ei; [|done]. cbn in H3 |- *. eexists. split_and!; try done.
  unfold incoming_of in Ei. unfold entry_write, wt_record, stored_as. cbn. destruct rec as [rk [b|] rv rx]; cbn in Ei.
  - destruct (decode_value b); [|done]. by injection Ei as <-.
  - by injection Ei as <-.
Qed.

Lemma join_records (c : InConfig V) ctx now k recs : Forall (takes_record c ctx now) recs -> forall r0,
  foldl (lww_join k) r0 (entry_write ctx <$> omap (stored_from c now) recs) =
  foldl (fun r rec => if decide (wr_key rec = k) then newest r (Some rec) else r) r0 recs.
Proof.
  induction 1 as [|rec recs Hrec _ IH]; intros r0; [done|]. destruct (stored_entry c ctx now rec Hrec) as (en & He & Ha & Hk & Hv & Hw).
  cbn [omap list_omap]. rewrite He, fmap_cons. cbn [foldl]. rewrite IH. f_equal. unfold lww_join. rewrite Ha, Hw. cbn [wt_key wt_ver entry_write andb].
  rewrite Hk, Hv. destruct (decide (wr_key rec = k)); [rewrite bool_decide_eq_true_2 by done|by rewrite bool_decide_eq_false_2].
  by destruct r0.
Qed.

Lemma engine_record_key (e : Engine V) k r : engine_record e k = Some r -> wr_key r = k.
Proof.
  unfold engine_record, stored_record. destruct (st_tombstones _ !! k); [by intros [= <-]|]. destruct (find_in _ k) as [l|] eqn:El; [|done].
  cbn. intros [= <-]. cbn. done.
Qed.

(** Joining one store's records under some keys into another's. *)
Lemma join_keys (c : InConfig V) ctx now (eS : Engine V) ks k r0 : (forall k r, engine_record eS k = Some r -> takes_record c ctx now r) ->
  foldl (lww_join k) r0 (entry_write ctx <$> omap (stored_from c now) (omap (engine_record eS) ks)) =
  if decide (k ∈ ks) then newest r0 (engine_record eS k) else r0.
Proof.
  intros Ht. rewrite join_records.
  2: { apply Forall_forall. intros r (k' & _ & Hr)%list_elem_of_omap. by eapply Ht. }
  revert r0. induction ks as [|k' ks IH]; intros r0.
  { rewrite decide_False; [done|]. apply not_elem_of_nil. }
  cbn [omap list_omap]. destruct (engine_record eS k') as [r|] eqn:Er; cbn [foldl].
  - rewrite (engine_record_key _ _ _ Er). rewrite IH. destruct (decide (k' = k)) as [->|Hne].
    + rewrite (decide_True _ _ (proj2 (elem_of_cons ks k k) (or_introl eq_refl))), <-Er. case_decide; [apply newest_idem|done].
    + destruct (decide (k ∈ ks)) as [Hin|Hout]; [by rewrite decide_True by (by right)|]. rewrite decide_False; [done|]. intros [?|?]%elem_of_cons; congruence.
  - rewrite IH. destruct (decide (k ∈ ks)) as [Hin|Hout]; [by rewrite decide_True by (by right)|].
    destruct (decide (k' = k)) as [->|Hne].
    + rewrite decide_True by (by left). rewrite Er. by destruct r0.
    + rewrite decide_False; [done|]. intros [?|?]%elem_of_cons; congruence.
Qed.

Lemma batch_records cache recs : batch_replicate cache recs ≫= msg_records = recs.
Proof.
  unfold batch_replicate. destruct (chunk_records_spec cache recs) as [Hc _]. rewrite <-Hc at 2. rewrite list_fmap_bind. unfold compose.
  clear. induction (chunk_records cache recs) as [|ch l IH]; [done|]. rewrite bind_cons, IH. cbn [concat]. f_equal. by destruct ch as [|r [|]].
Qed.
Lemma collect_batch cache recs : collect_pulled_records (Ok <$> batch_replicate cache recs ++ [ReqDone]) = Ok recs.
Proof.
  unfold collect_pulled_records. rewrite collect_replies_all.
  - f_equal. rewrite <-(batch_records cache recs) at 2.
    assert (Hf : forall msgs out, Forall (fun m => (exists rs, m = ReplicateBatch cache rs) \/ (exists r, m = Replicate cache r)) msgs ->
      foldl (fun s m => push_records m s) out msgs = out ++ (msgs ≫= msg_records)).
    { intros msgs out Hm. revert out. induction Hm as [|m msgs Hx _ IH]; intros out; [by rewrite app_nil_r|]. cbn [foldl]. rewrite IH, bind_cons, app_assoc.
      by destruct Hx as [[rs ->]|[r ->]]. }
    rewrite Hf; [done|]. apply Forall_fmap, Forall_true. intros [|r [|]]; cbn; eauto.
  - unfold batch_replicate. intros (ch & Hx & _)%list_elem_of_fmap. by destruct ch as [|r [|]].
Qed.

(** What a peer that holds everything sends for some keys. *)
Lemma served_records (s : ServeShard V) ks now : sv_residency s = None -> nothing_lapsed (sv_engine s) now ->
  (forall k r, engine_record (sv_engine s) k = Some r -> fits_frame (blen (sv_name s)) r = true) ->
  skip_unframeable s (records_for s ks now) = omap (engine_record (sv_engine s)) ks.
Proof.
  intros Hr Hn Hf. rewrite skip_unframeable_filter. unfold records_for. rewrite Hr.
  assert (He : omap (fun k => record_for (sv_engine s) k now) ks = omap (engine_record (sv_engine s)) ks) 
    by (clear -Hn; induction ks as [|k ks IH]; [done|]; cbn [omap list_omap]; rewrite Hn; by destruct (engine_record _ k); rewrite IH).
  rewrite He. apply list_filter_every. intros r (k & _ & Hk)%list_elem_of_omap. by eapply Hf.
Qed.

End Repaired.

(** ** The round *)

Section Round.
Context {PU : PostcardU32} {HS : Hashing} {V : Type} {VC : ValueCodec V} {IS : IdleSort} {PUL : PostcardU32Laws}.

(** What a peer's batches are applied under. *)
Definition inbound_ctx (c : InConfig V) (s : InShard V) (now : Z) : ApplyCtx V :=
  batch_ctx (R := LwwResolver) (in_engine s) AnyScope APeer (ic_tombstone_ttl_ms c) (ic_tombstone_max_ttl_ms c) now.

(** A replica that holds everything and keeps what arrives. *)
Record full_replica (c : InConfig V) (s : InShard V) (now : Z) : Prop := {
  fr_mode : inbound_scope (ic_mode c) = AnyScope;
  fr_residency : ic_residency c = None;
  fr_takes : takes_batches s;
  fr_lapsed : nothing_lapsed (in_engine s) now;
}.

(** Two replicas of one cache, what one stores being acceptable to the other. *)
Record replica_pair (cA cB : InConfig V) (A B : InShard V) (now : Z) : Prop := {
  rp_A : full_replica cA A now;
  rp_B : full_replica cB B now;
  rp_name : ic_name cA = ic_name cB;
  rp_A_to_B : forall k r, engine_record (in_engine A) k = Some r -> takes_record cB (inbound_ctx cB B now) now r;
  rp_B_to_A : forall k r, engine_record (in_engine B) k = Some r -> takes_record cA (inbound_ctx cA A now) now r;
  (* a version names one record *)
  rp_consistent : forall k r r', engine_record (in_engine A) k = Some r -> engine_record (in_engine B) k = Some r' -> wr_ver r = wr_ver r' -> r = r';
  (* equal digests, equal contents *)
  rp_digests : forall b, 0 <= b < BUCKET_COUNT -> bucket_digest (in_engine B) b = bucket_digest (in_engine A) b ->
    versions (stripe_at (in_engine B) (Z.to_nat b)) = versions (stripe_at (in_engine A) (Z.to_nat b));
}.

Section Pair.
Context (cA cB : InConfig V) (A B : InShard V) (now : Z) (Hpair : replica_pair cA cB A B now).
Context (h : Handler V) (proto elapsed : Z) (Hserves : hd_shards h !! ic_name cA = Some (serve_of cB B)).
Abbreviation link := (link_to h (ic_name cA) proto now elapsed).

Lemma newest_sym k : newest (engine_record (in_engine B) k) (engine_record (in_engine A) k) = newest (engine_record (in_engine A) k) (engine_record (in_engine B) k).
Proof.
  destruct (engine_record (in_engine A) k) as [r|] eqn:EA, (engine_record (in_engine B) k) as [r'|] eqn:EB; cbn; try done.
  destruct (hlc_total (wr_ver r) (wr_ver r')) as [Hlt|[Heq|Hgt]].
  - destruct (hlc_lt_ne _ _ Hlt) as (_ & _ & ->). by rewrite Hlt.
  - rewrite Heq, hlc_ltb_irrefl. f_equal. symmetry. by apply (rp_consistent _ _ _ _ _ Hpair k).
  - destruct (hlc_lt_ne _ _ Hgt) as (_ & _ & ->). by rewrite Hgt.
Qed.

(** A bucket whose digests agree holds the same records. *)
Lemma same_bucket k : Z.of_nat (bucket_of_key k) ∉ differing (in_engine A) (in_engine B) -> engine_record (in_engine A) k = engine_record (in_engine B) k.
Proof.
  pose proof (bucket_of_key_lt k) as Hlt. unfold differing. rewrite list_elem_of_filter, elem_of_seqZ. intros Hn.
  assert (Hd : bucket_digest (in_engine B) (Z.of_nat (bucket_of_key k)) = bucket_digest (in_engine A) (Z.of_nat (bucket_of_key k)))
    by (destruct (decide (bucket_digest (in_engine B) (Z.of_nat (bucket_of_key k)) = bucket_digest (in_engine A) (Z.of_nat (bucket_of_key k)))); [done|exfalso; apply Hn; lia]).
  apply (rp_digests _ _ _ _ _ Hpair) in Hd; [|lia]. rewrite Nat2Z.id in Hd. apply (f_equal (lookup k)) in Hd. rewrite !versions_record in Hd.
  fold (engine_record (in_engine A) k) in Hd. fold (engine_record (in_engine B) k) in Hd.
  destruct (engine_record (in_engine A) k) as [r|] eqn:EA, (engine_record (in_engine B) k) as [r'|] eqn:EB; cbn in Hd; try done. f_equal.
  apply (rp_consistent _ _ _ _ _ Hpair k); congruence.
Qed.

Definition push_keys_of : list Bytes := differing (in_engine A) (in_engine B) ≫= (fun b => (bucket_diff (in_engine A) (in_engine B) now false b).1).
Definition pull_keys_of : list Bytes := differing (in_engine A) (in_engine B) ≫= (fun b => (bucket_diff (in_engine A) (in_engine B) now false b).2).

(** Moving exactly the classified keys makes both sides the newest of the two. *)
Lemma moved_keys k :
  (if decide (k ∈ pull_keys_of) then newest (engine_record (in_engine A) k) (engine_record (in_engine B) k) else engine_record (in_engine A) k) =
    newest (engine_record (in_engine A) k) (engine_record (in_engine B) k) /\
  (if decide (k ∈ push_keys_of) then newest (engine_record (in_engine B) k) (engine_record (in_engine A) k) else engine_record (in_engine B) k) =
    newest (engine_record (in_engine A) k) (engine_record (in_engine B) k).
Proof.
  destruct (rp_A _ _ _ _ _ Hpair) as [_ _ [HA _] HnA], (rp_B _ _ _ _ _ Hpair) as [_ _ [HB _] HnB].
  destruct (differences_spec (in_engine A) (in_engine B) now false HA HB HnA HnB k) as [Hpush Hpull]. fold push_keys_of in Hpush. fold pull_keys_of in Hpull.
  rewrite newest_sym.
  destruct (decide (Z.of_nat (bucket_of_key k) ∈ differing (in_engine A) (in_engine B))) as [Hd|Hd].
  - destruct (engine_record (in_engine A) k) as [r|] eqn:EA, (engine_record (in_engine B) k) as [r'|] eqn:EB; cbn in Hpush, Hpull; cbn [newest].
    + destruct (hlc_total (wr_ver r) (wr_ver r')) as [Hlt|[Heq|Hgt]].
      * destruct (hlc_lt_ne _ _ Hlt) as (He & _ & Hn). rewrite He, Hlt, Hn in *. cbn in Hpush, Hpull.
        rewrite decide_True by (by apply Hpull). rewrite decide_False by (rewrite Hpush; by intros []). done.
      * assert (r = r') as <- by (by apply (rp_consistent _ _ _ _ _ Hpair k)). rewrite hlc_ltb_irrefl. by do 2 case_decide.
      * destruct (hlc_lt_ne _ _ Hgt) as (_ & He & Hn). rewrite He, Hgt, Hn in *. cbn in Hpush, Hpull.
        rewrite decide_False by (rewrite Hpull; by intros []). rewrite decide_True by (by apply Hpush). done.
    + rewrite decide_False by (rewrite Hpull; by intros []). rewrite decide_True by (by apply Hpush). done.
    + rewrite decide_True by (by apply Hpull). rewrite decide_False by (rewrite Hpush; by intros []). done.
    + by do 2 case_decide.
  - rewrite decide_False by (rewrite Hpull; tauto). rewrite decide_False by (rewrite Hpush; tauto). rewrite (same_bucket k Hd).
    destruct (engine_record (in_engine B) k); cbn; [by rewrite hlc_ltb_irrefl|done].
Qed.

(** The records the peer answers a request with. *)
Definition answer_of (req : PullRequest) : list WireRecord :=
  match req with
  | ReqKeys ks => omap (engine_record (in_engine B)) ks
  | ReqHashes b hashes => records_for_hashes h (ic_name cA) b hashes now
  end.

Lemma answered_of n req : answered link n req = Some (answer_of req).
Proof.
  unfold answered. cbn. destruct req as [ks|b hashes]; cbn [answer_of].
  - unfold serve_ae_pull. rewrite collect_batch. unfold handler_records_for, with_shard. rewrite Hserves. cbn [from_option]. f_equal.
    destruct (rp_B _ _ _ _ _ Hpair) as [_ Hres _ HnB]. apply served_records; [done|done|]. cbn. rewrite <-(rp_name _ _ _ _ _ Hpair).
    intros k r Hr. exact (tr_frame _ _ _ _ (rp_B_to_A _ _ _ _ _ Hpair k r Hr)).
  - unfold serve_ae_pull_hashes. by rewrite collect_batch.
Qed.

Lemma hash_answer_stored b hashes r : r ∈ records_for_hashes h (ic_name cA) b hashes now -> exists k, engine_record (in_engine B) k = Some r.
Proof.
  unfold records_for_hashes, with_shard. rewrite Hserves. cbn [from_option]. rewrite skip_unframeable_filter. intros [_ Hr]%list_elem_of_filter.
  unfold records_for in Hr. destruct (rp_B _ _ _ _ _ Hpair) as [_ Hres _ HnB]. cbn [sv_residency serve_of] in Hr. rewrite Hres in Hr.
  apply list_elem_of_omap in Hr as (k & _ & Hk). cbn in Hk. rewrite HnB in Hk. eauto.
Qed.

Lemma link_fits : answers_fit link.
Proof.
  intros n req recs. rewrite answered_of. intros [= <-]. apply Forall_forall. intros r Hr.
  assert (exists k, engine_record (in_engine B) k = Some r) as [k Hk].
  { destruct req as [ks|b hashes]; cbn in Hr; [apply list_elem_of_omap in Hr as (k & _ & Hk); eauto|by eapply hash_answer_stored]. }
  exact (tr_key _ _ _ _ (rp_B_to_A _ _ _ _ _ Hpair k r Hk)).
Qed.

Lemma link_all_answered n reqs : all_answered link n reqs = true.
Proof. unfold all_answered. apply forallb_forall. intros [i req] _. cbn. by rewrite answered_of. Qed.

Lemma link_answers reqs : forall n, answers link n reqs = answer_of <$> reqs.
Proof.
  unfold answers. induction reqs as [|req reqs IH]; intros n; [done|]. rewrite imap_shift. cbn [omap list_omap fst snd]. rewrite answered_of. by rewrite IH.
Qed.

(** Requests for some keys are answered with those keys' records. *)
Lemma answers_of_keys reqs : forall ks, concat (request_entries <$> reqs) = (inl <$> ks : list (Bytes + Z * Z)) ->
  concat (answer_of <$> reqs) = omap (engine_record (in_engine B)) ks.
Proof.
  induction reqs as [|req reqs IH]; intros ks Hk; [by destruct ks|]. change (request_entries req ++ concat (request_entries <$> reqs) = (inl <$> ks : list (Bytes + Z * Z))) in Hk. change (answer_of req ++ concat (answer_of <$> reqs) = omap (engine_record (in_engine B)) ks).
  symmetry in Hk. apply fmap_app_inv in Hk as (k1 & k2 & H1 & H2 & ->). rewrite (IH k2) by done. rewrite omap_app. f_equal.
  destruct req as [ks|b hashes]; cbn in H1 |- *.
  - by apply (inj _) in H1 as ->.
  - destruct hashes as [|hs hashes], k1 as [|k k1]; try done. unfold records_for_hashes, with_shard. rewrite Hserves. cbn [from_option].
    rewrite list_filter_none by (intros kv _ ?%not_elem_of_nil; done).
    rewrite skip_unframeable_filter. unfold records_for. by destruct (sv_residency _).
Qed.

(** What is pushed, and that all of it is handed to the outbox. *)
Lemma pushed_records s ks tally : ic_residency cA = None -> nothing_lapsed (in_engine s) now ->
  (forall k r, engine_record (in_engine s) k = Some r -> fits_frame (blen (ic_name cA)) r = true) ->
  let pu := push_repairs cA link now s ks ∅ tally in
  pu_enqueued pu = true /\ pu_sent pu ≫= msg_records = omap (engine_record (in_engine s)) ks.
Proof.
  intros Hr Hn Hf. unfold push_repairs.
  set (p0 := {| pu_enqueued := true; pu_sent := []; pu_tally := tally |}).
  assert (Hgo : forall chunks p, pu_enqueued p = true ->
    let pu := foldl (push_batch cA link now (serve_of cA s) ∅) p chunks in
    pu_enqueued pu = true /\ pu_sent pu ≫= msg_records = (pu_sent p ≫= msg_records) ++ omap (engine_record (in_engine s)) (concat chunks)).
  { induction chunks as [|ch chunks IH]; intros p Hp; [cbn; by rewrite app_nil_r|]. cbn [foldl concat].
    destruct (IH (push_batch cA link now (serve_of cA s) ∅ p ch)) as [H1 H2]; [cbn; by rewrite Hp|]. split; [exact H1|]. rewrite H2. cbn [push_batch pu_sent].
    rewrite served_records by done. rewrite list_filter_every by (intros rec _; unfold push_needed; rewrite lookup_empty; by rewrite bool_decide_eq_false_2 by done).
    rewrite bind_app, batch_records, omap_app, app_assoc. done. }
  pose proof (Hgo (chunk_mismatches ks (Z.to_nat REPAIR_BATCH)) p0 eq_refl) as Hp. rewrite chunks_concat in Hp. exact Hp.
Qed.

Context (Hsmall : forall b, b ∈ differing (in_engine A) (in_engine B) -> answered_with_listing h proto now (in_engine B) b).

Lemma round_answers : pl_round link (shard_digests (serve_of cA A)) = Ok (bucket_answer (in_engine B) now <$> differing (in_engine A) (in_engine B)).
Proof.
  destruct (rp_A _ _ _ _ _ Hpair) as [_ HrA [HA _] _], (rp_B _ _ _ _ _ Hpair) as [_ HrB [HB _] _].
  cbn [pl_round link_to]. unfold shard_digests. cbn [sv_residency serve_of]. rewrite HrA. cbn [sv_engine serve_of].
  rewrite (digest_round_replies h (ic_name cA) (serve_of cB B) (in_engine A) proto now Hserves HrB HA HB Hsmall). unfold collect_ae_mismatches. rewrite collect_replies_all.
  - f_equal. cbn [sv_engine serve_of]. generalize (differing (in_engine A) (in_engine B)) as l. intros l.
    assert (Hgo : forall out, foldl (fun s m => push_mismatch m s) out ((fun b => AeBucket (ic_name cA) b (bucket_listing (in_engine B) now b)) <$> l) =
      out ++ (bucket_answer (in_engine B) now <$> l)); [|exact (Hgo [])].
    induction l as [|b l IH]; intros out; [by rewrite app_nil_r|]. rewrite !fmap_cons. cbn [foldl push_mismatch]. rewrite IH, <-app_assoc. done.
  - intros (b & Hb & _)%list_elem_of_fmap. done.
Qed.

(** The repairs of the round: everything the exchange found is pulled, pushed and applied. *)
Lemma reconcile_spec fuel peer limit : 1 <= default REPAIR_BATCH limit <= REPAIR_BATCH ->
  exists repairs, reconcile_mismatches (R := LwwResolver) fuel cA link peer now A limit
      (bucket_answer (in_engine B) now <$> differing (in_engine A) (in_engine B)) None false = Some repairs /\
    rs_complete repairs = true /\ engine_inv (in_engine (rs_shard repairs)) /\
    (forall k, engine_record (in_engine (rs_shard repairs)) k =
       if decide (k ∈ pull_keys_of) then newest (engine_record (in_engine A) k) (engine_record (in_engine B) k) else engine_record (in_engine A) k) /\
    rs_sent repairs ≫= msg_records = omap (engine_record (in_engine A)) push_keys_of.
Proof.
  intros Hlim. destruct (rp_A _ _ _ _ _ Hpair) as [HmA HrA HtA HnA]. unfold reconcile_mismatches.
  rewrite (list_filter_every _ (bucket_answer _ _ <$> _)) by (intros m (b & -> & _)%list_elem_of_fmap; done).
  rewrite (classify_listings fuel (serve_of cA A) (in_engine B) now false) by (done || apply differing_sorted || (apply Forall_forall; intros b Hb%differing_range; lia)).
  cbn [mbind option_bind]. set (plan := foldl _ (plan_default None) _).
  destruct (plan_fold (bucket_diff (in_engine A) (in_engine B) now false) (differing (in_engine A) (in_engine B)) (plan_default None)) as (Hpush & Hpull & Hhash & Hund).
  change (foldl _ (plan_default None) _) with plan in Hpush, Hpull, Hhash, Hund. cbn [plan_default rp_push_keys rp_pull_keys rp_pull_hashes rp_undecodable app] in *.
  fold push_keys_of in Hpush. fold pull_keys_of in Hpull.
  assert (Hom : omap is_part_digests (bucket_answer (in_engine B) now <$> differing (in_engine A) (in_engine B)) = [])
    by (clear; induction (differing (in_engine A) (in_engine B)) as [|b l IH]; [done|]; rewrite fmap_cons; cbn; exact IH).
  rewrite Hom. change (chunk_mismatches [] CLASSIFY_BUCKET_CHUNK) with (@nil (list (Z * list Z))). cbn [classify_part_digest_chunks mbind option_bind].
  unfold sketch_fallback. rewrite Hund. unfold retain_owned_pulls, retain_peer_owned_pushes. cbn [sv_residency serve_of]. rewrite HrA, Hpush, Hpull, Hhash.
  unfold apply_repairs. set (tally := {| rt_repaired := 0; rt_bytes_moved := 0 |}).
  destruct (pushed_records A push_keys_of tally HrA HnA) as [Hq Hsent].
  { intros k r Hk. rewrite (rp_name _ _ _ _ _ Hpair). exact (tr_frame _ _ _ _ (rp_A_to_B _ _ _ _ _ Hpair k r Hk)). }
  set (pu := push_repairs cA link now A push_keys_of ∅ tally) in *.
  destruct (pull_repairs_spec cA link now A limit (pu_tally pu) pull_keys_of [] HmA HtA link_fits Hlim)
    as (pg & Hpg & _ & _ & _ & Hcover & Hcomp & [Hinv _] & _ & Hrec).
  rewrite Hpg. cbn [mbind option_bind]. eexists. split; [done|]. cbn [rs_shard rs_limit rs_sent rs_complete andb].
  rewrite link_all_answered in Hcomp. specialize (Hcover Hcomp). cbn [pull_plan fmap list_fmap source_entries concat] in Hcover. rewrite app_nil_r in Hcover.
  split_and!; [by rewrite Hq, Hcomp|done| |done]. intros k. rewrite Hrec, link_answers. rewrite (answers_of_keys _ pull_keys_of Hcover).
  unfold kept_by_guard. rewrite HrA. apply join_keys. exact (rp_B_to_A _ _ _ _ _ Hpair).
Qed.

End Pair.
End Round.

Section RoundTheorem.
Context {PU : PostcardU32} {HS : Hashing} {V : Type} {VC : ValueCodec V} {IS : IdleSort} {PUL : PostcardU32Laws}.

(** C1: one anti-entropy round makes two replicas agree. Two full replicas under last-writer-wins, of which nothing has
    lapsed and each of which accepts what the other stores, with digests that tell their contents
    apart, the peer answering its differing buckets with listings: the round one of them runs
    against the other completes, and once the peer has applied what was pushed to it, both hold under every
    key the newer of the two records there were, tombstones included, and all part digests are
    equal. *)
Theorem one_round_converges (cA cB : InConfig V) (A B : InShard V) (now : Z) (h : Handler V) (proto elapsed : Z) (peer : NodeId)
    (limit : option Z) (fuel : nat) (Hpair : replica_pair cA cB A B now) (Hserves : hd_shards h !! ic_name cA = Some (serve_of cB B))
    (Hsmall : forall b, b ∈ differing (in_engine A) (in_engine B) -> answered_with_listing h proto now (in_engine B) b)
    (Hlimit : 1 <= default REPAIR_BATCH limit <= REPAIR_BATCH) :
  exists repairs B',
    run_round_against (R := LwwResolver) fuel cA (link_to h (ic_name cA) proto now elapsed) peer now A limit = Some (repairs, Reconciled) /\
    apply_answers (R := LwwResolver) cB now B (msg_records <$> rs_sent repairs) = Some B' /\
    (forall k, engine_record (in_engine (rs_shard repairs)) k = newest (engine_record (in_engine A) k) (engine_record (in_engine B) k) /\
               engine_record (in_engine B') k = newest (engine_record (in_engine A) k) (engine_record (in_engine B) k)) /\
    digest (in_engine (rs_shard repairs)) = digest (in_engine B').
Proof.
  destruct (rp_A _ _ _ _ _ Hpair) as [_ HrA [HA _] _], (rp_B _ _ _ _ _ Hpair) as [HmB HrB HtB _].
  assert (Hround : exists repairs, run_round_against (R := LwwResolver) fuel cA (link_to h (ic_name cA) proto now elapsed) peer now A limit = Some (repairs, Reconciled) /\
    engine_inv (in_engine (rs_shard repairs)) /\
    (forall k, engine_record (in_engine (rs_shard repairs)) k =
       if decide (k ∈ pull_keys_of A B now) then newest (engine_record (in_engine A) k) (engine_record (in_engine B) k) else engine_record (in_engine A) k) /\
    rs_sent repairs ≫= msg_records = omap (engine_record (in_engine A)) (push_keys_of A B now)).
  { unfold run_round_against, ae_scoped_digests_for. cbn [sv_residency serve_of]. rewrite HrA. cbn [mbind option_bind].
    rewrite (round_answers cA cB A B now Hpair h proto elapsed Hserves Hsmall).
    destruct (reconcile_spec cA cB A B now Hpair h proto elapsed Hserves fuel peer limit Hlimit) as (repairs & Hrec & Hc & Hi & Hk & Hs).
    unfold pull_keys_of, push_keys_of in *. destruct (differing (in_engine A) (in_engine B)) as [|b l] eqn:Ed.
    - exists (no_repairs A limit). by split_and!.
    - rewrite fmap_cons in *. cbn [after_exchange]. change (ae_exchanges_both (R := LwwResolver)) with false. rewrite Hrec. cbn [mbind option_bind]. rewrite Hc.
      exists repairs. by split_and!. }
  destruct Hround as (repairs & Hrun & Hi & HA' & Hsent).
  destruct (apply_answers_lww cB now (msg_records <$> rs_sent repairs) HmB) with (s := B) as (B' & HB' & [HiB _] & _ & HrecB); [|done|].
  { apply Forall_fmap, Forall_forall. intros m Hm. cbn. apply Forall_forall. intros r Hr.
    assert (Hin : r ∈ rs_sent repairs ≫= msg_records) by (apply list_elem_of_bind; by exists m). rewrite Hsent in Hin.
    apply list_elem_of_omap in Hin as (k & _ & Hk). exact (tr_key _ _ _ _ (rp_A_to_B _ _ _ _ _ Hpair k r Hk)). }
  assert (Hcat : concat (msg_records <$> rs_sent repairs) = omap (engine_record (in_engine A)) (push_keys_of A B now)) by (rewrite <-Hsent; symmetry; apply bind_concat).
  assert (Hfinal : forall k, engine_record (in_engine (rs_shard repairs)) k = newest (engine_record (in_engine A) k) (engine_record (in_engine B) k) /\
               engine_record (in_engine B') k = newest (engine_record (in_engine A) k) (engine_record (in_engine B) k)).
  { intros k. destruct (moved_keys cA cB A B now Hpair k) as [H1 H2]. rewrite HA', H1. split; [done|].
    rewrite HrecB, Hcat. unfold kept_by_guard. rewrite HrB. rewrite <-H2. apply join_keys. exact (rp_A_to_B _ _ _ _ _ Hpair). }
  exists repairs, B'. split_and!; try done. apply engine_digest_eq; try done. intros k. by destruct (Hfinal k) as [-> ->].
Qed.

End RoundTheorem.

(** ** Evaluating the statement *)

Lemma run_writes_keys (ws : list (Write Bytes)) k : Forall (fun w => key_fits (wt_key w) /\ ac_held_only (wt_ctx w) = false) ws ->
  k ∉ wt_key <$> ws -> engine_record (run_writes LwwResolver empty_engine ws) k = None.
Proof.
  intros Hws Hk. rewrite run_writes_lww by (apply engine_new_inv || done).
  assert (H0 : engine_record empty_engine k = None) by apply engine_new_record. rewrite H0. clear Hws H0.
  induction ws as [|w ws IH]; [done|]. rewrite fmap_cons, not_elem_of_cons in Hk. destruct Hk as [Hne Hk]. cbn [foldl].
  assert (Hj : lww_join k None w = None) by (unfold lww_join; by rewrite bool_decide_eq_false_2, andb_false_r by congruence). rewrite Hj. by apply IH.
Qed.

(** The writes of either side: one key only at A, one newer at each, a deletion only at B. *)
Definition demo_writes_A : list (Write Bytes) := [put_at [1] [10] 500 1; put_at [2] [20] 600 2; delete_at [3] 700 1].
Definition demo_writes_B : list (Write Bytes) := [put_at [2] [21] 650 3; put_at [3] [30] 640 3; delete_at [4] 660 3].
Definition demo_replica (ws : list (Write Bytes)) : InShard Bytes := {|
  in_engine := run_writes LwwResolver empty_engine ws; in_clock := HlcClock.new 7; in_hold := skew_new 10 1000; in_forwards := [];
  in_unowned_dropped := 0; in_skew_rejected := 0 |}.
Definition demo_config : InConfig Bytes := {|
  ic_name := [99]; ic_mode := Replicated; ic_residency := None; ic_max_clock_skew_ms := None; ic_tombstone_ttl_ms := 60000;
  ic_tombstone_max_ttl_ms := 600000; ic_key_decodes := fun _ => true; ic_key_order := fmap be_key |}.

Lemma demo_full ws : Forall (fun w => key_fits (wt_key w) /\ ac_held_only (wt_ctx w) = false) ws ->
  Forall (fun k => bool_decide (record_for (run_writes LwwResolver empty_engine ws) k 1000 = engine_record (run_writes LwwResolver empty_engine ws) k) = true) (wt_key <$> ws) ->
  max_capacity (cfg (run_writes LwwResolver empty_engine ws)) = u64_max -> full_replica demo_config (demo_replica ws) 1000.
Proof.
  intros Hws Hrec Hcap. split; [done|done| |].
  - split; [|done]. apply run_writes_inv; [apply engine_new_inv|]. eapply Forall_impl; [exact Hws|]. by intros w [? ?].
  - intros k. cbn. destruct (decide (k ∈ wt_key <$> ws)) as [Hk|Hk].
    + rewrite Forall_forall in Hrec. exact (bool_decide_eq_true_1 _ (Hrec k Hk)).
    + pose proof (run_writes_keys ws k Hws Hk) as Hn. rewrite Hn. unfold record_for, record_scoped.
      unfold engine_record, stored_record in Hn. destruct (st_tombstones _ !! k); [done|]. by destruct (find_in _ k).
Qed.

Lemma demo_takes ws e k r : Forall (fun w => key_fits (wt_key w) /\ ac_held_only (wt_ctx w) = false) ws ->
  Forall (fun k => from_option (fun r => admitted (inbound_ctx demo_config e 1000) r && fits_frame 1 r) true (engine_record (run_writes LwwResolver empty_engine ws) k) = true)
    (wt_key <$> ws) ->
  engine_record (run_writes LwwResolver empty_engine ws) k = Some r -> takes_record demo_config (inbound_ctx demo_config e 1000) 1000 r.
Proof.
  intros Hws Hok Hr. assert (Hk : k ∈ wt_key <$> ws).
  { destruct (decide (k ∈ wt_key <$> ws)) as [|Hn]; [done|]. rewrite (run_writes_keys ws k Hws Hn) in Hr. done. }
  rewrite Forall_forall in Hok. specialize (Hok k Hk). rewrite Hr in Hok. cbn in Hok. apply andb_true_iff in Hok as [Ha Hf].
  split; try done. rewrite (engine_record_key _ _ _ Hr). apply list_elem_of_fmap in Hk as (w & -> & Hw). rewrite Forall_forall in Hws. by apply Hws.
Qed.

Lemma demo_digests_apart : forall b, 0 <= b < BUCKET_COUNT ->
  bucket_digest (in_engine (demo_replica demo_writes_B)) b = bucket_digest (in_engine (demo_replica demo_writes_A)) b ->
  versions (stripe_at (in_engine (demo_replica demo_writes_B)) (Z.to_nat b)) = versions (stripe_at (in_engine (demo_replica demo_writes_A)) (Z.to_nat b)).
Proof.
  intros b Hb Hd.
  assert (Hall : let eA := in_engine (demo_replica demo_writes_A) in let eB := in_engine (demo_replica demo_writes_B) in
    forallb (fun b => implb (bucket_digest eB b =? bucket_digest eA b)
      (bool_decide (versions (stripe_at eB (Z.to_nat b)) = versions (stripe_at eA (Z.to_nat b))))) (seqZ 0 BUCKET_COUNT) = true) by (vm_compute; reflexivity).
  cbv zeta in Hall.
  rewrite forallb_forall in Hall. specialize (Hall b). rewrite <-list_elem_of_In, elem_of_seqZ in Hall. specialize (Hall ltac:(lia)).
  rewrite (proj2 (Z.eqb_eq _ _) Hd) in Hall. exact (bool_decide_eq_true_1 _ Hall).
Qed.

Lemma demo_pair : replica_pair demo_config demo_config (demo_replica demo_writes_A) (demo_replica demo_writes_B) 1000.
Proof.
  assert (HwA : Forall (fun w => key_fits (wt_key w) /\ ac_held_only (wt_ctx w) = false) demo_writes_A) by (repeat constructor; vm_compute; discriminate).
  assert (HwB : Forall (fun w => key_fits (wt_key w) /\ ac_held_only (wt_ctx w) = false) demo_writes_B) by (repeat constructor; vm_compute; discriminate).
  split.
  - apply demo_full; [done|repeat constructor; vm_compute; reflexivity|reflexivity].
  - apply demo_full; [done|repeat constructor; vm_compute; reflexivity|reflexivity].
  - done.
  - intros k r. apply demo_takes; [done|]. repeat constructor; vm_compute; reflexivity.
  - intros k r. apply demo_takes; [done|]. repeat constructor; vm_compute; reflexivity.
  - intros k r r' HA HB Hv. destruct (decide (k ∈ wt_key <$> demo_writes_A)) as [Hk|Hk]; [|pose proof (run_writes_keys _ k HwA Hk) as Hn; cbn [in_engine demo_replica] in HA; congruence].
    cbn in Hk. set_unfold in Hk. destruct Hk as [->|[->|[->|[]]]]; vm_compute in HA, HB; try discriminate HB; injection HA as <-; injection HB as <-; discriminate Hv.
  - exact demo_digests_apart.
Qed.

Definition demo_peer_handler : Handler Bytes := {|
  hd_shards := {[ [99] := serve_of demo_config (demo_replica demo_writes_B) ]}; hd_warm := fun _ => true; hd_part_min_bucket := 4096;
  hd_sketch_min_bucket := 256; hd_sketch_cells := 96; hd_chunk_bytes := 65536 |}.

Lemma demo_listings b : b ∈ differing (in_engine (demo_replica demo_writes_A)) (in_engine (demo_replica demo_writes_B)) ->
  answered_with_listing demo_peer_handler 9 1000 (in_engine (demo_replica demo_writes_B)) b.
Proof.
  intros Hb%differing_range.
  assert (Hall : let e := in_engine (demo_replica demo_writes_B) in forallb (fun b =>
    (bucket_len e b <=? part_threshold demo_peer_handler 9) && (Z.of_nat (length (bucket_listing e 1000 b)) <=? hd_sketch_min_bucket demo_peer_handler) &&
    listing_fits (key_version <$> bucket_listing e 1000 b) AE_LISTING_BUDGET) (seqZ 0 BUCKET_COUNT) = true) by (vm_compute; reflexivity).
  cbv zeta in Hall. rewrite forallb_forall in Hall. specialize (Hall b). rewrite <-list_elem_of_In, elem_of_seqZ in Hall. specialize (Hall ltac:(lia)).
  apply andb_true_iff in Hall as [[H1 H2]%andb_true_iff H3]. split_and!; [lia|lia|exact H3].
Qed.

Lemma one_round_converges_witness :
  exists repairs B',
    run_round_against (R := LwwResolver) 100 demo_config (link_to demo_peer_handler [99] 9 1000 0) 9 1000 (demo_replica demo_writes_A) None = Some (repairs, Reconciled) /\
    apply_answers (R := LwwResolver) demo_config 1000 (demo_replica demo_writes_B) (msg_records <$> rs_sent repairs) = Some B' /\
    wr_value <$> engine_record (in_engine B') [2] = Some (Some [21]) /\ wr_value <$> engine_record (in_engine (rs_shard repairs)) [3] = Some None /\
    digest (in_engine (rs_shard repairs)) = digest (in_engine B').
Proof.
  destruct (one_round_converges demo_config demo_config (demo_replica demo_writes_A) (demo_replica demo_writes_B) 1000 demo_peer_handler 9 0 9 None 100)
    as (repairs & B' & H1 & H2 & H3 & H4).
  - exact demo_pair.
  - reflexivity.
  - exact demo_listings.
  - vm_compute. split; discriminate.
  - exists repairs, B'. split; [exact H1|]. split; [exact H2|].
    split; [rewrite (proj2 (H3 [2])); vm_compute; reflexivity|]. split; [rewrite (proj1 (H3 [3])); vm_compute; reflexivity|exact H4].
Defined.
