(* ===== verification/Retirement.v ===== *)
(** * Retiring writers

    [cluster/crdt_compact.rs]: which writers of a merging cache's records are dead, whether the cache
    is quiet enough to fold them, and the sweep over the whole keyspace that retires them; with the
    membership predicates it reads ([membership/mod.rs]) and [Shard::compact_pass] of
    [store/shard_serve.rs]. Instants and durations are milliseconds. *)

From S2P Require Import Prelude SkewHold Clock Part Types Record Expiry Sketch Wire Merge Arena Engine Apply Removal Compaction Evict Prefold Batch Read Serve Ownership Residency FanOut Mesh PeerServe Inbound Absence Receipts Counter.

(** ** Definitions *)

(** *** Membership predicates *)

Record MemberView := {
  mv_present_since : option Z;
  mv_absent_since : option Z;
  mv_live_incarnation : option Z;
  mv_known_since : option Z;
}.

Definition member_is_quiet (member : MemberView) (now bound : Z) : bool :=
  let settled (since : option Z) (for_at_least : Z) := is_some_and since (fun since => for_at_least <=? saturating_sub now since) in
  settled (mv_present_since member) bound || settled (mv_absent_since member) bound
  || settled (mv_known_since member) (duration_mul bound 2).

Definition incarnation_is_dead (member : MemberView) (w_incarnation now bound : Z) : bool :=
  match mv_live_incarnation member with
  | Some current => negb (current =? w_incarnation)
  | None => is_some_and (mv_absent_since member) (fun since => bound <=? saturating_sub now since)
  end.

(** *** Decisions of a tick *)

Definition crdt_writer_is_retirement_eligible (local w : WriterId) (member : MemberView) (now bound : Z) : bool :=
  negb (bool_decide (w = local)) && incarnation_is_dead member (wid_incarnation w) now bound.

Definition crdt_writer_absent_since (gone_since : option Z) (first_unseen node_started : Z) : Z :=
  match gone_since with Some since => since | None => Z.max first_unseen node_started end.

Definition keyspace_walked (stripes_visited : Z) : bool := BUCKET_COUNT <=? stripes_visited.
Definition sweep_is_complete (stripes_visited last_call_stripes : Z) : bool :=
  (last_call_stripes =? 0) || keyspace_walked stripes_visited.

Record UnseenState := { us_first_seen : gmap WriterId Z; us_touched : gset WriterId }.
Definition unseen_default : UnseenState := {| us_first_seen := ∅; us_touched := ∅ |}.

Definition first_sight (u : UnseenState) (writer : WriterId) (now : Z) : UnseenState * Z :=
  let since := default now (us_first_seen u !! writer) in
  ({| us_first_seen := <[writer := since]> (us_first_seen u); us_touched := {[writer]} ∪ us_touched u |}, since).

Definition end_cycle (u : UnseenState) : UnseenState :=
  {| us_first_seen := filter (fun kv => kv.1 ∈ us_touched u) (us_first_seen u); us_touched := ∅ |}.

Definition crdt_cache_is_quiet (members : list MemberView) (now bound : Z) : Quiescence :=
  from_settled (forallb (fun member => member_is_quiet member now bound) members).

(** What the tick reads of the cluster: this node and its incarnation, the live peers and theirs, the
    caches each advertises, the start of the process and the configuration. *)
Record CompactCluster := {
  cc_node : NodeId;
  cc_incarnation : Z;
  cc_peers : list (NodeId * Z);
  cc_modes : gmap NodeId (gset Bytes);
  cc_started_at : Z;
  cc_retire_after : Z;
  cc_batch : Z;
}.

Definition crdt_cache_members (cl : CompactCluster) (name : Bytes) (absence : AbsenceState) (now : Z) : list MemberView :=
  let live := filter (fun p => is_some_and (cc_modes cl !! p.1) (fun caches => bool_decide (name ∈ caches)) = true) (cc_peers cl) in
  ((fun p => {| mv_present_since := present_since absence p.1; mv_absent_since := None;
                mv_live_incarnation := Some p.2; mv_known_since := known_since absence p.1 |}) <$> live) ++
  ((fun node => {| mv_present_since := None; mv_absent_since := gone_since absence node;
                   mv_live_incarnation := None; mv_known_since := known_since absence node |}) <$> gone_longer_than absence now 0).

(** The live incarnation of every node this one knows to be up, its own included. *)
Definition live_incarnations (cl : CompactCluster) : gmap NodeId Z :=
  <[cc_node cl := cc_incarnation cl]> (foldl (fun m p => <[p.1 := p.2]> m) ∅ (cc_peers cl)).

Definition local_writer (cl : CompactCluster) : WriterId := {| wid_node := cc_node cl; wid_incarnation := cc_incarnation cl |}.

(** The retirement predicate of a tick. A writer whose node is neither up nor tracked gone is noted as
    met, which is the predicate's only effect. *)
Definition retire (cl : CompactCluster) (absence : AbsenceState) (now : Z) (u : UnseenState) (w : WriterId) : UnseenState * bool :=
  match live_incarnations cl !! wid_node w with
  | Some incarnation =>
      (u, crdt_writer_is_retirement_eligible (local_writer cl) w
            {| mv_present_since := None; mv_absent_since := None; mv_live_incarnation := Some incarnation; mv_known_since := None |}
            now (cc_retire_after cl))
  | None =>
      let gone := gone_since absence (wid_node w) in
      let '(u, first_unseen) := match gone with Some _ => (u, now) | None => first_sight u w now end in
      (u, crdt_writer_is_retirement_eligible (local_writer cl) w
            {| mv_present_since := None; mv_absent_since := Some (crdt_writer_absent_since gone first_unseen (cc_started_at cl));
               mv_live_incarnation := None; mv_known_since := None |}
            now (cc_retire_after cl))
  end.

(** *** A pass over a shard *)

(** The writers a record holds live slots of, which its compaction asks the predicate about. *)
Class AskedWriters := asked_writers : Bytes -> Bytes -> list WriterId.

(** A compacted record asks about no writer its original did not. *)
Class AskedWritersLaws (R : ConflictResolver) (AW : AskedWriters) : Prop :=
  asked_fewer k v now_ms retire quiet bounds v' w :
    compact k v now_ms retire quiet bounds = Some v' -> w ∈ asked_writers k v' -> w ∈ asked_writers k v.

Record PassOutcome := { po_retired : list WriterId; po_compacted : Z; po_stripes_visited : Z }.

Section Pass.
Context {PU : PostcardU32} {HS : Hashing} {R : ConflictResolver} {V : Type} {VC : ValueCodec V} {IS : IdleSort} {AW : AskedWriters}.

Definition owns_key (c : InConfig V) (key_bytes : Bytes) : bool := is_none_or (ic_residency c) (fun r => owns r.1 (pid_of_key key_bytes)).

Definition observe_derived (s : InShard V) (now_ms : Z) (derived : Hlc) : InShard V :=
  in_with_clock s (HlcClock.observe (in_clock s) now_ms derived).1 false.

(** One candidate: replaced, or left to the next pass. *)
Definition replace_candidate (c : InConfig V) (now_ms : Z) (acc : InShard V * Z) (cand : CompactCandidate) : InShard V * Z :=
  let '(s, compacted) := acc in
  if negb (owns_key c (cc_key_bytes cand)) then acc
  else
    match decode_value (cc_new_encoded cand) with
    | None => acc
    | Some value =>
        let new_ver := compacted_version (cc_stale_ver cand) (cc_new_encoded cand) in
        let s := observe_derived s now_ms new_ver in
        let '(e, done) := compact_replace_if_current (in_engine s) (cc_key_bytes cand) (cc_stale_ver cand) new_ver value (cc_new_encoded cand) in
        (in_with_engine s e, compacted + (if done : bool then 1 else 0))
    end.

(** The writers some entries' compaction asks about. *)
Definition asked_in (ls : list Live) : list WriterId := ls ≫= (fun l => asked_writers (live_key l) (record_value (lv_record l))).

(** [Shard::compact_pass], with what it asked the predicate about; the shard's clock reads [now_ms]
    too. *)
Definition compact_pass (c : InConfig V) (s : InShard V) (now_ms : Z) (retire : WriterId -> bool) (quiet : Quiescence)
    (bounds : CompactionBounds) (max_entries : Z) : InShard V * PassOutcome * list WriterId :=
  if negb merges then (s, {| po_retired := []; po_compacted := 0; po_stripes_visited := BUCKET_COUNT |}, [])
  else
    let quiet := if folds_retired_writers (ic_mode c) then quiet else Churning in
    let start := stripe_index_from_hash (compact_cursor (in_engine s)) in
    let '(e, scan) := compact_scan now_ms retire quiet bounds (in_engine s) max_entries in
    let asked := asked_in (scanned (in_engine s) start 0 (cs_stripes_visited scan)) in
    let '(s, compacted) := foldl (replace_candidate c now_ms) (in_with_engine s e, 0) (cs_candidates scan) in
    (s, {| po_retired := elements (list_to_set (filter (fun w => retire w = true) asked) : gset WriterId);
           po_compacted := compacted; po_stripes_visited := cs_stripes_visited scan |}, asked).

(** *** A tick *)

Definition add_retired (retired new : list WriterId) : list WriterId :=
  foldl (fun acc w => if bool_decide (w ∈ acc) then acc else acc ++ [w]) retired new.

Record TickState := { ts_shard : InShard V; ts_unseen : UnseenState; ts_retired : list WriterId; ts_compacted : Z; ts_visited : Z }.

(** The sweep's loop; the wall clock is read at each pass. The state carries what the predicate noted. *)
Fixpoint tick_loop (fuel : nat) (c : InConfig V) (cl : CompactCluster) (absence : AbsenceState) (now : Z) (wall : nat -> Z) (quiet : Quiescence)
    (bounds : CompactionBounds) (pass : nat) (st : TickState) : option TickState :=
  match fuel with
  | O => None
  | S fuel =>
      let '(s, out, asked) := compact_pass c (ts_shard st) (wall pass) (fun w => (retire cl absence now (ts_unseen st) w).2) quiet bounds (cc_batch cl) in
      let visited := ts_visited st + po_stripes_visited out in
      let st := {| ts_shard := s; ts_unseen := foldl (fun u w => (retire cl absence now u w).1) (ts_unseen st) asked;
                   ts_retired := add_retired (ts_retired st) (po_retired out);
                   ts_compacted := ts_compacted st + po_compacted out; ts_visited := visited |} in
      if sweep_is_complete visited (po_stripes_visited out) then Some st
      else tick_loop fuel c cl absence now wall quiet bounds (S pass) st
  end.

(** Every pass of a sweep visits a stripe, so one more than the stripes is fuel enough. *)
Definition tick_fuel : nat := S (Z.to_nat BUCKET_COUNT).

Definition crdt_compact_tick (c : InConfig V) (cl : CompactCluster) (absence : AbsenceState) (u : UnseenState) (bounds : CompactionBounds)
    (now : Z) (wall : nat -> Z) (s : InShard V) : option (InShard V * AbsenceState * UnseenState * list WriterId * Z) :=
  if negb merges then Some (s, absence, u, [], 0)
  else
    let absence := prune_gone_older_than absence now (receipt_ttl_ms bounds) in
    let quiet := crdt_cache_is_quiet (crdt_cache_members cl (ic_name c) absence now) now (cc_retire_after cl) in
    st ← tick_loop tick_fuel c cl absence now wall quiet bounds 0
           {| ts_shard := s; ts_unseen := u; ts_retired := []; ts_compacted := 0; ts_visited := 0 |};
    let u := if keyspace_walked (ts_visited st) then end_cycle (ts_unseen st) else ts_unseen st in
    Some (ts_shard st, absence, u, ts_retired st, ts_compacted st).

End Pass.
Arguments TickState V : clear implicits.

(** [ClusterConfig::crdt_sweep_period]. *)
Definition crdt_sweep_period (crdt_sweep_interval : option Z) (crdt_retire_after : Z) : Z :=
  match crdt_sweep_interval with Some d => d | None => Z.max (crdt_retire_after / 4) 30000 end.
Definition crdt_compaction_bounds (crdt_sweep_interval : option Z) (crdt_retire_after : Z) : CompactionBounds :=
  compaction_bounds_new crdt_retire_after (crdt_sweep_period crdt_sweep_interval crdt_retire_after).

(** ** What a tick notes of unknown writers *)

Section Noting.
Context (cl : CompactCluster) (absence : AbsenceState) (now : Z).

(** The writer's node is neither up nor tracked gone. *)
Definition unknown (w : WriterId) : bool :=
  negb (is_some (live_incarnations cl !! wid_node w)) && negb (is_some (gone_since absence (wid_node w))).

Abbreviation note := (fun u w => (retire cl absence now u w).1).
Abbreviation met u w := (default now (us_first_seen u !! w)).

Lemma retire_notes u w : note u w = if unknown w then (first_sight u w now).1 else u.
Proof.
  unfold retire, unknown. destruct (live_incarnations cl !! wid_node w); [done|]. by destruct (gone_since absence (wid_node w)).
Qed.

Lemma retire_ext u u' w : met u w = met u' w -> (retire cl absence now u w).2 = (retire cl absence now u' w).2.
Proof.
  intros Hm. unfold retire. destruct (live_incarnations cl !! wid_node w); [done|].
  destruct (gone_since absence (wid_node w)); [done|]. cbn. by rewrite Hm.
Qed.

Lemma noted_seen ws : forall u w, us_first_seen (foldl note u ws) !! w =
  if decide (w ∈ ws /\ unknown w = true) then Some (met u w) else us_first_seen u !! w.
Proof.
  induction ws as [|x ws IH]; intros u w; cbn [foldl].
  { rewrite decide_False; [done|]. intros [H _]. by apply not_elem_of_nil in H. }
  rewrite IH, retire_notes. destruct (unknown x) eqn:Hx; cbn [first_sight fst us_first_seen].
  - destruct (decide (x = w)) as [->|Hne].
    + rewrite !lookup_insert_eq. cbn. rewrite (decide_True (P := w ∈ w :: ws /\ _)) by (split; [by left|done]). by case_decide.
    + rewrite !lookup_insert_ne by done. apply decide_ext. rewrite elem_of_cons. intuition congruence.
  - apply decide_ext. rewrite elem_of_cons. intuition congruence.
Qed.

Lemma noted_met ws u w : met (foldl note u ws) w = met u w.
Proof. rewrite noted_seen. by case_decide. Qed.

Lemma noted_touched ws : forall u w,
  w ∈ us_touched (foldl note u ws) <-> w ∈ us_touched u \/ (w ∈ ws /\ unknown w = true).
Proof.
  induction ws as [|x ws IH]; intros u w; cbn [foldl].
  { split; [by left|]. intros [H|[H _]]; [done|]. by apply not_elem_of_nil in H. }
  rewrite IH, retire_notes, elem_of_cons. destruct (unknown x) eqn:Hx; cbn [first_sight fst us_touched].
  - rewrite elem_of_union, elem_of_singleton. intuition congruence.
  - intuition congruence.
Qed.

(** Ending a cycle keeps the instants of the writers noted since the last one. *)
Lemma end_cycle_seen ws u w : us_touched u = ∅ ->
  us_first_seen (end_cycle (foldl note u ws)) !! w = if decide (w ∈ ws /\ unknown w = true) then Some (met u w) else None.
Proof.
  intros Ht. cbn. pose proof (noted_touched ws u w) as Htw. rewrite Ht in Htw. case_decide as Hw.
  - apply map_lookup_filter_Some. cbn. split; [|apply Htw; by right]. rewrite noted_seen. by rewrite decide_True.
  - apply map_lookup_filter_None. right. intros t _. cbn. set_solver.
Qed.

End Noting.

Lemma add_retired_elem new : forall acc w, w ∈ add_retired acc new <-> w ∈ acc \/ w ∈ new.
Proof.
  induction new as [|x new IH]; intros acc w; cbn [add_retired foldl].
  { split; [by left|]. intros [H|H]; [done|by apply not_elem_of_nil in H]. }
  fold (add_retired (if bool_decide (x ∈ acc) then acc else acc ++ [x]) new). rewrite IH, elem_of_cons.
  case_bool_decide; [|rewrite elem_of_app, list_elem_of_singleton; tauto].
  split; [tauto|]. intros [?|[->|?]]; tauto.
Qed.

(** ** A pass *)

Section PassTheory.
Context {PU : PostcardU32} {PUL : PostcardU32Laws} {HS : Hashing} {R : ConflictResolver} {V : Type} {VC : ValueCodec V} {IS : IdleSort} {AW : AskedWriters} {AL : AskedWritersLaws R AW}.

(** A record the engine holds has a live slot of the writer. *)
Definition holds_writer (e : Engine V) (w : WriterId) : Prop :=
  exists k rec v, engine_record e k = Some rec /\ wr_value rec = Some v /\ w ∈ asked_writers k v.

Abbreviation stripe_from e start j := (stripe_at e (Z.to_nat ((start + j) mod BUCKET_COUNT))).

Lemma scanned_elem (e : Engine V) start v l : l ∈ scanned e start 0 v <-> exists j, 0 <= j < v /\ l ∈ st_live (stripe_from e start j).
Proof.
  unfold scanned. rewrite list_elem_of_join. split.
  - intros (ls & Hl & (j & -> & Hj)%list_elem_of_fmap). apply elem_of_seqZ in Hj. exists j. split; [lia|done].
  - intros (j & Hj & Hl). eexists. split; [exact Hl|]. apply list_elem_of_fmap. exists j. split; [done|]. apply elem_of_seqZ. lia.
Qed.

Lemma scanned_bucket (e : Engine V) start v l : engine_inv e -> l ∈ scanned e start 0 v ->
  exists j, 0 <= j < v /\ bucket_of_key (live_key l) = Z.to_nat ((start + j) mod BUCKET_COUNT).
Proof.
  intros He (j & Hj & Hl)%scanned_elem. exists j. split; [done|]. set (b := Z.to_nat _) in *.
  unfold stripe_at in Hl. destruct (stripes e !! b) as [st|] eqn:Hst; [|by apply not_elem_of_nil in Hl].
  pose proof (ei_wf _ He _ _ Hst) as Hwf. cbn in Hl. apply (sw_bucket _ _ Hwf). rewrite versions_lookup, (sw_disjoint _ _ Hwf l Hl).
  unfold find_in. rewrite (find_live_unique _ _ l); [cbn; eauto|apply Hwf|done|done].
Qed.

Lemma compact_replace_elsewhere (e : Engine V) k ev nv value enc b : engine_inv e -> b <> bucket_of_key k ->
  stripe_at (compact_replace_if_current e k ev nv value enc).1 b = stripe_at e b.
Proof.
  intros He Hb. unfold compact_replace_if_current. destruct (find_slot _ _ ≫= _) as [[i live]|]; [|done].
  destruct (negb _); [done|]. destruct (set_record _ _ _) as [l resident]. destruct (encode_expiry _ _) as [x long].
  cbn [fst]. erewrite (stripe_at_insert e _ (bucket_of_key k)); [by rewrite decide_False by exact Hb| |reflexivity].
  rewrite (ei_stripes _ He). apply bucket_of_key_lt.
Qed.

Lemma compact_replace_cursor (e : Engine V) k ev nv value enc :
  compact_cursor (compact_replace_if_current e k ev nv value enc).1 = compact_cursor e.
Proof.
  unfold compact_replace_if_current. destruct (find_slot _ _ ≫= _) as [[i live]|]; [|done].
  destruct (negb _); [done|]. destruct (set_record _ _ _) as [l resident]. by destruct (encode_expiry _ _) as [x long].
Qed.

Lemma replace_all (c : InConfig V) now_ms cands : forall s n, engine_inv (in_engine s) ->
  let e' := in_engine (foldl (replace_candidate c now_ms) (s, n) cands).1 in
  engine_inv e' /\ compact_cursor e' = compact_cursor (in_engine s) /\
  (forall b, (forall cand, cand ∈ cands -> b <> bucket_of_key (cc_key_bytes cand)) -> stripe_at e' b = stripe_at (in_engine s) b) /\
  forall k rec, engine_record e' k = Some rec -> engine_record (in_engine s) k = Some rec \/
    exists cand, cand ∈ cands /\ cc_key_bytes cand = k /\ wr_value rec = Some (cc_new_encoded cand).
Proof.
  induction cands as [|cand cands IH]; intros s n He; cbn [foldl]; [split_and!; try done; by left|].
  assert (Hstep : exists s' n', replace_candidate c now_ms (s, n) cand = (s', n') /\ engine_inv (in_engine s') /\
    compact_cursor (in_engine s') = compact_cursor (in_engine s) /\
    (forall b, b <> bucket_of_key (cc_key_bytes cand) -> stripe_at (in_engine s') b = stripe_at (in_engine s) b) /\
    forall k rec, engine_record (in_engine s') k = Some rec -> engine_record (in_engine s) k = Some rec \/
      cc_key_bytes cand = k /\ wr_value rec = Some (cc_new_encoded cand)).
  { unfold replace_candidate. destruct (negb (owns_key c _)); [exists s, n; split_and!; try done; by left|].
    destruct (decode_value _) as [value|]; [|exists s, n; split_and!; try done; intros; by left].
    set (s1 := observe_derived s now_ms _). set (nv := compacted_version _ _).
    pose proof (compact_replace_exact (in_engine s1) (cc_key_bytes cand) (cc_stale_ver cand) nv value (cc_new_encoded cand) He) as Hx.
    pose proof (compact_replace_cursor (in_engine s1) (cc_key_bytes cand) (cc_stale_ver cand) nv value (cc_new_encoded cand)) as Hc.
    pose proof (fun b => compact_replace_elsewhere (in_engine s1) (cc_key_bytes cand) (cc_stale_ver cand) nv value (cc_new_encoded cand) b He) as Hs.
    destruct (compact_replace_if_current (in_engine s1) _ _ _ _ _) as [e' done]. do 2 eexists. split; [reflexivity|].
    destruct Hx as (Hinv & _ & Hrec). split; [exact Hinv|]. split; [exact Hc|]. split; [exact Hs|].
    intros k rec Hk. cbn [in_engine in_with_engine] in Hk. rewrite Hrec in Hk. destruct (decide (k = _ /\ _)) as [[-> _]|_];
      [injection Hk as <-; by right|left; exact Hk]. }
  destruct Hstep as (s' & n' & -> & He' & Hc' & Hs' & Hr'). destruct (IH s' n' He') as (H1 & H2 & H3 & H4). split_and!; [done|congruence| |].
  - intros b Hb. rewrite H3 by (intros; apply Hb; by right). apply Hs', Hb. by left.
  - intros k rec [[Hr|Hr]%Hr'|(x & Hx & Hr)]%H4; [by left|right; exists cand; split; [by left|done]|right; exists x; split; [by right|done]].
Qed.

Lemma stripe_index_small i : 0 <= i < BUCKET_COUNT -> stripe_index_from_hash i = i.
Proof.
  intros Hi. unfold stripe_index_from_hash, BUCKET_COUNT in *. change (1024 - 1) with (Z.ones 10).
  rewrite Z.land_ones by lia. by apply Z.mod_small.
Qed.

Lemma scan_candidates (e : Engine V) now_ms retire quiet bounds max cand : 0 < max ->
  cand ∈ cs_candidates (compact_scan now_ms retire quiet bounds e max).2 ->
  exists l, l ∈ scanned e (stripe_index_from_hash (compact_cursor e)) 0 (cs_stripes_visited (compact_scan now_ms retire quiet bounds e max).2) /\
    cc_key_bytes cand = live_key l /\ compact (live_key l) (record_value (lv_record l)) now_ms retire quiet bounds = Some (cc_new_encoded cand).
Proof.
  intros Hmax. unfold compact_scan. rewrite (proj2 (Z.eqb_neq _ _)) by lia. set (start := stripe_index_from_hash _).
  assert (Hstart : start = (start + 0) mod BUCKET_COUNT).
  { pose proof (stripe_index_range (compact_cursor e)). rewrite Z.add_0_r. by rewrite Z.mod_small. }
  pose proof (scan_loop_spec now_ms retire quiet bounds e (merge_cap e) max start (Z.to_nat BUCKET_COUNT) 0 start
    {| sc_out := []; sc_refused := []; sc_examined := 0 |} Hstart Hmax) as Hloop.
  destruct (scan_loop _ _ _ _ _ _ _ _ _ _ _ _) as [[a v] n]. destruct Hloop as (-> & _). cbn [snd cs_candidates cs_stripes_visited].
  intros [H|(l & Hl & Hc & _ & Hk & _)]%(scan_entries_spec now_ms retire quiet bounds); [by apply not_elem_of_nil in H|by exists l].
Qed.

(** A pass over a merging shard: it starts at the cursor, leaves every stripe it does not reach as it
    was, and asks about every live entry of the ones it does. *)
Lemma compact_pass_spec (c : InConfig V) s now_ms retire quiet bounds max : merges = true -> engine_inv (in_engine s) -> 0 < max ->
  let start := stripe_index_from_hash (compact_cursor (in_engine s)) in
  let '(s', out, asked) := compact_pass c s now_ms retire quiet bounds max in
  let v := po_stripes_visited out in
  engine_inv (in_engine s') /\ 0 < v <= BUCKET_COUNT /\
  stripe_index_from_hash (compact_cursor (in_engine s')) = (start + v) mod BUCKET_COUNT /\
  asked = asked_in (scanned (in_engine s) start 0 v) /\
  (forall w, w ∈ po_retired out <-> w ∈ asked /\ retire w = true) /\
  (forall j, v <= j < BUCKET_COUNT -> stripe_from (in_engine s') start j = stripe_from (in_engine s) start j) /\
  (forall w, w ∈ asked -> holds_writer (in_engine s) w) /\ (forall w, holds_writer (in_engine s') w -> holds_writer (in_engine s) w).
Proof.
  intros Hm He Hmax start. unfold compact_pass. rewrite Hm. cbn [negb]. fold start.
  set (q := if folds_retired_writers _ then _ else _).
  pose proof (compact_scan_sound now_ms retire q bounds (in_engine s) max He Hmax) as Hs. cbv zeta in Hs. fold start in Hs.
  pose proof (fun cand => scan_candidates (in_engine s) now_ms retire q bounds max cand Hmax) as Hcand. fold start in Hcand.
  destruct (compact_scan now_ms retire q bounds (in_engine s) max) as [e scan]. destruct Hs as (-> & Hv & _). cbn [snd] in Hcand.
  set (v := cs_stripes_visited scan) in *.
  assert (He1 : engine_inv (with_compact_cursor (in_engine s) ((start + v) mod BUCKET_COUNT))) by (by apply (engine_inv_ext (in_engine s))).
  pose proof (replace_all c now_ms (cs_candidates scan) (in_with_engine s (with_compact_cursor (in_engine s) ((start + v) mod BUCKET_COUNT))) 0
    He1) as (H1 & H2 & H3 & H4).
  assert (Hheld : forall l w, l ∈ scanned (in_engine s) start 0 v -> w ∈ asked_writers (live_key l) (record_value (lv_record l)) -> holds_writer (in_engine s) w).
  { intros l w Hl Hw. eexists _, _, _. split; [exact (scanned_live _ _ _ _ _ He Hl)|]. split; [reflexivity|exact Hw]. }
  destruct (foldl _ _ _) as [s' n]. cbn [fst] in *. split; [done|]. split; [done|]. split; [|split; [done|split; [|split; [|split]]]].
  - rewrite H2. apply stripe_index_small. unfold BUCKET_COUNT. apply Z.mod_pos_bound. lia.
  - intros w. cbn. rewrite elem_of_elements, elem_of_list_to_set, list_elem_of_filter. tauto.
  - intros j Hj. rewrite H3; [done|]. intros cand (l & Hl & -> & _)%Hcand.
    apply (scanned_bucket _ _ _ _ He) in Hl as (i & Hi & ->). unfold BUCKET_COUNT in *. cbn [po_stripes_visited] in Hj.
    pose proof (stripe_index_range (compact_cursor (in_engine s))) as Hr. fold start in Hr. unfold BUCKET_COUNT in Hr.
    intros Heq%Z2Nat.inj; [|apply Z.mod_pos_bound; lia..].
    pose proof (Z.div_mod (start + j) 1024). pose proof (Z.div_mod (start + i) 1024).
    assert (j - i = 1024 * ((start + j) / 1024 - (start + i) / 1024)) by lia. nia.
  - intros w (l & Hw & Hl)%list_elem_of_bind. by apply (Hheld l).
  - intros w (k & rec & val & Hrec & Hvl & Hw). apply H4 in Hrec as [Hrec|(cand & Hin & <- & Hval)].
    + exists k, rec, val. by split.
    + rewrite Hvl in Hval. injection Hval as ->. apply Hcand in Hin as (l & Hl & Hk & Hc). apply (Hheld l w Hl).
      rewrite Hk in Hw. by eapply asked_fewer.
Qed.

(** ** The sweep of a tick *)

Section Sweep.
Context (c : InConfig V) (cl : CompactCluster) (absence : AbsenceState) (now : Z) (wall : nat -> Z) (quiet : Quiescence) (bounds : CompactionBounds).
Context (Hm : merges = true) (Hbatch : 0 < cc_batch cl).
Context (e0 : Engine V) (u0 : UnseenState).

Abbreviation start0 := (stripe_index_from_hash (compact_cursor e0)).
Abbreviation note := (fun u w => (retire cl absence now u w).1).
Abbreviation dead w := ((retire cl absence now u0 w).2).

(** The stripes behind the cursor have been asked about, [ws] in all; the ones ahead are as the tick
    found them. *)
Record SweepInv (st : TickState V) (ws : list WriterId) : Prop := {
  si_inv : engine_inv (in_engine (ts_shard st));
  si_cursor : stripe_index_from_hash (compact_cursor (in_engine (ts_shard st))) = (start0 + ts_visited st) mod BUCKET_COUNT;
  si_pos : 0 <= ts_visited st;
  si_ahead j : ts_visited st <= j < BUCKET_COUNT -> stripe_from (in_engine (ts_shard st)) start0 j = stripe_from e0 start0 j;
  si_unseen : ts_unseen st = foldl note u0 ws;
  si_retired w : w ∈ ts_retired st <-> w ∈ ws /\ dead w = true;
  si_asked j l w : 0 <= j < Z.min (ts_visited st) BUCKET_COUNT -> l ∈ st_live (stripe_from e0 start0 j) ->
    w ∈ asked_writers (live_key l) (record_value (lv_record l)) -> w ∈ ws;
  si_met w : w ∈ ws -> holds_writer e0 w;
  si_fewer w : holds_writer (in_engine (ts_shard st)) w -> holds_writer e0 w;
}.

Lemma stripe_from_shift (e : Engine V) start v j : stripe_from e ((start + v) mod BUCKET_COUNT) j = stripe_from e start (v + j).
Proof. unfold BUCKET_COUNT. rewrite Zplus_mod_idemp_l. do 3 f_equal. lia. Qed.

Lemma sweep_step st ws pass : SweepInv st ws ->
  let '(s, out, asked) := compact_pass c (ts_shard st) (wall pass) (fun w => (retire cl absence now (ts_unseen st) w).2) quiet bounds (cc_batch cl) in
  0 < po_stripes_visited out /\
  SweepInv {| ts_shard := s; ts_unseen := foldl note (ts_unseen st) asked; ts_retired := add_retired (ts_retired st) (po_retired out);
              ts_compacted := ts_compacted st + po_compacted out; ts_visited := ts_visited st + po_stripes_visited out |} (ws ++ asked).
Proof.
  intros Hst. pose proof (compact_pass_spec c (ts_shard st) (wall pass) (fun w => (retire cl absence now (ts_unseen st) w).2) quiet bounds
    (cc_batch cl) Hm (si_inv _ _ Hst) Hbatch) as Hp. cbv zeta in Hp. rewrite (si_cursor _ _ Hst) in Hp.
  destruct (compact_pass _ _ _ _ _ _ _) as [[s out] asked]. set (v := po_stripes_visited out) in *.
  destruct Hp as (He & Hv & Hcur & Hasked & Hret & Hahead & Hmet & Hfewer). split; [lia|]. pose proof (si_pos _ _ Hst) as Hpos.
  split; cbn [ts_shard ts_unseen ts_retired ts_visited].
  - done.
  - rewrite Hcur. unfold BUCKET_COUNT. rewrite Zplus_mod_idemp_l. f_equal. lia.
  - lia.
  - intros j Hj. rewrite <-(si_ahead _ _ Hst j) by lia. specialize (Hahead (j - ts_visited st)).
    rewrite !stripe_from_shift in Hahead. replace (ts_visited st + (j - ts_visited st)) with j in Hahead by lia. apply Hahead. lia.
  - by rewrite foldl_app, (si_unseen _ _ Hst).
  - intros w. rewrite add_retired_elem, Hret, (si_retired _ _ Hst), elem_of_app.
    rewrite (retire_ext cl absence now (ts_unseen st) u0 w); [tauto|]. rewrite (si_unseen _ _ Hst). apply noted_met.
  - intros j l w Hj Hl Hw. apply elem_of_app. destruct (Z.lt_ge_cases j (ts_visited st)) as [Hlt|Hge].
    + left. by apply (si_asked _ _ Hst j l); [lia|..].
    + right. rewrite Hasked. unfold asked_in. apply list_elem_of_bind. exists l. split; [done|].
      apply scanned_elem. exists (j - ts_visited st). split; [lia|]. rewrite stripe_from_shift.
      replace (ts_visited st + (j - ts_visited st)) with j by lia. rewrite (si_ahead _ _ Hst) by lia. done.
  - intros w [Hw|Hw]%elem_of_app; [by apply (si_met _ _ Hst)|]. by apply (si_fewer _ _ Hst), Hmet.
  - intros w Hw. by apply (si_fewer _ _ Hst), Hfewer.
Qed.

(** The loop ends within a pass per stripe, having walked them all. *)
Lemma tick_loop_walks fuel : forall pass st ws, SweepInv st ws -> ts_visited st < BUCKET_COUNT ->
  BUCKET_COUNT - ts_visited st < Z.of_nat fuel ->
  exists st' ws', tick_loop fuel c cl absence now wall quiet bounds pass st = Some st' /\ SweepInv st' ws' /\ keyspace_walked (ts_visited st') = true.
Proof.
  induction fuel as [|fuel IH]; intros pass st ws Hst Hlt Hf; [lia|]. cbn [tick_loop].
  pose proof (sweep_step st ws pass Hst) as Hstep. destruct (compact_pass _ _ _ _ _ _ _) as [[s out] asked].
  destruct Hstep as (Hv & Hst'). cbv zeta. unfold sweep_is_complete. rewrite (proj2 (Z.eqb_neq _ _)) by lia. cbn [orb].
  destruct (keyspace_walked _) eqn:Hw; [by do 2 eexists|]. apply Z.leb_gt in Hw. apply (IH (S pass) _ _ Hst'); cbn; lia.
Qed.

End Sweep.

(** A live entry of the engine is in the stripe of its key. *)
Lemma sweep_start (s : InShard V) cl absence now u : engine_inv (in_engine s) ->
  SweepInv cl absence now (in_engine s) u {| ts_shard := s; ts_unseen := u; ts_retired := []; ts_compacted := 0; ts_visited := 0 |} [].
Proof.
  intros He. split; cbn; try done.
  - pose proof (stripe_index_range (compact_cursor (in_engine s))). rewrite Z.add_0_r. by rewrite Z.mod_small.
  - intros w. split; [|intros [H _]; done]. intros H. by apply not_elem_of_nil in H.
  - intros j l w Hj. lia.
  - intros w H. by apply not_elem_of_nil in H.
Qed.

(** The writers a tick asks about: those of the records the shard holds. *)
Lemma tick_spec (c : InConfig V) cl absence u bounds now wall s : merges = true -> 0 < cc_batch cl -> engine_inv (in_engine s) ->
  let absence' := prune_gone_older_than absence now (receipt_ttl_ms bounds) in
  exists s' ws retired n,
    crdt_compact_tick c cl absence u bounds now wall s =
      Some (s', absence', end_cycle (foldl (fun u w => (retire cl absence' now u w).1) u ws), retired, n) /\
    engine_inv (in_engine s') /\
    (forall w, w ∈ retired <-> w ∈ ws /\ (retire cl absence' now u w).2 = true) /\
    (forall w, w ∈ ws <-> holds_writer (in_engine s) w).
Proof.
  intros Hm Hb He absence'. unfold crdt_compact_tick. rewrite Hm. cbn [negb]. fold absence'. set (quiet := crdt_cache_is_quiet _ _ _).
  destruct (tick_loop_walks c cl absence' now wall quiet bounds Hm Hb (in_engine s) u tick_fuel 0 _ [] (sweep_start s cl absence' now u He))
    as (st & ws & -> & Hst & Hw); [done|done|].
  cbn [mbind option_bind]. rewrite Hw. pose proof (si_unseen _ _ _ _ _ _ _ Hst) as ->. exists (ts_shard st), ws, (ts_retired st), (ts_compacted st).
  split; [done|]. split; [apply Hst|]. split; [apply Hst|]. intros w. split; [apply Hst|]. intros (k & rec & v & Hrec & Hv & Hask).
  pose proof (stripe_at_lookup _ k He) as Hstripe. pose proof (ei_wf _ He _ _ Hstripe) as Hwf.
  unfold engine_record, stored_record in Hrec. set (sk := stripe_at (in_engine s) (bucket_of_key k)) in *.
  destruct (st_tombstones sk !! k) eqn:Et; [injection Hrec as <-; done|]. destruct (find_in sk k) as [l|] eqn:Ef; [|done].
  injection Hrec as <-. cbn in Hv. injection Hv as <-. pose proof Ef as [Hin Hk]%find_live_Some.
  set (start := stripe_index_from_hash (compact_cursor (in_engine s))) in *.
  pose proof (stripe_index_range (compact_cursor (in_engine s))) as Hr. fold start in Hr.
  pose proof (bucket_of_key_lt k) as Hlt. unfold BUCKET_COUNT in Hr, Hlt.
  apply (si_asked _ _ _ _ _ _ _ Hst ((Z.of_nat (bucket_of_key k) - start) mod 1024) l).
  - unfold keyspace_walked, BUCKET_COUNT in *. apply Z.leb_le in Hw. pose proof (Z.mod_pos_bound (Z.of_nat (bucket_of_key k) - start) 1024). lia.
  - fold start. unfold BUCKET_COUNT. rewrite Zplus_mod_idemp_r. replace (start + (Z.of_nat (bucket_of_key k) - start)) with (Z.of_nat (bucket_of_key k)) by lia.
    rewrite Z.mod_small, Nat2Z.id by lia. exact Hin.
  - by rewrite Hk.
Qed.

(** ** Runs of ticks *)

(** What one tick of the task finds; between ticks the shard is written and the cluster changes. *)
Record TickInput := { ti_cluster : CompactCluster; ti_absence : AbsenceState; ti_now : Z; ti_wall : nat -> Z; ti_shard : InShard V }.

Definition tick_ready (i : TickInput) : Prop := 0 < cc_batch (ti_cluster i) /\ engine_inv (in_engine (ti_shard i)).
Definition run_tick (c : InConfig V) (bounds : CompactionBounds) (u : UnseenState) (i : TickInput) :=
  crdt_compact_tick c (ti_cluster i) (ti_absence i) u bounds (ti_now i) (ti_wall i) (ti_shard i).

Definition absence_at (bounds : CompactionBounds) (i : TickInput) : AbsenceState :=
  prune_gone_older_than (ti_absence i) (ti_now i) (receipt_ttl_ms bounds).
Definition unknown_at (bounds : CompactionBounds) (w : WriterId) (i : TickInput) : Prop := unknown (ti_cluster i) (absence_at bounds i) w = true.

(** The task's ticks share what they note of unknown writers and nothing else. *)
Inductive Ticks (c : InConfig V) (bounds : CompactionBounds) : list TickInput -> UnseenState -> Prop :=
| ticks_start : Ticks c bounds [] unseen_default
| ticks_next past u i s' a' u' retired n : Ticks c bounds past u -> tick_ready i -> run_tick c bounds u i = Some (s', a', u', retired, n) ->
    Ticks c bounds (past ++ [i]) u'.

(** A tick that meets a writer of an unknown node: a record its shard holds has a live slot of the writer, and the node is
    neither up nor tracked as gone. *)
Definition sighted (bounds : CompactionBounds) (w : WriterId) (i : TickInput) : Prop := holds_writer (in_engine (ti_shard i)) w /\ unknown_at bounds w i.

(** A noted instant is that of an earlier tick which met the writer, as did every tick since. *)
Definition noted_since (bounds : CompactionBounds) (w : WriterId) (t : Z) (past : list TickInput) : Prop :=
  exists before first after, past = before ++ first :: after /\ t = ti_now first /\ Forall (sighted bounds w) (first :: after).

Lemma noted_now bounds w past i : sighted bounds w i -> noted_since bounds w (ti_now i) (past ++ [i]).
Proof. intros Hi. exists past, i, []. split_and!; [done|done|]. by constructor. Qed.

Lemma noted_next bounds w t past i : noted_since bounds w t past -> sighted bounds w i -> noted_since bounds w t (past ++ [i]).
Proof.
  intros (b & f & a & -> & -> & Ha) Hi. exists b, f, (a ++ [i]). rewrite <-app_assoc. split_and!; [done|done|].
  change (f :: a ++ [i]) with ((f :: a) ++ [i]). apply Forall_app. by split; [|constructor].
Qed.

Lemma met_since bounds w past u i : (forall t, us_first_seen u !! w = Some t -> noted_since bounds w t past) -> sighted bounds w i ->
  noted_since bounds w (default (ti_now i) (us_first_seen u !! w)) (past ++ [i]).
Proof.
  intros Hu Hi. destruct (us_first_seen u !! w) as [t|]; cbn; [by apply noted_next; [apply Hu|]|by apply noted_now].
Qed.

Lemma ticks_noted c bounds past u : merges = true -> Ticks c bounds past u ->
  us_touched u = ∅ /\ forall w t, us_first_seen u !! w = Some t -> noted_since bounds w t past.
Proof.
  intros Hm. induction 1 as [|past u i s' a' u' retired n _ [Ht IH] [Hb He] Hrun]; [by split|].
  destruct (tick_spec c (ti_cluster i) (ti_absence i) u bounds (ti_now i) (ti_wall i) (ti_shard i) Hm Hb He)
    as (s1 & ws & r1 & n1 & Hrun' & _ & _ & Hws). unfold run_tick in Hrun. rewrite Hrun' in Hrun. injection Hrun as <- <- <- <- <-. split; [done|].
  intros w t. rewrite end_cycle_seen by done. case_decide as Hw; [|done]. intros [= <-]. apply met_since; [apply IH|]. destruct Hw as [Hin Hun]. split; [by apply Hws|exact Hun].
Qed.

(** C14: A tick ends within a pass per stripe, whatever the batch size, and one tick reaches the whole
    keyspace: every writer of every record the shard holds is asked about, so every dead one among
    them is reported retired, and every one of an unknown node keeps the instant it was first met,
    or is noted at this tick. *)
Theorem one_tick_reaches_every_writer (c : InConfig V) (bounds : CompactionBounds) (past : list TickInput) (u : UnseenState) (i : TickInput)
  (Hm : merges = true) (Hrun : Ticks c bounds past u) (Hi : tick_ready i) :
  exists s' u' retired n, run_tick c bounds u i = Some (s', absence_at bounds i, u', retired, n) /\ engine_inv (in_engine s') /\
  forall k rec v w, engine_record (in_engine (ti_shard i)) k = Some rec -> wr_value rec = Some v -> w ∈ asked_writers k v ->
    ((retire (ti_cluster i) (absence_at bounds i) (ti_now i) u w).2 = true -> w ∈ retired) /\
    (unknown_at bounds w i -> us_first_seen u' !! w = Some (default (ti_now i) (us_first_seen u !! w))).
Proof.
  destruct Hi as [Hb He]. destruct (ticks_noted c bounds past u Hm Hrun) as [Ht _].
  destruct (tick_spec c (ti_cluster i) (ti_absence i) u bounds (ti_now i) (ti_wall i) (ti_shard i) Hm Hb He)
    as (s' & ws & retired & n & Htick & Hinv & Hret & Hask).
  do 4 eexists. split; [exact Htick|]. split; [done|]. intros k rec v w Hrec Hv Hw. assert (Hin : w ∈ ws) by (apply Hask; by exists k, rec, v). split.
  - intros Hd. by apply Hret.
  - intros Hun. rewrite end_cycle_seen by done. by rewrite decide_True.
Qed.

(** C13: No live writer is retired. In a cache whose resolver merges, a tick never retires its own writer; a writer it retires belongs to a
    node that is up under another incarnation, or has been tracked gone for the bound, or is
    unknown — and then the process has run for the bound and a tick at least the bound ago found a live slot of
    the writer in a record the shard held, its node unknown, as every tick from that one to this did. *)
Theorem a_retired_writer_is_dead (c : InConfig V) (bounds : CompactionBounds) (past : list TickInput) (u : UnseenState) (i : TickInput)
  s' a' u' retired n w (Hm : merges = true) (Hrun : Ticks c bounds past u) (Hi : tick_ready i)
  (Htick : run_tick c bounds u i = Some (s', a', u', retired, n)) (Hw : w ∈ retired) :
  let cl := ti_cluster i in
  let gone_for (t : Z) := cc_retire_after cl <= saturating_sub (ti_now i) t in
  w <> local_writer cl /\
  match live_incarnations cl !! wid_node w with
  | Some current => current <> wid_incarnation w
  | None =>
      match gone_since (absence_at bounds i) (wid_node w) with
      | Some t => gone_for t
      | None => exists t, noted_since bounds w t (past ++ [i]) /\ gone_for t /\ gone_for (cc_started_at cl)
      end
  end.
Proof.
  intros cl gone_for. destruct Hi as [Hb He]. destruct (ticks_noted c bounds past u Hm Hrun) as [_ Hnoted].
  destruct (tick_spec c cl (ti_absence i) u bounds (ti_now i) (ti_wall i) (ti_shard i) Hm Hb He) as (s1 & ws & r1 & n1 & Hrun' & _ & Hret & Hws).
  unfold run_tick in Htick. fold cl in Htick. rewrite Hrun' in Htick. injection Htick as <- <- <- <- <-.
  apply Hret in Hw as [Hin%Hws Hd]. fold (absence_at bounds i) in Hd. pose proof (met_since bounds w past u i (Hnoted w)) as Hmet.
  unfold sighted, unknown_at, unknown in Hmet. fold cl in Hmet. unfold retire, crdt_writer_is_retirement_eligible, incarnation_is_dead in Hd.
  destruct (live_incarnations cl !! wid_node w) as [current|]; [|destruct (gone_since (absence_at bounds i) (wid_node w)) as [t|]];
    cbn in Hd; apply andb_prop in Hd as [Hl%negb_true_iff%bool_decide_eq_false Hd]; (split; [done|]).
  - by apply negb_true_iff, Z.eqb_neq in Hd.
  - by apply Z.leb_le in Hd.
  - apply Z.leb_le in Hd. eexists. split; [by apply Hmet|]. unfold gone_for, saturating_sub in *. lia.
Qed.

End PassTheory.

(** ** The counter's writers *)

(** A counter's compaction asks about the writers of its live slots. *)
Definition PnAsked {PC : Postcard PnCounter} : AskedWriters := fun _ bytes =>
  match pn_decode bytes with
  | Some c => elements (list_to_set (map_keys (pn_p c) ++ map_keys (pn_n c)) : gset WriterId)
  | None => []
  end.

(** It reads nothing else of the predicate. *)
Lemma pn_asks {PC : Postcard PnCounter} k bytes now_ms r r' quiet bounds :
  (forall w, w ∈ PnAsked k bytes -> r w = r' w) ->
  compact (ConflictResolver := PnCounterResolver) k bytes now_ms r quiet bounds = compact (ConflictResolver := PnCounterResolver) k bytes now_ms r' quiet bounds.
Proof.
  unfold PnAsked. cbn. destruct (pn_decode bytes) as [c|]; [|done]. intros Hr. cbn. unfold pn_compact, retire_stage.
  set (ws := elements _) in *. assert (Heq : filter (fun w => r w = true) ws = filter (fun w => r' w = true) ws).
  { clearbody ws. induction ws as [|w ws IH]; [done|]. rewrite !filter_cons, (Hr w) by (by left). rewrite IH; [done|].
    intros x Hx. apply Hr. by right. }
  by rewrite Heq.
Qed.

Lemma prune_slots c now ttl c' up : pn_prune_receipts c now ttl = Some c' -> slot up c' = slot up c.
Proof. unfold pn_prune_receipts. destruct (existsb _ _); [|done]. intros [= <-]. by destruct up. Qed.

Lemma fold_writers_slots now db l : forall acc up, slot up (foldl (fold_writer now db) acc l).1 = slot up acc.1.
Proof.
  induction l as [|[w r] l IH]; intros [c b] up; [done|]. cbn [foldl]. rewrite IH. unfold fold_writer. destruct (_ <? _); [by destruct up|done].
Qed.

Lemma retire_writers_slots now ws up w : forall c x, slot up (foldl (retire_writer now) c ws) !! w = Some x -> slot up c !! w = Some x.
Proof.
  induction ws as [|w' ws IH]; intros c x; [done|]. cbn [foldl]. intros H%IH. revert H. unfold retire_writer.
  destruct up; cbn; rewrite lookup_delete_Some; by intros [_ ?].
Qed.

(** Compacting a counter makes no slot live. *)
Lemma pn_compact_slots c now retire quiet bounds c' up w x : pn_compact c now retire quiet bounds = Some c' -> slot up c' !! w = Some x -> slot up c !! w = Some x.
Proof.
  unfold pn_compact, retire_stage. set (ws := filter _ _). set (c1 := foldl _ c ws). intros Hc Hx. apply (retire_writers_slots now ws up w c x). fold c1. clearbody c1. revert Hc Hx.
  destruct (is_settled quiet); [|by destruct (negb _); [intros [= <-]|]]. unfold fold_stage.
  destruct (pn_prune_receipts c1 now _) as [c2|] eqn:Ep; [apply (prune_slots _ _ _ _ up) in Ep|]; cbn [fst].
  - pose proof (fold_writers_slots now (saturating_mul (retire_after_ms bounds) 2) (map_to_list (pn_retired c2)) (c2, true) up) as Hf.
    destruct (foldl (fold_writer _ _) _ _) as [c3 aged]. cbn in Hf. destruct (_ || _); [|done]. intros [= <-]. by rewrite Hf, Ep.
  - pose proof (fold_writers_slots now (saturating_mul (retire_after_ms bounds) 2) (map_to_list (pn_retired c1)) (c1, false) up) as Hf.
    destruct (foldl (fold_writer _ _) _ _) as [c3 aged]. cbn in Hf. destruct (_ || _); [|done]. intros [= <-]. by rewrite Hf.
Qed.

#[export] Instance pn_asked_laws {PC : Postcard PnCounter} {PL : PostcardLaws PnCounter} : AskedWritersLaws PnCounterResolver PnAsked.
Proof.
  intros k v now retire quiet bounds v' w Hc. unfold asked_writers, PnAsked.
  apply bind_Some in Hc as (c & -> & (c1 & Ec & Hc%from_to_bytes)%bind_Some).
  destruct (pn_decode v') as [c2|] eqn:Ed; [|by intros ?%not_elem_of_nil]. apply pn_decode_spec in Ed as [Ed _]. rewrite Hc in Ed. injection Ed as <-.
  rewrite !elem_of_elements, !elem_of_list_to_set, !elem_of_app, !elem_of_map_keys.
  intros [[x Hx]|[x Hx]]; [left|right]; exists x; [by apply (pn_compact_slots _ _ _ _ _ _ true w x Ec)|by apply (pn_compact_slots _ _ _ _ _ _ false w x Ec)].
Qed.

(** ** Concrete runs *)

(** A lone node, started at 0, that retires writers after 100 ms, a record at a time. *)
Definition demo_compact_cluster : CompactCluster := {|
  cc_node := 1; cc_incarnation := 5; cc_peers := []; cc_modes := ∅; cc_started_at := 0; cc_retire_after := 100; cc_batch := 1 |}.

Definition demo_counter_config : InConfig Bytes := {|
  ic_name := [99]; ic_mode := Replicated; ic_residency := None; ic_max_clock_skew_ms := None;
  ic_tombstone_ttl_ms := 60000; ic_tombstone_max_ttl_ms := 600000; ic_key_decodes := fun _ => true; ic_key_order := fmap be_key |}.

(** It holds a counter a node it never saw, 3, has counted to 5. *)
Definition counted : Bytes := default [] (pn_encode (local_delta (writer_at 3 7) 5)).
Definition counter_engine : Engine Bytes := run_writes LwwResolver empty_engine [put_at [1] counted 500 3].
Definition counter_shard : InShard Bytes := in_with_engine demo_in_shard counter_engine.

Lemma counter_engine_inv : engine_inv counter_engine.
Proof. apply run_writes_inv; [apply engine_new_inv|]. repeat constructor; vm_compute; discriminate. Qed.

Definition tick_at (now : Z) : TickInput (V := Bytes) := {|
  ti_cluster := demo_compact_cluster; ti_absence := {| as_members := ∅; as_forgot_at := None |}; ti_now := now; ti_wall := fun _ => now; ti_shard := counter_shard |}.

Abbreviation counter_tick u i := (run_tick (R := PnCounterResolver) (AW := PnAsked) demo_counter_config (three_bounds 100) u i).
Definition noted_at (now : Z) : UnseenState := {| us_first_seen := {[writer_at 3 7 := now]}; us_touched := ∅ |}.

Lemma tick_at_ready now : tick_ready (tick_at now).
Proof. split; [done|exact counter_engine_inv]. Qed.

(** What the tick at [now] returns beside the shard. *)
Definition tick_rest (r : option (InShard Bytes * AbsenceState * UnseenState * list WriterId * Z)) : option (UnseenState * list WriterId * Z) :=
  (fun r => (r.1.1.2, r.1.2, r.2)) <$> r.

Lemma tick_rest_Some r u retired n : tick_rest r = Some (u, retired, n) -> exists s a, r = Some (s, a, u, retired, n).
Proof. destruct r as [[[[[s a] u'] retired'] n']|]; [|done]. intros [= <- <- <-]. by exists s, a. Qed.

Lemma one_tick_run : Ticks (R := PnCounterResolver) (AW := PnAsked) demo_counter_config (three_bounds 100) [tick_at 1000] (noted_at 1000).
Proof.
  destruct (tick_rest_Some (counter_tick unseen_default (tick_at 1000)) (noted_at 1000) [] 0) as (s & a & Hs); [vm_compute; reflexivity|].
  exact (ticks_next _ _ [] _ (tick_at 1000) s a _ _ _ (ticks_start _ _) (tick_at_ready 1000) Hs).
Qed.

Lemma one_tick_reaches_every_writer_witness :
  exists s' u' retired n, counter_tick (noted_at 1000) (tick_at 1100) = Some (s', absence_new, u', retired, n) /\
    writer_at 3 7 ∈ retired /\ us_first_seen u' !! writer_at 3 7 = Some 1000.
Proof.
  destruct (one_tick_reaches_every_writer (R := PnCounterResolver) (AW := PnAsked) demo_counter_config (three_bounds 100) [tick_at 1000] (noted_at 1000)
    (tick_at 1100) eq_refl one_tick_run (tick_at_ready 1100)) as (s' & u' & retired & n & Ht & _ & H).
  exists s', u', retired, n. split; [exact Ht|].
  destruct (H [1] {| wr_key := [1]; wr_value := Some counted; wr_ver := stamp 500 3; wr_expires_at_ms := None |} counted (writer_at 3 7)) as [H1 H2].
  - vm_compute. reflexivity.
  - reflexivity.
  - vm_compute. left.
  - split; [apply H1; vm_compute; reflexivity|]. rewrite H2; vm_compute; reflexivity.
Defined.

(** The writer is retired at the second tick: it was met at 1000, and the node started at 0. *)
Lemma a_retired_writer_is_dead_witness :
  exists t, noted_since (V := Bytes) (AW := PnAsked) (three_bounds 100) (writer_at 3 7) t [tick_at 1000; tick_at 1100] /\ 100 <= saturating_sub 1100 t.
Proof.
  destruct (tick_rest_Some (counter_tick (noted_at 1000) (tick_at 1100)) (noted_at 1000) [writer_at 3 7] 1) as (s & a & Hs); [vm_compute; reflexivity|].
  destruct (a_retired_writer_is_dead (R := PnCounterResolver) (AW := PnAsked) demo_counter_config (three_bounds 100) [tick_at 1000] (noted_at 1000)
    (tick_at 1100) s a (noted_at 1000) [writer_at 3 7] 1 (writer_at 3 7) eq_refl one_tick_run (tick_at_ready 1100) Hs) as (_ & H); [by left|].
  destruct H as (t & H1 & H2 & _). exists t. split; [exact H1|exact H2].
Defined.
