(* ===== verification/Pending.v ===== *)
(** * Pending merges

    [store/shard_merge.rs], the folds of a coalescing window: the pending map of a shard, stripe by stripe,
    with its index by deadline, folding a call into it and taking folds out, and [PendingMerge] and its stripe
    of [store/mod.rs]. A [BTreeMap] is the list of its rows in key order; a key is its encoded bytes. *)

From S2P Require Import Prelude SkewHold Clock Part Types Record Expiry Wire Merge Arena Engine Apply Removal Evict Prefold Batch.

(** ** Definitions *)

Definition duration_ms (d : Z) : Z := Z.min d u64_max.

Definition merge_deadline_ms (started_at_ms window : Z) : Z := saturating_add started_at_ms (duration_ms window).
Definition merge_window_elapsed (now_ms deadline_ms : Z) : bool := deadline_ms <=? now_ms.
Definition pending_merge_superseded (pending_ver tombstone_ver : Hlc) : bool := hlc_ltb pending_ver tombstone_ver.
Definition folded_pending_ver (pending_ver call_ver : Hlc) : Hlc := hlc_max pending_ver call_ver.

Definition split_pending_for_clear (pending : list (Bytes * bool)) : list Bytes * list Bytes :=
  ((filter (fun p => p.2 = true) pending).*1, (filter (fun p => p.2 = false) pending).*1).

(** What a write returns when it does not succeed. *)
Inductive CacheError := ValueTooLarge (size limit : Z) | CodecFailed | CacheClosed | OverMemoryCeiling (resident ceiling : Z).

Section Pending.
Context {HS : Hashing} {R : ConflictResolver} {V : Type} {VC : ValueCodec V}.

Record PendingMerge := {
  pm_key_bytes : Bytes;
  pm_value : V;
  pm_encoded : Bytes;
  pm_expires_at_ms : option Z;
  pm_ver : Hlc;
  pm_deadline_key : Z * Z;
}.

Record PendingMergeStripe := {
  ps_entries : gmap Bytes PendingMerge;
  ps_by_deadline : list ((Z * Z) * Bytes);
  ps_next_seq : Z;
}.

Definition ps_new : PendingMergeStripe := {| ps_entries := ∅; ps_by_deadline := []; ps_next_seq := 0 |}.

(** [BTreeMap::insert] of a new row. *)
Fixpoint insert_row (r : Z * Z) (key : Bytes) (rows : list ((Z * Z) * Bytes)) : list ((Z * Z) * Bytes) :=
  match rows with
  | [] => [(r, key)]
  | (r', key') :: rows' => if slot_ltb r r' then (r, key) :: rows else (r', key') :: insert_row r key rows'
  end.

Definition ps_remove (st : PendingMergeStripe) (key : Bytes) : PendingMergeStripe * option PendingMerge :=
  match ps_entries st !! key with
  | None => (st, None)
  | Some entry =>
      ({| ps_entries := delete key (ps_entries st);
          ps_by_deadline := filter (fun row => row.1 <> pm_deadline_key entry) (ps_by_deadline st);
          ps_next_seq := ps_next_seq st |}, Some entry)
  end.

(** The due keys, and the rows left. *)
Fixpoint drain_due_deadlines (by_deadline : list ((Z * Z) * Bytes)) (now_ms : Z) : list Bytes * list ((Z * Z) * Bytes) :=
  match by_deadline with
  | [] => ([], [])
  | (row, key) :: rest =>
      if negb (merge_window_elapsed now_ms row.1) then ([], by_deadline)
      else let (due, left) := drain_due_deadlines rest now_ms in (key :: due, left)
  end.

Record Contribution := { ct_key_bytes : Bytes; ct_value : V; ct_encoded : Bytes; ct_ver : Hlc; ct_expires_at_ms : option Z }.

(** What the pending map reads of its shard. *)
Record MergeConfig := { mcf_name_len : Z; mcf_max_frame : Z; mcf_window : Z }.

Definition shard_merge_cap (c : MergeConfig) : MergeCap := {| cap_cache_len := mcf_name_len c; cap_limit := mcf_max_frame c |}.

Definition check_value_frame (c : MergeConfig) (key_len value_len : Z) : result unit CacheError :=
  if mcf_max_frame c <? replicate_frame_len (mcf_name_len c) key_len value_len
  then Err (ValueTooLarge value_len (mcf_max_frame c)) else Ok tt.

(** An entry that takes the call's content, at the newer of the two versions. *)
Definition take_call (entry : PendingMerge) (ct : Contribution) : PendingMerge := {|
  pm_key_bytes := pm_key_bytes entry; pm_value := ct_value ct; pm_encoded := ct_encoded ct; pm_expires_at_ms := ct_expires_at_ms ct;
  pm_ver := folded_pending_ver (pm_ver entry) (ct_ver ct); pm_deadline_key := pm_deadline_key entry |}.

Definition fold_into_occupied_merge (c : MergeConfig) (existing : PendingMerge) (ct : Contribution) : result PendingMerge CacheError :=
  let fold :=
    if merges then fold_sides false (pm_ver existing) (pm_expires_at_ms existing) (ct_ver ct) (ct_expires_at_ms ct) else FoldWinner in
  let a := {| rv_value := Some (pm_encoded existing); rv_ver := pm_ver existing; rv_expires_at_ms := pm_expires_at_ms existing |} in
  let b := {| rv_value := Some (ct_encoded ct); rv_ver := ct_ver ct; rv_expires_at_ms := ct_expires_at_ms ct |} in
  let merged := match fold with FoldBoth => merge (ct_key_bytes ct) a b | _ => None end in
  match fold, merged with
  | _, Some m =>
      let is_the_call := bool_decide (mg_value m = ct_encoded ct /\ mg_expires_at_ms m = ct_expires_at_ms ct) in
      if negb is_the_call && negb (admits (shard_merge_cap c) (blen (ct_key_bytes ct)) (blen (mg_value m)) (Some (blen (pm_encoded existing))))
      then Err (ValueTooLarge (blen (mg_value m)) (mcf_max_frame c))
      else
        match decode_value (mg_value m) with
        | None => Err CodecFailed
        | Some value =>
            Ok {| pm_key_bytes := pm_key_bytes existing; pm_value := value; pm_encoded := mg_value m; pm_expires_at_ms := mg_expires_at_ms m;
                  pm_ver := folded_pending_ver (pm_ver existing) (ct_ver ct); pm_deadline_key := pm_deadline_key existing |}
        end
  | FoldStored, None => Ok existing
  | FoldIncoming, None => Ok (take_call existing ct)
  | (FoldBoth | FoldWinner), None =>
      match winner (ct_key_bytes ct) a b with WinB => Ok (take_call existing ct) | WinA => Ok existing end
  end.

(** *** The pending map of a shard *)

Record PendingMerges := { pd_stripes : list PendingMergeStripe; pd_count : Z }.

Definition pending_new : PendingMerges := {| pd_stripes := replicate (Z.to_nat BUCKET_COUNT) ps_new; pd_count := 0 |}.
Definition pd_stripe (pd : PendingMerges) (i : nat) : PendingMergeStripe := default ps_new (pd_stripes pd !! i).
Definition pd_entry (pd : PendingMerges) (key : Bytes) : option PendingMerge := ps_entries (pd_stripe pd (bucket_of_key key)) !! key.
Definition pd_set (pd : PendingMerges) (i : nat) (st : PendingMergeStripe) (moved : Z) : PendingMerges :=
  {| pd_stripes := <[i := st]> (pd_stripes pd); pd_count := pd_count pd + moved |}.

Definition has_pending_merges (pd : PendingMerges) : bool := negb (pd_count pd =? 0).

(** Folding a call in; the window a vacant slot opens is counted from [now_ms]. *)
Definition fold_pending (c : MergeConfig) (pd : PendingMerges) (now_ms : Z) (ct : Contribution) : PendingMerges * result unit CacheError :=
  let key := ct_key_bytes ct in
  let i := bucket_of_key key in
  let st := pd_stripe pd i in
  match ps_entries st !! key with
  | Some existing =>
      match fold_into_occupied_merge c existing ct with
      | Err e => (pd, Err e)
      | Ok entry =>
          (pd_set pd i {| ps_entries := <[key := entry]> (ps_entries st); ps_by_deadline := ps_by_deadline st; ps_next_seq := ps_next_seq st |} 0, Ok tt)
      end
  | None =>
      let row := (merge_deadline_ms now_ms (mcf_window c), ps_next_seq st) in
      (pd_set pd i
         {| ps_entries := <[key := {| pm_key_bytes := key; pm_value := ct_value ct; pm_encoded := ct_encoded ct;
                                      pm_expires_at_ms := ct_expires_at_ms ct; pm_ver := ct_ver ct; pm_deadline_key := row |}]> (ps_entries st);
            ps_by_deadline := insert_row row key (ps_by_deadline st); ps_next_seq := ps_next_seq st + 1 |} 1, Ok tt)
  end.

Definition take_pending_merge_if (pd : PendingMerges) (key : Bytes) (superseded : Hlc -> bool) : PendingMerges * option PendingMerge :=
  let i := bucket_of_key key in
  let st := pd_stripe pd i in
  match ps_entries st !! key with
  | None => (pd, None)
  | Some entry =>
      if negb (superseded (pm_ver entry)) then (pd, None)
      else let (st, taken) := ps_remove st key in (pd_set pd i st (- (if taken is Some _ then 1 else 0)), taken)
  end.

Definition discard_pending_merge (pd : PendingMerges) (key : Bytes) : PendingMerges :=
  if negb (has_pending_merges pd) then pd else (take_pending_merge_if pd key (fun _ => true)).1.
Definition discard_pending_merge_before (pd : PendingMerges) (key : Bytes) (tombstone_ver : Hlc) : PendingMerges :=
  if negb (has_pending_merges pd) then pd else (take_pending_merge_if pd key (fun pending_ver => pending_merge_superseded pending_ver tombstone_ver)).1.

(** What a sweep selects of a stripe: the due folds, in deadline order. *)
Definition select_due (now_ms : Z) (st : PendingMergeStripe) : PendingMergeStripe * list (Bytes * PendingMerge) :=
  let (due, left) := drain_due_deadlines (ps_by_deadline st) now_ms in
  foldl (fun acc key =>
      match ps_entries acc.1 !! key with
      | Some entry => ({| ps_entries := delete key (ps_entries acc.1); ps_by_deadline := ps_by_deadline acc.1; ps_next_seq := ps_next_seq acc.1 |},
                       acc.2 ++ [(key, entry)])
      | None => acc
      end)
    ({| ps_entries := ps_entries st; ps_by_deadline := left; ps_next_seq := ps_next_seq st |}, []) due.

(** What a flush of everything selects. *)
Definition select_all (st : PendingMergeStripe) : PendingMergeStripe * list (Bytes * PendingMerge) :=
  ({| ps_entries := ∅; ps_by_deadline := []; ps_next_seq := ps_next_seq st |}, map_to_list (ps_entries st)).

Definition take_stripe (select : PendingMergeStripe -> PendingMergeStripe * list (Bytes * PendingMerge)) (pd : PendingMerges) (i : nat) :
    PendingMerges * list (Bytes * PendingMerge) :=
  let (st, due) := select (pd_stripe pd i) in
  (pd_set pd i st (- Z.of_nat (length due)), due).

Definition next_pending_merge_deadline_ms (pd : PendingMerges) : option Z :=
  foldl (fun acc st =>
      match head (ps_by_deadline st) with
      | Some (row, _) => Some (from_option (Z.min row.1) row.1 acc)
      | None => acc
      end) None (pd_stripes pd).

End Pending.
Arguments PendingMerge V : clear implicits.
Arguments PendingMergeStripe V : clear implicits.
Arguments PendingMerges V : clear implicits.
Arguments Contribution V : clear implicits.

(** ** A stripe and its index *)

Abbreviation row_lt a b := (slot_ltb a b = true).
Abbreviation rows_sorted := (StronglySorted (fun a b : (Z * Z) * Bytes => row_lt a.1 b.1)).

Lemma row_lt_irrefl r : slot_ltb r r = false.
Proof. unfold slot_ltb. lia. Qed.
Lemma row_lt_trans a b c : row_lt a b -> row_lt b c -> row_lt a c.
Proof. unfold slot_ltb. lia. Qed.
Lemma row_ge a b : slot_ltb a b = false -> a <> b -> row_lt b a.
Proof. destruct a as [a1 a2], b as [b1 b2]. unfold slot_ltb. cbn. intros H Hne. destruct (decide (a1 = b1)), (decide (a2 = b2)); subst; [done|lia..]. Qed.

Lemma insert_row_elem r k rows x : x ∈ insert_row r k rows <-> x = (r, k) \/ x ∈ rows.
Proof.
  induction rows as [|[r' k'] rows IH]; cbn; [rewrite list_elem_of_singleton, elem_of_nil; tauto|].
  destruct (slot_ltb r r'); rewrite !elem_of_cons, ?IH; tauto.
Qed.

Lemma insert_row_sorted r k rows : rows_sorted rows -> (forall x, x ∈ rows -> x.1 <> r) -> rows_sorted (insert_row r k rows).
Proof.
  induction 1 as [|[r' k'] rows Hs IH Hall]; intros Hne; cbn; [by repeat constructor|].
  destruct (slot_ltb r r') eqn:E.
  - constructor; [by constructor|]. constructor; [done|]. rewrite Forall_forall in Hall |- *. intros x Hx. eapply row_lt_trans; [exact E|]. by apply Hall.
  - constructor; [apply IH; intros; apply Hne; by right|]. rewrite Forall_forall in Hall |- *. intros x [->|Hx]%insert_row_elem; [|by apply Hall].
    cbn. apply row_ge; [done|]. intros ->. apply (Hne (r', k')); [by left|done].
Qed.

Lemma sorted_unique rows x y : rows_sorted rows -> x ∈ rows -> y ∈ rows -> x.1 = y.1 -> x = y.
Proof.
  induction 1 as [|z rows Hs IH Hall]; [by intros ?%not_elem_of_nil|]. rewrite Forall_forall in Hall.
  rewrite !elem_of_cons. intros [->|Hx] [->|Hy] Heq; [done|..].
  - specialize (Hall _ Hy). by rewrite Heq, row_lt_irrefl in Hall.
  - specialize (Hall _ Hx). by rewrite Heq, row_lt_irrefl in Hall.
  - by apply IH.
Qed.

Lemma sorted_NoDup rows : rows_sorted rows -> NoDup rows.
Proof.
  induction 1 as [|z rows Hs IH Hall]; constructor; [|done]. rewrite Forall_forall in Hall. intros Hz%Hall. by rewrite row_lt_irrefl in Hz.
Qed.

Lemma drain_due_spec rows now due left : rows_sorted rows -> drain_due_deadlines rows now = (due, left) ->
  exists front, rows = front ++ left /\ due = front.*2 /\ (forall x, x ∈ front -> x.1.1 <= now) /\ (forall x, x ∈ left -> now < x.1.1).
Proof.
  intros Hs. revert due left. induction Hs as [|[row key] rows Hs IH Hall]; intros due left; cbn.
  { intros [= <- <-]. exists []. split_and!; try done; by intros x ?%not_elem_of_nil. }
  unfold merge_window_elapsed. destruct (Z.leb_spec row.1 now) as [Hle|Hgt]; cbn [negb].
  - destruct (drain_due_deadlines rows now) as [d l] eqn:Ed. intros [= <- <-]. destruct (IH _ _ eq_refl) as (front & -> & -> & H1 & H2).
    exists ((row, key) :: front). split_and!; try done. intros x [->|Hx]%elem_of_cons; [done|by apply H1].
  - intros [= <- <-]. exists []. split_and!; try done; [by intros x ?%not_elem_of_nil|]. rewrite Forall_forall in Hall.
    intros x [->|Hx]%elem_of_cons; [done|]. specialize (Hall _ Hx). unfold slot_ltb in Hall. cbn in Hall. lia.
Qed.

Section Theory.
Context {HS : Hashing} {R : ConflictResolver} {V : Type} {VC : ValueCodec V}.

(** Entries and rows match one to one, each in the stripe of its key, and the next row is a new one. *)
Record stripe_ok (i : nat) (st : PendingMergeStripe V) : Prop := {
  so_sorted : rows_sorted (ps_by_deadline st);
  so_row key e : ps_entries st !! key = Some e -> (pm_deadline_key e, key) ∈ ps_by_deadline st;
  so_entry row key : (row, key) ∈ ps_by_deadline st -> exists e, ps_entries st !! key = Some e /\ pm_deadline_key e = row;
  so_seq row key : (row, key) ∈ ps_by_deadline st -> row.2 < ps_next_seq st;
  so_key key e : ps_entries st !! key = Some e -> pm_key_bytes e = key /\ bucket_of_key key = i;
}.

Lemma ps_new_ok i : stripe_ok i ps_new.
Proof. split; cbn; try done; [constructor|by intros row key ?%not_elem_of_nil..]. Qed.

(** Folding into an entry keeps its row. *)
Lemma replace_ok i st key e e' : stripe_ok i st -> ps_entries st !! key = Some e -> pm_key_bytes e' = pm_key_bytes e -> pm_deadline_key e' = pm_deadline_key e ->
  stripe_ok i {| ps_entries := <[key := e']> (ps_entries st); ps_by_deadline := ps_by_deadline st; ps_next_seq := ps_next_seq st |}.
Proof.
  intros [H1 H2 H3 H4 H5] He Hk Hd. split; cbn; try done.
  - intros k x. rewrite lookup_insert_Some. intros [[<- <-]|[_ Hx]]; [rewrite Hd; by apply H2|by apply H2].
  - intros row k Hr. destruct (H3 _ _ Hr) as (x & Hx & <-). destruct (decide (key = k)) as [->|Hne].
    + exists e'. rewrite lookup_insert_eq. split; [done|]. congruence.
    + exists x. by rewrite lookup_insert_ne.
  - intros k x. rewrite lookup_insert_Some. intros [[<- <-]|[_ Hx]]; [rewrite Hk; by apply H5|by apply H5].
Qed.

Lemma open_ok i st key e deadline : stripe_ok i st -> ps_entries st !! key = None -> pm_key_bytes e = key -> bucket_of_key key = i ->
  pm_deadline_key e = (deadline, ps_next_seq st) ->
  stripe_ok i {| ps_entries := <[key := e]> (ps_entries st); ps_by_deadline := insert_row (deadline, ps_next_seq st) key (ps_by_deadline st);
                 ps_next_seq := ps_next_seq st + 1 |}.
Proof.
  intros [H1 H2 H3 H4 H5] Hnone Hk Hi Hd. split; cbn.
  - apply insert_row_sorted; [done|]. intros [row k] Hx Heq. cbn in Heq. subst row. apply H4 in Hx. cbn in Hx. lia.
  - intros k x. rewrite lookup_insert_Some, insert_row_elem. intros [[<- <-]|[_ Hx]]; [left; by rewrite Hd|right; by apply H2].
  - intros row k [[= -> ->]|Hr]%insert_row_elem; [exists e; by rewrite lookup_insert_eq|].
    destruct (H3 _ _ Hr) as (x & Hx & <-). exists x. rewrite lookup_insert_ne; [done|]. congruence.
  - intros row k [[= -> ->]|Hr]%insert_row_elem; [cbn; lia|]. apply H4 in Hr. lia.
  - intros k x. rewrite lookup_insert_Some. intros [[<- <-]|[_ Hx]]; [done|by apply H5].
Qed.

Lemma remove_ok i st key e : stripe_ok i st -> ps_entries st !! key = Some e -> stripe_ok i (ps_remove st key).1.
Proof.
  intros [H1 H2 H3 H4 H5] He. unfold ps_remove. rewrite He. cbn [fst]. split; cbn.
  - clear -H1. induction H1 as [|x rows Hs IH Hall]; [constructor|]. rewrite filter_cons. case_decide; [|done].
    constructor; [done|]. rewrite Forall_forall in Hall |- *. intros y [_ Hy]%list_elem_of_filter. by apply Hall.
  - intros k x [Hne Hx]%lookup_delete_Some. apply list_elem_of_filter. split; [|by apply H2]. cbn. intros Heq.
    pose proof (sorted_unique _ _ _ H1 (H2 _ _ Hx) (H2 _ _ He)) as Hu. cbn in Hu. specialize (Hu Heq). by injection Hu.
  - intros row k [Hne Hr]%list_elem_of_filter. cbn in Hne. destruct (H3 _ _ Hr) as (x & Hx & <-). exists x. split; [|done].
    apply lookup_delete_Some. split; [|done]. intros <-. congruence.
  - intros row k [_ Hr]%list_elem_of_filter. by apply (H4 _ k).
  - intros k x [_ Hx]%lookup_delete_Some. by apply H5.
Qed.

Abbreviation st_size st := (Z.of_nat (size (ps_entries st))).

(** A selection takes exactly the entries [due] says, each once, and leaves the others. *)
Record selects (due : PendingMerge V -> bool) (i : nat) (st st' : PendingMergeStripe V) (taken : list (Bytes * PendingMerge V)) : Prop := {
  sl_ok : stripe_ok i st';
  sl_size : st_size st' = st_size st - Z.of_nat (length taken);
  sl_once : NoDup taken.*1;
  sl_taken key e : (key, e) ∈ taken <-> ps_entries st !! key = Some e /\ due e = true;
  sl_left key : ps_entries st' !! key = (e ← ps_entries st !! key; if due e then None else Some e);
}.

Lemma take_keys keys : forall (st : PendingMergeStripe V) acc, NoDup keys -> (forall key, key ∈ keys -> is_Some (ps_entries st !! key)) ->
  exists taken,
    foldl (fun acc key =>
      match ps_entries acc.1 !! key with
      | Some entry => ({| ps_entries := delete key (ps_entries acc.1); ps_by_deadline := ps_by_deadline acc.1; ps_next_seq := ps_next_seq acc.1 |},
                       acc.2 ++ [(key, entry)])
      | None => acc
      end) (st, acc) keys =
    ({| ps_entries := filter (fun kv => kv.1 ∉ keys) (ps_entries st); ps_by_deadline := ps_by_deadline st; ps_next_seq := ps_next_seq st |}, acc ++ taken) /\
    taken.*1 = keys /\ (forall key e, (key, e) ∈ taken -> ps_entries st !! key = Some e) /\
    st_size {| ps_entries := filter (fun kv => kv.1 ∉ keys) (ps_entries st); ps_by_deadline := ps_by_deadline st; ps_next_seq := ps_next_seq st |} =
      st_size st - Z.of_nat (length taken).
Proof.
  induction keys as [|key keys IH]; intros st acc Hnd Hin; cbn [foldl].
  { assert (Hf : filter (fun kv => kv.1 ∉ []) (ps_entries st) = ps_entries st).
    { apply map_filter_id. intros k e _. cbn. apply not_elem_of_nil. }
    exists []. cbn [ps_entries]. rewrite Hf, app_nil_r. split_and!; [by destruct st|done|by intros ? ? ?%not_elem_of_nil|cbn; lia]. }
  apply NoDup_cons in Hnd as [Hk Hnd]. destruct (Hin key) as [e He]; [by left|]. cbn [fst snd]. rewrite He.
  set (st1 := {| ps_entries := delete key (ps_entries st); ps_by_deadline := _; ps_next_seq := _ |}).
  destruct (IH st1 (acc ++ [(key, e)]) Hnd) as (taken & -> & Hks & Hel & Hsz).
  { intros k Hkk. cbn. rewrite lookup_delete_ne; [apply Hin; by right|]. by intros ->. }
  assert (Hf : filter (fun kv => kv.1 ∉ keys) (delete key (ps_entries st)) = filter (fun kv => kv.1 ∉ key :: keys) (ps_entries st)).
  { apply map_eq. intros k. apply option_eq. intros x. rewrite !map_lookup_filter_Some, lookup_delete_Some. cbn. rewrite not_elem_of_cons. naive_solver. }
  cbn [st1 ps_entries ps_by_deadline ps_next_seq] in *. rewrite Hf in Hsz. exists ((key, e) :: taken). split_and!.
  - rewrite Hf. by rewrite <-app_assoc.
  - cbn. by rewrite Hks.
  - intros k x [[= -> ->]|Hx]%elem_of_cons; [done|]. apply Hel in Hx. by apply lookup_delete_Some in Hx as [_ ?].
  - cbn [ps_entries]. rewrite Hsz. rewrite map_size_delete_Some by (by eexists). cbn [length].
    assert (size (ps_entries st) <> 0)%nat by (apply map_size_non_empty_iff; intros Hemp; by rewrite Hemp, lookup_empty in He). lia.
Qed.

Abbreviation due_by now := (fun e : PendingMerge V => (pm_deadline_key e).1 <=? now).

Lemma select_due_selects now i st : stripe_ok i st -> let (st', taken) := select_due now st in selects (due_by now) i st st' taken.
Proof.
  intros Hok. unfold select_due. destruct (drain_due_deadlines (ps_by_deadline st) now) as [due left] eqn:Ed.
  destruct (drain_due_spec _ _ _ _ (so_sorted _ _ Hok) Ed) as (front & Hrows & -> & Hf & Hl).
  assert (Hdue : forall key e, ps_entries st !! key = Some e -> key ∈ front.*2 <-> (pm_deadline_key e).1 <= now).
  { intros key e He. rewrite list_elem_of_fmap. split.
    - intros ([row k] & -> & Hx). cbn in *. destruct (so_entry _ _ Hok row k) as (e' & He' & <-); [rewrite Hrows; apply elem_of_app; by left|].
      assert (e' = e) as -> by congruence. by apply (Hf _ Hx).
    - intros Hle. pose proof (so_row _ _ Hok _ _ He) as Hr. rewrite Hrows in Hr. apply elem_of_app in Hr as [Hr|Hr]; [by exists (pm_deadline_key e, key)|].
      apply Hl in Hr. cbn in Hr. lia. }
  assert (Hnd : NoDup front.*2).
  { pose proof (sorted_NoDup _ (so_sorted _ _ Hok)) as Hn. rewrite Hrows in Hn. apply NoDup_app in Hn as (Hn & _ & _).
    apply (NoDup_fmap_2_strong snd); [|done]. intros [r1 k1] [r2 k2] H1 H2 Heq. cbn in Heq. subst k2.
    destruct (so_entry _ _ Hok r1 k1) as (e1 & He1 & <-); [rewrite Hrows; apply elem_of_app; by left|].
    destruct (so_entry _ _ Hok r2 k1) as (e2 & He2 & <-); [rewrite Hrows; apply elem_of_app; by left|]. congruence. }
  set (st0 := {| ps_entries := ps_entries st; ps_by_deadline := left; ps_next_seq := ps_next_seq st |}).
  destruct (take_keys front.*2 st0 [] Hnd) as (taken & -> & Hks & Hel & Hsz).
  { intros key ([row k] & -> & Hx)%list_elem_of_fmap. destruct (so_entry _ _ Hok row k) as (e & He & _); [rewrite Hrows; apply elem_of_app; by left|]. cbn. by eexists. }
  cbn [app st0 ps_entries ps_by_deadline ps_next_seq] in *.
  assert (Hleft : forall key, filter (fun kv => kv.1 ∉ front.*2) (ps_entries st) !! key = (e ← ps_entries st !! key; if due_by now e then None else Some e)).
  { intros key. destruct (ps_entries st !! key) as [e|] eqn:He; cbn.
    - destruct (Z.leb_spec (pm_deadline_key e).1 now) as [Hle|Hgt].
      + apply map_lookup_filter_None. right. intros x Hx. cbn. assert (x = e) as -> by congruence. intros Hn. by apply Hn, (Hdue _ _ He).
      + apply map_lookup_filter_Some. split; [done|]. cbn. rewrite (Hdue _ _ He). lia.
    - apply map_lookup_filter_None. by left. }
  split; cbn [ps_entries].
  - split; cbn.
    + pose proof (so_sorted _ _ Hok) as Hs. rewrite Hrows in Hs. clear -Hs. induction front as [|x front IH]; [done|]. apply StronglySorted_inv in Hs as [Hs _]. by apply IH.
    + intros key e. rewrite Hleft. intros (e0 & He & Hd)%bind_Some. destruct (Z.leb_spec (pm_deadline_key e0).1 now); [done|]. injection Hd as <-.
      pose proof (so_row _ _ Hok _ _ He) as Hr. rewrite Hrows in Hr. apply elem_of_app in Hr as [Hr|Hr]; [|done]. apply Hf in Hr. cbn in Hr. lia.
    + intros row key Hr. destruct (so_entry _ _ Hok row key) as (e & He & Hrow); [rewrite Hrows; apply elem_of_app; by right|]. exists e. split; [|done].
      rewrite Hleft, He. cbn. apply Hl in Hr. cbn in Hr. rewrite Hrow. by rewrite (proj2 (Z.leb_gt _ _) Hr).
    + intros row key Hr. apply (so_seq _ _ Hok row key). rewrite Hrows. apply elem_of_app. by right.
    + intros key e. rewrite Hleft. intros (e0 & He & Hd)%bind_Some. destruct (_ <=? _); [done|]. injection Hd as <-. by apply (so_key _ _ Hok).
  - exact Hsz.
  - by rewrite Hks.
  - intros key e. split.
    + intros Hx. pose proof (Hel _ _ Hx) as He. split; [done|]. apply Z.leb_le, (Hdue _ _ He). rewrite <-Hks. apply list_elem_of_fmap. by exists (key, e).
    + intros [He Hd]. apply Z.leb_le, (Hdue _ _ He) in Hd. rewrite <-Hks in Hd. apply list_elem_of_fmap in Hd as ([k x] & -> & Hx). cbn in *. apply Hel in Hx as Hx'. congruence.
  - exact Hleft.
Qed.

Lemma select_all_selects i st : stripe_ok i st -> let (st', taken) := select_all st in selects (fun _ => true) i st st' taken.
Proof.
  intros Hok. unfold select_all. split; cbn [ps_entries].
  - split; cbn; try done; [constructor|by intros row key ?%not_elem_of_nil..].
  - rewrite map_size_empty, length_map_to_list. lia.
  - apply NoDup_fst_map_to_list.
  - intros key e. rewrite elem_of_map_to_list. tauto.
  - intros key. rewrite lookup_empty. by destruct (ps_entries st !! key).
Qed.

(** ** The pending map *)

Record pending_ok (pd : PendingMerges V) : Prop := {
  pk_len : length (pd_stripes pd) = Z.to_nat BUCKET_COUNT;
  pk_stripe i st : pd_stripes pd !! i = Some st -> stripe_ok i st;
  pk_count : pd_count pd = sum_Z ((fun st => st_size st) <$> pd_stripes pd);
}.

Lemma pending_new_ok : pending_ok pending_new.
Proof.
  split.
  - apply length_replicate.
  - intros i st [-> _]%lookup_replicate. apply ps_new_ok.
  - cbn. rewrite fmap_replicate. cbn. rewrite map_size_empty. by induction (Z.to_nat BUCKET_COUNT).
Qed.

Lemma pd_stripe_lookup pd i : pending_ok pd -> (i < Z.to_nat BUCKET_COUNT)%nat -> pd_stripes pd !! i = Some (pd_stripe pd i).
Proof.
  intros Hok Hi. unfold pd_stripe. destruct (pd_stripes pd !! i) eqn:E; [done|]. apply lookup_ge_None in E. rewrite (pk_len _ Hok) in E. lia.
Qed.

Lemma pd_stripe_ok pd i : pending_ok pd -> stripe_ok i (pd_stripe pd i).
Proof. intros Hok. unfold pd_stripe. destruct (pd_stripes pd !! i) eqn:E; [by apply (pk_stripe _ Hok)|apply ps_new_ok]. Qed.

Lemma pd_set_ok pd i st moved : pending_ok pd -> (i < Z.to_nat BUCKET_COUNT)%nat -> stripe_ok i st -> st_size st = st_size (pd_stripe pd i) + moved ->
  pending_ok (pd_set pd i st moved) /\
  forall key, pd_entry (pd_set pd i st moved) key = if decide (bucket_of_key key = i) then ps_entries st !! key else pd_entry pd key.
Proof.
  intros Hok Hi Hst Hsz. pose proof (pd_stripe_lookup pd i Hok Hi) as Hl. split.
  - split; cbn.
    + rewrite length_insert. apply Hok.
    + intros j st'. rewrite list_lookup_insert_Some. intros [(<- & <- & _)|[_ Hj]]; [done|by apply Hok].
    + rewrite (sum_update _ _ _ _ _ Hl), (pk_count _ Hok). lia.
  - intros key. unfold pd_entry, pd_stripe. cbn. case_decide as Hb.
    + rewrite Hb, list_lookup_insert_eq; [done|]. by rewrite (pk_len _ Hok).
    + by rewrite list_lookup_insert_ne.
Qed.

(** The count is zero exactly when nothing is pending. *)
Lemma has_pending_spec pd : pending_ok pd -> has_pending_merges pd = false <-> forall key, pd_entry pd key = None.
Proof.
  intros Hok. unfold has_pending_merges. rewrite negb_false_iff, Z.eqb_eq, (pk_count _ Hok). split.
  - intros Hz key. pose proof (pd_stripe_lookup pd (bucket_of_key key) Hok (bucket_of_key_lt key)) as Hl. unfold pd_entry.
    destruct (ps_entries (pd_stripe pd (bucket_of_key key)) !! key) as [e|] eqn:He; [exfalso|done].
    assert (Hpos : 0 < st_size (pd_stripe pd (bucket_of_key key))).
    { assert (size (ps_entries (pd_stripe pd (bucket_of_key key))) <> 0)%nat
        by (apply map_size_non_empty_iff; intros Hemp; by rewrite Hemp, lookup_empty in He). lia. }
    pose proof (sum_Z_elem_le ((fun st => st_size st) <$> pd_stripes pd) (st_size (pd_stripe pd (bucket_of_key key)))) as Hle.
    rewrite Hz in Hle. assert (st_size (pd_stripe pd (bucket_of_key key)) <= 0); [|lia]. apply Hle.
    + apply Forall_forall. intros x (st & -> & _)%list_elem_of_fmap. lia.
    + apply list_elem_of_fmap. eexists. split; [done|]. by eapply list_elem_of_lookup_2.
  - intros Hnone. assert (Hall : forall st, st ∈ pd_stripes pd -> st_size st = 0).
    { intros st (i & Hi)%list_elem_of_lookup. assert (Hemp : ps_entries st = ∅); [|by rewrite Hemp, map_size_empty].
      apply map_empty. intros key. destruct (ps_entries st !! key) as [e|] eqn:He; [exfalso|done].
      destruct (so_key _ _ (pk_stripe _ Hok _ _ Hi) _ _ He) as [_ Hb]. specialize (Hnone key). unfold pd_entry, pd_stripe in Hnone.
      rewrite Hb, Hi in Hnone. cbn in Hnone. congruence. }
    clear -Hall. induction (pd_stripes pd) as [|st sts IH]; [done|]. cbn. rewrite (Hall st) by (by left). cbn. apply IH. intros x Hx. apply Hall. by right.
Qed.

Lemma fold_occupied_keeps c existing ct entry : fold_into_occupied_merge c existing ct = Ok entry ->
  pm_key_bytes entry = pm_key_bytes existing /\ pm_deadline_key entry = pm_deadline_key existing.
Proof.
  unfold fold_into_occupied_merge. repeat (case_match; try done); intros [= <-]; done.
Qed.

(** Folding a call: the key's fold is opened with a window of its own, or takes the call and keeps its
    deadline. *)
Lemma fold_pending_spec c pd now ct : pending_ok pd ->
  let '(pd', res) := fold_pending c pd now ct in
  pending_ok pd' /\ (forall key, key <> ct_key_bytes ct -> pd_entry pd' key = pd_entry pd key) /\
  match pd_entry pd (ct_key_bytes ct) with
  | Some existing =>
      match fold_into_occupied_merge c existing ct with
      | Ok entry => res = Ok tt /\ pd_entry pd' (ct_key_bytes ct) = Some entry
      | Err err => res = Err err /\ pd' = pd
      end
  | None => res = Ok tt /\ exists seq, pd_entry pd' (ct_key_bytes ct) =
      Some {| pm_key_bytes := ct_key_bytes ct; pm_value := ct_value ct; pm_encoded := ct_encoded ct; pm_expires_at_ms := ct_expires_at_ms ct;
              pm_ver := ct_ver ct; pm_deadline_key := (merge_deadline_ms now (mcf_window c), seq) |}
  end.
Proof.
  intros Hok. unfold fold_pending. set (key := ct_key_bytes ct). change (ps_entries (pd_stripe pd (bucket_of_key key)) !! key) with (pd_entry pd key).
  pose proof (pd_stripe_ok pd (bucket_of_key key) Hok) as Hst. destruct (pd_entry pd key) as [existing|] eqn:He.
  - destruct (fold_into_occupied_merge c existing ct) as [entry|err] eqn:Ef; [|done].
    destruct (fold_occupied_keeps _ _ _ _ Ef) as [Hk Hd]. pose proof (replace_ok _ _ key existing entry Hst He Hk Hd) as Hst'.
    destruct (pd_set_ok pd (bucket_of_key key) _ 0 Hok (bucket_of_key_lt key) Hst') as [Hok' Hrec].
    { cbn. rewrite map_size_insert_Some by (by eexists). lia. }
    split; [done|]. split.
    + intros k Hne. rewrite Hrec. cbn. case_decide as Hb; [|done]. rewrite lookup_insert_ne by done. unfold pd_entry. by rewrite Hb.
    + split; [done|]. rewrite Hrec, decide_True by done. cbn. by rewrite lookup_insert_eq.
  - set (e := {| pm_key_bytes := key |}). pose proof (open_ok _ _ key e (merge_deadline_ms now (mcf_window c)) Hst He eq_refl eq_refl eq_refl) as Hst'.
    destruct (pd_set_ok pd (bucket_of_key key) _ 1 Hok (bucket_of_key_lt key) Hst') as [Hok' Hrec].
    { cbn. rewrite map_size_insert_None by done. lia. }
    split; [done|]. split.
    + intros k Hne. rewrite Hrec. cbn. case_decide as Hb; [|done]. rewrite lookup_insert_ne by done. unfold pd_entry. by rewrite Hb.
    + split; [done|]. eexists. rewrite Hrec, decide_True by done. cbn. by rewrite lookup_insert_eq.
Qed.

Lemma take_pending_spec pd key superseded : pending_ok pd ->
  let '(pd', taken) := take_pending_merge_if pd key superseded in
  pending_ok pd' /\ taken = (e ← pd_entry pd key; if superseded (pm_ver e) then Some e else None) /\
  forall k, pd_entry pd' k = if decide (k = key /\ is_Some taken) then None else pd_entry pd k.
Proof.
  intros Hok. unfold take_pending_merge_if. change (ps_entries (pd_stripe pd (bucket_of_key key)) !! key) with (pd_entry pd key).
  assert (Hsame : forall (t : option (PendingMerge V)) k, t = None -> pd_entry pd k = if decide (k = key /\ is_Some t) then None else pd_entry pd k).
  { intros t k ->. rewrite decide_False; [done|]. by intros [_ []]. }
  destruct (pd_entry pd key) as [e|] eqn:He; cbn [mbind option_bind]; [|by split_and!; [..|intros; apply Hsame]].
  destruct (superseded (pm_ver e)); cbn [negb]; [|by split_and!; [..|intros; apply Hsame]].
  pose proof (remove_ok _ _ key e (pd_stripe_ok pd (bucket_of_key key) Hok) He) as Hst. unfold ps_remove in Hst |- *.
  change (ps_entries (pd_stripe pd (bucket_of_key key)) !! key) with (pd_entry pd key) in Hst |- *. rewrite He in Hst |- *. cbn [fst] in Hst.
  destruct (pd_set_ok pd (bucket_of_key key) _ (-1) Hok (bucket_of_key_lt key) Hst) as [Hok' Hrec].
  { cbn. rewrite map_size_delete_Some by (by eexists). assert (size (ps_entries (pd_stripe pd (bucket_of_key key))) <> 0)%nat; [|lia].
    apply map_size_non_empty_iff. intros Hemp. unfold pd_entry in He. by rewrite Hemp, lookup_empty in He. }
  split; [done|]. split; [done|]. intros k. rewrite Hrec. cbn. destruct (decide (k = key)) as [->|Hne].
  - rewrite (decide_True (P := key = key /\ is_Some (Some e))) by (split; [done|by eexists]). rewrite decide_True by done. by rewrite lookup_delete_eq.
  - rewrite (decide_False (P := k = key /\ is_Some (Some e))) by tauto. case_decide as Hb; [|done]. rewrite lookup_delete_ne by done. unfold pd_entry. by rewrite Hb.
Qed.

Lemma take_stripe_spec (select : PendingMergeStripe V -> PendingMergeStripe V * list (Bytes * PendingMerge V)) due pd i :
  (forall st, stripe_ok i st -> let (st', taken) := select st in selects due i st st' taken) ->
  pending_ok pd -> (i < Z.to_nat BUCKET_COUNT)%nat ->
  let '(pd', taken) := take_stripe select pd i in
  pending_ok pd' /\ NoDup taken.*1 /\ (forall key e, (key, e) ∈ taken <-> bucket_of_key key = i /\ pd_entry pd key = Some e /\ due e = true) /\
  forall key, pd_entry pd' key = (e ← pd_entry pd key; if decide (bucket_of_key key = i /\ due e = true) then None else Some e).
Proof.
  intros Hsel Hok Hi. unfold take_stripe. pose proof (Hsel _ (pd_stripe_ok pd i Hok)) as Hs. destruct (select (pd_stripe pd i)) as [st' taken].
  destruct Hs as [S1 S2 S3 S4 S5]. destruct (pd_set_ok pd i st' (- Z.of_nat (length taken)) Hok Hi S1) as [Hok' Hrec]; [lia|].
  split; [done|]. split; [done|]. split.
  - intros key e. rewrite S4. unfold pd_entry. split.
    + intros [He Hd]. destruct (so_key _ _ (pd_stripe_ok pd i Hok) _ _ He) as [_ Hb]. by rewrite Hb.
    + intros (<- & He & Hd). done.
  - intros key. rewrite Hrec. case_decide as Hb.
    + rewrite S5. unfold pd_entry. rewrite Hb. destruct (ps_entries (pd_stripe pd i) !! key) as [e|]; [|done]. cbn. destruct (due e).
      * by rewrite decide_True.
      * by rewrite decide_False by (by intros [_ ?]).
    + destruct (pd_entry pd key) as [e|]; [|done]. cbn. rewrite decide_False; [done|]. tauto.
Qed.

(** ** Taking from every stripe *)

Definition take_stripes (select : PendingMergeStripe V -> PendingMergeStripe V * list (Bytes * PendingMerge V)) (pd : PendingMerges V) (idxs : list nat) :
    PendingMerges V * list (Bytes * PendingMerge V) :=
  foldl (fun acc i => let (pd, due) := take_stripe select acc.1 i in (pd, acc.2 ++ due)) (pd, []) idxs.

Abbreviation all_stripes := (List.seq 0 (Z.to_nat BUCKET_COUNT)).

Lemma take_stripes_app select pd idxs idxs' :
  take_stripes select pd (idxs ++ idxs') =
  let (pd1, t1) := take_stripes select pd idxs in let (pd2, t2) := take_stripes select pd1 idxs' in (pd2, t1 ++ t2).
Proof.
  assert (Hacc : forall l pd acc, foldl (fun acc i => let (pd, due) := take_stripe select acc.1 i in (pd, acc.2 ++ due)) (pd, acc) l =
    let (pd2, t2) := take_stripes select pd l in (pd2, acc ++ t2)).
  { unfold take_stripes. induction l as [|i l IH]; intros pd0 acc; cbn; [by rewrite app_nil_r|]. destruct (take_stripe select pd0 i) as [pd1 due].
    rewrite IH, (IH pd1 due). destruct (foldl _ (pd1, []) l). by rewrite <-app_assoc. }
  unfold take_stripes at 1. rewrite foldl_app, Hacc. destruct (take_stripes select pd idxs) as [pd1 t1]. cbn [app]. by rewrite Hacc.
Qed.

Lemma take_stripes_spec select due idxs :
  (forall i st, stripe_ok i st -> let (st', taken) := (select : PendingMergeStripe V -> PendingMergeStripe V * list (Bytes * PendingMerge V)) st in selects due i st st' taken) ->
  NoDup idxs -> Forall (fun i => (i < Z.to_nat BUCKET_COUNT)%nat) idxs -> forall pd, pending_ok pd ->
  let '(pd', taken) := take_stripes select pd idxs in
  pending_ok pd' /\ NoDup taken.*1 /\ (forall key e, (key, e) ∈ taken <-> bucket_of_key key ∈ idxs /\ pd_entry pd key = Some e /\ due e = true) /\
  forall key, pd_entry pd' key = (e ← pd_entry pd key; if decide (bucket_of_key key ∈ idxs /\ due e = true) then None else Some e).
Proof.
  intros Hsel. induction idxs as [|i idxs IH] using rev_ind; intros Hnd Hlt pd Hok.
  { cbn. split_and!; [done|constructor| |].
    - intros key e. rewrite elem_of_nil. split; [done|]. by intros [?%not_elem_of_nil _].
    - intros key. destruct (pd_entry pd key) as [e|]; [|done]. cbn. rewrite decide_False; [done|]. by intros [?%not_elem_of_nil _]. }
  apply NoDup_app in Hnd as (Hnd & Hdis & _). apply Forall_app in Hlt as [Hlt Hi]. apply Forall_cons in Hi as [Hi _].
  rewrite take_stripes_app. specialize (IH Hnd Hlt pd Hok). destruct (take_stripes select pd idxs) as [pd1 t1]. destruct IH as (Hok1 & Hn1 & Ht1 & Hl1).
  pose proof (take_stripe_spec select due pd1 i (Hsel i) Hok1 Hi) as H2. unfold take_stripes. cbn [foldl fst snd].
  destruct (take_stripe select pd1 i) as [pd2 t2]. destruct H2 as (Hok2 & Hn2 & Ht2 & Hl2). cbn [app].
  assert (Hnin : i ∉ idxs) by (intros Hin; apply (Hdis _ Hin); by left).
  assert (Hstay : forall key, bucket_of_key key = i -> pd_entry pd1 key = pd_entry pd key).
  { intros key <-. rewrite Hl1. destruct (pd_entry pd key) as [e|]; [|done]. cbn. rewrite decide_False; [done|]. tauto. }
  assert (Ht2' : forall key e, (key, e) ∈ t2 <-> bucket_of_key key = i /\ pd_entry pd key = Some e /\ due e = true).
  { intros key e. rewrite Ht2. split; intros (Hb & He & Hd); (split; [done|]); [rewrite <-Hstay|rewrite Hstay]; done. }
  split; [done|]. split.
  - rewrite fmap_app. apply NoDup_app. split_and!; [done| |done].
    intros key ([k e] & -> & H1%Ht1)%list_elem_of_fmap ([k' e'] & Hk & H2%Ht2')%list_elem_of_fmap. cbn in *. subst k'. destruct H1 as (H1 & _), H2 as (<- & _). done.
  - split.
    + intros key e. rewrite elem_of_app, Ht1, Ht2', elem_of_app, list_elem_of_singleton. tauto.
    + intros key. rewrite Hl2, Hl1. destruct (pd_entry pd key) as [e|]; [|done]. cbn.
      destruct (decide (bucket_of_key key ∈ idxs /\ due e = true)) as [H|H]; cbn.
      * rewrite decide_True; [done|]. rewrite elem_of_app. tauto.
      * apply decide_ext. rewrite elem_of_app, list_elem_of_singleton. tauto.
Qed.

Lemma all_stripes_once : NoDup all_stripes /\ Forall (fun i => (i < Z.to_nat BUCKET_COUNT)%nat) all_stripes.
Proof. split; [apply NoDup_seq|]. apply Forall_forall. intros i Hi%list_elem_of_In%List.in_seq. lia. Qed.

Lemma all_stripes_elem key : bucket_of_key key ∈ all_stripes.
Proof. apply list_elem_of_In, List.in_seq. pose proof (bucket_of_key_lt key). lia. Qed.

(** ** Runs of operations *)

Inductive PendingOp :=
  | PFold (now_ms : Z) (ct : Contribution V)
  | PDiscard (key : Bytes)
  | PDiscardBefore (key : Bytes) (tombstone_ver : Hlc)
  | PTakeBefore (key : Bytes) (ver : Hlc)
  | PSweep (now_ms : Z)
  | PFlushAll.

(** The map after an operation, and the folds it took out to apply. *)
Definition pending_step (c : MergeConfig) (pd : PendingMerges V) (op : PendingOp) : PendingMerges V * list (Bytes * PendingMerge V) :=
  match op with
  | PFold now_ms ct => ((fold_pending c pd now_ms ct).1, [])
  | PDiscard key => (discard_pending_merge pd key, [])
  | PDiscardBefore key ver => (discard_pending_merge_before pd key ver, [])
  | PTakeBefore key ver =>
      let (pd, taken) := take_pending_merge_if pd key (fun pending_ver => pending_merge_superseded pending_ver ver) in
      (pd, from_option (fun e => [(key, e)]) [] taken)
  | PSweep now_ms => take_stripes (select_due now_ms) pd all_stripes
  | PFlushAll => take_stripes select_all pd all_stripes
  end.
Definition pending_run (c : MergeConfig) (pd : PendingMerges V) (ops : list PendingOp) : PendingMerges V := foldl (fun pd op => (pending_step c pd op).1) pd ops.

(** What an operation does to the entries: the folds it keeps are as they were, but for the one a call
    opens or joins. *)
Lemma pending_step_spec c pd op : pending_ok pd ->
  pending_ok (pending_step c pd op).1 /\
  forall key e', pd_entry (pending_step c pd op).1 key = Some e' ->
    (exists e, pd_entry pd key = Some e /\ pm_deadline_key e' = pm_deadline_key e) \/
    (exists now ct, op = PFold now ct /\ ct_key_bytes ct = key /\ pd_entry pd key = None /\ (pm_deadline_key e').1 = merge_deadline_ms now (mcf_window c)).
Proof.
  intros Hok.
  assert (Hdrop : forall k f, let pd' := (take_pending_merge_if pd k f).1 in pending_ok pd' /\ forall key e', pd_entry pd' key = Some e' -> pd_entry pd key = Some e').
  { intros k f. pose proof (take_pending_spec pd k f Hok) as H. destruct (take_pending_merge_if pd k f) as [pd' t]. destruct H as (H1 & _ & H2).
    split; [done|]. intros key e'. cbn. rewrite H2. by case_decide. }
  assert (Hsweep : forall (select : PendingMergeStripe V -> PendingMergeStripe V * list (Bytes * PendingMerge V)) due, (forall i st, stripe_ok i st -> let (st', taken) := select st in selects due i st st' taken) ->
    let pd' := (take_stripes select pd all_stripes).1 in pending_ok pd' /\ forall key e', pd_entry pd' key = Some e' -> pd_entry pd key = Some e').
  { intros select due Hsel. pose proof (take_stripes_spec select due all_stripes Hsel (proj1 all_stripes_once) (proj2 all_stripes_once) pd Hok) as H.
    destruct (take_stripes select pd all_stripes) as [pd' t]. destruct H as (H1 & _ & _ & H2). split; [done|]. intros key e'. cbn. rewrite H2.
    destruct (pd_entry pd key); [|done]. cbn. by case_decide. }
  destruct op as [now ct|k|k v|k v|now|]; cbn [pending_step fst].
  - pose proof (fold_pending_spec c pd now ct Hok) as H. destruct (fold_pending c pd now ct) as [pd' res]. cbn. destruct H as (H1 & H2 & H3). split; [done|].
    intros key e' He'. destruct (decide (key = ct_key_bytes ct)) as [->|Hne]; [|left; exists e'; by rewrite <-H2].
    destruct (pd_entry pd (ct_key_bytes ct)) as [ex|] eqn:Ex.
    + left. exists ex. split; [done|]. destruct (fold_into_occupied_merge c ex ct) as [en|err] eqn:Ef.
      * destruct H3 as [_ H3]. assert (e' = en) as -> by congruence. by apply (fold_occupied_keeps _ _ _ _ Ef).
      * destruct H3 as [_ ->]. congruence.
    + right. exists now, ct. split; [done|]. split; [done|]. split; [done|]. destruct H3 as (_ & seq & H3). rewrite H3 in He'. by injection He' as <-.
  - unfold discard_pending_merge. destruct (has_pending_merges pd); cbn [negb]; [|split; [done|]; eauto]. destruct (Hdrop k (fun _ => true)) as [H1 H2]. split; [done|]. eauto.
  - unfold discard_pending_merge_before. destruct (has_pending_merges pd); cbn [negb]; [|split; [done|]; eauto].
    destruct (Hdrop k (fun pending_ver => pending_merge_superseded pending_ver v)) as [H1 H2]. split; [done|]. eauto.
  - destruct (Hdrop k (fun pending_ver => pending_merge_superseded pending_ver v)) as [H1 H2]. destruct (take_pending_merge_if pd k _). cbn in *. split; [done|]. eauto.
  - destruct (Hsweep (select_due now) (due_by now)) as [H1 H2]; [intros i st; apply select_due_selects|]. split; [done|]. eauto.
  - destruct (Hsweep select_all (fun _ => true)) as [H1 H2]; [intros i st; apply select_all_selects|]. split; [done|]. eauto.
Qed.

(** The fold pending under [key] was opened at [opened]: by a call that found none under the key, where there has been one
    after every operation since. *)
Definition opened_at (c : MergeConfig) (ops : list PendingOp) (key : Bytes) (opened : Z) : Prop :=
  exists i ct, ops !! i = Some (PFold opened ct) /\ ct_key_bytes ct = key /\ pd_entry (pending_run c pending_new (take i ops)) key = None /\
    forall n, (i < n)%nat -> is_Some (pd_entry (pending_run c pending_new (take n ops)) key).

Lemma pending_run_spec c ops :
  pending_ok (pending_run c pending_new ops) /\
  forall key e, pd_entry (pending_run c pending_new ops) key = Some e ->
    exists opened, opened_at c ops key opened /\ (pm_deadline_key e).1 = merge_deadline_ms opened (mcf_window c).
Proof.
  induction ops as [|op ops IH] using rev_ind.
  { split; [apply pending_new_ok|]. intros key e. unfold pending_run, pd_entry, pd_stripe, pending_new. cbn.
    destruct (replicate _ _ !! _) as [st|] eqn:E; [apply lookup_replicate in E as [-> _]|]; cbn; by rewrite lookup_empty. }
  assert (Hsnoc : pending_run c pending_new (ops ++ [op]) = (pending_step c (pending_run c pending_new ops) op).1) by (unfold pending_run; by rewrite foldl_snoc).
  destruct IH as [Hok Hop]. destruct (pending_step_spec c _ op Hok) as [Hok' Hstep]. rewrite <-Hsnoc in Hok', Hstep.
  split; [done|]. intros key e He.
  assert (Hlast : forall n, (length ops < n)%nat -> is_Some (pd_entry (pending_run c pending_new (take n (ops ++ [op]))) key)).
  { intros n Hn. rewrite take_ge by (rewrite length_app; cbn; lia). by rewrite He. }
  destruct (Hstep key e He) as [(e0 & He0 & ->)|(now & ct & -> & H1 & Hnone & H2)].
  - destruct (Hop key e0 He0) as (opened & (i & ct & Hi & Hk & Hn & Hsince) & H3). exists opened. split; [|done].
    pose proof (lookup_lt_Some _ _ _ Hi) as Hlt. exists i, ct. split; [by apply lookup_app_l_Some|]. split; [done|].
    split; [by rewrite take_app_le by lia|]. intros n Hin. destruct (decide (n <= length ops)%nat); [rewrite take_app_le by lia; by apply Hsince|apply Hlast; lia].
  - exists now. split; [|done]. exists (length ops), ct. split; [by rewrite lookup_app_r, Nat.sub_diag by lia|]. split; [done|].
    split; [by rewrite take_app_le, take_ge by lia|done].
Qed.

(** The earliest deadline is that of a pending fold, and no other is earlier. *)
Lemma next_deadline_spec pd : pending_ok pd ->
  match next_pending_merge_deadline_ms pd with
  | Some d => (exists key e, pd_entry pd key = Some e /\ (pm_deadline_key e).1 = d) /\ forall key e, pd_entry pd key = Some e -> d <= (pm_deadline_key e).1
  | None => forall key, pd_entry pd key = None
  end.
Proof.
  intros Hok. unfold next_pending_merge_deadline_ms.
  set (step := fun (acc : option Z) (st : PendingMergeStripe V) => match head (ps_by_deadline st) with Some (row, _) => Some (from_option (Z.min row.1) row.1 acc) | None => acc end).
  assert (Hgen : forall sts, Forall (fun st => exists i, stripe_ok i st) sts ->
    match foldl step None sts with
    | Some d => (exists st row key, st ∈ sts /\ (row, key) ∈ ps_by_deadline st /\ row.1 = d) /\ forall st row key, st ∈ sts -> (row, key) ∈ ps_by_deadline st -> d <= row.1
    | None => forall st row key, st ∈ sts -> (row, key) ∉ ps_by_deadline st
    end).
  { induction sts as [|st sts IH] using rev_ind; intros Hall; [by intros st row key ?%not_elem_of_nil|].
    apply Forall_app in Hall as [Hall Hi]. apply Forall_cons in Hi as [[i Hi] _]. specialize (IH Hall). rewrite foldl_snoc. unfold step at 1.
    pose proof (so_sorted _ _ Hi) as Hs. destruct (ps_by_deadline st) as [|[row key] rows] eqn:Er; cbn [head].
    - destruct (foldl step None sts) as [d|].
      + destruct IH as ((st0 & row & key & H1 & H2 & H3) & H4). split; [exists st0, row, key; split_and!; try done; apply elem_of_app; by left|].
        intros st1 row1 key1 [Hin| ->%list_elem_of_singleton]%elem_of_app; [by apply H4|]. rewrite Er. by intros ?%not_elem_of_nil.
      + intros st1 row1 key1 [Hin| ->%list_elem_of_singleton]%elem_of_app; [by apply IH|]. rewrite Er. apply not_elem_of_nil.
    - apply StronglySorted_inv in Hs as [_ Hmin]. rewrite Forall_forall in Hmin.
      assert (Hfirst : forall row1 key1, (row1, key1) ∈ ps_by_deadline st -> row.1 <= row1.1).
      { intros row1 key1. rewrite Er. intros [[= -> ->]|Hin]%elem_of_cons; [done|]. apply Hmin in Hin. unfold slot_ltb in Hin. cbn in Hin. lia. }
      assert (Hmem : (row, key) ∈ ps_by_deadline st) by (rewrite Er; by left).
      destruct (foldl step None sts) as [d|]; cbn [from_option].
      + destruct IH as ((st0 & row0 & key0 & H1 & H2 & H3) & H4). split.
        * destruct (Z.min_spec row.1 d) as [[_ ->]|[_ ->]].
          -- exists st, row, key. split_and!; try done. apply elem_of_app. right. by left.
          -- exists st0, row0, key0. split_and!; try done. apply elem_of_app. by left.
        * intros st1 row1 key1 [Hin| ->%list_elem_of_singleton]%elem_of_app Hr; [specialize (H4 _ _ _ Hin Hr)|specialize (Hfirst _ _ Hr)]; lia.
      + split; [exists st, row, key; split_and!; try done; apply elem_of_app; right; by left|].
        intros st1 row1 key1 [Hin| ->%list_elem_of_singleton]%elem_of_app Hr; [by apply IH in Hr|by apply (Hfirst _ _ Hr)]. }
  specialize (Hgen (pd_stripes pd)). assert (Hall : Forall (fun st => exists i, stripe_ok i st) (pd_stripes pd)).
  { apply Forall_forall. intros st (i & Hi)%list_elem_of_lookup. exists i. by apply Hok. }
  specialize (Hgen Hall). fold step. assert (Hin : forall key e, pd_entry pd key = Some e -> exists st, st ∈ pd_stripes pd /\ (pm_deadline_key e, key) ∈ ps_by_deadline st).
  { intros key e He. exists (pd_stripe pd (bucket_of_key key)). split.
    - eapply list_elem_of_lookup_2, pd_stripe_lookup; [done|apply bucket_of_key_lt].
    - by apply (so_row _ _ (pd_stripe_ok pd _ Hok)). }
  destruct (foldl step None (pd_stripes pd)) as [d|].
  - destruct Hgen as ((st & row & key & H1 & H2 & H3) & H4). split.
    + apply list_elem_of_lookup in H1 as (i & Hi). destruct (so_entry _ _ (pk_stripe _ Hok _ _ Hi) _ _ H2) as (e & He & Hd).
      destruct (so_key _ _ (pk_stripe _ Hok _ _ Hi) _ _ He) as [_ Hb]. exists key, e. unfold pd_entry, pd_stripe. rewrite Hb, Hi. cbn. split; [done|]. congruence.
    + intros key0 e He. destruct (Hin _ _ He) as (st0 & Hs & Hr). exact (H4 _ _ _ Hs Hr).
  - intros key. destruct (pd_entry pd key) as [e|] eqn:He; [|done]. destruct (Hin _ _ He) as (st0 & Hs & Hr). by apply Hgen in Hr.
Qed.

(** C7: Whatever calls, discards, sweeps and flushes come, in any order, every pending fold is in the stripe of
    its key with exactly one row of the deadline index and every row has its fold; the shard's count is
    zero exactly when nothing is pending, so no discard is skipped over a fold; and the instant the
    sweep sleeps until is the earliest deadline there is. *)
Theorem pending_merges_stay_indexed (c : MergeConfig) (ops : list PendingOp) :
  let pd := pending_run c pending_new ops in
  pending_ok pd /\
  (has_pending_merges pd = false <-> forall key, pd_entry pd key = None) /\
  match next_pending_merge_deadline_ms pd with
  | Some d => (exists key e, pd_entry pd key = Some e /\ (pm_deadline_key e).1 = d) /\ forall key e, pd_entry pd key = Some e -> d <= (pm_deadline_key e).1
  | None => forall key, pd_entry pd key = None
  end.
Proof. intros pd. destruct (pending_run_spec c ops) as [Hok _]. split; [done|]. split; [by apply has_pending_spec|by apply next_deadline_spec]. Qed.

(** C6: A fold waits one window and no longer. A pending fold's deadline is one window after the call that opened it, the
    one that found nothing pending under the key, however many calls have joined it since; a sweep takes each fold whose
    deadline has come, once, and leaves every other as it was. *)
Theorem a_fold_waits_one_window (c : MergeConfig) (ops : list PendingOp) (now : Z) :
  let pd := pending_run c pending_new ops in
  let '(pd', taken) := pending_step c pd (PSweep now) in
  NoDup taken.*1 /\
  (forall key e, pd_entry pd key = Some e ->
     exists opened, opened_at c ops key opened /\
       if merge_deadline_ms opened (mcf_window c) <=? now then (key, e) ∈ taken /\ pd_entry pd' key = None
       else (forall e', (key, e') ∉ taken) /\ pd_entry pd' key = Some e) /\
  (forall key, pd_entry pd key = None -> pd_entry pd' key = None /\ forall e', (key, e') ∉ taken).
Proof.
  intros pd. destruct (pending_run_spec c ops) as [Hok Hopen]. cbn [pending_step].
  pose proof (take_stripes_spec (select_due now) (due_by now) all_stripes (fun i st => select_due_selects now i st)
    (proj1 all_stripes_once) (proj2 all_stripes_once) pd Hok) as H.
  destruct (take_stripes (select_due now) pd all_stripes) as [pd' taken]. destruct H as (_ & Hnd & Htaken & Hleft).
  pose proof all_stripes_elem as Hall. split; [done|]. split.
  - intros key e He. destruct (Hopen key e He) as (opened & Ho & Hd). exists opened. split; [done|]. rewrite <-Hd.
    destruct (Z.leb_spec (pm_deadline_key e).1 now) as [Hle|Hgt].
    + split; [apply Htaken; split_and!; [apply Hall|done|by apply Z.leb_le]|]. rewrite Hleft, He. cbn. rewrite decide_True; [done|]. split; [apply Hall|by apply Z.leb_le].
    + split; [intros e' (_ & He' & Hdue)%Htaken; apply Z.leb_le in Hdue; fold pd in He; rewrite He in He'; injection He' as ->; lia|].
      rewrite Hleft, He. cbn. rewrite decide_False; [done|]. intros [_ Hdue%Z.leb_le]. lia.
  - intros key He. split; [by rewrite Hleft, He|]. intros e' (_ & He' & _)%Htaken. congruence.
Qed.

(** ** Coalescing *)

(** Calls for one key, made in turn; the ones that did not get an error. *)
Definition coalesce (c : MergeConfig) (pd : PendingMerges V) (calls : list (Z * Contribution V)) : PendingMerges V * list (Contribution V) :=
  foldl (fun acc call =>
      let (pd, res) := fold_pending c acc.1 call.1 call.2 in
      (pd, acc.2 ++ match res with Ok _ => [call.2] | Err _ => [] end)) (pd, []) calls.

Definition content_of (ct : Contribution V) : Content := (ct_encoded ct, ct_expires_at_ms ct).
Abbreviation content := content_of.

Section Join.
Context (k : Bytes) (ok : Content -> Prop) (join : Content -> Content -> Content) (HR : JoinResolver R k ok join).

(** None of the calls is past its deadline at another's stamp. *)
Definition all_alive (cts : list (Contribution V)) : Prop :=
  forall a b, a ∈ cts -> b ∈ cts -> lapsed_before (ct_expires_at_ms a) (ct_ver b) = false.

(** The fold of the accepted calls: the join of their contents, at the newest of their versions. *)
Definition carries (e : PendingMerge V) (first : Contribution V) (rest : list (Contribution V)) : Prop :=
  (pm_encoded e, pm_expires_at_ms e) = foldl join (content first) (content_of <$> rest) /\
  pm_ver e = foldl hlc_max (ct_ver first) ((fun ct => ct_ver ct) <$> rest).

Lemma max_alive d v w : lapsed_before d v = false -> lapsed_before d w = false -> lapsed_before d (hlc_max v w) = false.
Proof. unfold hlc_max. by destruct (hlc_leb v w). Qed.

Lemma joined_facts (first : Contribution V) rest : Forall (fun ct => ok (content ct)) (first :: rest) ->
  ok (foldl join (content first) (content_of <$> rest)) /\
  (forall v, (forall ct, ct ∈ first :: rest -> lapsed_before (ct_expires_at_ms ct) v = false) ->
     lapsed_before (foldl join (content first) (content_of <$> rest)).2 v = false) /\
  (forall d, (forall ct, ct ∈ first :: rest -> lapsed_before d (ct_ver ct) = false) -> lapsed_before d (foldl hlc_max (ct_ver first) ((fun ct => ct_ver ct) <$> rest)) = false).
Proof.
  induction rest as [|ct rest IH] using rev_ind.
  - intros [Hok _]%Forall_cons. cbn. split_and!; [done|intros v Hv; apply Hv; by left|intros d Hd; apply Hd; by left].
  - intros Hall. assert (Hpre : Forall (fun ct => ok (content ct)) (first :: rest)).
    { apply (Forall_app _ (first :: rest) [ct]). by rewrite <-app_comm_cons in *. }
    assert (Hct : ok (content ct)) by (rewrite Forall_forall in Hall; apply Hall; right; apply elem_of_app; right; by left).
    destruct (IH Hpre) as (H1 & H2 & H3). rewrite !fmap_app. cbn [fmap list_fmap]. rewrite !foldl_app. cbn [foldl]. split_and!.
    + by apply (jr_ok (JoinResolver := HR)).
    + intros v Hv. rewrite (jr_deadline (JoinResolver := HR)) by done. apply later_deadline_lapsed; [apply H2; intros x Hx|]; apply Hv; rewrite app_comm_cons; apply elem_of_app; [by left|right; by left].
    + intros d Hd. apply max_alive; [apply H3; intros x Hx|]; apply Hd; rewrite app_comm_cons; apply elem_of_app; [by left|right; by left].
Qed.

Lemma fold_carries c e first rest ct : Forall (fun ct => ok (content ct)) (ct :: first :: rest) -> all_alive (ct :: first :: rest) ->
  ct_key_bytes ct = k -> carries e first rest ->
  match fold_into_occupied_merge c e ct with Ok e' => carries e' first (rest ++ [ct]) | Err _ => True end.
Proof.
  intros [Hct Hpre]%Forall_cons Halive Hk [Hcont Hver]. destruct (joined_facts first rest Hpre) as (Hok & Hlv & Hld).
  unfold fold_into_occupied_merge. rewrite (jr_merges (JoinResolver := HR)), Hk.
  assert (Hfold : fold_sides false (pm_ver e) (pm_expires_at_ms e) (ct_ver ct) (ct_expires_at_ms ct) = FoldBoth).
  { unfold fold_sides. cbn [orb]. assert (Hd : pm_expires_at_ms e = (foldl join (content first) (content_of <$> rest)).2) by (by rewrite <-Hcont).
    rewrite Hd, Hlv, Hver, Hld; [done|..]; intros x Hx; apply Halive; (by left) || (by right). }
  rewrite Hfold. rewrite <-Hcont in Hok.
  rewrite (jr_merge (JoinResolver := HR) _ _ (pm_encoded e, pm_expires_at_ms e) (content ct)) by done. cbn [mg_value mg_expires_at_ms].
  destruct (_ && _); [done|]. destruct (decode_value _) as [value|]; [|done]. unfold carries. cbn.
  rewrite !fmap_app. cbn [fmap list_fmap]. rewrite !foldl_app. cbn [foldl]. rewrite <-Hcont, <-Hver. split; [by rewrite <-surjective_pairing|done].
Qed.

Lemma coalesce_app c pd l call :
  coalesce c pd (l ++ [call]) =
  let (pd1, acc) := coalesce c pd l in let (pd2, res) := fold_pending c pd1 call.1 call.2 in (pd2, acc ++ match res with Ok _ => [call.2] | Err _ => [] end).
Proof. unfold coalesce. rewrite foldl_snoc. by destruct (foldl _ (pd, []) l) as [pd1 acc]. Qed.


End Join.
End Theory.

(** ** Concrete runs *)

Definition max_call (v t : Z) : Contribution Bytes := {| ct_key_bytes := [1]; ct_value := [v]; ct_encoded := [v]; ct_ver := stamp t 1; ct_expires_at_ms := None |}.
Definition demo_merge_config : MergeConfig := {| mcf_name_len := 1; mcf_max_frame := 4194304; mcf_window := 100 |}.

