(* ===== verification/LocalWrite.v ===== *)
(** * Local writes

    [store/shard_write.rs] and the merge path of [store/shard_merge.rs]: single and bulk inserts and
    removes, [clear], merges with and without a coalescing window, the flush of pending folds, and the
    apply-or-forward tail they share, over the engine, the clock, the fan-out queue and the pending map of
    one shard. A key is its encoded bytes and [encode_value] is total, so a write never fails to encode;
    only a bulk remove, which such a failure leaves half done, takes keys that may not. The reads of the
    clock within one call are one instant. *)

From S2P Require Import Prelude SkewHold Clock Part Types Record Expiry Sketch Wire Merge Arena Engine Apply Removal Evict Prefold Batch Read Serve Ownership FanOut Mesh PeerServe Inbound Pending.

(** ** Definitions *)

Inductive Origin := OriginLocal | OriginRemote.

Section LocalWrite.
Context {PU : PostcardU32} {HS : Hashing} {R : ConflictResolver} {V : Type} {VC : ValueCodec V} {IS : IdleSort}.

Inductive CacheEvent := Created (key : Bytes) (value : V) (origin : Origin) | Updated (key : Bytes) (value : V) (origin : Origin) | Removed (key : Bytes) (origin : Origin).

(** What a shard writes under. The order in which a batch's pre-fold lists its keys comes with it. *)
Record WConfig := {
  wc_name : Bytes;
  wc_ownership : option OwnershipView;
  wc_max_frame : Z;
  wc_ttl : option Z;
  wc_merge_window : Z;
  wc_tombstone_ttl_ms : Z;
  wc_tombstone_max_ttl_ms : Z;
  wc_max_resident_bytes : Z;
  wc_listening : bool;
  wc_key_order : list (BatchEntry V) -> list Bytes;
}.

(** The store, the clock, the fan-out queue, the pending folds, the numbers drawn, the events sent and
    the merges refused for their size. *)
Record WShard := {
  ws_engine : Engine V;
  ws_clock : HlcClock.HlcClock;
  ws_queue : FanOutQueue;
  ws_pending : PendingMerges V;
  ws_merge_seq : Z;
  ws_events : list CacheEvent;
  ws_merge_refused : Z;
}.

Definition with_engine (s : WShard) (e : Engine V) : WShard := {|
  ws_engine := e; ws_clock := ws_clock s; ws_queue := ws_queue s; ws_pending := ws_pending s; ws_merge_seq := ws_merge_seq s;
  ws_events := ws_events s; ws_merge_refused := ws_merge_refused s |}.
Definition with_clock (s : WShard) (c : HlcClock.HlcClock) : WShard := {|
  ws_engine := ws_engine s; ws_clock := c; ws_queue := ws_queue s; ws_pending := ws_pending s; ws_merge_seq := ws_merge_seq s;
  ws_events := ws_events s; ws_merge_refused := ws_merge_refused s |}.
Definition with_queue (s : WShard) (q : FanOutQueue) : WShard := {|
  ws_engine := ws_engine s; ws_clock := ws_clock s; ws_queue := q; ws_pending := ws_pending s; ws_merge_seq := ws_merge_seq s;
  ws_events := ws_events s; ws_merge_refused := ws_merge_refused s |}.
Definition with_pending (s : WShard) (pd : PendingMerges V) : WShard := {|
  ws_engine := ws_engine s; ws_clock := ws_clock s; ws_queue := ws_queue s; ws_pending := pd; ws_merge_seq := ws_merge_seq s;
  ws_events := ws_events s; ws_merge_refused := ws_merge_refused s |}.
Definition with_merge_seq (s : WShard) (n : Z) : WShard := {|
  ws_engine := ws_engine s; ws_clock := ws_clock s; ws_queue := ws_queue s; ws_pending := ws_pending s; ws_merge_seq := n;
  ws_events := ws_events s; ws_merge_refused := ws_merge_refused s |}.
Definition count_merge_refused (s : WShard) : WShard := {|
  ws_engine := ws_engine s; ws_clock := ws_clock s; ws_queue := ws_queue s; ws_pending := ws_pending s; ws_merge_seq := ws_merge_seq s;
  ws_events := ws_events s; ws_merge_refused := ws_merge_refused s + 1 |}.
Definition send_event (c : WConfig) (s : WShard) (ev : CacheEvent) : WShard := {|
  ws_engine := ws_engine s; ws_clock := ws_clock s; ws_queue := ws_queue s; ws_pending := ws_pending s; ws_merge_seq := ws_merge_seq s;
  ws_events := if wc_listening c then ws_events s ++ [ev] else ws_events s; ws_merge_refused := ws_merge_refused s |}.

Definition merge_config (c : WConfig) : MergeConfig := {| mcf_name_len := blen (wc_name c); mcf_max_frame := wc_max_frame c; mcf_window := wc_merge_window c |}.

(** *** The gates *)

Definition at_ceiling (c : WConfig) (s : WShard) : option Z :=
  resident_bytes ← Engine.resident_bytes (totals (ws_engine s));
  if wc_max_resident_bytes c <=? resident_bytes then Some resident_bytes else None.

Definition check_ceiling (c : WConfig) (s : WShard) : result unit CacheError :=
  match at_ceiling c s with None => Ok tt | Some resident_bytes => Err (OverMemoryCeiling resident_bytes (wc_max_resident_bytes c)) end.

Definition owns_key_here (c : WConfig) (key : Bytes) : bool := is_none_or (wc_ownership c) (fun view => owns view (pid_of_key key)).

Definition stamp_local (s : WShard) (now_ms : Z) : WShard * Hlc := let (clock, stamp) := HlcClock.now (ws_clock s) now_ms in (with_clock s clock, stamp).

Definition expiry_for (c : WConfig) (now_ms stamp_wall_ms : Z) (ttl : option Z) : option Z :=
  let base := if merges then Z.max now_ms stamp_wall_ms else now_ms in
  (fun d => saturating_add base (duration_ms d)) <$> (match ttl with Some d => Some d | None => wc_ttl c end).

(** *** Applying and forwarding *)

Definition handle_apply_outcome (c : WConfig) (s : WShard) (outcome : ApplyOutcome V) (origin : Origin) (notify_fan_out : bool) : WShard :=
  let notify (s : WShard) key ver :=
    match origin with OriginLocal => if notify_fan_out then with_queue s (push_item (ws_queue s) (Applied key ver)).1 else s | OriginRemote => s end in
  match outcome with
  | ORejected => s
  | OTooLarge _ _ => count_merge_refused s
  | OPut key value created version =>
      send_event c (notify s key version) (if created then Created key value origin else Updated key value origin)
  | OTombstoned key version =>
      let s := match origin with OriginLocal => s | OriginRemote => with_pending s (discard_pending_merge_before (ws_pending s) key version) end in
      send_event c (notify s key version) (Removed key origin)
  end.

(** The outer [None] is the eviction loop's fuel, or an empty list of outcomes. *)
Definition apply (c : WConfig) (s : WShard) (key : Bytes) (ver : Hlc) (incoming : Incoming V) (origin : Origin) (now_ms : Z) :
    option (WShard * result unit CacheError) :=
  let entry := {| be_key := key; be_ver := ver; be_incoming := incoming |} in
  '(e, _, outcomes, _) ← apply_many_with_reservation (ws_engine s) ALocal (bucket_of_key key) (wc_key_order c [entry]) [entry]
    (wc_tombstone_ttl_ms c) (wc_tombstone_max_ttl_ms c) now_ms written_default;
  outcome ← last outcomes;
  let s := handle_apply_outcome c (with_engine s e) outcome origin true in
  Some (s, from_option (fun size => Err (ValueTooLarge size (wc_max_frame c))) (Ok tt) (too_large outcome)).

Definition forward_write (c : WConfig) (s : WShard) (key : Bytes) (incoming : Incoming V) (ver : Hlc) : WShard * WireRecord :=
  match incoming with
  | Put value expires_at_ms encoded =>
      (send_event c s (Created key value OriginLocal), {| wr_key := key; wr_value := Some encoded; wr_ver := ver; wr_expires_at_ms := expires_at_ms |})
  | IncTombstone _ => (send_event c s (Removed key OriginLocal), {| wr_key := key; wr_value := None; wr_ver := ver; wr_expires_at_ms := None |})
  end.

Definition apply_or_forward (c : WConfig) (s : WShard) (key : Bytes) (ver : Hlc) (incoming : Incoming V) (now_ms : Z) :
    option (WShard * result unit CacheError) :=
  if negb (owns_key_here c key) then
    let (s, rec) := forward_write c s key incoming ver in
    let (q, queued) := push_item (ws_queue s) (Forward rec) in
    Some (with_queue s q, if queued then Ok tt else Err CacheClosed)
  else apply c s key ver incoming OriginLocal now_ms.

(** *** Single writes *)

Definition insert_expiring (c : WConfig) (s : WShard) (key : Bytes) (value : V) (ttl : option Z) (now_ms : Z) : option (WShard * result unit CacheError) :=
  match check_ceiling c s with
  | Err err => Some (s, Err err)
  | Ok _ =>
      let encoded := encode_value value in
      let (s, ver) := stamp_local s now_ms in
      let expires_at_ms := expiry_for c now_ms (wall_ms ver) ttl in
      if wc_max_frame c <? replicate_frame_len (blen (wc_name c)) (blen key) (blen encoded) then Some (s, Err (ValueTooLarge (blen encoded) (wc_max_frame c)))
      else apply_or_forward c s key ver (Put value expires_at_ms encoded) now_ms
  end.

Definition remove_sync (c : WConfig) (s : WShard) (key : Bytes) (now_ms : Z) : option (WShard * result unit CacheError) :=
  let s := with_pending s (discard_pending_merge (ws_pending s) key) in
  let (s, ver) := stamp_local s now_ms in
  apply_or_forward c s key ver DELETE now_ms.

(** *** Bulk writes *)

Record Prepared := { pr_key : Bytes; pr_ver : Hlc; pr_incoming : Incoming V }.

Definition partition_owned (c : WConfig) (prepared : list Prepared) : list Prepared * list Prepared :=
  match wc_ownership c with
  | Some view => (filter (fun p => owns view (pid_of_key (pr_key p)) = true) prepared, filter (fun p => owns view (pid_of_key (pr_key p)) = false) prepared)
  | None => (prepared, [])
  end.

(** The forwards, queued a full batch at a time; [false] once the queue refuses. *)
Fixpoint forward_loop (c : WConfig) (s : WShard) (landed : list WireRecord) (prepared : list Prepared) : WShard * bool :=
  match prepared with
  | [] => let (q, queued) := extend (ws_queue s) (Forward <$> landed) in (with_queue s q, queued)
  | p :: prepared =>
      let (s, rec) := forward_write c s (pr_key p) (pr_incoming p) (pr_ver p) in
      let landed := landed ++ [rec] in
      if REPLICATE_BATCH_COUNT <=? Z.of_nat (length landed) then
        let (q, queued) := extend (ws_queue s) (Forward <$> landed) in
        if queued then forward_loop c (with_queue s q) [] prepared else (with_queue s q, false)
      else forward_loop c s landed prepared
  end.

Definition forward_prepared (c : WConfig) (s : WShard) (prepared : list Prepared) : WShard * bool :=
  match prepared with [] => (s, true) | _ => forward_loop c s [] prepared end.

Definition hand_off_bulk (s : WShard) (landed : list (Bytes * Hlc)) (flush : bool) : WShard * list (Bytes * Hlc) :=
  if bool_decide (landed = []) || (negb flush && (Z.of_nat (length landed) <? REPLICATE_BATCH_COUNT)) then (s, landed)
  else (with_queue s (extend (ws_queue s) ((fun kv => Applied kv.1 kv.2) <$> landed)).1, []).

(** The walk over the stripes in call order; [seen] counts each stripe's entries so far. *)
Fixpoint refusal_loop (first : gmap nat (nat * Z)) (seen : gmap nat nat) (stripe_of : list nat) : option Z :=
  match stripe_of with
  | [] => None
  | stripe :: rest =>
      let index := default 0%nat (seen !! stripe) in
      match first !! stripe with
      | Some (refused, size) => if (refused =? index)%nat then Some size else refusal_loop first (<[stripe := S index]> seen) rest
      | None => refusal_loop first (<[stripe := S index]> seen) rest
      end
  end.

Definition first_refusal_in_call_order (stripe_of : list nat) (first_refused : list (nat * nat * Z)) : option Z :=
  if bool_decide (first_refused = []) then None
  else refusal_loop (foldl (fun m x => <[x.1.1 := (x.1.2, x.2)]> m) ∅ first_refused) ∅ stripe_of.

(** What one stripe's outcomes add: the keys applied and the stripe's first refusal. *)
Definition note_outcome (c : WConfig) (bucket : nat) (acc : WShard * list (Bytes * Hlc) * list (nat * nat * Z)) (io : nat * ApplyOutcome V) :
    WShard * list (Bytes * Hlc) * list (nat * nat * Z) :=
  let '(s, applied_keys, first_refused) := acc in
  let '(index, outcome) := io in
  let applied_keys := applied_keys ++ match outcome with OPut key _ _ ver | OTombstoned key ver => [(key, ver)] | _ => [] end in
  let first_refused :=
    match too_large outcome with
    | Some size => if is_none_or (last first_refused) (fun x => negb (x.1.1 =? bucket)%nat) then first_refused ++ [(bucket, index, size)] else first_refused
    | None => first_refused
    end in
  (handle_apply_outcome c s outcome OriginLocal false, applied_keys, first_refused).

Record GroupState := { gs_shard : WShard; gs_applied : list (Bytes * Hlc); gs_written : Written; gs_refused : list (nat * nat * Z) }.

Definition group_step (c : WConfig) (entries : list (BatchEntry V)) (now_ms : Z) (acc : option GroupState) (bucket : nat) : option GroupState :=
  g ← acc;
  let group := filter (fun en => bucket_of_key (be_key en) = bucket) entries in
  match group with
  | [] => Some g
  | _ =>
      '(e, written, outcomes, _) ← apply_many_with_reservation (ws_engine (gs_shard g)) ALocal bucket (wc_key_order c group) group
        (wc_tombstone_ttl_ms c) (wc_tombstone_max_ttl_ms c) now_ms (gs_written g);
      let '(s, applied, refused) := foldl (note_outcome c bucket) (with_engine (gs_shard g) e, gs_applied g, gs_refused g) (imap pair outcomes) in
      let '(s, applied) := hand_off_bulk s applied false in
      Some {| gs_shard := s; gs_applied := applied; gs_written := written; gs_refused := refused |}
  end.

Definition apply_grouped (c : WConfig) (s : WShard) (prepared : list Prepared) (now_ms : Z) : option (WShard * result unit CacheError) :=
  let entries := (fun p => {| be_key := pr_key p; be_ver := pr_ver p; be_incoming := pr_incoming p |}) <$> prepared in
  g ← foldl (group_step c entries now_ms) (Some {| gs_shard := s; gs_applied := []; gs_written := written_default; gs_refused := [] |})
        (List.seq 0 (Z.to_nat BUCKET_COUNT));
  let '(s, _) := hand_off_bulk (gs_shard g) (gs_applied g) true in
  Some (s, from_option (fun size => Err (ValueTooLarge size (wc_max_frame c))) (Ok tt)
          (first_refusal_in_call_order ((fun en => bucket_of_key (be_key en)) <$> entries) (gs_refused g))).

(** The entries prepared before the first that does not fit a frame, and its error. *)
Fixpoint prepare_inserts (c : WConfig) (s : WShard) (entries : list (Bytes * V)) (ttl : option Z) (now_ms : Z) : WShard * list Prepared * option CacheError :=
  match entries with
  | [] => (s, [], None)
  | (key, value) :: entries =>
      let encoded := encode_value value in
      let (s, ver) := stamp_local s now_ms in
      let expires_at_ms := expiry_for c now_ms (wall_ms ver) ttl in
      if wc_max_frame c <? replicate_frame_len (blen (wc_name c)) (blen key) (blen encoded) then (s, [], Some (ValueTooLarge (blen encoded) (wc_max_frame c)))
      else
        let '(s, prepared, failure) := prepare_inserts c s entries ttl now_ms in
        (s, {| pr_key := key; pr_ver := ver; pr_incoming := Put value expires_at_ms encoded |} :: prepared, failure)
  end.

(** The tail bulk inserts and removes share. *)
Definition write_prepared (c : WConfig) (s : WShard) (prepared : list Prepared) (now_ms : Z) : option (WShard * result unit CacheError) :=
  let '(owned, forwarded) := partition_owned c prepared in
  let '(s, queued) := forward_prepared c s forwarded in
  if negb queued then Some (s, Err CacheClosed) else apply_grouped c s owned now_ms.

Definition insert_many_expiring (c : WConfig) (s : WShard) (entries : list (Bytes * V)) (ttl : option Z) (now_ms : Z) : option (WShard * result unit CacheError) :=
  match check_ceiling c s with
  | Err err => Some (s, Err err)
  | Ok _ =>
      let '(s, prepared, failure) := prepare_inserts c s entries ttl now_ms in
      let '(owned, forwarded) := partition_owned c prepared in
      let '(s, queued) := forward_prepared c s forwarded in
      if negb queued then Some (s, Err CacheClosed)
      else
        '(s, applied) ← apply_grouped c s owned now_ms;
        Some (s, match failure with Some err => Err err | None => applied end)
  end.

(** The tombstones stamped for a bulk remove. [None] is a key that does not encode: the call ends
    there, with the folds of the keys before it discarded. *)
Fixpoint prepare_removes (now_ms : Z) (s : WShard) (ks : list (option Bytes)) (prepared : list Prepared) : WShard * result (list Prepared) CacheError :=
  match ks with
  | [] => (s, Ok prepared)
  | None :: _ => (s, Err CodecFailed)
  | Some key :: ks =>
      let s := with_pending s (discard_pending_merge (ws_pending s) key) in
      let (s, ver) := stamp_local s now_ms in
      prepare_removes now_ms s ks (prepared ++ [{| pr_key := key; pr_ver := ver; pr_incoming := DELETE |}])
  end.

Definition remove_many (c : WConfig) (s : WShard) (ks : list (option Bytes)) (now_ms : Z) : option (WShard * result unit CacheError) :=
  match prepare_removes now_ms s ks [] with
  | (s, Err err) => Some (s, Err err)
  | (s, Ok prepared) => write_prepared c s prepared now_ms
  end.

(** *** Merges *)

(** Folding a call in, a refusal counted. *)
Definition fold_call (c : WConfig) (s : WShard) (now_ms : Z) (ct : Contribution V) : WShard * result unit CacheError :=
  let (pd, res) := fold_pending (merge_config c) (ws_pending s) now_ms ct in
  let s := with_pending s pd in
  (match res with Err (ValueTooLarge _ _) => count_merge_refused s | _ => s end, res).

Definition merge_expiring (c : WConfig) (s : WShard) (key : Bytes) (value : V) (ttl : option Z) (now_ms : Z) : option (WShard * result unit CacheError) :=
  match check_ceiling c s with
  | Err err => Some (s, Err err)
  | Ok _ =>
      let encoded := encode_value value in
      match check_value_frame (merge_config c) (blen key) (blen encoded) with
      | Err err => Some (s, Err err)
      | Ok _ =>
          let (s, ver) := stamp_local s now_ms in
          let expires_at_ms := expiry_for c now_ms (wall_ms ver) ttl in
          if wc_merge_window c =? 0 then apply_or_forward c s key ver (Put value expires_at_ms encoded) now_ms
          else
            Some (fold_call c s now_ms {| ct_key_bytes := key; ct_value := value; ct_encoded := encoded; ct_ver := ver; ct_expires_at_ms := expires_at_ms |})
      end
  end.

Definition draw_merge_seq (s : WShard) : WShard * Z := (with_merge_seq s (ws_merge_seq s + 1), ws_merge_seq s + 1).

Definition merge_sequenced_expiring (c : WConfig) (s : WShard) (key : Bytes) (writer : WriterId) (make : WriterId -> Z -> V) (ttl : option Z) (now_ms : Z) :
    option (WShard * result unit CacheError) :=
  match check_ceiling c s with
  | Err err => Some (s, Err err)
  | Ok _ =>
      let (s, seq) := draw_merge_seq s in
      let value := make writer seq in
      let encoded := encode_value value in
      match check_value_frame (merge_config c) (blen key) (blen encoded) with
      | Err err => Some (s, Err err)
      | Ok _ =>
          let (s, ver) := stamp_local s now_ms in
          let expires_at_ms := expiry_for c now_ms (wall_ms ver) ttl in
          if negb (wc_merge_window c =? 0) then
            Some (fold_call c s now_ms {| ct_key_bytes := key; ct_value := value; ct_encoded := encoded; ct_ver := ver; ct_expires_at_ms := expires_at_ms |})
          else apply_or_forward c s key ver (Put value expires_at_ms encoded) now_ms
      end
  end.

(** A taken fold lands at its last call's version; an error has nobody to go to. *)
Definition flush_one_pending_merge (c : WConfig) (now_ms : Z) (acc : option WShard) (kp : Bytes * PendingMerge V) : option WShard :=
  s ← acc;
  let '(key, pending) := kp in
  '(s, _) ← apply_or_forward c s (pm_key_bytes pending) (pm_ver pending) (Put (pm_value pending) (pm_expires_at_ms pending) (pm_encoded pending)) now_ms;
  Some s.

Definition flush_stripe (c : WConfig) (now_ms : Z) (select : PendingMergeStripe V -> PendingMergeStripe V * list (Bytes * PendingMerge V))
    (acc : option WShard) (index : nat) : option WShard :=
  s ← acc;
  let (pd, due) := take_stripe select (ws_pending s) index in
  foldl (flush_one_pending_merge c now_ms) (Some (with_pending s pd)) due.

Definition flush_due_pending_merges (c : WConfig) (s : WShard) (now_ms : Z) : option WShard :=
  foldl (flush_stripe c now_ms (select_due now_ms)) (Some s) (List.seq 0 (Z.to_nat BUCKET_COUNT)).
Definition flush_all_pending_merges (c : WConfig) (s : WShard) (now_ms : Z) : option WShard :=
  foldl (flush_stripe c now_ms select_all) (Some s) (List.seq 0 (Z.to_nat BUCKET_COUNT)).

Definition flush_pending_merge_before (c : WConfig) (s : WShard) (key : Bytes) (ver : Hlc) (now_ms : Z) : option WShard :=
  if negb (has_pending_merges (ws_pending s)) then Some s
  else
    let (pd, taken) := take_pending_merge_if (ws_pending s) key (fun pending_ver => pending_merge_superseded pending_ver ver) in
    from_option (fun pending => flush_one_pending_merge c now_ms (Some (with_pending s pd)) (key, pending)) (Some (with_pending s pd)) taken.

(** One stripe of a clear's split: the owned keys are kept, the others' folds taken. *)
Definition clear_stripe (c : WConfig) (acc : PendingMerges V * list Bytes * list (Bytes * PendingMerge V)) (index : nat) :
    PendingMerges V * list Bytes * list (Bytes * PendingMerge V) :=
  let '(pd, keys, forwarded) := acc in
  let '(kept, flush) := split_pending_for_clear ((fun kv => (kv.1, owns_key_here c (pm_key_bytes kv.2))) <$> map_to_list (ps_entries (pd_stripe pd index))) in
  let '(pd, forwarded) :=
    foldl (fun acc key =>
        match ps_remove (pd_stripe acc.1 index) key with
        | (st, Some entry) => (pd_set acc.1 index st (-1), acc.2 ++ [(key, entry)])
        | (_, None) => acc
        end) (pd, forwarded) flush in
  (pd, keys ++ kept, forwarded).

Definition keys_to_clear (c : WConfig) (s : WShard) (now_ms : Z) : option (WShard * list Bytes) :=
  let '(pd, pending_keys, forwarded) :=
    if has_pending_merges (ws_pending s) then foldl (clear_stripe c) (ws_pending s, [], []) (List.seq 0 (Z.to_nat BUCKET_COUNT)) else (ws_pending s, [], []) in
  s ← foldl (flush_one_pending_merge c now_ms) (Some (with_pending s pd)) forwarded;
  Some (s, pending_keys ++ filter (fun key => key ∉ pending_keys) (keys (ws_engine s) now_ms)).

Definition clear (c : WConfig) (s : WShard) (now_ms : Z) : option (WShard * result unit CacheError) :=
  '(s, ks) ← keys_to_clear c s now_ms;
  remove_many c s (Some <$> ks) now_ms.

End LocalWrite.
Arguments CacheEvent V : clear implicits.
Arguments WConfig V : clear implicits.
Arguments WShard V : clear implicits.
Arguments Prepared V : clear implicits.

(** ** What one write does to the store *)

(** The key and version an outcome wrote. *)
Definition wrote_at {V} (o : ApplyOutcome V) : option (Bytes * Hlc) :=
  match o with OPut key _ _ ver | OTombstoned key ver => Some (key, ver) | _ => None end.

Section Outcomes.
Context {PU : PostcardU32} {HS : Hashing} {R : ConflictResolver} {V : Type} {VC : ValueCodec V} {PUL : PostcardU32Laws}.

Lemma apply_locked_wrote (ctx : ApplyCtx V) k ver i st c :
  wrote_at (apply_locked ctx k ver i st c).2 = match verdict ctx st k ver i with RStore ver' _ => Some (k, ver') | _ => None end.
Proof.
  unfold apply_locked, verdict. rewrite stored_ver_versions. destruct (ignores _ _); [done|].
  set (live := if is_some _ then None else read_stored_live st ctx k).
  set (gate := if ac_held_only ctx then _ else (c, false)).
  assert (gate.2 = ac_held_only ctx && negb (is_some_and live sl_visible && negb (is_incoming_tombstone i))) as Hg.
  { unfold gate. destruct (ac_held_only ctx); [|done]. unfold reject_unheld. by destruct (_ && _). }
  rewrite <-Hg. destruct gate as [c1 [|]]; [done|]. cbn [snd].
  destruct (collide _ _ _ _ _ _ _) as [|v' i'|size]; [done| |done].
  destruct (swap_fingerprint _ _ _ _ _ _) as [st1 c2]. destruct i' as [value e b|d].
  - by rewrite apply_put_outcome.
  - destruct (default (0, 0) _). by rewrite apply_tombstone_outcome.
Qed.

End Outcomes.

Section Lww.
Context {PU : PostcardU32} {HS : Hashing} {V : Type} {VC : ValueCodec V} {IS : IdleSort} {PUL : PostcardU32Laws}.

(** Under last-writer-wins nothing is too large, and a local write is stored exactly when it is newer. *)
Lemma lww_outcome (e : Engine V) ign ctx k ver i : ac_held_only ctx = false -> ac_from_peer ctx = false ->
  let out := (apply_at (R := LwwResolver) e (bucket_of_key k) ign ctx k ver i).2 in
  too_large out = None /\ wrote_at out = if is_none_or (engine_record e k) (fun r => hlc_ltb (wr_ver r) ver) then Some (k, ver) else None.
Proof.
  intros Hh Hp. unfold apply_at. set (st := stripe_at e (bucket_of_key k)). set (c := {| c_digest := _ |}).
  pose proof (apply_locked_refusal (R := LwwResolver) ctx k ver i st c) as Hr. pose proof (apply_locked_wrote (R := LwwResolver) ctx k ver i st c) as Hw.
  destruct (apply_locked ctx k ver i st c) as [[st' c'] out]. cbn [snd] in *. rewrite verdict_lww in Hr, Hw by done.
  assert (Hi : ignores (ctx_rule ctx) (rule_deadlines (ctx_rule ctx) i ver) = false).
  { unfold ignores. destruct (rule_deadlines _ _ _) as [[? ?]|]; [|done]. cbn. unfold drops_lapsed_tombstone. by rewrite Hp. }
  rewrite Hi in Hr, Hw. rewrite versions_record in Hr, Hw. fold st in Hr, Hw. change (stored_record st k) with (engine_record e k) in Hr, Hw.
  destruct (engine_record e k) as [r|]; cbn in *; [by destruct (hlc_ltb _ _)|done].
Qed.

Lemma slots_not_refused ctx bucket (entries : list (BatchEntry V)) : ac_held_only ctx = false -> ac_from_peer ctx = false ->
  Forall (fun en => bucket_of_key (be_key en) = bucket) entries -> forall b : BatchState, exists outs,
  bs_outcomes (foldl (apply_slot (R := LwwResolver) ctx bucket) b (SlotApply <$> entries)) = bs_outcomes b ++ outs /\
  Forall (fun out => too_large out = None) outs /\ length outs = length entries.
Proof.
  intros Hh Hp. induction 1 as [|en entries <- Hen IH]; intros b; [exists []; by rewrite app_nil_r|].
  rewrite fmap_cons. cbn [foldl]. unfold apply_slot at 2. cbn [into_entry].
  pose proof (lww_outcome (bs_engine b) (bs_ignored b) ctx (be_key en) (be_ver en) (be_incoming en) Hh Hp) as [Ht _].
  destruct (apply_at (bs_engine b) _ _ _ _ _ _) as [[e' ign'] out]. cbn [snd] in Ht.
  match goal with |- context [foldl _ ?b1 _] => destruct (IH b1) as (outs & -> & Hall & Hlen) end.
  cbn [bs_outcomes]. exists (out :: outs). rewrite <-app_assoc. split_and!; [done|by constructor|cbn; lia].
Qed.

(** A local batch of one stripe: the newest of what was stored and what was written, and no refusal. *)
Lemma local_batch_lww (e : Engine V) bucket keys entries ttl max_ttl now written : engine_inv e -> max_capacity (cfg e) = u64_max ->
  Forall (fun en => key_fits (be_key en) /\ bucket_of_key (be_key en) = bucket) entries ->
  let ctx := batch_ctx (R := LwwResolver) e AnyScope ALocal ttl max_ttl now in
  exists e' written' outs, apply_many_with_reservation (R := LwwResolver) e ALocal bucket keys entries ttl max_ttl now written = Some (e', written', outs, 0) /\
    engine_inv e' /\ same_config e e' /\ Forall (fun out => too_large out = None) outs /\ length outs = length entries /\
    forall k, engine_record e' k = foldl (lww_join k) (engine_record e k) (entry_write ctx <$> entries).
Proof.
  intros He Hcap Hen ctx. destruct (apply_many_lww e ALocal bucket keys entries ttl max_ttl now written He Hcap Hen) as (e' & w' & outs & Hap & H1 & H2 & H3).
  exists e', w', outs. split; [exact Hap|]. split; [done|]. split; [done|].
  assert (Hb : Forall (fun en => bucket_of_key (be_key en) = bucket) entries) by (eapply Forall_impl; [exact Hen|]; by intros en [_ ?]).
  destruct (slots_not_refused ctx bucket entries eq_refl eq_refl Hb {| bs_engine := e; bs_ignored := 0; bs_outcomes := []; bs_wrote := false; bs_written := written |}) as (outs' & Ho & Hall & Hlen).
  cbn [bs_outcomes app] in Ho. assert (outs = outs') as ->; [|done].
  revert Hap. unfold apply_many_in, prefolds. cbn [merges LwwResolver andb mbind option_bind]. fold ctx. unfold apply_slots. rewrite Ho.
  destruct (bs_wrote _); [|by intros [= _ _ <-]]. destruct (enforce_capacity _ _ _ _) as [[[? ?] [? ?]]|]; cbn; [|done]. by intros [= _ _ <-].
Qed.

(** A local write is never ignored. *)
Lemma local_admitted (e : Engine V) ttl max_ttl now en :
  wt_admitted (entry_write (batch_ctx (R := LwwResolver) e AnyScope ALocal ttl max_ttl now) en) = true.
Proof.
  unfold wt_admitted, ignores. cbn. destruct (rule_deadlines _ _ _) as [[? ?]|]; [|done]. cbn. unfold drops_lapsed_tombstone. by cbn.
Qed.

(** ** The shard's invariant *)

(** The store, which has no capacity cap, and the pending map are well formed and every version in them is one the clock has seen. *)
Record shard_ok (s : WShard V) : Prop := {
  wk_inv : engine_inv (ws_engine s);
  wk_cap : max_capacity (cfg (ws_engine s)) = u64_max;
  wk_pending : pending_ok (ws_pending s);
  wk_fits k e : pd_entry (ws_pending s) k = Some e -> key_fits k;
  wk_leads k r : engine_record (ws_engine s) k = Some r -> hlc_le (wr_ver r) (HlcClock.last (ws_clock s));
  wk_leads_pending k e : pd_entry (ws_pending s) k = Some e -> hlc_le (pm_ver e) (HlcClock.last (ws_clock s));
}.

(** The clock's counter has room for [n] more stamps. *)
Definition room_for_stamps (s : WShard V) (n : nat) : Prop :=
  0 <= logical (HlcClock.last (ws_clock s)) /\ logical (HlcClock.last (ws_clock s)) + Z.of_nat n <= u32_max.

(** What a step that draws no stamp and takes no fold leaves alone. *)
Record kept (s s' : WShard V) : Prop := {
  kp_clock : ws_clock s' = ws_clock s;
  kp_pending : ws_pending s' = ws_pending s;
  kp_config : same_config (ws_engine s) (ws_engine s');
}.
#[local] Instance kept_preorder : PreOrder kept.
Proof. split; [done|]. intros s1 s2 s3 [] []. split; [congruence|congruence|by etrans]. Qed.

Lemma stamp_local_spec s now : room_for_stamps s 1 ->
  let '(s', ver) := stamp_local s now in
  hlc_lt (HlcClock.last (ws_clock s)) ver /\ HlcClock.last (ws_clock s') = ver /\ ws_engine s' = ws_engine s /\ ws_pending s' = ws_pending s /\
  ws_queue s' = ws_queue s /\ forall n, room_for_stamps s (S n) -> room_for_stamps s' n.
Proof.
  intros [H0 H1]. unfold stamp_local. destruct (HlcClock.now_gt (ws_clock s) now) as [Hlt Hlast]; [lia|].
  destruct (HlcClock.now (ws_clock s) now) as [clk ver] eqn:En. cbn [fst snd] in *. cbn. split_and!; try done.
  intros n [_ Hn]. unfold room_for_stamps. cbn. unfold HlcClock.now in En. injection En as <- _. cbn.
  destruct (_ =? _); [rewrite HlcClock.bump_small by lia|]; lia.
Qed.

Lemma stamped_ok s now : shard_ok s -> room_for_stamps s 1 -> shard_ok (stamp_local s now).1 /\
  (forall k r, engine_record (ws_engine s) k = Some r -> hlc_lt (wr_ver r) (stamp_local s now).2) /\
  (forall k e, pd_entry (ws_pending s) k = Some e -> hlc_lt (pm_ver e) (stamp_local s now).2).
Proof.
  intros [H1 H2 H3 H4 H5 H6] Hr. pose proof (stamp_local_spec s now Hr) as H. destruct (stamp_local s now) as [s' ver].
  destruct H as (Hlt & Hlast & He & Hp & _ & _). cbn [fst snd]. split; [|split].
  - split; rewrite ?He, ?Hp, ?Hlast; try done; intros; eapply hlc_le_trans; eauto using hlc_lt_le.
  - intros k r Hk. eapply hlc_le_lt_trans; [by eapply H5|done].
  - intros k e Hk. eapply hlc_le_lt_trans; [by eapply H6|done].
Qed.

(** Changing the store, by writes at versions the clock has seen, keeps the invariant. *)
Lemma kept_ok s s' : shard_ok s -> kept s s' -> engine_inv (ws_engine s') ->
  (forall k r, engine_record (ws_engine s') k = Some r -> hlc_le (wr_ver r) (HlcClock.last (ws_clock s))) -> shard_ok s'.
Proof.
  intros [H1 H2 H3 H4 H5 H6] [Hc Hp [Hcfg _]] He Hl. split; rewrite ?Hp, ?Hc, ?Hcfg; try done.
Qed.

Lemma lww_join_leads k (ws : list (Write V)) v : forall s, (forall r, s = Some r -> hlc_le (wr_ver r) v) -> (forall w, w ∈ ws -> hlc_le (wt_ver w) v) ->
  forall r, foldl (lww_join k) s ws = Some r -> hlc_le (wr_ver r) v.
Proof.
  induction ws as [|w ws IH]; intros s Hs Hw r; cbn; [apply Hs|]. apply IH; [|intros; apply Hw; by right].
  intros r'. unfold lww_join. destruct (_ && _); [|apply Hs]. specialize (Hw w ltac:(by left)).
  destruct s as [r0|]; [destruct (hlc_ltb _ _); [|apply Hs]|]; intros [= <-]; by rewrite wt_record_ver.
Qed.

Definition stamped_write (c : WConfig V) (s : WShard V) (now : Z) (key : Bytes) (ver : Hlc) (incoming : Incoming V) : Write V :=
  entry_write (batch_ctx (R := LwwResolver) (ws_engine s) AnyScope ALocal (wc_tombstone_ttl_ms c) (wc_tombstone_max_ttl_ms c) now)
    {| be_key := key; be_ver := ver; be_incoming := incoming |}.

Lemma apply_lww (c : WConfig V) s key ver i now : engine_inv (ws_engine s) -> max_capacity (cfg (ws_engine s)) = u64_max -> key_fits key ->
  exists s', apply (R := LwwResolver) c s key ver i OriginLocal now = Some (s', Ok tt) /\ kept s s' /\ engine_inv (ws_engine s') /\
    (forall k, engine_record (ws_engine s') k = lww_join k (engine_record (ws_engine s) k) (stamped_write c s now key ver i)) /\
    ws_queue s' = if is_none_or (engine_record (ws_engine s) key) (fun r => hlc_ltb (wr_ver r) ver)
                  then (push_item (ws_queue s) (Applied key ver)).1 else ws_queue s.
Proof.
  intros He Hcap Hfit. unfold apply. set (en := {| be_key := key; be_ver := ver; be_incoming := i |}).
  assert (Hen : Forall (fun en => key_fits (be_key en) /\ bucket_of_key (be_key en) = bucket_of_key key) [en]) by (by repeat constructor).
  destruct (local_batch_lww (ws_engine s) (bucket_of_key key) (wc_key_order c [en]) [en] (wc_tombstone_ttl_ms c) (wc_tombstone_max_ttl_ms c) now
    written_default He Hcap Hen) as (e' & w' & outs & Hap & H1 & H2 & H3 & H4 & H5).
  rewrite Hap. cbn [mbind option_bind].
  pose proof (lww_outcome (ws_engine s) 0 (batch_ctx (R := LwwResolver) (ws_engine s) AnyScope ALocal (wc_tombstone_ttl_ms c) (wc_tombstone_max_ttl_ms c) now)
    key ver i eq_refl eq_refl) as [_ Hw].
  assert (Houts : outs = [(apply_at (R := LwwResolver) (ws_engine s) (bucket_of_key key) 0
     (batch_ctx (R := LwwResolver) (ws_engine s) AnyScope ALocal (wc_tombstone_ttl_ms c) (wc_tombstone_max_ttl_ms c) now) key ver i).2]).
  { revert Hap. unfold apply_many_with_reservation, apply_many_in, prefolds. cbn [merges LwwResolver andb mbind option_bind fmap list_fmap]. unfold apply_slots.
    cbn [foldl]. unfold apply_slot. cbn [into_entry bs_engine bs_ignored bs_outcomes be_key be_ver be_incoming en app].
    destruct (apply_at _ _ _ _ _ _ _) as [[e1 ign1] out]. cbn [bs_wrote bs_outcomes bs_engine snd].
    destruct (is_put_outcome out || false); [|by intros [= _ _ <-]]. destruct (enforce_capacity _ _ _ _) as [[[? ?] [? ?]]|]; cbn; [|done]. by intros [= _ _ <-]. }
  subst outs. apply Forall_cons in H3 as [H3 _]. cbn [last mbind option_bind]. rewrite H3. cbn [from_option]. eexists. split; [reflexivity|].
  set (out := (apply_at (ws_engine s) _ _ _ _ _ _).2) in *. clearbody out.
  assert (Hh : forall o, too_large o = None -> let s1 := handle_apply_outcome c (with_engine s e') o OriginLocal true in
    ws_clock s1 = ws_clock s /\ ws_pending s1 = ws_pending s /\ ws_engine s1 = e' /\
    ws_queue s1 = match wrote_at o with Some (k, v) => (push_item (ws_queue s) (Applied k v)).1 | None => ws_queue s end).
  { intros o Ho. destruct o as [|k0 v0 cr ver0|k0 ver0|k0 sz]; cbn; try done. }
  destruct (Hh out H3) as (K1 & K2 & K3 & K4). split; [split; [done|done|by rewrite K3]|]. split; [by rewrite K3|]. split.
  - intros k. rewrite K3, H5. done.
  - rewrite K4, Hw. by destruct (is_none_or _ _).
Qed.

Lemma apply_or_forward_ok (c : WConfig V) s key ver i now : shard_ok s -> key_fits key -> hlc_le ver (HlcClock.last (ws_clock s)) ->
  exists s' r, apply_or_forward (R := LwwResolver) c s key ver i now = Some (s', r) /\ kept s s' /\ shard_ok s'.
Proof.
  intros Hok Hfit Hle. unfold apply_or_forward. destruct (owns_key_here c key); cbn [negb].
  - destruct (apply_lww c s key ver i now (wk_inv _ Hok) (wk_cap _ Hok) Hfit) as (s' & -> & Hk & He & Hr & _). exists s', (Ok tt). split; [done|]. split; [done|].
    apply (kept_ok s); try done. intros k r. rewrite Hr. change (lww_join k (engine_record (ws_engine s) k) (stamped_write c s now key ver i))
      with (foldl (lww_join k) (engine_record (ws_engine s) k) [stamped_write c s now key ver i]).
    apply lww_join_leads; [intros r0; apply (wk_leads _ Hok)|]. intros w ->%list_elem_of_singleton. done.
  - assert (Hf : exists s1 rec, forward_write c s key i ver = (s1, rec) /\ kept s s1 /\ ws_engine s1 = ws_engine s).
    { unfold forward_write. destruct i; eexists _, _; (split; [reflexivity|]); by split. }
    destruct Hf as (s1 & rec & -> & Hk & He). destruct (push_item (ws_queue s1) (Forward rec)) as [q queued]. eexists _, _. split; [reflexivity|].
    assert (Hk' : kept s (with_queue s1 q)) by (by destruct Hk; split). split; [exact Hk'|].
    apply (kept_ok s); [done|done|cbn; rewrite He; apply Hok|]. intros k r. cbn. rewrite He. apply Hok.
Qed.

(** ** Flushes *)

Lemma with_pending_ok (s : WShard V) pd : shard_ok s -> pending_ok pd -> (forall k e, pd_entry pd k = Some e -> pd_entry (ws_pending s) k = Some e) ->
  shard_ok (with_pending s pd).
Proof. intros [H1 H2 H3 H4 H5 H6] Hpd Hsub. split; cbn; try done; intros k e Hk%Hsub; [by eapply H4|by eapply H6]. Qed.

(** A fold as the pending map holds it. *)
Definition flushable (s : WShard V) (kp : Bytes * PendingMerge V) : Prop := key_fits (pm_key_bytes kp.2) /\ hlc_le (pm_ver kp.2) (HlcClock.last (ws_clock s)).

Lemma pending_flushable s k e : shard_ok s -> pd_entry (ws_pending s) k = Some e -> flushable s (k, e).
Proof.
  intros Hok He. split; [|by eapply wk_leads_pending]. cbn. destruct (so_key _ _ (pd_stripe_ok _ (bucket_of_key k) (wk_pending _ Hok)) _ _ He) as [-> _].
  by eapply wk_fits.
Qed.

Lemma flush_list_ok (c : WConfig V) now due : forall s, shard_ok s -> Forall (flushable s) due ->
  exists s', foldl (flush_one_pending_merge (R := LwwResolver) c now) (Some s) due = Some s' /\ kept s s' /\ shard_ok s'.
Proof.
  induction due as [|[k e] due IH]; intros s Hok Hall; [by exists s|]. apply Forall_cons in Hall as [[Hf Hv] Hall]. cbn [foldl]. unfold flush_one_pending_merge at 2. cbn [mbind option_bind].
  destruct (apply_or_forward_ok c s (pm_key_bytes e) (pm_ver e) (Put (pm_value e) (pm_expires_at_ms e) (pm_encoded e)) now Hok Hf Hv) as (s1 & r & -> & Hk & Hok1).
  cbn [mbind option_bind]. destruct (IH s1 Hok1) as (s' & -> & Hk' & Hok'). { unfold flushable in *. by rewrite (kp_clock _ _ Hk). }
  exists s'. split; [done|]. split; [by etrans|done].
Qed.

Lemma flush_stripes_ok (c : WConfig V) now (select : PendingMergeStripe V -> PendingMergeStripe V * list (Bytes * PendingMerge V)) due idxs :
  (forall i st, stripe_ok i st -> let (st', taken) := select st in selects due i st st' taken) -> Forall (fun i => (i < Z.to_nat BUCKET_COUNT)%nat) idxs ->
  forall s, shard_ok s -> exists s', foldl (flush_stripe (R := LwwResolver) c now select) (Some s) idxs = Some s' /\ shard_ok s' /\
    ws_clock s' = ws_clock s /\ ws_pending s' = (take_stripes select (ws_pending s) idxs).1.
Proof.
  intros Hsel. induction idxs as [|i idxs IH]; intros Hlt s Hok; [by exists s|]. apply Forall_cons in Hlt as [Hi Hlt]. cbn [foldl]. unfold flush_stripe at 2. cbn [mbind option_bind].
  pose proof (take_stripe_spec select due (ws_pending s) i (Hsel i) (wk_pending _ Hok) Hi) as Ht.
  change (i :: idxs) with ([i] ++ idxs). rewrite take_stripes_app. unfold take_stripes at 1. cbn [foldl fst snd].
  destruct (take_stripe select (ws_pending s) i) as [pd1 taken]. destruct Ht as (Hpd & _ & Htaken & Hleft).
  assert (Hok1 : shard_ok (with_pending s pd1)).
  { apply with_pending_ok; [done|done|]. intros k e. rewrite Hleft. intros (e0 & He & Hd)%bind_Some. case_decide; [done|]. by injection Hd as <-. }
  destruct (flush_list_ok c now taken (with_pending s pd1) Hok1) as (s1 & -> & Hk & Hok2).
  { apply Forall_forall. intros [k e] (_ & He & _)%Htaken. by apply (pending_flushable s). }
  destruct (IH Hlt s1 Hok2) as (s' & -> & Hok' & Hc & Hp). exists s'. split; [done|]. split; [done|]. rewrite Hc, Hp, (kp_clock _ _ Hk), (kp_pending _ _ Hk). cbn.
  by destruct (take_stripes select pd1 idxs).
Qed.

(** ** Bulk writes *)

Lemma note_outcomes_kept (c : WConfig V) bucket outs : Forall (fun out => too_large out = None) outs -> forall n s applied refused,
  let '(s', _, refused') := foldl (note_outcome c bucket) (s, applied, refused) (imap (fun i out => ((n + i)%nat, out)) outs) in
  refused' = refused /\ ws_engine s' = ws_engine s /\ ws_clock s' = ws_clock s /\ ws_pending s' = ws_pending s.
Proof.
  induction 1 as [|out outs Ho Hall IH]; intros n s applied refused; [done|]. rewrite imap_cons. cbn [foldl]. unfold note_outcome at 2. rewrite Ho.
  assert (Hh : let s1 := handle_apply_outcome c s out OriginLocal false in ws_engine s1 = ws_engine s /\ ws_clock s1 = ws_clock s /\ ws_pending s1 = ws_pending s)
    by (by destruct out).
  set (s1 := handle_apply_outcome c s out OriginLocal false) in *. destruct Hh as (H1 & H2 & H3).
  assert (Hshift : imap ((fun i out => ((n + i)%nat, out)) ∘ S) outs = imap (fun i out => ((S n + i)%nat, out)) outs) by (apply imap_ext; intros j x _; cbn; f_equal; lia).
  rewrite Hshift. match goal with |- context [foldl _ (s1, ?a, refused)] => specialize (IH (S n) s1 a refused) end.
  destruct (foldl _ _ _) as [[s' a'] r']. destruct IH as (-> & -> & -> & ->). done.
Qed.

Lemma hand_off_kept (s : WShard V) landed flush : let s' := (hand_off_bulk s landed flush).1 in kept s s' /\ ws_engine s' = ws_engine s.
Proof. unfold hand_off_bulk. destruct (_ || _); cbn; [done|]. split; [by split|done]. Qed.

Lemma groups_lww (c : WConfig V) now entries buckets : Forall (fun en => key_fits (be_key en)) entries -> NoDup buckets ->
  forall g, engine_inv (ws_engine (gs_shard g)) -> max_capacity (cfg (ws_engine (gs_shard g))) = u64_max -> gs_refused g = [] ->
  let ctx := batch_ctx (R := LwwResolver) (ws_engine (gs_shard g)) AnyScope ALocal (wc_tombstone_ttl_ms c) (wc_tombstone_max_ttl_ms c) now in
  exists g', foldl (group_step (R := LwwResolver) c entries now) (Some g) buckets = Some g' /\ kept (gs_shard g) (gs_shard g') /\
    engine_inv (ws_engine (gs_shard g')) /\ gs_refused g' = [] /\
    forall k, engine_record (ws_engine (gs_shard g')) k =
      if decide (bucket_of_key k ∈ buckets) then foldl (lww_join k) (engine_record (ws_engine (gs_shard g)) k) (entry_write ctx <$> entries)
      else engine_record (ws_engine (gs_shard g)) k.
Proof.
  intros Hfit. induction buckets as [|b buckets IH]; intros Hnd g He Hcap Hr ctx.
  { exists g. by split_and!. }
  apply NoDup_cons in Hnd as [Hb Hnd]. cbn [foldl]. set (group := filter (fun en => bucket_of_key (be_key en) = b) entries).
  assert (Hone : exists g1, group_step (R := LwwResolver) c entries now (Some g) b = Some g1 /\ kept (gs_shard g) (gs_shard g1) /\
    engine_inv (ws_engine (gs_shard g1)) /\ gs_refused g1 = [] /\
    forall k, engine_record (ws_engine (gs_shard g1)) k = foldl (lww_join k) (engine_record (ws_engine (gs_shard g)) k) (entry_write ctx <$> group)).
  { unfold group_step. cbn [mbind option_bind]. fold group.
    destruct (local_batch_lww (ws_engine (gs_shard g)) b (wc_key_order c group) group (wc_tombstone_ttl_ms c) (wc_tombstone_max_ttl_ms c) now (gs_written g) He Hcap)
      as (e' & w' & outs & Hap & H1 & H2 & H3 & _ & H5).
    { rewrite Forall_forall in Hfit |- *. intros en [? ?]%list_elem_of_filter. by split; [apply Hfit|]. }
    destruct group as [|en' group'] eqn:Eg; [by exists g|]. rewrite Hap. cbn [mbind option_bind].
    pose proof (note_outcomes_kept c b outs H3 0 (with_engine (gs_shard g) e') (gs_applied g) (gs_refused g)) as Hn.
    change (imap (fun i out => ((0 + i)%nat, out)) outs) with (imap pair outs) in Hn. destruct (foldl (note_outcome c b) _ _) as [[s1 a1] r1].
    destruct Hn as (-> & N1 & N2 & N3). pose proof (hand_off_kept s1 a1 false) as [Hk1 Hk2]. destruct (hand_off_bulk s1 a1 false) as [s2 a2]. cbn [fst] in *.
    eexists. split; [reflexivity|]. cbn [gs_shard gs_refused]. rewrite Hk2, N1. cbn. split; [|by split_and!].
    split; cbn [gs_shard]; [by rewrite (kp_clock _ _ Hk1), N2|by rewrite (kp_pending _ _ Hk1), N3|by rewrite Hk2, N1]. }
  destruct Hone as (g1 & -> & Hk1 & He1 & Hr1 & Hrec1). pose proof (kp_config _ _ Hk1) as Hsc1.
  destruct (IH Hnd g1 He1) as (g2 & -> & Hk2 & He2 & Hr2 & Hrec2); [by destruct Hsc1 as [-> _]|done|].
  exists g2. split_and!; [done|by etrans|done|done|]. intros k. rewrite Hrec2, (batch_ctx_same (ws_engine (gs_shard g))) by done. fold ctx. rewrite Hrec1.
  destruct (decide (bucket_of_key k = b)) as [<-|Hne].
  - rewrite decide_False by done. rewrite decide_True by (by left). unfold group. by apply lww_join_filter.
  - assert (Hs : forall s, foldl (lww_join k) s (entry_write ctx <$> group) = s) by (intros s; unfold group; by apply lww_join_others).
    rewrite Hs. destruct (decide (bucket_of_key k ∈ buckets)); [by rewrite decide_True by (by right)|].
    rewrite decide_False; [done|]. by intros [?|?]%elem_of_cons.
Qed.

Definition prepared_write (c : WConfig V) (s : WShard V) (now : Z) (p : Prepared V) : Write V := stamped_write c s now (pr_key p) (pr_ver p) (pr_incoming p).

Lemma apply_grouped_lww (c : WConfig V) s prepared now : engine_inv (ws_engine s) -> max_capacity (cfg (ws_engine s)) = u64_max ->
  Forall (fun p => key_fits (pr_key p)) prepared ->
  exists s', apply_grouped (R := LwwResolver) c s prepared now = Some (s', Ok tt) /\ kept s s' /\ engine_inv (ws_engine s') /\
    forall k, engine_record (ws_engine s') k = foldl (lww_join k) (engine_record (ws_engine s) k) (prepared_write c s now <$> prepared).
Proof.
  intros He Hcap Hfit. unfold apply_grouped. set (entries := _ <$> prepared).
  assert (Hf : Forall (fun en => key_fits (be_key en)) entries) by (unfold entries; by rewrite Forall_fmap).
  destruct (groups_lww c now entries (List.seq 0 (Z.to_nat BUCKET_COUNT)) Hf (NoDup_seq _ _)
    {| gs_shard := s; gs_applied := []; gs_written := written_default; gs_refused := [] |} He Hcap eq_refl) as (g & -> & Hk & Hinv & Hr & Hrec).
  cbn [mbind option_bind gs_shard] in *. pose proof (hand_off_kept (gs_shard g) (gs_applied g) true) as [Hk1 Hk2].
  destruct (hand_off_bulk (gs_shard g) (gs_applied g) true) as [s' a]. cbn [fst] in *. rewrite Hr. eexists. split; [reflexivity|].
  split; [by etrans|]. split; [by rewrite Hk2|]. intros k. rewrite Hk2, Hrec, decide_True by apply all_stripes_elem. f_equal. unfold entries. by rewrite <-list_fmap_compose.
Qed.

Lemma forward_loop_kept (c : WConfig V) prepared : forall s landed, let s' := (forward_loop c s landed prepared).1 in kept s s' /\ ws_engine s' = ws_engine s.
Proof.
  induction prepared as [|p prepared IH]; intros s landed; cbn.
  - destruct (extend _ _) as [q queued]. cbn. split; [by split|done].
  - assert (Hf : exists s1 rec, forward_write c s (pr_key p) (pr_incoming p) (pr_ver p) = (s1, rec) /\ kept s s1 /\ ws_engine s1 = ws_engine s).
    { unfold forward_write. destruct (pr_incoming p); eexists _, _; (split; [reflexivity|]); by split. }
    destruct Hf as (s1 & rec & -> & Hk & He). destruct (_ <=? _).
    + destruct (extend _ _) as [q queued]. assert (Hk1 : kept s (with_queue s1 q)) by (by destruct Hk; split). destruct queued; cbn.
      * destruct (IH (with_queue s1 q) []) as [H1 H2]. split; [by etrans|by rewrite H2].
      * by split.
    + destruct (IH s1 (landed ++ [rec])) as [H1 H2]. split; [by etrans|by rewrite H2].
Qed.

Lemma forward_prepared_kept (c : WConfig V) s prepared : let s' := (forward_prepared c s prepared).1 in kept s s' /\ ws_engine s' = ws_engine s.
Proof. unfold forward_prepared. destruct prepared; [done|apply forward_loop_kept]. Qed.

Lemma kept_same_ok s s' : shard_ok s -> kept s s' -> ws_engine s' = ws_engine s -> shard_ok s'.
Proof. intros Hok Hk He. apply (kept_ok s); [done|done|rewrite He; apply Hok|]. rewrite He. apply Hok. Qed.

Definition prepared_ok (s : WShard V) (p : Prepared V) : Prop := key_fits (pr_key p) /\ hlc_le (pr_ver p) (HlcClock.last (ws_clock s)).

Lemma partition_owned_sub (c : WConfig V) prepared (P : Prepared V -> Prop) : Forall P prepared ->
  Forall P (partition_owned c prepared).1 /\ Forall P (partition_owned c prepared).2.
Proof.
  intros Hall. unfold partition_owned. destruct (wc_ownership c); [|done]. rewrite Forall_forall in Hall.
  split; cbn; apply Forall_forall; intros p [_ Hp]%list_elem_of_filter; by apply Hall.
Qed.

Lemma grouped_ok (c : WConfig V) s prepared now : shard_ok s -> Forall (prepared_ok s) prepared ->
  exists s', apply_grouped (R := LwwResolver) c s prepared now = Some (s', Ok tt) /\ kept s s' /\ shard_ok s'.
Proof.
  intros Hok Hall. destruct (apply_grouped_lww c s prepared now (wk_inv _ Hok) (wk_cap _ Hok)) as (s' & -> & Hk & He & Hrec).
  { eapply Forall_impl; [exact Hall|]. by intros p [? _]. }
  exists s'. split; [done|]. split; [done|]. apply (kept_ok s); try done. intros k r. rewrite Hrec. apply lww_join_leads; [intros r0; apply (wk_leads _ Hok)|].
  intros w (p & -> & Hp)%list_elem_of_fmap. rewrite Forall_forall in Hall. by apply Hall.
Qed.

Lemma write_prepared_ok (c : WConfig V) s prepared now : shard_ok s -> Forall (prepared_ok s) prepared ->
  exists s' r, write_prepared (R := LwwResolver) c s prepared now = Some (s', r) /\ kept s s' /\ shard_ok s'.
Proof.
  intros Hok Hall. unfold write_prepared. pose proof (partition_owned_sub c prepared _ Hall) as [Ho _]. destruct (partition_owned c prepared) as [owned forwarded]. cbn [fst] in Ho.
  pose proof (forward_prepared_kept c s forwarded) as [Hk He]. destruct (forward_prepared c s forwarded) as [s1 queued]. cbn [fst] in *.
  pose proof (kept_same_ok s s1 Hok Hk He) as Hok1. destruct queued; cbn [negb]; [|by exists s1, (Err CacheClosed)].
  destruct (grouped_ok c s1 owned now Hok1) as (s' & -> & Hk' & Hok'). { unfold prepared_ok in *. by rewrite (kp_clock _ _ Hk). }
  exists s', (Ok tt). split; [done|]. split; [by etrans|done].
Qed.

(** ** Stamped batches *)

Lemma prepare_inserts_spec (c : WConfig V) ttl now entries : forall s, shard_ok s -> Forall (fun kv => key_fits kv.1) entries ->
  room_for_stamps s (length entries) ->
  let '(s', prepared, _) := prepare_inserts (R := LwwResolver) c s entries ttl now in
  shard_ok s' /\ ws_engine s' = ws_engine s /\ Forall (prepared_ok s') prepared /\ hlc_le (HlcClock.last (ws_clock s)) (HlcClock.last (ws_clock s')).
Proof.
  induction entries as [|[key value] entries IH]; intros s Hok Hfit Hroom; cbn [prepare_inserts]; [split_and!; [done|done|constructor|apply hlc_le_refl]|].
  apply Forall_cons in Hfit as [Hk Hfit].
  assert (Hroom1 : room_for_stamps s 1) by (destruct Hroom; split; cbn [length] in *; lia).
  destruct (stamped_ok s now Hok Hroom1) as [Hok1 _]. pose proof (stamp_local_spec s now Hroom1) as Hs. destruct (stamp_local s now) as [s1 ver]. cbn [fst] in Hok1.
  destruct Hs as (Hlt & Hlast & He & _ & _ & Hnext). destruct (_ <? _); [split_and!; [done|done|constructor|rewrite Hlast; by apply hlc_lt_le]|].
  specialize (IH s1 Hok1 Hfit (Hnext _ Hroom)). destruct (prepare_inserts c s1 entries ttl now) as [[s2 prepared] failure]. destruct IH as (H1 & H2 & H3 & H4).
  split_and!; [done|by rewrite H2|constructor; [|done]|].
  - split; [done|]. cbn. by rewrite <-Hlast.
  - eapply hlc_le_trans; [|exact H4]. rewrite Hlast. by apply hlc_lt_le.
Qed.

Lemma discard_ok s key : shard_ok s ->
  shard_ok (with_pending s (discard_pending_merge (ws_pending s) key)) /\ pd_entry (discard_pending_merge (ws_pending s) key) key = None /\
  forall k, k <> key -> pd_entry (discard_pending_merge (ws_pending s) key) k = pd_entry (ws_pending s) k.
Proof.
  intros Hok. unfold discard_pending_merge. destruct (has_pending_merges (ws_pending s)) eqn:Eh; cbn [negb].
  - pose proof (take_pending_spec (ws_pending s) key (fun _ => true) (wk_pending _ Hok)) as H. destruct (take_pending_merge_if _ _ _) as [pd taken].
    destruct H as (H1 & -> & H3). cbn [fst]. split; [apply with_pending_ok; [done|done|intros k e; rewrite H3; by case_decide]|]. split.
    + rewrite H3. destruct (pd_entry (ws_pending s) key) as [e|] eqn:E; cbn; [|by case_decide]. rewrite decide_True; [done|]. split; [done|by eexists].
    + intros k Hne. rewrite H3, decide_False; [done|]. by intros [? _].
  - rewrite (has_pending_spec _ (wk_pending _ Hok)) in Eh. split; [by apply with_pending_ok; [|apply Hok|]|]. split; [apply Eh|done].
Qed.

Lemma prepare_removes_spec now ks : forall (s : WShard V) prepared, shard_ok s -> Forall key_fits (omap id ks) -> room_for_stamps s (length (omap id ks)) ->
  Forall (prepared_ok s) prepared ->
  let '(s', r) := prepare_removes now s ks prepared in shard_ok s' /\ ws_engine s' = ws_engine s /\ match r with Ok prepared' => Forall (prepared_ok s') prepared' | Err _ => True end.
Proof.
  induction ks as [|[key|] ks IH]; intros s prepared Hok Hfit Hroom Hp; [done| |done]. apply Forall_cons in Hfit as [Hk Hfit]. cbn [prepare_removes].
  destruct (discard_ok s key Hok) as (Hok1 & _ & _). set (s1 := with_pending s _) in *.
  assert (Hroom1 : room_for_stamps s1 1) by (destruct Hroom as [H0 H1]; split; [done|cbn in *; lia]).
  destruct (stamped_ok s1 now Hok1 Hroom1) as [Hok2 _]. pose proof (stamp_local_spec s1 now Hroom1) as Hs. destruct (stamp_local s1 now) as [s2 ver]. cbn [fst] in Hok2.
  destruct Hs as (Hlt & Hlast & He & _ & _ & Hnext). specialize (IH s2 (prepared ++ [{| pr_key := key; pr_ver := ver; pr_incoming := DELETE |}]) Hok2 Hfit (Hnext _ Hroom)).
  destruct (prepare_removes now s2 ks _) as [s' r]. rewrite <-(He : ws_engine s2 = ws_engine s). apply IH.
  apply Forall_app. split; [|constructor; [|constructor]; split; [done|by rewrite Hlast; apply hlc_le_refl]].
  eapply Forall_impl; [exact Hp|]. intros p [H1 H2]. split; [done|]. rewrite Hlast. eapply hlc_le_trans; [exact H2|]. by apply hlc_lt_le.
Qed.

(** ** Merges and clears *)

Lemma fold_call_ok (c : WConfig V) s now ct : shard_ok s -> key_fits (ct_key_bytes ct) -> hlc_le (ct_ver ct) (HlcClock.last (ws_clock s)) ->
  shard_ok (fold_call (R := LwwResolver) c s now ct).1.
Proof.
  intros Hok Hfit Hle. unfold fold_call. pose proof (fold_pending_spec (R := LwwResolver) (merge_config c) (ws_pending s) now ct (wk_pending _ Hok)) as H.
  destruct (fold_pending (merge_config c) (ws_pending s) now ct) as [pd res]. destruct H as (H1 & H2 & H3).
  assert (Hpd : forall k e, pd_entry pd k = Some e -> key_fits k /\ hlc_le (pm_ver e) (HlcClock.last (ws_clock s))).
  { intros k e He. destruct (decide (k = ct_key_bytes ct)) as [->|Hne].
    - split; [done|]. destruct (pd_entry (ws_pending s) (ct_key_bytes ct)) as [e0|] eqn:E0.
      + pose proof (wk_leads_pending _ Hok _ _ E0) as Hle0. unfold fold_into_occupied_merge in H3. cbn [merges LwwResolver] in H3.
        assert (Hmax : hlc_le (folded_pending_ver (pm_ver e0) (ct_ver ct)) (HlcClock.last (ws_clock s))) by (unfold folded_pending_ver, hlc_max; by destruct (hlc_leb _ _)).
        destruct (winner _ _ _); destruct H3 as [_ H3]; rewrite H3 in He; by injection He as <-.
      + destruct H3 as (_ & seq & H3). rewrite H3 in He. by injection He as <-.
    - rewrite H2 in He by done. split; [by eapply wk_fits|by eapply wk_leads_pending]. }
  assert (Hs : shard_ok (with_pending s pd)) by (destruct Hok; split; cbn; try done; intros k e He; by apply (Hpd k e He)).
  destruct res as [u|[| | |]]; cbn; try done. by destruct Hs; split.
Qed.

Lemma clear_stripe_spec (c : WConfig V) (pd0 : PendingMerges V) i pd keys forwarded : (i < Z.to_nat BUCKET_COUNT)%nat ->
  pending_ok pd -> (forall k e, pd_entry pd k = Some e -> pd_entry pd0 k = Some e) -> (forall k, k ∈ keys -> is_Some (pd_entry pd0 k)) ->
  (forall k e, (k, e) ∈ forwarded -> pd_entry pd0 k = Some e) ->
  let '(pd', keys', forwarded') := clear_stripe c (pd, keys, forwarded) i in
  pending_ok pd' /\ (forall k e, pd_entry pd' k = Some e -> pd_entry pd0 k = Some e) /\ (forall k, k ∈ keys' -> is_Some (pd_entry pd0 k)) /\
  (forall k e, (k, e) ∈ forwarded' -> pd_entry pd0 k = Some e).
Proof.
  intros Hi Hok Hsub Hkeys Hfwd. unfold clear_stripe.
  set (listing := (fun kv => (kv.1, owns_key_here c (pm_key_bytes kv.2))) <$> map_to_list (ps_entries (pd_stripe pd i))).
  assert (Hin : forall k e, ps_entries (pd_stripe pd i) !! k = Some e -> pd_entry pd k = Some e).
  { intros k e He. destruct (so_key _ _ (pd_stripe_ok pd i Hok) _ _ He) as [_ Hb]. unfold pd_entry. by rewrite Hb. }
  unfold split_pending_for_clear.
  assert (Hkept : forall k, k ∈ (filter (fun p => p.2 = true) listing).*1 -> is_Some (pd_entry pd0 k)).
  { intros k ([k' b] & -> & [_ Hp]%list_elem_of_filter)%list_elem_of_fmap. apply list_elem_of_fmap in Hp as ([k e] & [= -> _] & He). apply elem_of_map_to_list in He.
    cbn. eexists. apply Hsub, Hin, He. }
  generalize ((filter (fun p => p.2 = false) listing).*1). intros flush.
  assert (Hloop : forall flush pd forwarded, pending_ok pd -> (forall k e, pd_entry pd k = Some e -> pd_entry pd0 k = Some e) -> (forall k e, (k, e) ∈ forwarded -> pd_entry pd0 k = Some e) ->
    let '(pd', forwarded') := foldl (fun acc key => match ps_remove (pd_stripe acc.1 i) key with
        | (st, Some entry) => (pd_set acc.1 i st (-1), acc.2 ++ [(key, entry)]) | (_, None) => acc end) (pd, forwarded) flush in
    pending_ok pd' /\ (forall k e, pd_entry pd' k = Some e -> pd_entry pd0 k = Some e) /\ (forall k e, (k, e) ∈ forwarded' -> pd_entry pd0 k = Some e)).
  { clear -Hi. induction flush as [|key flush IH]; intros pd forwarded Hok Hsub Hfwd; [done|]. cbn [foldl fst snd].
    destruct (ps_entries (pd_stripe pd i) !! key) as [e|] eqn:Ee; cycle 1.
    { assert (Hn : ps_remove (pd_stripe pd i) key = (pd_stripe pd i, None)) by (unfold ps_remove; by rewrite Ee). rewrite Hn. by apply IH. }
    pose proof (remove_ok i _ key e (pd_stripe_ok pd i Hok) Ee) as Hst. destruct (so_key _ _ (pd_stripe_ok pd i Hok) _ _ Ee) as [_ Hb].
    unfold ps_remove in Hst |- *. rewrite Ee in Hst |- *. cbn [fst] in Hst. destruct (pd_set_ok pd i _ (-1) Hok Hi Hst) as [Hok' Hrec].
    { cbn. rewrite map_size_delete_Some by (by eexists). assert (size (ps_entries (pd_stripe pd i)) <> 0)%nat; [|lia].
      apply map_size_non_empty_iff. intros Hemp. by rewrite Hemp, lookup_empty in Ee. }
    apply IH; [done|..].
    - intros k x. rewrite Hrec. cbn. case_decide as Hbk; [|apply Hsub]. intros [_ Hx]%lookup_delete_Some. apply Hsub. unfold pd_entry. by rewrite Hbk.
    - intros k x [Hx|Hx]%elem_of_app; [by apply Hfwd|]. apply list_elem_of_singleton in Hx as [= -> ->]. apply Hsub. unfold pd_entry. by rewrite Hb. }
  specialize (Hloop flush pd forwarded Hok Hsub Hfwd). destruct (foldl _ (pd, forwarded) flush) as [pd' forwarded']. destruct Hloop as (H1 & H2 & H3).
  split_and!; try done. intros k [Hk|Hk]%elem_of_app; [by apply Hkeys|by apply Hkept].
Qed.

Lemma engine_keys_fit (e : Engine V) now : engine_inv e -> Forall key_fits (keys e now).
Proof.
  intros He. apply Forall_forall. intros k Hk. unfold keys in Hk. apply list_elem_of_bind in Hk as (st & Hk & Hst).
  apply list_elem_of_fmap in Hk as (l & -> & [_ Hl]%list_elem_of_filter). apply list_elem_of_lookup in Hst as (i & Hi).
  by apply (proj1 (Forall_forall _ _) (sw_fits _ _ (ei_wf _ He _ _ Hi))).
Qed.

Lemma keys_to_clear_ok (c : WConfig V) s now : shard_ok s ->
  exists s' ks, keys_to_clear (R := LwwResolver) c s now = Some (s', ks) /\ shard_ok s' /\ ws_clock s' = ws_clock s /\ Forall key_fits ks.
Proof.
  intros Hok. unfold keys_to_clear.
  set (split := if has_pending_merges (ws_pending s) then _ else _).
  assert (Hsplit : pending_ok split.1.1 /\ (forall k e, pd_entry split.1.1 k = Some e -> pd_entry (ws_pending s) k = Some e) /\
    (forall k, k ∈ split.1.2 -> is_Some (pd_entry (ws_pending s) k)) /\ (forall k e, (k, e) ∈ split.2 -> pd_entry (ws_pending s) k = Some e)).
  { assert (Hbase : pending_ok (ws_pending s) /\ (forall k e, pd_entry (ws_pending s) k = Some e -> pd_entry (ws_pending s) k = Some e) /\
      (forall k, k ∈ ([] : list Bytes) -> is_Some (pd_entry (ws_pending s) k)) /\ (forall k e, (k, e) ∈ ([] : list (Bytes * PendingMerge V)) -> pd_entry (ws_pending s) k = Some e)).
    { split_and!; [apply Hok|done|by intros k ?%not_elem_of_nil|by intros k e ?%not_elem_of_nil]. }
    unfold split. destruct (has_pending_merges _); [|exact Hbase].
    assert (Hgen : forall idxs, Forall (fun i => (i < Z.to_nat BUCKET_COUNT)%nat) idxs -> forall acc : PendingMerges V * list Bytes * list (Bytes * PendingMerge V),
      pending_ok acc.1.1 /\ (forall k e, pd_entry acc.1.1 k = Some e -> pd_entry (ws_pending s) k = Some e) /\ (forall k, k ∈ acc.1.2 -> is_Some (pd_entry (ws_pending s) k)) /\
      (forall k e, (k, e) ∈ acc.2 -> pd_entry (ws_pending s) k = Some e) ->
      let out := foldl (clear_stripe c) acc idxs in
      pending_ok out.1.1 /\ (forall k e, pd_entry out.1.1 k = Some e -> pd_entry (ws_pending s) k = Some e) /\ (forall k, k ∈ out.1.2 -> is_Some (pd_entry (ws_pending s) k)) /\
      (forall k e, (k, e) ∈ out.2 -> pd_entry (ws_pending s) k = Some e)).
    { induction 1 as [|i idxs Hi Hidx IH]; intros [[pd ks] fw] (H1 & H2 & H3 & H4); [done|]. cbn [foldl]. apply IH.
      pose proof (clear_stripe_spec c (ws_pending s) i pd ks fw Hi H1 H2 H3 H4) as Hc. by destruct (clear_stripe c (pd, ks, fw) i) as [[? ?] ?]. }
    apply Hgen; [apply all_stripes_once|exact Hbase]. }
  destruct split as [[pd ks] fw]. cbn [fst snd] in Hsplit. destruct Hsplit as (H1 & H2 & H3 & H4).
  destruct (flush_list_ok c now fw (with_pending s pd)) as (s1 & -> & Hk & Hok1).
  { by apply with_pending_ok. }
  { apply Forall_forall. intros [k e] He%H4. by apply (pending_flushable s k e Hok). }
  cbn [mbind option_bind]. eexists _, _. split; [reflexivity|]. split; [done|]. split; [by rewrite (kp_clock _ _ Hk)|].
  apply Forall_app. split.
  - apply Forall_forall. intros k [e He]%H3. exact (wk_fits _ Hok k e He).
  - apply Forall_forall. intros k [_ Hkk]%list_elem_of_filter. pose proof (engine_keys_fit (ws_engine s1) now (wk_inv _ Hok1)) as Hf. rewrite Forall_forall in Hf. by apply Hf.
Qed.

(** ** The write operations *)

Abbreviation all_stripes := (List.seq 0 (Z.to_nat BUCKET_COUNT)).

Inductive WriteOp :=
  | WInsert (key : Bytes) (value : V) (ttl : option Z)
  | WInsertMany (entries : list (Bytes * V)) (ttl : option Z)
  | WRemove (key : Bytes)
  | WRemoveMany (ks : list (option Bytes))
  | WMerge (key : Bytes) (value : V) (ttl : option Z)
  | WMergeSequenced (key : Bytes) (writer : WriterId) (make : WriterId -> Z -> V) (ttl : option Z)
  | WSweep
  | WFlushAll
  | WFlushBefore (key : Bytes) (ver : Hlc)
  | WClear.

Definition run_write (c : WConfig V) (s : WShard V) (op : WriteOp) (now : Z) : option (WShard V * result unit CacheError) :=
  match op with
  | WInsert key value ttl => insert_expiring (R := LwwResolver) c s key value ttl now
  | WInsertMany entries ttl => insert_many_expiring (R := LwwResolver) c s entries ttl now
  | WRemove key => remove_sync (R := LwwResolver) c s key now
  | WRemoveMany ks => remove_many (R := LwwResolver) c s ks now
  | WMerge key value ttl => merge_expiring (R := LwwResolver) c s key value ttl now
  | WMergeSequenced key writer make ttl => merge_sequenced_expiring (R := LwwResolver) c s key writer make ttl now
  | WSweep => (fun s => (s, Ok tt)) <$> flush_due_pending_merges (R := LwwResolver) c s now
  | WFlushAll => (fun s => (s, Ok tt)) <$> flush_all_pending_merges (R := LwwResolver) c s now
  | WFlushBefore key ver => (fun s => (s, Ok tt)) <$> flush_pending_merge_before (R := LwwResolver) c s key ver now
  | WClear => clear (R := LwwResolver) c s now
  end.

(** The keys a call names, and how many stamps it draws at most. *)
Definition op_keys (op : WriteOp) : list Bytes :=
  match op with
  | WInsert key _ _ | WRemove key | WMerge key _ _ | WMergeSequenced key _ _ _ => [key]
  | WInsertMany entries _ => entries.*1
  | WRemoveMany ks => omap id ks
  | _ => []
  end.
Definition op_stamps (c : WConfig V) (s : WShard V) (op : WriteOp) (now : Z) : nat :=
  match op with WClear => from_option (fun sk => length sk.2) 0%nat (keys_to_clear (R := LwwResolver) c s now) | _ => length (op_keys op) end.

Lemma removes_ok (c : WConfig V) s ks now : shard_ok s -> Forall key_fits (omap id ks) -> room_for_stamps s (length (omap id ks)) ->
  exists s' r, remove_many (R := LwwResolver) c s ks now = Some (s', r) /\ shard_ok s'.
Proof.
  intros Hok Hfit Hroom. unfold remove_many. pose proof (prepare_removes_spec now ks s [] Hok Hfit Hroom (Forall_nil_2 _)) as H.
  destruct (prepare_removes now s ks []) as [s1 [prepared|err]]; destruct H as (H1 & _ & H2); [|by eexists _, _].
  destruct (write_prepared_ok c s1 prepared now H1 H2) as (s' & r & -> & _ & Hok'). by exists s', r.
Qed.

Lemma stamped_apply_ok (c : WConfig V) s key now (i : WShard V -> Hlc -> Incoming V) : shard_ok s -> key_fits key -> room_for_stamps s 1 ->
  let '(s1, ver) := stamp_local s now in
  exists s' r, apply_or_forward (R := LwwResolver) c s1 key ver (i s1 ver) now = Some (s', r) /\ shard_ok s'.
Proof.
  intros Hok Hfit Hroom. destruct (stamped_ok s now Hok Hroom) as [Hok1 _]. pose proof (stamp_local_spec s now Hroom) as Hs.
  destruct (stamp_local s now) as [s1 ver]. cbn [fst] in Hok1. destruct Hs as (_ & Hlast & _).
  destruct (apply_or_forward_ok c s1 key ver (i s1 ver) now Hok1 Hfit) as (s' & r & -> & _ & Hok'); [rewrite Hlast; apply hlc_le_refl|]. by exists s', r.
Qed.

Lemma insert_many_ok (c : WConfig V) s entries ttl now : shard_ok s -> Forall (fun kv => key_fits kv.1) entries -> room_for_stamps s (length entries) ->
  exists s' r, insert_many_expiring (R := LwwResolver) c s entries ttl now = Some (s', r) /\ shard_ok s'.
Proof.
  intros Hok Hfit Hroom. unfold insert_many_expiring. destruct (check_ceiling c s); [|by eexists _, _].
  pose proof (prepare_inserts_spec c ttl now entries s Hok Hfit Hroom) as H. destruct (prepare_inserts c s entries ttl now) as [[s1 prepared] failure].
  destruct H as (H1 & _ & H2 & _). pose proof (partition_owned_sub c prepared _ H2) as [Ho _]. destruct (partition_owned c prepared) as [owned forwarded]. cbn [fst] in Ho.
  pose proof (forward_prepared_kept c s1 forwarded) as [Hk He]. destruct (forward_prepared c s1 forwarded) as [s2 queued]. cbn [fst] in *.
  pose proof (kept_same_ok s1 s2 H1 Hk He) as Hok2. destruct queued; cbn [negb]; [|by eexists _, _].
  destruct (grouped_ok c s2 owned now Hok2) as (s' & -> & _ & Hok'). { unfold prepared_ok in *. by rewrite (kp_clock _ _ Hk). }
  cbn. by eexists _, _.
Qed.

Lemma merges_ok (c : WConfig V) s key value ttl now : shard_ok s -> key_fits key -> room_for_stamps s 1 ->
  let windowed := fun s => let (s, ver) := stamp_local s now in
    fold_call (R := LwwResolver) c s now {| ct_key_bytes := key; ct_value := value; ct_encoded := encode_value value; ct_ver := ver;
                                           ct_expires_at_ms := expiry_for (R := LwwResolver) c now (wall_ms ver) ttl |} in
  shard_ok (windowed s).1.
Proof.
  intros Hok Hfit Hroom. cbv beta zeta. destruct (stamped_ok s now Hok Hroom) as [Hok1 _]. pose proof (stamp_local_spec s now Hroom) as Hs.
  destruct (stamp_local s now) as [s1 ver]. cbn [fst] in Hok1. destruct Hs as (_ & Hlast & _). apply fold_call_ok; [done|done|]. cbn. rewrite Hlast. apply hlc_le_refl.
Qed.

Lemma every_write_ok (c : WConfig V) (s : WShard V) (op : WriteOp) (now : Z)
  (Hok : shard_ok s) (Hkeys : Forall key_fits (op_keys op)) (Hroom : room_for_stamps s (op_stamps c s op now)) :
  exists s' r, run_write c s op now = Some (s', r) /\ shard_ok s'.
Proof.
  destruct op as [key value ttl|entries ttl|key|ks|key value ttl|key writer make ttl| | |key ver|]; cbn [run_write op_keys op_stamps length] in *.
  - apply Forall_cons in Hkeys as [Hk _]. unfold insert_expiring. destruct (check_ceiling c s); [|by eexists _, _].
    pose proof (stamped_apply_ok c s key now (fun _ ver => Put value (expiry_for (R := LwwResolver) c now (wall_ms ver) ttl) (encode_value value)) Hok Hk Hroom) as H.
    destruct (stamped_ok s now Hok Hroom) as [Hok1 _]. destruct (stamp_local s now) as [s1 ver]. destruct (_ <? _); [by eexists _, _|done].
  - rewrite length_fmap in Hroom. apply insert_many_ok; [done|by rewrite Forall_fmap in Hkeys|done].
  - apply Forall_cons in Hkeys as [Hk _]. unfold remove_sync. destruct (discard_ok s key Hok) as (Hok1 & _ & _).
    pose proof (stamped_apply_ok c _ key now (fun _ _ => DELETE) Hok1 Hk Hroom) as H. by destruct (stamp_local _ now).
  - by apply removes_ok.
  - apply Forall_cons in Hkeys as [Hk _]. unfold merge_expiring. destruct (check_ceiling c s); [|by eexists _, _]. destruct (check_value_frame _ _ _); [|by eexists _, _].
    pose proof (stamped_apply_ok c s key now (fun _ ver => Put value (expiry_for (R := LwwResolver) c now (wall_ms ver) ttl) (encode_value value)) Hok Hk Hroom) as H.
    pose proof (merges_ok c s key value ttl now Hok Hk Hroom) as Hw. cbv beta zeta in Hw. destruct (stamp_local s now) as [s1 ver].
    destruct (_ =? _); [done|]. destruct (fold_call c s1 now _) as [s2 r]. by exists s2, r.
  - apply Forall_cons in Hkeys as [Hk _]. unfold merge_sequenced_expiring. destruct (check_ceiling c s); [|by eexists _, _]. cbn [draw_merge_seq].
    assert (Hok0 : shard_ok (with_merge_seq s (ws_merge_seq s + 1))) by (by destruct Hok; split).
    assert (Hroom0 : room_for_stamps (with_merge_seq s (ws_merge_seq s + 1)) 1) by exact Hroom. set (value := make writer (ws_merge_seq s + 1)).
    destruct (check_value_frame _ _ _); [|by eexists _, _].
    pose proof (stamped_apply_ok c _ key now (fun _ ver => Put value (expiry_for (R := LwwResolver) c now (wall_ms ver) ttl) (encode_value value)) Hok0 Hk Hroom0) as H.
    pose proof (merges_ok c _ key value ttl now Hok0 Hk Hroom0) as Hw. cbv beta zeta in Hw. destruct (stamp_local _ now) as [s1 ver].
    destruct (_ =? _); cbn [negb]; [done|]. destruct (fold_call c s1 now _) as [s2 r]. by exists s2, r.
  - destruct (flush_stripes_ok c now (select_due now) _ all_stripes (fun i st => select_due_selects now i st) (proj2 all_stripes_once) s Hok) as (s' & Hf & Hok' & _).
    unfold flush_due_pending_merges. rewrite Hf. by eexists _, _.
  - destruct (flush_stripes_ok c now select_all _ all_stripes (fun i st => select_all_selects i st) (proj2 all_stripes_once) s Hok) as (s' & Hf & Hok' & _).
    unfold flush_all_pending_merges. rewrite Hf. by eexists _, _.
  - unfold flush_pending_merge_before. destruct (has_pending_merges _); cbn [negb]; [|by eexists _, _].
    pose proof (take_pending_spec (ws_pending s) key (fun pending_ver => pending_merge_superseded pending_ver ver) (wk_pending _ Hok)) as H.
    destruct (take_pending_merge_if _ _ _) as [pd taken]. destruct H as (H1 & H2 & H3).
    assert (Hok1 : shard_ok (with_pending s pd)) by (apply with_pending_ok; [done|done|intros k e; rewrite H3; by case_decide]).
    destruct taken as [e|]; cbn [from_option]; [|by eexists _, _]. symmetry in H2. apply bind_Some in H2 as (e0 & He & Hd). destruct (pending_merge_superseded _ _); [|done]. injection Hd as ->.
    destruct (flush_list_ok c now [(key, e)] _ Hok1) as (s' & Hf & _ & Hok'). { constructor; [|constructor]. apply (pending_flushable s _ _ Hok He). }
    cbn [foldl] in Hf. rewrite Hf. by eexists _, _.
  - unfold clear. destruct (keys_to_clear_ok c s now Hok) as (s1 & ks & Hc & Hok1 & Hclk & Hfit). rewrite Hc in Hroom |- *. cbn [mbind option_bind from_option snd] in *.
    assert (Hid : omap id (Some <$> ks) = ks) by (clear; induction ks as [|k ks IH]; [done|]; cbn in *; by rewrite IH).
    apply removes_ok; rewrite ?Hid; [done|done|]. unfold room_for_stamps in *. by rewrite Hclk.
Qed.

(** C2: Every write operation runs and keeps the shard well formed, under last-writer-wins in an uncapped cache:
    whatever the sizes, the ownership, the fan-out queue and the coalescing window, an insert, a bulk
    insert, a remove, a merge, a flush or a clear returns, the store's digests, totals and indexes and the
    pending map stay exact, and no version in either is ahead of the clock, so the next stamp is
    newer than all of them. The clock's counter must have room for the stamps drawn. *)
Theorem every_write_keeps_the_shard (c : WConfig V) (s : WShard V) (op : WriteOp) (now : Z)
  (Hok : shard_ok s) (Hkeys : Forall key_fits (op_keys op)) (Hroom : room_for_stamps s (op_stamps c s op now)) :
  exists s' r, run_write c s op now = Some (s', r) /\ shard_ok s'.
Proof. exact (every_write_ok c s op now Hok Hkeys Hroom). Qed.

(** C3: A write takes effect. In a well-formed shard under last-writer-wins, without a capacity cap and with room for a stamp
    in the clock's counter, a remove or an insert of a key that fits a record, if it succeeds on a node owning the key, is what the store holds under it
    when the call returns, at a stamp newer than anything the shard had seen, whichever clock the stored record came from; it is
    queued for the peers, no pending fold of a removed key is left to come back, and no other key changes. *)
Theorem a_local_write_takes_effect (c : WConfig V) (s : WShard V) (key : Bytes) (write : option (V * option Z)) (now : Z) s'
  (Hok : shard_ok s) (Hkey : key_fits key) (Hroom : room_for_stamps s 1) (Howns : owns_key_here c key = true)
  (Hrun : run_write c s (match write with Some (value, ttl) => WInsert key value ttl | None => WRemove key end) now = Some (s', Ok tt)) :
  let ver := HlcClock.last (ws_clock s') in
  hlc_lt (HlcClock.last (ws_clock s)) ver /\
  engine_record (ws_engine s') key = Some {|
    wr_key := key; wr_value := (fun w => encode_value w.1) <$> write; wr_ver := ver;
    wr_expires_at_ms := w ← write; expiry_for (R := LwwResolver) c now (wall_ms ver) w.2 |} /\
  (forall k, k <> key -> engine_record (ws_engine s') k = engine_record (ws_engine s) k) /\
  ws_queue s' = (push_item (ws_queue s) (Applied key ver)).1 /\
  (write = None -> pd_entry (ws_pending s') key = None) /\ (forall k, k <> key -> pd_entry (ws_pending s') k = pd_entry (ws_pending s) k).
Proof.
  assert (Hmain : forall s0 i, shard_ok s0 -> HlcClock.last (ws_clock s0) = HlcClock.last (ws_clock s) -> ws_engine s0 = ws_engine s -> ws_queue s0 = ws_queue s -> room_for_stamps s0 1 ->
    let '(s1, ver) := stamp_local s0 now in apply_or_forward (R := LwwResolver) c s1 key ver (i ver) now = Some (s', Ok tt) ->
    HlcClock.last (ws_clock s') = ver /\ hlc_lt (HlcClock.last (ws_clock s)) ver /\
    engine_record (ws_engine s') key = Some (wt_record (stamped_write c s1 now key ver (i ver))) /\
    (forall k, k <> key -> engine_record (ws_engine s') k = engine_record (ws_engine s) k) /\
    ws_queue s' = (push_item (ws_queue s) (Applied key ver)).1 /\ ws_pending s' = ws_pending s0).
  { intros s0 i Hok0 Hc0 He0 Hq0 Hr0. destruct (stamped_ok s0 now Hok0 Hr0) as (Hok1 & Hnew & _). pose proof (stamp_local_spec s0 now Hr0) as Hs.
    destruct (stamp_local s0 now) as [s1 ver]. cbn [fst snd] in *. destruct Hs as (Hlt & Hlast & He & Hp & Hq & _). intros Hap. unfold apply_or_forward in Hap. rewrite Howns in Hap. cbn [negb] in Hap.
    destruct (apply_lww c s1 key ver (i ver) now (wk_inv _ Hok1) (wk_cap _ Hok1) Hkey) as (s2 & Hap' & Hk & _ & Hrec & Hqueue). rewrite Hap' in Hap. injection Hap as <-.
    assert (Hn : is_none_or (engine_record (ws_engine s1) key) (fun r => hlc_ltb (wr_ver r) ver) = true).
    { rewrite He. destruct (engine_record (ws_engine s0) key) as [r|] eqn:Er; [|done]. cbn. exact (Hnew _ _ Er). }
    split_and!.
    - by rewrite (kp_clock _ _ Hk).
    - by rewrite <-Hc0.
    - rewrite Hrec. unfold lww_join. unfold stamped_write at 1. rewrite local_admitted. cbn [andb wt_key entry_write stamped_write be_key].
      rewrite bool_decide_eq_true_2 by done. destruct (engine_record (ws_engine s1) key) as [r|]; [|done]. cbn in Hn.
      change (wt_ver (stamped_write c s1 now key ver (i ver))) with ver. by rewrite Hn.
    - intros k Hne. rewrite Hrec. unfold lww_join. cbn [wt_key entry_write stamped_write be_key]. rewrite (bool_decide_eq_false_2 (key = k)) by done. by rewrite andb_false_r, He, He0.
    - by rewrite Hqueue, Hn, Hq, Hq0.
    - by rewrite (kp_pending _ _ Hk), Hp. }
  intros ver. destruct write as [[value ttl]|]; cbn [run_write] in Hrun.
  - unfold insert_expiring in Hrun. destruct (check_ceiling c s); [|done].
    specialize (Hmain s (fun ver => Put value (expiry_for (R := LwwResolver) c now (wall_ms ver) ttl) (encode_value value)) Hok eq_refl eq_refl eq_refl Hroom).
    destruct (stamp_local s now) as [s1 v]. destruct (_ <? _); [done|]. destruct (Hmain Hrun) as (H1 & H2 & H3 & H4 & H5 & H6). unfold ver. rewrite H1. split_and!; try done.
    intros k _. by rewrite H6.
  - unfold remove_sync in Hrun. destruct (discard_ok s key Hok) as (Hok1 & Hgone & Hoth).
    specialize (Hmain _ (fun _ => DELETE) Hok1 eq_refl eq_refl eq_refl Hroom). destruct (stamp_local _ now) as [s1 v].
    destruct (Hmain Hrun) as (H1 & H2 & H3 & H4 & H5 & H6). unfold ver. rewrite H1. split_and!; try done.
    + intros _. rewrite H6. exact Hgone.
    + intros k Hne. rewrite H6. by apply Hoth.
Qed.

(** C12: A bulk remove that meets a key it cannot encode removes nothing: no record changes and nothing is queued
    for the peers, while the pending folds of every key named before it are gone. *)
Theorem a_failed_bulk_remove_only_discards (c : WConfig V) (s : WShard V) (before : list Bytes) (rest : list (option Bytes)) (now : Z)
  (Hok : shard_ok s) (Hkeys : Forall key_fits before) (Hroom : room_for_stamps s (length before)) :
  exists s', run_write c s (WRemoveMany ((Some <$> before) ++ None :: rest)) now = Some (s', Err CodecFailed) /\
    ws_engine s' = ws_engine s /\ ws_queue s' = ws_queue s /\
    forall k, pd_entry (ws_pending s') k = if decide (k ∈ before) then None else pd_entry (ws_pending s) k.
Proof.
  cbn [run_write]. unfold remove_many.
  assert (Hgen : forall before s prepared, shard_ok s -> room_for_stamps s (length before) ->
    exists s', prepare_removes now s ((Some <$> before) ++ None :: rest) prepared = (s', Err CodecFailed) /\ ws_engine s' = ws_engine s /\ ws_queue s' = ws_queue s /\
      forall k, pd_entry (ws_pending s') k = if decide (k ∈ before) then None else pd_entry (ws_pending s) k).
  { clear. induction before as [|key before IH]; intros s prepared Hok Hroom; cbn [fmap list_fmap app prepare_removes].
    { exists s. by split_and!. }
    destruct (discard_ok s key Hok) as (Hok1 & Hgone & Hoth). set (s1 := with_pending s _) in *.
    assert (Hroom1 : room_for_stamps s1 1) by (destruct Hroom as [H0 H1]; split; [done|cbn in *; lia]).
    destruct (stamped_ok s1 now Hok1 Hroom1) as [Hok2 _]. pose proof (stamp_local_spec s1 now Hroom1) as Hs. destruct (stamp_local s1 now) as [s2 ver]. cbn [fst] in Hok2.
    destruct Hs as (_ & _ & He & Hp & Hq & Hnext). destruct (IH s2 (prepared ++ [{| pr_key := key; pr_ver := ver; pr_incoming := DELETE |}]) Hok2 (Hnext _ Hroom)) as (s' & -> & H1 & H2 & H3).
    exists s'. split; [done|]. split; [by rewrite H1, He|]. split; [by rewrite H2, Hq|]. intros k. rewrite H3, Hp. cbn [ws_pending with_pending s1].
    destruct (decide (k = key)) as [->|Hne].
    - rewrite (decide_True (P := key ∈ key :: before)) by (by left). by case_decide.
    - rewrite Hoth by done. apply decide_ext. rewrite elem_of_cons. tauto. }
  destruct (Hgen before s [] Hok Hroom) as (s' & -> & H1 & H2 & H3). by exists s'.
Qed.

(** ** Bulk against one by one *)

(** Inserting entries in turn, up to the first error. *)
Fixpoint insert_each (c : WConfig V) (s : WShard V) (entries : list (Bytes * V)) (ttl : option Z) (now : Z) : option (WShard V * result unit CacheError) :=
  match entries with
  | [] => Some (s, Ok tt)
  | (key, value) :: entries =>
      '(s, r) ← insert_expiring (R := LwwResolver) c s key value ttl now;
      match r with Ok _ => insert_each c s entries ttl now | Err err => Some (s, Err err) end
  end.

Definition is_ceiling (r : result unit CacheError) : bool := match r with Err (OverMemoryCeiling _ _) => true | _ => false end.

(** What is prepared depends on the clock alone. *)
Lemma prepare_by_clock (c : WConfig V) ttl now entries : forall s t, ws_clock s = ws_clock t ->
  let '(s', p, f) := prepare_inserts (R := LwwResolver) c s entries ttl now in let '(t', p', f') := prepare_inserts (R := LwwResolver) c t entries ttl now in
  p = p' /\ f = f' /\ ws_clock s' = ws_clock t' /\ ws_engine s' = ws_engine s.
Proof.
  induction entries as [|[key value] entries IH]; intros s t Hc; cbn [prepare_inserts]; [done|]. unfold stamp_local. rewrite Hc. destruct (HlcClock.now (ws_clock t) now) as [clk ver].
  destruct (_ <? _); [done|]. specialize (IH (with_clock s clk) (with_clock t clk) eq_refl).
  destruct (prepare_inserts c (with_clock s clk) entries ttl now) as [[s' p] f], (prepare_inserts c (with_clock t clk) entries ttl now) as [[t' p'] f'].
  destruct IH as (-> & -> & H1 & H2). by split_and!.
Qed.

Lemma prepare_queue (c : WConfig V) ttl now entries : forall s, ws_queue (prepare_inserts (R := LwwResolver) c s entries ttl now).1.1 = ws_queue s.
Proof.
  induction entries as [|[key value] entries IH]; intros s; cbn [prepare_inserts]; [done|]. unfold stamp_local. destruct (HlcClock.now (ws_clock s) now) as [clk ver].
  destruct (_ <? _); [done|]. specialize (IH (with_clock s clk)). by destruct (prepare_inserts c (with_clock s clk) entries ttl now) as [[s' p] f].
Qed.

Lemma prepared_write_same (c : WConfig V) s s' now p : same_config (ws_engine s) (ws_engine s') -> prepared_write c s' now p = prepared_write c s now p.
Proof. intros Hs. unfold prepared_write, stamped_write. by rewrite (batch_ctx_same _ _ _ _ _ _ _ Hs). Qed.

(** *** The forwards queued *)

Definition as_forward (item : FanOutItem) : option WireRecord := match item with Forward rec => Some rec | Applied _ _ => None end.
Definition queued_forwards (q : FanOutQueue) : list WireRecord := omap as_forward (fq_pending q).

(** The record a prepared write is forwarded as. *)
Definition forward_record (p : Prepared V) : WireRecord :=
  match pr_incoming p with
  | Put _ expires_at_ms encoded => {| wr_key := pr_key p; wr_value := Some encoded; wr_ver := pr_ver p; wr_expires_at_ms := expires_at_ms |}
  | IncTombstone _ => {| wr_key := pr_key p; wr_value := None; wr_ver := pr_ver p; wr_expires_at_ms := None |}
  end.

(** The queue has taken [recs] to forward, whatever else it took. *)
Record took (q q' : FanOutQueue) (recs : list WireRecord) : Prop := {
  tk_closed : fq_closed q' = fq_closed q;
  tk_accepting : fq_accepting q' = fq_accepting q;
  tk_forwards : queued_forwards q' = queued_forwards q ++ (if fq_accepting q then recs else []);
}.

Lemma took_refl q : took q q [].
Proof. split; [done|done|]. destruct (fq_accepting q); by rewrite app_nil_r. Qed.

Lemma took_trans q q1 q2 xs ys : took q q1 xs -> took q1 q2 ys -> took q q2 (xs ++ ys).
Proof.
  intros [H1 H2 H3] [K1 K2 K3]. split; [congruence|congruence|]. rewrite K3, H3, H2, <-app_assoc. by destruct (fq_accepting q).
Qed.

Lemma extend_took q items : fq_closed q = false -> exists q', extend q items = (q', true) /\ took q q' (omap as_forward items).
Proof.
  intros Hc. unfold extend, is_open. rewrite Hc. cbn. destruct (fq_accepting q) eqn:Ea; cbn.
  - eexists. split; [reflexivity|]. split; cbn; [done|done|]. unfold queued_forwards. cbn. by rewrite Ea, omap_app.
  - eexists. split; [reflexivity|]. split; [done|done|]. by rewrite Ea, app_nil_r.
Qed.

Lemma push_took q item : fq_closed q = false -> exists q', push_item q item = (q', true) /\ took q q' (option_list (as_forward item)).
Proof.
  intros Hc. destruct (extend_took q [item] Hc) as (q' & He & Ht). exists q'. split; [exact He|]. cbn in Ht. by destruct (as_forward item).
Qed.

Lemma applied_took q item : as_forward item = None -> fq_closed q = false -> took q (push_item q item).1 [].
Proof. intros Hi Hc. destruct (push_took q item Hc) as (q' & -> & Ht). by rewrite Hi in Ht. Qed.

(** *** Grouped applies forward nothing *)

Lemma hand_off_took (s : WShard V) landed flush : fq_closed (ws_queue s) = false -> took (ws_queue s) (ws_queue (hand_off_bulk s landed flush).1) [].
Proof.
  intros Hc. unfold hand_off_bulk. destruct (_ || _); [apply took_refl|]. cbn.
  destruct (extend_took (ws_queue s) ((fun kv => Applied kv.1 kv.2) <$> landed) Hc) as (q' & -> & Ht). cbn.
  assert (Hn : omap as_forward ((fun kv => Applied kv.1 kv.2) <$> landed) = []) by (clear; induction landed; done). by rewrite Hn in Ht.
Qed.

Lemma note_outcomes_queue (c : WConfig V) bucket outs : forall acc, ws_queue (foldl (note_outcome c bucket) acc outs).1.1 = ws_queue acc.1.1.
Proof.
  induction outs as [|[i o] outs IH]; intros [[s applied] refused]; [done|]. cbn [foldl]. rewrite IH. unfold note_outcome. cbn.
  by destruct o as [|k v cr ver|k ver|k sz].
Qed.

Lemma foldl_None {A B} (f : option A -> B -> option A) l : (forall x, f None x = None) -> foldl f None l = None.
Proof. intros Hf. induction l as [|x l IH]; [done|]. cbn. by rewrite Hf. Qed.

Lemma groups_took (c : WConfig V) entries now buckets : forall g g', foldl (group_step (R := LwwResolver) c entries now) (Some g) buckets = Some g' ->
  fq_closed (ws_queue (gs_shard g)) = false -> took (ws_queue (gs_shard g)) (ws_queue (gs_shard g')) [].
Proof.
  induction buckets as [|b buckets IH]; intros g g'; cbn [foldl]; [intros [= <-] _; apply took_refl|]. intros Hf Hc.
  destruct (group_step c entries now (Some g) b) as [g1|] eqn:Es; [|by rewrite (foldl_None (group_step c entries now)) in Hf by done].
  assert (H1 : took (ws_queue (gs_shard g)) (ws_queue (gs_shard g1)) []).
  { unfold group_step in Es. cbn [mbind option_bind] in Es. destruct (filter _ entries); [injection Es as <-; apply took_refl|].
    apply bind_Some in Es as ([[[e w] outs] x] & _ & Es). pose proof (note_outcomes_queue c b (imap pair outs) (with_engine (gs_shard g) e, gs_applied g, gs_refused g)) as Hq.
    destruct (foldl _ _ _) as [[s applied] refused]. cbn [fst] in Hq. pose proof (hand_off_took s applied false) as Ht.
    destruct (hand_off_bulk s applied false) as [s2 applied2]. injection Es as <-. cbn [gs_shard fst] in *. rewrite Hq in Ht. by apply Ht. }
  apply (took_trans _ _ _ [] [] H1). apply (IH g1 g' Hf). by rewrite (tk_closed _ _ _ H1).
Qed.

Lemma apply_grouped_took (c : WConfig V) s prepared now s' r : apply_grouped (R := LwwResolver) c s prepared now = Some (s', r) ->
  fq_closed (ws_queue s) = false -> took (ws_queue s) (ws_queue s') [].
Proof.
  intros Hap Hc. unfold apply_grouped in Hap. apply bind_Some in Hap as (g & Hg & Hap). apply groups_took in Hg; [|done]. cbn [gs_shard] in Hg.
  pose proof (hand_off_took (gs_shard g) (gs_applied g) true) as Ht. destruct (hand_off_bulk _ _ _) as [s2 a]. injection Hap as <- _.
  apply (took_trans _ _ _ [] [] Hg), Ht. by rewrite (tk_closed _ _ _ Hg).
Qed.

(** *** The forwards of a bulk write *)

Lemma forward_write_spec (c : WConfig V) s p : exists s1, forward_write c s (pr_key p) (pr_incoming p) (pr_ver p) = (s1, forward_record p) /\
  kept s s1 /\ ws_engine s1 = ws_engine s /\ ws_queue s1 = ws_queue s.
Proof. unfold forward_write, forward_record. destruct (pr_incoming p); eexists; (split; [reflexivity|]); by split. Qed.

Lemma forwards_omap (recs : list WireRecord) : omap as_forward (Forward <$> recs) = recs.
Proof. induction recs as [|r recs IH]; [done|]. cbn. by f_equal. Qed.

Lemma forward_loop_took (c : WConfig V) prepared : forall s landed, fq_closed (ws_queue s) = false ->
  exists s', forward_loop c s landed prepared = (s', true) /\ took (ws_queue s) (ws_queue s') (landed ++ (forward_record <$> prepared)).
Proof.
  induction prepared as [|p prepared IH]; intros s landed Hc; cbn [forward_loop].
  - destruct (extend_took (ws_queue s) (Forward <$> landed) Hc) as (q & -> & Ht). eexists. split; [reflexivity|]. rewrite forwards_omap in Ht. cbn. by rewrite app_nil_r.
  - destruct (forward_write_spec c s p) as (s1 & -> & _ & _ & Hq). assert (Heq : landed ++ (forward_record <$> p :: prepared) = (landed ++ [forward_record p]) ++ (forward_record <$> prepared)) by (rewrite fmap_cons; by rewrite <-app_assoc).
    rewrite Heq. destruct (_ <=? _).
    + rewrite Hq. destruct (extend_took (ws_queue s) (Forward <$> landed ++ [forward_record p]) Hc) as (q & -> & Ht). rewrite forwards_omap in Ht.
      destruct (IH (with_queue s1 q) []) as (s' & -> & Ht'); [by rewrite <-Hc, <-(tk_closed _ _ _ Ht)|]. exists s'. split; [done|]. by apply (took_trans _ q).
    + rewrite <-Hq in Hc |- *. by apply IH.
Qed.

Lemma forward_prepared_took (c : WConfig V) s prepared : fq_closed (ws_queue s) = false ->
  exists s', forward_prepared c s prepared = (s', true) /\ took (ws_queue s) (ws_queue s') (forward_record <$> prepared).
Proof.
  intros Hc. unfold forward_prepared. destruct prepared as [|p prepared]; [exists s; split; [done|apply took_refl]|]. by apply forward_loop_took.
Qed.

Lemma partition_owned_filter (c : WConfig V) prepared : partition_owned c prepared =
  (filter (fun p => owns_key_here c (pr_key p) = true) prepared, filter (fun p => owns_key_here c (pr_key p) = false) prepared).
Proof.
  unfold partition_owned, owns_key_here. destruct (wc_ownership c) as [view|]; [done|]. cbn. f_equal.
  - symmetry. apply list_filter_all. by apply Forall_forall.
  - symmetry. by apply filter_none.
Qed.

Lemma insert_each_spec (c : WConfig V) ttl now entries : Forall (fun kv => key_fits kv.1) entries ->
  forall s s' r, engine_inv (ws_engine s) -> max_capacity (cfg (ws_engine s)) = u64_max -> fq_closed (ws_queue s) = false ->
  insert_each c s entries ttl now = Some (s', r) -> is_ceiling r = false ->
  let '(s1, prepared, failure) := prepare_inserts (R := LwwResolver) c s entries ttl now in
  ws_clock s' = ws_clock s1 /\ r = from_option Err (Ok tt) failure /\ engine_inv (ws_engine s') /\
  (forall k, engine_record (ws_engine s') k = foldl (lww_join k) (engine_record (ws_engine s) k) (prepared_write c s now <$> (partition_owned c prepared).1)) /\
  took (ws_queue s) (ws_queue s') (forward_record <$> (partition_owned c prepared).2).
Proof.
  induction 1 as [|[key value] entries Hk Hfit IH]; intros s s' r He Hcap Hc; cbn [insert_each prepare_inserts].
  { intros [= <- <-] _. rewrite partition_owned_filter. split_and!; try done. apply took_refl. }
  cbn [fst] in Hk. unfold insert_expiring. destruct (check_ceiling c s) as [[]|err] eqn:Ec; cycle 1.
  { cbn. intros [= <- <-]. unfold check_ceiling in Ec. destruct (at_ceiling c s); [|done]. by injection Ec as <-. }
  assert (Hst : ws_engine (stamp_local s now).1 = ws_engine s /\ ws_queue (stamp_local s now).1 = ws_queue s) by (unfold stamp_local; by destruct (HlcClock.now _ _)).
  destruct (stamp_local s now) as [s1 ver]. cbn [fst] in Hst. destruct Hst as [Hst Hsq].
  destruct (_ <? _).
  { cbn. intros [= <- <-] _. rewrite partition_owned_filter, Hst, Hsq. split_and!; try done. apply took_refl. }
  set (p := {| pr_key := key; pr_ver := ver; pr_incoming := Put value _ _ |}).
  assert (Hstep : exists s2, apply_or_forward (R := LwwResolver) c s1 key ver (pr_incoming p) now = Some (s2, Ok tt) /\ kept s1 s2 /\ engine_inv (ws_engine s2) /\
    (forall k, engine_record (ws_engine s2) k = foldl (lww_join k) (engine_record (ws_engine s) k) (prepared_write c s now <$> (partition_owned c [p]).1)) /\
    took (ws_queue s) (ws_queue s2) (forward_record <$> (partition_owned c [p]).2)).
  { rewrite partition_owned_filter, !filter_cons, !filter_nil. unfold apply_or_forward. cbn [fst snd pr_key p]. destruct (owns_key_here c key); cbn [negb].
    - destruct (apply_lww c s1 key ver (pr_incoming p) now) as (s2 & -> & Hkept & He2 & Hrec & Hq); [by rewrite Hst..|done|]. exists s2. split_and!; try done.
      + intros k. rewrite decide_True by done. cbn [foldl fmap list_fmap]. rewrite Hrec, Hst. unfold prepared_write, stamped_write. by rewrite Hst.
      + rewrite decide_False by done. rewrite Hq, Hsq. destruct (is_none_or _ _); [by apply applied_took|apply took_refl].
    - destruct (forward_write_spec c s1 p) as (s2 & Hfw & Hkept & He2 & Hq2). cbn [pr_key pr_ver p] in Hfw. rewrite Hfw.
      destruct (push_took (ws_queue s2) (Forward (forward_record p))) as (q & -> & Ht); [by rewrite Hq2, Hsq|].
      eexists. split; [reflexivity|]. split; [by destruct Hkept; split|]. cbn. rewrite He2, Hst. split_and!; [done|by rewrite decide_False|].
      rewrite decide_True by done. by rewrite Hq2, Hsq in Ht. }
  destruct Hstep as (s2 & Hap & Hkept & He2 & Hrec & Ht). cbn [pr_incoming p] in Hap. rewrite Hap. cbn [mbind option_bind]. intros Hrest Hr.
  assert (Hcap2 : max_capacity (cfg (ws_engine s2)) = u64_max) by (destruct (kp_config _ _ Hkept) as [-> _]; by rewrite Hst).
  specialize (IH s2 s' r He2 Hcap2 ltac:(by rewrite (tk_closed _ _ _ Ht)) Hrest Hr). pose proof (prepare_by_clock c ttl now entries s2 s1 (kp_clock _ _ Hkept)) as Hpc.
  destruct (prepare_inserts c s2 entries ttl now) as [[t q] f], (prepare_inserts c s1 entries ttl now) as [[t' q'] f'].
  destruct Hpc as (-> & -> & Hclk & _), IH as (H1 & H2 & H3 & H4 & H5).
  rewrite partition_owned_filter in Hrec, Ht, H4, H5 |- *. cbn [fst snd] in *. change (p :: q') with ([p] ++ q'). rewrite !filter_app, !fmap_app.
  split; [congruence|]. split; [done|]. split; [done|]. split; [|by apply (took_trans _ (ws_queue s2))].
  intros k. rewrite foldl_app, <-Hrec, H4. f_equal. apply list_fmap_ext. intros _ x _. apply prepared_write_same. rewrite <-Hst. apply Hkept.
Qed.

(** C4: A bulk insert is its inserts, made in turn. In a shard under last-writer-wins, without a capacity cap, whose fan-out
    queue is open: splitting off the keys the node does not own, forwarding those a batch at a time, and applying the others cut by stripe
    leaves the same record under every key, the same forwards queued in the same order, the same clock and the same result as inserting the
    entries one after another: all of them, or those before the first too large for a frame and its error. (The keys fit a record,
    and a bulk insert checks the memory ceiling once, so the inserts in turn must not meet it.) *)
Theorem bulk_insert_is_one_by_one (c : WConfig V) (s : WShard V) (entries : list (Bytes * V)) (ttl : option Z) (now : Z) s1 r1
  (Hinv : engine_inv (ws_engine s)) (Hcap : max_capacity (cfg (ws_engine s)) = u64_max) (Hopen : fq_closed (ws_queue s) = false)
  (Hkeys : Forall (fun kv => key_fits kv.1) entries) (Hstart : check_ceiling c s = Ok tt)
  (Heach : insert_each c s entries ttl now = Some (s1, r1)) (Hceil : is_ceiling r1 = false) :
  exists s2, insert_many_expiring (R := LwwResolver) c s entries ttl now = Some (s2, r1) /\ ws_clock s2 = ws_clock s1 /\ engine_inv (ws_engine s2) /\
    (forall k, engine_record (ws_engine s2) k = engine_record (ws_engine s1) k) /\ digest (ws_engine s2) = digest (ws_engine s1) /\
    queued_forwards (ws_queue s2) = queued_forwards (ws_queue s1).
Proof.
  pose proof (insert_each_spec c ttl now entries Hkeys s s1 r1 Hinv Hcap Hopen Heach Hceil) as H.
  assert (Hkp : Forall (fun p => key_fits (pr_key p)) (prepare_inserts (R := LwwResolver) c s entries ttl now).1.2).
  { clear -Hkeys. revert s. induction Hkeys as [|[key value] entries Hk Hfit IH]; intros s; cbn [prepare_inserts]; [constructor|]. destruct (stamp_local s now) as [s1 ver].
    destruct (_ <? _); [constructor|]. specialize (IH s1). destruct (prepare_inserts c s1 entries ttl now) as [[? ?] ?]. by constructor. }
  unfold insert_many_expiring. rewrite Hstart. pose proof (prepare_by_clock c ttl now entries s s eq_refl) as Hpc.
  pose proof (prepare_queue c ttl now entries s) as Hpq.
  destruct (prepare_inserts c s entries ttl now) as [[s2 prepared] failure]. destruct H as (Hclk & Hr & Hinv1 & Hrec & Htook), Hpc as (_ & _ & _ & He2). cbn [fst snd] in Hkp, Hpq.
  pose proof (partition_owned_sub c prepared _ Hkp) as [Hko _]. destruct (partition_owned c prepared) as [owned forwarded]. cbn [fst snd] in *.
  pose proof (forward_prepared_kept c s2 forwarded) as [Hfk Hfe]. destruct (forward_prepared_took c s2 forwarded) as (s3 & Hfp & Ht3); [by rewrite Hpq|].
  rewrite Hfp in Hfk, Hfe |- *. cbn [fst negb] in *.
  destruct (apply_grouped_lww c s3 owned now) as (s4 & Hag & Hk & Hinv4 & Hrec4); [by rewrite Hfe, He2..|done|]. rewrite Hag. cbn [mbind option_bind].
  apply apply_grouped_took in Hag; [|by rewrite (tk_closed _ _ _ Ht3), Hpq].
  assert (Hsame : forall k, engine_record (ws_engine s4) k = engine_record (ws_engine s1) k).
  { intros k. rewrite Hrec4, Hrec, Hfe, He2. f_equal. apply list_fmap_ext. intros _ p _. apply prepared_write_same. by rewrite Hfe, He2. }
  exists s4. split; [by destruct failure; cbn in Hr; subst r1|]. split; [by rewrite (kp_clock _ _ Hk), (kp_clock _ _ Hfk)|]. split; [done|]. split; [done|]. split.
  - apply engine_digest_eq; [done|done|]. intros k. by rewrite Hsame.
  - pose proof (took_trans _ _ _ _ _ Ht3 Hag) as [_ _ Hq]. by rewrite Hq, app_nil_r, Hpq, (tk_forwards _ _ _ Htook).
Qed.

End Lww.

(** ** Concrete runs *)

Definition demo_write_config : WConfig Bytes := {|
  wc_name := [99]; wc_ownership := None; wc_max_frame := 200; wc_ttl := Some 60000; wc_merge_window := 0;
  wc_tombstone_ttl_ms := 60000; wc_tombstone_max_ttl_ms := 600000; wc_max_resident_bytes := u64_max; wc_listening := true; wc_key_order := fmap be_key |}.
Definition demo_write_shard : WShard Bytes := {|
  ws_engine := small_engine; ws_clock := (HlcClock.observe (HlcClock.new 7) 0 (stamp 900 9)).1; ws_queue := queue_new true; ws_pending := pending_new;
  ws_merge_seq := 0; ws_events := []; ws_merge_refused := 0 |}.

Lemma demo_write_shard_ok : shard_ok demo_write_shard.
Proof.
  assert (Hnone : forall k, pd_entry (V := Bytes) pending_new k = None) by (by apply (has_pending_spec pending_new pending_new_ok)).
  split; [exact small_engine_inv|reflexivity|exact pending_new_ok|intros k e; cbn; by rewrite Hnone| |intros k e; cbn; by rewrite Hnone].
  intros k r. cbn [ws_engine demo_write_shard]. unfold small_engine. rewrite run_writes_lww; [|apply engine_new_inv|repeat constructor; vm_compute; discriminate].
  apply lww_join_leads; [unfold empty_engine; by rewrite engine_new_record|].
  intros w Hw. repeat (apply elem_of_cons in Hw as [->|Hw]); [vm_compute; reflexivity..|by apply not_elem_of_nil in Hw].
Qed.

Lemma every_write_keeps_the_shard_witness :
  exists s' r, run_write demo_write_config demo_write_shard (WInsertMany [([1], [7]); ([4], [8])] None) 1000 = Some (s', r) /\ shard_ok s'.
Proof.
  apply (every_write_keeps_the_shard demo_write_config demo_write_shard (WInsertMany [([1], [7]); ([4], [8])] None) 1000 demo_write_shard_ok).
  - repeat constructor; vm_compute; discriminate.
  - split; vm_compute; discriminate.
Defined.

Lemma a_local_write_takes_effect_witness :
  exists s', run_write demo_write_config demo_write_shard (WInsert [1] [7] None) 800 = Some (s', Ok tt) /\
    engine_record (ws_engine s') [1] = Some {| wr_key := [1]; wr_value := Some [7]; wr_ver := HlcClock.last (ws_clock s'); wr_expires_at_ms := Some 60800 |} /\
    hlc_lt (stamp 900 9) (HlcClock.last (ws_clock s')).
Proof.
  assert (H : snd <$> run_write demo_write_config demo_write_shard (WInsert [1] [7] None) 800 = Some (Ok tt)) by (vm_compute; reflexivity).
  apply fmap_Some in H as ([s' r] & E & Hr). cbn in Hr. subst r.
  destruct (a_local_write_takes_effect demo_write_config demo_write_shard [1] (Some ([7], None)) 800 s' demo_write_shard_ok) as (H1 & H2 & _).
  - vm_compute. discriminate.
  - split; vm_compute; discriminate.
  - reflexivity.
  - exact E.
  - exists s'. split; [exact E|]. split; [exact H2|]. eapply hlc_le_lt_trans; [|exact H1]. vm_compute. reflexivity.
Defined.

(** A node that owns every other bucket: [[4]] is its own, [[1]] is forwarded. *)
Definition half_view : OwnershipView := from_owners 7 [7; 8] 1 Bucket ((fun i => if Z.even i then 7 else 8) <$> seqZ 0 BUCKET_COUNT).
Definition half_config : WConfig Bytes := {|
  wc_name := [99]; wc_ownership := Some half_view; wc_max_frame := 200; wc_ttl := Some 60000; wc_merge_window := 0;
  wc_tombstone_ttl_ms := 60000; wc_tombstone_max_ttl_ms := 600000; wc_max_resident_bytes := u64_max; wc_listening := true; wc_key_order := fmap be_key |}.

(** The third entry does not fit the frame: both stop before it, with one of the other two applied and one forwarded. *)
Lemma bulk_insert_is_one_by_one_witness :
  let entries := [([1], [7]); ([4], [8]); ([5], replicate 300 0); ([2], [9])] in
  exists s1 s2 err, insert_each half_config demo_write_shard entries None 1000 = Some (s1, Err err) /\
    insert_many_expiring (R := LwwResolver) half_config demo_write_shard entries None 1000 = Some (s2, Err err) /\
    length (queued_forwards (ws_queue s2)) = 1%nat /\ forall k, engine_record (ws_engine s2) k = engine_record (ws_engine s1) k.
Proof.
  intros entries.
  assert (H : (fun sr => (sr.2, length (queued_forwards (ws_queue sr.1)))) <$> insert_each half_config demo_write_shard entries None 1000 =
    Some (Err (ValueTooLarge 300 200), 1%nat)) by (vm_compute; reflexivity).
  apply fmap_Some in H as ([s1 r1] & E & Hr). cbn [fst snd] in Hr. injection Hr as <- Hn.
  destruct (bulk_insert_is_one_by_one half_config demo_write_shard entries None 1000 s1 (Err (ValueTooLarge 300 200)) small_engine_inv) as (s2 & H1 & _ & _ & H2 & _ & H3).
  - reflexivity.
  - reflexivity.
  - repeat constructor; vm_compute; discriminate.
  - reflexivity.
  - exact E.
  - reflexivity.
  - exists s1, s2, (ValueTooLarge 300 200). split; [exact E|]. split; [exact H1|]. split; [by rewrite H3|exact H2].
Defined.

(** A shard with a window, a fold pending under [[1]]. *)
Definition windowed_config : WConfig Bytes := {|
  wc_name := [99]; wc_ownership := None; wc_max_frame := 200; wc_ttl := None; wc_merge_window := 100; wc_tombstone_ttl_ms := 60000;
  wc_tombstone_max_ttl_ms := 600000; wc_max_resident_bytes := u64_max; wc_listening := false; wc_key_order := fmap be_key |}.

Lemma a_failed_bulk_remove_only_discards_witness :
  exists s s', run_write windowed_config demo_write_shard (WMerge [1] [7] None) 1000 = Some (s, Ok tt) /\ is_Some (pd_entry (ws_pending s) [1]) /\
    run_write windowed_config s (WRemoveMany [Some [1]; None]) 1010 = Some (s', Err CodecFailed) /\
    pd_entry (ws_pending s') [1] = None /\ engine_record (ws_engine s') [1] = engine_record (ws_engine s) [1].
Proof.
  assert (H : (fun x => (x.2, is_some (pd_entry (ws_pending x.1) [1]), logical (HlcClock.last (ws_clock x.1)))) <$> run_write windowed_config demo_write_shard (WMerge [1] [7] None) 1000 =
    Some (Ok tt, true, 0)) by (vm_compute; reflexivity).
  apply fmap_Some in H as ([s r] & E & Hr). cbn in Hr. injection Hr as <- Hp Hl.
  assert (Hok : shard_ok s).
  { destruct (every_write_ok windowed_config demo_write_shard (WMerge [1] [7] None) 1000 demo_write_shard_ok) as (s1 & r1 & E1 & Hok1).
    - repeat constructor; vm_compute; discriminate.
    - split; vm_compute; discriminate.
    - rewrite E in E1. by injection E1 as <- _. }
  destruct (a_failed_bulk_remove_only_discards windowed_config s [[1]] [] 1010 Hok) as (s' & H1 & H2 & _ & H3).
  - repeat constructor; vm_compute; discriminate.
  - split; rewrite <-Hl; vm_compute; discriminate.
  - exists s, s'. split; [exact E|]. split; [by destruct (pd_entry (ws_pending s) [1]); [eexists|]|]. split; [exact H1|]. split; [by rewrite H3, decide_True by (by left)|]. by rewrite H2.
Defined.
