(* ===== verification/Rearm.v ===== *)
(** * Re-arming an entry's lifetime

    [store/shard_rearm.rs]: [expire], [touch], [persist], [ttl_of], the local re-arm they share and the re-arm
    from an owner's answer. A re-arm reads the entry and applies it back under two locks; [meanwhile] is what
    everyone else does to the shard between them. The two residencies are the readings before and after the wait for fan-out
    room. *)

From S2P Require Import Prelude SkewHold Clock Part Types Record Expiry Sketch Wire Merge Arena Engine Apply Removal Evict Prefold Batch Read Serve Ownership Residency FanOut Mesh PeerServe Inbound Pending LocalWrite.

(** ** Definitions *)

Inductive Lifetime := LifeFor (ttl : Z) | LifeDefault | LifeUnbounded.
Inductive LocalRearm := Rearmed | RearmAbsent | NotHeld.

Section Rearm.
Context {PU : PostcardU32} {HS : Hashing} {R : ConflictResolver} {V : Type} {VC : ValueCodec V} {IS : IdleSort}.

Definition shard_ttl_of (s : WShard V) (key : Bytes) (now_ms : Z) : option Ttl := ttl_of (ws_engine s) key now_ms.

Definition deadline_for (c : WConfig V) (now_ms base_wall_ms : Z) (lifetime : Lifetime) : option Z :=
  match lifetime with
  | LifeFor ttl => expiry_for c now_ms base_wall_ms (Some ttl)
  | LifeDefault => expiry_for c now_ms base_wall_ms None
  | LifeUnbounded => None
  end.

(** The live value a re-arm starts from; without the spill feature nothing is read back from disk. *)
Definition rearm_base (e : Engine V) (key : Bytes) (now_ms : Z) : result (option (Hlc * V * Bytes)) CacheError :=
  match rec ← record_for e key now_ms; encoded ← wr_value rec; Some (wr_ver rec, encoded) with
  | Some (ver, encoded) => match decode_value encoded with Some value => Ok (Some (ver, value, encoded)) | None => Err CodecFailed end
  | None => Ok None
  end.

Definition observe_rearmed (s : WShard V) (now_ms : Z) (derived : Hlc) : WShard V := with_clock s (HlcClock.observe (ws_clock s) now_ms derived).1.

Definition rearm_local (c : WConfig V) (s : WShard V) (key : Bytes) (lifetime : Lifetime) (before_wait after_wait : Residency)
    (meanwhile : WShard V -> WShard V) (now_ms : Z) : option (WShard V * result LocalRearm CacheError) :=
  if negb (reads_local before_wait) then Some (s, Ok NotHeld)
  else if negb (reads_local after_wait) then Some (s, Ok NotHeld)
  else
    match rearm_base (ws_engine s) key now_ms with
    | Err err => Some (s, Err err)
    | Ok None => Some (s, Ok match local_verdict after_wait false with LrMiss => RearmAbsent | _ => NotHeld end)
    | Ok (Some (base_ver, value, encoded)) =>
        let expires_at_ms := deadline_for c now_ms (wall_ms base_ver) lifetime in
        let ver := rearmed_version base_ver expires_at_ms in
        let s := meanwhile s in
        '(e, applied) ← apply_if_current (ws_engine s) {| be_key := key; be_ver := ver; be_incoming := Put value expires_at_ms encoded |} base_ver
          (wc_tombstone_ttl_ms c) (wc_tombstone_max_ttl_ms c) now_ms;
        Some (match applied with
              | Some outcome => handle_apply_outcome c (observe_rearmed (with_engine s e) now_ms ver) outcome OriginLocal true
              | None => with_engine s e
              end, Ok Rearmed)
    end.

Definition rearm_found (r : result LocalRearm CacheError) : result bool CacheError :=
  match r with Ok Rearmed => Ok true | Ok _ => Ok false | Err err => Err err end.
Definition expire c s key ttl before_wait after_wait meanwhile now_ms : option (WShard V * result bool CacheError) :=
  prod_map id rearm_found <$> rearm_local c s key (LifeFor ttl) before_wait after_wait meanwhile now_ms.
Definition touch_entry c s key before_wait after_wait meanwhile now_ms : option (WShard V * result bool CacheError) :=
  prod_map id rearm_found <$> rearm_local c s key LifeDefault before_wait after_wait meanwhile now_ms.
Definition persist c s key before_wait after_wait meanwhile now_ms : option (WShard V * result bool CacheError) :=
  prod_map id rearm_found <$> rearm_local c s key LifeUnbounded before_wait after_wait meanwhile now_ms.

Definition forward_rearm (c : WConfig V) (s : WShard V) (key : Bytes) (base : WireRecord) (lifetime : Lifetime) (now_ms : Z) :
    option (WShard V * result bool CacheError) :=
  match wr_value base with
  | None => Some (s, Ok false)
  | Some encoded =>
      if is_some_and (wr_expires_at_ms base) (fun deadline => deadline <=? now_ms) then Some (s, Ok false)
      else
        match decode_value encoded with
        | None => Some (s, Err CodecFailed)
        | Some value =>
            let expires_at_ms := deadline_for c now_ms (wall_ms (wr_ver base)) lifetime in
            let ver := rearmed_version (wr_ver base) expires_at_ms in
            '(s, res) ← apply_or_forward c s key ver (Put value expires_at_ms encoded) now_ms;
            Some (s, match res with Ok _ => Ok true | Err err => Err err end)
        end
  end.

End Rearm.

(** ** Last writer wins *)

Section Lww.
Context {PU : PostcardU32} {HS : Hashing} {V : Type} {VC : ValueCodec V} {IS : IdleSort} {PUL : PostcardU32Laws}.

(** Whether the key's entry is readable and at the version read. *)
Definition still_at (e : Engine V) (key : Bytes) (ver : Hlc) (now : Z) : bool :=
  is_some_and (record_for e key now) (fun r => is_some (wr_value r) && hlc_eqb (wr_ver r) ver).

Lemma still_at_find (e : Engine V) key ver now : engine_inv e ->
  still_at e key ver now = match find_in (stripe_at e (bucket_of_key key)) key with
                           | Some live => hlc_eqb (live_ver live) ver && negb (is_absent e live key (st_long_ttl (stripe_at e (bucket_of_key key))) now)
                           | None => false
                           end.
Proof.
  intros He. unfold still_at. pose proof (record_for_live e key now He) as H. unfold visible in H.
  destruct (find_in (stripe_at e (bucket_of_key key)) key) as [live|]; cbn in H.
  - destruct (is_absent _ _ _ _ _); [|destruct H as [_ ->]; cbn; by rewrite andb_true_r]. rewrite andb_false_r.
    destruct (record_for e key now) as [r|]; [|done]. cbn in *. by rewrite H.
  - destruct (record_for e key now) as [r|]; [|done]. cbn in *. by rewrite H.
Qed.

Definition if_current_ctx (e : Engine V) (ttl max_ttl now : Z) : ApplyCtx V := {|
  ac_weigher := weigher (cfg e); ac_tti_ms := tti_ms (cfg e); ac_merge_cap := merge_cap e; ac_tombstone_ttl_ms := ttl; ac_tombstone_max_ttl_ms := max_ttl;
  ac_deferring := deferring_at e now ttl; ac_now_ms := now; ac_from_peer := false; ac_held_only := false |}.

Lemma if_current_lww (e : Engine V) key ver i expected ttl max_ttl now : engine_inv e -> max_capacity (cfg e) = u64_max -> key_fits key ->
  let en := {| be_key := key; be_ver := ver; be_incoming := i |} in
  exists e' applied, apply_if_current (R := LwwResolver) e en expected ttl max_ttl now = Some (e', applied) /\
    if still_at e key expected now then
      engine_inv e' /\ same_config e e' /\
      (forall k, engine_record e' k = lww_join k (engine_record e k) (entry_write (if_current_ctx e ttl max_ttl now) en)) /\
      exists out, applied = Some out /\ too_large out = None /\
        wrote_at out = if is_none_or (engine_record e key) (fun r => hlc_ltb (wr_ver r) ver) then Some (key, ver) else None
    else e' = e /\ applied = None.
Proof.
  intros He Hcap Hfit en. rewrite still_at_find by done. unfold apply_if_current. cbn [be_key en]. destruct (find_in _ key) as [live|]; [|by eexists _, _].
  destruct (hlc_eqb (live_ver live) expected); cbn [negb orb andb]; [|by eexists _, _].
  destruct (is_absent _ _ _ _ _); cbn [negb]; [by eexists _, _|].
  set (ctx := if_current_ctx e ttl max_ttl now).
  match goal with |- context [apply_at e _ 0 ?c _ _ _] => change c with ctx end. cbn [be_ver be_incoming en].
  pose proof (lww_outcome e 0 ctx key ver i eq_refl eq_refl) as [Ht Hw].
  pose proof (apply_at_same_config e (bucket_of_key key) 0 ctx key ver i) as Hsc.
  pose proof (write_one_inv LwwResolver e (entry_write ctx en) He Hfit) as Hinv.
  pose proof (fun k => write_one_lww e (entry_write ctx en) k He Hfit eq_refl) as Hrec. unfold write_one in Hinv, Hrec. cbn [wt_key wt_ctx wt_ver wt_incoming entry_write be_key be_ver be_incoming en] in Hinv, Hrec.
  destruct (apply_at e _ 0 ctx key ver i) as [[e1 ign] out]. cbn [fst snd] in *. destruct (is_put_outcome out).
  - unfold enforce_capacity, evict_down_to_freeing. destruct Hsc as [Hc Hg]. rewrite Hc, Hcap, Z.eqb_refl. cbn. eexists _, _. split; [done|]. split_and!; try done. by exists out.
  - eexists _, _. split; [done|]. split_and!; try done. by exists out.
Qed.

(** The local re-arm is never ignored, so it replaces the entry it was read from. *)
Lemma rearm_join (e : Engine V) key ver i ttl max_ttl now r : engine_record e key = Some r -> hlc_lt (wr_ver r) ver ->
  let w := entry_write (if_current_ctx e ttl max_ttl now) {| be_key := key; be_ver := ver; be_incoming := i |} in
  forall k, lww_join k (engine_record e k) w = if decide (k = key) then Some (wt_record w) else engine_record e k.
Proof.
  intros Hr Hlt w k. unfold lww_join. assert (wt_admitted w = true) as ->.
  { unfold wt_admitted, ignores. cbn. destruct (rule_deadlines _ _ _) as [[? ?]|]; [|done]. cbn. unfold drops_lapsed_tombstone. by cbn. }
  cbn [andb].
  destruct (decide (k = key)) as [->|Hne].
  - rewrite bool_decide_eq_true_2, Hr by done. change (wt_ver w) with ver. unfold hlc_lt in Hlt. by rewrite Hlt.
  - by rewrite bool_decide_eq_false_2 by (cbn; congruence).
Qed.

Lemma record_for_stored (e : Engine V) key now r : record_for e key now = Some r -> engine_record e key = Some r.
Proof.
  unfold record_for, record_scoped, engine_record, stored_record. destruct (st_tombstones _ !! key); [done|].
  destruct (find_in _ key) as [live|]; cbn; [|done]. by destruct (absent_under _ _ _ _ _ _).
Qed.

(** Without an idle timeout, what is stored and not past its deadline is readable. *)
Lemma stored_readable (e : Engine V) key now r : tti_ms (cfg e) = None -> engine_record e key = Some r ->
  is_some_and (wr_expires_at_ms r) (fun d => d <=? now) = false -> record_for e key now = Some r.
Proof.
  intros Htti. unfold record_for, record_scoped, engine_record, stored_record. destruct (st_tombstones _ !! key); [done|].
  destruct (find_in _ key) as [live|]; cbn; [|done]. intros [= <-]. cbn. unfold absent_under. intros ->. rewrite Htti. done.
Qed.

Lemma observe_rearmed_ok (s : WShard V) now ver e : shard_ok s -> engine_inv e -> same_config (ws_engine s) e ->
  0 <= logical (HlcClock.last (ws_clock s)) < u32_max -> 0 <= logical ver < u32_max ->
  (forall k r, engine_record e k = Some r -> engine_record (ws_engine s) k = Some r \/ wr_ver r = ver) -> shard_ok (observe_rearmed (with_engine s e) now ver).
Proof.
  intros [H1 H2 H3 H4 H5 H6] He [Hc Hg] Hl Hv Hr. pose proof (HlcClock.observe_gt (ws_clock s) now ver Hl Hv) as (Hlt & Hlt' & _). split; cbn; try done.
  - by rewrite Hc.
  - intros k r Hk. destruct (Hr k r Hk) as [Hold| ->]; [|by apply hlc_lt_le]. eapply hlc_le_trans; [by eapply H5|by apply hlc_lt_le].
  - intros k en Hk. eapply hlc_le_trans; [by eapply H6|by apply hlc_lt_le].
Qed.

(** The record a re-arm writes. *)
Definition rearmed_record (c : WConfig V) (rec : WireRecord) (lifetime : Lifetime) (now : Z) : WireRecord :=
  let deadline := deadline_for (R := LwwResolver) c now (wall_ms (wr_ver rec)) lifetime in
  {| wr_key := wr_key rec; wr_value := wr_value rec; wr_ver := rearmed_version (wr_ver rec) deadline; wr_expires_at_ms := deadline |}.

Lemma rearmed_version_logical base deadline : 0 <= logical base -> logical base + 1 < u32_max -> 0 <= logical (rearmed_version base deadline) < u32_max /\ hlc_lt base (rearmed_version base deadline).
Proof.
  intros H0 H1. split; [|apply derived_successor_gt; [unfold u32_max in *; lia|left; lia]].
  unfold rearmed_version, derived_successor, checked_add. bcase; cbn; unfold u32_max in *; lia.
Qed.

(** Applying a re-arm to a shard that still has the entry. *)
Lemma rearm_applies (c : WConfig V) (s : WShard V) key r lifetime value encoded now : shard_ok s -> key_fits key -> record_for (ws_engine s) key now = Some r -> is_some (wr_value r) = true ->
  0 <= logical (wr_ver r) -> logical (wr_ver r) + 1 < u32_max -> 0 <= logical (HlcClock.last (ws_clock s)) < u32_max ->
  let deadline := deadline_for (R := LwwResolver) c now (wall_ms (wr_ver r)) lifetime in
  let ver := rearmed_version (wr_ver r) deadline in
  exists e out, apply_if_current (R := LwwResolver) (ws_engine s) {| be_key := key; be_ver := ver; be_incoming := Put value deadline encoded |} (wr_ver r)
      (wc_tombstone_ttl_ms c) (wc_tombstone_max_ttl_ms c) now = Some (e, Some out) /\
    let s' := handle_apply_outcome c (observe_rearmed (with_engine s e) now ver) out OriginLocal true in
    shard_ok s' /\ cfg (ws_engine s') = cfg (ws_engine s) /\ ws_pending s' = ws_pending s /\ ws_queue s' = (push_item (ws_queue s) (Applied key ver)).1 /\
    forall k, engine_record (ws_engine s') k =
      if decide (k = key) then Some {| wr_key := key; wr_value := Some encoded; wr_ver := ver; wr_expires_at_ms := deadline |} else engine_record (ws_engine s) k.
Proof.
  intros Hok Hfit Hr Hlive H0 H1 Hclk deadline ver. destruct (rearmed_version_logical (wr_ver r) deadline H0 H1) as [Hlog Hlt].
  pose proof (record_for_stored _ _ _ _ Hr) as Hst. set (i := Put value deadline encoded).
  destruct (if_current_lww (ws_engine s) key ver i (wr_ver r) (wc_tombstone_ttl_ms c) (wc_tombstone_max_ttl_ms c) now (wk_inv _ Hok) (wk_cap _ Hok) Hfit) as (e & applied & Hap & H).
  assert (Hstill : still_at (ws_engine s) key (wr_ver r) now = true) by (unfold still_at; rewrite Hr; cbn; by rewrite Hlive, hlc_eqb_refl).
  rewrite Hstill in H. destruct H as (He & Hsc & Hrec & out & -> & Ht & Hw). rewrite Hst in Hw. cbn in Hw. fold ver in Hlt, Hlog. unfold hlc_lt in Hlt. rewrite Hlt in Hw.
  assert (Hrec' : forall k, engine_record e k = if decide (k = key) then Some {| wr_key := key; wr_value := Some encoded; wr_ver := ver; wr_expires_at_ms := deadline |} else engine_record (ws_engine s) k).
  { intros k. rewrite Hrec. by rewrite (rearm_join (ws_engine s) key ver i _ _ now r Hst Hlt k). }
  exists e, out. split; [exact Hap|]. set (s1 := observe_rearmed (with_engine s e) now ver).
  assert (Hok1 : shard_ok s1).
  { apply observe_rearmed_ok; try done. intros k r0 Hk. rewrite Hrec' in Hk. case_decide; [injection Hk as <-; by right|by left]. }
  destruct out as [|k0 v0 cr ver0|k0 ver0|k0 sz]; cbn in Hw; try done; injection Hw as -> ->.
  all: cbn; split; [by destruct Hok1|split; [apply Hsc|]; split; [done|]; split; [done|exact Hrec']].
Qed.

(** C11: A re-arm changes the lifetime and nothing else, and never undoes a write. On a node that answers for the key, under
    last-writer-wins: an entry still at the version read, whatever else happened to the shard meanwhile, keeps its value and takes the new deadline at a
    version just above its own, which any write stamped in a later millisecond outranks; the write is queued for the peers, the
    clock is past it, no other key changes, and the time to live read back is the one asked for. An entry that has moved on,
    been removed or lapsed is left as it is. *)
Theorem a_rearm_changes_only_the_lifetime (c : WConfig V) (s : WShard V) (key : Bytes) (rec : WireRecord) (encoded : Bytes) (value : V) (lifetime : Lifetime)
  (before_wait after_wait : Residency) (meanwhile : WShard V -> WShard V) (now : Z) :
  reads_local before_wait = true -> reads_local after_wait = true ->
  record_for (ws_engine s) key now = Some rec -> wr_value rec = Some encoded -> decode_value encoded = Some value ->
  shard_ok (meanwhile s) -> key_fits key -> hlc_wf (wr_ver rec) -> logical (wr_ver rec) + 1 < u32_max -> 0 <= logical (HlcClock.last (ws_clock (meanwhile s))) < u32_max ->
  let s1 := meanwhile s in
  let rearmed := rearmed_record c rec lifetime now in
  exists s', rearm_local (R := LwwResolver) c s key lifetime before_wait after_wait meanwhile now = Some (s', Ok Rearmed) /\ shard_ok s' /\
    if still_at (ws_engine s1) key (wr_ver rec) now then
      (forall k, engine_record (ws_engine s') k = if decide (k = key) then Some rearmed else engine_record (ws_engine s1) k) /\
      ws_queue s' = (push_item (ws_queue s1) (Applied key (wr_ver rearmed))).1 /\ ws_pending s' = ws_pending s1 /\
      (forall later, wall_ms (wr_ver rec) < wall_ms later -> hlc_lt (wr_ver rearmed) later) /\
      (tti_ms (cfg (ws_engine s1)) = None -> is_some_and (wr_expires_at_ms rearmed) (fun d => d <=? now) = false ->
       shard_ttl_of s' key now = Some (match wr_expires_at_ms rearmed with Some d => Remaining (d - now) | None => Never end))
    else s' = s1.
Proof.
  intros Hb Ha Hr Hv Hd Hok Hfit Hwf Hroom Hclk s1 rearmed. assert (Hlog : 0 <= logical (wr_ver rec)) by (destruct Hwf as (_ & Hlog & _); ulia).
  assert (Hkey : wr_key rec = key). { revert Hr. unfold record_for, record_scoped. destruct (st_tombstones _ !! key); [by intros [= <-]|]. destruct (find_in _ key); cbn; [|done]. destruct (absent_under _ _ _ _ _ _); [done|]. by intros [= <-]. }
  unfold rearm_local. rewrite Hb, Ha. cbn [negb]. unfold rearm_base. rewrite Hr. cbn [mbind option_bind]. rewrite Hv. cbn [mbind option_bind]. rewrite Hd. fold s1.
  set (deadline := deadline_for c now _ lifetime). set (ver := rearmed_version (wr_ver rec) deadline).
  destruct (still_at (ws_engine s1) key (wr_ver rec) now) eqn:Es.
  - assert (Hr1 : exists r1, record_for (ws_engine s1) key now = Some r1 /\ is_some (wr_value r1) = true /\ wr_ver r1 = wr_ver rec).
    { unfold still_at in Es. destruct (record_for (ws_engine s1) key now) as [r1|]; [|done]. cbn in Es. apply andb_true_iff in Es as [E1 E2]. exists r1. split_and!; [done|done|]. by apply hlc_eqb_eq. }
    destruct Hr1 as (r1 & Hr1 & Hl1 & Hv1).
    destruct (rearm_applies c s1 key r1 lifetime value encoded now Hok Hfit Hr1 Hl1) as (e & out & Hap & Hok' & Hcfg & Hp & Hq & Hrec); [rewrite Hv1; lia|by rewrite Hv1|done|].
    rewrite Hv1 in Hap, Hok', Hcfg, Hp, Hq, Hrec. fold deadline in Hap, Hok', Hcfg, Hp, Hq, Hrec. fold ver in Hap, Hok', Hcfg, Hp, Hq, Hrec. rewrite Hap. cbn [mbind option_bind].
    assert (Hrr : rearmed = {| wr_key := key; wr_value := Some encoded; wr_ver := ver; wr_expires_at_ms := deadline |}) by (unfold rearmed, rearmed_record; by rewrite Hkey, Hv).
    rewrite Hrr. eexists. split; [done|]. split; [exact Hok'|]. split_and!; [exact Hrec|exact Hq|exact Hp| |].
    + intros later Hlater. cbn. by apply (rearmed_version_between (wr_ver rec) later deadline Hwf); [lia|].
    + intros Htti Hexp. unfold shard_ttl_of. cbn [wr_expires_at_ms] in *. specialize (Hrec key). rewrite decide_True in Hrec by done.
      set (s' := handle_apply_outcome _ _ _ _ _) in *. pose proof (stored_readable (ws_engine s') key now _ ltac:(by rewrite Hcfg) Hrec Hexp) as Hread.
      destruct (reads_agree (ws_engine s') key now (wk_inv _ Hok')) as (_ & _ & _ & _ & Httl & _). rewrite Httl, Hread. cbn. f_equal. destruct deadline as [d|]; [|done].
      cbn in Hexp. unfold saturating_sub. f_equal. lia.
  - destruct (if_current_lww (ws_engine s1) key ver (Put value deadline encoded) (wr_ver rec) (wc_tombstone_ttl_ms c) (wc_tombstone_max_ttl_ms c) now (wk_inv _ Hok) (wk_cap _ Hok) Hfit) as (e & applied & Hap & H).
    rewrite Es in H. destruct H as [-> ->]. rewrite Hap. cbn [mbind option_bind]. assert (Hid : with_engine s1 (ws_engine s1) = s1) by (by destruct s1). rewrite Hid. by exists s1.
Qed.

Lemma record_for_unexpired (e : Engine V) key now r : record_for e key now = Some r -> is_some (wr_value r) = true -> is_some_and (wr_expires_at_ms r) (fun d => d <=? now) = false.
Proof.
  unfold record_for, record_scoped. destruct (st_tombstones _ !! key); [by intros [= <-]|]. destruct (find_in _ key) as [live|]; cbn; [|done].
  unfold absent_under, live_deadline. cbn [andb]. destruct (is_some_and _ _) eqn:Ex; [done|]. destruct (idle_at _ _ _); [done|]. intros [= <-] _. exact Ex.
Qed.

(** A re-arm forwarded from an owner's answer is the owner's own. A node that does not own the key, asked to re-arm it at the instant
    an owner is, and given the record the owner holds, queues for the owners exactly the record the owner's own
    re-arm stores, and stores nothing itself: both reach the other owners as one write, in either order. *)
Theorem a_forwarded_rearm_is_the_owners (c c' : WConfig V) (s s' : WShard V) (key : Bytes) (rec : WireRecord) (encoded : Bytes) (value : V) (lifetime : Lifetime)
  (before_wait after_wait : Residency) (now : Z) :
  reads_local before_wait = true -> reads_local after_wait = true -> shard_ok s -> key_fits key ->
  record_for (ws_engine s) key now = Some rec -> wr_value rec = Some encoded -> decode_value encoded = Some value ->
  hlc_wf (wr_ver rec) -> logical (wr_ver rec) + 1 < u32_max -> 0 <= logical (HlcClock.last (ws_clock s)) < u32_max ->
  wc_ttl c' = wc_ttl c -> owns_key_here c' key = false -> fq_accepting (ws_queue s') = true -> fq_closed (ws_queue s') = false ->
  exists t t' stored, rearm_local (R := LwwResolver) c s key lifetime before_wait after_wait id now = Some (t, Ok Rearmed) /\
    forward_rearm (R := LwwResolver) c' s' key rec lifetime now = Some (t', Ok true) /\
    engine_record (ws_engine t) key = Some stored /\ fq_pending (ws_queue t') = fq_pending (ws_queue s') ++ [Forward stored] /\ ws_engine t' = ws_engine s'.
Proof.
  intros Hb Ha Hok Hfit Hr Hv Hd Hwf Hroom Hclk Httl Hown Hacc Hcl.
  assert (Hlog : 0 <= logical (wr_ver rec)) by (destruct Hwf as (_ & Hlog & _); ulia).
  assert (Hlive : is_some (wr_value rec) = true) by (by rewrite Hv).
  destruct (rearm_applies c s key rec lifetime value encoded now Hok Hfit Hr Hlive Hlog Hroom Hclk) as (e & out & Hap & _ & _ & _ & _ & Hrec).
  unfold rearm_local. rewrite Hb, Ha. cbn [negb]. unfold rearm_base. rewrite Hr. cbn [mbind option_bind]. rewrite Hv. cbn [mbind option_bind]. rewrite Hd. change (id s) with s. cbv zeta. rewrite Hap. cbn [mbind option_bind].
  unfold forward_rearm. rewrite Hv, (record_for_unexpired _ _ _ _ Hr Hlive), Hd.
  assert (Hdl : deadline_for (R := LwwResolver) c' now (wall_ms (wr_ver rec)) lifetime = deadline_for (R := LwwResolver) c now (wall_ms (wr_ver rec)) lifetime)
    by (destruct lifetime; cbn; unfold expiry_for; by rewrite ?Httl).
  rewrite Hdl. unfold apply_or_forward. rewrite Hown. cbn [negb forward_write mbind option_bind]. unfold push_item. cbn [ws_queue send_event].
  specialize (Hrec key). rewrite decide_True in Hrec by done.
  unfold is_open. cbn [ws_queue]. rewrite Hacc, Hcl. cbn. eexists _, _, _. split; [done|]. split; [done|]. split; [exact Hrec|]. by cbn.
Qed.

End Lww.

(** ** Evaluating the statements *)

Definition demo_warm : Residency := {|
  rd_owns := true; rd_releasing_for := None; rd_cold_marked := false; rd_unsettled := false; rd_unverified := false; rd_stale := false |}.
Definition demo_stored : WireRecord := {| wr_key := [1]; wr_value := Some [10]; wr_ver := stamp 500 1; wr_expires_at_ms := None |}.
(** Another key is written meanwhile; the same key is. *)
Definition demo_meanwhile (key : Bytes) (s : WShard Bytes) : WShard Bytes :=
  from_option fst s (run_write demo_write_config s (WInsert key [7] None) 900).

Lemma demo_meanwhile_ok key : key_fits key -> shard_ok (demo_meanwhile key demo_write_shard).
Proof.
  intros Hk. unfold demo_meanwhile. destruct (every_write_ok demo_write_config demo_write_shard (WInsert key [7] None) 900 demo_write_shard_ok) as (s' & r & -> & Hok'); [by repeat constructor| |exact Hok'].
  split; vm_compute; discriminate.
Qed.

Lemma a_rearm_changes_only_the_lifetime_witness :
  (exists s', rearm_local (R := LwwResolver) demo_write_config demo_write_shard [1] (LifeFor 5000) demo_warm demo_warm (demo_meanwhile [4]) 1000 = Some (s', Ok Rearmed) /\
     shard_ttl_of s' [1] 1000 = Some (Remaining 5000)) /\
  (exists s', rearm_local (R := LwwResolver) demo_write_config demo_write_shard [1] (LifeFor 5000) demo_warm demo_warm (demo_meanwhile [1]) 1000 = Some (s', Ok Rearmed) /\
     s' = demo_meanwhile [1] demo_write_shard).
Proof.
  split.
  - destruct (a_rearm_changes_only_the_lifetime demo_write_config demo_write_shard [1] demo_stored [10] [10] (LifeFor 5000) demo_warm demo_warm (demo_meanwhile [4]) 1000) as (s' & H1 & _ & H2);
      [reflexivity|reflexivity|vm_compute; reflexivity|reflexivity|reflexivity|apply demo_meanwhile_ok; vm_compute; discriminate|vm_compute; discriminate|repeat split; simpl; ulia|vm_compute; reflexivity
      |split; [vm_compute; discriminate|vm_compute; reflexivity]|].
    exists s'. split; [exact H1|]. assert (Hs : still_at (ws_engine (demo_meanwhile [4] demo_write_shard)) [1] (wr_ver demo_stored) 1000 = true) by (vm_compute; reflexivity).
    rewrite Hs in H2. destruct H2 as (_ & _ & _ & _ & H2). apply H2; vm_compute; reflexivity.
  - destruct (a_rearm_changes_only_the_lifetime demo_write_config demo_write_shard [1] demo_stored [10] [10] (LifeFor 5000) demo_warm demo_warm (demo_meanwhile [1]) 1000) as (s' & H1 & _ & H2);
      [reflexivity|reflexivity|vm_compute; reflexivity|reflexivity|reflexivity|apply demo_meanwhile_ok; vm_compute; discriminate|vm_compute; discriminate|repeat split; simpl; ulia|vm_compute; reflexivity
      |split; [vm_compute; discriminate|vm_compute; reflexivity]|].
    exists s'. split; [exact H1|]. assert (Hs : still_at (ws_engine (demo_meanwhile [1] demo_write_shard)) [1] (wr_ver demo_stored) 1000 = false) by (vm_compute; reflexivity).
    rewrite Hs in H2. exact H2.
Defined.

Definition demo_elsewhere : WConfig Bytes := {|
  wc_name := [99]; wc_ownership := Some ({| ov_view_hash := 77; ov_self_node := 8; ov_eligible := [7; 8]; ov_k := 1; ov_granularity := Ownership.Part;
    ov_owners := []; ov_stride := 1; ov_owned := PartSet.from_iter []; ov_owns_in_bucket := []; ov_co_owners := [] |});
  wc_max_frame := 200; wc_ttl := Some 60000; wc_merge_window := 0; wc_tombstone_ttl_ms := 60000; wc_tombstone_max_ttl_ms := 600000;
  wc_max_resident_bytes := u64_max; wc_listening := true; wc_key_order := fmap be_key |}.

Lemma a_forwarded_rearm_is_the_owners_witness :
  exists t t' stored, rearm_local (R := LwwResolver) demo_write_config demo_write_shard [1] LifeDefault demo_warm demo_warm id 1000 = Some (t, Ok Rearmed) /\
    forward_rearm (R := LwwResolver) demo_elsewhere demo_write_shard [1] demo_stored LifeDefault 1000 = Some (t', Ok true) /\
    engine_record (ws_engine t) [1] = Some stored /\ fq_pending (ws_queue t') = [Forward stored].
Proof.
  destruct (a_forwarded_rearm_is_the_owners demo_write_config demo_elsewhere demo_write_shard demo_write_shard [1] demo_stored [10] [10] LifeDefault demo_warm demo_warm 1000)
    as (t & t' & stored & H1 & H2 & H3 & H4 & _);
    [reflexivity|reflexivity|exact demo_write_shard_ok|vm_compute; discriminate|vm_compute; reflexivity|reflexivity|reflexivity|repeat split; simpl; ulia|vm_compute; reflexivity
    |split; [vm_compute; discriminate|vm_compute; reflexivity]|reflexivity|vm_compute; reflexivity|reflexivity|reflexivity|].
  exists t, t', stored. split; [exact H1|]. split; [exact H2|]. split; [exact H3|exact H4].
Defined.
