(* ===== verification/Load.v ===== *)
(** * Read-through loads

    [store/load.rs] and the fill of [store/shard_read.rs]: what a call claims, what a batch asks the source for and
    how it ends each load, the answers of those who wait, and the queue that gathers keys over a batch window. The engine's side of a load
    is [Inflight] and [LoadProtocol]. The shard has a loader (without one a load is refused at once), no refresh-ahead and not
    the spill feature; a call reads the clock once, and a batch's chunks, which run concurrently, are taken in turn. *)

From S2P Require Import Prelude SkewHold Clock Part Types Record Expiry Sketch Wire Merge Arena Engine Apply Removal Evict Prefold Batch Read Serve Inflight LoadProtocol Ownership FanOut Mesh PeerServe Inbound Pending LocalWrite.

(** ** Definitions *)

Definition DEFAULT_MAX_BATCH_KEYS : nat := 1024.

Inductive FillExpiry := FillLoaded | FillCopied (at_ : option Z).
Inductive FillDeadline := FillStore (at_ : option Z) | FillLapsed.

Definition fill_deadline (expiry : FillExpiry) (own : option Z) (now_ms : Z) : FillDeadline :=
  match expiry with
  | FillLoaded => FillStore own
  | FillCopied (Some at_) => if at_ <=? now_ms then FillLapsed else FillStore (Some at_)
  | FillCopied None => FillStore None
  end.

(** The loop that cuts a batch: the groups so far and the one being filled. *)
Definition chunk_item {A} (max_keys : nat) (st : list (list A) * list A) (item : A) : list (list A) * list A :=
  let current := st.2 ++ [item] in
  if (length current =? max_keys)%nat then (st.1 ++ [current], []) else (st.1, current).
Definition chunked {A} (items : list A) (max_keys : nat) : list (list A) :=
  let max_keys := Nat.max max_keys 1 in
  let '(chunks, current) := foldl (chunk_item max_keys) ([], []) items in
  match current with [] => chunks | _ => chunks ++ [current] end.

(** The keys in the order first given. *)
Definition distinct (ks : list Bytes) : list Bytes := foldl (fun todo key => if bool_decide (key ∈ todo) then todo else todo ++ [key]) [] ks.

Section Load.
Context {PU : PostcardU32} {HS : Hashing} {R : ConflictResolver} {V : Type} {VC : ValueCodec V} {IS : IdleSort}.

Record Fill := { fi_value : V; fi_expiry : FillExpiry }.
Record Sourced := { sd_store : gmap Bytes Fill; sd_answer : gmap Bytes V }.
Definition sourced_loaded (values : gmap Bytes V) : Sourced :=
  {| sd_store := (fun v => {| fi_value := v; fi_expiry := FillLoaded |}) <$> values; sd_answer := ∅ |}.

(** What a queued load ended with: a value, none, or the loader's failure. *)
Definition Slot : Type := result (option V) Bytes.

Record Queued := { qd_key : Bytes; qd_ver : Hlc; qd_load : nat }.
Inductive Wait := WaitOwned (key : Bytes) (load : nat) | WaitJoined (key : Bytes) (load : nat).
Inductive Resolved := Found (value : V) | Absent | Failed (err : Bytes) | Retry.

Definition resolve_joined (i : Inflight V) : Resolved :=
  match inf_error i with
  | Some err => Failed err
  | None => match inf_value i with Some value => Found value | None => if inf_absent i then Absent else Retry end
  end.
Definition resolve_owned (slot : option Slot) : Resolved :=
  match slot with
  | Some (Ok (Some value)) => Found value
  | Some (Ok None) => Absent
  | Some (Err err) => Failed err
  | None => Retry
  end.

(** Whether the value was stored; [None] is the eviction loop's fuel. *)
Definition store_loaded (mode : Mode) (c : WConfig V) (s : WShard V) (key : Bytes) (ver : Hlc) (load : nat) (fill : Fill) (now_ms : Z) : option (WShard V * bool) :=
  match fill_deadline (fi_expiry fill) (expiry_for c now_ms (wall_ms ver) None) now_ms with
  | FillLapsed => Some (with_engine s (finish_uncached (ws_engine s) key load (fi_value fill)), false)
  | FillStore expires_at_ms =>
      match fill_route (owns_key_here c key) (is_some (at_ceiling c s)) with
      | Uncached _ => Some (with_engine s (finish_uncached (ws_engine s) key load (fi_value fill)), false)
      | Install =>
          '(e, outcome) ← complete_fresh_load (ws_engine s)
            {| fl_key_bytes := key; fl_ver := ver; fl_value := fi_value fill; fl_encoded := encode_value (fi_value fill); fl_expires_at_ms := expires_at_ms |} now_ms load;
          let s := with_engine s e in
          match outcome with
          | Installed had_live =>
              let s := if fill_fans_out mode then with_queue s (push_item (ws_queue s) (Applied key ver)).1 else s in
              Some (send_event c s (if had_live then Updated key (fi_value fill) OriginLocal else Created key (fi_value fill) OriginLocal), true)
          | _ => Some (s, false)
          end
      end
  end.

(** What a call has so far: the values found, the loads it starts and the loads it waits on. *)
Record Claimed := { cm_shard : WShard V; cm_found : gmap Bytes V; cm_owned : list Queued; cm_waits : list Wait }.

(** One key. [None] is a stored value that does not decode, where the code panics. *)
Definition claim_key (now_ms : Z) (acc : option Claimed) (key : Bytes) : option Claimed :=
  m ← acc;
  let s := cm_shard m in
  match get_by_bytes (ws_engine s) key now_ms with
  | (e, Some value) =>
      value ← value;
      Some {| cm_shard := with_engine s e; cm_found := <[key := value]> (cm_found m); cm_owned := cm_owned m; cm_waits := cm_waits m |}
  | (e, None) =>
      match miss_or_join e key now_ms with
      | (e, JHit value) =>
          value ← value;
          Some {| cm_shard := with_engine s e; cm_found := <[key := value]> (cm_found m); cm_owned := cm_owned m; cm_waits := cm_waits m |}
      | (e, JJoin load) =>
          Some {| cm_shard := with_engine s e; cm_found := cm_found m; cm_owned := cm_owned m; cm_waits := cm_waits m ++ [WaitJoined key load] |}
      | (e, JOwner load) =>
          let (s, ver) := stamp_local (with_engine s e) now_ms in
          Some {| cm_shard := s; cm_found := cm_found m; cm_owned := cm_owned m ++ [{| qd_key := key; qd_ver := ver; qd_load := load |}];
                  cm_waits := cm_waits m ++ [WaitOwned key load] |}
      end
  end.
Definition claim (now_ms : Z) (s : WShard V) (found : gmap Bytes V) (todo : list Bytes) : option Claimed :=
  foldl (claim_key now_ms) (Some {| cm_shard := s; cm_found := found; cm_owned := []; cm_waits := [] |}) todo.

(** The slots are the callers' cells, one per load; a set slot keeps its first outcome. *)
Definition set_slot (slots : gmap nat Slot) (load : nat) (outcome : Slot) : gmap nat Slot :=
  match slots !! load with Some _ => slots | None => <[load := outcome]> slots end.

(** One load of a chunk, with what the source returned that is not taken yet. *)
Definition end_item (mode : Mode) (c : WConfig V) (now_ms : Z) (acc : option (WShard V * gmap nat Slot * Sourced)) (item : Queued) :
    option (WShard V * gmap nat Slot * Sourced) :=
  '(s, slots, sourced) ← acc;
  match sd_store sourced !! qd_key item with
  | Some fill =>
      '(s, _) ← store_loaded mode c s (qd_key item) (qd_ver item) (qd_load item) fill now_ms;
      Some (s, set_slot slots (qd_load item) (Ok (Some (fi_value fill))),
            {| sd_store := delete (qd_key item) (sd_store sourced); sd_answer := sd_answer sourced |})
  | None =>
      match sd_answer sourced !! qd_key item with
      | Some value =>
          Some (with_engine s (finish_uncached (ws_engine s) (qd_key item) (qd_load item) value), set_slot slots (qd_load item) (Ok (Some value)),
                {| sd_store := sd_store sourced; sd_answer := delete (qd_key item) (sd_answer sourced) |})
      | None =>
          Some (with_engine s (finish_absent (ws_engine s) (qd_key item) (qd_load item)), set_slot slots (qd_load item) (Ok None), sourced)
      end
  end.

Definition fail_item (err : Bytes) (acc : WShard V * gmap nat Slot) (item : Queued) : WShard V * gmap nat Slot :=
  (with_engine acc.1 (fail_inflight (ws_engine acc.1) (qd_key item) (qd_load item) err), set_slot acc.2 (qd_load item) (Err err)).

Definition run_chunk (mode : Mode) (c : WConfig V) (now_ms : Z) (source : list Bytes -> result Sourced Bytes)
    (acc : option (WShard V * gmap nat Slot)) (chunk : list Queued) : option (WShard V * gmap nat Slot) :=
  st ← acc;
  match source (qd_key <$> chunk) with
  | Ok sourced => fst <$> foldl (end_item mode c now_ms) (Some (st.1, st.2, sourced)) chunk
  | Err err => Some (foldl (fail_item err) st chunk)
  end.
Definition run_batch mode c now_ms source (max_keys : nat) (s : WShard V) (items : list Queued) : option (WShard V * gmap nat Slot) :=
  foldl (run_chunk mode c now_ms source) (Some (s, ∅)) (chunked items max_keys).

(** One load a call waited on; [wait_for] is what everyone else does until a joined load ends. *)
Definition settle_wait (wait_for : WShard V -> nat -> WShard V) (slots : gmap nat Slot) (acc : WShard V * result (gmap Bytes V * list Bytes) Bytes) (w : Wait) :
    WShard V * result (gmap Bytes V * list Bytes) Bytes :=
  match acc with
  | (s, Err err) => (s, Err err)
  | (s, Ok (found, todo)) =>
      let '(s, key, resolved) :=
        match w with
        | WaitOwned key load => (s, key, resolve_owned (slots !! load))
        | WaitJoined key load => let s := wait_for s load in (s, key, from_option resolve_joined Retry (loads (ws_engine s) !! load))
        end in
      (s, match resolved with
          | Found value => Ok (<[key := value]> found, todo)
          | Absent => Ok (found, todo)
          | Failed err => Err err
          | Retry => Ok (found, todo ++ [key])
          end)
  end.

(** [Shard::load_many_from] with a zero window; [None] is fuel, eviction's or the loop's, or a panic. *)
Fixpoint load_loop (fuel : nat) (mode : Mode) (c : WConfig V) (now_ms : Z) (source : list Bytes -> result Sourced Bytes) (max_keys : nat)
    (wait_for : WShard V -> nat -> WShard V) (s : WShard V) (found : gmap Bytes V) (todo : list Bytes) : option (WShard V * result (gmap Bytes V) Bytes) :=
  match todo, fuel with
  | [], _ => Some (s, Ok found)
  | _, O => None
  | _, S fuel =>
      m ← claim now_ms s found todo;
      '(s, slots) ← (if bool_decide (cm_owned m = []) then Some (cm_shard m, ∅) else run_batch mode c now_ms source max_keys (cm_shard m) (cm_owned m));
      match foldl (settle_wait wait_for slots) (s, Ok (cm_found m, [])) (cm_waits m) with
      | (s, Err err) => Some (s, Err err)
      | (s, Ok (found, todo)) => load_loop fuel mode c now_ms source max_keys wait_for s found todo
      end
  end.
Definition load_many_from (fuel : nat) (mode : Mode) (c : WConfig V) (now_ms : Z) (source : list Bytes -> result Sourced Bytes) (max_keys : nat)
    (wait_for : WShard V -> nat -> WShard V) (s : WShard V) (ks : list Bytes) : option (WShard V * result (gmap Bytes V) Bytes) :=
  load_loop fuel mode c now_ms source max_keys wait_for s ∅ (distinct ks).

(** [load_from]: a hit answers at once. *)
Definition load_from (fuel : nat) (mode : Mode) (c : WConfig V) (now_ms : Z) (source : list Bytes -> result Sourced Bytes) (max_keys : nat)
    (wait_for : WShard V -> nat -> WShard V) (s : WShard V) (key : Bytes) : option (WShard V * result (option V) Bytes) :=
  match get_by_bytes (ws_engine s) key now_ms with
  | (e, Some value) => value ← value; Some (with_engine s e, Ok (Some value))
  | (e, None) =>
      '(s, r) ← load_many_from fuel mode c now_ms source max_keys wait_for (with_engine s e) [key];
      Some (s, match r with Ok found => Ok (found !! key) | Err err => Err err end)
  end.

(** *** The registered loader *)

(** What [Loader::single] makes of a loader of one key: its calls' answers collected, up to the first that failed. *)
Definition loader_single (load : Bytes -> result (option V) Bytes) (ks : list Bytes) : result (gmap Bytes V) Bytes :=
  foldl (fun acc key =>
    match acc with
    | Err err => Err err
    | Ok found => match load key with Err err => Err err | Ok (Some value) => Ok (<[key := value]> found) | Ok None => Ok found end
    end) (Ok ∅) ks.

(** The source [load] and [load_many] read from: every value the loader returns is its own. *)
Definition loader_source (loader : list Bytes -> result (gmap Bytes V) Bytes) (ks : list Bytes) : result Sourced Bytes :=
  match loader ks with Ok values => Ok (sourced_loaded values) | Err err => Err err end.

(** *** Loading for a peer *)

Inductive LoadServe := LoadServed (found : list WireRecord) (uncached : list (Bytes * Bytes)) | LoadFailed (err : Bytes) | LoadUnavailable.

(** One loaded key: its stored record, taken out of [stored], or its value. *)
Definition serve_loaded (acc : list WireRecord * list (Bytes * Bytes) * gmap Bytes WireRecord) (kv : Bytes * V) :
    list WireRecord * list (Bytes * Bytes) * gmap Bytes WireRecord :=
  let '(found, uncached, stored) := acc in
  match stored !! kv.1 with
  | Some rec => (found ++ [rec], uncached, delete kv.1 stored)
  | None => (found, uncached ++ [(kv.1, encode_value kv.2)], stored)
  end.

(** [decodes] is whether the bytes are a key, [cold] and [unverified] the shard's marks on the key's part. *)
Definition serve_load_encoded (loader : option (list Bytes -> result (gmap Bytes V) Bytes)) (cold unverified : Z -> bool) (decodes : Bytes -> bool)
    (fuel : nat) (mode : Mode) (c : WConfig V) (now_ms : Z) (max_keys : nat) (wait_for : WShard V -> nat -> WShard V) (s : WShard V) (ks : list Bytes) :
    option (WShard V * LoadServe) :=
  match loader with
  | None => Some (s, LoadUnavailable)
  | Some loader =>
      if existsb (fun key => cold (pid_of_key key) || unverified (pid_of_key key)) ks then Some (s, LoadUnavailable)
      else
        '(s, r) ← load_many_from fuel mode c now_ms (loader_source loader) max_keys wait_for s (filter (fun key => decodes key = true) ks);
        match r with
        | Err err => Some (s, LoadFailed err)
        | Ok loaded =>
            let held := (map_to_list loaded).*1 in
            let records := filter (fun rec => negb (is_tombstone rec) = true) (omap (fun key => record_for (ws_engine s) key now_ms) held) in
            let stored := list_to_map ((fun rec => (wr_key rec, rec)) <$> records) in
            let '(found, uncached, _) := foldl serve_loaded ([], [], stored) (map_to_list loaded) in
            Some (s, LoadServed found uncached)
        end
  end.

End Load.
Arguments Fill V : clear implicits.
Arguments Sourced V : clear implicits.
Arguments Slot V : clear implicits.
Arguments Resolved V : clear implicits.
Arguments Claimed V : clear implicits.

(** *** The batch window's queue *)

(** [tokio]'s [Notify] as it documents itself: a notification goes to the leader if it waits, and is stored, once, for the next
    wait otherwise; one a leader was given and did not take, because its timer won or it was dropped, is passed on the same way. *)
Inductive Leader := Starting | Waiting (notified : bool) | Woken (by_timer : bool).
Record LoadQueue (A : Type) := { lq_pending : list A; lq_permit : bool; lq_leader : option Leader }.
Arguments lq_pending {A}. Arguments lq_permit {A}. Arguments lq_leader {A}.
Definition queue_empty {A} : LoadQueue A := {| lq_pending := []; lq_permit := false; lq_leader := None |}.

Definition notify_one {A} (q : LoadQueue A) : LoadQueue A :=
  match lq_leader q with
  | Some (Waiting false) => {| lq_pending := lq_pending q; lq_permit := lq_permit q; lq_leader := Some (Waiting true) |}
  | _ => {| lq_pending := lq_pending q; lq_permit := true; lq_leader := lq_leader q |}
  end.

(** A call submits its loads; the leader reaches its wait, is woken by its timer or by a notification, takes the queue, or is
    dropped before it does. *)
Inductive QueueStep (A : Type) := QSubmit (items : list A) | QStart | QTimer | QNotified | QTake | QDrop.
Arguments QSubmit {A}. Arguments QStart {A}. Arguments QTimer {A}. Arguments QNotified {A}. Arguments QTake {A}. Arguments QDrop {A}.

(** What a step hands out: a batch to load, or loads to release. *)
Inductive Handed (A : Type) := RunBatch (items : list A) (by_timer : bool) | Release (items : list A).
Arguments RunBatch {A}. Arguments Release {A}.

Definition load_queue_step {A} (max_keys : nat) (q : LoadQueue A) (op : QueueStep A) : LoadQueue A * option (Handed A) :=
  match op, lq_leader q with
  | QSubmit [], _ => (q, None)
  | QSubmit items, _ =>
      let leads := bool_decide (lq_pending q = []) in
      let pending := lq_pending q ++ items in
      let q := {| lq_pending := pending; lq_permit := lq_permit q; lq_leader := lq_leader q |} in
      let q := if (max_keys <=? length pending)%nat then notify_one q else q in
      (if leads then {| lq_pending := lq_pending q; lq_permit := lq_permit q; lq_leader := Some Starting |} else q, None)
  | QStart, Some Starting =>
      ({| lq_pending := lq_pending q; lq_permit := false; lq_leader := Some (if lq_permit q then Woken false else Waiting false) |}, None)
  | QTimer, Some (Waiting notified) =>
      ({| lq_pending := lq_pending q; lq_permit := lq_permit q || notified; lq_leader := Some (Woken true) |}, None)
  | QNotified, Some (Waiting true) =>
      ({| lq_pending := lq_pending q; lq_permit := lq_permit q; lq_leader := Some (Woken false) |}, None)
  | QTake, Some (Woken by_timer) =>
      ({| lq_pending := []; lq_permit := lq_permit q; lq_leader := None |}, Some (RunBatch (lq_pending q) by_timer))
  | QDrop, Some Starting => ({| lq_pending := []; lq_permit := lq_permit q; lq_leader := None |}, Some (Release (lq_pending q)))
  | QDrop, Some (Waiting notified) =>
      ({| lq_pending := []; lq_permit := lq_permit q || notified; lq_leader := None |}, Some (Release (lq_pending q)))
  | _, _ => (q, None)
  end.

Definition load_queue_run {A} (max_keys : nat) (q : LoadQueue A) (ops : list (QueueStep A)) : LoadQueue A * list (Handed A) :=
  foldl (fun st op => let (q, h) := load_queue_step max_keys st.1 op in (q, st.2 ++ option_list h)) (q, []) ops.

(** ** Cutting a batch *)

Lemma chunk_fold {A} (n : nat) (items : list A) : (0 < n)%nat -> forall chunks current, (length current < n)%nat ->
  Forall (fun ch => length ch = n) chunks ->
  let '(chunks', current') := foldl (chunk_item n) (chunks, current) items in
  concat chunks' ++ current' = concat chunks ++ current ++ items /\ (length current' < n)%nat /\ Forall (fun ch => length ch = n) chunks'.
Proof.
  intros Hn. induction items as [|x items IH]; intros chunks current Hc Hall; cbn [foldl]; [by rewrite app_nil_r|].
  unfold chunk_item at 2. cbn [fst snd]. destruct (length (current ++ [x]) =? n)%nat eqn:E.
  - apply Nat.eqb_eq in E. specialize (IH (chunks ++ [current ++ [x]]) [] Hn).
    destruct (foldl _ _ items) as [chunks' current']. destruct IH as (H1 & H2 & H3).
    { apply Forall_app. by rewrite Forall_singleton. }
    split_and!; try done. rewrite H1, concat_app. cbn. by rewrite app_nil_r, <-!app_assoc.
  - apply Nat.eqb_neq in E. rewrite length_app in E. cbn in E. specialize (IH chunks (current ++ [x])).
    rewrite length_app in IH. cbn in IH. specialize (IH ltac:(lia) Hall). destruct (foldl _ _ items) as [chunks' current'].
    destruct IH as (H1 & H2 & H3). split_and!; try done. by rewrite H1, <-!app_assoc.
Qed.

(** The chunks are the items, in order, and every one but the last is full. *)
Lemma chunked_spec {A} (items : list A) (max_keys : nat) :
  concat (chunked items max_keys) = items /\ Forall (fun ch => ch <> [] /\ (length ch <= Nat.max max_keys 1)%nat) (chunked items max_keys).
Proof.
  unfold chunked. pose proof (chunk_fold (Nat.max max_keys 1) items ltac:(lia) [] [] ltac:(cbn; lia) ltac:(constructor)) as H.
  destruct (foldl _ _ items) as [chunks current]. destruct H as (H1 & H2 & H3). cbn in H1.
  assert (Hf : Forall (fun ch : list A => ch <> [] /\ (length ch <= Nat.max max_keys 1)%nat) chunks).
  { eapply Forall_impl; [exact H3|]. intros ch Hch. cbn beta in Hch |- *. split; [|lia]. intros ->. cbn [length] in Hch. lia. }
  destruct current as [|x current]; [by rewrite app_nil_r in H1|]. split.
  - rewrite concat_app. cbn [concat]. by rewrite app_nil_r.
  - apply Forall_app. split; [done|]. apply Forall_singleton. split; [done|lia].
Qed.

Lemma chunk_item_fmap {A B} (f : A -> B) n (st : list (list A) * list A) x :
  chunk_item n (fmap (M := list) f <$> st.1, f <$> st.2) (f x) = (fmap (M := list) f <$> (chunk_item n st x).1, f <$> (chunk_item n st x).2).
Proof.
  unfold chunk_item. cbn [fst snd]. rewrite !length_app, length_fmap. cbn [length]. destruct (_ =? n)%nat; cbn [fst snd]; by rewrite ?fmap_app, ?fmap_cons, ?fmap_app.
Qed.
Lemma chunk_fold_fmap {A B} (f : A -> B) n (items : list A) : forall st : list (list A) * list A,
  foldl (chunk_item n) (fmap (M := list) f <$> st.1, f <$> st.2) (f <$> items) =
  (fmap (M := list) f <$> (foldl (chunk_item n) st items).1, f <$> (foldl (chunk_item n) st items).2).
Proof. induction items as [|x items IH]; intros st; [done|]. rewrite fmap_cons. cbn [foldl]. by rewrite chunk_item_fmap, IH. Qed.
Lemma chunked_fmap {A B} (f : A -> B) (items : list A) n : chunked (f <$> items) n = fmap (M := list) f <$> chunked items n.
Proof.
  unfold chunked. rewrite (chunk_fold_fmap f _ items ([], [])). destruct (foldl _ _ items) as [chunks [|x current]]; cbn [fst snd]; [done|].
  rewrite fmap_app. done.
Qed.

Lemma distinct_fold ks : forall todo, NoDup todo ->
  let r := foldl (fun todo key => if bool_decide (key ∈ todo) then todo else todo ++ [key]) todo ks in
  NoDup r /\ forall k : Bytes, k ∈ r <-> k ∈ todo \/ k ∈ ks.
Proof.
  induction ks as [|k ks IH]; intros todo Hnd; cbn [foldl].
  { split; [done|]. intros k. rewrite elem_of_nil. tauto. }
  case_bool_decide as Hin.
  - destruct (IH todo Hnd) as [H1 H2]. split; [done|]. intros k'. rewrite H2, elem_of_cons. naive_solver.
  - destruct (IH (todo ++ [k])) as [H1 H2].
    { apply NoDup_app. split_and!; [done| |apply NoDup_singleton]. intros x Hx ->%list_elem_of_singleton. done. }
    split; [done|]. intros k'. rewrite H2, elem_of_app, !elem_of_cons, elem_of_nil. tauto.
Qed.
Lemma distinct_spec ks : NoDup (distinct ks) /\ forall k, k ∈ distinct ks <-> k ∈ ks.
Proof. destruct (distinct_fold ks [] ltac:(constructor)) as [H1 H2]. split; [done|]. intros k. rewrite H2, elem_of_nil. tauto. Qed.

(** ** The queue *)

Definition submitted {A} (ops : list (QueueStep A)) : list A := ops ≫= (fun op => match op with QSubmit items => items | _ => [] end).
Definition handed_items {A} (h : Handed A) : list A := match h with RunBatch items _ => items | Release items => items end.
Definition handed_to {A} (hs : list (Handed A)) : list A := hs ≫= handed_items.

(** Someone leads exactly when something is queued. *)
Definition queue_led {A} (q : LoadQueue A) : Prop := lq_pending q = [] <-> lq_leader q = None.

Lemma notify_one_keeps {A} (q : LoadQueue A) : lq_pending (notify_one q) = lq_pending q /\ (lq_leader (notify_one q) = None <-> lq_leader q = None).
Proof. unfold notify_one. by destruct (lq_leader q) as [[|[]|]|]. Qed.

Lemma queue_step_led {A} (max_keys : nat) (q : LoadQueue A) op : queue_led q ->
  let '(q', h) := load_queue_step max_keys q op in
  queue_led q' /\ lq_pending q ++ submitted [op] = handed_to (option_list h) ++ lq_pending q'.
Proof.
  unfold queue_led, submitted, handed_to. intros Hq. destruct op as [items| | | | |]; cbn [mbind list_bind app]; rewrite ?app_nil_r.
  - destruct items as [|x items]; [cbn; by rewrite app_nil_r|]. unfold load_queue_step. cbn [option_list mbind list_bind app].
    set (q1 := {| lq_pending := lq_pending q ++ x :: items |}).
    set (q2 := if (max_keys <=? _)%nat then notify_one q1 else q1).
    assert (H2 : lq_pending q2 = lq_pending q ++ x :: items /\ (lq_leader q2 = None <-> lq_leader q = None)).
    { unfold q2. destruct (notify_one_keeps q1) as [Hp Hl]. by destruct (_ <=? _)%nat. }
    destruct H2 as [Hp Hl]. case_bool_decide as E; cbn; rewrite Hp; split; try done.
    + split; [|done]. intros H%(f_equal length). rewrite length_app in H. cbn in H. lia.
    + rewrite Hl, <-Hq. split; [|done]. intros H%(f_equal length). rewrite length_app in H. cbn in H. lia.
  - cbn. destruct (lq_leader q) as [[|[]|[]]|] eqn:E; cbn; rewrite ?E; try done. split; [|done]. rewrite Hq. by destruct (lq_permit q).
  - cbn. destruct (lq_leader q) as [[|[]|[]]|] eqn:E; cbn; rewrite ?E; try done. all: split; [|done]; rewrite Hq; done.
  - cbn. destruct (lq_leader q) as [[|[]|[]]|] eqn:E; cbn; rewrite ?E; try done. all: split; [|done]; rewrite Hq; done.
  - cbn. destruct (lq_leader q) as [[|[]|[]]|] eqn:E; cbn; rewrite ?E, ?app_nil_r; done.
  - cbn. destruct (lq_leader q) as [[|[]|[]]|] eqn:E; cbn; rewrite ?E, ?app_nil_r; done.
Qed.

Lemma queue_run_app {A} (max_keys : nat) (ops : list (QueueStep A)) : forall q hs,
  foldl (fun st op => let (q, h) := load_queue_step max_keys st.1 op in (q, st.2 ++ option_list h)) (q, hs) ops =
  ((load_queue_run max_keys q ops).1, hs ++ (load_queue_run max_keys q ops).2).
Proof.
  unfold load_queue_run. induction ops as [|op ops IH]; intros q hs; cbn [foldl fst snd]; [by rewrite app_nil_r|].
  destruct (load_queue_step max_keys q op) as [q1 h]. cbn [fst snd app]. rewrite (IH q1 (hs ++ _)), (IH q1 (option_list h)). cbn.
  by rewrite app_assoc.
Qed.

Lemma queue_run_led {A} (max_keys : nat) (ops : list (QueueStep A)) : forall q, queue_led q ->
  let '(q', hs) := load_queue_run max_keys q ops in
  queue_led q' /\ lq_pending q ++ submitted ops = handed_to hs ++ lq_pending q'.
Proof.
  induction ops as [|op ops IH]; intros q Hq; [cbn; by rewrite app_nil_r|].
  unfold load_queue_run. cbn [foldl fst snd]. pose proof (queue_step_led max_keys q op Hq) as Hs.
  destruct (load_queue_step max_keys q op) as [q1 h]. destruct Hs as [Hq1 Hs]. specialize (IH q1 Hq1). cbn [app].
  rewrite queue_run_app. destruct (load_queue_run max_keys q1 ops) as [q' hs]. destruct IH as [Hq' IH]. cbn [fst snd]. split; [done|].
  unfold submitted, handed_to in *. rewrite (bind_app _ (option_list h)), <-app_assoc, <-IH, !app_assoc, <-Hs. cbn. by rewrite app_nil_r, <-app_assoc.
Qed.

(** A queued load is handed out once. Whatever the order in which calls submit loads, the timer and notifications arrive, leaders
    take the queue or are dropped, every load submitted is in exactly one batch run, one release or the queue, in the order
    submitted; and a load in the queue has a leader, whose timer alone hands it out. *)
Theorem a_queued_load_is_handed_out_once {A} (max_keys : nat) (ops : list (QueueStep A)) :
  let '(q, hs) := load_queue_run max_keys queue_empty ops in
  submitted ops = handed_to hs ++ lq_pending q /\
  (lq_pending q <> [] -> exists by_timer, (load_queue_run max_keys q [QStart; QTimer; QTake]).2 = [RunBatch (lq_pending q) by_timer]).
Proof.
  pose proof (queue_run_led max_keys ops queue_empty ltac:(done)) as H. destruct (load_queue_run _ _ ops) as [q hs].
  destruct H as [Hq H]. split; [exact H|]. intros Hne. unfold queue_led in Hq.
  unfold load_queue_run. cbn [foldl fst snd load_queue_step]. destruct (lq_leader q) as [[|n|t]|] eqn:E.
  - cbn. destruct (lq_permit q); cbn; eauto.
  - cbn. rewrite E. cbn. eauto.
  - cbn. rewrite E. cbn. rewrite E. cbn. eauto.
  - by destruct Hne; apply Hq.
Qed.

(** A stored notification cuts a later window. The queue fills twice before its leader is polled; the second notification is
    stored, and the next leader, with a single key queued of the two that fill a batch and its timer still running, takes it for its own. *)
Theorem a_stale_notification_cuts_a_window :
  (load_queue_run 2 queue_empty [QSubmit [1]; QStart; QSubmit [2]; QSubmit [3]; QNotified; QTake; QSubmit [4]; QStart; QTake]).2 =
    [RunBatch [1; 2; 3] false; RunBatch [4] false].
Proof. reflexivity. Qed.

Section LoadLemmas.
Context {PU : PostcardU32} {PUL : PostcardU32Laws} {HS : Hashing} {R : ConflictResolver} {V : Type} {VC : ValueCodec V} {IS : IdleSort} {ISL : IdleSortLaws}.

(** ** Ending loads *)

Lemma complete_ended (e : Engine V) w now id e' out : ended e id <> None -> complete_fresh_load e w now id = Some (e', out) ->
  forall j, ended e' j = if decide (j = id) then Some true else ended e j.
Proof.
  intros Hid Hc j. unfold complete_fresh_load in Hc.
  assert (Hf : forall e1 : Engine V, (forall j, ended e1 j = ended e j) ->
    ended (on_load load_finish id e1) j = if decide (j = id) then Some true else ended e j).
  { intros e1 He1. rewrite ended_finish by (by rewrite He1). by rewrite He1. }
  destruct (from_option _ _ _).
  { injection Hc as <- _. apply Hf. intros j'. by rewrite ended_on_load. }
  destruct (negb _); [injection Hc as <- _; by apply Hf|].
  pose proof (keeps_install_fill (finish_inflight e (fl_key_bytes w)) w now) as Hk.
  destruct (install_fill _ w now) as [e1 had]. cbn in Hk.
  destruct (enforce_capacity _ _ _ _) as [[[e2 w2] o2]|] eqn:Ee; cbn in Hc; [|done]. injection Hc as <- _.
  apply keeps_enforce in Ee. rewrite (kl_ended _ _ Ee). apply Hf. intros j'. by rewrite (kl_ended _ _ Hk).
Qed.

Lemma finish_ended (e : Engine V) f k id : ended e id <> None -> (forall i, inf_done (f i) = inf_done i) ->
  forall j, ended (on_load load_finish id (finish_inflight (on_load f id e) k)) j = if decide (j = id) then Some true else ended e j.
Proof.
  intros Hid Hf j. assert (He : forall j, ended (finish_inflight (on_load f id e) k) j = ended e j) by (intros j'; by apply ended_on_load).
  rewrite ended_finish by (by rewrite He). by rewrite He.
Qed.

(** What the source's answer comes to for a key. *)
Definition answer_of (r : result (Sourced V) Bytes) (key : Bytes) : Slot V :=
  match r with
  | Ok sourced => Ok (match sd_store sourced !! key with Some fill => Some (fi_value fill) | None => sd_answer sourced !! key end)
  | Err err => Err err
  end.

(** The pair a queued load is owned under. *)
Definition owner_of (item : Queued) : Bytes * nat := (qd_key item, qd_load item).

(** What ending [items] comes to, for the owners [O] and the slots before. *)
Record ends_loads (ans : Queued -> Slot V) (O : Owners) (items : list Queued) (s : WShard V) (slots : gmap nat (Slot V))
    (s' : WShard V) (slots' : gmap nat (Slot V)) : Prop := {
  en_inv : engine_inv (ws_engine s');
  en_cfg : cfg (ws_engine s') = cfg (ws_engine s);
  en_clock : ws_clock s' = ws_clock s;
  en_steps : rtc load_step (ws_engine s, O) (ws_engine s', O ∖ list_to_set (owner_of <$> items));
  en_ended j : ended (ws_engine s') j = if decide (j ∈ qd_load <$> items) then Some true else ended (ws_engine s) j;
  en_slots item : item ∈ items -> slots' !! qd_load item = Some (ans item);
  en_others j : j ∉ qd_load <$> items -> slots' !! j = slots !! j;
  en_record k : engine_record (ws_engine s') k = engine_record (ws_engine s) k \/
    exists item v exp, item ∈ items /\ qd_key item = k /\ ans item = Ok (Some v) /\
      engine_record (ws_engine s') k = Some {| wr_key := k; wr_value := Some (encode_value v); wr_ver := qd_ver item; wr_expires_at_ms := exp |};
}.

Lemma ends_nil ans O (s : WShard V) slots : engine_inv (ws_engine s) -> ends_loads ans O [] s slots s slots.
Proof.
  intros He. split; try done.
  - cbn. rewrite difference_empty_L. apply rtc_refl.
  - intros item Hi. by apply not_elem_of_nil in Hi.
  - intros k. by left.
Qed.

Lemma ends_app ans O xs ys (s s1 s2 : WShard V) t t1 t2 : (forall x, x ∈ xs -> qd_load x ∉ qd_load <$> ys) ->
  ends_loads ans O xs s t s1 t1 -> ends_loads ans (O ∖ list_to_set (owner_of <$> xs)) ys s1 t1 s2 t2 ->
  ends_loads ans O (xs ++ ys) s t s2 t2.
Proof.
  intros Hdis [A1 A2 A3 A4 A5 A6 A7 A8] [B1 B2 B3 B4 B5 B6 B7 B8]. split; try congruence.
  - rewrite fmap_app, list_to_set_app_L, <-difference_difference_l_L. by etrans.
  - intros j. rewrite B5, A5, fmap_app. repeat case_decide; set_solver.
  - intros x [Hx|Hx]%elem_of_app; [|by apply B6]. rewrite B7 by (by apply Hdis). by apply A6.
  - intros j. rewrite fmap_app, not_elem_of_app. intros [Hx Hy]. by rewrite B7, A7.
  - intros k. destruct (B8 k) as [->|(y & v & x & Hy & Hr)]; [|right; exists y, v, x; rewrite elem_of_app; naive_solver].
    destruct (A8 k) as [->|(y & v & x & Hy & Hr)]; [by left|right; exists y, v, x; rewrite elem_of_app; naive_solver].
Qed.

(** Loads their owners have not ended, under distinct keys, with empty slots, in a store without a cap. *)
Record ready (O : Owners) (items : list Queued) (s : WShard V) (slots : gmap nat (Slot V)) : Prop := {
  rd_inv : engine_inv (ws_engine s);
  rd_cap : max_capacity (cfg (ws_engine s)) = u64_max;
  rd_loads : loads_ok (ws_engine s, O);
  rd_owned item : item ∈ items -> owner_of item ∈ O;
  rd_fits item : item ∈ items -> key_fits (qd_key item);
  rd_nodup : NoDup (qd_key <$> items);
  rd_slots item : item ∈ items -> slots !! qd_load item = None;
}.

Lemma rtc_loads_ok (a b : Engine V * Owners) : rtc load_step a b -> loads_ok a -> loads_ok b.
Proof. induction 1 as [|x y z Hxy _ IH]; [done|]. intros Hx. apply IH. by eapply load_step_ok. Qed.

(** One key has one load. *)
Lemma ready_loads O xs ys (s : WShard V) slots x : ready O (xs ++ ys) s slots -> x ∈ xs -> qd_load x ∉ qd_load <$> ys.
Proof.
  intros Hr Hx (y & Heq & Hy)%list_elem_of_fmap. pose proof (rd_nodup _ _ _ _ Hr) as Hnd. rewrite fmap_app in Hnd.
  apply NoDup_app in Hnd as (_ & Hnd & _). apply (Hnd (qd_key x)); [by apply list_elem_of_fmap_2|].
  replace (qd_key x) with (qd_key y); [by apply list_elem_of_fmap_2|].
  apply (lo_inj _ (rd_loads _ _ _ _ Hr) _ _ (qd_load y)); [apply (rd_owned _ _ _ _ Hr y); apply elem_of_app; by right|].
  rewrite <-Heq. apply (rd_owned _ _ _ _ Hr x). apply elem_of_app. by left.
Qed.

Lemma ready_left O xs ys (s : WShard V) slots : ready O (xs ++ ys) s slots -> ready O xs s slots.
Proof.
  intros [H1 H2 H3 H4 H5 H6 H7]. split; try done; try (intros x Hx; (apply H4 || apply H5 || apply H7); apply elem_of_app; by left).
  rewrite fmap_app in H6. by apply NoDup_app in H6 as (? & _).
Qed.

Lemma ready_right ans O xs ys (s s' : WShard V) slots slots' : ready O (xs ++ ys) s slots -> ends_loads ans O xs s slots s' slots' ->
  ready (O ∖ list_to_set (owner_of <$> xs)) ys s' slots'.
Proof.
  intros Hr He. pose proof (ready_loads O xs ys s slots) as Hdis. destruct Hr as [H1 H2 H3 H4 H5 H6 H7].
  assert (Hn : forall y, y ∈ ys -> qd_load y ∉ qd_load <$> xs).
  { intros y Hy (x & Heq & Hx)%list_elem_of_fmap. apply (Hdis x); [by split|done|]. rewrite <-Heq. by apply list_elem_of_fmap_2. }
  split.
  - apply He.
  - by rewrite (en_cfg _ _ _ _ _ _ _ He).
  - by eapply rtc_loads_ok; [apply He|].
  - intros y Hy. apply elem_of_difference. split; [apply H4, elem_of_app; by right|].
    rewrite elem_of_list_to_set. intros (x & Heq & Hx)%list_elem_of_fmap. apply (Hn y Hy). injection Heq as _ ->.
    by apply list_elem_of_fmap_2.
  - intros y Hy. apply H5, elem_of_app. by right.
  - rewrite fmap_app in H6. by apply NoDup_app in H6 as (_ & _ & ?).
  - intros y Hy. rewrite (en_others _ _ _ _ _ _ _ He) by (by apply Hn). apply H7, elem_of_app. by right.
Qed.

(** One load ended: what is left to show of the way it ended. *)
Lemma ends_one ans O item (s s' : WShard V) slots : ready O [item] s slots ->
  engine_inv (ws_engine s') -> cfg (ws_engine s') = cfg (ws_engine s) -> ws_clock s' = ws_clock s ->
  load_step (ws_engine s, O) (ws_engine s', O ∖ {[ owner_of item ]}) ->
  (forall j, ended (ws_engine s') j = if decide (j = qd_load item) then Some true else ended (ws_engine s) j) ->
  (forall k, engine_record (ws_engine s') k = engine_record (ws_engine s) k \/
    exists v exp, qd_key item = k /\ ans item = Ok (Some v) /\
      engine_record (ws_engine s') k = Some {| wr_key := k; wr_value := Some (encode_value v); wr_ver := qd_ver item; wr_expires_at_ms := exp |}) ->
  ends_loads ans O [item] s slots s' (set_slot slots (qd_load item) (ans item)).
Proof.
  intros Hr H1 H2 H3 H4 H5 H6. pose proof (rd_slots _ _ _ _ Hr item ltac:(by apply list_elem_of_singleton)) as Hs.
  unfold set_slot. rewrite Hs. split; try done.
  - apply rtc_once. cbn. by rewrite union_empty_r_L.
  - intros j. rewrite H5. cbn. by repeat case_decide; set_solver.
  - intros x ->%list_elem_of_singleton. apply lookup_insert_eq.
  - intros j Hj. apply lookup_insert_ne. set_solver.
  - intros k. destruct (H6 k) as [?|(v & exp & Hv)]; [by left|right]. exists item, v, exp. split; [by apply list_elem_of_singleton|done].
Qed.

Lemma ready_pending O item (s : WShard V) slots : ready O [item] s slots ->
  owner_of item ∈ O /\ key_fits (qd_key item) /\ ended (ws_engine s) (qd_load item) = Some false.
Proof.
  intros Hr. pose proof (rd_owned _ _ _ _ Hr item ltac:(by apply list_elem_of_singleton)) as Ho. split_and!; [done| |].
  - apply (rd_fits _ _ _ _ Hr). by apply list_elem_of_singleton.
  - by apply (lo_pending _ (rd_loads _ _ _ _ Hr) (qd_key item)).
Qed.

(** The ends that store nothing. *)
Lemma ends_unstored ans O item (s : WShard V) slots f : ready O [item] s slots -> (forall i, inf_done (f i) = inf_done i) ->
  let e' := on_load load_finish (qd_load item) (finish_inflight (on_load f (qd_load item) (ws_engine s)) (qd_key item)) in
  load_step (ws_engine s, O) (e', O ∖ {[ owner_of item ]}) ->
  ends_loads ans O [item] s slots (with_engine s e') (set_slot slots (qd_load item) (ans item)).
Proof.
  intros Hr Hf e' Hstep. destruct (ready_pending O item s slots Hr) as (Ho & Hk & Hp).
  destruct (on_load_same (ws_engine s) f (qd_load item) (rd_inv _ _ _ _ Hr)) as [He1 Hr1].
  destruct (finish_inflight_same _ (qd_key item) He1) as [He2 Hr2]. destruct (on_load_same _ load_finish (qd_load item) He2) as [He3 Hr3].
  apply ends_one; try done.
  - apply finish_ended; [|done]. by rewrite Hp.
  - intros k. left. cbn. by rewrite Hr3, Hr2, Hr1.
Qed.

Lemma complete_cfg (e : Engine V) w now id e' out : engine_inv e -> key_fits (fl_key_bytes w) -> max_capacity (cfg e) = u64_max ->
  complete_fresh_load e w now id = Some (e', out) -> cfg e' = cfg e.
Proof.
  intros He Hk Hcap Hc. unfold complete_fresh_load in Hc. destruct (from_option _ _ _); [by injection Hc as <- _|].
  destruct (negb _); [by injection Hc as <- _|].
  destruct (finish_inflight_same e (fl_key_bytes w) He) as [He1 _].
  destruct (install_fill_spec (finish_inflight e (fl_key_bytes w)) w now He1 Hk) as (_ & H2 & _).
  destruct (install_fill _ w now) as [e1 had]. cbn [fst] in H2.
  unfold enforce_capacity, evict_down_to_freeing in Hc. cbn [on_load with_loads cfg] in Hc. rewrite H2 in Hc. cbn in Hc.
  rewrite Hcap in Hc. cbn in Hc. by injection Hc as <- _.
Qed.

(** The fill, on every route. *)
Lemma store_loaded_ends ans mode c O item (s : WShard V) slots fill now : ready O [item] s slots -> ans item = Ok (Some (fi_value fill)) ->
  exists s' stored, store_loaded mode c s (qd_key item) (qd_ver item) (qd_load item) fill now = Some (s', stored) /\
    ends_loads ans O [item] s slots s' (set_slot slots (qd_load item) (ans item)).
Proof.
  intros Hr Ha. destruct (ready_pending O item s slots Hr) as (Ho & Hk & Hp).
  assert (Hun : ends_loads ans O [item] s slots (with_engine s (finish_uncached (ws_engine s) (qd_key item) (qd_load item) (fi_value fill)))
    (set_slot slots (qd_load item) (ans item))).
  { apply (ends_unstored ans O item s slots (load_set_value (fi_value fill)) Hr); [done|]. by apply ls_uncached. }
  unfold store_loaded. destruct (fill_deadline _ _ _) as [exp|]; [|by eexists _, _].
  destruct (fill_route _ _); [|by eexists _, _]. set (w := {| fl_key_bytes := qd_key item |}).
  unfold ended in Hp. destruct (loads (ws_engine s) !! qd_load item) as [i|] eqn:Ei; [|done].
  destruct (fill_never_replaces_newer_data (ws_engine s) w now (qd_load item) i (rd_inv _ _ _ _ Hr) Hk Ei ltac:(left; apply Hr))
    as (e' & out & i' & Hc & Hout & He' & _ & _ & _ & _ & Hrec).
  pose proof (complete_cfg _ w _ _ _ _ (rd_inv _ _ _ _ Hr) Hk (rd_cap _ _ _ _ Hr) Hc) as Hcfg.
  assert (Hend : forall s', ws_engine s' = e' -> ws_clock s' = ws_clock s ->
    ends_loads ans O [item] s slots s' (set_slot slots (qd_load item) (ans item))).
  { intros s' Hs1 Hs2. apply ends_one; rewrite ?Hs1; try done.
    - by apply (ls_complete _ _ w now (qd_load item) e' out).
    - apply (complete_ended _ _ _ _ _ _ ltac:(unfold ended; by rewrite Ei) Hc).
    - intros k. destruct (Hrec k) as [->|(_ & Hn & _)]; [|by destruct Hn; apply Hr].
      destruct (decide _) as [Hd|_]; [|by left]. right. exists (fi_value fill), exp. destruct Hd as [-> _]. done. }
  rewrite Hc. cbn. destruct out as [had| |]; cbn; eexists _, _; (split; [reflexivity|]); apply Hend; try done.
  all: by destruct (fill_fans_out mode).
Qed.

Lemma end_item_ends ans mode c O item (s : WShard V) slots sourced now : ready O [item] s slots -> ans item = answer_of (Ok sourced) (qd_key item) ->
  exists s' sourced', end_item mode c now (Some (s, slots, sourced)) item = Some (s', set_slot slots (qd_load item) (ans item), sourced') /\
    ends_loads ans O [item] s slots s' (set_slot slots (qd_load item) (ans item)) /\
    forall k, k <> qd_key item -> answer_of (Ok sourced') k = answer_of (Ok sourced) k.
Proof.
  intros Hr Ha. destruct (ready_pending O item s slots Hr) as (Ho & _). unfold end_item, answer_of in *. cbn [mbind option_bind].
  destruct (sd_store sourced !! qd_key item) as [fill|].
  - destruct (store_loaded_ends ans mode c O item s slots fill now Hr Ha) as (s' & st & -> & He). cbn. rewrite <-Ha.
    eexists _, _. split_and!; [done|done|]. intros k Hne. cbn. by rewrite lookup_delete_ne by done.
  - destruct (sd_answer sourced !! qd_key item) as [value|]; rewrite <-Ha; eexists _, _; (split; [done|split]).
    + apply (ends_unstored ans O item s slots (load_set_value value) Hr); [done|]. by apply ls_uncached.
    + intros k Hne. cbn. by rewrite lookup_delete_ne by done.
    + apply (ends_unstored ans O item s slots load_set_absent Hr); [done|]. by apply ls_absent.
    + done.
Qed.

Lemma end_items_ends ans mode c now items : forall O (s : WShard V) slots sourced, ready O items s slots ->
  (forall item, item ∈ items -> ans item = answer_of (Ok sourced) (qd_key item)) ->
  exists s' slots' sourced', foldl (end_item mode c now) (Some (s, slots, sourced)) items = Some (s', slots', sourced') /\
    ends_loads ans O items s slots s' slots'.
Proof.
  induction items as [|x items IH]; intros O s slots sourced Hr Ha.
  { eexists _, _, _. split; [done|]. apply ends_nil, Hr. }
  pose proof (rd_nodup _ _ _ _ Hr) as Hnd. rewrite fmap_cons in Hnd. apply NoDup_cons in Hnd as [Hnx _].
  destruct (end_item_ends ans mode c O x s slots sourced now) as (s1 & sd1 & Hx & He & Hsd);
    [by apply (ready_left O [x] items)|apply Ha; by left|].
  cbn [foldl]. rewrite Hx.
  pose proof (ready_right ans O [x] items s s1 slots _ Hr He) as Hr1.
  destruct (IH _ s1 _ sd1 Hr1) as (s2 & t2 & sd2 & Hf & He2).
  { intros y Hy. rewrite Ha by (by right). symmetry. apply Hsd. intros Heq. apply Hnx. rewrite <-Heq. by apply list_elem_of_fmap_2. }
  eexists _, _, _. split; [exact Hf|]. apply (ends_app ans O [x] items s s1 s2 slots (set_slot slots (qd_load x) (ans x)) t2); [|done|done].
  intros y. by apply (ready_loads O [x] items s slots y).
Qed.

Lemma fail_items_ends ans err items : forall O (s : WShard V) slots, ready O items s slots ->
  (forall item, item ∈ items -> ans item = Err err) ->
  let st := foldl (fail_item err) (s, slots) items in ends_loads ans O items s slots st.1 st.2.
Proof.
  induction items as [|x items IH]; intros O s slots Hr Ha; [apply ends_nil, Hr|].
  pose proof (ready_left O [x] items s slots Hr) as Hx. destruct (ready_pending O x s slots Hx) as (Ho & _).
  assert (He : ends_loads ans O [x] s slots (fail_item err (s, slots) x).1 (fail_item err (s, slots) x).2).
  { cbn. rewrite <-(Ha x) by (by left). apply (ends_unstored ans O x s slots (load_set_error err) Hx); [done|]. by apply ls_fail. }
  cbn [foldl]. destruct (fail_item err (s, slots) x) as [s1 t1]. cbn [fst snd] in *.
  eapply (ends_app ans O [x] items s s1 _ slots t1 _); [intros y; by apply (ready_loads O [x] items s slots y)|done|].
  apply IH; [by eapply (ready_right ans O [x] items)|]. intros y Hy. apply Ha. by right.
Qed.

Lemma run_chunk_ends ans mode c now source chunk O (s : WShard V) slots : ready O chunk s slots ->
  (forall item, item ∈ chunk -> ans item = answer_of (source (qd_key <$> chunk)) (qd_key item)) ->
  exists s' slots', run_chunk mode c now source (Some (s, slots)) chunk = Some (s', slots') /\ ends_loads ans O chunk s slots s' slots'.
Proof.
  intros Hr Ha. unfold run_chunk. cbn [mbind option_bind]. destruct (source _) as [sourced|err].
  - destruct (end_items_ends ans mode c now chunk O s slots sourced Hr Ha) as (s' & t' & sd' & Hf & He). cbn [fst snd]. rewrite Hf. by eexists _, _.
  - pose proof (fail_items_ends ans err chunk O s slots Hr Ha) as He. destruct (foldl _ _ chunk) as [s' t']. by eexists _, _.
Qed.

Lemma run_chunks_ends ans mode c now source chunks : forall O (s : WShard V) slots, ready O (concat chunks) s slots ->
  (forall chunk item, chunk ∈ chunks -> item ∈ chunk -> ans item = answer_of (source (qd_key <$> chunk)) (qd_key item)) ->
  exists s' slots', foldl (run_chunk mode c now source) (Some (s, slots)) chunks = Some (s', slots') /\ ends_loads ans O (concat chunks) s slots s' slots'.
Proof.
  induction chunks as [|ch chunks IH]; intros O s slots Hr Ha.
  { eexists _, _. split; [done|]. apply ends_nil, Hr. }
  cbn [concat foldl] in *. destruct (run_chunk_ends ans mode c now source ch O s slots) as (s1 & t1 & Hc & He);
    [by apply (ready_left O ch (concat chunks))|intros item; apply Ha; by left|].
  rewrite Hc. destruct (IH _ s1 t1 (ready_right ans O ch (concat chunks) s s1 slots t1 Hr He)) as (s2 & t2 & Hf & He2).
  { intros chunk item Hch. apply Ha. by right. }
  eexists _, _. split; [exact Hf|]. apply (ends_app ans O ch (concat chunks) s s1 s2 slots t1 t2); [|done|done].
  intros y. by apply (ready_loads O ch (concat chunks) s slots y).
Qed.

(** ** Claiming keys *)

Lemma find_live_alter k f es : (forall l, live_key (f l) = live_key l) -> forall i, (forall l, es !! i = Some l -> live_key l <> k) ->
  find_live k (alter f i es) = find_live k es.
Proof.
  intros Hf. induction es as [|l es IH]; intros i Hi; [done|]. destruct i as [|i];
    [change (alter f 0%nat (l :: es)) with (f l :: es)|change (alter f (S i) (l :: es)) with (l :: alter f i es)]; rewrite !find_live_cons.
  - rewrite Hf, decide_False by (by apply Hi). by rewrite decide_False by (by apply Hi).
  - destruct (decide (live_key l = k)); [done|]. by apply IH.
Qed.

Lemma stripe_at_with (e : Engine V) k st idx : engine_inv e ->
  stripe_at (with_stripe e (bucket_of_key k) st) idx = if decide (idx = bucket_of_key k) then st else stripe_at e idx.
Proof. intros He. apply stripe_at_insert; [|done]. rewrite (ei_stripes _ He). apply bucket_of_key_lt. Qed.

Lemma touch_visible (e : Engine V) k k' now t : engine_inv e -> k' <> k -> visible (touch e k t) k' now = visible e k' now.
Proof.
  intros He Hne. unfold touch. destruct (tracks_last_access e); [|done]. destruct (find_slot k _) as [i|] eqn:Es; [|done].
  unfold visible. rewrite stripe_at_with by done.
  case_decide as Hb; [|done]. rewrite Hb. unfold find_in. cbn [st_live set_live st_long_ttl].
  rewrite find_live_alter; [done|done|]. intros l Hl. unfold find_slot in Es.
  destruct (list_find _ _) as [[j x]|] eqn:Ef; [|done]. apply list_find_Some in Ef as (Hj & Hk & _). cbn in Es. injection Es as ->.
  rewrite Hl in Hj. injection Hj as ->. congruence.
Qed.

Lemma register_visible (e : Engine V) k k' now : engine_inv e -> visible (register_load e k).1 k' now = visible e k' now.
Proof.
  intros He. unfold register_load. cbn [new_load fst]. set (e1 := {| cfg := cfg e |}). unfold visible.
  rewrite stripe_at_with by (by apply (engine_inv_ext e)).
  case_decide as Hb; [|done]. by rewrite Hb.
Qed.

(** The value a read finds, and the keys it finds none for. *)
Definition cached (e : Engine V) (now : Z) (k : Bytes) : option V := live ← visible e k now; decode_value (record_value (lv_record live)).
Definition missing (e : Engine V) (now : Z) (ks : list Bytes) : list Bytes := filter (fun k => is_some (visible e k now) = false) ks.

(** A shard a call may start on: no load of its keys is in flight and what it stores for them decodes. *)
Record claimable (O : Owners) (now : Z) (todo : list Bytes) (e : Engine V) : Prop := {
  cl_inv : engine_inv e;
  cl_loads : loads_ok (e, O);
  cl_nodup : NoDup todo;
  cl_free k : k ∈ todo -> registered e k = None;
  cl_decodes k live : k ∈ todo -> visible e k now = Some live -> is_Some (decode_value (V := V) (record_value (lv_record live)));
}.

Lemma claimable_tail O O' now k todo (e e' : Engine V) : claimable O now (k :: todo) e -> engine_inv e' -> loads_ok (e', O') ->
  (forall k', k' <> k -> visible e' k' now = visible e k' now) -> (forall k', k' <> k -> registered e' k' = registered e k') ->
  claimable O' now todo e' /\ missing e' now todo = missing e now todo /\ forall k', k' ∈ todo -> cached e' now k' = cached e now k'.
Proof.
  intros [H1 H2 H3 H4 H5] He Hl Hv Hr. apply NoDup_cons in H3 as [Hk Hnd].
  assert (Hne : forall k', k' ∈ todo -> k' <> k) by (intros k' Hk' ->; done).
  split; [split; try done|split].
  - intros k' Hk'. rewrite Hr by (by apply Hne). apply H4. by right.
  - intros k' live Hk'. rewrite Hv by (by apply Hne). apply H5. by right.
  - unfold missing. apply filter_ext_in. intros k' Hk'. by rewrite Hv by (by apply Hne).
  - intros k' Hk'. unfold cached. by rewrite Hv by (by apply Hne).
Qed.

Definition wait_of (q : Queued) : Wait := WaitOwned (qd_key q) (qd_load q).

(** What claiming [todo] adds to a call. *)
Record claims (O : Owners) (now : Z) (todo : list Bytes) (m m' : Claimed V) (new : list Queued) : Prop := {
  cs_inv : engine_inv (ws_engine (cm_shard m'));
  cs_cfg : cfg (ws_engine (cm_shard m')) = cfg (ws_engine (cm_shard m));
  cs_record k : engine_record (ws_engine (cm_shard m')) k = engine_record (ws_engine (cm_shard m)) k;
  cs_loads : loads_ok (ws_engine (cm_shard m'), list_to_set (owner_of <$> new) ∪ O);
  cs_keys : qd_key <$> new = missing (ws_engine (cm_shard m)) now todo;
  cs_owned : cm_owned m' = cm_owned m ++ new;
  cs_waits : cm_waits m' = cm_waits m ++ (wait_of <$> new);
  cs_found k : cm_found m' !! k = match (if decide (k ∈ todo) then cached (ws_engine (cm_shard m)) now k else None) with
    Some v => Some v | None => cm_found m !! k end;
}.

Lemma registered_keeps (e e' : Engine V) k : keeps_loads e e' -> registered e' k = registered e k.
Proof. intros Hk. unfold registered. by rewrite (kl_inflight _ _ Hk). Qed.

Lemma touch_cfg (e : Engine V) k t : cfg (touch e k t) = cfg e.
Proof. unfold touch. destruct (tracks_last_access e); [|done]. by destruct (find_slot _ _). Qed.

Lemma registered_register (e : Engine V) k k' : engine_inv e -> k' <> k -> registered (register_load e k).1 k' = registered e k'.
Proof.
  intros He Hne. unfold register_load. cbn [new_load fst]. set (e1 := {| cfg := cfg e |}).
  rewrite registered_with by (cbn; apply (ei_stripes _ He)). case_decide as Hb; [|done]. rewrite lookup_insert_ne by done.
  unfold registered. by rewrite Hb.
Qed.

(** One key: a hit adds its value, a miss its load. *)
Lemma claim_key_claims O now k todo (m : Claimed V) : claimable O now (k :: todo) (ws_engine (cm_shard m)) ->
  exists m' new, claim_key now (Some m) k = Some m' /\ claims O now [k] m m' new /\
    (forall k', k' <> k -> visible (ws_engine (cm_shard m')) k' now = visible (ws_engine (cm_shard m)) k' now) /\
    (forall k', k' <> k -> registered (ws_engine (cm_shard m')) k' = registered (ws_engine (cm_shard m)) k').
Proof.
  intros [H1 H2 H3 H4 H5]. set (e := ws_engine (cm_shard m)) in *. unfold claim_key. cbn [mbind option_bind]. unfold get_by_bytes. fold e.
  assert (Hmiss : missing e now [k] = if is_some (visible e k now) then [] else [k]).
  { unfold missing. rewrite filter_cons, filter_nil. by destruct (is_some _). }
  destruct (visible e k now) as [live|] eqn:Ev.
  - destruct (H5 k live ltac:(by left) Ev) as [v Hv]. rewrite Hv. cbn [mbind option_bind]. eexists _, []. split; [done|].
    destruct (touch_same e k now H1) as (T1 & T2 & _). pose proof (keeps_touch e k now) as Tk. split_and!; cbn; fold e.
    + split; cbn; fold e; rewrite ?app_nil_r; try done.
      * apply touch_cfg.
      * rewrite union_empty_l_L. by apply (loads_ok_keeps e).
      * intros k'. destruct (decide (k' = k)) as [->|Hne].
        -- rewrite decide_True by (by apply list_elem_of_singleton). unfold cached. rewrite Ev. cbn. rewrite Hv. apply lookup_insert_eq.
        -- rewrite decide_False by (by rewrite list_elem_of_singleton). by apply lookup_insert_ne.
    + intros k' Hne. by apply touch_visible.
    + intros k' _. by apply registered_keeps.
  - pose proof (H4 k ltac:(by left)) as Hfree. unfold miss_or_join. rewrite Ev. unfold registered in Hfree at 1. rewrite Hfree.
    pose proof (loads_ok_register e O k H2 ltac:(done)) as Hl. pose proof (register_load_same e k H1) as [G1 G2].
    pose proof (register_visible e k) as G3. pose proof (registered_register e k) as G4.
    assert (G5 : cfg (register_load e k).1 = cfg e) by done.
    destruct (register_load e k) as [e1 id]. cbn [fst snd] in *. destruct (stamp_local _ now) as [s ver] eqn:Es.
    assert (Hs : ws_engine s = e1) by (unfold stamp_local in Es; destruct (HlcClock.now _ _); by injection Es as <- _).
    eexists _, [{| qd_key := k; qd_ver := ver; qd_load := id |}]. split; [done|]. split_and!; cbn; fold e; rewrite ?Hs.
    + split; cbn; fold e; rewrite ?Hs; try done.
      * by rewrite union_empty_r_L.
      * intros k'. destruct (decide (k' = k)) as [->|Hne].
        -- rewrite decide_True by (by apply list_elem_of_singleton). unfold cached. by rewrite Ev.
        -- by rewrite decide_False by (by rewrite list_elem_of_singleton).
    + intros k' _. by apply G3.
    + intros k' Hne. by apply G4.
Qed.

Lemma claim_claims now todo : forall O (m : Claimed V), claimable O now todo (ws_engine (cm_shard m)) ->
  exists m' new, foldl (claim_key now) (Some m) todo = Some m' /\ claims O now todo m m' new.
Proof.
  induction todo as [|k todo IH]; intros O m Hc.
  { exists m, []. split; [done|]. split; cbn; rewrite ?app_nil_r; try done; [apply Hc|]. rewrite union_empty_l_L. apply Hc. }
  destruct (claim_key_claims O now k todo m Hc) as (m1 & n1 & Hk & [A1 A2 A3 A4 A5 A6 A7 A8] & Hv & Hr).
  destruct (claimable_tail _ _ _ _ _ _ _ Hc A1 A4 Hv Hr) as (Hc1 & Hm & Hca).
  destruct (IH _ m1 Hc1) as (m2 & n2 & Hf & [B1 B2 B3 B4 B5 B6 B7 B8]). exists m2, (n1 ++ n2).
  cbn [foldl]. rewrite Hk. split; [exact Hf|]. split; try congruence.
  - rewrite fmap_app, list_to_set_app_L, (union_comm_L (list_to_set (owner_of <$> n1))), <-union_assoc_L. exact B4.
  - rewrite fmap_app, A5, B5, Hm. unfold missing. rewrite !filter_cons, filter_nil. by destruct (decide _).
  - by rewrite B6, A6, app_assoc.
  - by rewrite B7, A7, fmap_app, app_assoc.
  - intros k'. rewrite B8, A8. pose proof (cl_nodup _ _ _ _ Hc) as [Hnk _]%NoDup_cons.
    destruct (decide (k' ∈ todo)) as [Ht|Ht].
    + rewrite (decide_True (P := k' ∈ k :: todo)) by (by right). rewrite Hca by done. rewrite (decide_False (P := k' ∈ [k])).
      * done.
      * rewrite list_elem_of_singleton. by intros ->.
    + destruct (decide (k' = k)) as [->|Hne].
      * by rewrite !decide_True by (by left).
      * rewrite !decide_False; [done| |]; rewrite elem_of_cons; intros [?|?]; try done. by apply not_elem_of_nil in H.
Qed.

(** ** A whole call *)

Lemma existsb_none {A} (f : A -> bool) (l : list A) : (forall x, x ∈ l -> f x = false) -> existsb f l = false.
Proof. induction l as [|x l IH]; intros H; [done|]. cbn. rewrite H by (by left). apply IH. intros y Hy. apply H. by right. Qed.

Definition value_of (a : Slot V) : option V := match a with Ok v => v | Err _ => None end.
(** The first failure among the keys' answers. *)
Definition failure (answers : Bytes -> Slot V) (ks : list Bytes) : option Bytes :=
  head (omap (fun k => match answers k with Err err => Some err | Ok _ => None end) ks).

Lemma failure_none answers ks : (forall k, exists v, answers k = Ok v) -> failure answers ks = None.
Proof. intros Ha. unfold failure. induction ks as [|k ks IH]; [done|]. cbn. by destruct (Ha k) as [v ->]. Qed.

Lemma settle_failed wait_for slots waits : forall (s : WShard V) err,
  foldl (settle_wait wait_for slots) (s, Err err) waits = (s, Err err).
Proof. induction waits as [|w waits IH]; intros s err; [done|]. apply IH. Qed.

Lemma settle_owned wait_for slots (answers : Bytes -> Slot V) new :
  (forall q, q ∈ new -> slots !! qd_load q = Some (answers (qd_key q))) -> forall (s : WShard V) found todo,
  exists r, foldl (settle_wait wait_for slots) (s, Ok (found, todo)) (wait_of <$> new) = (s, r) /\
    match failure answers (qd_key <$> new) with
    | Some err => r = Err err
    | None => exists found', r = Ok (found', todo) /\ forall k, found' !! k =
        match (if decide (k ∈ qd_key <$> new) then value_of (answers k) else None) with Some v => Some v | None => found !! k end
    end.
Proof.
  induction new as [|q new IH]; intros Hs s found todo.
  { eexists. split; [done|]. cbn. eexists. split; [done|]. done. }
  rewrite fmap_cons. cbn [foldl]. unfold settle_wait at 2. cbn [wait_of]. rewrite (Hs q) by (by left).
  specialize (IH ltac:(intros q' Hq'; apply Hs; by right)). unfold failure. rewrite fmap_cons. cbn [omap list_omap].
  destruct (answers (qd_key q)) as [[v|]|err] eqn:Ea; cbn [resolve_owned].
  - destruct (IH s (<[qd_key q := v]> found) todo) as (r & Hr & Hm). exists r. split; [exact Hr|]. unfold failure in Hm.
    destruct (head _); [done|]. destruct Hm as (f & -> & Hf). exists f. split; [done|]. intros k. rewrite Hf.
    destruct (decide (k = qd_key q)) as [->|Hne].
    + rewrite (decide_True (P := _ ∈ _ :: _)) by (by left). rewrite Ea, lookup_insert_eq. cbn. by case_decide.
    + rewrite lookup_insert_ne by done. destruct (decide (k ∈ _ <$> new)); [rewrite decide_True by (by right)|rewrite decide_False by (rewrite elem_of_cons; by intros [?|?])]; done.
  - destruct (IH s found todo) as (r & Hr & Hm). exists r. split; [exact Hr|]. unfold failure in Hm.
    destruct (head _); [done|]. destruct Hm as (f & -> & Hf). exists f. split; [done|]. intros k. rewrite Hf.
    destruct (decide (k = qd_key q)) as [->|Hne].
    + rewrite (decide_True (P := _ ∈ _ :: _)) by (by left). rewrite Ea. cbn. by case_decide.
    + destruct (decide (k ∈ _ <$> new)); [rewrite decide_True by (by right)|rewrite decide_False by (rewrite elem_of_cons; by intros [?|?])]; done.
  - exists (Err err). split; [apply settle_failed|done].
Qed.

(** The batch a call runs, none when it owns no load. *)
Lemma run_owned ans mode c now source max_keys O items (s : WShard V) : ready O items s ∅ ->
  (forall chunk item, chunk ∈ chunked items max_keys -> item ∈ chunk -> ans item = answer_of (source (qd_key <$> chunk)) (qd_key item)) ->
  exists s' slots, (if bool_decide (items = []) then Some (s, ∅) else run_batch mode c now source max_keys s items) = Some (s', slots) /\
    ends_loads ans O items s ∅ s' slots.
Proof.
  intros Hr Ha. destruct (chunked_spec items max_keys) as [Hc _]. case_bool_decide as E.
  { subst items. eexists _, _. split; [done|]. apply ends_nil, Hr. }
  rewrite <-Hc in Hr. destruct (run_chunks_ends ans mode c now source _ O s ∅ Hr Ha) as (s' & t' & Hf & He).
  rewrite Hc in He. by eexists _, _.
Qed.

Lemma claims_ready O now todo (m m' : Claimed V) new : claimable O now todo (ws_engine (cm_shard m)) ->
  max_capacity (cfg (ws_engine (cm_shard m))) = u64_max -> (forall k, k ∈ todo -> key_fits k) -> claims O now todo m m' new ->
  ready (list_to_set (owner_of <$> new) ∪ O) new (cm_shard m') ∅ /\
  (list_to_set (owner_of <$> new) ∪ O) ∖ list_to_set (owner_of <$> new) = O.
Proof.
  intros Hcl Hcap Hfits [A1 A2 A3 A4 A5 A6 A7 A8]. assert (Hkey : forall q, q ∈ new -> qd_key q ∈ todo).
  { intros q Hq. assert (Hin : qd_key q ∈ qd_key <$> new) by (by apply list_elem_of_fmap_2). rewrite A5 in Hin. by apply list_elem_of_filter in Hin as [_ ?]. }
  split; [split|].
  - done.
  - by rewrite A2.
  - done.
  - intros q Hq. apply elem_of_union. left. apply elem_of_list_to_set. by apply list_elem_of_fmap_2.
  - intros q Hq. by apply Hfits, Hkey.
  - rewrite A5. apply NoDup_filter, Hcl.
  - done.
  - apply set_eq. intros [k id]. rewrite elem_of_difference, elem_of_union, elem_of_list_to_set. split; [tauto|]. intros Hin. split; [by right|].
    intros (q & Heq & Hq)%list_elem_of_fmap. injection Heq as -> ->.
    apply (lo_registered _ (cl_loads _ _ _ _ Hcl)) in Hin. cbn in Hin. by rewrite (cl_free _ _ _ _ Hcl _ (Hkey q Hq)) in Hin.
Qed.

Lemma load_many_answers (fuel : nat) (mode : Mode) (c : WConfig V) (now : Z) (source : list Bytes -> result (Sourced V) Bytes)
    (max_keys : nat) (wait_for : WShard V -> nat -> WShard V) (s : WShard V) (ks : list Bytes) (O : Owners) (answers : Bytes -> Slot V)
    (Hfuel : (0 < fuel)%nat) (Hcl : claimable O now (distinct ks) (ws_engine s)) (Hcap : max_capacity (cfg (ws_engine s)) = u64_max)
    (Hfits : Forall key_fits ks)
    (Hsource : forall asked k, asked ∈ chunked (missing (ws_engine s) now (distinct ks)) max_keys -> k ∈ asked -> answer_of (source asked) k = answers k) :
  exists s' r, load_many_from fuel mode c now source max_keys wait_for s ks = Some (s', r) /\
    engine_inv (ws_engine s') /\ loads_ok (ws_engine s', O) /\
    match failure answers (missing (ws_engine s) now (distinct ks)) with
    | Some err => r = Err err
    | None => exists found, r = Ok found /\ forall k, found !! k =
        if decide (k ∈ ks) then match cached (ws_engine s) now k with Some v => Some v | None => value_of (answers k) end else None
    end /\
    forall k, engine_record (ws_engine s') k = engine_record (ws_engine s) k \/
      k ∈ missing (ws_engine s) now (distinct ks) /\ exists v ver exp, answers k = Ok (Some v) /\
        engine_record (ws_engine s') k = Some {| wr_key := k; wr_value := Some (encode_value v); wr_ver := ver; wr_expires_at_ms := exp |}.
Proof.
  destruct (distinct_spec ks) as [_ Hks]. unfold load_many_from. set (todo := distinct ks) in *. clearbody todo.
  destruct fuel as [|fuel]; [lia|]. set (m := {| cm_shard := s; cm_found := ∅; cm_owned := []; cm_waits := [] |} : Claimed V).
  destruct (claim_claims now todo O m Hcl) as (m' & new & Hf & Hcs).
  destruct (claims_ready O now todo m m' new Hcl Hcap) as [Hr HO]; [intros k Hk; rewrite Forall_forall in Hfits; by apply Hfits, Hks|done|].
  pose proof Hcs as [A1 A2 A3 A4 A5 A6 A7 A8]. cbn [m cm_shard cm_owned cm_waits cm_found app] in A2, A3, A5, A6, A7, A8.
  destruct (run_owned (fun q => answers (qd_key q)) mode c now source max_keys _ new _ Hr) as (s1 & slots & Hrun & He).
  { intros chunk q Hch Hq. symmetry. apply Hsource; [|by apply list_elem_of_fmap_2]. rewrite <-A5, chunked_fmap. by apply list_elem_of_fmap_2. }
  destruct (settle_owned wait_for slots answers new (fun q Hq => en_slots _ _ _ _ _ _ _ He q Hq) s1 (cm_found m') []) as (r & Hs & Hm).
  rewrite A5 in Hm. destruct He as [E1 E2 E3 E4 E5 E6 E7 E8]. rewrite HO in E4.
  assert (Hloop : load_loop (S fuel) mode c now source max_keys wait_for s ∅ todo =
    Some (match todo with [] => s | _ => s1 end, match r with Ok (found, _) => Ok found | Err err => Err err end)).
  { destruct todo as [|k0 todo].
    - cbn in Hf. injection Hf as <-. apply fmap_nil_inv in A5 as ->. cbn in Hs. injection Hs as <-. done.
    - cbn [load_loop]. unfold claim. fold m. rewrite Hf. cbn [mbind option_bind]. rewrite A6, Hrun. cbn [mbind option_bind]. rewrite A7, Hs.
      destruct r as [[found todo']|err]; [|done]. destruct (failure _ _); [done|]. destruct Hm as (f & [= -> ->] & _). by destruct fuel. }
  rewrite Hloop. eexists _, _. split; [done|]. split_and!.
  - destruct todo; [apply Hcl|done].
  - destruct todo; [apply Hcl|]. by eapply rtc_loads_ok.
  - destruct (failure _ _) as [err|]; [by subst r|]. destruct Hm as (f & -> & Hfound). eexists. split; [done|]. intros k.
    rewrite Hfound, A8, lookup_empty. unfold missing. destruct (decide (k ∈ ks)) as [Hk|Hk].
    + rewrite (decide_True (P := k ∈ todo)) by (by apply Hks). unfold cached. destruct (visible (ws_engine s) k now) as [live|] eqn:Ev.
      * rewrite decide_False by (rewrite list_elem_of_filter, Ev; by intros [? _]).
        destruct (cl_decodes _ _ _ _ Hcl k live ltac:(by apply Hks) Ev) as [v Hv]. cbn. by rewrite Hv.
      * rewrite decide_True by (rewrite list_elem_of_filter, Ev; split; [done|by apply Hks]). by destruct (value_of _).
    + rewrite !decide_False; [done|by rewrite Hks|]. rewrite list_elem_of_filter, Hks. by intros [_ ?].
  - intros k. destruct todo; [by left|]. rewrite <-(A3 k). destruct (E8 k) as [->|(q & v & exp & Hq & Hk & Ha & Hrec)]; [by left|right].
    split; [rewrite <-A5, <-Hk; by apply list_elem_of_fmap_2|]. exists v, (qd_ver q), exp. by rewrite <-Hk at 1.
Qed.

Lemma loader_single_fold (load : Bytes -> result (option V) Bytes) ks : forall m : gmap Bytes V,
  let r := foldl (fun acc key =>
    match acc with
    | Err err => Err err
    | Ok found => match load key with Err err => Err err | Ok (Some value) => Ok (<[key := value]> found) | Ok None => Ok found end
    end) (Ok m) ks in
  match failure load ks with
  | Some err => r = Err err
  | None => exists found, r = Ok found /\ forall k, found !! k = match (if decide (k ∈ ks) then value_of (load k) else None) with Some v => Some v | None => m !! k end
  end.
Proof.
  assert (Herr : forall err ks, foldl (fun acc key =>
    match acc with
    | Err err => Err err
    | Ok found => match load key with Err err => Err err | Ok (Some value) => Ok (<[key := value]> found) | Ok None => Ok found end
    end) (Err err : result (gmap Bytes V) Bytes) ks = Err err) by (intros err; induction ks0; done).
  induction ks as [|k ks IH]; intros m; [by exists m|]. unfold failure in *. cbn [foldl omap list_omap] in *.
  destruct (load k) as [[v|]|err] eqn:Ea; [specialize (IH (<[k := v]> m))|specialize (IH m)|apply Herr].
  all: destruct (head _); [done|]; destruct IH as (f & Hf & Hl); exists f; split; [exact Hf|]; intros k'; rewrite Hl.
  all: destruct (decide (k' = k)) as [->|Hne];
    [rewrite (decide_True (P := k ∈ k :: ks)) by (by left); rewrite Ea; cbn; rewrite ?lookup_insert_eq; by case_decide|].
  all: rewrite ?lookup_insert_ne by done; destruct (decide (k' ∈ ks));
    [rewrite decide_True by (by right)|rewrite decide_False by (rewrite elem_of_cons; by intros [?|?])]; done.
Qed.

(** A loader of one key a call answers a batch with each key's value, or with the first failure. *)
Lemma loader_single_answers (load : Bytes -> result (option V) Bytes) ks k : k ∈ ks ->
  answer_of (loader_source (loader_single load) ks) k = match failure load ks with Some err => Err err | None => load k end.
Proof.
  intros Hk. pose proof (loader_single_fold load ks ∅) as H. unfold loader_source, loader_single. destruct (failure load ks) as [err|] eqn:Ef.
  - by rewrite H.
  - destruct H as (found & -> & Hf). cbn. rewrite lookup_fmap, Hf, decide_True, lookup_empty by done.
    destruct (load k) as [[v|]|err] eqn:Ek; [done|done|]. exfalso. unfold failure in Ef.
    assert (Hin : err ∈ omap (fun k => match load k with Err err => Some err | Ok _ => None end) ks) by (apply list_elem_of_omap; exists k; by rewrite Ek).
    destruct (omap _ ks); [by apply not_elem_of_nil in Hin|done].
Qed.

(** C40: a read-through answers from the cache, then from the source, in a shard without a capacity cap whose stored
    values decode, of keys none of which is being loaded. The call returns, and holds for each key asked the stored
    value a read would find and otherwise the source's, and nothing for a key in neither; of the source only the answers for the
    keys missed, asked in batches of at most [max_keys], matter, and one failed answer fails the call. The loads in flight are
    then those of before, whichever way it ended, and the store has changed at keys missed only, to the value the source
    returned. *)
Theorem a_read_through_is_cache_then_source (fuel : nat) (mode : Mode) (c : WConfig V) (now : Z) (source : list Bytes -> result (Sourced V) Bytes)
    (max_keys : nat) (wait_for : WShard V -> nat -> WShard V) (s : WShard V) (ks : list Bytes) (O : Owners) (answers : Bytes -> Slot V)
    (Hfuel : (0 < fuel)%nat) (Hcl : claimable O now (distinct ks) (ws_engine s)) (Hcap : max_capacity (cfg (ws_engine s)) = u64_max)
    (Hfits : Forall key_fits ks)
    (Hsource : forall asked k, asked ∈ chunked (missing (ws_engine s) now (distinct ks)) max_keys -> k ∈ asked -> answer_of (source asked) k = answers k) :
  exists s' r, load_many_from fuel mode c now source max_keys wait_for s ks = Some (s', r) /\
    engine_inv (ws_engine s') /\ loads_ok (ws_engine s', O) /\
    match failure answers (missing (ws_engine s) now (distinct ks)) with
    | Some err => r = Err err
    | None => exists found, r = Ok found /\ forall k, found !! k =
        if decide (k ∈ ks) then match cached (ws_engine s) now k with Some v => Some v | None => value_of (answers k) end else None
    end /\
    forall k, engine_record (ws_engine s') k = engine_record (ws_engine s) k \/
      k ∈ missing (ws_engine s) now (distinct ks) /\ exists v ver exp, answers k = Ok (Some v) /\
        engine_record (ws_engine s') k = Some {| wr_key := k; wr_value := Some (encode_value v); wr_ver := ver; wr_expires_at_ms := exp |}.
Proof. by apply load_many_answers. Qed.

(** *** Loading for a peer *)

Lemma serve_loaded_fold (kvs : list (Bytes * V)) : forall found uncached stored, NoDup kvs.*1 ->
  exists stored', foldl serve_loaded (found, uncached, stored) kvs =
    (found ++ omap (fun kv => stored !! kv.1) kvs,
     uncached ++ ((fun kv => (kv.1, encode_value kv.2)) <$> filter (fun kv => stored !! kv.1 = None) kvs), stored').
Proof.
  induction kvs as [|[k v] kvs IH]; intros found uncached stored Hnd; [exists stored; cbn; by rewrite !app_nil_r|].
  rewrite fmap_cons in Hnd. apply NoDup_cons in Hnd as [Hk Hnd]. cbn [fst] in Hk. cbn [foldl]. unfold serve_loaded at 2. cbn [fst snd omap list_omap]. rewrite filter_cons. cbn [fst].
  destruct (stored !! k) as [rec|] eqn:Es.
  - destruct (IH (found ++ [rec]) uncached (delete k stored) Hnd) as [st' Hf]. exists st'. rewrite Hf, decide_False by done.
    assert (Hsame : forall kv, kv ∈ kvs -> delete k stored !! kv.1 = stored !! kv.1).
    { intros kv Hkv. apply lookup_delete_ne. intros Heq. apply Hk. rewrite Heq. by apply (list_elem_of_fmap_2 fst). }
    rewrite (filter_ext_in _ (fun kv => stored !! kv.1 = None)) by (intros kv Hkv; by rewrite Hsame).
    rewrite (list_omap_ext _ (fun kv => stored !! kv.1) kvs kvs);
      [by rewrite <-app_assoc|apply Forall_Forall2_diag, Forall_forall; intros kv Hkv; by apply Hsame].
  - destruct (IH found (uncached ++ [(k, encode_value v)]) stored Hnd) as [st' Hf]. exists st'. rewrite Hf, decide_True by done.
    by rewrite fmap_cons, <-app_assoc.
Qed.

(** The record a peer is sent for a key: the stored one, if it is live. *)
Definition served (e : Engine V) (now : Z) (k : Bytes) : option WireRecord :=
  rec ← record_for e k now; if is_tombstone rec then None else Some rec.

Lemma served_map (e : Engine V) now held k :
  (list_to_map ((fun rec => (wr_key rec, rec)) <$> filter (fun rec => negb (is_tombstone rec) = true) (omap (fun key => record_for e key now) held)) :
    gmap Bytes WireRecord) !! k = if decide (k ∈ held) then served e now k else None.
Proof.
  induction held as [|h held IH]; [done|]. cbn [omap list_omap]. assert (Hskip : served e now h = None ->
    (if decide (k ∈ held) then served e now k else None) = if decide (k ∈ h :: held) then served e now k else None).
  { intros Hn. destruct (decide (k ∈ h :: held)) as [Hin|Hin].
    - apply elem_of_cons in Hin as [->|Hin]; [rewrite Hn; by case_decide|by rewrite decide_True].
    - rewrite decide_False; [done|]. intros ?. apply Hin. by right. }
  unfold served in Hskip at 1. destruct (record_for e h now) as [rec|] eqn:Er; [|rewrite IH; by apply Hskip].
  rewrite filter_cons. destruct (is_tombstone rec) eqn:Et; cbn [negb].
  - rewrite decide_False by done. rewrite IH. apply Hskip. cbn. by rewrite Et.
  - rewrite decide_True by done. rewrite fmap_cons, list_to_map_cons, (record_for_key _ _ _ _ Er).
    destruct (decide (k = h)) as [->|Hne].
    + rewrite lookup_insert_eq, decide_True by (by left). unfold served. by rewrite Er; cbn; rewrite Et.
    + rewrite lookup_insert_ne, IH by done. destruct (decide (k ∈ held)); [rewrite decide_True by (by right)|rewrite decide_False by (rewrite elem_of_cons; by intros [?|?])]; done.
Qed.

(** The answers to a peer, given what was loaded. *)
Lemma serve_answers (e : Engine V) (now : Z) (loaded : gmap Bytes V) :
  let stored : gmap Bytes WireRecord := list_to_map ((fun rec => (wr_key rec, rec)) <$> filter (fun rec => negb (is_tombstone rec) = true)
    (omap (fun key => record_for e key now) (map_to_list loaded).*1)) in
  exists found uncached stored', foldl serve_loaded ([], [], stored) (map_to_list loaded) = (found, uncached, stored') /\
    (wr_key <$> found) ++ uncached.*1 ≡ₚ (map_to_list loaded).*1 /\
    (forall rec, rec ∈ found -> served e now (wr_key rec) = Some rec) /\
    (forall k b, (k, b) ∈ uncached -> served e now k = None /\ exists v, loaded !! k = Some v /\ b = encode_value v).
Proof.
  intros stored. destruct (serve_loaded_fold (map_to_list loaded) [] [] stored (NoDup_fst_map_to_list loaded)) as [st' Hf].
  eexists _, _, _. split; [exact Hf|]. cbn [app].
  assert (Hst : forall kv, kv ∈ map_to_list loaded -> stored !! kv.1 = served e now kv.1).
  { intros kv Hkv. unfold stored. rewrite served_map, decide_True; [done|]. by apply (list_elem_of_fmap_2 fst). }
  assert (Hkey : forall kv rec, kv ∈ map_to_list loaded -> stored !! kv.1 = Some rec -> wr_key rec = kv.1 /\ served e now kv.1 = Some rec).
  { intros kv rec Hkv Hs. rewrite Hst in Hs by done. split; [|done]. unfold served in Hs. destruct (record_for _ _ _) as [r|] eqn:Er; [|done].
    cbn in Hs. destruct (is_tombstone r); [done|]. injection Hs as <-. by eapply record_for_key. }
  clear Hf. clearbody stored. split_and!.
  - revert Hkey. clear Hst. generalize (map_to_list loaded). intros kvs Hkey. induction kvs as [|kv kvs IH]; [done|].
    cbn [omap list_omap]. rewrite filter_cons. specialize (IH ltac:(intros kv' rec Hkv'; apply Hkey; by right)).
    destruct (stored !! kv.1) as [rec|] eqn:Es.
    + rewrite decide_False by done. destruct (Hkey kv rec ltac:(by left) Es) as [Hk _]. rewrite !fmap_cons, Hk. cbn [app]. by f_equiv.
    + rewrite decide_True by done. rewrite !fmap_cons, <-Permutation_middle. by f_equiv.
  - intros rec (kv & Hkv & Hs)%list_elem_of_omap. destruct (Hkey kv rec Hkv Hs) as [-> ?]. done.
  - intros k b (kv & Heq & Hin)%list_elem_of_fmap. injection Heq as -> ->. apply list_elem_of_filter in Hin as [Hn Hkv].
    split; [by rewrite <-Hst|]. exists kv.2. split; [|done]. apply elem_of_map_to_list. by destruct kv.
Qed.

(** A peer's load is answered key by key. A shard with a loader and every part asked for warm here, none of the keys being loaded,
    answers each key that decodes and that the cache or the source holds exactly once, with the live record it then stores or, where the value was stored nowhere, with
    the value's encoding; it answers no other key, and leaves the loads in flight as they were. *)
Theorem a_served_load_answers_every_key (fuel : nat) (mode : Mode) (c : WConfig V) (now : Z) (loader : list Bytes -> result (gmap Bytes V) Bytes)
    (cold unverified : Z -> bool) (decodes : Bytes -> bool) (max_keys : nat) (wait_for : WShard V -> nat -> WShard V) (s : WShard V) (ks : list Bytes)
    (O : Owners) (answers : Bytes -> option V) (Hfuel : (0 < fuel)%nat)
    (Hcl : claimable O now (distinct (filter (fun key => decodes key = true) ks)) (ws_engine s)) (Hcap : max_capacity (cfg (ws_engine s)) = u64_max)
    (Hfits : Forall key_fits ks) (Hwarm : forall k, k ∈ ks -> cold (pid_of_key k) = false /\ unverified (pid_of_key k) = false)
    (Hloader : forall asked, asked ∈ chunked (missing (ws_engine s) now (distinct (filter (fun key => decodes key = true) ks))) max_keys ->
       exists values, loader asked = Ok values /\ forall k, k ∈ asked -> values !! k = answers k) :
  let held k := match cached (ws_engine s) now k with Some v => Some v | None => answers k end in
  exists s' found uncached, serve_load_encoded (Some loader) cold unverified decodes fuel mode c now max_keys wait_for s ks = Some (s', LoadServed found uncached) /\
    loads_ok (ws_engine s', O) /\ NoDup ((wr_key <$> found) ++ uncached.*1) /\
    (forall k, k ∈ (wr_key <$> found) ++ uncached.*1 <-> k ∈ ks /\ decodes k = true /\ is_Some (held k)) /\
    (forall rec, rec ∈ found -> served (ws_engine s') now (wr_key rec) = Some rec) /\
    (forall k b, (k, b) ∈ uncached -> served (ws_engine s') now k = None /\ exists v, held k = Some v /\ b = encode_value v).
Proof.
  intros held. unfold serve_load_encoded. rewrite existsb_none by (intros k Hk; by destruct (Hwarm k Hk) as [-> ->]).
  destruct (load_many_answers fuel mode c now (loader_source loader) max_keys wait_for s (filter (fun key => decodes key = true) ks) O (fun k => Ok (answers k)))
    as (s' & r & Hrun & He & Hl & Hr & _); [done|done|done| | |].
  { apply Forall_forall. intros k [_ Hk]%list_elem_of_filter. rewrite Forall_forall in Hfits. by apply Hfits. }
  { intros asked k Ha Hk. destruct (Hloader asked Ha) as (values & Hv & Hvk). unfold loader_source. rewrite Hv. cbn. rewrite lookup_fmap, Hvk by done. by destruct (answers k). }
  rewrite failure_none in Hr by eauto. destruct Hr as (loaded & -> & Hloaded). rewrite Hrun. cbn [mbind option_bind].
  destruct (serve_answers (ws_engine s') now loaded) as (found & uncached & st' & Hf & Hp & H1 & H2). rewrite Hf.
  assert (Hheld : forall k v, loaded !! k = Some v -> (k ∈ ks /\ decodes k = true) /\ held k = Some v).
  { intros k v Hk. rewrite Hloaded in Hk. case_decide as Hd; [|done]. apply list_elem_of_filter in Hd as [? ?]. done. }
  eexists _, _, _. split_and!; [done|done| | |done|].
  - rewrite Hp. apply NoDup_fst_map_to_list.
  - intros k. rewrite Hp, list_elem_of_fmap. split.
    + intros ([k' v] & -> & Hk%elem_of_map_to_list). destruct (Hheld k' v Hk) as [[? ?] Hv]. cbn. by rewrite Hv.
    + intros (Hk & Hd & [v Hv]). exists (k, v). split; [done|]. apply elem_of_map_to_list. rewrite Hloaded, decide_True; [exact Hv|]. by apply list_elem_of_filter.
  - intros k b Hkb. destruct (H2 k b Hkb) as (? & v & Hv & ->). split; [done|]. exists v. split; [|done]. by apply Hheld.
Qed.
End LoadLemmas.

(** ** Evaluating the statements *)

Definition demo_load (_ : Bytes) : result (option Bytes) Bytes := Ok (Some [7]).
Abbreviation load_here := (load_many_from (R := LwwResolver) 1 Local demo_write_config 1000 (loader_source (loader_single demo_load)) 2 (fun s _ => s) demo_write_shard).

Lemma demo_load_answers ks : failure demo_load ks = None.
Proof. apply failure_none. by eexists. Qed.
Lemma demo_loads_ok : loads_ok (small_engine, ∅).
Proof. apply (loads_ok_writes (R := LwwResolver)), loads_ok_new. Qed.

Lemma demo_claimable : claimable ∅ 1000 [[9]; [1]] small_engine.
Proof.
  split; [exact small_engine_inv|exact demo_loads_ok|repeat constructor; set_solver| |].
  - intros k Hk. repeat (apply elem_of_cons in Hk as [->|Hk]); [vm_compute; reflexivity..|by apply not_elem_of_nil in Hk].
  - intros k live Hk. repeat (apply elem_of_cons in Hk as [->|Hk]); [vm_compute; discriminate| |by apply not_elem_of_nil in Hk].
    vm_compute. intros [= <-]. by eexists.
Qed.

Lemma a_read_through_is_cache_then_source_witness :
  exists s' found, load_here [[9]; [1]; [9]] = Some (s', Ok found) /\ found !! [9] = Some [7] /\ found !! [1] = Some [10].
Proof.
  destruct (a_read_through_is_cache_then_source (R := LwwResolver) 1 Local demo_write_config 1000 (loader_source (loader_single demo_load)) 2 (fun s _ => s)
    demo_write_shard [[9]; [1]; [9]] ∅ demo_load) as (s' & r & Hrun & _ & _ & Hr & _).
  - constructor.
  - exact demo_claimable.
  - reflexivity.
  - repeat constructor; vm_compute; discriminate.
  - intros asked k _ Hk. rewrite loader_single_answers by done. by rewrite demo_load_answers.
  - rewrite demo_load_answers in Hr. destruct Hr as (found & -> & Hf). exists s', found. split; [exact Hrun|].
    rewrite !Hf. split; vm_compute; reflexivity.
Defined.

Lemma a_served_load_answers_every_key_witness :
  exists s' found uncached, serve_load_encoded (R := LwwResolver) (Some (loader_single demo_load)) (fun _ => false) (fun _ => false) (fun _ => true)
      1 Local demo_write_config 1000 2 (fun s _ => s) demo_write_shard [[9]; [1]; [9]] = Some (s', LoadServed found uncached) /\
    forall k, k ∈ (wr_key <$> found) ++ uncached.*1 <-> k = [9] \/ k = [1].
Proof.
  destruct (a_served_load_answers_every_key (R := LwwResolver) 1 Local demo_write_config 1000 (loader_single demo_load) (fun _ => false) (fun _ => false) (fun _ => true)
    2 (fun s _ => s) demo_write_shard [[9]; [1]; [9]] ∅ (fun _ => Some [7])) as (s' & found & uncached & Hrun & _ & _ & Hk & _).
  - constructor.
  - exact demo_claimable.
  - reflexivity.
  - repeat constructor; vm_compute; discriminate.
  - done.
  - intros asked _. pose proof (loader_single_fold demo_load asked ∅) as H. cbv zeta in H. rewrite demo_load_answers in H.
    destruct H as (values & Hv & Hl). exists values. split; [exact Hv|]. intros k Hin. by rewrite Hl, decide_True.
  - exists s', found, uncached. split; [exact Hrun|]. intros k. specialize (Hk k). clear Hrun. rewrite Hk. clear Hk. split.
    + intros [Hin _]. apply elem_of_cons in Hin as [->|Hin]; [left; reflexivity|].
      apply elem_of_cons in Hin as [->|Hin]; [right; reflexivity|]. apply list_elem_of_singleton in Hin as ->. left. reflexivity.
    + intros [->| ->]; (split; [|split; [reflexivity|vm_compute; by eexists]]); [left|right; left].
Defined.
